(* ===== verification/_CoqProject ===== *)
-Q . S2P
Prelude.v
Store.v
Placement.v
View.v
Wire.v
Ballot.v
Acceptor.v
Proposer.v
Meta.v
PaxosSafety.v
Cluster.v
Catalog.v
CatalogSafety.v
Transition.v
TransitionSafety.v
Mark.v
MarkSafety.v
Pins.v
GC.v
GCSafety.v
Worktree.v
Apply.v
ApplySafety.v
Checkout.v
Client.v
Refglob.v
Data.v
DataSafety.v
Forward.v
NodeNet.v
Gate.v
GateSafety.v
Reconcile.v
ReconcileSafety.v
Watch.v
WatchSafety.v
Fetch.v
FetchSafety.v
Tree.v
TreeSafety.v
UploadSafety.v
Ticket.v
Scan.v
ScanSafety.v
Copy.v
CopySafety.v
Flow.v
FlowSafety.v
FlowClient.v
Maintain.v
Admin.v
MaintainSafety.v
MaintainPlan.v
Lifecycle.v
Transport.v
