(* ===== verification/Prelude.v ===== *)
(** * dstore: a verification library

    dstore is a replicated, content-addressed object store with named references.
    Nodes keep immutable objects in local pack stores; which nodes keep a key is
    computed from the cluster's view by weighted rendezvous hashing; the view,
    the references, the maintenance lease, join tokens and the garbage
    collector's state are registers decided by CASPaxos among the voters of the
    view.  Clients and working copies read and write objects and references
    through any node.

    ** The parts and their files

    - Prelude.v (this file): bytes, machine integers, big-endian encodings, fixed
      arrays, three-way comparisons, stable sorting, record update
      [r <| f := v |>] for Go's field assignment, the hint database [dstore] and
      the tactics [computes] and [decides].
    - Store.v: the two storage libraries as interfaces.  [KVStore] is the Pebble
      database (point reads, atomic synced batches, range iterators, any of which
      may fail), [Codec] the CBOR codec of src/codec; [Reliable] adds that nothing
      fails.  A map and a self-delimiting byte format are instances.
    - Placement.v: src/placement/placement.go.  Fixed-point logarithms, scores,
      ranking and owners of a key, the bucketed [Table].
    - View.v: src/view/view.go.  The view record, quorums, write sets and read
      orders over a transition, validation of a change.
    - Wire.v: src/wire/wire.go.  Frame types, error codes, the message record,
      framing, error frames.
    - Ballot.v: src/paxos/ballot.go.
    - Acceptor.v: src/paxos/acceptor.go.  The acceptor's memory and database as a
      record; every request handler whole, with its guards and database errors;
      [Handle] dispatches.  [acc_step] is the abstract step relation it refines.
    - Proposer.v: src/paxos/proposer.go.  Calls, broadcasts, prepare and accept
      rounds, [Propose], [Settle], [Read], [Scan], [Purge], [ReadAll] over the
      class [World]: transport, view source, ballot counter, clock, context.  A
      change function is a closure that threads the variables it captures.
    - Meta.v: src/meta/meta.go and the ballot counter of src/node/node.go.
    - PaxosSafety.v: the protocol.  A step relation of a cluster whose acceptors
      run [Handle] and whose proposers run the loops of Proposer.v over a network
      that loses, repeats and reorders messages, with acceptors that restart.
    - Cluster.v: a [World] made of acceptors and a counter; liveness.
    - Catalog.v: src/catalog/catalog.go over the class [Registers], what the
      catalog needs of a proposer; the proposer is an instance.
    - CatalogSafety.v: the catalog's change functions driven by the protocol.
    - Transition.v: the changes of the view and the decisions that lead to them
      (src/node/maintenance.go, join.go, admin.go and node.go): joins, ramps,
      transitions, voter changes.  TransitionSafety.v: histories of such changes,
      each decided by some node on some earlier view.
    - Mark.v: the distributed mark of src/node/gc.go, its worker loop, requests and
      termination test; MarkSafety.v: a cluster of workers over a network that
      loses, delays and repeats requests.
    - Pins.v: pins, corrupt markers and pack stamps (src/node/node.go and
      reconcile.go).  GC.v: the rest of src/node/gc.go, the register's phases,
      barriers, marks on disk, sweep, waves and the coordinator's cycle.
      GCSafety.v: the theorems of both.
    - Data.v: the data path of a node (src/node/data.go, put.go, server.go), over
      the interfaces [Core] and [PackStore] of amber-store/core and [Net] of the
      network.  DataSafety.v: its lemmas, against the interface [Peers], what a node
      may rely on in others.  NodeNet.v: a cluster of nodes that run Data.v, which
      implements [Net] and [Peers]: requests may be lost, replies too, and nodes
      change in between.  Forward.v: the goroutine of a forward beside the handler of
      its put, as a step relation.
    - Transport.v: the pool of connections (src/transport/transport.go) with its callers
      as a step relation, and the race of a dial over addresses (iroh.go).
    - Gate.v: the reference handlers and the completeness walk (src/node/refs.go);
      GateSafety.v.
    - Reconcile.v: src/node/reconcile.go; ReconcileSafety.v.
    - Watch.v: both ends of a reference watch (src/node/watch.go and
      src/client/watch.go), with the UTF-8 decoding that globs match on;
      WatchSafety.v.
    - Fetch.v: a client's access to the cluster, negotiation, upload and the fetcher
      (src/client/client.go, objects.go and fetch.go) over the class [CNet], the
      fetcher's goroutines as a step relation; FetchSafety.v.
    - Tree.v: push and pull of whole trees (src/client/tree.go), the pull as a step
      relation over the fetcher, its loop and the local writer; TreeSafety.v (pull)
      and UploadSafety.v (negotiation and push).
    - Worktree.v: src/worktree/change.go, merge.go and diff.go: tree diffs, the
      three-way merge, textual diffs.
    - Apply.v: src/worktree/apply.go over a directory as a map from paths to nodes;
      ApplySafety.v (what it leaves alone) and Checkout.v (a whole tree into an empty
      directory).
    - Client.v: src/client/batch.go, rank.go, commit.go and refs.go, with condOf
      of src/node/refs.go.
    - Refglob.v: src/refglob/refglob.go.
    - Ticket.v: src/ticket/ticket.go, with base32.
    - Scan.v: src/worktree/scan.go and xattr.go, the walk of a directory beside its base
      over the map of Apply.v; ScanSafety.v.
    - Copy.v: src/worktree/tree.go, the files a working copy keeps, finding, locking,
      opening and creating one; CopySafety.v.
    - Flow.v: src/worktree/flow.go, clone, fetch, pull, push and status over the classes
      [Remote], what a working copy needs of a cluster, and [WorkCore], tree and commit
      objects; FlowSafety.v.  FlowClient.v: the client of Fetch.v, Tree.v and Client.v is
      a [Remote].
    - Maintain.v: src/node/maintenance.go, the holder's duties carried out: ticks, the
      lease, forwarding, transitions, the sync of a voter change, backups, the daily pass,
      over the class [MaintWorld] and the network of Data.v.  Admin.v: src/node/admin.go
      and join.go, operators' commands and joins.  MaintainSafety.v: over the traces of
      the calls they make, with nothing assumed of the callees.  MaintainPlan.v: that
      these operations make the decisions of Transition.v.
    - Lifecycle.v: src/node/node.go: defaults, opening, the first view, reachability, the
      node's own entry, offline commands.

    ** What the theorems show

    Consensus.  An acceptor implements its step relation on every message and
    database failure ([Handle_refines]), never goes back on a promise
    ([promises_bind]), answers only what is durable ([restarts_invisible]) and
    refuses what it must ([Handle_refuses]); scans by cursor are complete
    ([scan_complete]).  Over the whole cluster, for one register in one epoch, a chosen
    value is never lost or forked ([chosen_never_lost], [accept_success_chosen]), fast
    reads are linearizable ([fast_read_linearizable]), ballots are never reused
    ([ballots_never_reused]), quorums of consecutive voter sets meet
    ([Quorum_overlap]), and with all voters up a proposal commits within one
    attempt per voter plus one ([Propose_commits]).

    Catalog.  Of the writes that name one version of a reference at most one wins
    ([version_replaced_once]); an unexpired lease stays with its holder
    ([lease_exclusive]); in the first epoch of a register a view version names one view
    ([view_version_identifies]); every outcome of a reference write and a view
    change is accounted for ([RefPut_outcome], [CASView_outcome]).

    Placement.  Owners are distinct, zone-spread and stable under removal of other
    nodes ([Owners_sound], [Owners_remove], [Owners_order_independent]); the
    bucket table changes nothing ([Table_transparent]); a transition's write set
    and read order cover both placements ([WriteSet_ReadOrder]) and a validated
    change leaves an owner behind ([ValidateChange_survivor]).

    Transitions.  Every change of the view in a history keeps it well formed
    ([view_type_invariant]) and is a step of the transition machine
    ([transition_refines]); an epoch names one configuration
    ([epoch_names_configuration]); a commit leaves every key an owner that had it
    ([commit_keeps_an_owner]); voter sets change so that quorums meet
    ([voter_change_safe]); with all participants reporting a transition is
    committed ([transition_completes]), and a participant reports: its pass ends
    whatever the network does ([pass_ends]).

    Maintenance.  Every change of the view that the coordinator, a join or an operator
    proposes is one of those histories, decided on a view the node had
    ([coordinator_planned], [planned_extends_history]); a voter change is declared done
    only after the calls of its sync, in their order ([voter_sync_complete]), which ends
    ([voter_sync_ends]); a restore writes the references its backup listed, in order
    ([backup_restores]); the daily pass removes only what
    is due ([dailyPass_refines]); a restart finds the view the node went by
    ([restart_keeps_view]).

    Garbage collection.  When the polling ends everything reachable is marked
    ([mark_complete], [mark_ends_quiescent]); nothing reachable and nothing pinned
    is swept ([reachable_survives], [pin_honoured]), also after a restart
    ([restart_keeps_mark]); the register follows its phases ([gc_phase_refines],
    [acked_frozen], [cycle_sweeps_marked]) and the sweep ends ([sweep_completes]).

    Data.  The answer to a put names only nodes that hold the record and accounts
    for every other owner ([put_accounted]); a forward that runs beside its handler
    amounts to one call with the records handed over ([forward_exact],
    [wait_as_one_call]) and ends when it is given up ([abort_ends]); the handlers write a
    reference only over objects that enough owners hold and pin ([ref_put_gated]), by a walk that ends
    ([walk_terminates]); a pack is stamped as replicated only when every node it
    owes a record was seen with it ([forward_before_drop]).  A pool keeps to its size and
    uses its connections in turn ([pool_bounded], [Get_rotates]); a dial over several
    addresses leaves one connection ([race_keeps_one]).

    Watches and transfers.  When a watch stream says it is in step, the client's
    table is the catalog's ([synced_is_current]); while names are not deleted and
    written again, hints keep it so ([calm_hints_mirror]).  However its goroutines
    are scheduled, a fetch gives every key one outcome ([fetch_accounts]) and ends
    ([fetch_ends]); a pull brings in all that lies under its root and ends
    ([pull_complete], [pull_ends]).  A negotiation ends with one outcome per key
    ([Missing_accounts]); a push writes its reference after every key was acknowledged
    ([push_acknowledged]); client and nodes read the replication policy alike
    ([Placed_iff_not_short]).

    Formats.  Framing, ballots and write conditions survive the wire
    ([framing_round_trip], [ballot_encoding], [condition_over_the_wire]); tickets survive
    both text forms ([ticket_round_trip], [ids_round_trip]).

    Working copies and clients.  A tree diff lists exactly the differences, in
    order, and ends ([DiffTrees_lists], [DiffTrees_total]); a merge follows its
    rules ([Merge_rules]); applying changes touches nothing beside their paths, whatever
    fails ([Apply_spares]), and makes an empty directory the tree it is given
    ([clone_checks_out]); upload batches keep their limits ([batches_spec]);
    globs respect their prefix and segments ([Match_sound]).  A scan lists exactly what
    differs from the base, in order, and ends ([Scan_lists], [Scan_total]).  The position
    of a copy survives its file ([state_round_trip]), the nearest copy above a directory is
    found ([Find_nearest]) and opened by one process at a time ([open_exclusive]).
    Whatever is done and whatever fails, all that a copy's position names is complete in
    its store ([working_copy_whole]); a pull without force keeps local work
    ([pull_keeps_local]), a push without force replaces only the version that was fetched
    ([push_guarded]); a clone is complete or reports its error ([clone_outcome]).  These
    hold for any [Remote] with its laws, and the client has them ([client_remote_ok]).

    Some theorems record behaviour that differs from what the code says it does:
    [CASView_unknown_other], [seed_below_floor], [Merge_retype_over_metadata],
    [RefList_stops_early], [count_lines_marker], [DeletePrefix_spec],
    [Log2Fix_below_floor], [nextRampWeight_jumps], [deferred_voter_added_twice],
    [report_of_an_earlier_round], [refreeze_commits_unfinished], [resweep_skipped],
    [failed_cycle_blocks], [cache_entry_renewed], [expired_put_unavailable],
    [timeout_from_catalog], [stale_view_stamps], [audit_blocked],
    [recreated_name_lost], [owner_skipped], [mode_set_through_link],
    [removed_dir_fails], [applied_again_fails], [attribute_not_removed],
    [unchanged_push_skipped], [failed_clone_leftovers], [failed_init_leftovers],
    [refused_seed_ignored], [interrupted_join_stuck], [voters3_not_resumed],
    [forwarded_again], [offline_restore_fails], [finish_waits_for_stalled_owner],
    [broken_call_keeps_connection], [closed_connection_given], [waiter_dials_again],
    [dial_outlives_close], [accept_past_gate], [failed_read_reissues], [unreadable_pin],
    [cut_behind_header_is_EOF], [undecoded_lacking_held].

    ** Modelling decisions

    Integers that wrap are numbers with the wrap written out ([u64], [i64]); byte
    slices are lists, with [option] where the source tells nil from empty.  The
    rows of an acceptor are read and written under its lock, and [Handle] takes a request
    in one step; in the code the check of the epoch, the check for retirement, the row and
    the stamp of the reply are separate sections, and an accept can pass its check and be
    written after a newer view was installed ([accept_past_gate]).  The parallel calls of a
    broadcast run in an order the world chooses, which covers every interleaving
    because each call touches one acceptor.  blake3, the pack store, directory
    objects, reference records and unified diffs belong to other modules and are
    parameters.

    Fuel.  Proposer loops that the source leaves unbounded (retries on conflicts
    and newer views) take fuel and answer [None] when it runs out; [Propose_commits]
    shows that one attempt per voter plus one is enough without rivals.
    [ballotAbove] needs two turns ([ballotAbove_total]).  Tree diffs need the
    depth of the trees plus one; globs their own length ([compile_loop_fuel]);
    the merge's walk to the root the length of the path.  Paging loops take a page
    of fuel per page.  The completeness walk takes a level of fuel per level of the
    object graph; [walk_terminates] shows that the number of objects plus one is
    enough.  A negotiation takes one of fuel per round ([Missing_accounts]: the number
    of nodes plus one is enough), a watch's scan one per page, a pull's [want] one per
    level it expands ([pull_ends]: the number of objects plus one); the fetcher and the
    pull are relations and need none.  A scan needs the depth of directory and base plus
    one ([Scan_total]).  The sync of a voter change takes one of fuel per turn of a wait
    and per page: 122 turns reach the longer deadline ([voter_sync_ends]).

    ** Not modelled

    Endpoints, streams, discovery and the in-memory network of the tests, the command line
    and the terminal output, process start-up and shutdown, status reports, progress counters and the pacing of
    copies are I/O without decisions of their own.  src/codec sets options of the CBOR
    library; what the program relies on is the class [Codec].  Temporary files of working
    copies, and the retry of an interrupted lock, are not visible in the map that stands
    for a directory.  In Data.v a handler's goroutines run one after the other: they call
    different nodes, and the cluster of NodeNet.v lets anything else happen between two
    calls; Forward.v shows for one forward that the order does not matter.
    The channels of the fetcher and of the local writer have no bound, so that waiting for
    room is not expressed.  Which operations on files fail is a function of operation and
    path, fixed over a run.  A mode set through a symbolic link is recorded with the link's
    target and not carried out on it.  The codec takes every string for UTF-8, and a node
    id from a slice that is too short, on which Go panics, is padded.  [Scan_lists] is
    about the walk: [listDir], [entry] and [must_hash] are the code's on both sides.
    That applying a diff reaches its target is shown for an empty base ([clone_checks_out])
    and not for others: directories whose modes forbid writing and attributes that stay
    ([mode_set_through_link], [removed_dir_fails], [attribute_not_removed]) stand between
    the two. *)
From Stdlib Require Import Strings.Byte.
From stdpp Require Export sorting strings numbers gmap list.
Export Strings.Byte.

Declare Scope dstore_scope.
Delimit Scope dstore_scope with dstore.
Open Scope dstore_scope.

(** * Record update

    [r <| f := v |>] is the Go assignment [r.f = v] as a value.  A record
    declares its [Eta], and the setter of each field is found by abstracting the
    projection from it. *)

Class Eta (R : Type) := eta : R → R.
Class Setter {R T : Type} (proj : R → T) := set_field : (T → T) → R → R.
Arguments set_field {R T} proj {_} _ !_ /.

Ltac solve_setter R proj :=
  let e := constr:(_ : Eta R) in
  let e := eval hnf in e in
  let e := eval pattern proj in e in
  lazymatch e with
  | ?g proj => exact (λ f r, g (λ r', f (proj r')) r)
  end.

#[export] Hint Extern 0 (@Setter ?R _ ?proj) => solve_setter R proj : typeclass_instances.

Notation "r <| f := v |>" := (set_field f (λ _, v) r)
  (at level 12, left associativity, format "r  <| f  :=  v |>") : dstore_scope.

(** * Bytes *)

(** A Go [[]byte].  The nil slice and the empty slice are both [[]]; where the
    source tells them apart the models use [option bytes]. *)
Notation bytes := (list byte).

#[global] Instance byte_eq_dec : EqDecision byte.
Proof. intros x y. destruct (Byte.byte_eq_dec x y); [by left | by right]. Defined.

#[global] Instance byte_countable : Countable byte.
Proof.
  refine (inj_countable Byte.to_N Byte.of_N _). intros x. apply Byte.of_to_N.
Defined.

(** The conversion [byte(n)]: the low eight bits. *)
Definition byte_of_N (n : N) : byte :=
  match Byte.of_N (n mod 256) with Some b => b | None => x00 end.

Lemma to_N_byte_of_N n : Byte.to_N (byte_of_N n) = (n mod 256)%N.
Proof.
  unfold byte_of_N. destruct (Byte.of_N (n mod 256)) as [b|] eqn:E.
  - by apply Byte.to_of_N.
  - apply Byte.of_N_None_iff in E. pose proof (N.mod_lt n 256). lia.
Qed.

Lemma byte_of_N_to_N b : byte_of_N (Byte.to_N b) = b.
Proof.
  unfold byte_of_N. pose proof (Byte.to_N_bounded b).
  rewrite N.mod_small by lia. by rewrite Byte.of_to_N.
Qed.

Lemma to_N_inj b1 b2 : Byte.to_N b1 = Byte.to_N b2 → b1 = b2.
Proof. intros H. rewrite <- (byte_of_N_to_N b1), <- (byte_of_N_to_N b2). by rewrite H. Qed.

Lemma to_N_lt b : (Byte.to_N b < 256)%N.
Proof. pose proof (Byte.to_N_bounded b). lia. Qed.

(** * Three-way comparisons

    A Go comparison function answers -1, 0 or 1: here [Lt], [Eq] or [Gt]. *)

Class TotalCmp {A} (cmp : A → A → comparison) : Prop := {
  cmp_eq_iff x y : cmp x y = Eq ↔ x = y;
  cmp_antisym x y : cmp y x = CompOpp (cmp x y);
  cmp_lt_trans x y z : cmp x y = Lt → cmp y z = Lt → cmp x z = Lt;
}.

Arguments cmp_eq_iff {A} cmp {_} x y.
Arguments cmp_antisym {A} cmp {_} x y.
Arguments cmp_lt_trans {A} cmp {_} x y z.

Definition cmp_lt {A} (cmp : A → A → comparison) (x y : A) : Prop := cmp x y = Lt.
Definition cmp_le {A} (cmp : A → A → comparison) (x y : A) : Prop := cmp x y ≠ Gt.

Section total_cmp.
Context {A : Type} (cmp : A → A → comparison) `{!TotalCmp cmp}.

Lemma cmp_refl x : cmp x x = Eq.
Proof. by apply cmp_eq_iff. Qed.

Lemma cmp_gt_lt x y : cmp x y = Gt ↔ cmp y x = Lt.
Proof. rewrite (cmp_antisym cmp x y). destruct (cmp x y); simpl; intuition congruence. Qed.

Lemma cmp_le_lt_eq x y : cmp_le cmp x y ↔ cmp_lt cmp x y ∨ x = y.
Proof.
  unfold cmp_le, cmp_lt. rewrite <- (cmp_eq_iff cmp x y). destruct (cmp x y); simpl; intuition congruence.
Qed.

Lemma cmp_lt_irrefl x : ¬ cmp_lt cmp x x.
Proof. unfold cmp_lt. by rewrite cmp_refl. Qed.

Lemma cmp_nlt_le x y : ¬ cmp_lt cmp x y ↔ cmp_le cmp y x.
Proof. unfold cmp_le, cmp_lt. rewrite cmp_gt_lt. done. Qed.

Lemma cmp_nle_lt x y : ¬ cmp_le cmp x y ↔ cmp_lt cmp y x.
Proof. unfold cmp_le, cmp_lt. rewrite cmp_gt_lt. destruct (cmp y x); simpl; intuition congruence. Qed.

#[export] Instance cmp_lt_transitive : Transitive (cmp_lt cmp).
Proof. intros x y z. apply (cmp_lt_trans cmp). Qed.

#[export] Instance cmp_le_reflexive : Reflexive (cmp_le cmp).
Proof. intros x. apply cmp_le_lt_eq. by right. Qed.

Lemma cmp_lt_le x y : cmp_lt cmp x y → cmp_le cmp x y.
Proof. intros H. apply cmp_le_lt_eq. by left. Qed.

Lemma cmp_lt_le_trans x y z : cmp_lt cmp x y → cmp_le cmp y z → cmp_lt cmp x z.
Proof. rewrite cmp_le_lt_eq. intros H [H'| ->]; [by etrans | done]. Qed.

Lemma cmp_le_lt_trans x y z : cmp_le cmp x y → cmp_lt cmp y z → cmp_lt cmp x z.
Proof. rewrite cmp_le_lt_eq. intros [H| ->] H'; [by etrans | done]. Qed.

#[export] Instance cmp_le_transitive : Transitive (cmp_le cmp).
Proof.
  intros x y z. rewrite !(cmp_le_lt_eq x). intros [H| ->] H'.
  - left. by eapply cmp_lt_le_trans.
  - by apply cmp_le_lt_eq.
Qed.

Lemma cmp_le_antisym x y : cmp_le cmp x y → cmp_le cmp y x → x = y.
Proof.
  rewrite (cmp_le_lt_eq x). intros [H|H] H'; [|done].
  by apply cmp_nlt_le in H'.
Qed.

Lemma cmp_lt_not_le x y : cmp_lt cmp x y → ¬ cmp_le cmp y x.
Proof. by rewrite cmp_nle_lt. Qed.

Lemma cmp_total x y : cmp_lt cmp x y ∨ x = y ∨ cmp_lt cmp y x.
Proof.
  unfold cmp_lt. rewrite <- (cmp_eq_iff cmp x y), <- (cmp_gt_lt x y). destruct (cmp x y); auto.
Qed.

#[export] Instance cmp_le_total : Total (cmp_le cmp).
Proof. intros x y. rewrite !cmp_le_lt_eq. destruct (cmp_total x y) as [|[|]]; auto. Qed.

#[export] Instance cmp_le_anti_symm : AntiSymm (=) (cmp_le cmp).
Proof. intros x y. apply cmp_le_antisym. Qed.

End total_cmp.

#[global] Instance cmp_lt_dec {A} (cmp : A → A → comparison) x y : Decision (cmp_lt cmp x y).
Proof. unfold cmp_lt. apply _. Defined.
#[global] Instance cmp_le_dec {A} (cmp : A → A → comparison) x y : Decision (cmp_le cmp x y).
Proof. unfold cmp_le. apply _. Defined.

#[global] Instance N_total_cmp : TotalCmp N.compare.
Proof.
  split.
  - intros. apply N.compare_eq_iff.
  - intros. by rewrite N.compare_antisym.
  - intros x y z. rewrite !N.compare_lt_iff. lia.
Qed.

(** ** [bytes.Compare] *)

Fixpoint bytes_compare (a b : bytes) : comparison :=
  match a, b with
  | [], [] => Eq
  | [], _ => Lt
  | _, [] => Gt
  | x :: a', y :: b' =>
      match N.compare (Byte.to_N x) (Byte.to_N y) with
      | Eq => bytes_compare a' b'
      | c => c
      end
  end.

Lemma bytes_compare_cons x y a b :
  bytes_compare (x :: a) (y :: b) =
    match N.compare (Byte.to_N x) (Byte.to_N y) with Eq => bytes_compare a b | c => c end.
Proof. done. Qed.

#[global] Instance bytes_total_cmp : TotalCmp bytes_compare.
Proof.
  split.
  - intros x y. revert y. induction x as [|a x IH]; intros [|b y]; simpl; [done..|].
    destruct (N.compare_spec (Byte.to_N a) (Byte.to_N b)) as [E|E|E].
    + apply to_N_inj in E as ->. rewrite IH. naive_solver.
    + split; [done|]. intros [= -> _]. lia.
    + split; [done|]. intros [= -> _]. lia.
  - intros x y. revert y. induction x as [|a x IH]; intros [|b y]; simpl; [done..|].
    rewrite (N.compare_antisym (Byte.to_N a)). destruct (N.compare _ _); simpl; auto.
  - intros x y z. revert y z. induction x as [|a x IH]; intros [|b y] [|c z]; simpl; try done.
    destruct (N.compare_spec (Byte.to_N a) (Byte.to_N b)),
      (N.compare_spec (Byte.to_N b) (Byte.to_N c)),
      (N.compare_spec (Byte.to_N a) (Byte.to_N c)); try lia; try done.
    apply IH.
Qed.

Notation bytes_lt := (cmp_lt bytes_compare).
Notation bytes_le := (cmp_le bytes_compare).

Lemma bytes_compare_app_same p a b : bytes_compare (p ++ a) (p ++ b) = bytes_compare a b.
Proof. induction p as [|x p IH]; simpl; [done|]. by rewrite N.compare_refl. Qed.

Lemma bytes_compare_app a1 a2 b1 b2 :
  length a1 = length a2 →
  bytes_compare (a1 ++ b1) (a2 ++ b2) =
    match bytes_compare a1 a2 with Eq => bytes_compare b1 b2 | c => c end.
Proof.
  revert a2. induction a1 as [|x a1 IH]; intros [|y a2]; simpl; intros Hl; try done.
  rewrite IH by lia. by destruct (N.compare _ _).
Qed.

(** * Machine integers *)

Definition u8_max : N := 2 ^ 8.
Definition u32_max : N := 2 ^ 32.
Definition u64_max : N := 2 ^ 64.

(** [uint64] arithmetic wraps around. *)
Definition u64 (n : N) : N := n mod u64_max.

Lemma u64_lt n : (u64 n < u64_max)%N.
Proof. apply N.mod_lt. done. Qed.

Lemma u64_small n : (n < u64_max)%N → u64 n = n.
Proof. apply N.mod_small. Qed.

(** [int64] arithmetic wraps around to the signed range. *)
Definition i64 (z : Z) : Z := ((z + 2 ^ 63) mod 2 ^ 64 - 2 ^ 63)%Z.

Lemma i64_small z : (- 2 ^ 63 ≤ z < 2 ^ 63)%Z → i64 z = z.
Proof. intros H. unfold i64. rewrite Z.mod_small; lia. Qed.

(** ** Big-endian integers, [binary.BigEndian] *)

Fixpoint be_decode_acc (acc : N) (b : bytes) : N :=
  match b with [] => acc | x :: b' => be_decode_acc (acc * 256 + Byte.to_N x) b' end.

Definition be_decode (b : bytes) : N := be_decode_acc 0 b.

(** The [w] low bytes of [n], most significant first. *)
Fixpoint be_encode (w : nat) (n : N) : bytes :=
  match w with
  | O => []
  | S w' => be_encode w' (n / 256) ++ [byte_of_N n]
  end.

Lemma length_be_encode w n : length (be_encode w n) = w.
Proof. revert n. induction w as [|w IH]; intros n; simpl; [done|]. rewrite length_app, IH. simpl. lia. Qed.

Lemma be_decode_acc_app acc a b :
  be_decode_acc acc (a ++ b) = be_decode_acc (be_decode_acc acc a) b.
Proof. revert acc. induction a as [|x a IH]; intros acc; simpl; [done|]. apply IH. Qed.

Lemma be_decode_snoc a x : be_decode (a ++ [x]) = (be_decode a * 256 + Byte.to_N x)%N.
Proof. unfold be_decode. by rewrite be_decode_acc_app. Qed.

Lemma be_decode_lt b : (be_decode b < 2 ^ (8 * N.of_nat (length b)))%N.
Proof.
  induction b as [|x b IH] using rev_ind; [done|].
  rewrite be_decode_snoc, length_app. simpl.
  replace (8 * N.of_nat (length b + 1))%N with (8 * N.of_nat (length b) + 8)%N by lia.
  rewrite N.pow_add_r. pose proof (to_N_lt x). change (2 ^ 8)%N with 256%N. nia.
Qed.

Lemma be_decode_encode w n : (n < 2 ^ (8 * N.of_nat w))%N → be_decode (be_encode w n) = n.
Proof.
  revert n. induction w as [|w IH]; intros n Hn.
  - simpl in *. unfold be_decode. simpl. lia.
  - simpl be_encode. rewrite be_decode_snoc, IH.
    + rewrite to_N_byte_of_N. pose proof (N.div_mod n 256). lia.
    + apply N.Div0.div_lt_upper_bound.
      replace (8 * N.of_nat (S w))%N with (8 + 8 * N.of_nat w)%N in Hn by lia.
      by rewrite N.pow_add_r in Hn.
Qed.

Lemma be_encode_decode b : be_encode (length b) (be_decode b) = b.
Proof.
  induction b as [|x b IH] using rev_ind; [done|].
  rewrite be_decode_snoc, length_app, Nat.add_comm. simpl.
  pose proof (to_N_lt x). f_equal.
  - rewrite N.div_add_l, N.div_small by lia. by rewrite N.add_0_r.
  - f_equal. unfold byte_of_N.
    rewrite N.add_comm, N.Div0.mod_add, N.mod_small by lia. by rewrite Byte.of_to_N.
Qed.

(** Big-endian encodings order like the integers. *)
Lemma be_compare a b :
  length a = length b → bytes_compare a b = N.compare (be_decode a) (be_decode b).
Proof.
  revert b. induction a as [|x a IH] using rev_ind; intros b Hl.
  - by destruct b.
  - destruct b as [|y b _] using rev_ind; rewrite ?length_app in Hl; simpl in Hl; [lia|].
    rewrite bytes_compare_app, !be_decode_snoc, IH by lia. simpl.
    pose proof (to_N_lt x). pose proof (to_N_lt y).
    destruct (N.compare_spec (be_decode a) (be_decode b)) as [E|E|E]; symmetry.
    + rewrite E. destruct (N.compare_spec (Byte.to_N x) (Byte.to_N y)).
      * apply N.compare_eq_iff. lia.
      * apply N.compare_lt_iff. lia.
      * apply N.compare_gt_iff. lia.
    + apply N.compare_lt_iff. nia.
    + apply N.compare_gt_iff. nia.
Qed.

(** * Fixed-size arrays, [[n]byte] *)

Record arr (n : nat) := Arr { arr_bytes : bytes; arr_ok : Nat.eqb (length arr_bytes) n = true }.
Arguments Arr {n} _ _.
Arguments arr_bytes {n} _.
Arguments arr_ok {n} _.
Coercion arr_bytes : arr >-> list.

Lemma arr_length {n} (a : arr n) : length a = n.
Proof. apply Nat.eqb_eq, arr_ok. Qed.

Lemma arr_eq {n} (a b : arr n) : arr_bytes a = arr_bytes b → a = b.
Proof.
  destruct a as [a Ha], b as [b Hb]. simpl. intros ->. f_equal. apply eq_pi. apply _.
Qed.

#[global] Instance arr_eq_dec n : EqDecision (arr n).
Proof.
  intros a b. destruct (decide (arr_bytes a = arr_bytes b)) as [E|E].
  - left. by apply arr_eq.
  - right. by intros ->.
Defined.

(** [copy(out[:], b)] into a zero array: truncates, or pads with zeros. *)
Program Definition arr_of (n : nat) (b : bytes) : arr n :=
  Arr (take n (b ++ replicate n x00)) _.
Next Obligation.
  intros n b. apply Nat.eqb_eq. rewrite length_take, length_app, length_replicate. lia.
Qed.

Lemma arr_of_exact n b : length b = n → arr_bytes (arr_of n b) = b.
Proof. intros <-. simpl. by rewrite take_app_length. Qed.

Lemma arr_of_bytes {n} (a : arr n) : arr_of n a = a.
Proof. apply arr_eq, arr_of_exact, arr_length. Qed.

#[global] Instance arr_countable n : Countable (arr n).
Proof. refine (inj_countable' arr_bytes (arr_of n) _). apply arr_of_bytes. Defined.

Definition arr_zero (n : nat) : arr n := arr_of n [].

Definition arr_compare {n} (a b : arr n) : comparison := bytes_compare a b.

#[global] Instance arr_total_cmp n : TotalCmp (@arr_compare n).
Proof.
  split; unfold arr_compare.
  - intros a b. rewrite (cmp_eq_iff bytes_compare). split; [apply arr_eq|by intros ->].
  - intros a b. apply (cmp_antisym bytes_compare).
  - intros a b c. apply (cmp_lt_trans bytes_compare).
Qed.

(** [bytes.Equal(raw, id[:])] *)
Definition arr_is {n} (raw : bytes) (a : arr n) : bool := bool_decide (raw = arr_bytes a).

Lemma arr_is_spec {n} raw (a : arr n) : arr_is raw a = true ↔ raw = arr_bytes a.
Proof. apply bool_decide_eq_true. Qed.

(** * Stable sorting, [sort.SliceStable]

    [lt x y] is the slice's less function.  Insertion before the first element
    that is not smaller keeps equal elements in order. *)
Section sort.
Context {A : Type} (lt : A → A → bool).

Fixpoint insert_by (x : A) (l : list A) : list A :=
  match l with
  | [] => [x]
  | y :: l' => if lt y x then y :: insert_by x l' else x :: l
  end.

Fixpoint sort_by (l : list A) : list A :=
  match l with [] => [] | x :: l' => insert_by x (sort_by l') end.

Lemma insert_by_perm x l : insert_by x l ≡ₚ x :: l.
Proof.
  induction l as [|y l IH]; simpl; [done|]. destruct (lt y x); [|done].
  rewrite IH. apply Permutation_swap.
Qed.

Lemma sort_by_perm l : sort_by l ≡ₚ l.
Proof. induction l as [|x l IH]; simpl; [done|]. by rewrite insert_by_perm, IH. Qed.

Lemma length_sort_by l : length (sort_by l) = length l.
Proof. apply Permutation_length, sort_by_perm. Qed.

Lemma elem_of_sort_by x l : x ∈ sort_by l ↔ x ∈ l.
Proof. by rewrite sort_by_perm. Qed.

(** The order a sort by a strict order establishes: nothing later is smaller. *)
Definition nlt (x y : A) : Prop := lt y x = false.

(** [lt] orders the elements of [P] strictly and transitively. *)
Definition strict_on (P : A → Prop) : Prop :=
  (∀ x y, P x → P y → lt x y = true → lt y x = false) ∧
  (∀ x y z, P x → P y → P z → nlt x y → nlt y z → nlt x z).

Lemma insert_by_sorted P x l :
  strict_on P → P x → Forall P l →
  StronglySorted nlt l → StronglySorted nlt (insert_by x l).
Proof.
  intros [Has Htr] Hx Hl Hs. induction Hs as [|y l Hs IH Hy]; simpl.
  { repeat constructor. }
  apply Forall_cons_1 in Hl as [Py Hl]. destruct (lt y x) eqn:E.
  - constructor; [by apply IH|]. rewrite insert_by_perm. constructor; [|done].
    unfold nlt. by apply Has.
  - constructor; [by constructor|]. constructor; [done|].
    rewrite Forall_forall in Hl, Hy |- *. intros z Hz.
    apply (Htr x y z); auto.
Qed.

Lemma sort_by_sorted P l :
  strict_on P → Forall P l → StronglySorted nlt (sort_by l).
Proof.
  intros HP. induction l as [|x l IH]; simpl; intros Hl; [constructor|].
  apply Forall_cons_1 in Hl as [Hx Hl]. eapply insert_by_sorted; eauto.
  by rewrite sort_by_perm.
Qed.

(** On a total order (only equal elements tie) the sorted list is unique. *)
Lemma sorted_unique P l1 l2 :
  (∀ x y, P x → P y → lt x y = false → lt y x = false → x = y) →
  Forall P l1 → l1 ≡ₚ l2 →
  StronglySorted nlt l1 → StronglySorted nlt l2 → l1 = l2.
Proof.
  intros Htot HP Hp Hs1 Hs2. apply StronglySorted_unique_strong with (R := nlt); auto.
  intros x y Hx Hy. unfold nlt. intros. rewrite Forall_forall in HP.
  apply Htot; auto. apply HP. by rewrite Hp.
Qed.

(** Sorting commutes with dropping elements. *)
Lemma insert_by_filter P `{!∀ x, Decision (P x)} x l (Q : A → Prop) :
  strict_on Q → Q x → Forall Q l → StronglySorted nlt l →
  filter P (insert_by x l) = if decide (P x) then insert_by x (filter P l) else filter P l.
Proof.
  intros HQ Hx Hl Hs. induction Hs as [|y l Hs IH Hy]; simpl.
  { rewrite filter_cons, filter_nil. by case_decide. }
  apply Forall_cons_1 in Hl as [Qy Hl]. destruct (lt y x) eqn:E.
  - rewrite !filter_cons, IH by done. repeat case_decide; simpl; [|done..].
    by rewrite E.
  - rewrite filter_cons. case_decide as Px; [|done].
    rewrite filter_cons. case_decide as Py; simpl; [by rewrite E|].
    destruct (filter P l) as [|z l'] eqn:Ef; [done|]. simpl.
    assert (z ∈ l) as Hz by (apply (list_elem_of_filter P); rewrite Ef; left).
    rewrite Forall_forall in Hl, Hy. destruct HQ as [_ Htr].
    assert (lt z x = false) as ->; [|done]. apply (Htr x y z); auto.
Qed.

Lemma sort_by_filter P `{!∀ x, Decision (P x)} l (Q : A → Prop) :
  strict_on Q → Forall Q l → sort_by (filter P l) = filter P (sort_by l).
Proof.
  intros HQ. induction l as [|x l IH]; intros Hl; [done|]. simpl.
  apply Forall_cons_1 in Hl as [Hx Hl].
  rewrite (insert_by_filter P x (sort_by l) Q); auto.
  - rewrite filter_cons. case_decide; simpl; by rewrite IH.
  - by rewrite sort_by_perm.
  - by eapply sort_by_sorted.
Qed.
End sort.

Lemma insert_by_map {A B} (f : A → B) (lt : A → A → bool) (lt' : B → B → bool) x l :
  (∀ y, y ∈ l → lt' (f y) (f x) = lt y x) →
  f <$> insert_by lt x l = insert_by lt' (f x) (f <$> l).
Proof.
  induction l as [|y l IH]; intros H; simpl; [done|].
  rewrite H by left. destruct (lt y x); simpl; [|done].
  f_equal. apply IH. intros z Hz. apply H. by right.
Qed.

Lemma sort_by_map {A B} (f : A → B) (lt : A → A → bool) (lt' : B → B → bool) l :
  (∀ x y, x ∈ l → y ∈ l → lt' (f x) (f y) = lt x y) →
  f <$> sort_by lt l = sort_by lt' (f <$> l).
Proof.
  induction l as [|x l IH]; intros H; simpl; [done|].
  rewrite (insert_by_map f lt lt').
  - f_equal. apply IH. intros. apply H; by right.
  - intros y. rewrite elem_of_sort_by. intros. apply H; [by right|by left].
Qed.

(** * Lists *)

Lemma NoDup_fmap_inj_on {A B} (f : A → B) (l : list A) x y :
  NoDup (f <$> l) → x ∈ l → y ∈ l → f x = f y → x = y.
Proof.
  induction l as [|z l IH]; [by intros _ ?%elem_of_nil|].
  rewrite fmap_cons. intros [Hz Hnd]%NoDup_cons Hx Hy Hf.
  apply elem_of_cons in Hx as [->|Hx], Hy as [->|Hy]; auto.
  - destruct Hz. rewrite Hf. by apply list_elem_of_fmap_2.
  - destruct Hz. rewrite <- Hf. by apply list_elem_of_fmap_2.
Qed.

Lemma StronglySorted_lookup {A} (R : relation A) l p q x y :
  StronglySorted R l → (p < q)%nat → l !! p = Some x → l !! q = Some y → R x y.
Proof.
  intros Hs. revert p q. induction Hs as [|z l Hs IH Hz]; intros p q Hpq Hp Hq; [done|].
  destruct q as [|q]; [lia|]. destruct p as [|p]; simpl in *.
  - injection Hp as <-. rewrite Forall_forall in Hz. apply Hz. by eapply list_elem_of_lookup_2.
  - eapply IH; [|done..]. lia.
Qed.

Lemma StronglySorted_impl {A} (R S : relation A) l :
  (∀ x y, R x y → S x y) → StronglySorted R l → StronglySorted S l.
Proof.
  intros Himp. induction 1 as [|x l Hs IH Hx]; constructor; [done|].
  eapply Forall_impl; [exact Hx|]. auto.
Qed.

Lemma sublist_elem_of {A} (l1 l2 : list A) x : l1 `sublist_of` l2 → x ∈ l1 → x ∈ l2.
Proof. induction 1; [done|..]; rewrite ?elem_of_cons; naive_solver. Qed.

(** * Strings

    Go strings are byte strings; [String.list_byte_of_string] is [[]byte(s)]. *)

Definition of_string (s : string) : bytes := String.list_byte_of_string s.
Definition to_string (b : bytes) : string := String.string_of_list_byte b.

Lemma to_of_string s : to_string (of_string s) = s.
Proof. apply String.string_of_list_byte_of_string. Qed.

Lemma of_to_string b : of_string (to_string b) = b.
Proof. apply String.list_byte_of_string_of_list_byte. Qed.

#[global] Instance of_string_inj : Inj (=) (=) of_string.
Proof. intros s1 s2 E. by rewrite <- (to_of_string s1), <- (to_of_string s2), E. Qed.

#[global] Instance to_string_inj : Inj (=) (=) to_string.
Proof. intros s1 s2 E. by rewrite <- (of_to_string s1), <- (of_to_string s2), E. Qed.

Lemma of_string_app s1 s2 : of_string (s1 +:+ s2) = of_string s1 ++ of_string s2.
Proof.
  unfold of_string, String.list_byte_of_string.
  induction s1 as [|a s1 IH]; simpl; [done|]. by rewrite IH.
Qed.

(** ** [encoding/hex] *)

Definition hex_digit (n : N) : byte :=
  if (n <? 10)%N then byte_of_N (48 + n) else byte_of_N (87 + n).

Definition hex_value (b : byte) : option N :=
  let n := Byte.to_N b in
  if (48 <=? n)%N && (n <=? 57)%N then Some (n - 48)%N
  else if (97 <=? n)%N && (n <=? 102)%N then Some (n - 87)%N
  else if (65 <=? n)%N && (n <=? 70)%N then Some (n - 55)%N
  else None.

Fixpoint hex_encode (b : bytes) : bytes :=
  match b with
  | [] => []
  | x :: b' => hex_digit (Byte.to_N x / 16) :: hex_digit (Byte.to_N x mod 16) :: hex_encode b'
  end.

(** [hex.DecodeString]: [None] on an odd length or a byte that is no digit. *)
Fixpoint hex_decode (s : bytes) : option bytes :=
  match s with
  | [] => Some []
  | [_] => None
  | h :: l :: s' =>
      hv ← hex_value h; lv ← hex_value l; b ← hex_decode s';
      Some (byte_of_N (hv * 16 + lv) :: b)
  end.

Lemma hex_value_digit n : (n < 16)%N → hex_value (hex_digit n) = Some n.
Proof.
  intros Hn. unfold hex_digit, hex_value. destruct (N.ltb_spec n 10);
    rewrite to_N_byte_of_N, N.mod_small by lia;
    repeat (match goal with |- context [(?a <=? ?b)%N] => destruct (N.leb_spec a b) end; simpl; try lia);
    f_equal; lia.
Qed.

Lemma hex_decode_encode b : hex_decode (hex_encode b) = Some b.
Proof.
  induction b as [|x b IH]; [done|]. simpl.
  pose proof (to_N_lt x) as Hx. pose proof (N.mod_lt (Byte.to_N x) 16 ltac:(done)).
  rewrite (hex_value_digit (Byte.to_N x / 16)) by by apply N.Div0.div_lt_upper_bound.
  rewrite (hex_value_digit (Byte.to_N x mod 16)) by done. simpl. rewrite IH. simpl.
  rewrite N.mul_comm, <- N.div_mod by done. by rewrite byte_of_N_to_N.
Qed.

Lemma length_hex_encode b : length (hex_encode b) = 2 * length b.
Proof. induction b as [|x b IH]; simpl; lia. Qed.

(** * Counting *)

(** Two duplicate-free selections from [U] that are together longer than [U]
    share an element. *)
Lemma pigeonhole `{EqDecision A} (U Q1 Q2 : list A) :
  NoDup Q1 → NoDup Q2 → Q1 ⊆ U → Q2 ⊆ U → (length U < length Q1 + length Q2)%nat →
  ∃ x, x ∈ Q1 ∧ x ∈ Q2.
Proof.
  intros H1 H2 S1 S2 Hl.
  destruct (decide (Exists (λ x, x ∈ Q2) Q1)) as [(x & ? & ?)%Exists_exists|Hn]; [eauto|].
  exfalso. assert (NoDup (Q1 ++ Q2)) as Hnd.
  { apply NoDup_app. split; [done|]. split; [|done]. intros x Hx Hx2.
    apply Hn, Exists_exists. eauto. }
  assert (length (Q1 ++ Q2) ≤ length U)%nat.
  { apply submseteq_length, NoDup_submseteq; [done|]. set_solver. }
  rewrite length_app in *. lia.
Qed.

(** * Automation *)

(** Facts that follow from the order of ballots, of byte strings and of numbers,
    and the lengths and bounds of their encodings. *)
Create HintDb dstore.
#[export] Hint Resolve cmp_lt_le cmp_lt_le_trans cmp_le_lt_trans : dstore.
#[export] Hint Extern 0 (TotalCmp _) => typeclasses eauto : dstore.
#[export] Hint Extern 0 (cmp_le ?cmp ?x ?x) => reflexivity : dstore.
#[export] Hint Extern 1 (cmp_le ?cmp ?x ?z) =>
  match goal with
  | H : cmp_le cmp x ?y, H' : cmp_le cmp ?y z |- _ => exact (cmp_le_transitive cmp x y z H H')
  end : dstore.
#[export] Hint Resolve u64_lt to_N_lt arr_length : dstore.
#[export] Hint Rewrite to_of_string of_to_string @arr_of_bytes byte_of_N_to_N length_be_encode : dstore.

(** A closed equation, by evaluating both sides. *)
Ltac computes := vm_compute; reflexivity.

(** A closed decidable proposition, by evaluating its decision. *)
Ltac decides := apply (bool_decide_unpack _); vm_compute; exact I.
