(* ===== verification/Store.v ===== *)
(** What the repository uses of its two storage libraries: the synced Pebble
    database under the acceptor and the node's meta database, and the CBOR codec
    of src/codec/codec.go.  Both are parameters, as classes of operations with
    the documented behaviour as laws; the instances at the end show that the
    laws can hold and let the examples of the other files evaluate. *)
From S2P Require Import Prelude.

(** * The key-value store *)

(** One entry of a Pebble batch. *)
Inductive kv_op := kv_Set (k v : bytes) | kv_Delete (k : bytes).

Definition apply_op (m : gmap bytes bytes) (o : kv_op) : gmap bytes bytes :=
  match o with kv_Set k v => <[k := v]> m | kv_Delete k => delete k m end.

Definition apply_ops (m : gmap bytes bytes) (ops : list kv_op) : gmap bytes bytes :=
  fold_left apply_op ops m.

(** [db.Get]: a value, [pebble.ErrNotFound], or another error. *)
Inductive get_result := Found (v : bytes) | NotFound | GetErr (e : string).

(** The entries with keys in [[lo, hi)], in key order: what an iterator visits. *)
Definition in_range (lo hi k : bytes) : Prop := bytes_le lo k ∧ bytes_lt k hi.

#[global] Instance in_range_dec lo hi k : Decision (in_range lo hi k).
Proof. unfold in_range. apply _. Defined.

Definition key_before (a b : bytes * bytes) : bool := bool_decide (bytes_lt a.1 b.1).

Definition range_of (m : gmap bytes bytes) (lo hi : bytes) : list (bytes * bytes) :=
  sort_by key_before (filter (λ kv, in_range lo hi kv.1) (map_to_list m)).

(** A database and its abstraction, the map it stores.  Reads and commits may
    fail; a failed commit changes nothing, a successful synced commit applies
    the whole batch. *)
Class KVStore (DB : Type) := {
  kv_abs : DB → gmap bytes bytes;
  kv_get : DB → bytes → get_result;
  kv_commit : DB → list kv_op → option string * DB;
  kv_iter : DB → bytes → bytes → string + list (bytes * bytes);
  kv_get_found db k v : kv_get db k = Found v → kv_abs db !! k = Some v;
  kv_get_not_found db k : kv_get db k = NotFound → kv_abs db !! k = None;
  kv_commit_ok db ops db' :
    kv_commit db ops = (None, db') → kv_abs db' = apply_ops (kv_abs db) ops;
  kv_commit_err db ops e db' :
    kv_commit db ops = (Some e, db') → kv_abs db' = kv_abs db;
  kv_iter_ok db lo hi l : kv_iter db lo hi = inr l → l = range_of (kv_abs db) lo hi;
}.

(** A database that does not fail. *)
Class Reliable (DB : Type) `{KVStore DB} : Prop := {
  kv_get_total db k : kv_get db k = match kv_abs db !! k with Some v => Found v | None => NotFound end;
  kv_commit_total db ops : fst (kv_commit db ops) = None;
  kv_iter_total db lo hi : kv_iter db lo hi = inr (range_of (kv_abs db) lo hi);
}.

(** * The codec *)

(** [codec.Marshal] does not fail on the repository's record types (the library
    fails on Go types CBOR has no form for); [codec.Unmarshal] gives an error
    text on bytes it does not accept, and reads back what was written.  (The library
    refuses text that is not UTF-8 when it reads; strings are taken to be UTF-8.) *)
Class Codec (A : Type) := {
  marshal : A → bytes;
  unmarshal : bytes → string + A;
  unmarshal_marshal a : unmarshal (marshal a) = inr a;
}.

(** * Facts *)

Lemma key_before_strict P : strict_on key_before P.
Proof.
  unfold strict_on, nlt, key_before. split.
  - intros x y _ _ H%bool_decide_eq_true. apply bool_decide_eq_false.
    intros H'. by eapply (cmp_lt_irrefl bytes_compare), (cmp_lt_transitive bytes_compare).
  - intros x y z _ _ _ H1%bool_decide_eq_false H2%bool_decide_eq_false.
    apply bool_decide_eq_false. rewrite (cmp_nlt_le bytes_compare) in *.
    by eapply (cmp_le_transitive bytes_compare).
Qed.

Lemma elem_of_range m lo hi k v :
  (k, v) ∈ range_of m lo hi ↔ m !! k = Some v ∧ in_range lo hi k.
Proof.
  unfold range_of. rewrite elem_of_sort_by, list_elem_of_filter, elem_of_map_to_list. simpl. tauto.
Qed.

Lemma range_sorted m lo hi : StronglySorted (λ a b : bytes * bytes, bytes_lt a.1 b.1) (range_of m lo hi).
Proof.
  assert (NoDup (range_of m lo hi).*1) as Hnd.
  { unfold range_of. rewrite sort_by_perm.
    eapply sublist_NoDup; [apply (NoDup_fst_map_to_list m)|apply fmap_sublist, sublist_filter]. }
  assert (StronglySorted (nlt key_before) (range_of m lo hi)) as Hs.
  { apply (sort_by_sorted _ (λ _, True)); [apply key_before_strict|by apply Forall_true]. }
  revert Hnd. induction Hs as [|x l Hs IH Hx]; intros Hnd; constructor.
  - apply IH. by apply NoDup_cons in Hnd as [_ ?].
  - rewrite fmap_cons in Hnd. apply NoDup_cons in Hnd as [Hn _].
    apply Forall_forall. intros y Hy. rewrite Forall_forall in Hx. specialize (Hx y Hy).
    unfold nlt, key_before in Hx. apply bool_decide_eq_false in Hx.
    apply (cmp_nlt_le bytes_compare), (cmp_le_lt_eq bytes_compare) in Hx as [?|E]; [done|].
    destruct Hn. rewrite E. by apply list_elem_of_fmap_2.
Qed.

(** The key after [x] in the byte order is [x] followed by a zero byte. *)
Lemma bytes_succ x k : bytes_le (x ++ [x00]) k ↔ bytes_lt x k.
Proof.
  unfold cmp_le, cmp_lt. revert k. induction x as [|a x IH]; intros k; simpl.
  - destruct k as [|b k]; [done|]. simpl. destruct k; destruct (Byte.to_N b); split; done.
  - destruct k as [|b k]; [done|]. destruct (N.compare (Byte.to_N a) (Byte.to_N b)); [apply IH|done..].
Qed.

Lemma sorted_keys_unique (l1 l2 : list (bytes * bytes)) :
  StronglySorted (λ a b : bytes * bytes, bytes_lt a.1 b.1) l1 →
  StronglySorted (λ a b : bytes * bytes, bytes_lt a.1 b.1) l2 →
  (∀ kv, kv ∈ l1 ↔ kv ∈ l2) → l1 = l2.
Proof.
  intros H1 H2 Hel. apply (sorted_unique key_before (λ kv, kv ∈ l1)).
  - intros [k v] [k' v'] Hx Hy. unfold key_before. simpl.
    intros Hn1%bool_decide_eq_false Hn2%bool_decide_eq_false.
    assert (∀ (l : list (bytes * bytes)) a b, StronglySorted (λ a b : bytes * bytes, bytes_lt a.1 b.1) l → a ∈ l → b ∈ l →
      a = b ∨ bytes_lt a.1 b.1 ∨ bytes_lt b.1 a.1) as Htri.
    { intros l a b Hs. induction Hs as [|z l Hs IH Hz]; [by intros ?%elem_of_nil|].
      rewrite Forall_forall in Hz. rewrite !elem_of_cons. naive_solver. }
    destruct (Htri l1 (k, v) (k', v') H1 Hx Hy) as [?|[?|?]]; done.
  - by apply Forall_forall.
  - apply NoDup_Permutation; [| |done];
      [clear -H1; rename H1 into Hs; rename l1 into l|clear -H2; rename H2 into Hs; rename l2 into l].
    all: induction Hs as [|z l Hs IH Hz]; constructor; [|done].
    all: intros Hin; rewrite Forall_forall in Hz; by apply Hz, (cmp_lt_irrefl bytes_compare) in Hin.
  - eapply StronglySorted_impl; [|exact H1]. intros x y Hl. unfold nlt, key_before.
    apply bool_decide_eq_false, (cmp_nlt_le bytes_compare), (cmp_lt_le bytes_compare), Hl.
  - eapply StronglySorted_impl; [|exact H2]. intros x y Hl. unfold nlt, key_before.
    apply bool_decide_eq_false, (cmp_nlt_le bytes_compare), (cmp_lt_le bytes_compare), Hl.
Qed.

(** An iterator restarted just after a key visits what the first one had left. *)
Lemma range_split m lo hi l1 k v l2 :
  range_of m lo hi = l1 ++ (k, v) :: l2 → range_of m (k ++ [x00]) hi = l2.
Proof.
  intros E. pose proof (range_sorted m lo hi) as Hs. rewrite E in Hs.
  apply StronglySorted_app in Hs as (Hs12 & _ & Hs2).
  apply StronglySorted_inv in Hs2 as [Hs2 Hk]. rewrite Forall_forall in Hk.
  apply sorted_keys_unique; [apply range_sorted|done|]. intros [k' v'].
  rewrite elem_of_range. unfold in_range. rewrite bytes_succ. split.
  - intros (Hm & Hlt & Hhi).
    assert ((k', v') ∈ range_of m lo hi) as Hin.
    { apply elem_of_range. split; [done|]. split; [|done]. apply (cmp_lt_le bytes_compare).
      eapply (cmp_le_lt_trans bytes_compare); [|exact Hlt].
      assert ((k, v) ∈ range_of m lo hi) as Hkin by (rewrite E; set_solver).
      by apply elem_of_range in Hkin as [_ [? _]]. }
    rewrite E in Hin. apply elem_of_app in Hin as [Hin|[Heq|Hin]%elem_of_cons]; [exfalso|exfalso|done].
    + specialize (Hs12 _ _ Hin (list_elem_of_here _ _)). simpl in Hs12.
      by apply (cmp_lt_irrefl bytes_compare k), (cmp_lt_trans bytes_compare k k' k).
    + injection Heq as -> ->. by eapply (cmp_lt_irrefl bytes_compare).
  - intros Hin. assert ((k', v') ∈ range_of m lo hi) as Hr by (rewrite E; set_solver).
    apply elem_of_range in Hr as [? [_ ?]]. split; [done|]. split; [|done]. by apply (Hk _ Hin).
Qed.

Lemma apply_ops_app m o1 o2 : apply_ops m (o1 ++ o2) = apply_ops (apply_ops m o1) o2.
Proof. apply fold_left_app. Qed.

(** A batch that does not name [k] keeps it. *)
Definition op_key (o : kv_op) : bytes := match o with kv_Set k _ => k | kv_Delete k => k end.

Lemma lookup_apply_ops_ne m ops k : k ∉ op_key <$> ops → apply_ops m ops !! k = m !! k.
Proof.
  unfold apply_ops. revert m. induction ops as [|o ops IH]; intros m; [done|].
  rewrite fmap_cons, not_elem_of_cons. intros [Hk Hops]. simpl. rewrite IH by done.
  destruct o; simpl in *; [by rewrite lookup_insert_ne|by rewrite lookup_delete_ne].
Qed.

Lemma lookup_apply_deletes m ks k :
  apply_ops m (kv_Delete <$> ks) !! k = if decide (k ∈ ks) then None else m !! k.
Proof.
  unfold apply_ops. revert m. induction ks as [|x ks IH]; intros m; simpl; [done|].
  rewrite IH. destruct (decide (k = x)) as [->|Hx].
  - rewrite lookup_delete_eq. repeat case_decide; set_solver.
  - rewrite lookup_delete_ne by done. repeat case_decide; set_solver.
Qed.

(** A key a batch of sets names holds one of the values set. *)
Lemma lookup_apply_sets m ops k :
  (∀ o, o ∈ ops → ∃ k v, o = kv_Set k v) →
  (apply_ops m ops !! k = m !! k ∧ k ∉ op_key <$> ops) ∨
  (∃ v, kv_Set k v ∈ ops ∧ apply_ops m ops !! k = Some v).
Proof.
  induction ops as [|o ops IH] using rev_ind; intros Hs; [left; set_solver|].
  rewrite apply_ops_app, fmap_app. destruct (Hs o) as (k' & v & ->); [set_solver|]. simpl.
  destruct (decide (k = k')) as [->|Hne].
  - right. exists v. rewrite lookup_insert_eq. set_solver.
  - rewrite lookup_insert_ne by done. destruct IH as [[E Hn]|(v' & Hv & E)]; [set_solver|left|right].
    + split; [done|set_solver].
    + exists v'. set_solver.
Qed.

Section kv.
Context `{KVStore DB}.

(** A single [db.Set]. *)
Definition kv_set (db : DB) (k v : bytes) : option string * DB := kv_commit db [kv_Set k v].

(** A commit applies its batch or changes nothing. *)
Lemma kv_commit_cases db ops r db' :
  kv_commit db ops = (r, db') →
  (r = None ∧ kv_abs db' = apply_ops (kv_abs db) ops) ∨ (is_Some r ∧ kv_abs db' = kv_abs db).
Proof.
  destruct r as [e|]; intros Hc; [right|left].
  - split; [done|]. by eapply kv_commit_err.
  - split; [done|]. by apply kv_commit_ok.
Qed.

Lemma kv_set_cases db k v r db' :
  kv_set db k v = (r, db') →
  (r = None ∧ kv_abs db' = <[k := v]> (kv_abs db)) ∨ (is_Some r ∧ kv_abs db' = kv_abs db).
Proof. apply kv_commit_cases. Qed.
End kv.

(** * Instances *)

(** A map is a database that never fails. *)
Definition map_get (m : gmap bytes bytes) (k : bytes) : get_result :=
  match m !! k with Some v => Found v | None => NotFound end.

#[global] Program Instance map_store : KVStore (gmap bytes bytes) := {
  kv_abs m := m;
  kv_get := map_get;
  kv_commit m ops := (None, apply_ops m ops);
  kv_iter m lo hi := inr (range_of m lo hi);
}.
Next Obligation. intros m k v. unfold map_get. destruct (m !! k); congruence. Qed.
Next Obligation. intros m k. unfold map_get. destruct (m !! k); congruence. Qed.
Next Obligation. intros m ops m'. simpl. congruence. Qed.
Next Obligation. intros m ops e m'. simpl. congruence. Qed.
Next Obligation. intros m lo hi l. simpl. congruence. Qed.

#[global] Instance map_store_reliable : Reliable (gmap bytes bytes).
Proof. split; intros; reflexivity. Qed.

(** ** A self-delimiting byte format *)

Class Ser (A : Type) := {
  ser : A → bytes;
  deser : bytes → option (A * bytes);
  deser_ser a rest : deser (ser a ++ rest) = Some (a, rest);
}.

(** The bits of a number, least first, one byte each, closed by a byte 02. *)
Fixpoint pos_ser (p : positive) : bytes :=
  match p with xH => [x02] | xO p' => x00 :: pos_ser p' | xI p' => x01 :: pos_ser p' end.

Fixpoint pos_deser (b : bytes) : option (positive * bytes) :=
  match b with
  | x00 :: b' => '(p, r) ← pos_deser b'; Some (xO p, r)
  | x01 :: b' => '(p, r) ← pos_deser b'; Some (xI p, r)
  | x02 :: b' => Some (xH, b')
  | _ => None
  end.

#[global] Program Instance ser_positive : Ser positive := {| ser := pos_ser; deser := pos_deser |}.
Next Obligation. induction a as [p IH|p IH|]; intros rest; simpl; rewrite ?IH; done. Qed.

(** Types with a bijection into one that serializes. *)
Definition ser_via {A B} `{Ser B} (f : A → B) (g : B → A) (Hgf : ∀ a, g (f a) = a) : Ser A.
Proof.
  refine {| ser a := ser (f a); deser b := '(x, r) ← deser b; Some (g x, r) |}.
  intros a rest. rewrite deser_ser. simpl. by rewrite Hgf.
Defined.

#[global] Instance ser_N : Ser N.
Proof. refine (ser_via N.succ_pos Pos.pred_N _). intros n. by rewrite N.pos_pred_succ. Defined.
#[global] Instance ser_bool : Ser bool.
Proof. refine (ser_via (λ b : bool, if b then 1%N else 0%N) (λ n, bool_decide (n = 1%N)) _). by intros []. Defined.
#[global] Instance ser_byte : Ser byte.
Proof. refine (ser_via Byte.to_N byte_of_N _). apply byte_of_N_to_N. Defined.

#[global] Instance ser_prod {A B} `{Ser A, Ser B} : Ser (A * B).
Proof.
  refine {| ser p := ser p.1 ++ ser p.2;
            deser b := '(x, r) ← deser b; '(y, r') ← deser r; Some ((x, y), r') |}.
  intros [a b] rest. simpl. rewrite <- app_assoc, deser_ser. simpl. by rewrite deser_ser.
Defined.

#[global] Instance ser_Z : Ser Z.
Proof.
  refine (ser_via (λ z, (bool_decide (z < 0)%Z, Z.abs_N z))
            (λ '(s, n), if s : bool then (- Z.of_N n)%Z else Z.of_N n) _).
  intros z. case_bool_decide; lia.
Defined.

Fixpoint list_deser {A} `{Ser A} (n : nat) (b : bytes) : option (list A * bytes) :=
  match n with
  | O => Some ([], b)
  | S n' => '(x, r) ← deser b; '(l, r') ← list_deser n' r; Some (x :: l, r')
  end.

Definition list_ser {A} `{Ser A} (l : list A) : bytes :=
  ser (N.of_nat (length l)) ++ mjoin (ser <$> l).

Lemma list_deser_ser {A} `{Ser A} (l : list A) rest :
  list_deser (length l) (mjoin (ser <$> l) ++ rest) = Some (l, rest).
Proof.
  induction l as [|x l IH]; [done|].
  change (mjoin (ser <$> x :: l)) with (ser x ++ mjoin (ser <$> l)).
  rewrite <- app_assoc. cbn [list_deser length]. rewrite deser_ser. cbn. by rewrite IH.
Qed.

#[global] Instance ser_list {A} `{Ser A} : Ser (list A).
Proof.
  refine {| ser := list_ser; deser b := '(n, r) ← deser b; list_deser (N.to_nat n) r |}.
  intros l rest. unfold list_ser. rewrite <- app_assoc, (deser_ser (N.of_nat _)).
  cbn [mbind option_bind]. rewrite Nat2N.id. apply list_deser_ser.
Defined.

#[global] Instance ser_option {A} `{Ser A} : Ser (option A).
Proof. refine (ser_via (λ o, match o with Some a => [a] | None => [] end) head _). by intros []. Defined.
#[global] Instance ser_string : Ser string.
Proof. refine (ser_via of_string to_string _). apply to_of_string. Defined.
#[global] Instance ser_arr n : Ser (arr n).
Proof. refine (ser_via arr_bytes (arr_of n) _). apply arr_of_bytes. Defined.

(** Every serializable type has a codec. *)
Definition ser_unmarshal {A} `{Ser A} (b : bytes) : string + A :=
  match deser b with Some (a, []) => inr a | _ => inl "bad encoding"%string end.

#[global] Program Instance ser_codec {A} `{Ser A} : Codec A | 100 :=
  {| marshal := ser;
     unmarshal := ser_unmarshal |}.
Next Obligation.
  intros A ? a. unfold ser_unmarshal. rewrite <- (app_nil_r (ser a)). by rewrite deser_ser.
Qed.

Example ser_evaluates :
  unmarshal (A := list (N * string)) (marshal [(5%N, "a"%string); (2^40, "bc"%string)%N]) =
    inr [(5%N, "a"%string); (2^40, "bc"%string)%N].
Proof. computes. Qed.
