(* ===== verification/Placement.v ===== *)
(** The placement package (src/placement/placement.go): weighted rendezvous
    hashing over hash slots, in exact integer arithmetic.  BLAKE3 is a
    parameter; everything else is executable. *)
From S2P Require Import Prelude.

Local Open Scope N_scope.

(** * Slots and hashing *)

Definition SlotBits : N := 20.
Definition Slots : N := N.shiftl 1 SlotBits.
Definition saltDomain : bytes := String.list_byte_of_string "amber-dstore/placement/1".

Notation NodeID := (arr 32).

Record Member := MkMember { ID : NodeID; Weight : N; Zone : string }.

(** [key[24:32]] is the hash tail. *)
Definition Slot (key : arr 32) : N :=
  N.shiftr (be_decode (drop 24 key)) (64 - SlotBits).

Definition mul64 (x c : N) : N := u64 (x * c).

Definition xorshift33 (x : N) : N := N.lxor x (N.shiftr x 33).

Definition Fmix64 (x : N) : N :=
  let x := xorshift33 x in
  let x := mul64 x 0xff51afd7ed558ccd in
  let x := xorshift33 x in
  let x := mul64 x 0xc4ceb9fe1a85ec53 in
  xorshift33 x.

(** [bits.Mul64]: the high and low words of a 64x64 product. *)
Definition Mul64 (x y : N) : N * N := (N.shiftr (x * y) 64, u64 (x * y)).

(** The loop of [Log2Fix] for bit positions [k-1 .. 0]. *)
Fixpoint log2_loop (k : nat) (m f : N) : N :=
  match k with
  | O => f
  | S k' =>
      let '(hi, lo) := Mul64 m m in
      if N.testbit hi 63
      then log2_loop k' hi (N.lor f (N.shiftl 1 (N.of_nat k')))
      else log2_loop k' (N.lor (u64 (N.shiftl hi 1)) (N.shiftr lo 63)) f
  end.

(** [None] is the panic on 0. *)
Definition Log2Fix (x : N) : option N :=
  if x =? 0 then None
  else
    let i := N.log2 x in
    let m := u64 (N.shiftl x (63 - i)) in
    Some (N.lor (N.shiftl i 32) (log2_loop 32 m 0)).

Definition L (slot salt : N) : option N :=
  let h := Fmix64 (N.lxor slot salt) in
  if h =? u64_max - 1 then Some 0
  else l ← Log2Fix (h + 1); Some (N.shiftl 64 32 - l).

(** * Ranking *)

Definition compareID (a b : NodeID) : comparison := arr_compare a b.

Definition less (a b : Member) (la lb : N) : bool :=
  let '(ahi, alo) := Mul64 (Weight a) lb in
  let '(bhi, blo) := Mul64 (Weight b) la in
  if negb (ahi =? bhi) then bhi <? ahi
  else if negb (alo =? blo) then blo <? alo
  else bool_decide (compareID (ID a) (ID b) = Lt).

Definition member0 : Member := MkMember (arr_zero 32) 0 "".

Section placement.
(** The first [n] bytes of the BLAKE3 digest of a message. *)
Context (blake3 : bytes → nat → bytes).

Definition Salt (id : NodeID) : N := be_decode (blake3 (saltDomain ++ arr_bytes id) 8).

Record Set_ := MkSet { Members : list Member; salts : list N }.

Definition NewSet (members : list Member) : Set_ :=
  {| Members := members; salts := (λ m, Salt (ID m)) <$> members |}.

Definition member (s : Set_) (i : nat) : Member := nth i (Members s) member0.

(** [ls[i]]: the loop of [Rank] stores [L] for the weighted members.  [L]
    never panics ([L_total]), so the default is not reached. *)
Definition l_of (s : Set_) (slot : N) (i : nat) : N :=
  default 0 (L slot (nth i (salts s) 0)).

Definition weighted (s : Set_) (i : nat) : bool := negb (Weight (member s i) =? 0).

Definition rank_less (s : Set_) (slot : N) (ia ib : nat) : bool :=
  less (member s ia) (member s ib) (l_of s slot ia) (l_of s slot ib).

Definition id_less (s : Set_) (ia ib : nat) : bool :=
  bool_decide (compareID (ID (member s ia)) (ID (member s ib)) = Lt).

Definition Rank (s : Set_) (slot : N) : list nat :=
  let idx := seq 0 (length (Members s)) in
  sort_by (rank_less s slot) (filter (λ i, weighted s i = true) idx) ++
  sort_by (id_less s) (filter (λ i, weighted s i = false) idx).

(** The zone a member counts under: its own id when it names none. *)
Definition zone_of (m : Member) : string :=
  if bool_decide (Zone m = ""%string) then String.string_of_list_byte (ID m) else Zone m.

(** The loop of [Owners]: [out] grows, [zones] holds the zones taken. *)
Fixpoint owners_loop (s : Set_) (r : nat) (rank : list nat) (out : list nat)
    (zones : gset string) : list nat :=
  match rank with
  | [] => out
  | i :: rank' =>
      if (r <=? length out)%nat then out
      else
        let m := member s i in
        if Weight m =? 0 then out
        else if decide (zone_of m ∈ zones) then owners_loop s r rank' out zones
        else owners_loop s r rank' (out ++ [i]) ({[zone_of m]} ∪ zones)
  end.

Definition Owners (s : Set_) (slot : N) (r : nat) : list nat :=
  owners_loop s r (Rank s slot) [] ∅.

(** * The lazily filled table *)

(** [owners] and [rank] cache the slots computed so far; an absent slot is a
    nil entry of the Go slices. *)
Record Table := MkTable {
  t_set : Set_; t_r : nat; t_owners : gmap N (list nat); t_rank : gmap N (list nat) }.

Definition NewTable (set : Set_) (r : nat) : Table :=
  {| t_set := set; t_r := r; t_owners := ∅; t_rank := ∅ |}.

Definition Table_Owners (t : Table) (slot : N) : list nat * Table :=
  match t_owners t !! slot with
  | Some o => (o, t)
  | None =>
      let o := Owners (t_set t) slot (t_r t) in
      (o, {| t_set := t_set t; t_r := t_r t;
             t_owners := <[slot := o]> (t_owners t); t_rank := t_rank t |})
  end.

Definition Table_Rank (t : Table) (slot : N) : list nat * Table :=
  match t_rank t !! slot with
  | Some r => (r, t)
  | None =>
      let r := Rank (t_set t) slot in
      (r, {| t_set := t_set t; t_r := t_r t;
             t_owners := t_owners t; t_rank := <[slot := r]> (t_rank t) |})
  end.

Definition ids_of (s : Set_) (idx : list nat) : list NodeID := (λ j, ID (member s j)) <$> idx.

Definition OwnerIDs (t : Table) (key : arr 32) : list NodeID * Table :=
  let '(idx, t') := Table_Owners t (Slot key) in (ids_of (t_set t) idx, t').

Definition RankIDs (t : Table) (key : arr 32) : list NodeID * Table :=
  let '(idx, t') := Table_Rank t (Slot key) in (ids_of (t_set t) idx, t').

Definition IsOwner (t : Table) (key : arr 32) (id : NodeID) : bool * Table :=
  let '(idx, t') := Table_Owners t (Slot key) in
  (existsb (λ j, bool_decide (ID (member (t_set t) j) = id)) idx, t').
End placement.

(** * Integer facts *)

Lemma shiftr_lt n k b : n < 2 ^ (k + b) → N.shiftr n k < 2 ^ b.
Proof.
  intros H. rewrite N.shiftr_div_pow2. apply N.Div0.div_lt_upper_bound.
  by rewrite <- N.pow_add_r.
Qed.

Lemma lxor_lt a b n : a < 2 ^ n → b < 2 ^ n → N.lxor a b < 2 ^ n.
Proof.
  intros Ha Hb. destruct (N.eq_dec (N.lxor a b) 0) as [->|E].
  { apply N.neq_0_lt_0, N.pow_nonzero. done. }
  apply N.log2_lt_pow2; [lia|]. eapply N.le_lt_trans; [apply N.log2_lxor|].
  apply N.max_lub_lt.
  - destruct (N.eq_dec a 0) as [->|]; [|apply N.log2_lt_pow2; lia].
    destruct n; [|done]. rewrite N.pow_0_r in Hb. assert (b = 0) as -> by lia. done.
  - destruct (N.eq_dec b 0) as [->|]; [|apply N.log2_lt_pow2; lia].
    destruct n; [|done]. rewrite N.pow_0_r in Ha. assert (a = 0) as -> by lia. done.
Qed.

(** [Mul64] splits the product: comparing the words compares the products. *)
Lemma Mul64_split x y : x * y = fst (Mul64 x y) * u64_max + snd (Mul64 x y).
Proof.
  unfold Mul64, u64. simpl. rewrite N.shiftr_div_pow2. change (2 ^ 64) with u64_max.
  pose proof (N.div_mod (x * y) u64_max). unfold u64_max in *. lia.
Qed.

Lemma Mul64_lo_lt x y : snd (Mul64 x y) < u64_max.
Proof. apply u64_lt. Qed.

(** [less] is the comparison of exact cross products, ties broken by id. *)
Lemma less_spec a b la lb :
  less a b la lb =
    match N.compare (Weight a * lb) (Weight b * la) with
    | Gt => true
    | Lt => false
    | Eq => bool_decide (compareID (ID a) (ID b) = Lt)
    end.
Proof.
  unfold less. pose proof (Mul64_split (Weight a) lb). pose proof (Mul64_split (Weight b) la).
  pose proof (Mul64_lo_lt (Weight a) lb). pose proof (Mul64_lo_lt (Weight b) la).
  destruct (Mul64 (Weight a) lb) as [ahi alo], (Mul64 (Weight b) la) as [bhi blo].
  simpl in *. destruct (N.compare_spec (Weight a * lb) (Weight b * la));
    destruct (N.eqb_spec ahi bhi), (N.eqb_spec alo blo); simpl; try done;
    try (destruct (N.ltb_spec bhi ahi)); try (destruct (N.ltb_spec blo alo)); try done; nia.
Qed.

(** * The murmur3 finalizer is a bijection of the 64-bit words *)

Lemma xorshift33_lt x : x < 2 ^ 64 → xorshift33 x < 2 ^ 64.
Proof.
  intros H. apply lxor_lt; [done|]. apply shiftr_lt.
  eapply N.lt_le_trans; [exact H|]. by apply N.pow_le_mono_r.
Qed.

Lemma xorshift33_involutive x : x < 2 ^ 64 → xorshift33 (xorshift33 x) = x.
Proof.
  intros Hx. unfold xorshift33. rewrite N.shiftr_lxor, N.shiftr_shiftr.
  change (33 + 33) with 66.
  rewrite (N.shiftr_eq_0 x 66).
  - rewrite N.lxor_0_r. rewrite N.lxor_assoc, N.lxor_nilpotent. apply N.lxor_0_r.
  - destruct (N.eq_dec x 0) as [->|]; [done|]. pose proof (proj1 (N.log2_lt_pow2 x 64 ltac:(lia)) Hx). lia.
Qed.

Lemma mul64_inverse x c d : x < 2 ^ 64 → (c * d) mod 2 ^ 64 = 1 → mul64 (mul64 x c) d = x.
Proof.
  intros Hx Hcd. unfold mul64, u64, u64_max.
  rewrite N.Div0.mul_mod_idemp_l, <- N.mul_assoc, <- N.Div0.mul_mod_idemp_r, Hcd.
  by rewrite N.mul_1_r, N.mod_small.
Qed.

(** The inverse permutation. *)
Definition Fmix64_inv (x : N) : N :=
  xorshift33 (mul64 (xorshift33 (mul64 (xorshift33 x) 0x9cb4b2f8129337db)) 0x4f74430c22a54005).

Lemma Fmix64_inv_l x : x < 2 ^ 64 → Fmix64_inv (Fmix64 x) = x.
Proof.
  intros Hx. unfold Fmix64_inv, Fmix64.
  rewrite xorshift33_involutive by apply u64_lt.
  rewrite mul64_inverse; [|apply xorshift33_lt, u64_lt|by vm_compute].
  rewrite xorshift33_involutive by apply u64_lt.
  rewrite mul64_inverse; [|by apply xorshift33_lt|by vm_compute].
  by apply xorshift33_involutive.
Qed.

Lemma Fmix64_lt x : Fmix64 x < 2 ^ 64.
Proof. unfold Fmix64. apply xorshift33_lt, u64_lt. Qed.

(** * The fixed-point logarithm *)

(** The squaring algorithm at precision [p]: [m] is in [[2^p, 2^(p+1))] and
    stands for [m / 2^p]; each step yields one fractional bit of [log2 m]. *)
Fixpoint log2_frac (p : N) (k : nat) (m : N) : N :=
  match k with
  | O => 0
  | S k' =>
      if 2 ^ (2 * p + 1) <=? m * m
      then 2 ^ N.of_nat k' + log2_frac p k' (m * m / 2 ^ (p + 1))
      else log2_frac p k' (m * m / 2 ^ p)
  end.

Lemma log2_frac_lt p k m : log2_frac p k m < 2 ^ N.of_nat k.
Proof.
  revert m. induction k as [|k IH]; intros m; simpl log2_frac; [done|].
  rewrite Nat2N.inj_succ, N.pow_succ_r'. case_match.
  - pose proof (IH (m * m / 2 ^ (p + 1))). lia.
  - pose proof (IH (m * m / 2 ^ p)). lia.
Qed.

(** One squaring keeps the mantissa normalised. *)
Lemma square_big p m :
  m < 2 ^ (p + 1) → 2 ^ (2 * p + 1) ≤ m * m →
  2 ^ p ≤ m * m / 2 ^ (p + 1) < 2 ^ (p + 1).
Proof.
  intros Hm Hb. split.
  - apply N.div_le_lower_bound; [apply N.pow_nonzero; done|].
    rewrite <- N.pow_add_r. replace (p + 1 + p) with (2 * p + 1) by lia. done.
  - apply N.Div0.div_lt_upper_bound. nia.
Qed.

Lemma square_small p m :
  2 ^ p ≤ m → m * m < 2 ^ (2 * p + 1) →
  2 ^ p ≤ m * m / 2 ^ p < 2 ^ (p + 1).
Proof.
  intros Hm Hb. pose proof (N.pow_nonzero 2 p). split.
  - apply N.div_le_lower_bound; nia.
  - apply N.Div0.div_lt_upper_bound. rewrite <- N.pow_add_r.
    replace (p + (p + 1)) with (2 * p + 1) by lia. done.
Qed.

(** The low bits of [or] with a disjoint high part add up. *)
Lemma testbit_high b n i : b < 2 ^ n → n ≤ i → N.testbit b i = false.
Proof. intros Hb Hi. rewrite <- (N.mod_small b (2 ^ n)) by done. by apply N.mod_pow2_bits_high. Qed.

Lemma lor_high_add a b n : b < 2 ^ n → N.lor (N.shiftl a n) b = a * 2 ^ n + b.
Proof.
  intros Hb.
  assert (N.land (N.shiftl a n) b = 0) as Hz.
  { apply N.bits_inj. intros i. rewrite N.land_spec, N.bits_0.
    destruct (N.lt_ge_cases i n); [by rewrite N.shiftl_spec_low|].
    by rewrite (testbit_high b n i), andb_false_r. }
  rewrite <- N.lxor_lor, <- N.add_nocarry_lxor by done. by rewrite N.shiftl_mul_pow2.
Qed.

(** The code's test of the top bit of the high word is the test of the
    algorithm at precision 63 ... *)
Lemma top_bit_test m :
  m < 2 ^ 64 → N.testbit (N.shiftr (m * m) 64) 63 = (2 ^ (2 * 63 + 1) <=? m * m).
Proof.
  intros Hm. rewrite N.shiftr_spec'. change (63 + 64) with 127. change (2 * 63 + 1) with 127.
  assert (m * m < 2 ^ 127 * 2) as Hlt.
  { change (2 ^ 127 * 2) with (2 ^ 64 * 2 ^ 64). by apply N.mul_lt_mono. }
  destruct (N.leb_spec (2 ^ 127) (m * m)) as [Hb|Hb]; [|by eapply testbit_high].
  rewrite N.testbit_true. assert (m * m / 2 ^ 127 = 1) as ->; [|done].
  apply N.le_antisymm; [|by apply N.div_le_lower_bound].
  apply N.lt_succ_r. by apply N.Div0.div_lt_upper_bound.
Qed.

(** ... and its funnel shift is the division by [2^63]. *)
Lemma funnel_shift s :
  s < 2 ^ 127 →
  N.lor (u64 (N.shiftl (N.shiftr s 64) 1)) (N.shiftr (u64 s) 63) = s / 2 ^ 63.
Proof.
  intros Hs. unfold u64.
  assert (N.shiftr s 64 < 2 ^ 63) as Hhi by by apply shiftr_lt.
  rewrite (N.mod_small (N.shiftl _ 1)); last first.
  { rewrite N.shiftl_mul_pow2. change u64_max with (2 ^ 63 * 2 ^ 1). lia. }
  assert (N.shiftr (s mod u64_max) 63 = (s / 2 ^ 63) mod 2) as ->.
  { change u64_max with (2 ^ 64). rewrite <- !N.shiftr_div_pow2.
    rewrite <- N.land_ones, N.shiftr_land.
    change (N.shiftr (N.ones 64) 63) with (N.ones 1). by rewrite N.land_ones. }
  rewrite lor_high_add by by apply N.mod_lt.
  rewrite N.shiftr_div_pow2. change (2 ^ 64) with (2 ^ 63 * 2).
  rewrite <- N.Div0.div_div. pose proof (N.div_mod (s / 2 ^ 63) 2). lia.
Qed.

(** Setting bit [k] below the bits already set adds [2^k]. *)
Lemma set_bit_add g k :
  N.lor (N.shiftl g (N.succ k)) (N.shiftl 1 k) = N.shiftl (2 * g + 1) k ∧
  N.shiftl (2 * g + 1) k = N.shiftl g (N.succ k) + 2 ^ k.
Proof.
  assert (N.shiftl g (N.succ k) = N.shiftl (N.shiftl g 1) k) as ->.
  { rewrite N.shiftl_shiftl. f_equal. lia. }
  rewrite <- N.shiftl_lor, (lor_high_add g 1 1) by done. rewrite !N.shiftl_mul_pow2.
  split; [f_equal|]; lia.
Qed.

Lemma log2_loop_frac k m f :
  2 ^ 63 ≤ m < 2 ^ 64 → (∃ g, f = N.shiftl g (N.of_nat k)) →
  log2_loop k m f = f + log2_frac 63 k m.
Proof.
  revert m f. induction k as [|k IH]; intros m f Hm [g Hf]; [simpl; lia|].
  cbn [log2_loop log2_frac]. unfold Mul64. rewrite top_bit_test by apply Hm.
  rewrite Nat2N.inj_succ in Hf. destruct (set_bit_add g (N.of_nat k)) as [Hlor Hadd].
  destruct (N.leb_spec (2 ^ (2 * 63 + 1)) (m * m)) as [Hb|Hb].
  - rewrite N.shiftr_div_pow2. rewrite Hf, Hlor, IH.
    + rewrite Hadd. change (2 ^ 64) with (2 ^ (63 + 1)). lia.
    + apply (square_big 63); [apply Hm|done].
    + by eexists.
  - rewrite funnel_shift by exact Hb. rewrite IH; [lia| |].
    + apply (square_small 63); [apply Hm|done].
    + exists (2 * g). rewrite Hf, !N.shiftl_mul_pow2, N.pow_succ_r'. lia.
Qed.

Lemma pow_double a k : a ^ 2 ^ N.succ k = (a * a) ^ 2 ^ k.
Proof. rewrite N.pow_succ_r', N.mul_comm, N.pow_mul_r, N.pow_mul_l, <- N.pow_2_r, <- !N.pow_mul_r. done. Qed.

Lemma pow_split p n :
  (2 ^ p * 2 ^ p) ^ n = (2 ^ p) ^ n * (2 ^ p) ^ n ∧
  (2 ^ (p + 1)) ^ n = (2 ^ p) ^ n * 2 ^ n ∧ 0 < (2 ^ p) ^ n ∧ 0 < 2 ^ n.
Proof.
  rewrite N.pow_add_r, !N.pow_mul_l, N.pow_1_r. repeat split; try done;
    apply N.neq_0_lt_0; repeat apply N.pow_nonzero; done.
Qed.

(** The fractional bits never overestimate. *)
Lemma log2_frac_lower p k m :
  2 ^ p ≤ m < 2 ^ (p + 1) →
  2 ^ log2_frac p k m * (2 ^ p) ^ 2 ^ N.of_nat k ≤ m ^ 2 ^ N.of_nat k.
Proof.
  revert m. induction k as [|k IH]; intros m Hm.
  { simpl. rewrite !N.pow_1_r. lia. }
  simpl log2_frac. rewrite Nat2N.inj_succ, !pow_double. set (K := N.of_nat k) in *.
  destruct (N.leb_spec (2 ^ (2 * p + 1)) (m * m)) as [Hb|Hb].
  - set (m' := m * m / 2 ^ (p + 1)).
    specialize (IH m' (square_big p m (proj2 Hm) Hb)).
    assert (m' * 2 ^ (p + 1) ≤ m * m) as Hdiv.
    { rewrite N.mul_comm. apply N.Div0.mul_div_le. }
    apply (N.pow_le_mono_l _ _ (2 ^ K)) in Hdiv. etrans; [|exact Hdiv].
    destruct (pow_split p (2 ^ K)) as (-> & E2 & ? & ?). rewrite N.pow_mul_l, E2, N.pow_add_r.
    set (X := 2 ^ log2_frac p k m') in *. set (Y := (2 ^ p) ^ 2 ^ K) in *.
    set (Z := 2 ^ 2 ^ K) in *. nia.
  - set (m' := m * m / 2 ^ p).
    specialize (IH m' (square_small p m (proj1 Hm) Hb)).
    assert (m' * 2 ^ p ≤ m * m) as Hdiv.
    { rewrite N.mul_comm. apply N.Div0.mul_div_le. }
    apply (N.pow_le_mono_l _ _ (2 ^ K)) in Hdiv. etrans; [|exact Hdiv].
    rewrite !N.pow_mul_l. set (Y := (2 ^ p) ^ 2 ^ K) in *. nia.
Qed.

(** An error of [e] units in [m] grows to [3e+1] with each squaring. *)
Lemma square_error_big p m e :
  m < 2 ^ (p + 1) → 8 * e ≤ 2 ^ p →
  (m + e) * (m + e) ≤ (m * m / 2 ^ (p + 1) + (3 * e + 1)) * 2 ^ (p + 1).
Proof.
  intros Hm He. pose proof (N.div_mod (m * m) (2 ^ (p + 1)) (N.pow_nonzero 2 (p + 1) ltac:(done))).
  pose proof (N.mod_lt (m * m) (2 ^ (p + 1)) (N.pow_nonzero 2 (p + 1) ltac:(done))).
  rewrite N.pow_add_r in *. change (2 ^ 1) with 2 in *. nia.
Qed.

Lemma square_error_small p m e :
  m * m < 2 ^ (2 * p + 1) → 8 * e ≤ 2 ^ p →
  (m + e) * (m + e) ≤ (m * m / 2 ^ p + (3 * e + 1)) * 2 ^ p.
Proof.
  intros Hm He. pose proof (N.div_mod (m * m) (2 ^ p) (N.pow_nonzero 2 p ltac:(done))).
  pose proof (N.mod_lt (m * m) (2 ^ p) (N.pow_nonzero 2 p ltac:(done))).
  replace (2 * p + 1) with (p + p + 1) in Hm by lia. rewrite !N.pow_add_r in Hm.
  change (2 ^ 1) with 2 in Hm. set (P := 2 ^ p) in *.
  assert (8 * m ≤ 12 * P) by nia.
  assert (2 * m * e + e * e ≤ 3 * e * P + P) by nia. nia.
Qed.

Lemma log2_frac_upper p k m e :
  2 ^ p ≤ m < 2 ^ (p + 1) → 8 * (2 * e + 1) * 3 ^ N.of_nat k ≤ 2 ^ p →
  (m + e) ^ 2 ^ N.of_nat k < 2 ^ (log2_frac p k m + 2) * (2 ^ p) ^ 2 ^ N.of_nat k.
Proof.
  revert m e. induction k as [|k IH]; intros m e Hm He.
  { simpl. rewrite !N.pow_1_r. change (N.of_nat 0) with 0 in He. rewrite N.pow_add_r in *.
    change (3 ^ 0) with 1 in He. change (2 ^ 1) with 2 in *. change (2 ^ 2) with 4. nia. }
  simpl log2_frac. rewrite Nat2N.inj_succ in *. rewrite !pow_double. rewrite N.pow_succ_r' in He.
  set (K := N.of_nat k) in *. pose proof (N.pow_nonzero 3 K ltac:(done)).
  assert (8 * e ≤ 2 ^ p) by nia.
  assert (8 * (2 * (3 * e + 1) + 1) * 3 ^ K ≤ 2 ^ p) as He' by nia.
  destruct (N.leb_spec (2 ^ (2 * p + 1)) (m * m)) as [Hb|Hb].
  - set (m' := m * m / 2 ^ (p + 1)).
    specialize (IH m' (3 * e + 1) (square_big p m (proj2 Hm) Hb) He').
    pose proof (square_error_big p m e (proj2 Hm) ltac:(done)) as Hsq. fold m' in Hsq.
    apply (N.pow_le_mono_l _ _ (2 ^ K)) in Hsq. eapply N.le_lt_trans; [exact Hsq|].
    destruct (pow_split p (2 ^ K)) as (-> & E2 & ? & ?).
    rewrite N.pow_mul_l, E2, <- N.add_assoc, N.pow_add_r.
    set (X := 2 ^ (log2_frac p k m' + 2)) in *. set (Y := (2 ^ p) ^ 2 ^ K) in *.
    set (Z := 2 ^ 2 ^ K) in *. nia.
  - set (m' := m * m / 2 ^ p).
    specialize (IH m' (3 * e + 1) (square_small p m (proj1 Hm) Hb) He').
    pose proof (square_error_small p m e Hb ltac:(done)) as Hsq. fold m' in Hsq.
    apply (N.pow_le_mono_l _ _ (2 ^ K)) in Hsq. eapply N.le_lt_trans; [exact Hsq|].
    destruct (pow_split p (2 ^ K)) as (-> & E2 & ? & ?). rewrite N.pow_mul_l.
    set (Y := (2 ^ p) ^ 2 ^ K) in *. nia.
Qed.

#[local] Opaque log2_frac.

(** Bounds at any precision, for [x = m / 2^(p-i)] with [i = ⌊log2 x⌋]. *)
Lemma log2_bounds p i k x :
  i ≤ p → 2 ^ i ≤ x < 2 ^ (i + 1) → 8 * 3 ^ N.of_nat k ≤ 2 ^ p →
  let l := i * 2 ^ N.of_nat k + log2_frac p k (x * 2 ^ (p - i)) in
  2 ^ l ≤ x ^ 2 ^ N.of_nat k < 2 ^ (l + 2).
Proof.
  intros Hi Hx Hp. simpl. set (m := x * 2 ^ (p - i)). set (n := 2 ^ N.of_nat k).
  assert (2 ^ p = 2 ^ i * 2 ^ (p - i)) as Ep by (rewrite <- N.pow_add_r; f_equal; lia).
  assert (2 ^ p ≤ m < 2 ^ (p + 1)) as Hm.
  { rewrite N.pow_add_r in *. unfold m. rewrite Ep. pose proof (N.pow_nonzero 2 (p - i)). nia. }
  pose proof (log2_frac_lower p k m Hm) as Hlo.
  pose proof (log2_frac_upper p k m 0 Hm ltac:(lia)) as Hhi.
  rewrite N.add_0_r in Hhi. fold n in Hlo, Hhi. set (g := log2_frac p k m) in *.
  unfold m in Hlo, Hhi. rewrite Ep, !N.pow_mul_l in Hlo, Hhi.
  rewrite <- N.add_assoc, !(N.pow_add_r 2 (i * n)), N.pow_mul_r.
  assert (0 < (2 ^ (p - i)) ^ n) by (apply N.neq_0_lt_0; repeat apply N.pow_nonzero; done).
  set (A := (2 ^ i) ^ n) in *. set (B := (2 ^ (p - i)) ^ n) in *. set (X := x ^ n) in *.
  set (G := 2 ^ g) in *. set (G2 := 2 ^ (g + 2)) in *. clearbody A B X G G2. nia.
Qed.

Lemma log2_range x : x ≠ 0 → 2 ^ N.log2 x ≤ x < 2 ^ (N.log2 x + 1).
Proof. intros. rewrite N.add_1_r. apply N.log2_spec. lia. Qed.

(** What [Log2Fix] computes. *)
Lemma Log2Fix_eq x :
  x ≠ 0 → x < 2 ^ 64 →
  Log2Fix x = Some (N.log2 x * 2 ^ N.of_nat 32 + log2_frac 63 32 (x * 2 ^ (63 - N.log2 x))).
Proof.
  intros H0 Hx. unfold Log2Fix. destruct (N.eqb_spec x 0); [done|]. cbv zeta.
  pose proof (log2_range x H0) as Hr. set (i := N.log2 x) in *.
  assert (i < 64) as Hi by (apply N.log2_lt_pow2; lia).
  assert (N.shiftl x (63 - i) = x * 2 ^ (63 - i)) as -> by apply N.shiftl_mul_pow2.
  assert (2 ^ 63 = 2 ^ i * 2 ^ (63 - i)) as Ep by (rewrite <- N.pow_add_r; f_equal; lia).
  assert (2 ^ 63 ≤ x * 2 ^ (63 - i) < 2 ^ 64) as Hm.
  { change (2 ^ 64) with (2 ^ 63 * 2). rewrite N.pow_add_r in Hr. rewrite Ep.
    change (2 ^ 1) with 2 in Hr. pose proof (N.pow_nonzero 2 (63 - i) ltac:(done)).
    set (A := 2 ^ i) in *. set (B := 2 ^ (63 - i)) in *. clearbody A B. clear Ep. nia. }
  rewrite u64_small by apply Hm. rewrite log2_loop_frac; [|done|by exists 0].
  rewrite N.add_0_l, lor_high_add; [done|]. apply log2_frac_lt.
Qed.

Lemma Log2Fix_lt x l : x < 2 ^ 64 → Log2Fix x = Some l → l < N.shiftl 64 32.
Proof.
  intros Hx Hl. destruct (decide (x = 0)) as [->|H0]; [done|].
  rewrite Log2Fix_eq in Hl by done. apply (inj Some) in Hl as <-.
  assert (N.log2 x < 64) by (apply N.log2_lt_pow2; lia).
  pose proof (log2_frac_lt 63 32 (x * 2 ^ (63 - N.log2 x))).
  change (N.of_nat 32) with 32 in *. change (N.shiftl 64 32) with (64 * 2 ^ 32). nia.
Qed.

(** [L] never panics, and fits the Q7.32 format. *)
Lemma L_total slot salt : ∃ l, L slot salt = Some l ∧ l ≤ N.shiftl 64 32.
Proof.
  unfold L. destruct (N.eqb_spec (Fmix64 (N.lxor slot salt)) (u64_max - 1)) as [|E].
  { exists 0. split; [done|]. by apply N.le_0_l. }
  pose proof (Fmix64_lt (N.lxor slot salt)) as Hf. set (h := Fmix64 _) in *.
  assert (h + 1 < 2 ^ 64) as Hh by (unfold u64_max in E; lia).
  rewrite Log2Fix_eq by lia. eexists; split; [done|]. lia.
Qed.

(** * Greedy selection by zone *)

Section pick.
Context {A : Type} (zone : A → string).

(** The reference definition of the owner selection: the first [r] elements
    whose zone is not taken by an earlier pick. *)
Fixpoint pick (r : nat) (seen : gset string) (l : list A) : list A :=
  match r, l with
  | O, _ | _, [] => []
  | S r', x :: l' =>
      if decide (zone x ∈ seen) then pick r seen l'
      else x :: pick r' ({[zone x]} ∪ seen) l'
  end.

Lemma pick_0 seen l : pick 0 seen l = [].
Proof. by destruct l. Qed.

Lemma pick_sublist r seen l : pick r seen l `sublist_of` l.
Proof.
  revert r seen. induction l as [|x l IH]; intros [|r] seen; simpl; [constructor..| |].
  { apply sublist_nil_l. }
  case_decide; [by apply sublist_cons | by apply sublist_skip].
Qed.

Lemma length_pick r seen l : (length (pick r seen l) ≤ r)%nat.
Proof.
  revert r seen. induction l as [|x l IH]; intros [|r] seen; simpl; try lia.
  case_decide; [apply IH|]. simpl. specialize (IH r ({[zone x]} ∪ seen)). lia.
Qed.

Lemma pick_fresh r seen l x : x ∈ pick r seen l → zone x ∉ seen.
Proof.
  revert r seen. induction l as [|y l IH]; intros [|r] seen; simpl; try by intros ?%elem_of_nil.
  case_decide; [apply IH|]. intros [->|Hx]%elem_of_cons; [done|]. apply IH in Hx. set_solver.
Qed.

Lemma pick_zones_NoDup r seen l : NoDup (zone <$> pick r seen l).
Proof.
  revert r seen. induction l as [|y l IH]; intros [|r] seen; simpl; try constructor.
  case_decide; [apply IH|]. simpl. constructor; [|apply IH].
  intros (x & Hz & Hx)%list_elem_of_fmap. apply pick_fresh in Hx. set_solver.
Qed.

(** A short selection has taken every zone. *)
Lemma pick_complete r seen l x :
  (length (pick r seen l) < r)%nat → x ∈ l →
  zone x ∈ seen ∨ zone x ∈ zone <$> pick r seen l.
Proof.
  revert r seen. induction l as [|y l IH]; intros [|r] seen; simpl; try lia.
  { by intros _ ?%elem_of_nil. }
  intros Hl [->|Hx]%elem_of_cons.
  - case_decide; [by left|]. right. simpl. left.
  - case_decide; [by apply IH|]. simpl in *.
    destruct (IH r ({[zone y]} ∪ seen)) as [H'|H']; [lia|done| |].
    + apply elem_of_union in H' as [->%elem_of_singleton|]; [right; left|by left].
    + right. by right.
Qed.

(** A pick survives when an extra zone is freed and a place added. *)
Lemma pick_mono r seen z l x :
  x ∈ pick r ({[z]} ∪ seen) l → x ∈ pick (S r) seen l.
Proof.
  revert r seen. induction l as [|y l IH]; intros r seen; [by destruct r|].
  destruct r as [|r]; [by intros ?%elem_of_nil|]. simpl.
  destruct (decide (zone y ∈ seen)) as [Hs|Hs].
  { rewrite decide_True by set_solver. apply IH. }
  destruct (decide (zone y = z)) as [<-|Hz].
  { rewrite decide_True by set_solver. intros. by right. }
  rewrite decide_False by set_solver. intros [->|Hx]%elem_of_cons; [by left|right].
  apply IH. by replace ({[z]} ∪ ({[zone y]} ∪ seen)) with ({[zone y]} ∪ ({[z]} ∪ seen)) by set_solver.
Qed.

(** Dropping candidates never drops another pick. *)
Lemma pick_filter P `{!∀ x, Decision (P x)} r seen l x :
  x ∈ pick r seen l → P x → x ∈ pick r seen (filter P l).
Proof.
  revert r seen. induction l as [|y l IH]; intros r seen; [done|].
  destruct r as [|r]; [by intros ?%elem_of_nil|]. rewrite filter_cons. simpl.
  destruct (decide (zone y ∈ seen)) as [Hs|Hs].
  { intros Hx Px. case_decide; [|by apply IH]. simpl. rewrite decide_True by done. by apply IH. }
  intros Hx Px. apply elem_of_cons in Hx as [->|Hx].
  { rewrite decide_True by done. simpl. rewrite decide_False by done. left. }
  case_decide.
  - simpl. rewrite decide_False by done. right. by apply IH.
  - eapply pick_mono. by apply IH.
Qed.

(** Dropping a candidate that is not picked changes nothing. *)
Lemma pick_filter_unpicked P `{!∀ x, Decision (P x)} r seen l :
  Forall P (pick r seen l) → pick r seen (filter P l) = pick r seen l.
Proof.
  revert r seen. induction l as [|y l IH]; intros r seen; [done|].
  destruct r as [|r]; [by rewrite !pick_0|]. rewrite filter_cons. simpl.
  destruct (decide (zone y ∈ seen)).
  { intros HP. case_decide; [|by apply IH]. simpl. rewrite decide_True by done. by apply IH. }
  intros [Py HP]%Forall_cons_1. rewrite decide_True by done. simpl.
  rewrite decide_False by done. f_equal. by apply IH.
Qed.
End pick.

Lemma pick_map {A B} (f : A → B) (zone : A → string) (zone' : B → string) r seen l :
  (∀ x, x ∈ l → zone' (f x) = zone x) → f <$> pick zone r seen l = pick zone' r seen (f <$> l).
Proof.
  revert r seen. induction l as [|x l IH]; intros r seen H; [by destruct r|].
  destruct r as [|r]; [by rewrite !pick_0|]. simpl. rewrite H by left.
  case_decide; simpl; rewrite IH; auto; intros; apply H; by right.
Qed.

(** * Ranking and ownership *)

Section ranking.
Context (blake3 : bytes → nat → bytes).
Local Notation NewSet := (NewSet blake3).

(** The L value of a member for a slot, and the order of the ranking. *)
Definition l_id (slot : N) (id : NodeID) : N := default 0 (L slot (Salt blake3 id)).

Definition outranks (slot : N) (a b : Member) : bool :=
  less a b (l_id slot (ID a)) (l_id slot (ID b)).

Definition id_before (a b : Member) : bool :=
  bool_decide (compareID (ID a) (ID b) = Lt).

Definition is_weighted (m : Member) : Prop := Weight m ≠ 0.

(** The specification of the ranking, on members rather than indexes. *)
Definition rank_spec (slot : N) (ms : list Member) : list Member :=
  sort_by (outranks slot) (filter is_weighted ms) ++
  sort_by id_before (filter (λ m, ¬ is_weighted m) ms).

(** A member outranks another or ties with it: [w_a / L_a ≥ w_b / L_b], ties
    by smaller id. *)
Lemma not_outranked slot a b :
  outranks slot b a = false ↔
    Weight b * l_id slot (ID a) < Weight a * l_id slot (ID b) ∨
    Weight b * l_id slot (ID a) = Weight a * l_id slot (ID b) ∧
    cmp_le compareID (ID a) (ID b).
Proof.
  unfold outranks. rewrite less_spec.
  assert (cmp_le compareID (ID a) (ID b) ↔ compareID (ID b) (ID a) ≠ Lt) as ->.
  { symmetry. apply (cmp_nlt_le (@arr_compare 32)). }
  destruct (N.compare_spec (Weight b * l_id slot (ID a)) (Weight a * l_id slot (ID b))) as [E|E|E].
  - rewrite bool_decide_eq_false. split; [by right|]. intros [?|[_ ?]]; [lia|done].
  - split; [by left|done].
  - split; [done|]. intros [?|[? _]]; lia.
Qed.

Lemma outranks_strict slot : strict_on (outranks slot) is_weighted.
Proof.
  split.
  - intros a b Ha Hb. unfold outranks. rewrite !less_spec.
    destruct (N.compare_spec (Weight a * l_id slot (ID b)) (Weight b * l_id slot (ID a))) as [E|E|E],
      (N.compare_spec (Weight b * l_id slot (ID a)) (Weight a * l_id slot (ID b))); try lia; try done.
    rewrite bool_decide_eq_true, bool_decide_eq_false. intros Hab Hba.
    apply (cmp_lt_irrefl (@arr_compare 32) (ID a)). by eapply (cmp_lt_trans arr_compare).
  - intros a b c. unfold is_weighted, nlt. intros Ha Hb Hc. rewrite !not_outranked.
    set (la := l_id slot (ID a)). set (lb := l_id slot (ID b)). set (lc := l_id slot (ID c)).
    set (wa := Weight a) in *. set (wb := Weight b) in *. set (wc := Weight c) in *.
    intros H1 H2.
    assert (wb * la ≤ wa * lb) as L1 by (destruct H1 as [|[]]; lia).
    assert (wc * lb ≤ wb * lc) as L2 by (destruct H2 as [|[]]; lia).
    assert (wb * (wc * la) ≤ wb * (wa * lc)) as Hle by nia.
    destruct (N.eq_dec (wc * la) (wa * lc)) as [E|E]; [right; split; [done|]|left; nia].
    destruct H1 as [H1|[_ H1]]; [nia|]. destruct H2 as [H2|[_ H2]]; [nia|].
    by eapply (cmp_le_transitive (@arr_compare 32)).
Qed.

Lemma id_before_strict (P : Member → Prop) : strict_on id_before P.
Proof.
  split; unfold nlt, id_before; setoid_rewrite bool_decide_eq_false.
  - intros a b _ _. rewrite bool_decide_eq_true. intros H H'.
    apply (cmp_lt_irrefl (@arr_compare 32) (ID a)). by eapply (cmp_lt_trans arr_compare).
  - intros a b c _ _ _ H1 H2.
    apply (cmp_nlt_le (@arr_compare 32)). apply (cmp_nlt_le (@arr_compare 32)) in H1, H2.
    by eapply (cmp_le_transitive (@arr_compare 32)).
Qed.

Lemma member_NewSet ms : member (NewSet ms) <$> seq 0 (length ms) = ms.
Proof.
  unfold member. simpl. apply list_eq. intros i. rewrite list_lookup_fmap.
  destruct (decide (i < length ms)%nat) as [Hi|Hi].
  - rewrite lookup_seq_lt by done. simpl. destruct (lookup_lt_is_Some_2 ms i Hi) as [m Hm].
    by rewrite (nth_lookup_Some _ _ _ _ Hm), Hm.
  - rewrite lookup_seq_ge by lia. simpl. symmetry. apply lookup_ge_None. lia.
Qed.

Lemma salt_NewSet (ms : list Member) i m :
  ms !! i = Some m → nth i (salts (NewSet ms)) 0 = Salt blake3 (ID m).
Proof. intros Hm. simpl. apply nth_lookup_Some. by rewrite list_lookup_fmap, Hm. Qed.

Lemma member_NewSet_lookup (ms : list Member) i m : ms !! i = Some m → member (NewSet ms) i = m.
Proof. intros. by apply nth_lookup_Some. Qed.

Lemma filter_member_map (ms : list Member) (P : Member → Prop) (Q : nat → Prop)
    `{!∀ m, Decision (P m)} `{!∀ i, Decision (Q i)} (l : list nat) :
  (∀ i, Q i ↔ P (member (NewSet ms) i)) →
  member (NewSet ms) <$> filter Q l = filter P (member (NewSet ms) <$> l).
Proof.
  intros HQ. induction l as [|i l IH]; [done|]. rewrite fmap_cons, !filter_cons.
  destruct (decide (Q i)) as [Hi|Hi].
  - rewrite decide_True by by apply HQ. by rewrite fmap_cons, IH.
  - rewrite decide_False by by rewrite <- HQ. done.
Qed.

Lemma elem_of_idx (ms : list Member) i : i ∈ seq 0 (length ms) → ∃ m, ms !! i = Some m.
Proof. rewrite elem_of_seq. intros. apply lookup_lt_is_Some_2. lia. Qed.

(** The index computation of the code implements the specification. *)
Lemma Rank_spec ms slot : member (NewSet ms) <$> Rank (NewSet ms) slot = rank_spec slot ms.
Proof.
  unfold Rank, rank_spec. rewrite fmap_app. change (length (Members (NewSet ms))) with (length ms).
  f_equal.
  - rewrite (sort_by_map _ _ (outranks slot)).
    + f_equal. rewrite (filter_member_map ms is_weighted (λ i, weighted (NewSet ms) i = true)), member_NewSet; [done|].
      intros i. unfold weighted, is_weighted. destruct (N.eqb_spec (Weight (member (NewSet ms) i)) 0); simpl; naive_solver.
    + intros i j [_ [mi Hi]%elem_of_idx]%list_elem_of_filter [_ [mj Hj]%elem_of_idx]%list_elem_of_filter.
      unfold rank_less, outranks, l_of, l_id.
      by rewrite !(salt_NewSet ms _ _ Hi), !(salt_NewSet ms _ _ Hj),
        !(member_NewSet_lookup ms _ _ Hi), !(member_NewSet_lookup ms _ _ Hj).
  - rewrite (sort_by_map _ _ id_before); [|done].
    f_equal. rewrite (filter_member_map ms (λ m, ¬ is_weighted m) (λ i, weighted (NewSet ms) i = false)), member_NewSet; [done|].
    intros i. unfold weighted, is_weighted. destruct (N.eqb_spec (Weight (member (NewSet ms) i)) 0); simpl; naive_solver.
Qed.

Lemma Rank_perm (s : Set_) slot : Rank s slot ≡ₚ seq 0 (length (Members s)).
Proof.
  unfold Rank. rewrite !sort_by_perm. induction (seq 0 _) as [|i l IH]; [done|].
  rewrite !filter_cons. destruct (weighted s i); simpl; [by rewrite IH|].
  by rewrite <- Permutation_middle, IH.
Qed.

(** ** The owner loop is the greedy selection *)

Lemma owners_loop_pick (s : Set_) r rank out zones :
  Forall (λ i, Weight (member s i) ≠ 0) rank →
  owners_loop s r rank out zones = out ++ pick (λ i, zone_of (member s i)) (r - length out) zones rank.
Proof.
  revert out zones. induction rank as [|i rank IH]; intros out zones Hw; simpl.
  { destruct (r - length out)%nat; by rewrite app_nil_r. }
  apply Forall_cons_1 in Hw as [Hi Hw].
  destruct (Nat.leb_spec r (length out)) as [Hr|Hr].
  { replace (r - length out)%nat with 0%nat by lia. by rewrite app_nil_r. }
  destruct (N.eqb_spec (Weight (member s i)) 0); [done|].
  destruct (r - length out)%nat as [|k] eqn:Ek; [lia|]. simpl. case_decide.
  - by rewrite IH, Ek.
  - rewrite IH, length_app by done. simpl.
    replace (r - (length out + 1))%nat with k by lia. by rewrite <- app_assoc.
Qed.

Lemma owners_loop_stop (s : Set_) r rank zero out zones :
  Forall (λ i, Weight (member s i) = 0) zero →
  owners_loop s r (rank ++ zero) out zones = owners_loop s r rank out zones.
Proof.
  intros Hz. revert out zones. induction rank as [|i rank IH]; intros out zones; simpl.
  - destruct Hz as [|i zero Hi _]; [done|]. simpl. case_match; [done|]. by rewrite Hi.
  - by rewrite !IH.
Qed.

Lemma Owners_pick (s : Set_) slot r :
  Owners s slot r =
    pick (λ i, zone_of (member s i)) r ∅
      (sort_by (rank_less s slot)
        (filter (λ i, weighted s i = true) (seq 0 (length (Members s))))).
Proof.
  unfold Owners, Rank. rewrite owners_loop_stop, owners_loop_pick; simpl.
  - by rewrite Nat.sub_0_r.
  - rewrite sort_by_perm. apply Forall_forall. intros i [Hi _]%list_elem_of_filter.
    unfold weighted in Hi. by destruct (N.eqb_spec (Weight (member s i)) 0).
  - rewrite sort_by_perm. apply Forall_forall. intros i [Hi _]%list_elem_of_filter.
    unfold weighted in Hi. by destruct (N.eqb_spec (Weight (member s i)) 0).
Qed.

(** The owners as members: the greedy selection over the ranking. *)
Definition owners_spec (slot : N) (ms : list Member) (r : nat) : list Member :=
  pick zone_of r ∅ (sort_by (outranks slot) (filter is_weighted ms)).

Lemma Owners_members ms slot r :
  member (NewSet ms) <$> Owners (NewSet ms) slot r = owners_spec slot ms r.
Proof.
  rewrite Owners_pick. unfold owners_spec.
  rewrite (pick_map _ _ zone_of) by done. f_equal.
  pose proof (Rank_spec ms slot) as HR. unfold Rank, rank_spec in HR. rewrite fmap_app in HR.
  apply app_inj_1 in HR as [HR _]; [done|].
  rewrite length_fmap, !length_sort_by.
  rewrite <- (length_fmap (member (NewSet ms))).
  rewrite (filter_member_map ms is_weighted (λ i, weighted (NewSet ms) i = true)).
  { change (length (Members (NewSet ms))) with (length ms). by rewrite member_NewSet. }
  intros i. unfold weighted, is_weighted.
  destruct (N.eqb_spec (Weight (member (NewSet ms) i)) 0); simpl; naive_solver.
Qed.

Lemma ranked_sorted slot ms :
  let W := sort_by (outranks slot) (filter is_weighted ms) in
  StronglySorted (nlt (outranks slot)) W ∧ ∀ m, m ∈ W ↔ m ∈ ms ∧ is_weighted m.
Proof.
  split.
  - eapply sort_by_sorted; [apply outranks_strict|].
    apply Forall_forall. by intros m [? _]%list_elem_of_filter.
  - intros m. rewrite elem_of_sort_by, list_elem_of_filter. tauto.
Qed.

Lemma zero_sorted ms :
  let Z := sort_by id_before (filter (λ m, ¬ is_weighted m) ms) in
  StronglySorted (nlt id_before) Z ∧ ∀ m, m ∈ Z ↔ m ∈ ms ∧ ¬ is_weighted m.
Proof.
  split.
  - eapply sort_by_sorted; [apply (id_before_strict (λ _, True))|]. by apply Forall_true.
  - intros m. rewrite elem_of_sort_by, list_elem_of_filter. tauto.
Qed.

(** Removing members from the input removes them from the ranking, and
    leaves the order of the others alone. *)
Lemma rank_spec_filter slot ms P `{!∀ m, Decision (P m)} :
  rank_spec slot (filter P ms) = filter P (rank_spec slot ms).
Proof.
  unfold rank_spec. rewrite filter_app. f_equal.
  - rewrite <- (sort_by_filter _ P _ is_weighted).
    + f_equal. rewrite !list_filter_filter. apply list_filter_iff. tauto.
    + apply outranks_strict.
    + apply Forall_forall. by intros m [? _]%list_elem_of_filter.
  - rewrite <- (sort_by_filter _ P _ (λ m, ¬ is_weighted m)).
    + f_equal. rewrite !list_filter_filter. apply list_filter_iff. tauto.
    + apply id_before_strict.
    + apply Forall_forall. by intros m [? _]%list_elem_of_filter.
Qed.

Lemma ranked_filter slot ms P `{!∀ m, Decision (P m)} :
  sort_by (outranks slot) (filter is_weighted (filter P ms)) =
  filter P (sort_by (outranks slot) (filter is_weighted ms)).
Proof.
  rewrite <- (sort_by_filter _ P _ is_weighted).
  - f_equal. rewrite !list_filter_filter. apply list_filter_iff. tauto.
  - apply outranks_strict.
  - apply Forall_forall. by intros m [? _]%list_elem_of_filter.
Qed.

(** Distinct ids make the ranking a function of the set of members. *)
Lemma sort_outranks_perm slot ms1 ms2 :
  NoDup (ID <$> ms1) → Forall is_weighted ms1 → ms1 ≡ₚ ms2 →
  sort_by (outranks slot) ms1 = sort_by (outranks slot) ms2.
Proof.
  intros Hnd Hw Hp.
  apply (sorted_unique (outranks slot) (λ m, is_weighted m ∧ m ∈ ms1)).
  - intros a b [Ha Ha'] [Hb Hb'] Hab Hba. apply not_outranked in Hab, Hba.
    assert (ID a = ID b) as Hid.
    { destruct Hab as [?|[? H1]]; [destruct Hba as [?|[? _]]; lia|].
      destruct Hba as [?|[? H2]]; [lia|]. by apply (cmp_le_antisym (@arr_compare 32)). }
    by eapply NoDup_fmap_inj_on.
  - rewrite sort_by_perm. apply Forall_forall. intros m Hm. split; [|done].
    rewrite Forall_forall in Hw. by apply Hw.
  - by rewrite !sort_by_perm.
  - eapply sort_by_sorted; [apply outranks_strict|done].
  - eapply sort_by_sorted; [apply outranks_strict|by rewrite <- Hp].
Qed.
End ranking.

Lemma ids_of_members (s : Set_) idx : ids_of s idx = ID <$> (member s <$> idx).
Proof. unfold ids_of. by rewrite <- list_fmap_compose. Qed.

Lemma Log2Fix_bounds (x : N) : x ≠ 0 → x < 2 ^ 64 → ∃ l, Log2Fix x = Some l ∧ 2 ^ l ≤ x ^ 2 ^ 32 < 2 ^ (l + 2).
Proof.
  intros H0 Hx. rewrite Log2Fix_eq by done. eexists; split; [done|].
  apply (log2_bounds 63 (N.log2 x) 32 x).
  - assert (N.log2 x < 64); [|lia]. apply N.log2_lt_pow2; lia.
  - by apply log2_range.
  - by vm_compute.
Qed.

(** * What placement promises *)

(** C37 [Log2Fix] is the base-2 logarithm in Q.32 or one unit less: for every non-zero
    64-bit [x], with [f = ⌊log2(x)·2^32⌋], stated on integers as
    [2^f ≤ x^(2^32) < 2^(f+1)], it returns [f] or [f - 1].  The second case happens
    ([Log2Fix_below_floor]), although the comment of the function promises [f]. *)
Theorem Log2Fix_floor_or_one_less (x : N) :
  x ≠ 0 → x < 2 ^ 64 →
  ∃ l f, Log2Fix x = Some l ∧ 2 ^ f ≤ x ^ 2 ^ 32 < 2 ^ (f + 1) ∧ (l = f ∨ l + 1 = f).
Proof.
  intros H0 Hx. destruct (Log2Fix_bounds x H0 Hx) as (l & El & Hl & Hu). destruct (N.lt_ge_cases (x ^ 2 ^ 32) (2 ^ (l + 1))) as [Hc|Hc].
  - exists l, l. split; [done|]. split; [by split|by left].
  - exists l, (l + 1). split; [done|]. rewrite <- N.add_assoc. split; [by split|by right].
Qed.

Lemma Log2Fix_floor_or_one_less_witness :
  Log2Fix 3 = Some 6807362105 ∧ ∃ f, 2 ^ f ≤ 3 ^ 2 ^ 32 < 2 ^ (f + 1) ∧ (6807362105 = f ∨ 6807362105 + 1 = f).
Proof.
  assert (Log2Fix 3 = Some 6807362105) as E by computes.
  split; [exact E|].
  destruct (Log2Fix_floor_or_one_less 3) as (l & f & El & Hf & Hlf); [discriminate|reflexivity|].
  rewrite E in El. apply (inj Some) in El. exists f. rewrite El. split; [exact Hf|exact Hlf].
Defined.

(** The documented value ⌊log2(x)·2^32⌋ is not what [Log2Fix] computes:
    truncation in the squarings loses the last unit for some inputs.  At
    [x = 14430162656065396190] it returns [l] although [log2(x)·2^32 ≥ l + 1]. *)
Theorem Log2Fix_below_floor :
  ∃ x l, x < 2 ^ 64 ∧ Log2Fix x = Some l ∧ 2 ^ (l + 1) ≤ x ^ 2 ^ 32.
Proof.
  exists 14430162656065396190, 273356291791. split; [done|]. split; [by vm_compute|].
  assert (63 * 2 ^ N.of_nat 32 + log2_frac 200 32 (14430162656065396190 * 2 ^ (200 - 63))
          = 273356291791 + 1) as <- by by vm_compute.
  apply (log2_bounds 200 63 32 14430162656065396190); by vm_compute.
Qed.

Section promises.
Context (blake3 : bytes → nat → bytes).
Local Notation NewSet := (NewSet blake3).
Local Notation l_id := (l_id blake3).

(** [Rank] orders every member exactly once: an earlier weighted member has
    at least the later one's weighted score ([w_i·L_j ≥ w_j·L_i] in exact
    arithmetic, ties by smaller id), weighted members come before weight-0
    members, and those follow in id order. *)
Theorem Rank_sound (ms : list Member) (slot : N) :
  let s := NewSet ms in
  Rank s slot ≡ₚ seq 0 (length ms) ∧
  ∀ p q i j, (p < q)%nat → Rank s slot !! p = Some i → Rank s slot !! q = Some j →
    let a := member s i in let b := member s j in
    (Weight b ≠ 0 → Weight a ≠ 0) ∧
    (Weight a ≠ 0 → Weight b ≠ 0 →
      Weight b * l_id slot (ID a) < Weight a * l_id slot (ID b) ∨
      Weight b * l_id slot (ID a) = Weight a * l_id slot (ID b) ∧
      cmp_le compareID (ID a) (ID b)) ∧
    (Weight a = 0 → cmp_le compareID (ID a) (ID b)).
Proof.
  intros s. split; [apply Rank_perm|]. intros p q i j Hpq Hp Hq a b.
  destruct (ranked_sorted blake3 slot ms) as [HsW HW].
  destruct (zero_sorted ms) as [HsZ HZ].
  pose proof (Rank_spec blake3 ms slot) as HR. unfold rank_spec in HR. fold s in HR.
  set (W := sort_by (outranks blake3 slot) (filter is_weighted ms)) in *.
  set (Z := sort_by id_before (filter (λ m, ¬ is_weighted m) ms)) in *.
  assert (Hp' : (W ++ Z) !! p = Some a) by by rewrite <- HR, list_lookup_fmap, Hp.
  assert (Hq' : (W ++ Z) !! q = Some b) by by rewrite <- HR, list_lookup_fmap, Hq.
  apply lookup_app_Some in Hp', Hq'. destruct Hp' as [Ha|[Hlp Ha]], Hq' as [Hb|[Hlq Hb]].
  - pose proof (proj2 (proj1 (HW _) (list_elem_of_lookup_2 _ _ _ Ha))).
    split; [done|]. split; [|done].
    intros _ _. apply not_outranked, (StronglySorted_lookup _ _ _ _ _ _ HsW Hpq Ha Hb).
  - pose proof (proj2 (proj1 (HW _) (list_elem_of_lookup_2 _ _ _ Ha))).
    pose proof (proj2 (proj1 (HZ _) (list_elem_of_lookup_2 _ _ _ Hb))). done.
  - apply lookup_lt_Some in Hb. lia.
  - pose proof (proj2 (proj1 (HZ _) (list_elem_of_lookup_2 _ _ _ Ha))).
    pose proof (proj2 (proj1 (HZ _) (list_elem_of_lookup_2 _ _ _ Hb))). split; [done|]. split; [done|].
    intros _. assert (nlt id_before a b) as Hn by (eapply (StronglySorted_lookup _ Z); [done| |done..]; lia).
    unfold nlt, id_before in Hn. apply bool_decide_eq_false in Hn.
    by apply (cmp_nlt_le (@arr_compare 32)).
Qed.

(** C36 [Owners] picks at most [r] members, of positive weight, in pairwise
    distinct zones, in ranking order; and it stops short of [r] only when
    every zone with a weighted member is taken. *)
Theorem Owners_sound (ms : list Member) (slot : N) (r : nat) :
  let owners := member (NewSet ms) <$> Owners (NewSet ms) slot r in
  (length owners ≤ r)%nat ∧
  owners `sublist_of` (member (NewSet ms) <$> Rank (NewSet ms) slot) ∧
  NoDup (zone_of <$> owners) ∧
  (∀ m, m ∈ owners → m ∈ ms ∧ Weight m ≠ 0) ∧
  ((length owners < r)%nat → ∀ m, m ∈ ms → Weight m ≠ 0 → zone_of m ∈ zone_of <$> owners).
Proof.
  intros owners. unfold owners. rewrite Owners_members, Rank_spec. unfold owners_spec, rank_spec.
  split; [apply length_pick|]. split; [|split; [apply pick_zones_NoDup|split]].
  - etrans; [apply pick_sublist|]. apply sublist_inserts_r. done.
  - intros m Hm. apply (sublist_elem_of _ _ _ (pick_sublist _ _ _ _)) in Hm.
    rewrite elem_of_sort_by in Hm. by apply list_elem_of_filter in Hm as [? ?].
  - intros Hl m Hm Hw. destruct (pick_complete zone_of r ∅
      (sort_by (outranks blake3 slot) (filter is_weighted ms)) m Hl) as [H|H]; [|set_solver|done].
    rewrite elem_of_sort_by. by apply list_elem_of_filter.
Qed.

(** Minimal movement: taking members out of the set keeps every other owner
    of every slot an owner, and changes nothing on the slots they did not own. *)
Theorem Owners_remove (ms : list Member) (slot : N) (r : nat) (id : NodeID) :
  let before := member (NewSet ms) <$> Owners (NewSet ms) slot r in
  let rest := filter (λ m, ID m ≠ id) ms in
  let after := member (NewSet rest) <$> Owners (NewSet rest) slot r in
  (∀ m, m ∈ before → ID m ≠ id → m ∈ after) ∧
  (id ∉ ID <$> before → after = before).
Proof.
  intros before rest after. unfold before, after, rest. rewrite !Owners_members.
  unfold owners_spec. rewrite ranked_filter. split.
  - intros m Hm Hid. by apply pick_filter.
  - intros Hid. apply pick_filter_unpicked, Forall_forall. intros m Hm E.
    apply Hid. rewrite <- E. by apply list_elem_of_fmap_2.
Qed.

(** Placement is a function of the set of members: two listings of the same
    members (distinct ids) in different orders give every slot the same owners,
    in the same order. *)
Theorem Owners_order_independent (ms1 ms2 : list Member) (slot : N) (r : nat) :
  NoDup (ID <$> ms1) → ms1 ≡ₚ ms2 →
  ids_of (NewSet ms1) (Owners (NewSet ms1) slot r) =
  ids_of (NewSet ms2) (Owners (NewSet ms2) slot r).
Proof.
  intros Hnd Hp. rewrite !ids_of_members, !Owners_members.
  unfold owners_spec. do 2 f_equal. apply sort_outranks_perm.
  - eapply sublist_NoDup; [done|apply fmap_sublist, sublist_filter].
  - apply Forall_forall. by intros m [? _]%list_elem_of_filter.
  - by rewrite Hp.
Qed.
End promises.

(** A digest for the witnesses: any function will do. *)
Definition toy_blake3 (b : bytes) (n : nat) : bytes := be_encode n (be_decode b * 0x9e3779b97f4a7c15).

Definition toy_members : list Member :=
  [MkMember (arr_of 32 [x01]) 1000 "a"; MkMember (arr_of 32 [x02]) 2000 "";
   MkMember (arr_of 32 [x03]) 500 "a"; MkMember (arr_of 32 [x04]) 0 ""].

Lemma Owners_order_independent_witness :
  ids_of (NewSet toy_blake3 toy_members) (Owners (NewSet toy_blake3 toy_members) 7 2) =
  ids_of (NewSet toy_blake3 (reverse toy_members)) (Owners (NewSet toy_blake3 (reverse toy_members)) 7 2)
  ∧ length (Owners (NewSet toy_blake3 toy_members) 7 2) = 2%nat.
Proof.
  split; [|vm_compute; reflexivity].
  apply (Owners_order_independent toy_blake3 toy_members (reverse toy_members) 7 2).
  - decides.
  - symmetry. apply reverse_Permutation.
Defined.

(** ** The table *)

Section table.
(** Every cached entry is what the set computes. *)
Definition table_ok (t : Table) : Prop :=
  (∀ slot o, t_owners t !! slot = Some o → o = Owners (t_set t) slot (t_r t)) ∧
  (∀ slot r, t_rank t !! slot = Some r → r = Rank (t_set t) slot).

Inductive table_op := OpOwners (slot : N) | OpRank (slot : N).

Definition table_step (t : Table) (op : table_op) : list nat * Table :=
  match op with OpOwners slot => Table_Owners t slot | OpRank slot => Table_Rank t slot end.

(** The answers to a sequence of calls. *)
Fixpoint table_run (t : Table) (ops : list table_op) : list (list nat) :=
  match ops with
  | [] => []
  | op :: ops' => let '(r, t') := table_step t op in r :: table_run t' ops'
  end.

Definition uncached (s : Set_) (r : nat) (op : table_op) : list nat :=
  match op with OpOwners slot => Owners s slot r | OpRank slot => Rank s slot end.

Lemma table_step_ok t op :
  table_ok t →
  let '(ans, t') := table_step t op in
  ans = uncached (t_set t) (t_r t) op ∧ table_ok t' ∧ t_set t' = t_set t ∧ t_r t' = t_r t.
Proof.
  intros [Ho Hr]. destruct op as [slot|slot]; simpl.
  - unfold Table_Owners. destruct (t_owners t !! slot) as [o|] eqn:E; [by rewrite (Ho _ _ E)|].
    split; [done|]. split; [|done]. split; [|done]. simpl. intros slot' o Hl.
    destruct (decide (slot = slot')) as [->|]; simplify_map_eq; auto.
  - unfold Table_Rank. destruct (t_rank t !! slot) as [o|] eqn:E; [by rewrite (Hr _ _ E)|].
    split; [done|]. split; [|done]. split; [done|]. simpl. intros slot' r Hl.
    destruct (decide (slot = slot')) as [->|]; simplify_map_eq; auto.
Qed.
End table.

(** The lazily filled owner table is transparent: whatever calls came before,
    every [Owners] and [Rank] answer of a [NewTable] is the set's own. *)
Theorem Table_transparent (s : Set_) (r : nat) (ops : list table_op) :
  table_run (NewTable s r) ops = uncached s r <$> ops.
Proof.
  assert (table_ok (NewTable s r)) as H by (split; intros ??; simpl; by rewrite lookup_empty).
  change s with (t_set (NewTable s r)) at 2. change r with (t_r (NewTable s r)) at 3.
  revert H. generalize (NewTable s r). induction ops as [|op ops IH]; intros t Ht; [done|].
  simpl. pose proof (table_step_ok t op Ht) as Hs. destruct (table_step t op) as [ans t'].
  destruct Hs as (-> & Ht' & Es & Er). rewrite IH by done. by rewrite Es, Er.
Qed.

(** The murmur3 finalizer is a permutation of the 64-bit words: two nodes with
    different salts never tie on their hash of a slot. *)
Theorem Fmix64_injective (x y : N) :
  x < 2 ^ 64 → y < 2 ^ 64 → Fmix64 x = Fmix64 y → x = y.
Proof.
  intros Hx Hy E. rewrite <- (Fmix64_inv_l x), <- (Fmix64_inv_l y) by done. by rewrite E.
Qed.

Lemma Fmix64_injective_witness : Fmix64_inv 0xb456bcfc34c2cb2c = 1.
Proof. apply (Fmix64_injective (Fmix64_inv 0xb456bcfc34c2cb2c) 1); vm_compute; reflexivity. Defined.
