(* ===== verification/View.v ===== *)
(** The cluster view (src/view/view.go): membership, voters and the placement
    configuration, with the placement functions over it. *)
From S2P Require Import Prelude Store Placement.

(** * Data *)

Record Voter := MkVoter {
  Voter_ID : bytes;
  Voter_Since : N;
}.

#[global] Instance Voter_eq_dec : EqDecision Voter.
Proof. solve_decision. Defined.
#[global] Instance Voter_ser : Ser Voter.
Proof.
  refine (ser_via (λ v, (v.(Voter_ID), v.(Voter_Since)))
    (λ '(f0, f1), MkVoter f0 f1) _). by intros [].
Defined.

Record Former := MkFormer {
  Former_ID : bytes;
  Former_Until : Z;
}.

#[global] Instance Former_eq_dec : EqDecision Former.
Proof. solve_decision. Defined.
#[global] Instance Former_ser : Ser Former.
Proof.
  refine (ser_via (λ v, (v.(Former_ID), v.(Former_Until)))
    (λ '(f0, f1), MkFormer f0 f1) _). by intros [].
Defined.

Record DataEndpoint := MkDataEndpoint {
  DataEndpoint_ID : bytes;
  DataEndpoint_Addrs : list string;
}.

#[global] Instance DataEndpoint_eq_dec : EqDecision DataEndpoint.
Proof. solve_decision. Defined.
#[global] Instance DataEndpoint_ser : Ser DataEndpoint.
Proof.
  refine (ser_via (λ v, (v.(DataEndpoint_ID), v.(DataEndpoint_Addrs)))
    (λ '(f0, f1), MkDataEndpoint f0 f1) _). by intros [].
Defined.

Record Node := MkNode {
  Node_ID : bytes;
  Node_Weight : N;
  Node_Addrs : list string;
  Node_Data : list DataEndpoint;
  Node_Token : bytes;
  Node_Zone : string;
  Node_Incarnation : N;
  Node_Writable : bool;
}.

#[global] Instance Node_eq_dec : EqDecision Node.
Proof. solve_decision. Defined.
#[global] Instance Node_ser : Ser Node.
Proof.
  refine (ser_via (λ v, (v.(Node_ID), v.(Node_Weight), v.(Node_Addrs), v.(Node_Data), v.(Node_Token), v.(Node_Zone), v.(Node_Incarnation), v.(Node_Writable)))
    (λ '(f0, f1, f2, f3, f4, f5, f6, f7), MkNode f0 f1 f2 f3 f4 f5 f6 f7) _). by intros [].
Defined.

Record Ramp := MkRamp {
  Ramp_Node : bytes;
  Ramp_Target : N;
  Ramp_Step : Z;
}.

#[global] Instance Ramp_eq_dec : EqDecision Ramp.
Proof. solve_decision. Defined.
#[global] Instance Ramp_ser : Ser Ramp.
Proof.
  refine (ser_via (λ v, (v.(Ramp_Node), v.(Ramp_Target), v.(Ramp_Step)))
    (λ '(f0, f1, f2), MkRamp f0 f1 f2) _). by intros [].
Defined.

Record Pending := MkPending {
  Pending_Nodes : list Node;
  Pending_Replicas : N;
  Pending_ID : N;
  Pending_ParticipantsAck : list bytes;
  Pending_Participants : list bytes;
  Pending_Frozen : bool;
  Pending_Round : N;
  Pending_PrimaryDone : list bytes;
  Pending_Done : list bytes;
  Pending_FrozenAt : Z;
  Pending_Reason : string;
  Pending_Ramp : option Ramp;
  Pending_Since : Z;
}.

#[global] Instance Pending_eq_dec : EqDecision Pending.
Proof. solve_decision. Defined.
#[global] Instance Pending_ser : Ser Pending.
Proof.
  refine (ser_via (λ v, (v.(Pending_Nodes), v.(Pending_Replicas), v.(Pending_ID), v.(Pending_ParticipantsAck), v.(Pending_Participants), v.(Pending_Frozen), v.(Pending_Round), v.(Pending_PrimaryDone), v.(Pending_Done), v.(Pending_FrozenAt), v.(Pending_Reason), v.(Pending_Ramp), v.(Pending_Since)))
    (λ '(f0, f1, f2, f3, f4, f5, f6, f7, f8, f9, f10, f11, f12), MkPending f0 f1 f2 f3 f4 f5 f6 f7 f8 f9 f10 f11 f12) _). by intros [].
Defined.

Record ACL := MkACL {
  ACL_Allowed : list bytes;
  ACL_Admins : list bytes;
}.

#[global] Instance ACL_eq_dec : EqDecision ACL.
Proof. solve_decision. Defined.
#[global] Instance ACL_ser : Ser ACL.
Proof.
  refine (ser_via (λ v, (v.(ACL_Allowed), v.(ACL_Admins)))
    (λ '(f0, f1), MkACL f0 f1) _). by intros [].
Defined.

Record View := MkView {
  ClusterID : bytes;
  Incarnation : N;
  Epoch : N;
  Version : N;
  PlacementEpoch : N;
  Replicas : N;
  MinReplicas : N;
  Voters : list Voter;
  VoterSync : Z;
  VoterSyncCursor : bytes;
  Nodes : list Node;
  View_Pending : option Pending;
  View_Former : list Former;
  Fenced : list bytes;
  RecoveredInc : N;
  RecoveredEpoch : N;
  RebalancePause : bool;
  RateCap : N;
  VoterSyncTarget : bytes;
  VoterSyncAdd : bool;
  DeferredVoters : list bytes;
  View_ACL : option ACL;
  Ramps : list Ramp;
  RemoveVoters : list bytes;
}.

#[global] Instance View_eq_dec : EqDecision View.
Proof. solve_decision. Defined.
#[global] Instance View_ser : Ser View.
Proof.
  refine (ser_via (λ v, (v.(ClusterID), v.(Incarnation), v.(Epoch), v.(Version), v.(PlacementEpoch), v.(Replicas), v.(MinReplicas), v.(Voters), v.(VoterSync), v.(VoterSyncCursor), v.(Nodes), v.(View_Pending), v.(View_Former), v.(Fenced), v.(RecoveredInc), v.(RecoveredEpoch), v.(RebalancePause), v.(RateCap), v.(VoterSyncTarget), v.(VoterSyncAdd), v.(DeferredVoters), v.(View_ACL), v.(Ramps), v.(RemoveVoters)))
    (λ '(f0, f1, f2, f3, f4, f5, f6, f7, f8, f9, f10, f11, f12, f13, f14, f15, f16, f17, f18, f19, f20, f21, f22, f23), MkView f0 f1 f2 f3 f4 f5 f6 f7 f8 f9 f10 f11 f12 f13 f14 f15 f16 f17 f18 f19 f20 f21 f22 f23) _). by intros [].
Defined.

(** ** Field updates *)

#[global] Instance Node_eta : Eta Node := λ r, MkNode (r.(Node_ID)) (r.(Node_Weight)) (r.(Node_Addrs)) (r.(Node_Data)) (r.(Node_Token)) (r.(Node_Zone)) (r.(Node_Incarnation)) (r.(Node_Writable)).
#[global] Instance Ramp_eta : Eta Ramp := λ r, MkRamp (r.(Ramp_Node)) (r.(Ramp_Target)) (r.(Ramp_Step)).
#[global] Instance Pending_eta : Eta Pending := λ r, MkPending (r.(Pending_Nodes)) (r.(Pending_Replicas)) (r.(Pending_ID)) (r.(Pending_ParticipantsAck)) (r.(Pending_Participants)) (r.(Pending_Frozen)) (r.(Pending_Round)) (r.(Pending_PrimaryDone)) (r.(Pending_Done)) (r.(Pending_FrozenAt)) (r.(Pending_Reason)) (r.(Pending_Ramp)) (r.(Pending_Since)).
#[global] Instance View_eta : Eta View := λ r, MkView (r.(ClusterID)) (r.(Incarnation)) (r.(Epoch)) (r.(Version)) (r.(PlacementEpoch)) (r.(Replicas)) (r.(MinReplicas)) (r.(Voters)) (r.(VoterSync)) (r.(VoterSyncCursor)) (r.(Nodes)) (r.(View_Pending)) (r.(View_Former)) (r.(Fenced)) (r.(RecoveredInc)) (r.(RecoveredEpoch)) (r.(RebalancePause)) (r.(RateCap)) (r.(VoterSyncTarget)) (r.(VoterSyncAdd)) (r.(DeferredVoters)) (r.(View_ACL)) (r.(Ramps)) (r.(RemoveVoters)).

(** * Operations *)

Local Open Scope N_scope.

(** [None] is the error. *)
Definition ParseNodeID (s : string) : option NodeID :=
  b ← hex_decode (of_string s);
  if bool_decide (length b = 32%nat) then Some (arr_of 32 b) else None.

Definition IDString (id : NodeID) : string := to_string (hex_encode id).
Definition ShortID (id : NodeID) : string := to_string (hex_encode (take 4 id)).

(** The conversion of a slice to an array.  Go panics on a slice that is too short,
    [arr_of] pads it; the ids of every view of a history have 32 bytes. *)
Definition NID (n : Node) : NodeID := arr_of 32 (Node_ID n).

Definition ZoneOrID (n : Node) : string :=
  if bool_decide (Node_Zone n ≠ ""%string) then Node_Zone n else to_string (Node_ID n).

Definition VoterSyncDone : Z := 0.
Definition VoterSyncPending : Z := 1.

Definition View_Compare (v : View) (inc epoch : N) : comparison :=
  if negb (Incarnation v =? inc) then if Incarnation v <? inc then Lt else Gt
  else if negb (Epoch v =? epoch) then if Epoch v <? epoch then Lt else Gt
  else Eq.

Definition find_node (nodes : list Node) (id : NodeID) : option Node :=
  snd <$> list_find (λ n, Node_ID n = arr_bytes id) nodes.

(** [v.Node(id)]: under nodes, then under pending.nodes. *)
Definition View_Node (v : View) (id : NodeID) : option Node :=
  match find_node (Nodes v) id with
  | Some n => Some n
  | None => p ← View_Pending v; find_node (Pending_Nodes p) id
  end.

Definition endpoint_owner (nodes : list Node) (id : NodeID) : option NodeID :=
  n ← snd <$> list_find (λ n, Exists (λ d, DataEndpoint_ID d = arr_bytes id) (Node_Data n)) nodes;
  Some (NID n).

Definition DataEndpointOwner (v : View) (id : NodeID) : option NodeID :=
  match endpoint_owner (Nodes v) id with
  | Some r => Some r
  | None => p ← View_Pending v; endpoint_owner (Pending_Nodes p) id
  end.

Definition IsMember (v : View) (id : NodeID) : bool :=
  match View_Node v id with
  | Some _ => true
  | None => bool_decide (is_Some (DataEndpointOwner v id))
  end.

Definition IsFormer (v : View) (id : NodeID) : bool :=
  existsb (λ f, arr_is (Former_ID f) id) (View_Former v).

Definition IsVoter (v : View) (id : NodeID) : bool :=
  existsb (λ vo, arr_is (Voter_ID vo) id) (Voters v).

Definition VoterIDs (v : View) : list NodeID := (λ vo, arr_of 32 (Voter_ID vo)) <$> Voters v.

Definition Quorum (v : View) : nat := length (Voters v) / 2 + 1.

(** The closure [add] of [AllMembers]: appends the ids not seen. *)
Definition add_members (out : list NodeID) (nodes : list Node) : list NodeID :=
  fold_left (λ out n, if decide (NID n ∈ out) then out else out ++ [NID n]) nodes out.

Definition AllMembers (v : View) : list NodeID :=
  let out := add_members [] (Nodes v) in
  match View_Pending v with
  | Some p => add_members out (Pending_Nodes p)
  | None => out
  end.

Definition Contains (ids : list bytes) (id : NodeID) : bool := existsb (λ b, arr_is b id) ids.

Definition AddID (ids : list bytes) (id : NodeID) : list bytes :=
  if Contains ids id then ids else ids ++ [arr_bytes id].

Definition IDsOf (raw : list bytes) : list NodeID := arr_of 32 <$> raw.

Definition SortNodes (nodes : list Node) : list Node :=
  sort_by (λ a b, bool_decide (bytes_compare (Node_ID a) (Node_ID b) = Lt)) nodes.

(** [uint8] result of [max(R-1, 2)] capped at [R], on Go [int]s. *)
Definition DefaultMinReplicas (r : N) : N :=
  let m := (Z.of_N r - 1)%Z in
  let m := if (m <? 2)%Z then 2%Z else m in
  let m := if (Z.of_N r <? m)%Z then Z.of_N r else m in
  Z.to_N m mod 256.

(** A current node counts as kept when the target lists it with weight. *)
Definition kept_in (target : list Node) (n : Node) : bool :=
  existsb (λ t, bool_decide (Node_ID n = Node_ID t) && (0 <? Node_Weight t)) target.

Definition count_dropped (cur target : list Node) : nat :=
  length (filter (λ n, negb (kept_in target n) && (0 <? Node_Weight n) = true) cur).

(** [true] when the change is refused. *)
Definition ValidateChange (cur target : list Node) (replicas : Z) (force : bool) : bool :=
  if force then false
  else
    let dropped := Z.of_nat (count_dropped cur target) in
    (replicas <=? dropped)%Z && (0 <? replicas)%Z.

(** ** Encoding *)

Section encoding.
Context `{Codec View}.

Definition Encode (v : View) : bytes := marshal v.

(** The error text is wrapped. *)
Definition Decode (b : bytes) : string + View :=
  match unmarshal b with
  | inl e => inl ("view: decode: " +:+ e)%string
  | inr v => inr v
  end.

(** [None] stands for the panics. *)
Definition Clone (v : View) : option View :=
  match Decode (Encode v) with inl _ => None | inr c => Some c end.

Lemma Decode_Encode v : Decode (Encode v) = inr v.
Proof. unfold Decode, Encode. by rewrite unmarshal_marshal. Qed.

Lemma Clone_eq v : Clone v = Some v.
Proof. unfold Clone. by rewrite Decode_Encode. Qed.
End encoding.

(** ** The placement tables of a view *)

Definition members (nodes : list Node) : list Member :=
  (λ n, MkMember (NID n) (Node_Weight n) (ZoneOrID n)) <$> nodes.

Section placement.
Context (blake3 : bytes → nat → bytes).

Record Placement := MkPlacement {
  pl_view : View; pl_cur : Table; pl_pending : option Table }.

Definition NewPlacement (v : View) : Placement :=
  {| pl_view := v;
     pl_cur := NewTable (NewSet blake3 (members (Nodes v))) (N.to_nat (Replicas v));
     pl_pending :=
       (λ p, NewTable (NewSet blake3 (members (Pending_Nodes p)))
               (N.to_nat (Pending_Replicas p))) <$> View_Pending v |}.

(** The tables fill their caches as they answer; the answers do not depend on
    the caches ([Table_transparent]), so the filled table is dropped here. *)
Definition Owners_of (p : Placement) (key : arr 32) : list NodeID :=
  fst (OwnerIDs (pl_cur p) key).

(** [None] is nil. *)
Definition PendingOwners (p : Placement) (key : arr 32) : option (list NodeID) :=
  (λ t, fst (OwnerIDs t key)) <$> pl_pending p.

(** The shared loop: the ids not in [out] already, appended in order. *)
Definition append_unseen (out extra : list NodeID) : list NodeID :=
  out ++ filter (λ id, id ∉ out) extra.

Definition WriteSet (p : Placement) (key : arr 32) : list NodeID :=
  let out := Owners_of p key in
  match PendingOwners p key with
  | None => out
  | Some po => append_unseen out po
  end.

Definition ReadOrder (p : Placement) (key : arr 32) : list NodeID :=
  let out := fst (RankIDs (pl_cur p) key) in
  match pl_pending p with
  | None => out
  | Some t => append_unseen out (fst (RankIDs t key))
  end.

Definition IsOwner_of (p : Placement) (key : arr 32) (id : NodeID) : bool :=
  fst (IsOwner (pl_cur p) key id).

Definition IsPendingOwner (p : Placement) (key : arr 32) (id : NodeID) : bool :=
  match pl_pending p with
  | None => false
  | Some t => fst (IsOwner t key id)
  end.

Definition InWriteSet (p : Placement) (key : arr 32) (id : NodeID) : bool :=
  IsOwner_of p key id || IsPendingOwner p key id.
End placement.

(** * Facts *)

Lemma Contains_spec ids (id : NodeID) : Contains ids id = true ↔ arr_bytes id ∈ ids.
Proof.
  unfold Contains. rewrite existsb_exists. split.
  - intros (b & Hb & ->%arr_is_spec). by apply list_elem_of_In.
  - intros H. exists id. split; [by apply list_elem_of_In | by apply arr_is_spec].
Qed.

Lemma elem_of_AddID ids (id : NodeID) b : b ∈ AddID ids id ↔ b ∈ ids ∨ b = arr_bytes id.
Proof.
  unfold AddID. destruct (Contains ids id) eqn:E.
  - apply Contains_spec in E. split; [auto|]. by intros [ | -> ].
  - set_solver.
Qed.

Lemma AddID_NoDup ids (id : NodeID) : NoDup ids → NoDup (AddID ids id).
Proof.
  intros Hnd. unfold AddID. destruct (Contains ids id) eqn:E; [done|].
  apply NoDup_app. repeat split; [done| |apply NoDup_singleton].
  intros b Hb ->%list_elem_of_singleton. apply (Contains_spec ids id) in Hb. congruence.
Qed.

Lemma elem_of_add_members out ns id :
  id ∈ add_members out ns ↔ id ∈ out ∨ id ∈ NID <$> ns.
Proof.
  unfold add_members. revert out. induction ns as [|n ns IH]; intros out; simpl; [set_solver|].
  rewrite IH. case_decide; set_solver.
Qed.

Lemma NoDup_add_members out ns : NoDup out → NoDup (add_members out ns).
Proof.
  unfold add_members. revert out. induction ns as [|n ns IH]; intros out Hnd; simpl; [done|].
  apply IH. case_decide; [done|]. apply NoDup_app. repeat split; [done|set_solver|apply NoDup_singleton].
Qed.

Lemma elem_of_AllMembers v id :
  id ∈ AllMembers v ↔ id ∈ NID <$> Nodes v ∨ ∃ p, View_Pending v = Some p ∧ id ∈ NID <$> Pending_Nodes p.
Proof.
  unfold AllMembers. destruct (View_Pending v) as [p|].
  - rewrite !elem_of_add_members. set_solver.
  - rewrite elem_of_add_members. set_solver.
Qed.

Lemma NoDup_AllMembers v : NoDup (AllMembers v).
Proof.
  unfold AllMembers. destruct (View_Pending v); repeat apply NoDup_add_members; apply NoDup_nil_2.
Qed.

Lemma elem_of_append_unseen (out extra : list NodeID) id :
  id ∈ append_unseen out extra ↔ id ∈ out ∨ id ∈ extra.
Proof.
  unfold append_unseen. rewrite elem_of_app, list_elem_of_filter.
  destruct (decide (id ∈ out)); naive_solver.
Qed.

Lemma NoDup_append_unseen (out extra : list NodeID) :
  NoDup out → NoDup extra → NoDup (append_unseen out extra).
Proof.
  intros H1 H2. apply NoDup_app. repeat split; [done| |by apply NoDup_filter].
  intros x Hx [Hn _]%list_elem_of_filter. done.
Qed.

(** Two majorities of voter sets that differ by one voter meet. *)
Lemma majorities_meet (U1 U2 Q1 Q2 : list NodeID) :
  NoDup Q1 → NoDup Q2 → Q1 ⊆ U1 → Q2 ⊆ U2 →
  (length U1 / 2 + 1 ≤ length Q1)%nat → (length U2 / 2 + 1 ≤ length Q2)%nat →
  (U2 ⊆ U1 ∧ length U1 ≤ length U2 + 1)%nat →
  ∃ x, x ∈ Q1 ∧ x ∈ Q2.
Proof.
  intros ?? S1 S2 L1 L2 [HU Hl]. apply (pigeonhole U1); [done..|set_solver|].
  pose proof (Nat.div_mod_eq (length U1) 2). pose proof (Nat.div_mod_eq (length U2) 2).
  pose proof (Nat.mod_upper_bound (length U1) 2 ltac:(lia)).
  pose proof (Nat.mod_upper_bound (length U2) 2 ltac:(lia)). lia.
Qed.

(** ** Placement over a view *)

Section view_placement.
Context (blake3 : bytes → nat → bytes).
Notation NewPlacement := (NewPlacement blake3).
Notation NewSet := (NewSet blake3).

(** What the tables answer, without their caches. *)
Definition owner_ids (nodes : list Node) (r : N) (key : arr 32) : list NodeID :=
  ids_of (NewSet (members nodes)) (Owners (NewSet (members nodes)) (Slot key) (N.to_nat r)).
Definition rank_ids (nodes : list Node) (key : arr 32) : list NodeID :=
  ids_of (NewSet (members nodes)) (Rank (NewSet (members nodes)) (Slot key)).

Lemma OwnerIDs_NewTable s r key :
  fst (OwnerIDs (NewTable s r) key) = ids_of s (Owners s (Slot key) r).
Proof. done. Qed.

Lemma IsOwner_NewTable s r key id :
  fst (IsOwner (NewTable s r) key id) = true ↔ id ∈ ids_of s (Owners s (Slot key) r).
Proof.
  change (fst (IsOwner (NewTable s r) key id)) with
    (existsb (λ j, bool_decide (ID (member s j) = id)) (Owners s (Slot key) r)).
  rewrite existsb_exists. unfold ids_of. rewrite list_elem_of_fmap.
  setoid_rewrite <- list_elem_of_In. setoid_rewrite bool_decide_eq_true. naive_solver.
Qed.

Lemma rank_ids_perm nodes key : rank_ids nodes key ≡ₚ NID <$> nodes.
Proof.
  unfold rank_ids. rewrite ids_of_members, Rank_perm. simpl.
  rewrite member_NewSet. unfold members. rewrite <- list_fmap_compose. done.
Qed.

Lemma owner_ids_sublist nodes r key : owner_ids nodes r key `sublist_of` rank_ids nodes key.
Proof.
  unfold owner_ids, rank_ids. rewrite !ids_of_members. apply fmap_sublist.
  rewrite Owners_members, Rank_spec. unfold owners_spec, rank_spec.
  etrans; [apply pick_sublist|]. by apply sublist_inserts_r.
Qed.

Lemma Owners_of_eq v key : Owners_of (NewPlacement v) key = owner_ids (Nodes v) (Replicas v) key.
Proof. done. Qed.

Lemma WriteSet_eq v key :
  WriteSet (NewPlacement v) key =
  match View_Pending v with
  | None => owner_ids (Nodes v) (Replicas v) key
  | Some p => append_unseen (owner_ids (Nodes v) (Replicas v) key)
                (owner_ids (Pending_Nodes p) (Pending_Replicas p) key)
  end.
Proof. unfold WriteSet, PendingOwners. simpl. by destruct (View_Pending v). Qed.

Lemma ReadOrder_eq v key :
  ReadOrder (NewPlacement v) key =
  match View_Pending v with
  | None => rank_ids (Nodes v) key
  | Some p => append_unseen (rank_ids (Nodes v) key) (rank_ids (Pending_Nodes p) key)
  end.
Proof. unfold ReadOrder. simpl. by destruct (View_Pending v). Qed.

(** A member's table entry weighs what the node weighs. *)
Lemma owner_ids_weighted nodes r key id :
  id ∈ owner_ids nodes r key → ∃ n, n ∈ nodes ∧ NID n = id ∧ Node_Weight n ≠ 0.
Proof.
  unfold owner_ids. rewrite ids_of_members, Owners_members. unfold owners_spec.
  intros (m & -> & Hm)%list_elem_of_fmap.
  apply (sublist_elem_of _ _ _ (pick_sublist _ _ _ _)) in Hm.
  rewrite elem_of_sort_by in Hm. apply list_elem_of_filter in Hm as [Hw Hm].
  unfold members in Hm. apply list_elem_of_fmap in Hm as (n & -> & Hn). eauto.
Qed.

Lemma NoDup_owner_ids nodes r key : NoDup (NID <$> nodes) → NoDup (owner_ids nodes r key).
Proof.
  intros Hnd. eapply sublist_NoDup; [|apply owner_ids_sublist]. by rewrite rank_ids_perm.
Qed.
End view_placement.

Lemma arr_of_inj n a b : length a = n → length b = n → arr_of n a = arr_of n b → a = b.
Proof.
  intros Ha Hb E%(f_equal arr_bytes). by rewrite !arr_of_exact in E.
Qed.

(** A node of weight that the target does not keep is counted. *)
Lemma count_dropped_ge cur target (D : list Node) :
  NoDup D → (∀ n, n ∈ D → n ∈ cur ∧ Node_Weight n ≠ 0 ∧ kept_in target n = false) →
  (length D ≤ count_dropped cur target)%nat.
Proof.
  intros Hnd H. unfold count_dropped. apply submseteq_length, NoDup_submseteq; [done|].
  intros n Hn. destruct (H n Hn) as (? & ? & Hk). apply list_elem_of_filter. split; [|done].
  rewrite Hk. simpl. apply N.ltb_lt. lia.
Qed.

Lemma kept_in_spec target n :
  kept_in target n = true ↔ ∃ t, t ∈ target ∧ Node_ID t = Node_ID n ∧ Node_Weight t ≠ 0.
Proof.
  unfold kept_in. rewrite existsb_exists. setoid_rewrite <- list_elem_of_In.
  setoid_rewrite andb_true_iff. setoid_rewrite bool_decide_eq_true. setoid_rewrite N.ltb_lt.
  split; intros (t & ? & ? & ?); exists t; repeat split; auto; lia.
Qed.

(** What [ValidateChange] looks at. *)
Definition node_key (n : Node) : bytes * N := (Node_ID n, Node_Weight n).

Lemma kept_in_ext target target' n n' : node_key <$> target' = node_key <$> target → node_key n' = node_key n →
  kept_in target' n' = kept_in target n.
Proof.
  intros Et [= E _]. unfold kept_in. rewrite E. revert target Et.
  induction target' as [|t' target' IH]; intros [|t target] Et; try done. simpl in *. injection Et as Ek Ew Et.
  by rewrite (IH _ Et), Ek, Ew.
Qed.

Lemma ValidateChange_ext cur cur' target target' r force :
  node_key <$> cur' = node_key <$> cur → node_key <$> target' = node_key <$> target →
  ValidateChange cur' target' r force = ValidateChange cur target r force.
Proof.
  intros Ec Et. assert (count_dropped cur' target' = count_dropped cur target) as E; [|by unfold ValidateChange; rewrite E].
  unfold count_dropped. revert cur Ec. induction cur' as [|c' cur' IH]; intros [|c cur] Ec; try done.
  simpl in Ec. injection Ec as Ei Ew Ec. rewrite !filter_cons.
  rewrite (kept_in_ext target target' c c') by (done || by unfold node_key; rewrite Ei, Ew). rewrite Ew.
  case_decide; simpl; [f_equal|]; by apply IH.
Qed.

(** * What the view promises *)

(** Single-voter changes keep the register safe: a majority of the voters of a
    view and a majority of the voters after one was added (or before one was
    removed) share a voter, and so do two majorities of one view. *)
Theorem Quorum_overlap (v v' : View) (Q Q' : list NodeID) :
  VoterIDs v ⊆ VoterIDs v' →
  (length (Voters v') ≤ length (Voters v) + 1)%nat →
  NoDup Q → NoDup Q' → Q ⊆ VoterIDs v → Q' ⊆ VoterIDs v' →
  (Quorum v ≤ length Q)%nat → (Quorum v' ≤ length Q')%nat →
  ∃ id, id ∈ Q ∧ id ∈ Q'.
Proof.
  intros HV Hl ?? SQ SQ' LQ LQ'. unfold Quorum in *.
  destruct (majorities_meet (VoterIDs v') (VoterIDs v) Q' Q) as (x & ? & ?); eauto;
    unfold VoterIDs in *; rewrite ?length_fmap; auto.
Qed.

Definition toy_node (b : byte) (w : N) (z : string) : Node :=
  MkNode (replicate 32 b) w [] [] [] z 0 true.
Definition toy_view (vs : list byte) (ns : list Node) (r : N) (p : option Pending) : View :=
  MkView [] 1 1 1 1 r (DefaultMinReplicas r) ((λ b, MkVoter (replicate 32 b) 1) <$> vs) 0 []
    ns p [] [] 0 0 false 0 [] false [] None [] [].
Definition toy_id (b : byte) : NodeID := arr_of 32 (replicate 32 b).

Lemma Quorum_overlap_witness :
  ∃ id, id ∈ [toy_id x01; toy_id x02] ∧ id ∈ [toy_id x02; toy_id x03; toy_id x04].
Proof.
  apply (Quorum_overlap (toy_view [x01; x02; x03] [] 2 None)
           (toy_view [x01; x02; x03; x04] [] 2 None));
    try (vm_compute; lia); try (decides).
  all: intros id Hid; repeat (apply elem_of_cons in Hid as [->|Hid]; [set_solver|]); set_solver.
Defined.

(** A transition loses no one: the ids [WriteSet] lists are exactly those
    [InWriteSet] accepts, they include every current and every pending owner, and
    [ReadOrder] lists every member of the view exactly once, so a read that tries
    it to the end meets every node a write went to. *)
Theorem WriteSet_ReadOrder (blake3 : bytes → nat → bytes) (v : View) (key : arr 32) :
  let p := NewPlacement blake3 v in
  NoDup (NID <$> Nodes v) →
  (∀ q, View_Pending v = Some q → NoDup (NID <$> Pending_Nodes q)) →
  (∀ id, id ∈ WriteSet p key ↔ InWriteSet p key id = true) ∧
  Owners_of p key ⊆ WriteSet p key ∧
  (∀ po, PendingOwners p key = Some po → po ⊆ WriteSet p key) ∧
  NoDup (WriteSet p key) ∧
  WriteSet p key ⊆ ReadOrder p key ∧
  ReadOrder p key ≡ₚ AllMembers v.
Proof.
  intros p Hn Hp. unfold p. rewrite ReadOrder_eq, WriteSet_eq, Owners_of_eq.
  pose proof (owner_ids_sublist blake3 (Nodes v) (Replicas v) key) as Hsub.
  pose proof (rank_ids_perm blake3 (Nodes v) key) as Hrank.
  unfold InWriteSet, IsPendingOwner, PendingOwners, IsOwner_of.
  setoid_rewrite orb_true_iff. setoid_rewrite IsOwner_NewTable. simpl.
  destruct (View_Pending v) as [q|] eqn:Eq; simpl.
  - specialize (Hp q eq_refl).
    pose proof (owner_ids_sublist blake3 (Pending_Nodes q) (Pending_Replicas q) key) as Hsub'.
    pose proof (rank_ids_perm blake3 (Pending_Nodes q) key) as Hrank'.
    setoid_rewrite elem_of_append_unseen. setoid_rewrite IsOwner_NewTable.
    split; [done|]. split; [intros ? ?; apply elem_of_append_unseen; by left|].
    split; [intros po [= <-] ? ?; apply elem_of_append_unseen; by right|].
    split; [apply NoDup_append_unseen; by apply NoDup_owner_ids|]. split.
    + intros id. rewrite !elem_of_append_unseen.
      intros [?|?]; [left|right]; by eapply sublist_elem_of.
    + apply NoDup_Permutation; [|apply NoDup_AllMembers|].
      * apply NoDup_append_unseen; [by rewrite Hrank|by rewrite Hrank'].
      * intros id. rewrite elem_of_append_unseen, elem_of_AllMembers, Hrank, Hrank'. naive_solver.
  - split; [intros id; intuition congruence|]. split; [done|]. split; [done|].
    split; [by apply NoDup_owner_ids|]. split.
    + intros id. by apply sublist_elem_of.
    + apply NoDup_Permutation; [by rewrite Hrank|apply NoDup_AllMembers|].
      intros id. rewrite elem_of_AllMembers, Hrank. naive_solver.
Qed.

Definition toy_pending : Pending :=
  MkPending [toy_node x01 5 ""; toy_node x03 7 "z"] 2 9 [] [] false 0 [] [] 0 "" None 0.
Definition toy_transition : View :=
  toy_view [x01] [toy_node x01 5 ""; toy_node x02 5 "z"] 2 (Some toy_pending).

Lemma WriteSet_ReadOrder_witness :
  ReadOrder (NewPlacement toy_blake3 toy_transition) (toy_id x07) ≡ₚ AllMembers toy_transition.
Proof.
  apply (WriteSet_ReadOrder toy_blake3 toy_transition (toy_id x07)).
  - decides.
  - intros q [= <-]. decides.
Defined.

Lemma ValidateChange_keeps (blake3 : bytes → nat → bytes)
    (cur target : list Node) (r : N) (key : arr 32) :
  NoDup (NID <$> cur) →
  r ≠ 0 → N.of_nat (length (owner_ids blake3 cur r key)) = r →
  ValidateChange cur target (Z.of_N r) false = false →
  ∃ id t, id ∈ owner_ids blake3 cur r key ∧ t ∈ target ∧ NID t = id ∧ Node_Weight t ≠ 0.
Proof.
  intros Hnd Hr Hfull Hok. unfold ValidateChange in Hok.
  apply andb_false_iff in Hok as [Hok|Hok]; [|lia].
  set (own := filter (λ n, NID n ∈ owner_ids blake3 cur r key ∧ Node_Weight n ≠ 0) cur).
  assert (NoDup own) as Hown by (apply NoDup_filter; by apply NoDup_fmap_1 in Hnd).
  assert (length (owner_ids blake3 cur r key) ≤ length own)%nat as Hlo.
  { rewrite <- (length_fmap NID own). apply submseteq_length, NoDup_submseteq.
    - by apply NoDup_owner_ids.
    - intros id Hid. destruct (owner_ids_weighted _ _ _ _ _ Hid) as (n & ? & <- & ?).
      apply list_elem_of_fmap_2. by apply list_elem_of_filter. }
  destruct (decide (Exists (λ n, kept_in target n = true) own)) as [He|He].
  - apply Exists_exists in He as (n & [[Hn _] Hc]%list_elem_of_filter & Hk).
    apply kept_in_spec in Hk as (t & Ht & Eid & Hw). exists (NID n), t.
    repeat split; auto. unfold NID. by rewrite Eid.
  - exfalso. assert (length own ≤ count_dropped cur target)%nat; [|lia].
    apply count_dropped_ge; [done|]. intros n Hn.
    pose proof Hn as [[_ Hw] Hc]%list_elem_of_filter. repeat split; [done..|].
    apply not_true_is_false. intros Hk. apply He, Exists_exists. eauto.
Qed.

(** The guard of §3: when [ValidateChange] lets an unforced change through,
    every key that had its [replicas] owners keeps one of them, as a member of
    the target with weight. *)
Theorem ValidateChange_survivor (blake3 : bytes → nat → bytes)
    (cur target : list Node) (r : N) (key : arr 32) :
  NoDup (NID <$> cur) →
  r ≠ 0 → N.of_nat (length (owner_ids blake3 cur r key)) = r →
  ValidateChange cur target (Z.of_N r) false = false →
  ∃ id t, id ∈ owner_ids blake3 cur r key ∧ t ∈ target ∧ NID t = id ∧ Node_Weight t ≠ 0.
Proof. apply ValidateChange_keeps. Qed.

Lemma ValidateChange_survivor_witness :
  ∃ id t, id ∈ owner_ids toy_blake3 (Nodes toy_transition) 2 (toy_id x07) ∧
    t ∈ Pending_Nodes toy_pending ∧ NID t = id ∧ Node_Weight t ≠ 0.
Proof.
  apply (ValidateChange_survivor toy_blake3 (Nodes toy_transition) (Pending_Nodes toy_pending)
           2 (toy_id x07)); try reflexivity; try done;
    decides.
Defined.
