(* ===== verification/Wire.v ===== *)
(** The wire protocol (src/wire/wire.go): frame types, error codes, the one
    message type, framing, and the errors a frame surfaces as. *)
From S2P Require Import Prelude Store.

(** * Constants *)

Local Open Scope Z_scope.

Definition ALPNClient : string := "amber-dstore/1".
Definition ALPNCluster : string := "amber-dstore-cluster/1".
Definition ALPNGateway : string := "amber-store-iroh/1".

Definition MaxFrame : N := N.shiftl 16 20.
Definition MaxKeys : Z := 8192.
Definition MaxPutBatch : Z := Z.shiftl 64 20.
Definition MaxPageBytes : Z := Z.shiftl 4 20.

(** ** Frame types *)

Definition TData : Z := 7.
Definition TDataEnd : Z := 8.
Definition TErr : Z := 10.
Definition TView : Z := 32.
Definition TMissing : Z := 33.
Definition TGet : Z := 34.
Definition TPut : Z := 35.
Definition TRefGet : Z := 36.
Definition TRefPut : Z := 37.
Definition TRefDelete : Z := 38.
Definition TRefList : Z := 39.
Definition TStatus : Z := 40.
Definition TAdmin : Z := 41.
Definition TRefWatch : Z := 42.
Definition TViewReply : Z := 48.
Definition TMissingReply : Z := 49.
Definition TAbsent : Z := 50.
Definition TPutResult : Z := 51.
Definition TRef : Z := 52.
Definition TOK : Z := 53.
Definition TCASMismatch : Z := 54.
Definition TIncomplete : Z := 55.
Definition TRefs : Z := 56.
Definition TStatusReply : Z := 57.
Definition TAdminReply : Z := 58.
Definition TRefChanges : Z := 59.
Definition TRefSynced : Z := 60.
Definition TPrepare : Z := 64.
Definition TAccept : Z := 65.
Definition TRead : Z := 66.
Definition TScan : Z := 67.
Definition TInstall : Z := 68.
Definition TPurge : Z := 69.
Definition TMarker : Z := 70.
Definition TSeed : Z := 71.
Definition TPromise : Z := 80.
Definition TConflict : Z := 81.
Definition TAccepted : Z := 82.
Definition TReadReply : Z := 83.
Definition TScanReply : Z := 84.
Definition TInstalled : Z := 85.
Definition TJoin : Z := 96.
Definition TGCBarrier : Z := 97.
Definition TGCMark : Z := 98.
Definition TGCKeys : Z := 99.
Definition TGCStatus : Z := 100.
Definition TAck : Z := 101.
Definition TViewChanged : Z := 102.
Definition TGCStatusRep : Z := 103.
Definition TGCAbort : Z := 104.
Definition TPing : Z := 105.
Definition TPong : Z := 106.
Definition TBackupNote : Z := 107.
Definition TRefChanged : Z := 108.

(** ** Error codes *)

Definition CodeStaleView : string := "stale-view".
Definition CodeNotOwner : string := "not-owner".
Definition CodeNoSpace : string := "no-space".
Definition CodeBusy : string := "busy".
Definition CodeBadRequest : string := "bad-request".
Definition CodeUnauthorized : string := "unauthorized".
Definition CodeUnknownRef : string := "unknown-ref".
Definition CodeCASMismatch : string := "cas-mismatch".
Definition CodeIncomplete : string := "incomplete".
Definition CodeUnavailable : string := "unavailable".
Definition CodeTimeout : string := "timeout".
Definition CodeInternal : string := "internal".
Definition CodeNotMember : string := "not-member".
Definition CodeNeedView : string := "need-view".
Definition CodeExpired : string := "expired".
Definition CodeAmnesiac : string := "amnesiac".
Definition CodeMarkFrozen : string := "mark-frozen".
Definition CodeRetired : string := "retired".
Definition CodeTooSoon : string := "too-soon".
Definition CodeConflict : string := "conflict".
Definition CodeNoMark : string := "no-mark".

(** * Data *)

Record KeyHolders := MkKeyHolders {
  kh_Key : bytes;
  kh_Holders : list bytes;
}.

#[global] Instance KeyHolders_eq_dec : EqDecision KeyHolders.
Proof. solve_decision. Defined.
#[global] Instance KeyHolders_ser : Ser KeyHolders.
Proof.
  refine (ser_via (λ v, (v.(kh_Key), v.(kh_Holders)))
    (λ '(f0, f1), MkKeyHolders f0 f1) _). by intros [].
Defined.

Record KeyFailure := MkKeyFailure {
  kf_Key : bytes;
  kf_Node : bytes;
  kf_Reason : string;
  kf_RetryAfter : Z;
}.

#[global] Instance KeyFailure_eq_dec : EqDecision KeyFailure.
Proof. solve_decision. Defined.
#[global] Instance KeyFailure_ser : Ser KeyFailure.
Proof.
  refine (ser_via (λ v, (v.(kf_Key), v.(kf_Node), v.(kf_Reason), v.(kf_RetryAfter)))
    (λ '(f0, f1, f2, f3), MkKeyFailure f0 f1 f2 f3) _). by intros [].
Defined.

Record KeyReject := MkKeyReject {
  kr_Key : bytes;
  kr_Reason : string;
}.

#[global] Instance KeyReject_eq_dec : EqDecision KeyReject.
Proof. solve_decision. Defined.
#[global] Instance KeyReject_ser : Ser KeyReject.
Proof.
  refine (ser_via (λ v, (v.(kr_Key), v.(kr_Reason)))
    (λ '(f0, f1), MkKeyReject f0 f1) _). by intros [].
Defined.

Record RefInfo := MkRefInfo {
  ri_Name : string;
  ri_Key : bytes;
  ri_Version : bytes;
  ri_CreatedAt : Z;
  ri_User : string;
}.

#[global] Instance RefInfo_eq_dec : EqDecision RefInfo.
Proof. solve_decision. Defined.
#[global] Instance RefInfo_ser : Ser RefInfo.
Proof.
  refine (ser_via (λ v, (v.(ri_Name), v.(ri_Key), v.(ri_Version), v.(ri_CreatedAt), v.(ri_User)))
    (λ '(f0, f1, f2, f3, f4), MkRefInfo f0 f1 f2 f3 f4) _). by intros [].
Defined.

Record ScanRow := MkScanRow {
  sr_Reg : bytes;
  sr_Promised : bytes;
  sr_Accepted : bytes;
  sr_Value : bytes;
  sr_HasValue : bool;
}.

#[global] Instance ScanRow_eq_dec : EqDecision ScanRow.
Proof. solve_decision. Defined.
#[global] Instance ScanRow_ser : Ser ScanRow.
Proof.
  refine (ser_via (λ v, (v.(sr_Reg), v.(sr_Promised), v.(sr_Accepted), v.(sr_Value), v.(sr_HasValue)))
    (λ '(f0, f1, f2, f3, f4), MkScanRow f0 f1 f2 f3 f4) _). by intros [].
Defined.
#[global] Instance ScanRow_eta : Eta ScanRow := λ r, MkScanRow (r.(sr_Reg)) (r.(sr_Promised)) (r.(sr_Accepted)) (r.(sr_Value)) (r.(sr_HasValue)).

Record Msg := MkMsg {
  m_Type : Z;
  m_ClusterID : bytes;
  m_Incarnation : N;
  m_Epoch : N;
  m_Keys : list bytes;
  m_Pin : bool;
  m_Name : string;
  m_Record : bytes;
  m_Data : bytes;
  m_Key : bytes;
  m_Code : string;
  m_Text : string;
  m_View : bytes;
  m_Version : bytes;
  m_ExpectedVersion : bytes;
  m_ExpectedOld : bytes;
  m_Force : bool;
  m_HasExpected : bool;
  m_Prefix : bytes;
  m_After : bytes;
  m_Limit : Z;
  m_Refs : list RefInfo;
  m_Next : bytes;
  m_Holders : list KeyHolders;
  m_Failed : list KeyFailure;
  m_Rejected : list KeyReject;
  m_Short : list KeyHolders;
  m_Unreachable : list bytes;
  m_RetryAfter : Z;
  m_Current : bytes;
  m_Shortfall : Z;
  m_HasCurrent : bool;
  m_Reg : bytes;
  m_Ballot : bytes;
  m_Value : bytes;
  m_HasValue : bool;
  m_Accepted : bytes;
  m_Promised : bytes;
  m_NotAfter : Z;
  m_Rows : list ScanRow;
  m_More : bool;
  m_Since : N;
  m_Token : bytes;
  m_Weight : N;
  m_Zone : string;
  m_Addrs : list string;
  m_NoVote : bool;
  m_G : N;
  m_Nonce : bytes;
  m_Seq : N;
  m_Expand : bool;
  m_Params : bytes;
  m_Sent : N;
  m_Received : N;
  m_Idle : bool;
  m_Marked : N;
  m_Missing : list bytes;
  m_Status : bytes;
  m_Node : bytes;
  m_Error : string;
  m_Pattern : string;
  m_Deleted : list string;
}.

#[global] Instance Msg_eq_dec : EqDecision Msg.
Proof. solve_decision. Defined.
#[global] Instance Msg_ser : Ser Msg.
Proof.
  refine (ser_via (λ v, (v.(m_Type), v.(m_ClusterID), v.(m_Incarnation), v.(m_Epoch), v.(m_Keys), v.(m_Pin), v.(m_Name), v.(m_Record), v.(m_Data), v.(m_Key), v.(m_Code), v.(m_Text), v.(m_View), v.(m_Version), v.(m_ExpectedVersion), v.(m_ExpectedOld), v.(m_Force), v.(m_HasExpected), v.(m_Prefix), v.(m_After), v.(m_Limit), v.(m_Refs), v.(m_Next), v.(m_Holders), v.(m_Failed), v.(m_Rejected), v.(m_Short), v.(m_Unreachable), v.(m_RetryAfter), v.(m_Current), v.(m_Shortfall), v.(m_HasCurrent), v.(m_Reg), v.(m_Ballot), v.(m_Value), v.(m_HasValue), v.(m_Accepted), v.(m_Promised), v.(m_NotAfter), v.(m_Rows), v.(m_More), v.(m_Since), v.(m_Token), v.(m_Weight), v.(m_Zone), v.(m_Addrs), v.(m_NoVote), v.(m_G), v.(m_Nonce), v.(m_Seq), v.(m_Expand), v.(m_Params), v.(m_Sent), v.(m_Received), v.(m_Idle), v.(m_Marked), v.(m_Missing), v.(m_Status), v.(m_Node), v.(m_Error), v.(m_Pattern), v.(m_Deleted)))
    (λ '(f0, f1, f2, f3, f4, f5, f6, f7, f8, f9, f10, f11, f12, f13, f14, f15, f16, f17, f18, f19, f20, f21, f22, f23, f24, f25, f26, f27, f28, f29, f30, f31, f32, f33, f34, f35, f36, f37, f38, f39, f40, f41, f42, f43, f44, f45, f46, f47, f48, f49, f50, f51, f52, f53, f54, f55, f56, f57, f58, f59, f60, f61), MkMsg f0 f1 f2 f3 f4 f5 f6 f7 f8 f9 f10 f11 f12 f13 f14 f15 f16 f17 f18 f19 f20 f21 f22 f23 f24 f25 f26 f27 f28 f29 f30 f31 f32 f33 f34 f35 f36 f37 f38 f39 f40 f41 f42 f43 f44 f45 f46 f47 f48 f49 f50 f51 f52 f53 f54 f55 f56 f57 f58 f59 f60 f61) _). by intros [].
Defined.
#[global] Instance Msg_eta : Eta Msg := λ r, MkMsg (r.(m_Type)) (r.(m_ClusterID)) (r.(m_Incarnation)) (r.(m_Epoch)) (r.(m_Keys)) (r.(m_Pin)) (r.(m_Name)) (r.(m_Record)) (r.(m_Data)) (r.(m_Key)) (r.(m_Code)) (r.(m_Text)) (r.(m_View)) (r.(m_Version)) (r.(m_ExpectedVersion)) (r.(m_ExpectedOld)) (r.(m_Force)) (r.(m_HasExpected)) (r.(m_Prefix)) (r.(m_After)) (r.(m_Limit)) (r.(m_Refs)) (r.(m_Next)) (r.(m_Holders)) (r.(m_Failed)) (r.(m_Rejected)) (r.(m_Short)) (r.(m_Unreachable)) (r.(m_RetryAfter)) (r.(m_Current)) (r.(m_Shortfall)) (r.(m_HasCurrent)) (r.(m_Reg)) (r.(m_Ballot)) (r.(m_Value)) (r.(m_HasValue)) (r.(m_Accepted)) (r.(m_Promised)) (r.(m_NotAfter)) (r.(m_Rows)) (r.(m_More)) (r.(m_Since)) (r.(m_Token)) (r.(m_Weight)) (r.(m_Zone)) (r.(m_Addrs)) (r.(m_NoVote)) (r.(m_G)) (r.(m_Nonce)) (r.(m_Seq)) (r.(m_Expand)) (r.(m_Params)) (r.(m_Sent)) (r.(m_Received)) (r.(m_Idle)) (r.(m_Marked)) (r.(m_Missing)) (r.(m_Status)) (r.(m_Node)) (r.(m_Error)) (r.(m_Pattern)) (r.(m_Deleted)).

(** The zero message, [Msg{}]. *)
Definition msg0 : Msg :=
  MkMsg 0%Z [] 0%N 0%N [] false ""%string [] [] [] ""%string ""%string [] [] [] [] false false [] [] 0%Z [] [] [] [] [] [] [] 0%Z [] 0%Z false [] [] [] false [] [] 0%Z [] false 0%N [] 0%N ""%string [] false 0%N [] 0%N false [] 0%N 0%N false 0%N [] [] [] ""%string ""%string [].

(** * Errors *)

(** A TErr frame surfaced as a Go error. *)
Record Error := MkError {
  err_Code : string;
  err_Text : string;
  err_View : bytes;
  err_RetryAfter : Z; (* a [time.Duration], in ns *)
}.

#[global] Instance Error_eq_dec : EqDecision Error.
Proof. solve_decision. Defined.

Definition Error_Error (e : Error) : string :=
  if bool_decide (err_Text e = "") then "remote: " +:+ err_Code e
  else "remote: " +:+ err_Code e +:+ ": " +:+ err_Text e.

(** [e.Is(target)] for a target that is an [*Error]. *)
Definition Error_Is (e target : Error) : bool :=
  bool_decide (err_Code target = err_Code e) &&
  (bool_decide (err_Text target = "") || bool_decide (err_Text target = err_Text e)).

Definition ErrorFromMsg (m : Msg) : Error :=
  MkError (m_Code m) (m_Text m) (m_View m) (i64 (m_RetryAfter m * 1000000)).

Definition ErrMsg (code text : string) : Msg :=
  msg0 <| m_Type := TErr |> <| m_Code := code |> <| m_Text := text |>.

(** What reading a frame can fail with. *)
Inductive wire_error :=
  | EOF
  | ErrUnexpectedEOF
  | ErrFrameSize (n : N)
  | ErrShortFrame (cause : wire_error)
  | ErrDecode (text : string)
  | ErrProtocol (got want : Z)
  | ErrRemote (e : Error).

(** [errors.As] finds the remote error through wrapping. *)
Fixpoint AsError (e : wire_error) : option Error :=
  match e with
  | ErrRemote r => Some r
  | ErrShortFrame c => AsError c
  | _ => None
  end.

Definition IsCode (e : wire_error) (code : string) : bool :=
  match AsError e with Some r => bool_decide (err_Code r = code) | None => false end.

(** * Framing *)

Section framing.
Context `{Codec Msg}.

(** The bytes written, or [None] when the frame exceeds the limit. *)
Definition WriteMsg (m : Msg) : option bytes :=
  let payload := marshal m in
  let n := N.of_nat (length payload) in
  if (MaxFrame <? n)%N then None else Some (be_encode 4 n ++ payload).

(** [io.ReadFull(r, buf)] on the rest of the stream: the bytes and what is left,
    or the error. *)
Definition ReadFull (n : nat) (r : bytes) : wire_error + bytes * bytes :=
  if (n <=? length r)%nat then inr (take n r, drop n r)
  else inl (match r with [] => EOF | _ => ErrUnexpectedEOF end).

Definition ReadMsg (r : bytes) : wire_error + Msg * bytes :=
  match ReadFull 4 r with
  | inl e => inl e
  | inr (hdr, r) =>
      let n := be_decode hdr in
      if (MaxFrame <? n)%N then inl (ErrFrameSize n)
      else
        match ReadFull (N.to_nat n) r with
        | inl e => inl (ErrShortFrame e)
        | inr (payload, r) =>
            match unmarshal payload with
            | inl e => inl (ErrDecode e)
            | inr m => inr (m, r)
            end
        end
  end.

Definition WriteErr (code text : string) : option bytes := WriteMsg (ErrMsg code text).

(** Go returns the frame next to the error; callers use only the error. *)
Definition Expect (r : bytes) (want : Z) : wire_error + Msg * bytes :=
  match ReadMsg r with
  | inl e => inl e
  | inr (m, r) =>
      if (m_Type m =? TErr) then inl (ErrRemote (ErrorFromMsg m))
      else if negb (want =? 0) && negb (m_Type m =? want) then inl (ErrProtocol (m_Type m) want)
      else inr (m, r)
  end.

(** A whole stream: the frames until the reader fails, and how it failed.  Each
    frame takes at least its header, so the length of the stream bounds them. *)
Fixpoint read_frames (fuel : nat) (r : bytes) : list Msg * option wire_error :=
  match fuel with
  | O => ([], None)
  | S fuel =>
      match ReadMsg r with
      | inl e => ([], Some e)
      | inr (m, r) => let '(ms, e) := read_frames fuel r in (m :: ms, e)
      end
  end.
End framing.

(** [None] is the error. *)
Definition Keys32 (raw : list bytes) : option (list (arr 32)) :=
  mapM (λ b, if bool_decide (length b = 32%nat) then Some (arr_of 32 b) else None) raw.

Definition RawKeys (keys : list (arr 32)) : list bytes := arr_bytes <$> keys.
Definition RawIDs (ids : list (arr 32)) : list bytes := RawKeys ids.

(** * Facts *)

Lemma ReadFull_app n a r : length a = n → ReadFull n (a ++ r) = inr (a, r).
Proof.
  intros <-. unfold ReadFull. rewrite length_app.
  destruct (Nat.leb_spec (length a) (length a + length r)); [|lia].
  by rewrite take_app_length, drop_app_length.
Qed.

Lemma ReadFull_short n r :
  (length r < n)%nat → ReadFull n r = inl (match r with [] => EOF | _ => ErrUnexpectedEOF end).
Proof. intros Hl. unfold ReadFull. destruct (Nat.leb_spec n (length r)); [lia|done]. Qed.

Section framing_facts.
Context `{Codec Msg}.

Lemma WriteMsg_Some m b :
  WriteMsg m = Some b →
  let n := N.of_nat (length (marshal m)) in (n ≤ MaxFrame)%N ∧ b = be_encode 4 n ++ marshal m.
Proof.
  unfold WriteMsg. destruct (N.ltb_spec MaxFrame (N.of_nat (length (marshal m)))); naive_solver.
Qed.

Lemma frame_header_ok m :
  (N.of_nat (length (marshal m)) ≤ MaxFrame)%N →
  be_decode (be_encode 4 (N.of_nat (length (marshal m)))) = N.of_nat (length (marshal m)).
Proof.
  intros Hn. apply be_decode_encode.
  change MaxFrame with 16777216%N in Hn. change (2 ^ (8 * N.of_nat 4))%N with 4294967296%N. lia.
Qed.

Lemma ReadMsg_WriteMsg m b rest : WriteMsg m = Some b → ReadMsg (b ++ rest) = inr (m, rest).
Proof.
  intros [Hn ->]%WriteMsg_Some. unfold ReadMsg.
  rewrite <- app_assoc, ReadFull_app by apply length_be_encode.
  rewrite frame_header_ok by done.
  destruct (N.ltb_spec MaxFrame (N.of_nat (length (marshal m)))); [lia|].
  rewrite Nat2N.id, ReadFull_app by done. by rewrite unmarshal_marshal.
Qed.

Lemma frame_nonempty m b : WriteMsg m = Some b → (4 ≤ length b)%nat.
Proof. intros [_ ->]%WriteMsg_Some. rewrite length_app, length_be_encode. lia. Qed.

(** What a reader is told of a frame of which only [k] bytes came. *)
Definition cut_error (k : nat) : wire_error :=
  if decide (k < 4)%nat then ErrUnexpectedEOF
  else if decide (k = 4)%nat then ErrShortFrame EOF
  else ErrShortFrame ErrUnexpectedEOF.

Lemma ReadMsg_cut m b k : WriteMsg m = Some b → (0 < k < length b)%nat → ReadMsg (take k b) = inl (cut_error k).
Proof.
  intros [Hn ->]%WriteMsg_Some. rewrite length_app, length_be_encode. intros Hk. unfold ReadMsg, cut_error.
  destruct (decide (k < 4)%nat) as [H4|H4].
  - rewrite ReadFull_short.
    + destruct (take k _) eqn:E; [|done]. apply (f_equal length) in E.
      rewrite length_take, length_app, length_be_encode in E. simpl in E. lia.
    + rewrite length_take. lia.
  - rewrite take_app_ge by (rewrite length_be_encode; lia).
    rewrite length_be_encode, ReadFull_app by apply length_be_encode.
    rewrite frame_header_ok by done.
    destruct (N.ltb_spec MaxFrame (N.of_nat (length (marshal m)))); [lia|].
    rewrite Nat2N.id, ReadFull_short by (rewrite length_take; lia).
    destruct (take (k - 4) (marshal m)) eqn:E; apply (f_equal length) in E; rewrite length_take in E; cbn [length] in E; case_decide; try lia; done.
Qed.

Lemma read_frames_app ms bs rest fuel :
  mapM WriteMsg ms = Some bs → (length ms ≤ fuel)%nat →
  read_frames fuel (mjoin bs ++ rest) =
    let '(ms', e) := read_frames (fuel - length ms) rest in (ms ++ ms', e).
Proof.
  revert bs fuel. induction ms as [|m ms IH]; intros bs fuel Hw Hf.
  - injection Hw as <-. simpl. rewrite Nat.sub_0_r. by destruct (read_frames _ _).
  - apply mapM_Some, Forall2_cons_inv_l in Hw as (b & bs' & Hb & Hbs & ->).
    apply mapM_Some in Hbs. destruct fuel as [|fuel]; [simpl in Hf; lia|].
    change (mjoin (b :: bs')) with (b ++ mjoin bs'). rewrite <- app_assoc.
    cbn [read_frames]. rewrite (ReadMsg_WriteMsg _ _ _ Hb), (IH bs') by (done || simpl in Hf; lia).
    change (length (m :: ms)) with (S (length ms)). rewrite Nat.sub_succ. by destruct (read_frames _ _).
Qed.
End framing_facts.

Lemma Keys32_Some raw keys : Keys32 raw = Some keys ↔ RawKeys keys = raw.
Proof.
  unfold Keys32, RawKeys. rewrite mapM_Some. split.
  - induction 1 as [|b k raw keys Hb _ IH]; [done|]. rewrite fmap_cons, IH. f_equal.
    case_bool_decide as Hl; [|done]. injection Hb as <-. by apply arr_of_exact.
  - intros <-. induction keys as [|k keys IH]; [by constructor|]. rewrite fmap_cons.
    constructor; [|done]. rewrite bool_decide_true by apply arr_length. by rewrite arr_of_bytes.
Qed.

(** * What the wire promises *)

Section promises.
Context `{Codec Msg}.

(** C38 A stream of written frames reads back as the same messages in the same order and
    ends in a clean EOF; cut inside frame [m] after [k] bytes of it, it reads back the
    frames before it and then an error, never a message: ErrUnexpectedEOF for a cut in
    the header, a short frame with ErrUnexpectedEOF inside for one in the payload, and
    for a cut right behind the header a short frame with EOF inside, which
    [errors.Is(err, io.EOF)] takes for a clean end ([cut_behind_header_is_EOF]). *)
Theorem framing_round_trip (ms : list Msg) (bs : list bytes) (m : Msg) (b : bytes) (k : nat) :
  mapM WriteMsg ms = Some bs →
  read_frames (S (length ms)) (mjoin bs) = (ms, Some EOF) ∧
  (WriteMsg m = Some b → (0 < k < length b)%nat →
    read_frames (S (length ms)) (mjoin bs ++ take k b) = (ms, Some (cut_error k))).
Proof.
  intros Hbs. split.
  - rewrite <- (app_nil_r (mjoin bs)), (read_frames_app _ _ _ _ Hbs) by lia.
    rewrite Nat.sub_succ_l, Nat.sub_diag by lia. simpl. by rewrite app_nil_r.
  - intros Hb Hk. rewrite (read_frames_app _ _ _ _ Hbs) by lia.
    rewrite Nat.sub_succ_l, Nat.sub_diag by lia. cbn [read_frames].
    rewrite (ReadMsg_cut m b k Hb Hk). by rewrite app_nil_r.
Qed.

(** [errors.Is(err, io.EOF)]. *)
Fixpoint IsEOF (e : wire_error) : bool :=
  match e with EOF => true | ErrShortFrame c => IsEOF c | _ => false end.

(** A frame cut right behind its header passes for the end of the stream. *)
Theorem cut_behind_header_is_EOF m b : WriteMsg m = Some b → (4 < length b)%nat → ∃ e, ReadMsg (take 4 b) = inl e ∧ IsEOF e = true.
Proof. intros Hb Hl. exists (cut_error 4). split; [apply (ReadMsg_cut m); [done|lia]|done]. Qed.
End promises.

Definition toy_msgs : list Msg :=
  [ErrMsg CodeBusy "later"; msg0 <| m_Type := TPrepare |> <| m_Reg := [x01; x02] |>].

Definition toy_frame : bytes := default [] (WriteMsg (ErrMsg CodeBusy "later")).

Lemma framing_round_trip_witness :
  read_frames 3 (mjoin (default [] (mapM WriteMsg toy_msgs))) = (toy_msgs, Some EOF) ∧
  read_frames 3 (mjoin (default [] (mapM WriteMsg toy_msgs)) ++ take 4 toy_frame) = (toy_msgs, Some (ErrShortFrame EOF)).
Proof.
  destruct (framing_round_trip toy_msgs (default [] (mapM WriteMsg toy_msgs)) (ErrMsg CodeBusy "later") toy_frame 4) as [Hr Hc]; [vm_compute; reflexivity|].
  split; [exact Hr|]. apply Hc; [vm_compute; reflexivity|]. assert ((4 <? length toy_frame)%nat = true) as Hl by (vm_compute; reflexivity). apply Nat.ltb_lt in Hl. lia.
Defined.
