(* ===== verification/Ballot.v ===== *)
(** Ballots (src/paxos/ballot.go): (counter, proposer) pairs, their order and
    their 40-byte encoding. *)
From S2P Require Import Prelude Store Placement View.

Local Open Scope N_scope.

Record Ballot := MkBallot { Counter : N; Proposer : NodeID }.

#[global] Instance Ballot_eq_dec : EqDecision Ballot.
Proof. solve_decision. Defined.

(** [Ballot{}] *)
Definition ballot0 : Ballot := MkBallot 0 (arr_zero 32).

Definition BallotSize : nat := 40.

Definition IsZero (b : Ballot) : bool :=
  (Counter b =? 0) && bool_decide (Proposer b = arr_zero 32).

Definition Compare (b o : Ballot) : comparison :=
  if negb (Counter b =? Counter o) then if Counter b <? Counter o then Lt else Gt
  else bytes_compare (Proposer b) (Proposer o).

Definition Less (b o : Ballot) : bool := bool_decide (Compare b o = Lt).

Definition Bytes (b : Ballot) : bytes :=
  if IsZero b then [] else be_encode 8 (Counter b) ++ Proposer b.

(** [inl n]: the error, with the length it reports. *)
Definition ParseBallot (b : bytes) : nat + Ballot :=
  if bool_decide (length b = 0%nat) then inr ballot0
  else if negb (bool_decide (length b = BallotSize)) then inl (length b)
  else inr (MkBallot (be_decode (take 8 b)) (arr_of 32 (drop 8 b))).

(** [x, _ := ParseBallot(b)]: the zero ballot on an error. *)
Definition parse_ballot (b : bytes) : Ballot :=
  match ParseBallot b with inl _ => ballot0 | inr x => x end.

(** [uint64] counters. *)
Definition ballot_ok (b : Ballot) : Prop := Counter b < u64_max.

#[global] Instance ballot_ok_dec b : Decision (ballot_ok b).
Proof. unfold ballot_ok. apply _. Defined.

Notation blt := (cmp_lt Compare).
Notation ble := (cmp_le Compare).

(** * Facts *)

Lemma Compare_eq b o :
  Compare b o =
    match Counter b ?= Counter o with Eq => arr_compare (Proposer b) (Proposer o) | c => c end.
Proof.
  unfold Compare, arr_compare. destruct (N.compare_spec (Counter b) (Counter o)) as [E|E|E].
  - by rewrite (proj2 (N.eqb_eq _ _) E).
  - rewrite (proj2 (N.eqb_neq _ _)) by lia. simpl. by rewrite (proj2 (N.ltb_lt _ _) E).
  - rewrite (proj2 (N.eqb_neq _ _)) by lia. simpl.
    destruct (N.ltb_spec (Counter b) (Counter o)); [lia|done].
Qed.

#[global] Instance Compare_total : TotalCmp Compare.
Proof.
  split.
  - intros [c p] [c' p']. rewrite Compare_eq. simpl.
    destruct (N.compare_spec c c') as [->|E|E].
    + rewrite (cmp_eq_iff arr_compare). naive_solver.
    + split; [done|]. intros [= -> ->]. lia.
    + split; [done|]. intros [= -> ->]. lia.
  - intros [c p] [c' p']. rewrite !Compare_eq. simpl. rewrite (N.compare_antisym c c').
    destruct (c ?= c'); simpl; [|done..]. apply (cmp_antisym arr_compare).
  - intros [c p] [c' p'] [c'' p'']. rewrite !Compare_eq. simpl.
    destruct (N.compare_spec c c'), (N.compare_spec c' c''), (N.compare_spec c c'');
      try lia; try done. subst. apply (cmp_lt_trans arr_compare).
Qed.

Lemma IsZero_spec b : IsZero b = true ↔ b = ballot0.
Proof.
  unfold IsZero. rewrite andb_true_iff, N.eqb_eq, bool_decide_eq_true.
  destruct b as [c p]. unfold ballot0. simpl. naive_solver.
Qed.

Lemma IsZero_false b : IsZero b = false ↔ b ≠ ballot0.
Proof. rewrite <- IsZero_spec. destruct (IsZero b); naive_solver. Qed.

Lemma bytes_le_zero n (b : bytes) : length b = n → bytes_le (replicate n x00) b.
Proof.
  intros Hl. unfold cmp_le. revert b Hl. induction n as [|n IH]; intros [|x b] Hl; try done.
  change (replicate (S n) x00) with (x00 :: replicate n x00). rewrite bytes_compare_cons.
  destruct (N.compare_spec (Byte.to_N x00) (Byte.to_N x)) as [E|E|E]; [|done|simpl in E; lia].
  apply IH. simpl in Hl. lia.
Qed.

Lemma ballot0_le b : ble ballot0 b.
Proof.
  unfold cmp_le. rewrite Compare_eq.
  destruct (N.compare_spec (Counter ballot0) (Counter b)); [|done|simpl in *; lia].
  apply (bytes_le_zero 32), arr_length.
Qed.

Lemma not_lt_ballot0 b : ¬ blt b ballot0.
Proof. apply (cmp_nlt_le Compare), ballot0_le. Qed.

Lemma ballot0_lt b : blt ballot0 b ↔ b ≠ ballot0.
Proof.
  split; [intros H ->; by eapply (cmp_lt_irrefl Compare)|].
  intros Hb. pose proof (ballot0_le b) as H. apply (cmp_le_lt_eq Compare) in H as [?|?]; congruence.
Qed.

Lemma length_Bytes b : b ≠ ballot0 → length (Bytes b) = BallotSize.
Proof.
  intros Hb%IsZero_false. unfold Bytes. rewrite Hb, length_app, length_be_encode, arr_length. done.
Qed.

Lemma parse_Bytes b : ballot_ok b → ParseBallot (Bytes b) = inr b.
Proof.
  intros Hok. destruct (decide (b = ballot0)) as [->|Hb]; [done|].
  unfold ParseBallot. rewrite length_Bytes by done. simpl.
  unfold Bytes. rewrite (proj2 (IsZero_false b) Hb).
  rewrite take_app_length' by by rewrite length_be_encode.
  rewrite drop_app_length' by by rewrite length_be_encode.
  rewrite be_decode_encode, arr_of_bytes by done. by destruct b.
Qed.

Lemma parse_ballot_Bytes b : ballot_ok b → parse_ballot (Bytes b) = b.
Proof. intros Hb. unfold parse_ballot. by rewrite parse_Bytes. Qed.

Lemma ParseBallot_ok raw b : ParseBallot raw = inr b → ballot_ok b.
Proof.
  unfold ParseBallot. case_bool_decide; [by intros [= <-]|].
  case_bool_decide as Hl; simpl; [|done]. intros [= <-]. unfold ballot_ok. simpl.
  pose proof (be_decode_lt (take 8 raw)) as H'. rewrite length_take, Hl in H'. exact H'.
Qed.

Lemma parse_ballot_ok raw : ballot_ok (parse_ballot raw).
Proof.
  unfold parse_ballot. destruct (ParseBallot raw) eqn:E; [done|]. by eapply ParseBallot_ok.
Qed.

Lemma ParseBallot_nil : parse_ballot [] = ballot0.
Proof. done. Qed.

Lemma Bytes_ParseBallot raw b :
  ParseBallot raw = inr b → b ≠ ballot0 → Bytes b = raw.
Proof.
  unfold ParseBallot. case_bool_decide; [by intros [= <-]|].
  case_bool_decide as Hl; simpl; [|done]. intros [= <-] Hb. unfold Bytes.
  rewrite (proj2 (IsZero_false _) Hb). cbn [Counter Proposer].
  assert (length (take 8 raw) = 8%nat) as H8 by (rewrite length_take, Hl; done).
  rewrite <- H8 at 1. rewrite be_encode_decode.
  rewrite arr_of_exact by (rewrite length_drop, Hl; done). apply take_drop.
Qed.

Lemma Bytes_ballot0 b : Bytes b = [] ↔ b = ballot0.
Proof.
  split; [|by intros ->]. intros E. destruct (decide (b = ballot0)) as [|Hb]; [done|].
  apply length_Bytes in Hb. by rewrite E in Hb.
Qed.

(** * What ballots promise *)

(** Ballots are totally ordered with the zero ballot least; the encoding
    orders exactly like the ballots and parses back to the same ballot; and
    nothing but the empty string and 40 bytes parses. *)
Theorem ballot_encoding (b o : Ballot) (raw : bytes) :
  ballot_ok b → ballot_ok o →
  bytes_compare (Bytes b) (Bytes o) = Compare b o ∧
  ParseBallot (Bytes b) = inr b ∧
  ble ballot0 b ∧
  (blt b o ∨ b = o ∨ blt o b) ∧
  (is_Some (match ParseBallot raw with inr x => Some x | inl _ => None end) ↔
    length raw = 0%nat ∨ length raw = BallotSize).
Proof.
  intros Hb Ho. split; [|split; [by apply parse_Bytes|split; [apply ballot0_le|split; [apply (cmp_total Compare)|]]]].
  - destruct (decide (b = ballot0)) as [->|Hb0], (decide (o = ballot0)) as [->|Ho0].
    + done.
    + pose proof (proj2 (ballot0_lt o) Ho0) as ->. apply length_Bytes in Ho0.
      by destruct (Bytes o).
    + pose proof (proj2 (ballot0_lt b) Hb0) as E. rewrite (proj2 (cmp_gt_lt Compare b ballot0) E).
      apply length_Bytes in Hb0. by destruct (Bytes b).
    + unfold Bytes. rewrite (proj2 (IsZero_false b) Hb0), (proj2 (IsZero_false o) Ho0).
      rewrite bytes_compare_app by by rewrite !length_be_encode.
      rewrite be_compare, !be_decode_encode by (done || by rewrite !length_be_encode).
      by rewrite Compare_eq.
  - unfold ParseBallot. case_bool_decide as H0; [naive_solver|].
    case_bool_decide as H40; simpl; [naive_solver|]. split; [by intros []|]. intros [?|?]; done.
Qed.

Lemma ballot_encoding_witness :
  let b := MkBallot 7 (toy_id x02) in let o := MkBallot 256 (toy_id x01) in
  bytes_compare (Bytes b) (Bytes o) = Compare b o.
Proof.
  intros b o. apply (ballot_encoding b o []); vm_compute; reflexivity.
Defined.
