(* ===== verification/Acceptor.v ===== *)
(** The CASPaxos acceptor (src/paxos/acceptor.go): one node's registers over a
    synced database, gated on the installed view. *)
From stdpp Require Import pretty.
From S2P Require Import Prelude Store Placement View Wire Ballot.

(** * Data *)

Definition rowPrefix : bytes := of_string "r/".
Definition metaFloor : bytes := of_string "m/floor".
Definition metaMarker : bytes := of_string "m/marker".
Definition metaView : bytes := of_string "m/view".
Definition metaRetired : bytes := of_string "m/retired".

(** The persisted state of one register. *)
Record row := MkRow {
  Promised : bytes;
  Accepted : bytes;
  Value : bytes;
  HasValue : bool;
}.

#[global] Instance row_eq_dec : EqDecision row.
Proof. solve_decision. Defined.
#[global] Instance row_ser : Ser row.
Proof.
  refine (ser_via (λ r, (r.(Promised), r.(Accepted), r.(Value), r.(HasValue)))
            (λ '(a, b, c, d), MkRow a b c d) _). by intros [].
Defined.
#[global] Instance row_eta : Eta row := λ r, MkRow (r.(Promised)) (r.(Accepted)) (r.(Value)) (r.(HasValue)).

Definition row0 : row := MkRow [] [] [] false.

Record marker := MkMarker { Since : N }.

#[global] Instance marker_ser : Ser marker.
Proof. refine (ser_via Since MkMarker _). by intros []. Defined.

(** The callbacks an operation makes: [OnInstall(v)] and [Alert(msg)]. *)
Inductive event := EvInstall (v : View) | EvAlert (msg : string).

Section acceptor.
Context {DB : Type} `{KVStore DB} `{Codec row} `{Codec marker} `{Codec View}.

(** The mutexes are not part of the state.  What reads and writes a row holds the lock
    throughout in the source, and is one step below.  [Handle] as a whole is not: the gate,
    the checks for a retired or amnesiac acceptor and the stamp of the reply take the lock
    for themselves.  As one step it stands for the runs in which no install or marker comes
    between them; [accept_past_gate] shows one of the others. *)
Record Acceptor := MkAcceptor {
  self : NodeID;
  db : DB;
  closed : bool;
  installed : option View;
  a_marker : N;
  hasMarker : bool;
  retired : bool;
  floor : Ballot;
}.

#[global] Instance Acceptor_eta : Eta Acceptor := λ r,
  MkAcceptor (r.(self)) (r.(db)) (r.(closed)) (r.(installed)) (r.(a_marker)) (r.(hasMarker))
    (r.(retired)) (r.(floor)).

(** * Operations *)

(** [a.get(k)]: an error reads as absent. *)
Definition get_meta (d : DB) (k : bytes) : option bytes :=
  match kv_get d k with Found b => Some b | _ => None end.

(** On a database that opened; [inl] is the error of a view that does not decode. *)
Definition OpenAcceptor (d : DB) (id : NodeID) : string + Acceptor :=
  let a := MkAcceptor id d false None 0 false false ballot0 in
  let opened :=
    match get_meta d metaView with
    | None => inr a
    | Some b => match Decode b with inl e => inl e | inr v => inr (a <| installed := Some v |>) end
    end in
  match opened with
  | inl e => inl e
  | inr a =>
      let a :=
        match get_meta d metaMarker with
        | None => a
        | Some b =>
            match unmarshal b with
            | inl _ => a
            | inr m => a <| a_marker := Since m |> <| hasMarker := true |>
            end
        end in
      let a :=
        match get_meta d metaFloor with
        | None => a
        | Some b => a <| floor := parse_ballot b |>
        end in
      let a := match get_meta d metaRetired with None => a | Some _ => a <| retired := true |> end in
      inr a
  end.

Definition Close (a : Acceptor) : Acceptor := a <| closed := true |>.

Definition SetMarker (a : Acceptor) (since : N) : option string * Acceptor :=
  match kv_commit (db a) [kv_Set metaMarker (marshal (MkMarker since)); kv_Delete metaRetired] with
  | (Some e, d) => (Some e, a <| db := d |>)
  | (None, d) =>
      (None, a <| db := d |> <| a_marker := since |> <| hasMarker := true |> <| retired := false |>)
  end.

(** The installed view is newer than [v], or the same epoch at the same or a
    later version. *)
Definition keeps_installed (a : Acceptor) (v : View) : bool :=
  match installed a with
  | None => false
  | Some cur =>
      match View_Compare cur (Incarnation v) (Epoch v) with
      | Gt => true
      | Eq => (Version v <=? Version cur)%N
      | Lt => false
      end
  end.

(** The bounds of an iteration over all rows. *)
Definition rows_upper : bytes := rowPrefix ++ [xff].

Definition retires (a : Acceptor) (v : View) : bool :=
  negb (IsVoter v (self a)) && negb (retired a) && hasMarker a.

Definition wipe_ops (a : Acceptor) : list kv_op :=
  [kv_Set metaRetired [x01]] ++
  match kv_iter (db a) rowPrefix rows_upper with
  | inl _ => []
  | inr l => kv_Delete <$> l.*1
  end ++
  [kv_Delete metaFloor].

Definition Install (a : Acceptor) (v : View) : option string * Acceptor * list event :=
  if keeps_installed a v then (None, a, [])
  else
    let retire := retires a v in
    let ops := [kv_Set metaView (Encode v)] ++ (if retire then wipe_ops a else []) in
    match kv_commit (db a) ops with
    | (Some e, d) => (Some e, a <| db := d |>, [])
    | (None, d) =>
        let a := a <| db := d |> <| installed := Some v |> in
        let a := if retire then a <| retired := true |> <| floor := ballot0 |> else a in
        (None, a, [EvInstall v])
    end.

(** The marker disagrees with the installed view's entry for this voter. *)
Definition amnesiacLocked (a : Acceptor) : bool :=
  match installed a with
  | None => false
  | Some v =>
      match list_find (λ vo, Voter_ID vo = arr_bytes (self a)) (Voters v) with
      | Some (_, vo) => negb (hasMarker a) || negb (a_marker a =? Voter_Since vo)%N
      | None => false
      end
  end.

Definition row_key (reg : bytes) : bytes := rowPrefix ++ reg.

(** The row and whether it exists; [inl] is an error. *)
Definition readRow (a : Acceptor) (reg : bytes) : string + row * bool :=
  match kv_get (db a) (row_key reg) with
  | GetErr e => inl e
  | NotFound => inr (row0, false)
  | Found b => match unmarshal b with inl e => inl e | inr r => inr (r, true) end
  end.

Definition writeRow (a : Acceptor) (reg : bytes) (r : row) : option string * Acceptor :=
  let '(e, d) := kv_set (db a) (row_key reg) (marshal r) in (e, a <| db := d |>).

Definition refuseIfForgetful (a : Acceptor) : option Msg * list event :=
  if retired a then (Some (ErrMsg CodeRetired "acceptor retired"), [])
  else if amnesiacLocked a then
    (Some (ErrMsg CodeAmnesiac "acceptor state does not match the view"),
     [EvAlert "acceptor is amnesiac: marker disagrees with the installed view; run voter remove + voter add"])
  else (None, []).

(** The promise an absent row is under: the purge floor. *)
Definition promise_of (a : Acceptor) (r : row) (found : bool) : Ballot :=
  let promised := parse_ballot (Promised r) in
  if negb found && bool_decide (Compare (floor a) promised = Gt) then floor a else promised.

(** [b, err := ParseBallot(raw); err != nil || b.IsZero()] *)
Definition good_ballot (raw : bytes) : option Ballot :=
  match ParseBallot raw with
  | inl _ => None
  | inr b => if IsZero b then None else Some b
  end.

Definition prepare (a : Acceptor) (m : Msg) : Acceptor * Msg * list event :=
  match refuseIfForgetful a with
  | (Some r, ev) => (a, r, ev)
  | (None, _) =>
      match good_ballot (m_Ballot m) with
      | None => (a, ErrMsg CodeBadRequest "bad ballot", [])
      | Some b =>
          match readRow a (m_Reg m) with
          | inl e => (a, ErrMsg CodeInternal e, [])
          | inr (r, found) =>
              let promised := promise_of a r found in
              if bool_decide (Compare b promised ≠ Gt) then
                (a, msg0 <| m_Type := TConflict |> <| m_Ballot := Bytes promised |>, [])
              else
                let r := r <| Promised := Bytes b |> in
                match writeRow a (m_Reg m) r with
                | (Some e, a) => (a, ErrMsg CodeInternal e, [])
                | (None, a) =>
                    (a, msg0 <| m_Type := TPromise |> <| m_Accepted := Accepted r |>
                          <| m_Value := Value r |> <| m_HasValue := HasValue r |>, [])
                end
          end
      end
  end.

(** [now] is [time.Now().UnixNano()]. *)
Definition accept (now : Z) (a : Acceptor) (m : Msg) : Acceptor * Msg :=
  if retired a then (a, ErrMsg CodeRetired "acceptor retired")
  else
    match good_ballot (m_Ballot m) with
    | None => (a, ErrMsg CodeBadRequest "bad ballot")
    | Some b =>
        if negb (m_NotAfter m =? 0)%Z && (m_NotAfter m <? now)%Z then
          (a, ErrMsg CodeExpired "accept past not_after")
        else
          match readRow a (m_Reg m) with
          | inl e => (a, ErrMsg CodeInternal e)
          | inr (r, found) =>
              let promised := promise_of a r found in
              if bool_decide (Compare b promised = Lt) then
                (a, msg0 <| m_Type := TConflict |> <| m_Ballot := Bytes promised |>)
              else
                let accepted := parse_ballot (Accepted r) in
                if bool_decide (Compare b accepted = Lt) then
                  (a, msg0 <| m_Type := TConflict |> <| m_Ballot := Bytes accepted |>)
                else
                  let r := r <| Promised := Bytes b |> <| Accepted := Bytes b |>
                             <| Value := m_Value m |> <| HasValue := m_HasValue m |> in
                  match writeRow a (m_Reg m) r with
                  | (Some e, a) => (a, ErrMsg CodeInternal e)
                  | (None, a) => (a, msg0 <| m_Type := TAccepted |>)
                  end
          end
    end.

Definition read (a : Acceptor) (m : Msg) : Msg * list event :=
  match refuseIfForgetful a with
  | (Some r, ev) => (r, ev)
  | (None, _) =>
      match readRow a (m_Reg m) with
      | inl e => (ErrMsg CodeInternal e, [])
      | inr (r, _) =>
          (msg0 <| m_Type := TReadReply |> <| m_Accepted := Accepted r |> <| m_Promised := Promised r |>
             <| m_Value := Value r |> <| m_HasValue := HasValue r |>, [])
      end
  end.

Definition scan_row (reg : bytes) (r : row) : ScanRow :=
  MkScanRow reg (Promised r) (Accepted r) (Value r) (HasValue r).

Definition scan_size (reg : bytes) (r : row) : Z :=
  (Z.of_nat (length reg) + Z.of_nat (length (Value r)) + 2 * Z.of_nat BallotSize)%Z.

(** The loop over the iterator: the page and whether it stopped early. *)
Fixpoint scan_loop (limit : Z) (l : list (bytes * bytes)) (n size : Z) : list ScanRow * bool :=
  match l with
  | [] => ([], false)
  | (k, v) :: l' =>
      if (limit <=? n)%Z || (MaxPageBytes <=? size)%Z then ([], true)
      else
        match unmarshal v with
        | inl _ => scan_loop limit l' n size
        | inr r =>
            let reg := drop (length rowPrefix) k in
            let '(rows, more) := scan_loop limit l' (n + 1)%Z (size + scan_size reg r)%Z in
            (scan_row reg r :: rows, more)
        end
  end.

Definition scan_limit (m : Msg) : Z :=
  if ((m_Limit m <=? 0) || (100000 <? m_Limit m))%Z then 100000 else m_Limit m.

Definition scan_lower (m : Msg) : bytes :=
  if (0 <? length (m_After m))%nat then rowPrefix ++ m_After m ++ [x00]
  else rowPrefix ++ m_Prefix m.

Definition scan_upper (m : Msg) : bytes :=
  if bool_decide (length (m_Prefix m) = 0%nat) then rows_upper
  else rowPrefix ++ m_Prefix m ++ [xff; xff; xff; xff].

Definition scan (a : Acceptor) (m : Msg) : Msg * list event :=
  match refuseIfForgetful a with
  | (Some r, ev) => (r, ev)
  | (None, _) =>
      match kv_iter (db a) (scan_lower m) (scan_upper m) with
      | inl e => (ErrMsg CodeInternal e, [])
      | inr l =>
          let '(rows, more) := scan_loop (scan_limit m) l 0 0 in
          let reply := msg0 <| m_Type := TScanReply |> <| m_Rows := rows |> <| m_More := more |> in
          match last rows with
          | Some r => (reply <| m_Next := sr_Reg r |>, [])
          | None => (reply, [])
          end
      end
  end.

Definition purge (a : Acceptor) (m : Msg) : Acceptor * Msg :=
  match good_ballot (m_Ballot m) with
  | None => (a, ErrMsg CodeBadRequest "bad ballot")
  | Some b =>
      match readRow a (m_Reg m) with
      | inl e => (a, ErrMsg CodeInternal e)
      | inr (r, found) =>
          if negb found then (a, msg0 <| m_Type := TOK |>)
          else if bool_decide (Compare (parse_ballot (Accepted r)) b ≠ Eq) then
            (a, msg0 <| m_Type := TOK |>)
          else
            let promised := parse_ballot (Promised r) in
            let gone := bool_decide (Compare promised b = Eq) in
            let raise := bool_decide (Compare b (floor a) = Gt) in
            let ops :=
              if gone then
                [kv_Delete (row_key (m_Reg m))] ++ (if raise then [kv_Set metaFloor (Bytes b)] else [])
              else
                [kv_Set (row_key (m_Reg m))
                   (marshal (r <| Accepted := [] |> <| Value := [] |> <| HasValue := false |>))] in
            match kv_commit (db a) ops with
            | (Some e, d) => (a <| db := d |>, ErrMsg CodeInternal e)
            | (None, d) =>
                let a := a <| db := d |> in
                (if gone && raise then a <| floor := b |> else a, msg0 <| m_Type := TOK |>)
            end
      end
  end.

(** The batch of [seed]: rows are read from the database, not from the batch. *)
Fixpoint seed_ops (a : Acceptor) (rows : list ScanRow) : string + list kv_op :=
  match rows with
  | [] => inr []
  | sr :: rows' =>
      match readRow a (sr_Reg sr) with
      | inl e => inl e
      | inr (cur, _) =>
          let curAcc := parse_ballot (Accepted cur) in
          let newAcc := parse_ballot (sr_Accepted sr) in
          if IsZero newAcc || bool_decide (Compare newAcc curAcc ≠ Gt) then seed_ops a rows'
          else
            let r := cur <| Accepted := sr_Accepted sr |> <| Value := sr_Value sr |>
                         <| HasValue := sr_HasValue sr |> in
            let r :=
              if bool_decide (Compare newAcc (parse_ballot (Promised r)) = Gt)
              then r <| Promised := sr_Accepted sr |> else r in
            match seed_ops a rows' with
            | inl e => inl e
            | inr ops => inr (kv_Set (row_key (sr_Reg sr)) (marshal r) :: ops)
            end
      end
  end.

Definition seed (a : Acceptor) (m : Msg) : Acceptor * Msg :=
  match seed_ops a (m_Rows m) with
  | inl e => (a, ErrMsg CodeInternal e)
  | inr ops =>
      match kv_commit (db a) ops with
      | (Some e, d) => (a <| db := d |>, ErrMsg CodeInternal e)
      | (None, d) => (a <| db := d |>, msg0 <| m_Type := TOK |>)
      end
  end.

(** The requests that pass the epoch gate first. *)
Definition handle_gated (now : Z) (a : Acceptor) (m : Msg) : Acceptor * Msg * list event :=
  match installed a with
  | None => (a, ErrMsg CodeNeedView "no view installed", [])
  | Some inst =>
      match View_Compare inst (m_Incarnation m) (m_Epoch m) with
      | Gt => (a, msg0 <| m_Type := TErr |> <| m_Code := CodeStaleView |> <| m_View := Encode inst |>, [])
      | Lt => (a, ErrMsg CodeNeedView "", [])
      | Eq =>
          if (m_Type m =? TPrepare)%Z then prepare a m
          else if (m_Type m =? TAccept)%Z then (accept now a m, [])
          else if (m_Type m =? TRead)%Z then let '(r, ev) := read a m in (a, r, ev)
          else if (m_Type m =? TScan)%Z then let '(r, ev) := scan a m in (a, r, ev)
          else (a, ErrMsg CodeBadRequest ("unknown catalog op " +:+ pretty (m_Type m)), [])
      end
  end.

Definition handle (now : Z) (a : Acceptor) (m : Msg) : Acceptor * Msg * list event :=
  if (m_Type m =? TInstall)%Z then
    match Decode (m_View m) with
    | inl e => (a, ErrMsg CodeBadRequest e, [])
    | inr v =>
        match Install a v with
        | (Some e, a, ev) => (a, ErrMsg CodeInternal e, ev)
        | (None, a, ev) => (a, msg0 <| m_Type := TInstalled |>, ev)
        end
    end
  else if (m_Type m =? TMarker)%Z then
    match SetMarker a (m_Since m) with
    | (Some e, a) => (a, ErrMsg CodeInternal e, [])
    | (None, a) => (a, msg0 <| m_Type := TOK |>, [])
    end
  else if (m_Type m =? TSeed)%Z then (seed a m, [])
  else if (m_Type m =? TPurge)%Z then (purge a m, [])
  else handle_gated now a m.

(** The reply carries the installed (incarnation, epoch). *)
Definition stamp_reply (a : Acceptor) (reply : Msg) : Msg :=
  match installed a with
  | Some v => reply <| m_Incarnation := Incarnation v |> <| m_Epoch := Epoch v |>
  | None => reply
  end.

Definition Handle (now : Z) (a : Acceptor) (m : Msg) : Acceptor * Msg * list event :=
  if closed a then (a, ErrMsg CodeInternal "acceptor closed", [])
  else let '(a, reply, ev) := handle now a m in (a, stamp_reply a reply, ev).

Definition LocalRead (a : Acceptor) (reg : bytes) : string + Ballot * bytes * bool :=
  match readRow a reg with
  | inl e => inl e
  | inr (r, _) => inr (parse_ballot (Accepted r), Value r, HasValue r)
  end.

(** The rows that decode, in register order. *)
Definition decode_rows (l : list (bytes * bytes)) : list ScanRow :=
  omap (λ '(k, v), match unmarshal v with
                   | inl _ => None
                   | inr r => Some (scan_row (drop (length rowPrefix) k) r)
                   end) l.

Definition AllRows (a : Acceptor) : string + list ScanRow :=
  match kv_iter (db a) rowPrefix rows_upper with
  | inl e => inl e
  | inr l => inr (decode_rows l)
  end.
End acceptor.

Arguments Acceptor : clear implicits.

(** * The state the operations promise about *)

Section spec.
Context {DB : Type} `{KVStore DB} `{Codec row} `{Codec marker} `{Codec View}.
Notation Acceptor := (Acceptor DB).
Implicit Types a : Acceptor.

(** The row stored for a register. *)
Definition stored a (reg : bytes) : option row :=
  match kv_abs (db a) !! row_key reg with
  | Some b => match unmarshal b with inr r => Some r | inl _ => None end
  | None => None
  end.

Definition cur_row a reg : row := default row0 (stored a reg).

(** The ballot the acceptor is bound to: what it promised for the register, or
    the purge floor where it has no row. *)
Definition cur_promised a reg : Ballot :=
  match stored a reg with Some r => parse_ballot (Promised r) | None => floor a end.

Definition cur_accepted a reg : Ballot := parse_ballot (Accepted (cur_row a reg)).

Definition row_ok (r : row) : Prop := ble (parse_ballot (Accepted r)) (parse_ballot (Promised r)).

(** Rows decode and never accepted above their promise; the fields in memory
    are what the database holds. *)
Record acceptor_ok a : Prop := {
  ok_rows reg b : kv_abs (db a) !! row_key reg = Some b → ∃ r, unmarshal b = inr r ∧ row_ok r;
  ok_view : kv_abs (db a) !! metaView = Encode <$> installed a;
  ok_marker : kv_abs (db a) !! metaMarker =
    if hasMarker a then Some (marshal (MkMarker (a_marker a))) else None;
  ok_marker0 : hasMarker a = false → a_marker a = 0%N;
  ok_floor : kv_abs (db a) !! metaFloor = if IsZero (floor a) then None else Some (Bytes (floor a));
  ok_floor_u64 : ballot_ok (floor a);
  ok_retired : is_Some (kv_abs (db a) !! metaRetired) ↔ retired a = true;
}.

(** Equal but for a database with the same content. *)
Definition acc_equiv a a' : Prop :=
  a' = a <| db := db a' |> ∧ kv_abs (db a') = kv_abs (db a).

#[global] Instance acc_equiv_equivalence : Equivalence acc_equiv.
Proof.
  split.
  - intros []. done.
  - intros [] [] [E1 E2]. simpl in *. injection E1 as -> -> -> -> -> -> ->. done.
  - intros [] [] [] [E1 E2] [E3 E4]. simpl in *. injection E1 as -> -> -> -> -> -> ->.
    injection E3 as -> -> -> -> -> -> ->. split; [done|]. simpl. congruence.
Qed.

#[global] Instance stored_proper : Proper (acc_equiv ==> (=) ==> (=)) stored.
Proof. intros a a' [_ E] reg ? <-. unfold stored. by rewrite E. Qed.

Lemma acc_equiv_fields a a' :
  acc_equiv a a' → self a' = self a ∧ closed a' = closed a ∧ installed a' = installed a ∧
    a_marker a' = a_marker a ∧ hasMarker a' = hasMarker a ∧ retired a' = retired a ∧ floor a' = floor a.
Proof. intros [-> _]. by destruct a. Qed.

#[global] Instance cur_promised_proper : Proper (acc_equiv ==> (=) ==> (=)) cur_promised.
Proof.
  intros a a' Ha reg ? <-. unfold cur_promised. rewrite <- (stored_proper a a' Ha reg reg eq_refl).
  apply acc_equiv_fields in Ha as (_ & _ & _ & _ & _ & _ & ->). done.
Qed.

#[global] Instance cur_row_proper : Proper (acc_equiv ==> (=) ==> (=)) cur_row.
Proof.
  intros a a' Ha reg ? <-. unfold cur_row. by rewrite <- (stored_proper a a' Ha reg reg eq_refl).
Qed.

#[global] Instance cur_accepted_proper : Proper (acc_equiv ==> (=) ==> (=)) cur_accepted.
Proof.
  intros a a' Ha reg ? <-. unfold cur_accepted. by rewrite <- (cur_row_proper a a' Ha reg reg eq_refl).
Qed.

#[global] Instance acceptor_ok_proper : Proper (acc_equiv ==> iff) acceptor_ok.
Proof.
  assert (∀ a a', acc_equiv a a' → acceptor_ok a → acceptor_ok a') as Himp.
  { intros a a' Ha [R V M M0 F FU Re]. pose proof (acc_equiv_fields a a' Ha) as (E1&E2&E3&E4&E5&E6&E7).
    destruct Ha as [_ Ed]. split; rewrite ?Ed, ?E3, ?E4, ?E5, ?E6, ?E7; auto. }
  intros a a' Ha. split; apply Himp; done || by symmetry.
Qed.

(** The row of one register is replaced, nothing else. *)
Definition row_update a (reg : bytes) (r : row) a' : Prop :=
  a' = a <| db := db a' |> ∧ kv_abs (db a') = <[row_key reg := marshal r]> (kv_abs (db a)).

Lemma row_key_inj reg reg' : row_key reg = row_key reg' → reg = reg'.
Proof. apply app_inv_head. Qed.

Lemma row_key_not_meta reg k : k ∈ [metaFloor; metaMarker; metaView; metaRetired] → row_key reg ≠ k.
Proof.
  intros Hk E. rewrite <- E in Hk. unfold row_key, rowPrefix in Hk.
  repeat (apply elem_of_cons in Hk as [Hk|Hk]; [vm_compute in Hk; discriminate|]).
  by apply elem_of_nil in Hk.
Qed.

Lemma meta_keys_NoDup : NoDup [metaFloor; metaMarker; metaView; metaRetired].
Proof. decides. Qed.

Lemma row_update_fields a reg r a' :
  row_update a reg r a' → self a' = self a ∧ closed a' = closed a ∧ installed a' = installed a ∧
    a_marker a' = a_marker a ∧ hasMarker a' = hasMarker a ∧ retired a' = retired a ∧ floor a' = floor a.
Proof. intros [-> _]. by destruct a. Qed.

Lemma stored_update a reg r a' reg' :
  row_update a reg r a' → stored a' reg' = if decide (reg' = reg) then Some r else stored a reg'.
Proof.
  intros [_ Ed]. unfold stored. rewrite Ed. case_decide as E.
  - subst. by rewrite lookup_insert_eq, unmarshal_marshal.
  - rewrite lookup_insert_ne; [done|]. intros E'%row_key_inj. congruence.
Qed.

Lemma row_update_ok a reg r a' : acceptor_ok a → row_ok r → row_update a reg r a' → acceptor_ok a'.
Proof.
  intros [R V M M0 F FU Re] Hr Hu. pose proof (row_update_fields _ _ _ _ Hu) as (E1&E2&E3&E4&E5&E6&E7).
  destruct Hu as [_ Ed].
  assert (∀ k, k ∈ [metaFloor; metaMarker; metaView; metaRetired] →
            kv_abs (db a') !! k = kv_abs (db a) !! k) as Hm.
  { intros k Hk. rewrite Ed, lookup_insert_ne; [done|]. by apply row_key_not_meta. }
  split; rewrite ?Hm, ?E3, ?E4, ?E5, ?E6, ?E7 by set_solver; auto.
  intros reg' b. rewrite Ed. destruct (decide (reg' = reg)) as [->|Hne].
  - rewrite lookup_insert_eq. intros [= <-]. exists r. by rewrite unmarshal_marshal.
  - rewrite lookup_insert_ne; [apply R|]. intros E'%row_key_inj. congruence.
Qed.

Lemma writeRow_cases a reg r e a' :
  writeRow a reg r = (e, a') →
  (e = None ∧ row_update a reg r a') ∨ (is_Some e ∧ acc_equiv a a').
Proof.
  unfold writeRow. destruct (kv_set (db a) (row_key reg) (marshal r)) as [e' d] eqn:E.
  intros [= <- <-]. apply kv_set_cases in E as [[-> Ed]|[? Ed]]; [left|right]; done.
Qed.

(** A read gives the stored row, or an error. *)
Lemma readRow_ok a reg r found :
  acceptor_ok a → readRow a reg = inr (r, found) →
  r = cur_row a reg ∧ stored a reg = (if found then Some r else None) ∧ row_ok r.
Proof.
  intros Hok. unfold readRow, cur_row, stored.
  destruct (kv_get (db a) (row_key reg)) as [b| |] eqn:E; [|intros [= <- <-]|done].
  - rewrite (kv_get_found _ _ _ E). destruct (ok_rows a Hok reg b (kv_get_found _ _ _ E)) as (r' & -> & Hr).
    by intros [= <- <-].
  - rewrite (kv_get_not_found _ _ E). split; [done|]. split; [done|]. unfold row_ok. simpl. reflexivity.
Qed.

Lemma promise_of_cur a reg r found :
  stored a reg = (if found : bool then Some r else None) → r = cur_row a reg →
  promise_of a r found = cur_promised a reg.
Proof.
  intros Es Er. unfold promise_of, cur_promised. rewrite Es. destruct found; simpl; [done|].
  unfold cur_row in Er. rewrite Es in Er. simpl in Er. subst r.
  case_bool_decide as Hc; [done|]. change (parse_ballot (Promised row0)) with ballot0 in *.
  apply (cmp_le_antisym Compare); [apply ballot0_le|done].
Qed.

Lemma good_ballot_Some raw b : good_ballot raw = Some b → ParseBallot raw = inr b ∧ b ≠ ballot0 ∧ ballot_ok b.
Proof.
  unfold good_ballot. destruct (ParseBallot raw) as [|b'] eqn:E; [done|].
  destruct (IsZero b') eqn:Ez; [done|]. intros [= <-]. apply IsZero_false in Ez.
  split; [done|]. split; [done|]. by eapply ParseBallot_ok.
Qed.

Lemma cur_row_ok a reg : acceptor_ok a → row_ok (cur_row a reg).
Proof.
  intros Hok. unfold cur_row, stored. destruct (kv_abs (db a) !! row_key reg) as [b|] eqn:E.
  - destruct (ok_rows a Hok reg b E) as (r & -> & Hr). done.
  - unfold row_ok. simpl. reflexivity.
Qed.

Lemma cur_accepted_le a reg : acceptor_ok a → ble (cur_accepted a reg) (cur_promised a reg).
Proof.
  intros Hok. pose proof (cur_row_ok a reg Hok) as Hr. unfold cur_accepted, cur_promised, cur_row in *.
  destruct (stored a reg); simpl in *; [done|apply ballot0_le].
Qed.

(** ** Each operation *)

(** The request passed the epoch gate. *)
Definition serving a (m : Msg) : Prop :=
  ∃ v, installed a = Some v ∧ Incarnation v = m_Incarnation m ∧ Epoch v = m_Epoch m.

Definition promise_reply (r : row) : Msg :=
  msg0 <| m_Type := TPromise |> <| m_Accepted := Accepted r |>
    <| m_Value := Value r |> <| m_HasValue := HasValue r |>.

Definition read_reply (r : row) : Msg :=
  msg0 <| m_Type := TReadReply |> <| m_Accepted := Accepted r |> <| m_Promised := Promised r |>
    <| m_Value := Value r |> <| m_HasValue := HasValue r |>.

(** The reply types that report a state change or a row. *)
Definition plain_reply (rep : Msg) : Prop :=
  m_Type rep ∉ [TPromise; TAccepted; TReadReply; TInstalled].

Lemma plain_ErrMsg code text : plain_reply (ErrMsg code text).
Proof. decides. Qed.

(** Closes the branches that answer an error and keep the state. *)
Ltac refused :=
  intros; simplify_eq; try left;
  first [ split; [done || reflexivity|] | idtac ];
  first [ done | apply plain_ErrMsg | decides ].

Lemma refuse_cases a r ev :
  refuseIfForgetful a = (r, ev) →
  (r = None ∧ retired a = false ∧ amnesiacLocked a = false) ∨
  (∃ e, r = Some e ∧ plain_reply e).
Proof.
  unfold refuseIfForgetful. destruct (retired a); [|destruct (amnesiacLocked a)]; intros [= <- <-];
    eauto using plain_ErrMsg.
Qed.

Lemma prepare_spec a m a' rep ev :
  acceptor_ok a → prepare a m = (a', rep, ev) →
  (acc_equiv a a' ∧ plain_reply rep) ∨
  (∃ b, good_ballot (m_Ballot m) = Some b ∧ retired a = false ∧ amnesiacLocked a = false ∧
     blt (cur_promised a (m_Reg m)) b ∧
     row_update a (m_Reg m) (cur_row a (m_Reg m) <| Promised := Bytes b |>) a' ∧
     rep = promise_reply (cur_row a (m_Reg m))).
Proof.
  intros Hok. unfold prepare. destruct (refuseIfForgetful a) as [r ev'] eqn:Er.
  apply refuse_cases in Er as [(-> & Hret & Ham)|(e & -> & He)]; [|refused].
  destruct (good_ballot (m_Ballot m)) as [b|] eqn:Eb; [|refused].
  destruct (readRow a (m_Reg m)) as [e|[r found]] eqn:Ew; [refused|].
  destruct (readRow_ok _ _ _ _ Hok Ew) as (Hr & Hs & _). rewrite (promise_of_cur _ _ _ _ Hs Hr).
  case_bool_decide as Hc; [refused|].
  destruct (writeRow a (m_Reg m) _) as [e a1] eqn:Ewr.
  apply writeRow_cases in Ewr as [[-> Hu]|[[e' ->] Heq]]; intros [= <- <- <-].
  - right. exists b. subst r. do 3 (split; [done|]). split; [|done].
    apply (cmp_gt_lt Compare). by destruct (decide (Compare b (cur_promised a (m_Reg m)) = Gt)).
  - refused.
Qed.

Lemma accept_spec now a m a' rep :
  acceptor_ok a → accept now a m = (a', rep) →
  (acc_equiv a a' ∧ plain_reply rep) ∨
  (∃ b, good_ballot (m_Ballot m) = Some b ∧ retired a = false ∧
     (m_NotAfter m = 0 ∨ now ≤ m_NotAfter m)%Z ∧
     ble (cur_promised a (m_Reg m)) b ∧
     row_update a (m_Reg m) (MkRow (Bytes b) (Bytes b) (m_Value m) (m_HasValue m)) a' ∧
     rep = msg0 <| m_Type := TAccepted |>).
Proof.
  intros Hok. unfold accept.
  destruct (retired a) eqn:Hret; [refused|].
  destruct (good_ballot (m_Ballot m)) as [b|] eqn:Eb; [|refused].
  destruct (negb _ && _) eqn:Et; [refused|].
  destruct (readRow a (m_Reg m)) as [e|[r found]] eqn:Ew; [refused|].
  destruct (readRow_ok _ _ _ _ Hok Ew) as (Hr & Hs & _). rewrite (promise_of_cur _ _ _ _ Hs Hr).
  case_bool_decide as Hc; [|case_bool_decide as Hc2].
  1,2: refused.
  destruct (writeRow a (m_Reg m) _) as [e a1] eqn:Ewr.
  apply writeRow_cases in Ewr as [[-> Hu]|[[e' ->] Heq]]; intros [= <- <-].
  - right. exists b. do 2 (split; [done|]). split; [|split; [by apply (cmp_nlt_le Compare)|]].
    + apply andb_false_iff in Et as [Et|Et]; [left|right].
      * apply negb_false_iff in Et. lia.
      * lia.
    + by destruct r.
  - refused.
Qed.

Lemma read_spec a m rep ev :
  acceptor_ok a → read a m = (rep, ev) →
  plain_reply rep ∨
  (retired a = false ∧ amnesiacLocked a = false ∧ rep = read_reply (cur_row a (m_Reg m))).
Proof.
  intros Hok. unfold read. destruct (refuseIfForgetful a) as [r ev'] eqn:Er.
  apply refuse_cases in Er as [(-> & Hret & Ham)|(e & -> & He)]; [|refused].
  destruct (readRow a (m_Reg m)) as [e|[r found]] eqn:Ew; intros [= <- <-]; [refused|].
  destruct (readRow_ok _ _ _ _ Hok Ew) as (-> & _ & _). auto.
Qed.

Lemma scan_plain a m rep ev : scan a m = (rep, ev) → plain_reply rep.
Proof.
  unfold scan. destruct (refuseIfForgetful a) as [r ev'] eqn:Er.
  apply refuse_cases in Er as [(-> & Hret & Ham)|(e & -> & He)]; [|refused].
  destruct (kv_iter _ _ _) as [e|l]; [refused|].
  destruct (scan_loop _ l 0 0) as [rows more]. destruct (last rows); refused.
Qed.

(** ** Views, markers, purges and seeds *)

Lemma wiped_key_not_meta k mk :
  mk ∈ [metaFloor; metaMarker; metaView; metaRetired] → in_range rowPrefix rows_upper k → k ≠ mk.
Proof.
  intros Hmk [Hlo _] ->.
  repeat (apply elem_of_cons in Hmk as [->|Hmk]; [by vm_compute in Hlo|]). by apply elem_of_nil in Hmk.
Qed.

(** The keys the wipe deletes. *)
Definition wiped a (k : bytes) : Prop :=
  match kv_iter (db a) rowPrefix rows_upper with inl _ => False | inr l => k ∈ l.*1 end.

Lemma wiped_range a k : wiped a k → in_range rowPrefix rows_upper k.
Proof.
  unfold wiped. destruct (kv_iter _ _ _) as [|l] eqn:E; [done|]. apply kv_iter_ok in E as ->.
  intros ([k' v] & -> & Hk)%list_elem_of_fmap. by apply elem_of_range in Hk as [_ ?].
Qed.

Lemma lookup_wipe a (m : gmap bytes bytes) k :
  apply_ops m (wipe_ops a) !! k =
    if decide (k = metaFloor) then None
    else if decide (k = metaRetired) then Some [x01]
    else match kv_iter (db a) rowPrefix rows_upper with
         | inl _ => m !! k
         | inr l => if decide (k ∈ l.*1) then None else m !! k
         end.
Proof.
  unfold wipe_ops. rewrite !apply_ops_app. simpl.
  pose proof (wiped_range a) as Hw. unfold wiped in Hw.
  destruct (decide (k = metaFloor)) as [->|Hf]; [apply lookup_delete_eq|].
  rewrite lookup_delete_ne by done.
  assert (metaRetired ∈ [metaFloor; metaMarker; metaView; metaRetired]) as Hin by set_solver.
  destruct (kv_iter (db a) rowPrefix rows_upper) as [e|l].
  - simpl. destruct (decide (k = metaRetired)) as [->|Hr]; [apply lookup_insert_eq|by apply lookup_insert_ne].
  - rewrite lookup_apply_deletes. destruct (decide (k = metaRetired)) as [->|Hr].
    + rewrite decide_False; [apply lookup_insert_eq|].
      intros Hk%Hw. by apply (wiped_key_not_meta _ _ Hin Hk).
    + destruct (decide (k ∈ l.*1)); [done|]. by apply lookup_insert_ne.
Qed.

(** What a successful install leaves: the view in force, and on retirement no
    row that the wipe reached and no floor. *)
Definition installed_as a (v : View) a' : Prop :=
  self a' = self a ∧ closed a' = closed a ∧ a_marker a' = a_marker a ∧ hasMarker a' = hasMarker a ∧
  installed a' = Some v ∧
  if retires a v then
    retired a' = true ∧ floor a' = ballot0 ∧
    ∀ reg, stored a' reg = None ∨ (¬ wiped a (row_key reg) ∧ stored a' reg = stored a reg)
  else
    retired a' = retired a ∧ floor a' = floor a ∧ ∀ reg, stored a' reg = stored a reg.

(** Distinct keys of the database. *)
Ltac key_ne :=
  first
    [ apply row_key_not_meta; repeat (first [left | right])
    | apply not_eq_sym, row_key_not_meta; repeat (first [left | right])
    | let E := fresh in intros E; vm_compute in E; discriminate ].

Lemma install_kept a v d :
  acceptor_ok a → retires a v = false → kv_abs d = <[metaView := Encode v]> (kv_abs (db a)) →
  let a' := a <| db := d |> <| installed := Some v |> in acceptor_ok a' ∧ installed_as a v a'.
Proof.
  intros [R V M M0 F FU Re] Er Ed a'. unfold a'. split.
  - split; simpl; try rewrite Ed; try rewrite lookup_insert_ne by key_ne; auto.
    + intros reg b. rewrite lookup_insert_ne by key_ne. apply R.
    + apply lookup_insert_eq.
  - unfold installed_as. simpl. rewrite Er. repeat (split; [done|]). intros reg. unfold stored. simpl.
    rewrite Ed, lookup_insert_ne by key_ne. done.
Qed.

Lemma install_wiped a v d :
  acceptor_ok a → retires a v = true →
  kv_abs d = apply_ops (<[metaView := Encode v]> (kv_abs (db a))) (wipe_ops a) →
  let a' := a <| db := d |> <| installed := Some v |> <| retired := true |> <| floor := ballot0 |> in
  acceptor_ok a' ∧ installed_as a v a'.
Proof.
  intros [R V M M0 F FU Re] Er Ed a'. unfold a'.
  assert (∀ k, k ∈ [metaMarker; metaView] →
    kv_abs d !! k = <[metaView := Encode v]> (kv_abs (db a)) !! k) as Hkeep.
  { intros k Hk. rewrite Ed, lookup_wipe.
    rewrite decide_False by (repeat (apply elem_of_cons in Hk as [->|Hk]; [key_ne|]); set_solver).
    rewrite decide_False by (repeat (apply elem_of_cons in Hk as [->|Hk]; [key_ne|]); set_solver).
    destruct (kv_iter _ _ _) as [|l] eqn:Ei; [done|]. rewrite decide_False; [done|].
    intros Hkl. apply (wiped_key_not_meta k k); [set_solver| |done].
    apply (wiped_range a). unfold wiped. by rewrite Ei. }
  assert (∀ reg, kv_abs d !! row_key reg = None ∨
    (¬ wiped a (row_key reg) ∧ kv_abs d !! row_key reg = kv_abs (db a) !! row_key reg)) as Hrows.
  { intros reg. rewrite Ed, lookup_wipe. rewrite !decide_False by key_ne. unfold wiped.
    rewrite lookup_insert_ne by key_ne.
    destruct (kv_iter _ _ _) as [|l] eqn:Ei; [right; split; [tauto|done]|]. case_decide; auto. }
  split; [split; simpl|].
  - intros reg b Hb. destruct (Hrows reg) as [E|[_ E]]; rewrite E in Hb; [done|by apply (R reg)].
  - rewrite Hkeep by set_solver. apply lookup_insert_eq.
  - rewrite Hkeep by set_solver. by rewrite lookup_insert_ne by key_ne.
  - done.
  - rewrite Ed, lookup_wipe. by rewrite decide_True.
  - done.
  - rewrite Ed, lookup_wipe. rewrite decide_False by key_ne. rewrite decide_True by done. naive_solver.
  - unfold installed_as. simpl. rewrite Er. repeat (split; [done|]). intros reg. unfold stored. simpl.
    destruct (Hrows reg) as [->|[Hw ->]]; auto.
Qed.

Lemma Install_spec a v e a' ev :
  acceptor_ok a → Install a v = (e, a', ev) →
  acceptor_ok a' ∧
  ((acc_equiv a a' ∧ ev = [] ∧ (e = None → keeps_installed a v = true)) ∨
   (e = None ∧ keeps_installed a v = false ∧ ev = [EvInstall v] ∧ installed_as a v a')).
Proof.
  intros Hok. unfold Install. destruct (keeps_installed a v) eqn:Ek.
  { intros [= <- <- <-]. split; [done|]. left. done. }
  destruct (kv_commit _ _) as [e' d] eqn:Ec.
  apply kv_commit_cases in Ec as [[-> Ed]|[[e'' ->] Ed]]; intros [= <- <- <-].
  - rewrite apply_ops_app in Ed. simpl in Ed. destruct (retires a v) eqn:Er.
    + destruct (install_wiped a v d Hok Er Ed). by split; [|right].
    + destruct (install_kept a v d Hok Er Ed). by split; [|right].
  - assert (acc_equiv a (a <| db := d |>)) as He by (split; done).
    split; [by rewrite <- He|]. left. by split.
Qed.

Lemma SetMarker_spec a since e a' :
  acceptor_ok a → SetMarker a since = (e, a') →
  acceptor_ok a' ∧
  ((is_Some e ∧ acc_equiv a a') ∨
   (e = None ∧ a' = a <| db := db a' |> <| a_marker := since |> <| hasMarker := true |> <| retired := false |> ∧
    ∀ reg, stored a' reg = stored a reg)).
Proof.
  intros Hok. unfold SetMarker. destruct (kv_commit _ _) as [e' d] eqn:Ec.
  apply kv_commit_cases in Ec as [[-> Ed]|[[e'' ->] Ed]]; intros [= <- <-].
  - destruct Hok as [R V M M0 F FU Re]. simpl in Ed.
    assert (∀ k, k ≠ metaMarker → k ≠ metaRetired → kv_abs d !! k = kv_abs (db a) !! k) as Hk.
    { intros k H1' H2'. by rewrite Ed, lookup_delete_ne, lookup_insert_ne. }
    split; [|right; split; [done|split; [done|]]].
    + split; simpl.
      * intros reg b. rewrite Hk by key_ne. apply R.
      * rewrite Hk by key_ne. done.
      * rewrite Ed, lookup_delete_ne by key_ne. apply lookup_insert_eq.
      * done.
      * rewrite Hk by key_ne. done.
      * done.
      * rewrite Ed, lookup_delete_eq. split; [by intros []|done].
    + intros reg. unfold stored. simpl. by rewrite Hk by key_ne.
  - assert (acc_equiv a (a <| db := d |>)) as He by (split; done).
    split; [by rewrite <- He|]. left. by split.
Qed.

(** Everything but the rows and the floor is kept. *)
Definition same_role a a' : Prop :=
  self a' = self a ∧ closed a' = closed a ∧ installed a' = installed a ∧
  a_marker a' = a_marker a ∧ hasMarker a' = hasMarker a ∧ retired a' = retired a.

(** What a purge at ballot [b] does to the row [r] it matches: drop it under a
    floor of at least [b], or keep the promise of a proposal in flight. *)
Definition purged a (reg : bytes) (b : Ballot) (r : row) a' : Prop :=
  stored a reg = Some r ∧ parse_ballot (Accepted r) = b ∧
  (∀ reg', reg' ≠ reg → stored a' reg' = stored a reg') ∧
  ((parse_ballot (Promised r) = b ∧ stored a' reg = None ∧
     floor a' = if bool_decide (Compare b (floor a) = Gt) then b else floor a) ∨
   (blt b (parse_ballot (Promised r)) ∧
     stored a' reg = Some (MkRow (Promised r) [] [] false) ∧ floor a' = floor a)).

(** The batch a purge commits drops the row and may raise the floor. *)
Lemma purge_drop a reg b d :
  acceptor_ok a → b ≠ ballot0 → ballot_ok b →
  let raise := bool_decide (Compare b (floor a) = Gt) in
  kv_abs d = apply_ops (kv_abs (db a))
    ([kv_Delete (row_key reg)] ++ (if raise then [kv_Set metaFloor (Bytes b)] else [])) →
  let a1 := a <| db := d |> in let a' := if raise then a1 <| floor := b |> else a1 in
  acceptor_ok a' ∧ same_role a a' ∧ floor a' = (if raise then b else floor a) ∧
  stored a' reg = None ∧ ∀ reg', reg' ≠ reg → stored a' reg' = stored a reg'.
Proof.
  intros [R V M M0 F FU Re] Hb Hu raise Ed a1 a'.
  assert (∀ k, k ≠ row_key reg → k ≠ metaFloor → kv_abs d !! k = kv_abs (db a) !! k) as Hk.
  { intros k H1' H2'. rewrite Ed. apply lookup_apply_ops_ne. destruct raise; simpl; set_solver. }
  assert (kv_abs d !! row_key reg = None) as Hreg.
  { rewrite Ed. destruct raise; simpl; [rewrite lookup_insert_ne by key_ne|]; apply lookup_delete_eq. }
  assert (db a' = d) as Edb by (unfold a', a1; by destruct raise).
  assert (same_role a a') as Hrole by (unfold a', a1; destruct raise; done).
  assert (floor a' = if raise then b else floor a) as Hfl by (unfold a', a1; by destruct raise).
  destruct Hrole as (E1 & E2 & E3 & E4 & E5 & E6). split; [|split; [done|split; [done|]]].
  - split; rewrite ?Edb, ?E1, ?E2, ?E3, ?E4, ?E5, ?E6; try rewrite Hk by key_ne; auto.
    + intros reg' b' Hb'. destruct (decide (reg' = reg)) as [->|Hne]; [congruence|].
      rewrite Hk in Hb'; [by apply (R reg')| |key_ne]. intros E%row_key_inj. congruence.
    + rewrite Hfl, Ed. destruct raise; simpl.
      * by rewrite lookup_insert_eq, (proj2 (IsZero_false b) Hb).
      * rewrite lookup_delete_ne by key_ne. done.
    + rewrite Hfl. by destruct raise.
  - unfold stored. rewrite Edb, Hreg. split; [done|]. intros reg' Hne. rewrite Hk; [done| |key_ne].
    intros E%row_key_inj. congruence.
Qed.

Lemma purge_spec a m a' rep :
  acceptor_ok a → purge a m = (a', rep) →
  acceptor_ok a' ∧ plain_reply rep ∧ same_role a a' ∧
  (acc_equiv a a' ∨
   ∃ b r, good_ballot (m_Ballot m) = Some b ∧ purged a (m_Reg m) b r a').
Proof.
  intros Hok. unfold purge.
  assert (∀ rep, plain_reply rep → acceptor_ok a ∧ plain_reply rep ∧ same_role a a ∧
    (acc_equiv a a ∨ ∃ b r, good_ballot (m_Ballot m) = Some b ∧ purged a (m_Reg m) b r a)) as Hkeep.
  { intros rep' Hrep. split; [done|]. split; [done|]. split; [done|]. left. reflexivity. }
  destruct (good_ballot (m_Ballot m)) as [b|] eqn:Eb; [|intros [= <- <-]; apply Hkeep; refused].
  destruct (readRow a (m_Reg m)) as [e|[r found]] eqn:Ew; [intros [= <- <-]; apply Hkeep; refused|].
  destruct (readRow_ok _ _ _ _ Hok Ew) as (_ & Hs & Hr).
  destruct found; simpl; [|intros [= <- <-]; apply Hkeep; refused].
  case_bool_decide as Hacc; [intros [= <- <-]; apply Hkeep; refused|].
  assert (parse_ballot (Accepted r) = b) as Hab.
  { apply (cmp_eq_iff Compare). by destruct (decide (Compare (parse_ballot (Accepted r)) b = Eq)). }
  destruct (good_ballot_Some _ _ Eb) as (_ & Hb0 & Hbu). clear Hkeep.
  destruct (kv_commit _ _) as [e' d] eqn:Ec.
  apply kv_commit_cases in Ec as [[-> Ed]|[[e'' ->] Ed]]; last first.
  { intros [= <- <-]. assert (acc_equiv a (a <| db := d |>)) as He by (split; done).
    split; [by rewrite <- He|]. split; [refused|]. split; [done|]. by left. }
  destruct (bool_decide (Compare (parse_ballot (Promised r)) b = Eq)) eqn:Egone.
  - apply bool_decide_eq_true, (cmp_eq_iff Compare) in Egone. rewrite andb_true_l. intros [= <- <-].
    destruct (purge_drop a (m_Reg m) b d Hok Hb0 Hbu Ed) as (H1' & H2' & H3' & H4' & H5').
    split; [done|]. split; [refused|]. split; [done|]. right. exists b, r. split; [done|].
    unfold purged. auto 10.
  - apply bool_decide_eq_false in Egone. simpl in Ed |- *. intros [= <- <-].
    assert (row_update a (m_Reg m) (MkRow (Promised r) [] [] false) (a <| db := d |>)) as Hu.
    { split; [done|]. simpl. rewrite Ed. by destruct r. }
    split; [eapply row_update_ok; [done| |exact Hu]; apply ballot0_le|].
    split; [refused|]. split; [done|]. right. exists b, r. split; [done|]. split; [done|].
    split; [done|]. split; [intros reg' Hne; rewrite (stored_update _ _ _ _ _ Hu); by case_decide|].
    right. split; [|split; [|done]].
    + apply (cmp_nle_lt Compare). intros Hle. unfold row_ok in Hr. rewrite Hab in Hr.
      apply Egone, (cmp_eq_iff Compare). by apply (cmp_le_antisym Compare).
    + rewrite (stored_update _ _ _ _ _ Hu). by case_decide.
Qed.

(** The row [cur] after merging the seed row [sr] of a higher accepted ballot. *)
Definition seeded (cur : row) (sr : ScanRow) : row :=
  MkRow (if bool_decide (Compare (parse_ballot (sr_Accepted sr)) (parse_ballot (Promised cur)) = Gt)
         then sr_Accepted sr else Promised cur)
    (sr_Accepted sr) (sr_Value sr) (sr_HasValue sr).

(** A seed is taken where its accepted ballot is above the stored one. *)
Definition seed_taken a (sr : ScanRow) : Prop :=
  blt (cur_accepted a (sr_Reg sr)) (parse_ballot (sr_Accepted sr)).

Lemma seed_ops_spec a rows ops :
  acceptor_ok a → seed_ops a rows = inr ops →
  ∀ o, o ∈ ops ↔
    ∃ sr, sr ∈ rows ∧ seed_taken a sr ∧
      o = kv_Set (row_key (sr_Reg sr)) (marshal (seeded (cur_row a (sr_Reg sr)) sr)).
Proof.
  intros Hok. revert ops. induction rows as [|sr rows IH]; intros ops; cbn [seed_ops].
  { intros [= <-]. set_solver. }
  destruct (readRow a (sr_Reg sr)) as [e|[cur found]] eqn:Er; [done|].
  destruct (readRow_ok _ _ _ _ Hok Er) as (Hcur & _ & _).
  destruct (IsZero _ || bool_decide _) eqn:Eskip.
  - intros Hops o. rewrite (IH ops Hops o). unfold seed_taken, cur_accepted. split.
    + intros (sr' & ? & ?). exists sr'. split; [by right|done].
    + intros (sr' & Hsr & Ht & Ho). exists sr'. split; [|done].
      apply elem_of_cons in Hsr as [->|]; [exfalso|done].
      rewrite <- Hcur in Ht. apply orb_true_iff in Eskip as [Ez|Ec].
      * apply IsZero_spec in Ez. rewrite Ez in Ht. by apply not_lt_ballot0 in Ht.
      * apply bool_decide_eq_true in Ec. by apply (cmp_gt_lt Compare) in Ht.
  - apply orb_false_iff in Eskip as [Ez Ec%bool_decide_eq_false].
    destruct (seed_ops a rows) as [|ops'] eqn:Eo; [done|]. intros [= <-] o.
    assert (blt (parse_ballot (Accepted cur)) (parse_ballot (sr_Accepted sr))) as Hlt.
    { apply (cmp_gt_lt Compare).
      by destruct (decide (Compare (parse_ballot (sr_Accepted sr)) (parse_ballot (Accepted cur)) = Gt)). }
    rewrite elem_of_cons, (IH ops' eq_refl o). unfold seed_taken, cur_accepted. split.
    + intros [->|(sr' & ? & ?)]; [|exists sr'; split; [by right|done]].
      exists sr. split; [by left|]. rewrite <- Hcur. split; [done|]. do 2 f_equal. unfold seeded.
      destruct cur. simpl. by case_bool_decide.
    + intros (sr' & Hsr & Ht & ->). apply elem_of_cons in Hsr as [->|Hsr]; [left|right; eauto].
      rewrite <- Hcur. do 2 f_equal. unfold seeded. destruct cur. simpl. by case_bool_decide.
Qed.

(** The rows after a seed: merged by highest accepted ballot. *)
Definition seeded_by a (rows : list ScanRow) a' : Prop :=
  ∀ reg,
    (stored a' reg = stored a reg ∧ ∀ sr, sr ∈ rows → sr_Reg sr = reg → ¬ seed_taken a sr) ∨
    (∃ sr, sr ∈ rows ∧ sr_Reg sr = reg ∧ seed_taken a sr ∧
       stored a' reg = Some (seeded (cur_row a reg) sr)).

Lemma seeded_ok cur sr : row_ok (seeded cur sr).
Proof.
  unfold row_ok, seeded. simpl. case_bool_decide as Hc; [reflexivity|]. by unfold cmp_le.
Qed.

Lemma seed_spec a m a' rep :
  acceptor_ok a → seed a m = (a', rep) →
  acceptor_ok a' ∧ plain_reply rep ∧ same_role a a' ∧ floor a' = floor a ∧
  (acc_equiv a a' ∨ seeded_by a (m_Rows m) a').
Proof.
  intros Hok. unfold seed. destruct (seed_ops a (m_Rows m)) as [e|ops] eqn:Eo.
  { intros [= <- <-]. split; [done|]. split; [refused|]. split; [done|]. split; [done|]. left. reflexivity. }
  pose proof (seed_ops_spec a (m_Rows m) ops Hok Eo) as Hops.
  destruct (kv_commit _ _) as [e' d] eqn:Ec.
  apply kv_commit_cases in Ec as [[-> Ed]|[[e'' ->] Ed]]; intros [= <- <-]; last first.
  { assert (acc_equiv a (a <| db := d |>)) as He by (split; done).
    split; [by rewrite <- He|]. split; [refused|]. split; [done|]. split; [done|]. by left. }
  assert (∀ k, (kv_abs d !! k = kv_abs (db a) !! k ∧ k ∉ op_key <$> ops) ∨
    (∃ sr, sr ∈ m_Rows m ∧ seed_taken a sr ∧ k = row_key (sr_Reg sr) ∧
       kv_abs d !! k = Some (marshal (seeded (cur_row a (sr_Reg sr)) sr)))) as Hk.
  { intros k. rewrite Ed. destruct (lookup_apply_sets (kv_abs (db a)) ops k) as [?|(v & Hv & E)].
    - intros o (sr & _ & _ & ->)%Hops. eauto.
    - by left.
    - right. apply Hops in Hv as (sr & ? & ? & [= -> ->]). eauto. }
  assert (∀ k, k ∈ [metaFloor; metaMarker; metaView; metaRetired] → kv_abs d !! k = kv_abs (db a) !! k) as Hm.
  { intros k Hin. destruct (Hk k) as [[? _]|(sr & _ & _ & -> & _)]; [done|].
    by destruct (row_key_not_meta (sr_Reg sr) _ Hin). }
  destruct Hok as [R V M M0 F FU Re].
  split; [|split; [refused|split; [done|split; [done|right]]]].
  - split; simpl; rewrite ?Hm by set_solver; auto.
    intros reg b Hb. destruct (Hk (row_key reg)) as [[E _]|(sr & _ & _ & _ & E)]; rewrite E in Hb.
    + by apply (R reg).
    + injection Hb as <-. eexists. split; [apply unmarshal_marshal|apply seeded_ok].
  - intros reg. unfold stored. simpl. destruct (Hk (row_key reg)) as [[-> Hn]|(sr & ? & ? & Hreg & ->)].
    + left. split; [done|]. intros sr Hsr <- Ht. apply Hn, list_elem_of_fmap.
      eexists. split; [|apply Hops; eauto]. done.
    + right. apply row_key_inj in Hreg as ->. exists sr. by rewrite unmarshal_marshal.
Qed.

(** ** The acceptor as a state machine *)

(** What one request may do, and what is answered. *)
Inductive acc_step (now : Z) (m : Msg) a : Acceptor → Msg → Prop :=
  | step_plain a' rep : acc_equiv a a' → plain_reply rep → acc_step now m a a' rep
  | step_read :
      serving a m → m_Type m = TRead → retired a = false → amnesiacLocked a = false →
      acc_step now m a a (stamp_reply a (read_reply (cur_row a (m_Reg m))))
  | step_promise b a' :
      serving a m → m_Type m = TPrepare → good_ballot (m_Ballot m) = Some b →
      retired a = false → amnesiacLocked a = false → blt (cur_promised a (m_Reg m)) b →
      row_update a (m_Reg m) (cur_row a (m_Reg m) <| Promised := Bytes b |>) a' →
      acc_step now m a a' (stamp_reply a (promise_reply (cur_row a (m_Reg m))))
  | step_accept b a' :
      serving a m → m_Type m = TAccept → good_ballot (m_Ballot m) = Some b →
      retired a = false → (m_NotAfter m = 0 ∨ now ≤ m_NotAfter m)%Z →
      ble (cur_promised a (m_Reg m)) b →
      row_update a (m_Reg m) (MkRow (Bytes b) (Bytes b) (m_Value m) (m_HasValue m)) a' →
      acc_step now m a a' (stamp_reply a (msg0 <| m_Type := TAccepted |>))
  | step_install v a' rep :
      m_Type m = TInstall → Decode (m_View m) = inr v → m_Type rep = TInstalled →
      (acc_equiv a a' ∧ keeps_installed a v = true ∨
       keeps_installed a v = false ∧ installed_as a v a') →
      acc_step now m a a' rep
  | step_marker a' rep :
      m_Type m = TMarker → plain_reply rep →
      a' = a <| db := db a' |> <| a_marker := m_Since m |> <| hasMarker := true |> <| retired := false |> →
      (∀ reg, stored a' reg = stored a reg) → acc_step now m a a' rep
  | step_purge b r a' rep :
      m_Type m = TPurge → plain_reply rep → good_ballot (m_Ballot m) = Some b → same_role a a' →
      purged a (m_Reg m) b r a' → acc_step now m a a' rep
  | step_seed a' rep :
      m_Type m = TSeed → plain_reply rep → same_role a a' → floor a' = floor a →
      seeded_by a (m_Rows m) a' → acc_step now m a a' rep.

Lemma stamp_type a rep : m_Type (stamp_reply a rep) = m_Type rep.
Proof. unfold stamp_reply. by destruct (installed a). Qed.

Lemma plain_stamp a rep : plain_reply rep → plain_reply (stamp_reply a rep).
Proof. unfold plain_reply. by rewrite stamp_type. Qed.

Lemma stamp_same a a' rep : installed a' = installed a → stamp_reply a' rep = stamp_reply a rep.
Proof. unfold stamp_reply. by intros ->. Qed.

Lemma View_Compare_Eq v i e : View_Compare v i e = Eq ↔ Incarnation v = i ∧ Epoch v = e.
Proof.
  unfold View_Compare. destruct (N.eqb_spec (Incarnation v) i); simpl; [|destruct (N.ltb _ _); naive_solver].
  destruct (N.eqb_spec (Epoch v) e); simpl; [done|]. destruct (N.ltb _ _); naive_solver.
Qed.

Lemma handle_gated_step now a m a' rep ev :
  acceptor_ok a → handle_gated now a m = (a', rep, ev) →
  acceptor_ok a' ∧ acc_step now m a a' (stamp_reply a' rep).
Proof.
  intros Hok. unfold handle_gated.
  destruct (installed a) as [inst|] eqn:Ei.
  2: { intros [= <- <- <-]. split; [done|]. apply step_plain; [done|]. apply plain_stamp, plain_ErrMsg. }
  destruct (View_Compare inst _ _) eqn:Ec.
  2,3: intros [= <- <- <-]; split; [done|]; apply step_plain; [done|]; apply plain_stamp; refused.
  assert (serving a m) as Hs by (apply View_Compare_Eq in Ec as []; exists inst; done).
  destruct (Z.eqb_spec (m_Type m) TPrepare).
  { intros Hp. destruct (prepare_spec _ _ _ _ _ Hok Hp) as [[He Hr]|(b & ?&?&?&?& Hu & ->)].
    - split; [by rewrite <- He|]. apply step_plain; [done|by apply plain_stamp].
    - split.
      + eapply row_update_ok; [done| |done]. unfold row_ok. simpl.
        destruct (good_ballot_Some _ _ ltac:(eassumption)) as (_ & _ & Hbu). rewrite parse_ballot_Bytes by done.
        eapply (cmp_le_transitive Compare); [by apply cur_accepted_le|eauto with dstore].
      + rewrite (stamp_same a a') by apply (row_update_fields _ _ _ _ Hu). by eapply step_promise. }
  destruct (Z.eqb_spec (m_Type m) TAccept).
  { destruct (accept now a m) as [a1 rep1] eqn:Ea. intros [= <- <- <-].
    destruct (accept_spec _ _ _ _ _ Hok Ea) as [[He Hr]|(b & ?&?&?&?& Hu & ->)].
    - split; [by rewrite <- He|]. apply step_plain; [done|by apply plain_stamp].
    - split; [eapply row_update_ok; [done| |done]; unfold row_ok; simpl; reflexivity|].
      rewrite (stamp_same a a1) by apply (row_update_fields _ _ _ _ Hu). by eapply step_accept. }
  destruct (Z.eqb_spec (m_Type m) TRead).
  { destruct (read a m) as [rep1 ev1] eqn:Er. intros [= <- <- <-]. split; [done|].
    destruct (read_spec _ _ _ _ Hok Er) as [Hr|(? & ? & ->)]; [|by apply step_read].
    apply step_plain; [done|by apply plain_stamp]. }
  destruct (m_Type m =? TScan)%Z.
  { destruct (scan a m) as [rep1 ev1] eqn:Er. intros [= <- <- <-]. split; [done|].
    apply step_plain; [done|]. by eapply plain_stamp, scan_plain. }
  intros [= <- <- <-]. split; [done|]. apply step_plain; [done|]. apply plain_stamp, plain_ErrMsg.
Qed.

Lemma handle_step now a m a' rep ev :
  acceptor_ok a → handle now a m = (a', rep, ev) →
  acceptor_ok a' ∧ acc_step now m a a' (stamp_reply a' rep).
Proof.
  intros Hok. unfold handle.
  destruct (Z.eqb_spec (m_Type m) TInstall).
  { destruct (Decode (m_View m)) as [e1|v] eqn:Ed.
    { intros [= <- <- <-]. split; [done|]. apply step_plain; [done|]. apply plain_stamp, plain_ErrMsg. }
    destruct (Install a v) as [[e2 a1] ev1] eqn:Ei.
    destruct (Install_spec _ _ _ _ _ Hok Ei) as [Hok1 Hi].
    destruct e2; intros [= <- <- <-]; (split; [done|]).
    - destruct Hi as [(He & _)|(? & _)]; [|done]. apply step_plain; [done|]. apply plain_stamp, plain_ErrMsg.
    - apply step_install with v; [done..| |].
      + by rewrite stamp_type.
      + destruct Hi as [(He & _ & Hk)|(_ & ? & _ & ?)]; auto. }
  destruct (Z.eqb_spec (m_Type m) TMarker).
  { destruct (SetMarker a (m_Since m)) as [e1 a1] eqn:Em.
    destruct (SetMarker_spec _ _ _ _ Hok Em) as [Hok1 [[[e2 ->] He]|(-> & ? & ?)]]; intros [= <- <- <-]; (split; [done|]).
    - apply step_plain; [done|]. apply plain_stamp, plain_ErrMsg.
    - apply step_marker; auto. apply plain_stamp. refused. }
  destruct (Z.eqb_spec (m_Type m) TSeed).
  { destruct (seed a m) as [a1 rep1] eqn:Es. intros [= <- <- <-].
    destruct (seed_spec _ _ _ _ Hok Es) as (? & ? & ? & ? & [?|?]); (split; [done|]).
    - apply step_plain; [done|by apply plain_stamp].
    - apply step_seed; auto. by apply plain_stamp. }
  destruct (Z.eqb_spec (m_Type m) TPurge).
  { destruct (purge a m) as [a1 rep1] eqn:Es. intros [= <- <- <-].
    destruct (purge_spec _ _ _ _ Hok Es) as (? & ? & ? & [?|(b & r & ? & ?)]); (split; [done|]).
    - apply step_plain; [done|by apply plain_stamp].
    - eapply step_purge; eauto. by apply plain_stamp. }
  by apply handle_gated_step.
Qed.

Lemma Handle_step now a m a' rep ev :
  acceptor_ok a → Handle now a m = (a', rep, ev) → acceptor_ok a' ∧ acc_step now m a a' rep.
Proof.
  intros Hok. unfold Handle. destruct (closed a).
  { intros [= <- <- <-]. split; [done|]. apply step_plain; [done|apply plain_ErrMsg]. }
  destruct (handle now a m) as [[a1 rep1] ev1] eqn:Eh. intros [= <- <- <-]. by eapply handle_step.
Qed.

(** ** Restarts *)

Inductive aop := OpHandle (now : Z) (m : Msg) | OpRestart.

(** A restart drops the memory and opens the database again. *)
Definition aop_step a (o : aop) : Acceptor * option Msg :=
  match o with
  | OpHandle now m => let '(a', rep, _) := Handle now a m in (a', Some rep)
  | OpRestart => (match OpenAcceptor (db a) (self a) with inl _ => a | inr a' => a' end, None)
  end.

Fixpoint run a (ops : list aop) : Acceptor * list Msg :=
  match ops with
  | [] => (a, [])
  | o :: ops' =>
      let '(a1, rep) := aop_step a o in
      let '(a2, reps) := run a1 ops' in
      (a2, match rep with Some r => r :: reps | None => reps end)
  end.

Definition is_handle (o : aop) : bool := match o with OpHandle _ _ => true | OpRestart => false end.

Lemma OpenAcceptor_reopens `{!Reliable DB} a :
  acceptor_ok a → OpenAcceptor (db a) (self a) = inr (a <| closed := false |>).
Proof.
  intros [R V M M0 F FU Re].
  assert (∀ k, get_meta (db a) k = kv_abs (db a) !! k) as Hg.
  { intros k. unfold get_meta. rewrite kv_get_total. by destruct (kv_abs (db a) !! k). }
  unfold OpenAcceptor. rewrite !Hg, V, M, F.
  assert (retired a = bool_decide (is_Some (kv_abs (db a) !! metaRetired))) as Er.
  { case_bool_decide as Hs; [by apply Re|]. apply not_true_is_false. by intros ?%Re. }
  destruct a as [s d c inst mk hm ret fl]; simpl in *. subst ret. clear Re.
  destruct inst as [v|]; simpl; rewrite ?Decode_Encode.
  all: destruct hm; rewrite ?unmarshal_marshal, ?M0 by done.
  all: destruct (IsZero fl) eqn:Ez; rewrite ?parse_ballot_Bytes by done; try (apply IsZero_spec in Ez as ->).
  all: by destruct (kv_abs d !! metaRetired).
Qed.

Lemma closed_stays now a m a' rep ev : Handle now a m = (a', rep, ev) → acceptor_ok a → closed a = false → closed a' = false.
Proof.
  intros Hh Hok Hc. destruct (Handle_step _ _ _ _ _ _ Hok Hh) as [_ Hs].
  destruct Hs as [a' rep He _| |b a' _ _ _ _ _ _ Hu|b a' _ _ _ _ _ _ Hu|v a' rep _ _ _ Hi|a' rep _ _ Ha|b r a' rep _ _ _ Hr|a' rep _ _ Hr].
  - by destruct (acc_equiv_fields _ _ He) as (_ & -> & _).
  - done.
  - by destruct (row_update_fields _ _ _ _ Hu) as (_ & -> & _).
  - by destruct (row_update_fields _ _ _ _ Hu) as (_ & -> & _).
  - destruct Hi as [[He _]|[_ Hi]]; [by destruct (acc_equiv_fields _ _ He) as (_ & -> & _)|].
    by destruct Hi as (_ & -> & _).
  - rewrite Ha. by destruct a.
  - by destruct Hr as (_ & -> & _).
  - by destruct Hr as (_ & -> & _).
Qed.

(** What a step does to the promise and to the accepted ballot of a register. *)
Lemma acc_step_promised now m a a' rep reg :
  acceptor_ok a → acc_step now m a a' rep → m_Type m ≠ TSeed → m_Type m ≠ TMarker → retired a' = false →
  retired a = false ∧ ble (cur_promised a reg) (cur_promised a' reg).
Proof.
  intros Hok Hs Hseed Hmark Hret.
  destruct Hs as [a' rep He _| |b a' _ _ Hb _ _ Hlt Hu|b a' _ _ Hb _ _ Hle Hu|v a' rep _ _ _ Hi|a' rep E _ Ha|b r a' rep _ _ Hb Hr Hp|a' rep E _ Hr];
    [| | | | |done| |done].
  - rewrite <- He. split; [|reflexivity]. by destruct (acc_equiv_fields _ _ He) as (_&_&_&_&_&<-&_).
  - split; [done|reflexivity].
  - destruct (row_update_fields _ _ _ _ Hu) as (_&_&_&_&_&E6&E7). split; [congruence|].
    unfold cur_promised at 2. rewrite (stored_update _ _ _ _ _ Hu). case_decide as Heq.
    + subst. simpl. rewrite parse_ballot_Bytes by apply (good_ballot_Some _ _ Hb). eauto with dstore.
    + rewrite E7. reflexivity.
  - destruct (row_update_fields _ _ _ _ Hu) as (_&_&_&_&_&E6&E7). split; [congruence|].
    unfold cur_promised at 2. rewrite (stored_update _ _ _ _ _ Hu). case_decide as Heq.
    + subst. simpl. by rewrite parse_ballot_Bytes by apply (good_ballot_Some _ _ Hb).
    + rewrite E7. reflexivity.
  - destruct Hi as [[He _]|[_ (_&_&_&_&_& Hi)]].
    + rewrite <- He. split; [|reflexivity]. by destruct (acc_equiv_fields _ _ He) as (_&_&_&_&_&<-&_).
    + destruct (retires a v); [destruct Hi as (? & _); congruence|]. destruct Hi as (E & Ef & Hst).
      split; [congruence|]. unfold cur_promised. rewrite Hst, Ef. reflexivity.
  - destruct Hr as (_&_&_&_&_&E6). split; [congruence|].
    destruct Hp as (Hst & Hacc & Hne & Hp). destruct (good_ballot_Some _ _ Hb) as (_ & _ & Hbu).
    assert (ble (floor a) (floor a')) as Hfl.
    { destruct Hp as [(_ & _ & ->)|(_ & _ & ->)]; [|reflexivity]. case_bool_decide as Hc; [|reflexivity].
      apply (cmp_lt_le Compare). by apply (cmp_gt_lt Compare). }
    destruct (decide (reg = m_Reg m)) as [->|Hn].
    + unfold cur_promised. rewrite Hst. destruct Hp as [(Ep & -> & ->)|(_ & -> & _)]; [|reflexivity].
      rewrite Ep. case_bool_decide as Hc; [reflexivity|]. exact Hc.
    + unfold cur_promised. rewrite Hne by done. destruct (stored a reg); [reflexivity|done].
Qed.

(** ** Scans *)

Lemma scan_loop_prefix limit l n size rows more :
  (∀ kv, kv ∈ l → ∃ r, unmarshal (A := row) kv.2 = inr r) →
  scan_loop limit l n size = (rows, more) →
  ∃ l1 l2, l = l1 ++ l2 ∧ rows = decode_rows l1 ∧ (more = false ↔ l2 = []) ∧
    ((n < limit)%Z → (size < MaxPageBytes)%Z → l ≠ [] → l1 ≠ []).
Proof.
  revert n size rows more. induction l as [|[k v] l IH]; intros n size rows more Hdec; cbn [scan_loop].
  { intros [= <- <-]. by exists [], []. }
  destruct (_ || _) eqn:Estop.
  { intros [= <- <-]. exists [], ((k, v) :: l). split; [done|]. split; [done|]. split; [done|].
    apply orb_true_iff in Estop as [?|?]; lia. }
  destruct (Hdec (k, v)) as [r Hr]; [by left|]. simpl in Hr. rewrite Hr.
  destruct (scan_loop limit l _ _) as [rows' more'] eqn:E. intros [= <- <-].
  destruct (IH _ _ _ _ (λ kv Hkv, Hdec kv (list_elem_of_further _ _ _ Hkv)) E) as (l1 & l2 & -> & -> & Hm & _).
  exists ((k, v) :: l1), l2. split; [done|]. split; [unfold decode_rows; simpl; by rewrite Hr|].
  split; [done|]. by intros.
Qed.

(** The rows a scan is asked for: those of its range, after its cursor. *)
Definition scan_rows a (m : Msg) : list ScanRow :=
  decode_rows (range_of (kv_abs (db a)) (scan_lower m) (scan_upper m)).

(** Row keys are the keys from "r/" up to "r0". *)
Definition rows_end : bytes := of_string "r0".

Lemma row_key_range k : bytes_le rowPrefix k → bytes_lt k rows_end → ∃ reg, k = row_key reg.
Proof.
  intros H1' H2'. unfold cmp_le, cmp_lt, rows_end, rowPrefix, of_string in H1', H2'. simpl in H1', H2'.
  destruct k as [|b0 [|b1 k]]; [done|..].
  - revert H1' H2'. clear. intros H1 H2. exfalso. destruct b0; vm_compute in H1, H2; congruence.
  - exists k. unfold row_key, rowPrefix, of_string. simpl. revert H1' H2'. clear.
    intros H1 H2. simpl in H1, H2.
    destruct b0; vm_compute in H1; try congruence; vm_compute in H2; try congruence.
    destruct b1; try reflexivity; vm_compute in H1; try congruence;
      destruct k; vm_compute in H2; congruence.
Qed.

Lemma range_decodes a lo hi :
  acceptor_ok a → bytes_le rowPrefix lo → bytes_le hi rows_end →
  ∀ kv, kv ∈ range_of (kv_abs (db a)) lo hi → ∃ reg r, kv.1 = row_key reg ∧ unmarshal (A := row) kv.2 = inr r.
Proof.
  intros Hok Hlo Hhi [k v] [Hk [Hkl Hku]]%elem_of_range. simpl.
  destruct (row_key_range k) as [reg ->].
  - by eapply (cmp_le_transitive bytes_compare).
  - by eapply (cmp_lt_le_trans bytes_compare).
  - destruct (ok_rows a Hok reg v Hk) as (r & Hr & _). eauto.
Qed.

Lemma rowPrefix_le x : bytes_le rowPrefix (rowPrefix ++ x).
Proof.
  unfold cmp_le. rewrite <- (app_nil_r rowPrefix) at 1. rewrite bytes_compare_app_same. by destruct x.
Qed.

Lemma scan_lower_le m : bytes_le rowPrefix (scan_lower m).
Proof. unfold scan_lower. destruct (0 <? _)%nat; apply rowPrefix_le. Qed.

Lemma scan_upper_le m : bytes_le (scan_upper m) rows_end.
Proof. unfold scan_upper. case_bool_decide; by vm_compute. Qed.

Lemma decode_rows_app (l1 l2 : list (bytes * bytes)) :
  decode_rows (l1 ++ l2) = decode_rows l1 ++ decode_rows l2.
Proof. unfold decode_rows. apply omap_app. Qed.

(** One page: the rows asked for up to a cut, and a cursor that continues after
    it.  A register of the empty name would make the cursor start over. *)
Lemma scan_page a m rep ev l :
  acceptor_ok a → refuseIfForgetful a = (None, []) → stored a [] = None →
  kv_iter (db a) (scan_lower m) (scan_upper m) = inr l → scan a m = (rep, ev) →
  m_Type rep = TScanReply ∧
  scan_rows a m =
    m_Rows rep ++ (if m_More rep then scan_rows a (m <| m_After := m_Next rep |>) else []) ∧
  (m_More rep = true → m_Rows rep ≠ []).
Proof.
  intros Hok Href Hempty Hi. unfold scan. rewrite Href, Hi. pose proof (kv_iter_ok _ _ _ _ Hi) as Hl.
  pose proof (range_decodes a _ _ Hok (scan_lower_le m) (scan_upper_le m)) as Hdec. rewrite <- Hl in Hdec.
  destruct (scan_loop (scan_limit m) l 0 0) as [rows more] eqn:El.
  destruct (scan_loop_prefix _ _ _ _ _ _ (λ kv Hkv,
    let '(ex_intro _ _ (ex_intro _ r (conj _ Hr))) := Hdec kv Hkv in ex_intro _ r Hr) El)
    as (l1 & l2 & Hsplit & -> & Hmore & Hne).
  assert (l2 ≠ [] → l1 ≠ []) as Hne1.
  { intros H2' ->. apply Hne; [|done|rewrite Hsplit; exact H2'|done].
    unfold scan_limit. destruct (_ || _)%Z eqn:E; [lia|]. apply orb_false_iff in E as []. lia. }
  unfold scan_rows. rewrite <- Hl. destruct l1 as [|[k v] l1 _] using rev_ind.
  { simpl. intros [= <- <-]. simpl. split; [done|]. destruct l2; [|by destruct Hne1].
    rewrite (proj2 Hmore eq_refl). by rewrite Hsplit. }
  destruct (Hdec (k, v)) as (reg & r & Hk & Hr); [rewrite Hsplit; set_solver|]. simpl in Hk, Hr. subst k.
  assert (decode_rows (l1 ++ [(row_key reg, v)]) = decode_rows l1 ++ [scan_row reg r]) as Erows.
  { rewrite decode_rows_app. f_equal. unfold decode_rows. simpl. rewrite Hr. done. }
  rewrite Erows, last_snoc. intros [= <- <-]. simpl.
  split; [done|]. split; [|intros _ E; by apply app_nil in E as [_ ?]].
  rewrite Hsplit, decode_rows_app, Erows. f_equal. destruct more.
  - f_equal. assert (reg ≠ []) as Hreg.
    { intros ->. unfold stored in Hempty. assert ((row_key [], v) ∈ l) as Hin by (rewrite Hsplit; apply elem_of_app; left; apply elem_of_app; right; left).
      rewrite Hl in Hin. apply elem_of_range in Hin as [Hin _]. by rewrite Hin, Hr in Hempty. }
    rewrite Hsplit, <- app_assoc in Hl. symmetry in Hl. simpl in Hl. apply range_split in Hl.
    unfold scan_lower, scan_upper in *. simpl. destruct reg; [done|]. simpl.
    by rewrite <- Hl.
  - by rewrite (proj1 Hmore eq_refl).
Qed.

(** Reading page after page, each from the cursor of the one before. *)
Fixpoint scan_pages (fuel : nat) a (m : Msg) : list ScanRow :=
  match fuel with
  | O => []
  | S fuel =>
      let rep := fst (scan a m) in
      m_Rows rep ++ (if m_More rep then scan_pages fuel a (m <| m_After := m_Next rep |>) else [])
  end.

Lemma scan_pages_all `{!Reliable DB} fuel a m :
  acceptor_ok a → refuseIfForgetful a = (None, []) → stored a [] = None →
  (length (scan_rows a m) < fuel)%nat → scan_pages fuel a m = scan_rows a m.
Proof.
  intros Hok Href Hempty. revert m. induction fuel as [|fuel IH]; intros m Hf; [lia|]. cbn [scan_pages].
  destruct (scan a m) as [rep ev] eqn:Es. cbn [fst].
  destruct (scan_page a m rep ev _ Hok Href Hempty (kv_iter_total _ _ _) Es) as (_ & E & Hne).
  rewrite E. f_equal. destruct (m_More rep); [|done]. apply IH.
  rewrite E, length_app in Hf. destruct (m_Rows rep); [by destruct Hne|]. simpl in Hf. lia.
Qed.

Lemma elem_of_scan_rows a m sr :
  acceptor_ok a →
  sr ∈ scan_rows a m ↔
  ∃ reg r, sr = scan_row reg r ∧ stored a reg = Some r ∧
    in_range (scan_lower m) (scan_upper m) (row_key reg).
Proof.
  intros Hok. unfold scan_rows, decode_rows. rewrite list_elem_of_omap. split.
  - intros ([k v] & Hin & Hsr).
    destruct (range_decodes a _ _ Hok (scan_lower_le m) (scan_upper_le m) _ Hin) as (reg & r & Hk & Hr).
    simpl in Hk, Hr. subst k. rewrite Hr in Hsr. injection Hsr as <-. exists reg, r.
    apply elem_of_range in Hin as [Hin ?]. split; [done|]. split; [|done].
    unfold stored. by rewrite Hin, Hr.
  - intros (reg & r & -> & Hst & Hrange). unfold stored in Hst.
    destruct (kv_abs (db a) !! row_key reg) as [v|] eqn:E; [|done].
    destruct (unmarshal v) as [|r'] eqn:Er; [done|]. injection Hst as ->.
    exists (row_key reg, v). split; [by apply elem_of_range|]. by rewrite Er.
Qed.

Lemma scan_rows_sorted a m :
  acceptor_ok a → StronglySorted (λ x y : ScanRow, bytes_lt (sr_Reg x) (sr_Reg y)) (scan_rows a m).
Proof.
  intros Hok. unfold scan_rows.
  pose proof (range_decodes a _ _ Hok (scan_lower_le m) (scan_upper_le m)) as Hdec.
  pose proof (range_sorted (kv_abs (db a)) (scan_lower m) (scan_upper m)) as Hs.
  induction Hs as [|[k v] l Hs IH Hx]; [constructor|].
  destruct (Hdec (k, v)) as (reg & r & Hk & Hr); [by left|]. simpl in Hk, Hr. subst k.
  unfold decode_rows. cbn [omap list_omap]. rewrite Hr. constructor.
  - apply IH. intros kv Hkv. apply Hdec. by right.
  - apply Forall_forall. intros sr ([k' v'] & Hin & Hsr)%list_elem_of_omap.
    destruct (Hdec (k', v')) as (reg' & r' & Hk' & Hr'); [by right|]. simpl in Hk', Hr'. subst k'.
    rewrite Hr' in Hsr. injection Hsr as <-. rewrite Forall_forall in Hx. specialize (Hx _ Hin).
    simpl in Hx. unfold cmp_lt, row_key in Hx. rewrite bytes_compare_app_same in Hx. done.
Qed.

Lemma run_ok `{!Reliable DB} a ops : acceptor_ok a → acceptor_ok (run a ops).1.
Proof.
  revert a. induction ops as [|o ops IH]; intros a Hok; [done|]. cbn [run].
  destruct (aop_step a o) as [a1 rep] eqn:Eo. specialize (IH a1).
  destruct (run a1 ops) as [a2 reps]. apply IH. destruct o as [now m|]; simpl in Eo.
  - destruct (Handle now a m) as [[a' rep'] ev] eqn:Eh. injection Eo as <- _.
    by destruct (Handle_step _ _ _ _ _ _ Hok Eh).
  - rewrite (OpenAcceptor_reopens a Hok) in Eo. injection Eo as <- _. by destruct Hok; split.
Qed.
End spec.

(** * What the acceptor promises *)

Section promises.
Context {DB : Type} `{KVStore DB} `{Codec row} `{Codec marker} `{Codec View}.
Implicit Types a : Acceptor DB.

(** C32 [Handle] implements the acceptor's step relation on every message, every
    clock and every database failure: it promises only above what it is bound
    to and reports the row it had; accepts only at or above it, before the
    deadline and unless retired; answers reads from the stored row; and every
    other answer leaves registers, promises and role as they were.  Rows stay
    decodable with accepted ≤ promised, and memory stays what the database
    holds. *)
Theorem Handle_refines (now : Z) a (m : Msg) a' rep ev :
  acceptor_ok a → Handle now a m = (a', rep, ev) →
  acceptor_ok a' ∧ acc_step now m a a' rep.
Proof. apply Handle_step. Qed.

(** Promises bind for good: over any sequence of requests and restarts, as
    long as no rows are seeded into the acceptor and it has not retired, the
    ballot it is bound to on a register never decreases, purges included. *)
Theorem promises_bind `{!Reliable DB} a (ops : list aop) (reg : bytes) :
  acceptor_ok a →
  Forall (λ o, match o with OpHandle _ m => m_Type m ≠ TSeed ∧ m_Type m ≠ TMarker | OpRestart => True end) ops →
  retired (run a ops).1 = false →
  ble (cur_promised a reg) (cur_promised (run a ops).1 reg).
Proof.
  intros Hok Hops Hret.
  enough (retired a = false ∧ ble (cur_promised a reg) (cur_promised (run a ops).1 reg)) by naive_solver.
  revert a Hok Hret. induction Hops as [|o ops Ho Hops IH]; intros a Hok; cbn [run].
  { intros. split; [done|reflexivity]. }
  destruct (aop_step a o) as [a1 rep] eqn:Eo. specialize (IH a1).
  destruct (run a1 ops) as [a2 reps]. cbn [fst] in *. intros Hret.
  destruct o as [now m|]; simpl in Eo.
  - destruct (Handle now a m) as [[a' rep'] ev] eqn:Eh. injection Eo as <- _.
    destruct (Handle_step _ _ _ _ _ _ Hok Eh) as [Hok' Hs]. destruct (IH Hok' Hret) as [Hr' Hle].
    destruct (acc_step_promised _ _ _ _ _ reg Hok Hs (proj1 Ho) (proj2 Ho) Hr') as [? Hle'].
    split; [done|]. by eapply (cmp_le_transitive Compare).
  - rewrite (OpenAcceptor_reopens a Hok) in Eo. injection Eo as <- _.
    destruct IH as [Hr Hle]; [by destruct Hok; split|done|]. split; [by destruct a|]. by destruct a.
Qed.

(** C33 Restarts are invisible: whatever crashes are interleaved with the requests,
    the acceptor ends in the same state and has given the same answers as
    without them, so nothing it answered can be forgotten.  The database does not
    fail. *)
Theorem restarts_invisible `{!Reliable DB} a (ops : list aop) :
  acceptor_ok a → closed a = false →
  run a ops = run a (filter (λ o, is_handle o = true) ops).
Proof.
  revert a. induction ops as [|o ops IH]; intros a Hok Hc; [done|].
  destruct o as [now m|].
  - rewrite filter_cons_True by done. cbn [run aop_step].
    destruct (Handle now a m) as [[a1 rep] ev] eqn:Eh.
    rewrite IH; [done| |by eapply closed_stays]. by destruct (Handle_step _ _ _ _ _ _ Hok Eh).
  - rewrite filter_cons_False by done. cbn [run aop_step]. rewrite (OpenAcceptor_reopens a Hok).
    replace (a <| closed := false |>) with a by (destruct a; simpl in *; by subst).
    rewrite IH by done. by destruct (run a (filter _ ops)).
Qed.

(** Requests that must not be served are refused and change nothing: without a
    view or at a newer epoch than its own the acceptor asks for the view; at an
    older one it answers its view; retired it serves nothing; amnesiac it neither
    promises nor answers reads or scans. *)
Theorem Handle_refuses (now : Z) a (m : Msg) :
  closed a = false → m_Type m ∈ [TPrepare; TAccept; TRead; TScan] →
  let '(a', rep, _) := Handle now a m in
  (installed a = None → a' = a ∧ m_Type rep = TErr ∧ m_Code rep = CodeNeedView) ∧
  (∀ v, installed a = Some v →
    (View_Compare v (m_Incarnation m) (m_Epoch m) = Lt →
      a' = a ∧ m_Type rep = TErr ∧ m_Code rep = CodeNeedView) ∧
    (View_Compare v (m_Incarnation m) (m_Epoch m) = Gt →
      a' = a ∧ m_Type rep = TErr ∧ m_Code rep = CodeStaleView ∧ Decode (m_View rep) = inr v) ∧
    (View_Compare v (m_Incarnation m) (m_Epoch m) = Eq →
      (retired a = true → a' = a ∧ m_Type rep = TErr ∧ m_Code rep = CodeRetired) ∧
      (retired a = false → amnesiacLocked a = true → m_Type m ≠ TAccept →
        a' = a ∧ m_Type rep = TErr ∧ m_Code rep = CodeAmnesiac))).
Proof.
  intros Hc Ht. unfold Handle. rewrite Hc. unfold handle.
  assert (m_Type m ≠ TInstall ∧ m_Type m ≠ TMarker ∧ m_Type m ≠ TSeed ∧ m_Type m ≠ TPurge) as (H1'&H2'&H3'&H4').
  { repeat (apply elem_of_cons in Ht as [->|Ht]; [by vm_compute|]). by apply elem_of_nil in Ht. }
  rewrite (proj2 (Z.eqb_neq _ _) H1'), (proj2 (Z.eqb_neq _ _) H2'), (proj2 (Z.eqb_neq _ _) H3'), (proj2 (Z.eqb_neq _ _) H4').
  unfold handle_gated. destruct (installed a) as [v|] eqn:Ei.
  2: { unfold stamp_reply. rewrite Ei. done. }
  destruct (View_Compare v (m_Incarnation m) (m_Epoch m)) eqn:Ec.
  2,3: unfold stamp_reply; rewrite Ei; split; [done|]; intros v' [= <-]; rewrite Ec;
       (split; [done|]); split; [|done]; intros; simpl; rewrite ?Decode_Encode; done.
  destruct (if (m_Type m =? TPrepare)%Z then _ else _) as [[a' rep] ev] eqn:E.
  split; [done|]. intros v' [= <-]. rewrite Ec. split; [done|]. split; [done|]. intros _.
  unfold prepare, accept, read, scan, refuseIfForgetful in E. split.
  - intros Hr. rewrite Hr in E.
    repeat (apply elem_of_cons in Ht as [Hm|Ht]; [rewrite Hm in E; simpl in E; injection E as <- <- _;
      unfold stamp_reply; rewrite Ei; done|]). by apply elem_of_nil in Ht.
  - intros Hr Ha Hna. rewrite Hr, Ha in E.
    repeat (apply elem_of_cons in Ht as [Hm|Ht]; [rewrite Hm in E, Hna; (done || simpl in E; injection E as <- <- _;
      unfold stamp_reply; rewrite Ei; done)|]). by apply elem_of_nil in Ht.
Qed.

(** Paging through a scan returns every register of the asked range exactly
    once, in register order: what the pages concatenate to is the sorted list of
    the stored rows in range. *)
Theorem scan_complete `{!Reliable DB} a (m : Msg) (fuel : nat) :
  acceptor_ok a → retired a = false → amnesiacLocked a = false → stored a [] = None →
  (length (scan_rows a m) < fuel)%nat →
  scan_pages fuel a m = scan_rows a m ∧
  StronglySorted (λ x y : ScanRow, bytes_lt (sr_Reg x) (sr_Reg y)) (scan_rows a m) ∧
  (∀ sr, sr ∈ scan_rows a m ↔ ∃ reg r, sr = scan_row reg r ∧ stored a reg = Some r ∧
     in_range (scan_lower m) (scan_upper m) (row_key reg)).
Proof.
  intros Hok Hr Ha He Hf. split.
  - apply scan_pages_all; auto. unfold refuseIfForgetful. by rewrite Hr, Ha.
  - split; [by apply scan_rows_sorted|]. intros sr. by apply elem_of_scan_rows.
Qed.
End promises.

(** ** A worked acceptor, for the examples *)

Definition toy_db : Type := gmap bytes bytes.

Definition toy_open : Acceptor toy_db := MkAcceptor (toy_id x01) ∅ false None 0 false false ballot0.

Lemma toy_open_ok : acceptor_ok toy_open.
Proof.
  split; try done. split; [|done]. intros [x Hx]. by vm_compute in Hx.
Qed.

Definition toy_req (t : Z) : Msg := msg0 <| m_Type := t |> <| m_Incarnation := 1%N |> <| m_Epoch := 1%N |>.
Definition toy_ballot (c : N) : Ballot := MkBallot c (toy_id x09).

(** Made a voter, then one register prepared and accepted. *)
Definition toy_ops : list aop :=
  [OpHandle 0 (toy_req TMarker <| m_Since := 1%N |>);
   OpHandle 0 (toy_req TInstall <| m_View := Encode (toy_view [x01; x02; x03] [] 2 None) |>);
   OpHandle 0 (toy_req TPrepare <| m_Reg := [x61] |> <| m_Ballot := Bytes (toy_ballot 5) |>);
   OpHandle 0 (toy_req TAccept <| m_Reg := [x61] |> <| m_Ballot := Bytes (toy_ballot 5) |>
                 <| m_Value := [x2a] |> <| m_HasValue := true |>)].

Definition toy_acceptor : Acceptor toy_db := (run toy_open toy_ops).1.

Lemma toy_acceptor_ok : acceptor_ok toy_acceptor.
Proof. apply run_ok, toy_open_ok. Qed.

Example toy_answers : m_Type <$> (run toy_open toy_ops).2 = [TOK; TInstalled; TPromise; TAccepted].
Proof. computes. Qed.

Lemma Handle_refines_witness :
  let m := toy_req TPrepare <| m_Reg := [x62] |> <| m_Ballot := Bytes (toy_ballot 6) |> in
  let '(a', rep, _) := Handle 0 toy_acceptor m in acceptor_ok a' ∧ acc_step 0 m toy_acceptor a' rep.
Proof.
  intros m. destruct (Handle 0 toy_acceptor m) as [[a' rep] ev] eqn:E.
  apply (Handle_refines 0 toy_acceptor m a' rep ev); [apply toy_acceptor_ok|exact E].
Defined.

Lemma promises_bind_witness :
  let ops := [OpRestart; OpHandle 0 (toy_req TPurge <| m_Reg := [x61] |> <| m_Ballot := Bytes (toy_ballot 5) |>)] in
  ble (cur_promised toy_acceptor [x61]) (cur_promised (run toy_acceptor ops).1 [x61]).
Proof.
  intros ops. apply (promises_bind toy_acceptor ops [x61]).
  - apply toy_acceptor_ok.
  - repeat constructor; by vm_compute.
  - vm_compute. reflexivity.
Defined.

Lemma restarts_invisible_witness :
  run toy_open (OpRestart :: toy_ops) = run toy_open (filter (λ o, is_handle o = true) (OpRestart :: toy_ops)).
Proof. apply (restarts_invisible toy_open (OpRestart :: toy_ops)); [apply toy_open_ok|reflexivity]. Defined.

Lemma Handle_refuses_witness :
  let '(a', rep, _) := Handle 0 toy_open (toy_req TPrepare) in m_Type rep = TErr ∧ m_Code rep = CodeNeedView.
Proof.
  apply (proj1 (Handle_refuses 0 toy_open (toy_req TPrepare) eq_refl ltac:(left)) eq_refl).
Defined.

Lemma scan_complete_witness :
  scan_pages 2 toy_acceptor (toy_req TScan) = scan_rows toy_acceptor (toy_req TScan).
Proof.
  apply (scan_complete toy_acceptor (toy_req TScan) 2); [apply toy_acceptor_ok|vm_compute; reflexivity..|].
  vm_compute. lia.
Defined.

(** A seed ignores the purge floor: after a tombstone purged at counter 9, a
    seeded row of counter 7 brings the acceptor back under its floor on that
    register, and an accept at counter 8 below the floor goes through. *)
Theorem seed_below_floor :
  let reg := [x61] in
  let accept_at c := toy_req TAccept <| m_Reg := reg |> <| m_Ballot := Bytes (toy_ballot c) |> in
  let purge9 := toy_req TPurge <| m_Reg := reg |> <| m_Ballot := Bytes (toy_ballot 9) |> in
  let seed7 := toy_req TSeed <| m_Rows := [MkScanRow reg [] (Bytes (toy_ballot 7)) [x2a] true] |> in
  let before := (run toy_acceptor [OpHandle 0 (accept_at 9%N); OpHandle 0 purge9]).1 in
  let '(after, reps) := run before [OpHandle 0 (accept_at 8%N); OpHandle 0 seed7; OpHandle 0 (accept_at 8%N)] in
  cur_promised before reg = toy_ballot 9 ∧ (m_Type <$> reps) = [TConflict; TOK; TAccepted] ∧
  cur_promised after reg = toy_ballot 8.
Proof. vm_compute. done. Qed.

(** The gate and the row are two critical sections: an accept that passed the gate at
    epoch 1 still writes its row when the view of epoch 2 is installed in between, while
    an accept that comes after the install is refused as stale. *)
Theorem accept_past_gate :
  let m := toy_req TAccept <| m_Reg := [x61] |> <| m_Ballot := Bytes (toy_ballot 6) |> <| m_Value := [x2b] |> <| m_HasValue := true |> in
  let install := toy_req TInstall <| m_View := Encode (toy_view [x01; x02; x03] [] 2 None <| Epoch := 2%N |>) |> in
  let '(newer, rep, _) := Handle 0 toy_acceptor install in
  m_Type rep = TInstalled ∧ m_Type (accept 0 newer m).2 = TAccepted ∧ cur_promised (accept 0 newer m).1 [x61] = toy_ballot 6 ∧
  m_Code (Handle 0 newer m).1.2 = CodeStaleView.
Proof. vm_compute. done. Qed.
