(* ===== verification/Proposer.v ===== *)
(** The CASPaxos proposer (src/paxos/proposer.go): rounds against the voters of
    the current view, fast reads, identity transitions and majority scans.

    The proposer's surroundings (transport, view source, ballot counters, clock
    and context) are the class [World]: its operations transform a state [E] that
    stands for everything outside the proposer.  A broadcast runs its calls one
    after the other in an order the world chooses; the acceptors answer each call
    atomically, so the replies and effects of the parallel calls are those of one
    such order. *)
From stdpp Require Import pretty.
From S2P Require Import Prelude Store Placement View Wire Ballot.

(** * Data *)

(** The decided (or best known) state of a register. *)
Record Row := MkRow_ { row_Accepted : Ballot; row_Value : bytes; row_HasValue : bool }.

Definition Row0 : Row := MkRow_ ballot0 [] false.

#[global] Instance Row_eq_dec : EqDecision Row.
Proof. solve_decision. Defined.

(** A committed proposal. *)
Record Result := MkResult { res_Ballot : Ballot; res_Value : bytes; res_HasValue : bool }.

Definition Result0 : Result := MkResult ballot0 [] false.

Record Config := MkConfig { AcceptorTimeout : Z; MaxInFlight : Z }.

Record VoterStats := MkVoterStats { Calls : N; Failures : N; P99 : Z; samples : list Z }.

Definition VoterStats0 : VoterStats := MkVoterStats 0 0 0 [].

(** The errors of a round; [X] is what a change function fails with. *)
Inductive perr (X : Type) :=
  | EStale (v : View)                       (* staleError *)
  | EConflict (b : Ballot)                  (* conflictError *)
  | EExpired                                (* ErrExpired *)
  | EUnavailable (cause : option (perr X))  (* ErrUnavailable, wrapping the first error *)
  | EUnknown (accepted quorum : nat)        (* ErrUnknown *)
  | ERemote (e : Error)                     (* a TErr reply *)
  | EText (s : string)                      (* other errors *)
  | ECtx (s : string)                       (* ctx.Err() *)
  | EFn (e : X).                            (* the change function's error *)
Arguments EStale {X}. Arguments EConflict {X}. Arguments EExpired {X}. Arguments EUnavailable {X}.
Arguments EUnknown {X}. Arguments ERemote {X}. Arguments EText {X}. Arguments ECtx {X}. Arguments EFn {X}.

(** One acceptor's answer to a round. *)
Record reply := MkReply { rp_id : NodeID; rp_res : string + Msg }.

(** * The proposer's surroundings *)

Class World (E : Type) := {
  Call : E → NodeID → Msg → E * Z * (string + Msg);  (* Transport.Call, with its duration *)
  CurView : E → option View;                         (* Views.View *)
  Adopt : E → View → E;                              (* Views.Adopt *)
  NextBallot : E → E * (string + N);                 (* Ballots.NextBallot *)
  BumpBallot : E → N → E * option string;            (* the optional BumpBallot, which a node has *)
  ctxErr : E → option string;                        (* ctx.Err() *)
  Sleep : E → Z → E * option string;                 (* time.After(d), or ctx.Done() first *)
  randN : E → Z → E * Z;                             (* rand.Int64N *)
  arrival : E → list NodeID → list NodeID;           (* the order replies arrive in *)
  Now : E → Z;                                       (* time.Now().UnixNano() *)
}.

Section proposer.
Context {E : Type} `{World E} `{Codec View} {X C : Type} (self : NodeID) (cfg : Config).
Notation perr := (perr X).

(** The world and the proposer's own counters. *)
Record St := MkSt { env : E; inflight : gmap NodeID Z; stats : gmap NodeID VoterStats }.

#[global] Instance St_eta : Eta St := λ r, MkSt (r.(env)) (r.(inflight)) (r.(stats)).

(** ** Statistics *)

Definition record_call (s : St) (id : NodeID) (d : Z) (failed : bool) : St :=
  let st := default VoterStats0 (stats s !! id) in
  let smp := samples st ++ [d] in
  let smp := if (512 <? length smp)%nat then drop (length smp - 256) smp else smp in
  s <| stats := <[id := MkVoterStats (u64 (Calls st + 1))
        (if failed then u64 (Failures st + 1) else Failures st) (P99 st) smp]> (stats s) |>.

Definition Stats (s : St) : gmap NodeID VoterStats :=
  (λ st,
    let n := length (samples st) in
    let p99 :=
      if bool_decide (n = 0%nat) then P99 st
      else nth (n * 99 / 100) (sort_by (λ a b, (a <? b)%Z) (samples st)) 0%Z in
    MkVoterStats (Calls st) (Failures st) p99 []) <$> stats s.

(** ** Calls *)

Definition stamp (v : View) (m : Msg) : Msg :=
  m <| m_ClusterID := ClusterID v |> <| m_Incarnation := Incarnation v |> <| m_Epoch := Epoch v |>.

Definition install_req (v : View) : Msg :=
  stamp v (msg0 <| m_Type := TInstall |> <| m_View := Encode v |>).

Definition tr_call (s : St) (id : NodeID) (req : Msg) : St * Z * (string + Msg) :=
  let '(e, d, r) := Call (env s) id req in (s <| env := e |>, d, r).

(** The attempts of [call]: the second one follows an install of the view. *)
Definition call_body (s : St) (v : View) (id : NodeID) (req : Msg) : St * (string + Msg) :=
  let attempt s k :=
    let '(s, d, r) := tr_call s id req in
    let s := record_call s id d (match r with inl _ => true | inr _ => false end) in
    match r with
    | inl e => (s, inl e)
    | inr resp => k s resp
    end in
  attempt s (λ s resp,
    if ((m_Type resp =? TErr)%Z && bool_decide (m_Code resp = CodeNeedView)) then
      let '(s, _, ri) := tr_call s id (install_req v) in
      match ri with
      | inl e => (s, inl e)
      | inr _ => attempt s (λ s resp, (s, inr resp))
      end
    else (s, inr resp)).

Definition inflight_of (s : St) (id : NodeID) : Z := default 0%Z (inflight s !! id).

Definition call (s : St) (v : View) (id : NodeID) (req : Msg) : St * (string + Msg) :=
  if (MaxInFlight cfg <=? inflight_of s id)%Z then (s, inl "paxos: acceptor in-flight cap reached"%string)
  else
    let s := s <| inflight := <[id := (inflight_of s id + 1)%Z]> (inflight s) |> in
    let '(s, r) := call_body s v id req in
    (s <| inflight := <[id := (inflight_of s id - 1)%Z]> (inflight s) |>, r).

(** All voters are asked; the replies in arrival order. *)
Fixpoint broadcast_to (s : St) (v : View) (req : Msg) (ids : list NodeID) : St * list reply :=
  match ids with
  | [] => (s, [])
  | id :: ids =>
      let '(s, r) := call s v id req in
      let '(s, rs) := broadcast_to s v req ids in
      (s, MkReply id r :: rs)
  end.

Definition broadcast (s : St) (v : View) (req : Msg) : St * list reply :=
  broadcast_to s v req (arrival (env s) (VoterIDs v)).

(** ** Rounds *)

Definition classify (v : View) (r : reply) : perr + Msg :=
  match rp_res r with
  | inl e => inl (EText e)
  | inr m =>
      if (m_Type m =? TErr)%Z then
        if bool_decide (m_Code m = CodeStaleView) then
          match Decode (m_View m) with
          | inl e => inl (EText e)
          | inr nv => inl (EStale nv)
          end
        else if bool_decide (m_Code m = CodeExpired) then inl EExpired
        else inl (ERemote (ErrorFromMsg m))
      else if negb (m_Incarnation m =? Incarnation v)%N || negb (m_Epoch m =? Epoch v)%N then
        inl (EText ("paxos: reply at epoch " +:+ pretty (m_Incarnation m) +:+ "/" +:+ pretty (m_Epoch m) +:+
          ", round at " +:+ pretty (Incarnation v) +:+ "/" +:+ pretty (Epoch v)))
      else if (m_Type m =? TConflict)%Z then inl (EConflict (parse_ballot (m_Ballot m)))
      else inr m
  end.

Definition row_of (m : Msg) : Row := MkRow_ (parse_ballot (m_Accepted m)) (m_Value m) (m_HasValue m).

Definition or_first (first : option perr) (e : perr) : option perr :=
  match first with Some _ => first | None => Some e end.

(** The loop of [prepare]: [best] and [promises] so far. *)
Fixpoint prepare_loop (v : View) (rs : list reply) (best : Row) (promises : nat)
    (first : option perr) : perr + Row :=
  match rs with
  | [] => inl (EUnavailable first)
  | r :: rs =>
      match classify v r with
      | inl (EStale nv) => inl (EStale nv)
      | inl (EConflict b) => inl (EConflict b)
      | inl e => prepare_loop v rs best promises (or_first first e)
      | inr m =>
          if negb (m_Type m =? TPromise)%Z then prepare_loop v rs best promises first
          else
            let best :=
              if bool_decide (promises = 0%nat) ||
                 bool_decide (Compare (parse_ballot (m_Accepted m)) (row_Accepted best) = Gt)
              then row_of m else best in
            let promises := S promises in
            if (Quorum v <=? promises)%nat then inr best
            else prepare_loop v rs best promises first
      end
  end.

Definition prepare_req (v : View) (reg : bytes) (b : Ballot) : Msg :=
  stamp v (msg0 <| m_Type := TPrepare |> <| m_Reg := reg |> <| m_Ballot := Bytes b |>).

Definition prepare (s : St) (v : View) (reg : bytes) (b : Ballot) : St * (perr + Row) :=
  let '(s, rs) := broadcast s v (prepare_req v reg b) in
  (s, prepare_loop v rs Row0 0 None).

Fixpoint accept_loop (v : View) (rs : list reply) (accepted : nat) (first : option perr) : option perr :=
  match rs with
  | [] => Some (if (0 <? accepted)%nat then EUnknown accepted (Quorum v) else EUnavailable first)
  | r :: rs =>
      match classify v r with
      | inl (EStale nv) => Some (EStale nv)
      | inl (EConflict b) => Some (EConflict b)
      | inl EExpired => Some EExpired
      | inl e => accept_loop v rs accepted (or_first first e)
      | inr m =>
          if (m_Type m =? TAccepted)%Z then
            if (Quorum v <=? S accepted)%nat then None else accept_loop v rs (S accepted) first
          else accept_loop v rs accepted first
      end
  end.

Definition accept_req (v : View) (reg : bytes) (b : Ballot) (value : bytes) (hasValue : bool)
    (notAfter : Z) : Msg :=
  stamp v (msg0 <| m_Type := TAccept |> <| m_Reg := reg |> <| m_Ballot := Bytes b |>
             <| m_Value := value |> <| m_HasValue := hasValue |> <| m_NotAfter := notAfter |>).

(** [None]: a quorum accepted. *)
Definition accept (s : St) (v : View) (reg : bytes) (b : Ballot) (value : bytes) (hasValue : bool)
    (notAfter : Z) : St * option perr :=
  let '(s, rs) := broadcast s v (accept_req v reg b value hasValue notAfter) in
  (s, accept_loop v rs 0 None).

(** ** Ballots *)

Definition nextBallot (s : St) : St * (perr + Ballot) :=
  let '(e, r) := NextBallot (env s) in
  (s <| env := e |>, match r with inl err => inl (EText err) | inr c => inr (MkBallot c self) end).

(** [None]: out of fuel.  Two turns are enough when the counter obeys its
    contract ([ballotAbove_total] of Cluster.v). *)
Fixpoint ballotAbove (fuel : nat) (s : St) (b : Ballot) : option (St * (perr + Ballot)) :=
  match fuel with
  | O => None
  | S fuel =>
      match nextBallot s with
      | (s, inl e) => Some (s, inl e)
      | (s, inr nb) =>
          if bool_decide (Compare nb b = Gt) then Some (s, inr nb)
          else if (Counter nb <=? Counter b)%N then
            let '(e, err) := BumpBallot (env s) (Counter b) in
            let s := s <| env := e |> in
            match err with
            | Some err => Some (s, inl (EText err))
            | None => ballotAbove fuel s b
            end
          else ballotAbove fuel s b
      end
  end.

Definition ballot_fuel : nat := 2.

(** ** Proposals *)

(** A change function is a Go closure: it may read the clock and assign the
    variables it captures, of type [C]. *)
Definition ChangeFunc : Type := Z → C → Row → Ballot → C * (X + bytes * bool).

Definition Identity : ChangeFunc := λ _ c cur _, (c, inr (row_Value cur, row_HasValue cur)).

Definition ms : Z := 1000000.

(** Retry ([inl], with the new [last] and [backoff]) or fail ([inr]). *)
Definition handleRoundError (s : St) (err : perr) (last : Ballot) (backoff : Z) :
    St * (Ballot * Z + perr) :=
  match err with
  | EStale v => (s <| env := Adopt (env s) v |>, inl (last, backoff))
  | EConflict b =>
      let last := if bool_decide (Compare b last = Gt) then b else last in
      let '(e, r) := randN (env s) backoff in
      let '(e, c) := Sleep e (r + backoff / 2)%Z in
      let s := s <| env := e |> in
      match c with
      | Some err => (s, inr (ECtx err))
      | None => (s, inl (last, if (backoff <? 500 * ms)%Z then (backoff * 2)%Z else backoff))
      end
  | _ => (s, inr err)
  end.

(** The attempts of [Propose]; [None] is running out of fuel. *)
Fixpoint propose_loop (fuel : nat) (s : St) (c : C) (reg : bytes) (fn : ChangeFunc) (notAfter : Z)
    (last : Ballot) (backoff : Z) : option (St * C * Result * option perr) :=
  match fuel with
  | O => None
  | S fuel =>
      let again s c r :=
        match r with
        | inl (last, backoff) => propose_loop fuel s c reg fn notAfter last backoff
        | inr err => Some (s, c, Result0, Some err)
        end in
      match ctxErr (env s) with
      | Some err => Some (s, c, Result0, Some (ECtx err))
      | None =>
      match CurView (env s) with
      | None => Some (s, c, Result0, Some (EText "paxos: no view"))
      | Some v =>
      match ballotAbove ballot_fuel s last with
      | None => None
      | Some (s, inl err) => Some (s, c, Result0, Some err)
      | Some (s, inr b) =>
      match prepare s v reg b with
      | (s, inl err) => let '(s, r) := handleRoundError s err last backoff in again s c r
      | (s, inr cur) =>
          match fn (Now (env s)) c cur b with
          | (c, inl err) =>
              if IsZero (row_Accepted cur) && negb (row_HasValue cur) then Some (s, c, Result0, Some (EFn err))
              else
                let found := MkResult (row_Accepted cur) (row_Value cur) (row_HasValue cur) in
                match accept s v reg b (row_Value cur) (row_HasValue cur) 0 with
                | (s, None) => Some (s, c, found, Some (EFn err))
                | (s, Some aerr) =>
                    match handleRoundError s aerr last backoff with
                    | (s, inl lb) => again s c (inl lb)
                    | (s, inr err2) =>
                        match aerr with
                        | EUnknown _ _ => Some (s, c, found, Some (EFn err))
                        | _ => Some (s, c, Result0, Some err2)
                        end
                    end
                end
          | (c, inr (value, hasValue)) =>
              let res := MkResult b value hasValue in
              match accept s v reg b value hasValue notAfter with
              | (s, None) => Some (s, c, res, None)
              | (s, Some (EUnknown n q)) => Some (s, c, res, Some (EUnknown n q))
              | (s, Some err) => let '(s, r) := handleRoundError s err last backoff in again s c r
              end
          end
      end
      end
      end
      end
  end.

Definition Propose (fuel : nat) (s : St) (c : C) (reg : bytes) (fn : ChangeFunc) (notAfter : Z) :
    option (St * C * Result * option perr) :=
  propose_loop fuel s c reg fn notAfter ballot0 (5 * ms).
End proposer.

Section reads.
Context {E : Type} `{World E} `{Codec View} {X : Type} (self : NodeID) (cfg : Config).
Notation perr := (perr X).
Notation St := (St (E := E)).
Notation classify := (classify (X := X)).

Definition Settle (fuel : nat) (s : St) (reg : bytes) : option (St * (perr + Row)) :=
  '(s, _, res, err) ← Propose self cfg fuel s tt reg Identity 0;
  Some (s, match err with
           | Some err => inl err
           | None => inr (MkRow_ (res_Ballot res) (res_Value res) (res_HasValue res))
           end).

(** ** Reads *)

(** The loop of [Read]: [inl] a newer view, [inr] the rows of the replies, up to
    a quorum of them. *)
Fixpoint read_loop (v : View) (rs : list reply) (rows : list Row) : View + list Row :=
  match rs with
  | [] => inr rows
  | r :: rs =>
      match classify v r with
      | inl (EStale nv) => inl nv
      | inl _ => read_loop v rs rows
      | inr m =>
          if negb (m_Type m =? TReadReply)%Z then read_loop v rs rows
          else
            let rows := rows ++ [row_of m] in
            if (Quorum v <=? length rows)%nat then inr rows else read_loop v rs rows
      end
  end.

Definition read_req (v : View) (reg : bytes) : Msg :=
  stamp v (msg0 <| m_Type := TRead |> <| m_Reg := reg |>).

(** The row a majority agrees on. *)
Definition agreed (v : View) (rows : list Row) : option Row :=
  match rows with
  | [] => None
  | r0 :: rest =>
      if (length rows <? Quorum v)%nat then None
      else if forallb (λ r, bool_decide (Compare (row_Accepted r) (row_Accepted r0) = Eq)) rest
      then Some r0 else None
  end.

Fixpoint Read (fuel : nat) (s : St) (reg : bytes) : option (St * (perr + Row)) :=
  match fuel with
  | O => None
  | S fuel' =>
      match CurView (env s) with
      | None => Some (s, inl (EText "paxos: no view"))
      | Some v =>
          let '(s, rs) := broadcast cfg s v (read_req v reg) in
          match read_loop v rs [] with
          | inl nv => Read fuel' (s <| env := Adopt (env s) nv |>) reg
          | inr rows =>
              match agreed v rows with
              | Some r => Some (s, inr r)
              | None => Settle fuel s reg
              end
          end
      end
  end.

(** ** Scans *)

Record MergedRow := MkMergedRow { mr_Reg : bytes; mr_Row : Row; Undecided : bool }.

Record acc := MkAcc { acc_row : Row; acc_promised : Ballot; acc_count : nat; acc_disagree : bool; acc_stub : bool }.

(** [inl] a newer view, [inr] the scan replies. *)
Fixpoint scan_replies (v : View) (rs : list reply) : View + list Msg :=
  match rs with
  | [] => inr []
  | r :: rs =>
      match classify v r with
      | inl (EStale nv) => inl nv
      | inl _ => scan_replies v rs
      | inr m =>
          match scan_replies v rs with
          | inl nv => inl nv
          | inr ms => inr (if (m_Type m =? TScanReply)%Z then m :: ms else ms)
          end
      end
  end.

(** The smallest cursor among the replies that have more. *)
Definition scan_cut (ms : list Msg) : option bytes :=
  fold_left (λ cut m,
    if m_More m && (0 <? length (m_Next m))%nat &&
       match cut with None => true | Some c => bool_decide (bytes_lt (m_Next m) c) end
    then Some (m_Next m) else cut) ms None.

Definition merge_row (cut : option bytes) (merged : gmap bytes acc) (sr : ScanRow) : gmap bytes acc :=
  if match cut with Some c => bool_decide (bytes_lt c (sr_Reg sr)) | None => false end then merged
  else
    let accepted := parse_ballot (sr_Accepted sr) in
    let promised := parse_ballot (sr_Promised sr) in
    let row := MkRow_ accepted (sr_Value sr) (sr_HasValue sr) in
    let a :=
      match merged !! sr_Reg sr with
      | None => MkAcc row promised 0 false false
      | Some a =>
          MkAcc
            (if bool_decide (Compare accepted (row_Accepted (acc_row a)) = Gt) then row else acc_row a)
            (if bool_decide (Compare promised (acc_promised a) = Gt) then promised else acc_promised a)
            (acc_count a)
            (acc_disagree a || bool_decide (Compare accepted (row_Accepted (acc_row a)) ≠ Eq))
            (acc_stub a)
      end in
    <[sr_Reg sr := MkAcc (acc_row a) (acc_promised a) (S (acc_count a)) (acc_disagree a)
                     (acc_stub a || IsZero accepted)]> merged.

Definition merge_replies (cut : option bytes) (ms : list Msg) : gmap bytes acc :=
  fold_left (λ merged m, fold_left (merge_row cut) (m_Rows m) merged) ms ∅.

Definition undecided (n : nat) (a : acc) : bool :=
  acc_disagree a || (acc_count a <? n)%nat ||
  bool_decide (Compare (acc_promised a) (row_Accepted (acc_row a)) = Gt) || acc_stub a.

Definition merged_rows (ms : list Msg) (cut : option bytes) : list MergedRow :=
  sort_by (λ x y, bool_decide (bytes_lt (mr_Reg x) (mr_Reg y)))
    ((λ '(reg, a), MkMergedRow reg (acc_row a) (undecided (length ms) a)) <$>
       map_to_list (merge_replies cut ms)).

Definition scan_req (v : View) (prefix after : bytes) (limit : Z) : Msg :=
  stamp v (msg0 <| m_Type := TScan |> <| m_Prefix := prefix |> <| m_After := after |> <| m_Limit := limit |>).

(** The rows of one page and the cursor to continue from. *)
Fixpoint Scan (fuel : nat) (s : St) (prefix after : bytes) (limit : Z) :
    option (St * (perr + list MergedRow * option bytes)) :=
  match fuel with
  | O => None
  | S fuel =>
      match CurView (env s) with
      | None => Some (s, inl (EText "paxos: no view"))
      | Some v =>
          let '(s, rs) := broadcast cfg s v (scan_req v prefix after limit) in
          match scan_replies v rs with
          | inl nv => Scan fuel (s <| env := Adopt (env s) nv |>) prefix after limit
          | inr ms =>
              if (length ms <? Quorum v)%nat then Some (s, inl (EUnavailable None))
              else let cut := scan_cut ms in Some (s, inr (merged_rows ms cut, cut))
          end
      end
  end.

(** ** Purges, installs and full reads *)

Definition purge_req (v : View) (reg : bytes) (b : Ballot) : Msg :=
  stamp v (msg0 <| m_Type := TPurge |> <| m_Reg := reg |> <| m_Ballot := Bytes b |>).

(** How many voters confirmed. *)
Definition Purge (s : St) (reg : bytes) (b : Ballot) : St * nat :=
  match CurView (env s) with
  | None => (s, 0%nat)
  | Some v =>
      let '(s, rs) := broadcast cfg s v (purge_req v reg b) in
      (s, length (filter (λ r, match rp_res r with inr m => (m_Type m =? TOK)%Z | inl _ => false end = true) rs))
  end.

Fixpoint install_to (s : St) (v : View) (to : list NodeID) : St * list NodeID :=
  match to with
  | [] => (s, [])
  | id :: to =>
      let '(s, _, r) := tr_call s id (install_req v) in
      let '(s, ok) := install_to s v to in
      (s, match r with
          | inr m => if (m_Type m =? TInstalled)%Z then id :: ok else ok
          | inl _ => ok
          end)
  end.

Definition Install (s : St) (v : View) (to : list NodeID) : St * list NodeID :=
  install_to s v (arrival (env s) to).

Definition read_rows (v : View) (rs : list reply) : gmap NodeID Row :=
  fold_left (λ out r,
    match classify v r with
    | inr m => if (m_Type m =? TReadReply)%Z then <[rp_id r := row_of m]> out else out
    | inl _ => out
    end) rs ∅.

Definition ReadAll (s : St) (reg : bytes) : St * option (gmap NodeID Row) :=
  match CurView (env s) with
  | None => (s, None)
  | Some v => let '(s, rs) := broadcast cfg s v (read_req v reg) in (s, Some (read_rows v rs))
  end.
End reads.

(** * Facts about the loops *)

Section loops.
Context `{Codec View} {X : Type}.
Notation classify := (classify (X := X)).

(** The replies a loop counts: of type [t], at the round's epoch. *)
Definition counted (v : View) (t : Z) (r : reply) : Prop :=
  ∃ m, rp_res r = inr m ∧ classify v r = inr m ∧ m_Type m = t.

Lemma classify_inr v r m :
  classify v r = inr m →
  rp_res r = inr m ∧ m_Incarnation m = Incarnation v ∧ m_Epoch m = Epoch v ∧
  m_Type m ≠ TErr ∧ m_Type m ≠ TConflict.
Proof.
  unfold Proposer.classify. destruct (rp_res r) as [e|m']; [done|].
  destruct (Z.eqb_spec (m_Type m') TErr).
  { repeat case_bool_decide; try done. by destruct (Decode _). }
  destruct (N.eqb_spec (m_Incarnation m') (Incarnation v)); [|done].
  destruct (N.eqb_spec (m_Epoch m') (Epoch v)); [|done]. simpl.
  destruct (Z.eqb_spec (m_Type m') TConflict); [done|]. by intros [= <-].
Qed.

Lemma classify_ok v id m :
  m_Incarnation m = Incarnation v → m_Epoch m = Epoch v → m_Type m ≠ TErr → m_Type m ≠ TConflict →
  classify v (MkReply id (inr m)) = inr m.
Proof.
  intros E1 E2 E3%Z.eqb_neq E4%Z.eqb_neq. unfold Proposer.classify. simpl.
  by rewrite E3, E1, E2, !N.eqb_refl, E4.
Qed.

(** The accepted ballot a promise reports. *)
Definition reported (r : reply) : Ballot :=
  match rp_res r with inr m => parse_ballot (m_Accepted m) | inl _ => ballot0 end.

Definition reported_row (r : reply) : Row :=
  match rp_res r with inr m => row_of m | inl _ => Row0 end.

Lemma Quorum_pos v : (0 < Quorum v)%nat.
Proof. unfold Quorum. lia. Qed.

(** The invariant of the prepare loop over the promises [P] counted so far. *)
Definition best_of (P : list reply) (best : Row) : Prop :=
  P ≠ [] → (∃ p, p ∈ P ∧ best = reported_row p) ∧ ∀ p, p ∈ P → ble (reported p) (row_Accepted best).

Lemma best_of_snoc P best r m :
  rp_res r = inr m → best_of P best →
  best_of (P ++ [r])
    (if bool_decide (length P = 0%nat) ||
        bool_decide (Compare (parse_ballot (m_Accepted m)) (row_Accepted best) = Gt)
     then row_of m else best).
Proof.
  intros Hr Hb _. assert (reported_row r = row_of m) as Erow by (unfold reported_row; by rewrite Hr).
  assert (reported r = parse_ballot (m_Accepted m)) as Erep by (unfold reported; by rewrite Hr).
  case_bool_decide as H0; simpl.
  { destruct P; [|done]. split; [exists r; set_solver|].
    intros p ->%list_elem_of_singleton. rewrite Erep. reflexivity. }
  destruct Hb as [(p & Hp & ->) Hle]; [by destruct P|].
  case_bool_decide as Hc.
  - split; [exists r; set_solver|]. apply (cmp_gt_lt Compare) in Hc.
    intros q [Hq|Hq%list_elem_of_singleton]%elem_of_app; simpl.
    + apply (cmp_lt_le Compare). eapply (cmp_le_lt_trans Compare); [by apply Hle|done].
    + subst q. rewrite Erep. reflexivity.
  - split; [exists p; set_solver|].
    intros q [Hq|Hq%list_elem_of_singleton]%elem_of_app; [by apply Hle|]. subst q. by rewrite Erep.
Qed.

Lemma prepare_loop_inv v rs best n first (P : list reply) best' :
  best_of P best → length P = n → (n < Quorum v)%nat →
  (∀ p, p ∈ P → counted v TPromise p) →
  prepare_loop (X := X) v rs best n first = inr best' →
  ∃ P', P' `sublist_of` rs ∧ length (P ++ P') = Quorum v ∧
    (∀ p, p ∈ P' → counted v TPromise p) ∧ best_of (P ++ P') best'.
Proof.
  revert best n first P. induction rs as [|r rs IH]; intros best n first P Hb Hn Hq HP; cbn [prepare_loop]; [done|].
  destruct (classify v r) as [e|m] eqn:Ec.
  { destruct e; try done.
    all: intros (P' & Hs & ?)%(IH _ _ _ P); [|done..]; exists P'; split; [by apply sublist_skip || by constructor|done]. }
  destruct (Z.eqb_spec (m_Type m) TPromise) as [Et|Et]; simpl; last first.
  { intros (P' & Hs & ?)%(IH _ _ _ P); [|done..]. exists P'. split; [by constructor|done]. }
  pose proof (classify_inr _ _ _ Ec) as (Hr & _).
  assert (counted v TPromise r) as Hc by (exists m; done).
  pose proof (best_of_snoc P best r m Hr Hb) as Hb'. rewrite Hn in Hb'.
  destruct (Nat.leb_spec (Quorum v) (S n)).
  - intros [= <-]. exists [r]. split; [apply sublist_skip, sublist_nil_l|].
    split; [rewrite length_app; simpl; lia|]. split; [by intros p ->%list_elem_of_singleton|done].
  - intros (P' & Hs & Hl & HP' & Hb'')%(IH _ _ _ (P ++ [r])); [|done|rewrite length_app; simpl; lia|lia|set_solver].
    exists (r :: P'). split; [by apply sublist_skip|]. rewrite <- app_assoc in Hl, Hb''. split; [done|].
    split; [|done]. intros p [->|?]%elem_of_cons; auto.
Qed.

(** A successful prepare counted a quorum of promises and kept the highest row. *)
Lemma prepare_loop_quorum v rs best :
  prepare_loop (X := X) v rs Row0 0 None = inr best →
  ∃ P, P `sublist_of` rs ∧ length P = Quorum v ∧ (∀ p, p ∈ P → counted v TPromise p) ∧
    (∃ p, p ∈ P ∧ best = reported_row p) ∧ (∀ p, p ∈ P → ble (reported p) (row_Accepted best)).
Proof.
  intros (P & Hs & Hl & HP & Hb)%(prepare_loop_inv _ _ _ _ _ []); [|done|done|apply Quorum_pos|set_solver].
  simpl in Hl, Hb. destruct Hb as [? ?]; [|exists P; auto].
  intros ->. pose proof (Quorum_pos v). simpl in Hl. lia.
Qed.

(** A successful accept counted a quorum of accepted replies. *)
Lemma accept_loop_quorum v rs n first :
  (n < Quorum v)%nat → accept_loop (X := X) v rs n first = None →
  ∃ A, A `sublist_of` rs ∧ (length A + n = Quorum v)%nat ∧ ∀ r, r ∈ A → counted v TAccepted r.
Proof.
  revert n first. induction rs as [|r rs IH]; intros n first Hn; cbn [accept_loop]; [done|].
  destruct (classify v r) as [e|m] eqn:Ec.
  { destruct e; try done.
    all: intros (A & Hs & ?)%IH; [|done]; exists A; split; [by constructor|done]. }
  destruct (Z.eqb_spec (m_Type m) TAccepted) as [Et|Et]; last first.
  { intros (A & Hs & ?)%IH; [|done]. exists A. split; [by constructor|done]. }
  pose proof (classify_inr _ _ _ Ec) as (Hr & _).
  assert (counted v TAccepted r) as Hc by (exists m; done).
  destruct (Nat.leb_spec (Quorum v) (S n)).
  - intros _. exists [r]. split; [apply sublist_skip, sublist_nil_l|]. split; [simpl; lia|].
    by intros p ->%list_elem_of_singleton.
  - intros (A & Hs & Hl & HA)%IH; [|lia]. exists (r :: A). split; [by apply sublist_skip|].
    split; [simpl; lia|]. intros p [->|?]%elem_of_cons; auto.
Qed.

Lemma read_loop_rows v rs rows rows' :
  read_loop (X := X) v rs rows = inr rows' →
  ∃ R, R `sublist_of` rs ∧ rows' = rows ++ (reported_row <$> R) ∧ ∀ r, r ∈ R → counted v TReadReply r.
Proof.
  revert rows. induction rs as [|r rs IH]; intros rows; cbn [read_loop].
  { intros [= <-]. exists []. rewrite app_nil_r. set_solver. }
  destruct (classify v r) as [e|m] eqn:Ec.
  { destruct e; try done.
    all: intros (R & Hs & ?)%IH; exists R; split; [by constructor|done]. }
  destruct (Z.eqb_spec (m_Type m) TReadReply) as [Et|Et]; simpl; last first.
  { intros (R & Hs & ?)%IH. exists R. split; [by constructor|done]. }
  pose proof (classify_inr _ _ _ Ec) as (Hr & _).
  assert (counted v TReadReply r) as Hc by (exists m; done).
  assert (row_of m = reported_row r) as -> by (unfold reported_row; by rewrite Hr).
  destruct (Nat.leb_spec (Quorum v) (length (rows ++ [reported_row r]))).
  - intros [= <-]. exists [r]. split; [apply sublist_skip, sublist_nil_l|]. split; [done|].
    by intros p ->%list_elem_of_singleton.
  - intros (R & Hs & -> & HR)%IH. exists (r :: R). split; [by apply sublist_skip|].
    rewrite <- app_assoc. split; [done|]. intros p [->|?]%elem_of_cons; auto.
Qed.

(** A fast read agrees on one accepted ballot of a quorum of read replies. *)
Lemma agreed_quorum v rs rows r :
  read_loop (X := X) v rs [] = inr rows → agreed v rows = Some r →
  ∃ R, R `sublist_of` rs ∧ (Quorum v ≤ length R)%nat ∧ (∀ x, x ∈ R → counted v TReadReply x) ∧
    (∃ x, x ∈ R ∧ r = reported_row x) ∧ ∀ x, x ∈ R → reported x = row_Accepted r.
Proof.
  intros (R & Hs & -> & HR)%read_loop_rows. simpl. unfold agreed.
  destruct R as [|x R]; [done|]. rewrite fmap_cons. cbn [length].
  destruct (Nat.ltb_spec (S (length (reported_row <$> R))) (Quorum v)); [done|].
  destruct (forallb _ _) eqn:Ef; [|done]. intros [= <-].
  assert (∀ y, y ∈ x :: R → row_Accepted (reported_row y) = reported y) as Erep.
  { intros y _. unfold reported_row, reported. by destruct (rp_res y). }
  exists (x :: R). split; [done|]. rewrite length_fmap in *. split; [done|]. split; [done|].
  split; [exists x; set_solver|]. intros y [->|Hy]%elem_of_cons.
  - symmetry. apply Erep. by left.
  - rewrite forallb_forall in Ef. rewrite <- (Erep y) by by right.
    assert (In (reported_row y) (reported_row <$> R)) as Hin by by apply list_elem_of_In, list_elem_of_fmap_2.
    specialize (Ef _ Hin). by apply bool_decide_eq_true, (cmp_eq_iff Compare) in Ef.
Qed.
End loops.
