(* ===== verification/Meta.v ===== *)
(** A node's bookkeeping database (src/meta/meta.go) and the proposer counter a
    node keeps in it (src/node/node.go, NextBallot and BumpBallot). *)
From S2P Require Import Prelude Store Placement View Wire Ballot.
From S2P Require Proposer.

Section meta.
Context {DB : Type} `{KVStore DB}.

(** * The database *)

(** [ErrNotFound] or another error. *)
Inductive meta_err := MetaNotFound | MetaErr (e : string).

Definition Get (d : DB) (key : bytes) : meta_err + bytes :=
  match kv_get d key with
  | Found b => inr b
  | NotFound => inl MetaNotFound
  | GetErr e => inl (MetaErr e)
  end.

Definition Has (d : DB) (key : bytes) : bool :=
  match Get d key with inr _ => true | inl _ => false end.

(** A synced write.  [SetNoSync] differs only in durability. *)
Definition Set_key (d : DB) (key value : bytes) : option string * DB := kv_commit d [kv_Set key value].

Definition Delete (d : DB) (key : bytes) : option string * DB := kv_commit d [kv_Delete key].

Definition GetCBOR {A} `{Codec A} (d : DB) (key : bytes) : meta_err + A :=
  match Get d key with
  | inl e => inl e
  | inr b => match unmarshal b with inl e => inl (MetaErr e) | inr a => inr a end
  end.

Definition SetCBOR {A} `{Codec A} (d : DB) (key : bytes) (a : A) : option string * DB :=
  Set_key d key (marshal a).

(** 0 on an absent key, on a value of another length and on a read error. *)
Definition GetU64 (d : DB) (key : bytes) : N :=
  match Get d key with
  | inl _ => 0%N
  | inr b => if bool_decide (length b = 8%nat) then be_decode b else 0%N
  end.

Definition SetU64 (d : DB) (key : bytes) (v : N) : option string * DB := Set_key d key (be_encode 8 v).

Definition Increment (d : DB) (key : bytes) : (string + N) * DB :=
  let v := u64 (GetU64 d key + 1) in
  match SetU64 d key v with
  | (Some e, d) => (inl e, d)
  | (None, d) => (inr v, d)
  end.

Definition Raise (d : DB) (key : bytes) (v : N) : option string * DB :=
  if (v <=? GetU64 d key)%N then (None, d) else SetU64 d key v.

Definition scan_end (prefix : bytes) : bytes := prefix ++ [xff; xff; xff; xff].

(** The keys and values a scan visits while its callback says so. *)
Fixpoint visit {S} (fn : S → bytes → bytes → S * bool) (s : S) (l : list (bytes * bytes)) : S :=
  match l with
  | [] => s
  | (k, v) :: l' => let '(s', go) := fn s k v in if go : bool then visit fn s' l' else s'
  end.

Definition Scan {S} (d : DB) (prefix : bytes) (fn : S → bytes → bytes → S * bool) (s : S) : option string * S :=
  match kv_iter d prefix (scan_end prefix) with
  | inl e => (Some e, s)
  | inr l => (None, visit fn s l)
  end.

Definition Count (d : DB) (prefix : bytes) : nat := snd (Scan d prefix (λ n _ _, (S n, true)) 0%nat).

Definition DeletePrefix (d : DB) (prefix : bytes) : option string * DB :=
  let ops := snd (Scan d prefix (λ ops k _, (ops ++ [kv_Delete k], true)) []) in
  if bool_decide (length ops = 0%nat) then (None, d) else kv_commit d ops.

(** * The proposer counter *)

Definition mkBallot : bytes := of_string "ballot".
Definition ballotBlock : N := 1000.

(** The counter of a running node: the next number and the end of the block the
    database has handed out; both 0 after a start. *)
Record Counter_ := MkCounter { c_db : DB; ballotNext : N; ballotMax : N }.

#[global] Instance Counter_eta : Eta Counter_ := λ r, MkCounter (r.(c_db)) (r.(ballotNext)) (r.(ballotMax)).

Definition NextBallot (c : Counter_) : Counter_ * (string + N) :=
  let refill :=
    if (ballotNext c =? 0)%N || (ballotMax c <=? ballotNext c)%N then
      let cur := GetU64 (c_db c) mkBallot in
      let next := u64 (cur + ballotBlock) in
      match SetU64 (c_db c) mkBallot next with
      | (Some e, d) => (c <| c_db := d |>, Some e)
      | (None, d) => (MkCounter d (u64 (cur + 1)) next, None)
      end
    else (c, None) in
  match refill with
  | (c, Some e) => (c, inl e)
  | (c, None) => let b := ballotNext c in (c <| ballotNext := u64 (b + 1) |>, inr b)
  end.

Definition BumpBallot (c : Counter_) (n : N) : Counter_ * option string :=
  if (n <? ballotNext c)%N then (c, None)
  else
    let next := u64 (n + ballotBlock) in
    match SetU64 (c_db c) mkBallot next with
    | (Some e, d) => (c <| c_db := d |>, Some e)
    | (None, d) => (MkCounter d (u64 (n + 1)) next, None)
    end.

(** What happens to a node's counter over its life: calls, and restarts that
    keep only the database.  [BumpBallot] is called by [ballotAbove] on a counter
    that has handed out a number. *)
Inductive cop := CNext | CBump (n : N) | CRestart.

Definition cop_step (c : Counter_) (o : cop) : Counter_ * option N :=
  match o with
  | CNext => let '(c, r) := NextBallot c in (c, match r with inr n => Some n | inl _ => None end)
  | CBump n => if (ballotNext c =? 0)%N then (c, None) else (fst (BumpBallot c n), None)
  | CRestart => (MkCounter (c_db c) 0 0, None)
  end.

Fixpoint counter_run (c : Counter_) (ops : list cop) : Counter_ * list N :=
  match ops with
  | [] => (c, [])
  | o :: ops =>
      let '(c, r) := cop_step c o in
      let '(c, ns) := counter_run c ops in
      (c, match r with Some n => n :: ns | None => ns end)
  end.
End meta.

Arguments Counter_ : clear implicits.

(** * Facts *)

Section facts.
Context {DB : Type} `{KVStore DB} `{!Reliable DB}.

(** What the map stores as a counter. *)
Definition u64_at (m : gmap bytes bytes) (key : bytes) : N :=
  match m !! key with Some b => if bool_decide (length b = 8%nat) then be_decode b else 0%N | None => 0%N end.

Lemma GetU64_eq (d : DB) key : GetU64 d key = u64_at (kv_abs d) key.
Proof.
  unfold GetU64, Get, u64_at. rewrite kv_get_total. by destruct (kv_abs d !! key).
Qed.

Lemma SetU64_ok (d : DB) key n :
  ∃ d', SetU64 d key n = (None, d') ∧ kv_abs d' = <[key := be_encode 8 n]> (kv_abs d).
Proof.
  unfold SetU64, Set_key. pose proof (kv_commit_total d [kv_Set key (be_encode 8 n)]) as Ht.
  destruct (kv_commit d _) as [r d'] eqn:E. simpl in Ht. subst r. exists d'. split; [done|].
  by apply kv_commit_ok in E.
Qed.

Lemma u64_at_insert m key n : (n < u64_max)%N → u64_at (<[key := be_encode 8 n]> m) key = n.
Proof.
  intros Hn. unfold u64_at. rewrite lookup_insert_eq, length_be_encode, bool_decide_true by done.
  by apply be_decode_encode.
Qed.

(** The counter invariant: everything handed out is below [lo]; a running node
    hands out next at least [lo], inside the block the database has passed. *)
Definition counter_inv (c : Counter_ DB) (lo : N) : Prop :=
  (lo ≤ u64_at (kv_abs (c_db c)) mkBallot + 1)%N ∧
  (ballotNext c = 0%N ∨
   (0 < ballotNext c)%N ∧ (lo ≤ ballotNext c)%N ∧ (ballotMax c = u64_at (kv_abs (c_db c)) mkBallot)%N ∧
   (ballotNext c ≤ ballotMax c)%N ∧ (ballotMax c < ballotNext c + ballotBlock)%N).

(** The numbers in play stay clear of the end of the 64-bit range. *)
Definition room (c : Counter_ DB) (n : N) : Prop :=
  (u64_at (kv_abs (c_db c)) mkBallot + ballotBlock < n)%N.

Lemma NextBallot_spec (c : Counter_ DB) lo :
  counter_inv c lo → room c u64_max →
  ∃ c' n, NextBallot c = (c', inr n) ∧ (0 < n)%N ∧ (lo ≤ n)%N ∧ counter_inv c' (n + 1) ∧
    ballotNext c' = (n + 1)%N ∧
    (u64_at (kv_abs (c_db c')) mkBallot ≤ u64_at (kv_abs (c_db c)) mkBallot + ballotBlock)%N.
Proof.
  intros [Hlo Hrun] Hroom. unfold room, ballotBlock in Hroom. unfold NextBallot.
  destruct ((ballotNext c =? 0)%N || (ballotMax c <=? ballotNext c)%N) eqn:Er.
  - rewrite GetU64_eq. unfold ballotBlock.
    rewrite (u64_small (_ + 1000)), (u64_small (_ + 1)) by lia.
    destruct (SetU64_ok (c_db c) mkBallot (u64_at (kv_abs (c_db c)) mkBallot + 1000)) as (d' & -> & Ed).
    simpl. rewrite (u64_small (_ + 1 + 1)) by lia. eexists _, _. split; [done|].
    unfold counter_inv. simpl. rewrite Ed, u64_at_insert by lia. unfold ballotBlock. lia.
  - apply orb_false_iff in Er as [E0%N.eqb_neq Em%N.leb_gt].
    destruct Hrun as [?|(Hp & Hl & Hm & Hn & Hb)]; [done|].
    rewrite u64_small by lia. eexists _, _. split; [done|].
    unfold counter_inv. simpl. unfold ballotBlock in *. lia.
Qed.

Lemma BumpBallot_spec (c : Counter_ DB) lo n :
  counter_inv c lo → ballotNext c ≠ 0%N → (n + ballotBlock < u64_max)%N →
  ∃ c', BumpBallot c n = (c', None) ∧ counter_inv c' lo ∧ (n < ballotNext c')%N ∧
    (u64_at (kv_abs (c_db c)) mkBallot ≤ u64_at (kv_abs (c_db c')) mkBallot)%N ∧
    (u64_at (kv_abs (c_db c')) mkBallot ≤ u64_at (kv_abs (c_db c)) mkBallot `max` (n + ballotBlock))%N.
Proof.
  intros [Hlo Hrun] H0' Hn. unfold ballotBlock in *. destruct Hrun as [?|(Hp & Hl & Hm & Hn' & Hb)]; [done|].
  unfold BumpBallot, ballotBlock in *. destruct (N.ltb_spec n (ballotNext c)).
  - exists c. split; [done|]. split; [by split; auto 10|]. lia.
  - rewrite !u64_small by lia. destruct (SetU64_ok (c_db c) mkBallot (n + 1000)) as (d' & -> & Ed).
    eexists. split; [done|]. unfold counter_inv. simpl. rewrite Ed, u64_at_insert by lia.
    unfold ballotBlock. lia.
Qed.

(** How far the counter can get: each refill adds a block, each bump raises it to
    its argument plus a block. *)
Fixpoint ceiling (top : N) (ops : list cop) : N :=
  match ops with
  | [] => top
  | CNext :: ops => ceiling (top + ballotBlock) ops
  | CBump n :: ops => ceiling (top `max` (n + ballotBlock)) ops
  | CRestart :: ops => ceiling top ops
  end%N.

Lemma ceiling_ge top ops : (top ≤ ceiling top ops)%N.
Proof.
  revert top. induction ops as [|[|n|] ops IH]; intros top; simpl; [lia|..].
  - specialize (IH (top + ballotBlock)%N). lia.
  - specialize (IH (top `max` (n + ballotBlock))%N). lia.
  - apply IH.
Qed.

Lemma ceiling_mono t1 t2 ops : (t1 ≤ t2)%N → (ceiling t1 ops ≤ ceiling t2 ops)%N.
Proof. revert t1 t2. induction ops as [|[|n|] ops IH]; intros t1 t2 Ht; simpl; [lia|apply IH; lia..]. Qed.

End facts.

(** ** Writes that fail

    Only reads have to work: a failed write hands out nothing and leaves the database. *)

Section fallible.
Context {DB : Type} `{KVStore DB}.

Definition readable : Prop := ∀ (d : DB) k, kv_get d k = match kv_abs d !! k with Some v => Found v | None => NotFound end.

Context (reads : readable).

Lemma GetU64_readable (d : DB) key : GetU64 d key = u64_at (kv_abs d) key.
Proof. unfold GetU64, Get, u64_at. rewrite reads. by destruct (kv_abs d !! key). Qed.

Lemma SetU64_cases (d : DB) key n : ∃ d', (SetU64 d key n = (None, d') ∧ kv_abs d' = <[key := be_encode 8 n]> (kv_abs d)) ∨ ∃ e, SetU64 d key n = (Some e, d') ∧ kv_abs d' = kv_abs d.
Proof.
  unfold SetU64, Set_key. destruct (kv_commit d _) as [[e|] d'] eqn:E; exists d'; [right|left].
  - exists e. split; [done|]. by apply kv_commit_err in E.
  - split; [done|]. by apply kv_commit_ok in E.
Qed.

(** Where the database can be after a step. *)
Definition step_top (top : N) (o : cop) : N :=
  match o with CNext => top + ballotBlock | CBump n => top `max` (n + ballotBlock) | CRestart => top end%N.

Definition step_room (o : cop) : Prop := match o with CBump n => (n + ballotBlock < u64_max)%N | _ => True end.

Lemma cop_step_cases (c : Counter_ DB) lo o : counter_inv c lo → room c u64_max → step_room o → ∃ lo',
  (lo ≤ lo')%N ∧ counter_inv (cop_step c o).1 lo' ∧ (u64_at (kv_abs (c_db (cop_step c o).1)) mkBallot ≤ step_top (u64_at (kv_abs (c_db c)) mkBallot) o)%N ∧
  match (cop_step c o).2 with Some n => (0 < n)%N ∧ (lo ≤ n < lo')%N | None => True end.
Proof.
  intros Hi Hroom Ho. pose proof Hi as [Hlo Hrun]. unfold room, ballotBlock in Hroom. destruct o as [|n|]; cbn [cop_step step_top step_room] in *.
  - unfold NextBallot. destruct ((ballotNext c =? 0)%N || (ballotMax c <=? ballotNext c)%N) eqn:Er.
    + rewrite GetU64_readable. unfold ballotBlock. rewrite (u64_small (_ + 1000)), (u64_small (_ + 1)) by lia.
      destruct (SetU64_cases (c_db c) mkBallot (u64_at (kv_abs (c_db c)) mkBallot + 1000)) as (d' & [[-> Ed]|(e & -> & Ed)]).
      * simpl. rewrite (u64_small (_ + 1 + 1)) by lia. exists (u64_at (kv_abs (c_db c)) mkBallot + 2)%N.
        unfold counter_inv. simpl. rewrite Ed, u64_at_insert by lia. unfold ballotBlock. lia.
      * exists lo. unfold counter_inv. simpl. rewrite Ed. split_and!; try done; lia.
    + apply orb_false_iff in Er as [E0%N.eqb_neq Em%N.leb_gt]. destruct Hrun as [?|(Hp & Hl & Hm & Hn & Hb)]; [done|].
      rewrite u64_small by lia. exists (ballotNext c + 1)%N. unfold counter_inv. simpl. unfold ballotBlock in *. lia.
  - destruct (N.eqb_spec (ballotNext c) 0) as [|H0']; [exists lo; simpl; split_and!; try done; lia|]. destruct Hrun as [?|(Hp & Hl & Hm & Hn' & Hb)]; [done|].
    unfold BumpBallot, ballotBlock in *. destruct (N.ltb_spec n (ballotNext c)); [exists lo; simpl; split_and!; try done; lia|].
    rewrite !u64_small by lia. destruct (SetU64_cases (c_db c) mkBallot (n + 1000)) as (d' & [[-> Ed]|(e & -> & Ed)]).
    + exists lo. unfold counter_inv. simpl. rewrite Ed, u64_at_insert by lia. unfold ballotBlock. lia.
    + exists lo. unfold counter_inv. simpl. rewrite Ed. unfold ballotBlock. split_and!; try done; [right; split_and!; done|lia].
  - exists lo. unfold counter_inv. simpl. split_and!; try done; by left.
Qed.

Lemma ceiling_cons top o ops : ceiling top (o :: ops) = ceiling (step_top top o) ops.
Proof. by destruct o. Qed.

Lemma step_top_room top o ops : (ceiling top (o :: ops) + ballotBlock < u64_max)%N → (top + ballotBlock < u64_max)%N ∧ step_room o.
Proof. rewrite ceiling_cons. pose proof (ceiling_ge (step_top top o) ops). destruct o; cbn [step_top step_room] in *; lia. Qed.

Lemma counter_run_sorted (c : Counter_ DB) lo ops :
  counter_inv c lo → (ceiling (u64_at (kv_abs (c_db c)) mkBallot) ops + ballotBlock < u64_max)%N →
  StronglySorted N.lt (counter_run c ops).2 ∧ Forall (λ n, 0 < n ∧ lo ≤ n)%N (counter_run c ops).2.
Proof.
  revert c lo. induction ops as [|o ops IH]; intros c lo Hi Hc; [split; constructor|]. destruct (step_top_room _ _ _ Hc) as [Hroom Ho]. rewrite ceiling_cons in Hc.
  destruct (cop_step_cases c lo o Hi Hroom Ho) as (lo' & Hle & Hi' & Htop & Hn). cbn [counter_run]. destruct (cop_step c o) as [c' r]. cbn [fst snd] in *.
  destruct (IH c' lo' Hi') as [Hs Hf]; [pose proof (ceiling_mono _ _ ops Htop); lia|]. destruct (counter_run c' ops) as [c'' ns]. cbn [fst snd] in *.
  destruct r as [n|]; [|split; [done|]; eapply Forall_impl; [exact Hf|]; cbn; lia].
  split; constructor; try done; [..|lia|]; (eapply Forall_impl; [exact Hf|]; cbn; lia).
Qed.

(** A read that fails makes the counter start again: [GetU64] gives 0 for it, and
    [NextBallot] hands out what it handed out before. *)
Theorem failed_read_reissues (c : Counter_ DB) e d : kv_get (c_db c) mkBallot = GetErr e → ballotNext c = 0%N → SetU64 (c_db c) mkBallot ballotBlock = (None, d) →
  (NextBallot c).2 = inr 1%N.
Proof. intros Hg H0 Hs. unfold NextBallot, GetU64, Get. rewrite Hg, H0. cbn [N.eqb orb]. change (u64 (0 + ballotBlock)) with ballotBlock. by rewrite Hs. Qed.
End fallible.

(** * What the counter promises *)

Section promises.
Context {DB : Type} `{KVStore DB}.

(** C34 Ballots are never reused: over any life of a node (proposals, bumps past another
    proposer's ballot, failed writes, crashes at any point), the counters [NextBallot]
    hands out are strictly increasing and above everything the database had recorded, as
    long as reads of the database do not fail and the 64-bit range is not exhausted.
    ([failed_read_reissues]: a read that fails makes the counter start again.) *)
Theorem ballots_never_reused (d : DB) (ops : list cop) : readable →
  let start := u64_at (kv_abs d) mkBallot in
  (ceiling start ops + ballotBlock < u64_max)%N →
  let handed := (counter_run (MkCounter d 0 0) ops).2 in
  StronglySorted N.lt handed ∧ Forall (λ n, start < n)%N handed.
Proof.
  intros Hr start Hc. destruct (counter_run_sorted Hr (MkCounter d 0 0) (start + 1) ops) as [Hs Hf].
  - split; simpl; [unfold start; lia|by left].
  - done.
  - split; [done|]. eapply Forall_impl; [exact Hf|]. simpl. lia.
Qed.
End promises.

Definition toy_life : list cop := [CNext; CNext; CRestart; CNext; CBump 5000; CNext; CRestart; CNext].

Example counter_evaluates :
  (counter_run (MkCounter (∅ : gmap bytes bytes) 0 0) toy_life).2 = [1; 2; 1001; 5001; 6001]%N.
Proof. computes. Qed.

Lemma ballots_never_reused_witness :
  StronglySorted N.lt (counter_run (MkCounter (∅ : gmap bytes bytes) 0 0) toy_life).2.
Proof.
  pose proof (ballots_never_reused (∅ : gmap bytes bytes) toy_life) as Hall. cbv zeta in Hall.
  destruct Hall as [Hs _]; [intros d k; apply kv_get_total|computes|]. exact Hs.
Defined.

(** ** Scans *)

Section scans.
Context {DB : Type} `{KVStore DB} `{!Reliable DB}.

Lemma visit_all {S} (fn : S → bytes → bytes → S) s l :
  visit (λ s k v, (fn s k v, true)) s l = fold_left (λ s kv, fn s kv.1 kv.2) l s.
Proof. revert s. induction l as [|[k v] l IH]; intros s; simpl; [done|apply IH]. Qed.

Lemma prefix_le p k : bytes_le p (p ++ k).
Proof.
  unfold cmp_le. rewrite <- (app_nil_r p) at 1. rewrite bytes_compare_app_same. by destruct k.
Qed.

Lemma range_prefix p k : in_range p (scan_end p) k → p `prefix_of` k.
Proof.
  unfold in_range, scan_end, cmp_le, cmp_lt. revert k. induction p as [|x p IH]; intros k; [intros; by exists k|].
  destruct k as [|y k]; [by intros [? _]|]. simpl.
  destruct (N.compare_spec (Byte.to_N x) (Byte.to_N y)) as [E|E|E]; [|intros [_ Hlt]|by intros [? _]].
  - apply to_N_inj in E as ->. rewrite N.compare_refl. intros [k' ->]%IH. by exists k'.
  - destruct (N.compare_spec (Byte.to_N y) (Byte.to_N x)); [lia..|done].
Qed.

(** The keys with the prefix that a scan reaches. *)
Definition scanned (prefix k : bytes) : Prop :=
  ∃ rest, k = prefix ++ rest ∧ bytes_lt rest [xff; xff; xff; xff].

(** [DeletePrefix] removes a key exactly when it starts with the prefix and
    the rest of it sorts before four ff bytes; every other key keeps its value. *)
Theorem DeletePrefix_spec (d : DB) (prefix : bytes) :
  let '(e, d') := DeletePrefix d prefix in
  e = None ∧
  ∀ k, (scanned prefix k → kv_abs d' !! k = None) ∧
    (¬ scanned prefix k → kv_abs d' !! k = kv_abs d !! k).
Proof.
  unfold DeletePrefix, Scan. rewrite kv_iter_total. cbn [snd].
  rewrite (visit_all (λ ops k (_ : bytes), ops ++ [kv_Delete k])).
  set (l := range_of (kv_abs d) prefix (scan_end prefix)).
  assert (∀ acc, fold_left (λ ops (kv : bytes * bytes), ops ++ [kv_Delete kv.1]) l acc = acc ++ (kv_Delete <$> l.*1)) as Hf.
  { clearbody l. induction l as [|[k v] l IH]; intros acc; simpl; [by rewrite app_nil_r|].
    rewrite IH, <- app_assoc. done. }
  rewrite Hf. simpl.
  assert (∀ k, k ∈ l.*1 ↔ is_Some (kv_abs d !! k) ∧ scanned prefix k) as Hl.
  { intros k. unfold l. rewrite list_elem_of_fmap. split.
    - intros ([k' v] & -> & Hin). apply elem_of_range in Hin as [Hk Hr]. split; [by eexists|].
      pose proof (range_prefix _ _ Hr) as [rest ->]. exists rest. split; [done|].
      destruct Hr as [_ Hr]. unfold scan_end, cmp_lt in Hr. by rewrite bytes_compare_app_same in Hr.
    - intros ([v Hv] & rest & -> & Hr). exists (prefix ++ rest, v). split; [done|].
      apply elem_of_range. split; [done|]. split; [apply prefix_le|].
      unfold scan_end, cmp_lt. by rewrite bytes_compare_app_same. }
  assert (∀ d' : DB, kv_abs d' = apply_ops (kv_abs d) (kv_Delete <$> l.*1) →
    ∀ k, (scanned prefix k → kv_abs d' !! k = None) ∧
      (¬ scanned prefix k → kv_abs d' !! k = kv_abs d !! k)) as Hd.
  { intros d' E k. rewrite E, lookup_apply_deletes. specialize (Hl k). split; intros Hr; case_decide as Hin; try done.
    - destruct (kv_abs d !! k) eqn:Ek; [|done]. destruct Hin. apply Hl. split; [by eexists|done].
    - by destruct Hr; apply Hl. }
  case_bool_decide as E0.
  - split; [done|]. apply Hd. rewrite length_fmap in E0. by destruct (l.*1).
  - pose proof (kv_commit_total d (kv_Delete <$> l.*1)) as Ht.
    destruct (kv_commit d _) as [e d'] eqn:Ec. simpl in Ht. subst e. split; [done|].
    apply Hd. by apply kv_commit_ok in Ec.
Qed.
End scans.

Lemma DeletePrefix_spec_witness :
  let d : gmap bytes bytes := {[ [x70; xff; xff; xff; xff; x01] := [x01]; [x70; x01] := [x02]; [x71] := [x03] ]} in
  (DeletePrefix d [x70]).2 !! [x70; x01] = None ∧ (DeletePrefix d [x70]).2 !! [x71] = Some [x03].
Proof.
  intros d. pose proof (DeletePrefix_spec d [x70]) as Hspec.
  destruct (DeletePrefix d [x70]) as [e d'] eqn:E. destruct Hspec as [_ Hk]. split.
  - apply (proj1 (Hk [x70; x01])). exists [x01]. split; [done|by vm_compute].
  - change ((kv_abs d' : gmap bytes bytes) !! [x71] = Some [x03]). rewrite (proj2 (Hk [x71])); [by vm_compute|].
    intros (rest & Hr & _). by simplify_eq/=.
Defined.
