(* ===== verification/PaxosSafety.v ===== *)
(** Safety of one register in one epoch (architecture §5.3): the acceptors of
    Acceptor.v and the proposer loops of Proposer.v, composed over a network that
    may lose, repeat, delay and reorder every message.

    A cluster state is the acceptors, the ballot counter of every node (Meta.v), the
    rounds under way and the history of what was sent and answered.  Steps: a node takes
    the next number of its counter and sends prepares at that ballot; with a quorum of
    promises counted by its own loop the round goes on to send accepts of some value,
    once; counters are bumped and nodes restart; any request of the history reaches any
    acceptor at any time, any number of times; other traffic reaches the acceptors;
    acceptors restart.  That no ballot is used twice is shown, not assumed.

    The register starts unwritten, the voters are those of one view, and purges, seeds
    and markers of the register, which belong to a change of epoch, are left out. *)
From stdpp Require Import functions relations.
From S2P Require Import Prelude Store Placement View Wire Ballot.
From S2P Require Acceptor Proposer Meta.
Import Acceptor (Acceptor, acceptor_ok, acc_step, Handle, stored, cur_promised, cur_accepted, cur_row,
  retired, installed, amnesiacLocked, row, marker, acc_equiv, row_update, plain_reply,
  good_ballot, stamp_reply, OpenAcceptor).
Import Proposer (Row, Row0, reply, MkReply, rp_id, rp_res, row_Accepted, row_Value, row_HasValue, row_of,
  counted, reported, reported_row).

Section safety.
Context {DB : Type} `{KVStore DB} `{!Reliable DB} `{Codec row} `{Codec marker} `{Codec View}.
Context (v : View) (reg : bytes).

(** An accept round: its ballot, the row the prepare phase found, and what is
    proposed in its place. *)
Record proposal := MkProposal {
  p_ballot : Ballot; p_found : Row; p_value : bytes; p_has : bool; p_notAfter : Z }.

#[export] Instance proposal_eq_dec : EqDecision proposal.
Proof. solve_decision. Defined.

Record cluster := MkCluster {
  accs : NodeID → Acceptor DB;
  ctrs : NodeID → Meta.Counter_ DB;
  rounds : list Ballot;                      (* prepared, the accepts not sent yet *)
  prepared : list Ballot;
  proposed : list proposal;
  promises : list (NodeID * Ballot * Msg);   (* answers to prepares *)
  accepts : list (NodeID * Ballot * Msg);    (* answers to accepts *)
  reads : list (NodeID * Msg);               (* answers to reads *)
}.

#[global] Instance cluster_eta : Eta cluster := λ r,
  MkCluster (r.(accs)) (r.(ctrs)) (r.(rounds)) (r.(prepared)) (r.(proposed)) (r.(promises)) (r.(accepts)) (r.(reads)).

Definition set_acc (c : cluster) (id : NodeID) (a : Acceptor DB) : cluster :=
  c <| accs := <[id := a]> (accs c) |>.

Definition accept_msg (p : proposal) : Msg :=
  Proposer.accept_req v reg (p_ballot p) (p_value p) (p_has p) (p_notAfter p).

(** Traffic that is not a round on [reg]: anything but rounds, purges and seeds
    of this register, and markers (which bring a retired acceptor back). *)
Definition other_traffic (m : Msg) : Prop :=
  m_Type m ≠ TMarker ∧
  (m_Type m ∈ [TPrepare; TAccept; TPurge] → m_Reg m ≠ reg) ∧
  (m_Type m = TSeed → ∀ sr, sr ∈ m_Rows m → sr_Reg sr ≠ reg).

Definition set_ctr (c : cluster) (id : NodeID) (k : Meta.Counter_ DB) : cluster := c <| ctrs := <[id := k]> (ctrs c) |>.

(** The 64-bit range of a counter is not exhausted by the next operation. *)
Definition counter_room (k : Meta.Counter_ DB) (o : Meta.cop) : Prop :=
  Meta.room k u64_max ∧ Meta.step_room o.

#[global] Instance counter_room_dec k o : Decision (counter_room k o).
Proof. unfold counter_room, Meta.room, Meta.step_room. destruct o; apply _. Defined.

Inductive cstep (c : cluster) : cluster → Prop :=
  | c_prepare id k n :
      Meta.room (ctrs c id) u64_max → Meta.NextBallot (ctrs c id) = (k, inr n) →
      cstep c (set_ctr c id k <| rounds := MkBallot n id :: rounds c |> <| prepared := MkBallot n id :: prepared c |>)
  | c_counter id o :
      counter_room (ctrs c id) o → cstep c (set_ctr c id (Meta.cop_step (ctrs c id) o).1)
  | c_deliver_prepare id now b a' rep ev :
      b ∈ prepared c → Handle now (accs c id) (Proposer.prepare_req v reg b) = (a', rep, ev) →
      cstep c (set_acc c id a' <| promises := (id, b, rep) :: promises c |>)
  | c_propose (rs : list reply) p :
      p_ballot p ∈ rounds c →
      NoDup (rp_id <$> rs) →
      (∀ r, r ∈ rs → rp_id r ∈ VoterIDs v ∧
        ∀ m, rp_res r = inr m → (rp_id r, p_ballot p, m) ∈ promises c) →
      Proposer.prepare_loop (X := string) v rs Row0 0 None = inr (p_found p) →
      cstep c (c <| rounds := filter (λ b, b ≠ p_ballot p) (rounds c) |> <| proposed := p :: proposed c |>)
  | c_deliver_accept id now p a' rep ev :
      p ∈ proposed c → Handle now (accs c id) (accept_msg p) = (a', rep, ev) →
      cstep c (set_acc c id a' <| accepts := (id, p_ballot p, rep) :: accepts c |>)
  | c_deliver_read id now a' rep ev :
      Handle now (accs c id) (Proposer.read_req v reg) = (a', rep, ev) →
      cstep c (set_acc c id a' <| reads := (id, rep) :: reads c |>)
  | c_other id now m a' rep ev :
      other_traffic m → Handle now (accs c id) m = (a', rep, ev) → cstep c (set_acc c id a')
  | c_restart id a' :
      OpenAcceptor (Acceptor.db (accs c id)) (Acceptor.self (accs c id)) = inr a' → cstep c (set_acc c id a').

(** The register unwritten, the counters as after a start, the history empty. *)
Definition initial (c : cluster) : Prop :=
  (∀ id, acceptor_ok (accs c id) ∧ stored (accs c id) reg = None) ∧
  (∀ id, Meta.ballotNext (ctrs c id) = 0%N) ∧ rounds c = [] ∧ prepared c = [] ∧ proposed c = [] ∧ promises c = [] ∧ accepts c = [] ∧ reads c = [].

Definition reachable (c : cluster) : Prop := ∃ c0, initial c0 ∧ rtc cstep c0 c.

(** A quorum of voters answered the accept at [b] and the proposer counts them. *)
Definition chosen (c : cluster) (b : Ballot) : Prop :=
  ∃ Q : list NodeID, NoDup Q ∧ Q ⊆ VoterIDs v ∧ (Quorum v ≤ length Q)%nat ∧
    ∀ id, id ∈ Q → ∃ rep, (id, b, rep) ∈ accepts c ∧ m_Type rep = TAccepted.

(** * The invariant *)

(** [p] builds on [q]: its prepare phase found what [q] proposed. *)
Definition builds_on (q p : proposal) : Prop :=
  row_Accepted (p_found p) = p_ballot q ∧ row_Value (p_found p) = p_value q ∧
  row_HasValue (p_found p) = p_has q.

(** An acceptor against the history: unless retired, it is bound by the promises
    it answered, holds what it accepted or newer, and holds only proposed rows. *)
Record bound (c : cluster) (id : NodeID) : Prop := {
  bd_promise b rep : (id, b, rep) ∈ promises c → m_Type rep = TPromise → ble b (cur_promised (accs c id) reg);
  bd_accept b rep : (id, b, rep) ∈ accepts c → m_Type rep = TAccepted → ble b (cur_accepted (accs c id) reg);
  bd_row : stored (accs c id) reg ≠ None → cur_accepted (accs c id) reg ≠ ballot0 →
    (∃ p, p ∈ proposed c ∧ p_ballot p = cur_accepted (accs c id) reg ∧
       p_value p = Acceptor.Value (cur_row (accs c id) reg) ∧
       p_has p = Acceptor.HasValue (cur_row (accs c id) reg)) ∧
    ∃ rep, (id, cur_accepted (accs c id) reg, rep) ∈ accepts c ∧ m_Type rep = TAccepted;
  bd_empty : cur_accepted (accs c id) reg = ballot0 → Acceptor.HasValue (cur_row (accs c id) reg) = false;
}.

Record inv (c : cluster) : Prop := {
  i_ok id : acceptor_ok (accs c id);
  i_bound id : retired (accs c id) = false → bound c id;
  i_prepared b : b ∈ prepared c → b ≠ ballot0 ∧ ballot_ok b;
  i_proposed p : p ∈ proposed c → p_ballot p ∈ prepared c;
  i_unique : NoDup (p_ballot <$> proposed c);
  (* a promise at [b'] reported every accept below [b'] the acceptor ever answers *)
  i_reported id b' rep : (id, b', rep) ∈ promises c → m_Type rep = TPromise →
    blt (parse_ballot (m_Accepted rep)) b' ∧
    (∀ b rep', (id, b, rep') ∈ accepts c → m_Type rep' = TAccepted → blt b b' →
       ble b (parse_ballot (m_Accepted rep))) ∧
    (parse_ballot (m_Accepted rep) ≠ ballot0 →
       ∃ q, q ∈ proposed c ∧ p_ballot q = parse_ballot (m_Accepted rep) ∧
         p_value q = m_Value rep ∧ p_has q = m_HasValue rep) ∧
    (parse_ballot (m_Accepted rep) = ballot0 → m_HasValue rep = false);
  i_accepts id b rep : (id, b, rep) ∈ accepts c → b ∈ p_ballot <$> proposed c;
  (* each proposal has its quorum of promises and found the highest row *)
  i_quorum p : p ∈ proposed c →
    ∃ P : list (NodeID * Msg), NoDup P.*1 ∧ P.*1 ⊆ VoterIDs v ∧ (Quorum v ≤ length P)%nat ∧
      (∀ id rep, (id, rep) ∈ P → (id, p_ballot p, rep) ∈ promises c ∧ m_Type rep = TPromise ∧
         ble (parse_ballot (m_Accepted rep)) (row_Accepted (p_found p))) ∧
      ∃ id rep, (id, rep) ∈ P ∧ p_found p = row_of rep;
  (* a counter is past every ballot of its node *)
  i_counter id : ∃ lo, Meta.counter_inv (ctrs c id) lo ∧ ∀ b, b ∈ prepared c → Ballot.Proposer b = id → (Counter b < lo)%N;
  i_rounds b : b ∈ rounds c → b ∈ prepared c ∧ b ∉ p_ballot <$> proposed c;
}.

(** * Steps of one acceptor, as seen from [reg] *)

(** The register keeps its row and its promise holds, unless the acceptor retires. *)
Definition quiet (a a' : Acceptor DB) : Prop :=
  acceptor_ok a' ∧
  (retired a' = false →
   retired a = false ∧ ble (cur_promised a reg) (cur_promised a' reg) ∧ stored a' reg = stored a reg).

Lemma quiet_equiv a a' : acceptor_ok a → acc_equiv a a' → quiet a a'.
Proof.
  intros Hok He. split; [by rewrite <- He|].
  destruct (Acceptor.acc_equiv_fields _ _ He) as (_&_&_&_&_&->&_). rewrite <- He. by repeat split.
Qed.

(** Two different frame types of one message. *)
Ltac type_clash :=
  try (let E := fresh in intros E); exfalso;
  match goal with
  | A : m_Type ?m = _, B : m_Type ?m = _ |- _ => rewrite A in B; by vm_compute in B
  end.

Lemma quiet_step now m a a' rep :
  acceptor_ok a → acceptor_ok a' → acc_step now m a a' rep → other_traffic m → quiet a a'.
Proof.
  intros Hok Hok' Hs (Hmark & Hreg & Hseed). split; [done|]. intros Hret.
  assert (m_Type m ≠ TSeed → retired a = false ∧ ble (cur_promised a reg) (cur_promised a' reg)) as Hprom.
  { intros Ht. by apply (Acceptor.acc_step_promised now m a a' rep reg Hok Hs Ht Hmark Hret). }
  assert (stored a' reg = stored a reg → m_Type m ≠ TSeed →
    retired a = false ∧ ble (cur_promised a reg) (cur_promised a' reg) ∧ stored a' reg = stored a reg) as Hdone
    by naive_solver.
  destruct Hs as [a' rep He _| |b a' _ Ht _ _ _ _ Hu|b a' _ Ht _ _ _ _ Hu|v' a' rep Ht _ _ Hi|a' rep Ht _ _ _|b r a' rep Ht _ _ _ Hp|a' rep Ht _ Hr Hf Hsd].
  - destruct (quiet_equiv a a' Hok He) as [_ Hq]. by apply Hq.
  - apply Hdone; [done|]. type_clash.
  - apply Hdone; [|type_clash]. rewrite (Acceptor.stored_update _ _ _ _ _ Hu), decide_False; [done|].
    intros E. apply (Hreg ltac:(rewrite Ht; set_solver)). done.
  - apply Hdone; [|type_clash]. rewrite (Acceptor.stored_update _ _ _ _ _ Hu), decide_False; [done|].
    intros E. apply (Hreg ltac:(rewrite Ht; set_solver)). done.
  - apply Hdone; [|type_clash].
    destruct Hi as [[He _]|[_ (_&_&_&_&_& Hi)]]; [by rewrite <- He|].
    destruct (Acceptor.retires a v'); [destruct Hi as (? & _); congruence|]. by destruct Hi as (_ & _ & ->).
  - congruence.
  - apply Hdone; [|type_clash]. destruct Hp as (_ & _ & Hne & _). apply Hne.
    intros E. apply (Hreg ltac:(rewrite Ht; set_solver)). done.
  - destruct Hr as (_&_&_&_&_&E6). split; [congruence|].
    destruct (Hsd reg) as [[Hst _]|(sr & Hin & E & _)]; [|by destruct (Hseed Ht sr Hin)].
    split; [|done]. unfold cur_promised. rewrite Hst, Hf. reflexivity.
Qed.

Lemma quiet_handle now m a a' rep ev :
  acceptor_ok a → other_traffic m → Handle now a m = (a', rep, ev) → quiet a a'.
Proof.
  intros Hok Ho Hh. destruct (Acceptor.Handle_step _ _ _ _ _ _ Hok Hh) as [Hok' Hs]. by eapply quiet_step.
Qed.

Lemma read_is_other : other_traffic (Proposer.read_req v reg).
Proof.
  split; [by vm_compute|]. split; [|by vm_compute]. intros Hin. exfalso. revert Hin.
  decides.
Qed.

Lemma quiet_restart a a' :
  acceptor_ok a → OpenAcceptor (Acceptor.db a) (Acceptor.self a) = inr a' → quiet a a'.
Proof.
  intros Hok. rewrite (Acceptor.OpenAcceptor_reopens a Hok). intros [= <-].
  split; [by destruct Hok; split|]. intros Hr. destruct a. simpl in *. by repeat split.
Qed.

(** A prepare either leaves the register alone or is a promise. *)
Lemma prepare_cases now a b a' rep ev :
  acceptor_ok a → b ≠ ballot0 → ballot_ok b →
  Handle now a (Proposer.prepare_req v reg b) = (a', rep, ev) →
  acceptor_ok a' ∧
  ((quiet a a' ∧ m_Type rep ≠ TPromise) ∨
   (retired a = false ∧ blt (cur_promised a reg) b ∧
    stored a' reg = Some (cur_row a reg <| Acceptor.Promised := Bytes b |>) ∧
    rep = stamp_reply a (Acceptor.promise_reply (cur_row a reg)))).
Proof.
  intros Hok Hb0 Hbu Hh. destruct (Acceptor.Handle_step _ _ _ _ _ _ Hok Hh) as [Hok' Hs].
  split; [done|]. clear Hh.
  inversion Hs as [a1 r1 He Hp|? Ht|b' a1 _ Ht Hb' Hr _ Hlt Hu|b' a1 _ Ht|v' a1 r1 Ht|a1 r1 Ht|b' r a1 r1 Ht|a1 r1 Ht]; subst;
    try (by vm_compute in Ht).
  - left. split; [by apply quiet_equiv|]. intros E. apply Hp. rewrite E. set_solver.
  - right. change (m_Ballot (Proposer.prepare_req v reg b)) with (Bytes b) in Hb'.
    change (m_Reg (Proposer.prepare_req v reg b)) with reg in *.
    destruct (Acceptor.good_ballot_Some _ _ Hb') as (Hpb & _ & _). rewrite parse_Bytes in Hpb by done.
    injection Hpb as <-. split; [done|]. split; [done|]. split; [|done].
    rewrite (Acceptor.stored_update _ _ _ _ _ Hu). by rewrite decide_True.
Qed.

(** An accept either leaves the register alone or stores its proposal. *)
Lemma accept_cases now a p a' rep ev :
  acceptor_ok a → p_ballot p ≠ ballot0 → ballot_ok (p_ballot p) →
  Handle now a (accept_msg p) = (a', rep, ev) →
  acceptor_ok a' ∧
  ((quiet a a' ∧ m_Type rep ≠ TAccepted) ∨
   (retired a = false ∧ ble (cur_promised a reg) (p_ballot p) ∧
    stored a' reg = Some (Acceptor.MkRow (Bytes (p_ballot p)) (Bytes (p_ballot p)) (p_value p) (p_has p)) ∧
    rep = stamp_reply a (msg0 <| m_Type := TAccepted |>))).
Proof.
  intros Hok Hb0 Hbu Hh. destruct (Acceptor.Handle_step _ _ _ _ _ _ Hok Hh) as [Hok' Hs].
  split; [done|]. clear Hh.
  inversion Hs as [a1 r1 He Hp|? Ht|b' a1 _ Ht|b' a1 _ Ht Hb' Hr _ Hle Hu|v' a1 r1 Ht|a1 r1 Ht|b' r a1 r1 Ht|a1 r1 Ht]; subst;
    try (by vm_compute in Ht).
  - left. split; [by apply quiet_equiv|]. intros E. apply Hp. rewrite E. set_solver.
  - right. change (m_Ballot (accept_msg p)) with (Bytes (p_ballot p)) in Hb'.
    change (m_Reg (accept_msg p)) with reg in *.
    destruct (Acceptor.good_ballot_Some _ _ Hb') as (Hpb & _ & _). rewrite parse_Bytes in Hpb by done.
    injection Hpb as <-. split; [done|]. split; [done|]. split; [|done].
    rewrite (Acceptor.stored_update _ _ _ _ _ Hu). by rewrite decide_True.
Qed.

(** * Preservation *)

Lemma cur_accepted_stored (a : Acceptor DB) r :
  stored a reg = Some r → cur_accepted a reg = parse_ballot (Acceptor.Accepted r).
Proof. intros E. unfold cur_accepted, cur_row. by rewrite E. Qed.

Lemma cur_promised_stored (a : Acceptor DB) r :
  stored a reg = Some r → cur_promised a reg = parse_ballot (Acceptor.Promised r).
Proof. intros E. unfold cur_promised. by rewrite E. Qed.

Lemma cur_row_stored (a : Acceptor DB) r : stored a reg = Some r → cur_row a reg = r.
Proof. intros E. unfold cur_row. by rewrite E. Qed.

Lemma cur_accepted_None (a : Acceptor DB) : stored a reg = None → cur_accepted a reg = ballot0.
Proof. intros E. unfold cur_accepted, cur_row. by rewrite E. Qed.

Lemma bound_quiet c id a' :
  bound c id → quiet (accs c id) a' → retired a' = false → bound (set_acc c id a') id.
Proof.
  intros [Bp Ba Br Be] [_ Hq] Hret. destruct (Hq Hret) as (_ & Hle & Hst).
  assert (cur_accepted a' reg = cur_accepted (accs c id) reg) as Ea.
  { unfold cur_accepted, cur_row. by rewrite Hst. }
  assert (cur_row a' reg = cur_row (accs c id) reg) as Er by (unfold cur_row; by rewrite Hst).
  split; unfold set_acc; simpl; rewrite fn_lookup_insert.
  - intros b rep Hin Ht. eapply (cmp_le_transitive Compare); [by eapply Bp|done].
  - rewrite Ea. apply Ba.
  - rewrite Ea, Er, Hst. apply Br.
  - by rewrite Ea, Er.
Qed.

(** A quiet step of one acceptor keeps the invariant. *)
Lemma inv_quiet c id a' : inv c → quiet (accs c id) a' → inv (set_acc c id a').
Proof.
  intros [Iok Ib Ipr Ipp Iu Ir Ia Iq] Hq. split; try done.
  - intros id'. unfold set_acc. simpl. destruct (decide (id = id')) as [->|Hne].
    + rewrite fn_lookup_insert. apply Hq.
    + by rewrite fn_lookup_insert_ne.
  - intros id' Hret. destruct (decide (id = id')) as [->|Hne].
    + unfold set_acc in Hret. simpl in Hret. rewrite fn_lookup_insert in Hret.
      apply bound_quiet; [|done..]. apply Ib. by apply Hq.
    + unfold set_acc in Hret. simpl in Hret. rewrite fn_lookup_insert_ne in Hret by done.
      destruct (Ib id' Hret) as [Bp Ba Br Be]. split; unfold set_acc; simpl; rewrite fn_lookup_insert_ne by done; auto.
Qed.

(** The history may grow by answers that promise or accept nothing. *)
Lemma inv_promise_noise c e : inv c → m_Type e.2 ≠ TPromise → inv (c <| promises := e :: promises c |>).
Proof.
  intros [Iok Ib Ipr Ipp Iu Ir Ia Iq] He. split; simpl; auto.
  - intros id Hret. destruct (Ib id Hret) as [Bp Ba Br Be]. split; simpl; auto.
    intros b rep [<-|Hin]%elem_of_cons Ht; [done|by eapply Bp].
  - intros id b' rep [<-|Hin]%elem_of_cons Ht; [done|by apply (Ir id b' rep)].
  - intros p Hp. destruct (Iq p Hp) as (P & ? & ? & ? & HP & ?). exists P. repeat (split; [done|]).
    split; [|done]. intros id rep Hin. destruct (HP id rep Hin) as (? & ? & ?). split; [by right|done].
Qed.

Lemma inv_accept_noise c e :
  inv c → m_Type e.2 ≠ TAccepted → e.1.2 ∈ p_ballot <$> proposed c → inv (c <| accepts := e :: accepts c |>).
Proof.
  intros [Iok Ib Ipr Ipp Iu Ir Ia Iq] He Hp. split; simpl; auto.
  - intros id Hret. destruct (Ib id Hret) as [Bp Ba Br Be]. split; simpl; auto.
    + intros b rep [<-|Hin]%elem_of_cons Ht; [done|by eapply Ba].
    + intros Hs Hn. destruct (Br Hs Hn) as (? & rep & ? & ?). split; [done|]. exists rep. split; [by right|done].
  - intros id b' rep Hin Ht. destruct (Ir id b' rep Hin Ht) as (? & Hacc & ?). split; [done|]. split; [|done].
    intros b rep' [<-|Hin']%elem_of_cons Ht'; [done|by apply (Hacc b rep')].
  - intros id b rep [<-|Hin]%elem_of_cons; [done|by eapply Ia].
Qed.

(** A ballot is new when its counter hands it out. *)
Lemma inv_prepare c id k n : inv c → Meta.room (ctrs c id) u64_max → Meta.NextBallot (ctrs c id) = (k, inr n) →
  inv (set_ctr c id k <| rounds := MkBallot n id :: rounds c |> <| prepared := MkBallot n id :: prepared c |>).
Proof.
  intros [Iok Ib Ipr Ipp Iu Ir Ia Iq Ic Ird] Hroom Hn. destruct (Ic id) as (lo & Hlo & Hold).
  destruct (Meta.NextBallot_spec (ctrs c id) lo Hlo Hroom) as (k' & n' & E & Hpos & Hle & Hinv & Hnx & Htop). rewrite Hn in E. injection E as <- <-.
  assert (MkBallot n id ∉ prepared c) as Hnew by (intros Hin; specialize (Hold _ Hin eq_refl); simpl in Hold; lia).
  split; simpl; auto.
  - intros id' Hret. by destruct (Ib id' Hret); split.
  - intros b' [->|?]%elem_of_cons; auto. split; [intros [= -> _]; lia|]. unfold ballot_ok. simpl. destruct Hinv as [Hi _]. unfold Meta.room, Meta.ballotBlock in *. lia.
  - intros p Hp. right. auto.
  - intros id'. destruct (decide (id' = id)) as [->|Hne].
    + exists (n + 1)%N. rewrite fn_lookup_insert. split; [done|]. intros b [->|Hin]%elem_of_cons Eb; [simpl; lia|]. specialize (Hold b Hin Eb). lia.
    + destruct (Ic id') as (lo' & ? & Hold'). exists lo'. rewrite fn_lookup_insert_ne by done. split; [done|]. intros b [->|Hin]%elem_of_cons Eb; [by subst|by apply Hold'].
  - intros b [->|Hb]%elem_of_cons.
    + split; [by left|]. intros (p & E & Hp)%list_elem_of_fmap. apply Hnew. rewrite E. by apply Ipp.
    + destruct (Ird b Hb). split; [by right|done].
Qed.

(** Bumps and restarts leave a counter past the ballots of its node. *)
Lemma inv_counter c id o : inv c → counter_room (ctrs c id) o → inv (set_ctr c id (Meta.cop_step (ctrs c id) o).1).
Proof.
  intros [Iok Ib Ipr Ipp Iu Ir Ia Iq Ic Ird] [Hroom Ho]. split; simpl; auto.
  - intros id' Hret. by destruct (Ib id' Hret); split.
  - intros id'. destruct (decide (id' = id)) as [->|Hne].
    + rewrite fn_lookup_insert. destruct (Ic id) as (lo & Hlo & Hold). destruct (Meta.cop_step_cases kv_get_total (ctrs c id) lo o Hlo Hroom Ho) as (lo' & Hle & Hi & _).
      exists lo'. split; [done|]. intros b Hb Eb. specialize (Hold b Hb Eb). lia.
    + rewrite fn_lookup_insert_ne by done. apply Ic.
Qed.

Lemma inv_promise c id b a' rep :
  inv c → b ≠ ballot0 → ballot_ok b → acceptor_ok a' →
  retired (accs c id) = false → blt (cur_promised (accs c id) reg) b →
  stored a' reg = Some (cur_row (accs c id) reg <| Acceptor.Promised := Bytes b |>) →
  rep = stamp_reply (accs c id) (Acceptor.promise_reply (cur_row (accs c id) reg)) →
  inv (set_acc c id a' <| promises := (id, b, rep) :: promises c |>).
Proof.
  intros [Iok Ib Ipr Ipp Iu Ir Ia Iq] Hb0 Hbu Hok' Hret Hlt Hst Hrep.
  pose proof (Ib id Hret) as [Bp Ba Br Be]. pose proof (Acceptor.cur_accepted_le _ reg (Iok id)) as Hle.
  assert (cur_promised a' reg = b) as Ep.
  { rewrite (cur_promised_stored _ _ Hst). simpl. by apply parse_ballot_Bytes. }
  assert (cur_accepted a' reg = cur_accepted (accs c id) reg) as Ea.
  { rewrite (cur_accepted_stored _ _ Hst). done. }
  assert (stored (accs c id) reg = None → cur_accepted (accs c id) reg = ballot0) as E0 by apply cur_accepted_None.
  assert (m_Accepted rep = Acceptor.Accepted (cur_row (accs c id) reg) ∧
    m_Value rep = Acceptor.Value (cur_row (accs c id) reg) ∧
    m_HasValue rep = Acceptor.HasValue (cur_row (accs c id) reg)) as (Em1 & Em2 & Em3).
  { rewrite Hrep. unfold stamp_reply. by destruct (installed (accs c id)). }
  split; simpl; auto.
  - intros id'. destruct (decide (id = id')) as [->|Hne]; [by rewrite fn_lookup_insert|by rewrite fn_lookup_insert_ne].
  - intros id' Hret'. destruct (decide (id = id')) as [->|Hne].
    + split; simpl; rewrite fn_lookup_insert, ?Ep, ?Ea.
      * intros b1 rep1 [[= -> ->]|Hin]%elem_of_cons Ht; [reflexivity|]. apply (cmp_lt_le Compare).
        eapply (cmp_le_lt_trans Compare); [by eapply Bp|done].
      * apply Ba.
      * intros _ Hn. rewrite (cur_row_stored _ _ Hst). simpl. apply Br; [|done]. intros E. by apply Hn, E0.
      * rewrite (cur_row_stored _ _ Hst). apply Be.
    + rewrite fn_lookup_insert_ne in Hret' by done. destruct (Ib id' Hret') as [Bp' Ba' Br' Be'].
      split; simpl; rewrite fn_lookup_insert_ne by done; auto.
      intros b1 rep1 [[= -> -> ->]|Hin]%elem_of_cons Ht; [done|by eapply Bp'].
  - intros id' b' rep' [[= -> -> ->]|Hin]%elem_of_cons Ht; [|by apply (Ir id' b' rep')].
    rewrite Em1, Em2, Em3. split; [eauto with dstore|]. split_and!.
    + intros b1 rep1 Hin1 Ht1 _. by eapply Ba.
    + intros Hn. apply Br; [|done]. intros E. by apply Hn, E0.
    + apply Be.
  - intros p Hp. destruct (Iq p Hp) as (P & ? & ? & ? & HP & ?). exists P. repeat (split; [done|]).
    split; [|done]. intros id' rep' Hin. destruct (HP id' rep' Hin) as (? & ? & ?). split; [by right|done].
Qed.

Lemma inv_accept c id p a' rep :
  inv c → p ∈ proposed c → acceptor_ok a' →
  retired (accs c id) = false → ble (cur_promised (accs c id) reg) (p_ballot p) →
  stored a' reg = Some (Acceptor.MkRow (Bytes (p_ballot p)) (Bytes (p_ballot p)) (p_value p) (p_has p)) →
  m_Type rep = TAccepted →
  inv (set_acc c id a' <| accepts := (id, p_ballot p, rep) :: accepts c |>).
Proof.
  intros [Iok Ib Ipr Ipp Iu Ir Ia Iq] Hp Hok' Hret Hle Hst Hrep.
  pose proof (Ib id Hret) as [Bp Ba Br Be]. pose proof (Acceptor.cur_accepted_le _ reg (Iok id)) as Hacc.
  destruct (Ipr _ (Ipp p Hp)) as [Hb0 Hbu].
  assert (cur_promised a' reg = p_ballot p) as Ep.
  { rewrite (cur_promised_stored _ _ Hst). simpl. by apply parse_ballot_Bytes. }
  assert (cur_accepted a' reg = p_ballot p) as Ea.
  { rewrite (cur_accepted_stored _ _ Hst). simpl. by apply parse_ballot_Bytes. }
  split; simpl; auto.
  - intros id'. destruct (decide (id = id')) as [->|Hne]; [by rewrite fn_lookup_insert|by rewrite fn_lookup_insert_ne].
  - intros id' Hret'. destruct (decide (id = id')) as [->|Hne].
    + split; simpl; rewrite fn_lookup_insert, ?Ep, ?Ea.
      * intros b1 rep1 Hin Ht. eapply (cmp_le_transitive Compare); [by eapply Bp|done].
      * intros b1 rep1 [[= -> ->]|Hin]%elem_of_cons Ht; [reflexivity|].
        eapply (cmp_le_transitive Compare); [by eapply Ba|]. by eapply (cmp_le_transitive Compare).
      * intros _ _. rewrite (cur_row_stored _ _ Hst). simpl. split; [by exists p|].
        exists rep. split; [by left|done].
      * done.
    + rewrite fn_lookup_insert_ne in Hret' by done. destruct (Ib id' Hret') as [Bp' Ba' Br' Be'].
      split; simpl; rewrite fn_lookup_insert_ne by done; auto.
      * intros b1 rep1 [[= -> -> ->]|Hin]%elem_of_cons Ht; [done|by eapply Ba'].
      * intros Hs Hn. destruct (Br' Hs Hn) as (? & rep1 & ? & ?). split; [done|]. exists rep1. split; [by right|done].
  - intros id' b' rep' Hin Ht. destruct (Ir id' b' rep' Hin Ht) as (? & Hrep' & ?). split; [done|]. split; [|done].
    intros b1 rep1 [[= -> -> ->]|Hin1]%elem_of_cons Ht1 Hlt; [exfalso|by apply (Hrep' b1 rep1)].
    apply (cmp_lt_not_le Compare _ _ Hlt). eapply (cmp_le_transitive Compare); [by eapply Bp|done].
  - intros id' b1 rep1 [[= -> -> ->]|Hin]%elem_of_cons; [by apply list_elem_of_fmap_2|by eapply Ia].
Qed.

Lemma inv_propose c rs p :
  inv c → p_ballot p ∈ rounds c →
  NoDup (rp_id <$> rs) →
  (∀ r, r ∈ rs → rp_id r ∈ VoterIDs v ∧ ∀ m, rp_res r = inr m → (rp_id r, p_ballot p, m) ∈ promises c) →
  Proposer.prepare_loop (X := string) v rs Row0 0 None = inr (p_found p) →
  inv (c <| rounds := filter (λ b, b ≠ p_ballot p) (rounds c) |> <| proposed := p :: proposed c |>).
Proof.
  intros [Iok Ib Ipr Ipp Iu Ir Ia Iq Ic Ird] Hround Hnd Hrs Hloop. destruct (Ird _ Hround) as [Hb Hnew].
  destruct (Proposer.prepare_loop_quorum _ _ _ Hloop) as (P & Hsub & Hlen & HP & (p0 & Hp0 & Hbest) & Hmax).
  split; simpl; auto.
  - intros id Hret. destruct (Ib id Hret) as [Bp Ba Br Be]. split; simpl; auto.
    intros Hs Hn. destruct (Br Hs Hn) as ((q & ? & ?) & ?). split; [|done]. exists q. split; [by right|done].
  - intros q [->|Hq]%elem_of_cons; auto.
  - apply NoDup_cons. done.
  - intros id b' rep Hin Ht. destruct (Ir id b' rep Hin Ht) as (? & ? & Hq & ?). split; [done|]. split; [done|]. split; [|done].
    intros Hn. destruct (Hq Hn) as (q & ? & ?). exists q. split; [by right|done].
  - intros id b rep Hin. right. by eapply Ia.
  - intros q [->|Hq]%elem_of_cons; [|by apply Iq].
    exists ((λ r, (rp_id r, match rp_res r with inr m => m | inl _ => msg0 end)) <$> P).
    assert (∀ r, r ∈ P → r ∈ rs) as Hin by (intros r; by apply sublist_elem_of).
    split; [|split; [|split; [|split]]].
    + rewrite <- list_fmap_compose. eapply sublist_NoDup; [exact Hnd|]. by apply fmap_sublist.
    + rewrite <- list_fmap_compose. intros id (r & -> & Hr)%list_elem_of_fmap. by apply Hrs, Hin.
    + rewrite length_fmap. lia.
    + intros id rep (r & E & Hr)%list_elem_of_fmap. injection E as -> ->.
      destruct (HP r Hr) as (m & Em & _ & Ht). pose proof (Hmax r Hr) as Hle. unfold reported in Hle.
      rewrite Em in Hle |- *. split; [by apply (Hrs r (Hin r Hr))|]. done.
    + destruct (HP p0 Hp0) as (m & Em & _). exists (rp_id p0), m. split.
      * apply list_elem_of_fmap. exists p0. by rewrite Em.
      * rewrite Hbest. unfold reported_row. by rewrite Em.
  - intros b [Hne Hb']%list_elem_of_filter. destruct (Ird b Hb') as [? Hno]. split; [done|]. by intros [E|Hin]%elem_of_cons.
Qed.

Lemma inv_initial c : initial c → inv c.
Proof.
  intros (Ha & Hc & Er & E1 & E2 & E3 & E4 & E5). split; rewrite ?Er; rewrite ?E1, ?E2, ?E3, ?E4; try (by intros * ?%elem_of_nil).
  - intros id. apply Ha.
  - intros id _. split; rewrite ?E3, ?E4; [by intros * ?%elem_of_nil..| |].
    + intros Hs. by destruct (Ha id).
    + intros _. destruct (Ha id) as [_ Hst]. unfold cur_row. by rewrite Hst.
  - constructor.
  - intros id. exists 0%N. split; [|by intros * ?%elem_of_nil]. split; [lia|by left].
Qed.

Lemma inv_step c c' : inv c → cstep c c' → inv c'.
Proof.
  intros Hi Hs. pose proof Hi as [Iok Ib Ipr Ipp Iu Ir Ia Iq]. destruct Hs as
    [id k n Hroom Hn|id o Ho|id now b a' rep ev Hb Hh|rs p Hb Hnd Hrs Hl|id now p a' rep ev Hp Hh|id now a' rep ev Hh
    |id now m a' rep ev Ho Hh|id a' Ho].
  - by apply inv_prepare.
  - by apply inv_counter.
  - destruct (Ipr b Hb) as [Hb0 Hbu].
    destruct (prepare_cases _ _ _ _ _ _ (Iok id) Hb0 Hbu Hh) as [Hok' [[Hq Ht]|(?&?&?&?)]].
    + apply (inv_promise_noise (set_acc c id a') (id, b, rep)); [by apply inv_quiet|done].
    + by apply inv_promise.
  - by eapply inv_propose.
  - destruct (Ipr _ (Ipp p Hp)) as [Hb0 Hbu].
    destruct (accept_cases _ _ _ _ _ _ (Iok id) Hb0 Hbu Hh) as [Hok' [[Hq Ht]|(?&?&?&->)]].
    + apply (inv_accept_noise (set_acc c id a') (id, p_ballot p, rep)); [by apply inv_quiet|done|].
      simpl. by apply list_elem_of_fmap_2.
    + apply inv_accept; auto. by rewrite Acceptor.stamp_type.
  - assert (inv (set_acc c id a')) as [] by (eapply inv_quiet, quiet_handle; eauto using read_is_other).
    split; auto. intros id' Hr. by destruct (i_bound0 id' Hr); split.
  - eapply inv_quiet, quiet_handle; eauto.
  - eapply inv_quiet, quiet_restart; eauto.
Qed.

Lemma inv_steps c c' : rtc cstep c c' → inv c → inv c'.
Proof. induction 1; eauto using inv_step. Qed.

Lemma reachable_inv c : reachable c → inv c.
Proof. intros (c0 & Hi & Hs). by eapply inv_steps, inv_initial. Qed.

(** * Consequences *)

(** The heart of Paxos: what was chosen is what every later round found, or newer. *)
Lemma chosen_found c b p :
  inv c → chosen c b → p ∈ proposed c → blt b (p_ballot p) →
  ble b (row_Accepted (p_found p)) ∧ blt (row_Accepted (p_found p)) (p_ballot p) ∧
  ∃ q, q ∈ proposed c ∧ builds_on q p.
Proof.
  intros [Iok Ib Ipr Ipp Iu Ir Ia Iq] (Q & HQ & SQ & LQ & Hacc) Hp Hlt.
  destruct (Iq p Hp) as (P & HPnd & HPs & HPl & HP & (id0 & rep0 & Hin0 & Hfound)).
  destruct (majorities_meet (VoterIDs v) (VoterIDs v) Q P.*1) as (id & HidQ & HidP);
    [done|done|done|done|unfold VoterIDs; by rewrite length_fmap|
     unfold VoterIDs; rewrite !length_fmap; done|split; [done|lia]|].
  apply list_elem_of_fmap in HidP as ([id' rep] & -> & Hin). simpl in *.
  destruct (HP id' rep Hin) as (Hprom & Ht & Hle). destruct (Hacc id' HidQ) as (rep' & Hin' & Ht').
  destruct (Ir id' _ rep Hprom Ht) as (_ & Hrep & _).
  assert (ble b (row_Accepted (p_found p))) as Hb.
  { eapply (cmp_le_transitive Compare); [by eapply Hrep|done]. }
  destruct (HP id0 rep0 Hin0) as (Hprom0 & Ht0 & _). destruct (Ir id0 _ rep0 Hprom0 Ht0) as (Hlt0 & _ & Hq & _).
  rewrite Hfound in *. simpl in *. split; [done|]. split; [done|].
  destruct Hq as (q & Hq & E1 & E2 & E3); [|exists q; split; [done|]; unfold builds_on; rewrite Hfound; by split_and!].
  assert (b ≠ ballot0) as Hb0.
  { apply (Ipr b). apply Ia in Hin'. apply list_elem_of_fmap in Hin' as (q & -> & Hq). by apply Ipp. }
  intros E. rewrite E in Hb. apply Hb0, (cmp_le_antisym Compare); [done|apply ballot0_le].
Qed.

(** A round finds an earlier proposal, or the register unwritten. *)
Lemma found_cases c p : inv c → p ∈ proposed c →
  blt (row_Accepted (p_found p)) (p_ballot p) ∧
  (row_HasValue (p_found p) = false ∨ ∃ q, q ∈ proposed c ∧ builds_on q p).
Proof.
  intros [Iok Ib Ipr Ipp Iu Ir Ia Iq] Hp. destruct (Iq p Hp) as (P & _ & _ & _ & HP & (id & rep & Hin & Hfound)).
  destruct (HP id rep Hin) as (Hprom & Ht & _). destruct (Ir id _ rep Hprom Ht) as (Hlt & _ & Hq & He).
  unfold builds_on. rewrite Hfound. split; [done|]. simpl.
  destruct (decide (parse_ballot (m_Accepted rep) = ballot0)) as [E|Hn]; [left; auto|right].
  destruct (Hq Hn) as (q & ? & <- & ? & ?). by exists q.
Qed.

Lemma proposal_unique c p q : inv c → p ∈ proposed c → q ∈ proposed c → p_ballot p = p_ballot q → p = q.
Proof. intros Hi Hp Hq. apply NoDup_fmap_inj_on with (proposed c); auto. apply (i_unique c Hi). Qed.

(** The measure of inductions over the history: the proposals below one. *)
Lemma below_shrinks c x p : inv c → x ∈ proposed c → blt (p_ballot x) (p_ballot p) →
  (length (filter (λ y, blt (p_ballot y) (p_ballot x)) (proposed c)) <
   length (filter (λ y, blt (p_ballot y) (p_ballot p)) (proposed c)))%nat.
Proof.
  intros Hi Hx Hlt.
  assert (x :: filter (λ y, blt (p_ballot y) (p_ballot x)) (proposed c) ⊆+
          filter (λ y, blt (p_ballot y) (p_ballot p)) (proposed c)) as Hsub.
  { apply NoDup_submseteq.
    - apply NoDup_cons. split; [intros [Hl _]%list_elem_of_filter; by eapply (cmp_lt_irrefl Compare)|].
      apply NoDup_filter. eapply NoDup_fmap_1, i_unique, Hi.
    - intros y [->|[Hy ?]%list_elem_of_filter]%elem_of_cons; apply list_elem_of_filter; [done|].
      split; [by eapply (cmp_lt_trans Compare)|done]. }
  apply submseteq_length in Hsub. simpl in Hsub. lia.
Qed.

(** Later rounds form a chain back to the chosen one. *)
Lemma chosen_chain c q : inv c → chosen c (p_ballot q) → q ∈ proposed c →
  ∀ p, p ∈ proposed c → ble (p_ballot q) (p_ballot p) →
  rtc (λ x y, x ∈ proposed c ∧ y ∈ proposed c ∧ builds_on x y) q p.
Proof.
  intros Hi Hc Hq p.
  remember (length (filter (λ x, blt (p_ballot x) (p_ballot p)) (proposed c))) as n eqn:En.
  revert p En. induction (lt_wf n) as [n _ IH]. intros p En Hp Hle.
  apply (cmp_le_lt_eq Compare) in Hle as [Hlt|E]; last first.
  { rewrite (proposal_unique c q p Hi Hq Hp E). apply rtc_refl. }
  destruct (chosen_found c (p_ballot q) p Hi Hc Hp Hlt) as (Hb & Hlt' & x & Hx & Hbuild).
  pose proof Hbuild as (Eb & _). rewrite Eb in *.
  eapply rtc_r; [|by split_and!].
  eapply IH; [|reflexivity|done|done].
  rewrite En. by apply below_shrinks.
Qed.

(** ** Reads *)

(** What a read answer says about the rounds before and after it. *)
Definition read_sound (c0 c : cluster) (id : NodeID) (rep : Msg) : Prop :=
  (∀ b rep', (id, b, rep') ∈ accepts c0 → m_Type rep' = TAccepted → ble b (parse_ballot (m_Accepted rep))) ∧
  (parse_ballot (m_Accepted rep) ≠ ballot0 →
    (∃ rep', (id, parse_ballot (m_Accepted rep), rep') ∈ accepts c ∧ m_Type rep' = TAccepted) ∧
    ∃ q, q ∈ proposed c ∧ p_ballot q = parse_ballot (m_Accepted rep) ∧ p_value q = m_Value rep ∧
      p_has q = m_HasValue rep).

Lemma cstep_grows c c' :
  cstep c c' → accepts c ⊆ accepts c' ∧ proposed c ⊆ proposed c' ∧
    (reads c' = reads c ∨ ∃ e, reads c' = e :: reads c).
Proof. intros []; simpl; split_and!; eauto; set_solver. Qed.

Lemma read_answer_sound c c' id rep :
  inv c → cstep c c' → reads c' = (id, rep) :: reads c → m_Type rep = TReadReply → read_sound c c' id rep.
Proof.
  intros [Iok Ib Ipr Ipp Iu Ir Ia Iq] Hs Hr Ht.
  assert (∀ (l : list (NodeID * Msg)) x, l ≠ x :: l) as Hne.
  { intros l x E. apply (f_equal length) in E. simpl in E. lia. }
  destruct Hs as [| | | | |id' now a' rep1 ev Hh| |]; simpl in Hr; try by apply Hne in Hr.
  injection Hr as -> ->. destruct (Acceptor.Handle_step _ _ _ _ _ _ (Iok id) Hh) as [_ Hst].
  inversion Hst as [a1 r1 He Hp|? ? Hret ? |b' a1 _ Ht'|b' a1 _ Ht'|v' a1 r1 Ht' _ Hti|a1 r1 Ht'|b' r a1 r1 Ht'|a1 r1 Ht'];
    subst; try (by vm_compute in Ht').
  { exfalso. apply Hp. rewrite Ht. set_solver. }
  change (m_Reg (Proposer.read_req v reg)) with reg. destruct (Ib id Hret) as [Bp Ba Br Be].
  assert (m_Accepted (stamp_reply (accs c id) (Acceptor.read_reply (cur_row (accs c id) reg))) =
      Acceptor.Accepted (cur_row (accs c id) reg) ∧
    m_Value (stamp_reply (accs c id) (Acceptor.read_reply (cur_row (accs c id) reg))) =
      Acceptor.Value (cur_row (accs c id) reg) ∧
    m_HasValue (stamp_reply (accs c id) (Acceptor.read_reply (cur_row (accs c id) reg))) =
      Acceptor.HasValue (cur_row (accs c id) reg)) as (E1 & E2 & E3).
  { unfold stamp_reply. by destruct (installed (accs c id)). }
  unfold read_sound. simpl. rewrite E1, E2, E3. split.
  - intros b rep' Hin Ht'. by eapply Ba.
  - intros Hn. destruct Br as [(q & ? & ? & ? & ?) (rep' & ? & ?)].
    + intros E. by apply Hn, cur_accepted_None.
    + done.
    + split; [by exists rep'|by exists q].
Qed.

Lemma read_sound_mono c0 c1 c c' id rep :
  read_sound c1 c id rep → accepts c0 ⊆ accepts c1 → accepts c ⊆ accepts c' → proposed c ⊆ proposed c' →
  read_sound c0 c' id rep.
Proof.
  intros [H1' H2'] S0 Sa Sp. split.
  - intros b rep' Hin. apply H1', S0, Hin.
  - intros Hn. destruct (H2' Hn) as [(rep' & Hr & ?) (q & Hq & ?)]. split.
    + exists rep'. split; [by apply Sa|done].
    + exists q. split; [by apply Sp|done].
Qed.

Lemma reads_sound c0 c : inv c0 → rtc cstep c0 c →
  inv c ∧ accepts c0 ⊆ accepts c ∧ proposed c0 ⊆ proposed c ∧
  ∃ new, reads c = new ++ reads c0 ∧
    ∀ id rep, (id, rep) ∈ new → m_Type rep = TReadReply → read_sound c0 c id rep.
Proof.
  intros Hi Hs. revert c Hs. apply rtc_ind_r.
  { split; [done|]. split; [done|]. split; [done|]. exists []. split; [done|]. by intros * ?%elem_of_nil. }
  intros c c' _ Hst (Hic & Sa & Sp & new & Er & Hnew).
  pose proof (cstep_grows c c' Hst) as (Sa' & Sp' & Hr).
  split; [by eapply inv_step|]. split; [set_solver|]. split; [set_solver|].
  destruct Hr as [Hr|([id rep] & Hr)].
  - exists new. split; [congruence|]. intros id rep Hin Ht.
    eapply read_sound_mono; [by apply Hnew|done..].
  - exists ((id, rep) :: new). split; [by rewrite Hr, Er|].
    intros id' rep' [[= -> ->]|Hin]%elem_of_cons Ht.
    + eapply read_sound_mono; [by eapply read_answer_sound|done..].
    + eapply read_sound_mono; [by apply Hnew|done..].
Qed.

(** * Scripts: runs of the cluster that evaluate *)

Inductive action :=
  | APrepare (id : NodeID)
  | ACounter (id : NodeID) (o : Meta.cop)
  | ADeliverPrepare (id : NodeID) (b : Ballot)
  | APropose (from : list NodeID) (b : Ballot) (value : bytes) (has : bool)
  | ADeliverAccept (id : NodeID) (b : Ballot)
  | ADeliverRead (id : NodeID)
  | ARestart (id : NodeID).

(** The replies of [from] to the prepare at [b], as the proposer receives them. *)
Definition replies_of (c : cluster) (from : list NodeID) (b : Ballot) : list reply :=
  omap (λ id, '(_, m) ← snd <$> list_find (λ e, e.1 = (id, b)) (promises c); Some (MkReply id (inr m))) from.

Definition exec (c : cluster) (x : action) : option cluster :=
  match x with
  | APrepare id =>
      if decide (counter_room (ctrs c id) Meta.CNext) then
        match Meta.NextBallot (ctrs c id) with
        | (k, inr n) => Some (set_ctr c id k <| rounds := MkBallot n id :: rounds c |> <| prepared := MkBallot n id :: prepared c |>)
        | _ => None
        end
      else None
  | ACounter id o => if decide (counter_room (ctrs c id) o) then Some (set_ctr c id (Meta.cop_step (ctrs c id) o).1) else None
  | ADeliverPrepare id b =>
      if decide (b ∈ prepared c) then
        let '(a', rep, _) := Handle 0 (accs c id) (Proposer.prepare_req v reg b) in
        Some (set_acc c id a' <| promises := (id, b, rep) :: promises c |>)
      else None
  | APropose from b value has =>
      if decide (b ∈ rounds c ∧
                 NoDup (rp_id <$> replies_of c from b) ∧ Forall (λ r, rp_id r ∈ VoterIDs v) (replies_of c from b))
      then
        match Proposer.prepare_loop (X := string) v (replies_of c from b) Row0 0 None with
        | inr row => Some (c <| rounds := filter (λ b', b' ≠ b) (rounds c) |> <| proposed := MkProposal b row value has 0 :: proposed c |>)
        | inl _ => None
        end
      else None
  | ADeliverAccept id b =>
      '(_, p) ← list_find (λ p, p_ballot p = b) (proposed c);
      let '(a', rep, _) := Handle 0 (accs c id) (accept_msg p) in
      Some (set_acc c id a' <| accepts := (id, p_ballot p, rep) :: accepts c |>)
  | ADeliverRead id =>
      let '(a', rep, _) := Handle 0 (accs c id) (Proposer.read_req v reg) in
      Some (set_acc c id a' <| reads := (id, rep) :: reads c |>)
  | ARestart id =>
      match OpenAcceptor (Acceptor.db (accs c id)) (Acceptor.self (accs c id)) with
      | inr a' => Some (set_acc c id a')
      | inl _ => None
      end
  end.

Fixpoint exec_all (c : cluster) (xs : list action) : option cluster :=
  match xs with [] => Some c | x :: xs => c' ← exec c x; exec_all c' xs end.

Lemma exec_sound c x c' : exec c x = Some c' → cstep c c'.
Proof.
  destruct x as [id|id o|id b|from b value has|id b|id|id]; simpl.
  - case_decide as Hd; [|done]. destruct Hd as [Hd _]. destruct (Meta.NextBallot _) as [k [|n]] eqn:E; [done|]. intros [= <-]. by eapply c_prepare.
  - case_decide; [|done]. intros [= <-]. by apply c_counter.
  - case_decide; [|done]. destruct (Handle _ _ _) as [[a' rep] ev] eqn:E. intros [= <-]. by eapply c_deliver_prepare.
  - case_decide as Hd; [|done]. destruct Hd as (? & ? & Hv).
    destruct (Proposer.prepare_loop v _ Row0 0 None) as [|row] eqn:El; [done|]. intros [= <-].
    apply (c_propose c (replies_of c from b) (MkProposal b row value has 0)); simpl; eauto. rewrite Forall_forall in Hv. intros r Hr. split; [by apply Hv|].
    intros m Hm. unfold replies_of in Hr. apply list_elem_of_omap in Hr as (id & _ & Hr).
    destruct (list_find _ _) as [[i e]|] eqn:Ef; simpl in Hr; [|done].
    apply list_find_Some in Ef as (Hl & Ee & _). destruct e as [[id' b'] m']. simpl in *.
    injection Ee as -> ->. injection Hr as <-. simpl in *. injection Hm as ->.
    by eapply list_elem_of_lookup_2.
  - destruct (list_find _ _) as [[i p]|] eqn:Ef; [|done]. simpl.
    apply list_find_Some in Ef as (Hl & Ee & _).
    destruct (Handle _ _ _) as [[a' rep] ev] eqn:E. intros [= <-].
    eapply c_deliver_accept; [by eapply list_elem_of_lookup_2|done].
  - destruct (Handle _ _ _) as [[a' rep] ev] eqn:E. intros [= <-]. by eapply c_deliver_read.
  - destruct (OpenAcceptor _ _) eqn:E; [done|]. intros [= <-]. by apply c_restart.
Qed.

Lemma exec_all_sound c xs c' : exec_all c xs = Some c' → rtc cstep c c'.
Proof.
  revert c. induction xs as [|x xs IH]; intros c; simpl; [by intros [= <-]|].
  destruct (exec c x) as [c1|] eqn:E; [|done]. simpl. intros Hs.
  eapply rtc_l; [by eapply exec_sound|by apply IH].
Qed.

Lemma chosen_from c b Q :
  bool_decide (NoDup Q ∧ Q ⊆ VoterIDs v ∧ (Quorum v ≤ length Q)%nat ∧
    Forall (λ id, Exists (λ e, e.1 = (id, b) ∧ m_Type e.2 = TAccepted) (accepts c)) Q) = true →
  chosen c b.
Proof.
  intros (H1' & H2' & H3' & H4')%bool_decide_eq_true. exists Q. split_and!; try done.
  rewrite Forall_forall in H4'. intros id Hid. specialize (H4' id Hid).
  apply Exists_exists in H4' as ([[id' b'] rep] & Hin & [= -> ->] & Ht). eauto.
Qed.
End safety.

Arguments cluster : clear implicits.

(** * What the protocol promises *)

Section promises.
Context {DB : Type} `{KVStore DB} `{!Reliable DB} `{Codec row} `{Codec marker} `{Codec View}.

(** C1 CASPaxos safety: once a quorum of voters has accepted a proposal, every
    proposal at a higher ballot, from any proposer, was computed from it through
    an unbroken chain of proposals each of which read the one before.  No chosen
    write is ever lost or forked, whatever messages are lost, repeated or
    reordered and whatever acceptors restart, retire or serve other registers.  This is
    about one register in one epoch of the acceptors, from its first write, with neither
    purge nor seed. *)
Theorem chosen_never_lost (v : View) (reg : bytes) (c : cluster DB) (q p : proposal) :
  reachable v reg c → q ∈ proposed c → chosen v c (p_ballot q) →
  p ∈ proposed c → ble (p_ballot q) (p_ballot p) →
  rtc (λ x y, x ∈ proposed c ∧ y ∈ proposed c ∧ builds_on x y) q p.
Proof. intros Hr Hq Hc Hp. apply (chosen_chain v reg c q); auto. by apply reachable_inv. Qed.

(** C2 A proposer whose accept loop reports success has a chosen proposal, and no other
    value is ever proposed at its ballot: ballots come from the persistent counters of
    the nodes, over their restarts and bumps and while the 64-bit range lasts, and a
    round sends its accepts once.  The database of a node does not fail. *)
Theorem accept_success_chosen (v : View) (reg : bytes) (c : cluster DB) (p : proposal) (rs : list reply) :
  reachable v reg c → p ∈ proposed c → NoDup (rp_id <$> rs) →
  (∀ r, r ∈ rs → rp_id r ∈ VoterIDs v ∧ ∀ m, rp_res r = inr m → (rp_id r, p_ballot p, m) ∈ accepts c) →
  Proposer.accept_loop (X := string) v rs 0 None = None →
  chosen v c (p_ballot p) ∧ ∀ q, q ∈ proposed c → p_ballot q = p_ballot p → q = p.
Proof.
  intros Hr Hp Hnd Hrs Hl. split.
  - destruct (Proposer.accept_loop_quorum v rs 0 None (Proposer.Quorum_pos v) Hl) as (A & Hs & Hlen & HA).
    assert (∀ r, r ∈ A → r ∈ rs) as Hin by (intros r; by apply sublist_elem_of).
    exists (rp_id <$> A). split_and!.
    + eapply sublist_NoDup; [exact Hnd|by apply fmap_sublist].
    + intros id (r & -> & Hr')%list_elem_of_fmap. by apply Hrs, Hin.
    + rewrite length_fmap. lia.
    + intros id (r & -> & Hr')%list_elem_of_fmap. destruct (HA r Hr') as (m & Em & _ & Ht).
      exists m. split; [by apply (Hrs r (Hin r Hr'))|done].
  - intros q Hq E. by apply (proposal_unique v reg c q p (reachable_inv _ _ _ Hr)).
Qed.

(** C3 Fast reads are linearizable: when a majority reports the same accepted
    ballot, that ballot is at least every ballot chosen before the reads were
    answered, and unless the register is unwritten it is itself chosen and the
    value returned is the one proposed there. *)
Theorem fast_read_linearizable (v : View) (reg : bytes) (c0 c : cluster DB)
    (new : list (NodeID * Msg)) (rs : list reply) (rows : list Row) (r : Row) :
  reachable v reg c0 → rtc (cstep v reg) c0 c → reads c = new ++ reads c0 →
  NoDup (rp_id <$> rs) →
  (∀ x, x ∈ rs → rp_id x ∈ VoterIDs v ∧ ∀ m, rp_res x = inr m → (rp_id x, m) ∈ new) →
  Proposer.read_loop (X := string) v rs [] = inr rows → Proposer.agreed v rows = Some r →
  (∀ b, chosen v c0 b → ble b (row_Accepted r)) ∧
  (row_Accepted r = ballot0 ∨
    chosen v c (row_Accepted r) ∧
    ∃ q, q ∈ proposed c ∧ p_ballot q = row_Accepted r ∧ p_value q = row_Value r ∧ p_has q = row_HasValue r).
Proof.
  intros Hr Hs Hnew Hnd Hrs Hloop Hag.
  destruct (reads_sound v reg c0 c (reachable_inv _ _ _ Hr) Hs) as (_ & _ & _ & new' & E & Hsound).
  rewrite Hnew in E. apply app_inv_tail in E as <-.
  destruct (Proposer.agreed_quorum _ _ _ _ Hloop Hag) as (R & Hsub & Hlen & HR & (x0 & Hx0 & Er) & Hall).
  assert (∀ x, x ∈ R → x ∈ rs) as Hin by (intros x; by apply sublist_elem_of).
  assert (∀ x, x ∈ R → ∃ m, rp_res x = inr m ∧ read_sound c0 c (rp_id x) m ∧
    parse_ballot (m_Accepted m) = row_Accepted r) as HRm.
  { intros x Hx. destruct (HR x Hx) as (m & Em & _ & Ht). exists m. split; [done|]. split.
    - apply Hsound; [|done]. by apply (Hrs x (Hin x Hx)).
    - pose proof (Hall x Hx) as Ex. unfold reported in Ex. by rewrite Em in Ex. }
  assert (NoDup (rp_id <$> R)) as HndR by (eapply sublist_NoDup; [exact Hnd|by apply fmap_sublist]).
  assert (rp_id <$> R ⊆ VoterIDs v) as HRv.
  { intros id (x & -> & Hx)%list_elem_of_fmap. by apply Hrs, Hin. }
  split.
  - intros b (Q & HQ & SQ & LQ & Hacc).
    destruct (majorities_meet (VoterIDs v) (VoterIDs v) Q (rp_id <$> R)) as (id & HidQ & HidR);
      [done..|unfold VoterIDs; by rewrite length_fmap|
       unfold VoterIDs; rewrite !length_fmap; done|split; [done|lia]|].
    apply list_elem_of_fmap in HidR as (x & -> & Hx). destruct (HRm x Hx) as (m & _ & [Hold _] & <-).
    destruct (Hacc _ HidQ) as (rep' & Hin' & Ht'). by eapply Hold.
  - destruct (decide (row_Accepted r = ballot0)) as [|Hn]; [by left|right]. split.
    + exists (rp_id <$> R). rewrite length_fmap. split_and!; try done.
      intros id (x & -> & Hx)%list_elem_of_fmap. destruct (HRm x Hx) as (m & _ & [_ Hnew'] & Ex).
      rewrite Ex in Hnew'. by destruct (Hnew' Hn) as [? _].
    + destruct (HRm x0 Hx0) as (m & Em & [_ Hnew'] & Ex). rewrite Ex in Hnew'.
      destruct (Hnew' Hn) as [_ (q & ? & ? & ? & ?)]. exists q. rewrite Er.
      unfold reported_row. rewrite Em. rewrite Er in *. unfold reported_row in *. rewrite Em in *. done.
Qed.
End promises.

(** ** A worked cluster *)

Definition toy_v : View := toy_view [x01; x02; x03] [] 2 None.
Definition toy_reg : bytes := [x72].

(** A voter with its marker and the view. *)
Definition toy_voter (x : byte) : Acceptor Acceptor.toy_db :=
  (Acceptor.run (Acceptor.MkAcceptor (toy_id x) ∅ false None 0 false false ballot0)
    [Acceptor.OpHandle 0 (Acceptor.toy_req TMarker <| m_Since := 1%N |>);
     Acceptor.OpHandle 0 (Acceptor.toy_req TInstall <| m_View := Encode toy_v |>)]).1.

(** Three voters; every other id is a node that never voted. *)
Definition toy_accs (id : NodeID) : Acceptor Acceptor.toy_db :=
  if decide (id = toy_id x01) then toy_voter x01
  else if decide (id = toy_id x02) then toy_voter x02
  else if decide (id = toy_id x03) then toy_voter x03
  else toy_voter x04.

Definition toy_cluster0 : cluster Acceptor.toy_db := MkCluster toy_accs (λ _, Meta.MkCounter ∅ 0 0) [] [] [] [] [] [].

Lemma toy_voter_ok x : acceptor_ok (toy_voter x).
Proof.
  apply Acceptor.run_ok. split; try done. split; [|done]. intros [y Hy]. by vm_compute in Hy.
Qed.

Lemma toy_initial reg :
  Forall (λ x, stored (toy_voter x) reg = None) [x01; x02; x03; x04] → initial reg toy_cluster0.
Proof.
  intros Hst. split; [|done]. intros id. unfold toy_cluster0, accs, toy_accs. rewrite Forall_forall in Hst.
  repeat case_decide; (split; [apply toy_voter_ok|apply Hst; set_solver]).
Qed.

Definition toy_b1 : Ballot := MkBallot 1 (toy_id x01).
Definition toy_b2 : Ballot := MkBallot 2 (toy_id x02).

(** A write chosen by voters 1 and 2, a restart, and a second write over it. *)
Definition toy_script (v1 v2 : bytes) : list action :=
  let n := toy_id in
  [APrepare (n x01); ADeliverPrepare (n x01) toy_b1; ADeliverPrepare (n x02) toy_b1;
   APropose [n x01; n x02] toy_b1 v1 true;
   ADeliverAccept (n x01) toy_b1; ADeliverAccept (n x02) toy_b1; ARestart (n x02);
   ACounter (n x02) Meta.CNext; APrepare (n x02); ADeliverPrepare (n x02) toy_b2; ADeliverPrepare (n x03) toy_b2;
   APropose [n x03; n x02] toy_b2 v2 true; ADeliverAccept (n x03) toy_b2; ADeliverAccept (n x02) toy_b2].

(** Where a script leads, and that it is reached when the script runs through. *)
Definition toy_run (reg : bytes) (c : cluster Acceptor.toy_db) (xs : list action) : cluster Acceptor.toy_db :=
  default c (exec_all toy_v reg c xs).

Definition toy_runs (reg : bytes) (c : cluster Acceptor.toy_db) (xs : list action) : bool :=
  match exec_all toy_v reg c xs with Some _ => true | None => false end.

Lemma toy_run_steps reg c xs : toy_runs reg c xs = true → rtc (cstep toy_v reg) c (toy_run reg c xs).
Proof.
  unfold toy_runs, toy_run. destruct (exec_all toy_v reg c xs) as [c'|] eqn:E; [|done].
  intros _. by apply exec_all_sound in E.
Qed.

Lemma toy_run_reachable reg xs :
  Forall (λ x, stored (toy_voter x) reg = None) [x01; x02; x03; x04] →
  toy_runs reg toy_cluster0 xs = true → reachable toy_v reg (toy_run reg toy_cluster0 xs).
Proof. intros Hst Hr. exists toy_cluster0. split; [by apply toy_initial|by apply toy_run_steps]. Qed.

Definition toy_mid : cluster Acceptor.toy_db := toy_run toy_reg toy_cluster0 (toy_script [x2a] [x2b]).

Definition toy_reads : list action := [ADeliverRead (toy_id x02); ADeliverRead (toy_id x03)].

Definition toy_end : cluster Acceptor.toy_db := toy_run toy_reg toy_mid toy_reads.

Lemma toy_mid_reachable : reachable toy_v toy_reg toy_mid.
Proof. apply toy_run_reachable; [repeat constructor|vm_compute; reflexivity]. Qed.

Definition toy_p1 : proposal := MkProposal toy_b1 Row0 [x2a] true 0.
Definition toy_p2 : proposal := MkProposal toy_b2 (Proposer.MkRow_ toy_b1 [x2a] true) [x2b] true 0.

Lemma toy_chosen : chosen toy_v toy_mid toy_b1.
Proof. apply (chosen_from toy_v toy_mid toy_b1 [toy_id x01; toy_id x02]). vm_compute. reflexivity. Qed.

Lemma chosen_never_lost_witness :
  rtc (λ x y, x ∈ proposed toy_mid ∧ y ∈ proposed toy_mid ∧ builds_on x y) toy_p1 toy_p2.
Proof.
  apply (chosen_never_lost toy_v toy_reg toy_mid toy_p1 toy_p2).
  - apply toy_mid_reachable.
  - decides.
  - apply toy_chosen.
  - decides.
  - by vm_compute.
Defined.

(** The replies the accept round of [toy_p2] got. *)
Definition toy_accept_replies : list reply :=
  (λ '(id, _, m), MkReply id (inr m)) <$> filter (λ e, e.1.2 = toy_b2) (accepts toy_mid).

Lemma accept_success_chosen_witness : chosen toy_v toy_mid toy_b2.
Proof.
  apply (accept_success_chosen toy_v toy_reg toy_mid toy_p2 toy_accept_replies).
  - apply toy_mid_reachable.
  - decides.
  - decides.
  - unfold toy_accept_replies. intros r ([[id b] m] & -> & [Eb Hin]%list_elem_of_filter)%list_elem_of_fmap.
    change (b = toy_b2) in Eb. subst b. split; [|by intros m' [= <-]].
    assert (Forall (λ e, e.1.1 ∈ VoterIDs toy_v) (accepts toy_mid)) as Hall
      by (decides).
    rewrite Forall_forall in Hall. by apply (Hall _ Hin).
  - vm_compute. reflexivity.
Defined.

Definition toy_read_replies : list reply := (λ '(id, m), MkReply id (inr m)) <$> reads toy_end.

Lemma fast_read_linearizable_witness : chosen toy_v toy_end toy_b2.
Proof.
  destruct (fast_read_linearizable toy_v toy_reg toy_mid toy_end (reads toy_end) toy_read_replies
    [Proposer.MkRow_ toy_b2 [x2b] true; Proposer.MkRow_ toy_b2 [x2b] true]
    (Proposer.MkRow_ toy_b2 [x2b] true)) as [_ [Hz|[Hc _]]].
  - apply toy_mid_reachable.
  - apply toy_run_steps. vm_compute. reflexivity.
  - assert (reads toy_mid = []) as -> by computes. by rewrite app_nil_r.
  - decides.
  - unfold toy_read_replies. intros r ([id m] & -> & Hin)%list_elem_of_fmap.
    split; [|by intros m' [= <-]].
    assert (Forall (λ e, e.1 ∈ VoterIDs toy_v) (reads toy_end)) as Hall
      by (decides).
    rewrite Forall_forall in Hall. by apply (Hall _ Hin).
  - vm_compute. reflexivity.
  - vm_compute. reflexivity.
  - by vm_compute in Hz.
  - exact Hc.
Defined.
