(* ===== verification/Cluster.v ===== *)
(** A healthy cluster: the proposer of Proposer.v running against the acceptors
    of Acceptor.v with the ballot counter of Meta.v, and the proof that a
    proposal commits in as many attempts as there are voters, plus one. *)
From stdpp Require Import functions.
From S2P Require Import Prelude Store Placement View Wire Ballot Proposer.
From S2P Require Acceptor Meta PaxosSafety.
Import Acceptor (Acceptor, acceptor_ok, Handle, stored, cur_promised, cur_accepted, cur_row,
  retired, installed, closed, amnesiacLocked, row, marker, row_update).

Section cluster.
Context {DB : Type} `{KVStore DB} `{!Reliable DB} `{Codec row} `{Codec marker} `{Codec View}.

(** The world of a node: every acceptor within reach, the adopted view, the
    node's counter, and a clock. *)
Record LW := MkLW {
  lw_accs : NodeID → Acceptor DB;
  lw_view : option View;
  lw_counter : Meta.Counter_ DB;
  lw_now : Z;
}.

#[global] Instance LW_eta : Eta LW := λ r, MkLW (r.(lw_accs)) (r.(lw_view)) (r.(lw_counter)) (r.(lw_now)).

(** The order in which the replies of a broadcast arrive. *)
Context (order : list NodeID → list NodeID) (order_perm : ∀ l, order l ≡ₚ l).

#[local] Instance lw_world : World LW := {|
  Call e id m :=
    let '(a, rep, _) := Handle (lw_now e) (lw_accs e id) m in
    (e <| lw_accs := <[id := a]> (lw_accs e) |>, 0%Z, inr rep);
  CurView e := lw_view e;
  Adopt e v := e <| lw_view := Some v |>;
  NextBallot e :=
    let '(c, r) := Meta.NextBallot (lw_counter e) in (e <| lw_counter := c |>, r);
  BumpBallot e n :=
    let '(c, r) := Meta.BumpBallot (lw_counter e) n in (e <| lw_counter := c |>, r);
  ctxErr e := None;
  Sleep e d := (e, None);
  randN e n := (e, 0%Z);
  arrival e ids := order ids;
  Now e := lw_now e;
|}.

Context (v : View) (reg : bytes) (self : NodeID) (cfg : Config).
Notation St := (St (E := LW)).
Implicit Types s : St.

(** ** Healthy acceptors *)

Record healthy (a : Acceptor DB) : Prop := {
  h_ok : acceptor_ok a;
  h_open : closed a = false;
  h_serves : retired a = false;
  h_marker : amnesiacLocked a = false;
  h_epoch : ∃ vi, installed a = Some vi ∧ Incarnation vi = Incarnation v ∧ Epoch vi = Epoch v;
}.

Lemma readRow_total (a : Acceptor DB) : acceptor_ok a →
  ∃ found, Acceptor.readRow a reg = inr (cur_row a reg, found) ∧
    stored a reg = (if found : bool then Some (cur_row a reg) else None).
Proof.
  intros Hok. destruct (Acceptor.readRow a reg) as [e|[r found]] eqn:E.
  - exfalso. unfold Acceptor.readRow in E. rewrite kv_get_total in E.
    destruct (kv_abs (Acceptor.db a) !! Acceptor.row_key reg) as [b|] eqn:Eb; [|done].
    destruct (Acceptor.ok_rows a Hok reg b Eb) as (r & Er & _). by rewrite Er in E.
  - destruct (Acceptor.readRow_ok _ _ _ _ Hok E) as (-> & Hs & _). by exists found.
Qed.

Lemma writeRow_total (a : Acceptor DB) r :
  ∃ a', Acceptor.writeRow a reg r = (None, a') ∧ row_update a reg r a'.
Proof.
  destruct (Acceptor.writeRow a reg r) as [e a'] eqn:E.
  assert (e = None) as ->.
  { unfold Acceptor.writeRow, kv_set in E.
    pose proof (kv_commit_total (Acceptor.db a) [kv_Set (Acceptor.row_key reg) (marshal r)]) as Ht.
    destruct (kv_commit _ _). simpl in *. congruence. }
  exists a'. split; [done|]. by apply Acceptor.writeRow_cases in E as [[_ ?]|[[? ?] _]].
Qed.

Lemma healthy_update a r a' : healthy a → Acceptor.row_ok r → row_update a reg r a' → healthy a'.
Proof.
  intros [Hok Ho Hr Ha He] Hrow Hu.
  destruct (Acceptor.row_update_fields _ _ _ _ Hu) as (E1&E2&E3&E4&E5&E6&_).
  split; [by eapply Acceptor.row_update_ok|congruence|congruence| |by rewrite E3].
  unfold amnesiacLocked in *. by rewrite E1, E3, E4, E5.
Qed.

Lemma stamp_epoch a rep : healthy a →
  m_Incarnation (Acceptor.stamp_reply a rep) = Incarnation v ∧ m_Epoch (Acceptor.stamp_reply a rep) = Epoch v.
Proof. intros [_ _ _ _ (vi & Ei & <- & <-)]. unfold Acceptor.stamp_reply. by rewrite Ei. Qed.

Lemma cur_promised_ok (a : Acceptor DB) : acceptor_ok a → ballot_ok (cur_promised a reg).
Proof.
  intros Hok. unfold cur_promised. destruct (stored a reg); [apply parse_ballot_ok|apply (Acceptor.ok_floor_u64 a Hok)].
Qed.

Definition conflict_reply (b : Ballot) : Msg := msg0 <| m_Type := TConflict |> <| m_Ballot := Bytes b |>.

(** A healthy acceptor answers a prepare with a promise or a conflict. *)
Lemma prepare_healthy now a b : healthy a → b ≠ ballot0 → ballot_ok b →
  ∃ a' ev rep, Handle now a (prepare_req v reg b) = (a', Acceptor.stamp_reply a rep, ev) ∧ healthy a' ∧
    (blt (cur_promised a reg) b ∧ rep = Acceptor.promise_reply (cur_row a reg) ∧ cur_promised a' reg = b ∨
     ble b (cur_promised a reg) ∧ rep = conflict_reply (cur_promised a reg) ∧ a' = a).
Proof.
  intros Hh Hb0 Hbu. pose proof Hh as [Hok Ho Hr Ha (vi & Ei & E1 & E2)].
  unfold Handle. rewrite Ho. unfold Acceptor.handle, Acceptor.handle_gated. rewrite Ei.
  change (m_Type (prepare_req v reg b)) with TPrepare. cbn [Z.eqb].
  assert (View_Compare vi (m_Incarnation (prepare_req v reg b)) (m_Epoch (prepare_req v reg b)) = Eq) as ->
    by by apply Acceptor.View_Compare_Eq.
  change (TPrepare =? TInstall)%Z with false. change (TPrepare =? TMarker)%Z with false.
  change (TPrepare =? TSeed)%Z with false. change (TPrepare =? TPurge)%Z with false.
  change (TPrepare =? TPrepare)%Z with true. cbv iota.
  unfold Acceptor.prepare, Acceptor.refuseIfForgetful. rewrite Hr, Ha.
  change (m_Ballot (prepare_req v reg b)) with (Bytes b). change (m_Reg (prepare_req v reg b)) with reg.
  unfold Acceptor.good_ballot. rewrite parse_Bytes by done. rewrite (proj2 (IsZero_false b) Hb0).
  destruct (readRow_total a Hok) as (found & -> & Hs). rewrite (Acceptor.promise_of_cur a reg _ found Hs eq_refl).
  case_bool_decide as Hc.
  - exists a, [], (conflict_reply (cur_promised a reg)). split; [done|]. split; [done|]. right. done.
  - assert (blt (cur_promised a reg) b) as Hlt.
    { apply (cmp_gt_lt Compare). by destruct (decide (Compare b (cur_promised a reg) = Gt)). }
    destruct (writeRow_total a (cur_row a reg <| Acceptor.Promised := Bytes b |>)) as (a' & -> & Hu).
    exists a', [], (Acceptor.promise_reply (cur_row a reg)). split; [|split].
    + f_equal. f_equal. apply Acceptor.stamp_same. apply (Acceptor.row_update_fields _ _ _ _ Hu).
    + eapply healthy_update; [done| |done]. unfold Acceptor.row_ok. simpl. rewrite parse_ballot_Bytes by done.
      eapply (cmp_le_transitive Compare); [by apply Acceptor.cur_accepted_le|eauto with dstore].
    + left. split; [done|]. split; [done|]. unfold cur_promised.
      rewrite (Acceptor.stored_update _ _ _ _ _ Hu), decide_True by done. simpl. by apply parse_ballot_Bytes.
Qed.

(** It answers an accept in time with an acceptance or a conflict. *)
Lemma accept_healthy now a b value has na :
  healthy a → b ≠ ballot0 → ballot_ok b → (na = 0 ∨ now ≤ na)%Z →
  ∃ a' ev rep, Handle now a (accept_req v reg b value has na) = (a', Acceptor.stamp_reply a rep, ev) ∧ healthy a' ∧
    (ble (cur_promised a reg) b ∧ rep = msg0 <| m_Type := TAccepted |> ∧ cur_promised a' reg = b ∧
       cur_row a' reg = Acceptor.MkRow (Bytes b) (Bytes b) value has ∨
     blt b (cur_promised a reg) ∧ rep = conflict_reply (cur_promised a reg) ∧ a' = a).
Proof.
  intros Hh Hb0 Hbu Hna. pose proof Hh as [Hok Ho Hr Ha (vi & Ei & E1 & E2)].
  unfold Handle. rewrite Ho. unfold Acceptor.handle, Acceptor.handle_gated. rewrite Ei.
  change (m_Type (accept_req v reg b value has na)) with TAccept.
  assert (View_Compare vi (m_Incarnation (accept_req v reg b value has na))
    (m_Epoch (accept_req v reg b value has na)) = Eq) as -> by by apply Acceptor.View_Compare_Eq.
  change (TAccept =? TInstall)%Z with false. change (TAccept =? TMarker)%Z with false.
  change (TAccept =? TSeed)%Z with false. change (TAccept =? TPurge)%Z with false.
  change (TAccept =? TPrepare)%Z with false. change (TAccept =? TAccept)%Z with true. cbv iota.
  unfold Acceptor.accept. rewrite Hr.
  change (m_Ballot (accept_req v reg b value has na)) with (Bytes b).
  change (m_Reg (accept_req v reg b value has na)) with reg.
  change (m_NotAfter (accept_req v reg b value has na)) with na.
  change (m_Value (accept_req v reg b value has na)) with value.
  change (m_HasValue (accept_req v reg b value has na)) with has.
  unfold Acceptor.good_ballot. rewrite parse_Bytes by done. rewrite (proj2 (IsZero_false b) Hb0).
  destruct (negb (na =? 0)%Z && (na <? now)%Z) eqn:Et; [apply andb_true_iff in Et as [?%negb_true_iff ?]; lia|].
  destruct (readRow_total a Hok) as (found & -> & Hs). rewrite (Acceptor.promise_of_cur a reg _ found Hs eq_refl).
  case_bool_decide as Hc.
  - exists a, [], (conflict_reply (cur_promised a reg)). split; [done|]. split; [done|]. right. done.
  - assert (ble (cur_promised a reg) b) as Hle by by apply (cmp_nlt_le Compare).
    rewrite bool_decide_false; last first.
    { intros Hl. apply (cmp_lt_not_le Compare _ _ Hl). eapply (cmp_le_transitive Compare); [|done].
      by apply Acceptor.cur_accepted_le. }
    replace (cur_row a reg <| Acceptor.Promised := Bytes b |> <| Acceptor.Accepted := Bytes b |>
      <| Acceptor.Value := value |> <| Acceptor.HasValue := has |>)
      with (Acceptor.MkRow (Bytes b) (Bytes b) value has) by (by destruct (cur_row a reg)).
    destruct (writeRow_total a (Acceptor.MkRow (Bytes b) (Bytes b) value has)) as (a' & -> & Hu).
    exists a', [], (msg0 <| m_Type := TAccepted |>). split; [|split].
    + f_equal. f_equal. apply Acceptor.stamp_same. apply (Acceptor.row_update_fields _ _ _ _ Hu).
    + eapply healthy_update; [done| |done]. unfold Acceptor.row_ok. simpl. reflexivity.
    + left. split; [done|]. split; [done|]. unfold cur_promised, cur_row.
      rewrite (Acceptor.stored_update _ _ _ _ _ Hu), decide_True by done. simpl. split; [by apply parse_ballot_Bytes|done].
Qed.

(** ** Broadcasts *)

(** Everything but the acceptors and the statistics is kept. *)
Definition same_rest s s' : Prop :=
  lw_view (env s') = lw_view (env s) ∧ lw_counter (env s') = lw_counter (env s) ∧
  lw_now (env s') = lw_now (env s) ∧ ∀ id, inflight_of s' id = inflight_of s id.

Definition answer s (id : NodeID) (req : Msg) : Acceptor DB * Msg * list Acceptor.event :=
  Handle (lw_now (env s)) (lw_accs (env s) id) req.

Lemma call_answers s id req :
  (inflight_of s id < MaxInFlight cfg)%Z → m_Type (answer s id req).1.2 ≠ TErr →
  ∃ s', call cfg s v id req = (s', inr (answer s id req).1.2) ∧
    lw_accs (env s') = <[id := (answer s id req).1.1]> (lw_accs (env s)) ∧ same_rest s s'.
Proof.
  intros Hin Ht. unfold call. destruct (Z.leb_spec (MaxInFlight cfg) (inflight_of s id)); [lia|].
  unfold call_body, tr_call. unfold answer in *. simpl.
  destruct (Handle (lw_now (env s)) (lw_accs (env s) id) req) as [[a rep] ev]. simpl in *.
  rewrite (proj2 (Z.eqb_neq _ _) Ht). simpl.
  eexists. split; [done|]. split; [done|]. unfold same_rest, inflight_of. simpl.
  repeat split. intros id'. rewrite lookup_insert_eq. simpl. rewrite insert_insert_eq.
  destruct (decide (id = id')) as [->|Hne].
  - rewrite lookup_insert_eq. simpl. lia.
  - by rewrite lookup_insert_ne.
Qed.

Lemma broadcast_answers s req ids :
  NoDup ids → (∀ id, id ∈ ids → (inflight_of s id < MaxInFlight cfg)%Z) →
  (∀ id, id ∈ ids → m_Type (answer s id req).1.2 ≠ TErr) →
  ∃ s', broadcast_to cfg s v req ids = (s', (λ id, MkReply id (inr (answer s id req).1.2)) <$> ids) ∧
    same_rest s s' ∧
    ∀ id, lw_accs (env s') id = if decide (id ∈ ids) then (answer s id req).1.1 else lw_accs (env s) id.
Proof.
  revert s. induction ids as [|id ids IH]; intros s Hnd Hfl Ht.
  { exists s. split; [done|]. split; [done|]. done. }
  apply NoDup_cons in Hnd as [Hn Hnd]. cbn [broadcast_to].
  destruct (call_answers s id req) as (s1 & -> & Ea & Hs1); [apply Hfl; by left|apply Ht; by left|].
  pose proof Hs1 as (E1 & E2 & E3 & E4).
  assert (∀ id', id' ∈ ids → answer s1 id' req = answer s id' req) as Hans.
  { intros id' Hid'. unfold answer. rewrite E3, Ea, fn_lookup_insert_ne; [done|]. by intros ->. }
  destruct (IH s1 Hnd) as (s2 & -> & Hs2 & Hacc).
  - intros id' Hid'. rewrite E4. apply Hfl. by right.
  - intros id' Hid'. rewrite Hans by done. apply Ht. by right.
  - exists s2. split; [|split].
    + f_equal. rewrite fmap_cons. f_equal. apply list_fmap_ext. intros i id' Hl. simpl.
      by rewrite Hans by by eapply list_elem_of_lookup_2.
    + destruct Hs2 as (F1 & F2 & F3 & F4). split; [congruence|]. split; [congruence|]. split; [congruence|].
      intros id'. by rewrite F4.
    + intros id'. rewrite Hacc, Ea. destruct (decide (id' ∈ ids)) as [Hin|Hin].
      * rewrite decide_True by by right. by rewrite Hans.
      * destruct (decide (id = id')) as [->|Hne].
        -- rewrite fn_lookup_insert, decide_True; [done|by left].
        -- rewrite fn_lookup_insert_ne by done. rewrite decide_False; [done|]. set_solver.
Qed.

(** ** Rounds on answers that count or conflict *)

Context {X : Type}.

(** Each reply is of the type the loop counts, or a conflict of a bad voter. *)
Definition round_replies (t : Z) (bad : NodeID → Prop) (cb : NodeID → Ballot) (ids : list NodeID)
    (rs : list reply) : Prop :=
  Forall2 (λ id r, rp_id r = id ∧
    ((∃ m, classify (X := X) v r = inr m ∧ m_Type m = t) ∨ (bad id ∧ classify (X := X) v r = inl (EConflict (cb id)))))
    ids rs.

Lemma prepare_loop_round bad cb ids rs best n first :
  round_replies TPromise bad cb ids rs → (n < Quorum v)%nat → (Quorum v ≤ n + length ids)%nat →
  (∃ best', prepare_loop (X := X) v rs best n first = inr best') ∨
  (∃ w, w ∈ ids ∧ bad w ∧ prepare_loop (X := X) v rs best n first = inl (EConflict (cb w))).
Proof.
  intros Hrs. revert best n first. induction Hrs as [|id r ids rs [_ Hr] Hrs IH]; intros best n first Hn Hq.
  { simpl in Hq. lia. }
  cbn [prepare_loop]. destruct Hr as [(m & -> & ->)|(Hbad & ->)].
  - rewrite Z.eqb_refl. cbn [negb]. destruct (Nat.leb_spec (Quorum v) (S n)); [left; eauto|].
    destruct (IH (if bool_decide (n = 0%nat) || bool_decide (Compare (parse_ballot (m_Accepted m)) (row_Accepted best) = Gt)
      then row_of m else best) (S n) first) as [?|(w & ? & ? & ?)]; [lia|simpl in Hq; lia|by left|].
    right. exists w. split; [by right|done].
  - right. exists id. split; [by left|done].
Qed.

Lemma accept_loop_round bad cb ids rs n first :
  round_replies TAccepted bad cb ids rs → (n < Quorum v)%nat → (Quorum v ≤ n + length ids)%nat →
  accept_loop (X := X) v rs n first = None ∨
  (∃ w, w ∈ ids ∧ bad w ∧ accept_loop (X := X) v rs n first = Some (EConflict (cb w))).
Proof.
  intros Hrs. revert n first. induction Hrs as [|id r ids rs [_ Hr] Hrs IH]; intros n first Hn Hq.
  { simpl in Hq. lia. }
  cbn [accept_loop]. destruct Hr as [(m & -> & ->)|(Hbad & ->)].
  - rewrite Z.eqb_refl. destruct (Nat.leb_spec (Quorum v) (S n)); [by left|].
    destruct (IH (S n) first) as [?|(w & ? & ? & ?)]; [lia|simpl in Hq; lia|by left|].
    right. exists w. split; [by right|done].
  - right. exists id. split; [by left|done].
Qed.

Lemma classify_conflict id a b : healthy a → ballot_ok b →
  classify (X := X) v (MkReply id (inr (Acceptor.stamp_reply a (conflict_reply b)))) = inl (EConflict b).
Proof.
  intros Hh Hb. unfold classify. cbn [rp_res]. rewrite Acceptor.stamp_type.
  destruct (stamp_epoch a (conflict_reply b) Hh) as [-> ->]. rewrite !N.eqb_refl.
  change (m_Type (conflict_reply b)) with TConflict. change (TConflict =? TErr)%Z with false. simpl.
  assert (m_Ballot (Acceptor.stamp_reply a (conflict_reply b)) = Bytes b) as ->.
  { unfold Acceptor.stamp_reply. by destruct (installed a). }
  by rewrite parse_ballot_Bytes.
Qed.

Lemma classify_counted id a rep : healthy a → m_Type rep ≠ TErr → m_Type rep ≠ TConflict →
  ∃ m, classify (X := X) v (MkReply id (inr (Acceptor.stamp_reply a rep))) = inr m ∧ m_Type m = m_Type rep.
Proof.
  intros Hh H1' H2'. exists (Acceptor.stamp_reply a rep). destruct (stamp_epoch a rep Hh).
  split; [|apply Acceptor.stamp_type]. apply classify_ok; try done; by rewrite Acceptor.stamp_type.
Qed.

(** ** One round *)

Context (voters_nodup : NoDup (VoterIDs v)) (voters_some : Voters v ≠ []).

Definition prom s (id : NodeID) : Ballot := cur_promised (lw_accs (env s) id) reg.

Definition cluster_ok s : Prop :=
  ∀ id, id ∈ VoterIDs v → healthy (lw_accs (env s) id) ∧ (inflight_of s id < MaxInFlight cfg)%Z.

Lemma quorum_reached : (Quorum v ≤ 0 + length (order (VoterIDs v)))%nat.
Proof.
  rewrite order_perm. unfold VoterIDs, Quorum. rewrite length_fmap.
  destruct (Voters v) as [|x l] eqn:E; [done|]. simpl length.
  pose proof (Nat.div_lt (S (length l)) 2). lia.
Qed.

Lemma order_NoDup : NoDup (order (VoterIDs v)).
Proof. by rewrite order_perm. Qed.

Lemma Forall2_fmap_self {A B} (P : A → B → Prop) (f : A → B) l :
  (∀ x, x ∈ l → P x (f x)) → Forall2 P l (f <$> l).
Proof.
  induction l as [|x l IH]; intros HP; [constructor|]. rewrite fmap_cons. constructor; [apply HP; by left|].
  apply IH. intros y Hy. apply HP. by right.
Qed.

(** The broadcast of a round to healthy voters. *)
Lemma broadcast_round s req :
  cluster_ok s → (∀ id, id ∈ VoterIDs v → m_Type (answer s id req).1.2 ≠ TErr) →
  ∃ s', broadcast cfg s v req =
      (s', (λ id, MkReply id (inr (answer s id req).1.2)) <$> order (VoterIDs v)) ∧
    same_rest s s' ∧
    ∀ id, id ∈ VoterIDs v → lw_accs (env s') id = (answer s id req).1.1.
Proof.
  intros Hok Ht. unfold broadcast. cbn [arrival lw_world].
  destruct (broadcast_answers s req (order (VoterIDs v))) as (s' & Hb & Hr & Ha).
  - apply order_NoDup.
  - intros id. rewrite order_perm. intros Hid. by apply Hok.
  - intros id. rewrite order_perm. apply Ht.
  - exists s'. split; [done|]. split; [done|]. intros id Hid. rewrite Ha, decide_True; [done|]. by rewrite order_perm.
Qed.

Lemma prepare_round s b :
  cluster_ok s → b ≠ ballot0 → ballot_ok b →
  ∃ s' r, prepare (X := X) cfg s v reg b = (s', r) ∧ same_rest s s' ∧ cluster_ok s' ∧
    (∀ id, id ∈ VoterIDs v → prom s' id = if decide (blt (prom s id) b) then b else prom s id) ∧
    ((∃ best, r = inr best) ∨
     ∃ w, w ∈ VoterIDs v ∧ ble b (prom s w) ∧ r = inl (EConflict (prom s w))).
Proof.
  intros Hok Hb0 Hbu.
  assert (∀ id, id ∈ VoterIDs v → ∃ a' ev rep,
    answer s id (prepare_req v reg b) = (a', Acceptor.stamp_reply (lw_accs (env s) id) rep, ev) ∧ healthy a' ∧
    (blt (prom s id) b ∧ rep = Acceptor.promise_reply (cur_row (lw_accs (env s) id) reg) ∧ cur_promised a' reg = b ∨
     ble b (prom s id) ∧ rep = conflict_reply (prom s id) ∧ a' = lw_accs (env s) id)) as Hans.
  { intros id Hid. apply prepare_healthy; [by apply Hok|done..]. }
  destruct (broadcast_round s (prepare_req v reg b) Hok) as (s' & Hb & Hrest & Hacc).
  { intros id Hid. destruct (Hans id Hid) as (a' & ev & rep & -> & _ & Hc). simpl.
    rewrite Acceptor.stamp_type. by destruct Hc as [(_ & -> & _)|(_ & -> & _)]. }
  unfold prepare. rewrite Hb. eexists _, _. split; [done|]. split; [done|].
  destruct Hrest as (E1 & E2 & E3 & E4). split; [|split].
  - intros id Hid. rewrite (Hacc id Hid), E4. split; [|by apply Hok].
    destruct (Hans id Hid) as (a' & ev & rep & -> & Hh & _). done.
  - intros id Hid. unfold prom at 1. rewrite (Hacc id Hid).
    destruct (Hans id Hid) as (a' & ev & rep & -> & _ & [(Hlt & _ & Hp)|(Hle & _ & ->)]); simpl.
    + by rewrite decide_True.
    + rewrite decide_False; [done|]. by apply (cmp_nlt_le Compare).
  - destruct (prepare_loop_round (λ id, ble b (prom s id)) (prom s) (order (VoterIDs v))
      ((λ id, MkReply id (inr (answer s id (prepare_req v reg b)).1.2)) <$> order (VoterIDs v)) Row0 0 None)
      as [Hnone|(w & Hw & Hbad & E)].
    + apply Forall2_fmap_self. intros id. rewrite order_perm. intros Hid. split; [done|].
      destruct (Hok id Hid) as [Hh _].
      destruct (Hans id Hid) as (a' & ev & rep & -> & _ & [(Hlt & -> & _)|(Hle & -> & _)]); [left|right].
      * by apply classify_counted.
      * split; [done|]. apply classify_conflict; [done|]. by apply cur_promised_ok, Hh.
    + apply Quorum_pos.
    + apply quorum_reached.
    + by left.
    + right. exists w. split; [by rewrite order_perm in Hw|]. done.
Qed.

(** A quorum of voters holds the value at the ballot. *)
Definition held_by_quorum s (b : Ballot) (value : bytes) (has : bool) : Prop :=
  ∃ Q : list NodeID, NoDup Q ∧ Q ⊆ VoterIDs v ∧ (Quorum v ≤ length Q)%nat ∧
    ∀ id, id ∈ Q → cur_row (lw_accs (env s) id) reg = Acceptor.MkRow (Bytes b) (Bytes b) value has.

Lemma accept_round s b value has na :
  cluster_ok s → b ≠ ballot0 → ballot_ok b → (na = 0 ∨ lw_now (env s) ≤ na)%Z →
  (∀ id, id ∈ VoterIDs v → ble b (prom s id)) →
  ∃ s' r, accept (X := X) cfg s v reg b value has na = (s', r) ∧ same_rest s s' ∧ cluster_ok s' ∧
    (∀ id, id ∈ VoterIDs v → prom s' id = prom s id) ∧
    (r = None ∧ held_by_quorum s' b value has ∨
     ∃ w, w ∈ VoterIDs v ∧ blt b (prom s w) ∧ r = Some (EConflict (prom s w))).
Proof.
  intros Hok Hb0 Hbu Hna Hle.
  assert (∀ id, id ∈ VoterIDs v → ∃ a' ev rep,
    answer s id (accept_req v reg b value has na) = (a', Acceptor.stamp_reply (lw_accs (env s) id) rep, ev) ∧ healthy a' ∧
    (ble (prom s id) b ∧ rep = msg0 <| m_Type := TAccepted |> ∧ cur_promised a' reg = b ∧
       cur_row a' reg = Acceptor.MkRow (Bytes b) (Bytes b) value has ∨
     blt b (prom s id) ∧ rep = conflict_reply (prom s id) ∧ a' = lw_accs (env s) id)) as Hans.
  { intros id Hid. apply accept_healthy; [by apply Hok|done..]. }
  destruct (broadcast_round s (accept_req v reg b value has na) Hok) as (s' & Hb & Hrest & Hacc).
  { intros id Hid. destruct (Hans id Hid) as (a' & ev & rep & -> & _ & Hc). simpl.
    rewrite Acceptor.stamp_type. by destruct Hc as [(_ & -> & _)|(_ & -> & _)]. }
  unfold accept. rewrite Hb. eexists _, _. split; [done|]. split; [done|].
  destruct Hrest as (E1 & E2 & E3 & E4). split; [|split].
  - intros id Hid. rewrite (Hacc id Hid), E4. split; [|by apply Hok].
    destruct (Hans id Hid) as (a' & ev & rep & -> & Hh & _). done.
  - intros id Hid. unfold prom at 1. rewrite (Hacc id Hid).
    destruct (Hans id Hid) as (a' & ev & rep & -> & _ & [(Hl & _ & Hp & _)|(Hlt & _ & ->)]); simpl; [|done].
    rewrite Hp. apply (cmp_le_antisym Compare); [by apply Hle|done].
  - destruct (accept_loop_round (λ id, blt b (prom s id)) (prom s) (order (VoterIDs v))
      ((λ id, MkReply id (inr (answer s id (accept_req v reg b value has na)).1.2)) <$> order (VoterIDs v)) 0 None)
      as [Hnone|(w & Hw & Hbad & E)].
    + apply Forall2_fmap_self. intros id. rewrite order_perm. intros Hid. split; [done|].
      destruct (Hok id Hid) as [Hh _].
      destruct (Hans id Hid) as (a' & ev & rep & -> & _ & [(Hl & -> & _)|(Hlt & -> & _)]); [left|right].
      * by apply classify_counted.
      * split; [done|]. apply classify_conflict; [done|]. by apply cur_promised_ok, Hh.
    + apply Quorum_pos.
    + apply quorum_reached.
    + left. split; [done|].
      destruct (accept_loop_quorum v _ 0 None (Quorum_pos v) Hnone) as (A & Hsub & Hlen & HA).
      exists (rp_id <$> A).
      assert (∀ id, id ∈ rp_id <$> A → id ∈ VoterIDs v ∧
        counted (X := X) v TAccepted (MkReply id (inr (answer s id (accept_req v reg b value has na)).1.2))) as HAin.
      { intros id (r & -> & Hr)%list_elem_of_fmap. pose proof (sublist_elem_of _ _ _ Hsub Hr) as Hin.
        apply list_elem_of_fmap in Hin as (id & -> & Hid). rewrite order_perm in Hid. split; [done|]. by apply HA. }
      split; [|split; [|split]].
      * eapply sublist_NoDup; [apply order_NoDup|]. apply (fmap_sublist rp_id) in Hsub.
        rewrite <- list_fmap_compose in Hsub. by rewrite list_fmap_id in Hsub.
      * intros id Hid. by apply HAin.
      * rewrite length_fmap. lia.
      * intros id Hid. destruct (HAin id Hid) as (Hv & m & _ & Hcl & _). rewrite (Hacc id Hv).
        destruct (Hans id Hv) as (a' & ev & rep & Ha & _ & [(_ & _ & _ & Hrow)|(_ & -> & _)]); rewrite Ha in Hcl |- *; [done|].
        destruct (Hok id Hv) as [Hh _]. simpl in Hcl.
        rewrite classify_conflict in Hcl; [done|done|]. by apply cur_promised_ok, Hh.
    + right. exists w. split; [by rewrite order_perm in Hw|]. done.
Qed.

(** ** Ballots *)

Definition persisted s : N := Meta.u64_at (kv_abs (Meta.c_db (lw_counter (env s)))) Meta.mkBallot.

(** Counters in play are at most [T]. *)
Record counters_below s (T : N) : Prop := {
  cb_inv : ∃ lo, Meta.counter_inv (lw_counter (env s)) lo;
  cb_persisted : (persisted s ≤ T)%N;
}.

Definition same_cluster s s' : Prop :=
  lw_accs (env s') = lw_accs (env s) ∧ lw_view (env s') = lw_view (env s) ∧ lw_now (env s') = lw_now (env s) ∧
  ∀ id, inflight_of s' id = inflight_of s id.

Lemma Compare_counter b o : (Counter o < Counter b)%N → Compare b o = Gt.
Proof. intros Hc. rewrite Compare_eq. by rewrite (proj2 (N.compare_gt_iff _ _) Hc). Qed.

Lemma Compare_not_gt b o : Compare b o ≠ Gt → (Counter b ≤ Counter o)%N.
Proof. intros Hc. destruct (N.lt_ge_cases (Counter o) (Counter b)); [|done]. by apply Compare_counter in H3. Qed.

Lemma nextBallot_total s T lo :
  Meta.counter_inv (lw_counter (env s)) lo → (persisted s ≤ T)%N → (T + 1000 < u64_max)%N →
  ∃ s' n, nextBallot (X := X) self s = (s', inr (MkBallot n self)) ∧ (0 < n)%N ∧ (lo ≤ n)%N ∧ (n ≤ T + 1000)%N ∧
    same_cluster s s' ∧ counters_below s' (T + 1000) ∧ Meta.ballotNext (lw_counter (env s')) = (n + 1)%N.
Proof.
  intros Hi Hp HT. unfold nextBallot. cbn [NextBallot lw_world].
  destruct (Meta.NextBallot_spec (lw_counter (env s)) lo Hi) as (c' & n & -> & Hn0 & Hlo & Hi' & Hnext & Hp').
  { unfold Meta.room, Meta.ballotBlock. unfold persisted in Hp. lia. }
  unfold Meta.ballotBlock in Hp'. eexists _, n. split; [done|]. split; [done|]. split; [done|].
  unfold persisted in Hp. assert (n ≤ T + 1000)%N as Hn.
  { destruct Hi' as [_ [E|(_ & _ & Em & Hle & _)]]; [lia|]. lia. }
  split; [done|]. split; [done|]. split; [|done]. split; simpl; [by eexists|]. unfold persisted. simpl. lia.
Qed.

Lemma counter_inv_next (c : Meta.Counter_ DB) lo :
  Meta.counter_inv c lo → Meta.ballotNext c ≠ 0%N → Meta.counter_inv c (Meta.ballotNext c).
Proof. intros [Hlo [?|(? & ? & ? & ? & ?)]] Hn; [done|]. split; [lia|]. right. lia. Qed.

(** Two turns of the loop are enough. *)
Lemma ballotAbove_total s last T :
  counters_below s T → (Counter last ≤ T)%N → (T + 3000 < u64_max)%N →
  ∃ s' nb, ballotAbove (X := X) self ballot_fuel s last = Some (s', inr nb) ∧ blt last nb ∧ ballot_ok nb ∧
    nb ≠ ballot0 ∧ (Counter nb ≤ T + 2000)%N ∧ same_cluster s s' ∧ counters_below s' (T + 2000).
Proof.
  intros [[lo Hi] Hp] Hl HT. unfold ballot_fuel. cbn [ballotAbove].
  destruct (nextBallot_total s T lo Hi Hp) as (s1 & n1 & -> & Hn0 & Hlo & Hn1 & Hs1 & [[lo1 Hi1] Hp1] & Hnext); [lia|].
  assert (∀ n, (0 < n)%N → MkBallot n self ≠ ballot0) as Hnz by (intros n Hn E; injection E; lia).
  case_bool_decide as Hc.
  - eexists s1, _. split; [done|]. split; [by apply (cmp_gt_lt Compare)|].
    split; [unfold ballot_ok; simpl; lia|]. split; [by apply Hnz|]. split; [simpl; lia|]. split; [done|].
    split; [by eexists|lia].
  - apply Compare_not_gt in Hc. simpl in Hc. cbn [Counter]. rewrite (proj2 (N.leb_le _ _) Hc). cbn [BumpBallot lw_world].
    destruct (Meta.BumpBallot_spec (lw_counter (env s1)) lo1 (Counter last) Hi1) as (c2 & -> & Hi2 & Hgt & _ & Hp2).
    { rewrite Hnext. lia. } { unfold Meta.ballotBlock. lia. }
    unfold Meta.ballotBlock in Hp2. unfold persisted in Hp1.
    set (s2 := s1 <| env := (env s1) <| lw_counter := c2 |> |>).
    destruct (nextBallot_total s2 (T + 1000) (Meta.ballotNext c2)) as (s3 & n3 & E3 & Hn30 & Hlo3 & Hn3 & Hs3 & [Hi3 Hp3] & _).
    { simpl. eapply counter_inv_next; [done|lia]. } { unfold persisted, s2. simpl. lia. } { lia. }
    rewrite E3. assert (Compare (MkBallot n3 self) last = Gt) as Hg by (apply Compare_counter; simpl; lia).
    rewrite bool_decide_true by done. eexists s3, _. split; [done|]. split; [by apply (cmp_gt_lt Compare)|].
    split; [unfold ballot_ok; simpl; lia|]. split; [by apply Hnz|]. split; [simpl; lia|]. split.
    + destruct Hs1 as (A1 & A2 & A3 & A4), Hs3 as (B1 & B2 & B3 & B4).
      split; [by rewrite B1|]. split; [by rewrite B2|]. split; [by rewrite B3|]. intros id. rewrite B4. apply A4.
    + split; [done|lia].
Qed.

(** ** The attempts *)

Context {C : Type} (fn : ChangeFunc (X := X) (C := C)).
Context (fn_total : ∀ now c cur b, ∃ c' val, fn now c cur b = (c', inr val)) (na : Z).

(** The voters bound above [last]: each conflict takes one out. *)
Definition above s (last : Ballot) : list NodeID := filter (λ id, blt last (prom s id)) (VoterIDs v).

Record ready s (last : Ballot) (T : N) : Prop := {
  r_cluster : cluster_ok s;
  r_view : lw_view (env s) = Some v;
  r_time : (na = 0 ∨ lw_now (env s) ≤ na)%Z;
  r_counters : counters_below s T;
  r_last : (Counter last ≤ T)%N;
  r_prom id : id ∈ VoterIDs v → (Counter (prom s id) ≤ T)%N;
}.

(** A conflict of voter [w] leaves fewer voters above. *)
Lemma above_shrinks s s' b last w :
  w ∈ VoterIDs v → blt last b → ble b (prom s w) →
  (∀ id, id ∈ VoterIDs v → prom s' id = if decide (blt (prom s id) b) then b else prom s id) →
  (length (above s' (prom s w)) < length (above s last))%nat.
Proof.
  intros Hw Hlb Hbw Hp. unfold above.
  assert (w ∈ filter (λ id, blt last (prom s id)) (VoterIDs v)) as Hwin.
  { apply list_elem_of_filter. split; [eauto with dstore|done]. }
  assert (w :: filter (λ id, blt (prom s w) (prom s' id)) (VoterIDs v) ⊆+
          filter (λ id, blt last (prom s id)) (VoterIDs v)) as Hsub.
  { apply NoDup_submseteq.
    - apply NoDup_cons. split; [|by apply NoDup_filter]. intros [Hl _]%list_elem_of_filter.
      rewrite (Hp w Hw), decide_False in Hl; [by apply (cmp_lt_irrefl Compare) in Hl|].
      by apply (cmp_nlt_le Compare).
    - intros id [->|[Hl Hid]%list_elem_of_filter]%elem_of_cons; [done|]. apply list_elem_of_filter. split; [|done].
      rewrite (Hp id Hid) in Hl. destruct (decide (blt (prom s id) b)).
      + exfalso. by apply (cmp_lt_not_le Compare _ _ Hl).
      + eapply (cmp_lt_transitive Compare); [|exact Hl]. eauto with dstore. }
  apply submseteq_length in Hsub. simpl in Hsub. lia.
Qed.

(** What a committed proposal has to show for itself. *)
Definition committed s (res : Result) : Prop :=
  (∃ now c c' cur, fn now c cur (res_Ballot res) = (c', inr (res_Value res, res_HasValue res))) ∧
  held_by_quorum s (res_Ballot res) (res_Value res) (res_HasValue res).

Lemma ready_rounds s s' b last' T :
  ready s last' T → same_rest s s' → cluster_ok s' → (Counter b ≤ T)%N →
  (∀ id, id ∈ VoterIDs v → prom s' id = if decide (blt (prom s id) b) then b else prom s id) →
  ready s' last' T.
Proof.
  intros [Rc Rv Rt [Ri Rp] Rl Rq] (E1 & E2 & E3 & E4) Hok Hb Hp. split; try done.
  - by rewrite E1.
  - by rewrite E3.
  - unfold persisted in *. split; [by rewrite E2|]. unfold persisted. by rewrite E2.
  - intros id Hid. rewrite (Hp id Hid). case_decide; [done|by apply Rq].
Qed.

Lemma propose_loop_commits fuel s c last backoff T :
  ready s last T → (length (above s last) < fuel)%nat → (T + 2000 * N.of_nat fuel + 3000 < u64_max)%N →
  ∃ s' c' res, propose_loop self cfg fuel s c reg fn na last backoff = Some (s', c', res, None) ∧ committed s' res.
Proof.
  revert s c last backoff T. induction fuel as [|fuel IH]; intros s c last backoff T [Rc Rv Rt Rb Rl Rq] Hlen HT; [lia|].
  cbn [propose_loop ctxErr CurView lw_world]. rewrite Rv.
  destruct (ballotAbove_total s last T Rb Rl) as (s1 & b & -> & Hlb & Hbu & Hb0 & Hbc & (A1 & A2 & A3 & A4) & Rb1); [lia|].
  assert (∀ id, prom s1 id = prom s id) as Hp1 by (intros id; unfold prom; by rewrite A1).
  assert (ready s1 last (T + 2000)) as Hr1.
  { split; [|by rewrite A2|by rewrite A3|done|lia|].
    - intros id Hid. rewrite A1, A4. by apply Rc.
    - intros id Hid. rewrite Hp1. specialize (Rq id Hid). lia. }
  destruct (prepare_round s1 b (r_cluster _ _ _ Hr1) Hb0 Hbu) as (s2 & r & -> & Hrest & Hok2 & Hp2 & Hr).
  pose proof (ready_rounds _ _ b _ _ Hr1 Hrest Hok2 Hbc Hp2) as Hr2.
  assert (∀ w s' c, w ∈ VoterIDs v → ble b (prom s1 w) → ready s' last (T + 2000) →
    (∀ id, id ∈ VoterIDs v → prom s' id = if decide (blt (prom s1 id) b) then b else prom s1 id) →
    ∃ s'' c' res, (let '(s, r) := handleRoundError s' (EConflict (prom s1 w)) last backoff in
      match r with
      | inl (last, backoff) => propose_loop self cfg fuel s c reg fn na last backoff
      | inr err => Some (s, c, Result0, Some err)
      end) = Some (s'', c', res, None) ∧ committed s'' res) as Hretry.
  { intros w s' c0 Hw Hbw Hr' Hp'. unfold handleRoundError. cbn [randN Sleep lw_world].
    rewrite bool_decide_true.
    2: { apply (cmp_gt_lt Compare). by eapply (cmp_lt_le_trans Compare). }
    destruct Hr' as [Rc' Rv' Rt' Rb' Rl' Rq'].
    apply (IH _ _ (prom s1 w) _ (T + 2000)%N); [|  |lia].
    - destruct s' as [[accs vw ctr now] infl st]. split; try done.
      rewrite Hp1. specialize (Rq w Hw). lia.
    - pose proof (above_shrinks s1 s' b last w Hw Hlb Hbw Hp') as Hlt.
      assert (length (above s1 last) = length (above s last)) as El.
      { unfold above. f_equal. apply list_filter_iff. intros id. by rewrite Hp1. }
      unfold above, prom in *. simpl. lia. }
  destruct Hr as [(best & ->)|(w & Hw & Hbw & ->)]; [|by apply Hretry].
  destruct (fn_total (Now (env s2)) c best b) as (c2 & [value has] & Efn). rewrite Efn.
  destruct (accept_round s2 b value has na Hok2 Hb0 Hbu (r_time _ _ _ Hr2)) as (s3 & r & -> & Hrest3 & Hok3 & Hp3 & Hr3).
  { intros id Hid. rewrite (Hp2 id Hid). case_decide as Hd; [reflexivity|by apply (cmp_nlt_le Compare)]. }
  destruct Hr3 as [[-> Hheld]|(w & Hw & Hbw & ->)].
  - exists s3, c2, (MkResult b value has). split; [done|]. split; [by exists (Now (env s2)), c, c2, best|done].
  - assert (prom s2 w = prom s1 w) as Ew.
    { rewrite (Hp2 w Hw). rewrite (Hp2 w Hw) in Hbw. case_decide; [|done]. by apply (cmp_lt_irrefl Compare) in Hbw. }
    rewrite Ew in *. apply Hretry; [done|eauto with dstore| |].
    + destruct Hr2 as [_ Rv2 Rt2 [Ri2 Rp2] Rl2 Rq2]. destruct Hrest3 as (E1 & E2 & E3 & E4). split; try done.
      * by rewrite E1.
      * by rewrite E3.
      * unfold persisted in *. split; [by rewrite E2|]. unfold persisted. by rewrite E2.
      * intros id Hid. rewrite (Hp3 id Hid). by apply Rq2.
    + intros id Hid. rewrite (Hp3 id Hid). by apply Hp2.
Qed.

(** * What the proposer promises *)

(** C4 Liveness without rivals: when every voter is up, serving the proposer's
    epoch and not over its in-flight cap, a proposal whose change function does
    not refuse commits within one attempt per voter plus one, whatever ballots
    other proposers left behind and in whatever order replies arrive; the result
    is the change applied to a row the prepare phase found, and a quorum of
    voters holds it at the result's ballot. *)
Theorem Propose_commits (s : St) (c : C) (T : N) :
  ready s ballot0 T →
  (T + 2000 * N.of_nat (S (length (Voters v))) + 3000 < u64_max)%N →
  ∃ s' c' res, Propose self cfg (S (length (Voters v))) s c reg fn na = Some (s', c', res, None) ∧ committed s' res.
Proof.
  intros Hr HT. apply (propose_loop_commits _ s c ballot0 _ T Hr); [|done].
  unfold above. pose proof (length_filter (λ id, blt ballot0 (prom s id)) (VoterIDs v)) as Hl.
  unfold VoterIDs in *. rewrite length_fmap in Hl. lia.
Qed.
End cluster.

(** ** A worked proposal *)

Definition toy_world : LW :=
  MkLW (DB := Acceptor.toy_db) PaxosSafety.toy_accs (Some PaxosSafety.toy_v) (Meta.MkCounter ∅ 0 0) 0.

Definition toy_St : St (E := LW) := MkSt toy_world ∅ ∅.
Definition toy_cfg : Config := MkConfig 2000000000 256.
Definition toy_fn : ChangeFunc (X := string) (C := unit) := λ _ c _ _, (c, inr ([x2a], true)).

Lemma toy_ready : ready PaxosSafety.toy_v PaxosSafety.toy_reg toy_cfg 0 toy_St ballot0 0.
Proof.
  assert (∀ x, x ∈ [x01; x02; x03] → healthy PaxosSafety.toy_v (PaxosSafety.toy_voter x)) as Hh.
  { intros x Hx. split; [apply PaxosSafety.toy_voter_ok|..];
      repeat (apply elem_of_cons in Hx as [->|Hx]; [try computes|]); try by apply elem_of_nil in Hx.
    all: eexists; split; [computes|]; by vm_compute. }
  split; try done.
  - intros id Hid. split; [|by vm_compute]. unfold toy_St, toy_world, env, lw_accs, PaxosSafety.toy_accs.
    change (VoterIDs PaxosSafety.toy_v) with [toy_id x01; toy_id x02; toy_id x03] in Hid.
    repeat (apply elem_of_cons in Hid as [->|Hid]; [repeat case_decide; try done; apply Hh; set_solver|]).
    by apply elem_of_nil in Hid.
  - by left.
  - split; [|by vm_compute]. exists 0%N. split; [lia|by left].
  - intros id Hid. change (VoterIDs PaxosSafety.toy_v) with [toy_id x01; toy_id x02; toy_id x03] in Hid.
    repeat (apply elem_of_cons in Hid as [->|Hid]; [by vm_compute|]). by apply elem_of_nil in Hid.
Qed.

Lemma Propose_commits_witness :
  ∃ s' c' res, Propose (H := lw_world (λ l, l)) (toy_id x01) toy_cfg 4 toy_St tt PaxosSafety.toy_reg toy_fn 0 =
      Some (s', c', res, None) ∧
    committed PaxosSafety.toy_v PaxosSafety.toy_reg toy_fn s' res.
Proof.
  apply (Propose_commits (λ l, l) (λ l, reflexivity l) PaxosSafety.toy_v PaxosSafety.toy_reg (toy_id x01) toy_cfg
    ltac:(decides) ltac:(done) toy_fn
    (λ now c cur b, ex_intro _ _ (ex_intro _ _ eq_refl)) 0%Z toy_St tt 0%N toy_ready).
  vm_compute. reflexivity.
Defined.
