(* ===== verification/Catalog.v ===== *)
(** The typed layer over the CASPaxos registers (src/catalog/catalog.go): the
    view, references, the maintenance lease, join tokens, the GC state and keep
    flags.

    The catalog is written against [Registers], what it needs of a proposer:
    proposals that run a change function on the row a prepare phase found, reads,
    identity transitions, scans and purges.  The proposer of Proposer.v is an
    instance.  A Go closure's captured variables are the state a change function
    threads through its calls. *)
From stdpp Require Import pretty.
From S2P Require Import Prelude Store Placement View Wire Ballot Proposer.

(** * Data *)

Definition RegView : bytes := of_string "view".
Definition RegLease : bytes := of_string "lease/maintenance".
Definition RegGC : bytes := of_string "gc".
Definition PrefixRef : bytes := of_string "ref/".
Definition PrefixJoin : bytes := of_string "join/".
Definition PrefixKeep : bytes := of_string "keep/".

(** The value of a reference register; [rv_Version] is the ballot its writer committed at. *)
Record RefValue := MkRefValue {
  Record_ : bytes;
  DeletedAt : Z;
  rv_Version : bytes;
}.

#[global] Instance RefValue_eq_dec : EqDecision RefValue.
Proof. solve_decision. Defined.
#[global] Instance RefValue_eta : Eta RefValue := λ r, MkRefValue (r.(Record_)) (r.(DeletedAt)) (r.(rv_Version)).
#[global] Instance RefValue_ser : Ser RefValue.
Proof.
  refine (ser_via (λ r, (r.(Record_), r.(DeletedAt), r.(rv_Version)))
    (λ '(f0, f1, f2), MkRefValue f0 f1 f2) _). by intros [].
Defined.

Definition RefValue0 : RefValue := MkRefValue [] 0 [].

(** The maintenance lease. *)
Record Lease := MkLease {
  Holder : bytes;
  Expires : Z;
}.

#[global] Instance Lease_eq_dec : EqDecision Lease.
Proof. solve_decision. Defined.
#[global] Instance Lease_eta : Eta Lease := λ r, MkLease (r.(Holder)) (r.(Expires)).
#[global] Instance Lease_ser : Ser Lease.
Proof.
  refine (ser_via (λ r, (r.(Holder), r.(Expires)))
    (λ '(f0, f1), MkLease f0 f1) _). by intros [].
Defined.

Definition Lease0 : Lease := MkLease [] 0.

(** A join token's register value. *)
Record Token := MkToken {
  CreatedAt : Z;
  Token_Weight : N;
}.

#[global] Instance Token_eq_dec : EqDecision Token.
Proof. solve_decision. Defined.
#[global] Instance Token_eta : Eta Token := λ r, MkToken (r.(CreatedAt)) (r.(Token_Weight)).
#[global] Instance Token_ser : Ser Token.
Proof.
  refine (ser_via (λ r, (r.(CreatedAt), r.(Token_Weight)))
    (λ '(f0, f1), MkToken f0 f1) _). by intros [].
Defined.

(** One node's report in the gc register. *)
Record NodeStat := MkNodeStat {
  NS_ID : bytes;
  NS_Marked : N;
  NS_Live : N;
  NS_Freed : N;
  NS_Packs : Z;
  NS_NoMark : bool;
  NS_Copied : N;
  NS_Duration : Z;
}.

#[global] Instance NodeStat_eq_dec : EqDecision NodeStat.
Proof. solve_decision. Defined.
#[global] Instance NodeStat_eta : Eta NodeStat := λ r, MkNodeStat (r.(NS_ID)) (r.(NS_Marked)) (r.(NS_Live)) (r.(NS_Freed)) (r.(NS_Packs)) (r.(NS_NoMark)) (r.(NS_Copied)) (r.(NS_Duration)).
#[global] Instance NodeStat_ser : Ser NodeStat.
Proof.
  refine (ser_via (λ r, (r.(NS_ID), r.(NS_Marked), r.(NS_Live), r.(NS_Freed), r.(NS_Packs), r.(NS_NoMark), r.(NS_Copied), r.(NS_Duration)))
    (λ '(f0, f1, f2, f3, f4, f5, f6, f7), MkNodeStat f0 f1 f2 f3 f4 f5 f6 f7) _). by intros [].
Defined.

(** The gc register; [Garbage] is a float64, kept as its bits. *)
Record GCState := MkGCState {
  GC_Epoch : N;
  Phase : Z;
  BarrierAt : Z;
  SnapshotAt : Z;
  GC_Placement : bytes;
  Acked : list bytes;
  MarkDone : bool;
  SweepWave : Z;
  SweepDone : list NodeStat;
  Hold : bool;
  GC_Last : list NodeStat;
  Nonce : bytes;
  GC_Marked : list NodeStat;
  GC_Error : string;
  GC_Missing : list bytes;
  Tolerate : bool;
  LastOK : N;
  Garbage : N;
}.

#[global] Instance GCState_eq_dec : EqDecision GCState.
Proof. solve_decision. Defined.
#[global] Instance GCState_eta : Eta GCState := λ r, MkGCState (r.(GC_Epoch)) (r.(Phase)) (r.(BarrierAt)) (r.(SnapshotAt)) (r.(GC_Placement)) (r.(Acked)) (r.(MarkDone)) (r.(SweepWave)) (r.(SweepDone)) (r.(Hold)) (r.(GC_Last)) (r.(Nonce)) (r.(GC_Marked)) (r.(GC_Error)) (r.(GC_Missing)) (r.(Tolerate)) (r.(LastOK)) (r.(Garbage)).
#[global] Instance GCState_ser : Ser GCState.
Proof.
  refine (ser_via (λ r, (r.(GC_Epoch), r.(Phase), r.(BarrierAt), r.(SnapshotAt), r.(GC_Placement), r.(Acked), r.(MarkDone), r.(SweepWave), r.(SweepDone), r.(Hold), r.(GC_Last), r.(Nonce), r.(GC_Marked), r.(GC_Error), r.(GC_Missing), r.(Tolerate), r.(LastOK), r.(Garbage)))
    (λ '(f0, f1, f2, f3, f4, f5, f6, f7, f8, f9, f10, f11, f12, f13, f14, f15, f16, f17), MkGCState f0 f1 f2 f3 f4 f5 f6 f7 f8 f9 f10 f11 f12 f13 f14 f15 f16 f17) _). by intros [].
Defined.

Definition GCState0 : GCState := MkGCState 0 0 0 0 [] [] false 0 [] false [] [] [] "" [] false 0 0.

(** GC phases. *)
Definition PhaseIdle : Z := 0.
Definition PhaseBarrier : Z := 1.
Definition PhaseMark : Z := 2.
Definition PhaseSweep : Z := 3.
Definition PhaseAborted : Z := 4.

Definition PhaseName (p : Z) : string :=
  if (p =? PhaseIdle)%Z then "idle"
  else if (p =? PhaseBarrier)%Z then "barrier"
  else if (p =? PhaseMark)%Z then "mark"
  else if (p =? PhaseSweep)%Z then "sweep"
  else if (p =? PhaseAborted)%Z then "aborted"
  else "phase(" +:+ pretty p +:+ ")".

(** A reference CAS that found another value. *)
Record CASMismatch := MkCASMismatch { Current : option RefValue; cm_Version : bytes; HasCurrent : bool }.

(** The errors of the package and those its change functions return. *)
Inductive xerr :=
  | XUnknownRef                 (* ErrUnknownRef *)
  | XNoView                     (* ErrNoView *)
  | XAbort                      (* ErrAbort *)
  | XAlreadyDone                (* errAlreadyDone *)
  | XMismatch (m : CASMismatch)
  | XText (s : string)          (* codec errors and errors.New texts *)
  | XWire (code text : string).  (* a [*wire.Error] *)

Inductive cerr :=
  | CErr (x : xerr)
  | CPaxos (e : perr xerr)               (* a proposer's error, passed on *)
  | CLost (s : string) (e : perr xerr)   (* a proposer's error, wrapped *)
  | CPanic.                              (* a nil dereference or a slice out of range *)

(** The error [Propose] returned: a change function's comes back as it is. *)
Definition of_perr (e : perr xerr) : cerr := match e with EFn x => CErr x | _ => CPaxos e end.

Definition err_of (e : option (perr xerr)) : option cerr :=
  match e with Some e => Some (of_perr e) | None => None end.

Definition is_unknown {X} (e : perr X) : bool := match e with EUnknown _ _ => true | _ => false end.

(** * Pure parts *)

Definition IsTombstone (r : RefValue) : bool := (length (Record_ r) =? 0)%nat.

Definition RefReg (name : bytes) : bytes := PrefixRef ++ name.

(** A CAS precondition; [None] is the nil slice. *)
Record Cond := MkCond {
  ExpectedVersion : option bytes;
  Versioned : bool;
  ExpectedOld : option bytes;
  Keyed : bool;
  Force : bool;
}.

Definition mismatch (cur : RefValue) (present : bool) : CASMismatch :=
  if present then MkCASMismatch (Some cur) (rv_Version cur) true else MkCASMismatch None [] false.

(** [None]: the condition holds. *)
Definition check (cond : Cond) (cur : RefValue) (present : bool) (curKey : bytes) : option xerr :=
  let expect (want : option bytes) (have : bytes) :=
    match want with
    | None => if present then Some (XMismatch (mismatch cur present)) else None
    | Some w => if negb present || bool_decide (w ≠ have) then Some (XMismatch (mismatch cur present)) else None
    end in
  if Force cond then None
  else if Versioned cond then expect (ExpectedVersion cond) (rv_Version cur)
  else if Keyed cond then expect (ExpectedOld cond) curKey
  else None.

(** [b[n:]]: [None] is the panic. *)
Definition slice_from (n : nat) (b : bytes) : option bytes :=
  if (n <=? length b)%nat then Some (drop n b) else None.

(** * What the catalog needs of a proposer *)

(** The states a closure's variables go through over the attempts of a proposal. *)
Definition attempts {X C} (fn : ChangeFunc (X := X) (C := C)) : C → C → Prop :=
  rtc (λ c c', ∃ now cur b, (fn now c cur b).1 = c').

(** What the end of a proposal says about the last call of its change function. *)
Definition propose_outcome {X C} (fn : ChangeFunc (X := X) (C := C)) (c c' : C) (res : Result)
    (err : option (perr X)) : Prop :=
  ∃ c0, attempts fn c c0 ∧
    match err with
    | None | Some (EUnknown _ _) =>
        ∃ now cur, fn now c0 cur (res_Ballot res) = (c', inr (res_Value res, res_HasValue res))
    | Some (EFn e) => ∃ now cur b, fn now c0 cur b = (c', inl e)
    | Some _ => c' = c0
    end.

Class Registers (R : Type) := {
  rg_Propose {X C : Type} : nat → R → C → bytes → ChangeFunc (X := X) (C := C) → Z →
    option (R * C * Result * option (perr X));
  rg_Settle : nat → R → bytes → option (R * (perr xerr + Row));
  rg_Read : nat → R → bytes → option (R * (perr xerr + Row));
  rg_Scan : nat → R → bytes → bytes → Z → option (R * (perr xerr + list MergedRow * option bytes));
  rg_ReadAll : R → bytes → R * option (gmap NodeID Row);
  rg_Purge : R → bytes → Ballot → R * nat;
  rg_View : R → option View;
  rg_Now : R → Z;
  rg_Propose_outcome {X C : Type} fuel s (c : C) reg (fn : ChangeFunc (X := X)) na s' c' res err :
    rg_Propose fuel s c reg fn na = Some (s', c', res, err) → propose_outcome fn c c' res err;
}.

(** * Change functions *)

Section changes.
Context `{Codec View} `{Codec RefValue} `{Codec Lease} `{Codec Token} `{Codec GCState} `{Codec (list (Z * Z))}.

Definition DecodeRef (b : bytes) : string + RefValue := unmarshal b.

(** [out] is the captured variable; [fn] may read the clock. *)
Definition CASView_change (fn : Z → View → xerr + View * bool) : ChangeFunc (X := xerr) (C := option View) :=
  λ now out cur _,
    if negb (row_HasValue cur) then (out, inl XNoView)
    else match Decode (row_Value cur) with
    | inl e => (out, inl (XText e))
    | inr v =>
        match Clone v with
        | None => (out, inl (XText "panic"))   (* not reached: [Clone_eq] *)
        | Some nv =>
            match fn now nv with
            | inl e => (Some v, inl e)
            | inr (nv, bump) =>
                let nv := nv <| Version := u64 (Version v + 1) |> in
                let nv := if bump : bool then nv <| Epoch := u64 (Epoch v + 1) |> else nv in
                (Some nv, inr (Encode nv, true))
            end
        end
    end.

Definition InitView_change (enc : bytes) : ChangeFunc (X := xerr) (C := unit) :=
  λ _ c cur _,
    (c, if row_HasValue cur then inl (XText "catalog: view already exists") else inr (enc, true)).

(** What a change to a reference finds: the value and whether it is live. *)
Definition current_ref (cur : Row) : string + RefValue * bool :=
  if row_HasValue cur then
    match DecodeRef (row_Value cur) with
    | inl e => inl e
    | inr rv => inr (rv, negb (IsTombstone rv))
    end
  else inr (RefValue0, false).

(** [version] is the captured variable. *)
Definition RefPut_change (record : bytes) (cond : Cond) (keyOf : bytes → bytes) :
    ChangeFunc (X := xerr) (C := bytes) :=
  λ _ version cur b,
    match current_ref cur with
    | inl e => (version, inl (XText e))
    | inr (rv, present) =>
        let curKey := if present : bool then keyOf (Record_ rv) else [] in
        match check cond rv present curKey with
        | Some err =>
            if present && bool_decide (Record_ rv = record) then (rv_Version rv, inl XAlreadyDone)
            else (version, inl err)
        | None =>
            let nv := MkRefValue record 0 (Bytes b) in
            (rv_Version nv, inr (marshal nv, true))
        end
    end.

Definition RefDelete_change (cond : Cond) (keyOf : bytes → bytes) : ChangeFunc (X := xerr) (C := unit) :=
  λ now c cur b,
    match current_ref cur with
    | inl e => (c, inl (XText e))
    | inr (rv, present) =>
        if negb present &&
           (Force cond || (Versioned cond && bool_decide (ExpectedVersion cond ≠ None)) ||
            (Keyed cond && bool_decide (ExpectedOld cond ≠ None)))
        then (c, inl XAlreadyDone)
        else
          let curKey := if present : bool then keyOf (Record_ rv) else [] in
          match check cond rv present curKey with
          | Some err => (c, inl err)
          | None =>
              if negb present then (c, inl XAlreadyDone)
              else (c, inr (marshal (MkRefValue [] now (Bytes b)), true))
          end
    end.

(** What [codec.Unmarshal] leaves in a lease when it fails, which the lease
    operations do not look at. *)
Context (lease_rest : bytes → Lease).

Definition lease_of (row : Row) : Lease :=
  if row_HasValue row then
    match unmarshal (row_Value row) with inr l => l | inl _ => lease_rest (row_Value row) end
  else Lease0.

(** [cur] and [held] are the captured variables. *)
Definition AcquireLease_change (self : NodeID) (now ttl : Z) : ChangeFunc (X := xerr) (C := Lease * bool) :=
  λ _ '(_, held) row _,
    let cur := lease_of row in
    if (0 <? length (Holder cur))%nat && bool_decide (Holder cur ≠ arr_bytes self) && (now <? Expires cur)%Z
    then ((cur, held), inl XAlreadyDone)
    else
      let cur := MkLease (arr_bytes self) (i64 (now + ttl)) in
      ((cur, true), inr (marshal cur, true)).

Definition ReleaseLease_change (self : NodeID) : ChangeFunc (X := xerr) (C := unit) :=
  λ _ c row _,
    (c, if bool_decide (Holder (lease_of row) ≠ arr_bytes self) then inl XAlreadyDone
        else inr (marshal Lease0, true)).

Definition CreateToken_change (weight : N) : ChangeFunc (X := xerr) (C := unit) :=
  λ now c row _,
    (c, if row_HasValue row && (0 <? length (row_Value row))%nat then inl (XText "token exists")
        else inr (marshal (MkToken now weight), true)).

Definition DeleteToken_change : ChangeFunc (X := xerr) (C := unit) := λ _ c _ _, (c, inr ([], true)).

(** [fn] reads the clock and gives the state it leaves behind, with its error if
    it has one. *)
Definition CASGC_change (fn : Z → GCState → GCState * option xerr) : ChangeFunc (X := xerr) (C := GCState) :=
  λ now out row _,
    match (if row_HasValue row then unmarshal (row_Value row) else inr GCState0) with
    | inl e => (out, inl (XText e))
    | inr g => let '(g, err) := fn now g in (g, match err with Some e => inl e | None => inr (marshal g, true) end)
    end.

Definition SetKeep_change : ChangeFunc (X := xerr) (C := unit) :=
  λ now c _ _, (c, inr (marshal [(0, now)]%Z, true)).

(** * Operations *)

Context {R : Type} `{Registers R}.

(** [None] is running out of fuel, here and below. *)
Definition ReadView (fuel : nat) (s : R) : option (R * (cerr + View)) :=
  '(s, r) ← rg_Read fuel s RegView;
  Some (s, match r with
           | inl e => inl (of_perr e)
           | inr row =>
               if negb (row_HasValue row) then inl (CErr XNoView)
               else match Decode (row_Value row) with inl e => inl (CErr (XText e)) | inr v => inr v end
           end).

(** The view returned, and the error. *)
Definition CASView (fuel : nat) (s : R) (fn : Z → View → xerr + View * bool) :
    option (R * option View * option cerr) :=
  '(s, out, res, err) ← rg_Propose fuel s None RegView (CASView_change fn) 0;
  match err with
  | Some err =>
      if is_unknown err then
        '(s, r) ← rg_Settle fuel s RegView;
        Some match r with
        | inr row =>
            if row_HasValue row then
              match Decode (row_Value row) with
              | inr v =>
                  match out with
                  | None => (s, None, Some CPanic)
                  | Some o =>
                      if (Version v =? Version o)%N then (s, Some v, None)
                      else (s, Some v, Some (CLost "catalog: view CAS lost" err))
                  end
              | inl _ => (s, out, Some (of_perr err))
              end
            else (s, out, Some (of_perr err))
        | inl _ => (s, out, Some (of_perr err))
        end
      else Some (s, out, Some (of_perr err))
  | None =>
      Some match Decode (res_Value res) with
      | inl e => (s, None, Some (CErr (XText e)))
      | inr v => (s, Some v, None)
      end
  end.

Definition InitView (fuel : nat) (s : R) (v : View) : option (R * option cerr) :=
  '(s, _, _, err) ← rg_Propose fuel s tt RegView (InitView_change (Encode v)) 0;
  Some (s, err_of err).

(** The value returned and the error: a tombstone comes with [XUnknownRef]. *)
Definition RefGet (fuel : nat) (s : R) (name : bytes) : option (R * RefValue * option cerr) :=
  '(s, r) ← rg_Read fuel s (RefReg name);
  Some match r with
  | inl e => (s, RefValue0, Some (of_perr e))
  | inr row =>
      if negb (row_HasValue row) then (s, RefValue0, Some (CErr XUnknownRef))
      else match DecodeRef (row_Value row) with
      | inl e => (s, RefValue0, Some (CErr (XText e)))
      | inr rv => (s, rv, if IsTombstone rv then Some (CErr XUnknownRef) else None)
      end
  end.

Definition RefPut (fuel : nat) (s : R) (name record : bytes) (cond : Cond) (notAfter : Z)
    (keyOf : bytes → bytes) : option (R * bytes * option cerr) :=
  '(s, version, _, err) ← rg_Propose fuel s [] (RefReg name) (RefPut_change record cond keyOf) notAfter;
  match err with
  | Some (EFn XAlreadyDone) => Some (s, version, None)
  | Some err =>
      if is_unknown err then
        '(s, r) ← rg_Settle fuel s (RefReg name);
        Some match r with
        | inl _ => (s, [], Some (of_perr err))
        | inr row =>
            let lost := (s, [], Some (CLost "catalog: reference write lost" err)) in
            if row_HasValue row then
              match DecodeRef (row_Value row) with
              | inr rv => if bool_decide (Record_ rv = record) then (s, rv_Version rv, None) else lost
              | inl _ => lost
              end
            else lost
        end
      else Some (s, version, Some (of_perr err))
  | None => Some (s, version, None)
  end.

Definition RefDelete (fuel : nat) (s : R) (name : bytes) (cond : Cond) (keyOf : bytes → bytes) :
    option (R * Ballot * option cerr) :=
  '(s, _, res, err) ← rg_Propose fuel s tt (RefReg name) (RefDelete_change cond keyOf) 0;
  match err with
  | Some (EFn XAlreadyDone) => Some (s, ballot0, None)
  | Some err =>
      if is_unknown err then
        '(s, r) ← rg_Settle fuel s (RefReg name);
        Some match r with
        | inr row =>
            if row_HasValue row then
              match DecodeRef (row_Value row) with
              | inr rv =>
                  if IsTombstone rv then (s, row_Accepted row, None) else (s, ballot0, Some (of_perr err))
              | inl _ => (s, ballot0, Some (of_perr err))
              end
            else (s, ballot0, Some (of_perr err))
        | inl _ => (s, ballot0, Some (of_perr err))
        end
      else Some (s, res_Ballot res, Some (of_perr err))
  | None => Some (s, res_Ballot res, None)
  end.

(** Whether the purge was sent. *)
Definition TryPurge (s : R) (name : bytes) (b : Ballot) : R * bool :=
  let '(s, rows) := rg_ReadAll s (RefReg name) in
  let rows := default ∅ rows in
  match rg_View s with
  | None => (s, false)
  | Some cur =>
      if (size rows <? length (Voters cur))%nat then (s, false)
      else if forallb (λ '(_, r), bool_decide (Compare (row_Accepted r) b = Eq)) (map_to_list rows)
      then ((rg_Purge s (RefReg name) b).1, true)
      else (s, false)
  end.

Record RefEntry := MkRefEntry { re_Name : bytes; re_Value : RefValue; re_Undecided : bool }.

(** The entry of a scanned register: [None] the panic, [Some None] skipped. *)
Definition entry_of (reg : bytes) (row : Row) (und : bool) : option (option RefEntry) :=
  if negb (row_HasValue row) then Some None
  else match DecodeRef (row_Value row) with
  | inl _ => Some None
  | inr rv =>
      if IsTombstone rv then Some None
      else match slice_from (length PrefixRef) reg with
      | None => None
      | Some name => Some (Some (MkRefEntry name rv und))
      end
  end.

(** A page of rows as entries and the name to continue after. *)
Definition list_page (rows : list MergedRow) (next : option bytes) : option (list RefEntry * bytes) :=
  es ← mapM (λ r, entry_of (mr_Reg r) (mr_Row r) (Undecided r)) rows;
  nextName ← match next with None => Some [] | Some n => slice_from (length PrefixRef) n end;
  Some (omap id es, nextName).

Definition RefList (fuel : nat) (s : R) (prefix after : bytes) (limit : Z) :
    option (R * (cerr + list RefEntry * bytes)) :=
  let afterReg := if bool_decide (after = []) then [] else RefReg after in
  '(s, r) ← rg_Scan fuel s (PrefixRef ++ prefix) afterReg limit;
  Some (s, match r with
  | inl e => inl (of_perr e)
  | inr (rows, next) =>
      match list_page rows next with None => inl CPanic | Some page => inr page end
  end).

(** The rows of one page of the snapshot: undecided registers are settled. *)
Fixpoint snapshot_rows (fuel : nat) (s : R) (rows : list MergedRow) (out : list RefEntry) :
    option (R * (cerr + list RefEntry)) :=
  match rows with
  | [] => Some (s, inr out)
  | r :: rows =>
      '(s, row) ← (if Undecided r then rg_Settle fuel s (mr_Reg r) else Some (s, inr (mr_Row r)));
      match row with
      | inl err => Some (s, inl (CLost ("settle " +:+ to_string (mr_Reg r)) err))
      | inr row =>
          match entry_of (mr_Reg r) row false with
          | None => Some (s, inl CPanic)
          | Some e => snapshot_rows fuel s rows (out ++ option_list e)
          end
      end
  end.

Fixpoint snapshot_loop (pages fuel : nat) (s : R) (after : bytes) (out : list RefEntry) :
    option (R * (cerr + list RefEntry)) :=
  match pages with
  | O => None
  | S pages =>
      '(s, r) ← rg_Scan fuel s PrefixRef after 10000;
      match r with
      | inl e => Some (s, inl (of_perr e))
      | inr (rows, next) =>
          '(s, r) ← snapshot_rows fuel s rows out;
          match r, next with
          | inl e, _ => Some (s, inl e)
          | inr out, None => Some (s, inr out)
          | inr out, Some after => snapshot_loop pages fuel s after out
          end
      end
  end.

Definition RefsSnapshot (pages fuel : nat) (s : R) : option (R * (cerr + list RefEntry)) :=
  snapshot_loop pages fuel s [] [].

(** Whether [self] holds the lease afterwards, and the current lease. *)
Definition AcquireLease (fuel : nat) (s : R) (self : NodeID) (ttl : Z) :
    option (R * bool * Lease * option cerr) :=
  '(s, (cur, held), _, err) ←
    rg_Propose fuel s (Lease0, false) RegLease (AcquireLease_change self (rg_Now s) ttl) 0;
  Some match err with
  | Some (EFn XAlreadyDone) => (s, false, cur, None)
  | Some err => (s, false, cur, Some (of_perr err))
  | None => (s, held, cur, None)
  end.

Definition ReleaseLease (fuel : nat) (s : R) (self : NodeID) : option (R * option cerr) :=
  '(s, _, _, err) ← rg_Propose fuel s tt RegLease (ReleaseLease_change self) 0;
  Some (s, match err with Some (EFn XAlreadyDone) => None | _ => err_of err end).

Definition ReadLease (fuel : nat) (s : R) : option (R * (cerr + Lease)) :=
  '(s, r) ← rg_Read fuel s RegLease;
  Some (s, match r with inl e => inl (of_perr e) | inr row => inr (lease_of row) end).

Context (blake3 : bytes → bytes).

Definition TokenID (token : bytes) : bytes := blake3 token.
Definition TokenReg (id : bytes) : bytes := PrefixJoin ++ id.

(** [random] is what [rand.Read] gives: an error or 32 bytes. *)
Definition CreateToken (fuel : nat) (s : R) (random : string + bytes) (weight : N) :
    option (R * (cerr + bytes)) :=
  match random with
  | inl e => Some (s, inl (CErr (XText e)))
  | inr token =>
      '(s, _, _, err) ← rg_Propose fuel s tt (TokenReg (TokenID token)) (CreateToken_change weight) 0;
      Some (s, match err with Some e => inl (of_perr e) | None => inr token end)
  end.

Definition ReadToken (fuel : nat) (s : R) (id : bytes) : option (R * (cerr + Token)) :=
  '(s, r) ← rg_Read fuel s (TokenReg id);
  Some (s, match r with
  | inl e => inl (of_perr e)
  | inr row =>
      if negb (row_HasValue row) || (length (row_Value row) =? 0)%nat then inl (CErr XUnknownRef)
      else match unmarshal (row_Value row) with inl e => inl (CErr (XText e)) | inr t => inr t end
  end).

Definition DeleteToken (fuel : nat) (s : R) (id : bytes) : option (R * option cerr) :=
  '(s, _, _, err) ← rg_Propose fuel s tt (TokenReg id) DeleteToken_change 0;
  Some (s, err_of err).

(** The tokens by id, in scan order; [None] inside is the panic. *)
Fixpoint tokens_of (rows : list MergedRow) (out : gmap bytes Token) : option (gmap bytes Token) :=
  match rows with
  | [] => Some out
  | r :: rows =>
      if negb (row_HasValue (mr_Row r)) || (length (row_Value (mr_Row r)) =? 0)%nat then tokens_of rows out
      else match unmarshal (row_Value (mr_Row r)) with
      | inl _ => tokens_of rows out
      | inr t =>
          match slice_from (length PrefixJoin) (mr_Reg r) with
          | None => None
          | Some id => tokens_of rows (<[id := t]> out)
          end
      end
  end.

Definition ListTokens (fuel : nat) (s : R) : option (R * (cerr + gmap bytes Token)) :=
  '(s, r) ← rg_Scan fuel s PrefixJoin [] 100000;
  Some (s, match r with
  | inl e => inl (of_perr e)
  | inr (rows, _) => match tokens_of rows ∅ with None => inl CPanic | Some m => inr m end
  end).

Definition ReadGC (fuel : nat) (s : R) : option (R * (cerr + GCState)) :=
  '(s, r) ← rg_Read fuel s RegGC;
  Some (s, match r with
  | inl e => inl (of_perr e)
  | inr row =>
      if row_HasValue row then
        match unmarshal (row_Value row) with inl e => inl (CErr (XText e)) | inr g => inr g end
      else inr GCState0
  end).

Definition CASGC (fuel : nat) (s : R) (fn : Z → GCState → GCState * option xerr) :
    option (R * GCState * option cerr) :=
  '(s, out, _, err) ← rg_Propose fuel s GCState0 RegGC (CASGC_change fn) 0;
  Some (s, out, err_of err).

Definition SetKeep (fuel : nat) (s : R) (name : bytes) : option (R * option cerr) :=
  '(s, _, _, err) ← rg_Propose fuel s tt (PrefixKeep ++ name) SetKeep_change 0;
  Some (s, err_of err).
End changes.

(** * The proposer is such a thing *)

Section proposer_instance.
Context {E : Type} `{World E} `{Codec View} (self : NodeID) (cfg : Config).

(** Errors that leave a closure's variables as the last attempt left them. *)
Definition plain {X} (e : perr X) : Prop := match e with EFn _ | EUnknown _ _ => False | _ => True end.

Lemma classify_plain {X} v r (e : perr X) : classify v r = inl e → plain e.
Proof.
  unfold classify. destruct (rp_res r); [by intros [= <-]|].
  repeat (case_bool_decide || case_match); naive_solver.
Qed.

Lemma prepare_loop_plain {X} v rs best n first (e : perr X) :
  prepare_loop v rs best n first = inl e → plain e.
Proof.
  revert best n first. induction rs as [|r rs IH]; intros best n first; cbn [prepare_loop]; [by intros [= <-]|].
  destruct (classify v r) as [e'|m] eqn:Ec.
  - apply classify_plain in Ec. destruct e'; try done; [by intros [= <-]..|by apply IH|by apply IH|by apply IH|by apply IH|by apply IH].
  - repeat case_match; try done; apply IH.
Qed.

Lemma accept_loop_not_fn {X} v rs n first (e : perr X) :
  accept_loop v rs n first = Some e → is_unknown e = false → plain e.
Proof.
  revert n first. induction rs as [|r rs IH]; intros n first; cbn [accept_loop].
  { case_match; by intros [= <-]. }
  destruct (classify v r) as [e'|m] eqn:Ec.
  - apply classify_plain in Ec. destruct e'; try done; try (by intros [= <-]); apply IH.
  - repeat case_match; try done; apply IH.
Qed.

Lemma handleRoundError_plain {X} (s : St) (e : perr X) last backoff s' e' :
  plain e → handleRoundError s e last backoff = (s', inr e') → plain e'.
Proof.
  intros Hp. destruct e; try done; simpl; try (by intros [= _ <-]).
  destruct (randN _ _) as [e1 r]. destruct (Sleep _ _) as [e2 [c|]]; by intros [= _ <-].
Qed.

Lemma ballotAbove_plain {X} fuel (s : St) b s' (e : perr X) :
  ballotAbove self fuel s b = Some (s', inl e) → plain e.
Proof.
  revert s. induction fuel as [|fuel IH]; intros s; [done|]. cbn [ballotAbove]. unfold nextBallot.
  destruct (NextBallot (env s)) as [e1 [err|c]]; [by intros [= _ <-]|].
  repeat case_match; try done; try (by intros [= _ <-]); apply IH.
Qed.

Lemma propose_loop_outcome {X C} fuel (s : St) (c : C) reg (fn : ChangeFunc (X := X)) na last backoff s' c' res err :
  propose_loop self cfg fuel s c reg fn na last backoff = Some (s', c', res, err) →
  propose_outcome fn c c' res err.
Proof.
  assert (∀ c0 c1 (res : Result) e, plain e → attempts fn c0 c1 → propose_outcome fn c0 c1 res (Some e)) as Hplain.
  { intros c0 c1 r e Hp Ha. exists c1. split; [done|]. by destruct e. }
  revert s c last backoff. induction fuel as [|fuel IH]; intros s c last backoff; [done|]. cbn [propose_loop].
  destruct (ctxErr _); [intros [= _ <- _ <-]; by apply Hplain; [|apply rtc_refl]|].
  destruct (CurView _) as [v|]; [|intros [= _ <- _ <-]; by apply Hplain; [|apply rtc_refl]].
  destruct (ballotAbove _ _ _ _) as [[s1 [e|b]]|] eqn:Eb; [| |done].
  { intros [= _ <- _ <-]. apply Hplain; [by eapply ballotAbove_plain|apply rtc_refl]. }
  (* a retry, or the error that ends the proposal *)
  assert (∀ c1 sr, attempts fn c c1 → (∀ e, sr.2 = inr e → plain e) →
    (let '(s, r) := sr in match r with
       | inl (last, backoff) => propose_loop self cfg fuel s c1 reg fn na last backoff
       | inr err => Some (s, c1, Result0, Some err)
       end) = Some (s', c', res, err) → propose_outcome fn c c' res err) as Hagain.
  { intros c1 [s2 [[l' b']|e]] Ha Hp; simpl in *.
    - intros (c0 & Ha' & Ho)%IH. exists c0. split; [by etrans|done].
    - intros [= _ <- _ <-]. by apply Hplain; [apply Hp|]. }
  unfold prepare. destruct (broadcast cfg s1 v _) as [s2 rs]. destruct (prepare_loop v rs Row0 0 None) as [e|cur] eqn:Ep.
  { apply Hagain; [apply rtc_refl|]. intros e' He. apply prepare_loop_plain in Ep.
    destruct (handleRoundError s2 e last backoff) as [s3 r] eqn:Eh. simpl in He. subst r. by eapply handleRoundError_plain. }
  destruct (fn (Now (env s2)) c cur b) as [c1 [x|[val has]]] eqn:Efn.
  all: assert (attempts fn c c1) as Ha by (apply rtc_once; exists (Now (env s2)), cur, b; by rewrite Efn).
  - destruct (_ && _).
    { intros [= _ <- _ <-]. exists c. split; [apply rtc_refl|]. by exists (Now (env s2)), cur, b. }
    assert (∀ r, propose_outcome fn c c1 r (Some (EFn x))) as Hfn.
    { intros r. exists c. split; [apply rtc_refl|]. by exists (Now (env s2)), cur, b. }
    unfold accept. destruct (broadcast cfg s2 v _) as [s3 rs3].
    destruct (accept_loop v rs3 0 None) as [ae|] eqn:Ea; [|by intros [= _ <- <- <-]].
    destruct (handleRoundError s3 ae last backoff) as [s4 [[l' b']|e2]] eqn:Eh.
    + by apply (Hagain c1 (s4, inl (l', b'))).
    + destruct ae; try (by intros [= _ <- <- <-]).
      all: intros [= _ <- <- <-]; apply Hplain; [|done].
      all: eapply handleRoundError_plain; [|exact Eh]; by eapply accept_loop_not_fn.
  - unfold accept. destruct (broadcast cfg s2 v _) as [s3 rs3].
    destruct (accept_loop v rs3 0 None) as [ae|] eqn:Ea; last first.
    { intros [= _ <- <- <-]. exists c. split; [apply rtc_refl|]. by exists (Now (env s2)), cur. }
    destruct (is_unknown ae) eqn:Eu.
    { destruct ae; try done. intros [= _ <- <- <-]. exists c. split; [apply rtc_refl|]. by exists (Now (env s2)), cur. }
    pose proof (accept_loop_not_fn _ _ _ _ _ Ea Eu) as Hp.
    assert (∀ e', (handleRoundError s3 ae last backoff).2 = inr e' → plain e') as He'.
    { intros e' He. destruct (handleRoundError s3 ae last backoff) as [s4 r] eqn:Eh. simpl in He. subst r.
      by eapply handleRoundError_plain. }
    destruct ae; try done; apply (Hagain c1 (handleRoundError s3 _ last backoff)); done.
Qed.

(** A proposer over any world serves the catalog. *)
#[global] Program Instance proposer_registers : Registers (St (E := E)) := {|
  rg_Propose X C := Propose self cfg;
  rg_Settle := Settle self cfg;
  rg_Read := Read self cfg;
  rg_Scan := Scan cfg;
  rg_ReadAll := ReadAll (X := xerr) cfg;
  rg_Purge := Purge cfg;
  rg_View s := CurView (env s);
  rg_Now s := Now (env s);
|}.
Next Obligation. intros X C fuel s c reg fn na s' c' res err Hp. exact (propose_loop_outcome _ _ _ _ _ _ _ _ _ _ _ _ Hp). Qed.
End proposer_instance.

(** * What the operations promise *)

Section promises.
Context `{Codec View} `{Codec RefValue} `{Codec Lease} `{Codec Token} `{Codec GCState} `{Codec (list (Z * Z))}.
Context {R : Type} `{Registers R}.

(** The condition of a write, evaluated on the row a change function found. *)
Definition cond_holds (cond : Cond) (keyOf : bytes → bytes) (rv : RefValue) (present : bool) : Prop :=
  match Force cond, Versioned cond, Keyed cond with
  | true, _, _ | false, false, false => True
  | false, true, _ =>
      match ExpectedVersion cond with None => present = false | Some w => present = true ∧ w = rv_Version rv end
  | false, false, true =>
      match ExpectedOld cond with
      | None => present = false
      | Some w => present = true ∧ w = keyOf (Record_ rv)
      end
  end.

Lemma check_spec cond keyOf rv present :
  match check cond rv present (if present then keyOf (Record_ rv) else []) with
  | None => cond_holds cond keyOf rv present
  | Some e => e = XMismatch (mismatch rv present) ∧ ¬ cond_holds cond keyOf rv present
  end.
Proof.
  unfold check, cond_holds. destruct cond as [[w|] [] [w'|] [] []], present; simpl;
    repeat case_bool_decide; naive_solver.
Qed.

(** A proposal of a put, call by call. *)
Lemma RefPut_change_spec record cond keyOf now ver cur b ver' r :
  RefPut_change record cond keyOf now ver cur b = (ver', r) →
  match r with
  | inr (value, has) =>
      (∃ rv present, current_ref cur = inr (rv, present) ∧ cond_holds cond keyOf rv present) ∧
      ver' = Bytes b ∧ has = true ∧ DecodeRef value = inr (MkRefValue record 0 (Bytes b))
  | inl XAlreadyDone =>
      ∃ rv, current_ref cur = inr (rv, true) ∧ ¬ cond_holds cond keyOf rv true ∧
        Record_ rv = record ∧ ver' = rv_Version rv
  | inl (XMismatch m) =>
      ∃ rv present, current_ref cur = inr (rv, present) ∧ ¬ cond_holds cond keyOf rv present ∧
        m = mismatch rv present ∧ ¬ (present = true ∧ Record_ rv = record)
  | inl e => ∃ s, e = XText s ∧ current_ref cur = inl s
  end.
Proof.
  unfold RefPut_change. destruct (current_ref cur) as [e|[rv present]] eqn:Ec; [intros [= <- <-]; eauto|].
  pose proof (check_spec cond keyOf rv present) as Hc.
  destruct (check _ _ _ _) as [e|]; last first.
  { intros [= <- <-]. unfold DecodeRef. rewrite unmarshal_marshal. eauto 10. }
  destruct Hc as [-> Hn]. destruct present; simpl; [case_bool_decide|]; intros [= <- <-].
  - exists rv. done.
  - exists rv, true. naive_solver.
  - exists rv, false. naive_solver.
Qed.

(** A reference write reports success only for a reason: the proposal
    committed [record] at the version returned, on top of a row that satisfied
    the condition; or the row found already held this very record, at the version
    returned; or the outcome was unknown and settling the register found the
    record there.  A mismatch is reported only when the condition failed on a row
    found, with that row's value and version, and the record was not the one
    written. *)
Theorem RefPut_outcome fuel s name record cond notAfter keyOf s' version err :
  RefPut fuel s name record cond notAfter keyOf = Some (s', version, err) →
  match err with
  | None =>
      (∃ c res, rg_Propose fuel s [] (RefReg name) (RefPut_change record cond keyOf) notAfter = Some (s', c, res, None) ∧
         (∃ cur rv present, current_ref cur = inr (rv, present) ∧ cond_holds cond keyOf rv present) ∧
         version = Bytes (res_Ballot res) ∧ res_HasValue res = true ∧
         DecodeRef (res_Value res) = inr (MkRefValue record 0 version)) ∨
      (∃ cur rv, current_ref cur = inr (rv, true) ∧ Record_ rv = record ∧ version = rv_Version rv) ∨
      (∃ s1 row rv, rg_Settle fuel s1 (RefReg name) = Some (s', inr row) ∧ row_HasValue row = true ∧
         DecodeRef (row_Value row) = inr rv ∧ Record_ rv = record ∧ version = rv_Version rv)
  | Some (CErr (XMismatch m)) =>
      ∃ cur rv present, current_ref cur = inr (rv, present) ∧ ¬ cond_holds cond keyOf rv present ∧
        m = mismatch rv present ∧ ¬ (present = true ∧ Record_ rv = record)
  | Some e => e ≠ CPanic ∧ e ≠ CErr XAlreadyDone
  end.
Proof.
  unfold RefPut. destruct (rg_Propose _ _ _ _ _ _) as [[[[s1 c] res] e]|] eqn:Ep; [|done]. simpl.
  destruct (rg_Propose_outcome _ _ _ _ _ _ _ _ _ _ Ep) as (c0 & _ & Ho).
  destruct e as [e|]; last first.
  { destruct Ho as (now & cur & Ef). apply RefPut_change_spec in Ef as ((rv & present & Hc & Hh) & -> & E & Hd).
    intros [= <- <- <-]. left. eauto 15. }
  destruct e as [| | | | | | | |x]; simpl; try (by intros [= <- <- <-]).
  - destruct (rg_Settle fuel s1 (RefReg name)) as [[s2 [e|row]]|] eqn:Es; [| |done]; simpl.
    + by intros [= <- <- <-].
    + destruct (row_HasValue row) eqn:Eh; [|by intros [= <- <- <-]].
      destruct (DecodeRef (row_Value row)) as [|rv] eqn:Ed; [by intros [= <- <- <-]|].
      case_bool_decide as Hr; intros [= <- <- <-]; [|done]. right. right. by exists s1, row, rv.
  - destruct Ho as (now & cur & b & Ef). apply RefPut_change_spec in Ef.
    destruct x; try (destruct Ef as (? & ? & _); done); simpl.
    + destruct Ef as (rv & Hc & _ & Hr & ->). intros [= <- <- <-]. right. left. eauto 10.
    + destruct Ef as (rv & present & Hc & Hn & -> & Hr). intros [= <- <- <-]. eauto 10.
    + by intros [= <- <- <-].
Qed.

(** The view a change makes of the one it found. *)
Definition next_view (v nv : View) (bump : bool) : View :=
  let nv := nv <| Version := u64 (Version v + 1) |> in
  if bump then nv <| Epoch := u64 (Epoch v + 1) |> else nv.

Lemma CASView_change_spec fn now out cur b out' r :
  CASView_change fn now out cur b = (out', r) →
  match r with
  | inr (value, has) => ∃ v nv bump, row_HasValue cur = true ∧ Decode (row_Value cur) = inr v ∧
      fn now v = inr (nv, bump) ∧ out' = Some (next_view v nv bump) ∧ has = true ∧ value = Encode (next_view v nv bump)
  | inl x => (∃ v, Decode (row_Value cur) = inr v ∧ fn now v = inl x ∧ out' = Some v) ∨
      (out' = out ∧ (x = XNoView ∨ ∃ s, x = XText s))
  end.
Proof.
  unfold CASView_change. destruct (row_HasValue cur); simpl; [|intros [= <- <-]; eauto].
  destruct (Decode (row_Value cur)) as [e|v]; [intros [= <- <-]; eauto|]. rewrite Clone_eq.
  destruct (fn now v) as [x|[nv bump]] eqn:Ef; intros [= <- <-]; [left; eauto|].
  exists v, nv, bump. split_and!; first [assumption|reflexivity].
Qed.

(** A view CAS never dereferences a missing view.  When it succeeds, the view
    it returns is either what its change made of the view it found, committed
    with the version one above it and the epoch one above exactly when asked, or,
    after an unknown outcome, the view that settling found, of the version it
    proposed.  When the change itself refused, the register's view comes back as
    it was found. *)
Theorem CASView_outcome fuel s fn s' out err :
  CASView fuel s fn = Some (s', out, err) →
  match err with
  | None => ∃ now v nv bump w, fn now v = inr (nv, bump) ∧ out = Some w ∧
      (w = next_view v nv bump ∨
       (Version w = u64 (Version v + 1) ∧
        ∃ s1 row, rg_Settle fuel s1 RegView = Some (s', inr row) ∧ Decode (row_Value row) = inr w))
  | Some (CErr x) => (∃ now v, out = Some v ∧ fn now v = inl x) ∨ x = XNoView ∨ ∃ e, x = XText e
  | Some e => e ≠ CPanic
  end.
Proof.
  unfold CASView. destruct (rg_Propose _ _ _ _ _ _) as [[[[s1 c] res] e]|] eqn:Ep; [|done]. simpl.
  destruct (rg_Propose_outcome _ _ _ _ _ _ _ _ _ _ Ep) as (c0 & _ & Ho).
  destruct e as [e|]; last first.
  { destruct Ho as (now & cur & Ef). apply CASView_change_spec in Ef as (v & nv & bump & _ & _ & Hf & -> & _ & Ev).
    rewrite Ev, Decode_Encode. intros [= <- <- <-]. exists now, v, nv, bump, (next_view v nv bump). auto. }
  destruct e as [| | | | | | | |x]; simpl; try (by intros [= <- <- <-]).
  - destruct Ho as (now & cur & Ef).
    apply CASView_change_spec in Ef as (v & nv & bump & _ & _ & Hf & -> & _ & Ev).
    assert (Version (next_view v nv bump) = u64 (Version v + 1)) as Ever by (unfold next_view; by destruct bump).
    destruct (rg_Settle fuel s1 RegView) as [[s2 [e|row]]|] eqn:Es; [| |done]; simpl; [by intros [= <- <- <-]|].
    destruct (row_HasValue row); [|by intros [= <- <- <-]].
    destruct (Decode (row_Value row)) as [|w] eqn:Ed; [by intros [= <- <- <-]|].
    destruct (N.eqb_spec (Version w) (Version (next_view v nv bump))) as [E|_]; intros [= <- <- <-]; [|done].
    exists now, v, nv, bump, w. split; [done|]. split; [done|]. right. split; [congruence|eauto].
  - destruct Ho as (now & cur & b & Ef). apply CASView_change_spec in Ef.
    intros [= <- <- <-]. destruct Ef as [(v & _ & Hf & ->)|(_ & [->|[e ->]])]; eauto.
Qed.

(** After an unknown outcome the check for success compares versions only:
    when another proposer's view of the same version was chosen instead, the CAS
    reports success although its own change is not in that view. *)
Theorem CASView_unknown_other fuel s fn s1 o res n q s2 row w :
  rg_Propose fuel s None RegView (CASView_change fn) 0 = Some (s1, Some o, res, Some (EUnknown n q)) →
  rg_Settle fuel s1 RegView = Some (s2, inr row) →
  row_HasValue row = true → Decode (row_Value row) = inr w → Version w = Version o → w ≠ o →
  CASView fuel s fn = Some (s2, Some w, None).
Proof.
  intros Ep Es Eh Ed Ev _. unfold CASView. rewrite Ep. simpl. rewrite Es. simpl. rewrite Eh, Ed.
  by rewrite Ev, N.eqb_refl.
Qed.
End promises.

(** ** Worked operations *)

(** Registers with one voter's worth of behaviour: proposals see [sc_row], end as
    [sc_err] says, and settling finds [sc_settled]. *)
Record script := MkScript { sc_row : Row; sc_err : option (nat * nat); sc_settled : Row }.

Definition toy_cb : Ballot := MkBallot 7 (toy_id x01).

Definition script_propose {X C} (s : script) (c : C) (fn : ChangeFunc (X := X) (C := C)) :
    option (script * C * Result * option (perr X)) :=
  match fn 0%Z c (sc_row s) toy_cb with
  | (c, inl e) => Some (s, c, Result0, Some (EFn e))
  | (c, inr (v, h)) =>
      Some (s, c, MkResult toy_cb v h,
            match sc_err s with Some (n, q) => Some (EUnknown n q) | None => None end)
  end.

#[local] Program Instance script_registers : Registers script := {|
  rg_Propose X C fuel s c reg fn na := script_propose s c fn;
  rg_Settle fuel s reg := Some (s, inr (sc_settled s));
  rg_Read fuel s reg := Some (s, inr (sc_row s));
  rg_Scan fuel s p a l := Some (s, inr ([MkMergedRow (p ++ [x61]) (sc_row s) false], None));
  rg_ReadAll s reg := (s, Some ∅);
  rg_Purge s reg b := (s, 0%nat);
  rg_View s := None;
  rg_Now s := 0%Z;
|}.
Next Obligation.
  intros X C fuel s c reg fn na s' c' res err. unfold script_propose.
  destruct (fn 0%Z c (sc_row s) toy_cb) as [c1 [e|[v h]]] eqn:E; intros [= <- <- <- <-].
  - exists c. split; [apply rtc_refl|]. eauto.
  - exists c. split; [apply rtc_refl|]. destruct (sc_err s) as [[n q]|]; eauto.
Qed.

Definition toy_put : option (script * bytes * option cerr) :=
  RefPut 1 (MkScript Row0 None Row0) [x61] [x01] (MkCond None true None false false) 0 id.

Lemma RefPut_outcome_witness :
  ∃ version, toy_put = Some (MkScript Row0 None Row0, version, None) ∧
    (∃ cur rv present, current_ref cur = inr (rv, present)).
Proof.
  exists (Bytes toy_cb). assert (toy_put = Some (MkScript Row0 None Row0, Bytes toy_cb, None)) as E
    by computes.
  split; [exact E|]. destruct (RefPut_outcome _ _ _ _ _ _ _ _ _ _ E) as [H|[H|H]].
  - destruct H as (_ & _ & _ & (cur & rv & present & Hc & _) & _). by exists cur, rv, present.
  - destruct H as (cur & rv & Hc & _). by exists cur, rv, true.
  - destruct H as (_ & row & rv & _ & Hh & Hd & _). exists row, rv, (negb (IsTombstone rv)).
    unfold current_ref. by rewrite Hh, Hd.
Defined.

(** Two administrators raise different limits at once. *)
Definition toy_v5 : View := toy_view [x01; x02; x03] [] 2 None <| Version := 5%N |>.
Definition toy_mine (now : Z) (v : View) : xerr + View * bool := inr (v <| RateCap := 7%N |>, false).
Definition toy_theirs : View := toy_v5 <| Version := 6%N |> <| RebalancePause := true |>.
Definition toy_race : script :=
  MkScript (MkRow_ ballot0 (Encode toy_v5) true) (Some (1, 2)%nat) (MkRow_ toy_cb (Encode toy_theirs) true).

Lemma CASView_unknown_other_witness :
  CASView 1 toy_race toy_mine = Some (toy_race, Some toy_theirs, None) ∧ RateCap toy_theirs ≠ 7%N.
Proof.
  split; [|by vm_compute].
  eapply (CASView_unknown_other 1 toy_race toy_mine toy_race (next_view toy_v5 (toy_v5 <| RateCap := 7%N |>) false)).
  all: try computes. intros E%(f_equal RateCap). by vm_compute in E.
Defined.

Lemma CASView_outcome_witness :
  ∃ w, CASView 1 (MkScript (sc_row toy_race) None Row0) toy_mine =
         Some (MkScript (sc_row toy_race) None Row0, Some w, None) ∧
       ∃ now v nv bump, toy_mine now v = inr (nv, bump) ∧ Version w = u64 (Version v + 1).
Proof.
  exists (next_view toy_v5 (toy_v5 <| RateCap := 7%N |>) false).
  assert (CASView 1 (MkScript (sc_row toy_race) None Row0) toy_mine =
    Some (MkScript (sc_row toy_race) None Row0, Some (next_view toy_v5 (toy_v5 <| RateCap := 7%N |>) false), None)) as E
    by computes.
  split; [exact E|].
  destruct (CASView_outcome _ _ _ _ _ _ E) as (now & v & nv & bump & w & Hf & Ew & Hw).
  exists now, v, nv, bump. split; [exact Hf|]. rewrite (inj Some _ _ Ew).
  destruct Hw as [Hw|[Hv _]]; [rewrite Hw; by destruct bump|exact Hv].
Defined.
