(* ===== verification/CatalogSafety.v ===== *)
(** The catalog's promises over whole histories of a register: the change
    functions of Catalog.v driven by the protocol of PaxosSafety.v.  Every
    proposal of a history is one a catalog operation makes of the row its prepare
    phase found; the theorems follow the chain of proposals from a chosen one. *)
From S2P Require Import Prelude Store Placement View Wire Ballot Proposer Catalog.
From S2P Require Acceptor PaxosSafety.
Import Acceptor (row, marker).
Import PaxosSafety (cluster, proposal, p_ballot, p_found, p_value, p_has, p_notAfter, MkProposal,
  proposed, reachable, chosen, builds_on).

(** * Proposals and the operations that make them *)

(** What [Propose] sends to the accept phase: the change, or, when the change
    function refuses, the row it found. *)
Definition makes {X C} (fn : ChangeFunc (X := X) (C := C)) (now : Z) (c : C) (p : proposal) : Prop :=
  match (fn now c (p_found p) (p_ballot p)).2 with
  | inr (value, has) => p_value p = value ∧ p_has p = has
  | inl _ => p_value p = row_Value (p_found p) ∧ p_has p = row_HasValue (p_found p)
  end.

(** The row a proposal leaves behind. *)
Definition after (p : proposal) : Row := MkRow_ (p_ballot p) (p_value p) (p_has p).

Lemma builds_on_after q p : builds_on q p → p_found p = after q.
Proof. intros (E1 & E2 & E3). unfold after. destruct (p_found p). simpl in *. congruence. Qed.

Lemma makes_identity {X} now (p : proposal) :
  makes (Identity (X := X) (C := unit)) now tt p →
  p_value p = row_Value (p_found p) ∧ p_has p = row_HasValue (p_found p).
Proof. done. Qed.

Section chains.
Context {DB : Type} `{KVStore DB} `{!Reliable DB} `{Codec row} `{Codec marker} `{Codec View}.
Context (v : View) (reg : bytes) (c : cluster DB).

(** Induction along the history after a chosen proposal. *)
Lemma chosen_ind (q : proposal) (P : proposal → Prop) :
  reachable v reg c → q ∈ proposed c → chosen v c (p_ballot q) → P q →
  (∀ x y, x ∈ proposed c → y ∈ proposed c → ble (p_ballot q) (p_ballot x) → blt (p_ballot q) (p_ballot y) →
     p_found y = after x → P x → P y) →
  ∀ p, p ∈ proposed c → ble (p_ballot q) (p_ballot p) → P p.
Proof.
  intros Hr Hq Hc HPq Hstep p Hp Hle. pose proof (PaxosSafety.reachable_inv _ _ _ Hr) as Hi.
  assert (rtc (λ x y, x ∈ proposed c ∧ y ∈ proposed c ∧ builds_on x y) q p) as Hch.
  { by apply (PaxosSafety.chosen_chain v reg c q). }
  assert (ble (p_ballot q) (p_ballot p) ∧ P p) as [_ ?]; [|done]. clear Hp Hle.
  revert p Hch. apply (rtc_ind_r (λ p, ble (p_ballot q) (p_ballot p) ∧ P p)); [by split|].
  intros x y _ (Hx & Hy & Hb) [Hle HPx].
  destruct (PaxosSafety.found_cases _ _ _ _ Hi Hy) as [Hlt _]. destruct Hb as (Eb & E2 & E3). rewrite Eb in Hlt.
  assert (blt (p_ballot q) (p_ballot y)) as Hlt' by eauto with dstore.
  split; [eauto with dstore|]. apply (Hstep x); auto. by apply builds_on_after.
Qed.

(** Induction over all proposals, along what each found. *)
Lemma proposed_ind (P : proposal → Prop) :
  reachable v reg c →
  (∀ y, y ∈ proposed c →
     row_HasValue (p_found y) = false ∨
     (∃ x, x ∈ proposed c ∧ blt (p_ballot x) (p_ballot y) ∧ p_found y = after x ∧ P x) → P y) →
  ∀ p, p ∈ proposed c → P p.
Proof.
  intros Hr Hstep p. pose proof (PaxosSafety.reachable_inv _ _ _ Hr) as Hi.
  remember (length (filter (λ x, blt (p_ballot x) (p_ballot p)) (proposed c))) as n eqn:En.
  revert p En. induction (lt_wf n) as [n _ IH]. intros p En Hp. apply Hstep; [done|].
  destruct (PaxosSafety.found_cases _ _ _ _ Hi Hp) as [Hlt [?|(x & Hx & Hb)]]; [by left|right].
  exists x. split; [done|]. assert (blt (p_ballot x) (p_ballot p)) as Hlt' by (destruct Hb as (<- & _); done).
  split; [done|]. split; [by apply builds_on_after|]. eapply IH; [|reflexivity|done]. subst n.
  by apply (PaxosSafety.below_shrinks v reg c x p Hi Hx Hlt').
Qed.
End chains.

(** * The lease *)

Section lease.
Context {DB : Type} `{KVStore DB} `{!Reliable DB} `{Codec row} `{Codec marker} `{Codec View} `{Codec Lease}.
Context (lease_rest : bytes → Lease).

(** Who wrote to the lease register. *)
Inductive lease_op :=
  | LAcquire (self : NodeID) (now ttl : Z)
  | LRelease (self : NodeID)
  | LSettle.

Definition lease_made (op : lease_op) (p : proposal) : Prop :=
  match op with
  | LAcquire self now ttl => ∃ clock vars, makes (AcquireLease_change lease_rest self now ttl) clock vars p
  | LRelease self => ∃ clock, makes (ReleaseLease_change lease_rest self) clock tt p
  | LSettle => ∃ clock, makes (Identity (X := xerr)) clock tt p
  end.

Definition lease_after (p : proposal) : Lease := lease_of lease_rest (after p).

Lemma lease_of_marshal b l : lease_of lease_rest (MkRow_ b (marshal l) true) = l.
Proof. unfold lease_of. simpl. by rewrite unmarshal_marshal. Qed.

Lemma lease_kept (p : proposal) :
  p_value p = row_Value (p_found p) → p_has p = row_HasValue (p_found p) →
  lease_after p = lease_of lease_rest (p_found p).
Proof. intros E1 E2. unfold lease_after, lease_of, after. simpl. by rewrite E1, E2. Qed.

(** One write to the lease, case by case. *)
Lemma lease_write op p :
  lease_made op p →
  lease_after p = lease_of lease_rest (p_found p) ∨
  match op with
  | LAcquire self now ttl =>
      lease_after p = MkLease (arr_bytes self) (i64 (now + ttl)) ∧
      let l := lease_of lease_rest (p_found p) in
      (Holder l = [] ∨ Holder l = arr_bytes self ∨ (Expires l ≤ now)%Z)
  | LRelease self =>
      lease_after p = Lease0 ∧ Holder (lease_of lease_rest (p_found p)) = arr_bytes self
  | LSettle => False
  end.
Proof.
  destruct op as [self now ttl|self|]; simpl.
  - intros (clock & [l0 held] & Hm). unfold makes, AcquireLease_change in Hm.
    destruct (_ && _) eqn:Ec; simpl in Hm; [left; apply lease_kept; apply Hm|right].
    destruct Hm as [E1 E2]. split; [unfold lease_after, after; rewrite E1, E2; apply lease_of_marshal|].
    set (l := lease_of lease_rest (p_found p)) in *.
    apply andb_false_iff in Ec as [Ec|Ec%Z.ltb_ge]; [|auto]. apply andb_false_iff in Ec as [Ec|Ec%bool_decide_eq_false].
    + left. apply Nat.ltb_ge in Ec. destruct (Holder l); [done|]. simpl in Ec. lia.
    + right. left. by apply dec_stable.
  - intros (clock & Hm). unfold makes, ReleaseLease_change in Hm. simpl in Hm.
    case_bool_decide as Hh; simpl in Hm; [left; apply lease_kept; apply Hm|right].
    destruct Hm as [E1 E2]. split; [unfold lease_after, after; rewrite E1, E2; apply lease_of_marshal|].
    done.
  - intros (clock & Hm). left. by apply lease_kept; apply Hm.
Qed.

(** The writes that respect a lease of [A] until [T]: [A]'s own renewals, anyone
    else's attempts before [T], releases by others, and settling. *)
Definition respects (A : NodeID) (T : Z) (op : lease_op) : Prop :=
  match op with
  | LAcquire self now ttl => if decide (self = A) then (T ≤ i64 (now + ttl))%Z else (now < T)%Z
  | LRelease self => self ≠ A
  | LSettle => True
  end.

(** C6 The maintenance lease is exclusive: once a lease of [A] until [T] is
    chosen, then as long as [A] does not release it and every other node that
    asks for it does so before [T] on its own clock, every later value of the
    register still says that [A] holds it until [T] or later, whichever nodes
    race for it and however their rounds interleave.  (Within one epoch of the
    acceptors, as all of this file.) *)
Theorem lease_exclusive (v : View) (c : cluster DB) (op : proposal → lease_op) (q p : proposal) (A : NodeID) (T : Z) :
  reachable v RegLease c →
  (∀ x, x ∈ proposed c → lease_made (op x) x ∧ (blt (p_ballot q) (p_ballot x) → respects A T (op x))) →
  q ∈ proposed c → chosen v c (p_ballot q) →
  Holder (lease_after q) = arr_bytes A → (T ≤ Expires (lease_after q))%Z →
  p ∈ proposed c → ble (p_ballot q) (p_ballot p) →
  Holder (lease_after p) = arr_bytes A ∧ (T ≤ Expires (lease_after p))%Z.
Proof.
  intros Hr Hop Hq Hc Hh HT.
  apply (chosen_ind v RegLease c q (λ p, Holder (lease_after p) = arr_bytes A ∧ (T ≤ Expires (lease_after p))%Z)); auto.
  intros x y Hx Hy _ Hlt Ef [Hhx HTx]. destruct (Hop y Hy) as [Hm Hresp]. specialize (Hresp Hlt).
  destruct (lease_write _ _ Hm) as [E|Hw]; rewrite Ef in *; [by rewrite E|].
  fold (lease_after x) in Hw. destruct (op y) as [self now ttl|self|]; simpl in *; [| |done].
  - destruct Hw as [E Hfree]. rewrite E. simpl. case_decide as Hs; [by subst|exfalso].
    destruct Hfree as [Hn|[Hn|Hn]]; [|by apply Hs, arr_eq; congruence|lia].
    rewrite Hhx in Hn. pose proof (arr_length A) as Hl. rewrite Hn in Hl. done.
  - destruct Hw as [_ Hs]. destruct Hresp. apply arr_eq. congruence.
Qed.
End lease.

(** * References *)

Section refs.
Context {DB : Type} `{KVStore DB} `{!Reliable DB} `{Codec row} `{Codec marker} `{Codec View} `{Codec RefValue}.

Inductive ref_op :=
  | RPut (record : bytes) (cond : Cond) (keyOf : bytes → bytes)
  | RDelete (cond : Cond) (keyOf : bytes → bytes)
  | RSettle.

Definition ref_made (op : ref_op) (p : proposal) : Prop :=
  match op with
  | RPut record cond keyOf => ∃ clock ver, makes (RefPut_change record cond keyOf) clock ver p
  | RDelete cond keyOf => ∃ clock, makes (RefDelete_change cond keyOf) clock tt p
  | RSettle => ∃ clock, makes (Identity (X := xerr)) clock tt p
  end.

Definition cond_of (op : ref_op) : option Cond :=
  match op with RPut _ cond _ | RDelete cond _ => Some cond | RSettle => None end.

(** A write replaces the value by one stamped with its ballot; the row it found
    satisfies its condition.  Anything else keeps what it found. *)
Definition ref_writes (op : ref_op) (p : proposal) : Prop :=
  ∃ cond keyOf rv present nv, cond_of op = Some cond ∧
    current_ref (p_found p) = inr (rv, present) ∧ cond_holds cond keyOf rv present ∧
    p_has p = true ∧ p_value p = marshal nv ∧ rv_Version nv = Bytes (p_ballot p).

Lemma RefDelete_change_spec cond keyOf now c cur b c' value has :
  RefDelete_change cond keyOf now c cur b = (c', inr (value, has)) →
  ∃ rv, current_ref cur = inr (rv, true) ∧ cond_holds cond keyOf rv true ∧ has = true ∧
    value = marshal (MkRefValue [] now (Bytes b)).
Proof.
  unfold RefDelete_change. destruct (current_ref cur) as [e|[rv present]] eqn:Ec; [done|].
  destruct (_ && _); [done|]. pose proof (check_spec cond keyOf rv present) as Hc.
  destruct (check _ _ _ _) as [e|]; [done|]. destruct present; [|done]. intros [= _ <- <-]. eauto.
Qed.

Lemma ref_write op p : ref_made op p →
  ref_writes op p ∨ p_value p = row_Value (p_found p) ∧ p_has p = row_HasValue (p_found p).
Proof.
  destruct op as [record cond keyOf|cond keyOf|]; simpl.
  - intros (clock & ver & Hm). unfold makes in Hm.
    destruct (RefPut_change _ _ _ _ _ _ _) as [ver' [e|[value has]]] eqn:Ef; simpl in Hm; [by right|left].
    destruct Hm as [E1 E2]. unfold RefPut_change in Ef. destruct (current_ref _) as [?|[rv present]] eqn:Ec; [done|].
    pose proof (check_spec cond keyOf rv present) as Hc. destruct (check _ _ _ _); [by destruct (_ && _)|].
    injection Ef as _ <- <-. exists cond, keyOf, rv, present, (MkRefValue record 0 (Bytes (p_ballot p))). done.
  - intros (clock & Hm). unfold makes in Hm.
    destruct (RefDelete_change _ _ _ _ _ _) as [c' [e|[value has]]] eqn:Ef; simpl in Hm; [by right|left].
    destruct Hm as [E1 E2]. apply RefDelete_change_spec in Ef as (rv & Hc & Hh & -> & ->).
    exists cond, keyOf, rv, true, (MkRefValue [] clock (Bytes (p_ballot p))). done.
  - intros (clock & Hm). right. apply Hm.
Qed.

(** Every value of the register carries a version no newer than its ballot. *)
Definition stamped (P : Ballot → Prop) (r : Row) : Prop :=
  row_HasValue r = true → ∀ rv, DecodeRef (row_Value r) = inr rv →
    ∃ b, rv_Version rv = Bytes b ∧ ballot_ok b ∧ P b.

Lemma DecodeRef_marshal nv : DecodeRef (marshal nv) = inr nv.
Proof. apply unmarshal_marshal. Qed.

Lemma writes_stamped op p (P : Ballot → Prop) :
  ref_writes op p → ballot_ok (p_ballot p) → P (p_ballot p) → stamped P (after p).
Proof.
  intros (cond & keyOf & rv & present & nv & _ & _ & _ & Eh & Ev & Es) Hb HP _ rv' Hd. simpl in Hd.
  rewrite Ev, DecodeRef_marshal in Hd. injection Hd as <-. eauto.
Qed.

Section history.
Context (v : View) (reg : bytes) (c : cluster DB) (op : proposal → ref_op).
Context (Hr : reachable v reg c) (Hop : ∀ x, x ∈ proposed c → ref_made (op x) x).

Lemma ballots_ok p : p ∈ proposed c → ballot_ok (p_ballot p).
Proof. intros Hp. pose proof (PaxosSafety.reachable_inv _ _ _ Hr) as []. by apply i_prepared, i_proposed. Qed.

Lemma versions_old p : p ∈ proposed c → stamped (λ b, ble b (p_ballot p)) (after p).
Proof.
  revert p. apply (proposed_ind v reg c _ Hr). intros y Hy Hfound.
  destruct (ref_write _ _ (Hop y Hy)) as [Hw|[E1 E2]].
  { apply (writes_stamped _ _ _ Hw (ballots_ok y Hy)). reflexivity. }
  intros Hh rv Hd. simpl in Hh, Hd. rewrite E1 in Hd. rewrite E2 in Hh.
  destruct Hfound as [Hn|(x & Hx & Hlt & Ef & IH)]; [congruence|]. rewrite Ef in *.
  destruct (IH Hh rv Hd) as (b & ? & ? & ?). exists b. split; [done|]. split; [done|].
  eapply (cmp_le_transitive Compare); [done|]. eauto with dstore.
Qed.

(** What a round found is older than the round. *)
Lemma found_older p : p ∈ proposed c → stamped (λ b, blt b (p_ballot p)) (p_found p).
Proof.
  intros Hp Hh rv Hd. pose proof (PaxosSafety.reachable_inv _ _ _ Hr) as Hi.
  destruct (PaxosSafety.found_cases _ _ _ _ Hi Hp) as [Hlt [Hn|(x & Hx & Hb)]]; [congruence|].
  pose proof Hb as (Eb & _). rewrite (builds_on_after _ _ Hb) in *. simpl in Hlt.
  destruct (versions_old x Hx Hh rv Hd) as (b & ? & ? & ?). exists b. split; [done|]. split; [done|].
  eauto with dstore.
Qed.

(** After a chosen write everything found is that write or newer. *)
Lemma found_newer q p : q ∈ proposed c → chosen v c (p_ballot q) → ref_writes (op q) q →
  p ∈ proposed c → blt (p_ballot q) (p_ballot p) → stamped (λ b, ble (p_ballot q) b) (p_found p).
Proof.
  intros Hq Hc Hw Hp Hlt.
  assert (∀ x, x ∈ proposed c → ble (p_ballot q) (p_ballot x) → stamped (λ b, ble (p_ballot q) b) (after x)) as Hall.
  { apply (chosen_ind v reg c q _ Hr Hq Hc).
    - apply (writes_stamped _ _ _ Hw (ballots_ok q Hq)). reflexivity.
    - intros x y Hx Hy _ Hlt' Ef IH. destruct (ref_write _ _ (Hop y Hy)) as [Hw'|[E1 E2]].
      + apply (writes_stamped _ _ _ Hw' (ballots_ok y Hy)). eauto with dstore.
      + intros Hh rv Hd. simpl in Hh, Hd. rewrite E1, Ef in Hd. rewrite E2, Ef in Hh. by apply IH. }
  pose proof (PaxosSafety.reachable_inv _ _ _ Hr) as Hi.
  destruct (PaxosSafety.chosen_found _ _ _ _ _ Hi Hc Hp Hlt) as (Hle & _ & x & Hx & Hb).
  pose proof Hb as (Eb & _). rewrite (builds_on_after _ _ Hb) in *. apply Hall; [done|]. done.
Qed.
End history.

(** A versioned condition that names a version. *)
Definition names_version (cond : Cond) (e : bytes) : Prop :=
  Force cond = false ∧ Versioned cond = true ∧ ExpectedVersion cond = Some e.

Lemma names_version_found cond keyOf e p rv present :
  names_version cond e → cond_holds cond keyOf rv present → current_ref (p_found p) = inr (rv, present) →
  row_HasValue (p_found p) = true ∧ DecodeRef (row_Value (p_found p)) = inr rv ∧ rv_Version rv = e.
Proof.
  intros (H1' & H2' & H3') Hh Hc. unfold cond_holds in Hh. rewrite H1', H2', H3' in Hh. destruct Hh as [-> ->].
  unfold current_ref in Hc. destruct (row_HasValue (p_found p)); [|done].
  destruct (DecodeRef _); [done|]. by injection Hc as -> _.
Qed.

(** C5 A reference version is replaced at most once: of all the writes and
    deletes that name the same expected version, from any client through any
    node, at most one is ever chosen.  No update is lost to a concurrent one.
    (Within one epoch of the acceptors, as all of this file.) *)
Theorem version_replaced_once (v : View) (reg : bytes) (c : cluster DB) (op : proposal → ref_op)
    (p q : proposal) (cond cond' : Cond) (e : bytes) :
  reachable v reg c → (∀ x, x ∈ proposed c → ref_made (op x) x) →
  p ∈ proposed c → chosen v c (p_ballot p) → ref_writes (op p) p →
  q ∈ proposed c → chosen v c (p_ballot q) → ref_writes (op q) q →
  cond_of (op p) = Some cond → names_version cond e →
  cond_of (op q) = Some cond' → names_version cond' e →
  p = q.
Proof.
  intros Hr Hop Hp Hcp Hwp Hq Hcq Hwq Ep Np Eq Nq.
  assert (∀ x y cx cy, x ∈ proposed c → chosen v c (p_ballot x) → ref_writes (op x) x →
    y ∈ proposed c → ref_writes (op y) y → cond_of (op x) = Some cx → names_version cx e →
    cond_of (op y) = Some cy → names_version cy e → ¬ blt (p_ballot x) (p_ballot y)) as Hno.
  { intros x y cx cy Hx Hcx Hwx Hy Hwy Ex Nx Ey Ny Hlt.
    pose proof Hwx as (cx' & kx & rvx & px & _ & Ecx & Hfx & Hhx & _).
    pose proof Hwy as (cy' & ky & rvy & py & _ & Ecy & Hfy & Hhy & _).
    rewrite Ex in Ecx. injection Ecx as <-. rewrite Ey in Ecy. injection Ecy as <-.
    destruct (names_version_found _ _ _ _ _ _ Nx Hhx Hfx) as (H1x & H2x & H3x).
    destruct (names_version_found _ _ _ _ _ _ Ny Hhy Hfy) as (H1y & H2y & H3y).
    destruct (found_older v reg c op Hr Hop x Hx H1x _ H2x) as (b & Eb & Hb & Hltb).
    destruct (found_newer v reg c op Hr Hop x y Hx Hcx Hwx Hy Hlt H1y _ H2y) as (b' & Eb' & Hb' & Hleb).
    assert (b = b') as <-.
    { rewrite <- (parse_ballot_Bytes b), <- (parse_ballot_Bytes b') by done. congruence. }
    by apply (cmp_lt_not_le Compare _ _ Hltb). }
  destruct (cmp_total Compare (p_ballot p) (p_ballot q)) as [Hlt|[E|Hlt]].
  - by destruct (Hno p q cond cond' Hp Hcp Hwp Hq Hwq Ep Np Eq Nq).
  - by apply (PaxosSafety.proposal_unique v reg c p q (PaxosSafety.reachable_inv _ _ _ Hr)).
  - by destruct (Hno q p cond' cond Hq Hcq Hwq Hp Hwp Eq Nq Ep Np).
Qed.
End refs.

(** * The view *)

Section views.
Context {DB : Type} `{KVStore DB} `{!Reliable DB} `{Codec row} `{Codec marker} `{Codec View}.

Inductive view_op :=
  | VCas (fn : Z → View → xerr + View * bool)
  | VInit (enc : bytes)
  | VSettle.

Definition view_made (op : view_op) (p : proposal) : Prop :=
  match op with
  | VCas fn => ∃ clock out, makes (CASView_change fn) clock out p
  | VInit enc => ∃ clock, makes (InitView_change enc) clock tt p
  | VSettle => ∃ clock, makes (Identity (X := xerr)) clock tt p
  end.

(** A write to a register that holds a view. *)
Lemma view_write op p w : view_made op p →
  row_HasValue (p_found p) = true → Decode (row_Value (p_found p)) = inr w →
  p_has p = true ∧
  ((p_value p = row_Value (p_found p)) ∨
   ∃ nv bump, p_value p = Encode (next_view w nv bump)).
Proof.
  intros Hm Hh Hd. destruct op as [fn|enc|]; simpl in Hm.
  - destruct Hm as (clock & out & Hm). unfold makes in Hm.
    destruct (CASView_change fn clock out (p_found p) (p_ballot p)) as [out' [e|[value has]]] eqn:Ef; simpl in Hm.
    { destruct Hm as [E1 E2]. rewrite E1, E2, Hh. auto. }
    apply CASView_change_spec in Ef as (w' & nv & bump & _ & Hd' & _ & _ & -> & ->).
    rewrite Hd in Hd'. injection Hd' as <-. destruct Hm as [E1 E2]. rewrite E1, E2. eauto.
  - destruct Hm as (clock & Hm). unfold makes, InitView_change in Hm. rewrite Hh in Hm. simpl in Hm.
    destruct Hm as [E1 E2]. rewrite E1, E2. auto.
  - destruct Hm as (clock & Hm). destruct Hm as [E1 E2]. rewrite E1, E2. auto.
Qed.

(** Within one epoch of the acceptors, from an unwritten register (for the view's own
    register: the cluster's first), view versions only grow and a version names one view:
    after a chosen view, every later proposal carries a view of at least its version, and
    one of the same version is the same view. *)
Theorem view_version_identifies (v : View) (c : cluster DB) (op : proposal → view_op) (q p : proposal) (w : View) :
  reachable v RegView c → (∀ x, x ∈ proposed c → view_made (op x) x) →
  (∀ x w, x ∈ proposed c → Decode (p_value x) = inr w → (Version w + 1 < u64_max)%N) →
  q ∈ proposed c → chosen v c (p_ballot q) → p_has q = true → Decode (p_value q) = inr w →
  p ∈ proposed c → ble (p_ballot q) (p_ballot p) →
  p_has p = true ∧ ∃ w', Decode (p_value p) = inr w' ∧ (Version w ≤ Version w')%N ∧ (Version w' = Version w → w' = w).
Proof.
  intros Hr Hop Hov Hq Hc Hh Hd.
  apply (chosen_ind v RegView c q (λ p, p_has p = true ∧ ∃ w', Decode (p_value p) = inr w' ∧
    (Version w ≤ Version w')%N ∧ (Version w' = Version w → w' = w))); try done.
  { split; [done|]. exists w. split_and!; [done|lia|done]. }
  intros x y Hx Hy _ _ Ef (Hhx & w' & Hdx & Hle & Heq).
  destruct (view_write (op y) y w' (Hop y Hy)) as [Hhy Hw]; [by rewrite Ef|by rewrite Ef|].
  split; [done|]. destruct Hw as [E|(nv & bump & E)].
  - exists w'. rewrite E, Ef. done.
  - exists (next_view w' nv bump). rewrite E, Decode_Encode. split; [done|].
    assert (Version (next_view w' nv bump) = (Version w' + 1)%N) as ->.
    { transitivity (u64 (Version w' + 1)); [unfold next_view; by destruct bump|].
      apply u64_small. by apply (Hov x). }
    split; lia.
Qed.
End views.

(** * Worked histories *)

(** Two writes, each chosen, over the three voters of the worked cluster. *)
Definition toy_hist (reg v1 v2 : bytes) : cluster Acceptor.toy_db :=
  PaxosSafety.toy_run reg PaxosSafety.toy_cluster0 (PaxosSafety.toy_script v1 v2).

Definition hist_p1 (v1 : bytes) : proposal := MkProposal PaxosSafety.toy_b1 Row0 v1 true 0.
Definition hist_p2 (v1 v2 : bytes) : proposal :=
  MkProposal PaxosSafety.toy_b2 (MkRow_ PaxosSafety.toy_b1 v1 true) v2 true 0.

Definition hist_ok (reg v1 v2 : bytes) : Prop :=
  reachable PaxosSafety.toy_v reg (toy_hist reg v1 v2) ∧
  proposed (toy_hist reg v1 v2) = [hist_p2 v1 v2; hist_p1 v1] ∧
  chosen PaxosSafety.toy_v (toy_hist reg v1 v2) PaxosSafety.toy_b1 ∧
  chosen PaxosSafety.toy_v (toy_hist reg v1 v2) PaxosSafety.toy_b2.

Ltac solve_hist :=
  split_and!;
  [apply PaxosSafety.toy_run_reachable; [repeat constructor|vm_compute; reflexivity]
  |vm_compute; reflexivity
  |apply (PaxosSafety.chosen_from _ _ _ [toy_id x01; toy_id x02]); vm_compute; reflexivity
  |apply (PaxosSafety.chosen_from _ _ _ [toy_id x02; toy_id x03]); computes].

(** Node 1 holds the lease until 100; node 2 asks at 60 and is refused. *)
Definition toy_lease : Lease := MkLease (arr_bytes (toy_id x01)) 100.
Definition toy_lease_op (p : proposal) : lease_op :=
  if decide (p_ballot p = PaxosSafety.toy_b1) then LAcquire (toy_id x01) 0 100 else LAcquire (toy_id x02) 60 100.

Lemma toy_lease_hist : hist_ok RegLease (marshal toy_lease) (marshal toy_lease).
Proof. solve_hist. Qed.

Lemma lease_exclusive_witness :
  Holder (lease_after (λ _, Lease0) (hist_p2 (marshal toy_lease) (marshal toy_lease))) = arr_bytes (toy_id x01).
Proof.
  destruct toy_lease_hist as (Hr & Ep & Hc & _).
  apply (lease_exclusive (λ _, Lease0) PaxosSafety.toy_v _ toy_lease_op (hist_p1 (marshal toy_lease)) _ (toy_id x01) 100 Hr).
  - rewrite Ep. intros x [->|[->|[]%elem_of_nil]%elem_of_cons]%elem_of_cons; split.
    + exists 0%Z, (Lease0, false). vm_compute. split; reflexivity.
    + intros _. by vm_compute.
    + exists 0%Z, (Lease0, false). vm_compute. split; reflexivity.
    + intros Hlt. by vm_compute in Hlt.
  - rewrite Ep. apply list_elem_of_further, list_elem_of_here.
  - exact Hc.
  - by vm_compute.
  - by vm_compute.
  - rewrite Ep. apply list_elem_of_here.
  - by vm_compute.
Defined.

(** A reference is created, then replaced by a writer that names its version. *)
Definition toy_rv1 : RefValue := MkRefValue [x01] 0 (Bytes PaxosSafety.toy_b1).
Definition toy_rv2 : RefValue := MkRefValue [x02] 0 (Bytes PaxosSafety.toy_b2).
Definition toy_cond : Cond := MkCond (Some (Bytes PaxosSafety.toy_b1)) true None false false.
Definition toy_ref_op (p : proposal) : ref_op :=
  if decide (p_ballot p = PaxosSafety.toy_b1) then RPut [x01] (MkCond None true None false false) id
  else RPut [x02] toy_cond id.

Lemma toy_ref_hist : hist_ok (RefReg [x61]) (marshal toy_rv1) (marshal toy_rv2).
Proof. solve_hist. Qed.

Lemma toy_ref_writes :
  ref_writes (toy_ref_op (hist_p2 (marshal toy_rv1) (marshal toy_rv2))) (hist_p2 (marshal toy_rv1) (marshal toy_rv2)).
Proof.
  exists toy_cond, id, toy_rv1, true, toy_rv2.
  repeat (split; [vm_compute; try split; reflexivity|]). vm_compute. reflexivity.
Qed.

Lemma version_replaced_once_witness :
  hist_p2 (marshal toy_rv1) (marshal toy_rv2) = hist_p2 (marshal toy_rv1) (marshal toy_rv2).
Proof.
  destruct toy_ref_hist as (Hr & Ep & _ & Hc).
  pose proof toy_ref_writes as Hw.
  apply (version_replaced_once PaxosSafety.toy_v _ _ toy_ref_op (hist_p2 (marshal toy_rv1) (marshal toy_rv2))
    (hist_p2 (marshal toy_rv1) (marshal toy_rv2)) toy_cond toy_cond (Bytes PaxosSafety.toy_b1) Hr);
    try exact Hc; try exact Hw; try computes; try (split_and!; vm_compute; reflexivity);
    try (rewrite Ep; apply list_elem_of_here).
  rewrite Ep. intros x [->|[->|[]%elem_of_nil]%elem_of_cons]%elem_of_cons; exists 0%Z, []; vm_compute; split; reflexivity.
Defined.

(** A first view, and a change of it. *)
Definition toy_w2 : View := next_view toy_v5 (toy_v5 <| RateCap := 7%N |>) false.
Definition toy_view_op (p : proposal) : view_op :=
  if decide (p_ballot p = PaxosSafety.toy_b1) then VInit (Encode toy_v5) else VCas toy_mine.

Lemma toy_view_hist : hist_ok RegView (Encode toy_v5) (Encode toy_w2).
Proof. solve_hist. Qed.

Lemma view_version_identifies_witness :
  p_has (hist_p2 (Encode toy_v5) (Encode toy_w2)) = true ∧
  ∃ w', Decode (p_value (hist_p2 (Encode toy_v5) (Encode toy_w2))) = inr w' ∧
    (Version toy_v5 ≤ Version w')%N ∧ (Version w' = Version toy_v5 → w' = toy_v5).
Proof.
  destruct toy_view_hist as (Hr & Ep & Hc & _).
  apply (view_version_identifies PaxosSafety.toy_v _ toy_view_op (hist_p1 (Encode toy_v5)) _ toy_v5 Hr).
  - rewrite Ep. intros x [->|[->|[]%elem_of_nil]%elem_of_cons]%elem_of_cons.
    + exists 0%Z, None. vm_compute. split; reflexivity.
    + exists 0%Z. vm_compute. split; reflexivity.
  - rewrite Ep. intros x w [->|[->|[]%elem_of_nil]%elem_of_cons]%elem_of_cons Hd.
    + change (Decode (Encode toy_w2) = inr w) in Hd. rewrite Decode_Encode in Hd. injection Hd as <-. by vm_compute.
    + change (Decode (Encode toy_v5) = inr w) in Hd. rewrite Decode_Encode in Hd. injection Hd as <-. by vm_compute.
  - rewrite Ep. apply list_elem_of_further, list_elem_of_here.
  - exact Hc.
  - reflexivity.
  - apply Decode_Encode.
  - rewrite Ep. apply list_elem_of_here.
  - by vm_compute.
Defined.
