(* ===== verification/Transition.v ===== *)
(** Changes of the cluster view (src/node/maintenance.go, join.go, admin.go,
    reconcile.go, node.go): every function the node hands to [CASView], and the
    decision, on the view the node has adopted, to make it.

    A change is a function of the clock and of the register's view; its answer
    is the error, or the new view and whether the epoch is bumped.  The decision
    is taken on a view that may be older than the one the change is applied to:
    the two are kept apart, as a [vop] with the values the closure captured. *)
From stdpp Require Import pretty.
From S2P Require Import Prelude Store Placement View Wire Ballot Proposer Catalog.

Local Open Scope N_scope.

Notation change := (Z → View → xerr + View * bool).

(** * Placement transitions *)

Definition Pending0 : Pending := MkPending [] 0 0 [] [] false 0 [] [] 0 "" None 0.

Definition validate_text (cur target : list Node) (replicas : Z) : string :=
  ("view: change drops " +:+ pretty (count_dropped cur target) +:+ " nodes at once with R=" +:+ pretty replicas +:+
   "; every key owned only by them would be lost (use --force)")%string.

(** [fn] edits the pending set, which starts as a copy of the placement, and may
    edit the view's bookkeeping. *)
Definition proposeTransition_change (reason : string) (fn : View → Pending → xerr + View * Pending) : change :=
  λ now v,
    if bool_decide (is_Some (View_Pending v)) then inl (XText "a transition is already in progress")
    else if (VoterSync v =? VoterSyncPending)%Z then inl (XText "a voter change is in progress")
    else
      let p := Pending0 <| Pending_Nodes := Nodes v |> <| Pending_Replicas := Replicas v |>
                 <| Pending_Since := now |> <| Pending_Reason := reason |> in
      match fn v p with
      | inl e => inl e
      | inr (v, p) =>
          if ValidateChange (Nodes v) (Pending_Nodes p) (Z.of_N (Replicas v)) false
          then inl (XText (validate_text (Nodes v) (Pending_Nodes p) (Z.of_N (Replicas v))))
          else inr (v <| View_Pending := Some (p <| Pending_ID := u64 (Epoch v + 1) |>) |>, true)
      end.

Definition dropRamp (ramps : list Ramp) (id : NodeID) : list Ramp :=
  filter (λ r, negb (arr_is (Ramp_Node r) id) = true) ramps.

(** The operator's changes of one node's entry. *)
Inductive node_op :=
  | OpRemove | OpDrain | OpWeight (w : N) | OpZone (z : string).

Definition node_op_name (op : node_op) : string :=
  match op with
  | OpRemove => "node-remove" | OpDrain => "node-drain"
  | OpWeight _ => "node-weight" | OpZone _ => "node-zone"
  end.

(** The entry of the node, if it stays. *)
Definition node_op_entry (op : node_op) (nd : Node) : option Node :=
  match op with
  | OpRemove => None
  | OpDrain => Some (nd <| Node_Weight := 0 |>)
  | OpWeight w => Some (nd <| Node_Weight := w |>)
  | OpZone z => Some (nd <| Node_Zone := z |>)
  end.

(** The loop: the first entry with the id is edited; [None] when there is none. *)
Fixpoint edit_first (f : Node → option Node) (id : NodeID) (nodes : list Node) : option (list Node) :=
  match nodes with
  | [] => None
  | nd :: nodes =>
      if arr_is (Node_ID nd) id then Some (match f nd with Some nd => nd :: nodes | None => nodes end)
      else (cons nd) <$> edit_first f id nodes
  end.

Definition nodeChange_fn (op : node_op) (id : NodeID) (v : View) (p : Pending) : xerr + View * Pending :=
  match edit_first (node_op_entry op) id (Pending_Nodes p) with
  | None => inl (XText (ShortID id +:+ " is not in the placement set"))
  | Some nodes =>
      inr (match op with OpZone _ => v | _ => v <| Ramps := dropRamp (Ramps v) id |> end,
           p <| Pending_Nodes := nodes |>)
  end.

Definition replicas_fn (r : N) (v : View) (p : Pending) : xerr + View * Pending :=
  if r =? 0 then inl (XText "replicas must be ≥ 1") else inr (v, p <| Pending_Replicas := r |>).

(** ** Ramps *)

Definition rampSteps : list N := [8; 4; 2; 1].

Definition firstRampWeight (w : N) (noRamp : bool) : N :=
  if noRamp || (w <? 8) then w else w / 8.

(** The steps are tried from the last to the first. *)
Fixpoint nextRamp_loop (steps : list N) (cur target : N) : N :=
  match steps with
  | [] => target
  | st :: steps => if cur <? target / st then target / st else nextRamp_loop steps cur target
  end.

Definition nextRampWeight (cur target : N) : N := nextRamp_loop (reverse rampSteps) cur target.

Definition ramp_fn (id : NodeID) (next : N) (v : View) (p : Pending) : xerr + View * Pending :=
  inr (v <| Ramps := (λ r, if arr_is (Ramp_Node r) id then r <| Ramp_Step := i64 (Ramp_Step r + 1) |> else r) <$> Ramps v |>,
       p <| Pending_Nodes := (λ nd, if arr_is (Node_ID nd) id then nd <| Node_Weight := next |> else nd) <$> Pending_Nodes p |>).

Definition rampDone_change (id : NodeID) : change :=
  λ _ v, inr (v <| Ramps := dropRamp (Ramps v) id |>, false).

(** ** Joins *)

Record joinRequest := MkJoinRequest {
  jr_id : NodeID; jr_tokenID : bytes; jr_weight : N; jr_zone : string;
  jr_addrs : list string; jr_noVote : bool; jr_noRamp : bool }.

Definition removeID (ids : list bytes) (id : NodeID) : list bytes :=
  filter (λ b, negb (arr_is b id) = true) ids.

Definition token_in (nodes : list Node) (id : bytes) : bool :=
  existsb (λ nd, bool_decide (Node_Token nd = id)) nodes.

Definition tokenUsed (v : View) (id : bytes) : bool :=
  token_in (Nodes v) id ||
  match View_Pending v with Some p => token_in (Pending_Nodes p) id | None => false end.

Definition join_entry (r : joinRequest) : Node :=
  MkNode (jr_id r) (firstRampWeight (jr_weight r) (jr_noRamp r)) (jr_addrs r) [] (jr_tokenID r) (jr_zone r) 1 true.

Definition admitNode_fn (r : joinRequest) (v : View) (p : Pending) : xerr + View * Pending :=
  if tokenUsed v (jr_tokenID r) then inl (XWire CodeUnauthorized "join token already used")
  else
    let first := firstRampWeight (jr_weight r) (jr_noRamp r) in
    let p := p <| Pending_Nodes := SortNodes (Pending_Nodes p ++ [join_entry r]) |> in
    let v := if first <? jr_weight r then v <| Ramps := Ramps v ++ [MkRamp (jr_id r) (jr_weight r) 1] |> else v in
    let v := if jr_noVote r then v <| DeferredVoters := removeID (DeferredVoters v) (jr_id r) |> else v in
    inr (v, p).

(** ** Driving a transition *)

Definition ack_change (self : NodeID) (id : N) : change :=
  λ _ v,
    match View_Pending v with
    | Some p =>
        if negb (Pending_ID p =? id) then inl XAbort
        else if Contains (Pending_ParticipantsAck p) self then inl XAbort
        else inr (v <| View_Pending := Some (p <| Pending_ParticipantsAck := AddID (Pending_ParticipantsAck p) self |>) |>, false)
    | None => inl XAbort
    end.

Definition frozen_parts (v : View) (p : Pending) : list bytes :=
  fold_left (λ parts id, if Contains (Pending_ParticipantsAck p) id then AddID parts id else parts)
    (AllMembers v) [].

Definition freeze_change (id : N) : change :=
  λ now v,
    match View_Pending v with
    | Some p =>
        if negb (Pending_ID p =? id) || Pending_Frozen p then inl XAbort
        else inr (v <| View_Pending := Some (p <| Pending_Participants := frozen_parts v p |>
                        <| Pending_Frozen := true |> <| Pending_FrozenAt := now |>) |>, true)
    | None => inl XAbort
    end.

Definition reported (ids : list bytes) (raw : bytes) : bool := Contains ids (arr_of 32 raw).

Definition refreeze_change (force : bool) : change :=
  λ now v,
    match View_Pending v with
    | Some p =>
        if negb (Pending_Frozen p) then inl (XText "no frozen transition")
        else
          let parts := filter (λ id, reported (Pending_Done p) id ||
                                     reported (Pending_PrimaryDone p) id && negb force = true) (Pending_Participants p) in
          if bool_decide (length parts = length (Pending_Participants p)) && negb force then inl XAbort
          else inr (v <| View_Pending := Some (p <| Pending_Participants := parts |>
                          <| Pending_Round := (Pending_Round p + 1) mod u32_max |>
                          <| Pending_Done := [] |> <| Pending_PrimaryDone := [] |> <| Pending_FrozenAt := now |>) |>, true)
    | None => inl (XText "no frozen transition")
    end.

(** [casPending]: [fn] records this node's progress. *)
Definition casPending_change (id : N) (fn : Pending → Pending) : change :=
  λ _ v,
    match View_Pending v with
    | Some p => if negb (Pending_ID p =? id) then inl XAbort else inr (v <| View_Pending := Some (fn p) |>, false)
    | None => inl XAbort
    end.

Definition primaryDone_fn (self : NodeID) (p : Pending) : Pending :=
  p <| Pending_PrimaryDone := AddID (Pending_PrimaryDone p) self |>.
Definition done_fn (self : NodeID) (p : Pending) : Pending :=
  p <| Pending_Done := AddID (Pending_Done p) self |>.

Definition allDone (p : Pending) : bool := forallb (reported (Pending_Done p)) (Pending_Participants p).

(** Thirty days, in nanoseconds. *)
Definition formerKeep : Z := 30 * 24 * 3600 * 1000000000.

Section commit.
(** The order in which Go ranges over the map of removed nodes. *)
Context (order : list NodeID → list NodeID).

Definition removed_ids (cur target : list Node) : list NodeID :=
  remove_dups (filter (λ id, id ∉ NID <$> target) (NID <$> cur)).

Definition note_removed (now : Z) (v : View) (rid : NodeID) : View :=
  let v := v <| View_Former := View_Former v ++ [MkFormer rid (i64 (now + formerKeep))] |> in
  if IsVoter v rid then v <| RemoveVoters := AddID (RemoveVoters v) rid |> else v.

Definition commit_change (id round : N) : change :=
  λ now v,
    match View_Pending v with
    | Some p =>
        if negb (Pending_ID p =? id) || negb (Pending_Round p =? round) then inl XAbort
        else if negb (allDone p) then inl XAbort
        else
          let v := fold_left (note_removed now) (order (removed_ids (Nodes v) (Pending_Nodes p))) v in
          inr (v <| Nodes := Pending_Nodes p |> <| Replicas := Pending_Replicas p |>
                 <| MinReplicas := N.min (MinReplicas v) (Pending_Replicas p) |>
                 <| PlacementEpoch := Pending_ID p |> <| View_Pending := None |>
                 <| View_Former := filter (λ f, (now < Former_Until f)%Z) (View_Former v) |>, true)
    | None => inl XAbort
    end.
End commit.

Definition abort_change : change :=
  λ _ v, match View_Pending v with None => inl XAbort | Some _ => inr (v <| View_Pending := None |>, true) end.

(** ** Knobs and the node's own entry *)

Inductive knob := KPause | KResume | KRateCap (r : N).

Definition knob_change (k : knob) : change :=
  λ _ v, inr (match k with
              | KPause => v <| RebalancePause := true |>
              | KResume => v <| RebalancePause := false |>
              | KRateCap r => v <| RateCap := r |>
              end, false).

Definition sameStrings (a b : list string) : bool := bool_decide (a = b).

Definition self_stale (self : NodeID) (addrs : list string) (writable : bool) (nd : Node) : bool :=
  bool_decide (NID nd = self) && (negb (sameStrings (Node_Addrs nd) addrs) || negb (Bool.eqb (Node_Writable nd) writable)).

(** The closure [upd]. *)
Definition self_upd (self : NodeID) (addrs : list string) (writable : bool) (nodes : list Node) : list Node :=
  (λ nd, if self_stale self addrs writable nd
         then nd <| Node_Addrs := addrs |> <| Node_Writable := writable |> else nd) <$> nodes.

Definition selfEntry_change (self : NodeID) (addrs : list string) (writable : bool) : change :=
  λ _ v,
    let changed := existsb (self_stale self addrs writable) (Nodes v) ||
      match View_Pending v with Some p => existsb (self_stale self addrs writable) (Pending_Nodes p) | None => false end in
    if negb changed then inl XAbort
    else inr (v <| Nodes := self_upd self addrs writable (Nodes v) |>
                <| View_Pending := (λ p, p <| Pending_Nodes := self_upd self addrs writable (Pending_Nodes p) |>) <$> View_Pending v |>,
              false).

(** * Voter changes *)

Definition addVoter_change (id : NodeID) : change :=
  λ _ v,
    if (VoterSync v =? VoterSyncPending)%Z || IsVoter v id then inl (XText "voter set changed concurrently")
    else inr (v <| Voters := Voters v ++ [MkVoter id (u64 (Epoch v + 1))] |>
                <| VoterSync := VoterSyncPending |> <| VoterSyncTarget := id |> <| VoterSyncAdd := true |>
                <| VoterSyncCursor := [] |> <| DeferredVoters := removeID (DeferredVoters v) id |>, true).

Definition deferVoter_change (id : NodeID) : change :=
  λ _ v, inr (v <| DeferredVoters := AddID (DeferredVoters v) id |>, false).

(** The step from one voter to three: [newIDs] were read from the adopted view. *)
Definition voters3_change (newIDs : list NodeID) : change :=
  λ _ v,
    if negb (bool_decide (length (Voters v) = 1%nat)) then inl (XText "voter set changed concurrently")
    else inr (v <| Voters := Voters v ++ ((λ nid, MkVoter (arr_bytes nid) (u64 (Epoch v + 1))) <$> newIDs) |>
                <| DeferredVoters := [] |> <| VoterSync := VoterSyncDone |>, true).

Definition voterGone_change (id : NodeID) : change :=
  λ _ v, inr (v <| RemoveVoters := removeID (RemoveVoters v) id |>, false).

Definition removeVoter_change (id : NodeID) : change :=
  λ _ v,
    if (VoterSync v =? VoterSyncPending)%Z || negb (IsVoter v id) then inl (XText "voter set changed concurrently")
    else inr (v <| Voters := filter (λ vo, negb (arr_is (Voter_ID vo) id) = true) (Voters v) |>
                <| VoterSync := VoterSyncPending |> <| VoterSyncTarget := id |> <| VoterSyncAdd := false |>
                <| VoterSyncCursor := [] |> <| RemoveVoters := removeID (RemoveVoters v) id |>, true).

Definition syncCursor_change (cursor : bytes) : change :=
  λ _ v, if negb (VoterSync v =? VoterSyncPending)%Z then inl XAbort else inr (v <| VoterSyncCursor := cursor |>, false).

Definition syncDone_change : change :=
  λ _ v, inr (v <| VoterSync := VoterSyncDone |> <| VoterSyncCursor := [] |> <| VoterSyncTarget := [] |>, false).

(** * Decisions

    What the node decides on the view [v] it has adopted: an error, or the change
    to make.  The closures capture the values read here. *)

Inductive vop :=
  | ONode (op : node_op) (id : NodeID)
  | OReplicas (r : N)
  | ORamp (id : NodeID) (next : N)
  | OJoin (r : joinRequest)
  | ORampDone (id : NodeID)
  | OAck (self : NodeID) (id : N)
  | OFreeze (id : N)
  | ORefreeze (force : bool)
  | OPrimaryDone (self : NodeID) (id : N)
  | ODone (self : NodeID) (id : N)
  | OCommit (id round : N)
  | OAbort
  | OKnob (k : knob)
  | OSelf (self : NodeID) (addrs : list string) (writable : bool)
  | OAddVoter (id : NodeID)
  | ODefer (id : NodeID)
  | OVoters3 (newIDs : list NodeID)
  | OVoterGone (id : NodeID)
  | ORemoveVoter (id : NodeID)
  | OCursor (cursor : bytes)
  | OSyncDone.

Definition vop_reason (op : vop) : string :=
  match op with
  | ONode op id => node_op_name op +:+ " " +:+ ShortID id
  | OReplicas r => "replicas " +:+ pretty r
  | ORamp id next => "ramp " +:+ ShortID id +:+ " to " +:+ pretty next
  | OJoin r => "join " +:+ ShortID (jr_id r)
  | _ => ""
  end%string.

Definition vop_change (order : list NodeID → list NodeID) (op : vop) : change :=
  match op with
  | ONode nop id => proposeTransition_change (vop_reason op) (nodeChange_fn nop id)
  | OReplicas r => proposeTransition_change (vop_reason op) (replicas_fn r)
  | ORamp id next => proposeTransition_change (vop_reason op) (ramp_fn id next)
  | OJoin r => proposeTransition_change (vop_reason op) (admitNode_fn r)
  | ORampDone id => rampDone_change id
  | OAck self id => ack_change self id
  | OFreeze id => freeze_change id
  | ORefreeze force => refreeze_change force
  | OPrimaryDone self id => casPending_change id (primaryDone_fn self)
  | ODone self id => casPending_change id (done_fn self)
  | OCommit id round => commit_change order id round
  | OAbort => abort_change
  | OKnob k => knob_change k
  | OSelf self addrs writable => selfEntry_change self addrs writable
  | OAddVoter id => addVoter_change id
  | ODefer id => deferVoter_change id
  | OVoters3 newIDs => voters3_change newIDs
  | OVoterGone id => voterGone_change id
  | ORemoveVoter id => removeVoter_change id
  | OCursor cursor => syncCursor_change cursor
  | OSyncDone => syncDone_change
  end.

(** [nodeChange] before its transition, the voter removal of a dead node apart. *)
Definition nodeChange_plan (v : View) (op : node_op) (id : NodeID) : xerr + vop :=
  match View_Node v id with
  | None => inl (XText (ShortID id +:+ " is not a member"))
  | Some _ => inr (ONode op id)
  end.

(** [nextRamp] looks at the first ramp only. *)
Definition nextRamp_plan (v : View) : option vop :=
  match Ramps v with
  | [] => None
  | r :: _ =>
      let id := arr_of 32 (Ramp_Node r) in
      Some match View_Node v id with
           | Some nd =>
               if Ramp_Target r <=? Node_Weight nd then ORampDone id
               else ORamp id (nextRampWeight (Node_Weight nd) (Ramp_Target r))
           | None => ORampDone id
           end
  end.

Record drive_cfg := MkDriveCfg { AdoptTimeout : Z; ParticipantTimeout : Z }.

Definition allAcked (v : View) (p : Pending) : bool :=
  forallb (Contains (Pending_ParticipantsAck p)) (AllMembers v).

Definition driveTransition_plan (cfg : drive_cfg) (now : Z) (v : View) : option vop :=
  match View_Pending v with
  | None => None
  | Some p =>
      if negb (Pending_Frozen p) then
        if negb (allAcked v p) && (now - Pending_Since p <? AdoptTimeout cfg)%Z then None
        else Some (OFreeze (Pending_ID p))
      else if allDone p then Some (OCommit (Pending_ID p) (Pending_Round p))
      else if (ParticipantTimeout cfg <? now - Pending_FrozenAt p)%Z then Some (ORefreeze false)
      else None
  end.

(** [admitNode]: [inr None] is the idempotent retry of a member.  The voter add
    that precedes the transition is [addVoter_plan]'s. *)
Definition admitNode_plan (v : View) (r : joinRequest) : xerr + option vop :=
  match View_Node v (jr_id r) with
  | Some _ => inr None
  | None =>
      if tokenUsed v (jr_tokenID r) then inl (XWire CodeUnauthorized "join token already used")
      else if bool_decide (is_Some (View_Pending v)) || (VoterSync v =? VoterSyncPending)%Z
      then inl (XText "a transition is in progress; retry later")
      else inr (Some (OJoin r))
  end.

(** [inr None] is the way on to [addVoterFromSingle].  [ping] is [pingMajority]. *)
Definition addVoter_plan (v : View) (id : NodeID) (ping : list NodeID → bool) : xerr + option vop :=
  if IsVoter v id then inl (XText "already a voter")
  else if (VoterSync v =? VoterSyncPending)%Z then inl (XText "a voter change is in progress")
  else if bool_decide (length (Voters v) = 1%nat) then inr None
  else if negb (ping (VoterIDs v ++ [id])) then inl (XText "a majority of the new voter set did not answer a ping")
  else inr (Some (OAddVoter id)).

Definition addVoterFromSingle_plan (v : View) (id : NodeID) (ping : list NodeID → bool) : xerr + vop :=
  if bool_decide (length (DeferredVoters v) = 0%nat) then inr (ODefer id)
  else
    let newIDs := IDsOf (DeferredVoters v) ++ [id] in
    match VoterIDs v with
    | [] => inl (XText "panic")
    | single :: _ =>
        if negb (ping (single :: newIDs)) then inl (XText "the new voters did not answer a ping")
        else inr (OVoters3 newIDs)
    end.

(** [inr None]: there is nothing to remove. *)
Definition removeVoter_plan (v : View) (id : NodeID) (allowUnsafe : bool) : xerr + option vop :=
  if negb (IsVoter v id) then
    inr (if Contains (RemoveVoters v) id then Some (OVoterGone id) else None)
  else if (VoterSync v =? VoterSyncPending)%Z then inl (XText "a voter change is in progress")
  else if bool_decide (length (Voters v) = 1%nat) then inl (XText "cannot remove the only voter")
  else if bool_decide (length (Voters v) ≤ 3)%nat && bool_decide (3 ≤ length (Nodes v))%nat && negb allowUnsafe
  then inl (XText "removal would leave fewer than 3 voters (use --allow-unsafe)")
  else inr (Some (ORemoveVoter id)).

(** A node's own part in a transition: the adoption step, and the reports of its
    pass over its packs. *)
Definition adopt_plan (v : View) (self : NodeID) : option vop :=
  p ← View_Pending v;
  if negb (IsMember v self) then None
  else if Contains (Pending_ParticipantsAck p) self then None
  else Some (OAck self (Pending_ID p)).

Definition report_plan (v : View) (self : NodeID) (finished : bool) : option vop :=
  p ← View_Pending v;
  if negb (Pending_Frozen p) then None
  else if negb (Contains (Pending_Participants p) self) then None
  else if Contains (Pending_Done p) self then None
  else Some (if finished then ODone self (Pending_ID p) else OPrimaryDone self (Pending_ID p)).

Definition selfEntry_plan (v : View) (self : NodeID) (addrs : list string) (writable : bool) : option vop :=
  me ← View_Node v self;
  if sameStrings (Node_Addrs me) addrs && Bool.eqb (Node_Writable me) writable then None
  else Some (OSelf self addrs writable).

(** The old voter set of a voter change that a previous holder left pending. *)
Definition resume_old (v : View) : list NodeID :=
  let target := arr_of 32 (VoterSyncTarget v) in
  if VoterSyncAdd v then filter (λ id, id ≠ target) (VoterIDs v) else VoterIDs v ++ [target].

(** What the holder of the maintenance lease does next. *)
Inductive duty :=
  | DutyVoterSync                       (* [resumeVoterSync], and nothing else *)
  | DutyDrive                           (* [driveTransition], then GC and housekeeping *)
  | DutyRemoveVoter (id : NodeID)       (* [removeVoter id true], and nothing else *)
  | DutyRamp (op : vop)                 (* a step of a ramp, and nothing else *)
  | DutyIdle.                           (* GC and housekeeping *)

Definition coordinate_plan (v : View) : duty :=
  if (VoterSync v =? VoterSyncPending)%Z then DutyVoterSync
  else match View_Pending v with
  | Some _ => DutyDrive
  | None =>
      match RemoveVoters v with
      | raw :: _ => DutyRemoveVoter (arr_of 32 raw)
      | [] => match nextRamp_plan v with Some op => DutyRamp op | None => DutyIdle end
      end
  end.

Definition transitionText (v : View) : string :=
  match View_Pending v with
  | None =>
      if bool_decide (0 < length (Ramps v))%nat then "idle (" +:+ pretty (length (Ramps v)) +:+ " ramp(s) pending)"
      else "idle"
  | Some p =>
      if negb (Pending_Frozen p) then
        "id " +:+ pretty (Pending_ID p) +:+ " (" +:+ Pending_Reason p +:+ "): adopting, " +:+
        pretty (length (Pending_ParticipantsAck p)) +:+ "/" +:+ pretty (length (AllMembers v)) +:+ " acked"
      else
        let waiting := (λ id, ShortID (arr_of 32 id)) <$>
          filter (λ id, negb (reported (Pending_Done p) id) = true) (Pending_Participants p) in
        "id " +:+ pretty (Pending_ID p) +:+ " round " +:+ pretty (Pending_Round p) +:+ " (" +:+ Pending_Reason p +:+ "): " +:+
        pretty (length (Pending_Done p)) +:+ "/" +:+ pretty (length (Pending_Participants p)) +:+ " done, waiting for [" +:+
        String.concat " " waiting +:+ "]"
  end%string.

(** The first view of a cluster. *)
Definition InitCluster_view (cid : bytes) (self : NodeID) (addrs : list string) (replicas minReplicas weight : N)
    (zone : string) (allowUnsafe : bool) : string + View :=
  let replicas := if replicas =? 0 then 3 else replicas in
  let minReplicas := if minReplicas =? 0 then DefaultMinReplicas replicas else minReplicas in
  if (minReplicas <? 2) && negb allowUnsafe then inl "node: min_replicas below 2 needs --allow-unsafe"%string
  else inr (MkView cid 1 1 1 1 replicas minReplicas [MkVoter self 1] VoterSyncDone []
    [MkNode self weight addrs [] [] zone 1 true] None [] [] 0 0 false 0 [] false [] None [] []).
