(* ===== verification/TransitionSafety.v ===== *)
(** What the view changes of Transition.v keep, over whole histories of the view
    register.

    A history lists the views the register has held, the newest first.  Each step
    applies a change that some node decided to make on a view of the history,
    not necessarily the newest: nodes act on the view they have adopted, and the
    lease lets two holders overlap for a moment. *)
From S2P Require Import Prelude Store Placement View Wire Ballot Proposer Catalog Transition.

Local Open Scope N_scope.

(** * Histories *)

(** [w] is the view of the node that decides. *)
Inductive issued (w : View) : vop → Prop :=
  | is_node nop id op : nodeChange_plan w nop id = inr op → issued w op
  | is_replicas r : issued w (OReplicas r)
  | is_ramp op : nextRamp_plan w = Some op → issued w op
  | is_drive cfg now op : driveTransition_plan cfg now w = Some op → issued w op
  | is_refreeze : issued w (ORefreeze true)
  | is_abort : issued w OAbort
  | is_knob k : issued w (OKnob k)
  | is_join r op : admitNode_plan w r = inr (Some op) → issued w op
  | is_addVoter id ping op : addVoter_plan w id ping = inr (Some op) → issued w op
  | is_single id ping op : addVoterFromSingle_plan w id ping = inr op → issued w op
  | is_removeVoter id unsafe op : removeVoter_plan w id unsafe = inr (Some op) → issued w op
  | is_cursor c : VoterSync w = VoterSyncPending → issued w (OCursor c)
  | is_syncDone : VoterSync w = VoterSyncPending → issued w OSyncDone
  | is_ack self op : adopt_plan w self = Some op → issued w op
  | is_report self finished op : report_plan w self finished = Some op → issued w op
  | is_self self addrs writable op : selfEntry_plan w self addrs writable = Some op → issued w op.

Section history.
Context (order : list NodeID → list NodeID).

Definition step (v : View) (op : vop) (now : Z) (v' : View) : Prop :=
  ∃ nv bump, vop_change order op now v = inr (nv, bump) ∧ v' = next_view v nv bump.

Inductive hist : list View → Prop :=
  | hist_init cid self addrs r m weight zone unsafe v :
      InitCluster_view cid self addrs r m weight zone unsafe = inr v → hist [v]
  | hist_step h v w op now v' :
      hist (v :: h) → w ∈ v :: h → issued w op → step v op now v' → hist (v' :: v :: h).

(** * One step *)

Ltac vsimpl := unfold next_view, set_field in *; simpl in *.

(** Takes a successful change apart, down to its conditions. *)
Ltac step_inv H :=
  unfold vop_change, proposeTransition_change, nodeChange_fn, replicas_fn, ramp_fn, admitNode_fn, rampDone_change,
    ack_change, freeze_change, refreeze_change, casPending_change, commit_change, abort_change, knob_change,
    selfEntry_change, addVoter_change, deferVoter_change, voters3_change, voterGone_change, removeVoter_change,
    syncCursor_change, syncDone_change in H;
  repeat (case_match; try done; simplify_eq).

(** A proposal: the view keeps everything but its bookkeeping, and the pending
    set is fresh. *)
Record proposal_of (v nv : View) (p : Pending) : Prop := {
  pr_none : View_Pending v = None;
  pr_sync : VoterSync v ≠ VoterSyncPending;
  pr_pending : View_Pending nv = Some p;
  pr_id : Pending_ID p = u64 (Epoch v + 1);
  pr_ack : Pending_ParticipantsAck p = [];
  pr_parts : Pending_Participants p = [];
  pr_frozen : Pending_Frozen p = false;
  pr_round : Pending_Round p = 0;
  pr_primary : Pending_PrimaryDone p = [];
  pr_done : Pending_Done p = [];
  pr_reps : Pending_Replicas p = Replicas v ∨ Pending_Replicas p ≠ 0;
  pr_ids : ∀ n, n ∈ Pending_Nodes p → n ∈ Nodes v ∨ length (Node_ID n) = 32%nat ∨ ∃ n', n' ∈ Nodes v ∧ Node_ID n = Node_ID n';
  pr_valid : ValidateChange (Nodes v) (Pending_Nodes p) (Z.of_N (Replicas v)) false = false;
  pr_nodes : Nodes nv = Nodes v;
  pr_replicas : Replicas nv = Replicas v;
  pr_min : MinReplicas nv = MinReplicas v;
  pr_pepoch : PlacementEpoch nv = PlacementEpoch v;
  pr_voters : Voters nv = Voters v;
  pr_vsync : VoterSync nv = VoterSync v;
  pr_target : VoterSyncTarget nv = VoterSyncTarget v;
  pr_add : VoterSyncAdd nv = VoterSyncAdd v;
  pr_remove : RemoveVoters nv = RemoveVoters v;
  pr_deferred : DeferredVoters nv = DeferredVoters v ∨ ∃ id, DeferredVoters nv = removeID (DeferredVoters v) id;
}.

Definition proposes (op : vop) : bool :=
  match op with ONode _ _ | OReplicas _ | ORamp _ _ | OJoin _ => true | _ => false end.

Lemma edit_first_ids f id nodes nodes' n : edit_first f id nodes = Some nodes' →
  (∀ a b, f a = Some b → Node_ID b = Node_ID a) →
  n ∈ nodes' → ∃ n', n' ∈ nodes ∧ Node_ID n = Node_ID n'.
Proof.
  intros He Hf. revert nodes' He. induction nodes as [|nd nodes IH]; intros nodes' He Hn; simpl in He; [done|].
  destruct (arr_is (Node_ID nd) id).
  - injection He as <-. destruct (f nd) as [nd'|] eqn:Ef.
    + apply elem_of_cons in Hn as [->|Hn]; [exists nd; split; [left|by apply Hf]|exists n; split; [by right|done]].
    + exists n. split; [by right|done].
  - apply fmap_Some in He as (r & Er & ->). apply elem_of_cons in Hn as [->|Hn].
    + exists nd. split; [left|done].
    + destruct (IH r Er Hn) as (n' & ? & ?). exists n'. split; [by right|done].
Qed.

Lemma SortNodes_elem n nodes : n ∈ SortNodes nodes ↔ n ∈ nodes.
Proof. unfold SortNodes. by rewrite sort_by_perm. Qed.

Lemma propose_step op now v nv bump : proposes op = true → vop_change order op now v = inr (nv, bump) →
  bump = true ∧ ∃ p, proposal_of v nv p.
Proof.
  intros Hp H. destruct op; try done; clear Hp; simpl in H; unfold proposeTransition_change in H;
    case_bool_decide as Hnone; try done; (destruct (Z.eqb_spec (VoterSync v) VoterSyncPending) as [|Hs]; [done|]);
    rewrite <- eq_None_not_Some in Hnone.
  - unfold nodeChange_fn in H. destruct (edit_first _ _ _) as [nodes|] eqn:He; [|done]. cbn [Pending_Nodes set_field] in He.
    set (v1 := match op with OpZone _ => v | _ => _ end) in H.
    assert (∃ r, v1 = v <| Ramps := r |>) as [r Ev1].
    { unfold v1. destruct op; eauto. exists (Ramps v). by destruct v. }
    rewrite Ev1 in H. destruct (ValidateChange _ _ _ _) eqn:Hval; [done|]. injection H as <- <-.
    split; [done|]. eexists. split; try done; try reflexivity; [by left| |by left].
    intros n Hn. right. right. eapply edit_first_ids; [exact He| |exact Hn]. intros a b. by destruct op; intros [= <-].
  - unfold replicas_fn in H. destruct (N.eqb_spec r 0); [done|]. destruct (ValidateChange _ _ _ _) eqn:Hval; [done|].
    injection H as <- <-. split; [done|]. eexists. split; try done; try reflexivity; [by right|by left|by left].
  - unfold ramp_fn in H. destruct (ValidateChange _ _ _ _) eqn:Hval; [done|]. injection H as <- <-.
    split; [done|]. eexists. split; try done; try reflexivity; [by left| |by left].
    intros n (n0 & -> & Hn0)%list_elem_of_fmap. right. right. exists n0. split; [done|]. by case_match.
  - unfold admitNode_fn in H. destruct (tokenUsed _ _); [done|]. destruct (ValidateChange _ _ _ _) eqn:Hval; [done|].
    injection H as <- <-. split; [done|]. eexists. split; try done; try reflexivity;
      try (by repeat case_match); [by left| |].
    + intros n Hn. change (n ∈ SortNodes (Nodes v ++ [join_entry r])) in Hn. rewrite SortNodes_elem in Hn.
      apply elem_of_app in Hn as [Hn| ->%list_elem_of_singleton]; [by left|].
      right. left. apply arr_length.
    + destruct (jr_noVote r); [right; exists (jr_id r)|left]; by repeat case_match.
Qed.

(** ** The pending set *)

(** What stays, and what only grows, while a transition runs. *)
Record evolves (p p' : Pending) : Prop := {
  ev_id : Pending_ID p' = Pending_ID p;
  ev_frozen : Pending_Frozen p = true → Pending_Frozen p' = true;
  ev_ack : Pending_ParticipantsAck p ⊆ Pending_ParticipantsAck p';
  ev_members : members (Pending_Nodes p') = members (Pending_Nodes p);
  ev_replicas : Pending_Replicas p' = Pending_Replicas p;
}.

#[local] Instance evolves_preorder : PreOrder evolves.
Proof.
  split; [by intros p; split|]. intros p1 p2 p3 [] []. split; try congruence; eauto. by etrans.
Qed.

(** The bookkeeping of a pending set. *)
Record progress_ok (p : Pending) : Prop := {
  pk_acks : NoDup (Pending_ParticipantsAck p);
  pk_parts : NoDup (Pending_Participants p);
  pk_sub : Pending_Participants p ⊆ Pending_ParticipantsAck p;
  pk_done : NoDup (Pending_Done p) ∧ Pending_Done p ⊆ Pending_ParticipantsAck p;
  pk_primary : NoDup (Pending_PrimaryDone p) ∧ Pending_PrimaryDone p ⊆ Pending_ParticipantsAck p;
  pk_unfrozen : Pending_Frozen p = false →
    Pending_Participants p = [] ∧ Pending_Done p = [] ∧ Pending_PrimaryDone p = [] ∧ Pending_Round p = 0;
}.

Lemma AddID_sub ids (id : NodeID) l : ids ⊆ l → arr_bytes id ∈ l → AddID ids id ⊆ l.
Proof. intros Hs Hid b [Hb| ->]%elem_of_AddID; auto. Qed.

Lemma AddID_grow ids (id : NodeID) : ids ⊆ AddID ids id.
Proof. intros b Hb. apply elem_of_AddID. by left. Qed.

Lemma frozen_parts_gen acks ids acc :
  NoDup acc → acc ⊆ acks →
  let r := fold_left (λ parts id, if Contains acks id then AddID parts id else parts) ids acc in
  NoDup r ∧ r ⊆ acks ∧ (∀ b, b ∈ r ↔ b ∈ acc ∨ ∃ id : NodeID, id ∈ ids ∧ b = arr_bytes id ∧ b ∈ acks).
Proof.
  revert acc. induction ids as [|id ids IH]; intros acc Hnd Hsub; simpl; [set_solver|].
  destruct (Contains acks id) eqn:E.
  - apply Contains_spec in E. destruct (IH (AddID acc id)) as (H1 & H2 & H3); [by apply AddID_NoDup|by apply AddID_sub|].
    split; [done|]. split; [done|]. intros b. rewrite H3, elem_of_AddID. set_solver.
  - destruct (IH acc Hnd Hsub) as (H1 & H2 & H3). split; [done|]. split; [done|]. intros b. rewrite H3.
    split; [set_solver|]. intros [?|(i & [-> |?]%elem_of_cons & -> & Hb)]; [by left| |set_solver].
    apply Contains_spec in Hb. congruence.
Qed.

Lemma frozen_parts_spec v p :
  NoDup (frozen_parts v p) ∧ frozen_parts v p ⊆ Pending_ParticipantsAck p ∧
  (∀ b, b ∈ frozen_parts v p ↔ ∃ id, id ∈ AllMembers v ∧ b = arr_bytes id ∧ b ∈ Pending_ParticipantsAck p).
Proof.
  destruct (frozen_parts_gen (Pending_ParticipantsAck p) (AllMembers v) []) as (H1 & H2 & H3);
    [apply NoDup_nil_2|set_solver|]. split; [done|]. split; [done|]. intros b. unfold frozen_parts. rewrite H3. set_solver.
Qed.

Lemma self_upd_members self addrs w nodes : members (self_upd self addrs w nodes) = members nodes.
Proof.
  unfold members, self_upd. rewrite <- list_fmap_compose. apply list_fmap_ext. intros i nd _. simpl.
  by destruct (self_stale self addrs w nd).
Qed.

Lemma self_upd_keys self addrs w nodes : node_key <$> self_upd self addrs w nodes = node_key <$> nodes.
Proof.
  unfold self_upd. rewrite <- list_fmap_compose. apply list_fmap_ext. intros i nd _. simpl.
  by destruct (self_stale self addrs w nd).
Qed.

Lemma keys_ids (ns ns' : list Node) : node_key <$> ns' = node_key <$> ns → Node_ID <$> ns' = Node_ID <$> ns.
Proof. intros E. apply (f_equal (fmap fst)) in E. by rewrite <- !list_fmap_compose in E. Qed.

(** A step of a running transition, and what justifies a node's report. *)
Definition may_report (v : View) (op : vop) : Prop :=
  match op with
  | OPrimaryDone self id | ODone self id =>
      ∀ p, View_Pending v = Some p → Pending_ID p = id →
        Pending_Frozen p = true ∧ arr_bytes self ∈ Pending_ParticipantsAck p
  | _ => True
  end.

Lemma progress_done p (self : NodeID) : Pending_Frozen p = true → arr_bytes self ∈ Pending_ParticipantsAck p →
  progress_ok p → progress_ok (done_fn self p) ∧ progress_ok (primaryDone_fn self p).
Proof.
  intros Hf Ha [? ? ? [? ?] [? ?] ?]. split; split; simpl; try done; try (split; [by apply AddID_NoDup|by apply AddID_sub]); congruence.
Qed.

Lemma progress_refreeze p q now :
  progress_ok p → Pending_Frozen p = true → NoDup q → q ⊆ Pending_Participants p →
  progress_ok (p <| Pending_Participants := q |> <| Pending_Round := (Pending_Round p + 1) mod u32_max |>
    <| Pending_Done := [] |> <| Pending_PrimaryDone := [] |> <| Pending_FrozenAt := now |>).
Proof.
  intros [? ? ? _ _ _] Hf Hq Hs. split; simpl; try done; [by etrans| | |congruence].
  all: split; [apply NoDup_nil_2|set_solver].
Qed.

Lemma progress_ack p (self : NodeID) : progress_ok p →
  progress_ok (p <| Pending_ParticipantsAck := AddID (Pending_ParticipantsAck p) self |>).
Proof.
  intros [? ? ? [? ?] [? ?] ?]. pose proof (AddID_grow (Pending_ParticipantsAck p) self).
  split; simpl; try done; [by apply AddID_NoDup|by etrans| |]; (split; [done|by etrans]).
Qed.

Lemma progress_freeze v p now : progress_ok p →
  progress_ok (p <| Pending_Participants := frozen_parts v p |> <| Pending_Frozen := true |> <| Pending_FrozenAt := now |>).
Proof. intros [? ? ? ? ? ?]. destruct (frozen_parts_spec v p) as (? & ? & _). by split. Qed.

(** The bookkeeping of the nodes a commit removes. *)
Lemma note_removed_fold now l v : ∃ fm rv,
  fold_left (note_removed now) l v = v <| View_Former := fm |> <| RemoveVoters := rv |> ∧
  (NoDup (RemoveVoters v) → NoDup rv).
Proof.
  revert v. induction l as [|rid l IH]; intros v; simpl; [exists (View_Former v), (RemoveVoters v); by destruct v|].
  destruct (IH (note_removed now v rid)) as (fm & rv & E & Hnd). exists fm, rv. rewrite E. unfold note_removed in *.
  destruct (IsVoter _ _); [|done]. split; [done|]. intros H. apply Hnd. simpl. by apply AddID_NoDup.
Qed.

(** The steps of a running transition. *)
Record pending_step (p p' : Pending) : Prop := {
  ps_progress : progress_ok p → progress_ok p';
  ps_evolves : evolves p p';
  ps_keys : node_key <$> Pending_Nodes p' = node_key <$> Pending_Nodes p;
}.

Lemma pending_change op now v nv bump p' : proposes op = false → may_report v op →
  vop_change order op now v = inr (nv, bump) → View_Pending nv = Some p' →
  ∃ p, View_Pending v = Some p ∧ pending_step p p'.
Proof.
  intros Hp Hr H Hp'. assert (∀ q, pending_step q q) as Hrefl by (intros q; by split).
  destruct op; try done; simpl in H; clear Hp.
  - injection H as <- <-. eauto.
  - unfold ack_change in H. destruct (View_Pending v) as [p|]; [|done]. destruct (_ =? _); [|done]. simpl in H.
    destruct (Contains _ _); [done|]. injection H as <- <-. injection Hp' as <-. exists p. split; [done|].
    split; [apply progress_ack|split; try done; apply AddID_grow|done].
  - unfold freeze_change in H. destruct (View_Pending v) as [p|]; [|done]. destruct (_ || _) eqn:E; [done|].
    injection H as <- <-. injection Hp' as <-. exists p. split; [done|]. split; [apply progress_freeze|by split|done].
  - unfold refreeze_change in H. destruct (View_Pending v) as [p|]; [|done].
    destruct (Pending_Frozen p) eqn:Ef; [|done]. simpl in H. destruct (_ && _) in H; [done|]. injection H as <- <-.
    injection Hp' as <-. exists p. split; [done|]. split; [|by split|done]. intros Hok.
    apply progress_refreeze; [done|done|apply NoDup_filter, Hok|]. intros b [_ Hb]%list_elem_of_filter. done.
  - unfold casPending_change in H. destruct (View_Pending v) as [p|] eqn:Ep; [|done]. destruct (N.eqb_spec (Pending_ID p) id); [|done].
    injection H as <- <-. injection Hp' as <-. exists p. split; [done|]. destruct (Hr p Ep e).
    split; [by intros; apply progress_done|by split|done].
  - unfold casPending_change in H. destruct (View_Pending v) as [p|] eqn:Ep; [|done]. destruct (N.eqb_spec (Pending_ID p) id); [|done].
    injection H as <- <-. injection Hp' as <-. exists p. split; [done|]. destruct (Hr p Ep e).
    split; [by intros; apply progress_done|by split|done].
  - unfold commit_change in H. destruct (View_Pending v) as [p|]; [|done]. destruct (_ || _); [done|].
    destruct (allDone p); [|done]. by injection H as <- <-.
  - unfold abort_change in H. destruct (View_Pending v); [|done]. by injection H as <- <-.
  - injection H as <- <-. exists p'. split; [|done]. destruct k; exact Hp'.
  - unfold selfEntry_change in H. destruct (negb _) in H; [done|]. injection H as <- <-.
    change ((λ p, p <| Pending_Nodes := self_upd self addrs writable (Pending_Nodes p) |>) <$> View_Pending v = Some p') in Hp'.
    apply fmap_Some in Hp' as (p & Ep & ->). exists p. split; [done|].
    split; [by intros []; split|split; try done; apply self_upd_members|apply self_upd_keys].
  - unfold addVoter_change in H. destruct (_ || _) in H; [done|]. injection H as <- <-. eauto.
  - injection H as <- <-. eauto.
  - unfold voters3_change in H. destruct (negb _) in H; [done|]. injection H as <- <-. eauto.
  - injection H as <- <-. eauto.
  - unfold removeVoter_change in H. destruct (_ || _) in H; [done|]. injection H as <- <-. eauto.
  - unfold syncCursor_change in H. destruct (negb _) in H; [done|]. injection H as <- <-. eauto.
  - injection H as <- <-. eauto.
Qed.

(** Every field but those of the transition and of the bookkeeping. *)
Record frame (v nv : View) : Prop := {
  fr_keys : node_key <$> Nodes nv = node_key <$> Nodes v;
  fr_members : members (Nodes nv) = members (Nodes v);
  fr_replicas : Replicas nv = Replicas v;
  fr_min : MinReplicas nv = MinReplicas v;
  fr_pepoch : PlacementEpoch nv = PlacementEpoch v;
  fr_voters : Voters nv = Voters v;
  fr_vsync : VoterSync nv = VoterSync v;
  fr_target : VoterSyncTarget nv = VoterSyncTarget v;
  fr_add : VoterSyncAdd nv = VoterSyncAdd v;
  fr_deferred : DeferredVoters nv = DeferredVoters v;
  fr_remove : RemoveVoters nv = RemoveVoters v;
}.

Definition bookkeeping (op : vop) : bool :=
  match op with
  | ORampDone _ | OAck _ _ | OFreeze _ | ORefreeze _ | OPrimaryDone _ _ | ODone _ _ | OAbort | OKnob _
  | OSelf _ _ _ | OCursor _ => true
  | _ => false
  end.

Lemma bookkeeping_frame op now v nv bump : bookkeeping op = true →
  vop_change order op now v = inr (nv, bump) → frame v nv.
Proof.
  intros Hb H. destruct op; try done; clear Hb; simpl in H.
  - injection H as <- <-. by split.
  - unfold ack_change in H. repeat case_match; try done. injection H as <- <-. by split.
  - unfold freeze_change in H. repeat case_match; try done. injection H as <- <-. by split.
  - unfold refreeze_change in H. repeat case_match; try done. injection H as <- <-. by split.
  - unfold casPending_change in H. repeat case_match; try done. injection H as <- <-. by split.
  - unfold casPending_change in H. repeat case_match; try done. injection H as <- <-. by split.
  - unfold abort_change in H. repeat case_match; try done. injection H as <- <-. by split.
  - injection H as <- <-. by destruct k; split.
  - unfold selfEntry_change in H. destruct (negb _) in H; [done|]. injection H as <- <-.
    split; try done; [apply self_upd_keys|apply self_upd_members].
  - unfold syncCursor_change in H. destruct (negb _) in H; [done|]. injection H as <- <-. by split.
Qed.

(** What a commit makes. *)
Lemma commit_step id round now v nv bump : vop_change order (OCommit id round) now v = inr (nv, bump) →
  bump = true ∧ ∃ p, View_Pending v = Some p ∧ Pending_ID p = id ∧ Pending_Round p = round ∧ allDone p = true ∧
  View_Pending nv = None ∧ Nodes nv = Pending_Nodes p ∧ Replicas nv = Pending_Replicas p ∧
  MinReplicas nv = N.min (MinReplicas v) (Pending_Replicas p) ∧ PlacementEpoch nv = Pending_ID p ∧
  Voters nv = Voters v ∧ VoterSync nv = VoterSync v ∧ VoterSyncTarget nv = VoterSyncTarget v ∧
  VoterSyncAdd nv = VoterSyncAdd v ∧ DeferredVoters nv = DeferredVoters v ∧ Epoch nv = Epoch v ∧
  (NoDup (RemoveVoters v) → NoDup (RemoveVoters nv)).
Proof.
  simpl. unfold commit_change. destruct (View_Pending v) as [p|] eqn:Ep; [|done].
  destruct (N.eqb_spec (Pending_ID p) id) as [E1|]; [|done]. destruct (N.eqb_spec (Pending_Round p) round) as [E2|]; [|done].
  simpl. destruct (allDone p) eqn:Ed; [|done]. simpl.
  destruct (note_removed_fold now (order (removed_ids (Nodes v) (Pending_Nodes p))) v) as (fm & rv & -> & Hnd).
  intros [= <- <-]. split; [done|]. exists p. by split_and!.
Qed.

(** The version goes up by one, the epoch by one when the change says so. *)
Lemma change_epoch op now v nv bump : vop_change order op now v = inr (nv, bump) → Epoch nv = Epoch v.
Proof.
  intros H. destruct (proposes op) eqn:Hp.
  { destruct op; try done; simpl in H; unfold proposeTransition_change in H; do 2 (case_match; [done|]).
    - unfold nodeChange_fn in H. repeat case_match; try done; by simplify_eq.
    - unfold replicas_fn in H. repeat case_match; try done; by simplify_eq.
    - unfold ramp_fn in H. repeat case_match; try done; by simplify_eq.
    - unfold admitNode_fn in H. repeat case_match; try done; by simplify_eq. }
  destruct op; try done.
  all: try (by apply commit_step in H as (_ & p & H); destruct_and! H).
  all: simpl in H; unfold ack_change, freeze_change, refreeze_change, casPending_change, abort_change, selfEntry_change,
    addVoter_change, voters3_change, removeVoter_change, syncCursor_change in H; repeat (case_match; try done);
    injection H as <- <-; try done. by destruct k.
Qed.

Lemma step_counters op now v v' : step v op now v' → Version v + 1 < u64_max → Epoch v ≤ Version v →
  Version v' = Version v + 1 ∧ ∃ bump : bool, Epoch v' = (if bump then Epoch v + 1 else Epoch v) ∧
    ∃ nv, vop_change order op now v = inr (nv, bump) ∧ v' = next_view v nv bump.
Proof.
  intros (nv & bump & H & ->) Hv He. pose proof (change_epoch _ _ _ _ _ H) as Ee.
  split; [transitivity (u64 (Version v + 1)); [by destruct bump|by apply u64_small]|].
  exists bump. split; [|eauto]. destruct bump; [|done]. transitivity (u64 (Epoch v + 1)); [done|]. apply u64_small. lia.
Qed.

(** * Well-formed views *)

Notation id_ok b := (length b = 32%nat).

Record pending_ok (v : View) (p : Pending) : Prop := {
  po_id : PlacementEpoch v < Pending_ID p ≤ Epoch v;
  po_replicas : 1 ≤ Pending_Replicas p;
  po_nodes : Forall (λ b, id_ok b) (Node_ID <$> Pending_Nodes p);
  po_progress : progress_ok p;
  po_valid : ValidateChange (Nodes v) (Pending_Nodes p) (Z.of_N (Replicas v)) false = false;
}.

(** The voter change under way names its target, which is a voter exactly when it
    is being added. *)
Definition sync_ok (v : View) : Prop :=
  VoterSync v = VoterSyncDone ∨
  VoterSync v = VoterSyncPending ∧ ∃ t : NodeID, VoterSyncTarget v = arr_bytes t ∧ IsVoter v t = VoterSyncAdd v.

Record view_ok (v : View) : Prop := {
  vo_epoch : 1 ≤ PlacementEpoch v ≤ Epoch v;
  vo_version : Epoch v ≤ Version v;
  vo_replicas : 1 ≤ Replicas v;
  vo_min : 1 < PlacementEpoch v → MinReplicas v ≤ Replicas v;
  vo_nodes : Forall (λ b, id_ok b) (Node_ID <$> Nodes v);
  vo_voters : Forall (λ vo, id_ok (Voter_ID vo) ∧ Voter_Since vo ≤ Epoch v) (Voters v);
  vo_sync : sync_ok v;
  vo_deferred : NoDup (DeferredVoters v);
  vo_remove : NoDup (RemoveVoters v);
  vo_pending : ∀ p, View_Pending v = Some p → pending_ok v p;
}.

Lemma removeID_NoDup ids (id : NodeID) : NoDup ids → NoDup (removeID ids id).
Proof. apply NoDup_filter. Qed.

Lemma voters_ok_mono (vs : list Voter) e e' : e ≤ e' →
  Forall (λ vo, id_ok (Voter_ID vo) ∧ Voter_Since vo ≤ e) vs → Forall (λ vo, id_ok (Voter_ID vo) ∧ Voter_Since vo ≤ e') vs.
Proof. intros He H. eapply Forall_impl; [exact H|]. intros vo [? ?]. split; [done|lia]. Qed.

Lemma sync_ok_same v nv : Voters nv = Voters v → VoterSync nv = VoterSync v → VoterSyncTarget nv = VoterSyncTarget v →
  VoterSyncAdd nv = VoterSyncAdd v → sync_ok v → sync_ok nv.
Proof. intros E1 E2 E3 E4. unfold sync_ok, IsVoter. by rewrite E1, E2, E3, E4. Qed.

Lemma next_view_fields v nv (bump : bool) :
  let v' := next_view v nv bump in
  PlacementEpoch v' = PlacementEpoch nv ∧ Replicas v' = Replicas nv ∧ MinReplicas v' = MinReplicas nv ∧
  Nodes v' = Nodes nv ∧ Voters v' = Voters nv ∧ DeferredVoters v' = DeferredVoters nv ∧
  RemoveVoters v' = RemoveVoters nv ∧ View_Pending v' = View_Pending nv ∧ VoterSync v' = VoterSync nv ∧
  VoterSyncTarget v' = VoterSyncTarget nv ∧ VoterSyncAdd v' = VoterSyncAdd nv ∧ Ramps v' = Ramps nv.
Proof. by destruct bump. Qed.

(** The conditions on the changed view, before its counters are set. *)
Record next_ok (e : N) (nv : View) : Prop := {
  no_epoch : 1 ≤ PlacementEpoch nv ≤ e;
  no_replicas : 1 ≤ Replicas nv;
  no_min : 1 < PlacementEpoch nv → MinReplicas nv ≤ Replicas nv;
  no_nodes : Forall (λ b, id_ok b) (Node_ID <$> Nodes nv);
  no_voters : Forall (λ vo, id_ok (Voter_ID vo) ∧ Voter_Since vo ≤ e) (Voters nv);
  no_sync : sync_ok nv;
  no_deferred : NoDup (DeferredVoters nv);
  no_remove : NoDup (RemoveVoters nv);
}.

Lemma frame_next v nv e : frame v nv → Epoch v ≤ e → view_ok v → next_ok e nv.
Proof.
  intros [] He []. split; rewrite ?(keys_ids _ _ fr_keys0), ?fr_replicas0, ?fr_min0, ?fr_pepoch0, ?fr_deferred0, ?fr_remove0; try done; try lia.
  - rewrite fr_voters0. by eapply voters_ok_mono.
  - by eapply sync_ok_same.
Qed.

(** A voter is added, or another entry, at the next epoch. *)
Lemma next_voters v ids : Epoch v + 1 < u64_max → view_ok v →
  Forall (λ vo, id_ok (Voter_ID vo) ∧ Voter_Since vo ≤ Epoch v + 1)
    (Voters v ++ ((λ nid : NodeID, MkVoter nid (u64 (Epoch v + 1))) <$> ids)).
Proof.
  intros He Hok. apply Forall_app. split; [eapply voters_ok_mono; [|apply Hok]; lia|].
  apply Forall_fmap, Forall_true. intros id. simpl. split; [apply arr_length|]. by rewrite u64_small.
Qed.

Lemma IsVoter_app v vs (id : NodeID) :
  IsVoter (v <| Voters := Voters v ++ vs |>) id = IsVoter v id || existsb (λ vo, arr_is (Voter_ID vo) id) vs.
Proof. unfold IsVoter. simpl. apply existsb_app. Qed.

Lemma change_ok op now v nv bump e : Epoch v + 1 < u64_max → view_ok v → vop_change order op now v = inr (nv, bump) →
  e = (if bump then Epoch v + 1 else Epoch v) → next_ok e nv.
Proof.
  intros Hu Hok H ->. destruct (proposes op) eqn:Hp.
  { destruct (propose_step _ _ _ _ _ Hp H) as [-> [p Hpr]]. destruct Hpr, Hok. split; try congruence; try lia.
    - rewrite pr_voters0. eapply voters_ok_mono; [|done]. lia.
    - by eapply sync_ok_same.
    - destruct pr_deferred0 as [-> |[id ->]]; [done|by apply removeID_NoDup]. }
  destruct (bookkeeping op) eqn:Hb.
  { eapply frame_next; [by eapply bookkeeping_frame| |done]. destruct bump; lia. }
  destruct op; try done; clear Hp Hb.
  - apply commit_step in H as (-> & p & Ep & _ & _ & _ & _ & E1 & E2 & E3 & E4 & E5 & E6 & E7 & E8 & E9 & _ & Hnd).
    destruct Hok. destruct (vo_pending0 p Ep). rewrite <- E2 in E3. split; rewrite ?E1, ?E2, ?E4; try done; try lia.
    + rewrite E5. eapply voters_ok_mono; [|done]. lia.
    + by eapply sync_ok_same.
    + by rewrite E9.
    + auto.
  - simpl in H. unfold addVoter_change in H. destruct (_ || _) in H; [done|]. injection H as <- <-.
    pose proof (next_voters v [id] Hu Hok) as Hv. destruct Hok. split; simpl; try done; try lia.
    + right. split; [done|]. exists id. split; [done|]. change (IsVoter (v <| Voters := Voters v ++ [MkVoter id (u64 (Epoch v + 1))] |>) id = true).
      rewrite IsVoter_app. simpl. unfold arr_is. rewrite bool_decide_true by done. by rewrite !orb_true_r.
    + by apply removeID_NoDup.
  - simpl in H. injection H as <- <-. destruct Hok. split; simpl; try done. by apply AddID_NoDup.
  - simpl in H. unfold voters3_change in H. destruct (negb _) in H; [done|]. injection H as <- <-.
    pose proof (next_voters v newIDs Hu Hok) as Hv. destruct Hok. split; simpl; try done; try lia; [by left|apply NoDup_nil_2].
  - simpl in H. injection H as <- <-. destruct Hok. split; simpl; try done. by apply removeID_NoDup.
  - simpl in H. unfold removeVoter_change in H. destruct (_ || _) in H; [done|]. injection H as <- <-.
    destruct Hok. split; simpl; try done; try lia.
    + eapply voters_ok_mono; [|apply Forall_forall; intros vo [_ Hvo]%list_elem_of_filter;
        rewrite Forall_forall in vo_voters0; by apply vo_voters0]. lia.
    + right. split; [done|]. exists id. split; [done|]. simpl. unfold IsVoter. simpl. apply not_true_is_false.
      rewrite existsb_exists. intros (vo & Hvo & Ha). apply list_elem_of_In, list_elem_of_filter in Hvo as [Hn _]. by rewrite Ha in Hn.
    + by apply removeID_NoDup.
  - simpl in H. injection H as <- <-. destruct Hok. split; simpl; try done. by left.
Qed.

(** While a transition runs, the placement it started from stays. *)
Lemma pending_frame op now v nv bump p' : proposes op = false → vop_change order op now v = inr (nv, bump) →
  View_Pending nv = Some p' →
  PlacementEpoch nv = PlacementEpoch v ∧ node_key <$> Nodes nv = node_key <$> Nodes v ∧ Replicas nv = Replicas v.
Proof.
  intros Hp H Hp'. destruct (bookkeeping op) eqn:Hb; [by destruct (bookkeeping_frame _ _ _ _ _ Hb H)|].
  destruct op; try done.
  { apply commit_step in H as (_ & q & _ & _ & _ & _ & Hq & _). congruence. }
  all: simpl in H; unfold addVoter_change, voters3_change, removeVoter_change in H;
    repeat (case_match; try done); by injection H as <- <-.
Qed.

Lemma step_ok op now v v' : Version v + 1 < u64_max → view_ok v → may_report v op → step v op now v' → view_ok v'.
Proof.
  intros Hu Hok Hr Hs. pose proof (vo_version _ Hok) as Hev.
  destruct (step_counters _ _ _ _ Hs Hu Hev) as (Ever & bump & Ee & nv & H & E).
  assert (Epoch v + 1 < u64_max) as Hue by lia. pose proof (change_ok _ _ _ _ _ _ Hue Hok H eq_refl) as Hn. rewrite <- Ee in Hn.
  destruct (next_view_fields v nv bump) as (F1&F2&F3&F4&F5&F6&F7&F8&F9&F10&F11&_). rewrite <- E in *.
  destruct Hn. assert (Epoch v ≤ Epoch v') as Hmono by (rewrite Ee; destruct bump; lia).
  split; rewrite ?F1, ?F2, ?F3, ?F4, ?F5, ?F6, ?F7, ?F8; try done.
  - rewrite Ee, Ever. destruct bump; lia.
  - by eapply sync_ok_same.
  - intros p' Hp'. destruct (proposes op) eqn:Hp.
    + destruct (propose_step _ _ _ _ _ Hp H) as [-> [p Hpr]]. destruct Hpr. rewrite pr_pending0 in Hp'. injection Hp' as <-.
      rewrite u64_small in pr_id0 by lia. destruct Hok. split.
      * rewrite F1, pr_pepoch0, pr_id0, Ee. lia.
      * destruct pr_reps0 as [-> |]; [done|lia].
      * apply Forall_fmap, Forall_forall. intros n Hn. simpl. destruct (pr_ids0 n Hn) as [Hi|[Hi|(n' & Hi & ->)]]; [|done|];
          rewrite Forall_fmap, Forall_forall in vo_nodes0; by apply vo_nodes0.
      * split; rewrite ?pr_ack0, ?pr_parts0, ?pr_done0, ?pr_primary0; try apply NoDup_nil_2; try done;
          (split; [apply NoDup_nil_2|done]).
      * by rewrite F2, F4, pr_nodes0, pr_replicas0.
    + destruct (pending_change _ _ _ _ _ _ Hp Hr H Hp') as (p & Ep & [Hps Hev' Hids]).
      destruct (vo_pending _ Hok p Ep). destruct Hev'. destruct (pending_frame _ _ _ _ _ _ Hp H Hp') as (G1 & G2 & G3). split.
      * rewrite F1, ev_id0, G1. lia.
      * by rewrite ev_replicas0.
      * by rewrite (keys_ids _ _ Hids).
      * auto.
      * rewrite F2, F4, G3. by erewrite ValidateChange_ext.
Qed.

(** * Along a history *)

(** A view and one that came later. *)
Record grows (x v : View) : Prop := {
  gr_epoch : Epoch x ≤ Epoch v;
  gr_pending p p' : View_Pending x = Some p → View_Pending v = Some p' → Pending_ID p' = Pending_ID p → evolves p p';
}.

(** Which decisions lead to a report or to a commit. *)
Lemma issued_report_op w op : issued w op →
  match op with
  | OPrimaryDone self id | ODone self id => ∃ p, View_Pending w = Some p ∧ Pending_ID p = id ∧ Pending_Frozen p = true ∧
      Contains (Pending_Participants p) self = true
  | OCommit id _ => ∃ p, View_Pending w = Some p ∧ Pending_ID p = id ∧ Pending_Frozen p = true
  | _ => True
  end.
Proof.
  intros Hi. destruct Hi; try exact I.
  - unfold nodeChange_plan in *. case_match; by simplify_eq.
  - unfold nextRamp_plan in *. repeat case_match; by simplify_eq.
  - unfold driveTransition_plan in *. destruct (View_Pending w) as [p|]; [|done].
    destruct (Pending_Frozen p) eqn:Ef; simpl in *; repeat case_match; simplify_eq; eauto.
  - unfold admitNode_plan in *. repeat case_match; by simplify_eq.
  - unfold addVoter_plan in *. repeat case_match; by simplify_eq.
  - unfold addVoterFromSingle_plan in *. repeat case_match; by simplify_eq.
  - unfold removeVoter_plan in *. repeat case_match; by simplify_eq.
  - unfold adopt_plan in *. destruct (View_Pending w); [|done]. simpl in *. repeat case_match; by simplify_eq.
  - unfold report_plan in *. destruct (View_Pending w) as [p|]; [|done]. simpl in *.
    destruct (Pending_Frozen p) eqn:Ef; [|done]. destruct (Contains (Pending_Participants p) self) eqn:Ec; [|done]. simpl in *.
    repeat case_match; simplify_eq; eauto 6.
  - unfold selfEntry_plan in *. destruct (View_Node w self); [|done]. simpl in *. repeat case_match; by simplify_eq.
Qed.

(** A report for the newest view was decided on a frozen one. *)
Lemma issued_report w v op : issued w op → view_ok w → grows w v → may_report v op.
Proof.
  intros Hi Hok Hg. pose proof (issued_report_op w op Hi) as H. destruct op; try exact I; simpl in *.
  all: destruct H as (p & Ep & Eid & Hf & Hc); intros q Eq Eq'.
  all: destruct (gr_pending _ _ Hg p q Ep Eq ltac:(congruence)) as [? Hfr Ha _ _]; split; [by apply Hfr|]; apply Ha;
    apply (pk_sub _ (po_progress _ _ (vo_pending _ Hok p Ep))); by apply Contains_spec.
Qed.

Lemma grows_step x v v' op now : view_ok v → Version v + 1 < u64_max → may_report v op →
  (∀ p, View_Pending x = Some p → Pending_ID p ≤ Epoch x) →
  grows x v → step v op now v' → grows x v'.
Proof.
  intros Hok Hu Hr Hx [He Hg] Hs.
  destruct (step_counters _ _ _ _ Hs Hu (vo_version _ Hok)) as (_ & bump & Ee & nv & H & E).
  destruct (next_view_fields v nv bump) as (_&_&_&_&_&_&_&F8&_). rewrite <- E in F8.
  split; [rewrite Ee; destruct bump; lia|]. intros p p' Ep Ep' Eid. rewrite F8 in Ep'.
  destruct (proposes op) eqn:Hp.
  - destruct (propose_step _ _ _ _ _ Hp H) as [_ [q Hq]]. destruct Hq. rewrite pr_pending0 in Ep'. injection Ep' as <-.
    pose proof (vo_version _ Hok). rewrite u64_small in pr_id0 by lia. specialize (Hx p Ep). lia.
  - destruct (pending_change _ _ _ _ _ _ Hp Hr H Ep') as (q & Eq & Hps). transitivity q; [|apply Hps].
    apply (Hg p q Ep Eq). rewrite <- Eid. symmetry. apply Hps.
Qed.

Record hist_inv (h : list View) (v : View) : Prop := {
  hi_ok x : x ∈ v :: h → view_ok x ∧ grows x v;
  hi_version : Version v = N.of_nat (length (v :: h));
}.

Lemma InitCluster_ok cid self addrs r m weight zone unsafe v :
  InitCluster_view cid self addrs r m weight zone unsafe = inr v →
  view_ok v ∧ Version v = 1.
Proof.
  unfold InitCluster_view. destruct (_ && _); [done|]. intros [= <-]. split; [|done].
  split; simpl in *; try lia; try done; try apply NoDup_nil_2.
  - destruct (N.eqb_spec r 0); lia.
  - apply Forall_singleton, arr_length.
  - apply Forall_singleton. split; [apply arr_length|done].
  - by left.
Qed.

Lemma hist_invariant h v : hist (v :: h) → N.of_nat (length (v :: h)) < u64_max → hist_inv h v.
Proof.
  intros Hh. remember (v :: h) as l eqn:El. revert v h El.
  induction Hh as [cid self addrs r m weight zone unsafe v0 Hi|h0 v0 w op now v' Hh IH Hw Hi Hs]; intros v h El Hl.
  - injection El as <- <-. destruct (InitCluster_ok _ _ _ _ _ _ _ _ _ Hi) as [Hok Hv]. split; [|done].
    intros x ->%list_elem_of_singleton. split; [done|]. split; [lia|]. intros p p' Ep Ep'. by simplify_eq.
  - injection El as <- <-. simpl in Hl. destruct (IH v0 h0 eq_refl) as [Hall Hver]; [simpl; lia|].
    destruct (Hall v0) as [Hok _]; [left|]. destruct (Hall w Hw) as [Hokw Hgw].
    pose proof (issued_report w v0 op Hi Hokw Hgw) as Hr.
    assert (Version v0 + 1 < u64_max) as Hu by (rewrite Hver; simpl; lia).
    pose proof (step_ok _ _ _ _ Hu Hok Hr Hs) as Hok'.
    destruct (step_counters _ _ _ _ Hs Hu (vo_version _ Hok)) as (Ever & _).
    split; [|rewrite Ever, Hver; simpl; lia].
    intros x [->|Hx]%elem_of_cons.
    + split; [done|]. split; [lia|]. intros p p' Ep Ep'. by simplify_eq.
    + destruct (Hall x Hx) as [Hokx Hgx]. split; [done|]. apply (grows_step x v0 v' op now); try done.
      intros p Ep. apply (vo_pending _ Hokx p Ep).
Qed.

(** * What histories promise *)

(** C24 The type invariant of the view register: in every history of view changes,
    made by nodes on views they adopted at any time before, every view is
    well formed: identities are 32 bytes long, epochs, versions and the epochs at
    which voters and pending sets were made are ordered, there is at least one
    replica, and from the first committed transition on no more are required of a
    write than there are (before it they may be: [InitCluster_min_above]), a voter
    change under way names its target, and the acks, participants and reports of a
    transition are duplicate-free, with the participants and the reports among the
    acks and none of them before the freeze. *)
Theorem view_type_invariant h v : hist (v :: h) → N.of_nat (length (v :: h)) < u64_max → view_ok v.
Proof. intros Hh Hl. destruct (hist_invariant h v Hh Hl) as [Hall _]. apply Hall. left. Qed.

(** The placement of a view: what decides where data lives. *)
Definition placement_of (v : View) : list Member * N := (members (Nodes v), Replicas v).

(** The last step of a history. *)
Record last_step (h : list View) (v v' : View) (op : vop) (now : Z) (bump : bool) (nv : View) : Prop := {
  ls_ok : view_ok v;
  ls_report : may_report v op;
  ls_change : vop_change order op now v = inr (nv, bump);
  ls_next : v' = next_view v nv bump;
  ls_epoch : Epoch v' = if bump then Epoch v + 1 else Epoch v;
  ls_frozen : match op with
    | OCommit id _ => ∀ p, View_Pending v = Some p → Pending_ID p = id → Pending_Frozen p = true
    | _ => True
    end;
}.

Lemma hist_last h v v' : hist (v' :: v :: h) → N.of_nat (length (v' :: v :: h)) < u64_max →
  ∃ op now bump nv, last_step h v v' op now bump nv.
Proof.
  intros Hh Hl. inversion Hh as [|h0 v0 w op now v1 Hh0 Hw Hi Hs]; subst. simpl in Hl.
  destruct (hist_invariant h v Hh0) as [Hall Hver]; [simpl; lia|]. destruct (Hall v) as [Hok _]; [left|].
  assert (Version v + 1 < u64_max) as Hu by (rewrite Hver; simpl; lia). destruct (Hall w Hw) as [Hokw Hgw].
  destruct (step_counters _ _ _ _ Hs Hu (vo_version _ Hok)) as (_ & bump & Ee & nv & H & E).
  exists op, now, bump, nv. split; try done; [by eapply issued_report|].
  pose proof (issued_report_op w op Hi) as Hx. destruct op; try done. destruct Hx as (q & Eq & Eid & Ef).
  intros p Ep Eid'. by apply (gr_pending _ _ Hgw q p Eq Ep ltac:(congruence)).
Qed.

(** ** Epochs *)

Definition pending_config (p : Pending) : N * list Member * N * bool * list bytes * N :=
  (Pending_ID p, members (Pending_Nodes p), Pending_Replicas p, Pending_Frozen p, Pending_Participants p, Pending_Round p).

(** What a request stamped with an epoch relies on. *)
Definition config_of (v : View) : list Voter * (list Member * N) * option (N * list Member * N * bool * list bytes * N) :=
  (Voters v, placement_of v, pending_config <$> View_Pending v).

(** Without an epoch bump only addresses, reports and bookkeeping change. *)
Lemma unbumped_config op now v nv : vop_change order op now v = inr (nv, false) → config_of nv = config_of v.
Proof.
  intros H. destruct (proposes op) eqn:Hp; [by destruct (propose_step _ _ _ _ _ Hp H) as [[=] _]|].
  destruct op; try done; simpl in H.
  - by injection H as <-.
  - unfold ack_change in H. destruct (View_Pending v) as [p|] eqn:Ep; [|done]. repeat (case_match; try done).
    injection H as <-. unfold config_of. by rewrite Ep.
  - unfold freeze_change in H. repeat (case_match; try done).
  - unfold refreeze_change in H. repeat (case_match; try done).
  - unfold casPending_change in H. destruct (View_Pending v) as [p|] eqn:Ep; [|done]. case_match; [done|].
    injection H as <-. unfold config_of. by rewrite Ep.
  - unfold casPending_change in H. destruct (View_Pending v) as [p|] eqn:Ep; [|done]. case_match; [done|].
    injection H as <-. unfold config_of. by rewrite Ep.
  - unfold commit_change in H. repeat (case_match; try done).
  - unfold abort_change in H. by case_match.
  - injection H as <-. by destruct k.
  - unfold selfEntry_change in H. destruct (negb _) in H; [done|]. injection H as <-. unfold config_of, placement_of. simpl.
    rewrite self_upd_members. f_equal. destruct (View_Pending v) as [p|]; [|done]. simpl. unfold pending_config. simpl.
    by rewrite self_upd_members.
  - unfold addVoter_change in H. by case_match.
  - by injection H as <-.
  - unfold voters3_change in H. by case_match.
  - by injection H as <-.
  - unfold removeVoter_change in H. by case_match.
  - unfold syncCursor_change in H. case_match; [done|]. by injection H as <-.
  - by injection H as <-.
Qed.

Lemma hist_epoch v h x : hist (v :: h) → N.of_nat (length (v :: h)) < u64_max → x ∈ v :: h →
  Epoch x ≤ Epoch v ∧ (Epoch x = Epoch v → config_of x = config_of v).
Proof.
  remember (v :: h) as l eqn:El. intros Hh. revert v h x El.
  induction Hh as [? ? ? ? ? ? ? ? v0 _|h0 v0 w op now v' Hh IH Hw Hi Hs]; intros v h x [= <- <-] Hl Hx.
  - by apply list_elem_of_singleton in Hx as ->.
  - apply elem_of_cons in Hx as [->|Hx]; [done|]. destruct (IH v0 h0 x eq_refl ltac:(simpl in *; lia) Hx) as [He Hc].
    destruct (hist_last h0 v0 v') as (op' & now' & bump & nv & [_ _ H E Ee]); [by apply (hist_step h0 v0 w op now v')|done|].
    rewrite Ee. destruct bump; [split; lia|]. split; [done|]. intros Ex. rewrite (Hc Ex), E.
    by rewrite <- (unbumped_config _ _ _ _ H).
Qed.

(** C7 An epoch names one configuration: two views of a history with the same
    epoch have the same voters, the same placement, and the same pending set,
    frozen or not with the same participants and round; acks, reports, addresses
    and sync progress are all that may differ.  The history is shorter than 2^64
    views. *)
Theorem epoch_names_configuration h x y : hist h → N.of_nat (length h) < u64_max →
  x ∈ h → y ∈ h → Epoch x = Epoch y → config_of x = config_of y.
Proof.
  intros Hh. revert x y. induction Hh as [? ? ? ? ? ? ? ? v0 _|h0 v0 w op now v' Hh IH Hw Hi Hs]; intros x y Hl Hx Hy Exy.
  - apply list_elem_of_singleton in Hx as ->. by apply list_elem_of_singleton in Hy as ->.
  - assert (hist (v' :: v0 :: h0)) as Hh' by by apply (hist_step h0 v0 w op now v').
    destruct (hist_epoch _ _ x Hh' Hl Hx) as [Ex Hcx]. destruct (hist_epoch _ _ y Hh' Hl Hy) as [Ey Hcy].
    apply elem_of_cons in Hx as [->|Hx]; [by symmetry; apply Hcy|].
    apply elem_of_cons in Hy as [->|Hy]; [by apply Hcx|]. apply IH; try done. simpl in *. lia.
Qed.

(** ** Data across a commit *)

(** A step that changes the placement is a commit. *)
Lemma placement_step op now v nv bump : vop_change order op now v = inr (nv, bump) →
  placement_of nv = placement_of v ∨ ∃ id round, op = OCommit id round.
Proof.
  intros H. unfold placement_of. destruct (proposes op) eqn:Hp.
  { destruct (propose_step _ _ _ _ _ Hp H) as [_ [p []]]. left. congruence. }
  destruct (bookkeeping op) eqn:Hb.
  { destruct (bookkeeping_frame _ _ _ _ _ Hb H). left. congruence. }
  destruct op; try done; [eauto|..].
  all: left; simpl in H; unfold addVoter_change, voters3_change, removeVoter_change in H;
    repeat (case_match; try done); by injection H as <- <-.
Qed.

(** C25 No committed transition takes all the owners of a key: when the placement
    changes in a history from a view that lists no node twice, every key that had
    its [R] owners under the old placement finds one of them with weight in the new
    one, so the copies the transition must have made are not the only ones. *)
Theorem commit_keeps_an_owner (blake3 : bytes → nat → bytes) h v v' (key : arr 32) :
  hist (v' :: v :: h) → N.of_nat (length (v' :: v :: h)) < u64_max → placement_of v' ≠ placement_of v →
  NoDup (NID <$> Nodes v) → N.of_nat (length (owner_ids blake3 (Nodes v) (Replicas v) key)) = Replicas v →
  ∃ id n, id ∈ owner_ids blake3 (Nodes v) (Replicas v) key ∧ n ∈ Nodes v' ∧ NID n = id ∧ Node_Weight n ≠ 0.
Proof.
  intros Hh Hl Hd Hnd Hfull. destruct (hist_last _ _ _ Hh Hl) as (op & now & bump & nv & [Hok _ H E _ _]).
  assert (placement_of v' = placement_of nv ∧ Nodes v' = Nodes nv) as [E1 E2] by (rewrite E; by destruct bump).
  rewrite E1 in Hd. rewrite E2. destruct (placement_step _ _ _ _ _ H) as [|(id & round & ->)]; [done|].
  apply commit_step in H as (_ & p & Ep & _ & _ & _ & _ & EN & _). rewrite EN.
  destruct (vo_pending _ Hok p Ep) as [_ _ _ _ Hval].
  apply ValidateChange_keeps; [done| |done|done]. pose proof (vo_replicas _ Hok). lia.
Qed.

(** ** Voters *)

Lemma voter_ids_filter (vs : list Voter) (id : NodeID) : Forall (λ vo, id_ok (Voter_ID vo)) vs →
  (λ vo, arr_of 32 (Voter_ID vo)) <$> filter (λ vo, negb (arr_is (Voter_ID vo) id) = true) vs =
  filter (λ x, x ≠ id) ((λ vo, arr_of 32 (Voter_ID vo)) <$> vs).
Proof.
  induction 1 as [|vo vs Hvo _ IH]; [done|]. rewrite fmap_cons, !filter_cons.
  assert (negb (arr_is (Voter_ID vo) id) = true ↔ arr_of 32 (Voter_ID vo) ≠ id) as Hiff.
  { rewrite negb_true_iff, <- not_true_iff_false, arr_is_spec. split; intros Hn E; apply Hn.
    - by rewrite <- E, arr_of_exact.
    - apply arr_eq. by rewrite arr_of_exact. }
  destruct (decide (negb (arr_is (Voter_ID vo) id) = true)) as [Hd|Hd].
  - rewrite decide_True by by apply Hiff. rewrite fmap_cons. by f_equal.
  - rewrite decide_False by (intros Hx; by apply Hd, Hiff). done.
Qed.

(** How a step may change the voters. *)
Lemma voters_step op now v nv bump : view_ok v → vop_change order op now v = inr (nv, bump) → VoterIDs nv ≠ VoterIDs v →
  bump = true ∧
  (length (Voters v) = 1%nat ∧ (∃ ids, VoterIDs nv = VoterIDs v ++ ids) ∨
   VoterSync v ≠ VoterSyncPending ∧ VoterSync nv = VoterSyncPending ∧
   ∃ id, id ∉ VoterIDs v ∧ VoterIDs nv = VoterIDs v ++ [id] ∨
         id ∈ VoterIDs v ∧ VoterIDs nv = filter (λ x, x ≠ id) (VoterIDs v)).
Proof.
  intros Hok H Hd. assert (∀ id, IsVoter v id = true ↔ id ∈ VoterIDs v) as Hiv.
  { intros id. unfold IsVoter, VoterIDs. rewrite existsb_exists, list_elem_of_fmap. pose proof (vo_voters _ Hok) as Hf.
    rewrite Forall_forall in Hf. split.
    - intros (vo & Hvo & Ha%arr_is_spec). exists vo. split; [by rewrite Ha, arr_of_bytes|by apply list_elem_of_In].
    - intros (vo & -> & Hvo). exists vo. split; [by apply list_elem_of_In|]. apply arr_is_spec. by rewrite arr_of_exact by by apply Hf. }
  destruct (proposes op) eqn:Hp.
  { destruct (propose_step _ _ _ _ _ Hp H) as [_ [p []]]. unfold VoterIDs in Hd. congruence. }
  destruct (bookkeeping op) eqn:Hb.
  { destruct (bookkeeping_frame _ _ _ _ _ Hb H). unfold VoterIDs in Hd. congruence. }
  destruct op; try done; simpl in H.
  - apply (commit_step id round now) in H as (_ & p & H). destruct_and! H. unfold VoterIDs in Hd. congruence.
  - unfold addVoter_change in H. destruct (Z.eqb_spec (VoterSync v) VoterSyncPending); [done|]. simpl in H.
    destruct (IsVoter v id) eqn:Ei; [done|]. injection H as <- <-. split; [done|]. right. split; [done|]. split; [done|].
    exists id. left. split; [by rewrite <- Hiv, Ei|]. unfold VoterIDs. simpl. rewrite fmap_app. simpl. by rewrite arr_of_bytes.
  - by injection H as <- <-.
  - unfold voters3_change in H. case_bool_decide as Hl; [|done]. injection H as <- <-. split; [done|]. left. split; [done|].
    exists newIDs. unfold VoterIDs. simpl. rewrite fmap_app, <- list_fmap_compose. f_equal.
    rewrite <- (list_fmap_id newIDs) at 2. apply list_fmap_ext. intros i x _. simpl. apply arr_of_bytes.
  - by injection H as <- <-.
  - unfold removeVoter_change in H. destruct (Z.eqb_spec (VoterSync v) VoterSyncPending); [done|]. simpl in H.
    destruct (IsVoter v id) eqn:Ei; [|done]. injection H as <- <-. split; [done|]. right. split; [done|]. split; [done|].
    exists id. right. split; [by apply Hiv|]. unfold VoterIDs. simpl. apply voter_ids_filter.
    eapply Forall_impl; [apply Hok|]. by intros vo [].
  - by injection H as <- <-.
Qed.

Lemma length_filter_one (l : list NodeID) id : NoDup l → id ∈ l → length l = S (length (filter (λ x, x ≠ id) l)).
Proof.
  intros Hnd Hid. assert (l ≡ₚ id :: filter (λ x, x ≠ id) l) as Hp; [|exact (Permutation_length Hp)].
  apply NoDup_Permutation; [done|apply NoDup_cons; split; [|by apply NoDup_filter]|].
  - intros [Hn _]%list_elem_of_filter. done.
  - intros x. rewrite elem_of_cons, list_elem_of_filter. destruct (decide (x = id)); naive_solver.
Qed.

(** C26 Voters change one at a time and stay connected: from a view whose voters are
    distinct, outside the step out of a single voter, a step of a history that
    changes the voters is taken only when no voter change is under way, opens one at
    a new epoch, and every quorum of the old voters meets every quorum of the new
    ones.  The step out of a single voter can leave a node listed twice
    ([deferred_voter_added_twice]); from such a view nothing is said. *)
Theorem voter_change_safe h v v' : hist (v' :: v :: h) → N.of_nat (length (v' :: v :: h)) < u64_max →
  NoDup (VoterIDs v) → length (Voters v) ≠ 1%nat → VoterIDs v' ≠ VoterIDs v →
  VoterSync v ≠ VoterSyncPending ∧ VoterSync v' = VoterSyncPending ∧ Epoch v' = Epoch v + 1 ∧
  ∀ Q Q', NoDup Q → NoDup Q' → Q ⊆ VoterIDs v → Q' ⊆ VoterIDs v' →
    (Quorum v ≤ length Q)%nat → (Quorum v' ≤ length Q')%nat → ∃ id, id ∈ Q ∧ id ∈ Q'.
Proof.
  intros Hh Hl Hnd H1 Hd. destruct (hist_last _ _ _ Hh Hl) as (op & now & bump & nv & [Hok _ H E Ee _]).
  assert (VoterIDs v' = VoterIDs nv ∧ VoterSync v' = VoterSync nv) as [E1 E2] by (rewrite E; by destruct bump).
  rewrite E1 in Hd. destruct (voters_step _ _ _ _ _ Hok H Hd) as (-> & [[? _]|(Hs & Hs' & id & Hid)]); [done|].
  split; [done|]. split; [congruence|]. split; [done|]. intros Q Q' ND ND' SQ SQ' LQ LQ'. unfold Quorum in LQ, LQ'.
  rewrite <- !(length_fmap (λ vo, arr_of 32 (Voter_ID vo))) in LQ, LQ'. fold (VoterIDs v) in LQ. fold (VoterIDs v') in LQ'.
  rewrite E1 in SQ', LQ'. destruct Hid as [[Hid Ev]|[Hid Ev]]; rewrite Ev in SQ', LQ'.
  - destruct (majorities_meet (VoterIDs v ++ [id]) (VoterIDs v) Q' Q) as (x & ? & ?); try done; [|eauto].
    split; [set_solver|]. rewrite length_app. simpl. lia.
  - pose proof (length_filter_one _ _ Hnd Hid) as Hlen.
    destruct (majorities_meet (VoterIDs v) (filter (λ x, x ≠ id) (VoterIDs v)) Q Q') as (x & ? & ?); try done; [|eauto].
    split; [|lia]. intros x [_ Hx]%list_elem_of_filter. done.
Qed.

(** ** Completion *)

(** A run of decisions, each taken on the newest view. *)
Inductive run : View → list vop → View → Prop :=
  | run_nil v : run v [] v
  | run_cons v op now v1 ops v2 : issued v op → step v op now v1 → run v1 ops v2 → run v (op :: ops) v2.

Lemma run_app v1 ops1 v2 ops2 v3 : run v1 ops1 v2 → run v2 ops2 v3 → run v1 (ops1 ++ ops2) v3.
Proof. induction 1; [done|]. intros. simpl. econstructor; eauto. Qed.

(** The views a running transition passes through. *)
Definition at_pending (v : View) (p : Pending) (ver ep : N) : View :=
  v <| View_Pending := Some p |> <| Version := ver |> <| Epoch := ep |>.

Lemma find_node_is_Some nodes (id : NodeID) : Forall (λ b, id_ok b) (Node_ID <$> nodes) → id ∈ NID <$> nodes →
  is_Some (find_node nodes id).
Proof.
  intros Hf (n & -> & Hn)%list_elem_of_fmap. unfold find_node. rewrite fmap_is_Some.
  apply (list_find_elem_of _ _ n Hn). rewrite Forall_fmap, Forall_forall in Hf.
  unfold NID. by rewrite arr_of_exact by by apply Hf.
Qed.

Lemma IsMember_all v id : view_ok v → id ∈ AllMembers v → IsMember v id = true.
Proof.
  intros Hok [H|(p & Ep & H)]%elem_of_AllMembers; unfold IsMember, View_Node.
  - destruct (find_node_is_Some _ _ (vo_nodes _ Hok) H) as [n ->]. done.
  - rewrite Ep. simpl. destruct (find_node (Nodes v) id); [done|].
    destruct (find_node_is_Some _ _ (po_nodes _ _ (vo_pending _ Hok p Ep)) H) as [n ->]. done.
Qed.

Lemma IsMember_at v p q ver ep id : View_Pending v = Some p → Pending_Nodes q = Pending_Nodes p →
  IsMember (at_pending v q ver ep) id = IsMember v id.
Proof. intros Ep E. unfold IsMember, View_Node, DataEndpointOwner. simpl. by rewrite Ep, E. Qed.

Lemma AllMembers_at v p q ver ep : View_Pending v = Some p → Pending_Nodes q = Pending_Nodes p →
  AllMembers (at_pending v q ver ep) = AllMembers v.
Proof. intros Ep E. unfold AllMembers. simpl. by rewrite Ep, E. Qed.

(** Every listed member acks. *)
Lemma acks_run v p ids q ver ep : view_ok v → View_Pending v = Some p → ids ⊆ AllMembers v →
  Pending_Nodes q = Pending_Nodes p → ∃ ops ver' acks,
  run (at_pending v q ver ep) ops (at_pending v (q <| Pending_ParticipantsAck := acks |>) ver' ep) ∧
  (length ops ≤ length ids)%nat ∧ Pending_ParticipantsAck q ⊆ acks ∧ (∀ id, id ∈ ids → arr_bytes id ∈ acks).
Proof.
  intros Hok Ep. revert q ver. induction ids as [|id ids IH]; intros q ver Hsub Eq.
  { exists [], ver, (Pending_ParticipantsAck q). split_and!; [destruct q; constructor|done|done|by intros ? ?%elem_of_nil]. }
  assert (id ∈ AllMembers v ∧ ids ⊆ AllMembers v) as [Hid Hids] by set_solver.
  destruct (Contains (Pending_ParticipantsAck q) id) eqn:Ec.
  - destruct (IH q ver Hids Eq) as (ops & ver' & acks & Hr & Hl & Hs & Ha). exists ops, ver', acks.
    split; [done|]. split; [simpl; lia|]. split; [done|]. intros x [->|Hx]%elem_of_cons; [|auto]. by apply Hs, Contains_spec.
  - set (q1 := q <| Pending_ParticipantsAck := AddID (Pending_ParticipantsAck q) id |>).
    destruct (IH q1 (u64 (ver + 1)) Hids Eq) as (ops & ver' & acks & Hr & Hl & Hs & Ha). simpl in Hs.
    exists (OAck id (Pending_ID q) :: ops), ver', acks. split_and!.
    + eapply (run_cons _ _ 0); [| |exact Hr].
      * eapply (is_ack _ id). unfold adopt_plan. simpl. rewrite (IsMember_at v p q ver ep id Ep Eq), IsMember_all, Ec by done. done.
      * exists (at_pending v q1 ver ep), false. simpl. unfold ack_change. simpl. rewrite N.eqb_refl, Ec. split; reflexivity.
    + simpl. lia.
    + etrans; [apply AddID_grow|exact Hs].
    + intros x [->|Hx]%elem_of_cons; [|auto]. apply Hs, elem_of_AddID. by right.
Qed.

(** Every listed participant reports its pass done. *)
Lemma dones_run v ids q ver ep : Pending_Frozen q = true →
  (∀ id : NodeID, id ∈ ids → arr_bytes id ∈ Pending_Participants q) → ∃ ops ver' done,
  run (at_pending v q ver ep) ops (at_pending v (q <| Pending_Done := done |>) ver' ep) ∧
  (length ops ≤ length ids)%nat ∧ Pending_Done q ⊆ done ∧ (∀ id, id ∈ ids → arr_bytes id ∈ done).
Proof.
  intros Hf. revert q ver Hf. induction ids as [|id ids IH]; intros q ver Hf Hsub.
  { exists [], ver, (Pending_Done q). split_and!; [destruct q; constructor|done|done|by intros ? ?%elem_of_nil]. }
  assert (arr_bytes id ∈ Pending_Participants q) as Hid by (apply Hsub; left).
  destruct (Contains (Pending_Done q) id) eqn:Ec.
  - destruct (IH q ver Hf) as (ops & ver' & dn & Hr & Hl & Hs & Ha); [intros; apply Hsub; by right|]. exists ops, ver', dn.
    split; [done|]. split; [simpl; lia|]. split; [done|]. intros x [->|Hx]%elem_of_cons; [|auto]. by apply Hs, Contains_spec.
  - destruct (IH (done_fn id q) (u64 (ver + 1)) Hf) as (ops & ver' & dn & Hr & Hl & Hs & Ha); [intros; apply Hsub; by right|].
    simpl in Hs. exists (ODone id (Pending_ID q) :: ops), ver', dn. split_and!.
    + eapply (run_cons _ _ 0); [| |exact Hr].
      * eapply (is_report _ id true). unfold report_plan. simpl. rewrite Hf, Ec.
        by rewrite (proj2 (Contains_spec _ _) Hid).
      * exists (at_pending v (done_fn id q) ver ep), false. simpl. unfold casPending_change. simpl. rewrite N.eqb_refl. split; reflexivity.
    + simpl. lia.
    + etrans; [apply AddID_grow|exact Hs].
    + intros x [->|Hx]%elem_of_cons; [|auto]. apply Hs, elem_of_AddID. by right.
Qed.

(** A transition comes to its end: from a pending set that is not frozen, when
    every member adopts the view and every participant reports, the decisions of
    the members and of the coordinator lead, in at most two steps per member and
    two more, to a view with the pending set as its placement. *)
Theorem transition_completes (cfg : drive_cfg) (now : Z) v p :
  view_ok v → View_Pending v = Some p → Pending_Frozen p = false →
  ∃ ops v', run v ops v' ∧ (length ops ≤ 2 * length (AllMembers v) + 2)%nat ∧ View_Pending v' = None ∧
    placement_of v' = (members (Pending_Nodes p), Pending_Replicas p) ∧ PlacementEpoch v' = Pending_ID p.
Proof.
  intros Hok Ep Hf. assert (v = at_pending v p (Version v) (Epoch v)) as Ev by (destruct v; simpl in *; by subst).
  destruct (acks_run v p (AllMembers v) p (Version v) (Epoch v) Hok Ep ltac:(done) eq_refl)
    as (ops1 & ver1 & acks & Hr1 & Hl1 & _ & Hall). rewrite <- Ev in Hr1.
  set (p1 := p <| Pending_ParticipantsAck := acks |>) in *. set (v1 := at_pending v p1 ver1 (Epoch v)) in *.
  assert (AllMembers v1 = AllMembers v) as EA by by apply (AllMembers_at v p).
  set (p2 := p1 <| Pending_Participants := frozen_parts v1 p1 |> <| Pending_Frozen := true |> <| Pending_FrozenAt := now |>).
  set (v2 := at_pending v p2 (u64 (ver1 + 1)) (u64 (Epoch v + 1))).
  destruct (frozen_parts_spec v1 p1) as (_ & _ & Hparts).
  destruct (dones_run v (AllMembers v) p2 (u64 (ver1 + 1)) (u64 (Epoch v + 1)) eq_refl) as (ops3 & ver3 & dn & Hr3 & Hl3 & _ & Hdn).
  { intros id Hid. apply Hparts. exists id. rewrite EA. auto. }
  set (p3 := p2 <| Pending_Done := dn |>) in *. set (v3 := at_pending v p3 ver3 (u64 (Epoch v + 1))) in *.
  assert (allDone p3 = true) as Hdone.
  { apply forallb_forall. intros b Hb%list_elem_of_In. apply Hparts in Hb as (id & Hid & -> & _). rewrite EA in Hid.
    unfold reported. rewrite arr_of_bytes. by apply Contains_spec, Hdn. }
  assert (step v1 (OFreeze (Pending_ID p)) now v2) as Hs2.
  { exists (at_pending v p2 ver1 (Epoch v)), true. simpl. unfold freeze_change. simpl. rewrite N.eqb_refl, Hf. split; reflexivity. }
  assert (∃ nv, commit_change order (Pending_ID p) (Pending_Round p) now v3 = inr (nv, true)) as [nv Hc].
  { unfold commit_change. simpl. rewrite !N.eqb_refl. simpl. rewrite Hdone. simpl. eexists. reflexivity. }
  exists (ops1 ++ OFreeze (Pending_ID p) :: ops3 ++ [OCommit (Pending_ID p) (Pending_Round p)]), (next_view v3 nv true).
  destruct (commit_step _ _ _ v3 nv true Hc) as (_ & q & Eq & _ & _ & _ & E1 & E2 & E3 & _ & E4 & _).
  simpl in Eq. injection Eq as <-. split_and!; [| |exact E1|by unfold placement_of; simpl; rewrite E2, E3|exact E4].
  - eapply run_app; [exact Hr1|]. eapply run_cons; [|exact Hs2|eapply run_app; [exact Hr3|]].
    + apply (is_drive _ cfg now). unfold driveTransition_plan. simpl. rewrite Hf. simpl.
      replace (allAcked v1 p1) with true; [done|]. symmetry. apply forallb_forall. intros id Hid%list_elem_of_In.
      rewrite EA in Hid. by apply Contains_spec, Hall.
    + eapply run_cons; [|by exists nv, true|constructor]. apply (is_drive _ cfg now). unfold driveTransition_plan.
      change (View_Pending v3) with (Some p3). change (Pending_Frozen p3) with true. simpl. by rewrite Hdone.
  - rewrite length_app. simpl. rewrite length_app. simpl. lia.
Qed.

(** ** The state machine of transitions *)

Inductive phase := Adopting | Passing (waiting : list NodeID).

(** A placement is its members and the replica count. *)
Inductive tstate :=
  | Stable (cur : list Member * N)
  | Moving (cur target : list Member * N) (id : N) (ph : phase).

(** One transition at a time; it is committed only when it was frozen and nobody
    is waited for, and otherwise the placement stays. *)
Inductive tstep : tstate → tstate → Prop :=
  | t_propose cur target id : tstep (Stable cur) (Moving cur target id Adopting)
  | t_freeze cur target id parts : tstep (Moving cur target id Adopting) (Moving cur target id (Passing parts))
  | t_report cur target id w n :
      tstep (Moving cur target id (Passing w)) (Moving cur target id (Passing (filter (λ x, x ≠ n) w)))
  | t_refreeze cur target id w w' : tstep (Moving cur target id (Passing w)) (Moving cur target id (Passing w'))
  | t_commit cur target id : tstep (Moving cur target id (Passing [])) (Stable target)
  | t_abort cur target id ph : tstep (Moving cur target id ph) (Stable cur).

Definition waiting (p : Pending) : list NodeID :=
  filter (λ id, Contains (Pending_Done p) id = false) (IDsOf (Pending_Participants p)).

Definition abs_pending (cur : list Member * N) (p : Pending) : tstate :=
  Moving cur (members (Pending_Nodes p), Pending_Replicas p) (Pending_ID p)
    (if Pending_Frozen p then Passing (waiting p) else Adopting).

Definition abs (v : View) : tstate :=
  match View_Pending v with None => Stable (placement_of v) | Some p => abs_pending (placement_of v) p end.

Lemma waiting_nil p : allDone p = true → waiting p = [].
Proof.
  unfold allDone, waiting, IDsOf, reported. induction (Pending_Participants p) as [|b l IH]; [done|]. simpl.
  intros [H1 H2]%andb_true_iff. rewrite filter_cons, decide_False by by rewrite H1. by apply IH.
Qed.

Lemma waiting_done p (self : NodeID) : waiting (done_fn self p) = filter (λ x, x ≠ self) (waiting p).
Proof.
  unfold waiting. simpl. induction (IDsOf (Pending_Participants p)) as [|id l IH]; [done|].
  rewrite !filter_cons. destruct (Contains (Pending_Done p) id) eqn:Ec.
  - assert (Contains (AddID (Pending_Done p) self) id = true) as ->.
    { apply Contains_spec, AddID_grow. by apply Contains_spec. }
    simpl. exact IH.
  - destruct (decide (id = self)) as [->|Hn].
    + assert (Contains (AddID (Pending_Done p) self) self = true) as ->.
      { apply Contains_spec, elem_of_AddID. by right. }
      simpl. rewrite filter_cons, decide_False by (intros Hx; by apply Hx). exact IH.
    + assert (Contains (AddID (Pending_Done p) self) id = false) as ->.
      { apply not_true_is_false. intros [Hx|Hx]%Contains_spec%elem_of_AddID.
        - apply Contains_spec in Hx. congruence.
        - by apply arr_eq in Hx. }
      simpl. rewrite filter_cons, decide_True by done. f_equal. exact IH.
Qed.

(** A change of a running transition, other than a commit or an abort. *)
Lemma abs_running op now v nv bump p : proposes op = false → may_report v op → View_Pending v = Some p →
  vop_change order op now v = inr (nv, bump) → is_Some (View_Pending nv) → abs nv = abs v ∨ tstep (abs v) (abs nv).
Proof.
  intros Hp Hr Ep H [q Eq]. assert (placement_of nv = placement_of v) as Epl.
  { destruct (placement_step _ _ _ _ _ H) as [|(id & round & ->)]; [done|]. apply commit_step in H as (_ & x & _ & _ & _ & _ & Hx & _). congruence. }
  unfold abs. rewrite Ep, Eq, Epl.
  assert (q = p → abs_pending (placement_of v) q = abs_pending (placement_of v) p ∨
    tstep (abs_pending (placement_of v) p) (abs_pending (placement_of v) q)) as Hsame by (intros ->; by left).
  destruct op; try done; simpl in H; unfold ack_change, freeze_change, refreeze_change, casPending_change, commit_change,
    abort_change, selfEntry_change, addVoter_change, voters3_change, removeVoter_change, syncCursor_change in H.
  all: rewrite ?Ep in H; repeat (case_match; try done); injection H as <- <-;
    try (apply Hsame; simpl in Eq; rewrite ?Ep in Eq; by injection Eq as <-); try (simpl in Eq; injection Eq as <-).
  - left. reflexivity.
  - right. unfold abs_pending. simpl. apply orb_false_iff in H0 as [_ ->]. apply t_freeze.
  - right. unfold abs_pending. simpl. destruct (Pending_Frozen p) eqn:Ef; [|done]. apply t_refreeze.
  - left. reflexivity.
  - right. destruct (N.eqb_spec (Pending_ID p) id) as [E|]; [|done]. destruct (Hr p Ep E) as [Hf _].
    unfold abs_pending. simpl. rewrite Hf, waiting_done. apply t_report.
  - by simpl in Eq.
  - by simpl in Eq.
  - apply Hsame. destruct k; simpl in Eq; congruence.
  - left. unfold abs_pending. simpl. by rewrite self_upd_members.
Qed.

(** C23 Every step of a history of the view register is a step of the transition
    machine or leaves it where it is: one transition at a time, proposed from a
    stable placement, frozen once, and the placement replaced by the target only
    by the commit of a frozen transition that waits for nobody. *)
Theorem transition_refines h v v' : hist (v' :: v :: h) → N.of_nat (length (v' :: v :: h)) < u64_max →
  abs v' = abs v ∨ tstep (abs v) (abs v').
Proof.
  intros Hh Hl. destruct (hist_last _ _ _ Hh Hl) as (op & now & bump & nv & [Hok Hr H E _ Hfr]).
  assert (abs v' = abs nv) as -> by (rewrite E; by destruct bump).
  destruct (proposes op) eqn:Hp.
  { destruct (propose_step _ _ _ _ _ Hp H) as [_ [p Hpr]]. destruct Hpr. right. unfold abs, placement_of.
    rewrite pr_none0, pr_pending0, pr_nodes0, pr_replicas0. unfold abs_pending. rewrite pr_frozen0. apply t_propose. }
  destruct (View_Pending v) as [p|] eqn:Ep.
  - destruct (View_Pending nv) as [q|] eqn:Eq; [by eapply (abs_running op now); eauto|]. right.
    destruct (placement_step _ _ _ _ _ H) as [Epl|(id & round & ->)].
    + unfold abs. rewrite Ep, Eq, Epl. apply t_abort.
    + apply commit_step in H as (_ & p' & Ep' & Eid & _ & Hd & _ & EN & ER & _). rewrite Ep in Ep'. injection Ep' as <-.
      unfold abs, abs_pending, placement_of. rewrite Ep, Eq, EN, ER, (Hfr p eq_refl Eid), (waiting_nil p Hd). apply t_commit.
  - destruct (View_Pending nv) as [q|] eqn:Eq.
    + destruct (pending_change _ _ _ _ _ _ Hp Hr H Eq) as (p & Ep' & _). congruence.
    + left. unfold abs. rewrite Ep, Eq. f_equal. destruct (placement_step _ _ _ _ _ H) as [|(id & round & ->)]; [done|].
      apply commit_step in H as (_ & p' & Ep' & _). congruence.
Qed.
End history.

(** * Where the code and its documentation part *)

(** A transition can be committed that nobody carried out: when the passes take
    longer than the participant timeout and none of the participants has reported
    yet, the re-freeze drops them all, and the coordinator's next turn commits the
    target placement. *)
Theorem refreeze_commits_unfinished order cfg now now' v p :
  View_Pending v = Some p → Pending_Frozen p = true → Pending_Participants p ≠ [] →
  Pending_Done p = [] → Pending_PrimaryDone p = [] → (ParticipantTimeout cfg < now - Pending_FrozenAt p)%Z →
  driveTransition_plan cfg now v = Some (ORefreeze false) ∧
  ∃ v1 op v2, step order v (ORefreeze false) now v1 ∧ driveTransition_plan cfg now' v1 = Some op ∧ step order v1 op now' v2 ∧
    placement_of v2 = (members (Pending_Nodes p), Pending_Replicas p) ∧ View_Pending v2 = None.
Proof.
  intros Ep Hf Hne Hd Hpd Ht.
  set (p1 := p <| Pending_Participants := [] |> <| Pending_Round := (Pending_Round p + 1) mod u32_max |>
    <| Pending_Done := [] |> <| Pending_PrimaryDone := [] |> <| Pending_FrozenAt := now |>).
  set (v1 := next_view v (v <| View_Pending := Some p1 |>) true).
  assert (∃ b l, Pending_Participants p = b :: l) as (b & l & Eb) by (destruct (Pending_Participants p); [done|eauto]).
  split.
  { unfold driveTransition_plan. rewrite Ep, Hf. simpl. unfold allDone. rewrite Eb, Hd. simpl.
    by rewrite (proj2 (Z.ltb_lt _ _) Ht). }
  assert (∃ nv, commit_change order (Pending_ID p) (Pending_Round p1) now' v1 = inr (nv, true)) as [nv Hc].
  { unfold commit_change. simpl. rewrite !N.eqb_refl. simpl. eexists. reflexivity. }
  exists v1, (OCommit (Pending_ID p) (Pending_Round p1)), (next_view v1 nv true). split_and!.
  - exists (v <| View_Pending := Some p1 |>), true. split; [|done]. simpl. unfold refreeze_change. rewrite Ep, Hf. simpl.
    rewrite Hd, Hpd. unfold reported, Contains. simpl. rewrite Eb.
    assert (∀ l : list bytes, filter (λ _, false = true) l = []) as Hnil by (intros x; induction x; [done|by rewrite filter_cons]).
    rewrite Hnil. done.
  - unfold driveTransition_plan. simpl. by rewrite Hf.
  - by exists nv, true.
  - apply (commit_step order (Pending_ID p) (Pending_Round p1) now' v1) in Hc as (_ & q & Eq & _ & _ & _ & _ & E1 & E2 & _).
    simpl in Eq. injection Eq as <-. unfold placement_of. simpl. by rewrite E1, E2.
  - apply (commit_step order (Pending_ID p) (Pending_Round p1) now' v1) in Hc as (_ & q & Eq & _ & _ & _ & E0 & _). exact E0.
Qed.

(** The report of an earlier round counts in a later one: a node that finished
    its pass under a view of one round records itself in [done] although the
    transition has been re-frozen since and [done] was cleared. *)
Theorem report_of_an_earlier_round order now w v pw p self op :
  View_Pending w = Some pw → View_Pending v = Some p → Pending_ID p = Pending_ID pw → Pending_Round p ≠ Pending_Round pw →
  report_plan w self true = Some op →
  ∃ v' p', step order v op now v' ∧ View_Pending v' = Some p' ∧ Pending_Round p' = Pending_Round p ∧
    Contains (Pending_Done p') self = true.
Proof.
  intros Ew Ev Eid _ Hr. unfold report_plan in Hr. rewrite Ew in Hr. simpl in Hr. repeat (case_match; try done).
  injection Hr as <-. exists (next_view v (v <| View_Pending := Some (done_fn self p) |>) false), (done_fn self p).
  split_and!; [|done|done|].
  - exists (v <| View_Pending := Some (done_fn self p) |>), false. split; [|done]. simpl. unfold casPending_change.
    by rewrite Ev, Eid, N.eqb_refl.
  - apply Contains_spec, elem_of_AddID. by right.
Qed.

(** The step out of a single voter can make one node two voters: asked to add
    again the node whose vote it deferred, the coordinator commits a view that
    lists it twice. *)
Theorem deferred_voter_added_twice order now v id ping vo :
  Voters v = [vo] → IsVoter v id = false → VoterSync v = VoterSyncDone → DeferredVoters v = [arr_bytes id] →
  (∀ ids, ping ids = true) →
  addVoter_plan v id ping = inr None ∧
  ∃ op v', addVoterFromSingle_plan v id ping = inr op ∧ step order v op now v' ∧
    VoterIDs v' = [arr_of 32 (Voter_ID vo); id; id].
Proof.
  intros Ev Hn Hs Hd Hping. split.
  { unfold addVoter_plan. by rewrite Hn, Hs, Ev. }
  exists (OVoters3 [id; id]), (next_view v (v <| Voters := Voters v ++ [MkVoter id (u64 (Epoch v + 1)); MkVoter id (u64 (Epoch v + 1))] |>
    <| DeferredVoters := [] |> <| VoterSync := VoterSyncDone |>) true). split_and!.
  - unfold addVoterFromSingle_plan, VoterIDs. rewrite Hd, Ev. simpl. rewrite Hping. simpl. by rewrite arr_of_bytes.
  - eexists _, true. simpl. unfold voters3_change. rewrite Ev. simpl. split; reflexivity.
  - unfold VoterIDs. simpl. rewrite Ev. simpl. by rewrite arr_of_bytes.
Qed.

(** Ramps have two steps, not four: whatever weight a ramp has reached below
    its target, the next step is the target itself, since the steps are tried
    from the last. *)
Theorem nextRampWeight_jumps cur target : nextRampWeight cur target = target.
Proof.
  unfold nextRampWeight. simpl. rewrite N.div_1_r. destruct (N.ltb_spec cur target); [done|].
  assert (∀ k, k ≠ 0 → (cur <? target / k) = false) as Hf.
  { intros k Hk. apply N.ltb_ge. transitivity target; [|done]. apply N.Div0.div_le_upper_bound. nia. }
  by rewrite !Hf.
Qed.

(** * Worked histories *)

Definition do_step (v : View) (op : vop) (now : Z) : View :=
  match vop_change id op now v with inr (nv, bump) => next_view v nv bump | inl _ => v end.

Lemma do_step_spec v op now : match vop_change id op now v with inr _ => True | inl _ => False end →
  step id v op now (do_step v op now).
Proof. unfold do_step, step. destruct (vop_change id op now v) as [|[nv bump]]; [done|]. eauto. Qed.

(** One node with one replica; a second joins and takes its share. *)
Definition toy_first : View :=
  match InitCluster_view [x07] (toy_id x01) [] 1 1 5 "" true with inr v => v | inl _ => toy_view [] [] 0 None end.
Definition toy_join : joinRequest := MkJoinRequest (toy_id x02) [x09] 5 "" [] true true.

Definition toy_t1 : View := do_step toy_first (OJoin toy_join) 0.
Definition toy_t2 : View := do_step toy_t1 (OAck (toy_id x01) 2) 0.
Definition toy_t3 : View := do_step toy_t2 (OAck (toy_id x02) 2) 0.
Definition toy_t4 : View := do_step toy_t3 (OFreeze 2) 0.
Definition toy_t5 : View := do_step toy_t4 (ODone (toy_id x01) 2) 0.
Definition toy_t6 : View := do_step toy_t5 (ODone (toy_id x02) 2) 0.
Definition toy_t7 : View := do_step toy_t6 (OCommit 2 0) 0.
Definition toy_cfg : drive_cfg := MkDriveCfg 100 100.

(** A step decided on the newest view. *)
Lemma hist_now v h op now : hist id (v :: h) → issued v op →
  match vop_change id op now v with inr _ => True | inl _ => False end → hist id (do_step v op now :: v :: h).
Proof. intros Hh Hi Hs. eapply hist_step; [done|apply list_elem_of_here|done|by apply do_step_spec]. Qed.

Lemma toy_first_hist : hist id [toy_first].
Proof. apply (hist_init id [x07] (toy_id x01) [] 1 1 5 "" true). by vm_compute. Qed.

(** The first view may require more copies of a write than it keeps: InitCluster
    checks only that they are not fewer than two. *)
Lemma InitCluster_min_above :
  match InitCluster_view [x07] (toy_id x01) [] 2 5 5 "" false with
  | inr v => hist id [v] ∧ Replicas v = 2 ∧ MinReplicas v = 5
  | inl _ => False
  end.
Proof.
  destruct (InitCluster_view _ _ _ _ _ _ _ _) as [e|v] eqn:E; [by vm_compute in E|].
  split; [by eapply hist_init|]. vm_compute in E. injection E as <-. done.
Qed.

Lemma toy_commit_hist : hist id [toy_t7; toy_t6; toy_t5; toy_t4; toy_t3; toy_t2; toy_t1; toy_first].
Proof.
  apply hist_now; [|apply (is_drive _ toy_cfg 0); computes|by vm_compute].
  apply hist_now; [|apply (is_report _ (toy_id x02) true); computes|by vm_compute].
  apply hist_now; [|apply (is_report _ (toy_id x01) true); computes|by vm_compute].
  apply hist_now; [|apply (is_drive _ toy_cfg 0); computes|by vm_compute].
  apply hist_now; [|apply (is_ack _ (toy_id x02)); computes|by vm_compute].
  apply hist_now; [|apply (is_ack _ (toy_id x01)); computes|by vm_compute].
  apply hist_now; [|apply (is_join _ toy_join); computes|by vm_compute].
  apply toy_first_hist.
Qed.

Lemma view_type_invariant_witness : view_ok toy_t7 ∧ PlacementEpoch toy_t7 = 2.
Proof.
  split; [|computes]. exact (view_type_invariant id _ toy_t7 toy_commit_hist ltac:(by vm_compute)).
Defined.

Lemma transition_refines_witness : abs toy_t7 = abs toy_t6 ∨ tstep (abs toy_t6) (abs toy_t7).
Proof. exact (transition_refines id _ toy_t6 toy_t7 toy_commit_hist ltac:(by vm_compute)). Defined.

Lemma epoch_names_configuration_witness : config_of toy_t4 = config_of toy_t6.
Proof.
  apply (epoch_names_configuration id _ toy_t4 toy_t6 toy_commit_hist); [by vm_compute|..|computes].
  - do 3 right. left.
  - right. left.
Defined.

Lemma commit_keeps_an_owner_witness :
  ∃ id n, id ∈ owner_ids toy_blake3 (Nodes toy_t6) (Replicas toy_t6) (toy_id x07) ∧ n ∈ Nodes toy_t7 ∧ NID n = id ∧
    Node_Weight n ≠ 0.
Proof.
  apply (commit_keeps_an_owner id toy_blake3 _ toy_t6 toy_t7 (toy_id x07) toy_commit_hist).
  - by vm_compute.
  - intros E%(f_equal (λ x, length x.1)). by vm_compute in E.
  - decides.
  - computes.
Defined.

(** Three voters out of one, and a fourth. *)
Definition toy_u1 : View := do_step toy_first (ODefer (toy_id x02)) 0.
Definition toy_u2 : View := do_step toy_u1 (OVoters3 [toy_id x02; toy_id x03]) 0.
Definition toy_u3 : View := do_step toy_u2 (OAddVoter (toy_id x04)) 0.

Lemma toy_voters_hist : hist id [toy_u3; toy_u2; toy_u1; toy_first].
Proof.
  apply hist_now; [|apply (is_addVoter _ (toy_id x04) (λ _, true)); computes|by vm_compute].
  apply hist_now; [|apply (is_single _ (toy_id x03) (λ _, true)); computes|by vm_compute].
  apply hist_now; [|apply (is_single _ (toy_id x02) (λ _, true)); computes|by vm_compute].
  apply toy_first_hist.
Qed.

Lemma voter_change_safe_witness : ∃ x, x ∈ [toy_id x01; toy_id x02] ∧ x ∈ [toy_id x02; toy_id x03; toy_id x04].
Proof.
  destruct (voter_change_safe id _ toy_u2 toy_u3 toy_voters_hist) as (_ & _ & _ & H); [by vm_compute|decides|by vm_compute| |].
  - intros E%(f_equal length). by vm_compute in E.
  - apply H; try decides; try (vm_compute; lia).
    all: intros x Hx; repeat (apply elem_of_cons in Hx as [->|Hx]; [apply (bool_decide_unpack _); vm_compute; exact I|]);
      by apply elem_of_nil in Hx.
Defined.

Lemma toy_t1_ok : view_ok toy_t1.
Proof.
  destruct (hist_invariant id [toy_first] toy_t1) as [H _]; [|by vm_compute|apply H; left].
  apply hist_now; [apply toy_first_hist|apply (is_join _ toy_join); computes|by vm_compute].
Qed.

Lemma transition_completes_witness :
  ∃ ops v', run id toy_t1 ops v' ∧ (length ops ≤ 6)%nat ∧ length (Nodes v') = 2%nat.
Proof.
  destruct (transition_completes id toy_cfg 0 toy_t1 (default Pending0 (View_Pending toy_t1)) toy_t1_ok)
    as (ops & v' & Hr & Hl & _ & Hp & _); [computes|computes|].
  exists ops, v'. split; [exact Hr|]. split; [by replace (length (AllMembers toy_t1)) with 2%nat in Hl by computes|].
  apply (f_equal (λ x, length x.1)) in Hp. unfold placement_of, members in Hp. simpl in Hp. rewrite !length_fmap in Hp.
  rewrite Hp. computes.
Defined.

Lemma refreeze_commits_unfinished_witness :
  ∃ v1 op v2, step id toy_t4 (ORefreeze false) 200 v1 ∧ driveTransition_plan toy_cfg 300 v1 = Some op ∧
    step id v1 op 300 v2 ∧ length (Nodes v2) = 2%nat.
Proof.
  destruct (refreeze_commits_unfinished id toy_cfg 200 300 toy_t4 (default Pending0 (View_Pending toy_t4)))
    as (_ & v1 & op & v2 & H1 & H2 & H3 & Hp & _); [computes|computes|by vm_compute|computes|computes|by vm_compute|].
  exists v1, op, v2. split; [exact H1|]. split; [exact H2|]. split; [exact H3|].
  apply (f_equal (λ x, length x.1)) in Hp. unfold placement_of, members in Hp. simpl in Hp. rewrite !length_fmap in Hp.
  rewrite Hp. computes.
Defined.

Lemma report_of_an_earlier_round_witness :
  ∃ v' p', step id (do_step toy_t4 (ORefreeze true) 0) (ODone (toy_id x01) 2) 0 v' ∧ View_Pending v' = Some p' ∧
    Pending_Round p' = 1 ∧ Contains (Pending_Done p') (toy_id x01) = true.
Proof.
  eapply (report_of_an_earlier_round id 0 toy_t4 (do_step toy_t4 (ORefreeze true) 0)
    (default Pending0 (View_Pending toy_t4)) (default Pending0 (View_Pending (do_step toy_t4 (ORefreeze true) 0))));
    [computes|computes|computes|by vm_compute|computes].
Defined.

Lemma deferred_voter_added_twice_witness :
  ∃ v', step id toy_u1 (OVoters3 [toy_id x02; toy_id x02]) 0 v' ∧ VoterIDs v' = [toy_id x01; toy_id x02; toy_id x02].
Proof.
  destruct (deferred_voter_added_twice id 0 toy_u1 (toy_id x02) (λ _, true) (MkVoter (replicate 32 x01) 1))
    as (_ & op & v' & H1 & H2 & H3); [computes..|done|].
  exists v'. split; [|exact H3]. assert (op = OVoters3 [toy_id x02; toy_id x02]) as <-; [|exact H2].
  vm_compute in H1. by injection H1.
Defined.
