(* ===== verification/Mark.v ===== *)
(** The mark phase of garbage collection on one node (src/node/gc.go): the mark
    state of a worker, the handlers of the coordinator's and of the other
    workers' requests, and the worker's loop as a step function.

    The object graph is not the program's: [leaf] says which keys have no
    children by their type, and [ChildKeys] reads the children off an object's
    data (both amber-store/core).  The worker's loop gives up its lock while it
    fetches an object and while it sends a batch; its steps are the stretches it
    holds the lock for. *)
From S2P Require Import Prelude Store Placement View Wire.

Local Open Scope N_scope.

Notation key := (arr 32).

(** * Data *)

Record outBatch := MkOutBatch { ob_keys : list key; ob_expand : list key }.

Record markState := MkMarkState {
  ms_epoch : N;
  ms_nonce : bytes;
  ms_count : N;
  ms_eligBelow : N;
  ms_placement : Placement;
  ms_acked : list bytes;
  ms_eligible : gmap key N;
  ms_marked : gset key;
  ms_visited : gset key;
  ms_forward : gmap NodeID (gset key);
  ms_queue : list key;
  ms_sender : option bytes;
  ms_seqs : gmap NodeID N;
  ms_out : gmap NodeID outBatch;
  ms_sent : N;
  ms_recv : N;
  ms_seqSeen : gmap bytes N;
  ms_missing : list key;
  ms_frozen : bool;
  ms_busy : Z;
  ms_dirty : bool;
}.

#[global] Instance outBatch_eta : Eta outBatch := λ r, MkOutBatch (ob_keys r) (ob_expand r).
#[global] Instance markState_eta : Eta markState := λ r,
  MkMarkState (ms_epoch r) (ms_nonce r) (ms_count r) (ms_eligBelow r) (ms_placement r) (ms_acked r) (ms_eligible r)
    (ms_marked r) (ms_visited r) (ms_forward r) (ms_queue r) (ms_sender r) (ms_seqs r) (ms_out r) (ms_sent r) (ms_recv r)
    (ms_seqSeen r) (ms_missing r) (ms_frozen r) (ms_busy r) (ms_dirty r).

(** The fields of a gc-keys request. *)
Record keysMsg := MkKeysMsg {
  km_G : N; km_Nonce : bytes; km_Seq : N; km_Keys : list bytes; km_Expand : bool; km_Node : bytes }.

#[global] Instance keysMsg_eq_dec : EqDecision keysMsg.
Proof. solve_decision. Defined.

(** The pack store, as its sealed segments in id order with the keys of each. *)
Notation segments := (list (N * list key)).

Section mark.
Context (blake3 : bytes → nat → bytes) (leaf : key → bool) (ChildKeys : key → bytes → option (list key)).

(** * Requests *)

(** The loop over the segments: a later one overwrites an earlier one. *)
Definition eligible_of (segs : segments) (below : N) : gmap key N :=
  fold_left (λ m seg, if below <=? seg.1 then m else fold_left (λ m k, <[k := seg.1]> m) seg.2 m) segs ∅.

(** [handleMark], once the barrier of the epoch was found. *)
Definition start_mark (g : N) (nonce : bytes) (count below : N) (pv : View) (acked : list bytes) (segs : segments) : markState :=
  MkMarkState g nonce count below (NewPlacement blake3 pv) acked (eligible_of segs below) ∅ ∅ ∅ [] None ∅ ∅ 0 0 ∅ [] false 0 false.

(** [current]: the mark state a request is about. *)
Definition current (mark : option markState) (epoch : N) (nonce : bytes) : option markState :=
  ms ← mark;
  if negb (ms_epoch ms =? epoch) || negb (bool_decide (ms_nonce ms = nonce)) then None else Some ms.

Definition mark_key (ms : markState) (k : key) : markState :=
  if decide (is_Some (ms_eligible ms !! k)) then ms <| ms_marked := ms_marked ms ∪ {[k]} |> else ms.

(** [handleKeys] on the state [current] found; the reply is the code of an error. *)
Definition handleKeys (ms : markState) (m : keysMsg) : markState * option string :=
  match Keys32 (km_Keys m) with
  | None => (ms, Some CodeBadRequest)
  | Some keys =>
      if ms_frozen ms then (ms, Some CodeMarkFrozen)
      else if match ms_seqSeen ms !! km_Node m with Some last => km_Seq m <=? last | None => false end
      then (ms, None)
      else
        let ms := ms <| ms_seqSeen := <[km_Node m := km_Seq m]> (ms_seqSeen ms) |> <| ms_recv := u64 (ms_recv ms + 1) |> in
        let ms := fold_left mark_key keys ms in
        let ms := if km_Expand m then ms <| ms_queue := ms_queue ms ++ keys |> else ms in
        (ms <| ms_dirty := true |>, None)
  end.

Definition idle (ms : markState) : bool :=
  bool_decide (ms_queue ms = []) && (ms_busy ms =? 0)%Z && bool_decide (ms_out ms = ∅).

Record statusReply := MkStatusReply {
  sr_Sent : N; sr_Received : N; sr_Idle : bool; sr_Marked : N; sr_Missing : list bytes }.

(** [handleStatus] on the state [current] found: [persisted] says whether the
    mark could be written to disk. *)
Definition handleStatus (ms : markState) (persisted force : bool) : markState * statusReply :=
  let i := idle ms in
  let '(ms, i) :=
    if i && ms_dirty ms then if persisted then (ms <| ms_dirty := false |>, i) else (ms, false) else (ms, i) in
  let reply := MkStatusReply (ms_sent ms) (ms_recv ms) i (N.of_nat (size (ms_marked ms))) (RawKeys (ms_missing ms)) in
  (if force then ms <| ms_frozen := true |> else ms, reply).

Definition handleAbort (mark : option markState) (g : N) : option markState :=
  match mark with Some ms => if ms_epoch ms =? g then None else Some ms | None => None end.

(** * Processing keys *)

(** The zero id when nobody acked. *)
Definition worker (ms : markState) (k : key) : NodeID :=
  match list_find (λ id, Contains (ms_acked ms) id = true) (ReadOrder (ms_placement ms) k) with
  | Some (_, id) => id
  | None => arr_zero 32
  end.

Definition out_of (ms : markState) (id : NodeID) : outBatch := default (MkOutBatch [] []) (ms_out ms !! id).

Definition deliver_to (self : NodeID) (k : key) (ms : markState) (o : NodeID) : markState :=
  if negb (Contains (ms_acked ms) o) then ms
  else if decide (o = self) then mark_key ms k
  else let b := out_of ms o in ms <| ms_out := <[o := b <| ob_keys := ob_keys b ++ [k] |>]> (ms_out ms) |>.

Definition deliver (self : NodeID) (ms : markState) (k : key) : markState :=
  fold_left (deliver_to self k) (WriteSet (ms_placement ms) k) ms.

(** The first part of [process]; [true] when the object is to be fetched. *)
Definition process_claim (self : NodeID) (ms : markState) (k : key) : markState * bool :=
  let ms := deliver self ms k in
  if leaf k then (ms, false)
  else
    let w := worker ms k in
    if decide (w ≠ self) then
      let fw := default ∅ (ms_forward ms !! w) in
      if decide (k ∈ fw) then (ms <| ms_forward := <[w := fw]> (ms_forward ms) |>, false)
      else
        let b := out_of ms w in
        (ms <| ms_forward := <[w := fw ∪ {[k]}]> (ms_forward ms) |>
            <| ms_out := <[w := b <| ob_expand := ob_expand b ++ [k] |>]> (ms_out ms) |>, false)
    else if decide (k ∈ ms_visited ms) then (ms, false)
    else (ms <| ms_visited := ms_visited ms ∪ {[k]} |>, true).

(** The second part, with what [getData] answered. *)
Definition process_fetched (ms : markState) (k : key) (data : option bytes) : markState :=
  match data ≫= ChildKeys k with
  | None => ms <| ms_missing := ms_missing ms ++ [k] |>
  | Some kids => ms <| ms_queue := ms_queue ms ++ kids |>
  end.

(** * Sending batches *)

Definition sender_of (self : NodeID) (ms : markState) : bytes := default (arr_bytes self) (ms_sender ms).

(** One turn of the inner loop of [flushOut] for the target [id]: [None] when the
    target has nothing left, and otherwise the request to send. *)
Definition flush_take (self id : NodeID) (ms : markState) : markState * option keysMsg :=
  match ms_out ms !! id with
  | None => (ms, None)
  | Some b =>
      let max := Z.to_nat MaxKeys in
      let '(keys, expand, b) :=
        match ob_expand b with
        | _ :: _ => (take max (ob_expand b), true, b <| ob_expand := drop max (ob_expand b) |>)
        | [] => (take max (ob_keys b), false, b <| ob_keys := drop max (ob_keys b) |>)
        end in
      match keys with
      | [] => (ms <| ms_out := delete id (ms_out ms) |>, None)
      | _ :: _ =>
          let seq := u64 (default 0 (ms_seqs ms !! id) + 1) in
          (ms <| ms_out := <[id := b]> (ms_out ms) |> <| ms_sent := u64 (ms_sent ms + 1) |>
              <| ms_seqs := <[id := seq]> (ms_seqs ms) |>,
           Some (MkKeysMsg (ms_epoch ms) (ms_nonce ms) seq (RawKeys keys) expand (sender_of self ms)))
      end
  end.

(** How the attempts to send a request end. *)
Inductive sent := SentAcked | SentRefused | SentGaveUp.

Definition flush_sent (ms : markState) (r : sent) : markState :=
  match r with SentRefused => ms <| ms_missing := ms_missing ms ++ [arr_zero 32] |> | _ => ms end.

Definition flush_targets (order : list NodeID → list NodeID) (ms : markState) : list NodeID :=
  order ((filter (λ p : NodeID * outBatch, ob_keys p.2 ≠ [] ∨ ob_expand p.2 ≠ []) (map_to_list (ms_out ms))).*1).

(** * The worker's loop *)

Inductive pc :=
  | PTop                                     (* the tick *)
  | PBatch (rest : list key)                 (* between the keys of a batch *)
  | PFetch (k : key) (rest : list key)       (* fetching [k] *)
  | PFlush                                   (* at the start of [flushOut] *)
  | PTargets (ts : list NodeID)              (* between batches *)
  | PSend (id : NodeID) (ts : list NodeID).  (* sending to [id] *)

(** What the world answers a step with. *)
Record answer := MkAnswer { an_data : option bytes; an_sent : sent; an_order : list NodeID → list NodeID }.

Definition worker_step (self : NodeID) (a : answer) (ms : markState) (p : pc) : markState * pc * option (NodeID * keysMsg) :=
  match p with
  | PTop =>
      match ms_queue ms with
      | [] => (ms, PFlush, None)
      | _ :: _ =>
          let nb := Nat.min (length (ms_queue ms)) 256 in
          (ms <| ms_queue := drop nb (ms_queue ms) |> <| ms_busy := (ms_busy ms + 1)%Z |>,
           PBatch (take nb (ms_queue ms)), None)
      end
  | PBatch [] => (ms <| ms_busy := (ms_busy ms - 1)%Z |>, PFlush, None)
  | PBatch (k :: rest) =>
      let '(ms, fetch) := process_claim self ms k in
      (ms, if fetch then PFetch k rest else PBatch rest, None)
  | PFetch k rest => (process_fetched ms k (an_data a), PBatch rest, None)
  | PFlush => (ms, PTargets (flush_targets (an_order a) ms), None)
  | PTargets [] => (ms, PTop, None)
  | PTargets (id :: ts) =>
      match flush_take self id ms with
      | (ms, None) => (ms, PTargets ts, None)
      | (ms, Some m) => (ms, PSend id ts, Some (id, m))
      end
  | PSend id ts => (flush_sent ms (an_sent a), PTargets (id :: ts), None)
  end.

(** * The roots

    The coordinator's share of the mark: one more sender, with its own state
    [co]; the roots it works on itself go to its own queue [ms]. *)
Definition coordinator (self : NodeID) (epoch : N) (nonce : bytes) (pl : Placement) (acked : list bytes) : markState :=
  MkMarkState epoch nonce 0 0 pl acked ∅ ∅ ∅ ∅ [] (Some (arr_bytes self ++ of_string "c")) ∅ ∅ 0 0 ∅ [] false 0 false.

Definition push_root (self : NodeID) (epoch : N) (k : key) (mark : option markState) (co : markState) :
    option markState * markState :=
  let w := worker co k in
  if decide (w = self) then
    (match mark with
     | Some ms => if ms_epoch ms =? epoch
         then Some (ms <| ms_queue := ms_queue ms ++ [k] |> <| ms_dirty := true |>) else Some ms
     | None => None
     end, co)
  else
    let b := out_of co w in
    (mark, co <| ms_out := <[w := b <| ob_expand := ob_expand b ++ [k] |>]> (ms_out co) |>).

(** * Termination polling *)

Record round := MkRound { rd_sent : N; rd_recv : N; rd_idle : bool; rd_missing : list bytes }.

(** A round of status replies; the coordinator's own sends are counted in. *)
Definition poll_round (coordSent : N) (replies : list statusReply) : round :=
  fold_left (λ r s, MkRound (u64 (rd_sent r + sr_Sent s)) (u64 (rd_recv r + sr_Received s)) (rd_idle r && sr_Idle s)
                      (rd_missing r ++ sr_Missing s))
    replies (MkRound coordSent 0 true []).

(** [stable] after a round, given the sums of the one before. *)
Definition poll_stable (stable : nat) (last : N * N) (r : round) : nat :=
  if rd_idle r && (rd_sent r =? rd_recv r) && bool_decide ((rd_sent r, rd_recv r) = last) then S stable else 0.

(** The loop over the rounds: [Some] with the last round once two rounds in a row
    are stable. *)
Fixpoint poll_loop (stable : nat) (last : N * N) (rounds : list round) : option round :=
  match rounds with
  | [] => None
  | r :: rounds =>
      let stable := poll_stable stable last r in
      if (2 <=? stable)%nat then Some r else poll_loop stable (rd_sent r, rd_recv r) rounds
  end.

(** Whether missing objects stop the epoch. *)
Definition missing_stops (tolerate : bool) (missing : list key) : bool :=
  bool_decide (missing ≠ []) && (negb tolerate || existsb (λ k, negb (leaf k)) missing).
End mark.

(** * One worker *)

Definition has_expand (ms : markState) (w : NodeID) (k : key) : Prop := k ∈ ob_expand (out_of ms w).
Definition has_key (ms : markState) (o : NodeID) (k : key) : Prop := k ∈ ob_keys (out_of ms o).
Definition marked_ok (ms : markState) (k : key) : Prop := is_Some (ms_eligible ms !! k) → k ∈ ms_marked ms.

(** What marking and sending leave alone. *)
Record same_node (ms ms' : markState) : Prop := {
  sn_placement : ms_placement ms' = ms_placement ms;
  sn_acked : ms_acked ms' = ms_acked ms;
  sn_eligible : ms_eligible ms' = ms_eligible ms;
  sn_sender : ms_sender ms' = ms_sender ms;
  sn_marked : ms_marked ms ⊆ ms_marked ms';
}.

#[local] Instance same_node_preorder : PreOrder same_node.
Proof. split; [by intros ms; split|]. intros a b c [] []. split; try congruence. by etrans. Qed.

Lemma mark_keys_spec keys ms : ∃ M, fold_left mark_key keys ms = ms <| ms_marked := M |> ∧ ms_marked ms ⊆ M ∧
  ∀ k, k ∈ keys → is_Some (ms_eligible ms !! k) → k ∈ M.
Proof.
  revert ms. induction keys as [|k keys IH]; intros ms; simpl.
  { exists (ms_marked ms). split; [by destruct ms|]. split; [done|]. by intros ? ?%elem_of_nil. }
  destruct (IH (mark_key ms k)) as (M & -> & Hs & Hk). unfold mark_key in *. destruct (decide _) as [He|He].
  - exists M. split; [done|]. simpl in *. split; [set_solver|]. intros x [->|Hx]%elem_of_cons ?; [set_solver|auto].
  - exists M. split; [done|]. split; [done|]. intros x [->|Hx]%elem_of_cons ?; [done|auto].
Qed.

Lemma out_of_insert ms o b O j : out_of (ms <| ms_out := <[o := b]> O |>) j = if decide (j = o) then b else default (MkOutBatch [] []) (O !! j).
Proof. unfold out_of. simpl. case_decide as E; [subst; by rewrite lookup_insert_eq|by rewrite lookup_insert_ne]. Qed.

(** Batches only grow while keys are processed. *)
Record grow_out (ms ms' : markState) : Prop := {
  gr_expand w k : has_expand ms w k → has_expand ms' w k;
  gr_key o k : has_key ms o k → has_key ms' o k;
}.

Lemma deliver_spec self ms k l : ∃ M O,
  let ms' := fold_left (deliver_to self k) l ms in
  ms' = ms <| ms_marked := M |> <| ms_out := O |> ∧ ms_marked ms ⊆ M ∧ grow_out ms ms' ∧
  ∀ o, o ∈ l → Contains (ms_acked ms) o = true → if decide (o = self) then marked_ok ms' k else has_key ms' o k.
Proof.
  revert ms. induction l as [|o l IH]; intros ms; simpl.
  { exists (ms_marked ms), (ms_out ms). split_and!; [by destruct ms|done|by split|]. by intros ? ?%elem_of_nil. }
  destruct (IH (deliver_to self k ms o)) as (M & O & E & Hm & [Hg1 Hg2] & Hall).
  rewrite E in *. unfold deliver_to in *. destruct (Contains (ms_acked ms) o) eqn:Ec; simpl in *.
  2: { exists M, O. split_and!; [done|done|by split|]. intros x [->|Hx]%elem_of_cons ?; [congruence|by apply Hall]. }
  destruct (decide (o = self)) as [->|Hne].
  - unfold mark_key in *. destruct (decide (is_Some (ms_eligible ms !! k))) as [He|He]; simpl in *.
    + exists M, O. split_and!; [done|set_solver|by split|]. intros x [->|Hx]%elem_of_cons Hc; [|by apply Hall].
      rewrite decide_True by done. intros _. simpl. set_solver.
    + exists M, O. split_and!; [done|done|by split|]. intros x [->|Hx]%elem_of_cons Hc; [|by apply Hall].
      rewrite decide_True by done. intros Hx. simpl in Hx. done.
  - set (b := out_of ms o) in *. exists M, O. split_and!; [done|done| |].
    + split.
      * intros w x Hx. apply Hg1. unfold has_expand in *. rewrite out_of_insert. case_decide as Ew; [subst; exact Hx|exact Hx].
      * intros w x Hx. apply Hg2. unfold has_key in *. rewrite out_of_insert. case_decide as Ew; [subst; simpl; fold b in Hx; set_solver|exact Hx].
    + intros x [->|Hx]%elem_of_cons Hc; [|by apply Hall]. rewrite decide_False by done. apply Hg2. unfold has_key.
      rewrite out_of_insert, decide_True by done. simpl. set_solver.
Qed.

Section claim.
Context (leaf : key → bool).

(** One key processed. *)
Record claim_spec (self : NodeID) (ms ms' : markState) (k : key) (fetch : bool) : Prop := {
  cl_node : same_node ms ms';
  cl_out : grow_out ms ms';
  cl_rest : ms_queue ms' = ms_queue ms ∧ ms_missing ms' = ms_missing ms ∧ ms_busy ms' = ms_busy ms ∧ ms_sent ms' = ms_sent ms ∧
    ms_recv ms' = ms_recv ms ∧ ms_seqSeen ms' = ms_seqSeen ms ∧ ms_seqs ms' = ms_seqs ms ∧ ms_frozen ms' = ms_frozen ms;
  cl_owners : ∀ o, o ∈ WriteSet (ms_placement ms) k → Contains (ms_acked ms) o = true →
    if decide (o = self) then marked_ok ms' k else has_key ms' o k;
  cl_case : fetch = false ∧ leaf k = true ∧ ms_visited ms' = ms_visited ms ∧ ms_forward ms' = ms_forward ms ∨
    leaf k = false ∧ worker ms k ≠ self ∧ fetch = false ∧ ms_visited ms' = ms_visited ms ∧
      (k ∈ default ∅ (ms_forward ms !! worker ms k) ∨ has_expand ms' (worker ms k) k) ∧
      (∀ w x, x ∈ default ∅ (ms_forward ms' !! w) → x ∈ default ∅ (ms_forward ms !! w) ∨ w = worker ms k ∧ x = k) ∨
    leaf k = false ∧ worker ms k = self ∧ ms_visited ms' = ms_visited ms ∪ {[k]} ∧ ms_forward ms' = ms_forward ms ∧
      (fetch = true ∨ k ∈ ms_visited ms);
}.

Lemma worker_same ms ms' k : ms_placement ms' = ms_placement ms → ms_acked ms' = ms_acked ms → worker ms' k = worker ms k.
Proof. intros E1 E2. unfold worker. by rewrite E1, E2. Qed.
Lemma process_claim_spec self ms k ms' fetch : process_claim leaf self ms k = (ms', fetch) → claim_spec self ms ms' k fetch.
Proof.
  unfold process_claim, deliver. destruct (deliver_spec self ms k (WriteSet (ms_placement ms) k)) as (M & O & E & HM & Hg & Ho).
  set (ms1 := fold_left (deliver_to self k) (WriteSet (ms_placement ms) k) ms) in *.
  assert (same_node ms ms1) as Hn by (rewrite E; by split).
  assert (worker ms1 k = worker ms k) as Ew by (apply worker_same; apply Hn). rewrite Ew.
  assert (ms_visited ms1 = ms_visited ms ∧ ms_forward ms1 = ms_forward ms) as [Ev Ef] by (by rewrite E).
  assert (ms_queue ms1 = ms_queue ms ∧ ms_missing ms1 = ms_missing ms ∧ ms_busy ms1 = ms_busy ms ∧ ms_sent ms1 = ms_sent ms ∧
    ms_recv ms1 = ms_recv ms ∧ ms_seqSeen ms1 = ms_seqSeen ms ∧ ms_seqs ms1 = ms_seqs ms ∧ ms_frozen ms1 = ms_frozen ms) as Hr
    by (by rewrite E). clear E.
  destruct (leaf k) eqn:Hl; [intros [= <- <-]; split; [exact Hn|exact Hg|exact Hr|exact Ho|by left]|].
  destruct (decide (worker ms k ≠ self)) as [Hw|Hw].
  - rewrite Ef. destruct (decide (k ∈ default ∅ (ms_forward ms !! worker ms k))) as [Hk|Hk]; intros [= <- <-].
    + split; [etrans; [exact Hn|by split]|by destruct Hg; split|exact Hr|exact Ho|]. right. left. split_and!; try done; [by left|]. simpl. intros w x. destruct (decide (w = worker ms k)) as [->|].
      * rewrite lookup_insert_eq. simpl. by left.
      * rewrite lookup_insert_ne by done. by left.
    + assert (grow_out ms1 (ms1 <| ms_out := <[worker ms k := out_of ms1 (worker ms k) <| ob_expand := ob_expand (out_of ms1 (worker ms k)) ++ [k] |>]> (ms_out ms1) |>)) as Hg2.
      { split; intros w x Hx; unfold has_expand, has_key in *; rewrite out_of_insert; case_decide; subst; simpl; set_solver. }
      split; [etrans; [exact Hn|by split]| |exact Hr| |].
      * destruct Hg, Hg2. split; intros w x Hx; [apply (gr_expand1 w x); auto|apply (gr_key1 w x); auto].
      * intros o Hin Hc. specialize (Ho o Hin Hc). case_decide; [done|]. by apply Hg2.
      * right. left. split_and!; try done.
        -- right. unfold has_expand. simpl. unfold out_of. simpl. rewrite lookup_insert_eq. simpl. set_solver.
        -- simpl. intros w x. destruct (decide (w = worker ms k)) as [->|].
           ++ rewrite lookup_insert_eq. simpl. set_solver.
           ++ rewrite lookup_insert_ne by done. by left.
  - apply dec_stable in Hw. rewrite Ev. destruct (decide (k ∈ ms_visited ms)) as [Hk|Hk]; intros [= <- <-].
    + split; [etrans; [exact Hn|by split]|by destruct Hg; split|exact Hr|exact Ho|]. right. right. split_and!; try done; [|by right]. rewrite Ev. set_solver.
    + split; [etrans; [exact Hn|by split]|by destruct Hg; split|exact Hr|exact Ho|]. right. right. split_and!; try done. by left.
Qed.

End claim.

Lemma take_nil_nil {A} n (l : list A) : take n l = [] → n ≠ 0%nat → l = [].
Proof. by destruct n, l. Qed.

(** One batch taken for sending. *)
Definition flush_post (self id : NodeID) (ms ms' : markState) (x : option keysMsg) : Prop :=
  ∃ O S Q, ms' = ms <| ms_out := O |> <| ms_sent := S |> <| ms_seqs := Q |> ∧ (∀ j, j ≠ id → O !! j = ms_out ms !! j) ∧
  match x with
  | None => O !! id = None ∧ S = ms_sent ms ∧ Q = ms_seqs ms ∧ grow_out ms ms'
  | Some m => is_Some (O !! id) ∧ S = u64 (ms_sent ms + 1) ∧ km_Seq m = u64 (default 0 (ms_seqs ms !! id) + 1) ∧
      Q = <[id := km_Seq m]> (ms_seqs ms) ∧ km_Node m = sender_of self ms ∧
      ∃ ks, km_Keys m = RawKeys ks ∧
        (∀ w k, has_expand ms w k → has_expand ms' w k ∨ w = id ∧ km_Expand m = true ∧ k ∈ ks) ∧
        (∀ o k, has_key ms o k → has_key ms' o k ∨ o = id ∧ km_Expand m = false ∧ k ∈ ks)
  end.

Lemma flush_take_spec self id ms ms' x : flush_take self id ms = (ms', x) → flush_post self id ms ms' x.
Proof.
  unfold flush_take. destruct (ms_out ms !! id) as [b|] eqn:Eb.
  2: { intros [= <- <-]. exists (ms_out ms), (ms_sent ms), (ms_seqs ms). split_and!; try done; by destruct ms. }
  assert (out_of ms id = b) as Eo by (unfold out_of; by rewrite Eb).
  assert (Z.to_nat MaxKeys ≠ 0)%nat as Hmax by (unfold MaxKeys; lia).
  set (max := Z.to_nat MaxKeys) in *. clearbody max. destruct b as [bk be]. simpl.
  assert (∀ ks expand b', (∀ k, k ∈ be → k ∈ ob_expand b' ∨ expand = true ∧ k ∈ ks) → (∀ k, k ∈ bk → k ∈ ob_keys b' ∨ expand = false ∧ k ∈ ks) →
    match ks with
    | [] => (ms <| ms_out := delete id (ms_out ms) |>, None)
    | _ :: _ => (ms <| ms_out := <[id := b']> (ms_out ms) |> <| ms_sent := u64 (ms_sent ms + 1) |>
              <| ms_seqs := <[id := u64 (default 0 (ms_seqs ms !! id) + 1)]> (ms_seqs ms) |>,
           Some (MkKeysMsg (ms_epoch ms) (ms_nonce ms) (u64 (default 0 (ms_seqs ms !! id) + 1)) (RawKeys ks) expand (sender_of self ms)))
    end = (ms', x) → ks ≠ [] → flush_post self id ms ms' x) as Hsend.
  { intros ks expand b' Hx Hk H Hne. destruct ks as [|k0 ks]; [done|]. injection H as <- <-.
    exists (<[id := b']> (ms_out ms)), (u64 (ms_sent ms + 1)), (<[id := u64 (default 0 (ms_seqs ms !! id) + 1)]> (ms_seqs ms)).
    split_and!; try done.
    { intros j Hj. by rewrite lookup_insert_ne. }
    { rewrite lookup_insert_eq. eauto. }
    exists (k0 :: ks). split; [done|]. split; intros w k Hw; unfold has_expand, has_key in *; unfold out_of in *; simpl in *;
      (destruct (decide (w = id)) as [->|]; [rewrite lookup_insert_eq; rewrite Eb in Hw; simpl in *|rewrite lookup_insert_ne by done; by left]).
    - destruct (Hx k Hw) as [|[-> ?]]; auto.
    - destruct (Hk k Hw) as [|[-> ?]]; auto. }
  destruct be as [|e be].
  - destruct (take max bk) as [|k0 ks] eqn:Et.
    + intros [= <- <-]. exists (delete id (ms_out ms)), (ms_sent ms), (ms_seqs ms).
      apply take_nil_nil in Et as ->; [|done].
      split_and!; try done; [intros; by rewrite lookup_delete_ne|by rewrite lookup_delete_eq|].
      split; intros w k; unfold has_expand, has_key, out_of; simpl; (destruct (decide (w = id)) as [->|];
        [rewrite Eb; simpl; set_solver|by rewrite lookup_delete_ne]).
    + intros H. eapply (Hsend (k0 :: ks) false); [| |exact H|done].
      * intros k Hk. by left.
      * intros k Hk. simpl. rewrite <- (take_drop max bk), Et in Hk. apply elem_of_app in Hk as [?|?]; auto.
  - intros H. eapply (Hsend (take max (e :: be)) true); [| |exact H|by intros Et%take_nil_nil].
    + intros k Hk. simpl. rewrite <- (take_drop max (e :: be)) in Hk. apply elem_of_app in Hk as [?|?]; auto.
    + intros k Hk. by left.
Qed.
(** The request is new to the node, and counted. *)
Definition accepts (ms : markState) (m : keysMsg) : bool :=
  match Keys32 (km_Keys m) with
  | None => false
  | Some _ => negb (ms_frozen ms) &&
      negb (match ms_seqSeen ms !! km_Node m with Some last => km_Seq m <=? last | None => false end)
  end.

Lemma handleKeys_spec ms m ms' r : handleKeys ms m = (ms', r) →
  if accepts ms m then ∃ keys M, Keys32 (km_Keys m) = Some keys ∧
    ms' = ms <| ms_seqSeen := <[km_Node m := km_Seq m]> (ms_seqSeen ms) |> <| ms_recv := u64 (ms_recv ms + 1) |>
             <| ms_marked := M |> <| ms_queue := ms_queue ms ++ (if km_Expand m then keys else []) |> <| ms_dirty := true |> ∧
    ms_marked ms ⊆ M ∧ (∀ k, k ∈ keys → is_Some (ms_eligible ms !! k) → k ∈ M)
  else ms' = ms.
Proof.
  unfold handleKeys, accepts. destruct (Keys32 (km_Keys m)) as [keys|]; [|by intros [= <- <-]].
  destruct (ms_frozen ms); [by intros [= <- <-]|]. cbn [negb andb].
  destruct (match ms_seqSeen ms !! km_Node m with Some last => km_Seq m <=? last | None => false end); [by intros [= <- <-]|]. cbn [negb andb].
  set (ms1 := ms <| ms_seqSeen := <[km_Node m := km_Seq m]> (ms_seqSeen ms) |> <| ms_recv := u64 (ms_recv ms + 1) |>).
  destruct (mark_keys_spec keys ms1) as (M & -> & HM & Hk). intros [= <- <-]. exists keys, M. split; [done|].
  split; [|by split]. destruct (km_Expand m); [done|]. rewrite app_nil_r. by destruct ms.
Qed.
