(* ===== verification/MarkSafety.v ===== *)
(** The distributed mark (src/node/gc.go): the workers of Mark.v on every node
    that acked the barrier, the coordinator that hands out the roots and polls for
    the end, and a network that may delay, repeat and lose requests.

    Shown: when the coordinator's polling loop ends, no key is on its way
    anywhere, and everything reachable from the roots is marked on every acked
    node that holds it. *)
From stdpp Require Import functions.
From S2P Require Import Prelude Store Placement View Wire Mark.

Local Open Scope N_scope.

(** * Sums over the workers *)

Definition sumN (f : NodeID → N) (l : list NodeID) : N := foldr (λ n acc, f n + acc) 0 l.

Lemma sumN_ext f g l : (∀ n, n ∈ l → f n = g n) → sumN f l = sumN g l.
Proof.
  induction l as [|n l IH]; intros H; [done|]. simpl. rewrite (H n) by left. rewrite IH; [done|]. intros. apply H. by right.
Qed.

Lemma sumN_le f g l : (∀ n, n ∈ l → f n ≤ g n) → sumN f l ≤ sumN g l.
Proof.
  induction l as [|n l IH]; intros H; [done|]. simpl. assert (f n ≤ g n) by (apply H; left).
  assert (sumN f l ≤ sumN g l) by (apply IH; intros; apply H; by right). lia.
Qed.

(** Pointwise smaller with the same sum is the same. *)
Lemma sumN_squeeze f g l n : (∀ n, n ∈ l → f n ≤ g n) → sumN g l ≤ sumN f l → n ∈ l → f n = g n.
Proof.
  induction l as [|m l IH]; intros H Hs Hn; [by apply elem_of_nil in Hn|]. simpl in Hs.
  assert (f m ≤ g m) by (apply H; left). assert (∀ n, n ∈ l → f n ≤ g n) as H' by (intros; apply H; by right).
  pose proof (sumN_le f g l H'). apply elem_of_cons in Hn as [->|Hn]; [lia|]. apply IH; [done|lia|done].
Qed.

Lemma sumN_update (f : NodeID → N) l n x : NoDup l → n ∈ l →
  sumN (λ m, if decide (m = n) then x else f m) l + f n = sumN f l + x.
Proof.
  induction 1 as [|m l Hm Hl IH]; intros Hn; [by apply elem_of_nil in Hn|]. simpl.
  apply elem_of_cons in Hn as [->|Hn].
  - rewrite decide_True by done. rewrite (sumN_ext _ f l); [lia|]. intros m' Hm'. rewrite decide_False; [done|]. by intros ->.
  - rewrite decide_False by (by intros ->). specialize (IH Hn). lia.
Qed.

(** * The system *)

Section system.
Context (leaf : key → bool) (ChildKeys : key → bytes → option (list key)).
(** What the store holds under a key; objects are named by their content. *)
Context (content : key → option bytes).
(** The epoch: who coordinates, who acked, and the placement of the mark. *)
Context (self : NodeID) (epoch : N) (nonce : bytes) (pl : Placement) (acked : list NodeID) (roots : list key).

Inductive cpc := CRoots (todo : list key) | CFlush (p : pc).

Record gstate := MkG {
  g_ms : NodeID → markState;
  g_pc : NodeID → pc;
  g_co : markState;
  g_cpc : cpc;
  g_net : list (NodeID * keysMsg);
  g_got : list (NodeID * keysMsg);
  g_done : list (NodeID * key);
  g_file : NodeID → option (gset key);   (* the mark a node has on disk *)
}.

#[local] Instance gstate_eta : Eta gstate := λ r,
  MkG (g_ms r) (g_pc r) (g_co r) (g_cpc r) (g_net r) (g_got r) (g_done r) (g_file r).

Definition raw_acked : list bytes := arr_bytes <$> acked.

(** The state [handleMark] leaves, with the records of each node. *)
Definition initial (s : gstate) : Prop :=
  (∀ n, ∃ count below segs, g_ms s n =
     MkMarkState epoch nonce count below pl raw_acked (eligible_of segs below) ∅ ∅ ∅ [] None ∅ ∅ 0 0 ∅ [] false 0 false) ∧
  (∀ n, g_pc s n = PTop) ∧
  g_co s = coordinator self epoch nonce pl raw_acked ∧ g_cpc s = CRoots roots ∧
  g_net s = [] ∧ g_got s = [] ∧ g_done s = [] ∧ ∀ n, g_file s n = None.

(** A fetch finds the object or fails; the targets of a flush come in any order. *)
Definition answer_ok (p : pc) (a : answer) : Prop :=
  (∀ l, an_order a l ≡ₚ l) ∧
  match p with PFetch k _ => an_data a = None ∨ an_data a = content k | _ => True end.

Definition claimed (n : NodeID) (p : pc) : list (NodeID * key) :=
  match p with PBatch (k :: _) => [(n, k)] | _ => [] end.

Definition sent_msg (x : option (NodeID * keysMsg)) : list (NodeID * keysMsg) :=
  match x with Some m => [m] | None => [] end.

(** A status request writes the mark when it finds it dirty and the worker idle. *)
Definition write_mark (n : NodeID) (persisted : bool) (ms : markState) (file : NodeID → option (gset key)) : NodeID → option (gset key) :=
  if idle ms && ms_dirty ms && persisted then <[n := Some (ms_marked ms)]> file else file.

Inductive gstep (s : gstate) : gstate → Prop :=
  | g_work n a ms p x : n ∈ acked → answer_ok (g_pc s n) a →
      worker_step leaf ChildKeys n a (g_ms s n) (g_pc s n) = (ms, p, x) →
      gstep s (MkG (<[n := ms]> (g_ms s)) (<[n := p]> (g_pc s)) (g_co s) (g_cpc s) (sent_msg x ++ g_net s) (g_got s)
                 (claimed n (g_pc s n) ++ g_done s) (g_file s))
  | g_recv n m ms r : n ∈ acked → (n, m) ∈ g_net s → handleKeys (g_ms s n) m = (ms, r) →
      gstep s (MkG (<[n := ms]> (g_ms s)) (g_pc s) (g_co s) (g_cpc s) (g_net s)
                 (if accepts (g_ms s n) m then (n, m) :: g_got s else g_got s) (g_done s) (g_file s))
  | g_root k todo mk co : g_cpc s = CRoots (k :: todo) →
      push_root self epoch k (if decide (self ∈ acked) then Some (g_ms s self) else None) (g_co s) = (mk, co) →
      gstep s (MkG (match mk with Some ms => <[self := ms]> (g_ms s) | None => g_ms s end) (g_pc s) co (CRoots todo)
                 (g_net s) (g_got s) (g_done s) (g_file s))
  | g_flush : g_cpc s = CRoots [] →
      gstep s (MkG (g_ms s) (g_pc s) (g_co s) (CFlush PFlush) (g_net s) (g_got s) (g_done s) (g_file s))
  | g_cowork a co q p x : g_cpc s = CFlush q → q ≠ PTop → answer_ok q a →
      worker_step leaf ChildKeys self a (g_co s) q = (co, p, x) →
      gstep s (MkG (g_ms s) (g_pc s) co (CFlush p) (sent_msg x ++ g_net s) (g_got s) (g_done s) (g_file s))
  | g_status n persisted force : n ∈ acked →
      gstep s (MkG (<[n := (handleStatus (g_ms s n) persisted force).1]> (g_ms s)) (g_pc s) (g_co s) (g_cpc s)
                 (g_net s) (g_got s) (g_done s) (write_mark n persisted (g_ms s n) (g_file s))).

(** Objects and their children. *)
Definition children (k : key) : option (list key) := content k ≫= ChildKeys k.

Inductive reach : key → Prop :=
  | reach_root k : k ∈ roots → reach k
  | reach_child k kids c : reach k → leaf k = false → children k = Some kids → c ∈ kids → reach c.

(** * Invariants of the workers *)

Definition in_batch (p : pc) : bool := match p with PBatch _ | PFetch _ _ => true | _ => false end.

(** The coordinator's batches are all for targets it still has to serve. *)
Definition co_ok (co : markState) (c : cpc) : Prop :=
  match c with
  | CRoots _ | CFlush PFlush => ∀ id b, ms_out co !! id = Some b → ob_keys b ≠ [] ∨ ob_expand b ≠ []
  | CFlush (PTargets ts) => ∀ id, is_Some (ms_out co !! id) → id ∈ ts
  | CFlush (PSend id ts) => ∀ j, is_Some (ms_out co !! j) → j ∈ id :: ts
  | CFlush PTop => ms_out co = ∅
  | _ => False
  end.

Record worker_ok (ms : markState) (p : pc) : Prop := {
  wo_placement : ms_placement ms = pl;
  wo_acked : ms_acked ms = raw_acked;
  wo_sender : ms_sender ms = None;
  wo_busy : ms_busy ms = (if in_batch p then 1 else 0)%Z;
  wo_send id ts : p = PSend id ts → is_Some (ms_out ms !! id);
}.

Record inv_w (s : gstate) : Prop := {
  iw_worker n : n ∈ acked → worker_ok (g_ms s n) (g_pc s n);
  iw_co : ms_placement (g_co s) = pl ∧ ms_acked (g_co s) = raw_acked ∧ ms_sender (g_co s) = Some (arr_bytes self ++ of_string "c");
  iw_out : co_ok (g_co s) (g_cpc s);
}.

Lemma worker_step_ok n a ms p ms' p' x : worker_ok ms p → worker_step leaf ChildKeys n a ms p = (ms', p', x) → worker_ok ms' p'.
Proof.
  intros [H1 H2 H3 H4 H5] H. destruct p as [|[|k rest]|k rest| |[|id ts]|id ts]; simpl in H.
  - destruct (ms_queue ms); injection H as <- <- <-; split; try done; simpl; by rewrite H4.
  - injection H as <- <- <-. split; try done. simpl. by rewrite H4.
  - destruct (process_claim leaf n ms k) as [ms1 fetch] eqn:Ec. injection H as <- <- <-.
    apply process_claim_spec in Ec. destruct Ec as [[? ? ? ? _] _ (_ & _ & Hb & _) _ _].
    split; try congruence; [destruct fetch; simpl in *; congruence|by destruct fetch].
  - injection H as <- <- <-. unfold process_fetched. destruct (an_data a ≫= ChildKeys k); by split.
  - injection H as <- <- <-. by split.
  - injection H as <- <- <-. by split.
  - destruct (flush_take n id ms) as [ms1 [m|]] eqn:Ef; injection H as <- <- <-.
    + apply flush_take_spec in Ef as (O & S & Q & -> & _ & Ho & _). split; try done. by intros ? ? [= <- <-].
    + apply flush_take_spec in Ef as (O & S & Q & -> & _). by split.
  - injection H as <- <- <-. destruct (an_sent a); by split.
Qed.

Lemma co_step_ok a co q p' co' x : answer_ok q a → q ≠ PTop → co_ok co (CFlush q) →
  worker_step leaf ChildKeys self a co q = (co', p', x) →
  co_ok co' (CFlush p') ∧ ms_placement co' = ms_placement co ∧ ms_acked co' = ms_acked co ∧ ms_sender co' = ms_sender co.
Proof.
  intros [Ho _] Hq Hok H. destruct q as [|[|k rest]|k rest| |[|id ts]|id ts]; try done; simpl in H.
  - injection H as <- <- <-. split; [|done]. simpl in *. intros id [b Hb]. unfold flush_targets. rewrite Ho.
    apply list_elem_of_fmap. exists (id, b). split; [done|]. apply list_elem_of_filter. split; [by apply (Hok id b)|].
    by apply elem_of_map_to_list.
  - injection H as <- <- <-. split; [|done]. simpl in *. apply map_empty. intros i. apply eq_None_not_Some. intros Hi.
    by apply (elem_of_nil i), Hok.
  - destruct (flush_take self id co) as [ms1 [m|]] eqn:Ef; injection H as <- <- <-;
      apply flush_take_spec in Ef as (O & S & Q & -> & Hj & Hx); (split; [|done]); simpl in *.
    + intros j Hj'. destruct (decide (j = id)) as [->|Hne]; [left|]. rewrite Hj in Hj' by done. auto.
    + destruct Hx as [Hx _]. intros j Hj'. destruct (decide (j = id)) as [->|Hne]; [rewrite Hx in Hj'; by destruct Hj'|].
      rewrite Hj in Hj' by done. apply Hok in Hj'. by apply elem_of_cons in Hj' as [->|].
  - injection H as <- <- <-. split; [|by destruct (an_sent a)]. simpl in *. by destruct (an_sent a).
Qed.

Lemma worker_ok_root ms p k : worker_ok ms p → worker_ok (ms <| ms_queue := ms_queue ms ++ [k] |> <| ms_dirty := true |>) p.
Proof. intros []. by split. Qed.

Lemma worker_ok_status ms p persisted force : worker_ok ms p → worker_ok (handleStatus ms persisted force).1 p.
Proof. intros []. unfold handleStatus. destruct (idle ms && ms_dirty ms), persisted, force; by split. Qed.

(** Giving out a root. *)
Lemma push_root_spec k mk co mk' co' : push_root self epoch k mk co = (mk', co') →
  (worker co k = self ∧ co' = co ∧
     match mk, mk' with
     | Some ms, Some ms' => ms' = ms ∨ ms' = ms <| ms_queue := ms_queue ms ++ [k] |> <| ms_dirty := true |> ∧ ms_epoch ms = epoch
     | None, None => True
     | _, _ => False
     end ∧ (∀ ms, mk = Some ms → ms_epoch ms = epoch → ∃ ms', mk' = Some ms' ∧ k ∈ ms_queue ms')) ∨
  (worker co k ≠ self ∧ mk' = mk ∧ ∃ b, co' = co <| ms_out := <[worker co k := b]> (ms_out co) |> ∧
     ob_keys b = ob_keys (out_of co (worker co k)) ∧ ob_expand b = ob_expand (out_of co (worker co k)) ++ [k]).
Proof.
  unfold push_root. destruct (decide (worker co k = self)) as [E|E]; intros [= <- <-]; [left|right].
  - split; [done|]. split; [done|]. destruct mk as [ms|]; [|by split]. split.
    + destruct (N.eqb_spec (ms_epoch ms) epoch); [by right|by left].
    + intros ? [= <-] ->. rewrite N.eqb_refl. eexists. split; [done|]. simpl. set_solver.
  - split; [done|]. split; [done|]. by eexists.
Qed.

Lemma inv_w_step s s' : NoDup acked → inv_w s → gstep s s' → inv_w s'.
Proof.
  intros Hnd [Hw Hc Ho] Hs. destruct Hs as [n a ms p x Hn Ha H|n m ms r Hn Hm H|k todo mk co Ec H|Ec|a co q p x Ec Hq Ha H|n ps fo Hn];
    split; simpl; try done.
  - intros j Hj. destruct (decide (n = j)) as [->|Hne].
    + rewrite !fn_lookup_insert. eapply worker_step_ok; [|exact H]. auto.
    + rewrite !fn_lookup_insert_ne by done. auto.
  - intros j Hj. destruct (decide (n = j)) as [->|Hne]; [|rewrite !fn_lookup_insert_ne by done; auto].
    rewrite fn_lookup_insert. apply handleKeys_spec in H. destruct (accepts (g_ms s j) m); [|subst; auto].
    destruct H as (keys & M & _ & -> & _). destruct (Hw j Hj). by split.
  - intros j Hj. destruct mk as [ms|]; [|auto]. destruct (decide (j = self)) as [->|Hne]; [|rewrite fn_lookup_insert_ne by congruence; auto].
    rewrite fn_lookup_insert. rewrite decide_True in H by done. apply push_root_spec in H as [(_ & _ & [->|[-> _]] & _)|(_ & [= ->] & _)]; auto.
    by apply worker_ok_root, Hw.
  - apply push_root_spec in H as [(_ & -> & _)|(_ & _ & b & -> & _)]; done.
  - rewrite Ec in Ho. apply push_root_spec in H as [(_ & -> & _)|(_ & _ & b & -> & _ & Hb)]; [done|]. simpl in *. intros id b' Hb'.
    destruct (decide (worker (g_co s) k = id)) as [<-|Hne]; [|rewrite lookup_insert_ne in Hb' by done; by apply (Ho id)].
    rewrite lookup_insert_eq in Hb'. injection Hb' as <-. right. rewrite Hb. by intros [_ ?]%app_eq_nil.
  - by rewrite Ec in Ho.
  - rewrite Ec in Ho. destruct (co_step_ok _ _ _ _ _ _ Ha Hq Ho H) as (_ & -> & -> & ->). done.
  - rewrite Ec in Ho. by destruct (co_step_ok _ _ _ _ _ _ Ha Hq Ho H).
  - intros j Hj. destruct (decide (n = j)) as [->|Hne]; [|rewrite !fn_lookup_insert_ne by done; auto].
    rewrite fn_lookup_insert. by apply worker_ok_status, Hw.
Qed.

(** * Counting requests *)

Definition co_name : bytes := arr_bytes self ++ of_string "c".

Lemma co_name_fresh (n : NodeID) : arr_bytes n ≠ co_name.
Proof. intros E%(f_equal length). unfold co_name in E. rewrite length_app, !arr_length in E. done. Qed.

Record inv_c (s : gstate) : Prop := {
  ic_sent : ms_sent (g_co s) + sumN (λ n, ms_sent (g_ms s n)) acked = N.of_nat (length (g_net s));
  ic_recv : sumN (λ n, ms_recv (g_ms s n)) acked = N.of_nat (length (g_got s));
  ic_got : g_got s ⊆ g_net s;
  ic_got_nodup : NoDup (g_got s);
  ic_net_nodup : NoDup (g_net s);
  ic_seen n m : (n, m) ∈ g_got s → ∃ last, ms_seqSeen (g_ms s n) !! km_Node m = Some last ∧ km_Seq m ≤ last;
  ic_seq t m : (t, m) ∈ g_net s →
    (∃ n, n ∈ acked ∧ km_Node m = arr_bytes n ∧ km_Seq m ≤ default 0 (ms_seqs (g_ms s n) !! t)) ∨
    km_Node m = co_name ∧ km_Seq m ≤ default 0 (ms_seqs (g_co s) !! t);
  ic_le n t : n ∈ acked → default 0 (ms_seqs (g_ms s n) !! t) ≤ ms_sent (g_ms s n);
  ic_le_co t : default 0 (ms_seqs (g_co s) !! t) ≤ ms_sent (g_co s);
}.

(** What a step of a sender does to its counters. *)
Record sends (name : bytes) (ms ms' : markState) (x : option (NodeID * keysMsg)) : Prop := {
  sd_recv : ms_recv ms' = ms_recv ms;
  sd_seen : ms_seqSeen ms' = ms_seqSeen ms;
  sd_out : match x with
    | None => ms_sent ms' = ms_sent ms ∧ ms_seqs ms' = ms_seqs ms
    | Some (id, m) => ms_sent ms' = u64 (ms_sent ms + 1) ∧ km_Seq m = u64 (default 0 (ms_seqs ms !! id) + 1) ∧
        ms_seqs ms' = <[id := km_Seq m]> (ms_seqs ms) ∧ km_Node m = name
    end;
}.

Lemma worker_step_sends n a ms p ms' p' x : worker_step leaf ChildKeys n a ms p = (ms', p', x) → sends (sender_of n ms) ms ms' x.
Proof.
  intros H. destruct p as [|[|k rest]|k rest| |[|id ts]|id ts]; simpl in H.
  - destruct (ms_queue ms); injection H as <- <- <-; by split.
  - injection H as <- <- <-. by split.
  - destruct (process_claim leaf n ms k) as [ms1 fetch] eqn:Ec. injection H as <- <- <-.
    apply process_claim_spec in Ec. destruct Ec as [_ _ (_ & _ & _ & ? & ? & ? & ? & _) _ _]. by split.
  - injection H as <- <- <-. unfold process_fetched. destruct (an_data a ≫= ChildKeys k); by split.
  - injection H as <- <- <-. by split.
  - injection H as <- <- <-. by split.
  - destruct (flush_take n id ms) as [ms1 [m|]] eqn:Ef; injection H as <- <- <-; apply flush_take_spec in Ef as (O & S & Q & -> & _ & Hx).
    + destruct Hx as (_ & -> & ? & -> & ? & _). by split.
    + destruct Hx as (_ & -> & -> & _). by split.
  - injection H as <- <- <-. destruct (an_sent a); by split.
Qed.

Lemma sumN_elem f l n : n ∈ l → f n ≤ sumN f l.
Proof.
  induction l as [|m l IH]; intros Hn; [by apply elem_of_nil in Hn|]. simpl. apply elem_of_cons in Hn as [->|Hn]; [lia|].
  specialize (IH Hn). lia.
Qed.

Lemma sumN_insert (g : NodeID → markState) (f : markState → N) n ms l : NoDup l → n ∈ l →
  sumN (λ m, f (<[n := ms]> g m)) l + f (g n) = sumN (λ m, f (g m)) l + f ms.
Proof.
  intros Hnd Hn. rewrite <- (sumN_update (λ m, f (g m)) l n (f ms) Hnd Hn). f_equal. apply sumN_ext. intros m _.
  case_decide as E; [subst; by rewrite fn_lookup_insert|by rewrite fn_lookup_insert_ne].
Qed.

(** A worker's step keeps the counts. *)
Lemma inv_c_work s n ms p x : NoDup acked → n ∈ acked → inv_c s → inv_w s → sends (arr_bytes n) (g_ms s n) ms x →
  N.of_nat (length (sent_msg x ++ g_net s)) < u64_max →
  inv_c (MkG (<[n := ms]> (g_ms s)) (<[n := p]> (g_pc s)) (g_co s) (g_cpc s) (sent_msg x ++ g_net s) (g_got s)
           (claimed n (g_pc s n) ++ g_done s) (g_file s)).
Proof.
  intros Hnd Hn [H1 H2 H3 H4 H5 H6 H7 H8 H9] Hw [Er Es Hx] Hb. rewrite length_app in Hb.
  pose proof (sumN_insert (g_ms s) ms_sent n ms acked Hnd Hn) as Hsum.
  pose proof (sumN_insert (g_ms s) ms_recv n ms acked Hnd Hn) as Hsum2.
  pose proof (sumN_elem (λ m, ms_sent (g_ms s m)) acked n Hn) as Hle. simpl in Hle.
  assert (∀ m, ms_seqSeen (<[n := ms]> (g_ms s) m) = ms_seqSeen (g_ms s m)) as Eseen.
  { intros m. destruct (decide (n = m)) as [->|]; [by rewrite fn_lookup_insert|by rewrite fn_lookup_insert_ne]. }
  destruct x as [[id m]|]; simpl in *.
  - destruct Hx as (E1 & E2 & E3 & E4). pose proof (H8 n id Hn) as Hq.
    rewrite u64_small in E1 by lia. rewrite u64_small in E2 by lia.
    assert ((id, m) ∉ g_net s) as Hfresh.
    { intros [(j & Hj & Ej & Hle')|[Ej _]]%H7.
      - rewrite E4 in Ej. apply arr_eq in Ej as <-. lia.
      - rewrite E4 in Ej. by apply co_name_fresh in Ej. }
    split; simpl; try done.
    + rewrite E1 in Hsum. lia.
    + rewrite Er in Hsum2. lia.
    + set_solver.
    + by apply NoDup_cons.
    + intros j m' Hm. destruct (H6 j m' Hm) as (last & El & ?). exists last. by rewrite Eseen.
    + intros t m' [[= -> ->]|Hm]%elem_of_cons.
      * left. exists n. split; [done|]. split; [done|]. by rewrite fn_lookup_insert, E3, lookup_insert_eq.
      * destruct (H7 t m' Hm) as [(j & Hj & Ej & Hle')|?]; [left|by right]. exists j. split; [done|]. split; [done|].
        destruct (decide (n = j)) as [->|]; [|by rewrite fn_lookup_insert_ne]. rewrite fn_lookup_insert, E3.
        destruct (decide (id = t)) as [->|]; [rewrite lookup_insert_eq; simpl; lia|by rewrite lookup_insert_ne].
    + intros j t Hj. destruct (decide (n = j)) as [->|]; [|rewrite fn_lookup_insert_ne by done; auto]. rewrite fn_lookup_insert, E3, E1.
      specialize (H8 j t Hj). destruct (decide (id = t)) as [->|]; [rewrite lookup_insert_eq; simpl; lia|rewrite lookup_insert_ne by done; lia].
  - destruct Hx as [E1 E2]. split; simpl; try done.
    + rewrite E1 in Hsum. lia.
    + rewrite Er in Hsum2. lia.
    + intros j m' Hm. destruct (H6 j m' Hm) as (last & El & ?). exists last. by rewrite Eseen.
    + intros t m' Hm. destruct (H7 t m' Hm) as [(j & Hj & Ej & Hle')|?]; [left|by right]. exists j. split; [done|]. split; [done|].
      destruct (decide (n = j)) as [->|]; [by rewrite fn_lookup_insert, E2|by rewrite fn_lookup_insert_ne].
    + intros j t Hj. destruct (decide (n = j)) as [->|]; [|rewrite fn_lookup_insert_ne by done; auto]. rewrite fn_lookup_insert, E2, E1. auto.
Qed.

(** The counters a step may leave alone. *)
Record same_counts (ms ms' : markState) : Prop := {
  sc_sent : ms_sent ms' = ms_sent ms;
  sc_recv : ms_recv ms' = ms_recv ms;
  sc_seen : ms_seqSeen ms' = ms_seqSeen ms;
  sc_seqs : ms_seqs ms' = ms_seqs ms;
}.

Lemma inv_c_same s s' : (∀ n, same_counts (g_ms s n) (g_ms s' n)) → same_counts (g_co s) (g_co s') →
  g_net s' = g_net s → g_got s' = g_got s → inv_c s → inv_c s'.
Proof.
  intros Hn [Hc _ _ Hc'] En Eg [H1 H2 H3 H4 H5 H6 H7 H8 H9].
  assert (sumN (λ n, ms_sent (g_ms s' n)) acked = sumN (λ n, ms_sent (g_ms s n)) acked) as E1 by (apply sumN_ext; intros; apply Hn).
  assert (sumN (λ n, ms_recv (g_ms s' n)) acked = sumN (λ n, ms_recv (g_ms s n)) acked) as E2 by (apply sumN_ext; intros; apply Hn).
  split; rewrite ?En, ?Eg, ?Hc, ?E1, ?E2; try done.
  - intros n m. rewrite (sc_seen _ _ (Hn n)). auto.
  - intros t m Hm. rewrite Hc'. destruct (H7 t m Hm) as [(n & ?)|?]; [left|by right]. exists n. by rewrite (sc_seqs _ _ (Hn n)).
  - intros n t. rewrite (sc_seqs _ _ (Hn n)), (sc_sent _ _ (Hn n)). auto.
  - intros t. rewrite Hc'. auto.
Qed.

Lemma inv_c_recv s n m ms r : NoDup acked → n ∈ acked → (n, m) ∈ g_net s → inv_c s → handleKeys (g_ms s n) m = (ms, r) →
  N.of_nat (length (g_net s)) < u64_max →
  inv_c (MkG (<[n := ms]> (g_ms s)) (g_pc s) (g_co s) (g_cpc s) (g_net s)
           (if accepts (g_ms s n) m then (n, m) :: g_got s else g_got s) (g_done s) (g_file s)).
Proof.
  intros Hnd Hn Hm Hc H Hb. apply handleKeys_spec in H. destruct (accepts (g_ms s n) m) eqn:Ea.
  2: { subst ms. eapply inv_c_same; [..|exact Hc]; try done. intros j. simpl.
       destruct (decide (n = j)) as [->|]; [by rewrite fn_lookup_insert|by rewrite fn_lookup_insert_ne]. }
  destruct Hc as [H1 H2 H3 H4 H5 H6 H7 H8 H9]. destruct H as (keys & M & Ek & E & _ & _).
  assert ((n, m) ∉ g_got s) as Hnew.
  { intros (last & El & Hle)%H6. unfold accepts in Ea. rewrite Ek, El in Ea. apply N.leb_le in Hle. rewrite Hle in Ea.
    by destruct (ms_frozen (g_ms s n)). }
  assert (N.of_nat (length (g_got s)) + 1 ≤ N.of_nat (length (g_net s))) as Hlen.
  { assert (length ((n, m) :: g_got s) ≤ length (g_net s))%nat as Hl; [|simpl in Hl; lia].
    apply submseteq_length, NoDup_submseteq; [by apply NoDup_cons|]. intros x [->|?]%elem_of_cons; [done|by apply H3]. }
  assert (ms_sent ms = ms_sent (g_ms s n) ∧ ms_seqs ms = ms_seqs (g_ms s n) ∧ ms_recv ms = u64 (ms_recv (g_ms s n) + 1) ∧
    ms_seqSeen ms = <[km_Node m := km_Seq m]> (ms_seqSeen (g_ms s n))) as (Es & Eq & Er & En) by (by subst ms). clear E.
  pose proof (sumN_insert (g_ms s) ms_sent n ms acked Hnd Hn) as Hsum.
  pose proof (sumN_insert (g_ms s) ms_recv n ms acked Hnd Hn) as Hsum2.
  pose proof (sumN_elem (λ m, ms_recv (g_ms s m)) acked n Hn) as Hle. simpl in Hle. rewrite u64_small in Er by lia.
  split; simpl; try done.
  - rewrite Es in Hsum. lia.
  - rewrite Er in Hsum2. lia.
  - set_solver.
  - by apply NoDup_cons.
  - intros j m' [[= -> ->]|Hj]%elem_of_cons.
    { rewrite fn_lookup_insert, En, lookup_insert_eq. by eexists. }
    destruct (H6 j m' Hj) as (last & El & ?). destruct (decide (n = j)) as [->|]; [|rewrite fn_lookup_insert_ne by done; eauto].
    rewrite fn_lookup_insert, En. destruct (decide (km_Node m = km_Node m')) as [Ee|]; [|rewrite lookup_insert_ne by done; eauto].
    rewrite Ee, lookup_insert_eq. eexists. split; [done|]. unfold accepts in Ea. rewrite Ek, Ee, El in Ea.
    destruct (N.leb_spec (km_Seq m) last); [by destruct (ms_frozen (g_ms s j))|lia].
  - intros t m' Hm'. destruct (H7 t m' Hm') as [(j & Hj & Ej & Hj')|?]; [left|by right]. exists j. split; [done|]. split; [done|].
    destruct (decide (n = j)) as [->|]; [by rewrite fn_lookup_insert, Eq|by rewrite fn_lookup_insert_ne].
  - intros j t Hj. destruct (decide (n = j)) as [->|]; [|rewrite fn_lookup_insert_ne by done; auto].
    rewrite fn_lookup_insert, Eq, Es. auto.
Qed.

Lemma inv_c_co s co c x : inv_c s → sends co_name (g_co s) co x → N.of_nat (length (sent_msg x ++ g_net s)) < u64_max →
  inv_c (MkG (g_ms s) (g_pc s) co c (sent_msg x ++ g_net s) (g_got s) (g_done s) (g_file s)).
Proof.
  intros [H1 H2 H3 H4 H5 H6 H7 H8 H9] [Er Es Hx] Hb. destruct x as [[id m]|]; simpl in *.
  2: { destruct Hx as [E1 E2]. split; simpl; rewrite ?E1, ?E2; done. }
  destruct Hx as (E1 & E2 & E3 & E4). pose proof (H9 id) as Hq. rewrite u64_small in E1 by lia. rewrite u64_small in E2 by lia.
  assert ((id, m) ∉ g_net s) as Hfresh.
  { intros [(j & Hj & Ej & Hle')|[Ej Hle']]%H7; [|lia]. rewrite E4 in Ej. by symmetry in Ej; apply co_name_fresh in Ej. }
  split; simpl; try done.
  - lia.
  - set_solver.
  - by apply NoDup_cons.
  - intros t m' [[= -> ->]|Hm]%elem_of_cons; [right; by rewrite E3, lookup_insert_eq|].
    destruct (H7 t m' Hm) as [?|[? Hle']]; [by left|right]. split; [done|]. rewrite E3.
    destruct (decide (id = t)) as [->|]; [rewrite lookup_insert_eq; simpl; lia|by rewrite lookup_insert_ne].
  - intros t. rewrite E3, E1. specialize (H9 t).
    destruct (decide (id = t)) as [->|]; [rewrite lookup_insert_eq; simpl; lia|rewrite lookup_insert_ne by done; lia].
Qed.

Lemma same_counts_status ms persisted force : same_counts ms (handleStatus ms persisted force).1.
Proof. unfold handleStatus. destruct (idle ms && ms_dirty ms), persisted, force; by split. Qed.

Lemma inv_c_step s s' : NoDup acked → inv_w s → inv_c s → gstep s s' → N.of_nat (length (g_net s')) < u64_max → inv_c s'.
Proof.
  intros Hnd Hw Hc Hs Hb. destruct Hs as [n a ms p x Hn Ha H|n m ms r Hn Hm H|k todo mk co Ec H|Ec|a co q p x Ec Hq Ha H|n ps fo Hn]; simpl in Hb.
  - apply inv_c_work; try done. apply worker_step_sends in H. unfold sender_of in H. by rewrite (wo_sender _ _ (iw_worker _ Hw n Hn)) in H.
  - by eapply inv_c_recv.
  - eapply inv_c_same; [..|exact Hc]; try done; simpl.
    + intros n. destruct mk as [ms|]; [|done]. destruct (decide (n = self)) as [->|Hne]; [|by rewrite fn_lookup_insert_ne].
      rewrite fn_lookup_insert. apply push_root_spec in H as [(_ & _ & H & _)|(_ & H & _)]; destruct (decide (self ∈ acked)); try done.
      * destruct H as [->|[-> _]]; by split.
      * by injection H as ->.
    + apply push_root_spec in H as [(_ & -> & _)|(_ & _ & b & -> & _)]; by split.
  - by eapply inv_c_same; [..|exact Hc].
  - apply inv_c_co; try done. apply worker_step_sends in H. unfold sender_of in H. destruct (iw_co _ Hw) as (_ & _ & E). by rewrite E in H.
  - eapply inv_c_same; [..|exact Hc]; try done; simpl. intros j. destruct (decide (n = j)) as [->|Hne]; [|by rewrite fn_lookup_insert_ne].
    rewrite fn_lookup_insert. apply same_counts_status.
Qed.

(** * What is still owed

    The worker of a key is fixed for the epoch. *)
Definition wk (k : key) : NodeID := worker (coordinator self epoch nonce pl raw_acked) k.

Lemma worker_wk ms k : ms_placement ms = pl → ms_acked ms = raw_acked → worker ms k = wk k.
Proof. intros E1 E2. unfold wk. by apply worker_same. Qed.

Lemma elem_of_raw_acked n : arr_bytes n ∈ raw_acked ↔ n ∈ acked.
Proof.
  unfold raw_acked. rewrite list_elem_of_fmap. split; [|by exists n]. intros (j & E%arr_eq & ?). by subst.
Qed.

Lemma wk_acked k : wk k ∈ acked ∨ wk k = arr_zero 32.
Proof.
  unfold wk, worker. simpl. destruct (list_find _ _) as [[i id]|] eqn:E; [left|by right].
  apply list_find_Some in E as (_ & E & _). by apply elem_of_raw_acked, Contains_spec.
Qed.

(** A key waits at a worker: in the queue or in the batch at hand. *)
Definition rest_of (p : pc) : list key := match p with PBatch l | PFetch _ l => l | _ => [] end.
Definition waiting (ms : markState) (p : pc) (k : key) : Prop := k ∈ ms_queue ms ∨ k ∈ rest_of p.

Definition in_flight (s : gstate) (t : NodeID) (expand : bool) (k : key) : Prop :=
  ∃ m ks, (t, m) ∈ g_net s ∧ (t, m) ∉ g_got s ∧ km_Expand m = expand ∧ km_Keys m = RawKeys ks ∧ k ∈ ks.

(** [w] has been asked for [k]: it has it, or will once everything is delivered. *)
Inductive settled (s : gstate) (w : NodeID) (k : key) : Prop :=
  | st_batch n : n ∈ acked → has_expand (g_ms s n) w k → settled s w k
  | st_root : has_expand (g_co s) w k → settled s w k
  | st_net : in_flight s w true k → settled s w k
  | st_wait : w ∈ acked → waiting (g_ms s w) (g_pc s w) k → settled s w k
  | st_done : (w, k) ∈ g_done s → settled s w k.

(** The owner [o] of [k] has marked it, or will. *)
Inductive deliv (s : gstate) (o : NodeID) (k : key) : Prop :=
  | dl_marked : marked_ok (g_ms s o) k → deliv s o k
  | dl_batch n : n ∈ acked → has_key (g_ms s n) o k → deliv s o k
  | dl_net : in_flight s o false k → deliv s o k.

(** What a worker's step does with the keys it has. *)
Record keeps (ms : markState) (p : pc) (ms' : markState) (p' : pc) (x : option (NodeID * keysMsg)) : Prop := {
  kp_expand w k : has_expand ms w k → has_expand ms' w k ∨
    ∃ m ks, x = Some (w, m) ∧ km_Expand m = true ∧ km_Keys m = RawKeys ks ∧ k ∈ ks;
  kp_key o k : has_key ms o k → has_key ms' o k ∨
    ∃ m ks, x = Some (o, m) ∧ km_Expand m = false ∧ km_Keys m = RawKeys ks ∧ k ∈ ks;
  kp_wait k : waiting ms p k → waiting ms' p' k ∨ ∃ rest, p = PBatch (k :: rest);
  kp_marked k : marked_ok ms k → marked_ok ms' k;
  kp_missing : ms_missing ms ⊆ ms_missing ms';
  kp_epoch : ms_epoch ms' = ms_epoch ms;
}.

Lemma keeps_grow ms p ms' p' : grow_out ms ms' → (∀ k, waiting ms p k → waiting ms' p' k ∨ ∃ rest, p = PBatch (k :: rest)) →
  ms_eligible ms' = ms_eligible ms → ms_marked ms ⊆ ms_marked ms' → ms_missing ms ⊆ ms_missing ms' → ms_epoch ms' = ms_epoch ms →
  keeps ms p ms' p' None.
Proof.
  intros [Hg1 Hg2] Hw He Hm Hs Hp. split; try done.
  - intros w k H. left. auto.
  - intros w k H. left. auto.
  - intros k H. unfold marked_ok in *. rewrite He. set_solver.
Qed.

Lemma process_claim_epoch n ms k ms' f : process_claim leaf n ms k = (ms', f) → ms_epoch ms' = ms_epoch ms.
Proof.
  unfold process_claim, deliver. destruct (deliver_spec n ms k (WriteSet (ms_placement ms) k)) as (M & O & -> & _).
  destruct (leaf k); [by intros [= <- <-]|]. repeat case_decide; by intros [= <- <-].
Qed.

Lemma worker_step_keeps n a ms p ms' p' x : worker_step leaf ChildKeys n a ms p = (ms', p', x) → keeps ms p ms' p' x.
Proof.
  intros H. destruct p as [|[|k rest]|k rest| |[|id ts]|id ts]; simpl in H.
  - destruct (ms_queue ms) as [|k0 q] eqn:Eq; injection H as <- <- <-; apply keeps_grow; try done.
    + intros k Hk. by left.
    + intros k [Hk|Hk]; [|by apply elem_of_nil in Hk]. left. unfold waiting. cbn -[take drop].
      rewrite Eq, <- (take_drop (S (length q `min` 255)) (k0 :: q)) in Hk. apply elem_of_app in Hk as [?|?]; [right|left]; done.
  - injection H as <- <- <-. apply keeps_grow; try done. intros k Hk. by left.
  - destruct (process_claim leaf n ms k) as [ms1 fetch] eqn:Ec. injection H as <- <- <-.
    pose proof (process_claim_epoch _ _ _ _ _ Ec). apply process_claim_spec in Ec.
    destruct Ec as [[_ _ ? _ ?] Hg (Hq & Hm & _) _ _]. apply keeps_grow; try done; [|by rewrite Hm].
    intros k' [Hk|Hk]; [left; left; by rewrite Hq|]. simpl in Hk. apply elem_of_cons in Hk as [->|Hk]; [right; eauto|left; right].
    by destruct fetch.
  - injection H as <- <- <-. unfold process_fetched. destruct (an_data a ≫= ChildKeys k) as [kids|]; apply keeps_grow; try done.
    + intros k' [Hk|Hk]; left; [left; simpl; set_solver|by right].
    + intros k' Hk. by left.
    + simpl. set_solver.
  - injection H as <- <- <-. apply keeps_grow; try done. intros k Hk. by left.
  - injection H as <- <- <-. apply keeps_grow; try done. intros k Hk. by left.
  - destruct (flush_take n id ms) as [ms1 [m|]] eqn:Ef; injection H as <- <- <-; apply flush_take_spec in Ef as (O & S & Q & E & _ & Hx).
    + destruct Hx as (_ & _ & _ & _ & _ & ks & Ek & Hx & Hy). split.
      * intros w k Hk. destruct (Hx w k Hk) as [?|(-> & ? & ?)]; [by left|right; by exists m, ks].
      * intros w k Hk. destruct (Hy w k Hk) as [?|(-> & ? & ?)]; [by left|right; by exists m, ks].
      * intros k Hk. left. by rewrite E.
      * intros k Hk. by rewrite E.
      * by rewrite E.
      * by rewrite E.
    + destruct Hx as (_ & _ & _ & Hg). apply keeps_grow; rewrite ?E; try done; [by rewrite <- E|]. intros k Hk. by left.
  - injection H as <- <- <-. destruct (an_sent a); apply keeps_grow; try done; try (intros k Hk; by left). simpl. set_solver.
Qed.

(** * Nothing is dropped *)

Record adv (s s' : gstate) : Prop := {
  ad_settled w k : settled s w k → settled s' w k;
  ad_deliv o k : deliv s o k → deliv s' o k;
  ad_done : g_done s ⊆ g_done s';
}.

(** A step that changes one sender's state and adds its message to the network. *)
Lemma in_flight_sent s s' t e k x : g_net s' = sent_msg x ++ g_net s → g_got s' = g_got s → in_flight s t e k → in_flight s' t e k.
Proof. intros En Eg (m & ks & ? & ? & ?). exists m, ks. rewrite En, Eg. split_and!; try done; set_solver. Qed.

Lemma in_flight_new s s' t e k m ks : inv_c s → inv_c s' → g_net s' = sent_msg (Some (t, m)) ++ g_net s → g_got s' = g_got s →
  km_Expand m = e → km_Keys m = RawKeys ks → k ∈ ks → in_flight s' t e k.
Proof.
  intros Hc Hc' En Eg He Hk Hin. exists m, ks. pose proof (ic_net_nodup _ Hc') as Hnd. rewrite En in Hnd. simpl in Hnd.
  apply NoDup_cons in Hnd as [Hnew _]. rewrite En, Eg. split_and!; try done; [by left|].
  intros Hg. by apply Hnew, (ic_got _ Hc).
Qed.

Lemma adv_work s n ms p x : n ∈ acked → inv_c s →
  let s' := MkG (<[n := ms]> (g_ms s)) (<[n := p]> (g_pc s)) (g_co s) (g_cpc s) (sent_msg x ++ g_net s) (g_got s)
              (claimed n (g_pc s n) ++ g_done s) (g_file s) in
  inv_c s' → keeps (g_ms s n) (g_pc s n) ms p x → adv s s'.
Proof.
  intros Hn Hc s' Hc' [K1 K2 K3 K4 _]. split.
  - intros w k [j Hj H|H|H|Hw H|H].
    + destruct (decide (n = j)) as [<-|Hne].
      * destruct (K1 w k H) as [H'|(m & ks & -> & ? & ? & ?)].
        -- apply (st_batch _ _ _ n Hn). simpl. by rewrite fn_lookup_insert.
        -- apply st_net. by eapply (in_flight_new s).
      * apply (st_batch _ _ _ j Hj). simpl. by rewrite fn_lookup_insert_ne.
    + by apply st_root.
    + apply st_net. by eapply in_flight_sent.
    + destruct (decide (n = w)) as [<-|Hne].
      * destruct (K3 k H) as [H'|[rest E]].
        -- apply st_wait; [done|]. simpl. by rewrite !fn_lookup_insert.
        -- apply st_done. simpl. rewrite E. by left.
      * apply st_wait; [done|]. simpl. by rewrite !fn_lookup_insert_ne.
    + apply st_done. simpl. set_solver.
  - intros o k [H|j Hj H|H].
    + apply dl_marked. simpl. destruct (decide (n = o)) as [<-|]; [rewrite fn_lookup_insert; auto|by rewrite fn_lookup_insert_ne].
    + destruct (decide (n = j)) as [<-|Hne].
      * destruct (K2 o k H) as [H'|(m & ks & -> & ? & ? & ?)].
        -- apply (dl_batch _ _ _ n Hn). simpl. by rewrite fn_lookup_insert.
        -- apply dl_net. by eapply (in_flight_new s).
      * apply (dl_batch _ _ _ j Hj). simpl. by rewrite fn_lookup_insert_ne.
    + apply dl_net. by eapply in_flight_sent.
  - simpl. set_solver.
Qed.

Lemma adv_recv s n m ms r : n ∈ acked → handleKeys (g_ms s n) m = (ms, r) →
  adv s (MkG (<[n := ms]> (g_ms s)) (g_pc s) (g_co s) (g_cpc s) (g_net s)
           (if accepts (g_ms s n) m then (n, m) :: g_got s else g_got s) (g_done s) (g_file s)).
Proof.
  intros Hn H. apply handleKeys_spec in H. destruct (accepts (g_ms s n) m).
  2: { subst ms. assert (∀ j, <[n := g_ms s n]> (g_ms s) j = g_ms s j) as E.
       { intros j. destruct (decide (n = j)) as [->|]; [by rewrite fn_lookup_insert|by rewrite fn_lookup_insert_ne]. }
       split; [| |done].
       - intros w k [j Hj H|H|H|Hw H|H].
         + apply (st_batch _ _ _ j Hj). simpl. by rewrite E.
         + by apply st_root.
         + by apply st_net.
         + apply st_wait; [done|]. simpl. by rewrite E.
         + by apply st_done.
       - intros o k [H|j Hj H|H].
         + apply dl_marked. simpl. by rewrite E.
         + apply (dl_batch _ _ _ j Hj). simpl. by rewrite E.
         + by apply dl_net. }
  destruct H as (keys & M & Ek & E & HM & Hk). apply Keys32_Some in Ek.
  assert (∀ ks, km_Keys m = RawKeys ks → ks = keys) as Hks.
  { intros ks Hks. rewrite Hks in Ek. assert (Some keys = Some ks) as [= ->]; [|done].
    rewrite <- (proj2 (Keys32_Some (RawKeys ks) keys) Ek). by apply Keys32_Some. }
  assert (∀ j, ms_out (<[n := ms]> (g_ms s) j) = ms_out (g_ms s j)) as Eo.
  { intros j. destruct (decide (n = j)) as [->|]; [rewrite fn_lookup_insert; by subst ms|by rewrite fn_lookup_insert_ne]. }
  split; [| |done].
  - intros w k [j Hj H|H|(m' & ks & Hm' & Hg & He & Hk' & Hin)|Hw H|H].
    + apply (st_batch _ _ _ j Hj). unfold has_expand, out_of. simpl. by rewrite Eo.
    + by apply st_root.
    + destruct (decide ((w, m') = (n, m))) as [[= -> ->]|Hne].
      * apply st_wait; [done|]. left. simpl. rewrite fn_lookup_insert, E. simpl. rewrite He. apply Hks in Hk' as ->. set_solver.
      * apply st_net. exists m', ks. simpl. split_and!; try done. by intros [?|?]%elem_of_cons.
    + apply st_wait; [done|]. simpl. destruct (decide (n = w)) as [->|]; [|by rewrite fn_lookup_insert_ne]. rewrite fn_lookup_insert.
      destruct H as [H|H]; [left|by right]. rewrite E. simpl. set_solver.
    + by apply st_done.
  - intros o k [H|j Hj H|(m' & ks & Hm' & Hg & He & Hk' & Hin)].
    + apply dl_marked. simpl. destruct (decide (n = o)) as [<-|]; [|by rewrite fn_lookup_insert_ne]. rewrite fn_lookup_insert.
      unfold marked_ok in *. rewrite E. simpl. set_solver.
    + apply (dl_batch _ _ _ j Hj). unfold has_key, out_of. simpl. by rewrite Eo.
    + destruct (decide ((o, m') = (n, m))) as [[= -> ->]|Hne].
      * apply dl_marked. simpl. rewrite fn_lookup_insert. unfold marked_ok. rewrite E. simpl. intros. apply Hk; [|done].
        by apply Hks in Hk' as <-.
      * apply dl_net. exists m', ks. simpl. split_and!; try done. by intros [?|?]%elem_of_cons.
Qed.

(** Steps that only let batches and queues grow. *)
Lemma adv_grow s s' : (∀ n, ms_queue (g_ms s n) ⊆ ms_queue (g_ms s' n) ∧ ms_out (g_ms s' n) = ms_out (g_ms s n) ∧
    ms_eligible (g_ms s' n) = ms_eligible (g_ms s n) ∧ ms_marked (g_ms s' n) = ms_marked (g_ms s n)) →
  g_pc s' = g_pc s → (∀ w k, has_expand (g_co s) w k → settled s' w k) →
  g_net s' = g_net s → g_got s' = g_got s → g_done s' = g_done s → adv s s'.
Proof.
  intros Hn Hp Hc En Eg Ed. split; [| |by rewrite Ed].
  - intros w k [j Hj H|H|(m' & ks & H)|Hw H|H].
    + apply (st_batch _ _ _ j Hj). unfold has_expand, out_of in *. destruct (Hn j) as (_ & -> & _). done.
    + auto.
    + apply st_net. exists m', ks. by rewrite En, Eg.
    + apply st_wait; [done|]. destruct (Hn w) as (Hq & _). rewrite Hp. destruct H; [left; by apply Hq|by right].
    + apply st_done. by rewrite Ed.
  - intros o k [H|j Hj H|(m' & ks & H)].
    + apply dl_marked. unfold marked_ok. by destruct (Hn o) as (_ & _ & -> & ->).
    + apply (dl_batch _ _ _ j Hj). unfold has_key, out_of in *. destruct (Hn j) as (_ & -> & _). done.
    + apply dl_net. exists m', ks. by rewrite En, Eg.
Qed.

Lemma push_root_expand k mk co mk' co' w x : push_root self epoch k mk co = (mk', co') → has_expand co w x → has_expand co' w x.
Proof.
  intros H Hx. apply push_root_spec in H as [(_ & -> & _)|(_ & _ & b & -> & _ & Eb)]; [done|]. unfold has_expand in *.
  rewrite out_of_insert. case_decide as E; [|done]. subst. rewrite Eb. set_solver.
Qed.

Lemma adv_step s s' : inv_c s → inv_c s' → gstep s s' → adv s s'.
Proof.
  intros Hc Hc' Hs. destruct Hs as [n a ms p x Hn Ha H|n m ms r Hn Hm H|k todo mk co Ec H|Ec|a co q p x Ec Hq Ha H|n ps fo Hn].
  - apply adv_work; try done. by eapply worker_step_keeps.
  - by eapply adv_recv.
  - apply adv_grow; try done; simpl.
    + intros n. destruct mk as [ms|]; [|done]. destruct (decide (n = self)) as [->|Hne]; [|by rewrite fn_lookup_insert_ne].
      rewrite fn_lookup_insert. apply push_root_spec in H as [(_ & _ & H & _)|(_ & H & _)]; destruct (decide (self ∈ acked)); try done.
      * destruct H as [->|[-> _]]; [done|]. simpl. split; [set_solver|done].
      * by injection H as ->.
    + intros w x Hx. apply st_root. simpl. by eapply push_root_expand.
  - apply adv_grow; try done. intros w k Hk. by apply st_root.
  - apply worker_step_keeps in H as [K1 _ _ _ _ _]. split; [| |done].
    + intros w k [j Hj H|H|H|Hw H|H].
      * by apply (st_batch _ _ _ j Hj).
      * destruct (K1 w k H) as [H'|(m & ks & -> & ? & ? & ?)]; [by apply st_root|]. apply st_net. by eapply (in_flight_new s).
      * apply st_net. by eapply in_flight_sent.
      * by apply st_wait.
      * by apply st_done.
    + intros o k [H|j Hj H|H]; [by apply dl_marked|by apply (dl_batch _ _ _ j Hj)|]. apply dl_net. by eapply in_flight_sent.
  - apply adv_grow; try done; simpl; [|intros w k Hk; by apply st_root]. intros j.
    destruct (decide (n = j)) as [->|Hne]; [|by rewrite fn_lookup_insert_ne]. rewrite fn_lookup_insert. unfold handleStatus.
    by destruct (idle (g_ms s j) && ms_dirty (g_ms s j)), ps, fo.
Qed.

(** * The mark so far

    Roots are handed out; a processed key is on its way to its owners, and to its
    worker or, at its worker, expanded. *)
Definition expanded (s : gstate) (n : NodeID) (k : key) : Prop :=
  (∃ rest, g_pc s n = PFetch k rest) ∨ k ∈ ms_missing (g_ms s n) ∨
  ∃ kids, children k = Some kids ∧ ∀ c, c ∈ kids → settled s n c.

Record inv_m (s : gstate) : Prop := {
  im_epoch n : n ∈ acked → ms_epoch (g_ms s n) = epoch;
  im_root k : k ∈ roots → (∃ todo, g_cpc s = CRoots todo ∧ k ∈ todo) ∨ settled s (wk k) k;
  im_done n k : (n, k) ∈ g_done s → n ∈ acked ∧ (∀ o, o ∈ WriteSet pl k → o ∈ acked → deliv s o k) ∧
    (leaf k = true ∨ leaf k = false ∧ wk k ≠ n ∧ settled s (wk k) k ∨ leaf k = false ∧ wk k = n ∧ k ∈ ms_visited (g_ms s n));
  im_visited n k : n ∈ acked → k ∈ ms_visited (g_ms s n) → leaf k = false ∧ expanded s n k;
  im_forward n w k : n ∈ acked → k ∈ default ∅ (ms_forward (g_ms s n) !! w) → settled s w k;
}.

(** A step after which no worker has seen or forwarded more. *)
Lemma inv_m_frame s s' : adv s s' → inv_m s → g_pc s' = g_pc s → g_done s' = g_done s →
  (∀ n, ms_epoch (g_ms s' n) = ms_epoch (g_ms s n) ∧ ms_visited (g_ms s' n) = ms_visited (g_ms s n) ∧
        ms_forward (g_ms s' n) = ms_forward (g_ms s n) ∧ ms_missing (g_ms s' n) = ms_missing (g_ms s n)) →
  (∀ k, k ∈ roots → (∃ todo, g_cpc s = CRoots todo ∧ k ∈ todo) → (∃ todo, g_cpc s' = CRoots todo ∧ k ∈ todo) ∨ settled s' (wk k) k) →
  inv_m s'.
Proof.
  intros [A1 A2 _] [I1 I2 I3 I4 I5] Ep Ed Hn Hr. split.
  - intros n Hj. destruct (Hn n) as (-> & _). auto.
  - intros k Hk. destruct (I2 k Hk) as [?|?]; [auto|right; auto].
  - intros n k Hd. rewrite Ed in Hd. destruct (I3 n k Hd) as (Hna & Ho & Hcase). split; [done|]. split; [auto|].
    destruct (Hn n) as (_ & -> & _). destruct Hcase as [?|[(? & ? & ?)|?]]; [by left|right; left; auto|by right; right].
  - intros n k Hna. destruct (Hn n) as (_ & -> & _ & Em). intros Hv. destruct (I4 n k Hna Hv) as [? He]. split; [done|].
    destruct He as [?|[?|(kids & ? & ?)]]; unfold expanded; rewrite Ep, Em; [by left|by right; left|right; right]. exists kids. auto.
  - intros n w k Hna. destruct (Hn n) as (_ & _ & -> & _). intros Hf. eapply A1, I5; done.
Qed.

(** What a worker's step adds to what it has seen, forwarded and processed. *)
Record work_spec (n : NodeID) (ms : markState) (p : pc) (ms' : markState) (p' : pc) : Prop := {
  ws_visited k : k ∈ ms_visited ms' → k ∈ ms_visited ms ∨ leaf k = false ∧ ∃ rest, p' = PFetch k rest;
  ws_mono : ms_visited ms ⊆ ms_visited ms';
  ws_forward w k : k ∈ default ∅ (ms_forward ms' !! w) → k ∈ default ∅ (ms_forward ms !! w) ∨ has_expand ms' w k;
  ws_claimed k rest : p = PBatch (k :: rest) →
    (∀ o, o ∈ WriteSet pl k → o ∈ acked → if decide (o = n) then marked_ok ms' k else has_key ms' o k) ∧
    (leaf k = true ∨
     leaf k = false ∧ wk k ≠ n ∧ (k ∈ default ∅ (ms_forward ms !! wk k) ∨ has_expand ms' (wk k) k) ∨
     leaf k = false ∧ wk k = n ∧ k ∈ ms_visited ms');
  ws_fetch k rest : p = PFetch k rest → k ∈ ms_missing ms' ∨ ∃ kids, children k = Some kids ∧ kids ⊆ ms_queue ms';
}.

Lemma work_spec_frame n ms p ms' p' : ms_visited ms' = ms_visited ms → ms_forward ms' = ms_forward ms →
  (∀ k rest, p ≠ PBatch (k :: rest)) → (∀ k rest, p ≠ PFetch k rest) → work_spec n ms p ms' p'.
Proof.
  intros Ev Ef Hb Hf. split.
  - intros k. rewrite Ev. by left.
  - by rewrite Ev.
  - intros w k. rewrite Ef. by left.
  - intros k rest E. by apply Hb in E.
  - intros k rest E. by apply Hf in E.
Qed.

Lemma claim_work_spec n ms k rest ms' fetch : ms_placement ms = pl → ms_acked ms = raw_acked → claim_spec leaf n ms ms' k fetch →
  work_spec n ms (PBatch (k :: rest)) ms' (if fetch then PFetch k rest else PBatch rest).
Proof.
  intros W1 W2 [_ _ _ Ho Hc]. rewrite (worker_wk ms k W1 W2) in Hc. rewrite W1, W2 in Ho.
  assert (∀ o, o ∈ acked → Contains raw_acked o = true) as Hac by (intros; by apply Contains_spec, elem_of_raw_acked).
  destruct Hc as [(-> & Hl & Ev & Ef)|[(Hl & Hne & -> & Ev & Hf & Hnew)|(Hl & Hw & Ev & Ef & Hf)]]; split; try done.
  - intros x. rewrite Ev. by left.
  - by rewrite Ev.
  - intros w x. rewrite Ef. by left.
  - intros ? ? [= <- <-]. split; [|by left]. intros o Hx ?. apply Ho; auto.
  - intros x. rewrite Ev. by left.
  - by rewrite Ev.
  - intros w x Hx. destruct (Hnew w x Hx) as [?|[-> ->]]; [by left|done].
  - intros ? ? [= <- <-]. split; [|by right; left]. intros o Hx ?. apply Ho; auto.
  - intros x. rewrite Ev. intros [?| ->%elem_of_singleton]%elem_of_union; [by left|]. destruct Hf as [->|?]; [right|by left]. eauto.
  - rewrite Ev. apply union_subseteq_l.
  - intros w x. rewrite Ef. by left.
  - intros ? ? [= <- <-]. split; [intros o Hx ?; apply Ho; auto|]. right. right. split; [done|]. split; [done|]. rewrite Ev.
    apply elem_of_union_r. by apply elem_of_singleton.
Qed.

Lemma elem_of_snoc {A} (x : A) l : x ∈ l ++ [x].
Proof. apply elem_of_app. right. by left. Qed.

Lemma worker_step_work n a ms p ms' p' x : worker_ok ms p → answer_ok p a → worker_step leaf ChildKeys n a ms p = (ms', p', x) →
  work_spec n ms p ms' p'.
Proof.
  intros [W1 W2 _ _ _] [_ Ha] H. destruct p as [|[|k rest]|k rest| |[|id ts]|id ts]; simpl in H.
  - destruct (ms_queue ms); injection H as <- <- <-; by apply work_spec_frame.
  - injection H as <- <- <-. by apply work_spec_frame.
  - destruct (process_claim leaf n ms k) as [ms1 fetch] eqn:Ec. injection H as <- <- <-.
    by apply claim_work_spec, process_claim_spec.
  - injection H as <- <- <-. split; try done.
    + intros y. unfold process_fetched. destruct (an_data a ≫= ChildKeys k); by left.
    + unfold process_fetched. by destruct (an_data a ≫= ChildKeys k).
    + intros w y. unfold process_fetched. destruct (an_data a ≫= ChildKeys k); by left.
    + intros ? ? [= <- <-]. unfold process_fetched. destruct Ha as [->| ->]; simpl; [left; apply elem_of_snoc|].
      fold (children k). destruct (children k) as [kids|]; [right|left; apply elem_of_snoc]. exists kids. split; [done|].
      simpl. intros c Hc. apply elem_of_app. by right.
  - injection H as <- <- <-. by apply work_spec_frame.
  - injection H as <- <- <-. by apply work_spec_frame.
  - destruct (flush_take n id ms) as [ms1 [m|]] eqn:Ef; injection H as <- <- <-;
      apply flush_take_spec in Ef as (O & S & Q & -> & _); by apply work_spec_frame.
  - injection H as <- <- <-. destruct (an_sent a); by apply work_spec_frame.
Qed.

Lemma inv_m_work s n a ms p x : n ∈ acked → answer_ok (g_pc s n) a → worker_ok (g_ms s n) (g_pc s n) →
  worker_step leaf ChildKeys n a (g_ms s n) (g_pc s n) = (ms, p, x) → inv_m s →
  let s' := MkG (<[n := ms]> (g_ms s)) (<[n := p]> (g_pc s)) (g_co s) (g_cpc s) (sent_msg x ++ g_net s) (g_got s)
              (claimed n (g_pc s n) ++ g_done s) (g_file s) in
  adv s s' → inv_m s'.
Proof.
  intros Hn Ha Hw H [I1 I2 I3 I4 I5] s' [A1 A2 A3].
  pose proof (worker_step_keeps _ _ _ _ _ _ _ H) as [_ _ _ _ Km Ke].
  pose proof (worker_step_work _ _ _ _ _ _ _ Hw Ha H) as [V1 V2 V3 V4 V5].
  assert (g_ms s' n = ms ∧ g_pc s' n = p) as [En Ep] by (by simpl; rewrite !fn_lookup_insert).
  assert (∀ j, j ≠ n → g_ms s' j = g_ms s j ∧ g_pc s' j = g_pc s j) as Eo by (by intros j Hj; simpl; rewrite !fn_lookup_insert_ne).
  assert (∀ j k, (j, k) ∈ g_done s' → (j, k) ∈ g_done s ∨ j = n ∧ ∃ rest, g_pc s n = PBatch (k :: rest)) as Hd.
  { intros j k [Hc|Hc]%elem_of_app; [|by left]. unfold claimed in Hc. destruct (g_pc s n) as [|[|k' rest]| | | |];
      try by apply elem_of_nil in Hc. apply list_elem_of_singleton in Hc as [= -> ->]. right. eauto. }
  assert (g_cpc s' = g_cpc s) as Ec by done. clearbody s'. split.
  - intros j Hj. destruct (decide (j = n)) as [->|Hne]; [rewrite En, Ke; auto|]. destruct (Eo j Hne) as [-> _]. auto.
  - intros k Hk. rewrite Ec. destruct (I2 k Hk) as [?|?]; [by left|right; auto].
  - intros j k [Hjk|[-> [rest Eb]]]%Hd.
    + destruct (I3 j k Hjk) as (? & ? & Hc). split; [done|]. split; [auto|]. destruct Hc as [?|[(? & ? & ?)|(? & ? & ?)]]; [by left|right; left; auto|].
      right. right. split; [done|]. split; [done|]. destruct (decide (j = n)) as [->|Hne]; [rewrite En; auto|]. by destruct (Eo j Hne) as [-> _].
    + destruct (V4 k rest Eb) as [Ho Hc]. split; [done|]. split.
      * intros o Hin Hoa. specialize (Ho o Hin Hoa). case_decide as E; [subst o; apply dl_marked|apply (dl_batch _ _ _ n Hn)]; by rewrite En.
      * rewrite En. destruct Hc as [?|[(? & ? & Hf)|?]]; [by left|right; left|by right; right]. split; [done|]. split; [done|].
        destruct Hf as [Hf|Hf]; [eapply A1, I5; done|]. apply (st_batch _ _ _ n Hn). by rewrite En.
  - intros j k Hj Hv. assert (k ∈ ms_visited (g_ms s j) → leaf k = false ∧ expanded s' j k) as Hold.
    { intros Hv'. destruct (I4 j k Hj Hv') as [Hl He]. split; [done|]. unfold expanded. destruct (decide (j = n)) as [->|Hne].
      - rewrite En, Ep. right. destruct He as [(rest & Ef)|[?|(kids & ? & ?)]]; [|left; auto|right; exists kids; auto].
        destruct (V5 k rest Ef) as [?|(kids & ? & Hk)]; [by left|right]. exists kids. split; [done|]. intros c Hc.
        apply st_wait; [done|]. left. rewrite En. auto.
      - destruct (Eo j Hne) as [-> ->]. destruct He as [?|[?|(kids & ? & ?)]]; [by left|by right; left|right; right; exists kids; auto]. }
    destruct (decide (j = n)) as [->|Hne]; [|apply Hold; by destruct (Eo j Hne) as [<- _]]. rewrite En in Hv.
    destruct (V1 k Hv) as [?|[? [rest Ef]]]; [auto|]. split; [done|]. left. exists rest. by rewrite Ep.
  - intros j w k Hj Hf. destruct (decide (j = n)) as [->|Hne]; [|destruct (Eo j Hne) as [E _]; rewrite E in Hf; eapply A1, I5; done].
    rewrite En in Hf. destruct (V3 w k Hf) as [?|?]; [eapply A1, I5; done|]. apply (st_batch _ _ _ n Hn). by rewrite En.
Qed.

Lemma same_status ms persisted force : let ms' := (handleStatus ms persisted force).1 in
  ms_epoch ms' = ms_epoch ms ∧ ms_visited ms' = ms_visited ms ∧ ms_forward ms' = ms_forward ms ∧ ms_missing ms' = ms_missing ms.
Proof. unfold handleStatus. by destruct (idle ms && ms_dirty ms), persisted, force. Qed.

Lemma inv_m_step s s' : self ≠ arr_zero 32 → inv_w s → adv s s' → inv_m s → gstep s s' → inv_m s'.
Proof.
  intros Hz Hw Ha Hi Hs. destruct Hs as [n a ms p x Hn Hok H|n m ms r Hn Hm H|k todo mk co Ec H|Ec|a co q p x Ec Hq Hok H|n ps fo Hn].
  - eapply inv_m_work; try done. by apply (iw_worker _ Hw).
  - eapply inv_m_frame; try done; simpl; [|auto]. intros j. destruct (decide (n = j)) as [->|Hne]; [|by rewrite fn_lookup_insert_ne].
    rewrite fn_lookup_insert. apply handleKeys_spec in H. destruct (accepts (g_ms s j) m); [|by subst].
    by destruct H as (keys & M & _ & -> & _).
  - pose proof (iw_co _ Hw) as (Ep & Eac & _). pose proof (worker_wk (g_co s) k Ep Eac) as Ew.
    eapply inv_m_frame; try done; simpl.
    + intros n. destruct mk as [ms|]; [|done]. destruct (decide (n = self)) as [->|Hne]; [|by rewrite fn_lookup_insert_ne].
      rewrite fn_lookup_insert. apply push_root_spec in H as [(_ & _ & H & _)|(_ & H & _)]; destruct (decide (self ∈ acked)); try done.
      * destruct H as [->|[-> _]]; done.
      * by injection H as ->.
    + intros k' _ (todo' & E & Hk'). rewrite Ec in E. injection E as <-. apply elem_of_cons in Hk' as [->|Hk']; [right|left; eauto].
      apply push_root_spec in H as [(E & _ & _ & H)|(E & _ & b & -> & _ & Eb)]; rewrite Ew in *.
      * destruct (wk_acked k) as [Hin|?]; [|congruence]. rewrite E in *. rewrite decide_True in H by done.
        destruct (H (g_ms s self) eq_refl (im_epoch _ Hi _ Hin)) as (ms' & -> & ?). apply st_wait; [done|]. left. simpl.
        by rewrite fn_lookup_insert.
      * apply st_root. unfold has_expand. simpl. rewrite out_of_insert, decide_True by done. rewrite Eb. apply elem_of_snoc.
  - eapply inv_m_frame; try done. simpl. rewrite Ec. intros k _ (todo & [= <-] & []%elem_of_nil).
  - eapply inv_m_frame; try done. simpl. rewrite Ec. by intros k _ (todo & [=] & _).
  - eapply inv_m_frame; try done; simpl; [|auto]. intros j. destruct (decide (n = j)) as [->|Hne]; [|by rewrite fn_lookup_insert_ne].
    rewrite fn_lookup_insert. apply same_status.
Qed.

(** * Runs *)

Record inv (s : gstate) : Prop := { i_w : inv_w s; i_c : inv_c s; i_m : inv_m s }.

Lemma mark_inv_initial s : initial s → inv s.
Proof.
  intros (Hms & Hpc & Hco & Hcpc & Hnet & Hgot & Hdone & _).
  assert (∀ l f, (∀ n, f (g_ms s n) = 0) → sumN (λ n, f (g_ms s n)) l = 0) as Hsum.
  { intros l f Hf. induction l as [|n l IH]; [done|]. simpl. by rewrite Hf, IH. }
  split; split.
  - intros n _. rewrite Hpc. destruct (Hms n) as (c & b & sg & ->). by split.
  - by rewrite Hco.
  - rewrite Hco, Hcpc. simpl. intros id b. by rewrite lookup_empty.
  - rewrite Hco, Hnet. rewrite (Hsum acked ms_sent); [done|]. intros n. by destruct (Hms n) as (c & b & sg & ->).
  - rewrite Hgot. rewrite (Hsum acked ms_recv); [done|]. intros n. by destruct (Hms n) as (c & b & sg & ->).
  - by rewrite Hgot, Hnet.
  - rewrite Hgot. constructor.
  - rewrite Hnet. constructor.
  - rewrite Hgot. by intros n m ?%elem_of_nil.
  - rewrite Hnet. by intros n m ?%elem_of_nil.
  - intros n t _. destruct (Hms n) as (c & b & sg & ->). simpl. by rewrite lookup_empty.
  - rewrite Hco. intros t. simpl. by rewrite lookup_empty.
  - intros n _. by destruct (Hms n) as (c & b & sg & ->).
  - intros k Hk. left. by exists roots.
  - rewrite Hdone. by intros n k ?%elem_of_nil.
  - intros n k _. destruct (Hms n) as (c & b & sg & ->). simpl. set_solver.
  - intros n w k _. destruct (Hms n) as (c & b & sg & ->). simpl. rewrite lookup_empty. simpl. set_solver.
Qed.

Lemma net_grows s s' : gstep s s' → (length (g_net s) ≤ length (g_net s'))%nat.
Proof. intros []; simpl; try done; rewrite length_app; lia. Qed.

Lemma net_grows_rtc s s' : rtc gstep s s' → (length (g_net s) ≤ length (g_net s'))%nat.
Proof. induction 1 as [|s s1 s2 H _ IH]; [done|]. apply net_grows in H. lia. Qed.

Lemma mark_inv_step s s' : NoDup acked → self ≠ arr_zero 32 → gstep s s' → N.of_nat (length (g_net s')) < u64_max → inv s → inv s'.
Proof.
  intros Hnd Hz Hs Hb [Hw Hc Hm]. pose proof (inv_c_step _ _ Hnd Hw Hc Hs Hb) as Hc'. split; [by eapply inv_w_step|done|].
  eapply inv_m_step; try done. by apply adv_step.
Qed.

Lemma inv_rtc s s' : NoDup acked → self ≠ arr_zero 32 → rtc gstep s s' → N.of_nat (length (g_net s')) < u64_max → inv s → inv s'.
Proof.
  intros Hnd Hz. induction 1 as [|s s1 s2 H Hr IH]; [done|]. intros Hb Hi. apply IH; [done|]. eapply mark_inv_step; try done.
  apply net_grows_rtc in Hr. lia.
Qed.

(** * An idle worker *)

(** Nothing a worker knows of the mark changes, its counters included. *)
Record still (ms ms' : markState) : Prop := {
  sl_queue : ms_queue ms' = ms_queue ms;
  sl_out : ms_out ms' = ms_out ms;
  sl_busy : ms_busy ms' = ms_busy ms;
  sl_sent : ms_sent ms' = ms_sent ms;
  sl_recv : ms_recv ms' = ms_recv ms;
  sl_missing : ms_missing ms' = ms_missing ms;
}.

#[local] Instance still_preorder : PreOrder still.
Proof. split; [by intros ms; split|]. intros a b c [] []. split; congruence. Qed.

Lemma idle_spec ms : idle ms = true ↔ ms_queue ms = [] ∧ ms_busy ms = 0%Z ∧ ms_out ms = ∅.
Proof. unfold idle. rewrite !andb_true_iff, !bool_decide_eq_true, Z.eqb_eq. tauto. Qed.

Lemma still_idle ms ms' : still ms ms' → idle ms = true → idle ms' = true.
Proof. intros []. rewrite !idle_spec. intros (? & ? & ?). split_and!; congruence. Qed.

Lemma still_status ms persisted force : still ms (handleStatus ms persisted force).1.
Proof. unfold handleStatus. destruct (idle ms && ms_dirty ms), persisted, force; by split. Qed.

Lemma idle_work n a ms p ms' p' x : worker_ok ms p → idle ms = true → worker_step leaf ChildKeys n a ms p = (ms', p', x) → still ms ms'.
Proof.
  intros [_ _ _ Hb Hs] (Eq & Ebu & Eo)%idle_spec H. rewrite Ebu in Hb.
  destruct p as [|[|k rest]|k rest| |[|id ts]|id ts]; simpl in H; try done.
  - rewrite Eq in H. by injection H as <- <- <-.
  - by injection H as <- <- <-.
  - by injection H as <- <- <-.
  - unfold flush_take in H. rewrite Eo, lookup_empty in H. by injection H as <- <- <-.
  - destruct (Hs id ts eq_refl) as [b Hb']. by rewrite Eo, lookup_empty in Hb'.
Qed.

(** Counters and marks only grow. *)
Lemma recv_le s s' n : inv s → inv s' → gstep s s' → n ∈ acked → N.of_nat (length (g_net s')) < u64_max →
  ms_recv (g_ms s n) ≤ ms_recv (g_ms s' n) ∧
  (g_cpc s = CFlush PTop → idle (g_ms s n) = true → ms_recv (g_ms s' n) = ms_recv (g_ms s n) → still (g_ms s n) (g_ms s' n)).
Proof.
  intros [Hw Hc _] [_ Hc' _] Hs Hn Hb. destruct Hs as [j a ms p x Hj Ha H|j m ms r Hj Hm H|k todo mk co Ec H|Ec|a co q p x Ec Hq Ha H|j ps fo Hj]; simpl in *.
  - destruct (decide (j = n)) as [->|]; [|by rewrite fn_lookup_insert_ne]. rewrite fn_lookup_insert.
    pose proof (worker_step_sends _ _ _ _ _ _ _ H) as [-> _ _]. split; [done|]. intros _ Hi _. eapply idle_work; [|done..].
    by apply (iw_worker _ Hw).
  - destruct (decide (j = n)) as [->|]; [|by rewrite fn_lookup_insert_ne]. rewrite fn_lookup_insert.
    apply handleKeys_spec in H. destruct (accepts (g_ms s n) m); [|by subst]. destruct H as (keys & M & _ & -> & _). simpl.
    pose proof (ic_recv _ Hc) as Hr. pose proof (sumN_elem (λ j, ms_recv (g_ms s j)) acked n Hn) as Hle. simpl in Hle.
    assert (length ((n, m) :: g_got s) ≤ length (g_net s))%nat as Hlen by (apply submseteq_length, NoDup_submseteq; apply Hc').
    simpl in Hlen. rewrite u64_small by lia. split; [lia|]. intros _ _ ?. lia.
  - split; [|congruence]. destruct mk as [ms|]; [|done]. destruct (decide (n = self)) as [->|Hne]; [|by rewrite fn_lookup_insert_ne].
    rewrite fn_lookup_insert. rewrite decide_True in H by done.
    apply push_root_spec in H as [(_ & _ & [->|[-> _]] & _)|(_ & [= ->] & _)]; done.
  - done.
  - done.
  - destruct (decide (j = n)) as [->|]; [|by rewrite fn_lookup_insert_ne]. rewrite fn_lookup_insert.
    pose proof (still_status (g_ms s n) ps fo) as Hst. split; [by rewrite (sl_recv _ _ Hst)|done].
Qed.

Lemma co_done_step s s' : gstep s s' → g_cpc s = CFlush PTop → g_cpc s' = CFlush PTop ∧ g_co s' = g_co s.
Proof. intros []; simpl; try done; congruence. Qed.

Lemma co_done_rtc s s' : rtc gstep s s' → g_cpc s = CFlush PTop → g_cpc s' = CFlush PTop ∧ g_co s' = g_co s.
Proof.
  induction 1 as [|s s1 s2 H _ IH]; [done|]. intros Hc. destruct (co_done_step _ _ H Hc) as [Hc1 E]. destruct (IH Hc1) as [? ?].
  split; [done|congruence].
Qed.

Section run.
Context (Hnd : NoDup acked) (Hself : self ≠ arr_zero 32).

Lemma recv_le_rtc s s' n : rtc gstep s s' → inv s → n ∈ acked → N.of_nat (length (g_net s')) < u64_max →
  ms_recv (g_ms s n) ≤ ms_recv (g_ms s' n).
Proof.
  induction 1 as [|s s1 s2 H Hr IH]; [done|]. intros Hi Hn Hb. pose proof (net_grows_rtc _ _ Hr).
  assert (inv s1) as Hi1 by (eapply mark_inv_step; try done; lia).
  destruct (recv_le _ _ n Hi Hi1 H Hn) as [? _]; [lia|]. specialize (IH Hi1 Hn Hb). lia.
Qed.

(** An idle worker that is sent nothing new stays as it is. *)
Lemma still_rtc s s' n : rtc gstep s s' → inv s → n ∈ acked → N.of_nat (length (g_net s')) < u64_max → g_cpc s = CFlush PTop →
  idle (g_ms s n) = true → ms_recv (g_ms s' n) = ms_recv (g_ms s n) → still (g_ms s n) (g_ms s' n).
Proof.
  induction 1 as [|s s1 s2 H Hr IH]; [done|]. intros Hi Hn Hb Hc Hid He. pose proof (net_grows_rtc _ _ Hr).
  assert (inv s1) as Hi1 by (eapply mark_inv_step; try done; lia).
  destruct (recv_le _ _ n Hi Hi1 H Hn) as [Hle Hst]; [lia|]. pose proof (recv_le_rtc _ _ n Hr Hi1 Hn Hb) as Hle2.
  assert (still (g_ms s n) (g_ms s1 n)) as Hs1 by (apply Hst; [done|done|lia]). etrans; [exact Hs1|].
  apply IH; try done; [by apply (co_done_step _ _ H)|by eapply still_idle|lia].
Qed.

Lemma marked_ok_step s s' n k : gstep s s' → marked_ok (g_ms s n) k → marked_ok (g_ms s' n) k.
Proof.
  intros Hs Hk. destruct Hs as [j a ms p x Hj Ha H|j m ms r Hj Hm H|k' todo mk co Ec H|Ec|a co q p x Ec Hq Ha H|j ps fo Hj]; simpl; try done.
  - destruct (decide (j = n)) as [->|]; [|by rewrite fn_lookup_insert_ne]. rewrite fn_lookup_insert.
    by apply worker_step_keeps in H as [_ _ _ Hm _ _]; apply Hm.
  - destruct (decide (j = n)) as [->|]; [|by rewrite fn_lookup_insert_ne]. rewrite fn_lookup_insert.
    apply handleKeys_spec in H. destruct (accepts (g_ms s n) m); [|by subst]. destruct H as (keys & M & _ & -> & HM & _).
    unfold marked_ok in *. simpl. auto.
  - destruct mk as [ms|]; [|done]. destruct (decide (n = self)) as [->|Hne]; [|by rewrite fn_lookup_insert_ne].
    rewrite fn_lookup_insert. apply push_root_spec in H as [(_ & _ & H & _)|(_ & H & _)]; destruct (decide (self ∈ acked)); try done.
    + destruct H as [->|[-> _]]; done.
    + by injection H as ->.
  - destruct (decide (j = n)) as [->|]; [|by rewrite fn_lookup_insert_ne]. rewrite fn_lookup_insert.
    unfold handleStatus. by destruct (idle (g_ms s n) && ms_dirty (g_ms s n)), ps, fo.
Qed.

Lemma marked_ok_rtc s s' n k : rtc gstep s s' → marked_ok (g_ms s n) k → marked_ok (g_ms s' n) k.
Proof. induction 1; eauto using marked_ok_step. Qed.

Lemma eligible_step s s' n : gstep s s' → ms_eligible (g_ms s' n) = ms_eligible (g_ms s n).
Proof.
  intros Hs. destruct Hs as [j a ms p x Hj Ha H|j m ms r Hj Hm H|k' todo mk co Ec H|Ec|a co q p x Ec Hq Ha H|j ps fo Hj]; simpl; try done.
  - destruct (decide (j = n)) as [->|]; [|by rewrite fn_lookup_insert_ne]. rewrite fn_lookup_insert.
    destruct (g_pc s n) as [|[|k rest]|k rest| |[|id ts]|id ts]; simpl in H.
    + destruct (ms_queue (g_ms s n)); by injection H as <- <- <-.
    + by injection H as <- <- <-.
    + destruct (process_claim leaf n (g_ms s n) k) as [ms1 fetch] eqn:Ec. injection H as <- <- <-. apply process_claim_spec in Ec. apply Ec.
    + injection H as <- <- <-. unfold process_fetched. by destruct (an_data a ≫= ChildKeys k).
    + by injection H as <- <- <-.
    + by injection H as <- <- <-.
    + destruct (flush_take n id (g_ms s n)) as [ms1 [m|]] eqn:Ef; injection H as <- <- <-; by apply flush_take_spec in Ef as (O & S & Q & -> & _).
    + injection H as <- <- <-. by destruct (an_sent a).
  - destruct (decide (j = n)) as [->|]; [|by rewrite fn_lookup_insert_ne]. rewrite fn_lookup_insert.
    apply handleKeys_spec in H. destruct (accepts (g_ms s n) m); [|by subst]. by destruct H as (keys & M & _ & -> & _).
  - destruct mk as [ms|]; [|done]. destruct (decide (n = self)) as [->|Hne]; [|by rewrite fn_lookup_insert_ne].
    rewrite fn_lookup_insert. apply push_root_spec in H as [(_ & _ & H & _)|(_ & H & _)]; destruct (decide (self ∈ acked)); try done.
    + destruct H as [->|[-> _]]; done.
    + by injection H as ->.
  - destruct (decide (j = n)) as [->|]; [|by rewrite fn_lookup_insert_ne]. rewrite fn_lookup_insert.
    unfold handleStatus. by destruct (idle (g_ms s n) && ms_dirty (g_ms s n)), ps, fo.
Qed.

Lemma eligible_rtc s s' n : rtc gstep s s' → ms_eligible (g_ms s' n) = ms_eligible (g_ms s n).
Proof. induction 1 as [|s s1 s2 H _ IH]; [done|]. rewrite IH. by apply eligible_step. Qed.

(** * The end of the mark *)

(** No worker has anything to do and no request is on its way. *)
Record quiescent (s : gstate) : Prop := {
  qu_co : g_cpc s = CFlush PTop;
  qu_idle n : n ∈ acked → idle (g_ms s n) = true;
  qu_net : g_net s ⊆ g_got s;
}.

Lemma quiescent_settled s w k : inv s → quiescent s → settled s w k → (w, k) ∈ g_done s.
Proof.
  intros [Hw _ _] [Qc Qi Qn] [n Hn H|H|(m & ks & Hin & Hnot & _)|Hn H|H].
  - apply Qi, idle_spec in Hn as (_ & _ & E). unfold has_expand, out_of in H. rewrite E, lookup_empty in H. by apply elem_of_nil in H.
  - pose proof (iw_out _ Hw) as E. rewrite Qc in E. simpl in E. unfold has_expand, out_of in H.
    rewrite E, lookup_empty in H. by apply elem_of_nil in H.
  - destruct Hnot. by apply Qn.
  - pose proof (wo_busy _ _ (iw_worker _ Hw w Hn)) as Hb. apply Qi, idle_spec in Hn as (E & Eb & _). rewrite Eb in Hb.
    destruct H as [H|H]; [rewrite E in H; by apply elem_of_nil in H|]. destruct (g_pc s w); try done; by apply elem_of_nil in H.
  - done.
Qed.

Lemma quiescent_deliv s o k : inv s → quiescent s → deliv s o k → marked_ok (g_ms s o) k.
Proof.
  intros _ [Qc Qi Qn] [H|n Hn H|(m & ks & Hin & Hnot & _)].
  - done.
  - apply Qi, idle_spec in Hn as (_ & _ & E). unfold has_key, out_of in H. rewrite E, lookup_empty in H. by apply elem_of_nil in H.
  - destruct Hnot. by apply Qn.
Qed.

(** Everything reachable was processed somewhere. *)
Lemma quiescent_reach s k : inv s → quiescent s → (∀ n x, n ∈ acked → leaf x = false → x ∉ ms_missing (g_ms s n)) →
  reach k → ∃ n, (n, k) ∈ g_done s.
Proof.
  intros Hi Hq Hm. induction 1 as [k Hk|k kids c Hr [n Hd] Hl Hkids Hc].
  - exists (wk k). destruct (im_root _ (i_m _ Hi) k Hk) as [(todo & E & _)|?]; [|by apply quiescent_settled].
    by rewrite (qu_co _ Hq) in E.
  - assert (∃ n, n ∈ acked ∧ k ∈ ms_visited (g_ms s n)) as (j & Hj & Hv).
    { destruct (im_done _ (i_m _ Hi) n k Hd) as (Hn & _ & [?|[(_ & _ & Hs)|(_ & _ & Hv)]]); [congruence| |by exists n].
      apply quiescent_settled in Hs; [|done..]. exists (wk k).
      destruct (im_done _ (i_m _ Hi) _ k Hs) as (Hw & _ & [?|[(_ & ? & _)|(_ & _ & Hv)]]); [congruence|done|done]. }
    destruct (im_visited _ (i_m _ Hi) j k Hj Hv) as [_ [(rest & Ep)|[Hmi|(kids' & Ek & Hall)]]].
    + pose proof (wo_busy _ _ (iw_worker _ (i_w _ Hi) j Hj)) as Hb. rewrite Ep in Hb. simpl in Hb.
      apply (qu_idle _ Hq), idle_spec in Hj as (_ & Eb & _). congruence.
    + by apply Hm in Hmi.
    + rewrite Hkids in Ek. injection Ek as <-. exists j. apply quiescent_settled; [done..|]. auto.
Qed.

Lemma quiescent_marked s k o : inv s → quiescent s → (∀ n x, n ∈ acked → leaf x = false → x ∉ ms_missing (g_ms s n)) →
  reach k → o ∈ WriteSet pl k → o ∈ acked → marked_ok (g_ms s o) k.
Proof.
  intros Hi Hq Hm Hr Ho Hoa. destruct (quiescent_reach s k Hi Hq Hm Hr) as [n Hd].
  destruct (im_done _ (i_m _ Hi) n k Hd) as (_ & H & _). apply quiescent_deliv; auto.
Qed.

(** * Polling

    A round asks every worker in turn while the workers run; the coordinator has
    sent its own batches before. *)
Definition status_step (s : gstate) (n : NodeID) (persisted : bool) : gstate :=
  MkG (<[n := (handleStatus (g_ms s n) persisted false).1]> (g_ms s)) (g_pc s) (g_co s) (g_cpc s) (g_net s) (g_got s) (g_done s)
    (write_mark n persisted (g_ms s n) (g_file s)).

Inductive polls : gstate → list NodeID → list statusReply → gstate → Prop :=
  | polls_nil s s' : rtc gstep s s' → polls s [] [] s'
  | polls_cons s s1 n persisted ns rs s' : rtc gstep s s1 → polls (status_step s1 n persisted) ns rs s' →
      polls s (n :: ns) ((handleStatus (g_ms s1 n) persisted false).2 :: rs) s'.

Inductive rounds : gstate → list round → gstate → Prop :=
  | rounds_nil s s' : rtc gstep s s' → rounds s [] s'
  | rounds_cons s s1 rs l s' : polls s acked rs s1 → rounds s1 l s' →
      rounds s (poll_round (ms_sent (g_co s)) rs :: l) s'.

(** When each worker answered in a round, and what. *)
Lemma polls_times s ns rs s' : polls s ns rs s' → NoDup ns → ns ⊆ acked → rtc gstep s s' ∧ ∃ F : NodeID → gstate * bool,
  rs = (λ n, (handleStatus (g_ms (F n).1 n) (F n).2 false).2) <$> ns ∧
  ∀ n, n ∈ ns → rtc gstep s (F n).1 ∧ rtc gstep (status_step (F n).1 n (F n).2) s'.
Proof.
  induction 1 as [s s' Hr|s s1 n ps ns rs s' Hr Hp IH]; intros Hn Hsub.
  { split; [done|]. exists (λ _, (s, true)). split; [done|]. by intros n ?%elem_of_nil. }
  apply NoDup_cons in Hn as [Hnew Hn]. destruct IH as (Hr' & F & -> & HF); [done|set_solver|].
  assert (gstep s1 (status_step s1 n ps)) as Hstep by (apply g_status; set_solver).
  assert (rtc gstep s (status_step s1 n ps)) as Hs by (etrans; [exact Hr|by apply rtc_once]).
  split; [by etrans|]. exists (λ j, if decide (j = n) then (s1, ps) else F j). split.
  - simpl. rewrite decide_True by done. f_equal. apply list_fmap_ext. intros i j Hj. rewrite decide_False; [done|].
    intros ->. by apply Hnew, list_elem_of_lookup_2 with i.
  - intros j Hj. case_decide as E; [subst; by split|].
    apply elem_of_cons in Hj as [->|Hj]; [done|]. destruct (HF j Hj). split; [by etrans|done].
Qed.

Lemma rounds_rtc s l s' : rounds s l s' → rtc gstep s s'.
Proof. induction 1 as [|s s1 rs l s' Hp _ IH]; [done|]. apply polls_times in Hp as [? _]; [by etrans|done..]. Qed.

Lemma rounds_app s l1 l2 s' : rounds s (l1 ++ l2) s' → ∃ s1, rtc gstep s s1 ∧ rounds s1 l2 s'.
Proof.
  revert s. induction l1 as [|r l1 IH]; intros s; simpl; [by exists s|]. inversion_clear 1 as [|? s1 rs ? ? Hp Hrest].
  apply IH in Hrest as (s2 & ? & ?). exists s2. split; [|done]. apply polls_times in Hp as [? _]; [by etrans|done..].
Qed.

(** The sums of a round. *)
Lemma u64_add_l a b : u64 (u64 a + b) = u64 (a + b).
Proof. unfold u64. by rewrite N.Div0.add_mod_idemp_l. Qed.

Lemma poll_round_spec (f : NodeID → statusReply) ns c r0 m0 i0 : c < u64_max → r0 < u64_max →
  let r := fold_left (λ r s, MkRound (u64 (rd_sent r + sr_Sent s)) (u64 (rd_recv r + sr_Received s)) (rd_idle r && sr_Idle s)
                      (rd_missing r ++ sr_Missing s)) (f <$> ns) (MkRound c r0 i0 m0) in
  rd_sent r = u64 (c + sumN (λ n, sr_Sent (f n)) ns) ∧ rd_recv r = u64 (r0 + sumN (λ n, sr_Received (f n)) ns) ∧
  (rd_idle r = true → i0 = true ∧ ∀ n, n ∈ ns → sr_Idle (f n) = true) ∧
  (m0 ⊆ rd_missing r ∧ ∀ n, n ∈ ns → sr_Missing (f n) ⊆ rd_missing r).
Proof.
  revert c r0 m0 i0. induction ns as [|n ns IH]; intros c r0 m0 i0 Hc Hr.
  { cbn. rewrite !N.add_0_r, !u64_small by done. split_and!; try done.
    - intros ->. split; [done|]. by intros n ?%elem_of_nil.
    - by intros n ?%elem_of_nil. }
  destruct (IH (u64 (c + sr_Sent (f n))) (u64 (r0 + sr_Received (f n))) (m0 ++ sr_Missing (f n)) (i0 && sr_Idle (f n)))
    as (E1 & E2 & E3 & E4 & E5); [apply u64_lt..|].
  cbn. fold (f <$> ns). rewrite E1, E2, !u64_add_l, <- !N.add_assoc. split_and!; try done.
  - intros H. apply E3 in H as [[-> Hf]%andb_prop Hall]. split; [done|]. intros j [->|Hj]%elem_of_cons; [done|auto].
  - etrans; [|exact E4]. apply list_subseteq_app_l. done.
  - intros j [->|Hj]%elem_of_cons; [|auto]. etrans; [|exact E4]. by apply list_subseteq_app_r.
Qed.

(** The loop ends on two idle rounds with the same, balanced sums. *)
Definition balanced (ra r : round) : Prop :=
  rd_idle ra = true ∧ rd_idle r = true ∧ rd_sent ra = rd_recv ra ∧ rd_sent r = rd_sent ra ∧ rd_recv r = rd_recv ra.

Lemma poll_loop_two st last rs r : (st ≤ 1)%nat → poll_loop st last rs = Some r →
  (st = 1%nat ∧ (∃ rs', rs = r :: rs') ∧ (rd_sent r, rd_recv r) = last ∧ rd_idle r = true) ∨
  ∃ rs1 ra rs2, rs = rs1 ++ ra :: r :: rs2 ∧ balanced ra r.
Proof.
  revert st last. induction rs as [|x rs IH]; intros st last Hst; simpl; [done|].
  destruct (poll_stable st last x) as [|st'] eqn:Es; simpl.
  - intros H. apply IH in H as [(? & _)|(rs1 & ra & rs2 & -> & ?)]; [done|right|lia]. by exists (x :: rs1), ra, rs2.
  - unfold poll_stable in Es. destruct (rd_idle x && (rd_sent x =? rd_recv x) && bool_decide ((rd_sent x, rd_recv x) = last)) eqn:Eb; [|done].
    apply andb_prop in Eb as [[Hi Hs%N.eqb_eq]%andb_prop Hl%bool_decide_eq_true]. injection Es as <-. destruct st as [|[|]]; simpl; [|..|lia].
    + intros H. apply IH in H as [(_ & (rs' & ->) & El & Hi2)|(rs1 & ra & rs2 & -> & ?)]; [right|right|lia].
      * exists [], x, rs'. injection El as ? ?. done.
      * by exists (x :: rs1), ra, rs2.
    + intros [= ->]. left. eauto.
Qed.

Lemma status_idle ms persisted : sr_Idle (handleStatus ms persisted false).2 = true → idle ms = true.
Proof. unfold handleStatus. destruct (idle ms), (ms_dirty ms), persisted; done. Qed.

Lemma status_counts ms persisted : let r := (handleStatus ms persisted false).2 in
  sr_Sent r = ms_sent ms ∧ sr_Received r = ms_recv ms ∧ sr_Missing r = RawKeys (ms_missing ms).
Proof. unfold handleStatus. by destruct (idle ms), (ms_dirty ms), persisted. Qed.

(** A round of the polling, in terms of the moments the workers answered. *)
Lemma round_spec s rs s' : polls s acked rs s' → inv s → ms_sent (g_co s) < u64_max → ∃ F : NodeID → gstate,
  let r := poll_round (ms_sent (g_co s)) rs in
  (∀ n, n ∈ acked → rtc gstep s (F n) ∧ rtc gstep (F n) s') ∧
  rd_sent r = u64 (ms_sent (g_co s) + sumN (λ n, ms_sent (g_ms (F n) n)) acked) ∧
  rd_recv r = u64 (sumN (λ n, ms_recv (g_ms (F n) n)) acked) ∧
  (rd_idle r = true → ∀ n, n ∈ acked → idle (g_ms (F n) n) = true) ∧
  (∀ n, n ∈ acked → RawKeys (ms_missing (g_ms (F n) n)) ⊆ rd_missing r) ∧
  (rd_idle r = true → ∀ n, n ∈ acked → ∃ p, sr_Idle (handleStatus (g_ms (F n) n) p false).2 = true ∧ rtc gstep (status_step (F n) n p) s').
Proof.
  intros Hp _ Hc. apply polls_times in Hp as (_ & F & -> & HF); [|done..]. exists (λ n, (F n).1).
  destruct (poll_round_spec (λ n, (handleStatus (g_ms (F n).1 n) (F n).2 false).2) acked (ms_sent (g_co s)) 0 [] true)
    as (E1 & E2 & E3 & _ & E5); [done|done|]. unfold poll_round. split; [|split; [|split; [|split; [|split]]]].
  - intros n Hn. destruct (HF n Hn) as [? Ht]. split; [done|]. eapply rtc_l; [|exact Ht]. by apply g_status.
  - rewrite E1. do 2 f_equal. apply sumN_ext. intros n _. apply status_counts.
  - rewrite E2. f_equal. rewrite N.add_0_l. apply sumN_ext. intros n _. apply status_counts.
  - intros Hi n Hn. apply E3 in Hi as [_ Hi]. by eapply status_idle, Hi.
  - intros n Hn. destruct (status_counts (g_ms (F n).1 n) (F n).2) as (_ & _ & <-). by apply E5.
  - intros Hi n Hn. apply E3 in Hi as [_ Hi]. exists (F n).2. split; [by apply Hi|by apply HF].
Qed.

Lemma sumN_recv_lt s : inv s → N.of_nat (length (g_net s)) < u64_max → sumN (λ n, ms_recv (g_ms s n)) acked < u64_max.
Proof.
  intros [_ Hc _] Hb. rewrite (ic_recv _ Hc). assert (length (g_got s) ≤ length (g_net s))%nat; [|lia].
  apply submseteq_length, NoDup_submseteq; apply Hc.
Qed.

(** A worker was asked once more and had its mark on disk. *)
Definition written (s : gstate) (n : NodeID) (s' : gstate) : Prop :=
  ∃ sf p, rtc gstep s sf ∧ sr_Idle (handleStatus (g_ms sf n) p false).2 = true ∧ rtc gstep (status_step sf n p) s'.

(** Between two rounds with the same sums no worker that was idle in the first
    changed. *)
Lemma two_rounds sa rsa sb rsb sc : inv sa → g_cpc sa = CFlush PTop → polls sa acked rsa sb → polls sb acked rsb sc →
  N.of_nat (length (g_net sc)) < u64_max →
  let ra := poll_round (ms_sent (g_co sa)) rsa in let rb := poll_round (ms_sent (g_co sb)) rsb in
  rd_idle ra = true → rd_idle rb = true → rd_recv rb = rd_recv ra → ∃ Fa : NodeID → gstate,
  (∀ n, n ∈ acked → still (g_ms (Fa n) n) (g_ms sb n) ∧ idle (g_ms sb n) = true) ∧
  rd_sent ra = u64 (ms_sent (g_co sa) + sumN (λ n, ms_sent (g_ms (Fa n) n)) acked) ∧
  rd_recv ra = u64 (sumN (λ n, ms_recv (g_ms (Fa n) n)) acked) ∧
  (∀ n, n ∈ acked → RawKeys (ms_missing (g_ms sb n)) ⊆ rd_missing rb) ∧ (∀ n, n ∈ acked → written sb n sc).
Proof.
  intros Hia Hca Hpa Hpb Hb ra rb Hid Hidb Er.
  destruct (polls_times _ _ _ _ Hpa Hnd) as [Hab _]; [done|]. destruct (polls_times _ _ _ _ Hpb Hnd) as [Hbc _]; [done|].
  pose proof (net_grows_rtc _ _ Hab). pose proof (net_grows_rtc _ _ Hbc).
  assert (inv sb) as Hib by (eapply inv_rtc; [| |exact Hab|..]; try done; lia).
  assert (inv sc) as Hic by (eapply inv_rtc; [| |exact Hbc|..]; done).
  destruct (co_done_rtc _ _ Hab Hca) as [Hcb Ecb].
  assert (ms_sent (g_co sa) < u64_max) as Hsent by (pose proof (ic_sent _ (i_c _ Hia)); lia).
  destruct (round_spec _ _ _ Hpa Hia Hsent) as (Fa & HFa & Esa & Era & Hidle & _ & _).
  destruct (round_spec _ _ _ Hpb Hib) as (Fb & HFb & _ & Erb & _ & Hmiss & Hwr); [congruence|].
  fold ra in Esa, Era, Hidle. fold rb in Erb, Hmiss, Hwr. clearbody ra rb.
  assert (∀ n, n ∈ acked → inv (Fa n) ∧ inv (Fb n) ∧ N.of_nat (length (g_net (Fb n))) < u64_max ∧ g_cpc (Fa n) = CFlush PTop) as HF.
  { intros n Hn. destruct (HFa n Hn) as [Ha1 Ha2], (HFb n Hn) as [Hb1 Hb2].
    pose proof (net_grows_rtc _ _ Ha2). pose proof (net_grows_rtc _ _ Hb2).
    split_and!; [eapply inv_rtc; [| |exact Ha1|..]|eapply inv_rtc; [| |exact Hb1|..]|lia|by apply (co_done_rtc _ _ Ha1)]; try done; lia. }
  assert (∀ n, n ∈ acked → ms_recv (g_ms (Fa n) n) ≤ ms_recv (g_ms sb n) ∧ ms_recv (g_ms sb n) ≤ ms_recv (g_ms (Fb n) n) ∧
    ms_recv (g_ms (Fb n) n) ≤ ms_recv (g_ms sc n)) as Hle.
  { intros n Hn. destruct (HF n Hn) as (? & ? & ? & _), (HFa n Hn), (HFb n Hn).
    split_and!; eapply recv_le_rtc; try done; lia. }
  assert (sumN (λ n, ms_recv (g_ms (Fa n) n)) acked ≤ sumN (λ n, ms_recv (g_ms (Fb n) n)) acked) as Hsab
    by (apply sumN_le; intros n Hn; pose proof (Hle n Hn); lia).
  assert (sumN (λ n, ms_recv (g_ms (Fb n) n)) acked ≤ sumN (λ n, ms_recv (g_ms sc n)) acked) as Hsbc
    by (apply sumN_le; intros n Hn; by apply Hle).
  pose proof (sumN_recv_lt sc Hic Hb) as Hlt. pose proof Era as Era'. rewrite u64_small in Erb by lia. rewrite u64_small in Era' by lia.
  assert (∀ n, n ∈ acked → ms_recv (g_ms sb n) = ms_recv (g_ms (Fa n) n) ∧ ms_recv (g_ms (Fb n) n) = ms_recv (g_ms sb n)) as Heq.
  { intros n Hn. pose proof (Hle n Hn). enough (ms_recv (g_ms (Fa n) n) = ms_recv (g_ms (Fb n) n)) by lia.
    apply (sumN_squeeze (λ n, ms_recv (g_ms (Fa n) n)) (λ n, ms_recv (g_ms (Fb n) n)) acked); [|lia|done].
    intros j Hj. pose proof (Hle j Hj). lia. }
  assert (∀ n, n ∈ acked → still (g_ms (Fa n) n) (g_ms sb n) ∧ idle (g_ms sb n) = true) as Hst.
  { intros n Hn. destruct (HF n Hn) as (? & ? & ? & ?), (HFa n Hn). assert (still (g_ms (Fa n) n) (g_ms sb n)) as Hs.
    { eapply still_rtc; try done; [lia|by apply Hidle|by apply Heq]. }
    split; [done|]. eapply still_idle; [exact Hs|by apply Hidle]. }
  exists Fa. split; [done|]. split; [done|]. split; [done|].
  split; [|intros n Hn; destruct (Hwr Hidb n Hn) as (p & ? & ?); exists (Fb n), p; by split_and!; [apply HFb|..]].
  intros n Hn. destruct (HF n Hn) as (? & ? & ? & ?), (HFb n Hn).
  assert (still (g_ms sb n) (g_ms (Fb n) n)) as Hs by (eapply still_rtc; try done; [by apply Hst|by apply Heq]).
  rewrite <- (sl_missing _ _ Hs). by apply Hmiss.
Qed.

Lemma balanced_quiescent s (Fa : NodeID → gstate) : inv s → g_cpc s = CFlush PTop → N.of_nat (length (g_net s)) < u64_max →
  (∀ n, n ∈ acked → still (g_ms (Fa n) n) (g_ms s n) ∧ idle (g_ms s n) = true) →
  u64 (ms_sent (g_co s) + sumN (λ n, ms_sent (g_ms (Fa n) n)) acked) = u64 (sumN (λ n, ms_recv (g_ms (Fa n) n)) acked) → quiescent s.
Proof.
  intros Hi Hc Hb Hst E. split; [done|intros n Hn; by apply Hst|].
  pose proof (ic_sent _ (i_c _ Hi)) as Hs1. pose proof (ic_recv _ (i_c _ Hi)) as Hs2. pose proof (sumN_recv_lt s Hi Hb).
  rewrite (sumN_ext (λ n, ms_sent (g_ms (Fa n) n)) (λ n, ms_sent (g_ms s n))) in E by (intros n Hn; symmetry; apply Hst; done).
  rewrite (sumN_ext (λ n, ms_recv (g_ms (Fa n) n)) (λ n, ms_recv (g_ms s n))) in E by (intros n Hn; symmetry; apply Hst; done).
  rewrite !u64_small in E by lia. intros x Hx.
  destruct (submseteq_Permutation (g_got s) (g_net s)) as [l' El]; [apply NoDup_submseteq; apply Hi|].
  pose proof (Permutation_length El) as Hpl. rewrite length_app in Hpl. destruct l'; [|simpl in Hpl; lia].
  rewrite app_nil_r in El. by rewrite <- El.
Qed.

Lemma rounds_quiescent s l s' r : inv s → g_cpc s = CFlush PTop → rounds s l s' → N.of_nat (length (g_net s')) < u64_max →
  poll_loop 0 (0, 0) l = Some r →
  ∃ sq, rtc gstep s sq ∧ rtc gstep sq s' ∧ inv sq ∧ quiescent sq ∧
    ∀ n, n ∈ acked → RawKeys (ms_missing (g_ms sq n)) ⊆ rd_missing r ∧ written sq n s'.
Proof.
  intros Hi Hc Hr Hb Hl. apply poll_loop_two in Hl as [(? & _)|(rs1 & ra & rs2 & -> & Hid & Hidb & Hbal & Es & Er)]; [done| |lia].
  apply rounds_app in Hr as (sa & Hsa & Hr). inversion Hr as [|? sb rsa ? ? Hpa Hr1 Ea]; subst; clear Hr.
  inversion Hr1 as [|? sc rsb ? ? Hpb Hr2 Eb]; subst; clear Hr1. apply rounds_rtc in Hr2.
  destruct (polls_times _ _ _ _ Hpa Hnd) as [Hab _]; [done|]. destruct (polls_times _ _ _ _ Hpb Hnd) as [Hbc _]; [done|].
  pose proof (net_grows_rtc _ _ Hsa). pose proof (net_grows_rtc _ _ Hab). pose proof (net_grows_rtc _ _ Hbc). pose proof (net_grows_rtc _ _ Hr2).
  assert (inv sa) as Hia by (eapply inv_rtc; [| |exact Hsa|..]; try done; lia).
  assert (inv sb) as Hib by (eapply inv_rtc; [| |exact Hab|..]; try done; lia).
  destruct (co_done_rtc _ _ Hsa Hc) as [Hca _]. destruct (co_done_rtc _ _ Hab Hca) as [Hcb Ecb].
  destruct (two_rounds _ _ _ _ _ Hia Hca Hpa Hpb) as (Fa & Hst & E1 & E2 & Hm & Hwr); [lia|done..|].
  exists sb. split; [by etrans|]. split; [by etrans|]. split; [done|].
  split; [|intros n Hn; split; [by apply Hm|]; destruct (Hwr n Hn) as (sf & p & ? & ? & ?); exists sf, p; by split_and!; [..|etrans]].
  apply (balanced_quiescent sb Fa); try done; [lia|]. congruence.
Qed.

(** The termination test is sound: whatever the interleaving, the delays, the
    repeated and lost requests, once the polling loop has seen two idle rounds
    with the same, balanced counts there was a moment during the polling at which
    no worker had a key queued, in hand or to send and every request sent had been
    received.  The counters are 64 bits wide: fewer than 2^64 requests are sent. *)
Theorem mark_ends_quiescent s0 s1 l s2 r : initial s0 → rtc gstep s0 s1 → g_cpc s1 = CFlush PTop → rounds s1 l s2 →
  N.of_nat (length (g_net s2)) < u64_max → poll_loop 0 (0, 0) l = Some r →
  ∃ sq, rtc gstep s1 sq ∧ rtc gstep sq s2 ∧ g_net sq ⊆ g_got sq ∧ ms_out (g_co sq) = ∅ ∧
    ∀ n, n ∈ acked → ms_queue (g_ms sq n) = [] ∧ ms_out (g_ms sq n) = ∅ ∧ in_batch (g_pc sq n) = false.
Proof.
  intros H0 H1 Hc Hr Hb Hl. pose proof (rounds_rtc _ _ _ Hr) as H2. pose proof (net_grows_rtc _ _ H2).
  assert (inv s1) as Hi by (eapply inv_rtc; [done..|lia|by apply mark_inv_initial]).
  destruct (rounds_quiescent _ _ _ _ Hi Hc Hr Hb Hl) as (sq & ? & ? & [Hw _ _] & [Qc Qi Qn] & _). exists sq. split_and!; try done.
  - pose proof (iw_out _ Hw) as E. by rewrite Qc in E.
  - intros n Hn. pose proof (wo_busy _ _ (iw_worker _ Hw n Hn)) as Hbu. apply Qi, idle_spec in Hn as (? & Eb & ?).
    split_and!; try done. rewrite Eb in Hbu. by destruct (in_batch (g_pc sq n)).
Qed.

(** A mark that ended: the roots were handed out, the polling loop left with a
    round whose missing objects do not stop the epoch. *)
Definition finished (s2 : gstate) : Prop := ∃ s0 s1 l r tolerate missing,
  initial s0 ∧ rtc gstep s0 s1 ∧ g_cpc s1 = CFlush PTop ∧ rounds s1 l s2 ∧
  N.of_nat (length (g_net s2)) < u64_max ∧ poll_loop 0 (0, 0) l = Some r ∧
  Keys32 (rd_missing r) = Some missing ∧ missing_stops leaf tolerate missing = false.

Lemma mark_done s2 k o : finished s2 →   reach k → o ∈ acked → o ∈ WriteSet pl k →
  ∃ s0 sq, initial s0 ∧ rtc gstep s0 sq ∧ rtc gstep sq s2 ∧ marked_ok (g_ms sq o) k ∧ written sq o s2 ∧ N.of_nat (length (g_net s2)) < u64_max.
Proof.
  intros (s0 & s1 & l & r & tolerate & missing & H0 & H1 & Hc & Hr & Hb & Hl & Hk & Hm) Hreach Ho Hw. pose proof (rounds_rtc _ _ _ Hr) as H2. pose proof (net_grows_rtc _ _ H2).
  assert (inv s1) as Hi by (eapply inv_rtc; [done..|lia|by apply mark_inv_initial]).
  destruct (rounds_quiescent _ _ _ _ Hi Hc Hr Hb Hl) as (sq & Hq1 & Hq2 & Hiq & Hq & Hmiss).
  exists s0, sq. split; [done|]. split; [by etrans|]. split; [done|]. split; [|split; [by apply Hmiss|done]]. apply quiescent_marked; try done. intros n x Hn Hx Hin.
  apply Keys32_Some in Hk. destruct (Hmiss n Hn) as [Hms _]. rewrite <- Hk in Hms.
  assert (arr_bytes x ∈ RawKeys missing) as Hx' by (apply Hms; unfold RawKeys; apply list_elem_of_fmap; eauto).
  apply list_elem_of_fmap in Hx' as (y & Ey%arr_eq & Hy). subst y. unfold missing_stops in Hm.
  rewrite bool_decide_eq_true_2 in Hm by (by intros ->; apply elem_of_nil in Hy). simpl in Hm.
  apply orb_false_iff in Hm as [_ Hm]. apply not_true_iff_false in Hm. apply Hm, existsb_exists. exists x.
  split; [by apply list_elem_of_In|]. by rewrite Hx.
Qed.

(** * The marks on disk *)

(** A clean mark is the one on disk; a worker with something to do is dirty. *)
Record file_ok (s : gstate) (n : NodeID) : Prop := {
  fo_sub F : g_file s n = Some F → F ⊆ ms_marked (g_ms s n);
  fo_clean : ms_dirty (g_ms s n) = false → (∃ F, g_file s n = Some F ∧ ms_marked (g_ms s n) ⊆ F) ∨ ms_marked (g_ms s n) = ∅;
  fo_dirty : ms_queue (g_ms s n) ≠ [] ∨ in_batch (g_pc s n) = true → ms_dirty (g_ms s n) = true;
}.

Lemma worker_step_dirty n a ms p ms' p' x : worker_step leaf ChildKeys n a ms p = (ms', p', x) →
  ms_dirty ms' = ms_dirty ms ∧ ms_marked ms ⊆ ms_marked ms' ∧ (in_batch p = false → ms_marked ms' = ms_marked ms) ∧
  (ms_queue ms' ≠ [] ∨ in_batch p' = true → ms_queue ms ≠ [] ∨ in_batch p = true).
Proof.
  intros H. destruct p as [|[|k rest]|k rest| |[|id ts]|id ts]; simpl in H.
  - destruct (ms_queue ms) as [|k0 q] eqn:Eq; injection H as <- <- <-; split_and!; try done; simpl; [rewrite Eq; by intros [|]|by left].
  - injection H as <- <- <-. split_and!; try done. simpl. by right.
  - destruct (process_claim leaf n ms k) as [ms1 fetch] eqn:Ec. injection H as <- <- <-.
    assert (ms_dirty ms1 = ms_dirty ms) as Ed.
    { revert Ec. unfold process_claim, deliver. destruct (deliver_spec n ms k (WriteSet (ms_placement ms) k)) as (M & O & -> & _).
      destruct (leaf k); [by intros [= <- <-]|]. repeat case_decide; by intros [= <- <-]. }
    apply process_claim_spec in Ec. destruct Ec as [[_ _ _ _ Hm] _ _ _ _]. split_and!; try done. by right.
  - injection H as <- <- <-. unfold process_fetched. destruct (an_data a ≫= ChildKeys k); split_and!; try done; try by right.
  - injection H as <- <- <-. by split_and!.
  - injection H as <- <- <-. by split_and!.
  - destruct (flush_take n id ms) as [ms1 [m|]] eqn:Ef; injection H as <- <- <-; apply flush_take_spec in Ef as (O & S & Q & -> & _);
      by split_and!.
  - injection H as <- <- <-. destruct (an_sent a); by split_and!.
Qed.

Lemma file_ok_same s s' n : file_ok s n → g_ms s' n = g_ms s n → g_pc s' n = g_pc s n → g_file s' n = g_file s n → file_ok s' n.
Proof. intros [H1 H2 H3] E1 E2 E3. split; rewrite ?E1, ?E2, ?E3; done. Qed.

Lemma file_ok_status s n ps fo : worker_ok (g_ms s n) (g_pc s n) → file_ok s n →
  file_ok (MkG (<[n := (handleStatus (g_ms s n) ps fo).1]> (g_ms s)) (g_pc s) (g_co s) (g_cpc s) (g_net s) (g_got s) (g_done s)
             (write_mark n ps (g_ms s n) (g_file s))) n.
Proof.
  intros Hw Hf. destruct (idle (g_ms s n) && ms_dirty (g_ms s n) && ps) eqn:E.
  - apply andb_prop in E as [[Ei Ed]%andb_prop ->]. pose proof (wo_busy _ _ Hw) as Hb. pose proof Ei as (Eq & Eb & _)%idle_spec. rewrite Eb in Hb.
    unfold write_mark, handleStatus. rewrite Ei, Ed. simpl. destruct Hf as [F1 F2 F3].
    split; simpl; rewrite !fn_lookup_insert; destruct fo; simpl; try (intros F [= <-]; done); try (intros _; left; by eexists);
      rewrite Eq; (intros [?|Hin]; [done|rewrite Hin in Hb; done]).
  - unfold write_mark. rewrite E. destruct Hf as [F1 F2 F3].
    assert (∃ b, (handleStatus (g_ms s n) ps fo).1 = g_ms s n <| ms_frozen := b |>) as [b Eb].
    { unfold handleStatus. destruct (idle (g_ms s n)), (ms_dirty (g_ms s n)), ps; try done; destruct fo;
        (by exists true) || (exists (ms_frozen (g_ms s n)); by destruct (g_ms s n)). }
    split; simpl; rewrite !fn_lookup_insert, Eb; done.
Qed.

Lemma file_ok_step s s' n : gstep s s' → worker_ok (g_ms s n) (g_pc s n) → file_ok s n → file_ok s' n.
Proof.
  intros Hs Hw Hf. destruct Hs as [j a ms p x Hj Ha H|j m ms r Hj Hm H|k' todo mk co Ec H|Ec|a co q p x Ec Hq Ha H|j ps fo Hj].
  - destruct (decide (j = n)) as [->|Hne]; [|by eapply file_ok_same; [exact Hf|simpl; by rewrite ?fn_lookup_insert_ne..]].
    apply worker_step_dirty in H as (Ed & Hm & Hm' & Hq). destruct Hf as [F1 F2 F3]. split; simpl; rewrite !fn_lookup_insert, ?Ed.
    + intros F EF. etrans; [by apply F1|done].
    + intros E. destruct (in_batch (g_pc s n)) eqn:Eb; [rewrite F3 in E by (by right); done|]. rewrite Hm' by done. auto.
    + auto.
  - destruct (decide (j = n)) as [->|Hne]; [|by eapply file_ok_same; [exact Hf|simpl; by rewrite ?fn_lookup_insert_ne..]].
    apply handleKeys_spec in H. destruct (accepts (g_ms s n) m).
    + destruct H as (keys & M & _ & -> & HM & _). destruct Hf as [F1 F2 F3]. split; simpl; rewrite fn_lookup_insert; try done.
      intros F EF. etrans; [by apply F1|done].
    + subst ms. eapply file_ok_same; [exact Hf|simpl; by rewrite ?fn_lookup_insert..].
  - destruct mk as [ms|]; [|by eapply file_ok_same]. destruct (decide (n = self)) as [->|Hne];
      [|by eapply file_ok_same; [exact Hf|simpl; by rewrite ?fn_lookup_insert_ne..]].
    assert (ms = g_ms s self ∨ ms = g_ms s self <| ms_queue := ms_queue (g_ms s self) ++ [k'] |> <| ms_dirty := true |>) as Hms.
    { apply push_root_spec in H as [(_ & _ & H & _)|(_ & H & _)]; destruct (decide (self ∈ acked)); try done; [|left; congruence].
      destruct H as [->|[-> _]]; auto. }
    destruct Hms as [-> | ->]; [by eapply file_ok_same; [exact Hf|simpl; by rewrite ?fn_lookup_insert..]|].
    destruct Hf as [F1 F2 F3]. by split; simpl; rewrite fn_lookup_insert.
  - by eapply file_ok_same.
  - by eapply file_ok_same.
  - destruct (decide (j = n)) as [->|Hne].
    2: { eapply file_ok_same; [exact Hf|simpl; by rewrite ?fn_lookup_insert_ne..|done|]. simpl. unfold write_mark.
         destruct (idle _ && _ && _); [by rewrite fn_lookup_insert_ne|done]. }
    by apply file_ok_status.
Qed.

Lemma file_grows s s' n F : gstep s s' → file_ok s n → g_file s n = Some F → ∃ F', g_file s' n = Some F' ∧ F ⊆ F'.
Proof.
  intros Hs [F1 _ _] EF. destruct Hs as [| | | | |j ps fo Hj]; simpl; try by exists F. unfold write_mark.
  destruct (idle _ && _ && _); [|by exists F]. destruct (decide (j = n)) as [->|]; [|rewrite fn_lookup_insert_ne by done; by exists F].
  rewrite fn_lookup_insert. eexists. split; [done|]. by apply F1.
Qed.

Lemma file_rtc s s' n F : rtc gstep s s' → inv s → n ∈ acked → N.of_nat (length (g_net s')) < u64_max → file_ok s n →
  g_file s n = Some F → ∃ F', g_file s' n = Some F' ∧ F ⊆ F'.
Proof.
  intros Hr. revert F. induction Hr as [|s s1 s2 Hs Hr IH]; intros F Hi Hn Hb Hf EF; [by exists F|]. pose proof (net_grows_rtc _ _ Hr).
  destruct (file_grows _ _ n F Hs Hf EF) as (F1 & EF1 & Hsub). destruct (IH F1) as (F2 & ? & ?); try done; [eapply mark_inv_step; try done; lia| |].
  - eapply file_ok_step; [done| |done]. by apply (iw_worker _ (i_w _ Hi)).
  - exists F2. split; [done|]. by etrans.
Qed.

Lemma file_ok_rtc s s' n : rtc gstep s s' → inv s → n ∈ acked → N.of_nat (length (g_net s')) < u64_max → file_ok s n → file_ok s' n.
Proof.
  induction 1 as [|s s1 s2 Hs Hr IH]; [done|]. intros Hi Hn Hb Hf. pose proof (net_grows_rtc _ _ Hr).
  apply IH; try done; [eapply mark_inv_step; try done; lia|]. eapply file_ok_step; [done| |done]. by apply (iw_worker _ (i_w _ Hi)).
Qed.

Lemma file_ok_initial s n : initial s → file_ok s n.
Proof.
  intros (Hms & Hpc & _ & _ & _ & _ & _ & Hfile). destruct (Hms n) as (c & b & sg & E). split; rewrite E, ?Hpc, ?Hfile; try done.
  - intros _. by right.
  - simpl. by intros [|].
Qed.

Lemma mark_kept s2 k o : finished s2 → reach k → o ∈ acked → o ∈ WriteSet pl k → is_Some (ms_eligible (g_ms s2 o) !! k) →
  k ∈ ms_marked (g_ms s2 o) ∧ ∃ F, g_file s2 o = Some F ∧ k ∈ F.
Proof.
  intros Hfin Hreach Ho Hw Hel.
  destruct (mark_done _ _ _ Hfin Hreach Ho Hw) as (s0 & sq & H0 & Hq1 & Hq2 & Hmk & (sf & p & Hsf & Hidle & Hend) & Hb).
  split; [by apply (marked_ok_rtc _ _ o k Hq2)|].
  assert (gstep sf (status_step sf o p)) as Hst by (by apply g_status).
  pose proof (net_grows_rtc _ _ Hend). pose proof (net_grows _ _ Hst).
  assert (rtc gstep s0 sf) as Hsf0 by (by etrans). assert (inv sf) as Hi by (eapply inv_rtc; [done..|lia|by apply mark_inv_initial]).
  assert (file_ok sf o) as Hf by (eapply file_ok_rtc; [done|by apply mark_inv_initial|done|lia|by apply file_ok_initial]).
  assert (inv (status_step sf o p)) as Hi' by (eapply mark_inv_step; try done; lia).
  assert (file_ok (status_step sf o p) o) as Hf' by (eapply file_ok_step; [done| |done]; by apply (iw_worker _ (i_w _ Hi))).
  apply (marked_ok_rtc _ _ o k Hsf) in Hmk. apply (marked_ok_step _ _ o k Hst) in Hmk.
  assert (is_Some (ms_eligible (g_ms (status_step sf o p) o) !! k)) as Hel'.
  { erewrite <- eligible_rtc; [exact Hel|done]. }
  specialize (Hmk Hel'). assert (ms_dirty (g_ms (status_step sf o p) o) = false) as Hd.
  { simpl. rewrite fn_lookup_insert. revert Hidle. unfold handleStatus. destruct (idle (g_ms sf o)), (ms_dirty (g_ms sf o)) eqn:E, p; simpl; congruence. }
  destruct (fo_clean _ _ Hf' Hd) as [(F & EF & Hsub)|E]; [|rewrite E in Hmk; set_solver].
  destruct (file_rtc _ _ o F Hend Hi' Ho Hb Hf' EF) as (F' & EF' & Hsub'). exists F'. split; [done|]. set_solver.
Qed.

(** What the workers of a finished mark still know of the epoch. *)
Lemma finished_worker s2 n : finished s2 → n ∈ acked → ms_placement (g_ms s2 n) = pl ∧ ms_epoch (g_ms s2 n) = epoch.
Proof.
  intros (s0 & s1 & l & r & tolerate & missing & H0 & H1 & _ & Hr & Hb & _) Hn. apply rounds_rtc in Hr.
  assert (inv s2) as [Hw _ Hm] by (apply (inv_rtc s0); [done|done|by etrans|done|by apply mark_inv_initial]).
  split; [by apply (iw_worker _ Hw)|by apply (im_epoch _ Hm)].
Qed.

(** C8 A finished mark is complete: when the loop has ended and its missing
    objects do not stop the epoch, every object reachable from the roots is marked
    on every owner that acked the barrier and has it among its sweepable records,
    in memory and in the mark on disk that it would sweep with after a restart. *)
Theorem mark_complete s2 k o : finished s2 → reach k → o ∈ acked → o ∈ WriteSet pl k → is_Some (ms_eligible (g_ms s2 o) !! k) →
  k ∈ ms_marked (g_ms s2 o) ∧ ∃ F, g_file s2 o = Some F ∧ k ∈ F.
Proof. apply mark_kept. Qed.
End run.

(** * Schedules

    Steps chosen one after the other, as an executable function: a step that is
    not possible does nothing. *)
Inductive act := AWork (n : NodeID) (r : sent) | ARecv (i : nat) | ARoot | AFlush | ACowork (r : sent).

Definition act_answer (p : pc) (r : sent) : answer := MkAnswer (match p with PFetch k _ => content k | _ => None end) r id.

Definition exec (s : gstate) (a : act) : gstate :=
  match a with
  | AWork n r =>
      if decide (n ∈ acked) then
        let '(ms, p, x) := worker_step leaf ChildKeys n (act_answer (g_pc s n) r) (g_ms s n) (g_pc s n) in
        MkG (<[n := ms]> (g_ms s)) (<[n := p]> (g_pc s)) (g_co s) (g_cpc s) (sent_msg x ++ g_net s) (g_got s)
          (claimed n (g_pc s n) ++ g_done s) (g_file s)
      else s
  | ARecv i =>
      match g_net s !! i with
      | Some (n, m) =>
          if decide (n ∈ acked) then
            MkG (<[n := (handleKeys (g_ms s n) m).1]> (g_ms s)) (g_pc s) (g_co s) (g_cpc s) (g_net s)
              (if accepts (g_ms s n) m then (n, m) :: g_got s else g_got s) (g_done s) (g_file s)
          else s
      | None => s
      end
  | ARoot =>
      match g_cpc s with
      | CRoots (k :: todo) =>
          let '(mk, co) := push_root self epoch k (if decide (self ∈ acked) then Some (g_ms s self) else None) (g_co s) in
          MkG (match mk with Some ms => <[self := ms]> (g_ms s) | None => g_ms s end) (g_pc s) co (CRoots todo)
            (g_net s) (g_got s) (g_done s) (g_file s)
      | _ => s
      end
  | AFlush =>
      match g_cpc s with
      | CRoots [] => MkG (g_ms s) (g_pc s) (g_co s) (CFlush PFlush) (g_net s) (g_got s) (g_done s) (g_file s)
      | _ => s
      end
  | ACowork r =>
      match g_cpc s with
      | CFlush PTop | CRoots _ => s
      | CFlush q =>
          let '(co, p, x) := worker_step leaf ChildKeys self (act_answer q r) (g_co s) q in
          MkG (g_ms s) (g_pc s) co (CFlush p) (sent_msg x ++ g_net s) (g_got s) (g_done s) (g_file s)
      end
  end.

Lemma act_answer_ok p r : answer_ok p (act_answer p r).
Proof. split; [done|]. destruct p; simpl; auto. Qed.

Lemma act_sound s a : rtc gstep s (exec s a).
Proof.
  destruct a as [n r|i| | |r]; unfold exec.
  - case_decide; [|done]. destruct (worker_step _ _ _ _ _ _) as [[ms p] x] eqn:E. apply rtc_once. eapply g_work; [done|apply act_answer_ok|exact E].
  - destruct (g_net s !! i) as [[n m]|] eqn:E; [|done]. case_decide; [|done]. destruct (handleKeys (g_ms s n) m) as [ms r] eqn:Eh.
    apply rtc_once. eapply g_recv; [done|by eapply list_elem_of_lookup_2|exact Eh].
  - destruct (g_cpc s) as [[|k todo]|] eqn:E; [done| |done]. destruct (push_root _ _ _ _ _) as [mk co] eqn:Ep. apply rtc_once. by eapply g_root.
  - destruct (g_cpc s) as [[|k todo]|] eqn:E; [|done|done]. apply rtc_once. by eapply g_flush.
  - destruct (g_cpc s) as [|q] eqn:E; [done|]. destruct (worker_step leaf ChildKeys self (act_answer q r) (g_co s) q) as [[co p] x] eqn:Ew.
    assert (q ≠ PTop → gstep s (MkG (g_ms s) (g_pc s) co (CFlush p) (sent_msg x ++ g_net s) (g_got s) (g_done s) (g_file s))) as Hg.
    { intros Hq. eapply g_cowork; [exact E|done|apply act_answer_ok|exact Ew]. }
    destruct q; try done; cbv beta iota; rewrite ?Ew; by apply rtc_once, Hg.
Qed.

Definition execs (s : gstate) (l : list act) : gstate := foldl exec s l.

Lemma execs_sound s l : rtc gstep s (execs s l).
Proof. revert s. induction l as [|a l IH]; intros s; [done|]. simpl. etrans; [apply act_sound|apply IH]. Qed.

(** A round with nothing happening between the answers. *)
Fixpoint ask (s : gstate) (ns : list NodeID) : list statusReply * gstate :=
  match ns with
  | [] => ([], s)
  | n :: ns => let '(rs, s') := ask (status_step s n true) ns in ((handleStatus (g_ms s n) true false).2 :: rs, s')
  end.

Lemma ask_polls s ns : polls s ns (ask s ns).1 (ask s ns).2.
Proof.
  revert s. induction ns as [|n ns IH]; intros s; simpl; [by constructor|]. specialize (IH (status_step s n true)).
  destruct (ask (status_step s n true) ns) as [rs s']. by eapply polls_cons.
Qed.

Fixpoint asks (s : gstate) (n : nat) : list round * gstate :=
  match n with
  | O => ([], s)
  | S n => let '(rs, s1) := ask s acked in let '(l, s') := asks s1 n in (poll_round (ms_sent (g_co s)) rs :: l, s')
  end.

Lemma asks_rounds s n : rounds s (asks s n).1 (asks s n).2.
Proof.
  revert s. induction n as [|n IH]; intros s; simpl; [by constructor|]. pose proof (ask_polls s acked) as Hp.
  destruct (ask s acked) as [rs s1]. specialize (IH s1). destruct (asks s1 n) as [l s']. by eapply rounds_cons.
Qed.
End system.

(** Two nodes hold two owners' worth of a directory with one file; the directory is
    a root and expanded by the second node, which gets it from the coordinator. *)
Definition toy_leaf (k : key) : bool := bool_decide (k = toy_id x08).
Definition toy_children (k : key) (data : bytes) : option (list key) := Some [toy_id x08].
Definition toy_content (k : key) : option bytes := Some [].
Definition toy_mark_pl : Placement :=
  NewPlacement toy_blake3 (toy_view [x01] [toy_node x01 5 ""; toy_node x02 5 "z"] 2 None).
Definition toy_acked : list NodeID := [toy_id x01; toy_id x02].
Definition toy_raw : list bytes := arr_bytes <$> toy_acked.

Definition toy_g0 (roots : list key) : gstate :=
  MkG (λ _, start_mark toy_blake3 1 [x05] 1 9 (toy_view [x01] [toy_node x01 5 ""; toy_node x02 5 "z"] 2 None) toy_raw
              [(3, [toy_id x07; toy_id x08])])
    (λ _, PTop) (coordinator (toy_id x01) 1 [x05] toy_mark_pl toy_raw) (CRoots roots) [] [] [] (λ _, None).

Notation on_toy f := (f toy_leaf toy_children toy_content (toy_id x01) 1 toy_acked) (only parsing).

Definition toy_schedule : list act :=
  [ARoot; AFlush] ++ replicate 6 (ACowork SentAcked) ++ [ARecv 0] ++
  replicate 24 (AWork (toy_id x02) SentAcked) ++ [ARecv 1; ARecv 0; ARecv 0; ARecv 2] ++ replicate 24 (AWork (toy_id x01) SentAcked).
Definition toy_g1 : gstate := on_toy execs (toy_g0 [toy_id x07]) toy_schedule.
Definition toy_rounds : list round * gstate := asks toy_acked toy_g1 3.
Definition toy_round : round := default (MkRound 0 0 false []) (poll_loop 0 (0, 0) toy_rounds.1).

Lemma toy_mark_initial : initial (toy_id x01) 1 [x05] toy_mark_pl toy_acked [toy_id x07] (toy_g0 [toy_id x07]).
Proof. split; [|done]. intros n. by eexists 1, 9, _. Qed.

Lemma mark_ends_quiescent_witness : ∃ sq, g_net sq ⊆ g_got sq ∧ ms_queue (g_ms sq (toy_id x02)) = [].
Proof.
  destruct (mark_ends_quiescent toy_leaf toy_children toy_content (toy_id x01) 1 [x05] toy_mark_pl toy_acked [toy_id x07]
    ltac:(decides) ltac:(decides) (toy_g0 [toy_id x07]) toy_g1 toy_rounds.1 toy_rounds.2 toy_round) as (sq & _ & _ & Hn & _ & Hq).
  - apply toy_mark_initial.
  - apply execs_sound.
  - computes.
  - apply asks_rounds.
  - computes.
  - computes.
  - exists sq. split; [done|]. apply Hq. decides.
Defined.

Lemma toy_finished : finished toy_leaf toy_children toy_content (toy_id x01) 1 [x05] toy_mark_pl toy_acked [toy_id x07] toy_rounds.2.
Proof.
  exists (toy_g0 [toy_id x07]), toy_g1, toy_rounds.1, toy_round, false, [].
  split; [apply toy_mark_initial|]. split; [apply execs_sound|]. split; [computes|]. split; [apply asks_rounds|].
  split; [computes|]. split; [computes|]. split; computes.
Qed.

Lemma toy_reach : reach toy_leaf toy_children toy_content [toy_id x07] (toy_id x08).
Proof. apply (reach_child _ _ _ _ (toy_id x07) [toy_id x08]); [by apply reach_root; left|computes|computes|by left]. Qed.

Lemma mark_complete_witness :
  toy_id x08 ∈ ms_marked (g_ms toy_rounds.2 (toy_id x01)) ∧ ∃ F, g_file toy_rounds.2 (toy_id x01) = Some F ∧ toy_id x08 ∈ F.
Proof.
  apply (mark_complete toy_leaf toy_children toy_content (toy_id x01) 1 [x05] toy_mark_pl toy_acked [toy_id x07]
    ltac:(decides) ltac:(decides) toy_rounds.2 (toy_id x08) (toy_id x01) toy_finished toy_reach).
  - decides.
  - decides.
  - vm_compute. by eexists.
Defined.
