(* ===== verification/Pins.v ===== *)
(** What a node notes about its records in the bookkeeping database
    (src/node/node.go and src/node/reconcile.go): pins, corrupt markers and the
    reconcile stamps of packs.

    Shown: a pin outlives every sweep that still honours it. *)
From S2P Require Import Prelude Store Placement View Wire Meta Mark.

Local Open Scope N_scope.

Definition mkCorrupt : bytes := of_string "corrupt/".
Definition mkPack : bytes := of_string "pack/".
Definition mkPin : bytes := of_string "pin/".
Definition mkGC : bytes := of_string "gc".
Definition mkGCHist : bytes := of_string "gchist/".

(** The bookkeeping of a reconciled pack. *)
Record packStamp := MkPackStamp { Inc : N; For : N; Replicated : bool; Checked : Z; Verified : Z }.

#[global] Instance packStamp_ser : Ser packStamp.
Proof.
  refine (ser_via (λ r, (Inc r, For r, Replicated r, Checked r, Verified r)) (λ '(a, b, c, d, e), MkPackStamp a b c d e) _). by intros [].
Defined.

Definition putU64 (v : N) : bytes := be_encode 8 v.
Definition getU64 (b : bytes) : N := be_decode b.

Definition tailOf (k : key) : bytes := drop 24 (arr_bytes k).
Definition pin_key (k : key) : bytes := mkPin ++ tailOf k.
Definition corrupt_key (k : key) : bytes := mkCorrupt ++ arr_bytes k.

Section records.
Context {DB : Type} `{KVStore DB} `{Codec packStamp}.

(** * Pins *)

(** [c] is the barrier counter. *)
Definition pinKeys (d : DB) (c : N) (keys : list key) : option string * DB :=
  match keys with
  | [] => (None, d)
  | _ => kv_commit d ((λ k, kv_Set (pin_key k) (putU64 c)) <$> keys)
  end.

Definition pinned (d : DB) (k : key) (atLeast : N) : bool :=
  match Get d (pin_key k) with
  | inl _ => false
  | inr b => bool_decide (length b = 8%nat) && (atLeast <=? getU64 b)
  end.

(** Of [gcState]: the errors of the scan and of the write are dropped. *)
Definition dropPins (d : DB) (below : N) : DB :=
  let ops := snd (Scan d mkPin (λ ops k v,
    (if bool_decide (length v = 8%nat) && (getU64 v <? below) then ops ++ [kv_Delete k] else ops, true)) []) in
  if bool_decide (length ops = 0%nat) then d else snd (kv_commit d ops).

(** * Corrupt records *)

Definition isCorrupt (d : DB) (k : key) : bool := Has d (corrupt_key k).
Definition markCorrupt (d : DB) (k : key) : DB := snd (Set_key d (corrupt_key k) [x01]).
Definition clearCorrupt (d : DB) (k : key) : DB := snd (Delete d (corrupt_key k)).

Definition clearCorruptKeys (d : DB) (keys : list key) : DB :=
  match filter (λ k, isCorrupt d k = true) keys with
  | [] => d
  | l => snd (kv_commit d ((λ k, kv_Delete (corrupt_key k)) <$> l))
  end.

(** * Stamps *)

Definition stampKey (storeID : bytes) (id : N) : bytes := mkPack ++ storeID ++ be_encode 8 id.

Definition stamp (d : DB) (storeID : bytes) (id : N) : option packStamp :=
  match GetCBOR d (stampKey storeID id) with inl _ => None | inr s => Some s end.

Definition setStamp (d : DB) (storeID : bytes) (id : N) (s : packStamp) : DB := snd (SetCBOR d (stampKey storeID id) s).

Definition settledFor (d : DB) (storeID : bytes) (id : N) (v : View) (forID : N) : bool :=
  match stamp d storeID id with
  | Some s => (Inc s =? Incarnation v) && (For s =? forID) && Replicated s
  | None => false
  end.

Definition settled (d : DB) (storeID : bytes) (id : N) (v : View) : bool := settledFor d storeID id v (PlacementEpoch v).
End records.

(** * Facts *)

(** The stamp of a pin. *)
Definition pin_at (m : gmap bytes bytes) (k : key) : option N :=
  b ← m !! pin_key k; if decide (length b = 8%nat) then Some (be_decode b) else None.

Section facts.
Context {DB : Type} `{KVStore DB} `{!Reliable DB}.

Lemma pinned_spec (d : DB) k n : pinned d k n = true ↔ ∃ c, pin_at (kv_abs d) k = Some c ∧ n ≤ c.
Proof.
  unfold pinned, Get, pin_at, getU64. rewrite kv_get_total. destruct (kv_abs d !! pin_key k) as [b|]; simpl; [|split; [done|by intros (? & ? & _)]].
  rewrite andb_true_iff, bool_decide_eq_true, N.leb_le. case_decide; split.
  - intros [_ ?]. eauto.
  - by intros (c & [= <-] & ?).
  - by intros [? _].
  - by intros (c & ? & _).
Qed.

Lemma apply_sets m (keys : list key) v x :
  apply_ops m ((λ k, kv_Set (pin_key k) v) <$> keys) !! x = if decide (x ∈ pin_key <$> keys) then Some v else m !! x.
Proof.
  induction keys as [|k keys IH] using rev_ind; [done|]. rewrite !fmap_app, apply_ops_app. simpl.
  destruct (decide (pin_key k = x)) as [<-|Hne].
  - rewrite lookup_insert_eq, decide_True; [done|]. apply elem_of_app. right. by left.
  - rewrite lookup_insert_ne, IH by done. apply decide_ext. rewrite elem_of_app, list_elem_of_singleton. naive_solver.
Qed.

(** Every key asked for is pinned at the counter, the others keep their pins. *)
Lemma pinKeys_spec (d : DB) c keys : ∃ d', pinKeys d c keys = (None, d') ∧
  ∀ x, kv_abs d' !! x = if decide (x ∈ pin_key <$> keys) then Some (putU64 c) else kv_abs d !! x.
Proof.
  unfold pinKeys. destruct keys as [|k keys]; [by exists d|]. set (l := k :: keys).
  pose proof (kv_commit_total d ((λ k, kv_Set (pin_key k) (putU64 c)) <$> l)) as Ht.
  destruct (kv_commit d _) as [r d'] eqn:E. simpl in Ht. subst r. exists d'. split; [done|]. intros x.
  apply kv_commit_ok in E. rewrite E. apply apply_sets.
Qed.

Lemma pinKeys_at (d d' : DB) c keys k : pinKeys d c keys = (None, d') → c < u64_max →
  pin_at (kv_abs d') k = if decide (pin_key k ∈ pin_key <$> keys) then Some c else pin_at (kv_abs d) k.
Proof.
  intros E Hc. destruct (pinKeys_spec d c keys) as (d1 & E1 & Hx). rewrite E in E1. injection E1 as <-.
  unfold pin_at. rewrite Hx. case_decide; [|done]. unfold putU64. cbn -[be_encode]. rewrite length_be_encode, decide_True by done.
  by rewrite be_decode_encode.
Qed.

(** Dropping leaves a pin alone or removes it, and removes only older ones. *)
Lemma dropPins_at (d : DB) below k c : pin_at (kv_abs d) k = Some c → below ≤ c → pin_at (kv_abs (dropPins d below)) k = Some c.
Proof.
  intros Hp Hle. unfold dropPins, Scan. rewrite kv_iter_total. cbn [snd].
  set (old := λ v : bytes, bool_decide (length v = 8%nat) && (getU64 v <? below)).
  set (l := range_of (kv_abs d) mkPin (scan_end mkPin)).
  assert (∀ acc, visit (λ ops k v, (if old v then ops ++ [kv_Delete k] else ops, true)) acc l =
    acc ++ (kv_Delete <$> (filter (λ kv : bytes * bytes, old kv.2 = true) l).*1)) as ->.
  { clearbody l. induction l as [|[x v] l IH]; intros acc; simpl; [by rewrite app_nil_r|].
    rewrite IH, filter_cons. simpl. destruct (old v); simpl; [by rewrite <- app_assoc|done]. }
  simpl. set (ks := (filter _ l).*1). assert (pin_key k ∉ ks) as Hk.
  { intros ([x v] & Ex & Hin)%list_elem_of_fmap. simpl in Ex. subst x. apply list_elem_of_filter in Hin as [Ho Hin].
    apply elem_of_range in Hin as [Hv _]. unfold pin_at in Hp. rewrite Hv in Hp. simpl in *. unfold old in Ho.
    apply andb_prop in Ho as [_ Ho%N.ltb_lt]. case_decide; [|done]. injection Hp as <-. unfold getU64 in Ho. lia. }
  case_bool_decide; [done|]. pose proof (kv_commit_total d (kv_Delete <$> ks)) as Ht. destruct (kv_commit d _) as [r d'] eqn:E.
  simpl in *. subst r. apply kv_commit_ok in E. unfold pin_at. rewrite E, lookup_apply_deletes, decide_False by done. done.
Qed.
End facts.
