(* ===== verification/GC.v ===== *)
(** Garbage collection (src/node/gc.go): the changes of the gc register, the
    node's barrier, mark bookkeeping and sweep, and the coordinator's decisions.
    The mark itself is in Mark.v.

    A change of the register is a function of the clock and the state, for
    [CASGC] of the catalog; what a node decides on the state it read is kept
    apart from the change it then makes. *)
From stdpp Require Import pretty.
From S2P Require Import Prelude Store Placement View Wire Ballot Proposer Catalog Meta Mark Pins.

Local Open Scope N_scope.

Notation gc_change := (Z → GCState → GCState * option xerr).

(** * Data *)

Record barrierRecord := MkBarrier { br_Epoch : N; EligibleBelow : N; Confirmed : bool; Overflowed : bool }.

Record gcMeta := MkGCMeta { Counter : N; LastAck : Z; LastLive : N }.

Record sweepInput := MkSweepInput {
  si_epoch : N;
  si_count : N;
  si_eligBelow : N;
  si_placement : Placement;
  si_eligible : gmap key N;
  si_marked : gset key;
  si_overflow : bool;
}.

(** The header of a mark on disk. *)
Record markHeader := MkMarkHeader { mh_Epoch : N; mh_Count : N; mh_EligBelow : N; mh_View : bytes }.

#[global] Instance barrierRecord_eta : Eta barrierRecord := λ r,
  MkBarrier (br_Epoch r) (EligibleBelow r) (Confirmed r) (Overflowed r).
#[global] Instance gcMeta_eta : Eta gcMeta := λ r, MkGCMeta (Counter r) (LastAck r) (LastLive r).
#[global] Instance sweepInput_eta : Eta sweepInput := λ r,
  MkSweepInput (si_epoch r) (si_count r) (si_eligBelow r) (si_placement r) (si_eligible r) (si_marked r) (si_overflow r).

#[global] Instance barrierRecord_ser : Ser barrierRecord.
Proof.
  refine (ser_via (λ r, (br_Epoch r, EligibleBelow r, Confirmed r, Overflowed r)) (λ '(a, b, c, d), MkBarrier a b c d) _). by intros [].
Defined.
#[global] Instance gcMeta_ser : Ser gcMeta.
Proof. refine (ser_via (λ r, (Counter r, LastAck r, LastLive r)) (λ '(a, b, c), MkGCMeta a b c) _). by intros []. Defined.
#[global] Instance markHeader_ser : Ser markHeader.
Proof.
  refine (ser_via (λ r, (mh_Epoch r, mh_Count r, mh_EligBelow r, mh_View r)) (λ '(a, b, c, d), MkMarkHeader a b c d) _). by intros [].
Defined.

(** A node's gc state, with the bookkeeping database it writes to. *)
Record gcState (DB : Type) := MkGcState {
  gs_db : DB;
  gs_meta : gcMeta;
  gs_mark : option markState;
  gs_lastMark : option sweepInput;
  gs_swept : gset N;
  gs_sweeping : bool;
  gs_started : gset N;
  gs_manual : Z;
}.
Arguments MkGcState {DB}.
Arguments gs_db {DB}.
Arguments gs_meta {DB}.
Arguments gs_mark {DB}.
Arguments gs_lastMark {DB}.
Arguments gs_swept {DB}.
Arguments gs_sweeping {DB}.
Arguments gs_started {DB}.
Arguments gs_manual {DB}.

#[global] Instance gcState_eta {DB} : Eta (gcState DB) := λ r,
  MkGcState (gs_db r) (gs_meta r) (gs_mark r) (gs_lastMark r) (gs_swept r) (gs_sweeping r) (gs_started r) (gs_manual r).

Record gcConfig := MkGCConfig { GCInterval : Z; MarkTimeout : Z; SweepTimeout : Z; Grace : Z }.

Definition minute : Z := 60 * 10 ^ 9.

(** [time.Since] of a time in nanoseconds; durations saturate. *)
Definition since (now t : Z) : Z := Z.max (- 2 ^ 63) (Z.min (2 ^ 63 - 1) (now - t)).

(** [c - 1] on uint64. *)
Definition u64_pred (c : N) : N := u64 (c + u64_max - 1).

(** * The gc register *)

(** [handleBarrier]. *)
Definition ack_gc (epoch : N) (self : NodeID) : gc_change := λ _ st,
  if negb (GC_Epoch st =? epoch) || negb (Phase st =? PhaseBarrier)%Z then (st, Some (XText "barrier phase over"))
  else (st <| Acked := AddID (Acked st) self |>, None).

(** The first CAS of [runCycle]. *)
Definition start_gc (cfg : gcConfig) (nonce : bytes) (tolerate : bool) (next : Z → string) : gc_change := λ now st,
  if ((Phase st =? PhaseBarrier) || (Phase st =? PhaseMark) || (Phase st =? PhaseSweep))%Z
  then (st, Some (XText "an epoch is in progress"))
  else if Hold st then (st, Some (XText "gc is on hold (recovery); clear with gc-hold"))
  else if (since now (BarrierAt st) <? GCInterval cfg)%Z then (st, Some (XWire CodeTooSoon (next (BarrierAt st))))
  else (st <| GC_Epoch := u64 (GC_Epoch st + 1) |> <| Phase := PhaseBarrier |> <| BarrierAt := now |> <| Acked := [] |>
           <| MarkDone := false |> <| SweepDone := [] |> <| SweepWave := 0%Z |> <| Nonce := nonce |> <| GC_Marked := [] |>
           <| GC_Error := ""%string |> <| GC_Missing := [] |> <| Tolerate := tolerate |> <| Garbage := 0 |>, None).

(** The second: the acked set is frozen and the placement recorded. *)
Definition toMark_gc (epoch : N) (pvEnc : bytes) : gc_change := λ now st,
  if negb (GC_Epoch st =? epoch) || negb (Phase st =? PhaseBarrier)%Z then (st, Some (XText "epoch changed under the coordinator"))
  else (st <| Phase := PhaseMark |> <| SnapshotAt := now |> <| GC_Placement := pvEnc |>, None).

Definition missing_gc (raw : list bytes) : gc_change := λ _ st, (st <| GC_Missing := raw |>, None).

(** The last: the mark is complete. *)
Definition toSweep_gc (epoch : N) (marked : list NodeStat) : gc_change := λ now st,
  if negb (GC_Epoch st =? epoch) || negb (Phase st =? PhaseMark)%Z then (st, Some (XText "epoch changed under the coordinator"))
  else (st <| MarkDone := true |> <| GC_Marked := marked |> <| Phase := PhaseSweep |> <| SweepWave := 1%Z |> <| SnapshotAt := now |>, None).

Definition abort_gc (epoch : N) (reason : string) : gc_change := λ _ st,
  if negb (GC_Epoch st =? epoch) || (Phase st =? PhaseIdle)%Z || (Phase st =? PhaseSweep)%Z then (st, Some XAbort)
  else (st <| Phase := PhaseAborted |> <| GC_Error := reason |>, None).

Definition resweep_gc (garbage : N) : gc_change := λ now st,
  if negb (Phase st =? PhaseIdle)%Z || (LastOK st =? 0) then (st, Some (XText "no completed epoch to re-sweep"))
  else (st <| GC_Epoch := LastOK st |> <| Phase := PhaseSweep |> <| SweepDone := [] |> <| SweepWave := 1%Z |>
           <| Garbage := garbage |> <| SnapshotAt := now |>, None).

(** [observeSweep]. *)
Definition close_gc (epoch : N) : gc_change := λ _ st,
  if negb (GC_Epoch st =? epoch) || negb (Phase st =? PhaseSweep)%Z then (st, Some XAbort)
  else (st <| Phase := PhaseIdle |> <| GC_Last := SweepDone st |> <| LastOK := GC_Epoch st |>, None).

Definition wave_gc (epoch : N) : gc_change := λ _ st,
  if negb (GC_Epoch st =? epoch) || negb (Phase st =? PhaseSweep)%Z then (st, Some XAbort)
  else (st <| SweepWave := (SweepWave st + 1)%Z |>, None).

(** A node's report, without a mark and with one. *)
Definition noMark_gc (epoch : N) (self : NodeID) : gc_change := λ _ st,
  if negb (GC_Epoch st =? epoch) || negb (Phase st =? PhaseSweep)%Z then (st, Some XAbort)
  else (st <| SweepDone := SweepDone st ++ [MkNodeStat (arr_bytes self) 0 0 0 0 true 0 0] |>, None).

Definition reported_in (self : NodeID) (l : list NodeStat) : bool := existsb (λ s, bool_decide (NS_ID s = arr_bytes self)) l.

Definition sweepDone_gc (epoch : N) (self : NodeID) (stat : NodeStat) : gc_change := λ _ st,
  if negb (GC_Epoch st =? epoch) || negb (Phase st =? PhaseSweep)%Z then (st, Some XAbort)
  else if reported_in self (SweepDone st) then (st, Some XAbort)
  else (st <| SweepDone := SweepDone st ++ [stat] |>, None).

(** The operator's hold, and the one a restored catalog leaves. *)
Definition hold_gc (pause : bool) : gc_change := λ _ st, (st <| Hold := pause |>, None).
Definition restore_gc : gc_change := λ now st, (st <| BarrierAt := now |> <| Hold := true |>, None).

Section node.
Context (blake3 : bytes → nat → bytes) {DB : Type} `{KVStore DB}.
Context `{Codec barrierRecord} `{Codec gcMeta} `{Codec markHeader} `{Codec View} `{Codec packStamp} `{Codec (list bytes)}.
Context (self : NodeID) (storeID : bytes) (cfg : gcConfig).

(** * Barriers *)

Definition newGCState (d : DB) : gcState DB :=
  MkGcState d (match GetCBOR d mkGC with inl _ => MkGCMeta 0 0 0 | inr m => m end) None None ∅ false ∅ 0.

Definition histKey (c : N) : bytes := mkGCHist ++ be_encode 8 c.

Definition history (d : DB) (c : N) : option barrierRecord :=
  match GetCBOR d (histKey c) with inl _ => None | inr r => Some r end.

(** [None] is an error of the store. *)
Definition activeSegmentID (segs : option segments) : N :=
  match segs with
  | None | Some [] => 1
  | Some segs => match last segs with Some (id, _) => u64 (id + 1) | None => 1 end
  end.

Definition too_soon (now : Z) (m : gcMeta) : bool :=
  negb (LastAck m =? 0)%Z && (since now (LastAck m) <? GCInterval cfg - 5 * minute)%Z && (10 * minute <? GCInterval cfg)%Z.

(** Under the locks: the new count and its record, or the error of the write. *)
Definition barrier_take (now : Z) (segs : option segments) (g : gcState DB) (epoch : N) : gcState DB * (string + N * barrierRecord) :=
  let c := u64 (Counter (gs_meta g) + 1) in
  let rec := MkBarrier epoch (activeSegmentID segs) false false in
  match SetCBOR (gs_db g) (histKey c) rec with
  | (Some e, d) => (g <| gs_db := d |>, inl e)
  | (None, d) =>
      let m := gs_meta g <| Counter := c |> <| LastAck := now |> in
      (g <| gs_db := snd (SetCBOR d mkGC m) |> <| gs_meta := m |>, inr (c, rec))
  end.

Definition barrier_confirm (g : gcState DB) (c : N) (rec : barrierRecord) : gcState DB :=
  g <| gs_db := snd (SetCBOR (gs_db g) (histKey c) (rec <| Confirmed := true |>)) |>.

(** [cas] is the ack's CAS.  The reply is an error code, or nothing. *)
Definition handleBarrier (now : Z) (segs : option segments) (cas : gc_change → option cerr) (g : gcState DB) (epoch : N) :
    gcState DB * option string :=
  if too_soon now (gs_meta g) then (g, Some CodeTooSoon)
  else match barrier_take now segs g epoch with
       | (g, inl _) => (g, Some CodeInternal)
       | (g, inr (c, rec)) =>
           match cas (ack_gc epoch self) with
           | Some _ => (g, Some CodeUnavailable)
           | None => (barrier_confirm g c rec, None)
           end
       end.

(** * The start of a mark *)

(** The newest of the last sixteen counts that was for the epoch. *)
Fixpoint find_barrier (fuel : nat) (d : DB) (epoch c : N) : option (N * barrierRecord) :=
  match fuel with
  | O => None
  | S fuel =>
      if c =? 0 then None
      else match history d c with
           | Some r => if br_Epoch r =? epoch then Some (c, r) else find_barrier fuel d epoch (c - 1)
           | None => find_barrier fuel d epoch (c - 1)
           end
  end.

Definition handleMark (segs : option segments) (g : gcState DB) (epoch : N) (nonce params value : bytes) : gcState DB * option string :=
  match find_barrier 16 (gs_db g) epoch (Counter (gs_meta g)) with
  | None => (g, Some CodeBadRequest)
  | Some (count, rec) =>
      if negb (Confirmed rec) then (g, Some CodeBadRequest)
      else match Decode params with
           | inl _ => (g, Some CodeBadRequest)
           | inr pv =>
               match segs with
               | None => (g, Some CodeInternal)
               | Some segs =>
                   let acked := match unmarshal value with inl _ => [] | inr l => l end in
                   (g <| gs_mark := Some (start_mark blake3 epoch nonce count (EligibleBelow rec) pv acked segs) |>, None)
               end
           end
  end.

(** * Marks on disk *)

(** What is written; the keys come in the order of the map. *)
Definition persistMark (order : list key → list key) (ms : markState) : bytes :=
  let hdr := marshal (MkMarkHeader (ms_epoch ms) (ms_count ms) (ms_eligBelow ms) (Encode (pl_view (ms_placement ms)))) in
  be_encode 4 (N.of_nat (length hdr)) ++ hdr ++ concat (arr_bytes <$> order (elements (ms_marked ms))).

(** The loop over the rest of the file. *)
Fixpoint read_keys (fuel : nat) (b : bytes) : gset key :=
  match fuel with
  | O => ∅
  | S fuel => if (32 <=? length b)%nat then {[ (arr_of 32 (take 32 b) : key) ]} ∪ read_keys fuel (drop 32 b) else ∅
  end.

(** A file too short for its header length panics. *)
Inductive loaded := LoadErr | LoadPanic | Loaded (si : sweepInput).

Definition loadMark (d : DB) (segs : option segments) (file : option bytes) : loaded :=
  match file with
  | None => LoadErr
  | Some b =>
      if (length b <? 4)%nat then LoadErr
      else
        let hi := N.to_nat ((4 + be_decode (take 4 b)) mod 2 ^ 32) in
        if (hi <? 4)%nat || (length b <? hi)%nat then LoadPanic
        else match unmarshal (drop 4 (take hi b)) with
             | inl _ => LoadErr
             | inr hdr =>
                 match Decode (mh_View hdr), segs with
                 | inr pv, Some segs =>
                     let rest := drop hi b in
                     Loaded (MkSweepInput (mh_Epoch hdr) (mh_Count hdr)
                       (match history d (u64_pred (mh_Count hdr)) with Some prev => EligibleBelow prev | None => 0 end)
                       (NewPlacement blake3 pv) (eligible_of segs (mh_EligBelow hdr)) (read_keys (length rest) rest) false)
                 | _, _ => LoadErr
                 end
             end
  end.

(** * Sweeps *)

(** The mark in memory, or the one on disk. *)
Definition sweepInputFor (g : gcState DB) (segs : option segments) (file : option bytes) (epoch : N) : option sweepInput :=
  match gs_mark g with
  | Some ms =>
      if ms_epoch ms =? epoch then
        Some (MkSweepInput epoch (ms_count ms)
          (match history (gs_db g) (u64_pred (ms_count ms)) with Some prev => EligibleBelow prev | None => 0 end)
          (ms_placement ms) (ms_eligible ms) (ms_marked ms) false)
      else match loadMark (gs_db g) segs file with Loaded si => Some si | _ => None end
  | None => match loadMark (gs_db g) segs file with Loaded si => Some si | _ => None end
  end.

Definition live (d : DB) (si : sweepInput) (cur : Placement) (k : key) : bool :=
  if isCorrupt d k then false
  else match si_eligible si !! k with
       | None => true
       | Some packID =>
           if si_eligBelow si <=? packID then true
           else if pinned d k (u64_pred (si_count si)) then true
           else if InWriteSet (si_placement si) k self then bool_decide (k ∈ si_marked si) || si_overflow si
           else if InWriteSet cur k self then true
           else negb (settled d storeID packID (pl_view cur))
       end.

Definition provedDead (g : gcState DB) (k : key) (packID : N) : bool :=
  match gs_lastMark g with
  | None => false
  | Some si =>
      if si_overflow si then false
      else if negb (InWriteSet (si_placement si) k self) then false
      else match si_eligible si !! k with
           | None => false
           | Some p =>
               if negb (p =? packID) || (si_eligBelow si <=? p) then false
               else if bool_decide (k ∈ si_marked si) then false
               else negb (pinned (gs_db g) k (u64_pred (si_count si)))
           end
  end.

(** The share of dead records a pack is compacted at. *)
Inductive ratio := RHalf | RGarbage (bits : N) | RTenth.

(** [garbage > 0] on the bits of a float64. *)
Definition float_pos (bits : N) : bool := (0 <? bits) && (bits <=? 0x7ff0000000000000).

Definition sweep_ratio (garbage : N) (disk : option (Z * Z)) : ratio :=
  match disk with
  | Some (free, total) =>
      if (0 <? total)%Z && (free <? Z.quot total 10)%Z then RTenth
      else if float_pos garbage then RGarbage garbage else RHalf
  | None => if float_pos garbage then RGarbage garbage else RHalf
  end.

Record compactStats := MkCompactStats { BytesFreed : N; SegmentsCompacted : Z; RecordsCopied : N }.

(** One sweep: the new state, the change it reports with, and what the store was
    asked to do.  [compact] is the pack store's, [took] the time it took. *)
Definition sweep (g : gcState DB) (segs : option segments) (file : option bytes) (cur : Placement) (disk : option (Z * Z))
    (compact : (key → bool) → ratio → compactStats) (took : Z) (epoch garbage : N) : gcState DB * gc_change :=
  match sweepInputFor g segs file epoch with
  | None => (g <| gs_swept := gs_swept g ∪ {[epoch]} |> <| gs_sweeping := false |>, noMark_gc epoch self)
  | Some si =>
      let g := g <| gs_lastMark := Some si |> in
      let stats := compact (live (gs_db g) si cur) (sweep_ratio garbage disk) in
      let d := dropPins (gs_db g) (u64_pred (si_count si)) in
      let liveCount := N.of_nat (size (si_marked si)) in
      let m := gs_meta g <| LastLive := liveCount |> in
      (g <| gs_db := snd (SetCBOR d mkGC m) |> <| gs_meta := m |> <| gs_swept := gs_swept g ∪ {[epoch]} |> <| gs_sweeping := false |>,
       sweepDone_gc epoch self
         (MkNodeStat (arr_bytes self) 0 liveCount (BytesFreed stats) (SegmentsCompacted stats) false (RecordsCopied stats) took))
  end.

(** Waves: a quarter of the acked nodes at a time. *)
Definition quarter (acked : list bytes) : Z :=
  let q := Z.quot (Z.of_nat (length acked) + 3) 4 in if (q =? 0)%Z then 1 else q.

(** The last index of the node's id, 0 without one. *)
Definition position (acked : list bytes) : Z :=
  snd (fold_left (λ '(i, pos) id, ((i + 1)%Z, if decide (id = arr_bytes self) then i else pos)) acked (0, 0)%Z).

(** [poll] on the state read: the sweep it starts, with the epoch and ratio. *)
Definition poll (g : gcState DB) (st : option GCState) : gcState DB * option (N * N) :=
  match st with
  | None => (g, None)
  | Some st =>
      if (Phase st =? PhaseAborted)%Z then
        (match gs_mark g with
         | Some ms => if ms_epoch ms <=? GC_Epoch st then g <| gs_mark := None |> else g
         | None => g
         end, None)
      else if negb (Phase st =? PhaseSweep)%Z then (g, None)
      else if negb (Contains (Acked st) self) then (g, None)
      else if bool_decide (GC_Epoch st ∈ gs_swept g) || gs_sweeping g || reported_in self (SweepDone st) then (g, None)
      else if (SweepWave st * quarter (Acked st) <=? position (Acked st))%Z then (g, None)
      else (g <| gs_sweeping := true |>, Some (GC_Epoch st, Garbage st))
  end.

(** * The coordinator *)

Inductive gc_duty := GNothing | GAbort (epoch : N) | GObserve (st : GCState) | GRun.

Definition coordinate_gc (now : Z) (g : gcState DB) (v : option View) (st : option GCState) : gc_duty :=
  match st with
  | None => GNothing
  | Some st =>
      if ((Phase st =? PhaseBarrier) || (Phase st =? PhaseMark))%Z then
        if decide (GC_Epoch st ∈ gs_started g) then GNothing else GAbort (GC_Epoch st)
      else if (Phase st =? PhaseSweep)%Z then GObserve st
      else if Hold st then GNothing
      else if (since now (BarrierAt st) <? GCInterval cfg)%Z then GNothing
      else if (0 <? gs_manual g)%Z then GNothing
      else match v with
           | Some v => if (VoterSync v =? VoterSyncPending)%Z then GNothing else GRun
           | None => GRun
           end
  end.

(** The nodes that are done, and how many of the released ones. *)
Definition sweep_done (st : GCState) : list bytes := remove_dups (NS_ID <$> SweepDone st).
Definition released (st : GCState) : nat := Z.to_nat (Z.min (SweepWave st * quarter (Acked st)) (Z.of_nat (length (Acked st)))).
Definition released_done (st : GCState) : nat :=
  length (filter (λ id, id ∈ sweep_done st) (take (released st) (Acked st))).

(** The change [observeSweep] makes, if any. *)
Definition observeSweep (now : Z) (st : GCState) : option gc_change :=
  let timedOut := (SweepTimeout cfg <? since now (SnapshotAt st))%Z in
  if (length (Acked st) <=? length (sweep_done st))%nat || timedOut then Some (close_gc (GC_Epoch st))
  else if (released st <=? released_done st)%nat && (released st <? length (Acked st))%nat then Some (wave_gc (GC_Epoch st))
  else None.

(** * A cycle

    What one cycle asks of the rest of the node and of the other nodes. *)
Class CycleWorld (W : Type) := {
  cw_now : W → Z;
  cw_view : W → option View;
  cw_gc : W → gcState DB;
  cw_set : W → gcState DB → W;
  cw_sleep : W → W * bool;                         (* [false]: the context ended *)
  cw_ReadGC : W → W * (cerr + GCState);
  cw_CASGC : W → gc_change → W * GCState * option cerr;
  cw_barrier : W → N → list NodeID → W;            (* in parallel; the answers are not read *)
  cw_RefsSnapshot : W → W * (cerr + list RefEntry);
  cw_mark : W → NodeID → N → bytes → bytes → list bytes → W * option string;   (* the error, when it did not start *)
  cw_flushOut : W → markState → W * markState;
  cw_status : W → NodeID → N → bytes → bool → W * option statusReply;
  cw_abort : W → N → W;
  cw_poll : W → W;
}.

Inductive cycle_err := CyText (s : string) | CyErr (e : cerr) | CyDone | CyFuel.

Context {W : Type} `{CycleWorld W}.
(** [reference.Decode] of amber-store/core, as far as the key of the record. *)
Context (refKey : bytes → option bytes) (leaf : key → bool) (next : Z → string) (errText : cerr → string).

Definition observe (w : W) (st : GCState) : W :=
  match observeSweep (cw_now w) st with Some ch => fst (fst (cw_CASGC w ch)) | None => w end.

Definition abort (w : W) (epoch : N) (reason : string) : W := cw_abort (fst (fst (cw_CASGC w (abort_gc epoch reason)))) epoch.

(** An operator's run waits for a running epoch and for the barrier spacing. *)
Fixpoint cycle_wait (fuel : nat) (w : W) : W * option cycle_err :=
  match fuel with
  | O => (w, Some CyFuel)
  | S fuel =>
      let '(w, r) := cw_ReadGC w in
      match r with
      | inl e => (w, Some (CyErr e))
      | inr cur =>
          let busy := ((Phase cur =? PhaseBarrier) || (Phase cur =? PhaseMark) || (Phase cur =? PhaseSweep))%Z in
          let tooSoon := (since (cw_now w) (BarrierAt cur) <? GCInterval cfg)%Z in
          if negb busy && negb tooSoon then (w, None)
          else
            let w := if (Phase cur =? PhaseSweep)%Z then observe w cur else w in
            let '(w, ok) := cw_sleep w in
            if ok then cycle_wait fuel w else (w, Some CyDone)
      end
  end.

(** Every worker is started, or the epoch aborted. *)
Fixpoint cycle_workers (w : W) (epoch : N) (nonce pvEnc : bytes) (acked : list bytes) (ids : list NodeID) : W * option cycle_err :=
  match ids with
  | [] => (w, None)
  | id :: ids =>
      let '(w, err) := cw_mark w id epoch nonce pvEnc acked in
      match err with
      | None => cycle_workers w epoch nonce pvEnc acked ids
      | Some e =>
          (abort w epoch ("worker " +:+ ShortID id +:+ " did not start: " +:+ e), Some (CyText ("worker " +:+ ShortID id +:+ " did not start")))
      end
  end.

(** The keys of the references that have one. *)
Definition root_keys (roots : list RefEntry) : list key :=
  omap (λ r, k ← refKey (Record_ (re_Value r)); if decide (length k = 32%nat) then Some (arr_of 32 k : key) else None) roots.

Definition cycle_root (epoch : N) (s : W * markState) (k : key) : W * markState :=
  let '(w, co) := s in
  let g := cw_gc w in
  let '(mk, co) := push_root self epoch k (gs_mark g) co in
  (cw_set w (g <| gs_mark := mk |>), co).

(** One round of status requests; [None] when a worker lost its state. *)
Fixpoint cycle_round (w : W) (epoch : N) (nonce : bytes) (ids : list NodeID) : W * option (list statusReply) :=
  match ids with
  | [] => (w, Some [])
  | id :: ids =>
      let '(w, r) := cw_status w id epoch nonce false in
      match r with
      | None => (w, None)
      | Some s => let '(w, rs) := cycle_round w epoch nonce ids in (w, (s ::.) <$> rs)
      end
  end.

Definition marked_stats (ids : list NodeID) (rs : list statusReply) : list NodeStat :=
  zip_with (λ id s, MkNodeStat (arr_bytes id) (sr_Marked s) 0 0 0 false 0 0) ids rs.

Fixpoint cycle_poll (fuel : nat) (w : W) (deadline : Z) (epoch : N) (nonce : bytes) (ids : list NodeID) (coordSent : N)
    (stable : nat) (lastSum : N * N) : W * (cycle_err + list NodeStat * list key) :=
  match fuel with
  | O => (w, inl CyFuel)
  | S fuel =>
      if (deadline <? cw_now w)%Z then (abort w epoch "mark timeout", inl (CyText "mark timeout"))
      else
        let '(w, ok) := cw_sleep w in
        if negb ok then (w, inl CyDone)
        else
          let '(w, rs) := cycle_round w epoch nonce ids in
          match rs with
          | None => (abort w epoch "a worker lost its mark state or refused a batch", inl (CyText "mark aborted: worker error"))
          | Some rs =>
              let r := poll_round coordSent rs in
              match Keys32 (rd_missing r) with
              | None => (abort w epoch "a worker lost its mark state or refused a batch", inl (CyText "mark aborted: worker error"))
              | Some missing =>
                  let stable := poll_stable stable lastSum r in
                  if (2 <=? stable)%nat then (w, inr (marked_stats ids rs, missing))
                  else cycle_poll fuel w deadline epoch nonce ids coordSent stable (rd_sent r, rd_recv r)
              end
          end
  end.

(** The first three missing objects, for the error. *)
Fixpoint sample_keys (named : nat) (missing : list key) : string :=
  match missing with
  | [] => ""
  | k :: missing =>
      if decide (k = arr_zero 32) then sample_keys named missing
      else if (named =? 3)%nat then ", ..."
      else (if (0 <? named)%nat then ", " else "") +:+ to_string (hex_encode (arr_bytes k)) +:+ sample_keys (S named) missing
  end.

(** Freezing the workers; the answers are not read. *)
Fixpoint cycle_freeze (w : W) (epoch : N) (nonce : bytes) (ids : list NodeID) : W :=
  match ids with
  | [] => w
  | id :: ids => cycle_freeze (fst (cw_status w id epoch nonce true)) epoch nonce ids
  end.

(** An operator's run waits for the end of the sweep. *)
Fixpoint cycle_follow (fuel : nat) (w : W) (epoch : N) : W * option cycle_err :=
  match fuel with
  | O => (w, Some CyFuel)
  | S fuel =>
      let '(w, ok) := cw_sleep w in
      if negb ok then (w, Some CyDone)
      else
        let '(w, r) := cw_ReadGC w in
        match r with
        | inl e => (w, Some (CyErr e))
        | inr cur =>
            let w := cw_poll (observe w cur) in
            if negb (GC_Epoch cur =? epoch) || negb (Phase cur =? PhaseSweep)%Z then (w, None) else cycle_follow fuel w epoch
        end
  end.

(** From the roots to the complete mark. *)
Definition cycle_mark (fuel : nat) (w : W) (pv : View) (epoch : N) (nonce : bytes) (tolerate : bool) (acked : list bytes) :
    W * (cycle_err + list NodeStat) :=
  let '(w, r) := cw_RefsSnapshot w in
  match r with
  | inl e => (abort w epoch ("roots snapshot: " +:+ errText e), inl (CyErr e))
  | inr roots =>
      let '(w, e) := cycle_workers w epoch nonce (Encode pv) acked (IDsOf acked) in
      match e with
      | Some e => (w, inl e)
      | None =>
          let '(w, co) := fold_left (cycle_root epoch) (root_keys roots)
                            (w, coordinator self epoch nonce (NewPlacement blake3 pv) acked) in
          let '(w, co) := cw_flushOut w co in
          let '(w, r) := cycle_poll fuel w (cw_now w + MarkTimeout cfg) epoch nonce (IDsOf acked) (ms_sent co) 0 (0, 0) in
          match r with
          | inl e => (w, inl e)
          | inr (marked, missing) =>
              if missing_stops leaf tolerate missing then
                let '(w, _, _) := cw_CASGC w (missing_gc (RawKeys missing)) in
                let n := pretty (N.of_nat (length missing)) in
                (abort w epoch (n +:+ " objects missing under references"),
                 inl (CyText ("gc: " +:+ n +:+ " objects missing under references; nothing swept (missing: " +:+
                              sample_keys 0 missing +:+ ")")))
              else (w, inr marked)
          end
      end
  end.

(** One cycle on the view [v]; the nonce is random. *)
Definition cycle_run (fuel : nat) (w : W) (v : View) (nonce : bytes) (tolerate manual : bool) : W * option cycle_err :=
  let '(w, st, err) := cw_CASGC w (start_gc cfg nonce tolerate next) in
  match err with
  | Some e => (w, Some (CyErr e))
  | None =>
      let epoch := GC_Epoch st in
      let g := cw_gc w in
      let w := cw_set w (g <| gs_started := gs_started g ∪ {[epoch]} |>) in
      let w := cw_barrier w epoch (AllMembers v) in
      let pv := default v (cw_view w) in
      let '(w, st, err) := cw_CASGC w (toMark_gc epoch (Encode pv)) in
      match err with
      | Some e => (w, Some (CyErr e))
      | None =>
          if decide (Acked st = []) then (abort w epoch "no node acked the barrier", Some (CyText "no node acked the barrier"))
          else
            let '(w, r) := cycle_mark fuel w pv epoch nonce tolerate (Acked st) in
            match r with
            | inl e => (w, Some e)
            | inr marked =>
                let w := cycle_freeze w epoch nonce (IDsOf (Acked st)) in
                let '(w, _, err) := cw_CASGC w (toSweep_gc epoch marked) in
                match err with
                | Some e => (w, Some (CyErr e))
                | None => if manual then cycle_follow fuel w epoch else (w, None)
                end
            end
      end
  end.

Definition runCycle (fuel : nat) (w : W) (nonce : bytes) (tolerate manual : bool) : W * option cycle_err :=
  match cw_view w with
  | None => (w, Some (CyText "no view"))
  | Some v =>
      if manual then
        let g := cw_gc w in
        let w := cw_set w (g <| gs_manual := (gs_manual g + 1)%Z |>) in
        let '(w, e) := cycle_wait fuel w in
        let '(w, e) := match e with Some e => (w, Some e) | None => cycle_run fuel w v nonce tolerate true end in
        let g := cw_gc w in
        (cw_set w (g <| gs_manual := (gs_manual g - 1)%Z |>), e)
      else cycle_run fuel w v nonce tolerate false
  end.

(** The operator's gc-run. *)
Definition gc_run (fuel : nat) (w : W) (nonce : bytes) (tolerate : bool) (garbage : N) : W * option cycle_err :=
  if float_pos garbage then
    let '(w, _, err) := cw_CASGC w (resweep_gc garbage) in (w, CyErr <$> err)
  else runCycle fuel w nonce tolerate true.
End node.

(** [fmt] prints a time. *)
Definition statusText (fmt : Z → string) (st : GCState) : string :=
  ("epoch " +:+ pretty (GC_Epoch st) +:+ " " +:+ PhaseName (Phase st) +:+
  (if (0 <? BarrierAt st)%Z then ", barrier " +:+ fmt (BarrierAt st) else "") +:+
  (if ((Phase st =? PhaseBarrier) || (Phase st =? PhaseMark) || (Phase st =? PhaseSweep))%Z
   then ", " +:+ pretty (length (Acked st)) +:+ " acked" else "") +:+
  (if (Phase st =? PhaseSweep)%Z
   then ", " +:+ pretty (length (SweepDone st)) +:+ "/" +:+ pretty (length (Acked st)) +:+ " swept (wave " +:+ pretty (SweepWave st) +:+ ")"
   else "") +:+
  (if Hold st then ", ON HOLD" else "") +:+
  (if bool_decide (GC_Error st ≠ "") then ", last error: " +:+ GC_Error st else "") +:+
  (if bool_decide (GC_Missing st ≠ []) then ", " +:+ pretty (length (GC_Missing st)) +:+ " missing objects" else "") +:+
  (if bool_decide (GC_Last st ≠ []) then
     "; last epoch " +:+ pretty (LastOK st) +:+ ": " +:+ pretty (foldr (λ s acc, u64 (NS_Live s + acc)) 0 (GC_Last st)) +:+
     " live records, " +:+ pretty (foldr (λ s acc, u64 (NS_Freed s + acc)) 0 (GC_Last st)) +:+ " bytes freed"
   else ""))%string.
