(* ===== verification/GCSafety.v ===== *)
(** Garbage collection, the proofs: the gc register over its histories, the
    waves of a sweep, what a sweep may drop, pins over a node's life, the mark on
    disk, and a cycle's failures. *)
From stdpp Require Import functions.
From S2P Require Import Prelude Store Placement View Wire Ballot Proposer Catalog Meta Mark MarkSafety Pins GC.

Local Open Scope N_scope.

(** * The register *)

(** The changes the nodes make, with whatever they decided them on. *)
Inductive gc_op : gc_change → Prop :=
  | go_ack epoch self : gc_op (ack_gc epoch self)
  | go_start cfg nonce tolerate next : gc_op (start_gc cfg nonce tolerate next)
  | go_toMark epoch pv : gc_op (toMark_gc epoch pv)
  | go_missing raw : gc_op (missing_gc raw)
  | go_toSweep epoch marked : gc_op (toSweep_gc epoch marked)
  | go_abort epoch reason : gc_op (abort_gc epoch reason)
  | go_resweep garbage : gc_op (resweep_gc garbage)
  | go_close epoch : gc_op (close_gc epoch)
  | go_wave epoch : gc_op (wave_gc epoch)
  | go_noMark epoch self : gc_op (noMark_gc epoch self)
  | go_sweepDone epoch self stat : gc_op (sweepDone_gc epoch self stat)
  | go_hold pause : gc_op (hold_gc pause)
  | go_restore : gc_op restore_gc.

(** A change that goes through; the epoch counter does not wrap. *)
Definition reg_step (st st' : GCState) : Prop :=
  GC_Epoch st + 1 < u64_max ∧ ∃ ch now, gc_op ch ∧ ch now st = (st', None).

Record gc_ok (st : GCState) : Prop := {
  ok_phase : (PhaseIdle ≤ Phase st ≤ PhaseAborted)%Z;
  ok_idle : Phase st = PhaseIdle → GC_Epoch st = LastOK st;
  ok_last : LastOK st ≤ GC_Epoch st;
  ok_done : MarkDone st = true ↔ Phase st = PhaseSweep ∨ Phase st = PhaseIdle ∧ LastOK st ≠ 0;
  ok_before : Phase st = PhaseBarrier ∨ Phase st = PhaseMark → SweepDone st = [] ∧ SweepWave st = 0%Z;
  ok_wave : Phase st = PhaseSweep → (1 ≤ SweepWave st)%Z;
  ok_acked : NoDup (Acked st) ∧ Forall (λ b, length b = 32%nat) (Acked st);
  ok_epoch : Phase st ≠ PhaseIdle → GC_Epoch st ≠ 0;
}.

(** The phases as a machine: an epoch runs from barrier through mark to sweep, or
    ends aborted before the sweep; a finished one may be swept again. *)
Inductive phase_step : N * Z → N * Z → Prop :=
  | ph_start e p : p = PhaseIdle ∨ p = PhaseAborted → phase_step (e, p) (e + 1, PhaseBarrier)
  | ph_mark e : phase_step (e, PhaseBarrier) (e, PhaseMark)
  | ph_sweep e : phase_step (e, PhaseMark) (e, PhaseSweep)
  | ph_abort e p : p = PhaseBarrier ∨ p = PhaseMark → phase_step (e, p) (e, PhaseAborted)
  | ph_close e : phase_step (e, PhaseSweep) (e, PhaseIdle)
  | ph_again e : e ≠ 0 → phase_step (e, PhaseIdle) (e, PhaseSweep).

Definition phase_of (st : GCState) : N * Z := (GC_Epoch st, Phase st).

(** What is fixed once the mark of an epoch began. *)
Definition marking (st : GCState) : Prop := Phase st ≠ PhaseBarrier.
Definition frozen (st st' : GCState) : Prop := Acked st' = Acked st ∧ GC_Placement st' = GC_Placement st.

Ltac gc_tests :=
  repeat match goal with
  | H : (if _ then _ else _) = _ |- _ => case_match
  | H : (_, Some _) = (_, None) |- _ => discriminate H
  | H : (_, None) = (_, None) |- _ => injection H as <-
  | H : (_ || _)%bool = false |- _ => apply orb_false_iff in H as [? ?]
  | H : negb _ = false |- _ => apply negb_false_iff in H
  | H : (_ =? _)%Z = true |- _ => apply Z.eqb_eq in H
  | H : (_ =? _)%Z = false |- _ => apply Z.eqb_neq in H
  | H : (_ =? _) = true |- _ => apply N.eqb_eq in H
  | H : (_ =? _) = false |- _ => apply N.eqb_neq in H
  end.

(** What every change keeps, and the phase edge it takes. *)
Definition good_step (st st' : GCState) : Prop :=
  gc_ok st' ∧ (phase_of st' = phase_of st ∨ phase_step (phase_of st) (phase_of st')) ∧
  (GC_Epoch st' = GC_Epoch st → marking st → marking st' ∧ frozen st st').

Ltac phases := cbv [PhaseIdle PhaseAborted PhaseBarrier PhaseMark PhaseSweep] in *.

(** A change of neither phase, waves nor nodes. *)
Lemma frame_good st st' : gc_ok st → phase_of st' = phase_of st → LastOK st' = LastOK st → MarkDone st' = MarkDone st → Acked st' = Acked st →
  GC_Placement st' = GC_Placement st → SweepWave st' = SweepWave st → (SweepDone st' = SweepDone st ∨ Phase st = PhaseSweep) → good_step st st'.
Proof.
  intros [H1 H2 H3 H4 H5 H6 H7 H8] [= Ee Ep] El Em Ea Epl Ew Es. phases.
  unfold good_step, marking, frozen. split; [|split; [by left; unfold phase_of; congruence|by rewrite Ep]].
  split; phases; rewrite ?Ee, ?Ep, ?El, ?Em, ?Ea, ?Ew; try done. intros Hp. destruct Es as [->|?]; [auto|lia].
Qed.

Lemma ack_good epoch self now st st' : gc_ok st → ack_gc epoch self now st = (st', None) → good_step st st'.
Proof.
  intros [H1 H2 H3 H4 H5 H6 [H7 H7'] H8] H. unfold ack_gc in H. gc_tests.
  split; [|split; [by left|by unfold marking; intros _ []]]. split; simpl; try done. split; [by apply AddID_NoDup|].
  apply Forall_forall. intros b [?| ->]%elem_of_AddID; [by eapply Forall_forall in H7'|apply arr_length].
Qed.

Lemma start_good cfg nonce tolerate next now st st' : GC_Epoch st + 1 < u64_max → gc_ok st →
  start_gc cfg nonce tolerate next now st = (st', None) → good_step st st'.
Proof.
  intros Hb [H1 H2 H3 H4 H5 H6 H7 H8] H. unfold start_gc in H. gc_tests. phases.
  assert (Phase st = 0%Z ∨ Phase st = 4%Z) as Hp by lia. split; [|split].
  - split; phases; cbn -[u64]; rewrite ?u64_small by lia; try done; try lia. split; constructor.
  - right. unfold phase_of. cbn -[u64]. rewrite u64_small by lia. by apply ph_start.
  - cbn -[u64]. rewrite u64_small by lia. lia.
Qed.

Lemma toMark_good epoch pv now st st' : gc_ok st → toMark_gc epoch pv now st = (st', None) → good_step st st'.
Proof.
  intros [H1 H2 H3 H4 H5 H6 H7 H8] H. unfold toMark_gc in H. gc_tests. phases. rename H0 into Hp. split; [|split].
  - split; phases; cbn; try done; try lia; [rewrite H4, Hp; lia|]. intros _. apply H5. by left.
  - right. unfold phase_of. cbn. rewrite Hp. apply ph_mark.
  - unfold marking. intros _ []. done.
Qed.

Lemma toSweep_good epoch marked now st st' : gc_ok st → toSweep_gc epoch marked now st = (st', None) → good_step st st'.
Proof.
  intros [H1 H2 H3 H4 H5 H6 H7 H8] H. unfold toSweep_gc in H. gc_tests. phases. rename H0 into Hp. split; [|split].
  - split; phases; cbn; try done; try lia.
  - right. unfold phase_of. cbn. rewrite Hp. apply ph_sweep.
  - by unfold marking.
Qed.

Lemma abort_good epoch reason now st st' : gc_ok st → abort_gc epoch reason now st = (st', None) → good_step st st'.
Proof.
  intros [H1 H2 H3 H4 H5 H6 H7 H8] H. unfold abort_gc in H. gc_tests. phases.
  assert (Phase st = 1%Z ∨ Phase st = 2%Z ∨ Phase st = 4%Z) as Hp by lia. split; [|split].
  - split; phases; cbn; try done; try lia. rewrite H4. lia.
  - unfold phase_of. cbn. destruct Hp as [E|[E|E]]; rewrite E; [right; apply ph_abort; by left|right; apply ph_abort; by right|by left].
  - unfold marking. by intros _ _.
Qed.

Lemma resweep_good garbage now st st' : gc_ok st → resweep_gc garbage now st = (st', None) → good_step st st'.
Proof.
  intros [H1 H2 H3 H4 H5 H6 H7 H8] H. unfold resweep_gc in H. gc_tests. phases. rename H into Hp. specialize (H2 Hp). split; [|split].
  - split; phases; cbn; try done; try lia. rewrite H4. lia.
  - right. unfold phase_of. cbn. rewrite Hp, H2. by apply ph_again.
  - unfold marking. by intros _ _.
Qed.

Lemma close_good epoch now st st' : gc_ok st → close_gc epoch now st = (st', None) → good_step st st'.
Proof.
  intros [H1 H2 H3 H4 H5 H6 H7 H8] H. unfold close_gc in H. gc_tests. phases. rename H0 into Hp. split; [|split].
  - split; phases; cbn; try done; try lia. rewrite H4. lia.
  - right. unfold phase_of. cbn. rewrite Hp. apply ph_close.
  - unfold marking. by intros _ _.
Qed.

Lemma wave_good epoch now st st' : gc_ok st → wave_gc epoch now st = (st', None) → good_step st st'.
Proof.
  intros [H1 H2 H3 H4 H5 H6 H7 H8] H. unfold wave_gc in H. gc_tests. phases.
  split; [|split; [by left|by intros _ ?]]. split; phases; simpl; try done; [intros [?|?]; lia|intros E; specialize (H6 E); lia].
Qed.

Lemma reg_step_good st st' : reg_step st st' → gc_ok st → good_step st st'.
Proof.
  intros [Hb (ch & now & Hop & H)] Hok.
  destruct Hop; [by eapply ack_good|by eapply start_good|by eapply toMark_good| |by eapply toSweep_good|by eapply abort_good|
    by eapply resweep_good|by eapply close_good|by eapply wave_good|..];
    cbv [missing_gc noMark_gc sweepDone_gc hold_gc restore_gc] in H; gc_tests; apply frame_good; simpl; auto.
Qed.

Lemma gc_ok_initial : gc_ok GCState0.
Proof. split; phases; try done; try lia; [|split; constructor]. simpl. split; [done|]. by intros [?|[_ ?]]. Qed.

Lemma gc_ok_reachable st : rtc reg_step GCState0 st → gc_ok st.
Proof.
  intros H. pattern st. eapply rtc_ind_r; [exact gc_ok_initial| |exact H]. intros x y _ Hs Hx. by apply (reg_step_good x y Hs Hx).
Qed.

Lemma epoch_grows st st' : rtc reg_step st st' → gc_ok st → GC_Epoch st ≤ GC_Epoch st' ∧
  (GC_Epoch st' = GC_Epoch st → marking st → marking st' ∧ frozen st st').
Proof.
  induction 1 as [st|st st1 st2 Hs Hr IH]; intros Hok; [done|]. destruct (reg_step_good _ _ Hs Hok) as (Hok1 & Hph & Hfr).
  destruct (IH Hok1) as [Hle Hfr2]. assert (GC_Epoch st ≤ GC_Epoch st1) as Hle1.
  { destruct Hph as [[= E _]|Hph]; [lia|]. inversion Hph; simpl in *; lia. }
  split; [lia|]. intros E Hm. assert (GC_Epoch st1 = GC_Epoch st) as E1 by lia. destruct (Hfr E1 Hm) as (Hm1 & Ha & Hp).
  destruct Hfr2 as (? & Ha2 & Hp2); [lia|done|]. split; [done|]. split; congruence.
Qed.

(** C30 The gc register as a phase machine: whoever makes the changes, on whatever
    it read before, an epoch goes from barrier to mark to sweep, is aborted only
    before the sweep, and ends idle; only a finished epoch is swept again; the
    mark is recorded as done exactly from the sweep on. *)
Theorem gc_phase_refines st st' : rtc reg_step GCState0 st → reg_step st st' →
  gc_ok st' ∧ (phase_of st' = phase_of st ∨ phase_step (phase_of st) (phase_of st')).
Proof. intros Hr Hs. destruct (reg_step_good st st' Hs (gc_ok_reachable _ Hr)) as (? & ? & _). done. Qed.

(** Once the barrier of an epoch is over, the nodes that acked it and the
    placement it is marked against do not change any more, through the mark, the
    sweep and later sweeps of the same epoch; epochs never go back. *)
Theorem acked_frozen st st' : rtc reg_step GCState0 st → rtc reg_step st st' →
  GC_Epoch st ≤ GC_Epoch st' ∧
  (GC_Epoch st' = GC_Epoch st → Phase st ≠ PhaseBarrier → Phase st' ≠ PhaseBarrier ∧ Acked st' = Acked st ∧ GC_Placement st' = GC_Placement st).
Proof. intros Hr Hs. by apply epoch_grows; [|apply gc_ok_reachable]. Qed.

(** * Waves *)

Lemma quarter_pos acked : (1 ≤ quarter acked)%Z.
Proof.
  unfold quarter. destruct (Z.eqb_spec (Z.quot (Z.of_nat (length acked) + 3) 4) 0); [done|].
  assert (0 ≤ Z.quot (Z.of_nat (length acked) + 3) 4)%Z by (apply Z.quot_pos; lia). lia.
Qed.

Lemma quarter_covers acked : (Z.of_nat (length acked) ≤ 4 * quarter acked)%Z.
Proof.
  pose proof (quarter_pos acked). unfold quarter in *. destruct (Z.eqb_spec (Z.quot (Z.of_nat (length acked) + 3) 4) 0) as [E|E].
  - rewrite Z.quot_div_nonneg in E by lia. pose proof (Z.mod_pos_bound (Z.of_nat (length acked) + 3) 4 ltac:(lia)).
    pose proof (Z.div_mod (Z.of_nat (length acked) + 3) 4 ltac:(lia)). lia.
  - rewrite Z.quot_div_nonneg by lia. pose proof (Z.mod_pos_bound (Z.of_nat (length acked) + 3) 4 ltac:(lia)).
    pose proof (Z.div_mod (Z.of_nat (length acked) + 3) 4 ltac:(lia)). lia.
Qed.

Lemma released_all st : (4 ≤ SweepWave st)%Z → released st = length (Acked st).
Proof. intros H. unfold released. pose proof (quarter_covers (Acked st)). pose proof (quarter_pos (Acked st)). nia. Qed.

(** The released nodes that have not reported yet report, in any order and with
    any numbers; then the coordinator looks. *)
Definition reports (st : GCState) (stats : list NodeStat) : GCState :=
  fold_left (λ st s, fst (sweepDone_gc (GC_Epoch st) (arr_of 32 (NS_ID s)) s 0%Z st)) stats st.

Definition tick (cfg : gcConfig) (st : GCState) (round : list NodeStat * Z) : GCState :=
  let st := reports st round.1 in
  match observeSweep cfg round.2 st with Some ch => (ch round.2 st).1 | None => st end.

Lemma filter_all {A} (P : A → Prop) `{∀ x, Decision (P x)} (l : list A) : (∀ x, x ∈ l → P x) → filter P l = l.
Proof.
  induction l as [|x l IH]; intros Hl; [done|]. rewrite filter_cons_True by (apply Hl; left). f_equal. apply IH. intros. apply Hl. by right.
Qed.

Lemma report_spec st s : Phase st = PhaseSweep → length (NS_ID s) = 32%nat →
  let st' := fst (sweepDone_gc (GC_Epoch st) (arr_of 32 (NS_ID s)) s 0%Z st) in
  Phase st' = PhaseSweep ∧ GC_Epoch st' = GC_Epoch st ∧ Acked st' = Acked st ∧ SweepWave st' = SweepWave st ∧
  NS_ID s ∈ NS_ID <$> SweepDone st' ∧ SweepDone st ⊆ SweepDone st'.
Proof.
  intros Hp Hl. unfold sweepDone_gc. rewrite N.eqb_refl, Hp. simpl. unfold reported_in.
  pose proof (arr_of_exact 32 (NS_ID s) Hl) as E. destruct (existsb _ _) eqn:Ex; simpl; split_and!; try done.
  - apply existsb_exists in Ex as (s' & Hs' & Hb). apply bool_decide_eq_true in Hb. rewrite E in Hb. rewrite <- Hb.
    apply list_elem_of_fmap_2. by apply list_elem_of_In.
  - rewrite fmap_app. apply elem_of_app. right. by left.
  - by apply list_subseteq_app_l.
Qed.

Lemma reports_spec st stats : Phase st = PhaseSweep → Forall (λ s, length (NS_ID s) = 32%nat) stats →
  let st' := reports st stats in
  Phase st' = PhaseSweep ∧ GC_Epoch st' = GC_Epoch st ∧ Acked st' = Acked st ∧ SweepWave st' = SweepWave st ∧
  (∀ s, s ∈ stats → NS_ID s ∈ NS_ID <$> SweepDone st') ∧ SweepDone st ⊆ SweepDone st'.
Proof.
  intros Hp Hl. revert st Hp. induction Hl as [|s stats Hs Hl IH]; intros st Hp; simpl; [split_and!; try done; by intros s ?%elem_of_nil|].
  destruct (report_spec st s Hp Hs) as (E1 & E2 & E3 & E4 & E5 & E6).
  set (st1 := fst (sweepDone_gc (GC_Epoch st) (arr_of 32 (NS_ID s)) s 0%Z st)) in *. clearbody st1. destruct (IH st1 E1) as (F1 & F2 & F3 & F4 & F5 & F6).
  unfold reports in *. split_and!; try congruence; [|by etrans]. intros s' [->|Hin]%elem_of_cons; [|auto].
  eapply (list_elem_of_fmap) in E5 as (s2 & Es & Hs2). rewrite Es. apply list_elem_of_fmap_2. by apply F6.
Qed.

(** In every round the nodes of the released waves report. *)
Fixpoint covered (cfg : gcConfig) (st : GCState) (rounds : list (list NodeStat * Z)) : Prop :=
  match rounds with
  | [] => True
  | r :: rounds =>
      Forall (λ s, length (NS_ID s) = 32%nat) r.1 ∧ (∀ id, id ∈ take (released st) (Acked st) → id ∈ NS_ID <$> r.1) ∧
      covered cfg (tick cfg st r) rounds
  end.

Definition ticks (cfg : gcConfig) (st : GCState) (rounds : list (list NodeStat * Z)) : GCState := fold_left (tick cfg) rounds st.

Lemma ticks_idle cfg st rounds : Phase st = PhaseIdle → ticks cfg st rounds = st.
Proof.
  intros Hp. induction rounds as [|r rounds IH]; [done|]. simpl. assert (tick cfg st r = st) as ->; [|done].
  unfold tick. assert (reports st r.1 = st) as ->.
  { induction r.1 as [|s l IH']; [done|]. unfold reports in *. simpl. unfold sweepDone_gc at 2.
    rewrite Hp, orb_true_r. simpl. exact IH'. }
  unfold observeSweep. destruct (_ || _); [unfold close_gc; by rewrite Hp, orb_true_r|].
  destruct (_ && _); [unfold wave_gc; by rewrite Hp, orb_true_r|done].
Qed.

(** A round after which every released node has reported closes the epoch or
    releases the next wave. *)
Lemma tick_spec cfg st r : Phase st = PhaseSweep → NoDup (Acked st) → Forall (λ s, length (NS_ID s) = 32%nat) r.1 →
  (∀ id, id ∈ take (released st) (Acked st) → id ∈ NS_ID <$> r.1) →
  let st' := tick cfg st r in
  Phase st' = PhaseIdle ∧ LastOK st' = GC_Epoch st ∨
  (released st < length (Acked st))%nat ∧ Phase st' = PhaseSweep ∧ GC_Epoch st' = GC_Epoch st ∧ Acked st' = Acked st ∧ SweepWave st' = (SweepWave st + 1)%Z.
Proof.
  intros Hp Hnd Hl Hc. destruct (reports_spec st r.1 Hp Hl) as (E1 & E2 & E3 & E4 & E5 & _).
  unfold tick. set (st1 := reports st r.1) in *.
  assert (released st1 = released st) as Er by (unfold released; by rewrite E3, E4).
  assert (∀ id, id ∈ take (released st) (Acked st) → id ∈ sweep_done st1) as Hdone.
  { intros id Hid. unfold sweep_done. apply elem_of_remove_dups. apply Hc in Hid. apply list_elem_of_fmap in Hid as (s & -> & ?). auto. }
  assert (released_done st1 = length (take (released st) (Acked st))) as Ed.
  { unfold released_done. rewrite E3, Er. f_equal. by apply filter_all. }
  rewrite length_take in Ed. assert (released st ≤ length (Acked st))%nat as Hle by (unfold released; lia).
  unfold observeSweep. rewrite E2, E3, Er, Ed.
  destruct ((length (Acked st) <=? length (sweep_done st1))%nat || (SweepTimeout cfg <? since r.2 (SnapshotAt st1))%Z) eqn:Et.
  - left. unfold close_gc. rewrite E1, E2, N.eqb_refl. done.
  - right. apply orb_false_iff in Et as [Et%Nat.leb_gt _]. assert (released st < length (Acked st))%nat as Hlt.
    { apply Nat.le_neq. split; [done|]. intros E. enough (length (Acked st) ≤ length (sweep_done st1))%nat by lia.
      apply submseteq_length, NoDup_submseteq; [done|]. intros id Hid. apply Hdone. rewrite E, firstn_all. done. }
    assert (released st <=? released st `min` length (Acked st) = true)%nat as -> by (apply Nat.leb_le; lia).
    assert (released st <? length (Acked st) = true)%nat as -> by (by apply Nat.ltb_lt). simpl. unfold wave_gc. rewrite E1, E2, N.eqb_refl.
    simpl. by rewrite E3, E4.
Qed.

Lemma sweep_closes cfg st rounds : Phase st = PhaseSweep → (1 ≤ SweepWave st)%Z → NoDup (Acked st) → covered cfg st rounds →
  (5 - SweepWave st ≤ Z.of_nat (length rounds))%Z → (1 ≤ length rounds)%nat →
  Phase (ticks cfg st rounds) = PhaseIdle ∧ LastOK (ticks cfg st rounds) = GC_Epoch st.
Proof.
  revert st. induction rounds as [|r rounds IH]; intros st Hp Hw Hnd Hc Hn H1; [simpl in *; lia|].
  destruct Hc as (Hl & Hr & Hc). simpl. destruct (tick_spec cfg st r Hp Hnd Hl Hr) as [[Ei El]|(Hlt & E1 & E2 & E3 & E4)].
  - by rewrite ticks_idle.
  - simpl in Hn. assert (SweepWave st < 4)%Z by (apply Z.nle_gt; intros ?%released_all; lia).
    rewrite <- E2. apply IH; rewrite ?E3, ?E4; try done; lia.
Qed.

(** A sweep ends: a quarter of the acked nodes is released at a time, and when
    every released node reports before the coordinator's next look, the epoch is
    closed after at most four looks. *)
Theorem sweep_completes cfg st rounds : rtc reg_step GCState0 st → Phase st = PhaseSweep → covered cfg st rounds → length rounds = 4%nat →
  Phase (ticks cfg st rounds) = PhaseIdle ∧ LastOK (ticks cfg st rounds) = GC_Epoch st.
Proof.
  intros Hr Hp Hc Hn. pose proof (gc_ok_reachable _ Hr) as Hok. pose proof (ok_wave _ Hok Hp).
  apply sweep_closes; try done; [by apply Hok|lia|lia].
Qed.

(** * Marks on disk *)

Lemma read_keys_spec (l : list key) fuel : (length l ≤ fuel)%nat → read_keys fuel (concat (arr_bytes <$> l)) = list_to_set l.
Proof.
  revert fuel. induction l as [|k l IH]; intros fuel Hf; [by destruct fuel|]. destruct fuel as [|fuel]; [simpl in Hf; lia|].
  cbn [fmap list_fmap concat]. cbn [read_keys]. rewrite length_app, arr_length.
  replace (32 <=? 32 + length (concat (arr_bytes <$> l)))%nat with true by (symmetry; apply Nat.leb_le; lia).
  rewrite take_app_length', drop_app_length' by (by rewrite arr_length). rewrite arr_of_bytes. simpl in Hf. rewrite IH by lia. done.
Qed.

Lemma length_concat_keys (l : list key) : length (concat (arr_bytes <$> l)) = (32 * length l)%nat.
Proof.
  induction l as [|k l IH]; [done|]. cbn [fmap list_fmap concat length]. rewrite length_app, arr_length. unfold fmap in *. rewrite IH. lia.
Qed.

Section disk.
Context (blake3 : bytes → nat → bytes) {DB : Type} `{KVStore DB}.
Context `{Codec barrierRecord} `{Codec gcMeta} `{Codec markHeader} `{Codec View}.

(** What the header of a mark becomes. *)
Definition header (ms : markState) : bytes :=
  marshal (MkMarkHeader (ms_epoch ms) (ms_count ms) (ms_eligBelow ms) (Encode (pl_view (ms_placement ms)))).

Lemma load_persisted (d : DB) segs order ms : (∀ l, order l ≡ₚ l) → 4 + N.of_nat (length (header ms)) < 2 ^ 32 →
  loadMark blake3 d (Some segs) (Some (persistMark order ms)) =
  Loaded (MkSweepInput (ms_epoch ms) (ms_count ms)
    (match history d (u64_pred (ms_count ms)) with Some prev => EligibleBelow prev | None => 0 end)
    (NewPlacement blake3 (pl_view (ms_placement ms))) (eligible_of segs (ms_eligBelow ms)) (ms_marked ms) false).
Proof.
  intros Ho Hl. unfold loadMark, persistMark. fold (header ms). set (keys := order (elements (ms_marked ms))).
  set (lb := be_encode 4 (N.of_nat (length (header ms)))). assert (length lb = 4%nat) as Elb by apply length_be_encode.
  rewrite !length_app, Elb. replace (4 + _ <? 4)%nat with false by (symmetry; apply Nat.ltb_ge; lia).
  rewrite take_app_length' by done. assert (be_decode lb = N.of_nat (length (header ms))) as -> by (apply be_decode_encode; simpl; lia).
  rewrite N.mod_small by done. set (hi := N.to_nat (4 + N.of_nat (length (header ms)))).
  assert (hi = (4 + length (header ms))%nat) as Ehi by (unfold hi; lia).
  replace ((hi <? 4)%nat || _) with false by (symmetry; apply orb_false_iff; split; apply Nat.ltb_ge; lia).
  rewrite app_assoc. assert (length (lb ++ header ms) = hi) as Elh by (rewrite length_app; lia).
  rewrite take_app_length', drop_app_length' by done. rewrite drop_app_length' by done. unfold header at 1. rewrite unmarshal_marshal. cbn [mh_View].
  rewrite Decode_Encode. cbn [mh_Count mh_Epoch mh_EligBelow]. rewrite read_keys_spec by (rewrite length_concat_keys; lia).
  assert (list_to_set keys = ms_marked ms) as ->; [|done]. apply leibniz_equiv. intros k.
  rewrite elem_of_list_to_set. unfold keys. rewrite Ho. apply elem_of_elements.
Qed.

(** A restart does not change what a node sweeps: the sweep input read back from
    the mark on disk, when the packs below the bound are the ones the mark
    was made for, is the one the mark in memory gave. *)
Theorem restart_keeps_mark (g g' : gcState DB) order segs ms v segs' file : (∀ l, order l ≡ₚ l) → 4 + N.of_nat (length (header ms)) < 2 ^ 32 →
  gs_mark g = Some ms → ms_placement ms = NewPlacement blake3 v → ms_eligible ms = eligible_of segs (ms_eligBelow ms) →
  gs_mark g' = None → gs_db g' = gs_db g →
  sweepInputFor blake3 g' (Some segs) (Some (persistMark order ms)) (ms_epoch ms) = sweepInputFor blake3 g segs' file (ms_epoch ms).
Proof.
  intros Ho Hl Hm Hp He Hm' Hd. unfold sweepInputFor. rewrite Hm, Hm', N.eqb_refl, load_persisted by done.
  by rewrite Hd, Hp, <- He.
Qed.
End disk.

(** * What a sweep may drop *)

Lemma InWriteSet_spec blake3 v key id : InWriteSet (NewPlacement blake3 v) key id = true ↔ id ∈ WriteSet (NewPlacement blake3 v) key.
Proof.
  rewrite WriteSet_eq. unfold InWriteSet, IsPendingOwner, IsOwner_of. rewrite orb_true_iff.
  unfold NewPlacement. cbn [pl_cur pl_pending]. rewrite IsOwner_NewTable.
  destruct (View_Pending v) as [q|]; cbn [fmap option_fmap option_map]; [|intuition congruence]. by rewrite elem_of_append_unseen, IsOwner_NewTable.
Qed.

Section live.
Context {DB : Type} `{KVStore DB} `{Codec packStamp} (self : NodeID) (storeID : bytes).

Lemma live_false (d : DB) si cur k : live self storeID d si cur k = false ↔
  isCorrupt d k = true ∨
  ∃ pack, si_eligible si !! k = Some pack ∧ pack < si_eligBelow si ∧ pinned d k (u64_pred (si_count si)) = false ∧
    (InWriteSet (si_placement si) k self = true ∧ k ∉ si_marked si ∧ si_overflow si = false ∨
     InWriteSet (si_placement si) k self = false ∧ InWriteSet cur k self = false ∧ settled d storeID pack (pl_view cur) = true).
Proof.
  unfold live. destruct (isCorrupt d k); [naive_solver|]. destruct (si_eligible si !! k) as [p|]; [|naive_solver].
  destruct (N.leb_spec (si_eligBelow si) p) as [Hle|Hlt].
  { split; [done|]. intros [?|(pack & [= <-] & ? & _)]; [done|lia]. }
  destruct (pinned d k (u64_pred (si_count si))); [naive_solver|]. destruct (InWriteSet (si_placement si) k self).
  - rewrite orb_false_iff, bool_decide_eq_false. naive_solver.
  - destruct (InWriteSet cur k self); [naive_solver|]. rewrite negb_false_iff. naive_solver.
Qed.

(** The sweep's predicate: a record is dropped exactly when it is marked
    corrupt, or it is in a pack below the previous ack's bound, is not pinned
    since the count before the mark's, and is either owned under the mark's
    placement and not marked, or owned under neither placement and in a pack that
    is settled for the current one. *)
Theorem live_spec (d : DB) si cur k : live self storeID d si cur k = false ↔
  isCorrupt d k = true ∨
  ∃ pack, si_eligible si !! k = Some pack ∧ pack < si_eligBelow si ∧ pinned d k (u64_pred (si_count si)) = false ∧
    (InWriteSet (si_placement si) k self = true ∧ k ∉ si_marked si ∧ si_overflow si = false ∨
     InWriteSet (si_placement si) k self = false ∧ InWriteSet cur k self = false ∧ settled d storeID pack (pl_view cur) = true).
Proof. apply live_false. Qed.

(** The reconcile pass drops no more than the sweep with the same mark would. *)
Theorem provedDead_dead (g : gcState DB) si cur k pack : gs_lastMark g = Some si → provedDead self g k pack = true →
  live self storeID (gs_db g) si cur k = false.
Proof.
  intros Hm Hp. unfold provedDead in Hp. rewrite Hm in Hp. unfold live. destruct (isCorrupt (gs_db g) k); [done|].
  destruct (si_overflow si) eqn:Eo; [done|]. destruct (InWriteSet (si_placement si) k self) eqn:Ew; [|done]. simpl in Hp.
  destruct (si_eligible si !! k) as [p|]; [|done]. destruct (N.leb_spec (si_eligBelow si) p); [by rewrite orb_true_r in Hp|].
  destruct (negb (p =? pack)); [done|]. simpl in Hp. case_bool_decide; [done|]. by destruct (pinned (gs_db g) k (u64_pred (si_count si))).
Qed.
End live.

(** * Reachable objects survive *)

Section survive.
Context (leaf : key → bool) (ChildKeys : key → bytes → option (list key)) (content : key → option bytes).
Context (coord : NodeID) (epoch : N) (nonce : bytes) (acked : list NodeID) (roots : list key) (blake3 : bytes → nat → bytes) (v : View).
Context {DB : Type} `{KVStore DB} `{Codec barrierRecord} `{Codec gcMeta} `{Codec markHeader} `{Codec View} `{Codec packStamp} (storeID : bytes).

(** The node sweeps with the mark it took part in: still in memory, or read from
    its disk, where packs below the bound only lost records since. *)
Definition sweeps_with (g : gcState DB) (segs : option segments) (file : option bytes) (s2 : gstate) (o : NodeID) : Prop :=
  gs_mark g = Some (g_ms s2 o) ∨
  gs_mark g = None ∧
  (∃ order F, (∀ l, order l ≡ₚ l) ∧ g_file s2 o = Some F ∧ file = Some (persistMark order (g_ms s2 o <| ms_marked := F |>))) ∧
  4 + N.of_nat (length (header (g_ms s2 o))) < 2 ^ 32 ∧
  (∀ sg x, segs = Some sg → is_Some (eligible_of sg (ms_eligBelow (g_ms s2 o)) !! x) → is_Some (ms_eligible (g_ms s2 o) !! x)).

(** C9 Garbage collection keeps what the references reach: on every node that
    took part in a finished mark, an object reachable from the roots that the
    node owned under the mark's placement is live in its sweep, whatever the view
    has become, before and after a restart; only a record marked corrupt, which
    cannot be read, is dropped. *)
Theorem reachable_survives (g : gcState DB) segs file s2 si cur k o : NoDup acked → coord ≠ arr_zero 32 →
  finished leaf ChildKeys content coord epoch nonce (NewPlacement blake3 v) acked roots s2 → reach leaf ChildKeys content roots k → o ∈ acked →
  sweeps_with g segs file s2 o → sweepInputFor blake3 g segs file epoch = Some si →
  InWriteSet (NewPlacement blake3 v) k o = true → isCorrupt (gs_db g) k = false →
  live o storeID (gs_db g) si cur k = true.
Proof.
  intros Hnd Hz Hfin Hr Ho Hs Hsi Hown Hc.
  destruct (finished_worker _ _ _ _ _ _ _ _ _ Hnd Hz _ _ Hfin Ho) as [Ep Ee].
  pose proof (proj1 (InWriteSet_spec _ _ _ _) Hown) as Hw.
  pose proof (mark_kept _ _ _ _ _ _ _ _ _ Hnd Hz _ _ _ Hfin Hr Ho Hw) as Hkept.
  assert (si_placement si = NewPlacement blake3 v ∧ (is_Some (si_eligible si !! k) → k ∈ si_marked si)) as [Esp Hmk].
  { unfold sweepInputFor in Hsi. destruct Hs as [Em|(Em & (order & F & Hord & EF & ->) & Hl & Hel)]; rewrite Em in Hsi.
    - rewrite Ee, N.eqb_refl in Hsi. injection Hsi as <-. simpl. split; [done|]. intros He. by apply Hkept.
    - destruct segs as [sg|].
      2: { unfold loadMark in Hsi. repeat case_match; simplify_eq. }
      rewrite load_persisted in Hsi by done. injection Hsi as <-. simpl. rewrite Ep. split; [done|].
      intros He. destruct (Hkept (Hel sg k eq_refl He)) as (_ & F' & EF' & ?). congruence. }
  apply not_false_iff_true. intros Hlive. apply live_false in Hlive as [?|(pack & Hpk & _ & _ & [(_ & Hno & _)|(Hno & _)])].
  - congruence.
  - apply Hno, Hmk; by eexists.
  - rewrite Esp in Hno. congruence.
Qed.
End survive.

(** * Pins over a node's life *)

Section pins.
Context (blake3 : bytes → nat → bytes) {DB : Type} `{KVStore DB} `{!Reliable DB}.
Context `{Codec barrierRecord} `{Codec gcMeta} `{Codec markHeader} `{Codec View} `{Codec packStamp}.
Context (self : NodeID) (storeID : bytes).

(** What a node does with its bookkeeping; its sweeps are of marks with a count of
    at most [limit]. *)
Inductive node_step (limit : N) (g : gcState DB) : gcState DB → Prop :=
  | ns_pin keys d : pinKeys (gs_db g) (Counter (gs_meta g)) keys = (None, d) → node_step limit g (g <| gs_db := d |>)
  | ns_barrier now segs epoch : Counter (gs_meta g) + 1 < u64_max → node_step limit g (barrier_take now segs g epoch).1
  | ns_confirm c rec : node_step limit g (barrier_confirm g c rec)
  | ns_sweep segs file cur disk compact took epoch garbage :
      (∀ si, sweepInputFor blake3 g segs file epoch = Some si → 1 ≤ si_count si ≤ limit) →
      node_step limit g (sweep blake3 self storeID g segs file cur disk compact took epoch garbage).1
  | ns_corrupt k : node_step limit g (g <| gs_db := markCorrupt (gs_db g) k |>)
  | ns_clear keys : node_step limit g (g <| gs_db := clearCorruptKeys (gs_db g) keys |>)
  | ns_stamp id s : node_step limit g (g <| gs_db := setStamp (gs_db g) storeID id s |>)
  | ns_memory g' : gs_db g' = gs_db g → gs_meta g' = gs_meta g → node_step limit g g'.

(** The pin is there, at the count it was placed at or a later one. *)
Record pin_kept (c : N) (k : key) (g : gcState DB) : Prop := {
  pk_counter : c ≤ Counter (gs_meta g);
  pk_wrap : Counter (gs_meta g) < u64_max;
  pk_pin : ∃ c', pin_at (kv_abs (gs_db g)) k = Some c' ∧ c ≤ c';
}.

Lemma pin_key_other (k : key) x : pin_key k ≠ histKey x ∧ pin_key k ≠ mkGC ∧ (∀ y, pin_key k ≠ corrupt_key y) ∧ (∀ id, pin_key k ≠ stampKey storeID id).
Proof. by split_and!. Qed.

Lemma set_other (d : DB) k x v : pin_key k ≠ x → pin_at (kv_abs (Set_key d x v).2) k = pin_at (kv_abs d) k.
Proof.
  intros Hx. unfold Set_key. destruct (kv_commit d [kv_Set x v]) as [[e|] d'] eqn:E; simpl.
  - apply kv_commit_err in E. by rewrite E.
  - apply kv_commit_ok in E. unfold pin_at. rewrite E. simpl. by rewrite lookup_insert_ne by done.
Qed.

Lemma u64_pred_pos c : 1 ≤ c → c ≤ u64_max → u64_pred c = c - 1.
Proof.
  intros U1 U2. unfold u64_pred, u64. replace (c + u64_max - 1) with (c - 1 + 1 * u64_max) by lia.
  rewrite N.Div0.mod_add. apply N.mod_small. lia.
Qed.

Lemma barrier_kept c k g now segs epoch : Counter (gs_meta g) + 1 < u64_max → pin_kept c k g → pin_kept c k (barrier_take now segs g epoch).1.
Proof.
  intros Hb [Hc Hm (c' & Hp & Hle)]. unfold barrier_take. rewrite u64_small by lia. destruct (pin_key_other k (Counter (gs_meta g) + 1)) as (U1 & U2 & _).
  destruct (SetCBOR (gs_db g) (histKey (Counter (gs_meta g) + 1)) (MkBarrier epoch (activeSegmentID segs) false false)) as [[e|] d] eqn:E;
    pose proof (set_other (gs_db g) k _ (marshal (MkBarrier epoch (activeSegmentID segs) false false)) U1) as Hs; unfold SetCBOR in E; rewrite E in Hs; simpl in *.
  - split; simpl; try done. exists c'. by rewrite Hs.
  - split; simpl; try lia. exists c'. unfold SetCBOR. rewrite set_other by done. by rewrite Hs.
Qed.

Lemma sweep_kept c k g segs file cur disk compact took epoch garbage :
  (∀ si, sweepInputFor blake3 g segs file epoch = Some si → 1 ≤ si_count si ≤ c + 1) → pin_kept c k g →
  pin_kept c k (sweep blake3 self storeID g segs file cur disk compact took epoch garbage).1.
Proof.
  intros Hsi [Hc Hm (c' & Hp & Hle)]. unfold sweep. destruct (sweepInputFor blake3 g segs file epoch) as [si|]; [|split; simpl; eauto].
  destruct (Hsi si eq_refl) as [U1 U2]. destruct (pin_key_other k 0) as (_ & Hk & _). split; simpl; try done. exists c'. split; [|done].
  unfold SetCBOR. rewrite set_other by done. apply dropPins_at; [done|]. rewrite u64_pred_pos; lia.
Qed.

Lemma node_step_kept c k g g' : node_step (c + 1) g g' → pin_kept c k g → pin_kept c k g'.
Proof.
  intros Hs Hk. destruct Hs as [keys d E|now segs epoch Hb|c1 rec|segs file cur disk compact took epoch garbage Hsi|k'|keys|id s|g' E1 E2].
  - destruct Hk as [Hc Hm (c' & Hp & Hle)]. split; simpl; try done. rewrite (pinKeys_at _ _ _ _ k E Hm). case_decide; eauto.
  - by apply barrier_kept.
  - destruct Hk as [Hc Hm Hp]. split; simpl; try done. unfold SetCBOR. rewrite set_other; [done|]. by apply (pin_key_other k c1).
  - by apply sweep_kept.
  - destruct Hk as [Hc Hm Hp]. split; simpl; try done. unfold markCorrupt. rewrite set_other; [done|]. by apply (pin_key_other k 0).
  - destruct Hk as [Hc Hm (c' & Hp & Hle)]. split; simpl; try done. exists c'. split; [|done]. unfold clearCorruptKeys.
    destruct (filter _ keys) as [|x l]; [done|]. destruct (kv_commit _ _) as [[e|] d] eqn:E; simpl; [apply kv_commit_err in E; by rewrite E|].
    apply kv_commit_ok in E. unfold pin_at. rewrite E.
    rewrite lookup_apply_ops_ne; [done|]. rewrite <- list_fmap_compose. intros (y & Ey & _)%list_elem_of_fmap.
    destruct (pin_key_other k 0) as (_ & _ & Hx & _). by apply (Hx y).
  - destruct Hk as [Hc Hm Hp]. split; simpl; try done. unfold setStamp, SetCBOR. rewrite set_other; [done|]. apply (pin_key_other k 0).
  - destruct Hk. split; by rewrite ?E1, ?E2.
Qed.

(** C10 A pin outlives two barriers: on a database that does not fail, whatever the node
    does after pinning a key at barrier count [c], as long as it sweeps with marks of a
    count of at most [c + 1], the key is still pinned for such a sweep, and the sweep keeps
    the record unless the key was marked corrupt, which is what takes a pinned record out
    so that a good copy can replace it.  ([unreadable_pin]: a pin row that cannot be read
    does not count.) *)
Theorem pin_honoured (g g' : gcState DB) d keys k si cur : pinKeys (gs_db g) (Counter (gs_meta g)) keys = (None, d) → k ∈ keys →
  Counter (gs_meta g) < u64_max → rtc (node_step (Counter (gs_meta g) + 1)) (g <| gs_db := d |>) g' →
  1 ≤ si_count si ≤ Counter (gs_meta g) + 1 →
  pinned (gs_db g') k (u64_pred (si_count si)) = true ∧ live self storeID (gs_db g') si cur k = negb (isCorrupt (gs_db g') k).
Proof.
  intros Hp Hk Hc Hr Hsi. set (c := Counter (gs_meta g)) in *.
  assert (pin_kept c k g') as [Hc1 Hc2 (c' & Hp' & Hle)].
  { assert (pin_kept c k (g <| gs_db := d |>)) as Hst.
    { split; simpl; [done|done|]. exists c. split; [|done]. rewrite (pinKeys_at _ _ _ _ k Hp Hc). rewrite decide_True; [done|]. by apply list_elem_of_fmap_2. }
    set (g0 := g <| gs_db := d |>) in *. clearbody c g0. clear Hp Hk Hsi. induction Hr as [|g1 g2 g3 Hs _ IH]; [done|]. by eapply IH, node_step_kept. }
  assert (pinned (gs_db g') k (u64_pred (si_count si)) = true) as Hpin.
  { apply pinned_spec. exists c'. split; [done|]. rewrite u64_pred_pos; lia. }
  split; [done|]. unfold live. destruct (isCorrupt (gs_db g') k); [done|]. destruct (si_eligible si !! k) as [packID|]; [|done]. destruct (_ <=? packID); [done|]. by rewrite Hpin.
Qed.
End pins.

(** A pin row that cannot be read is taken for none. *)
Theorem unreadable_pin {DB : Type} `{KVStore DB} (d : DB) (k : key) e at_least : kv_get d (pin_key k) = GetErr e → pinned d k at_least = false.
Proof. intros Hg. unfold pinned, Get. by rewrite Hg. Qed.

(** * Sweeping an epoch again *)

(** A node that polls and starts nothing. *)
Definition ignores {DB} (self : NodeID) (g : gcState DB) (st : GCState) : Prop := poll self g (Some st) = (g, None).

(** The operator's re-sweep reaches no node that has swept the epoch and kept
    running: the register asks for the sweep of the last finished epoch again,
    but such a node takes it for one it is done with. *)
Theorem resweep_skipped (blake3 : bytes → nat → bytes) {DB} `{KVStore DB} `{Codec barrierRecord} `{Codec gcMeta} `{Codec markHeader}
    `{Codec View} `{Codec packStamp} (self : NodeID) (storeID : bytes) (g : gcState DB) segs file cur disk compact took epoch garbage
    garbage' now st st' :
  LastOK st = epoch → resweep_gc garbage' now st = (st', None) →
  ignores self (sweep blake3 self storeID g segs file cur disk compact took epoch garbage).1 st'.
Proof.
  intros El Hr. set (g' := (sweep blake3 self storeID g segs file cur disk compact took epoch garbage).1). assert (epoch ∈ gs_swept g') as Hin.
  { unfold g', sweep. destruct (sweepInputFor blake3 g segs file epoch); simpl; set_solver. }
  clearbody g'. unfold resweep_gc in Hr. gc_tests. unfold ignores, poll. simpl.
  destruct (negb (Contains (Acked st) self)); [done|]. by rewrite bool_decide_eq_true_2 by (by rewrite El).
Qed.

(** * Cycles *)

Section cycle.
Context (blake3 : bytes → nat → bytes) {DB : Type} `{KVStore DB} `{Codec View} (self : NodeID) (cfg : gcConfig).
Context {W : Type} `{!CycleWorld (DB := DB) W} (refKey : bytes → option bytes) (leaf : key → bool) (next : Z → string) (errText : cerr → string).

Notation workers := (cycle_workers (DB := DB) (W := W)).
Notation cpoll := (cycle_poll (DB := DB) (W := W)).

(** A round of the polling of this epoch. *)
Definition is_round (epoch : N) (nonce : bytes) (ids : list NodeID) (coordSent : N) (r : round) : Prop :=
  ∃ w w' rs, cycle_round (DB := DB) (W := W) w epoch nonce ids = (w', Some rs) ∧ r = poll_round coordSent rs.

(** The loop of the cycle is the loop the mark is proved for. *)
Lemma cycle_poll_sound fuel w deadline epoch nonce ids coordSent stable lastSum w' marked missing :
  cpoll fuel w deadline epoch nonce ids coordSent stable lastSum = (w', inr (marked, missing)) →
  ∃ rounds r, poll_loop stable lastSum rounds = Some r ∧ Keys32 (rd_missing r) = Some missing ∧
    Forall (is_round epoch nonce ids coordSent) rounds.
Proof.
  revert w stable lastSum. induction fuel as [|fuel IH]; intros w stable lastSum; cbn [cycle_poll]; [done|].
  destruct (deadline <? cw_now w)%Z; [done|]. destruct (cw_sleep w) as [w1 ok]. destruct ok; [|done]. cbn [negb].
  destruct (cycle_round w1 epoch nonce ids) as [w2 [rs|]] eqn:Er; [|done]. destruct (Keys32 (rd_missing (poll_round coordSent rs))) as [ms|] eqn:Ek; [|done].
  assert (is_round epoch nonce ids coordSent (poll_round coordSent rs)) as Hr by (by eexists _, _, _).
  destruct (2 <=? poll_stable stable lastSum (poll_round coordSent rs))%nat eqn:E2.
  - intros [= -> <- <-]. exists [poll_round coordSent rs], (poll_round coordSent rs). cbn [poll_loop]. rewrite E2. split_and!; try done. by constructor.
  - intros Hc. apply IH in Hc as (rounds & r & Hl & Hk & Hf). exists (poll_round coordSent rs :: rounds), r. cbn [poll_loop]. rewrite E2.
    split_and!; try done. by constructor.
Qed.

(** The register moves to the sweep only after a finished mark: a cycle that
    returns without an error polled until the termination test held, found the
    missing objects of the last round tolerable, and only then recorded the mark
    as complete. *)
Theorem cycle_sweeps_marked fuel w v nonce tolerate w' :
  cycle_run blake3 self cfg refKey leaf next errText fuel w v nonce tolerate false = (w', None) →
  ∃ epoch acked coordSent rounds r missing w1 marked st,
    poll_loop 0 (0, 0) rounds = Some r ∧ Forall (is_round epoch nonce (IDsOf acked) coordSent) rounds ∧
    Keys32 (rd_missing r) = Some missing ∧ missing_stops leaf tolerate missing = false ∧
    cw_CASGC w1 (toSweep_gc epoch marked) = (w', st, None).
Proof.
  unfold cycle_run. destruct (cw_CASGC w _) as [[w1 st1] [e|]]; [done|]. destruct (cw_CASGC _ (toMark_gc _ _)) as [[w2 st2] [e|]]; [done|].
  case_decide; [done|]. set (pv := default v _). destruct (cycle_mark _ _ _ _ _ _ _ _ _ _ _ _ _) as [w3 [e|marked]] eqn:Em; [done|].
  destruct (cw_CASGC _ (toSweep_gc _ _)) as [[w4 st4] [e|]] eqn:Es; [done|]. intros [= <-].
  unfold cycle_mark in Em. destruct (cw_RefsSnapshot w2) as [w5 [e|rs]]; [done|]. destruct (cycle_workers _ _ _ _ _ _) as [w6 [e|]]; [done|].
  destruct (fold_left _ _ _) as [w7 co]. destruct (cw_flushOut w7 co) as [w8 co'].
  destruct (cycle_poll _ _ _ _ _ _ _ _ _) as [w9 [e|[marked' missing]]] eqn:Ep; [done|].
  destruct (missing_stops leaf tolerate missing) eqn:Ems; [by destruct (cw_CASGC w9 _) as [[??]?]|]. injection Em as <- <-.
  apply cycle_poll_sound in Ep as (rounds & r & ? & ? & ?).
  eexists _, _, _, rounds, r, missing, _, _, _. by split_and!.
Qed.

(** Nothing a cycle asks for makes the node forget the epochs it started. *)
Class KeepsStarted : Prop := {
  ks_set w g : cw_gc (cw_set w g) = g;
  ks_sleep w : gs_started (cw_gc (cw_sleep w).1) = gs_started (cw_gc w);
  ks_read w : gs_started (cw_gc (cw_ReadGC w).1) = gs_started (cw_gc w);
  ks_cas w ch : gs_started (cw_gc (cw_CASGC w ch).1.1) = gs_started (cw_gc w);
  ks_barrier w e ids : gs_started (cw_gc (cw_barrier w e ids)) = gs_started (cw_gc w);
  ks_snap w : gs_started (cw_gc (cw_RefsSnapshot w).1) = gs_started (cw_gc w);
  ks_mark w id e n p a : gs_started (cw_gc (cw_mark w id e n p a).1) = gs_started (cw_gc w);
  ks_flush w co : gs_started (cw_gc (cw_flushOut w co).1) = gs_started (cw_gc w);
  ks_status w id e n f : gs_started (cw_gc (cw_status w id e n f).1) = gs_started (cw_gc w);
  ks_abort w e : gs_started (cw_gc (cw_abort w e)) = gs_started (cw_gc w);
  ks_poll w : gs_started (cw_gc (cw_poll w)) = gs_started (cw_gc w);
}.

Context `{!KeepsStarted}.

Definition started (w : W) : gset N := gs_started (cw_gc w).

Lemma started_abort w epoch reason : started (abort w epoch reason) = started w.
Proof. unfold abort, started. by rewrite ks_abort, ks_cas. Qed.

Lemma started_observe w st : started (observe cfg w st) = started w.
Proof. unfold observe, started. destruct (observeSweep cfg (cw_now w) st); [apply ks_cas|done]. Qed.

Lemma started_workers w epoch nonce pv acked ids : started (cycle_workers w epoch nonce pv acked ids).1 = started w.
Proof.
  revert w. induction ids as [|id ids IH]; intros w; simpl; [done|]. pose proof (ks_mark w id epoch nonce pv acked) as Hm.
  destruct (cw_mark w id epoch nonce pv acked) as [w1 [e|]]; simpl in *; [by rewrite started_abort|by rewrite IH].
Qed.

Lemma started_roots epoch keys w co : started (fold_left (cycle_root self epoch) keys (w, co)).1 = started w.
Proof.
  revert w co. induction keys as [|k keys IH]; intros w co; cbn [fold_left]; [done|]. unfold cycle_root at 2.
  destruct (push_root self epoch k (gs_mark (cw_gc w)) co) as [mk co']. rewrite IH. unfold started. by rewrite ks_set.
Qed.

Lemma started_round w epoch nonce ids : started (cycle_round w epoch nonce ids).1 = started w.
Proof.
  revert w. induction ids as [|id ids IH]; intros w; simpl; [done|]. pose proof (ks_status w id epoch nonce false) as Hs.
  destruct (cw_status w id epoch nonce false) as [w1 [r|]]; simpl in *; [|done]. specialize (IH w1).
  destruct (cycle_round w1 epoch nonce ids) as [w2 rs]. simpl in *. unfold started in *. congruence.
Qed.

Lemma started_poll fuel w deadline epoch nonce ids n stable lastSum :
  started (cpoll fuel w deadline epoch nonce ids n stable lastSum).1 = started w.
Proof.
  revert w stable lastSum. induction fuel as [|fuel IH]; intros w stable lastSum; cbn [cycle_poll]; [done|].
  destruct (deadline <? cw_now w)%Z; [apply started_abort|]. pose proof (ks_sleep w) as Hs. destruct (cw_sleep w) as [w1 ok]. simpl in Hs.
  destruct ok; [|done]. cbn [negb]. pose proof (started_round w1 epoch nonce ids) as Hr. destruct (cycle_round w1 epoch nonce ids) as [w2 [rs|]]; simpl in Hr.
  - destruct (Keys32 _); [|cbn [fst]; rewrite started_abort; unfold started in *; congruence].
    destruct (2 <=? _)%nat; [simpl|rewrite IH]; unfold started in *; congruence.
  - simpl. rewrite started_abort. unfold started in *. congruence.
Qed.

Lemma started_freeze w epoch nonce ids : started (cycle_freeze w epoch nonce ids) = started w.
Proof. revert w. induction ids as [|id ids IH]; intros w; simpl; [done|]. rewrite IH. apply ks_status. Qed.

Lemma started_follow fuel w epoch : started (cycle_follow cfg fuel w epoch).1 = started w.
Proof.
  revert w. induction fuel as [|fuel IH]; intros w; simpl; [done|]. pose proof (ks_sleep w) as Hs. destruct (cw_sleep w) as [w1 ok]. simpl in Hs.
  destruct ok; simpl; [|done]. pose proof (ks_read w1) as Hr. destruct (cw_ReadGC w1) as [w2 [e|cur]]; simpl in *; [unfold started; congruence|].
  assert (started (cw_poll (observe cfg w2 cur)) = started w) as E.
  { unfold started in *. rewrite ks_poll. pose proof (started_observe w2 cur) as Ho. unfold started in Ho. congruence. }
  destruct (_ || _); simpl; [done|]. by rewrite IH.
Qed.

Lemma started_mark fuel w pv epoch nonce tolerate acked :
  started (cycle_mark blake3 self cfg refKey leaf errText fuel w pv epoch nonce tolerate acked).1 = started w.
Proof.
  unfold cycle_mark. pose proof (ks_snap w) as Hs. destruct (cw_RefsSnapshot w) as [w1 [e|roots]]; simpl in *; [by rewrite started_abort|].
  pose proof (started_workers w1 epoch nonce (Encode pv) acked (IDsOf acked)) as Hw. destruct (cycle_workers _ _ _ _ _ _) as [w2 [e|]]; simpl in *; [unfold started in *; congruence|].
  pose proof (started_roots epoch (root_keys refKey roots) w2 (coordinator self epoch nonce (NewPlacement blake3 pv) acked)) as Hr.
  destruct (fold_left _ _ _) as [w3 co]. simpl in Hr. pose proof (ks_flush w3 co) as Hf. destruct (cw_flushOut w3 co) as [w4 co']. simpl in Hf.
  pose proof (started_poll fuel w4 (cw_now w4 + MarkTimeout cfg) epoch nonce (IDsOf acked) (ms_sent co') 0 (0, 0)) as Hp.
  destruct (cycle_poll _ _ _ _ _ _ _ _ _) as [w5 [e|[marked missing]]]; simpl in *; [unfold started in *; congruence|].
  destruct (missing_stops leaf tolerate missing); [|simpl; unfold started in *; congruence].
  pose proof (ks_cas w5 (missing_gc (RawKeys missing))) as Hc. destruct (cw_CASGC w5 _) as [[w6 st] err]. simpl in *.
  rewrite started_abort. unfold started in *. congruence.
Qed.

(** On this state of the register the coordinator has nothing to do, and a cycle
    cannot be started. *)
Definition leaves_running (w : W) (st : GCState) : Prop := ∀ now v,
  coordinate_gc cfg now (cw_gc w) v (Some st) = GNothing ∧
  ∀ nonce tolerate, start_gc cfg nonce tolerate next now st = (st, Some (XText "an epoch is in progress")).

(** A failed cycle can block garbage collection: once its first change went
    through, however the cycle ends, an operator's or the periodic one, the node
    takes the epoch for one it is running; while the register shows that epoch
    in the barrier or mark phase, the coordinator neither abandons it nor starts
    another, at any later time, and every new cycle is refused. *)
Theorem failed_cycle_blocks fuel w v nonce tolerate manual w1 st1 w' e :
  cw_CASGC w (start_gc cfg nonce tolerate next) = (w1, st1, None) →
  cycle_run blake3 self cfg refKey leaf next errText fuel w v nonce tolerate manual = (w', e) →
  ∀ st, GC_Epoch st = GC_Epoch st1 → Phase st = PhaseBarrier ∨ Phase st = PhaseMark → leaves_running w' st.
Proof.
  intros Hs Hrun st Ee Hp now v'.
  assert (GC_Epoch st1 ∈ started w') as Hin.
  { revert Hrun. unfold cycle_run. rewrite Hs. set (epoch := GC_Epoch st1).
    set (w2 := cw_barrier _ epoch (AllMembers v)). assert (epoch ∈ started w2) as G2.
    { unfold w2, started. rewrite ks_barrier, ks_set. simpl. set_solver. }
    clearbody w2. set (pv := default v _). pose proof (ks_cas w2 (toMark_gc epoch (Encode pv))) as G3.
    destruct (cw_CASGC w2 _) as [[w3 st3] [e3|]]; simpl in G3; [intros [= <- <-]; unfold started in *; congruence|].
    case_decide; [intros [= <- <-]; rewrite ?started_abort; unfold started in *; congruence|].
    pose proof (started_mark fuel w3 pv epoch nonce tolerate (Acked st3)) as G4.
    destruct (cycle_mark _ _ _ _ _ _ _ _ _ _ _ _ _) as [w4 [e4|marked]]; simpl in G4; [intros [= <- <-]; unfold started in *; congruence|].
    pose proof (started_freeze w4 epoch nonce (IDsOf (Acked st3))) as G5. set (w5 := cycle_freeze _ _ _ _) in *. clearbody w5.
    pose proof (ks_cas w5 (toSweep_gc epoch marked)) as G6. destruct (cw_CASGC w5 _) as [[w6 st6] [e6|]]; simpl in G6;
      [intros [= <- <-]; unfold started in *; congruence|].
    destruct manual; [|intros [= <- <-]; unfold started in *; congruence].
    pose proof (started_follow fuel w6 epoch) as G7. intros E. rewrite E in G7. simpl in G7. unfold started in *. congruence. }
  unfold coordinate_gc, start_gc. destruct Hp as [-> | ->]; simpl; (rewrite decide_True; [done|]); by rewrite Ee.
Qed.
End cycle.

(** * Witnesses *)

Definition toy_gcfg : gcConfig := MkGCConfig 5 100 1000 0.
Definition toy_reg (l : list gc_change) : GCState := foldl (λ st ch, (ch 10%Z st).1) GCState0 l.

Definition toy_r1 : GCState := toy_reg [start_gc toy_gcfg [x05] false (λ _, "")].
Definition toy_r2 : GCState := (ack_gc 1 (toy_id x01) 10%Z toy_r1).1.
Definition toy_r3 : GCState := (ack_gc 1 (toy_id x02) 10%Z toy_r2).1.
Definition toy_r4 : GCState := (toMark_gc 1 [x09] 10%Z toy_r3).1.
Definition toy_r5 : GCState := (toSweep_gc 1 [] 10%Z toy_r4).1.
Definition toy_r6 : GCState := (close_gc 1 10%Z toy_r5).1.

Lemma toy_step ch st : gc_op ch → GC_Epoch st + 1 < u64_max → (ch 10%Z st).2 = None → reg_step st (ch 10%Z st).1.
Proof. intros Ho Hb E. split; [done|]. exists ch, 10%Z. split; [done|]. rewrite <- E. by destruct (ch 10%Z st). Qed.

Lemma toy_r4_reached : rtc reg_step GCState0 toy_r4.
Proof.
  eapply rtc_l; [apply (toy_step (start_gc toy_gcfg [x05] false (λ _, "")) GCState0); [constructor|computes|computes]|].
  eapply rtc_l; [apply (toy_step (ack_gc 1 (toy_id x01)) toy_r1); [constructor|computes|computes]|].
  eapply rtc_l; [apply (toy_step (ack_gc 1 (toy_id x02)) toy_r2); [constructor|computes|computes]|].
  eapply rtc_l; [apply (toy_step (toMark_gc 1 [x09]) toy_r3); [constructor|computes|computes]|]. done.
Qed.

Lemma toy_r5_step : reg_step toy_r4 toy_r5.
Proof. apply (toy_step (toSweep_gc 1 []) toy_r4); [constructor|computes|computes]. Qed.

Lemma toy_r5_reached : rtc reg_step GCState0 toy_r5.
Proof. etrans; [exact toy_r4_reached|]. apply rtc_once, toy_r5_step. Qed.

Lemma gc_phase_refines_witness : gc_ok toy_r5 ∧ phase_of toy_r5 = (1, PhaseSweep).
Proof. split; [|computes]. exact (proj1 (gc_phase_refines toy_r4 toy_r5 toy_r4_reached toy_r5_step)). Defined.

Lemma acked_frozen_witness : Acked toy_r5 = Acked toy_r4 ∧ length (Acked toy_r4) = 2%nat.
Proof.
  split; [|computes]. destruct (acked_frozen toy_r4 toy_r5 toy_r4_reached (rtc_once _ _ toy_r5_step)) as [_ Hf].
  apply Hf; [computes|by vm_compute].
Defined.

Definition toy_stat (b : byte) : NodeStat := MkNodeStat (replicate 32 b) 0 0 0 0 false 0 0.
Definition toy_ticks : list (list NodeStat * Z) := replicate 4 ([toy_stat x01; toy_stat x02], 11%Z).

Lemma toy_covered : covered toy_gcfg toy_r5 toy_ticks.
Proof.
  unfold toy_ticks. cbn [replicate covered]. repeat (split; [apply (bool_decide_unpack _); vm_compute; exact I|]; split; [|]); try done;
    apply Forall_forall; apply (bool_decide_unpack _); vm_compute; exact I.
Qed.

Lemma sweep_completes_witness : Phase (ticks toy_gcfg toy_r5 toy_ticks) = PhaseIdle ∧ LastOK (ticks toy_gcfg toy_r5 toy_ticks) = 1.
Proof. exact (sweep_completes toy_gcfg toy_r5 toy_ticks toy_r5_reached ltac:(computes) toy_covered ltac:(computes)). Defined.

Definition toy_db : gmap bytes bytes := ∅.
Definition toy_segs : segments := [(3, [toy_id x07; toy_id x08])].
Definition toy_mview : View := toy_view [x01] [toy_node x01 5 ""; toy_node x02 5 "z"] 2 None.
Definition toy_ms : markState := start_mark toy_blake3 1 [x05] 1 9 toy_mview [] toy_segs <| ms_marked := {[toy_id x07]} |>.
Definition toy_node_with (ms : option markState) : gcState (gmap bytes bytes) := MkGcState toy_db (MkGCMeta 1 0 0) ms None ∅ false ∅ 0.

Lemma restart_keeps_mark_witness :
  sweepInputFor toy_blake3 (toy_node_with None) (Some toy_segs) (Some (persistMark id toy_ms)) 1 =
  sweepInputFor toy_blake3 (toy_node_with (Some toy_ms)) None None 1.
Proof.
  apply (restart_keeps_mark toy_blake3 (toy_node_with (Some toy_ms)) (toy_node_with None) id toy_segs toy_ms toy_mview None None); try done.
  all: computes.
Defined.

Definition toy_si : sweepInput := MkSweepInput 1 1 9 toy_mark_pl {[toy_id x08 := 3]} ∅ false.
Definition toy_swept : gcState (gmap bytes bytes) := toy_node_with None <| gs_lastMark := Some toy_si |>.

Lemma provedDead_dead_witness : live (toy_id x01) [] toy_db toy_si toy_mark_pl (toy_id x08) = false.
Proof. apply (provedDead_dead (toy_id x01) [] toy_swept toy_si toy_mark_pl (toy_id x08) 3); computes. Defined.

Definition toy_end : markState := g_ms toy_rounds.2 (toy_id x01).
Definition toy_input : sweepInput :=
  MkSweepInput 1 (ms_count toy_end) (match history toy_db (u64_pred (ms_count toy_end)) with Some prev => EligibleBelow prev | None => 0 end)
    (ms_placement toy_end) (ms_eligible toy_end) (ms_marked toy_end) false.

Lemma reachable_survives_witness : si_eligible toy_input !! toy_id x08 = Some 3 ∧ live (toy_id x01) [] toy_db toy_input toy_mark_pl (toy_id x08) = true.
Proof.
  split; [computes|].
  apply (reachable_survives toy_leaf toy_children toy_content (toy_id x01) 1 [x05] toy_acked [toy_id x07] toy_blake3 toy_mview []
    (toy_node_with (Some toy_end)) None None toy_rounds.2 toy_input toy_mark_pl (toy_id x08) (toy_id x01) ltac:(decides) ltac:(decides) toy_finished toy_reach).
  - decides.
  - by left.
  - unfold sweepInputFor, toy_node_with. cbn [gs_mark gs_db]. assert (ms_epoch toy_end =? 1 = true) as -> by computes. reflexivity.
  - computes.
  - computes.
Defined.

Definition toy_si2 : sweepInput := MkSweepInput 1 2 9 toy_mark_pl {[toy_id x08 := 3]} ∅ false.
Definition toy_pinned : gmap bytes bytes := (pinKeys toy_db 1 [toy_id x08]).2.
Definition toy_later : gcState (gmap bytes bytes) := (barrier_take 7 None (toy_node_with None <| gs_db := toy_pinned |>) 2).1.

Lemma pin_honoured_witness : pinned (gs_db toy_later) (toy_id x08) (u64_pred 2) = true ∧
  live (toy_id x01) [] (gs_db toy_later) toy_si2 toy_mark_pl (toy_id x08) = negb (isCorrupt (gs_db toy_later) (toy_id x08)).
Proof.
  apply (pin_honoured toy_blake3 (toy_id x01) [] (toy_node_with None) toy_later toy_pinned [toy_id x08] (toy_id x08) toy_si2 toy_mark_pl).
  - reflexivity.
  - by left.
  - computes.
  - apply rtc_once, ns_barrier. computes.
  - by vm_compute.
Defined.

Lemma resweep_skipped_witness : ∃ g : gcState (gmap bytes bytes), ignores (toy_id x01) g (resweep_gc 1 20%Z toy_r6).1 ∧
  Contains (Acked toy_r6) (toy_id x01) = true.
Proof.
  eexists. split; [|computes].
  apply (resweep_skipped toy_blake3 (toy_id x01) [] (toy_node_with (Some toy_ms)) None None toy_mark_pl None (λ _ _, MkCompactStats 0 0 0) 0 1 0
    1 20%Z toy_r6 (resweep_gc 1 20%Z toy_r6).1); computes.
Defined.

(** A node alone in the world, whose marks are always done; [tw_ok] says whether
    its context lasts. *)
Record toyWorld := MkToyWorld { tw_now : Z; tw_gc : gcState (gmap bytes bytes); tw_reg : GCState; tw_ok : bool }.

#[local] Instance toyWorld_eta : Eta toyWorld := λ r, MkToyWorld (tw_now r) (tw_gc r) (tw_reg r) (tw_ok r).

#[local] Instance toyWorld_cycle : CycleWorld (DB := gmap bytes bytes) toyWorld := {
  cw_now w := tw_now w;
  cw_view w := Some toy_mview;
  cw_gc w := tw_gc w;
  cw_set w g := w <| tw_gc := g |>;
  cw_sleep w := (w <| tw_now := (tw_now w + 1)%Z |>, tw_ok w);
  cw_ReadGC w := (w, inr (tw_reg w));
  cw_CASGC w ch := match ch (tw_now w) (tw_reg w) with
                   | (st, Some e) => (w, st, Some (CErr e))
                   | (st, None) => (w <| tw_reg := st |>, st, None)
                   end;
  cw_barrier w e ids := w <| tw_reg := (ack_gc e (toy_id x01) (tw_now w) (tw_reg w)).1 |>;
  cw_RefsSnapshot w := (w, inr []);
  cw_mark w _ _ _ _ _ := (w, None);
  cw_flushOut w co := (w, co);
  cw_status w _ _ _ _ := (w, Some (MkStatusReply 0 0 true 0 []));
  cw_abort w _ := w;
  cw_poll w := w;
}.

#[local] Instance toyWorld_keeps : KeepsStarted (DB := gmap bytes bytes) (W := toyWorld).
Proof. split; try done. intros w ch. simpl. by destruct (ch (tw_now w) (tw_reg w)) as [st [e|]]. Qed.

Definition toy_w (ok : bool) : toyWorld := MkToyWorld 10 (toy_node_with None) GCState0 ok.
Notation toy_cycle ok := (cycle_run toy_blake3 (toy_id x01) toy_gcfg (λ _, None) toy_leaf (λ _, ""%string) (λ _, ""%string) 9 (toy_w ok) toy_mview
  [x05] false false) (only parsing).

Lemma toy_w_ends : toy_cycle true = ((toy_cycle true).1, None).
Proof.
  destruct (toy_cycle true) as [w e] eqn:E. assert (e = None) as ->; [|done].
  transitivity (toy_cycle true).2; [by rewrite E|computes].
Qed.

Lemma cycle_sweeps_marked_witness : Phase (tw_reg (toy_cycle true).1) = PhaseSweep ∧
  ∃ (rounds : list round) (r : round), poll_loop 0 (0, 0) rounds = Some r.
Proof.
  split; [computes|].
  destruct (cycle_sweeps_marked toy_blake3 (toy_id x01) toy_gcfg (λ _, None) toy_leaf (λ _, ""%string) (λ _, ""%string) 9 (toy_w true) toy_mview [x05] false
    (toy_cycle true).1 toy_w_ends) as (epoch & acked & n & rounds & r & missing & w1 & marked & st & Hl & _). by exists rounds, r.
Defined.

Lemma failed_cycle_blocks_witness : Phase (tw_reg (toy_cycle false).1) = PhaseMark ∧ ∀ now,
  coordinate_gc toy_gcfg now (cw_gc (toy_cycle false).1) (Some toy_mview) (Some (tw_reg (toy_cycle false).1)) = GNothing.
Proof.
  split; [computes|]. intros now.
  refine (proj1 (failed_cycle_blocks toy_blake3 (toy_id x01) toy_gcfg (λ _, None) toy_leaf (λ _, ""%string) (λ _, ""%string) 9 (toy_w false) toy_mview
    [x05] false false (MkToyWorld 10 (toy_node_with None) toy_r1 false) toy_r1 (toy_cycle false).1 (toy_cycle false).2 _ _
    (tw_reg (toy_cycle false).1) _ _ now (Some toy_mview))).
  - computes.
  - apply surjective_pairing.
  - computes.
  - right. computes.
Defined.
