(* ===== verification/Worktree.v ===== *)
(** Working copies (src/worktree): comparing two directory trees
    (change.go) and merging incoming changes over local ones (merge.go).

    Directory objects live in the store of amber-store/core: reading the entries
    of one ([fstree.CollectEntries] over a getter) and parsing its key
    ([key.Parse]) are parameters.  The recursion of a diff follows the trees and
    is bounded by fuel; [DiffTrees_total] says that the depth of the trees is
    enough. *)
From Stdlib Require Import Ascii.
From stdpp Require Import pretty.
From S2P Require Import Prelude.

(** * Entries and changes *)

(** What the package uses of [fstree.Entry]. *)
Record Entry := MkEntry {
  e_Name : bytes;
  e_Mode : N;
  e_ContentKey : bytes;
  e_LinkTarget : bytes;
  e_Rdev : list N;
  e_UID : N;
  e_GID : N;
  e_Mtime : Z;
  e_XattrsIn : bytes;
  e_XattrsKey : bytes;
}.

#[global] Instance Entry_eq_dec : EqDecision Entry.
Proof. solve_decision. Defined.

(** The file type bits of unix. *)
Definition S_IFMT : N := 0xF000.
Definition S_IFIFO : N := 0x1000.
Definition S_IFCHR : N := 0x2000.
Definition S_IFDIR : N := 0x4000.
Definition S_IFBLK : N := 0x6000.
Definition S_IFREG : N := 0x8000.
Definition S_IFLNK : N := 0xA000.
Definition S_IFSOCK : N := 0xC000.

Definition ftype (mode : N) : N := N.land mode S_IFMT.
Definition perm (mode : N) : N := N.land mode 0xFFF.   (* 0o7777 *)

Inductive Kind := Added | Deleted | Modified | TypeChanged | ModeChanged | MetaChanged.

#[global] Instance Kind_eq_dec : EqDecision Kind.
Proof. solve_decision. Defined.

Definition Kind_String (k : Kind) : string :=
  match k with
  | Added => "new"
  | Deleted => "deleted"
  | Modified => "modified"
  | TypeChanged => "type"
  | ModeChanged => "mode"
  | MetaChanged => "meta"
  end.

Record Change := MkChange { Path : bytes; c_Kind : Kind; Old : option Entry; New : option Entry }.

#[global] Instance Change_eq_dec : EqDecision Change.
Proof. solve_decision. Defined.

Definition IsDir_ (e : Entry) : bool := (ftype (e_Mode e) =? S_IFDIR)%N.

(** On a possibly nil entry. *)
Definition IsDir (e : option Entry) : bool := match e with Some e => IsDir_ e | None => false end.

(** The octal digits of [n], 22 being enough for 64 bits; [%#o] puts a 0 first. *)
Fixpoint octal_digits (fuel : nat) (n : N) (acc : string) : string :=
  match fuel with
  | O => acc
  | S fuel =>
      let acc := String (ascii_of_N (48 + N.land n 7)) acc in
      if (N.shiftr n 3 =? 0)%N then acc else octal_digits fuel (N.shiftr n 3) acc
  end.

Definition octal_sharp (n : N) : string :=
  match octal_digits 22 n "" with
  | String "0"%char s => String "0"%char s
  | s => String "0"%char s
  end.

Definition TypeName (mode : N) : string :=
  let t := ftype mode in
  if (t =? S_IFREG)%N then "file"
  else if (t =? S_IFDIR)%N then "directory"
  else if (t =? S_IFLNK)%N then "symlink"
  else if (t =? S_IFIFO)%N then "fifo"
  else if (t =? S_IFSOCK)%N then "socket"
  else if (t =? S_IFCHR)%N then "char device"
  else if (t =? S_IFBLK)%N then "block device"
  else "type " +:+ octal_sharp t.

Definition SameContent (a b : Entry) : bool :=
  let t := ftype (e_Mode a) in
  if (t =? S_IFREG)%N then bool_decide (e_ContentKey a = e_ContentKey b)
  else if (t =? S_IFLNK)%N then bool_decide (e_LinkTarget a = e_LinkTarget b)
  else if (t =? S_IFCHR)%N || (t =? S_IFBLK)%N then bool_decide (e_Rdev a = e_Rdev b)
  else true.

Definition Equivalent (a b : Entry) : bool :=
  (ftype (e_Mode a) =? ftype (e_Mode b))%N && SameContent a b && (perm (e_Mode a) =? perm (e_Mode b))%N.

(** [None]: identical. *)
Definition Compare (old new : Entry) : option Kind :=
  if negb (ftype (e_Mode old) =? ftype (e_Mode new))%N then Some TypeChanged
  else if negb (SameContent old new) then Some Modified
  else if negb (perm (e_Mode old) =? perm (e_Mode new))%N then Some ModeChanged
  else if negb (e_UID old =? e_UID new)%N || negb (e_GID old =? e_GID new)%N ||
          negb (e_Mtime old =? e_Mtime new)%Z || bool_decide (e_XattrsIn old ≠ e_XattrsIn new) ||
          bool_decide (e_XattrsKey old ≠ e_XattrsKey new)
       then Some MetaChanged
  else None.

Definition slash : byte := x2f.

Definition joinPath (prefix name : bytes) : bytes :=
  if bool_decide (prefix = []) then name else prefix ++ slash :: name.

(** * Tree diffs *)

(** A computation that may fail, [None] when it ran out of fuel. *)
Definition res (A : Type) : Type := option (string + A).

Definition ok {A} (a : A) : res A := Some (inr a).
Definition bindR {A B} (f : A → res B) (r : res A) : res B :=
  match r with
  | None => None
  | Some (inl e) => Some (inl e)
  | Some (inr a) => f a
  end.
Notation "'let!' x := r 'in' k" := (bindR (λ x, k) r) (at level 200, x pattern, right associativity).

(** The changes of several steps in order; the first error ends it. *)
Fixpoint concatR {A B} (f : A → res (list B)) (l : list A) : res (list B) :=
  match l with
  | [] => ok []
  | x :: l => let! a := f x in let! b := concatR f l in ok (a ++ b)
  end.

Section diff.
Context {Key : Type} `{EqDecision Key}.
Context (Parse : bytes → string + Key) (CollectEntries : Key → string + list Entry).

(** The entries of the directory a content key names. *)
Definition entries_at (ck : bytes) : string + list Entry :=
  match Parse ck with inl e => inl e | inr k => CollectEntries k end.

Definition expand_change (p : bytes) (e : Entry) (kind : Kind) : Change :=
  if decide (kind = Added) then MkChange p kind None (Some e) else MkChange p kind (Some e) None.

Fixpoint expandChildren (fuel : nat) (p : bytes) (e : Entry) (kind : Kind) : res (list Change) :=
  if negb (IsDir_ e) then ok []
  else match fuel with
  | O => None
  | S fuel =>
      let! entries := Some (entries_at (e_ContentKey e)) in
      concatR (λ e,
        let p := joinPath p (e_Name e) in
        let! cs := expandChildren fuel p e kind in
        ok (expand_change p e kind :: cs)) entries
  end.

Definition expand (fuel : nat) (prefix : bytes) (e : Entry) (kind : Kind) : res (list Change) :=
  let p := joinPath prefix (e_Name e) in
  let! cs := expandChildren fuel p e kind in
  ok (expand_change p e kind :: cs).

(** The changes at a name both sides have; [sub] diffs two directories. *)
Definition diff_pair (fuel : nat) (sub : bytes → Key → Key → res (list Change)) (prefix : bytes)
    (x y : Entry) : res (list Change) :=
  let p := joinPath prefix (e_Name x) in
  let! cs1 :=
    match Compare x y with
    | None => ok []
    | Some k =>
        let c := MkChange p k (Some x) (Some y) in
        if decide (k = TypeChanged) then
          let! del := expandChildren fuel p x Deleted in
          let! add := expandChildren fuel p y Added in
          ok (c :: del ++ add)
        else ok [c]
    end in
  let! cs2 :=
    if IsDir_ x && IsDir_ y && bool_decide (e_ContentKey x ≠ e_ContentKey y) then
      let! kx := Some (Parse (e_ContentKey x)) in
      let! ky := Some (Parse (e_ContentKey y)) in
      sub p kx ky
    else ok [] in
  ok (cs1 ++ cs2).

(** The merge loop over the two sorted entry lists. *)
Fixpoint diff_lists (fuel : nat) (sub : bytes → Key → Key → res (list Change)) (prefix : bytes)
    (ea : list Entry) : list Entry → res (list Change) :=
  fix inner (eb : list Entry) : res (list Change) :=
    match ea, eb with
    | [], [] => ok []
    | x :: ea', [] =>
        let! cs := expand fuel prefix x Deleted in
        let! rest := diff_lists fuel sub prefix ea' [] in ok (cs ++ rest)
    | [], y :: eb' =>
        let! cs := expand fuel prefix y Added in
        let! rest := inner eb' in ok (cs ++ rest)
    | x :: ea', y :: eb' =>
        match bytes_compare (e_Name x) (e_Name y) with
        | Lt =>
            let! cs := expand fuel prefix x Deleted in
            let! rest := diff_lists fuel sub prefix ea' eb in ok (cs ++ rest)
        | Gt =>
            let! cs := expand fuel prefix y Added in
            let! rest := inner eb' in ok (cs ++ rest)
        | Eq =>
            let! cs := diff_pair fuel sub prefix x y in
            let! rest := diff_lists fuel sub prefix ea' eb' in ok (cs ++ rest)
        end
    end.

Fixpoint diffDirs (fuel : nat) (prefix : bytes) (a b : Key) : res (list Change) :=
  match fuel with
  | O => None
  | S fuel =>
      let! ea := Some (CollectEntries a) in
      let! eb := Some (CollectEntries b) in
      diff_lists fuel (diffDirs fuel) prefix ea eb
  end.

Definition DiffTrees (fuel : nat) (a b : Key) : res (list Change) :=
  if decide (a = b) then ok [] else diffDirs fuel [] a b.
End diff.

(** * What a diff should list *)

Definition joined (ns : list bytes) : bytes := fold_left joinPath ns [].

(** The change at a path whose entries are [x] and [y]. *)
Definition change_of (p : bytes) (x y : option Entry) : option Change :=
  match x, y with
  | None, None => None
  | Some _, None => Some (MkChange p Deleted x y)
  | None, Some _ => Some (MkChange p Added x y)
  | Some a, Some b => k ← Compare a b; Some (MkChange p k x y)
  end.

(** Paths in the order of a walk that visits a directory before what is in it. *)
Fixpoint path_lt (p q : list bytes) : Prop :=
  match p, q with
  | _, [] => False
  | [], _ :: _ => True
  | a :: p, b :: q => bytes_lt a b ∨ (a = b ∧ path_lt p q)
  end.

(** ** Sides of a comparison

    A side gives the entry at each path, by its names; the empty path has none.  The
    same lemmas serve trees and directories on disk. *)

Notation side := (list bytes → option Entry).

Definition side_change (pre : list bytes) (a b : side) (ns : list bytes) : option Change :=
  change_of (joined (pre ++ ns)) (a ns) (b ns).

(** [cs] is the list of changes from [a] to [b]: one per path where the two differ,
    in path order. *)
Definition lists_sides (pre : list bytes) (a b : side) (cs : list Change) : Prop :=
  ∃ nss, Forall2 (λ ns c, side_change pre a b ns = Some c) nss cs ∧ StronglySorted path_lt nss ∧
    ∀ ns, is_Some (side_change pre a b ns) → ns ∈ nss.

#[global] Instance lists_sides_proper pre : Proper (pointwise_relation _ eq ==> pointwise_relation _ eq ==> eq ==> iff) (lists_sides pre).
Proof.
  assert (∀ a a' b b' cs, pointwise_relation _ eq a a' → pointwise_relation _ eq b b' → lists_sides pre a b cs → lists_sides pre a' b' cs) as Hgo.
  { intros a a' b b' cs Ha Hb (nss & F & S & C). assert (∀ ns, side_change pre a' b' ns = side_change pre a b ns) as E by (intros ns; unfold side_change; by rewrite Ha, Hb).
    exists nss. split; [eapply Forall2_impl; [exact F|]; intros ns c; by rewrite E|]. split; [done|]. intros ns. rewrite E. apply C. }
  intros a a' Ha b b' Hb cs ? <-. split; apply Hgo; done.
Qed.

Lemma lists_sides_none pre (a b : side) : (∀ ns, side_change pre a b ns = None) → lists_sides pre a b [].
Proof. intros E. exists []. split; [constructor|]. split; [constructor|]. intros ns [c Hc]. by rewrite E in Hc. Qed.

Lemma lists_sides_none_inv pre (a b : side) cs : (∀ ns, side_change pre a b ns = None) → lists_sides pre a b cs → cs = [].
Proof. intros E (nss & F & _). destruct F as [|ns c nss cs Ec]; [done|]. by rewrite E in Ec. Qed.

(** What a side has below a name. *)
Definition below_name (n : bytes) (a : side) : side := λ ns, match ns with [] => None | _ :: _ => a (n :: ns) end.

(** [a'] is what a side has beside the name [n], all of it behind. *)
Definition rest_after (n : bytes) (a a' : side) : Prop :=
  a [] = None ∧ a' [] = None ∧ ∀ m ns, (m ≠ n → a' (m :: ns) = a (m :: ns)) ∧ (is_Some (a' (m :: ns)) → bytes_lt n m).

Lemma side_change_some pre (a b : side) ns c : side_change pre a b ns = Some c → is_Some (a ns) ∨ is_Some (b ns).
Proof. unfold side_change. destruct (a ns), (b ns); simpl; eauto. done. Qed.

(** The paths of a step: the name itself, what is below it, what is behind it. *)
Lemma path_lt_step n (here : bool) nsub nrest : Forall (λ ns, ns ≠ []) nsub → Forall (λ ns, ∃ m ns', ns = m :: ns' ∧ bytes_lt n m) nrest →
  StronglySorted path_lt nsub → StronglySorted path_lt nrest →
  StronglySorted path_lt ((if here then [[n]] else []) ++ ((n ::.) <$> nsub) ++ nrest).
Proof.
  rewrite !Forall_forall. intros Hns Hnr Ssub Srest.
  assert (StronglySorted path_lt (((n ::.) <$> nsub) ++ nrest)) as Hs.
  { apply StronglySorted_app. split; [|split; [|done]].
    - intros q r (ns & -> & _)%list_elem_of_fmap Hr. destruct (Hnr r Hr) as (m & ns' & -> & ?). by left.
    - clear -Ssub. induction Ssub as [|ns nsub S IH F]; simpl; constructor; [done|].
      apply Forall_fmap. eapply Forall_impl; [exact F|]. intros q Hq. by right. }
  destruct here; [|done]. constructor; [done|]. apply Forall_app. split; apply Forall_forall.
  - intros q (ns & -> & Hin)%list_elem_of_fmap. right. split; [done|]. destruct ns; [by destruct (Hns [])|done].
  - intros q Hq. destruct (Hnr q Hq) as (m & ns' & -> & ?). by left.
Qed.

Lemma lists_sides_step pre n (a b a' b' : side) sub rest : rest_after n a a' → rest_after n b b' →
  lists_sides (pre ++ [n]) (below_name n a) (below_name n b) sub → lists_sides pre a' b' rest →
  lists_sides pre a b (option_list (change_of (joined (pre ++ [n])) (a [n]) (b [n])) ++ sub ++ rest).
Proof.
  intros (Ha0 & Ha0' & Ha) (Hb0 & Hb0' & Hb) (nsub & Fsub & Ssub & Csub) (nrest & Frest & Srest & Crest).
  assert (∀ ns, ns ≠ [] → side_change (pre ++ [n]) (below_name n a) (below_name n b) ns = side_change pre a b (n :: ns)) as Hsub.
  { intros [|m ns]; [done|]. intros _. unfold side_change. by rewrite <- app_assoc. }
  assert (∀ ns c, side_change (pre ++ [n]) (below_name n a) (below_name n b) ns = Some c → ns ≠ []) as Hne by (intros ? ? E ->; done).
  assert (∀ m ns, m ≠ n → side_change pre a' b' (m :: ns) = side_change pre a b (m :: ns)) as Hrest.
  { intros m ns Hm. unfold side_change. by rewrite (proj1 (Ha m ns) Hm), (proj1 (Hb m ns) Hm). }
  assert (∀ ns c, side_change pre a' b' ns = Some c → ∃ m ns', ns = m :: ns' ∧ bytes_lt n m) as Hgt.
  { intros ns c E. destruct ns as [|m ns]; [by apply side_change_some in E as [[? E]|[? E]]; congruence|].
    exists m, ns. split; [done|]. apply side_change_some in E as [E|E]; [by eapply Ha|by eapply Hb]. }
  exists ((if bool_decide (is_Some (change_of (joined (pre ++ [n])) (a [n]) (b [n]))) then [[n]] else []) ++ ((n ::.) <$> nsub) ++ nrest). split; [|split].
  - apply Forall2_app; [|apply Forall2_app].
    + destruct (change_of _ (a [n]) (b [n])) as [c|] eqn:Ec; [rewrite bool_decide_true by done|rewrite bool_decide_false by (by intros [])]; repeat constructor; done.
    + apply Forall2_fmap_l. eapply Forall2_impl; [exact Fsub|]. intros ns c E. simpl. rewrite <- Hsub; [exact E|exact (Hne _ _ E)].
    + eapply Forall2_impl; [exact Frest|]. intros ns c E. destruct (Hgt ns c E) as (m & ns' & -> & Hlt). rewrite <- Hrest; [done|]. intros ->. by eapply (cmp_lt_irrefl bytes_compare).
  - apply path_lt_step; [..|done|done]; apply Forall_forall; intros ns (i & Hi)%list_elem_of_lookup.
    + destruct (Forall2_lookup_l _ _ _ _ _ Fsub Hi) as (c & _ & E). eauto.
    + destruct (Forall2_lookup_l _ _ _ _ _ Frest Hi) as (c & _ & E). eauto.
  - intros ns Hsome. rewrite !elem_of_app, list_elem_of_fmap. destruct ns as [|m ns].
    { destruct Hsome as [c [[? E]|[? E]]%side_change_some]; congruence. }
    destruct (decide (m = n)) as [->|Hm]; [|right; right; apply Crest; by rewrite Hrest]. destruct ns as [|m' ns].
    + left. unfold side_change in Hsome. rewrite bool_decide_true by done. by left.
    + right. left. exists (m' :: ns). split; [done|]. apply Csub. by rewrite Hsub.
Qed.

Section spec.
Context {Key : Type} `{EqDecision Key}.
Context (Parse : bytes → string + Key) (CollectEntries : Key → string + list Entry).
Notation entries_at := (entries_at Parse CollectEntries).
Notation expandChildren := (expandChildren Parse CollectEntries).
Notation expand := (expand Parse CollectEntries).

(** The entries below a possibly absent entry. *)
Definition kids (e : option Entry) : list Entry :=
  match e with
  | Some e => if IsDir_ e then match entries_at (e_ContentKey e) with inr es => es | inl _ => [] end else []
  | None => []
  end.

Definition find_name (n : bytes) (es : list Entry) : option Entry := find (λ e, bool_decide (e_Name e = n)) es.

(** The entry at a path, given by its components, below a directory's entries. *)
Fixpoint resolve (es : list Entry) (ns : list bytes) : option Entry :=
  match ns with
  | [] => None
  | [n] => find_name n es
  | n :: ns => resolve (kids (find_name n es)) ns
  end.

(** [cs] is the list of changes from [ea] to [eb]: one per path where the two
    sides differ, in path order. *)
Definition lists_changes (pre : list bytes) (ea eb : list Entry) (cs : list Change) : Prop :=
  lists_sides pre (resolve ea) (resolve eb) cs.

(** What [CollectEntries] documents: entries sorted by name, no name twice. *)
Definition sorted_names (es : list Entry) : Prop := StronglySorted (λ a b, bytes_lt (e_Name a) (e_Name b)) es.

Context (collect_sorted : ∀ k es, CollectEntries k = inr es → sorted_names es).

(** ** Facts *)

Lemma Compare_refl e : Compare e e = None.
Proof.
  unfold Compare, SameContent. rewrite !N.eqb_refl, Z.eqb_refl. simpl.
  rewrite !(bool_decide_true (_ = _)) by done. rewrite !(bool_decide_false (_ ≠ _)) by naive_solver.
  by repeat case_match.
Qed.

Lemma change_of_same p x : change_of p x x = None.
Proof. destruct x; simpl; [by rewrite Compare_refl|done]. Qed.

Lemma resolve_nil_l ns : resolve [] ns = None.
Proof. induction ns as [|n [|m ns] IH]; [done|done|]. apply IH. Qed.

Lemma resolve_cons es n m ns : resolve es (n :: m :: ns) = resolve (kids (find_name n es)) (m :: ns).
Proof. done. Qed.

Lemma find_name_head x es : find_name (e_Name x) (x :: es) = Some x.
Proof. unfold find_name. simpl. by rewrite bool_decide_true. Qed.

Lemma find_name_tail x es n : n ≠ e_Name x → find_name n (x :: es) = find_name n es.
Proof. intros Hn. unfold find_name. simpl. by rewrite bool_decide_false. Qed.

Lemma find_name_above n es : Forall (λ e, bytes_lt n (e_Name e)) es → find_name n es = None.
Proof.
  induction 1 as [|e es He _ IH]; [done|]. rewrite find_name_tail; [done|].
  intros ->. by eapply (cmp_lt_irrefl bytes_compare).
Qed.

(** ** Building the list *)

(** A level of two directories at a name [n] below all others: [x] and [y] are
    what the sides have there. *)
Definition with_head (x : option Entry) (es : list Entry) : list Entry := option_list x ++ es.

Definition named (n : bytes) (x : option Entry) : Prop := ∀ e, x = Some e → e_Name e = n.

Lemma find_with_head n x es m :
  named n x → Forall (λ e, bytes_lt n (e_Name e)) es →
  find_name m (with_head x es) = if decide (m = n) then x else find_name m es.
Proof.
  intros Hx Hes. destruct x as [e|]; simpl.
  - specialize (Hx e eq_refl). subst n. case_decide as Hm; [subst m; apply find_name_head|by apply find_name_tail].
  - case_decide as Hm; [subst m; by apply find_name_above|done].
Qed.

Lemma resolve_with_head n x es ns :
  named n x → Forall (λ e, bytes_lt n (e_Name e)) es →
  resolve (with_head x es) ns =
    match ns with
    | [] => None
    | [m] => if decide (m = n) then x else resolve es [m]
    | m :: ns => if decide (m = n) then resolve (kids x) ns else resolve es (m :: ns)
    end.
Proof.
  intros Hx Hes. destruct ns as [|m [|m' ns]]; [done|by apply find_with_head|].
  cbn [resolve]. rewrite (find_with_head n) by done. by case_decide.
Qed.

Lemma rest_after_head n x es : named n x → Forall (λ e, bytes_lt n (e_Name e)) es → rest_after n (resolve (with_head x es)) (resolve es).
Proof.
  intros Hx Hes. split; [done|]. split; [done|]. intros m ns. split.
  - intros Hm. rewrite (resolve_with_head n) by done. destruct ns; by rewrite decide_False.
  - intros Hs. assert (is_Some (find_name m es)) as [e He].
    { destruct (find_name m es) eqn:E; [done|]. destruct ns as [|l ns]; [simpl in Hs; by rewrite E in Hs|]. rewrite resolve_cons, E in Hs. cbn [kids] in Hs. rewrite resolve_nil_l in Hs. by destruct Hs. }
    apply find_some in He as [Hin <-%bool_decide_eq_true]. rewrite <- list_elem_of_In in Hin. by eapply Forall_forall in Hes.
Qed.

Lemma below_name_head n x es : named n x → Forall (λ e, bytes_lt n (e_Name e)) es → pointwise_relation _ eq (below_name n (resolve (with_head x es))) (resolve (kids x)).
Proof. intros Hx Hes [|m ns]; [done|]. unfold below_name. rewrite (resolve_with_head n) by done. by rewrite decide_True. Qed.

Lemma lists_changes_step pre n x y ea eb sub rest :
  named n x → named n y → Forall (λ e, bytes_lt n (e_Name e)) ea → Forall (λ e, bytes_lt n (e_Name e)) eb →
  lists_changes (pre ++ [n]) (kids x) (kids y) sub → lists_changes pre ea eb rest →
  lists_changes pre (with_head x ea) (with_head y eb)
    (option_list (change_of (joined (pre ++ [n])) x y) ++ sub ++ rest).
Proof.
  intros Hx Hy Ha Hb Hsub Hrest. unfold lists_changes in *.
  pose proof (lists_sides_step pre n (resolve (with_head x ea)) (resolve (with_head y eb)) (resolve ea) (resolve eb) sub rest) as Hs.
  rewrite !(resolve_with_head n _ _ [n]), !decide_True in Hs by done. apply Hs; [by apply rest_after_head..| |done].
  by rewrite !below_name_head.
Qed.

Lemma lists_changes_nil pre : lists_changes pre [] [] [].
Proof. apply lists_sides_none. intros ns. unfold side_change. by rewrite !resolve_nil_l. Qed.

Lemma lists_changes_same pre es : lists_changes pre es es [].
Proof. apply lists_sides_none. intros ns. apply change_of_same. Qed.

(** ** The functions build it *)

Lemma joined_snoc pre n : joined (pre ++ [n]) = joinPath (joined pre) n.
Proof. unfold joined. by rewrite fold_left_app. Qed.

Lemma bindR_ok {A B} (f : A → res B) r b : bindR f r = ok b → ∃ a, r = ok a ∧ f a = ok b.
Proof. unfold bindR. destruct r as [[?|a]|]; [done|eauto|done]. Qed.

Lemma kids_sorted x : sorted_names (kids x).
Proof.
  destruct x as [e|]; simpl; [|constructor]. destruct (IsDir_ e); [|constructor].
  unfold Worktree.entries_at. destruct (Parse _) as [|k]; [constructor|].
  destruct (CollectEntries k) eqn:E; [constructor|by apply collect_sorted in E].
Qed.

Lemma sorted_cons e es : sorted_names (e :: es) →
  sorted_names es ∧ Forall (λ e', bytes_lt (e_Name e) (e_Name e')) es.
Proof. unfold sorted_names. by intros [? ?]%StronglySorted_inv. Qed.

(** The two sides of an expansion. *)
Definition one_sided (kind : Kind) : Prop := kind = Added ∨ kind = Deleted.
Definition old_side {A} (kind : Kind) (none some : A) : A := if decide (kind = Added) then none else some.
Definition new_side {A} (kind : Kind) (none some : A) : A := if decide (kind = Added) then some else none.

Lemma expand_change_of p e kind : one_sided kind →
  change_of p (old_side kind None (Some e)) (new_side kind None (Some e)) = Some (expand_change p e kind).
Proof. by intros [->| ->]. Qed.

Lemma expandChildren_eq fuel p e kind :
  expandChildren fuel p e kind =
    if negb (IsDir_ e) then ok []
    else match fuel with
    | O => None
    | S fuel => let! entries := Some (entries_at (e_ContentKey e)) in
        concatR (λ e, expand fuel p e kind) entries
    end.
Proof. by destruct fuel. Qed.

Lemma expand_list_spec fuel kind :
  one_sided kind →
  (∀ pre e cs, expandChildren fuel (joined pre) e kind = ok cs →
     lists_changes pre (old_side kind [] (kids (Some e))) (new_side kind [] (kids (Some e))) cs) →
  ∀ pre es cs, sorted_names es → concatR (λ e, expand fuel (joined pre) e kind) es = ok cs →
    lists_changes pre (old_side kind [] es) (new_side kind [] es) cs.
Proof.
  intros Hk IH pre es. induction es as [|e es IHes]; intros cs Hs; simpl.
  { intros [= <-]. unfold old_side, new_side. case_decide; apply lists_changes_nil. }
  intros (a & Ha & (b & Hb & Hab)%bindR_ok)%bindR_ok. injection Hab as <-.
  apply sorted_cons in Hs as [Hs Hlt]. unfold Worktree.expand in Ha.
  apply bindR_ok in Ha as (sub & Hsub & Ha). injection Ha as <-. rewrite <- joined_snoc in *.
  pose proof (lists_changes_step pre (e_Name e) (old_side kind None (Some e)) (new_side kind None (Some e))
    (old_side kind [] es) (new_side kind [] es) sub b) as Hstep.
  rewrite (expand_change_of _ e kind Hk) in Hstep.
  specialize (IH _ _ _ Hsub). specialize (IHes _ Hs Hb).
  unfold old_side, new_side in *. case_decide; apply Hstep; try done; try (by intros ? [= <-]).
Qed.

Lemma expandChildren_spec fuel pre e kind cs :
  one_sided kind → expandChildren fuel (joined pre) e kind = ok cs →
  lists_changes pre (old_side kind [] (kids (Some e))) (new_side kind [] (kids (Some e))) cs.
Proof.
  intros Hk. revert pre e cs. induction fuel as [|fuel IH]; intros pre e cs; rewrite expandChildren_eq.
  all: unfold kids; destruct (IsDir_ e); simpl; try done.
  1,3: intros [= <-]; unfold old_side, new_side; case_decide; apply lists_changes_nil.
  destruct (entries_at (e_ContentKey e)) as [err|es] eqn:E; [done|]. simpl.
  apply expand_list_spec; [done|done|].
  unfold Worktree.entries_at in E. destruct (Parse _); [done|]. by apply collect_sorted in E.
Qed.

Lemma expand_spec fuel pre e kind cs :
  one_sided kind → expand fuel (joined pre) e kind = ok cs →
  ∃ sub, lists_changes (pre ++ [e_Name e]) (old_side kind [] (kids (Some e))) (new_side kind [] (kids (Some e))) sub ∧
    cs = expand_change (joined (pre ++ [e_Name e])) e kind :: sub.
Proof.
  intros Hk. unfold Worktree.expand. rewrite <- joined_snoc. intros (sub & Hsub & [= <-])%bindR_ok.
  exists sub. split; [|done]. by apply expandChildren_spec in Hsub.
Qed.

(** The head of two lists, on one side only. *)
Lemma lists_changes_expand fuel pre e kind ea eb cs rest :
  one_sided kind → expand fuel (joined pre) e kind = ok cs →
  Forall (λ e', bytes_lt (e_Name e) (e_Name e')) ea → Forall (λ e', bytes_lt (e_Name e) (e_Name e')) eb →
  lists_changes pre ea eb rest →
  lists_changes pre (old_side kind ea (e :: ea)) (new_side kind eb (e :: eb)) (cs ++ rest).
Proof.
  intros Hk (sub & Hsub & ->)%expand_spec Ha Hb Hrest; [|done].
  pose proof (lists_changes_step pre (e_Name e) (old_side kind None (Some e)) (new_side kind None (Some e))
    ea eb sub rest) as Hstep.
  rewrite (expand_change_of _ e kind Hk) in Hstep.
  unfold old_side, new_side in *. case_decide; apply Hstep; try done; try (by intros ? [= <-]).
Qed.

Lemma lists_changes_nil_inv pre cs : lists_changes pre [] [] cs → cs = [].
Proof. apply lists_sides_none_inv. intros ns. unfold side_change. by rewrite !resolve_nil_l. Qed.

Context (sub : bytes → Key → Key → res (list Change)).
Context (sub_spec : ∀ pre a b cs, sub (joined pre) a b = ok cs →
  ∀ ea eb, CollectEntries a = inr ea → CollectEntries b = inr eb → lists_changes pre ea eb cs).
Context (sub_reads : ∀ p a b cs, sub p a b = ok cs →
  ∃ ea eb, CollectEntries a = inr ea ∧ CollectEntries b = inr eb).

Lemma Compare_TypeChanged x y : Compare x y = Some TypeChanged ↔ ftype (e_Mode x) ≠ ftype (e_Mode y).
Proof.
  unfold Compare. destruct (N.eqb_spec (ftype (e_Mode x)) (ftype (e_Mode y))) as [E|E]; simpl; [|done].
  repeat case_match; split; try done; by intros [].
Qed.

Lemma IsDir_type x y : ftype (e_Mode x) = ftype (e_Mode y) → IsDir_ x = IsDir_ y.
Proof. unfold IsDir_. by intros ->. Qed.

Lemma diff_pair_spec fuel pre x y cs :
  e_Name x = e_Name y → diff_pair Parse CollectEntries fuel sub (joined pre) x y = ok cs →
  ∃ s, lists_changes (pre ++ [e_Name x]) (kids (Some x)) (kids (Some y)) s ∧
    cs = option_list (change_of (joined (pre ++ [e_Name x])) (Some x) (Some y)) ++ s.
Proof.
  intros En. unfold diff_pair. rewrite <- joined_snoc. set (p := joined (pre ++ [e_Name x])).
  intros (cs1 & H1 & (cs2 & H2 & [= <-])%bindR_ok)%bindR_ok. cbn [change_of].
  destruct (decide (ftype (e_Mode x) = ftype (e_Mode y))) as [Et|Et].
  - assert (Compare x y ≠ Some TypeChanged) as Hn by (rewrite Compare_TypeChanged; tauto).
    assert (cs1 = option_list (k ← Compare x y; Some (MkChange p k (Some x) (Some y)))) as ->.
    { destruct (Compare x y) as [k|]; simpl in *; [|by injection H1 as <-].
      rewrite decide_False in H1 by congruence. by injection H1 as <-. }
    exists cs2. split; [|done]. pose proof (IsDir_type x y Et) as Ed.
    destruct (IsDir_ y) eqn:Edy; rewrite Ed in H2; simpl in H2.
    + case_bool_decide as Hck.
      * destruct (Parse (e_ContentKey x)) as [|kx] eqn:Ekx; [done|].
        destruct (Parse (e_ContentKey y)) as [|ky] eqn:Eky; [done|].
        destruct (sub_reads _ _ _ _ H2) as (ea & eb & Ea & Eb).
        unfold kids, Worktree.entries_at. rewrite Ed, Edy, Ekx, Eky, Ea, Eb. by apply (sub_spec _ _ _ _ H2).
      * injection H2 as <-. unfold kids. rewrite Ed, Edy. rewrite Hck.
        apply lists_changes_same.
    + injection H2 as <-. unfold kids. rewrite Ed, Edy. apply lists_changes_nil.
  - pose proof (proj2 (Compare_TypeChanged x y) Et) as Ec. rewrite Ec in *. simpl.
    rewrite decide_True in H1 by done.
    apply bindR_ok in H1 as (del & Hdel & (add & Hadd & [= <-])%bindR_ok).
    assert (IsDir_ x && IsDir_ y = false) as Hnd.
    { apply not_true_iff_false. unfold IsDir_. rewrite andb_true_iff, !N.eqb_eq. intros [E1 E2]. congruence. }
    rewrite Hnd in H2. simpl in H2. injection H2 as <-. exists (del ++ add). split; [|by rewrite app_nil_r].
    apply expandChildren_spec in Hdel; [|by right]. apply expandChildren_spec in Hadd; [|by left].
    unfold old_side, new_side in *. simpl in Hdel, Hadd.
    destruct (IsDir_ x) eqn:Ex, (IsDir_ y) eqn:Ey; try done; unfold kids in Hdel, Hadd |- *; rewrite ?Ex, ?Ey in Hdel, Hadd |- *.
    + apply lists_changes_nil_inv in Hadd as ->. by rewrite app_nil_r.
    + by apply lists_changes_nil_inv in Hdel as ->.
    + by apply lists_changes_nil_inv in Hdel as ->.
Qed.

Lemma diff_lists_eq fuel prefix ea eb :
  diff_lists Parse CollectEntries fuel sub prefix ea eb =
    match ea, eb with
    | [], [] => ok []
    | x :: ea', [] =>
        let! cs := expand fuel prefix x Deleted in
        let! rest := diff_lists Parse CollectEntries fuel sub prefix ea' [] in ok (cs ++ rest)
    | [], y :: eb' =>
        let! cs := expand fuel prefix y Added in
        let! rest := diff_lists Parse CollectEntries fuel sub prefix [] eb' in ok (cs ++ rest)
    | x :: ea', y :: eb' =>
        match bytes_compare (e_Name x) (e_Name y) with
        | Lt =>
            let! cs := expand fuel prefix x Deleted in
            let! rest := diff_lists Parse CollectEntries fuel sub prefix ea' eb in ok (cs ++ rest)
        | Gt =>
            let! cs := expand fuel prefix y Added in
            let! rest := diff_lists Parse CollectEntries fuel sub prefix ea eb' in ok (cs ++ rest)
        | Eq =>
            let! cs := diff_pair Parse CollectEntries fuel sub prefix x y in
            let! rest := diff_lists Parse CollectEntries fuel sub prefix ea' eb' in ok (cs ++ rest)
        end
    end.
Proof. by destruct ea, eb. Qed.

Lemma sorted_above n e es :
  sorted_names (e :: es) → bytes_lt n (e_Name e) → Forall (λ e', bytes_lt n (e_Name e')) (e :: es).
Proof.
  intros [_ Hs]%sorted_cons Hn. constructor; [done|]. eapply Forall_impl; [exact Hs|].
  intros e' He. simpl in He. by eapply (cmp_lt_trans bytes_compare).
Qed.

Lemma diff_lists_spec fuel pre ea eb cs :
  sorted_names ea → sorted_names eb → diff_lists Parse CollectEntries fuel sub (joined pre) ea eb = ok cs →
  lists_changes pre ea eb cs.
Proof.
  remember (length ea + length eb) as n eqn:En. revert ea eb cs En. induction (lt_wf n) as [n _ IH].
  intros ea eb cs En Sa Sb. rewrite diff_lists_eq.
  destruct ea as [|x ea], eb as [|y eb]; simpl in En; [intros [= <-]; apply lists_changes_nil| | |].
  - intros (h & Hh & (r & Hr & [= <-])%bindR_ok)%bindR_ok. pose proof (sorted_cons _ _ Sb) as [Sb' Lb].
    eapply (lists_changes_expand _ _ _ Added [] eb); eauto; [by left|]. by eapply IH; [|reflexivity|..|exact Hr]; [simpl; lia|..].
  - intros (h & Hh & (r & Hr & [= <-])%bindR_ok)%bindR_ok. pose proof (sorted_cons _ _ Sa) as [Sa' La].
    eapply (lists_changes_expand _ _ _ Deleted ea []); eauto; [by right|]. by eapply IH; [|reflexivity|..|exact Hr]; [simpl; lia|..].
  - pose proof (sorted_cons _ _ Sa) as [Sa' La]. pose proof (sorted_cons _ _ Sb) as [Sb' Lb].
    destruct (bytes_compare (e_Name x) (e_Name y)) eqn:Ec.
    all: intros (h & Hh & (r & Hr & [= <-])%bindR_ok)%bindR_ok.
    + apply (cmp_eq_iff bytes_compare) in Ec. destruct (diff_pair_spec _ _ _ _ _ Ec Hh) as (s & Hs & ->).
      rewrite <- app_assoc. apply (lists_changes_step pre (e_Name x) (Some x) (Some y) ea eb s r); try done.
      * by intros ? [= <-].
      * by intros ? [= <-].
      * by rewrite Ec.
      * by eapply IH; [|reflexivity|..|exact Hr]; [lia|..].
    + eapply (lists_changes_expand _ _ _ Deleted ea (y :: eb)); eauto; [by right|by apply sorted_above|].
      by eapply IH; [|reflexivity|..|exact Hr]; [simpl; lia|..].
    + apply (cmp_gt_lt bytes_compare) in Ec.
      eapply (lists_changes_expand _ _ _ Added (x :: ea) eb); eauto; [by left|by apply sorted_above|].
      by eapply IH; [|reflexivity|..|exact Hr]; [simpl; lia|..].
Qed.
End spec.

(** ** Termination *)

Section total.
Context {Key : Type} `{EqDecision Key}.
Context (Parse : bytes → string + Key) (CollectEntries : Key → string + list Entry).
Notation entries_at := (entries_at Parse CollectEntries).
Notation expandChildren := (expandChildren Parse CollectEntries).

(** No directory lies more than [n] levels below the entry. *)
Fixpoint shallow (n : nat) (e : Entry) : Prop :=
  IsDir_ e = true →
  match n with
  | O => False
  | S n => ∀ es, entries_at (e_ContentKey e) = inr es → Forall (shallow n) es
  end.

Definition shallow_tree (n : nat) (k : Key) : Prop := ∀ es, CollectEntries k = inr es → Forall (shallow n) es.

Lemma bindR_total {A B} (f : A → res B) r : r ≠ None → (∀ a, r = ok a → f a ≠ None) → bindR f r ≠ None.
Proof. destruct r as [[?|a]|]; simpl; auto. Qed.

Lemma concatR_total {A B} (f : A → res (list B)) l : (∀ x, x ∈ l → f x ≠ None) → concatR f l ≠ None.
Proof.
  induction l as [|x l IH]; intros Hf; [done|]. simpl.
  apply bindR_total; [apply Hf; by left|]. intros a _. apply bindR_total; [|done]. apply IH. intros y Hy. apply Hf. by right.
Qed.

Lemma expandChildren_total n p e kind : shallow n e → expandChildren n p e kind ≠ None.
Proof.
  revert p e. induction n as [|n IH]; intros p e Hs; rewrite expandChildren_eq; simpl in Hs.
  all: destruct (IsDir_ e); [simpl|done].
  - by specialize (Hs eq_refl).
  - destruct (entries_at (e_ContentKey e)) as [err|es]; [done|]. simpl.
    specialize (Hs eq_refl es eq_refl). rewrite Forall_forall in Hs.
    apply concatR_total. intros x Hx. unfold expand. apply bindR_total; [|done]. apply IH. by apply Hs.
Qed.

Lemma diff_lists_total n sub p ea eb :
  (∀ x y kx ky p, x ∈ ea → y ∈ eb → IsDir_ x = true → IsDir_ y = true →
     Parse (e_ContentKey x) = inr kx → Parse (e_ContentKey y) = inr ky → sub p kx ky ≠ None) →
  Forall (shallow n) ea → Forall (shallow n) eb →
  diff_lists Parse CollectEntries n sub p ea eb ≠ None.
Proof.
  remember (length ea + length eb) as m eqn:Em. revert ea eb Em. induction (lt_wf m) as [m _ IH].
  intros ea eb Em Hsub Sa Sb. rewrite diff_lists_eq.
  assert (∀ ea' eb' h, length ea' + length eb' < m → ea' ⊆ ea → eb' ⊆ eb → h ≠ None →
    (let! cs := h in let! rest := diff_lists Parse CollectEntries n sub p ea' eb' in ok (cs ++ rest)) ≠ None) as Hgo.
  { intros ea' eb' h Hl Ha Hb Hh. apply bindR_total; [done|]. intros cs _. apply bindR_total; [|done].
    eapply IH; [exact Hl|reflexivity|..].
    - intros x y kx ky p' Hx Hy. apply Hsub; [by apply Ha|by apply Hb].
    - rewrite Forall_forall in *. auto.
    - rewrite Forall_forall in *. auto. }
  assert (∀ e kind, e ∈ ea ++ eb → expand Parse CollectEntries n p e kind ≠ None) as Hexp.
  { intros e kind He. unfold expand. apply bindR_total; [|done]. apply expandChildren_total.
    rewrite Forall_forall in *. apply elem_of_app in He as [?|?]; auto. }
  destruct ea as [|x ea], eb as [|y eb]; simpl in Em; [done| | |].
  - apply Hgo; [simpl; lia|done|set_solver|]. apply Hexp. set_solver.
  - apply Hgo; [simpl; lia|set_solver|done|]. apply Hexp. set_solver.
  - destruct (bytes_compare (e_Name x) (e_Name y)).
    + apply Hgo; [lia|set_solver|set_solver|]. apply Forall_cons in Sa as [Sx _], Sb as [Sy _].
      unfold diff_pair. apply bindR_total.
      * destruct (Compare x y) as [k|]; [|done]. case_decide; [|done].
        apply bindR_total; [by apply expandChildren_total|]. intros del _.
        apply bindR_total; [by apply expandChildren_total|done].
      * intros cs1 _. apply bindR_total; [|done].
        destruct (IsDir_ x) eqn:Ex; [|done]. destruct (IsDir_ y) eqn:Ey; [|done]. simpl. case_bool_decide; [|done].
        destruct (Parse (e_ContentKey x)) as [|kx] eqn:Ekx; [done|].
        destruct (Parse (e_ContentKey y)) as [|ky] eqn:Eky; [done|]. simpl.
        apply (Hsub x y); try done; by left.
    + apply Hgo; [simpl; lia|set_solver|done|]. apply Hexp. set_solver.
    + apply Hgo; [simpl; lia|done|set_solver|]. apply Hexp. set_solver.
Qed.

Lemma diffDirs_total n p a b :
  shallow_tree n a → shallow_tree n b → diffDirs Parse CollectEntries (S n) p a b ≠ None.
Proof.
  revert p a b. induction n as [|n IH]; intros p a b Ha Hb; cbn [diffDirs].
  all: destruct (CollectEntries a) as [|ea] eqn:Ea; [done|]; destruct (CollectEntries b) as [|eb] eqn:Eb; [done|]; simpl.
  all: specialize (Ha ea Ea); specialize (Hb eb Eb); apply diff_lists_total; try done.
  all: intros x y kx ky p' Hx Hy Dx Dy Ekx Eky; rewrite Forall_forall in Ha, Hb.
  all: pose proof (Ha x Hx Dx) as Sx; pose proof (Hb y Hy Dy) as Sy; try done.
  apply IH; intros es Hes; [apply Sx|apply Sy]; unfold Worktree.entries_at; by rewrite ?Ekx, ?Eky.
Qed.
End total.

(** * What a diff promises *)

(** A tree diff lists exactly the differences, once each and in path order:
    for every path, of any depth, that differs between the two trees (present on
    one side only, or different in type, content, mode or metadata) there is one
    change with that path, the right kind and both entries, and there are no
    others, although equal subtrees are never read. *)
Theorem DiffTrees_lists {Key} `{EqDecision Key} (Parse : bytes → string + Key)
    (CollectEntries : Key → string + list Entry) fuel a b ea eb cs :
  (∀ k es, CollectEntries k = inr es → sorted_names es) →
  CollectEntries a = inr ea → CollectEntries b = inr eb →
  DiffTrees Parse CollectEntries fuel a b = ok cs →
  lists_changes Parse CollectEntries [] ea eb cs.
Proof.
  intros Hsorted Ea Eb. unfold DiffTrees. case_decide as Hab.
  { intros [= <-]. assert (eb = ea) as -> by congruence. apply lists_changes_same. }
  change [] with (joined []) at 1. generalize (@nil bytes). clear Hab. revert a b ea eb cs Ea Eb.
  induction fuel as [|fuel IH]; intros a b ea eb cs Ea Eb pre; cbn [diffDirs]; [done|].
  rewrite Ea, Eb. simpl. apply diff_lists_spec; [done|..|by apply (Hsorted a)|by apply (Hsorted b)].
  - intros pre' a' b' cs' Hd ea' eb' Ea' Eb'. by apply (IH a' b').
  - intros p a' b' cs' Hd. destruct fuel; [done|]. cbn [diffDirs] in Hd.
    destruct (CollectEntries a') as [|ea'] eqn:Ea'; [done|]. destruct (CollectEntries b') as [|eb'] eqn:Eb'; [done|].
    eauto.
Qed.

(** A tree diff ends: one level of recursion more than the trees are deep is
    enough. *)
Theorem DiffTrees_total {Key} `{EqDecision Key} (Parse : bytes → string + Key)
    (CollectEntries : Key → string + list Entry) n a b :
  shallow_tree Parse CollectEntries n a → shallow_tree Parse CollectEntries n b →
  DiffTrees Parse CollectEntries (S n) a b ≠ None.
Proof. intros Ha Hb. unfold DiffTrees. case_decide; [done|]. by apply diffDirs_total. Qed.

(** * Merging *)

Record Conflict := MkConflict { cf_Path : bytes; cf_Local : Change; cf_Incoming : Change }.

(** [strings.LastIndexByte(p, '/')]. *)
Fixpoint last_slash (p : bytes) : option nat :=
  match p with
  | [] => None
  | b :: p =>
      match last_slash p with
      | Some i => Some (S i)
      | None => if decide (b = slash) then Some 0 else None
      end
  end.

(** A change that leaves nothing below its path. *)
Definition gone (l : Change) : bool :=
  bool_decide (c_Kind l = Deleted) || (bool_decide (c_Kind l = TypeChanged) && IsDir (Old l)).

(** The nearest ancestor of [p] with such a change; a path's length bounds the
    number of its ancestors. *)
Fixpoint goneAbove (fuel : nat) (byPath : gmap bytes Change) (p : bytes) : option Change :=
  match fuel with
  | O => None
  | S fuel =>
      match last_slash p with
      | Some (S i) =>
          let q := take (S i) p in
          match byPath !! q with
          | Some l => if gone l then Some l else goneAbove fuel byPath q
          | None => goneAbove fuel byPath q
          end
      | _ => None
      end
  end.

Definition path_before (a b : bytes) : bool := bool_decide (bytes_lt a b).

(** [strings.HasPrefix]. *)
Definition has_prefix (s pre : bytes) : bool := bool_decide (take (length pre) s = pre).

(** [sort.SearchStrings] finds the first path not below [p/]. *)
Definition firstBelow (byPath : gmap bytes Change) (paths : list bytes) (p : bytes) : option Change :=
  let x := p ++ [slash] in
  match find (λ s, negb (path_before s x)) paths with
  | Some s => if has_prefix s x then byPath !! s else None
  | None => None
  end.

Definition merge_step (byPath : gmap bytes Change) (paths : list bytes)
    (acc : list Change * list Conflict) (inc : Change) : list Change * list Conflict :=
  let '(apply, conflicts) := acc in
  match byPath !! Path inc with
  | Some l =>
      let conflict := (apply, conflicts ++ [MkConflict (Path inc) l inc]) in
      if decide (c_Kind l = MetaChanged) then (apply ++ [inc], conflicts)
      else if decide (c_Kind l = Deleted ∧ c_Kind inc = Deleted) then (apply, conflicts)
      else if decide (c_Kind l = Deleted ∨ c_Kind inc = Deleted) then conflict
      else match New l, New inc with
      | Some a, Some b => if Equivalent a b then (apply ++ [inc], conflicts) else conflict
      | _, _ => conflict   (* not reached: only a deletion has no new entry *)
      end
  | None =>
      match goneAbove (length (Path inc)) byPath (Path inc) with
      | Some l =>
          if decide (c_Kind inc = Deleted) then (apply, conflicts)
          else (apply, conflicts ++ [MkConflict (Path inc) l inc])
      | None =>
          match (if bool_decide (c_Kind inc = TypeChanged) && IsDir (Old inc)
                 then firstBelow byPath paths (Path inc) else None) with
          | Some l => (apply, conflicts ++ [MkConflict (Path inc) l inc])
          | None => (apply ++ [inc], conflicts)
          end
      end
  end.

Definition Merge (local incoming : list Change) : list Change * list Conflict :=
  let byPath := fold_left (λ m c, <[Path c := c]> m) local ∅ in
  let paths := sort_by path_before (Path <$> local) in
  fold_left (merge_step byPath paths) incoming ([], []).

(** ** The rules *)

Inductive verdict := Applies | Conflicts (l : Change) | Dropped.

(** [p] lies below the directory [q]. *)
Definition below (q p : bytes) : Prop := ∃ rest, p = q ++ slash :: rest.

(** Both sides changed the same path. *)
Definition at_path (l inc : Change) : verdict :=
  if decide (c_Kind l = MetaChanged) then Applies
  else if decide (c_Kind l = Deleted ∧ c_Kind inc = Deleted) then Dropped
  else if decide (c_Kind l = Deleted ∨ c_Kind inc = Deleted) then Conflicts l
  else match New l, New inc with
  | Some a, Some b => if Equivalent a b then Applies else Conflicts l
  | _, _ => Conflicts l
  end.

Definition retypes_dir (inc : Change) : Prop := c_Kind inc = TypeChanged ∧ IsDir (Old inc) = true.

(** The verdict on an incoming change, in the order in which the code looks: the local
    change at the same path first, and one of metadata there gives way to anything; then
    local deletions above; then, for a directory that changes its type, local changes
    below.  The comment of [Merge] promises a conflict for the last also where the first
    rule applies. *)
Definition rules (local : list Change) (inc : Change) (v : verdict) : Prop :=
  (∃ l, l ∈ local ∧ Path l = Path inc ∧ v = at_path l inc) ∨
  (∀ l, l ∈ local → Path l ≠ Path inc) ∧
  ((∃ l, l ∈ local ∧ gone l = true ∧ below (Path l) (Path inc) ∧
      v = if decide (c_Kind inc = Deleted) then Dropped else Conflicts l) ∨
   (∀ l, l ∈ local → gone l = true → Path l ≠ [] → ¬ below (Path l) (Path inc)) ∧
   ((∃ l, retypes_dir inc ∧ l ∈ local ∧ below (Path inc) (Path l) ∧ v = Conflicts l) ∨
    (retypes_dir inc → ∀ l, l ∈ local → ¬ below (Path inc) (Path l)) ∧ v = Applies)).

Definition applied (incoming : list Change) (vs : list verdict) : list Change :=
  omap (λ '(inc, v), match v with Applies => Some inc | _ => None end) (zip incoming vs).

Definition conflicting (incoming : list Change) (vs : list verdict) : list Conflict :=
  omap (λ '(inc, v), match v with Conflicts l => Some (MkConflict (Path inc) l inc) | _ => None end)
    (zip incoming vs).

(** ** Facts *)

Lemma last_slash_Some p i :
  last_slash p = Some i → p !! i = Some slash ∧ ∀ j, i < j → p !! j ≠ Some slash.
Proof.
  revert i. induction p as [|b p IH]; intros i; simpl; [done|].
  destruct (last_slash p) as [k|] eqn:E.
  - intros [= <-]. destruct (IH k eq_refl) as [Hk Hmax]. split; [done|].
    intros [|j] Hj; [lia|]. simpl. apply Hmax. lia.
  - case_decide as Hb; [|done]. intros [= <-]. split; [by subst|]. intros [|j] Hj; [lia|]. simpl.
    clear IH Hj. revert E j. induction p as [|b' p IHp]; intros E j; [done|]. simpl in E.
    destruct (last_slash p); [done|]. case_decide; [done|]. destruct j; simpl; [congruence|by apply IHp].
Qed.

Lemma last_slash_None p : last_slash p = None → ∀ j, p !! j ≠ Some slash.
Proof.
  induction p as [|b p IH]; simpl; intros E j; [done|].
  destruct (last_slash p); [done|]. case_decide; [done|]. destruct j; simpl; [congruence|by apply IH].
Qed.

Lemma below_at q p : below q p ↔ p !! length q = Some slash ∧ take (length q) p = q.
Proof.
  split.
  - intros [rest ->]. rewrite lookup_app_r, Nat.sub_diag by lia. split; [done|]. apply take_app_length.
  - intros [Hs Ht]. exists (drop (S (length q)) p). rewrite <- Ht at 1. symmetry. by apply take_drop_middle.
Qed.

Lemma below_take q p i :
  i < length p → (∀ j, i < j → p !! j ≠ Some slash) → below q p → q = take i p ∨ below q (take i p).
Proof.
  intros Hi Hmax [Hs Ht]%below_at. destruct (decide (length q = i)) as [<-|Hne]; [by left|right].
  assert (length q < i) as Hlt.
  { destruct (decide (i < length q)) as [Hgt|?]; [|lia]. by apply Hmax in Hgt. }
  apply below_at. rewrite lookup_take_lt by lia. split; [done|]. rewrite take_take, Nat.min_l by lia. done.
Qed.

Lemma take_below i p : p !! i = Some slash → below (take i p) p.
Proof.
  intros Hs. exists (drop (S i) p). symmetry. by apply take_drop_middle.
Qed.

Lemma below_trans a b c : below a b → below b c → below a c.
Proof. intros [r ->] [r' ->]. exists (r ++ slash :: r'). by rewrite <- app_assoc. Qed.

Lemma goneAbove_spec fuel byPath p :
  length p ≤ fuel →
  match goneAbove fuel byPath p with
  | Some l => ∃ q, q ≠ [] ∧ below q p ∧ byPath !! q = Some l ∧ gone l = true
  | None => ∀ q l, q ≠ [] → below q p → byPath !! q = Some l → gone l = false
  end.
Proof.
  revert p. induction fuel as [|fuel IH]; intros p Hl; cbn [goneAbove].
  { destruct p; [|simpl in Hl; lia]. intros q l _ [r Hr]. by destruct q. }
  assert (∀ q, below q p → ∃ j, p !! j = Some slash ∧ length q = j) as Hsl.
  { intros q [Hq _]%below_at. eauto. }
  destruct (last_slash p) as [[|i]|] eqn:E.
  - apply last_slash_Some in E as [_ Hmax]. intros q l Hq Hb. destruct (Hsl q Hb) as (j & Hj & Hlen).
    destruct q; [done|]. simpl in Hlen. apply Hmax in Hj; [done|lia].
  - apply last_slash_Some in E as [Hs Hmax]. pose proof (lookup_lt_Some _ _ _ Hs) as Hi.
    assert (length (take (S i) p) = S i) as Hlt by (rewrite length_take; lia).
    assert (take (S i) p ≠ []) as Hne by (intros E; rewrite E in Hlt; done).
    pose proof (take_below _ _ Hs) as Hbt. specialize (IH (take (S i) p) ltac:(lia)).
    destruct (goneAbove fuel byPath (take (S i) p)) as [l|] eqn:Eg.
    + destruct IH as (q & Hq & Hb & Hp & Hgl).
      destruct (byPath !! take (S i) p) as [l'|] eqn:El; [destruct (gone l') eqn:Egl|].
      * exists (take (S i) p). auto.
      * exists q. eauto using below_trans.
      * exists q. eauto using below_trans.
    + assert (∀ q l, q ≠ [] → below q p → byPath !! q = Some l →
        (∀ l', byPath !! take (S i) p = Some l' → gone l' = false) → gone l = false) as Hno.
      { intros q l Hq Hb Hp Htop. destruct (below_take q p (S i) Hi Hmax Hb) as [->|Hb']; eauto. }
      destruct (byPath !! take (S i) p) as [l'|] eqn:El; [destruct (gone l') eqn:Egl|].
      * exists (take (S i) p). auto.
      * intros q l Hq Hb Hp. apply (Hno q l); auto. congruence.
      * intros q l Hq Hb Hp. apply (Hno q l); auto. done.
  - intros q l Hq Hb. destruct (Hsl q Hb) as (j & Hj & _). by apply last_slash_None with (j := j) in E.
Qed.

(** The strings with a prefix are consecutive in the byte order. *)
Lemma between_prefix x f r : bytes_le x f → bytes_le f (x ++ r) → ∃ r', f = x ++ r'.
Proof.
  unfold cmp_le. revert f. induction x as [|a x IH]; intros f H1 H2; [by exists f|].
  destruct f as [|b f]; [done|]. simpl in *.
  rewrite (N.compare_antisym (Byte.to_N a) (Byte.to_N b)) in H2.
  destruct (N.compare (Byte.to_N a) (Byte.to_N b)) eqn:Ec; simpl in *; try done.
  apply N.compare_eq, to_N_inj in Ec as <-. destruct (IH f H1 H2) as (r' & ->). by exists r'.
Qed.

Lemma below_prefix p s : below p s ↔ has_prefix s (p ++ [slash]) = true.
Proof.
  unfold has_prefix. rewrite bool_decide_eq_true. split.
  - intros [r ->]. change (slash :: r) with ([slash] ++ r). rewrite app_assoc. apply take_app_length.
  - intros Ht. exists (drop (length (p ++ [slash])) s).
    rewrite <- (take_drop (length (p ++ [slash])) s) at 1. rewrite Ht. by rewrite <- app_assoc.
Qed.

Lemma path_before_strict P : strict_on path_before P.
Proof.
  unfold strict_on, nlt, path_before. split.
  - intros x y _ _ H%bool_decide_eq_true. apply bool_decide_eq_false.
    intros H'. by eapply (cmp_lt_irrefl bytes_compare), (cmp_lt_transitive bytes_compare).
  - intros x y z _ _ _ H1%bool_decide_eq_false H2%bool_decide_eq_false.
    apply bool_decide_eq_false. rewrite (cmp_nlt_le bytes_compare) in *.
    by eapply (cmp_le_transitive bytes_compare).
Qed.

Lemma paths_sorted l : StronglySorted bytes_le (sort_by path_before l).
Proof.
  eapply StronglySorted_impl; [|apply (sort_by_sorted _ (λ _, True)); [apply path_before_strict|by apply Forall_true]].
  intros x y Hn. unfold nlt, path_before in Hn. apply bool_decide_eq_false in Hn.
  by apply (cmp_nlt_le bytes_compare).
Qed.

(** The search finds a path below [p] whenever there is one. *)
Lemma search_below paths p :
  StronglySorted bytes_le paths →
  match find (λ s, negb (path_before s (p ++ [slash]))) paths with
  | Some s => s ∈ paths ∧ (has_prefix s (p ++ [slash]) = true ∨ ∀ t, t ∈ paths → ¬ below p t)
  | None => ∀ t, t ∈ paths → ¬ below p t
  end.
Proof.
  assert (∀ t, below p t → ∃ r, t = (p ++ [slash]) ++ r) as Hpre.
  { intros t [r ->]. exists r. by rewrite <- app_assoc. }
  assert (∀ x r, bytes_le x (x ++ r)) as Hle.
  { intros x r. unfold cmp_le. induction x as [|b x IH]; simpl; [by destruct r|]. by rewrite N.compare_refl. }
  set (x := p ++ [slash]) in *.
  induction 1 as [|s paths Hs IH Hmin]; simpl; [by intros t ?%elem_of_nil|].
  destruct (path_before s x) eqn:Eb; simpl.
  - apply bool_decide_eq_true in Eb.
    assert (¬ below p s) as Hns.
    { intros [r Er]%Hpre. rewrite Er in Eb. apply (cmp_lt_not_le bytes_compare _ _ Eb), Hle. }
    destruct (find _ paths) as [f|].
    + destruct IH as [Hf [?|Hn]]; (split; [by right|]); [by left|right].
      intros t [->|Ht]%elem_of_cons; auto.
    + intros t [->|Ht]%elem_of_cons; auto.
  - split; [by left|]. apply bool_decide_eq_false, (cmp_nlt_le bytes_compare) in Eb.
    destruct (has_prefix s x) eqn:Ep; [by left|right]. intros t Ht Hb. destruct (Hpre t Hb) as (r & Er).
    assert (bytes_le s t) as Hst.
    { apply elem_of_cons in Ht as [->|Ht]; [reflexivity|]. by eapply Forall_forall in Hmin. }
    rewrite Er in Hst. destruct (between_prefix x s r Eb Hst) as (r' & Es).
    assert (below p s) as Hbs by (exists r'; rewrite Es; unfold x; by rewrite <- app_assoc).
    apply below_prefix in Hbs. unfold x in Ep. congruence.
Qed.

Section merge.
Context (local : list Change) (Hnd : NoDup (Path <$> local)).

Definition index (l : list Change) (m : gmap bytes Change) : gmap bytes Change :=
  fold_left (λ m c, <[Path c := c]> m) l m.

Lemma index_lookup l m p c :
  NoDup (Path <$> l) → index l m !! p = Some c ↔ (c ∈ l ∧ Path c = p) ∨ (p ∉ Path <$> l ∧ m !! p = Some c).
Proof.
  unfold index. revert m. induction l as [|x l IH]; intros m Hn; simpl; [set_solver|].
  apply NoDup_cons in Hn as [Hx Hn]. rewrite IH by done. destruct (decide (Path x = p)) as [<-|Hp].
  - rewrite lookup_insert_eq. rewrite elem_of_cons. split.
    + intros [[Hin E]|[_ [= ->]]]; [|by left; split; [left|]]. destruct Hx. rewrite <- E. by apply list_elem_of_fmap_2.
    + intros [[[->|Hin] E]|[Hn' _]]; [by right|by left|]. destruct Hn'. left.
  - rewrite lookup_insert_ne, elem_of_cons by done. rewrite not_elem_of_cons. split.
    + intros [[Hin E]|[Hn' E]]; [left; auto|right; auto].
    + intros [[[->|Hin] E]|[[_ Hn'] E]]; [done|left; auto|right; auto].
Qed.

Notation byPath := (index local ∅).
Notation paths := (sort_by path_before (Path <$> local)).

Lemma byPath_lookup p c : byPath !! p = Some c ↔ c ∈ local ∧ Path c = p.
Proof. rewrite index_lookup by done. rewrite lookup_empty. naive_solver. Qed.

Lemma byPath_None p : byPath !! p = None → ∀ l, l ∈ local → Path l ≠ p.
Proof. intros E l Hl Hp. assert (byPath !! p = Some l) as E' by by apply byPath_lookup. congruence. Qed.

Lemma firstBelow_spec p :
  match firstBelow byPath paths p with
  | Some l => l ∈ local ∧ below p (Path l)
  | None => ∀ l, l ∈ local → ¬ below p (Path l)
  end.
Proof.
  unfold firstBelow. pose proof (search_below paths p (paths_sorted _)) as Hs.
  assert (∀ s, s ∈ paths ↔ ∃ l, l ∈ local ∧ Path l = s) as Hin.
  { intros s. rewrite elem_of_sort_by, list_elem_of_fmap. naive_solver. }
  assert ((∀ t, t ∈ paths → ¬ below p t) → ∀ l, l ∈ local → ¬ below p (Path l)) as Hno.
  { intros Hn l Hl. apply Hn, Hin. eauto. }
  destruct (find _ paths) as [s|]; [|by apply Hno].
  destruct Hs as [(l & Hl & <-)%Hin [Hp|Hn]].
  - rewrite Hp. rewrite (proj2 (byPath_lookup (Path l) l)) by done. split; [done|by apply below_prefix].
  - destruct (has_prefix _ _) eqn:Hp; [|by apply Hno].
    apply below_prefix in Hp. exfalso. eapply Hno; eauto.
Qed.

(** One incoming change, by the rules. *)
Lemma merge_step_rules inc : ∃ v, rules local inc v ∧ ∀ a c,
  merge_step byPath paths (a, c) inc =
    (a ++ match v with Applies => [inc] | _ => [] end,
     c ++ match v with Conflicts l => [MkConflict (Path inc) l inc] | _ => [] end).
Proof.
  unfold merge_step. destruct (byPath !! Path inc) as [l|] eqn:El.
  { apply byPath_lookup in El as [Hl Ep]. exists (at_path l inc). split; [left; by exists l|]. intros a c.
    unfold at_path. repeat case_decide; rewrite ?app_nil_r; try done.
    destruct (New l), (New inc); rewrite ?app_nil_r; try done. destruct (Equivalent _ _); by rewrite app_nil_r. }
  pose proof (goneAbove_spec (length (Path inc)) byPath (Path inc) (le_n _)) as Hg.
  destruct (goneAbove _ _ _) as [l|].
  { destruct Hg as (q & _ & Hb & [Hl <-]%byPath_lookup & Hgl).
    exists (if decide (c_Kind inc = Deleted) then Dropped else Conflicts l). split.
    - right. split; [by apply byPath_None|]. left. by exists l.
    - intros a c. case_decide; by rewrite ?app_nil_r. }
  assert (∀ l, l ∈ local → gone l = true → Path l ≠ [] → ¬ below (Path l) (Path inc)) as Hgone.
  { intros l Hl Hgl Hne Hb. assert (byPath !! Path l = Some l) as E by by apply byPath_lookup.
    specialize (Hg _ _ Hne Hb E). congruence. }
  pose proof (firstBelow_spec (Path inc)) as Hf.
  destruct (bool_decide (c_Kind inc = TypeChanged) && IsDir (Old inc)) eqn:Er.
  - apply andb_true_iff in Er as [Ek%bool_decide_eq_true Ed].
    destruct (firstBelow _ _ _) as [l|].
    + exists (Conflicts l). split; [|intros a c; by rewrite app_nil_r].
      right. split; [by apply byPath_None|]. right. split; [done|]. left. exists l. destruct Hf. done.
    + exists Applies. split; [|intros a c; by rewrite app_nil_r].
      right. split; [by apply byPath_None|]. right. split; [done|]. right. done.
  - exists Applies. split; [|intros a c; by rewrite app_nil_r].
    right. split; [by apply byPath_None|]. right. split; [done|]. right. split; [|done].
    intros [Ek Ed]. rewrite Ek, Ed in Er. done.
Qed.

Lemma merge_fold incoming a c : ∃ vs, Forall2 (rules local) incoming vs ∧
  fold_left (merge_step byPath paths) incoming (a, c) = (a ++ applied incoming vs, c ++ conflicting incoming vs).
Proof.
  revert a c. induction incoming as [|inc incoming IH]; intros a c.
  { exists []. rewrite !app_nil_r. by split. }
  destruct (merge_step_rules inc) as (v & Hv & Hs). cbn [fold_left]. rewrite Hs.
  destruct (IH (a ++ match v with Applies => [inc] | _ => [] end)
    (c ++ match v with Conflicts l => [MkConflict (Path inc) l inc] | _ => [] end)) as (vs & Hvs & ->).
  exists (v :: vs). split; [by constructor|]. rewrite <- !app_assoc. by destruct v.
Qed.
End merge.

(** The merge follows its rules: every incoming change gets the one verdict
    the rules give it for the local changes, the applied changes and the
    conflicts come in the order of the incoming ones, and nothing else is applied
    or reported.  A change applied over nothing local never lands below a
    directory the local side deleted or retyped, and never replaces a directory
    with local changes in it. *)
Theorem Merge_rules (local incoming : list Change) :
  NoDup (Path <$> local) →
  ∃ vs, Forall2 (rules local) incoming vs ∧
    Merge local incoming = (applied incoming vs, conflicting incoming vs).
Proof. intros Hnd. apply (merge_fold local Hnd incoming [] []). Qed.

(** A metadata change of a directory hides the local changes below it: when
    the directory's own local change is one of metadata, such as the new
    modification time that adding a file gives it, an incoming change of its type
    is applied, not reported, whatever the local side changed below. *)
Theorem Merge_retype_over_metadata (local incoming : list Change) (l inc : Change) :
  NoDup (Path <$> local) → l ∈ local → c_Kind l = MetaChanged →
  inc ∈ incoming → Path inc = Path l → retypes_dir inc →
  inc ∈ (Merge local incoming).1.
Proof.
  intros Hnd Hl Hk Hin Ep _. destruct (merge_fold local Hnd incoming [] []) as (vs & Hvs & E).
  unfold Merge. fold (index local ∅). rewrite E. clear E. simpl.
  induction Hvs as [|x v incoming vs Hv Hvs IH]; [by apply elem_of_nil in Hin|].
  apply elem_of_cons in Hin as [<-|Hin]; last first.
  { unfold applied. simpl. destruct v; [apply elem_of_cons; right|..]; by apply IH. }
  destruct Hv as [(l' & Hl' & Ep' & ->)|[Hno _]]; [|by destruct (Hno l Hl)].
  assert (l' = l) as ->.
  { eapply (NoDup_fmap_inj_on Path local); eauto. congruence. }
  unfold at_path. rewrite decide_True by done. simpl. by left.
Qed.

(** * Textual diffs (diff.go)

    [old] and [new] read the content behind an entry; [udiff] is the unified diff
    of go-udiff, given two labels and two texts.  Output is a byte string: the
    writer's own errors are left out. *)

Inductive read_error := ErrTooLarge | ReadErr (s : string).

Definition Source : Type := bytes → Entry → read_error + bytes.

(** The content-bearing sides of a change. *)
Definition sides (c : Change) : option Entry * option Entry :=
  (if IsDir (Old c) then None else Old c, if IsDir (New c) then None else New c).

Definition content (s : Source) (p : bytes) (e : option Entry) : read_error + bytes :=
  match e with None => inr [] | Some e => s p e end.

(** A NUL byte in the first 8 KiB. *)
Definition isBinary (b : bytes) : bool := bool_decide (x00 ∈ take 8192 b).

(** [%04o] of permission bits. *)
Definition octal4 (n : N) : string :=
  let d i := ascii_of_N (48 + N.land (N.shiftr n (3 * i)) 7) in
  String (d 3%N) (String (d 2%N) (String (d 1%N) (String (d 0%N) ""))).

Definition newline : byte := x0a.

Definition modeLines (c : Change) : bytes :=
  match Old c, New c with
  | Some a, Some b =>
      if (perm (e_Mode a) =? perm (e_Mode b))%N then []
      else of_string ("old mode " +:+ octal4 (perm (e_Mode a))) ++ [newline] ++
           of_string ("new mode " +:+ octal4 (perm (e_Mode b))) ++ [newline]
  | _, _ => []
  end.

Definition label (side : string) (p : bytes) (e : option Entry) : bytes :=
  match e with None => of_string "/dev/null" | Some _ => of_string side ++ slash :: p end.

(** Too large, binary, or the two texts. *)
Definition read_sides (old new : Source) (c : Change) : string + option (bytes * bytes) :=
  let '(oldE, newE) := sides c in
  let rOld := content old (Path c) oldE in
  let rNew := content new (Path c) newE in
  match rOld, rNew with
  | inl ErrTooLarge, _ | _, inl ErrTooLarge => inr None
  | inl (ReadErr e), inl (ReadErr _) => inl e
  | inl (ReadErr e), inr b => if isBinary b then inr None else inl e
  | inr a, inl (ReadErr e) => if isBinary a then inr None else inl e
  | inr a, inr b => if isBinary a || isBinary b then inr None else inr (Some (a, b))
  end.

Section text.
Context (udiff : bytes → bytes → bytes → bytes → bytes) (old new : Source).

Definition header (c : Change) : bytes :=
  of_string "diff a/" ++ Path c ++ of_string " b/" ++ Path c ++ [newline] ++ modeLines c.

(** The text written and the error. *)
Definition unifiedOne (c : Change) : bytes * option string :=
  if decide (c_Kind c = MetaChanged) then ([], None)
  else
    let '(oldE, newE) := sides c in
    match oldE, newE with
    | None, None => (if decide (c_Kind c = ModeChanged) then header c else [], None)
    | _, _ =>
        match read_sides old new c with
        | inr None =>
            (header c ++ of_string "Binary files " ++ label "a" (Path c) oldE ++ of_string " and " ++
             label "b" (Path c) newE ++ of_string " differ" ++ [newline], None)
        | inl e => (header c, Some (to_string (Path c) +:+ ": " +:+ e))
        | inr (Some (a, b)) =>
            if bool_decide (a = b) then (header c, None)
            else (header c ++ udiff (label "a" (Path c) oldE) (label "b" (Path c) newE) a b, None)
        end
    end.

Fixpoint Unified (changes : list Change) : bytes * option string :=
  match changes with
  | [] => ([], None)
  | c :: changes =>
      match unifiedOne c with
      | (w, Some e) => (w, Some e)
      | (w, None) => let '(w', e) := Unified changes in (w ++ w', e)
      end
  end.

(** [strings.SplitAfter(s, "\n")]. *)
Fixpoint split_after (s line : bytes) : list bytes :=
  match s with
  | [] => [line]
  | b :: s => if decide (b = newline) then (line ++ [b]) :: split_after s [] else split_after s (line ++ [b])
  end.

(** Inserted and deleted lines of a unified diff. *)
Definition count_line (ad : N * N) (line : bytes) : N * N :=
  if has_prefix line (of_string "+++") || has_prefix line (of_string "---") then ad
  else if has_prefix line (of_string "+") then (ad.1 + 1, ad.2)%N
  else if has_prefix line (of_string "-") then (ad.1, ad.2 + 1)%N
  else ad.

Definition count_lines (diff : bytes) : N * N := fold_left count_line (split_after diff []) (0, 0)%N.

Definition total_line (files ins dels : N) : bytes :=
  of_string (" " +:+ pretty files +:+ " files changed, " +:+ pretty ins +:+ " insertions(+), " +:+
    pretty dels +:+ " deletions(-)") ++ [newline].

Fixpoint stat_loop (changes : list Change) (files ins dels : N) : bytes * option string :=
  match changes with
  | [] => (total_line files ins dels, None)
  | c :: changes =>
      let '(oldE, newE) := sides c in
      if bool_decide (c_Kind c = MetaChanged) || (bool_decide (oldE = None) && bool_decide (newE = None))
      then stat_loop changes files ins dels
      else match read_sides old new c with
      | inr None =>
          let '(w, e) := stat_loop changes (files + 1) ins dels in
          (of_string " " ++ Path c ++ of_string " | binary" ++ [newline] ++ w, e)
      | inl e => ([], Some (to_string (Path c) +:+ ": " +:+ e))
      | inr (Some (a, b)) =>
          if bool_decide (a = b) then stat_loop changes files ins dels
          else
            let '(i, d) := count_lines (udiff (of_string "a") (of_string "b") a b) in
            let '(w, e) := stat_loop changes (files + 1) (ins + i) (dels + d) in
            (of_string " " ++ Path c ++ of_string (" | +" +:+ pretty i +:+ " -" +:+ pretty d) ++ [newline] ++ w, e)
      end
  end.

Definition Stat (changes : list Change) : bytes * option string := stat_loop changes 0 0 0.
End text.

(** ** Counting *)

Lemma count_line_shift ad line :
  count_line ad line = ((ad.1 + (count_line (0, 0) line).1)%N, (ad.2 + (count_line (0, 0) line).2)%N).
Proof. destruct ad. unfold count_line. repeat case_match; simpl; f_equal; lia. Qed.

Lemma fold_count ls ad :
  fold_left count_line ls ad =
    ((ad.1 + (fold_left count_line ls (0, 0)%N).1)%N, (ad.2 + (fold_left count_line ls (0, 0)%N).2)%N).
Proof.
  revert ad. induction ls as [|l ls IH]; intros ad; simpl; [destruct ad; f_equal; simpl; lia|].
  rewrite IH, (IH (count_line (0, 0)%N l)), count_line_shift. simpl. f_equal; lia.
Qed.

Lemma split_after_line s rest line : newline ∉ s →
  split_after (s ++ newline :: rest) line = (line ++ s ++ [newline]) :: split_after rest [].
Proof.
  revert line. induction s as [|b s IH]; intros line Hn; simpl; [done|].
  apply not_elem_of_cons in Hn as [Hb Hn]. rewrite decide_False by done. rewrite IH by done. by rewrite <- app_assoc.
Qed.

Lemma has_prefix_nil s : has_prefix s [] = true.
Proof. by apply bool_decide_eq_true. Qed.

Lemma has_prefix_cons b s c pre : has_prefix (b :: s) (c :: pre) = bool_decide (b = c) && has_prefix s pre.
Proof.
  unfold has_prefix. simpl. rewrite <- bool_decide_and. apply bool_decide_ext.
  split; [by intros [= -> ->]|by intros [-> ->]].
Qed.

Lemma has_prefix_newline s pre : newline ∉ pre → has_prefix (s ++ [newline]) pre = has_prefix s pre.
Proof.
  revert s. induction pre as [|c pre IH]; intros s Hn; [by rewrite !has_prefix_nil|].
  apply not_elem_of_cons in Hn as [Hc Hn]. destruct s as [|b s]; simpl.
  - rewrite has_prefix_cons, bool_decide_false by done. done.
  - rewrite !has_prefix_cons. by rewrite IH.
Qed.

(** The change counts take an inserted line that starts with [++], or a
    deleted one that starts with [--], for a file header: wherever it stands in a
    diff it is not counted, while any other inserted or deleted line adds one. *)
Theorem count_lines_marker (text rest : bytes) :
  newline ∉ text →
  count_lines (of_string "+" ++ text ++ newline :: rest) =
    (let '(i, d) := count_lines rest in if has_prefix text (of_string "++") then (i, d) else (1 + i, d)%N) ∧
  count_lines (of_string "-" ++ text ++ newline :: rest) =
    (let '(i, d) := count_lines rest in if has_prefix text (of_string "--") then (i, d) else (i, 1 + d)%N).
Proof.
  intros Hn. unfold count_lines.
  assert (newline ∉ of_string "+" ++ text) as H1 by (apply not_elem_of_app; split; [decides|done]).
  assert (newline ∉ of_string "-" ++ text) as H2 by (apply not_elem_of_app; split; [decides|done]).
  rewrite !app_assoc, !split_after_line by done. cbn [fold_left app].
  destruct (fold_left count_line (split_after rest []) (0, 0)%N) as [i d] eqn:E.
  assert (∀ ad, fold_left count_line (split_after rest []) ad = (ad.1 + i, ad.2 + d)%N) as Hf by (intros ad; by rewrite fold_count, E).
  rewrite !Hf. unfold count_line.
  change (of_string "+++") with [x2b; x2b; x2b]. change (of_string "---") with [x2d; x2d; x2d].
  change (of_string "++") with [x2b; x2b]. change (of_string "--") with [x2d; x2d].
  change (of_string "+") with [x2b]. change (of_string "-") with [x2d]. cbn [app].
  rewrite !has_prefix_cons, !has_prefix_nil.
  rewrite (has_prefix_newline text [x2b; x2b]), (has_prefix_newline text [x2d; x2d])
    by (decides).
  rewrite !bool_decide_true by done. rewrite !(bool_decide_false (_ = _)) by done. simpl.
  destruct (has_prefix text [x2b; x2b]), (has_prefix text [x2d; x2d]); split; f_equal; simpl; lia.
Qed.
(** ** Worked trees and merges *)

Definition toy_entry (name : string) (mode : N) (ck : bytes) : Entry :=
  MkEntry (of_string name) mode ck [] [] 0 0 0 [] [].
Definition toy_file (name : string) (ck : bytes) : Entry := toy_entry name 0x81A4 ck.
Definition toy_dir (name : string) (ck : bytes) : Entry := toy_entry name 0x41ED ck.

(** Directory objects by one-byte keys. *)
Definition toy_collect (k : byte) : string + list Entry :=
  match k with
  | x01 => inr [toy_file "a" [x10]; toy_dir "d" [x02]; toy_file "e" [x11]]
  | x02 => inr [toy_file "x" [x12]]
  | x03 => inr [toy_dir "d" [x04]; toy_file "e" [x11]; toy_dir "n" [x02]]
  | x04 => inr [toy_file "x" [x13]; toy_file "y" [x14]]
  | _ => inl "not found"%string
  end.
Definition toy_parse (b : bytes) : string + byte := match b with [k] => inr k | _ => inl "bad key"%string end.

Definition toy_changes : list Change :=
  default [] (match DiffTrees toy_parse toy_collect 3 x01 x03 with Some (inr cs) => Some cs | _ => None end).

Example toy_changes_are :
  (λ c, (to_string (Path c), c_Kind c)) <$> toy_changes =
    [("a", Deleted); ("d/x", Modified); ("d/y", Added); ("n", Added); ("n/x", Added)]%string.
Proof. computes. Qed.

Lemma toy_sorted k es : toy_collect k = inr es → sorted_names es.
Proof. by destruct k; intros [= <-]; repeat constructor. Qed.

Lemma DiffTrees_lists_witness :
  ∃ ea eb, toy_collect x01 = inr ea ∧ toy_collect x03 = inr eb ∧
    lists_changes toy_parse toy_collect [] ea eb toy_changes.
Proof.
  eexists _, _. split; [reflexivity|]. split; [reflexivity|].
  apply (DiffTrees_lists toy_parse toy_collect 3 x01 x03); [exact toy_sorted|reflexivity|reflexivity|].
  vm_compute. reflexivity.
Defined.

Lemma DiffTrees_total_witness : DiffTrees toy_parse toy_collect 3 x01 x03 ≠ None.
Proof.
  apply (DiffTrees_total toy_parse toy_collect 2).
  all: intros es [= <-]; repeat constructor; try done; intros _ es [= <-]; repeat constructor; done.
Defined.

(** A file was added to [d] here; there [d] became a file. *)
Definition toy_local : list Change :=
  [MkChange (of_string "d") MetaChanged (Some (toy_dir "d" [x02])) (Some (toy_dir "d" [x02]));
   MkChange (of_string "d/new") Added None (Some (toy_file "new" [x20]))].
Definition toy_retype : Change :=
  MkChange (of_string "d") TypeChanged (Some (toy_dir "d" [x02])) (Some (toy_file "d" [x21])).

Lemma toy_local_nodup : NoDup (Path <$> toy_local).
Proof. decides. Qed.

Lemma Merge_retype_over_metadata_witness :
  toy_retype ∈ (Merge toy_local [toy_retype]).1 ∧ below (Path toy_retype) (of_string "d/new").
Proof.
  split; [|by exists (of_string "new")].
  eapply (Merge_retype_over_metadata toy_local [toy_retype]); [exact toy_local_nodup|left|done|left|done|done].
Defined.

(** Without the metadata change the same merge is a conflict. *)
Lemma Merge_rules_witness :
  ∃ vs, Forall2 (rules (drop 1 toy_local)) [toy_retype] vs ∧
    Merge (drop 1 toy_local) [toy_retype] = (applied [toy_retype] vs, conflicting [toy_retype] vs).
Proof. apply (Merge_rules (drop 1 toy_local) [toy_retype]). decides. Defined.

(** The diff of a file that gains the one line [++x]. *)
Lemma count_lines_marker_witness : count_lines (of_string "+" ++ of_string "++x" ++ newline :: []) = (0, 0)%N.
Proof.
  rewrite (proj1 (count_lines_marker (of_string "++x") [] ltac:(decides))).
  vm_compute. reflexivity.
Defined.
