(* ===== verification/Apply.v ===== *)
(** Writing changes to a working directory (src/worktree/apply.go).

    The directory is a map from paths below its root to nodes.  The calls of the
    operating system are functions on it that fail as the system does for want of a
    file, a directory or room in one; further failures come from a parameter.  A
    file's content is its content key. *)
From S2P Require Import Prelude Worktree.

Local Open Scope N_scope.

(** * A directory on disk *)

Record fnode := MkFnode {
  fn_Mode : N;
  fn_UID : N;
  fn_GID : N;
  fn_Mtime : Z;
  fn_Content : bytes;             (* the content key of a regular file *)
  fn_Link : bytes;
  fn_Rdev : N * N;
  fn_Xattrs : gmap bytes bytes;
}.

#[global] Instance fnode_eta : Eta fnode := λ r,
  MkFnode (fn_Mode r) (fn_UID r) (fn_GID r) (fn_Mtime r) (fn_Content r) (fn_Link r) (fn_Rdev r) (fn_Xattrs r).

#[global] Instance fnode_eq_dec : EqDecision fnode.
Proof. solve_decision. Defined.

(** A path below the root, by its names; the root is [[]]. *)
Notation fpath := (list bytes).

Record disk := MkDisk {
  dk_nodes : gmap fpath fnode;
  dk_followed : list (bytes * N);    (* modes set through a symbolic link: its target, which
                                        may be in the directory or outside; not in [dk_nodes] *)
}.

#[global] Instance disk_eta : Eta disk := λ r, MkDisk (dk_nodes r) (dk_followed r).

Definition is_dir (n : fnode) : bool := ftype (fn_Mode n) =? S_IFDIR.
Definition is_link (n : fnode) : bool := ftype (fn_Mode n) =? S_IFLNK.

(** [filepath.Dir]. *)
Definition dir_of (p : fpath) : fpath := take (pred (length p)) p.

(** [p] is [q] or lies below it. *)
Definition below (q p : fpath) : Prop := q `prefix_of` p.

Inductive errno := ENOENT | ENOTDIR | ENOTEMPTY | EEXIST | EOTHER (s : string).

#[global] Instance errno_eq_dec : EqDecision errno.
Proof. solve_decision. Defined.

(** The system and the process: the clock, the identity and the mask of the process,
    failures for other reasons than the state of the directory, and what a removal of a
    whole directory had removed when it failed.  An operation at a path fails always or
    never. *)
Class System := {
  sy_now : Z;
  sy_uid : N;
  sy_gid : N;
  sy_umask : N;
  sy_fault : string → fpath → option errno;
  sy_gone : fpath → fpath → bool;
}.

Section os.
Context `{System}.
Implicit Types d : disk.

(** The first ancestor that is missing or is not a directory. *)
Fixpoint walk_to (nodes : gmap fpath fnode) (done rest : fpath) : option errno :=
  match rest with
  | [] => None
  | name :: rest =>
      match nodes !! done with
      | None => Some ENOENT
      | Some n => if is_dir n then walk_to nodes (done ++ [name]) rest else Some ENOTDIR
      end
  end.

Definition lstat d (p : fpath) : errno + fnode :=
  match sy_fault "lstat" p with
  | Some e => inl e
  | None =>
      match walk_to (dk_nodes d) [] p with
      | Some e => inl e
      | None => match dk_nodes d !! p with Some n => inr n | None => inl ENOENT end
      end
  end.

(** A change in a directory sets its time. *)
Definition touch d (p : fpath) : disk :=
  match dk_nodes d !! p with Some n => d <| dk_nodes := <[p := n <| fn_Mtime := sy_now |>]> (dk_nodes d) |> | None => d end.

Definition put_node d (p : fpath) (n : fnode) : disk := touch (d <| dk_nodes := <[p := n]> (dk_nodes d) |>) (dir_of p).

(** [os.Remove]: a file, or a directory that is empty. *)
Definition os_remove d (p : fpath) : disk * option errno :=
  match sy_fault "remove" p with
  | Some e => (d, Some e)
  | None =>
      match lstat d p with
      | inl e => (d, Some e)
      | inr n =>
          if is_dir n && bool_decide (map_Exists (λ q _, below p q ∧ q ≠ p) (dk_nodes d)) then (d, Some ENOTEMPTY)
          else (touch (d <| dk_nodes := delete p (dk_nodes d) |>) (dir_of p), None)
      end
  end.

(** [os.RemoveAll]: when a removal fails, some of what lies below is gone already.  The
    times of the directories that stay are left out. *)
Definition os_removeAll d (p : fpath) : disk * option errno :=
  match sy_fault "removeall" p with
  | Some e => (d <| dk_nodes := filter (λ e, ¬ (below p e.1 ∧ sy_gone p e.1 = true)) (dk_nodes d) |>, Some e)
  | None => (touch (d <| dk_nodes := filter (λ e, ¬ below p e.1) (dk_nodes d) |>) (dir_of p), None)
  end.

Definition new_node (mode : N) : fnode := MkFnode mode sy_uid sy_gid sy_now [] [] (0, 0) ∅.

Definition os_mkdir d (p : fpath) (mode : N) : disk * option errno :=
  match sy_fault "mkdir" p with
  | Some e => (d, Some e)
  | None =>
      match walk_to (dk_nodes d) [] p with
      | Some e => (d, Some e)
      | None =>
          match dk_nodes d !! p with
          | Some _ => (d, Some EEXIST)
          | None => (put_node d p (new_node (N.lor S_IFDIR (N.ldiff mode sy_umask))), None)
          end
      end
  end.

(** [os.MkdirAll], from the root down. *)
Fixpoint mkdirAll_from d (done rest : fpath) : disk * option errno :=
  match rest with
  | [] => (d, None)
  | name :: rest =>
      let p := done ++ [name] in
      match dk_nodes d !! p with
      | Some n => if is_dir n then mkdirAll_from d p rest else (d, Some ENOTDIR)
      | None => match os_mkdir d p 0x1ED with (d, None) => mkdirAll_from d p rest | r => r end
      end
  end.

Definition os_mkdirAll d (p : fpath) : disk * option errno := mkdirAll_from d [] p.

(** [unix.Chmod] follows a symbolic link: the mode of its target is set. *)
Definition os_chmod d (p : fpath) (mode : N) : disk * option errno :=
  match sy_fault "chmod" p with
  | Some e => (d, Some e)
  | None =>
      match lstat d p with
      | inl e => (d, Some e)
      | inr n =>
          if is_link n then (d <| dk_followed := dk_followed d ++ [(fn_Link n, mode)] |>, None)
          else (d <| dk_nodes := <[p := n <| fn_Mode := N.lor (ftype (fn_Mode n)) (perm mode) |>]> (dk_nodes d) |>, None)
      end
  end.

(** A change of a node in place. *)
Definition os_edit (op : string) d (p : fpath) (f : fnode → fnode) : disk * option errno :=
  match sy_fault op p with
  | Some e => (d, Some e)
  | None => match lstat d p with inl e => (d, Some e) | inr n => (d <| dk_nodes := <[p := f n]> (dk_nodes d) |>, None) end
  end.

(** A new file, link, fifo or device; nothing may be in its place. *)
Definition os_create (op : string) d (p : fpath) (n : fnode) : disk * option errno :=
  match sy_fault op p with
  | Some e => (d, Some e)
  | None =>
      match walk_to (dk_nodes d) [] p with
      | Some e => (d, Some e)
      | None => match dk_nodes d !! p with Some _ => (d, Some EEXIST) | None => (put_node d p n, None) end
      end
  end.

(** * Applying changes *)

Inductive apply_err := AErrno (e : errno) | AText (s : string) | ANotDir.

Context (ParseKey : bytes → string + bytes) (WriteContent : bytes → option string) (DecodeXattrs : bytes → string + gmap bytes bytes) (get : bytes → string + bytes).
Context (setxattr : fpath → bytes → option (bool * errno)).   (* [true]: a failure that is passed over *)

(** [strings.Split] at the slashes. *)
Fixpoint split_slash (p : bytes) (cur : bytes) : fpath :=
  match p with
  | [] => [cur]
  | b :: p => if bool_decide (b = slash) then cur :: split_slash p [] else split_slash p (cur ++ [b])
  end.

Definition parts (p : bytes) : fpath := split_slash p [].

Definition dot : byte := x2e.

Definition checkPath (p : bytes) : option apply_err :=
  if bool_decide (p = []) then Some (AText "empty path")
  else if existsb (λ part, bool_decide (part = []) || bool_decide (part = [dot]) || bool_decide (part = [dot; dot])) (parts p) then Some (AText "refusing unsafe path")
  else None.

(** [rejectSymlinkComponents], from the deepest directory up to the root. *)
Fixpoint reject_from d (n : nat) (p : fpath) : option apply_err :=
  match n with
  | O => None
  | S n =>
      match lstat d (take (S n) p) with
      | inl ENOENT => reject_from d n p
      | inl e => Some (AErrno e)
      | inr node =>
          if is_link node then Some (AText "refusing to write through non-directory")
          else if negb (is_dir node) then Some ANotDir
          else reject_from d n p
      end
  end.

Definition rejectSymlinkComponents d (p : fpath) : option apply_err := reject_from d (pred (length p)) p.

(** [writable], with the modes to be restored. *)
Definition writable (s : disk * gmap fpath N) (dir : fpath) : disk * gmap fpath N * option errno :=
  let '(d, restore) := s in
  match restore !! dir with
  | Some _ => (d, restore, None)
  | None =>
      match lstat d dir with
      | inl e => (d, restore, Some e)
      | inr n =>
          let mode := perm (fn_Mode n) in
          if negb (is_dir n) || (N.land mode 0x1C0 =? 0x1C0) then (d, restore, None)
          else let '(d, e) := os_chmod d dir (N.lor mode 0x1C0) in (d, <[dir := mode]> restore, e)
      end
  end.

Definition clearTarget d (p : fpath) (e : Entry) : disk * option errno :=
  match lstat d p with
  | inl ENOENT => (d, None)
  | inl err => (d, Some err)
  | inr n => if ftype (fn_Mode n) =? ftype (e_Mode e) then (d, None) else os_removeAll d p
  end.

(** [writeRegular]: the temporary file takes the place of what was there; it was
    made with mode 0600. *)
Definition writeRegular d (p : fpath) (e : Entry) : disk * option apply_err :=
  match ParseKey (e_ContentKey e) with
  | inl s => (d, Some (AText s))
  | inr ck =>
      match WriteContent ck with
      | Some s => (touch d (dir_of p), Some (AText s))
      | None =>
          match sy_fault "rename" p with
          | Some err => (touch d (dir_of p), Some (AErrno err))
          | None =>
              match walk_to (dk_nodes d) [] p with
              | Some err => (d, Some (AErrno err))
              | None => (put_node d p (new_node (N.lor S_IFREG 0x180) <| fn_Content := ck |>), None)
              end
          end
      end
  end.

Definition entryXattrs (e : Entry) : string + gmap bytes bytes :=
  if negb (bool_decide (e_XattrsIn e = [])) then DecodeXattrs (e_XattrsIn e)
  else if bool_decide (length (e_XattrsKey e) = 32%nat) then
    match ParseKey (e_XattrsKey e) with
    | inl s => inl s
    | inr k => match get k with inl s => inl s | inr b => DecodeXattrs b end
    end
  else inr ∅.

(** The attributes one by one; those of the file that the entry lacks stay. *)
Fixpoint set_xattrs d (p : fpath) (xs : list (bytes * bytes)) : disk * option apply_err :=
  match xs with
  | [] => (d, None)
  | (name, v) :: xs =>
      match setxattr p name with
      | Some (true, _) => set_xattrs d p xs
      | Some (false, e) => (d, Some (AErrno e))
      | None => match os_edit "setxattr" d p (λ n, n <| fn_Xattrs := <[name := v]> (fn_Xattrs n) |>) with (d, Some e) => (d, Some (AErrno e)) | (d, None) => set_xattrs d p xs end
      end
  end.

Definition applyMeta d (p : fpath) (e : Entry) : disk * option apply_err :=
  let isLink := ftype (e_Mode e) =? S_IFLNK in
  let '(d, err) := if sy_uid =? 0 then os_edit "chown" d p (λ n, n <| fn_UID := e_UID e |> <| fn_GID := e_GID e |>) else (d, None) in
  match err with
  | Some err => (d, Some (AErrno err))
  | None =>
      let '(d, err) :=
        if isLink then (d, None)
        else match os_chmod d p (perm (e_Mode e)) with
        | (d, Some err) => (d, Some (AErrno err))
        | (d, None) => match entryXattrs e with inl s => (d, Some (AText s)) | inr xs => set_xattrs d p (map_to_list xs) end
        end in
      match err with
      | Some err => (d, Some err)
      | None => match os_edit "utimes" d p (λ n, n <| fn_Mtime := e_Mtime e |>) with (d, Some err) => (d, Some (AErrno err)) | (d, None) => (d, None) end
      end
  end.

(** ** The deletions *)

Definition ignorable (e : errno) : bool := match e with ENOENT | ENOTEMPTY | EEXIST => true | _ => false end.

Definition del_step (s : disk * gmap fpath N) (c : Change) : disk * gmap fpath N * option apply_err :=
  let '(d, restore) := s in
  let t := parts (Path c) in
  match rejectSymlinkComponents d t with
  | Some ANotDir => (d, restore, None)
  | Some e => (d, restore, Some e)
  | None =>
      match writable (d, restore) (dir_of t) with
      | (d, restore, Some e) => if decide (e = ENOENT) then
            let '(d, err) := os_remove d t in
            (d, restore, match err with Some e => if ignorable e then None else Some (AErrno e) | None => None end)
          else (d, restore, Some (AErrno e))
      | (d, restore, None) =>
          let '(d, err) := os_remove d t in
          (d, restore, match err with Some e => if ignorable e then None else Some (AErrno e) | None => None end)
      end
  end.

(** ** The other changes *)

Definition contentChange (c : Change) : bool := negb (bool_decide (c_Kind c = ModeChanged)) && negb (bool_decide (c_Kind c = MetaChanged)).

(** What was there is removed and a node of its own made. *)
Definition replace_node (op : string) d (p : fpath) (n : fnode) : disk * option apply_err :=
  match os_remove d p with
  | (d, Some e) => if decide (e = ENOENT) then let '(d, err) := os_create op d p n in (d, AErrno <$> err) else (d, Some (AErrno e))
  | (d, None) => let '(d, err) := os_create op d p n in (d, AErrno <$> err)
  end.

(** The rest of a change once its parent is there and what is in its way is gone;
    [None] in the result: nothing more is done for it. *)
Definition make_node d (p : fpath) (c : Change) (e : Entry) : disk * (apply_err + option bool) :=
  let t := ftype (e_Mode e) in
  let then_meta (r : disk * option apply_err) : disk * (apply_err + option bool) := (r.1, match r.2 with Some err => inl err | None => inr (Some true) end) in
  if t =? S_IFDIR then
    match os_mkdir d p 0x1C0 with
    | (d, Some err) => if decide (err = EEXIST) then (d, inr (Some false)) else (d, inl (AErrno err))
    | (d, None) => (d, inr (Some false))
    end
  else if t =? S_IFREG then if contentChange c then then_meta (writeRegular d p e) else (d, inr (Some true))
  else if t =? S_IFLNK then
    if contentChange c then then_meta (replace_node "symlink" d p (new_node (N.lor S_IFLNK 0x1FF) <| fn_Link := e_LinkTarget e |>)) else (d, inr (Some true))
  else if t =? S_IFIFO then
    if contentChange c then then_meta (replace_node "mkfifo" d p (new_node (N.lor S_IFIFO (N.ldiff (perm (e_Mode e)) sy_umask)))) else (d, inr (Some true))
  else if (t =? S_IFCHR) || (t =? S_IFBLK) then
    if contentChange c then
      let rdev := match e_Rdev e with [a; b] => (a mod 2 ^ 32, b mod 2 ^ 32) | _ => (0, 0) end in
      then_meta (replace_node "mknod" d p (new_node (N.lor t (N.ldiff (perm (e_Mode e)) sy_umask)) <| fn_Rdev := rdev |>))
    else (d, inr (Some true))
  else if t =? S_IFSOCK then (d, inr None)
  else (d, inl (AText "unsupported type")).

(** Whether a directory was made, whose metadata is set at the end. *)
Definition rest_step (s : disk * gmap fpath N) (c : Change) : disk * gmap fpath N * (apply_err + bool) :=
  let '(d, restore) := s in
  let t := parts (Path c) in
  match rejectSymlinkComponents d t, New c with
  | Some e, _ => (d, restore, inl e)
  | None, None => (d, restore, inl (AText "nil entry"))
  | None, Some e =>
      match os_mkdirAll d (dir_of t) with
      | (d, Some err) => (d, restore, inl (AErrno err))
      | (d, None) =>
          match writable (d, restore) (dir_of t) with
          | (d, restore, Some err) => (d, restore, inl (AErrno err))
          | (d, restore, None) =>
              match clearTarget d t e with
              | (d, Some err) => (d, restore, inl (AErrno err))
              | (d, None) =>
                  match make_node d t c e with
                  | (d, inl err) => (d, restore, inl err)
                  | (d, inr None) => (d, restore, inr false)
                  | (d, inr (Some false)) => (d, restore, inr true)
                  | (d, inr (Some true)) => match applyMeta d t e with (d, Some err) => (d, restore, inl err) | (d, None) => (d, restore, inr false) end
                  end
              end
          end
      end
  end.

(** ** The whole *)

Fixpoint del_steps (s : disk * gmap fpath N) (cs : list Change) : disk * gmap fpath N * option apply_err :=
  match cs with
  | [] => (s, None)
  | c :: cs => match del_step s c with (s, Some e) => (s, Some e) | (s, None) => del_steps s cs end
  end.

Fixpoint rest_steps (s : disk * gmap fpath N) (dirs : list Change) (cs : list Change) : disk * gmap fpath N * (apply_err + list Change) :=
  match cs with
  | [] => (s, inr dirs)
  | c :: cs => match rest_step s c with (s, inl e) => (s, inl e) | (s, inr made) => rest_steps s (if made then dirs ++ [c] else dirs) cs end
  end.

(** The modes of the directories that were opened, in an order of the map's. *)
Fixpoint restore_modes d (ms : list (fpath * N)) : disk * option errno :=
  match ms with
  | [] => (d, None)
  | (dir, mode) :: ms => match os_chmod d dir mode with (d, Some e) => (d, Some e) | (d, None) => restore_modes d ms end
  end.

Fixpoint dirs_meta d (cs : list Change) : disk * option apply_err :=
  match cs with
  | [] => (d, None)
  | c :: cs =>
      match New c with
      | None => (d, Some (AText "nil entry"))
      | Some e => match applyMeta d (parts (Path c)) e with (d, Some e) => (d, Some e) | (d, None) => dirs_meta d cs end
      end
  end.

Definition path_desc (a b : Change) : bool := bool_decide (bytes_compare (Path a) (Path b) = Gt).
Definition path_asc (a b : Change) : bool := bool_decide (bytes_compare (Path a) (Path b) = Lt).

Definition Apply d (changes : list Change) : disk * option apply_err :=
  match omap (λ c, checkPath (Path c)) changes with
  | e :: _ => (d, Some e)
  | [] =>
      let dels := sort_by path_desc (filter (λ c, c_Kind c = Deleted) changes) in
      let rest := sort_by path_asc (filter (λ c, c_Kind c ≠ Deleted) changes) in
      match del_steps (d, ∅) dels with
      | (d, _, Some e) => (d, Some e)
      | (d, restore, None) =>
          match rest_steps (d, restore) [] rest with
          | (d, _, inl e) => (d, Some e)
          | (d, restore, inr dirs) =>
              match restore_modes d (map_to_list restore) with
              | (d, Some e) => (d, Some (AErrno e))
              | (d, None) => dirs_meta d (sort_by path_desc dirs)
              end
          end
      end
  end.
End os.
