(* ===== verification/ApplySafety.v ===== *)
(** Writing changes to a working directory touches nothing but their paths; opening a
    directory that is not writable goes wrong when the directory itself goes away. *)
From S2P Require Import Prelude Worktree Apply.

Local Open Scope N_scope.

Section frame.
Context `{System}.
Context (ParseKey : bytes → string + bytes) (WriteContent : bytes → option string) (DecodeXattrs : bytes → string + gmap bytes bytes) (get : bytes → string + bytes).
Context (setxattr : fpath → bytes → option (bool * errno)).
Implicit Types d : disk.

(** The same but for its times and permission bits. *)
Definition kept (n n' : fnode) : Prop :=
  ftype (fn_Mode n') = ftype (fn_Mode n) ∧ fn_UID n' = fn_UID n ∧ fn_GID n' = fn_GID n ∧ fn_Content n' = fn_Content n ∧ fn_Link n' = fn_Link n ∧ fn_Rdev n' = fn_Rdev n ∧ fn_Xattrs n' = fn_Xattrs n.

#[local] Instance kept_preorder : PreOrder kept.
Proof. split; [by intros n; repeat split|]. unfold kept. intros a b c. intuition congruence. Qed.

(** What an operation at [p] leaves alone: what is neither above nor below, and the
    nature of what is above. *)
Definition leaves (p : fpath) d d' : Prop :=
  (∀ q, ¬ below p q → ¬ below q p → dk_nodes d' !! q = dk_nodes d !! q) ∧
  ∀ q n, ¬ below p q → dk_nodes d !! q = Some n → ∃ n', dk_nodes d' !! q = Some n' ∧ kept n n'.

Lemma leaves_refl p d : leaves p d d.
Proof. split; [done|]. intros q n _ Hn. exists n. split; [done|reflexivity]. Qed.

Lemma leaves_trans p d1 d2 d3 : leaves p d1 d2 → leaves p d2 d3 → leaves p d1 d3.
Proof.
  intros [A1 B1] [A2 B2]. split; [intros q Hp Hq; by rewrite A2, A1|]. intros q n Hp Hn. destruct (B1 q n Hp Hn) as (n1 & H1 & K1). destruct (B2 q n1 Hp H1) as (n2 & H2 & K2).
  exists n2. split; [done|by etrans].
Qed.

Lemma below_dir p : below (dir_of p) p.
Proof. unfold below, dir_of. apply prefix_take. Qed.

(** A node of the path itself or above it, changed in its times or bits only. *)
Lemma leaves_edit p q d n n' : below q p → dk_nodes d !! q = Some n → kept n n' → leaves p d (d <| dk_nodes := <[q := n']> (dk_nodes d) |>).
Proof.
  intros Hq Hn Hk. split; simpl.
  - intros q' Hp Hq'. apply lookup_insert_ne. by intros ->.
  - intros q' m Hp Hm. destruct (decide (q' = q)) as [->|]; [exists n'; rewrite lookup_insert_eq; split; [done|]; by simplify_eq|]. exists m. rewrite lookup_insert_ne by done. split; [done|reflexivity].
Qed.

Lemma leaves_at p d n : leaves p d (d <| dk_nodes := <[p := n]> (dk_nodes d) |>).
Proof.
  split; simpl; intros q; [intros Hp Hq|intros m Hp Hm; exists m; split; [|reflexivity]; rewrite <- Hm]; apply lookup_insert_ne; intros ->; by apply Hp.
Qed.

Lemma touch_leaves p q d : below q p → leaves p d (touch d q).
Proof. intros Hq. unfold touch. destruct (dk_nodes d !! q) as [n|] eqn:En; [|apply leaves_refl]. by eapply leaves_edit. Qed.

Lemma put_node_leaves p d n : leaves p d (put_node d p n).
Proof. eapply leaves_trans; [apply leaves_at|]. apply touch_leaves, below_dir. Qed.

Lemma os_remove_leaves p d : leaves p d (os_remove d p).1.
Proof.
  unfold os_remove. destruct (sy_fault _ _); [apply leaves_refl|]. destruct (lstat d p); [apply leaves_refl|]. destruct (_ && _); [apply leaves_refl|]. cbn [fst].
  eapply leaves_trans; [|apply touch_leaves, below_dir]. split; simpl; intros q; [intros Hp Hq|intros m Hp Hm; exists m; split; [|reflexivity]; rewrite <- Hm]; apply lookup_delete_ne; intros ->; by apply Hp.
Qed.

Lemma os_removeAll_leaves p d : leaves p d (os_removeAll d p).1.
Proof.
  assert (∀ (F : fpath * fnode → Prop) `{∀ e, Decision (F e)}, (∀ e, ¬ below p e.1 → F e) → leaves p d (d <| dk_nodes := filter F (dk_nodes d) |>)) as Hl.
  { intros F ? HF. assert (∀ q, ¬ below p q → filter F (dk_nodes d) !! q = dk_nodes d !! q) as Hf.
    { intros q Hp. rewrite map_lookup_filter. destruct (dk_nodes d !! q); simpl; [|done]. rewrite option_guard_True; [done|]. by apply HF. }
    split; simpl; [intros q Hp _; by apply Hf|]. intros q n Hp Hn. exists n. rewrite Hf by done. split; [done|reflexivity]. }
  unfold os_removeAll. destruct (sy_fault _ _); cbn [fst]; [apply Hl; tauto|]. eapply leaves_trans; [|apply touch_leaves, below_dir]. apply Hl. tauto.
Qed.

Lemma os_create_leaves op p d n : leaves p d (os_create op d p n).1.
Proof.
  unfold os_create. destruct (sy_fault _ _); [apply leaves_refl|]. destruct (walk_to _ _ _); [apply leaves_refl|]. destruct (dk_nodes d !! p); [apply leaves_refl|]. apply put_node_leaves.
Qed.

Lemma os_edit_leaves op p d f : leaves p d (os_edit op d p f).1.
Proof. unfold os_edit. destruct (sy_fault _ _); [apply leaves_refl|]. destruct (lstat d p); [apply leaves_refl|]. apply leaves_at. Qed.

(** A new directory above the path is not in the way of anything. *)
Lemma os_mkdir_leaves p q d mode : below q p → leaves p d (os_mkdir d q mode).1.
Proof.
  intros Hq. unfold os_mkdir. destruct (sy_fault _ _); [apply leaves_refl|]. destruct (walk_to _ _ _); [apply leaves_refl|]. destruct (dk_nodes d !! q) eqn:En; [apply leaves_refl|]. cbn [fst]. unfold put_node.
  eapply leaves_trans; [|apply touch_leaves; etrans; [apply below_dir|exact Hq]]. split; simpl.
  - intros q' Hp Hq'. apply lookup_insert_ne. by intros ->.
  - intros q' m Hp Hm. exists m. rewrite lookup_insert_ne by (intros ->; congruence). split; [done|reflexivity].
Qed.

Lemma mkdirAll_leaves p d done rest : below (done ++ rest) p → leaves p d (mkdirAll_from d done rest).1.
Proof.
  revert d done. induction rest as [|name rest IH]; intros d done Hb; cbn [mkdirAll_from]; [apply leaves_refl|].
  assert (below ((done ++ [name]) ++ rest) p) as Hb' by (by rewrite <- app_assoc). assert (below (done ++ [name]) p) as Hp by (etrans; [|exact Hb']; by apply prefix_app_r).
  destruct (dk_nodes d !! _) as [n|]; [destruct (is_dir n); [by apply IH|apply leaves_refl]|]. pose proof (os_mkdir_leaves p (done ++ [name]) d 0x1ED Hp) as Hm.
  destruct (os_mkdir d (done ++ [name]) 0x1ED) as [d1 [e|]]; [done|]. eapply leaves_trans; [exact Hm|by apply IH].
Qed.

Lemma lstat_node d p n : lstat d p = inr n → dk_nodes d !! p = Some n.
Proof. unfold lstat. destruct (sy_fault _ _); [done|]. destruct (walk_to _ _ _); [done|]. destruct (dk_nodes d !! p); congruence. Qed.

Lemma ftype_set t m : ftype (N.lor (ftype t) (perm m)) = ftype t.
Proof. unfold ftype, perm, S_IFMT. rewrite N.land_lor_distr_l, <- !N.land_assoc. change (N.land 0xF000 0xF000) with 0xF000. change (N.land 0xFFF 0xF000) with 0. by rewrite N.land_0_r, N.lor_0_r. Qed.

Lemma os_chmod_leaves p q d mode : below q p → leaves p d (os_chmod d q mode).1.
Proof.
  intros Hq. unfold os_chmod. destruct (sy_fault _ _); [apply leaves_refl|]. destruct (lstat d q) as [|n] eqn:El; [apply leaves_refl|]. apply lstat_node in El. destruct (is_link n); [split; [done|]; intros q' m _ Hm; exists m; split; [done|reflexivity]|].
  eapply leaves_edit; [done|done|]. repeat split. simpl. apply ftype_set.
Qed.

Lemma writable_leaves p q s : below q p → leaves p s.1 (writable s q).1.1 ∧ ∀ r, r ∈ dom (writable s q).1.2 → r ∈ dom s.2 ∨ r = q.
Proof.
  intros Hq. destruct s as [d restore]. unfold writable. destruct (restore !! q); [split; [apply leaves_refl|by left]|]. destruct (lstat d q) as [|n]; [split; [apply leaves_refl|by left]|].
  destruct (_ || _); [split; [apply leaves_refl|by left]|]. pose proof (os_chmod_leaves p q d (N.lor (perm (fn_Mode n)) 0x1C0) Hq) as Hc. destruct (os_chmod d q _) as [d1 e]. simpl in *. split; [done|].
  intros r. rewrite dom_insert, elem_of_union, elem_of_singleton. tauto.
Qed.

Lemma clearTarget_leaves p d e : leaves p d (clearTarget d p e).1.
Proof. unfold clearTarget. destruct (lstat d p) as [[]|n]; try apply leaves_refl. destruct (_ =? _); [apply leaves_refl|apply os_removeAll_leaves]. Qed.

Lemma writeRegular_leaves p d e : leaves p d (writeRegular ParseKey WriteContent d p e).1.
Proof.
  unfold writeRegular. destruct (ParseKey _); [apply leaves_refl|]. destruct (WriteContent _); [apply touch_leaves, below_dir|]. destruct (sy_fault _ _); [apply touch_leaves, below_dir|].
  destruct (walk_to _ _ _); [apply leaves_refl|apply put_node_leaves].
Qed.

Lemma replace_node_leaves op p d n : leaves p d (replace_node op d p n).1.
Proof.
  unfold replace_node. pose proof (os_remove_leaves p d) as Hr. destruct (os_remove d p) as [d1 [e|]]; simpl in Hr; [destruct (decide _); [|done]|];
    (pose proof (os_create_leaves op p d1 n) as Hc; destruct (os_create op d1 p n) as [d2 err]; simpl in *; by eapply leaves_trans).
Qed.

Lemma set_xattrs_leaves p xs d : leaves p d (set_xattrs setxattr d p xs).1.
Proof.
  revert d. induction xs as [|[name v] xs IH]; intros d; simpl; [apply leaves_refl|]. destruct (setxattr p name) as [[[] e]|]; [apply IH|apply leaves_refl|].
  pose proof (os_edit_leaves "setxattr" p d (λ n, n <| fn_Xattrs := <[name := v]> (fn_Xattrs n) |>)) as He. destruct (os_edit _ _ _ _) as [d1 [err|]]; [done|]. eapply leaves_trans; [exact He|apply IH].
Qed.

Lemma applyMeta_leaves p d e : leaves p d (applyMeta ParseKey DecodeXattrs get setxattr d p e).1.
Proof.
  unfold applyMeta. set (r1 := if sy_uid =? 0 then _ else _). assert (leaves p d r1.1) as H1 by (unfold r1; destruct (sy_uid =? 0); [apply os_edit_leaves|apply leaves_refl]).
  destruct r1 as [d1 [e1|]]; simpl in H1; [done|]. set (r2 := if ftype (e_Mode e) =? S_IFLNK then _ else _). assert (leaves p d1 r2.1) as H2.
  { unfold r2. destruct (_ =? _); [apply leaves_refl|]. pose proof (os_chmod_leaves p p d1 (perm (e_Mode e))) as Hc. destruct (os_chmod d1 p _) as [d2 [err|]]; simpl in Hc; [by apply Hc|].
    destruct (entryXattrs _ _ _ _); [by apply Hc|]. eapply leaves_trans; [by apply Hc|apply set_xattrs_leaves]. }
  destruct r2 as [d2 [e2|]]; simpl in H2; [by eapply leaves_trans|]. pose proof (os_edit_leaves "utimes" p d2 (λ n, n <| fn_Mtime := e_Mtime e |>)) as H3.
  destruct (os_edit _ _ _ _) as [d3 [err|]]; simpl in *; (eapply leaves_trans; [exact H1|]; eapply leaves_trans; [exact H2|exact H3]).
Qed.

Lemma make_node_leaves p d c e : leaves p d (make_node ParseKey WriteContent d p c e).1.
Proof.
  unfold make_node. destruct (_ =? S_IFDIR).
  { pose proof (os_mkdir_leaves p p d 0x1C0) as Hm. destruct (os_mkdir d p 0x1C0) as [d1 [err|]]; [destruct (decide _)|]; by apply Hm. }
  destruct (_ =? S_IFREG); [destruct (contentChange c); [apply writeRegular_leaves|apply leaves_refl]|].
  destruct (_ =? S_IFLNK); [destruct (contentChange c); [apply replace_node_leaves|apply leaves_refl]|].
  destruct (_ =? S_IFIFO); [destruct (contentChange c); [apply replace_node_leaves|apply leaves_refl]|].
  destruct (_ || _); [destruct (contentChange c); [apply replace_node_leaves|apply leaves_refl]|]. destruct (_ =? S_IFSOCK); apply leaves_refl.
Qed.

(** ** Modes set through symbolic links

    A change of a mode at a symbolic link goes to what the link names.  The paths [A] are
    where modes are changed, the targets [T] those of the links that are made. *)

(** A symbolic link at [q], there before or made since. *)
Definition origin (T : fpath → bytes → Prop) d (q : fpath) (target : bytes) : Prop :=
  (∃ n, dk_nodes d !! q = Some n ∧ is_link n = true ∧ fn_Link n = target) ∨ T q target.

Definition follows (A : fpath → Prop) (T : fpath → bytes → Prop) d d' : Prop :=
  (∀ q n, dk_nodes d' !! q = Some n → is_link n = true → origin T d q (fn_Link n)) ∧
  ∀ x, x ∈ dk_followed d' → x ∈ dk_followed d ∨ ∃ q, A q ∧ origin T d q x.1.

Section links.
Context (A : fpath → Prop) (T : fpath → bytes → Prop).

#[local] Instance follows_pre : PreOrder (follows A T).
Proof.
  split; [intros d; split; [intros q n Hq Hl; left; eauto|by left]|]. intros d1 d2 d3 [L1 F1] [L2 F2].
  assert (∀ q target, origin T d2 q target → origin T d1 q target) as Ho by (intros q target [(n & Hn & Hl & <-)|?]; [by apply L1|by right]).
  split; [intros q n Hq Hl; by apply Ho, L2|]. intros x [?|(q & Hq & ?)]%F2; [by apply F1|]. right. exists q. split; [done|by apply Ho].
Qed.

(** The nodes that change are no links, or links that may be made, or keep their target. *)
Lemma follows_nodes d m : (∀ q n, m !! q = Some n → is_link n = true → origin T d q (fn_Link n)) → follows A T d (d <| dk_nodes := m |>).
Proof. intros Hm. split; [exact Hm|by left]. Qed.

Lemma follows_insert d p n : (is_link n = true → origin T d p (fn_Link n)) → follows A T d (d <| dk_nodes := <[p := n]> (dk_nodes d) |>).
Proof.
  intros Hn. apply follows_nodes. intros q m. destruct (decide (q = p)) as [->|Hne]; [rewrite lookup_insert_eq; by intros [= <-]|]. rewrite lookup_insert_ne by done. intros; left; eauto.
Qed.

Lemma follows_fewer d m : m ⊆ dk_nodes d → follows A T d (d <| dk_nodes := m |>).
Proof. intros Hm. apply follows_nodes. intros q n Hq Hl. left. exists n. split; [by eapply lookup_weaken|done]. Qed.

Lemma follows_edit d p n n' : dk_nodes d !! p = Some n → is_link n' = is_link n → fn_Link n' = fn_Link n → follows A T d (d <| dk_nodes := <[p := n']> (dk_nodes d) |>).
Proof. intros Hn E1 E2. apply follows_insert. rewrite E1, E2. intros Hl. left. eauto. Qed.

Lemma touch_follows d q : follows A T d (touch d q).
Proof. unfold touch. destruct (dk_nodes d !! q) as [n|] eqn:En; [|reflexivity]. by eapply follows_edit. Qed.

Lemma put_node_follows d p n : (is_link n = true → T p (fn_Link n)) → follows A T d (put_node d p n).
Proof. intros Hn. unfold put_node. etrans; [|apply touch_follows]. apply follows_insert. intros Hl. right. auto. Qed.

Lemma os_remove_follows d p : follows A T d (os_remove d p).1.
Proof.
  unfold os_remove. destruct (sy_fault _ _); [reflexivity|]. destruct (lstat d p); [reflexivity|]. destruct (_ && _); [reflexivity|]. cbn [fst].
  etrans; [|apply touch_follows]. apply follows_fewer, delete_subseteq.
Qed.

Lemma os_removeAll_follows d p : follows A T d (os_removeAll d p).1.
Proof.
  unfold os_removeAll. destruct (sy_fault _ _); cbn [fst]; [apply follows_fewer, map_filter_subseteq|]. etrans; [|apply touch_follows]. apply follows_fewer, map_filter_subseteq.
Qed.

Lemma os_create_follows op d p n : (is_link n = true → T p (fn_Link n)) → follows A T d (os_create op d p n).1.
Proof. intros Hn. unfold os_create. destruct (sy_fault _ _); [reflexivity|]. destruct (walk_to _ _ _); [reflexivity|]. destruct (dk_nodes d !! p); [reflexivity|]. by apply put_node_follows. Qed.

Lemma os_edit_follows op d p f : (∀ n, fn_Mode (f n) = fn_Mode n ∧ fn_Link (f n) = fn_Link n) → follows A T d (os_edit op d p f).1.
Proof.
  intros Hf. unfold os_edit. destruct (sy_fault _ _); [reflexivity|]. destruct (lstat d p) as [|n] eqn:El; [reflexivity|]. apply lstat_node in El. destruct (Hf n) as [E1 E2].
  cbn [fst]. eapply follows_edit; [done| |done]. unfold is_link. by rewrite E1.
Qed.

Lemma made_mode t m u : N.land m 0xF000 = 0 → ftype (N.lor t (N.ldiff m u)) = ftype t.
Proof.
  intros Hm. unfold ftype, S_IFMT. rewrite N.land_lor_distr_l. replace (N.land (N.ldiff m u) 0xF000) with 0; [by rewrite N.lor_0_r|].
  apply N.bits_inj. intros i. rewrite N.land_spec, N.ldiff_spec, N.bits_0. pose proof (f_equal (λ x, N.testbit x i) Hm) as Hi. cbn beta in Hi. rewrite N.land_spec, N.bits_0 in Hi.
  destruct (N.testbit m i), (N.testbit u i), (N.testbit 0xF000 i); done.
Qed.

Lemma perm_type m : N.land (perm m) 0xF000 = 0.
Proof. unfold perm. rewrite <- N.land_assoc. change (N.land 0xFFF 0xF000) with 0. apply N.land_0_r. Qed.

Lemma os_mkdir_follows d q mode : N.land mode 0xF000 = 0 → follows A T d (os_mkdir d q mode).1.
Proof.
  intros Hm. unfold os_mkdir. destruct (sy_fault _ _); [reflexivity|]. destruct (walk_to _ _ _); [reflexivity|]. destruct (dk_nodes d !! q); [reflexivity|]. cbn [fst].
  apply put_node_follows. unfold is_link. simpl. by rewrite made_mode.
Qed.

Lemma mkdirAll_follows d done rest : follows A T d (mkdirAll_from d done rest).1.
Proof.
  revert d done. induction rest as [|name rest IH]; intros d done; cbn [mkdirAll_from]; [reflexivity|].
  destruct (dk_nodes d !! _) as [n|]; [destruct (is_dir n); [apply IH|reflexivity]|]. pose proof (os_mkdir_follows d (done ++ [name]) 0x1ED eq_refl) as Hm.
  destruct (os_mkdir d (done ++ [name]) 0x1ED) as [d1 [e|]]; [done|]. etrans; [exact Hm|apply IH].
Qed.

Lemma os_chmod_follows d q mode : A q → follows A T d (os_chmod d q mode).1.
Proof.
  intros Hq. unfold os_chmod. destruct (sy_fault _ _); [reflexivity|]. destruct (lstat d q) as [|n] eqn:El; [reflexivity|]. apply lstat_node in El. destruct (is_link n) eqn:Eln; cbn [fst].
  - split; [intros q' n' Hn Hl; left; simpl in Hn; eauto|]. simpl. intros x [?| ->%list_elem_of_singleton]%elem_of_app; [by left|]. right. exists q. split; [done|]. left. simpl. eauto.
  - eapply follows_edit; [done| |done]. unfold is_link in *. simpl. by rewrite ftype_set.
Qed.

Lemma writable_follows s q : A q → follows A T s.1 (writable s q).1.1.
Proof.
  intros Hq. destruct s as [d restore]. unfold writable. destruct (restore !! q); [reflexivity|]. destruct (lstat d q) as [|n]; [reflexivity|].
  destruct (_ || _); [reflexivity|]. pose proof (os_chmod_follows d q (N.lor (perm (fn_Mode n)) 0x1C0) Hq) as Hc. by destruct (os_chmod d q _) as [d1 e].
Qed.

Lemma clearTarget_follows d p e : follows A T d (clearTarget d p e).1.
Proof. unfold clearTarget. destruct (lstat d p) as [[]|n]; try reflexivity. destruct (_ =? _); [reflexivity|apply os_removeAll_follows]. Qed.

Lemma writeRegular_follows d p e : follows A T d (writeRegular ParseKey WriteContent d p e).1.
Proof.
  unfold writeRegular. destruct (ParseKey _); [reflexivity|]. destruct (WriteContent _); [apply touch_follows|]. destruct (sy_fault _ _); [apply touch_follows|].
  destruct (walk_to _ _ _); [reflexivity|by apply put_node_follows].
Qed.

Lemma replace_node_follows op d p n : (is_link n = true → T p (fn_Link n)) → follows A T d (replace_node op d p n).1.
Proof.
  intros Hn. unfold replace_node. pose proof (os_remove_follows d p) as Hr. destruct (os_remove d p) as [d1 [e|]]; simpl in Hr; [destruct (decide _); [|done]|];
    (pose proof (os_create_follows op d1 p n Hn) as Hc; destruct (os_create op d1 p n) as [d2 err]; simpl in *; by etrans).
Qed.

Lemma set_xattrs_follows p xs d : follows A T d (set_xattrs setxattr d p xs).1.
Proof.
  revert d. induction xs as [|[name v] xs IH]; intros d; simpl; [reflexivity|]. destruct (setxattr p name) as [[[] e]|]; [apply IH|reflexivity|].
  pose proof (os_edit_follows "setxattr" d p (λ n, n <| fn_Xattrs := <[name := v]> (fn_Xattrs n) |>) ltac:(done)) as He. destruct (os_edit _ _ _ _) as [d1 [err|]]; [done|]. etrans; [exact He|apply IH].
Qed.

Lemma applyMeta_follows p d e : A p → follows A T d (applyMeta ParseKey DecodeXattrs get setxattr d p e).1.
Proof.
  intros Hp. unfold applyMeta. set (r1 := if sy_uid =? 0 then _ else _). assert (follows A T d r1.1) as H1 by (unfold r1; destruct (sy_uid =? 0); [by apply os_edit_follows|reflexivity]).
  destruct r1 as [d1 [e1|]]; simpl in H1; [done|]. set (r2 := if ftype (e_Mode e) =? S_IFLNK then _ else _). assert (follows A T d1 r2.1) as H2.
  { unfold r2. destruct (_ =? _); [reflexivity|]. pose proof (os_chmod_follows d1 p (perm (e_Mode e)) Hp) as Hc. destruct (os_chmod d1 p _) as [d2 [err|]]; simpl in Hc; [done|].
    destruct (entryXattrs _ _ _ _); [done|]. etrans; [exact Hc|apply set_xattrs_follows]. }
  destruct r2 as [d2 [e2|]]; simpl in H2; [by etrans|]. pose proof (os_edit_follows "utimes" d2 p (λ n, n <| fn_Mtime := e_Mtime e |>) ltac:(done)) as H3.
  destruct (os_edit _ _ _ _) as [d3 [err|]]; simpl in *; (etrans; [exact H1|]; by etrans).
Qed.

Lemma make_node_follows p d c e : (ftype (e_Mode e) = S_IFLNK → T p (e_LinkTarget e)) → follows A T d (make_node ParseKey WriteContent d p c e).1.
Proof.
  intros Ht. unfold make_node. destruct (_ =? S_IFDIR).
  { pose proof (os_mkdir_follows d p 0x1C0 eq_refl) as Hm. destruct (os_mkdir d p 0x1C0) as [d1 [err|]]; [destruct (decide _)|]; done. }
  destruct (_ =? S_IFREG); [destruct (contentChange c); [apply writeRegular_follows|reflexivity]|].
  destruct (N.eqb_spec (ftype (e_Mode e)) S_IFLNK); [destruct (contentChange c); [apply replace_node_follows; intros _; by apply Ht|reflexivity]|].
  destruct (_ =? S_IFIFO); [destruct (contentChange c); [apply replace_node_follows; unfold is_link; simpl; by rewrite made_mode by apply perm_type|reflexivity]|].
  destruct (N.eqb_spec (ftype (e_Mode e)) S_IFCHR) as [Ec|Ec], (N.eqb_spec (ftype (e_Mode e)) S_IFBLK) as [Eb|Eb]; cbn [orb];
    try (destruct (contentChange c); [apply replace_node_follows; unfold is_link; simpl; rewrite made_mode by apply perm_type; rewrite ?Ec, ?Eb; done|reflexivity]).
  destruct (_ =? S_IFSOCK); reflexivity.
Qed.
End links.

(** ** The whole *)

(** What a list of changes leaves alone. *)
Definition spared (cs : list Change) d d' : Prop :=
  (∀ q, (∀ c, c ∈ cs → ¬ below (parts (Path c)) q ∧ ¬ below q (parts (Path c))) → dk_nodes d' !! q = dk_nodes d !! q) ∧
  ∀ q n, (∀ c, c ∈ cs → ¬ below (parts (Path c)) q) → dk_nodes d !! q = Some n → ∃ n', dk_nodes d' !! q = Some n' ∧ kept n n'.

Lemma spared_refl cs d : spared cs d d.
Proof. split; [done|]. intros q n _ Hn. exists n. split; [done|reflexivity]. Qed.

Lemma spared_trans cs d1 d2 d3 : spared cs d1 d2 → spared cs d2 d3 → spared cs d1 d3.
Proof.
  intros [A1 B1] [A2 B2]. split; [intros q Hq; by rewrite A2, A1|]. intros q n Hq Hn. destruct (B1 q n Hq Hn) as (n1 & H1 & K1). destruct (B2 q n1 Hq H1) as (n2 & H2 & K2). exists n2. split; [done|by etrans].
Qed.

Lemma leaves_spared cs c d d' : c ∈ cs → leaves (parts (Path c)) d d' → spared cs d d'.
Proof. intros Hc [A B]. split; [intros q Hq; apply A; by apply Hq|]. intros q n Hq Hn. apply B; [by apply Hq|done]. Qed.

(** Modes are restored above changes only. *)
Definition opened (cs : list Change) (restore : gmap fpath N) : Prop := ∀ q, q ∈ dom restore → ∃ c, c ∈ cs ∧ below q (parts (Path c)).

Lemma del_step_spared cs c s : c ∈ cs → opened cs s.2 → spared cs s.1 (del_step s c).1.1 ∧ opened cs (del_step s c).1.2.
Proof.
  intros Hc Ho. destruct s as [d restore]. unfold del_step. destruct (rejectSymlinkComponents d _) as [[]|]; try (split; [apply spared_refl|done]).
  destruct (writable_leaves (parts (Path c)) (dir_of (parts (Path c))) (d, restore) (below_dir _)) as [Hw Hd].
  assert (opened cs (writable (d, restore) (dir_of (parts (Path c)))).1.2) as Ho'.
  { intros q Hq. destruct (Hd q Hq) as [?| ->]; [by apply Ho|]. exists c. split; [done|apply below_dir]. }
  destruct (writable (d, restore) _) as [[d1 r1] [e|]]; simpl in *; [case_decide; [|by split; [eapply leaves_spared|]]|];
    (pose proof (os_remove_leaves (parts (Path c)) d1) as Hr; destruct (os_remove d1 _) as [d2 err]; simpl in *; split; [eapply leaves_spared; [done|by eapply leaves_trans]|done]).
Qed.

Lemma rest_step_spared cs c s : c ∈ cs → opened cs s.2 → spared cs s.1 (rest_step ParseKey WriteContent DecodeXattrs get setxattr s c).1.1 ∧ opened cs (rest_step ParseKey WriteContent DecodeXattrs get setxattr s c).1.2.
Proof.
  intros Hc Ho. destruct s as [d restore]. unfold rest_step. set (t := parts (Path c)). assert (∀ d', leaves t d d' → spared cs d d') as Hs by (intros d'; by apply leaves_spared).
  destruct (rejectSymlinkComponents d t); [split; [apply spared_refl|done]|]. destruct (New c) as [e|]; [|split; [apply spared_refl|done]].
  assert (leaves t d (os_mkdirAll d (dir_of t)).1) as L1 by (apply mkdirAll_leaves, below_dir). destruct (os_mkdirAll d _) as [d1 [err|]]; cbn [fst snd] in *; [split; [by apply Hs|done]|].
  destruct (writable_leaves t (dir_of t) (d1, restore) (below_dir _)) as [L2 Hd]. assert (opened cs (writable (d1, restore) (dir_of t)).1.2) as Ho'.
  { intros q Hq. destruct (Hd q Hq) as [?| ->]; [by apply Ho|]. exists c. split; [done|apply below_dir]. }
  destruct (writable (d1, restore) _) as [[d2 r2] [err|]]; cbn [fst snd] in *; [split; [exact (Hs _ (leaves_trans _ _ _ _ L1 L2))|done]|].
  pose proof (clearTarget_leaves t d2 e) as L3. destruct (clearTarget d2 t e) as [d3 [err|]]; cbn [fst snd] in *; [split; [exact (Hs _ (leaves_trans _ _ _ _ L1 (leaves_trans _ _ _ _ L2 L3)))|done]|].
  pose proof (make_node_leaves t d3 c e) as L4. assert (leaves t d d3) as L3' by exact (leaves_trans _ _ _ _ L1 (leaves_trans _ _ _ _ L2 L3)).
  destruct (make_node _ _ d3 t c e) as [d4 [err|[[]|]]]; cbn [fst snd] in *; try (split; [exact (Hs _ (leaves_trans _ _ _ _ L3' L4))|done]).
  pose proof (applyMeta_leaves t d4 e) as L5. destruct (applyMeta _ _ _ _ d4 t e) as [d5 [err|]]; cbn [fst snd] in *; (split; [exact (Hs _ (leaves_trans _ _ _ _ L3' (leaves_trans _ _ _ _ L4 L5)))|done]).
Qed.

Lemma del_steps_spared cs l s : (∀ c, c ∈ l → c ∈ cs) → opened cs s.2 → spared cs s.1 (del_steps s l).1.1 ∧ opened cs (del_steps s l).1.2.
Proof.
  revert s. induction l as [|c l IH]; intros s Hl Ho; simpl; [split; [apply spared_refl|done]|]. destruct (del_step_spared cs c s) as [S1 O1]; [apply Hl; by left|done|].
  destruct (del_step s c) as [s1 [e|]]; simpl in *; [done|]. destruct (IH s1) as [S2 O2]; [intros c' ?; apply Hl; by right|done|]. split; [by eapply spared_trans|done].
Qed.

Lemma rest_steps_spared cs l s dirs : (∀ c, c ∈ l → c ∈ cs) → (∀ c, c ∈ dirs → c ∈ cs) → opened cs s.2 →
  spared cs s.1 (rest_steps ParseKey WriteContent DecodeXattrs get setxattr s dirs l).1.1 ∧ opened cs (rest_steps ParseKey WriteContent DecodeXattrs get setxattr s dirs l).1.2 ∧
  ∀ ds, (rest_steps ParseKey WriteContent DecodeXattrs get setxattr s dirs l).2 = inr ds → ∀ c, c ∈ ds → c ∈ cs.
Proof.
  revert s dirs. induction l as [|c l IH]; intros s dirs Hl Hd Ho; simpl; [split; [apply spared_refl|]; split; [done|]; by intros ds [= <-]|]. destruct (rest_step_spared cs c s) as [S1 O1]; [apply Hl; by left|done|].
  destruct (rest_step _ _ _ _ _ s c) as [s1 [e|made]]; simpl in *; [done|]. destruct (IH s1 (if made then dirs ++ [c] else dirs)) as (S2 & O2 & D2); [intros c' ?; apply Hl; by right| |done|].
  { destruct made; [|done]. intros c' [?| ->%list_elem_of_singleton]%elem_of_app; [by apply Hd|apply Hl; by left]. }
  split; [by eapply spared_trans|done].
Qed.

Lemma restore_modes_spared cs ms d : (∀ q, q ∈ ms.*1 → ∃ c, c ∈ cs ∧ below q (parts (Path c))) → spared cs d (restore_modes d ms).1.
Proof.
  revert d. induction ms as [|[q mode] ms IH]; intros d Hm; simpl; [apply spared_refl|]. destruct (Hm q) as (c & Hc & Hb); [by left|]. pose proof (os_chmod_leaves (parts (Path c)) q d mode Hb) as Hl.
  destruct (os_chmod d q mode) as [d1 [e|]]; simpl in *; [by eapply leaves_spared|]. eapply spared_trans; [by eapply leaves_spared|]. apply IH. intros q' ?. apply Hm. by right.
Qed.

Lemma dirs_meta_spared cs l d : (∀ c, c ∈ l → c ∈ cs) → spared cs d (dirs_meta ParseKey DecodeXattrs get setxattr d l).1.
Proof.
  revert d. induction l as [|c l IH]; intros d Hl; simpl; [apply spared_refl|]. destruct (New c) as [e|]; [|apply spared_refl]. pose proof (applyMeta_leaves (parts (Path c)) d e) as H1.
  destruct (applyMeta _ _ _ _ d _ e) as [d1 [err|]]; simpl in *; [eapply leaves_spared; [|done]; apply Hl; by left|]. eapply spared_trans; [eapply leaves_spared; [|exact H1]; apply Hl; by left|]. apply IH. intros c' ?. apply Hl. by right.
Qed.

(** Modes are changed at the paths of changes and above, links made at the paths of
    changes that name them. *)
Definition above (cs : list Change) (q : fpath) : Prop := ∃ c, c ∈ cs ∧ below q (parts (Path c)).
Definition made (cs : list Change) (q : fpath) (target : bytes) : Prop :=
  ∃ c e, c ∈ cs ∧ parts (Path c) = q ∧ New c = Some e ∧ ftype (e_Mode e) = S_IFLNK ∧ e_LinkTarget e = target.

Notation followed cs := (follows (above cs) (made cs)).

#[local] Existing Instance follows_pre.

Lemma above_dir cs c : c ∈ cs → above cs (dir_of (parts (Path c))).
Proof. intros Hc. exists c. split; [done|apply below_dir]. Qed.

Lemma above_at cs c : c ∈ cs → above cs (parts (Path c)).
Proof. intros Hc. by exists c. Qed.

Lemma del_step_followed cs c s : c ∈ cs → followed cs s.1 (del_step s c).1.1.
Proof.
  intros Hc. destruct s as [d restore]. unfold del_step. destruct (rejectSymlinkComponents d _) as [[]|]; try reflexivity.
  pose proof (writable_follows (above cs) (made cs) (d, restore) _ (above_dir cs c Hc)) as Hw.
  destruct (writable (d, restore) _) as [[d1 r1] [e|]]; simpl in *; [case_decide; [|done]|];
    (pose proof (os_remove_follows (above cs) (made cs) d1 (parts (Path c))) as Hr; destruct (os_remove d1 _) as [d2 err]; simpl in *; by etrans).
Qed.

Lemma rest_step_followed cs c s : c ∈ cs → followed cs s.1 (rest_step ParseKey WriteContent DecodeXattrs get setxattr s c).1.1.
Proof.
  intros Hc. destruct s as [d restore]. unfold rest_step. set (t := parts (Path c)).
  destruct (rejectSymlinkComponents d t); [reflexivity|]. destruct (New c) as [e|] eqn:En; [|reflexivity].
  pose proof (mkdirAll_follows (above cs) (made cs) d [] (dir_of t)) as L1. fold (os_mkdirAll d (dir_of t)) in L1. destruct (os_mkdirAll d _) as [d1 [err|]]; cbn [fst snd] in *; [done|].
  pose proof (writable_follows (above cs) (made cs) (d1, restore) _ (above_dir cs c Hc)) as L2. fold t in L2. destruct (writable (d1, restore) _) as [[d2 r2] [err|]]; cbn [fst snd] in *; [by etrans|].
  pose proof (clearTarget_follows (above cs) (made cs) d2 t e) as L3. assert (followed cs d (clearTarget d2 t e).1) as L3' by (etrans; [exact L1|]; by etrans). clear L1 L2 L3.
  destruct (clearTarget d2 t e) as [d3 [err|]]; cbn [fst snd] in *; [done|].
  assert (followed cs d (make_node ParseKey WriteContent d3 t c e).1) as L4 by (etrans; [exact L3'|]; apply make_node_follows; intros Hl; exists c, e; done). clear L3'.
  destruct (make_node _ _ d3 t c e) as [d4 [err|[[]|]]]; cbn [fst snd] in *; try done.
  pose proof (applyMeta_follows (above cs) (made cs) t d4 e (above_at cs c Hc)) as L5. destruct (applyMeta _ _ _ _ d4 t e) as [d5 [err|]]; cbn [fst snd] in *; by etrans.
Qed.

Lemma del_steps_followed cs l s : (∀ c, c ∈ l → c ∈ cs) → followed cs s.1 (del_steps s l).1.1.
Proof.
  revert s. induction l as [|c l IH]; intros s Hl; simpl; [reflexivity|]. pose proof (del_step_followed cs c s) as S1. destruct (del_step s c) as [s1 [e|]]; simpl in *; [apply S1, Hl; by left|].
  etrans; [apply S1, Hl; by left|]. apply IH. intros c' ?. apply Hl. by right.
Qed.

Lemma rest_steps_followed cs l s dirs : (∀ c, c ∈ l → c ∈ cs) → followed cs s.1 (rest_steps ParseKey WriteContent DecodeXattrs get setxattr s dirs l).1.1.
Proof.
  revert s dirs. induction l as [|c l IH]; intros s dirs Hl; simpl; [reflexivity|]. pose proof (rest_step_followed cs c s) as S1. destruct (rest_step _ _ _ _ _ s c) as [s1 [e|mk]]; simpl in *; [apply S1, Hl; by left|].
  etrans; [apply S1, Hl; by left|]. apply IH. intros c' ?. apply Hl. by right.
Qed.

Lemma restore_modes_followed cs ms d : (∀ q, q ∈ ms.*1 → above cs q) → followed cs d (restore_modes d ms).1.
Proof.
  revert d. induction ms as [|[q mode] ms IH]; intros d Hm; simpl; [reflexivity|]. pose proof (os_chmod_follows (above cs) (made cs) d q mode) as Hc.
  destruct (os_chmod d q mode) as [d1 [e|]]; simpl in *; [apply Hc, Hm; by left|]. etrans; [apply Hc, Hm; by left|]. apply IH. intros q' ?. apply Hm. by right.
Qed.

Lemma dirs_meta_followed cs l d : (∀ c, c ∈ l → c ∈ cs) → followed cs d (dirs_meta ParseKey DecodeXattrs get setxattr d l).1.
Proof.
  revert d. induction l as [|c l IH]; intros d Hl; simpl; [reflexivity|]. destruct (New c) as [e|]; [|reflexivity]. pose proof (applyMeta_follows (above cs) (made cs) (parts (Path c)) d e) as H1.
  destruct (applyMeta _ _ _ _ d _ e) as [d1 [err|]]; simpl in *; [apply H1, above_at, Hl; by left|]. etrans; [apply H1, above_at, Hl; by left|]. apply IH. intros c' ?. apply Hl. by right.
Qed.

(** What is written by a list of changes: the files apart from those at, above and below
    their paths are as they were, what lies above keeps its nature; and a mode set through
    a symbolic link, which goes to the file the link names, wherever that is, was set at a
    link at or above the path of a change, that was there before or that a change made. *)
Definition written_by (cs : list Change) d d' : Prop := spared cs d d' ∧ followed cs d d'.

(** Applying changes touches nothing else: whatever fails on the way, a path that is
    neither above nor below the path of a change is as it was, and what lies above one
    keeps its type, its content, its owner and its attributes; and modes go through the
    symbolic links there only. *)
Theorem Apply_spares d changes : written_by changes d (Apply ParseKey WriteContent DecodeXattrs get setxattr d changes).1.
Proof.
  assert (∀ d, written_by changes d d) as Hrefl by (intros; split; [apply spared_refl|reflexivity]).
  assert (∀ d1 d2 d3, written_by changes d1 d2 → written_by changes d2 d3 → written_by changes d1 d3) as Htrans by (intros d1 d2 d3 [? ?] [? ?]; split; [by eapply spared_trans|by etrans]).
  unfold Apply. destruct (omap _ changes); [|apply Hrefl]. set (dels := sort_by path_desc _). set (rest := sort_by path_asc _).
  assert (∀ c, c ∈ dels → c ∈ changes) as Hdels by (intros c; unfold dels; rewrite elem_of_sort_by, list_elem_of_filter; tauto).
  assert (∀ c, c ∈ rest → c ∈ changes) as Hrest by (intros c; unfold rest; rewrite elem_of_sort_by, list_elem_of_filter; tauto).
  destruct (del_steps_spared changes dels (d, ∅) Hdels) as [S1 O1]; [intros q; simpl; rewrite dom_empty; by intros ?%not_elem_of_empty|]. pose proof (del_steps_followed changes dels (d, ∅) Hdels) as F1.
  destruct (del_steps (d, ∅) dels) as [[d1 r1] [e|]]; simpl in *; [done|].
  destruct (rest_steps_spared changes rest (d1, r1) [] Hrest) as (S2 & O2 & D2); [by intros c ?%not_elem_of_nil|done|]. pose proof (rest_steps_followed changes rest (d1, r1) [] Hrest) as F2.
  assert (written_by changes d d1) as W1 by done. clear S1 F1.
  destruct (rest_steps _ _ _ _ _ (d1, r1) [] rest) as [[d2 r2] [e|dirs]]; simpl in *; [by eapply Htrans|].
  assert (written_by changes d1 d2) as W2 by done. clear S2 F2.
  assert (∀ q, q ∈ (map_to_list r2).*1 → above changes q) as Hab.
  { intros q (e & -> & He)%list_elem_of_fmap. apply O2. destruct e as [q m]. apply elem_of_map_to_list in He. by eapply elem_of_dom_2. }
  pose proof (conj (restore_modes_spared changes (map_to_list r2) d2 Hab) (restore_modes_followed changes (map_to_list r2) d2 Hab)) as W3.
  destruct (restore_modes d2 _) as [d3 [e|]]; simpl in *; [eapply Htrans; [exact W1|]; eapply Htrans; [exact W2|exact W3]|].
  eapply Htrans; [exact W1|]. eapply Htrans; [exact W2|]. eapply Htrans; [exact W3|]. split; [apply dirs_meta_spared|apply dirs_meta_followed]; intros c; rewrite elem_of_sort_by; by apply (D2 dirs eq_refl).
Qed.
End frame.

(** * A directory that is not writable *)

Definition ent (name : bytes) (mode : N) (ck link : bytes) : Entry := MkEntry name mode ck link [] 0 0 0 [] [].

Definition nm (s : string) : bytes := of_string s.

(** A tree with a directory [a] of mode 0500 that has a file [x] in it, and one in which
    [a] is a symbolic link. *)
Definition ro_entries (k : bytes) : string + list Entry :=
  if decide (k = nm "base") then inr [ent (nm "a") (N.lor S_IFDIR 0x140) (nm "adir") []]
  else if decide (k = nm "adir") then inr [ent (nm "x") (N.lor S_IFREG 0x1A4) (nm "cx") []]
  else if decide (k = nm "link") then inr [ent (nm "a") (N.lor S_IFLNK 0x1FF) [] (nm "/etc/hosts")]
  else inr [].

Definition ro_changes (k : string) : list Change :=
  match DiffTrees inr ro_entries 5 (nm "base") (nm k) with Some (inr cs) => cs | _ => [] end.

#[local] Instance calm_system : System := { sy_now := 7%Z; sy_uid := 1000; sy_gid := 1000; sy_umask := 0x12; sy_fault _ _ := None; sy_gone _ _ := false }.

Definition on_disk (mode : N) (ck : bytes) : fnode := MkFnode mode 0 0 0 ck [] (0, 0) ∅.

(** The working directory as the first tree has it. *)
Definition ro_disk : disk := MkDisk
  {[ [] := on_disk (N.lor S_IFDIR 0x1ED) []; [nm "a"] := on_disk (N.lor S_IFDIR 0x140) []; [nm "a"; nm "x"] := on_disk (N.lor S_IFREG 0x1A4) (nm "cx") ]} [].

Definition calm_apply (d : disk) (cs : list Change) : disk * option apply_err := Apply inr (λ _, None) (λ _, inr ∅) inr (λ _ _, None) d cs.

(** A mode is set outside the working copy: a directory without write permission is
    opened to remove a file in it and is to be given its mode back at the end; when the
    same list of changes puts a symbolic link in the directory's place, the mode of the
    link's target is set instead, and the call reports success. *)
Theorem mode_set_through_link : ∃ d', calm_apply ro_disk (ro_changes "link") = (d', None) ∧ dk_followed d' = [(nm "/etc/hosts", 0x140)].
Proof.
  assert ((λ r : disk * option apply_err, (dk_followed r.1, r.2)) (calm_apply ro_disk (ro_changes "link")) = ([(nm "/etc/hosts", 0x140)], None)) as Hr by (vm_compute; reflexivity).
  destruct (calm_apply _ _) as [d' e]. injection Hr as Hf ->. by exists d'.
Qed.

(** When the directory is removed, there is nothing to give its mode back to: the
    deletions are made and the call fails. *)
Theorem removed_dir_fails : ∃ d', calm_apply ro_disk (ro_changes "empty") = (d', Some (AErrno ENOENT)) ∧ dk_nodes d' !! [nm "a"] = None ∧ dk_nodes d' !! [nm "a"; nm "x"] = None.
Proof.
  assert ((λ r : disk * option apply_err, (bool_decide (dk_nodes r.1 !! [nm "a"] = None), bool_decide (dk_nodes r.1 !! [nm "a"; nm "x"] = None), r.2)) (calm_apply ro_disk (ro_changes "empty")) =
    (true, true, Some (AErrno ENOENT))) as Hr by (vm_compute; reflexivity).
  destruct (calm_apply _ _) as [d' e]. injection Hr as H1 H2 ->. exists d'. split; [done|]. split; by eapply bool_decide_eq_true_1.
Qed.

(** Deletions two levels below a directory that became a file are not skipped when the
    list is applied again. *)
Definition deep_changes : list Change :=
  [MkChange (nm "a") TypeChanged (Some (ent (nm "a") (N.lor S_IFDIR 0x1ED) (nm "d") [])) (Some (ent (nm "a") (N.lor S_IFREG 0x1A4) (nm "c") []));
   MkChange (nm "a/b") Deleted (Some (ent (nm "b") (N.lor S_IFDIR 0x1ED) (nm "d") [])) None;
   MkChange (nm "a/b/c") Deleted (Some (ent (nm "c") (N.lor S_IFREG 0x1A4) (nm "c") [])) None].

Definition deep_disk : disk := MkDisk
  {[ [] := on_disk (N.lor S_IFDIR 0x1ED) []; [nm "a"] := on_disk (N.lor S_IFDIR 0x1ED) []; [nm "a"; nm "b"] := on_disk (N.lor S_IFDIR 0x1ED) []; [nm "a"; nm "b"; nm "c"] := on_disk (N.lor S_IFREG 0x1A4) (nm "c") ]} [].

Theorem applied_again_fails : ∃ d', calm_apply deep_disk deep_changes = (d', None) ∧ (calm_apply d' deep_changes).2 = Some (AErrno ENOTDIR).
Proof.
  assert ((λ r : disk * option apply_err, (r.2, (calm_apply r.1 deep_changes).2)) (calm_apply deep_disk deep_changes) = (None, Some (AErrno ENOTDIR))) as Hr by (vm_compute; reflexivity).
  destruct (calm_apply deep_disk deep_changes) as [d' e]. injection Hr as -> H2. by exists d'.
Qed.

(** An attribute that the entry does not have stays on the file. *)
Definition attr_disk : disk := MkDisk {[ [] := on_disk (N.lor S_IFDIR 0x1ED) []; [nm "f"] := on_disk (N.lor S_IFREG 0x1A4) (nm "c") <| fn_Xattrs := {[nm "user.k" := nm "v"]} |> ]} [].
Definition attr_changes : list Change :=
  [MkChange (nm "f") MetaChanged (Some (ent (nm "f") (N.lor S_IFREG 0x1A4) (nm "c") [] )) (Some (ent (nm "f") (N.lor S_IFREG 0x1A4) (nm "c") []))].

Theorem attribute_not_removed : ∃ d' n, calm_apply attr_disk attr_changes = (d', None) ∧ dk_nodes d' !! [nm "f"] = Some n ∧ fn_Xattrs n !! nm "user.k" = Some (nm "v").
Proof.
  assert ((λ r : disk * option apply_err, ((dk_nodes r.1 !! [nm "f"]) ≫= λ n, fn_Xattrs n !! nm "user.k", r.2)) (calm_apply attr_disk attr_changes) = (Some (nm "v"), None)) as Hr by (vm_compute; reflexivity).
  destruct (calm_apply _ _) as [d' e]. injection Hr as H1 ->. destruct (dk_nodes d' !! [nm "f"]) as [n|] eqn:En; [|done]. by exists d', n.
Qed.
