(* ===== verification/Checkout.v ===== *)
(** Writing a whole tree into an empty directory (src/worktree/apply.go, as [Clone] of
    src/worktree/flow.go does): the changes from the empty tree (Worktree.v) applied to the
    directory (Apply.v) make it that tree.

    The invariant of the loop is [built]: what is there lies in directories, and is the
    entries of the changes so far; directories wait for their metadata until the end. *)
From S2P Require Import Prelude Worktree Apply ApplySafety.

Local Open Scope N_scope.

(** * Paths *)

Fixpoint join_slash (p : fpath) : bytes :=
  match p with [] => [] | [name] => name | name :: p => name ++ slash :: join_slash p end.

Lemma split_slash_cons p cur : ∃ name rest, split_slash p cur = name :: rest.
Proof. revert cur. induction p as [|b p IH]; intros cur; cbn [split_slash]; [eauto|]. case_bool_decide; eauto. Qed.

Lemma join_split p cur : join_slash (split_slash p cur) = cur ++ p.
Proof.
  revert cur. induction p as [|b p IH]; intros cur; cbn [split_slash]; [by rewrite app_nil_r|]. case_bool_decide as Hb.
  - destruct (split_slash_cons p []) as (name & rest & E). specialize (IH []). rewrite E in *. cbn [join_slash]. cbn [join_slash] in IH.
    subst b. by rewrite IH.
  - by rewrite IH, <- app_assoc.
Qed.

Lemma join_parts p : join_slash (parts p) = p.
Proof. apply join_split. Qed.

Lemma parts_ne p : parts p ≠ [].
Proof. unfold parts. destruct (split_slash_cons p []) as (? & ? & ->). done. Qed.

Lemma join_snoc q name : q ≠ [] → join_slash (q ++ [name]) = join_slash q ++ slash :: name.
Proof.
  intros Hq. induction q as [|x [|y q] IH]; [done|done|]. cbn [app]. cbn [app] in IH. 
  change (join_slash (x :: y :: q ++ [name])) with (x ++ slash :: join_slash (y :: q ++ [name])). rewrite IH by done. cbn [join_slash].
  by rewrite <- app_assoc.
Qed.

Lemma dir_snoc (p : fpath) : p ≠ [] → ∃ name, p = dir_of p ++ [name].
Proof.
  intros Hp. destruct p as [|name q] using rev_ind; [done|]. exists name. unfold dir_of. rewrite length_app. cbn [length].
  rewrite Nat.add_1_r. cbn [pred]. by rewrite take_app_length.
Qed.

(** A directory comes before what is in it. *)
Lemma dir_before p q : parts q = dir_of (parts p) → bytes_lt q p.
Proof.
  intros E. destruct (dir_snoc (parts p) (parts_ne p)) as [name Hn]. rewrite <- E in Hn.
  pose proof (join_snoc (parts q) name (parts_ne q)) as Hj. rewrite <- Hn, !join_parts in Hj. rewrite Hj.
  unfold cmp_lt. rewrite <- (app_nil_r q) at 1. by rewrite bytes_compare_app_same.
Qed.

Lemma dir_shorter (p : fpath) : p ≠ [] → (length (dir_of p) < length p)%nat.
Proof. intros Hp. destruct (dir_snoc p Hp) as [name E]. rewrite E at 2. rewrite length_app. cbn. lia. Qed.

Lemma dir_ne (p : fpath) : p ≠ [] → dir_of p ≠ p.
Proof. intros Hp E. pose proof (dir_shorter p Hp). rewrite E in *. lia. Qed.

(** Names a tree may have. *)
Definition good_name (n : bytes) : Prop := n ≠ [] ∧ slash ∉ n ∧ n ≠ [dot] ∧ n ≠ [dot; dot].

#[global] Instance good_name_dec n : Decision (good_name n).
Proof. unfold good_name. apply _. Defined.

Lemma split_name n rest cur : slash ∉ n → split_slash (n ++ rest) cur = split_slash rest (cur ++ n).
Proof.
  revert cur. induction n as [|b n IH]; intros cur Hn; cbn [app split_slash]; [by rewrite app_nil_r|]. apply not_elem_of_cons in Hn as [Hb Hn].
  rewrite bool_decide_false by congruence. by rewrite IH, <- app_assoc.
Qed.

Lemma parts_join ns : ns ≠ [] → Forall good_name ns → parts (join_slash ns) = ns.
Proof.
  unfold parts. induction ns as [|n ns IH]; intros Hne Hg; [done|]. apply Forall_cons in Hg as [(_ & Hs & _) Hg]. destruct ns as [|n' ns]; cbn [join_slash].
  - by rewrite <- (app_nil_r n), split_name, app_nil_r by done.
  - rewrite split_name by done. cbn [split_slash]. rewrite bool_decide_true by done. cbn [app]. f_equal. by apply IH.
Qed.

Lemma joined_join ns : Forall good_name ns → joined ns = join_slash ns.
Proof.
  induction ns as [|n ns IH] using rev_ind; intros Hg; [done|]. apply Forall_app in Hg as [Hg Hn]. rewrite joined_snoc, IH by done. unfold joinPath.
  destruct ns as [|x ns]; [done|]. rewrite join_snoc by done. rewrite bool_decide_false; [done|]. apply Forall_cons in Hg as [[Hx _] _].
  destruct ns; cbn [join_slash]; destruct x; done.
Qed.

Lemma parts_joined ns : ns ≠ [] → Forall good_name ns → parts (joined ns) = ns.
Proof. intros Hne Hg. rewrite joined_join by done. by apply parts_join. Qed.

Lemma checkPath_joined ns : ns ≠ [] → Forall good_name ns → checkPath (joined ns) = None.
Proof.
  intros Hne Hg. unfold checkPath. rewrite parts_joined by done. rewrite bool_decide_false.
  - assert (existsb (λ part, bool_decide (part = []) || bool_decide (part = [dot]) || bool_decide (part = [dot; dot])) ns = false) as ->; [|done].
    clear Hne. induction Hg as [|n ns (H1 & _ & H2 & H3) _ IH]; [done|]. cbn. rewrite IH. by rewrite !bool_decide_false by done.
  - intros E. pose proof (parts_joined ns Hne Hg) as Hp. rewrite E in Hp. destruct ns as [|n [|]]; [done| |done]. injection Hp as <-. by apply Forall_cons in Hg as [[? _] _].
Qed.

(** * Directories without holes *)

Section disk.
Context `{System}.
Context (no_fault : ∀ op p, sy_fault op p = None).
Implicit Types d : disk.

Definition set d (p : fpath) (n : fnode) : disk := d <| dk_nodes := <[p := n]> (dk_nodes d) |>.

Lemma nodes_set d p n : dk_nodes (set d p n) = <[p := n]> (dk_nodes d).
Proof. done. Qed.

Lemma set_set d p n n' : set (set d p n) p n' = set d p n'.
Proof. destruct d as [nodes f]. unfold set, set_field. cbn. by rewrite insert_insert_eq. Qed.

(** Whatever is there lies in a directory. *)
Definition rooted d : Prop := ∀ p n, dk_nodes d !! p = Some n → p ≠ [] → ∃ m, dk_nodes d !! dir_of p = Some m ∧ is_dir m = true.

Definition dir_at d (p : fpath) : Prop := ∃ n, dk_nodes d !! p = Some n ∧ is_dir n = true.

Lemma rooted_above d q p : rooted d → dir_at d p → q `prefix_of` p → dir_at d q.
Proof.
  intros Hr. remember (length p) as k eqn:Ek. revert p Ek. induction (lt_wf k) as [k _ IH]. intros p -> (n & Hn & Hd) Hq.
  destruct (decide (q = p)) as [->|Hne]; [by exists n|]. assert (p ≠ []) as Hp by (intros ->; by apply prefix_nil_inv in Hq).
  destruct (Hr p n Hn Hp) as (m & Hm & Hdm). apply (IH (length (dir_of p))) with (dir_of p); [by apply dir_shorter|done|by exists m|].
  destruct (dir_snoc p Hp) as [name E]. destruct Hq as [r Hr']. rewrite E in Hr'. destruct r as [|x r] using rev_ind.
  - rewrite app_nil_r in Hr'. rewrite E, Hr' in Hne. done.
  - rewrite app_assoc in Hr'. apply app_inj_tail in Hr' as [Hd' _]. exists r. done.
Qed.

Lemma walk_ok nodes pre rest : (∀ k, (k < length rest)%nat → ∃ n, nodes !! (pre ++ take k rest) = Some n ∧ is_dir n = true) →
  walk_to nodes pre rest = None.
Proof.
  revert pre. induction rest as [|name rest IH]; intros pre Hk; [done|]. cbn [walk_to].
  destruct (Hk 0%nat) as (n & Hn & Hd); [cbn; lia|]. rewrite app_nil_r in Hn. rewrite Hn, Hd. apply IH. intros k Hlt.
  rewrite <- app_assoc. apply (Hk (S k)). cbn. lia.
Qed.

Lemma rooted_walk d p : rooted d → p ≠ [] → dir_at d (dir_of p) → walk_to (dk_nodes d) [] p = None.
Proof.
  intros Hr Hp Hd. apply walk_ok. intros k Hk. cbn [app]. apply (rooted_above d (take k p) (dir_of p) Hr Hd).
  unfold dir_of. replace (take k p) with (take k (take (pred (length p)) p)) by (rewrite take_take; f_equal; lia). apply prefix_take.
Qed.

Lemma walk_root nodes : walk_to nodes [] [] = None.
Proof. done. Qed.

(** A path whose directory is there. *)
Definition reached d (p : fpath) : Prop := walk_to (dk_nodes d) [] p = None.

Lemma lstat_at d p n : reached d p → dk_nodes d !! p = Some n → lstat d p = inr n.
Proof. intros Hw Hn. unfold lstat. by rewrite no_fault, Hw, Hn. Qed.

Lemma lstat_none d p : reached d p → dk_nodes d !! p = None → lstat d p = inl ENOENT.
Proof. intros Hw Hn. unfold lstat. by rewrite no_fault, Hw, Hn. Qed.

Lemma rooted_reached d p n : rooted d → dk_nodes d !! p = Some n → reached d p.
Proof. intros Hr Hn. destruct (decide (p = [])) as [->|Hp]; [done|]. apply rooted_walk; [done|done|]. exact (Hr p n Hn Hp). Qed.

Lemma walk_insert nodes pre rest p n : pre ++ rest = p → walk_to (<[p := n]> nodes) pre rest = walk_to nodes pre rest.
Proof.
  revert pre. induction rest as [|name rest IH]; intros pre E; [done|]. cbn [walk_to].
  rewrite lookup_insert_ne.
  - destruct (nodes !! pre) as [m|]; [|done]. destruct (is_dir m); [|done]. apply IH. by rewrite <- app_assoc.
  - intros ->. rewrite <- (app_nil_r pre) in E at 2. by apply app_inv_head in E.
Qed.

Lemma reached_set d p n : reached d p → reached (set d p n) p.
Proof. unfold reached. rewrite nodes_set. by rewrite (walk_insert _ [] p p n). Qed.

Lemma edit_at op d p n f : reached d p → dk_nodes d !! p = Some n → os_edit op d p f = (set d p (f n), None).
Proof. intros Hw Hn. unfold os_edit. by rewrite no_fault, (lstat_at d p n). Qed.

Lemma chmod_at d p n mode : reached d p → dk_nodes d !! p = Some n → is_link n = false →
  os_chmod d p mode = (set d p (n <| fn_Mode := N.lor (ftype (fn_Mode n)) (perm mode) |>), None).
Proof. intros Hw Hn Hl. unfold os_chmod. by rewrite no_fault, (lstat_at d p n), Hl. Qed.
End disk.

(** * Entries *)

Section checkout.
Context `{System}.
Context (ParseKey : bytes → string + bytes) (WriteContent : bytes → option string) (DecodeXattrs : bytes → string + gmap bytes bytes) (get : bytes → string + bytes).
Context (setxattr : fpath → bytes → option (bool * errno)).
(** Nothing fails for other reasons than the state of the directory, and the process
    keeps the owner's permissions of what it makes. *)
Context (no_fault : ∀ op p, sy_fault op p = None) (no_xattr : ∀ p name, setxattr p name = None) (own : N.land sy_umask 0x1C0 = 0).
Implicit Types d : disk.

Notation entryXattrs := (entryXattrs ParseKey DecodeXattrs get).
Notation applyMeta := (applyMeta ParseKey DecodeXattrs get setxattr).
Notation rest_step := (rest_step ParseKey WriteContent DecodeXattrs get setxattr).

Definition rdev_of (e : Entry) : N * N := match e_Rdev e with [a; b] => (a mod 2 ^ 32, b mod 2 ^ 32) | _ => (0, 0) end.

(** The permissions of a symbolic link are the system's. *)
Definition final_mode (e : Entry) : N :=
  if ftype (e_Mode e) =? S_IFLNK then N.lor S_IFLNK 0x1FF else N.lor (ftype (e_Mode e)) (perm (e_Mode e)).

(** A node on disk is what the entry says. *)
Record looks_like (n : fnode) (e : Entry) : Prop := {
  ll_mode : fn_Mode n = final_mode e;
  ll_mtime : fn_Mtime n = e_Mtime e;
  ll_owner : sy_uid = 0 → fn_UID n = e_UID e ∧ fn_GID n = e_GID e;
  ll_content : ftype (e_Mode e) = S_IFREG → ParseKey (e_ContentKey e) = inr (fn_Content n);
  ll_link : ftype (e_Mode e) = S_IFLNK → fn_Link n = e_LinkTarget e;
  ll_rdev : ftype (e_Mode e) = S_IFCHR ∨ ftype (e_Mode e) = S_IFBLK → fn_Rdev n = rdev_of e;
  ll_xattrs : ftype (e_Mode e) ≠ S_IFLNK → entryXattrs e = inr (fn_Xattrs n);
}.

(** What a new node has before its metadata is set. *)
Record fresh (n : fnode) (e : Entry) : Prop := {
  fr_type : ftype (fn_Mode n) = ftype (e_Mode e);
  fr_link_mode : ftype (e_Mode e) = S_IFLNK → fn_Mode n = N.lor S_IFLNK 0x1FF;
  fr_content : ftype (e_Mode e) = S_IFREG → ParseKey (e_ContentKey e) = inr (fn_Content n);
  fr_link : ftype (e_Mode e) = S_IFLNK → fn_Link n = e_LinkTarget e;
  fr_rdev : ftype (e_Mode e) = S_IFCHR ∨ ftype (e_Mode e) = S_IFBLK → fn_Rdev n = rdev_of e;
  fr_xattrs : fn_Xattrs n = ∅;
}.

Lemma ftype_final e : ftype (final_mode e) = ftype (e_Mode e).
Proof. unfold final_mode. destruct (N.eqb_spec (ftype (e_Mode e)) S_IFLNK) as [->|]; [done|]. apply ftype_set. Qed.

Lemma set_same d p n : dk_nodes d !! p = Some n → set d p n = d.
Proof. intros Hn. destruct d as [nodes f]. unfold set, set_field. cbn in *. by rewrite insert_id. Qed.

Definition add_xattrs (m : gmap bytes bytes) (xs : list (bytes * bytes)) : gmap bytes bytes := fold_left (λ m kv, <[kv.1 := kv.2]> m) xs m.

Lemma add_xattrs_map m xs : NoDup xs.*1 → add_xattrs m xs = list_to_map xs ∪ m.
Proof.
  revert m. induction xs as [|[k v] xs IH]; intros m Hn; cbn; [by rewrite (left_id_L ∅ (∪))|]. apply NoDup_cons in Hn as [Hk Hn].
  change (add_xattrs (<[k := v]> m) xs = <[k := v]> (list_to_map xs) ∪ m). rewrite IH by done. rewrite <- insert_union_l.
  symmetry. apply insert_union_r. by apply not_elem_of_list_to_map.
Qed.

Lemma set_xattrs_at d p n xs : reached d p → dk_nodes d !! p = Some n →
  set_xattrs setxattr d p xs = (set d p (n <| fn_Xattrs := add_xattrs (fn_Xattrs n) xs |>), None).
Proof.
  revert d n. induction xs as [|[k v] xs IH]; intros d n Hr Hn; cbn [set_xattrs].
  - rewrite (set_same d p); [done|]. by destruct n.
  - rewrite no_xattr. rewrite (edit_at no_fault _ d p n) by done.
    rewrite (IH _ (n <| fn_Xattrs := <[k := v]> (fn_Xattrs n) |>)); [|by apply reached_set|by rewrite nodes_set, lookup_insert_eq].
    rewrite set_set. by destruct n.
Qed.

Lemma chown_at d p n e : reached d p → dk_nodes d !! p = Some n → fresh n e → ∃ n1,
  (if sy_uid =? 0 then os_edit "chown" d p (λ n, n <| fn_UID := e_UID e |> <| fn_GID := e_GID e |>) else (d, None)) = (set d p n1, None) ∧
  fresh n1 e ∧ (sy_uid = 0 → fn_UID n1 = e_UID e ∧ fn_GID n1 = e_GID e).
Proof.
  intros Hr Hn Hf. destruct (N.eqb_spec sy_uid 0) as [E|E].
  - rewrite (edit_at no_fault _ d p n) by done. eexists. split; [done|]. destruct Hf as [Ft Fm Fc Fl Fr Fx]. destruct n; cbn in *. done.
  - exists n. by rewrite (set_same d p n).
Qed.

Lemma perm_perm m : perm (perm m) = perm m.
Proof. unfold perm. by rewrite <- N.land_assoc. Qed.

Lemma applyMeta_at d p n e : reached d p → dk_nodes d !! p = Some n → fresh n e → (ftype (e_Mode e) ≠ S_IFLNK → ∃ xs, entryXattrs e = inr xs) →
  ∃ n', applyMeta d p e = (set d p n', None) ∧ looks_like n' e.
Proof.
  intros Hr Hn Hf Hx. unfold Apply.applyMeta.
  destruct (chown_at d p n e Hr Hn Hf) as (n1 & -> & Hf1 & Ho). clear Hf.
  assert (reached (set d p n1) p ∧ dk_nodes (set d p n1) !! p = Some n1) as [Hr1 Hn1] by (split; [by apply reached_set|by rewrite nodes_set, lookup_insert_eq]).
  pose proof (fr_type _ _ Hf1) as Ht1. destruct (N.eqb_spec (ftype (e_Mode e)) S_IFLNK) as [El|El].
  - rewrite (edit_at no_fault _ _ p n1) by done. rewrite set_set. eexists. split; [done|]. destruct Hf1 as [Ft Fm Fc Fl Fr Fx]. destruct n1; cbn in *.
    split; try done. unfold final_mode. rewrite El. cbn. by rewrite <- Fm.
  - destruct (Hx El) as [xs Ex]. rewrite (chmod_at no_fault _ p n1) by (try done; unfold is_link; rewrite Ht1; by apply N.eqb_neq).
    rewrite set_set, Ex. set (n2 := n1 <| fn_Mode := _ |>).
    rewrite (set_xattrs_at _ p n2); [|by apply reached_set|by rewrite nodes_set, lookup_insert_eq].
    rewrite set_set. rewrite (edit_at no_fault _ _ p (n2 <| fn_Xattrs := add_xattrs (fn_Xattrs n2) (map_to_list xs) |>));
      [|by apply reached_set|by rewrite nodes_set, lookup_insert_eq].
    rewrite set_set. eexists. split; [done|]. rewrite add_xattrs_map by apply NoDup_fst_map_to_list. rewrite list_to_map_to_list.
    unfold n2. rewrite Ht1. destruct Hf1 as [Ft Fm Fc Fl Fr Fx]. destruct n1; cbn in *. split; cbn; try done.
    + unfold final_mode. rewrite (proj2 (N.eqb_neq _ _) El). by rewrite perm_perm.
    + rewrite Ex. f_equal. subst. by rewrite (right_id_L ∅ (∪)).
Qed.

(** ** One change *)

(** Open to its owner: nothing has to be made writable. *)
Definition open (n : fnode) : Prop := is_dir n = true ∧ N.land (perm (fn_Mode n)) 0x1C0 = 0x1C0.

(** What [Apply] can make of an entry. *)
Record readable (e : Entry) : Prop := {
  rd_type : ftype (e_Mode e) ∈ [S_IFDIR; S_IFREG; S_IFLNK; S_IFIFO; S_IFCHR; S_IFBLK];
  rd_content : ftype (e_Mode e) = S_IFREG → ∃ ck, ParseKey (e_ContentKey e) = inr ck ∧ WriteContent ck = None;
  rd_xattrs : ftype (e_Mode e) ≠ S_IFLNK → ∃ xs, entryXattrs e = inr xs;
}.

(** The directory with one more node. *)
Definition grown d (p : fpath) (n : fnode) : gmap fpath fnode := <[p := n]> (alter (λ m, m <| fn_Mtime := sy_now |>) (dir_of p) (dk_nodes d)).

Lemma put_grown d p n m : p ≠ [] → dk_nodes d !! dir_of p = Some m → dk_nodes (put_node d p n) = grown d p n.
Proof.
  intros Hp Hm. pose proof (dir_ne p Hp) as Hne. unfold put_node, touch, grown. destruct d as [nodes f]. unfold set_field at 1. cbn in *.
  rewrite lookup_insert_ne, Hm by done. cbn. rewrite insert_insert_ne by done. f_equal. symmetry. apply map_eq. intros q.
  destruct (decide (q = dir_of p)) as [->|Hq]; [by rewrite lookup_alter_eq, lookup_insert_eq, Hm|]. by rewrite lookup_alter_ne, lookup_insert_ne by done.
Qed.

Lemma set_grown d p n n' m : p ≠ [] → dk_nodes d !! dir_of p = Some m → dk_nodes (set (put_node d p n) p n') = grown d p n'.
Proof. intros Hp Hm. rewrite nodes_set, (put_grown d p n m) by done. unfold grown. by rewrite insert_insert_eq. Qed.

Lemma is_dir_touched n : is_dir (n <| fn_Mtime := sy_now |>) = is_dir n.
Proof. by destruct n. Qed.

Lemma open_touched n : open n → open (n <| fn_Mtime := sy_now |>).
Proof. by destruct n. Qed.

Lemma grown_eq d p n : grown d p n !! p = Some n.
Proof. apply lookup_insert_eq. Qed.

Lemma grown_dir d p n m : p ≠ [] → dk_nodes d !! dir_of p = Some m → grown d p n !! dir_of p = Some (m <| fn_Mtime := sy_now |>).
Proof. intros Hp Hm. unfold grown. rewrite lookup_insert_ne by (intros E; by apply (dir_ne p Hp)). by rewrite lookup_alter_eq, Hm. Qed.

Lemma grown_ne d p n q : q ≠ p → q ≠ dir_of p → grown d p n !! q = dk_nodes d !! q.
Proof. intros H1 H2. unfold grown. by rewrite lookup_insert_ne, lookup_alter_ne by done. Qed.

Lemma grown_inv d p n q m : q ≠ p → grown d p n !! q = Some m → ∃ m0, dk_nodes d !! q = Some m0 ∧ is_dir m = is_dir m0.
Proof.
  intros Hq Hm. unfold grown in Hm. rewrite lookup_insert_ne in Hm by done. apply lookup_alter_Some in Hm as [(<- & m0 & Hm0 & ->)|[_ Hm]].
  - exists m0. by rewrite is_dir_touched.
  - by exists m.
Qed.

Lemma grown_dirs d p n q : q ≠ p → dir_at d q → ∃ m, grown d p n !! q = Some m ∧ is_dir m = true.
Proof.
  intros Hq (m & Hm & Hd). unfold grown. rewrite lookup_insert_ne by done. destruct (decide (q = dir_of p)) as [->|Hne].
  - rewrite lookup_alter_eq, Hm. eexists. split; [done|]. by rewrite is_dir_touched.
  - rewrite lookup_alter_ne by done. by exists m.
Qed.

Lemma rooted_grown d d' p n : rooted d → p ≠ [] → dk_nodes d !! p = None → dir_at d (dir_of p) → dk_nodes d' = grown d p n → rooted d'.
Proof.
  intros Hr Hp Hn Hd E q m Hm Hq. rewrite E in *. destruct (decide (q = p)) as [->|Hne].
  - apply grown_dirs; [by apply dir_ne|done].
  - apply grown_inv in Hm as (m0 & Hm0 & _); [|done]. destruct (Hr q m0 Hm0 Hq) as (k & Hk & Hdk). apply grown_dirs; [|by exists k].
    intros E'. rewrite E' in Hk. by rewrite Hn in Hk.
Qed.

Lemma create_at op d p n : reached d p → dk_nodes d !! p = None → os_create op d p n = (put_node d p n, None).
Proof. intros Hr Hn. unfold os_create. rewrite no_fault. by rewrite Hr, Hn. Qed.

Lemma replace_at op d p n : reached d p → dk_nodes d !! p = None → replace_node op d p n = (put_node d p n, None).
Proof. intros Hr Hn. unfold replace_node, os_remove. rewrite no_fault, (lstat_none no_fault d p) by done. cbn. by rewrite create_at. Qed.

Lemma ldiff_perm m u : N.ldiff (perm m) u = perm (N.ldiff m u).
Proof. apply N.bits_inj. intros i. unfold perm. rewrite N.ldiff_spec, !N.land_spec, N.ldiff_spec. by destruct (N.testbit m i), (N.testbit u i), (N.testbit 4095 i). Qed.

Lemma ftype_masked m m' : ftype (N.lor (ftype m) (N.ldiff (perm m') sy_umask)) = ftype m.
Proof. rewrite ldiff_perm. apply ftype_set. Qed.

Lemma own_mode : N.ldiff 0x1C0 sy_umask = 0x1C0.
Proof.
  apply N.bits_inj. intros i. rewrite N.ldiff_spec. pose proof (f_equal (λ x, N.testbit x i) own) as Hb. cbn beta in Hb. rewrite N.land_spec, N.bits_0 in Hb.
  by destruct (N.testbit 448 i), (N.testbit sy_umask i).
Qed.

(** The fields of [fresh] that a type settles by itself. *)
Local Ltac solve_fresh := split; match goal with Ht : ftype _ = _ |- _ => rewrite ?Ht end; try done; try (by intros [|]).

Lemma make_at d p c e : reached d p → dk_nodes d !! p = None → readable e → contentChange c = true → ∃ n,
  make_node ParseKey WriteContent d p c e = (put_node d p n, inr (Some (negb (ftype (e_Mode e) =? S_IFDIR)))) ∧ fresh n e ∧
  (ftype (e_Mode e) = S_IFDIR → open n).
Proof.
  intros Hr Hn [Ht Hc _] Hcc. unfold make_node. rewrite Hcc.
  repeat (apply elem_of_cons in Ht as [Ht|Ht]; [rewrite Ht; cbn [N.eqb Pos.eqb orb S_IFDIR S_IFREG S_IFLNK S_IFIFO S_IFCHR S_IFBLK]|]); [..|by apply elem_of_nil in Ht].
  - unfold os_mkdir. rewrite no_fault. rewrite Hr, Hn. rewrite own_mode. eexists. split; [done|]. split; [|done]. solve_fresh.
  - unfold writeRegular. destruct (Hc Ht) as (ck & Hk & Hw). rewrite Hk, Hw, no_fault, Hr. eexists. split; [done|]. split; [|done]. solve_fresh.
  - rewrite replace_at by done. eexists. split; [done|]. split; [|done]. solve_fresh.
  - rewrite replace_at by done. eexists. split; [done|]. split; [|done]. solve_fresh. apply (ftype_masked S_IFIFO).
  - rewrite replace_at by done. eexists. split; [done|]. split; [|done]. solve_fresh. apply (ftype_masked S_IFCHR).
  - rewrite replace_at by done. eexists. split; [done|]. split; [|done]. solve_fresh. apply (ftype_masked S_IFBLK).
Qed.

Lemma reject_none d p : rooted d → p ≠ [] → dir_at d (dir_of p) → rejectSymlinkComponents d p = None.
Proof.
  intros Hr Hp Hd. unfold rejectSymlinkComponents. assert (∀ k, (k ≤ pred (length p))%nat → reject_from d k p = None) as Hk; [|by apply Hk].
  induction k as [|k IH]; intros Hk; [done|]. cbn [reject_from]. destruct (rooted_above d (take (S k) p) (dir_of p) Hr Hd) as (n & Hn & Hdn).
  { unfold dir_of. replace (take (S k) p) with (take (S k) (take (pred (length p)) p)) by (rewrite take_take; f_equal; lia). apply prefix_take. }
  rewrite (lstat_at no_fault d _ n) by (try done; by apply (rooted_reached d _ n)). unfold is_link. pose proof Hdn as Hdn'. unfold is_dir in Hdn. apply N.eqb_eq in Hdn. rewrite Hdn, Hdn'.
  cbn. apply IH. lia.
Qed.

Lemma mkdirAll_there d p : rooted d → dir_at d p → os_mkdirAll d p = (d, None).
Proof.
  intros Hr Hd. unfold os_mkdirAll. assert (∀ rest pre, pre ++ rest = p → mkdirAll_from d pre rest = (d, None)) as Hk; [|by apply Hk].
  induction rest as [|name rest IH]; intros pre E; [done|]. cbn [mkdirAll_from].
  destruct (rooted_above d (pre ++ [name]) p Hr Hd) as (n & -> & ->); [exists rest; by rewrite <- app_assoc|]. apply IH. by rewrite <- app_assoc.
Qed.

Lemma writable_open d p n : reached d p → dk_nodes d !! p = Some n → open n → writable (d, ∅) p = (d, ∅, None).
Proof. intros Hr Hn [Hd Ho]. unfold writable. by rewrite lookup_empty, (lstat_at no_fault d p n), Hd, Ho by done. Qed.

(** ** The changes up to here *)

Definition is_tree (e : Entry) : bool := ftype (e_Mode e) =? S_IFDIR.

Definition made d (c : Change) : Prop := ∃ e n, New c = Some e ∧ dk_nodes d !! parts (Path c) = Some n ∧
  if is_tree e then fresh n e ∧ open n else looks_like n e.

(** The directory holds the changes [ps] and nothing else; the metadata of the
    directories is still to come. *)
Record built d (ps : list Change) : Prop := {
  bl_rooted : rooted d;
  bl_root : ∃ n, dk_nodes d !! [] = Some n ∧ open n;
  bl_made : ∀ c, c ∈ ps → made d c;
  bl_only : ∀ p n, dk_nodes d !! p = Some n → p ≠ [] → ∃ c, c ∈ ps ∧ parts (Path c) = p;
}.

Definition adds (c : Change) (e : Entry) : Prop := c_Kind c = Added ∧ New c = Some e ∧ readable e.

(** The directory of [c] is the root or is among [ps]. *)
Definition parent_in (ps : list Change) (c : Change) : Prop := dir_of (parts (Path c)) = [] ∨
  ∃ c' e', c' ∈ ps ∧ New c' = Some e' ∧ is_tree e' = true ∧ parts (Path c') = dir_of (parts (Path c)).

Lemma parent_open d ps c : built d ps → parent_in ps c → ∃ n, dk_nodes d !! dir_of (parts (Path c)) = Some n ∧ open n.
Proof.
  intros B [->|(c' & e' & Hc' & He' & Ht & E)]; [apply (bl_root _ _ B)|]. destruct (bl_made _ _ B c' Hc') as (e & n & He & Hn & Hm).
  simplify_eq. rewrite Ht in Hm. rewrite <- E. exists n. by split; [|apply Hm].
Qed.

Lemma fresh_touched n e : fresh n e → fresh (n <| fn_Mtime := sy_now |>) e.
Proof. intros [Ft Fm Fc Fl Fr Fx]. by destruct n. Qed.

Lemma looks_like_type n e : looks_like n e → is_dir n = is_tree e.
Proof. intros Hl. unfold is_dir, is_tree. by rewrite (ll_mode _ _ Hl), ftype_final. Qed.

Lemma made_grown d d' p n m c : p ≠ [] → parts (Path c) ≠ p → dk_nodes d !! dir_of p = Some m → is_dir m = true → dk_nodes d' = grown d p n → made d c → made d' c.
Proof.
  intros Hp Hc Hm Hd E (e & k & He & Hk & Hl). destruct (decide (parts (Path c) = dir_of p)) as [Ep|Ep].
  - rewrite Ep in Hk. simplify_eq. exists e, (m <| fn_Mtime := sy_now |>). rewrite E, Ep, (grown_dir d p n m) by done. split_and!; [done|done|].
    destruct (is_tree e) eqn:Et; [|apply looks_like_type in Hl; congruence]. destruct Hl. split; [by apply fresh_touched|by apply open_touched].
  - exists e, k. rewrite E, grown_ne by done. done.
Qed.

Lemma built_grown d d' ps c e n : built d ps → parent_in ps c → New c = Some e → dk_nodes d !! parts (Path c) = None →
  dk_nodes d' = grown d (parts (Path c)) n → (if is_tree e then fresh n e ∧ open n else looks_like n e) → built d' (ps ++ [c]).
Proof.
  intros B Hp He Hn E Hm. pose proof (parts_ne (Path c)) as Hne. destruct (parent_open d ps c B Hp) as (m & Hmm & Hom). split.
  - eapply rooted_grown; [apply (bl_rooted _ _ B)|done|done|exists m; by destruct Hom|done].
  - destruct (bl_root _ _ B) as (r & Hr & Hor). rewrite E. destruct (decide (dir_of (parts (Path c)) = [])) as [Ed|Ed].
    + exists (m <| fn_Mtime := sy_now |>). rewrite <- Ed at 1. rewrite (grown_dir d _ n m) by done. by split; [|apply open_touched].
    + exists r. by rewrite grown_ne by done.
  - intros c' [Hc'|Hc']%elem_of_app.
    + destruct (bl_made _ _ B c' Hc') as (e' & k & He' & Hk & Hl). eapply made_grown; [done| |done|apply Hom|done|by exists e', k]. intros E'. rewrite E' in Hk. congruence.
    + apply list_elem_of_singleton in Hc' as ->. exists e, n. rewrite E, grown_eq. done.
  - intros p k Hk Hpp. rewrite E in Hk. destruct (decide (p = parts (Path c))) as [->|Hd]; [exists c; set_solver|].
    apply grown_inv in Hk as (k0 & Hk0 & _); [|done]. destruct (bl_only _ _ B p k0 Hk0 Hpp) as (c' & Hc' & Ec). exists c'. set_solver.
Qed.

Lemma rest_step_built d ps c e : built d ps → adds c e → parent_in ps c → (∀ c', c' ∈ ps → Path c' ≠ Path c) →
  ∃ d', rest_step (d, ∅) c = (d', ∅, inr (is_tree e)) ∧ built d' (ps ++ [c]).
Proof.
  intros B (Hk & He & Hrd) Hp Hnew. pose proof (parts_ne (Path c)) as Hne. pose proof (bl_rooted _ _ B) as Hrt.
  destruct (parent_open d ps c B Hp) as (m & Hm & Hom). assert (dir_at d (dir_of (parts (Path c)))) as Hda by (exists m; by destruct Hom).
  assert (dk_nodes d !! parts (Path c) = None) as Hnone.
  { apply eq_None_not_Some. intros [n Hn]. destruct (bl_only _ _ B _ n Hn Hne) as (c' & Hc' & Ec). apply (Hnew c' Hc'). rewrite <- (join_parts (Path c')), Ec. apply join_parts. }
  assert (reached d (parts (Path c))) as Hreach by (by apply rooted_walk).
  unfold Apply.rest_step. rewrite reject_none, He, mkdirAll_there by done. rewrite (writable_open d _ m); [|by apply (rooted_reached d _ m)|done|done].
  unfold clearTarget. rewrite (lstat_none no_fault d) by done. destruct (make_at d (parts (Path c)) c e Hreach Hnone Hrd) as (n0 & -> & Hf & Ho).
  { unfold contentChange. by rewrite Hk. }
  change (ftype (e_Mode e) =? S_IFDIR) with (is_tree e). pose proof (put_grown d _ n0 m Hne Hm) as Hput. destruct (is_tree e) eqn:Et; cbn [negb].
  - eexists. split; [done|]. eapply built_grown; [done..|]. rewrite Et. split; [done|]. apply Ho. by apply N.eqb_eq.
  - destruct (applyMeta_at (put_node d (parts (Path c)) n0) (parts (Path c)) n0 e) as (n1 & -> & Hl); [| |done|apply (rd_xattrs _ Hrd)|].
    + eapply rooted_walk; [by eapply rooted_grown|done|]. unfold dir_at. rewrite Hput. apply grown_dirs; [by apply dir_ne|done].
    + by rewrite Hput, grown_eq.
    + eexists. split; [done|]. eapply built_grown; [done..|by apply (set_grown _ _ _ _ m)|by rewrite Et].
Qed.

(** ** All of them *)

Definition new_tree (c : Change) : Prop := (is_tree <$> New c) = Some true.

Lemma rest_steps_built cs : ∀ d ps dirs, built d ps → (∀ c, c ∈ cs → ∃ e, adds c e) → (∀ pre c post, cs = pre ++ c :: post → parent_in (ps ++ pre) c) →
  NoDup (Path <$> ps ++ cs) → ∃ d', rest_steps ParseKey WriteContent DecodeXattrs get setxattr (d, ∅) dirs cs = (d', ∅, inr (dirs ++ filter new_tree cs)) ∧ built d' (ps ++ cs).
Proof.
  induction cs as [|c cs IH]; intros d ps dirs B Ha Hp Hnd; cbn [rest_steps].
  - exists d. by rewrite !app_nil_r.
  - destruct (Ha c) as [e He]; [by left|]. destruct (rest_step_built d ps c e B He) as (d1 & -> & B1).
    + pose proof (Hp [] c cs eq_refl) as H1. by rewrite app_nil_r in H1.
    + intros c' Hc' E. rewrite fmap_app in Hnd. apply NoDup_app in Hnd as (_ & Hnd & _). apply (Hnd (Path c')); [by apply list_elem_of_fmap_2|]. rewrite E. by left.
    + destruct (IH d1 (ps ++ [c]) (if is_tree e then dirs ++ [c] else dirs) B1) as (d' & E & B').
      * intros c' Hc'. apply Ha. by right.
      * intros pre c' post ->. rewrite <- app_assoc. by apply (Hp (c :: pre) c' post).
      * by rewrite <- app_assoc.
      * exists d'. rewrite <- app_assoc in B'. split; [|done]. rewrite E. do 2 f_equal. assert (new_tree c ↔ is_tree e = true) as Ht.
        { destruct He as (_ & He & _). unfold new_tree. rewrite He. cbn. split; congruence. }
        rewrite filter_cons. destruct (is_tree e); case_decide; [by rewrite <- app_assoc|tauto|exfalso; intuition congruence|done].
Qed.

Lemma rooted_set d p n n' : rooted d → dk_nodes d !! p = Some n → is_dir n' = is_dir n → rooted (set d p n').
Proof.
  intros Hr Hn Hd q m Hm Hq. rewrite nodes_set in *. assert (∃ m0, dk_nodes d !! q = Some m0) as [m0 Hm0].
  { destruct (decide (q = p)) as [->|Hne]; [by exists n|]. rewrite lookup_insert_ne in Hm by done. by exists m. }
  destruct (Hr q m0 Hm0 Hq) as (k & Hk & Hdk). destruct (decide (dir_of q = p)) as [E|E].
  - rewrite E in *. exists n'. rewrite lookup_insert_eq. split; [done|]. congruence.
  - exists k. by rewrite lookup_insert_ne.
Qed.

Lemma fresh_type n e : fresh n e → is_dir n = is_tree e.
Proof. intros Hf. unfold is_dir, is_tree. by rewrite (fr_type _ _ Hf). Qed.

(** A change of a directory whose metadata is still to come, and one that is finished. *)
Definition pending d (c : Change) : Prop := ∃ e n, adds c e ∧ dk_nodes d !! parts (Path c) = Some n ∧ fresh n e.
Definition finished d (c : Change) : Prop := ∃ e n, New c = Some e ∧ dk_nodes d !! parts (Path c) = Some n ∧ looks_like n e.

Lemma parts_inj p q : parts p = parts q → p = q.
Proof. intros E. by rewrite <- (join_parts p), E, join_parts. Qed.

Lemma fmap_NoDup_inj {A B} (f : A → B) l x y : NoDup (f <$> l) → x ∈ l → y ∈ l → f x = f y → x = y.
Proof.
  intros Hn [i Hi]%list_elem_of_lookup [j Hj]%list_elem_of_lookup E. assert (i = j) as ->; [|congruence].
  eapply NoDup_lookup; [exact Hn| |]; rewrite list_lookup_fmap; [by rewrite Hi|by rewrite Hj; cbn; rewrite E].
Qed.

Lemma NoDup_fmap_filter {A B} (f : A → B) (P : A → Prop) `{!∀ x, Decision (P x)} l : NoDup (f <$> l) → NoDup (f <$> filter P l).
Proof.
  induction l as [|x l IH]; intros Hn; [done|]. apply NoDup_cons in Hn as [Hx Hn]. fold (f <$> l) in *. rewrite filter_cons. case_decide; [|by apply IH].
  apply NoDup_cons. split; [|by apply IH]. intros (y & E & Hy)%list_elem_of_fmap. apply Hx. rewrite E. apply list_elem_of_fmap_2. by apply list_elem_of_filter in Hy as [_ ?].
Qed.

Lemma dirs_meta_finished cs : ∀ d, rooted d → (∀ c, c ∈ cs → pending d c) → NoDup (Path <$> cs) →
  ∃ d', dirs_meta ParseKey DecodeXattrs get setxattr d cs = (d', None) ∧ (∀ c, c ∈ cs → finished d' c) ∧
        ∀ q, (∀ c, c ∈ cs → parts (Path c) ≠ q) → dk_nodes d' !! q = dk_nodes d !! q.
Proof.
  induction cs as [|c cs IH]; intros d Hr Hp Hnd; cbn [dirs_meta].
  { exists d. split_and!; [done|by intros c ?%elem_of_nil|done]. }
  destruct (Hp c) as (e & n & (Hk & He & Hrd) & Hn & Hf); [by left|]. apply NoDup_cons in Hnd as [Hc Hnd]. fold (Path <$> cs) in *.
  assert (∀ c', c' ∈ cs → parts (Path c') ≠ parts (Path c)) as Hother. { intros c' Hc' E. apply Hc. apply parts_inj in E as <-. by apply list_elem_of_fmap_2. }
  rewrite He. destruct (applyMeta_at d (parts (Path c)) n e) as (n' & -> & Hl); [by apply (rooted_reached d _ n)|done|done|apply (rd_xattrs _ Hrd)|].
  destruct (IH (set d (parts (Path c)) n')) as (d' & E & Hfin & Hsame).
  - eapply rooted_set; [done|done|]. by rewrite (looks_like_type _ _ Hl), (fresh_type _ _ Hf).
  - intros c' Hc'. destruct (Hp c') as (e' & m & Ha & Hm & Hfm); [by right|]. exists e', m. rewrite nodes_set, lookup_insert_ne; [done|]. intros E. by apply (Hother c').
  - done.
  - exists d'. split_and!; [done| |].
    + intros c' [->|Hc']%elem_of_cons; [|by apply Hfin]. exists e, n'. rewrite Hsame by done. by rewrite nodes_set, lookup_insert_eq.
    + intros q Hq. rewrite Hsame by (intros c' Hc'; apply Hq; by right). rewrite nodes_set, lookup_insert_ne; [done|]. apply Hq. by left.
Qed.

Lemma path_asc_le a b : nlt path_asc a b ↔ cmp_le bytes_compare (Path a) (Path b).
Proof. unfold nlt, path_asc. rewrite bool_decide_eq_false. apply (cmp_nlt_le bytes_compare). Qed.

Lemma path_asc_strict : strict_on path_asc (λ _, True).
Proof.
  split.
  - intros x y _ _ Hl. apply path_asc_le. apply (cmp_lt_le bytes_compare). unfold path_asc in Hl. by apply bool_decide_eq_true in Hl.
  - intros x y z _ _ _. rewrite !path_asc_le. apply (cmp_le_transitive bytes_compare).
Qed.

(** Sorted by their paths, the changes of a tree come after those of their directories. *)
Lemma parents_first changes pre c post : (∀ c, c ∈ changes → parent_in changes c) → sort_by path_asc changes = pre ++ c :: post → parent_in pre c.
Proof.
  intros Hcl E. destruct (Hcl c) as [Hr|(c' & e' & Hc' & He' & Ht & Ed)]; [rewrite <- (elem_of_sort_by path_asc), E; set_solver|by left|].
  right. exists c', e'. split_and!; try done. rewrite <- (elem_of_sort_by path_asc), E in Hc'. apply elem_of_app in Hc' as [Hc'|Hc']; [done|].
  pose proof (sort_by_sorted path_asc _ changes path_asc_strict (proj2 (Forall_forall _ _) (λ _ _, I))) as Hs. rewrite E in Hs.
  apply StronglySorted_app in Hs as (_ & _ & Hs). apply StronglySorted_inv in Hs as [_ Hs]. rewrite Forall_forall in Hs.
  pose proof (dir_before _ _ Ed) as Hlt. exfalso. apply elem_of_cons in Hc' as [->|Hc']; [by apply (cmp_lt_irrefl bytes_compare) in Hlt|].
  specialize (Hs c' Hc'). apply path_asc_le in Hs. by apply (cmp_lt_not_le bytes_compare) in Hlt.
Qed.

(** Every entry of a tree is added once and below its directory, and can be read. *)
Record whole_tree (changes : list Change) : Prop := {
  wt_adds : ∀ c, c ∈ changes → ∃ e, adds c e;
  wt_paths : ∀ c, c ∈ changes → checkPath (Path c) = None;
  wt_distinct : NoDup (Path <$> changes);
  wt_closed : ∀ c, c ∈ changes → parent_in changes c;
}.

(** The directory is the tree: every entry is there as it says, and nothing else. *)
Definition checked_out d (changes : list Change) : Prop :=
  (∀ c, c ∈ changes → finished d c) ∧ ∀ p n, dk_nodes d !! p = Some n → p ≠ [] → ∃ c, c ∈ changes ∧ parts (Path c) = p.

Lemma built_empty d root : dk_nodes d = {[ [] := root ]} → open root → built d [].
Proof.
  intros E Ho. split.
  - intros p n Hn Hp. rewrite E in Hn. by apply lookup_singleton_Some in Hn as [<- _].
  - exists root. by rewrite E, lookup_singleton_eq.
  - by intros c ?%elem_of_nil.
  - intros p n Hn Hp. rewrite E in Hn. by apply lookup_singleton_Some in Hn as [<- _].
Qed.

(** Metadata for the directories completes what was built. *)
Lemma finish_tree d cs dirs : built d cs → (∀ c, c ∈ cs → ∃ e, adds c e) → dirs ≡ₚ filter new_tree cs → NoDup (Path <$> cs) →
  ∃ d', dirs_meta ParseKey DecodeXattrs get setxattr d dirs = (d', None) ∧ checked_out d' cs.
Proof.
  intros B Ha Hd Hnd. assert (∀ c, c ∈ dirs ↔ new_tree c ∧ c ∈ cs) as Hdirs by (intros c; by rewrite Hd, list_elem_of_filter).
  destruct (dirs_meta_finished dirs d) as (d' & E & Hfin & Hsame); [apply (bl_rooted _ _ B)| | |].
  - intros c [Ht Hin]%Hdirs. destruct (Ha c Hin) as [e Hae]. destruct (bl_made _ _ B c Hin) as (e' & n & He' & Hn' & Hm).
    exists e, n. pose proof Hae as (_ & He & _). unfold new_tree in Ht. rewrite He in He'. simplify_eq. rewrite He in Ht. cbn in Ht. simplify_eq. rewrite Ht in Hm. by destruct Hm.
  - rewrite Hd. by apply NoDup_fmap_filter.
  - exists d'. split; [done|]. split.
    + intros c Hin. destruct (decide (c ∈ dirs)) as [|Hno]; [by apply Hfin|]. destruct (bl_made _ _ B c Hin) as (e & n & He & Hn & Hm). exists e, n. rewrite Hsame.
      * destruct (is_tree e) eqn:Et; [|done]. destruct Hno. apply Hdirs. split; [|done]. unfold new_tree. rewrite He. cbn. by rewrite Et.
      * intros c' Hc' E'. apply Hno. apply parts_inj in E'. replace c with c'; [done|]. apply Hdirs in Hc' as [_ Hc']. by eapply fmap_NoDup_inj.
    + intros p n Hn Hp. destruct (decide (Exists (λ c, parts (Path c) = p) dirs)) as [(c & Hc & Ec)%Exists_exists|Hno].
      * exists c. by apply Hdirs in Hc as [_ ?].
      * apply (bl_only _ _ B p n); [|done]. rewrite <- Hsame; [done|]. intros c Hc Ec. apply Hno, Exists_exists. by exists c.
Qed.

Lemma only_added changes : (∀ c, c ∈ changes → c_Kind c = Added) → filter (λ c, c_Kind c = Deleted) changes = [] ∧ filter (λ c, c_Kind c ≠ Deleted) changes = changes.
Proof.
  induction changes as [|c cs IH]; intros Hk; [done|]. destruct IH as [E1 E2]; [intros c' Hc'; apply Hk; by right|]. rewrite !filter_cons.
  pose proof (Hk c ltac:(by left)) as E. rewrite decide_False, decide_True by congruence. by rewrite E1, E2.
Qed.

(** Applying the entries of a whole tree to an empty directory makes the directory that
    tree. *)
Lemma Apply_whole_tree d root changes : dk_nodes d = {[ [] := root ]} → open root → whole_tree changes →
  ∃ d', Apply ParseKey WriteContent DecodeXattrs get setxattr d changes = (d', None) ∧ checked_out d' changes.
Proof.
  intros Hd Ho [Ha Hp Hn Hc]. unfold Apply.
  assert (omap (λ c, checkPath (Path c)) changes = []) as ->. { clear -Hp. induction changes as [|c cs IH]; [done|]. cbn. rewrite Hp by by left. apply IH. set_solver. }
  destruct (only_added changes) as [-> ->]; [intros c Hin; destruct (Ha c Hin) as (e & Hk & _); exact Hk|].
  cbn [sort_by del_steps]. pose proof (sort_by_perm path_asc changes) as Hperm.
  destruct (rest_steps_built (sort_by path_asc changes) d [] [] (built_empty d root Hd Ho)) as (d1 & -> & B).
  { intros c. rewrite elem_of_sort_by. apply Ha. } { intros pre c post E. by eapply parents_first. } { cbn [app]. by rewrite Hperm. }
  cbn [map_to_list restore_modes app]. rewrite map_to_list_empty. cbn [restore_modes]. set (dirs := sort_by path_desc _).
  assert (∀ c, c ∈ dirs ↔ new_tree c ∧ c ∈ changes) as Hdirs by (intros c; unfold dirs; by rewrite elem_of_sort_by, list_elem_of_filter, elem_of_sort_by).
  destruct (finish_tree d1 (sort_by path_asc changes) dirs B) as (d' & -> & Hf & Hall).
  { intros c. rewrite elem_of_sort_by. apply Ha. } { unfold dirs. by rewrite sort_by_perm. } { by rewrite Hperm. }
  exists d'. split; [done|]. split.
  - intros c Hin. apply Hf. by rewrite elem_of_sort_by.
  - intros p n Hn' Hne. destruct (Hall p n Hn' Hne) as (c & Hin & Ec). exists c. by rewrite elem_of_sort_by in Hin.
Qed.

(** ** A tree *)

Section tree.
Context {Key : Type} `{EqDecision Key} (Parse : bytes → string + Key) (CollectEntries : Key → string + list Entry).
Notation resolve := (Worktree.resolve Parse CollectEntries).

Lemma resolve_dir es ns n e : resolve es (ns ++ [n]) = Some e → ns = [] ∨ ∃ e', resolve es ns = Some e' ∧ is_tree e' = true.
Proof.
  revert es. induction ns as [|m ns IH]; intros es He; [by left|right]. destruct ns as [|m' ns].
  - cbn in He |- *. destruct (find_name m es) as [e'|]; [|done]. exists e'. split; [done|]. unfold kids, IsDir_ in He. unfold is_tree. by destruct (_ =? _).
  - cbn [app Worktree.resolve] in He |- *. destruct (IH (kids Parse CollectEntries (find_name m es)) He) as [|(e' & E & Ht)]; [done|]. by exists e'.
Qed.

(** Every entry of the tree has a proper name and can be read. *)
Definition good_tree (es : list Entry) : Prop := ∀ ns e, resolve es ns = Some e → Forall good_name ns ∧ readable e.

Definition added_at (es : list Entry) (ns : list bytes) : Change := MkChange (joined ns) Added None (resolve es ns).

Lemma all_added es cs : lists_changes Parse CollectEntries [] [] es cs → ∃ nss, cs = added_at es <$> nss ∧ NoDup nss ∧ ∀ ns, ns ∈ nss ↔ is_Some (resolve es ns).
Proof.
  intros (nss & F & S & C). pose proof (resolve_nil_l Parse CollectEntries) as Hnil.
  assert (∀ ns, side_change [] (resolve []) (resolve es) ns = (λ _, added_at es ns) <$> resolve es ns) as Hside.
  { intros ns. unfold side_change, added_at. rewrite Hnil. cbn. by destruct (resolve es ns). }
  exists nss. split_and!.
  - clear -F Hside. induction F as [|ns c nss cs Hc F IH]; [done|]. cbn. rewrite <- IH. f_equal. rewrite Hside in Hc. destruct (resolve es ns); cbn in Hc; congruence.
  - clear -S. induction S as [|ns nss S IH Hns]; [constructor|]. constructor; [|done]. intros Hin. rewrite Forall_forall in Hns. specialize (Hns ns Hin). clear -Hns.
    induction ns as [|a ns IH]; [done|]. destruct Hns as [Hl|[_ Hl]]; [by apply (cmp_lt_irrefl bytes_compare) in Hl|by apply IH].
  - intros ns. split.
    + intros [i Hi]%list_elem_of_lookup. destruct (Forall2_lookup_l _ _ _ _ _ F Hi) as (c & _ & Hc). rewrite Hside in Hc. by destruct (resolve es ns).
    + intros [e He]. apply C. rewrite Hside, He. by eexists.
Qed.

Lemma resolve_ne es ns : is_Some (resolve es ns) → ns ≠ [].
Proof. by intros [e He] ->. Qed.

Lemma whole_tree_of es nss : good_tree es → NoDup nss → (∀ ns, ns ∈ nss ↔ is_Some (resolve es ns)) → whole_tree (added_at es <$> nss).
Proof.
  intros Hg Hnd Hall. assert (∀ ns, ns ∈ nss → ns ≠ [] ∧ Forall good_name ns ∧ ∃ e, resolve es ns = Some e ∧ readable e) as Hns.
  { intros ns Hin%Hall. split; [by apply (resolve_ne es)|]. destruct Hin as [e He]. destruct (Hg ns e He). eauto. }
  split.
  - intros c (ns & -> & Hin)%list_elem_of_fmap. destruct (Hns ns Hin) as (_ & _ & e & He & Hr). by exists e.
  - intros c (ns & -> & Hin)%list_elem_of_fmap. destruct (Hns ns Hin) as (H1 & H2 & _). by apply checkPath_joined.
  - rewrite <- list_fmap_compose. apply NoDup_fmap_2_strong; [|done]. intros x y Hx Hy E. cbn in E. destruct (Hns x Hx) as (X1 & X2 & _), (Hns y Hy) as (Y1 & Y2 & _).
    by rewrite <- (parts_joined x), E, parts_joined.
  - intros c (ns & -> & Hin)%list_elem_of_fmap. destruct (Hns ns Hin) as (H1 & H2 & e & He & _). destruct (dir_snoc ns H1) as [n En]. rewrite En in He.
    unfold parent_in. cbn [Path added_at]. rewrite parts_joined by done. destruct (resolve_dir es _ _ _ He) as [Ed|(e' & He' & Ht)]; [by left|right].
    assert (dir_of ns ∈ nss) as Hd by (apply Hall; by eexists). destruct (Hns _ Hd) as (D1 & D2 & _). exists (added_at es (dir_of ns)), e'. split_and!; [by apply list_elem_of_fmap_2|done|done|].
    by apply parts_joined.
Qed.

(** The directory is the tree with the entries [es]. *)
Definition is_checkout d (es : list Entry) : Prop :=
  (∀ ns e, resolve es ns = Some e → ∃ n, dk_nodes d !! ns = Some n ∧ looks_like n e) ∧
  ∀ ns n, dk_nodes d !! ns = Some n → ns ≠ [] → is_Some (resolve es ns).

(** Every directory below the entry, at most [n] deep, is there to be read. *)
Fixpoint present (n : nat) (e : Entry) : Prop :=
  IsDir_ e = true →
  match n with
  | O => False
  | S n => ∃ es, entries_at Parse CollectEntries (e_ContentKey e) = inr es ∧ Forall (present n) es
  end.

Lemma concatR_ok {A B} (f : A → res (list B)) l : (∀ x, x ∈ l → ∃ r, f x = ok r) → ∃ r, concatR f l = ok r.
Proof.
  induction l as [|x l IH]; intros Hf; [by eexists|]. cbn. destruct (Hf x) as [r ->]; [by left|]. cbn. destruct IH as [r' ->]; [intros y Hy; apply Hf; by right|]. by eexists.
Qed.

Lemma expand_ok n e : present n e → ∀ p kind, ∃ cs, expand Parse CollectEntries n p e kind = ok cs.
Proof.
  unfold expand. revert e. induction n as [|n IH]; intros e Hp p kind; cbn [expandChildren present] in *; (destruct (IsDir_ e); [|by eexists]); [by specialize (Hp eq_refl)|].
  destruct (Hp eq_refl) as (es & E & Hes). rewrite Forall_forall in Hes. cbn [negb]. rewrite E. cbn [bindR].
  match goal with |- context [concatR ?f es] => destruct (concatR_ok f es) as [r Er] end.
  - intros x Hx. apply (IH x (Hes x Hx)).
  - rewrite Er. by eexists.
Qed.

Lemma diff_from_empty n sub p es : Forall (present n) es → ∃ cs, diff_lists Parse CollectEntries n sub p [] es = ok cs.
Proof.
  induction 1 as [|e es He Hes IH]; [by eexists|]. rewrite diff_lists_eq. destruct (expand_ok n e He p Added) as [cs ->], IH as [cs' ->]. by eexists.
Qed.

(** C21 A clone checks its tree out: the changes from the empty tree to a tree are found,
    in as many levels of recursion as the tree has, and applied to an empty directory
    make the directory that tree.  When the names are proper, every entry can be read and
    nothing fails for other reasons, [Apply] succeeds; every file, directory, link, fifo
    and device of the tree, at any depth, is there with the mode, time, content, target,
    device number and attributes of its entry (the directories too, whose times the files
    made in them had changed), and nothing else is there. *)
Theorem clone_checks_out n a b es d root : (∀ k es, CollectEntries k = inr es → sorted_names es) →
  CollectEntries a = inr [] → CollectEntries b = inr es → Forall (present n) es → good_tree es →
  dk_nodes d = {[ [] := root ]} → open root →
  ∃ cs d', DiffTrees Parse CollectEntries (S n) a b = ok cs ∧ Apply ParseKey WriteContent DecodeXattrs get setxattr d cs = (d', None) ∧ is_checkout d' es.
Proof.
  intros Hs Ha Hb Hp Hg Hdk Ho. assert (∃ cs, DiffTrees Parse CollectEntries (S n) a b = ok cs) as [cs Hd].
  { unfold DiffTrees. case_decide; [by eexists|]. cbn [diffDirs]. rewrite Ha, Hb. cbn [bindR]. by apply diff_from_empty. }
  exists cs. pose proof (DiffTrees_lists Parse CollectEntries (S n) a b [] es cs Hs Ha Hb Hd) as Hl.
  destruct (all_added es cs Hl) as (nss & -> & Hnd & Hall). destruct (Apply_whole_tree d root (added_at es <$> nss) Hdk Ho) as (d' & E & Hf & Honly); [by apply whole_tree_of|].
  exists d'. split_and!; [done|done|]. split.
  - intros ns e He. destruct (Hg ns e He) as [Hn _]. destruct (Hf (added_at es ns)) as (e' & m & He' & Hl' & Hlk); [apply list_elem_of_fmap_2, Hall; by eexists|].
    cbn [Path New added_at] in *. rewrite parts_joined in Hl' by (done || apply (resolve_ne es); by eexists). simplify_eq. by exists m.
  - intros ns m Hn Hne. destruct (Honly ns m Hn Hne) as (c & (ns' & -> & Hin)%list_elem_of_fmap & Ep). cbn [Path added_at] in Ep. apply Hall in Hin as Hin'.
    pose proof Hin' as [e He]. destruct (Hg ns' e He) as [Hgn _]. rewrite parts_joined in Ep by (done || by apply (resolve_ne es)). by subst.
Qed.
End tree.
End checkout.

(** * An example *)

(** A directory [d] with a file [f] in it, and a link to the file. *)
Definition small_entries (k : bytes) : string + list Entry :=
  if decide (k = nm "root") then inr [ent (nm "d") (N.lor S_IFDIR 0x1ED) (nm "sub") []; ent (nm "l") (N.lor S_IFLNK 0x1FF) [] (nm "d/f")]
  else if decide (k = nm "sub") then inr [ent (nm "f") (N.lor S_IFREG 0x1A4) (nm "cf") []]
  else inr [].

#[local] Instance root_system : System := { sy_now := 7%Z; sy_uid := 0; sy_gid := 0; sy_umask := 0x12; sy_fault _ _ := None; sy_gone _ _ := false }.

Definition bare_disk : disk := MkDisk {[ [] := on_disk (N.lor S_IFDIR 0x1ED) [] ]} [].

Definition small_tree : list Entry := [ent (nm "d") (N.lor S_IFDIR 0x1ED) (nm "sub") []; ent (nm "l") (N.lor S_IFLNK 0x1FF) [] (nm "d/f")].

Definition small_file : Entry := ent (nm "f") (N.lor S_IFREG 0x1A4) (nm "cf") [].

Lemma small_kids a : kids inr small_entries (find_name a small_tree) = if decide (a = nm "d") then [small_file] else [].
Proof. unfold find_name, small_tree. cbn [find e_Name ent]. repeat case_bool_decide; subst; repeat case_decide; congruence || (vm_compute; reflexivity). Qed.

Lemma file_kids a : kids inr small_entries (find_name a [small_file]) = [].
Proof. unfold find_name, small_file. cbn [find e_Name ent]. case_bool_decide; vm_compute; reflexivity. Qed.

Lemma small_resolve ns e : Worktree.resolve inr small_entries small_tree ns = Some e →
  ns = [nm "d"] ∧ e = ent (nm "d") (N.lor S_IFDIR 0x1ED) (nm "sub") [] ∨ ns = [nm "l"] ∧ e = ent (nm "l") (N.lor S_IFLNK 0x1FF) [] (nm "d/f") ∨
  ns = [nm "d"; nm "f"] ∧ e = small_file.
Proof.
  destruct ns as [|a [|b [|c ns]]]; [done| | |].
  - cbn [resolve]. unfold find_name, small_tree. cbn [find e_Name ent]. repeat case_bool_decide; intros E; simplify_eq; auto.
  - rewrite resolve_cons, small_kids. case_decide; [|by rewrite resolve_nil_l]. cbn [resolve]. unfold find_name, small_file. cbn [find e_Name ent].
    case_bool_decide; intros E; simplify_eq; auto.
  - rewrite !resolve_cons, small_kids. case_decide; [by rewrite file_kids, resolve_nil_l|]. by rewrite resolve_nil_l.
Qed.

Lemma small_good : good_tree inr (λ _, None) (λ _, inr ∅) inr inr small_entries small_tree.
Proof.
  intros ns e [[-> ->]|[[-> ->]|[-> ->]]]%small_resolve.
  all: split; [apply (bool_decide_unpack _); vm_compute; exact I|]. all: split; [apply (bool_decide_unpack _); vm_compute; exact I|intros _; by eexists|intros _; by eexists].
Qed.

Lemma small_sorted k es : small_entries k = inr es → sorted_names es.
Proof. unfold small_entries. repeat case_decide; intros [= <-]; repeat constructor. Qed.

Lemma bare_open : open (on_disk (N.lor S_IFDIR 0x1ED) []).
Proof. by split. Qed.

Lemma clone_checks_out_witness : ∃ cs d', DiffTrees inr small_entries 3 (nm "nothing") (nm "root") = ok cs ∧
  Apply inr (λ _, None) (λ _, inr ∅) inr (λ _ _, None) bare_disk cs = (d', None) ∧ is_checkout inr (λ _, inr ∅) inr inr small_entries d' small_tree.
Proof.
  apply (clone_checks_out (H := root_system) inr (λ _, None) (λ _, inr ∅) inr (λ _ _, None) (λ _ _, eq_refl) (λ _ _, eq_refl) eq_refl inr small_entries 2 (nm "nothing") (nm "root") small_tree bare_disk (on_disk (N.lor S_IFDIR 0x1ED) [])).
  - exact small_sorted.
  - reflexivity.
  - reflexivity.
  - repeat constructor; intros Hd; try (discriminate Hd). exists [small_file]. split; [reflexivity|]. repeat constructor. intros Hf. discriminate Hf.
  - exact small_good.
  - reflexivity.
  - exact bare_open.
Defined.
