(* ===== verification/Client.v ===== *)
(** The client library (src/client): upload batches (batch.go), the order in
    which a key's owners are tried (rank.go), reading through branches
    (commit.go), and references (refs.go) with the node's reading of a write
    condition (condOf of src/node/refs.go).

    A request to any node of the cluster ([Cluster.anyNode]) is a parameter that
    transforms the state of the cluster. *)
From stdpp Require Import pretty.
From S2P Require Import Prelude Store Placement View Wire Ballot Proposer Catalog.

(** * Batches *)

Section batches.
Context (size : arr 32 → Z) (maxBytes maxKeys : Z).

(** The loop: [cur] with its size [bytes] is the batch being filled. *)
Fixpoint batches_loop (keys cur : list (arr 32)) (bytes : Z) : list (list (arr 32)) :=
  match keys with
  | [] => if (0 <? Z.of_nat (length cur))%Z then [cur] else []
  | k :: keys =>
      let n := size k in
      if ((0 <? Z.of_nat (length cur)) && ((maxBytes <? bytes + n) || (maxKeys <=? Z.of_nat (length cur))))%Z
      then cur :: batches_loop keys [k] n
      else batches_loop keys (cur ++ [k]) (bytes + n)
  end.

Definition batches (keys : list (arr 32)) : list (list (arr 32)) := batches_loop keys [] 0.

Definition batch_size (b : list (arr 32)) : Z := foldr (λ k acc, (size k + acc)%Z) 0%Z b.

(** A batch within its limits, or one record on its own. *)
Definition batch_ok (b : list (arr 32)) : Prop :=
  b ≠ [] ∧ (length b = 1%nat ∨ (batch_size b ≤ maxBytes ∧ Z.of_nat (length b) ≤ maxKeys)%Z).

Lemma batch_size_snoc b k : batch_size (b ++ [k]) = (batch_size b + size k)%Z.
Proof. induction b as [|x b IH]; simpl; [lia|]. rewrite IH. lia. Qed.

Lemma batches_loop_spec keys cur :
  (cur = [] ∨ batch_ok cur) →
  mjoin (batches_loop keys cur (batch_size cur)) = cur ++ keys ∧
  Forall batch_ok (batches_loop keys cur (batch_size cur)).
Proof.
  revert cur. induction keys as [|k keys IH]; intros cur Hcur; cbn [batches_loop].
  - destruct cur as [|x cur]; simpl; [by split|]. rewrite !app_nil_r. split; [done|].
    constructor; [|done]. by destruct Hcur.
  - assert (batch_size [k] = size k) as Hk by (simpl; lia).
    destruct (Z.ltb_spec 0 (Z.of_nat (length cur))) as [Hl|Hl]; simpl.
    + destruct Hcur as [->|Hcur]; [simpl in Hl; lia|].
      destruct (Z.ltb_spec maxBytes (batch_size cur + size k)) as [Hb|Hb]; simpl.
      2: destruct (Z.leb_spec maxKeys (Z.of_nat (length cur))) as [Hm|Hm].
      1, 2: rewrite <- Hk; destruct (IH [k]) as [E F]; [right; split; [done|by left]|];
            (split; [exact (f_equal (cur ++.) E)|by constructor]).
      rewrite <- batch_size_snoc. destruct (IH (cur ++ [k])) as [E F].
      { right. split; [by destruct cur|]. right. rewrite batch_size_snoc, length_app. simpl. lia. }
      split; [by rewrite E, <- app_assoc|done].
    + destruct cur; [|simpl in Hl; lia]. rewrite Z.add_0_l, <- Hk.
      destruct (IH [k]) as [E F]; [right; split; [done|by left]|]. done.
Qed.

(** Upload batches keep every key in order, none is empty, and each is within
    the byte and key limits unless it is one record that is over them alone. *)
Theorem batches_spec (keys : list (arr 32)) :
  mjoin (batches keys) = keys ∧ Forall batch_ok (batches keys).
Proof. apply (batches_loop_spec keys []). by left. Qed.
End batches.

(** * The order of owners *)

Record PathInfo := MkPathInfo { Direct : bool; RTT : Z }.

Definition rttClass (rtt : Z) : Z :=
  if (rtt <? 5 * ms)%Z then 0
  else if (rtt <? 25 * ms)%Z then 1
  else if (rtt <? 100 * ms)%Z then 2
  else 3.

Record scored := MkScored { sc_id : NodeID; sc_pen : Z; sc_relay : Z; sc_class : Z; sc_pos : nat }.

Definition scored_before (a b : scored) : bool :=
  if bool_decide (sc_pen a ≠ sc_pen b) then (sc_pen a <? sc_pen b)%Z
  else if bool_decide (sc_relay a ≠ sc_relay b) then (sc_relay a <? sc_relay b)%Z
  else if bool_decide (sc_class a ≠ sc_class b) then (sc_class a <? sc_class b)%Z
  else (sc_pos a <? sc_pos b)%nat.

Section rank.
Context (penalty : NodeID → Z) (path : NodeID → option PathInfo).

Definition score (pos : nat) (id : NodeID) : scored :=
  match path id with
  | Some p => MkScored id (penalty id) (if Direct p then 0 else 1) (rttClass (RTT p)) pos
  | None => MkScored id (penalty id) 0 0 pos
  end.

Definition rankOwners (ids : list NodeID) : list NodeID :=
  sc_id <$> sort_by scored_before (imap score ids).
End rank.

(** * Branches *)

(** [key.Key] and what is read of it and of a commit are amber-store/core's. *)
Section tree_of.
Context {Key : Type} (is_commit : Key → bool) (key_length : Key → N) (key_text : Key → string).
Context {Commit : Type} (decode : bytes → string + Commit) (footprint : N → Commit → string + N) (tree : Commit → Key).

Definition TreeOf (k : Key) (get : Key → string + bytes) : string + Key :=
  if negb (is_commit k) then inr k
  else match get k with
  | inl e => inl ("reading commit " +:+ key_text k +:+ ": " +:+ e)
  | inr data =>
      match decode data with
      | inl e => inl ("commit " +:+ key_text k +:+ ": " +:+ e)
      | inr c =>
          match footprint (N.of_nat (length data)) c with
          | inl e => inl ("commit " +:+ key_text k +:+ ": " +:+ e)
          | inr want =>
              if negb (key_length k =? want)%N then
                inl ("commit " +:+ key_text k +:+ ": length field " +:+ pretty (key_length k) +:+
                  " is not the commit's footprint " +:+ pretty want +:+ " (its own " +:+
                  pretty (N.of_nat (length data)) +:+
                  " bytes plus its trees); a commit keyed by an older rule has to be created again")
              else inr (tree c)
          end
      end
  end.
End tree_of.

(** * References *)

(** The client's condition has the fields of the catalog's. *)
Definition cond_apply (cond : Cond) (m : Msg) : Msg :=
  let m := m <| m_Force := Force cond |> in
  let m := if Versioned cond
           then m <| m_HasExpected := true |> <| m_ExpectedVersion := default [] (ExpectedVersion cond) |> else m in
  if Keyed cond then m <| m_HasExpected := true |> <| m_ExpectedOld := default [] (ExpectedOld cond) |> else m.

(** A slice read from the wire: an empty one was left out, so it is nil. *)
Definition from_wire (b : bytes) : option bytes := if bool_decide (b = []) then None else Some b.

(** The node's reading of it. *)
Definition condOf (m : Msg) : Cond :=
  let c := MkCond None false None false (m_Force m) in
  if m_HasExpected m then
    let ev := from_wire (m_ExpectedVersion m) in
    let eo := from_wire (m_ExpectedOld m) in
    let c :=
      if bool_decide (ev ≠ None) || (bool_decide (eo = None) && bool_decide (from_wire (m_Version m) = None))
      then MkCond ev true None false (m_Force m) else c in
    if bool_decide (eo ≠ None) then MkCond (ExpectedVersion c) false eo true (m_Force m) else c
  else c.

(** Client-side errors. *)
Inductive client_error :=
  | ErrUnknownRef
  | ErrMismatch (current record version : bytes) (hasCurrent : bool)
  | ErrIncomplete (sample : list (arr 32)) (shortfall : Z)
  | ErrWire (e : wire_error)
  | ErrText (s : string).

Definition refErr (err : wire_error) : client_error :=
  if IsCode err CodeUnknownRef then ErrUnknownRef else ErrWire err.

Definition unexpected (m : Msg) : client_error := ErrText ("client: unexpected reply " +:+ pretty (m_Type m)).

Section refs.
Context {E Reference : Type} (anyNode : E → Msg → E * (wire_error + Msg)) (ref_decode : bytes → string + Reference).

Record Ref := MkRef { ref_Name : string; ref_Record : bytes; ref_Version : bytes; ref_Ref : Reference }.

Definition RefGet (e : E) (name : string) : E * (client_error + Ref) :=
  let '(e, r) := anyNode e (msg0 <| m_Type := TRefGet |> <| m_Name := name |>) in
  (e, match r with
  | inl err => inl (refErr err)
  | inr resp =>
      if negb (m_Type resp =? TRef)%Z then inl (unexpected resp)
      else match ref_decode (m_Record resp) with
      | inl s => inl (ErrText s)
      | inr d => inr (MkRef name (m_Record resp) (m_Version resp) d)
      end
  end).

Definition mismatch_of (resp : Msg) : client_error :=
  ErrMismatch (m_Current resp) (m_Record resp) (m_Version resp) (m_HasCurrent resp).

Definition RefPut (e : E) (record : bytes) (cond : Cond) : E * (client_error + bytes) :=
  let '(e, r) := anyNode e (cond_apply cond (msg0 <| m_Type := TRefPut |> <| m_Record := record |>)) in
  (e, match r with
  | inl err => inl (refErr err)
  | inr resp =>
      if (m_Type resp =? TOK)%Z then inr (m_Version resp)
      else if (m_Type resp =? TCASMismatch)%Z then inl (mismatch_of resp)
      else if (m_Type resp =? TIncomplete)%Z then
        inl (ErrIncomplete (default [] (Keys32 (m_Keys resp))) (m_Shortfall resp))
      else inl (unexpected resp)
  end).

Definition RefDelete (e : E) (name : string) (cond : Cond) : E * option client_error :=
  let '(e, r) := anyNode e (cond_apply cond (msg0 <| m_Type := TRefDelete |> <| m_Name := name |>)) in
  (e, match r with
  | inl err => Some (refErr err)
  | inr resp =>
      if (m_Type resp =? TOK)%Z then None
      else if (m_Type resp =? TCASMismatch)%Z then Some (mismatch_of resp)
      else Some (unexpected resp)
  end).

Definition list_req (prefix after : bytes) : Msg :=
  msg0 <| m_Type := TRefList |> <| m_Prefix := prefix |> <| m_After := after |>.

(** [None]: out of fuel, a page each. *)
Fixpoint list_loop (fuel : nat) (e : E) (prefix after : bytes) (out : list RefInfo) :
    option (E * (client_error + list RefInfo)) :=
  match fuel with
  | O => None
  | S fuel =>
      let '(e, r) := anyNode e (list_req prefix after) in
      match r with
      | inl err => Some (e, inl (ErrWire err))
      | inr resp =>
          if negb (m_Type resp =? TRefs)%Z then Some (e, inl (unexpected resp))
          else
            let out := out ++ m_Refs resp in
            if bool_decide (m_Next resp = []) || bool_decide (m_Refs resp = []) then Some (e, inr out)
            else list_loop fuel e prefix (m_Next resp) out
      end
  end.

Definition RefList (fuel : nat) (e : E) (prefix : string) : option (E * (client_error + list RefInfo)) :=
  list_loop fuel e (of_string prefix) [] [].

(** A listing stops at the first page that has no references in it, even when
    that page names a next one: references behind it are left out without an
    error. *)
Theorem RefList_stops_early fuel e e' prefix resp :
  anyNode e (list_req (of_string prefix) []) = (e', inr resp) →
  m_Type resp = TRefs → m_Refs resp = [] → m_Next resp ≠ [] →
  RefList (S fuel) e prefix = Some (e', inr []).
Proof.
  intros Ec Et Er _. unfold RefList. cbn [list_loop]. rewrite Ec, Et. simpl.
  rewrite Er, (bool_decide_true ([] = [])) by done. by rewrite orb_true_r.
Qed.
End refs.

(** ** Conditions over the wire *)

Definition names_one (cond : Cond) : Prop :=
  ¬ (Versioned cond = true ∧ Keyed cond = true) ∧ ExpectedVersion cond ≠ Some [] ∧ ExpectedOld cond ≠ Some [].

Lemma cond_apply_fields cond m :
  m_Force (cond_apply cond m) = Force cond ∧
  m_HasExpected (cond_apply cond m) = Versioned cond || Keyed cond || m_HasExpected m ∧
  m_ExpectedVersion (cond_apply cond m) =
    (if Versioned cond then default [] (ExpectedVersion cond) else m_ExpectedVersion m) ∧
  m_ExpectedOld (cond_apply cond m) = (if Keyed cond then default [] (ExpectedOld cond) else m_ExpectedOld m) ∧
  m_Version (cond_apply cond m) = m_Version m.
Proof. unfold cond_apply. destruct (Versioned cond), (Keyed cond); split_and!; reflexivity. Qed.

(** A write condition means the same at the node as at the client: whatever
    the current value of the reference, the condition the node reads off the
    request gives the same answer as the one the client stated, when it names a
    version or a key but not both. *)
Theorem condition_over_the_wire (cond : Cond) (m : Msg) (cur : RefValue) (present : bool) (curKey : bytes) :
  names_one cond → m_HasExpected m = false → m_ExpectedVersion m = [] → m_ExpectedOld m = [] → m_Version m = [] →
  check (condOf (cond_apply cond m)) cur present curKey = check cond cur present curKey.
Proof.
  intros (Hone & Hev & Heo) H1 H2 H3 H4. destruct (cond_apply_fields cond m) as (F1 & F2 & F3 & F4 & F5).
  unfold condOf. rewrite F1, F2, F3, F4, F5, H1, H2, H3, H4. clear -Hone Hev Heo.
  destruct cond as [ev vs eo kd fc]. unfold check, from_wire. simpl in *.
  destruct vs, kd; simpl; [by destruct Hone| | |done].
  - destruct ev as [[|b ev]|], fc; simpl; repeat (rewrite bool_decide_true by done || rewrite bool_decide_false by done); done.
  - destruct eo as [[|b eo]|], fc; simpl; repeat (rewrite bool_decide_true by done || rewrite bool_decide_false by done); done.
Qed.

(** ** Worked cases *)

(** A cluster whose first page of a listing is a run of deleted references. *)
Definition toy_pages (e : nat) (m : Msg) : nat * (wire_error + Msg) :=
  (S e, inr (if decide (e = 0%nat) then msg0 <| m_Type := TRefs |> <| m_Next := [x61] |>
             else msg0 <| m_Type := TRefs |> <| m_Refs := [MkRefInfo "live" [] [] 0 ""] |>)).

Lemma RefList_stops_early_witness : RefList toy_pages 5 0%nat "" = Some (1%nat, inr []).
Proof.
  eapply (RefList_stops_early toy_pages 4 0%nat 1%nat "" (msg0 <| m_Type := TRefs |> <| m_Next := [x61] |>));
    try computes. done.
Defined.

Lemma condition_over_the_wire_witness :
  check (condOf (cond_apply (MkCond None false None true false) (msg0 <| m_Type := TRefPut |>)))
    RefValue0 false [] = None.
Proof.
  rewrite (condition_over_the_wire (MkCond None false None true false) (msg0 <| m_Type := TRefPut |>) RefValue0 false []);
    try reflexivity. split; [by intros [? ?]|done].
Defined.
