(* ===== verification/Refglob.v ===== *)
(** Glob patterns over reference names (src/refglob/refglob.go), which watches
    filter with.

    Patterns and names are sequences of code points.  The source writes a regular
    expression piece by piece and hands it to the regexp package; here a compiled
    pattern is the list of those pieces, and [matches] is what RE2 does with each
    of them, anchored at both ends. *)
From S2P Require Import Prelude.

Notation rune := N (only parsing).

Definition r_slash : rune := 0x2f.
Definition r_star : rune := 0x2a.
Definition r_question : rune := 0x3f.
Definition r_open : rune := 0x5b.
Definition r_close : rune := 0x5d.
Definition r_back : rune := 0x5c.
Definition r_bang : rune := 0x21.
Definition r_caret : rune := 0x5e.
Definition r_dash : rune := 0x2d.
Definition r_newline : rune := 0x0a.

Inductive piece :=
  | PLit (r : rune)                                      (* QuoteMeta(r) *)
  | PStar                                                (* [^/]* *)
  | POne                                                 (* [^/] *)
  | PAny                                                 (* .* *)
  | PSegs                                                (* (?:[^/]*/)* *)
  | PClass (negate : bool) (ranges : list (rune * rune)). (* [...] or [^/...] *)

Record Pattern := MkPattern { pat_prefix : list rune; pat_re : list piece }.

Definition MaxLen : nat := 4096.

(** ** Character classes *)

(** One rune of a class, possibly escaped, and the rest; [rs] is not empty. *)
Definition classRune (r : rune) (rs : list rune) : string + rune * list rune :=
  if (r =? r_back)%N then
    match rs with
    | [] => inl "refglob: trailing backslash in character class"%string
    | r :: rs => inr (r, rs)
    end
  else inr (r, rs).

(** Cuts [/] out of a range of a positive class. *)
Definition carve (it : rune * rune) : list (rune * rune) :=
  let '(lo, hi) := it in
  if ((lo <=? r_slash) && (r_slash <=? hi))%N then
    (if (lo <? r_slash)%N then [(lo, r_slash - 1)%N] else []) ++
    (if (r_slash <? hi)%N then [(r_slash + 1, hi)%N] else [])
  else [it].

(** The items up to the closing bracket and what follows it.  Each turn consumes
    a rune, so the length of [rs] is enough fuel. *)
Fixpoint class_items (fuel : nat) (rs : list rune) : string + list (rune * rune) * list rune :=
  match fuel, rs with
  | O, _ | _, [] => inl "refglob: unterminated character class"%string
  | S fuel, r :: rs =>
      if (r =? r_close)%N then inr ([], rs)
      else match classRune r rs with
      | inl e => inl e
      | inr (lo, rs) =>
          let range :=
            match rs with
            | d :: h :: rs' =>
                if (d =? r_dash)%N && negb (h =? r_close)%N then
                  match classRune h rs' with
                  | inl e => inl e
                  | inr (hi, rs') =>
                      if (hi <? lo)%N then inl "refglob: bad range"%string else inr (hi, rs')
                  end
                else inr (lo, rs)
            | _ => inr (lo, rs)
            end in
          match range with
          | inl e => inl e
          | inr (hi, rs) =>
              match class_items fuel rs with
              | inl e => inl e
              | inr (items, rest) => inr ((lo, hi) :: items, rest)
              end
          end
      end
  end.

(** The class after its opening bracket, and the rest. *)
Definition parseClass (rs : list rune) : string + piece * list rune :=
  let '(negate, rs) :=
    match rs with
    | r :: rs' => if (r =? r_bang)%N || (r =? r_caret)%N then (true, rs') else (false, rs)
    | [] => (false, rs)
    end in
  match class_items (S (length rs)) rs with
  | inl e => inl e
  | inr ([], _) => inl "refglob: empty character class"%string
  | inr (items, rest) => inr (PClass negate (if negate : bool then items else mjoin (carve <$> items)), rest)
  end.

(** ** Compiling *)

(** [literal]: still inside the leading literal run; [segStart]: at the start of
    a segment.  The pieces and the prefix of the rest. *)
Fixpoint compile_loop (fuel : nat) (rs : list rune) (literal segStart : bool) :
    string + list piece * list rune :=
  let emit p (rest : string + list piece * list rune) :=
    match rest with inl e => inl e | inr (ps, pre) => inr (p :: ps, pre) end in
  let lit r (rest : string + list piece * list rune) :=
    match rest with
    | inl e => inl e
    | inr (ps, pre) => inr (PLit r :: ps, if literal then r :: pre else pre)
    end in
  match fuel, rs with
  | _, [] => inr ([], [])
  | O, _ => inl "out of fuel"%string
  | S fuel, r :: rs =>
      if (r =? r_back)%N then
        match rs with
        | [] => inl "refglob: trailing backslash"%string
        | r :: rs => lit r (compile_loop fuel rs literal (r =? r_slash)%N)
        end
      else if (r =? r_star)%N then
        match rs with
        | r2 :: rs2 =>
            if (r2 =? r_star)%N && segStart then
              match rs2 with
              | [] => inr ([PAny], [])
              | r3 :: rs3 =>
                  if (r3 =? r_slash)%N then emit PSegs (compile_loop fuel rs3 false true)
                  else emit PStar (compile_loop fuel rs false false)
              end
            else emit PStar (compile_loop fuel rs false false)
        | [] => emit PStar (compile_loop fuel rs false false)
        end
      else if (r =? r_question)%N then emit POne (compile_loop fuel rs false false)
      else if (r =? r_open)%N then
        match parseClass rs with
        | inl e => inl e
        | inr (cl, rest) => emit cl (compile_loop fuel rest false false)
        end
      else lit r (compile_loop fuel rs literal (r =? r_slash)%N)
  end.

(** [len] is the pattern's length in bytes, [runes] its code points, [None] when
    it is not valid UTF-8. *)
Definition Compile (len : nat) (runes : option (list rune)) : string + Pattern :=
  if (len =? 0)%nat then inl "refglob: empty pattern"%string
  else if (MaxLen <? len)%nat then inl "refglob: pattern exceeds 4096 bytes"%string
  else match runes with
  | None => inl "refglob: pattern is not valid UTF-8"%string
  | Some rs =>
      if existsb (λ r, (r <? 0x20)%N || (r =? 0x7f)%N) rs then
        inl "refglob: pattern contains a control character"%string
      else match compile_loop (length rs) rs true true with
      | inl e => inl e
      | inr (ps, pre) => inr (MkPattern pre ps)
      end
  end.

(** ** Matching *)

Definition class_matches (negate : bool) (ranges : list (rune * rune)) (c : rune) : bool :=
  let listed := existsb (λ '(lo, hi), (lo <=? c)%N && (c <=? hi)%N) ranges in
  if negate then negb (c =? r_slash)%N && negb listed else listed.

Fixpoint matches (ps : list piece) (s : list rune) {struct ps} : bool :=
  match ps with
  | [] => bool_decide (s = [])
  | PLit r :: ps => match s with c :: s => (c =? r)%N && matches ps s | [] => false end
  | POne :: ps => match s with c :: s => negb (c =? r_slash)%N && matches ps s | [] => false end
  | PClass neg rg :: ps => match s with c :: s => class_matches neg rg c && matches ps s | [] => false end
  | PStar :: ps =>
      (fix star (s : list rune) : bool :=
         matches ps s || match s with c :: s => negb (c =? r_slash)%N && star s | [] => false end) s
  | PAny :: ps =>
      (fix any (s : list rune) : bool :=
         matches ps s || match s with c :: s => negb (c =? r_newline)%N && any s | [] => false end) s
  | PSegs :: ps =>
      (fix segs (boundary : bool) (s : list rune) : bool :=
         (boundary && matches ps s) || match s with c :: s => segs (c =? r_slash)%N s | [] => false end) true s
  end.

Definition Match (p : Pattern) (name : list rune) : bool := matches (pat_re p) name.
Definition Prefix (p : Pattern) : list rune := pat_prefix p.

(** * Correctness *)

Definition is_lit (p : piece) : bool := match p with PLit _ => true | _ => false end.

(** The literals a list of pieces starts with. *)
Fixpoint lit_run (ps : list piece) : list rune :=
  match ps with PLit r :: ps => r :: lit_run ps | _ => [] end.

Lemma lit_run_matches ps s : matches ps s = true → lit_run ps `prefix_of` s.
Proof.
  revert s. induction ps as [|p ps IH]; intros s; [by exists s|].
  destruct p; try (by exists s). cbn [matches lit_run]. destruct s as [|c s]; [done|].
  intros [->%N.eqb_eq [s' ->]%IH]%andb_true_iff. by exists s'.
Qed.

(** ** Slashes *)

Definition slashes (s : list rune) : nat := length (filter (λ c, c = r_slash) s).

Definition crosses (p : piece) : bool := match p with PAny | PSegs => true | _ => false end.

(** A piece that matches no [/] but its own literal. *)
Definition tame (p : piece) : Prop :=
  match p with PClass neg rg => class_matches neg rg r_slash = false | PAny | PSegs => False | _ => True end.

Definition lit_slash (p : piece) : nat := match p with PLit r => if (r =? r_slash)%N then 1 else 0 | _ => 0 end.
Definition lit_slashes (ps : list piece) : nat := sum_list_with lit_slash ps.

Lemma slashes_cons c s : slashes (c :: s) = ((if (c =? r_slash)%N then 1 else 0) + slashes s)%nat.
Proof. unfold slashes. rewrite filter_cons. destruct (N.eqb_spec c r_slash); case_decide; simpl; congruence. Qed.

Lemma star_matches ps s :
  matches (PStar :: ps) s = true →
  ∃ s1 s2, s = s1 ++ s2 ∧ slashes s1 = 0%nat ∧ matches ps s2 = true.
Proof.
  induction s as [|c s IH]; cbn [matches]; intros [Hm|Hm]%orb_true_iff.
  1, 3: eexists [], _; by split_and!.
  - done.
  - apply andb_true_iff in Hm as [Hc Hm]. destruct (IH Hm) as (s1 & s2 & -> & Hs & Hm2).
    exists (c :: s1), s2. split; [done|]. rewrite slashes_cons. by destruct (c =? r_slash)%N.
Qed.

Lemma slashes_app s1 s2 : slashes (s1 ++ s2) = (slashes s1 + slashes s2)%nat.
Proof. unfold slashes. by rewrite filter_app, length_app. Qed.

Lemma tame_slashes ps s : Forall tame ps → matches ps s = true → slashes s = lit_slashes ps.
Proof.
  intros Ht. revert s. induction Ht as [|p ps Hp _ IH]; intros s.
  { cbn [matches]. intros ->%bool_decide_eq_true. done. }
  change (lit_slashes (p :: ps)) with (lit_slash p + lit_slashes ps)%nat.
  destruct p as [r| | | | |neg rg]; try done.
  - destruct s as [|c s]; cbn [matches]; [done|]. intros [->%N.eqb_eq Hm]%andb_true_iff.
    rewrite slashes_cons. by rewrite (IH _ Hm).
  - intros (s1 & s2 & -> & Hs & Hm)%star_matches. by rewrite slashes_app, Hs, (IH _ Hm).
  - destruct s as [|c s]; cbn [matches]; [done|]. intros [Hc Hm]%andb_true_iff.
    rewrite slashes_cons, (IH _ Hm). by destruct (c =? r_slash)%N.
  - destruct s as [|c s]; cbn [matches]; [done|]. intros [Hc Hm]%andb_true_iff.
    rewrite slashes_cons, (IH _ Hm). destruct (N.eqb_spec c r_slash) as [->|]; [|done]. simpl in Hp. congruence.
Qed.

(** A class never matches [/]. *)
Lemma carve_no_slash it : existsb (λ '(lo, hi), (lo <=? r_slash)%N && (r_slash <=? hi)%N) (carve it) = false.
Proof.
  destruct it as [lo hi]. unfold carve. destruct ((lo <=? r_slash)%N && (r_slash <=? hi)%N) eqn:E.
  - unfold r_slash in *. repeat case_match; simpl; rewrite ?orb_false_r; try done;
      repeat (apply orb_false_iff; split); apply andb_false_iff; rewrite ?N.leb_gt; lia.
  - simpl. by rewrite E.
Qed.

Lemma parseClass_tame rs cl rest : parseClass rs = inr (cl, rest) → tame cl ∧ is_lit cl = false.
Proof.
  unfold parseClass. destruct (match rs with [] => _ | _ => _ end) as [neg rs'].
  destruct (class_items _ _) as [|[[|it items] rest']]; [done|done|]. intros [= <- <-]. split; [|done].
  cbn [tame]. unfold class_matches. destruct neg; [done|].
  change (existsb (λ '(lo, hi), (lo <=? r_slash)%N && (r_slash <=? hi)%N) (mjoin (carve <$> it :: items)) = false).
  generalize (it :: items). intros l. induction l as [|x l IH]; [reflexivity|].
  change (mjoin (carve <$> x :: l)) with (carve x ++ mjoin (carve <$> l)).
  by rewrite existsb_app, carve_no_slash, IH.
Qed.

(** The cases of one turn of the compile loop: [lit] for a literal, [emit] for
    another piece, [any] for a final [**]; a class is left to prove. *)
Ltac compile_cases rs seg lit emit any :=
  match goal with |- context [(?r =? r_back)%N] =>
    destruct (r =? r_back)%N; [destruct rs; [done|lit]|];
    destruct (r =? r_star)%N;
      [let r2 := fresh in let rs2 := fresh in destruct rs as [|r2 rs2]; [emit|];
       destruct ((r2 =? r_star)%N && seg); [|emit];
       let r3 := fresh in let rs3 := fresh in destruct rs2 as [|r3 rs3]; [any|];
       destruct (r3 =? r_slash)%N; emit|];
    destruct (r =? r_question)%N; [emit|];
    destruct (r =? r_open)%N; [|lit]
  end.

(** The prefix is the leading literals as long as [literal] holds. *)
Lemma compile_loop_prefix fuel rs literal seg ps pre :
  compile_loop fuel rs literal seg = inr (ps, pre) → pre = if literal then lit_run ps else [].
Proof.
  revert rs literal seg ps pre. induction fuel as [|fuel IH]; intros rs literal seg ps pre; cbn [compile_loop].
  { destruct rs; [|done]. intros [= <- <-]. by destruct literal. }
  destruct rs as [|r rs]; [intros [= <- <-]; by destruct literal|].
  assert (∀ p (rest : string + list piece * list N), is_lit p = false → (∀ ps pre, rest = inr (ps, pre) → pre = []) →
    match rest with inl e => inl e | inr (ps, pre) => inr (p :: ps, pre) end = inr (ps, pre) →
    pre = if literal then lit_run ps else []) as Hemit.
  { intros p [e|[ps' pre']] Hp Hrest; [done|]. intros [= <- <-]. rewrite (Hrest _ _ eq_refl).
    destruct literal; [by destruct p|done]. }
  assert (∀ r' rs' seg', match compile_loop fuel rs' literal seg' with
      | inl e => inl e
      | inr (ps, pre) => inr (PLit r' :: ps, if literal then r' :: pre else pre)
      end = inr (ps, pre) → pre = if literal then lit_run ps else []) as Hlit.
  { intros r' rs' seg'. destruct (compile_loop fuel rs' literal seg') as [e|[ps' pre']] eqn:E; [done|].
    intros [= <- <-]. rewrite (IH _ _ _ _ _ E). by destruct literal. }
  assert (∀ rs' seg' ps pre, compile_loop fuel rs' false seg' = inr (ps, pre) → pre = []) as Hf
    by (intros rs' seg' ps0 pre0 E; exact (IH _ _ _ _ _ E)).
  compile_cases rs seg ltac:(apply Hlit) ltac:(apply Hemit; [done|apply Hf])
    ltac:(intros [= <- <-]; by destruct literal).
  destruct (parseClass rs) as [|[cl rest]] eqn:Ecl; [done|]. apply Hemit; [|apply Hf].
  by apply parseClass_tame in Ecl as [_ Hc].
Qed.

Lemma compile_loop_tame fuel rs literal seg ps pre :
  compile_loop fuel rs literal seg = inr (ps, pre) → existsb crosses ps = false → Forall tame ps.
Proof.
  revert rs literal seg ps pre. induction fuel as [|fuel IH]; intros rs literal seg ps pre; cbn [compile_loop].
  { destruct rs; [|done]. intros [= <- <-]. constructor. }
  destruct rs as [|r rs]; [intros [= <- <-]; constructor|].
  assert (∀ p rs' l' seg' (f : list N → list N), (crosses p = false → tame p) →
    match compile_loop fuel rs' l' seg' with
    | inl e => inl e
    | inr (ps, pre) => inr (p :: ps, f pre)
    end = inr (ps, pre) → existsb crosses ps = false → Forall tame ps) as Hgo.
  { intros p rs' l' seg' f Hp. destruct (compile_loop fuel rs' l' seg') as [e|[ps' pre']] eqn:E; [done|].
    intros [= <- _]. cbn [existsb]. intros [Hc Hx]%orb_false_iff. constructor; [by apply Hp|]. by eapply IH. }
  compile_cases rs seg ltac:(by apply (Hgo (PLit _) _ _ _ (λ pre, if literal then _ :: pre else pre)))
    ltac:(by apply (Hgo _ _ _ _ id)) ltac:(by intros [= <- <-]).
  destruct (parseClass rs) as [|[cl rest]] eqn:Ecl; [done|]. apply (Hgo _ _ _ _ id). intros _. by eapply parseClass_tame.
Qed.

(** ** Fuel *)

Lemma classRune_rest r rs x rest : classRune r rs = inr (x, rest) → (length rest ≤ length rs)%nat.
Proof. unfold classRune. destruct (r =? r_back)%N; [destruct rs; [done|]|]; intros [= _ <-]; simpl; lia. Qed.

Lemma class_items_rest fuel rs items rest :
  class_items fuel rs = inr (items, rest) → (length rest < length rs)%nat.
Proof.
  revert rs items rest. induction fuel as [|fuel IH]; intros rs items rest; [done|]. cbn [class_items].
  destruct rs as [|r rs]; [done|]. destruct (r =? r_close)%N; [intros [= _ <-]; simpl; lia|].
  destruct (classRune r rs) as [|[lo rs1]] eqn:E1; [done|]. apply classRune_rest in E1.
  assert (∀ rg : string + N * list N, (∀ hi rs2, rg = inr (hi, rs2) → (length rs2 ≤ length rs1)%nat) →
    match rg with
    | inl e => inl e
    | inr (hi, rs) => match class_items fuel rs with
      | inl e => inl e
      | inr (items, rest) => inr ((lo, hi) :: items, rest)
      end
    end = inr (items, rest) → (length rest < length (r :: rs))%nat) as Hgo.
  { intros [|[hi rs2]] Hrg; [done|]. specialize (Hrg _ _ eq_refl).
    destruct (class_items fuel rs2) as [|[its rest']] eqn:E2; [done|]. intros [= _ <-].
    apply IH in E2. simpl. lia. }
  apply Hgo. intros hi rs2. destruct rs1 as [|d [|h rs']]; [by intros [= _ <-]..|].
  destruct (_ && _); [|by intros [= _ <-]].
  destruct (classRune h rs') as [|[hi' rs3]] eqn:E3; [done|]. apply classRune_rest in E3.
  destruct (hi' <? lo)%N; [done|]. intros [= _ <-]. simpl. lia.
Qed.

Lemma parseClass_rest rs cl rest : parseClass rs = inr (cl, rest) → (length rest < length rs)%nat.
Proof.
  unfold parseClass. destruct rs as [|r rs].
  { simpl. done. }
  destruct (_ || _); (destruct (class_items _ _) as [|[[|it items] rest']] eqn:E; [done|done|]);
    intros [= _ <-]; apply class_items_rest in E; simpl in *; lia.
Qed.

(** The pattern's length is enough fuel: more gives the same result. *)
Lemma compile_loop_fuel fuel fuel' rs literal seg :
  (length rs ≤ fuel)%nat → (length rs ≤ fuel')%nat →
  compile_loop fuel rs literal seg = compile_loop fuel' rs literal seg.
Proof.
  revert fuel' rs literal seg. induction fuel as [|fuel IH]; intros fuel' rs literal seg Hf Hf'.
  { destruct rs; [by destruct fuel'|simpl in Hf; lia]. }
  destruct rs as [|r rs]; [by destruct fuel'|]. destruct fuel' as [|fuel']; [simpl in Hf'; lia|].
  simpl in Hf, Hf'. cbn [compile_loop].
  compile_cases rs seg ltac:(by rewrite (IH fuel') by (simpl in *; lia))
    ltac:(by rewrite (IH fuel') by (simpl in *; lia)) ltac:(done).
  destruct (parseClass rs) as [|[cl rest]] eqn:Ecl; [done|]. apply parseClass_rest in Ecl.
  by rewrite (IH fuel') by lia.
Qed.

(** A glob's literal prefix is sound and [*], [?] and classes stay within a
    segment: every name a pattern matches starts with the pattern's prefix, so
    scanning only that prefix misses nothing, and a pattern without [**] matches
    only names with as many slashes as it spells out. *)
Theorem Match_sound len runes p name :
  Compile len (Some runes) = inr p → Match p name = true →
  Prefix p `prefix_of` name ∧
  (existsb crosses (pat_re p) = false → slashes name = lit_slashes (pat_re p)).
Proof.
  unfold Compile. repeat case_match; try done. intros [= <-] Hm. unfold Match, Prefix in *. simpl in *.
  split.
  - rewrite (compile_loop_prefix _ _ _ _ _ _ H2). by apply lit_run_matches.
  - intros Hx. apply tame_slashes; [|done]. by eapply compile_loop_tame.
Qed.

(** ** Worked patterns *)

Definition runes_of (s : string) : list N := Byte.to_N <$> of_string s.
Definition glob (p : string) : string + Pattern := Compile (String.length p) (Some (runes_of p)).
Definition globs (p name : string) : bool :=
  match glob p with inr pat => Match pat (runes_of name) | inl _ => false end.

Example globs_some :
  globs "app/*/v[0-9]" "app/web/v2" && globs "app/**" "app/a/b" && globs "**/main" "main" &&
  globs "**/main" "x/y/main" && globs "a\*" "a*" = true.
Proof. computes. Qed.

Example globs_none :
  globs "app/*" "app/a/b" || globs "a?c" "a/c" || globs "[!x]" "/" || globs "[.-0]" "/" || globs "app/**" "app" = false.
Proof. computes. Qed.

Lemma Match_sound_witness :
  ∃ p, glob "app/*/v[0-9]" = inr p ∧ Prefix p `prefix_of` runes_of "app/web/v2" ∧
    slashes (runes_of "app/web/v2") = lit_slashes (pat_re p).
Proof.
  eexists. split; [computes|].
  match goal with |- Prefix ?p `prefix_of` _ ∧ _ =>
    destruct (Match_sound 12 (runes_of "app/*/v[0-9]") p (runes_of "app/web/v2")) as [H1 H2] end.
  - vm_compute. reflexivity.
  - vm_compute. reflexivity.
  - split; [exact H1|]. apply H2. vm_compute. reflexivity.
Defined.
