(* ===== verification/Data.v ===== *)
(** A node's data path (src/node/data.go, put.go and server.go, with the queue of
    src/node/reconcile.go and the view adoption of src/node/node.go): what a node
    answers to [missing], [get] and [put], and how it forwards, fetches and
    verifies records.

    The pack store and the formats of keys and records are amber-store/core's;
    the network is a class.  A handler runs its calls to other nodes one after
    the other, in place of the goroutines of the source: they write to different
    nodes and to entries of their own.  What else runs meanwhile belongs to the
    instance of the class. *)
From stdpp Require Import pretty.
From S2P Require Import Prelude Store Placement View Wire Ballot Proposer Catalog Meta Mark Pins GC.

Local Open Scope N_scope.

(** * Keys and records of amber-store/core *)

Record RawRecord := MkRawRecord { raw_Key : key; raw_Flags : N; raw_Ulen : N; raw_Bytes : bytes }.

Class Core := {
  KType : Set;
  #[global] KType_eq_dec :: EqDecision KType;
  Blob : KType;
  XattrSet : KType;
  Commit : KType;
  key_Type : key → KType;
  key_Length : key → N;
  key_String : key → string;
  key_Parse : bytes → option string;               (* the error *)
  key_Validate : key → option string;
  key_New : KType → N → bytes → string + key;
  RecHeaderSize : nat;
  ParseRecord : bytes → string + RawRecord;
  DecodePayload : N → N → bytes → string + bytes;
  commit_Trees : bytes → string + list key;        (* commit.Decode and Trees *)
  Footprint : N → list key → string + N;
  ChildKeys_of : key → bytes → string + list key;  (* fstree.ChildKeys *)
}.

(** A leaf of the object graph. *)
Definition is_leaf `{Core} (k : key) : bool := bool_decide (key_Type k = Blob) || bool_decide (key_Type k = XattrSet).

(** ** The pack store *)

Inductive pack_err := ErrNotFound | ErrCorrupt | ErrVerify | PackErr (e : string).

Class PackStore (P : Type) := {
  ps_Has : P → key → string + bool;
  ps_Missing : P → list key → string + list key;
  ps_Sync : P → P * option string;
  ps_Get : P → key → pack_err + bytes;
  ps_GetRecord : P → key → pack_err + bytes;
  ps_SortByLocation : P → list key → list key;
  ps_WriteParallel : P → list (key * bytes) → P * option string;
  ps_Segments : P → string + list N;               (* the ids, in their order *)
  ps_ScanIndex : P → N → string + list (key * N);  (* keys with their offsets *)
  ps_Record : P → N → N → string + bytes;
  ps_seal : P → P;                                 (* a compaction that drops nothing *)
}.

(** * A node *)

Record dnode (P DB : Type) := MkDnode {
  dn_id : NodeID;
  dn_store : P;
  dn_gc : gcState DB;
  dn_view : option View;
  dn_writable : bool;
  dn_unreachable : gmap NodeID Z;
  dn_cache : gmap key Z;                (* completeCache *)
  dn_recent : gmap key Z;
  dn_queue : gmap NodeID (gset key);    (* the reconciler's *)
}.
Arguments MkDnode {P DB}.
Arguments dn_id {P DB}.
Arguments dn_store {P DB}.
Arguments dn_gc {P DB}.
Arguments dn_view {P DB}.
Arguments dn_writable {P DB}.
Arguments dn_unreachable {P DB}.
Arguments dn_cache {P DB}.
Arguments dn_recent {P DB}.
Arguments dn_queue {P DB}.

#[global] Instance dnode_eta {P DB} : Eta (dnode P DB) := λ r,
  MkDnode (dn_id r) (dn_store r) (dn_gc r) (dn_view r) (dn_writable r) (dn_unreachable r) (dn_cache r) (dn_recent r) (dn_queue r).

(** [Placement()] of a node without a view is nil, and using it panics; here it is
    then the placement of a view with no nodes. *)
Definition view0 : View := MkView [] 0 0 0 0 0 0 [] 0 [] [] None [] [] 0 0 false 0 [] false [] None [] [].

Definition placement_of (blake3 : bytes → nat → bytes) {P DB} (n : dnode P DB) : Placement :=
  NewPlacement blake3 (default view0 (dn_view n)).

Definition dn_db {P DB} (n : dnode P DB) : DB := gs_db (dn_gc n).
Definition set_db {P DB} (n : dnode P DB) (d : DB) : dnode P DB := n <| dn_gc := dn_gc n <| gs_db := d |> |>.

(** [gc.counter()]. *)
Definition counter {P DB} (n : dnode P DB) : N := Counter (gs_meta (dn_gc n)).

(** A call that failed: a remote or framing error, the context's deadline, or
    another error of the transport. *)
Inductive net_err := NWire (e : wire_error) | NDeadline | NErr (s : string).

(** Of a put stream: it could not be opened, or it broke. *)
Inductive put_err := POpen (e : net_err) | PFail (e : net_err).

Definition net_AsError (e : net_err) : option Error := match e with NWire e => AsError e | _ => None end.
Definition net_IsCode (e : net_err) (code : string) : bool := match e with NWire e => IsCode e code | _ => false end.

Definition reasonOf (e : net_err) : string :=
  match net_AsError e with
  | Some we => err_Code we
  | None => match e with NDeadline => CodeTimeout | _ => "unreachable" end
  end.

Definition put_cause (e : put_err) : net_err := match e with POpen e => e | PFail e => e end.

(** The cluster as one node reaches it over the cluster ALPN. *)
Class Net (P DB W : Type) := {
  nw_self : W → dnode P DB;
  nw_set : W → dnode P DB → W;
  nw_now : W → Z;
  nw_call : W → NodeID → Msg → W * (net_err + Msg);                 (* pool.Call *)
  nw_put : W → NodeID → Msg → list bytes → W * (put_err + Msg);     (* a put stream and its reply *)
  nw_cut : W → NodeID → Msg → list bytes → W;                       (* a put stream that is given up *)
  nw_get : W → NodeID → Msg → W * (put_err + list RawRecord * option string);  (* the records and how the pack broke off *)
  nw_refresh : W → W;                                               (* refreshOnce *)
  nw_adopt : W → View → W;                                          (* adopt *)
}.

Section data.
Context (blake3 : bytes → nat → bytes) `{Core} {P DB : Type} `{PackStore P} `{KVStore DB} `{Codec View}.
Implicit Types n : dnode P DB.

(** * Verifying records *)

Definition verifyRecord (raw : RawRecord) : string + key * bytes :=
  let k := raw_Key raw in
  match key_Validate k with
  | Some e => inl e
  | None =>
  match DecodePayload (raw_Flags raw) (raw_Ulen raw) (drop RecHeaderSize (raw_Bytes raw)) with
  | inl e => inl e
  | inr payload =>
  match key_New (key_Type k) (key_Length k) payload with
  | inl e => inl e
  | inr want =>
      if negb (bool_decide (want = k)) then inl ("payload hashes to " +:+ key_String want)
      else if is_leaf k then
        if negb (key_Length k =? N.of_nat (length payload)) then inl "length field mismatch" else inr (k, raw_Bytes raw)
      else if bool_decide (key_Type k = Commit) then
        match commit_Trees payload with
        | inl e => inl ("commit: " +:+ e)
        | inr trees =>
            match Footprint (N.of_nat (length payload)) trees with
            | inl e => inl ("commit: " +:+ e)
            | inr want =>
                if negb (key_Length k =? want)
                then inl ("length field " +:+ pretty (key_Length k) +:+ " is not the commit's footprint " +:+ pretty want +:+
                          "; a commit keyed by an older rule has to be created again")
                else inr (k, raw_Bytes raw)
            end
        end
      else inr (k, raw_Bytes raw)
  end end end.

(** * The reconciler's queue *)

Definition scheduleForward n (target : NodeID) (keys : list key) : dnode P DB :=
  n <| dn_queue := <[target := default ∅ (dn_queue n !! target) ∪ list_to_set keys]> (dn_queue n) |>.

Definition schedule_all n (targets : list NodeID) (k : key) : dnode P DB :=
  fold_left (λ n o, scheduleForward n o [k]) targets n.

(** [pinned] of the reconciler: only keys the node does not own are offered. *)
Definition rec_pinned n (keys : list key) : dnode P DB :=
  let pl := placement_of blake3 n in
  let offer := filter (λ k, InWriteSet pl k (dn_id n) = false) keys in
  fold_left (λ n k, schedule_all n (WriteSet pl k) k) offer n.

Definition corruptFound n (k : key) : dnode P DB :=
  schedule_all n (filter (λ o, o ≠ dn_id n) (ReadOrder (placement_of blake3 n) k)) k.

Definition mark_corrupt n (k : key) : dnode P DB := set_db n (markCorrupt (dn_db n) k).

Definition verifyLocal n (k : key) : dnode P DB :=
  match ps_GetRecord (dn_store n) k with
  | inl _ => mark_corrupt n k
  | inr rec =>
      match ParseRecord rec with
      | inl _ => mark_corrupt n k
      | inr raw =>
          match verifyRecord (MkRawRecord (raw_Key raw) (raw_Flags raw) (raw_Ulen raw) rec) with
          | inl _ => corruptFound (mark_corrupt n k) k
          | inr _ => n
          end
      end
  end.

(** * Presence *)

(** [localMissing], under the sweep lock shared: the keys lacking and present. *)
Definition localMissing n (keys : list key) (pin : bool) : dnode P DB * (string + list key * list key) :=
  match ps_Missing (dn_store n) keys with
  | inl e => (n, inl e)
  | inr miss =>
      let lacks := λ k, bool_decide (k ∈ miss) || isCorrupt (dn_db n) k in
      let lacking := filter (λ k, lacks k = true) keys in
      let present := filter (λ k, lacks k = false) keys in
      match present with
      | [] => (n, inr (lacking, present))
      | _ :: _ =>
          match ps_Sync (dn_store n) with
          | (p, Some e) => (n <| dn_store := p |>, inl e)
          | (p, None) =>
              let n := n <| dn_store := p |> in
              if pin then
                match pinKeys (dn_db n) (counter n) present with
                | (Some e, d) => (set_db n d, inl e)
                | (None, d) => (rec_pinned (set_db n d) present, inr (lacking, present))
                end
              else (n, inr (lacking, present))
          end
      end
  end.

(** * Storing a batch *)

Record putBatch := MkPutBatch { pb_keys : list key; pb_records : gmap key bytes }.

Definition noteRecent n (now : Z) (keys : list key) : dnode P DB :=
  n <| dn_recent := fold_left (λ m k, <[k := now]> m) keys (dn_recent n) |>.

(** The keys found present and the others; the store's error. *)
Fixpoint split_known n (keys : list key) : string + list key * list key :=
  match keys with
  | [] => inr ([], [])
  | k :: keys =>
      match ps_Has (dn_store n) k with
      | inl e => inl e
      | inr has =>
          match split_known n keys with
          | inl e => inl e
          | inr (hits, fresh) => if has && negb (isCorrupt (dn_db n) k) then inr (k :: hits, fresh) else inr (hits, k :: fresh)
          end
      end
  end.

(** [storeBatch]: the numbers stored and found. *)
Definition storeBatch n (now : Z) (b : putBatch) : dnode P DB * (string + nat * nat) :=
  match pb_keys b with
  | [] => (n, inr (0%nat, 0%nat))
  | _ :: _ =>
  match split_known n (pb_keys b) with
  | inl e => (n, inl e)
  | inr (hits, fresh) =>
      let store :=
        match fresh with
        | [] => (n, None)
        | _ :: _ =>
            match ps_WriteParallel (dn_store n) ((λ k, (k, default [] (pb_records b !! k))) <$> fresh) with
            | (p, Some e) => (n <| dn_store := p |>, Some e)
            | (p, None) =>
                let n := n <| dn_store := p |> in
                (noteRecent (set_db n (clearCorruptKeys (dn_db n) fresh)) now fresh, None)
            end
        end in
      match store with
      | (n, Some e) => (n, inl e)
      | (n, None) =>
          match hits with
          | [] => (n, inr (length fresh, 0%nat))
          | _ :: _ =>
              match pinKeys (dn_db n) (counter n) hits with
              | (Some e, d) => (set_db n d, inl e)
              | (None, d) => (rec_pinned (set_db n d) hits, inr (length fresh, length hits))
              end
          end
      end
  end end.

(** * Epochs *)

Definition stampReply n (m : Msg) : Msg :=
  match dn_view n with Some v => m <| m_Incarnation := Incarnation v |> <| m_Epoch := Epoch v |> | None => m end.

Definition stampReq n (m : Msg) : Msg :=
  match dn_view n with
  | Some v => m <| m_ClusterID := ClusterID v |> <| m_Incarnation := Incarnation v |> <| m_Epoch := Epoch v |>
  | None => m
  end.

Inductive epoch_err := ErrStale | ErrEpoch (s : string).

(** [writeStale]. *)
Definition staleMsg n : Msg :=
  stampReply n (ErrMsg CodeStaleView "request epoch is behind" <| m_View := match dn_view n with Some v => marshal v | None => [] end |>).

(** [setView] and the part of [adopt] that concerns the node: whether the view is
    taken, with the row it is kept in.  The acceptor's Install is in Acceptor.v. *)
Definition mkView_row : bytes := of_string "view".

Definition adopt n (v : View) : dnode P DB :=
  let refused :=
    match dn_view n with
    | None => false
    | Some cur =>
        match View_Compare cur (Incarnation v) (Epoch v) with
        | Gt => true
        | Eq => Version v <=? Version cur
        | Lt => false
        end ||
        (negb (bool_decide (ClusterID cur = [])) && negb (bool_decide (ClusterID v = [])) &&
         negb (bool_decide (ClusterID cur = ClusterID v)))
    end in
  if refused then n
  else match Set_key (dn_db n) mkView_row (marshal v) with
       | (Some _, d) => set_db n d
       | (None, d) => set_db n d <| dn_view := Some v |>
       end.

(** * Calls to other nodes *)

Context {W : Type} `{Net P DB W}.
Implicit Types w : W.

Definition upd_self w (f : dnode P DB → dnode P DB) : W := nw_set w (f (nw_self w)).

Definition markUnreachable w (id : NodeID) : W :=
  upd_self w (λ n, n <| dn_unreachable := <[id := nw_now w]> (dn_unreachable n) |>).
Definition markReachable w (id : NodeID) : W :=
  upd_self w (λ n, n <| dn_unreachable := delete id (dn_unreachable n) |>).

(** A stale-view reply carries a view. *)
Definition adoptStale w (e : net_err) : W :=
  if negb (net_IsCode e CodeStaleView) then w
  else match net_AsError e with
       | None => w
       | Some we =>
           if bool_decide (err_View we = []) then w
           else match Decode (err_View we) with inl _ => w | inr v => nw_adopt w v end
       end.

(** [checkEpoch]: a request above the node's view makes it refresh. *)
Definition checkEpoch w (m : Msg) : W * option epoch_err :=
  match dn_view (nw_self w) with
  | None => (w, Some ErrStale)
  | Some v =>
      if negb (bool_decide (m_ClusterID m = [])) && negb (bool_decide (m_ClusterID m = ClusterID v))
      then (w, Some (ErrEpoch "wrong cluster"))
      else match View_Compare v (m_Incarnation m) (m_Epoch m) with
           | Gt => (w, Some ErrStale)
           | Eq => (w, None)
           | Lt =>
               let w := nw_refresh w in
               (w, match View_Compare (default view0 (dn_view (nw_self w))) (m_Incarnation m) (m_Epoch m) with
                   | Lt => Some (ErrEpoch "epoch above the catalog's")
                   | Gt => Some ErrStale
                   | Eq => None
                   end)
           end
  end.

(** Slices of at most [size] elements; [fuel] is the length of the list. *)
Fixpoint chunks {A} (fuel size : nat) (l : list A) : list (list A) :=
  match fuel, l with
  | S fuel, _ :: _ => take size l :: chunks fuel size (drop size l)
  | _, _ => []
  end.

Fixpoint missing_batches w (to : NodeID) (pin : bool) (batches : list (list key)) (lacking : list key) : W * (net_err + list key) :=
  match batches with
  | [] => (w, inr lacking)
  | b :: batches =>
      let req := stampReq (nw_self w) (msg0 <| m_Type := TMissing |> <| m_Keys := RawKeys b |> <| m_Pin := pin |>) in
      match nw_call w to req with
      | (w, inl e) => (markUnreachable (adoptStale w e) to, inl e)
      | (w, inr resp) =>
          let w := markReachable w to in
          match Keys32 (m_Keys resp) with
          | None => (w, inl (NErr "key length"))
          | Some ks => missing_batches w to pin batches (lacking ++ ks)
          end
      end
  end.

Definition remoteMissing w (to : NodeID) (keys : list key) (pin : bool) : W * (net_err + list key) :=
  missing_batches w to pin (chunks (length keys) (Z.to_nat MaxKeys) keys) [].

(** ** Puts *)

Definition putTo w (to : NodeID) (recs : list bytes) : W * (put_err + Msg) :=
  match nw_put w to (stampReq (nw_self w) (msg0 <| m_Type := TPut |>)) recs with
  | (w, inl (POpen e)) => (markUnreachable w to, inl (POpen e))
  | (w, inl (PFail e)) => (adoptStale w e, inl (PFail e))
  | (w, inr m) => (markReachable w to, inr m)
  end.

(** What the reply of a put says of a key. *)
Inductive put_outcome := Confirmed_ | Rejected_ (reason : string) | Unconfirmed.

Definition confirmed_by (res : Msg) (k : key) : bool := existsb (λ h, bool_decide (kh_Key h = arr_bytes k)) (m_Holders res).

(** The last reason given for the key; [""] when there is none. *)
Definition reject_reason (res : Msg) (k : key) : string :=
  fold_left (λ r x, if bool_decide (kr_Key x = arr_bytes k) then kr_Reason x else r) (m_Rejected res) ""%string.

Definition classify (res : Msg) (k : key) : put_outcome :=
  if confirmed_by res k then Confirmed_
  else let r := reject_reason res k in if bool_decide (r = ""%string) then Unconfirmed else Rejected_ r.

(** The loop over the keys of a put: those confirmed, the reasons of the others,
    and what to verify again. *)
Definition settle_key (res : Msg) (s : W * list key * gmap key string) (k : key) : W * list key * gmap key string :=
  let '(w, ok, failed) := s in
  match classify res k with
  | Confirmed_ => (w, ok ++ [k], failed)
  | Rejected_ r =>
      (if String.prefix "verify" r then upd_self w (λ n, verifyLocal n k) else w, ok, <[k := "rejected: " +:+ r]> failed)
  | Unconfirmed => (w, ok, <[k := "unconfirmed"%string]> failed)
  end.

Definition fail_all (reason : string) (keys : list key) (failed : gmap key string) : gmap key string :=
  fold_left (λ m k, <[k := reason]> m) keys failed.

(** [record] may note a corrupt record on the way. *)
Fixpoint collect w (record : W → key → W * option bytes) (keys : list key) : W * list bytes :=
  match keys with
  | [] => (w, [])
  | k :: keys =>
      let '(w, r) := record w k in
      let '(w, recs) := collect w record keys in
      (w, match r with Some rec => rec :: recs | None => recs end)
  end.

Definition forwardTo w (to : NodeID) (keys : list key) (record : W → key → W * option bytes) : W * list key * gmap key string :=
  match remoteMissing w to keys false with
  | (w, inl e) => (w, [], fail_all (reasonOf e) keys ∅)
  | (w, inr lacking) =>
      let ok := filter (λ k, k ∉ lacking) keys in
      match lacking with
      | [] => (w, ok, ∅)
      | _ :: _ =>
          let '(w, recs) := collect w record lacking in
          match putTo w to recs with
          | (w, inl e) => (w, ok, fail_all (reasonOf (put_cause e)) lacking ∅)
          | (w, inr res) => fold_left (settle_key res) lacking (w, ok, ∅)
          end
      end
  end.

(** ** Fetching *)

(** The records that verify and the reasons why others do not; the error. *)
Definition getFromChecked w (to : NodeID) (keys : list key) : W * (gmap key bytes * gmap key string * option net_err) :=
  match nw_get w to (stampReq (nw_self w) (msg0 <| m_Type := TGet |> <| m_Keys := RawKeys keys |>)) with
  | (w, inl (POpen e)) => (markUnreachable w to, (∅, ∅, Some e))
  | (w, inl (PFail e)) => (w, (∅, ∅, Some e))
  | (w, inr (raws, broke)) =>
      let '(out, bad) :=
        fold_left (λ s raw, match verifyRecord raw with
                            | inl e => (s.1, <[raw_Key raw := e]> s.2)
                            | inr (k, rec) => (<[k := rec]> s.1, s.2)
                            end) raws (∅, ∅) in
      match broke with
      | Some e => (w, (out, bad, Some (NErr e)))
      | None => (markReachable w to, (out, bad, None))
      end
  end.

(** Not found, or sent by a peer and refused. *)
Inductive fetch_err := FNotFound | FRefused (e : string) | FErr (e : string).

Fixpoint fetch_from w (owners : list NodeID) (k : key) (refused : option string) : W * (fetch_err + bytes) :=
  match owners with
  | [] => (w, inl (match refused with Some e => FRefused e | None => FNotFound end))
  | o :: owners =>
      if decide (o = dn_id (nw_self w)) then fetch_from w owners k refused
      else
        let '(w, (recs, bad, err)) := getFromChecked w o [k] in
        let refused := match bad !! k with Some e => Some e | None => refused end in
        match err with
        | Some _ => fetch_from w owners k refused
        | None => match recs !! k with Some rec => (w, inr rec) | None => fetch_from w owners k refused end
        end
  end.

Definition fetchRecord w (k : key) : W * (fetch_err + bytes) :=
  let n := nw_self w in
  let remote := fetch_from w (ReadOrder (placement_of blake3 n) k) k None in
  match ps_GetRecord (dn_store n) k with
  | inr rec => if isCorrupt (dn_db n) k then remote else (w, inr rec)
  | inl _ => remote
  end.

Definition getData w (k : key) : W * (fetch_err + bytes) :=
  let n := nw_self w in
  let remote :=
    match fetchRecord w k with
    | (w, inl e) => (w, inl e)
    | (w, inr rec) =>
        (w, match ParseRecord rec with
            | inl e => inl (FErr e)
            | inr r => match DecodePayload (raw_Flags r) (raw_Ulen r) (drop RecHeaderSize rec) with
                       | inl e => inl (FErr e)
                       | inr d => inr d
                       end
            end)
    end in
  match ps_Get (dn_store n) k with
  | inr d => if isCorrupt (dn_db n) k then remote else (w, inr d)
  | inl _ => remote
  end.

(** * The handlers *)

(** [byOwner]: the keys grouped by the owners that are not skipped. *)
Definition group_keys (targets : key → list NodeID) (keys : list key) : gmap NodeID (list key) :=
  fold_left (λ m k, fold_left (λ m o, <[o := default [] (m !! o) ++ [k]]> m) (targets k) m) keys ∅.

Definition others n (l : list NodeID) : list NodeID := filter (λ o, o ≠ dn_id n) l.

(** One owner's answer in [negotiateHolders]. *)
Definition ask_holder (pin : bool) (s : W * gmap key (list NodeID)) (e : NodeID * list key) : W * gmap key (list NodeID) :=
  let '(o, keys) := e in
  let '(w, holders) := s in
  let add := λ (id : NodeID) (h : gmap key (list NodeID)) (k : key), <[k := default [] (h !! k) ++ [id]]> h in
  match remoteMissing w o keys pin with
  | (w, inl _) => (w, fold_left (add (arr_zero 32)) keys holders)
  | (w, inr lacking) =>
      let short := filter (λ k, k ∈ lacking) keys in
      (match short with [] => w | _ :: _ => upd_self w (λ n, scheduleForward n o short) end,
       fold_left (add o) (filter (λ k, k ∉ lacking) keys) holders)
  end.

Definition negotiateHolders w (present : list key) (pin : bool) : W * list KeyHolders :=
  let n := nw_self w in
  let pl := placement_of blake3 n in
  let asked := map_to_list (group_keys (λ k, others n (WriteSet pl k)) present) in
  let holders := fold_left (λ h k, <[k := [dn_id n]]> h) present ∅ in
  let '(w, holders) := fold_left (ask_holder pin) asked (w, holders) in
  (w, omap (λ k, let ids := filter (λ h, h ≠ arr_zero 32) (default [] (holders !! k)) in
                 if (length ids <? length (WriteSet pl k))%nat
                 then Some (MkKeyHolders (arr_bytes k) (arr_bytes <$> ids)) else None) present).

(** [handleMissing]: the reply. *)
Definition handleMissing w (m : Msg) (client : bool) : W * Msg :=
  if (MaxKeys <? Z.of_nat (length (m_Keys m)))%Z then (w, ErrMsg CodeBadRequest "too many keys")
  else match Keys32 (m_Keys m) with
       | None => (w, ErrMsg CodeBadRequest "key length")
       | Some keys =>
           match localMissing (nw_self w) keys (m_Pin m) with
           | (n, inl e) => (nw_set w n, ErrMsg CodeInternal e)
           | (n, inr (lacking, present)) =>
               let w := nw_set w n in
               let reply := stampReply n (msg0 <| m_Type := TMissingReply |> <| m_Keys := RawKeys lacking |>) in
               if client && negb (bool_decide (present = [])) then
                 let '(w, short) := negotiateHolders w present (m_Pin m) in (w, reply <| m_Short := short |>)
               else (w, reply)
           end
       end.

(** [handleGet]: the keys absent, the records sent and the error the stream ends
    with. *)
Fixpoint split_present n (keys : list key) : string + list key * list key :=
  match keys with
  | [] => inr ([], [])
  | k :: keys =>
      match ps_Has (dn_store n) k with
      | inl e => inl e
      | inr has =>
          match split_present n keys with
          | inl e => inl e
          | inr (absent, present) => if negb has || isCorrupt (dn_db n) k then inr (k :: absent, present) else inr (absent, k :: present)
          end
      end
  end.

Fixpoint send_records n (keys : list key) : dnode P DB * list bytes * option string :=
  match keys with
  | [] => (n, [], None)
  | k :: keys =>
      match ps_GetRecord (dn_store n) k with
      | inr rec => let '(n, recs, e) := send_records n keys in (n, rec :: recs, e)
      | inl ErrNotFound => send_records n keys
      | inl ErrCorrupt | inl ErrVerify => send_records (corruptFound (mark_corrupt n k) k) keys
      | inl (PackErr e) => (n, [], Some e)
      end
  end.

Definition handleGet n (m : Msg) : dnode P DB * (Msg + Msg * list bytes * option string) :=
  if (MaxKeys <? Z.of_nat (length (m_Keys m)))%Z then (n, inl (ErrMsg CodeBadRequest "too many keys"))
  else match Keys32 (m_Keys m) with
       | None => (n, inl (ErrMsg CodeBadRequest "key length"))
       | Some keys =>
           match split_present n keys with
           | inl e => (n, inl (ErrMsg CodeInternal e))
           | inr (absent, present) =>
               let '(n', recs, e) := send_records n (ps_SortByLocation (dn_store n) present) in
               (n', inr (stampReply n (msg0 <| m_Type := TAbsent |> <| m_Keys := RawKeys absent |>), recs, e))
           end
       end.

(** ** A put *)

(** The batch in progress: [tx_queue] holds the chunks the store worker has not
    finished, [tx_fwd] what each forwarder was handed. *)
Record putTx := MkPutTx {
  tx_keys : list key;
  tx_chunk : putBatch;
  tx_chunkBytes : Z;
  tx_queue : list putBatch;
  tx_err : option string;
  tx_fwd : gmap NodeID (list (key * bytes));
}.

#[local] Instance putTx_eta : Eta putTx := λ r,
  MkPutTx (tx_keys r) (tx_chunk r) (tx_chunkBytes r) (tx_queue r) (tx_err r) (tx_fwd r).
#[local] Instance putBatch_eta : Eta putBatch := λ r, MkPutBatch (pb_keys r) (pb_records r).

Definition newPutBatch : putBatch := MkPutBatch [] ∅.
Definition newPutTx : putTx := MkPutTx [] newPutBatch 0 [] None ∅.

(** One turn of [storeWorker]. *)
Definition store_turn (s : W * putTx) : W * putTx :=
  let '(w, tx) := s in
  match tx_queue tx with
  | [] => (w, tx)
  | b :: q =>
      let tx := tx <| tx_queue := q |> in
      match tx_err tx with
      | Some _ => (w, tx)
      | None =>
          match storeBatch (nw_self w) (nw_now w) b with
          | (n, inl e) => (nw_set w n, tx <| tx_err := Some e |>)
          | (n, inr _) => (nw_set w n, tx)
          end
      end
  end.

(** The channel holds one chunk while the worker has another: a third waits. *)
Definition flushChunk (s : W * putTx) : W * putTx :=
  match pb_keys (tx_chunk s.2) with
  | [] => s
  | _ :: _ =>
      let '(w, tx) := Nat.iter (length (tx_queue s.2) - 1) store_turn s in
      (w, tx <| tx_queue := tx_queue tx ++ [tx_chunk tx] |> <| tx_chunk := newPutBatch |> <| tx_chunkBytes := 0%Z |>)
  end.

(** [add]: the error is one the worker met before. *)
Definition tx_add (PutChunkBytes : Z) (pl : Placement) (client : bool) (s : W * putTx) (k : key) (rec : bytes) : W * putTx * option string :=
  let '(w, tx) := s in
  match tx_err tx with
  | Some e => (w, tx, Some e)
  | None =>
      let tx := tx <| tx_keys := tx_keys tx ++ [k] |>
                   <| tx_chunk := MkPutBatch (pb_keys (tx_chunk tx) ++ [k]) (<[k := rec]> (pb_records (tx_chunk tx))) |>
                   <| tx_chunkBytes := (tx_chunkBytes tx + Z.of_nat (length rec))%Z |> in
      let '(w, tx) := if (PutChunkBytes <=? tx_chunkBytes tx)%Z then flushChunk (w, tx) else (w, tx) in
      let tx :=
        if client then
          tx <| tx_fwd := fold_left (λ m o, <[o := default [] (m !! o) ++ [(k, rec)]]> m) (others (nw_self w) (WriteSet pl k)) (tx_fwd tx) |>
        else tx in
      (w, tx, None)
  end.

Definition drain (s : W * putTx) : W * putTx := let s := flushChunk s in Nat.iter (length (tx_queue s.2)) store_turn s.

(** [wait] of a forwarder, with its error or its reply. *)
Definition fwd_wait w (keys : list key) (r : put_err + Msg) : W * list key * gmap key string :=
  match r with
  | inl e => (w, [], fail_all (reasonOf (put_cause e)) keys ∅)
  | inr res => fold_left (settle_key res) keys (w, [], ∅)
  end.

(** One forwarder at the end of [finish].  A forwarder that gave up fails all its
    keys, whatever it sent. *)
Definition finish_forward (jitter : NodeID → key → Z) (s : W * gmap key (list bytes) * list KeyFailure) (f : NodeID * list (key * bytes)) :
    W * gmap key (list bytes) * list KeyFailure :=
  let '(w, holders, failed) := s in
  let '(o, l) := f in
  let '(w, r) := putTo w o l.*2 in
  let '(w, ok, errs) := fwd_wait w l.*1 r in
  let holders := fold_left (λ h k, <[k := default [] (h !! k) ++ [arr_bytes o]]> h) ok holders in
  let bad := map_to_list errs in
  let w := match bad with [] => w | _ :: _ => upd_self w (λ n, scheduleForward n o bad.*1) end in
  (w, holders, failed ++ ((λ e, MkKeyFailure (arr_bytes e.1) (arr_bytes o) e.2 (500 + jitter o e.1)) <$> bad)).

(** [finish]: the holders of each key and the failures, or the store's error. *)
Definition tx_finish (jitter : NodeID → key → Z) (s : W * putTx) : W * (string + gmap key (list bytes) * list KeyFailure) :=
  let '(w, tx) := drain s in
  let self := arr_bytes (dn_id (nw_self w)) in
  let holders := fold_left (λ h k, <[k := [self]]> h) (tx_keys tx) ∅ in
  let '(w, holders, failed) := fold_left (finish_forward jitter) (map_to_list (tx_fwd tx)) (w, holders, []) in
  (w, match tx_err tx with Some e => inl e | None => inr (holders, failed) end).

(** [abort]: what was received stays stored, the forwards are cut. *)
Definition tx_abort (s : W * putTx) : W :=
  let '(w, tx) := drain s in
  fold_left (λ w f, nw_cut w f.1 (stampReq (nw_self w) (msg0 <| m_Type := TPut |>)) f.2.*2) (map_to_list (tx_fwd tx)) w.

Definition isNoSpace (e : string) : bool :=
  match String.index 0 "no space" e with Some _ => true | None => match String.index 0 "ENOSPC" e with Some _ => true | None => false end end.

Definition putError w (e : string) : W * Msg :=
  if isNoSpace e then (upd_self w (λ n, n <| dn_writable := false |>), ErrMsg CodeNoSpace e)
  else (w, ErrMsg CodeInternal e).

(** The records of a put as they arrive, each with the number of turns the store
    worker takes before it is looked at; an error ends them. *)
Notation arrivals := (list (nat * (string + RawRecord))).

(** The loop of [handlePut]: what was received, or the reply to an error. *)
Fixpoint put_loop (PutChunkBytes : Z) (pl : Placement) (client : bool) (s : W * putTx) (total : Z) (rejected : list KeyReject)
    (seen : gset key) (rs : arrivals) : W * (Msg + putTx * list KeyReject) :=
  match rs with
  | [] => (s.1, inr (s.2, rejected))
  | (turns, r) :: rs =>
      let s := Nat.iter turns store_turn s in
      match r with
      | inl e => (tx_abort s, inl (ErrMsg CodeBadRequest ("pack: " +:+ e)))
      | inr raw =>
          let total := (total + Z.of_nat (length (raw_Bytes raw)))%Z in
          if (MaxPutBatch <? total)%Z then (tx_abort s, inl (ErrMsg CodeBadRequest "batch over 64 MiB"))
          else match verifyRecord raw with
               | inl e =>
                   put_loop PutChunkBytes pl client s total (rejected ++ [MkKeyReject (arr_bytes (raw_Key raw)) ("verify: " +:+ e)]) seen rs
               | inr (k, rec) =>
                   if negb (InWriteSet pl k (dn_id (nw_self s.1))) then
                     put_loop PutChunkBytes pl client s total (rejected ++ [MkKeyReject (arr_bytes k) CodeNotOwner]) seen rs
                   else if decide (k ∈ seen) then put_loop PutChunkBytes pl client s total rejected seen rs
                   else
                     match tx_add PutChunkBytes pl client s k rec with
                     | (w, tx, Some e) => let '(w, m) := putError (tx_abort (w, tx)) e in (w, inl m)
                     | (w, tx, None) => put_loop PutChunkBytes pl client (w, tx) total rejected ({[k]} ∪ seen) rs
                     end
               end
      end
  end.

(** [handlePut] once it has its write slot. *)
Definition handlePut (PutChunkBytes : Z) (jitter : NodeID → key → Z) w (m : Msg) (client : bool) (rs : arrivals) : W * Msg :=
  match checkEpoch w m with
  | (w, Some ErrStale) => (w, staleMsg (nw_self w))
  | (w, Some (ErrEpoch e)) => (w, ErrMsg CodeBadRequest e)
  | (w, None) =>
      if negb (dn_writable (nw_self w)) then (w, ErrMsg CodeNoSpace "node below its free-space reserve")
      else
        let pl := placement_of blake3 (nw_self w) in
        match put_loop PutChunkBytes pl client (w, newPutTx) 0 [] ∅ rs with
        | (w, inl m) => (w, m)
        | (w, inr (tx, rejected)) =>
            let '(w, r) := tx_finish jitter (w, tx) in
            match r with
            | inl e => putError w e
            | inr (holders, failed) =>
                (w, stampReply (nw_self w) (msg0 <| m_Type := TPutResult |> <| m_Rejected := rejected |> <| m_Failed := failed |>
                      <| m_Holders := (λ k, MkKeyHolders (arr_bytes k) (default [] (holders !! k))) <$> tx_keys tx |>))
            end
        end
  end.

(** * Dispatch *)

Inductive admission := admitNone | admitMember | admitFormer.

Definition admit_peer (v : option View) (remote : NodeID) : admission :=
  match v with
  | None => admitMember
  | Some v =>
      if IsMember v remote || IsVoter v remote || Contains (DeferredVoters v) remote then admitMember
      else if IsFormer v remote then admitFormer else admitNone
  end.

(** What [serveClient] and [serveCluster] decide before they dispatch: the error. *)
Definition client_gate (v : option View) (remote : NodeID) (m : Msg) : option (string * string) :=
  match v ≫= View_ACL with
  | None => None
  | Some acl =>
      if bool_decide (ACL_Allowed acl = []) then None
      else if negb (Contains (ACL_Allowed acl) remote) && negb (Contains (ACL_Admins acl) remote) then Some (CodeUnauthorized, "not on the allowlist")
      else if (m_Type m =? TRefDelete)%Z && negb (Contains (ACL_Admins acl) remote) then Some (CodeUnauthorized, "ref-delete needs an admin peer")
      else None
  end%string.

Definition cluster_gate (v : option View) (remote : NodeID) (m : Msg) : option (string * string) :=
  if (m_Type m =? TJoin)%Z then None
  else match admit_peer v remote with
       | admitNone => Some (CodeNotMember, "not a member of the view")
       | admitFormer =>
           if negb (m_Type m =? TMissing)%Z && negb (m_Type m =? TPut)%Z && negb (m_Type m =? TView)%Z
           then Some (CodeNotMember, "former member: missing/put only") else None
       | admitMember => None
       end%string.

(** The branch of [serveCluster] for [missing]. *)
Definition serve_missing w (remote : NodeID) (m : Msg) : W * Msg :=
  match cluster_gate (dn_view (nw_self w)) remote m with
  | Some (code, text) => (w, ErrMsg code text)
  | None =>
      match checkEpoch w m with
      | (w, Some _) => (w, staleMsg (nw_self w))
      | (w, None) => handleMissing w m false
      end
  end.
End data.
