(* ===== verification/DataSafety.v ===== *)
(** What the data path promises: what a node that answers [missing] or [put] holds
    at that moment, and what its caller may conclude.

    The laws of the pack store, of keys and of the network are classes; a cluster
    of nodes that run the handlers of Data.v over a network that delays, loses and
    repeats calls is an instance of the network's. *)
From S2P Require Import Prelude Store Placement View Wire Ballot Proposer Catalog Meta Mark Pins GC Data.

Local Open Scope N_scope.

(** * Laws *)

(** The payload a key names. *)
Definition is_content `{Core} (k : key) (d : bytes) : Prop := key_New (key_Type k) (key_Length k) d = inr k.

(** Two payloads of one type and length field never have one key: the hash does
    not collide. *)
Class CoreOK `{Core} : Prop := {
  content_unique k d d' : is_content k d → is_content k d' → d = d';
}.

Class PackStoreOK (P : Type) `{Core} `{PackStore P} := {
  ps_keys : P → gset key;
  ps_Has_ok p k b : ps_Has p k = inr b → b = bool_decide (k ∈ ps_keys p);
  ps_Missing_ok p ks miss k : ps_Missing p ks = inr miss → k ∈ miss ↔ k ∈ ks ∧ k ∉ ps_keys p;
  ps_Sync_ok p : ps_keys (ps_Sync p).1 = ps_keys p;
  ps_Write_ok p l p' : ps_WriteParallel p l = (p', None) → ps_keys p' = ps_keys p ∪ list_to_set l.*1;
  ps_Write_grows p l : ps_keys p ⊆ ps_keys (ps_WriteParallel p l).1;
  ps_Get_ok p k d : ps_Get p k = inr d → is_content k d;
  ps_GetRecord_ok p k rec r d : ps_GetRecord p k = inr rec → ParseRecord rec = inr r →
    DecodePayload (raw_Flags r) (raw_Ulen r) (drop RecHeaderSize rec) = inr d → is_content k d;
}.

(** * A node that holds a record *)

Section node.
Context (blake3 : bytes → nat → bytes) `{Core} {P DB : Type} `{PackStore P} `{!PackStoreOK P} `{KVStore DB} `{!Reliable DB} `{Codec View}.
Implicit Types n : dnode P DB.

Definition stores n (k : key) : Prop := k ∈ ps_keys (dn_store n) ∧ kv_abs (dn_db n) !! corrupt_key k = None.

(** Pinned at the barrier count of the moment. *)
Definition pins n (k : key) : Prop := kv_abs (dn_db n) !! pin_key k = Some (putU64 (counter n)).

Lemma isCorrupt_spec (d : DB) k : isCorrupt d k = false ↔ kv_abs d !! corrupt_key k = None.
Proof. unfold isCorrupt, Has, Get. rewrite kv_get_total. by destruct (kv_abs d !! corrupt_key k). Qed.

Lemma corrupt_pin_ne k k' : corrupt_key k ≠ pin_key k'.
Proof. unfold corrupt_key, pin_key, mkCorrupt, mkPin. discriminate. Qed.

(** The parts of a node that the queue operations leave alone. *)
Definition same_data n n' : Prop :=
  dn_id n' = dn_id n ∧ dn_store n' = dn_store n ∧ dn_gc n' = dn_gc n ∧ dn_view n' = dn_view n.

#[local] Instance same_data_pre : PreOrder same_data.
Proof. split; [by intros n|]. intros a b c (?&?&?&?) (?&?&?&?). repeat split; congruence. Qed.

Lemma same_schedule n o ks : same_data n (scheduleForward n o ks).
Proof. done. Qed.

Lemma same_schedule_all n os k : same_data n (schedule_all n os k).
Proof. unfold schedule_all. revert n. induction os as [|o os IH]; intros n; simpl; [done|]. by rewrite <- IH. Qed.

Lemma same_rec_pinned n ks : same_data n (rec_pinned blake3 n ks).
Proof.
  unfold rec_pinned. set (pl := placement_of blake3 n). set (l := filter _ ks). clearbody pl l. revert n.
  induction l as [|k l IH]; intros n; simpl; [done|]. rewrite <- IH. apply same_schedule_all.
Qed.

Lemma same_stores n n' k : same_data n n' → stores n k → stores n' k.
Proof. unfold stores, dn_db. by intros (_ & -> & -> & _). Qed.

Lemma same_pins n n' k : same_data n n' → pins n k → pins n' k.
Proof. unfold pins, dn_db, counter. by intros (_ & _ & -> & _). Qed.

(** Pins touch no corrupt marker, and every key asked for is pinned. *)
Lemma pinKeys_pins n ks d : pinKeys (dn_db n) (counter n) ks = (None, d) →
  (∀ k, k ∈ ks → pins (set_db n d) k) ∧ ∀ k, stores n k → stores (set_db n d) k.
Proof.
  intros E. destruct (pinKeys_spec (dn_db n) (counter n) ks) as (d' & E' & Hx). rewrite E in E'. injection E' as <-. split.
  - intros k Hk. unfold pins. simpl. change (dn_db (set_db n d)) with d. rewrite Hx, decide_True; [done|]. by apply list_elem_of_fmap_2.
  - intros k [Hs Hc]. split; [done|]. change (dn_db (set_db n d)) with d. rewrite Hx, decide_False; [done|].
    intros (k' & Ek & _)%list_elem_of_fmap. by apply corrupt_pin_ne in Ek.
Qed.

Lemma localMissing_id n ks pin : dn_id (localMissing blake3 n ks pin).1 = dn_id n.
Proof.
  unfold localMissing. destruct (ps_Missing _ _) as [e|miss]; [done|]. cbv zeta. destruct (filter _ ks) as [|x l]; [done|].
  destruct (ps_Sync _) as [p [e|]]; [done|]. destruct pin; [|done]. destruct (pinKeys _ _ _) as [[e|] d]; [done|].
  simpl. by destruct (same_rec_pinned (set_db (n <| dn_store := p |>) d) (x :: l)) as (-> & _).
Qed.

(** [localMissing] reports a key present only when the record is there and not
    known to be corrupt, and then it is pinned when that was asked. *)
Lemma localMissing_present n ks pin n' lacking present : localMissing blake3 n ks pin = (n', inr (lacking, present)) →
  dn_id n' = dn_id n ∧ dn_view n' = dn_view n ∧
  ∀ k, k ∈ ks → k ∉ lacking → stores n' k ∧ (pin = true → pins n' k).
Proof.
  unfold localMissing. destruct (ps_Missing (dn_store n) ks) as [e|miss] eqn:Em; [done|].
  cbv zeta. set (la := filter (λ k, bool_decide (k ∈ miss) || isCorrupt (dn_db n) k = true) ks).
  set (pr := filter (λ k, bool_decide (k ∈ miss) || isCorrupt (dn_db n) k = false) ks).
  assert (∀ k, k ∈ ks → k ∉ la → k ∈ pr ∧ stores n k) as Hpr.
  { intros k Hk Hn. assert (bool_decide (k ∈ miss) || isCorrupt (dn_db n) k = false) as Hl.
    { apply not_true_iff_false. intros Hl. apply Hn. by apply list_elem_of_filter. }
    split; [by apply list_elem_of_filter|]. apply orb_false_iff in Hl as [Hl1%bool_decide_eq_false Hl2%isCorrupt_spec].
    split; [|done]. rewrite (ps_Missing_ok _ _ _ k Em) in Hl1. destruct (decide (k ∈ ps_keys (dn_store n))); [done|]. naive_solver. }
  clearbody la pr. destruct pr as [|x pr'].
  - intros [= <- <- <-]. split; [done|]. split; [done|]. intros k Hk Hn. destruct (Hpr k Hk Hn) as [Hin _]. by apply not_elem_of_nil in Hin.
  - destruct (ps_Sync (dn_store n)) as [p [e|]] eqn:Es; [done|]. pose proof (ps_Sync_ok (dn_store n)) as Hs. rewrite Es in Hs. simpl in Hs.
    set (n1 := n <| dn_store := p |>). assert (∀ k, stores n k → stores n1 k) as Hn1.
    { intros k [Hk1 Hk2]. split; [|done]. unfold n1. simpl. by rewrite Hs. }
    destruct pin.
    + destruct (pinKeys (dn_db n1) (counter n1) _) as [[e|] d] eqn:Ep; [done|]. intros [= <- <- <-].
      destruct (pinKeys_pins n1 _ d Ep) as [Hp1 Hp2]. pose proof (same_rec_pinned (set_db n1 d) (x :: pr')) as Hsame.
      destruct (Hsame) as (Hi & _ & _ & Hv). rewrite Hi, Hv. split; [done|]. split; [done|]. intros k Hk Hn. destruct (Hpr k Hk Hn) as [Hin Hst].
      split; [|intros _]; [eapply same_stores, Hp2, Hn1, Hst|eapply same_pins, Hp1, Hin]; done.
    + intros [= <- <- <-]. split; [done|]. split; [done|]. intros k Hk Hn. split; [apply Hn1, Hpr; done|done].
Qed.
(** Clearing removes the markers of the keys given and adds none. *)
Lemma clearCorruptKeys_ok (d : DB) ks k :
  k ∈ ks ∨ kv_abs d !! corrupt_key k = None → kv_abs (clearCorruptKeys d ks) !! corrupt_key k = None.
Proof.
  intros Hk. unfold clearCorruptKeys. destruct (filter (λ k, isCorrupt d k = true) ks) as [|x l] eqn:Ef.
  - destruct Hk as [Hk|?]; [|done]. apply isCorrupt_spec, not_true_iff_false. intros Hc.
    assert (k ∈ ([] : list key)) as []%not_elem_of_nil. rewrite <- Ef. by apply list_elem_of_filter.
  - rewrite <- Ef. assert (∀ ks', (λ k : key, kv_Delete (corrupt_key k)) <$> ks' = kv_Delete <$> (corrupt_key <$> ks')) as Hc
      by (intros ks'; by rewrite <- list_fmap_compose). rewrite Hc. set (l' := filter _ ks) in *.
    pose proof (kv_commit_total d (kv_Delete <$> (corrupt_key <$> l'))) as Ht. destruct (kv_commit d _) as [r d'] eqn:E.
    cbn [fst snd] in *. subst r. apply kv_commit_ok in E. rewrite E, lookup_apply_deletes.
    case_decide as Hin; [done|]. destruct (kv_abs d !! corrupt_key k) eqn:El; [|done]. destruct Hk as [Hk|]; [|done]. destruct Hin.
    apply list_elem_of_fmap_2, list_elem_of_filter. split; [|done]. apply not_false_iff_true. by intros ?%isCorrupt_spec; rewrite El in *.
Qed.

Lemma split_known_ok n ks hits fresh : split_known n ks = inr (hits, fresh) →
  (∀ k, k ∈ ks → k ∈ hits ∨ k ∈ fresh) ∧ ∀ k, k ∈ hits → stores n k.
Proof.
  revert hits fresh. induction ks as [|x ks IH]; intros hits fresh; simpl.
  { intros [= <- <-]. split; by intros k ?%not_elem_of_nil. }
  destruct (ps_Has (dn_store n) x) as [e|has] eqn:Eh; [done|]. destruct (split_known n ks) as [e|[hs fs]]; [done|].
  destruct (IH hs fs eq_refl) as [I1 I2]. apply ps_Has_ok in Eh. destruct (has && negb (isCorrupt (dn_db n) x)) eqn:Ec; intros [= <- <-].
  - apply andb_prop in Ec as [-> Ec%negb_true_iff]. symmetry in Eh. apply bool_decide_eq_true in Eh. apply isCorrupt_spec in Ec. split.
    + intros k [->|Hk]%elem_of_cons; [left; by left|]. destruct (I1 k Hk); [left; by right|by right].
    + intros k [->|Hk]%elem_of_cons; [done|by apply I2].
  - split; [|done]. intros k [->|Hk]%elem_of_cons; [right; by left|]. destruct (I1 k Hk); [by left|right; by right].
Qed.

(** A stored batch is in place: found and pinned, or written. *)
Lemma storeBatch_ok n now b n' c : storeBatch blake3 n now b = (n', inr c) → ∀ k, k ∈ pb_keys b → stores n' k.
Proof.
  unfold storeBatch. destruct (pb_keys b) as [|k0 ks]; [by intros _ k ?%not_elem_of_nil|]. set (keys := k0 :: ks).
  destruct (split_known n keys) as [e|[hits fresh]] eqn:Es; [done|]. destruct (split_known_ok _ _ _ _ Es) as [S1 S2].
  cbv zeta. set (st := match fresh with [] => _ | _ :: _ => _ end).
  assert (∀ n1, st = (n1, None) → ∀ k, k ∈ keys → stores n1 k) as Hst.
  { intros n1. unfold st. destruct fresh as [|f fs].
    - intros [= <-] k Hk. destruct (S1 k Hk) as [?|?%not_elem_of_nil]; [by apply S2|done].
    - destruct (ps_WriteParallel (dn_store n) _) as [p [e|]] eqn:Ew; [done|]. intros [= <-] k Hk. apply ps_Write_ok in Ew.
      rewrite <- list_fmap_compose, list_fmap_id in Ew. unfold stores, noteRecent, dn_db. cbn [dn_store dn_gc gs_db set_field]. simpl.
      rewrite Ew. destruct (S1 k Hk) as [Hh|Hf].
      + destruct (S2 k Hh) as [Hp Hc]. split; [set_solver|]. apply clearCorruptKeys_ok. by right.
      + split; [apply elem_of_union; right; by apply elem_of_list_to_set|]. apply clearCorruptKeys_ok. by left. }
  destruct st as [n1 [e|]]; [done|]. specialize (Hst n1 eq_refl). destruct hits as [|h hs]; [intros [= <- _]; done|].
  destruct (pinKeys (dn_db n1) (counter n1) (h :: hs)) as [[e|] d] eqn:Ep; [done|]. intros [= <- _] k Hk.
  eapply same_stores; [apply same_rec_pinned|]. by apply (pinKeys_pins n1 _ d Ep), Hst.
Qed.

Lemma storeBatch_id n now b : dn_id (storeBatch blake3 n now b).1 = dn_id n.
Proof.
  unfold storeBatch. destruct (pb_keys b); [done|]. destruct (split_known _ _) as [e|[hits fresh]]; [done|]. cbv zeta.
  set (st := match fresh with [] => _ | _ :: _ => _ end). assert (dn_id st.1 = dn_id n) as Hst.
  { unfold st. destruct fresh; [done|]. by destruct (ps_WriteParallel _ _) as [p [e|]]. }
  destruct st as [n1 [e|]]; [done|]. destruct hits; [done|]. destruct (pinKeys _ _ _) as [[e|] d]; [done|]. simpl in *.
  match goal with |- dn_id (rec_pinned _ ?x ?y) = _ => by destruct (same_rec_pinned x y) as (-> & _) end.
Qed.
End node.

(** * The network *)

(** One operation of a node on its surroundings. *)
Inductive net_step {P DB W} `{Net P DB W} (w : W) : W → Prop :=
  | ns_set n : dn_id n = dn_id (nw_self w) → net_step w (nw_set w n)
  | ns_call o m : net_step w (nw_call w o m).1
  | ns_put o m recs : net_step w (nw_put w o m recs).1
  | ns_cut o m recs : net_step w (nw_cut w o m recs)
  | ns_get o m : net_step w (nw_get w o m).1
  | ns_refresh : net_step w (nw_refresh w)
  | ns_adopt v : net_step w (nw_adopt w v).

(** The history of a run: [sees w o n] says that the node [o] has been in the state
    [n]; it grows, and the answers of a node come with the state it was in.  The
    reader of a pack gives records that parse to what it says of them. *)
Class Peers (P DB W : Type) `{Core} `{PackStore P} `{!PackStoreOK P} `{KVStore DB} `{Net P DB W} := {
  sees : W → NodeID → dnode P DB → Prop;
  step_sees w w' o n : net_step w w' → sees w o n → sees w' o n;
  step_id w w' : net_step w w' → dn_id (nw_self w') = dn_id (nw_self w);
  set_sees w n : dn_id n = dn_id (nw_self w) → sees (nw_set w n) (dn_id n) n;
  set_self w n : dn_id n = dn_id (nw_self w) → nw_self (nw_set w n) = n;
  call_missing w o m w' r ks lacking k : nw_call w o m = (w', inr r) → m_Type m = TMissing → m_Keys m = RawKeys ks →
    Keys32 (m_Keys r) = Some lacking → k ∈ ks → k ∉ lacking →
    ∃ n, sees w' o n ∧ stores n k ∧ (m_Pin m = true → pins n k);
  put_confirmed w o m recs w' r k : nw_put w o m recs = (w', inr r) → m_Type m = TPut → confirmed_by r k = true →
    ∃ n, sees w' o n ∧ stores n k;
  get_parses w o m w' raws broke raw r : nw_get w o m = (w', inr (raws, broke)) → raw ∈ raws →
    ParseRecord (raw_Bytes raw) = inr r → raw_Flags r = raw_Flags raw ∧ raw_Ulen r = raw_Ulen raw;
}.

Section peers.
Context (blake3 : bytes → nat → bytes) `{Core} `{!CoreOK} {P DB W : Type} `{PackStore P} `{!PackStoreOK P} `{KVStore DB} `{!Reliable DB}.
Context `{Codec View} `{Net P DB W} `{!Peers P DB W}.
Implicit Types w : W.

Definition runs w w' : Prop := rtc net_step w w'.

#[global] Instance runs_pre : PreOrder runs.
Proof. unfold runs. split; [intros x; apply rtc_refl|intros x y z; apply rtc_trans]. Qed.

Lemma runs_sees w w' o n : runs w w' → sees w o n → sees w' o n.
Proof. induction 1; [done|]. eauto using step_sees. Qed.

Lemma runs_id w w' : runs w w' → dn_id (nw_self w') = dn_id (nw_self w).
Proof. induction 1 as [|x y z Hs _ IH]; [done|]. rewrite IH. by apply step_id. Qed.

Lemma upd_self_runs w f : dn_id (f (nw_self w)) = dn_id (nw_self w) → runs w (upd_self w f).
Proof. intros Hf. by apply rtc_once, ns_set. Qed.

Lemma markReachable_runs w o : runs w (markReachable w o).
Proof. by apply upd_self_runs. Qed.
Lemma markUnreachable_runs w o : runs w (markUnreachable w o).
Proof. by apply upd_self_runs. Qed.

Lemma adoptStale_runs w e : runs w (adoptStale w e).
Proof.
  unfold adoptStale. destruct (negb _); [reflexivity|]. destruct (net_AsError e) as [we|]; [|reflexivity].
  case_bool_decide; [reflexivity|]. destruct (Decode (err_View we)); [reflexivity|]. apply rtc_once, ns_adopt.
Qed.

Lemma stampReq_fields n m : m_Type (stampReq (P := P) (DB := DB) n m) = m_Type m ∧ m_Keys (stampReq n m) = m_Keys m ∧
  m_Pin (stampReq n m) = m_Pin m.
Proof. unfold stampReq. by destruct (dn_view n). Qed.

(** The slices of a list cover it. *)
Lemma elem_of_chunks {A} (fuel size : nat) (l : list A) x : (length l ≤ fuel)%nat → (0 < size)%nat → x ∈ l → ∃ b, b ∈ chunks fuel size l ∧ x ∈ b.
Proof.
  revert l. induction fuel as [|fuel IH]; intros l Hl Hs Hx; [destruct l; [by apply not_elem_of_nil in Hx|simpl in Hl; lia]|].
  destruct l as [|a l]; [by apply not_elem_of_nil in Hx|]. simpl. rewrite <- (take_drop size (a :: l)) in Hx.
  apply elem_of_app in Hx as [Hx|Hx]; [eexists; split; [by left|done]|].
  apply IH in Hx as (b & Hb & Hx); [|rewrite length_drop; simpl in *; lia|done]. exists b. split; [by right|done].
Qed.

Lemma missing_batches_runs w to pin bs acc : runs w (missing_batches w to pin bs acc).1.
Proof.
  revert w acc. induction bs as [|b bs IH]; intros w acc; simpl; [reflexivity|]. set (req := stampReq _ _).
  destruct (nw_call w to req) as [w1 [e|r]] eqn:E; simpl; (etrans; [apply rtc_once, (ns_call w to req)|rewrite E; simpl]).
  - etrans; [apply adoptStale_runs|apply markUnreachable_runs].
  - etrans; [apply markReachable_runs|]. destruct (Keys32 (m_Keys r)); simpl; [apply IH|reflexivity].
Qed.

Lemma missing_batches_ok w to pin bs acc w' lacking : missing_batches w to pin bs acc = (w', inr lacking) →
  (∀ k, k ∈ acc → k ∈ lacking) ∧
  ∀ k b, b ∈ bs → k ∈ b → k ∉ lacking → ∃ n, sees w' to n ∧ stores n k ∧ (pin = true → pins n k).
Proof.
  revert w acc. induction bs as [|b bs IH]; intros w acc; simpl.
  { intros [= <- <-]. split; [done|]. by intros k b Hb%not_elem_of_nil. }
  set (req := stampReq _ _). destruct (nw_call w to req) as [w1 [e|r]] eqn:E; [done|].
  destruct (Keys32 (m_Keys r)) as [ks|] eqn:Ek; [|done]. intros Hb. destruct (IH _ _ Hb) as [Hacc Hin]. split.
  { intros k Hk. apply Hacc, elem_of_app. by left. }
  intros k b' Hb' Hk Hn. apply elem_of_cons in Hb' as [->|Hb']; [|by eapply Hin].
  destruct (stampReq_fields (nw_self w) (msg0 <| m_Type := TMissing |> <| m_Keys := RawKeys b |> <| m_Pin := pin |>)) as (Et & Ekeys & Epin).
  destruct (call_missing w to req w1 r b ks k E Et Ekeys Ek Hk) as (n & Hs & Hst & Hp).
  { intros Hin'. apply Hn, Hacc, elem_of_app. by right. }
  exists n. split; [|split; [done|intros ->; apply Hp; exact Epin]]. eapply runs_sees; [|done].
  etrans; [apply (markReachable_runs w1 to)|]. pose proof (missing_batches_runs (markReachable w1 to) to pin bs (acc ++ ks)) as Hr.
  by rewrite Hb in Hr.
Qed.

Lemma remoteMissing_runs w to ks pin : runs w (remoteMissing w to ks pin).1.
Proof. apply missing_batches_runs. Qed.

(** What a caller may conclude from an owner's answer. *)
Lemma remoteMissing_ok w to ks pin w' lacking k : remoteMissing w to ks pin = (w', inr lacking) → k ∈ ks → k ∉ lacking →
  ∃ n, sees w' to n ∧ stores n k ∧ (pin = true → pins n k).
Proof.
  intros E Hk Hn. destruct (elem_of_chunks (length ks) (Z.to_nat MaxKeys) ks k) as (b & Hb & Hkb); [done|unfold MaxKeys; lia|done|].
  eapply missing_batches_ok; [exact E|exact Hb|done|done].
Qed.

(** ** Reading *)

Lemma verifyRecord_ok raw k rec : verifyRecord raw = inr (k, rec) → k = raw_Key raw ∧ rec = raw_Bytes raw ∧
  ∃ d, DecodePayload (raw_Flags raw) (raw_Ulen raw) (drop RecHeaderSize (raw_Bytes raw)) = inr d ∧ is_content (raw_Key raw) d.
Proof.
  unfold verifyRecord, is_content. destruct (key_Validate _); [done|]. destruct (DecodePayload _ _ _) as [|d]; [done|].
  destruct (key_New _ _ d) as [|want] eqn:E; [done|]. case_bool_decide as Hw; [|done]. subst want. simpl. intros Hv.
  assert (inr (raw_Key raw, raw_Bytes raw) = (inr (k, rec) : string + key * bytes)) as [= <- <-]; [|eauto].
  destruct (is_leaf _); [by destruct (negb _)|]. case_bool_decide; [|done]. destruct (commit_Trees d); [done|].
  destruct (Footprint _ _); [done|]. by destruct (negb _).
Qed.

Lemma getFrom_ok w o ks w' out bad err k rec : getFromChecked w o ks = (w', (out, bad, err)) → out !! k = Some rec →
  ∀ r d, ParseRecord rec = inr r → DecodePayload (raw_Flags r) (raw_Ulen r) (drop RecHeaderSize rec) = inr d → is_content k d.
Proof.
  unfold getFromChecked. destruct (nw_get w o _) as [w1 [[e|e]|[raws broke]]] eqn:E.
  1,2: by intros [= <- <- <- <-]. set (f := λ (s : gmap key bytes * gmap key string) raw, _).
  assert (∀ s, (∀ k rec, s.1 !! k = Some rec → ∃ raw, raw ∈ raws ∧ verifyRecord raw = inr (k, rec)) → ∀ l, (∀ raw, raw ∈ l → raw ∈ raws) →
    ∀ k rec, (fold_left f l s).1 !! k = Some rec → ∃ raw, raw ∈ raws ∧ verifyRecord raw = inr (k, rec)) as Hf.
  { intros s Hs l. revert s Hs. induction l as [|raw l IH]; intros s Hs Hl; simpl; [done|]. apply IH; [|intros x Hx; apply Hl; by right].
    intros k1 rec1. unfold f. destruct (verifyRecord raw) as [e|[k2 rec2]] eqn:Ev; simpl; [apply Hs|].
    destruct (decide (k2 = k1)) as [->|Hne]; [rewrite lookup_insert_eq|rewrite lookup_insert_ne by done; apply Hs].
    intros [= <-]. exists raw. split; [apply Hl; by left|done]. }
  specialize (Hf (∅, ∅)). simpl in Hf. destruct (fold_left f raws (∅, ∅)) as [out1 bad1] eqn:Ef.
  intros Ew Hout r d Hp Hd. assert (out1 !! k = Some rec) as Ho by (destruct broke; by injection Ew as <- <- <- <-).
  destruct (Hf ltac:(done) raws ltac:(done) k rec) as (raw & Hraw & Hv); [by rewrite Ef|].
  apply verifyRecord_ok in Hv as (-> & -> & d' & Hd' & Hc). destruct (get_parses _ _ _ _ _ _ _ _ E Hraw Hp) as [Efl Eul].
  rewrite Efl, Eul, Hd' in Hd. by injection Hd as <-.
Qed.

Lemma getFrom_runs w o ks : runs w (getFromChecked w o ks).1.
Proof.
  unfold getFromChecked. set (req := stampReq _ _). destruct (nw_get w o req) as [w1 [[e|e]|[raws broke]]] eqn:E;
    (etrans; [apply rtc_once, (ns_get w o req)|rewrite E; simpl]).
  - apply markUnreachable_runs.
  - reflexivity.
  - destruct (fold_left _ raws _). destruct broke; simpl; [reflexivity|apply markReachable_runs].
Qed.

Lemma fetch_from_runs w os k r : runs w (fetch_from w os k r).1.
Proof.
  revert w r. induction os as [|o os IH]; intros w r; simpl; [reflexivity|]. destruct (decide _); [apply IH|].
  pose proof (getFrom_runs w o [k]) as Hr. destruct (getFromChecked w o [k]) as [w1 [[recs bad] err]]. simpl in Hr.
  destruct err; [etrans; [done|apply IH]|]. destruct (recs !! k); [done|]. etrans; [done|apply IH].
Qed.

Lemma fetchRecord_runs w k : runs w (fetchRecord blake3 w k).1.
Proof.
  unfold fetchRecord. destruct (ps_GetRecord _ _); [apply fetch_from_runs|]. destruct (isCorrupt _ _); [apply fetch_from_runs|reflexivity].
Qed.

Lemma getData_runs w k : runs w (getData blake3 w k).1.
Proof.
  unfold getData. pose proof (fetchRecord_runs w k) as Hr. destruct (fetchRecord blake3 w k) as [w1 [e|rec]]; simpl in Hr;
    destruct (ps_Get _ _); try destruct (isCorrupt _ _); done || reflexivity.
Qed.

Lemma fetch_from_ok w os k r w' rec : fetch_from w os k r = (w', inr rec) →
  ∀ r d, ParseRecord rec = inr r → DecodePayload (raw_Flags r) (raw_Ulen r) (drop RecHeaderSize rec) = inr d → is_content k d.
Proof.
  revert w r. induction os as [|o os IH]; intros w r; simpl; [by destruct r|]. destruct (decide _); [apply IH|].
  destruct (getFromChecked w o [k]) as [w1 [[recs bad] err]] eqn:E. destruct err; [apply IH|].
  destruct (recs !! k) as [rec1|] eqn:Er; [|apply IH]. intros [= <- <-]. eapply getFrom_ok; done.
Qed.

(** An object read from anywhere in the cluster is the one its key names. *)
Lemma getData_ok w k w' d : getData blake3 w k = (w', inr d) → is_content k d.
Proof.
  unfold getData. assert (∀ w1 rec r, fetchRecord blake3 w k = (w1, inr rec) → ParseRecord rec = inr r →
    DecodePayload (raw_Flags r) (raw_Ulen r) (drop RecHeaderSize rec) = inr d → is_content k d) as Hf.
  { intros w1 rec r. unfold fetchRecord. destruct (ps_GetRecord (dn_store (nw_self w)) k) as [e|rec1] eqn:Eg.
    - intros E. eapply fetch_from_ok; done.
    - destruct (isCorrupt _ _); [intros E; eapply fetch_from_ok; done|]. intros [= <- <-]. by eapply ps_GetRecord_ok. }
  assert ((match fetchRecord blake3 w k with
    | (w1, inl e) => (w1, inl e)
    | (w1, inr rec) => (w1, match ParseRecord rec with inl e => inl (FErr e) | inr r =>
        match DecodePayload (raw_Flags r) (raw_Ulen r) (drop RecHeaderSize rec) with inl e => inl (FErr e) | inr d => inr d end end)
    end) = (w', inr d) → is_content k d) as Hr.
  { destruct (fetchRecord blake3 w k) as [w1 [e|rec]]; [done|]. destruct (ParseRecord rec) as [|r] eqn:Ep; [done|].
    destruct (DecodePayload _ _ _) as [|d1] eqn:Ed; [done|]. intros [= <- <-]. by eapply Hf. }
  destruct (ps_Get (dn_store (nw_self w)) k) as [e|d1] eqn:Eg; [done|]. destruct (isCorrupt _ _); [done|].
  intros [= <- <-]. by eapply ps_Get_ok.
Qed.

(** ** Putting *)

(** The node [o] was seen with the record in place. *)
Definition had w (o : NodeID) (k : key) : Prop := ∃ n, sees w o n ∧ stores n k.

Lemma had_runs w w' o k : runs w w' → had w o k → had w' o k.
Proof. intros Hr (n & Hs & Hn). exists n. split; [by eapply runs_sees|done]. Qed.

(** Every key taken is on its way to the store, stored, or lost to an error. *)
Definition tx_inv (s : W * putTx) : Prop := ∀ k, k ∈ tx_keys s.2 →
  tx_err s.2 ≠ None ∨ k ∈ pb_keys (tx_chunk s.2) ∨ (∃ b, b ∈ tx_queue s.2 ∧ k ∈ pb_keys b) ∨ had s.1 (dn_id (nw_self s.1)) k.

(** What the store worker leaves alone. *)
Record tx_same (s s' : W * putTx) : Prop := {
  ts_runs : runs s.1 s'.1;
  ts_keys : tx_keys s'.2 = tx_keys s.2;
  ts_fwd : tx_fwd s'.2 = tx_fwd s.2;
}.

#[local] Instance tx_same_pre : PreOrder tx_same.
Proof. split; [by intros s; split|]. intros a b c [] []. split; [by etrans|congruence|congruence]. Qed.

Lemma store_turn_ok s : tx_inv s → tx_inv (store_turn blake3 s) ∧ tx_same s (store_turn blake3 s) ∧
  tx_queue (store_turn blake3 s).2 = tail (tx_queue s.2) ∧ tx_chunk (store_turn blake3 s).2 = tx_chunk s.2.
Proof.
  destruct s as [w tx]. intros Hi. unfold store_turn. destruct (tx_queue tx) as [|b q] eqn:Eq; [simpl; by rewrite Eq|].
  cbv zeta. change (tx_err (tx <| tx_queue := q |>)) with (tx_err tx). destruct (tx_err tx) as [e|] eqn:Ee.
  { split; [|split; [by split|simpl; by rewrite Eq]]. intros k Hk. left. simpl in *. by rewrite Ee. }
  pose proof (storeBatch_id blake3 (nw_self w) (nw_now w) b) as Hid.
  destruct (storeBatch blake3 (nw_self w) (nw_now w) b) as [n r] eqn:Eb. simpl in Hid. assert (runs w (nw_set w n)) as Hr by by apply rtc_once, ns_set.
  destruct r as [e|c]; (split; [|split; [by split|simpl; by rewrite Eq]]); intros k Hk; simpl; [by left|]. right. destruct (Hi k Hk) as [He|[Hc|[(b' & Hb' & Hkb)|Hh]]]; simpl in *.
  - by rewrite Ee in He.
  - by left.
  - right. rewrite Eq in Hb'. apply elem_of_cons in Hb' as [->|Hb']; [right|left; eauto]. exists n. rewrite set_self by done.
    split; [by apply set_sees|]. by eapply storeBatch_ok.
  - right. right. rewrite set_self, Hid by done. by eapply had_runs.
Qed.

Lemma store_turns_ok i s : tx_inv s → tx_inv (Nat.iter i (store_turn blake3) s) ∧ tx_same s (Nat.iter i (store_turn blake3) s) ∧
  tx_queue (Nat.iter i (store_turn blake3) s).2 = drop i (tx_queue s.2) ∧ tx_chunk (Nat.iter i (store_turn blake3) s).2 = tx_chunk s.2.
Proof.
  intros Hi. induction i as [|i (I1 & I2 & I3 & I4)]; [by rewrite drop_0|]. simpl. destruct (store_turn_ok _ I1) as (J1 & J2 & J3 & J4).
  split; [done|]. split; [by etrans|]. split; [|congruence]. rewrite J3, I3. generalize (tx_queue s.2) as q. clear. induction i as [|i IH]; intros [|x q]; simpl; done || apply IH.
Qed.

Lemma flushChunk_ok s : tx_inv s → tx_inv (flushChunk blake3 s) ∧ tx_same s (flushChunk blake3 s) ∧ pb_keys (tx_chunk (flushChunk blake3 s).2) = [].
Proof.
  intros Hi. unfold flushChunk. destruct (pb_keys (tx_chunk s.2)) eqn:Ec; [done|].
  destruct (store_turns_ok (length (tx_queue s.2) - 1) s Hi) as (I1 & I2 & _ & _). destruct (Nat.iter _ _ s) as [w tx]. simpl in *.
  split; [|split; [|done]]. 2: destruct I2; split; done. intros k Hk. destruct (I1 k Hk) as [?|[Hc|[(b & Hb & Hkb)|?]]]; simpl in *; [by left| | |by auto].
  - right. right. left. exists (tx_chunk tx). split; [apply elem_of_app; right; by left|done].
  - right. right. left. exists b. split; [apply elem_of_app; by left|done].
Qed.

(** After the worker is done, what was taken is stored unless it failed. *)
Lemma drain_ok s : tx_inv s → tx_same s (drain blake3 s) ∧
  ∀ k, k ∈ tx_keys s.2 → tx_err (drain blake3 s).2 = None → had (drain blake3 s).1 (dn_id (nw_self (drain blake3 s).1)) k.
Proof.
  intros Hi. unfold drain. destruct (flushChunk_ok s Hi) as (F1 & F2 & F3). set (s1 := flushChunk blake3 s) in *.
  destruct (store_turns_ok (length (tx_queue s1.2)) s1 F1) as (I1 & I2 & I3 & I4). set (s2 := Nat.iter _ _ _) in *.
  assert (tx_same s s2) as Hs by by etrans. split; [done|]. intros k Hk He. rewrite drop_ge in I3 by done.
  rewrite <- (ts_keys _ _ Hs) in Hk. destruct (I1 k Hk) as [?|[Hc|[(b & Hb & _)|?]]]; [done| | |done].
  - rewrite I4, F3 in Hc. by apply not_elem_of_nil in Hc.
  - rewrite I3 in Hb. by apply not_elem_of_nil in Hb.
Qed.

Lemma mark_corrupt_id (n : dnode P DB) k : dn_id (mark_corrupt n k) = dn_id n.
Proof. done. Qed.

Lemma corruptFound_id (n : dnode P DB) k : dn_id (corruptFound blake3 n k) = dn_id n.
Proof. unfold corruptFound. apply same_schedule_all. Qed.

Lemma verifyLocal_id (n : dnode P DB) k : dn_id (verifyLocal blake3 n k) = dn_id n.
Proof.
  unfold verifyLocal. destruct (ps_GetRecord _ _); [done|]. destruct (ParseRecord _); [done|]. destruct (verifyRecord _); [|done].
  by rewrite corruptFound_id.
Qed.

(** The reply of a put, key by key. *)
Lemma settle_ok res keys w ok failed w' ok' failed' : fold_left (settle_key blake3 res) keys (w, ok, failed) = (w', ok', failed') →
  runs w w' ∧ (∀ k, k ∈ ok → k ∈ ok') ∧ (∀ k, k ∈ ok' → k ∈ ok ∨ confirmed_by res k = true) ∧ (∀ k, is_Some (failed !! k) → is_Some (failed' !! k)) ∧
  ∀ k, k ∈ keys → k ∈ ok' ∨ is_Some (failed' !! k).
Proof.
  revert w ok failed. induction keys as [|x keys IH]; intros w ok failed; cbn [fold_left].
  { intros [= <- <- <-]. split; [reflexivity|]. split; [done|]. split; [by left|]. split; [done|]. by intros k ?%not_elem_of_nil. }
  unfold settle_key at 2, classify. destruct (confirmed_by res x) eqn:Ec.
  { intros (I1 & I2 & I3 & I4 & I5)%IH. split; [done|]. split; [intros k Hk; apply I2, elem_of_app; by left|]. split.
    { intros k [[Hk| ->%list_elem_of_singleton]%elem_of_app|Hk]%I3; auto. }
    split; [done|]. intros k [->|Hk]%elem_of_cons; [left; apply I2, elem_of_app; right; by left|by apply I5]. }
  assert (∀ r w1, runs w w1 → fold_left (settle_key blake3 res) keys (w1, ok, <[x := r]> failed) = (w', ok', failed') →
    runs w w' ∧ (∀ k, k ∈ ok → k ∈ ok') ∧ (∀ k, k ∈ ok' → k ∈ ok ∨ confirmed_by res k = true) ∧ (∀ k, is_Some (failed !! k) → is_Some (failed' !! k)) ∧
    ∀ k, k ∈ x :: keys → k ∈ ok' ∨ is_Some (failed' !! k)) as Hgo.
  { intros r w1 Hr (I1 & I2 & I3 & I4 & I5)%IH. split; [by etrans|]. split; [done|]. split; [done|].
    split; [intros k Hk; apply I4; destruct (decide (x = k)) as [->|]; [rewrite lookup_insert_eq; eauto|by rewrite lookup_insert_ne]|].
    intros k [->|Hk]%elem_of_cons; [right; apply I4; rewrite lookup_insert_eq; eauto|by apply I5]. }
  cbv zeta. case_bool_decide; [by apply Hgo|]. apply Hgo. destruct (String.prefix _ _); [|reflexivity]. apply upd_self_runs, verifyLocal_id.
Qed.

Lemma fail_all_in r keys m k : k ∈ keys ∨ is_Some (m !! k) → is_Some (fail_all r keys m !! k).
Proof.
  unfold fail_all. revert m. induction keys as [|x keys IH]; intros m; simpl; [by intros [?%not_elem_of_nil|?]|]. intros Hk. apply IH.
  destruct (decide (x = k)) as [->|Hne]; [right; rewrite lookup_insert_eq; eauto|]. rewrite lookup_insert_ne by done.
  destruct Hk as [[->|?]%elem_of_cons|?]; [done|by left|by right].
Qed.

Lemma putTo_runs w o recs : runs w (putTo w o recs).1.
Proof.
  unfold putTo. set (req := stampReq _ _). destruct (nw_put w o req recs) as [w1 [[e|e]|r]] eqn:E;
    (etrans; [apply rtc_once, (ns_put w o req recs)|rewrite E; simpl]).
  - apply markUnreachable_runs.
  - apply adoptStale_runs.
  - apply markReachable_runs.
Qed.

(** A key that a put confirms is in place at its target. *)
Lemma putTo_ok w o recs w' r k : putTo w o recs = (w', inr r) → confirmed_by r k = true → had w' o k.
Proof.
  unfold putTo. set (req := stampReq _ _). destruct (nw_put w o req recs) as [w1 [[e|e]|r1]] eqn:E; [done|done|]. intros [= <- <-] Hc.
  destruct (put_confirmed w o req recs w1 r1 k E) as (n & Hs & Hst); [apply stampReq_fields|done|]. exists n.
  split; [|done]. eapply runs_sees; [apply markReachable_runs|done].
Qed.

(** A forwarder's keys end up confirmed or failed. *)
Lemma forwarder_ok w o recs w1 r keys w' ok errs : putTo w o recs = (w1, r) → fwd_wait blake3 w1 keys r = (w', ok, errs) →
  runs w w' ∧ (∀ k, k ∈ ok → had w' o k) ∧ ∀ k, k ∈ keys → k ∈ ok ∨ is_Some (errs !! k).
Proof.
  intros Ep. pose proof (putTo_runs w o recs) as Hr. rewrite Ep in Hr. simpl in Hr. unfold fwd_wait. destruct r as [e|res].
  - intros [= <- <- <-]. split; [done|]. split; [by intros k ?%not_elem_of_nil|]. intros k Hk. right. apply fail_all_in. by left.
  - intros (I1 & _ & I3 & _ & I5)%settle_ok. split; [by etrans|]. split; [|done]. intros k [?%not_elem_of_nil|Hc]%I3; [done|].
    eapply had_runs; [done|]. by eapply putTo_ok.
Qed.

Lemma add_holder (b : bytes) ok (h : gmap key (list bytes)) k x :
  x ∈ default [] (fold_left (λ h k, <[k := default [] (h !! k) ++ [b]]> h) ok h !! k) ↔ x ∈ default [] (h !! k) ∨ (k ∈ ok ∧ x = b).
Proof.
  revert h. induction ok as [|y ok IH]; intros h; simpl; [rewrite elem_of_nil; tauto|]. rewrite IH, elem_of_cons.
  destruct (decide (y = k)) as [->|Hne]; [rewrite lookup_insert_eq|rewrite lookup_insert_ne by done]; simpl;
    [rewrite elem_of_app, list_elem_of_singleton; tauto|]. naive_solver.
Qed.

(** The answer in the making, after the forwarders in [seen]. *)
Record fin_inv (me : NodeID) (w : W) (holders : gmap key (list bytes)) (failed : list KeyFailure) (seen : list (NodeID * list (key * bytes))) : Prop := {
  fi_sound k b : b ∈ default [] (holders !! k) → b = arr_bytes me ∨ ∃ o, b = arr_bytes o ∧ had w o k;
  fi_total o l k : (o, l) ∈ seen → k ∈ l.*1 →
    arr_bytes o ∈ default [] (holders !! k) ∨ ∃ f, f ∈ failed ∧ kf_Key f = arr_bytes k ∧ kf_Node f = arr_bytes o;
}.

Lemma finish_forward_ok jitter me w h failed seen f w' h' failed' : fin_inv me w h failed seen →
  finish_forward blake3 jitter (w, h, failed) f = (w', h', failed') → runs w w' ∧ fin_inv me w' h' failed' (seen ++ [f]) ∧
  ∀ k x, x ∈ default [] (h !! k) → x ∈ default [] (h' !! k).
Proof.
  intros [F1 F2]. destruct f as [o l]. unfold finish_forward. destruct (putTo w o l.*2) as [w1 r] eqn:Ep.
  destruct (fwd_wait blake3 w1 l.*1 r) as [[w2 ok] errs] eqn:Ew. destruct (forwarder_ok _ _ _ _ _ _ _ _ _ Ep Ew) as (Hr & Hok & Hall).
  set (w3 := match map_to_list errs with [] => w2 | _ :: _ => _ end). assert (runs w2 w3) as Hr3.
  { unfold w3. destruct (map_to_list errs); [reflexivity|]. by apply upd_self_runs. }
  intros [= <- <- <-]. split; [by etrans|]. split; [split|].
  - intros k b [Hb|[Hk ->]]%add_holder; [|right; exists o; split; [done|by eapply had_runs, Hok]].
    destruct (F1 k b Hb) as [?|(o' & ? & Hh)]; [by left|]. right. exists o'. split; [done|]. eapply had_runs; [|done]. by etrans.
  - intros o' l' k [Hin|Hin]%elem_of_app Hk.
    + destruct (F2 o' l' k Hin Hk) as [?|(g & Hg & ?)]; [left; apply add_holder; by left|]. right. exists g. split; [apply elem_of_app; by left|done].
    + apply list_elem_of_singleton in Hin. injection Hin as -> ->. destruct (Hall k Hk) as [Hko|(e & He)]; [left; apply add_holder; by right|].
      right. exists (MkKeyFailure (arr_bytes k) (arr_bytes o) e (500 + jitter o k)). split; [|done]. apply elem_of_app. right.
      apply list_elem_of_fmap. exists (k, e). split; [done|]. by apply elem_of_map_to_list.
  - intros k x Hx. apply add_holder. by left.
Qed.

Lemma finish_forwards_ok jitter me fs w h failed seen w' h' failed' : fin_inv me w h failed seen →
  fold_left (finish_forward blake3 jitter) fs (w, h, failed) = (w', h', failed') → runs w w' ∧ fin_inv me w' h' failed' (seen ++ fs) ∧
  ∀ k x, x ∈ default [] (h !! k) → x ∈ default [] (h' !! k).
Proof.
  revert w h failed seen. induction fs as [|f fs IH]; intros w h failed seen Hi; cbn [fold_left].
  { intros [= <- <- <-]. rewrite app_nil_r. split; [reflexivity|done]. }
  destruct (finish_forward blake3 jitter (w, h, failed) f) as [[w1 h1] f1] eqn:E. destruct (finish_forward_ok _ _ _ _ _ _ _ _ _ _ Hi E) as (Hr & Hi1 & Hm).
  intros Hf. destruct (IH _ _ _ _ Hi1 Hf) as (Hr2 & Hi2 & Hm2). rewrite <- app_assoc in Hi2. split; [by etrans|]. split; [done|]. eauto.
Qed.

(** Every other owner of a key taken from a client has been handed its record. *)
Definition fwd_inv (pl : Placement) (client : bool) (me : NodeID) (tx : putTx) : Prop := client = true → ∀ k o, k ∈ tx_keys tx →
  o ∈ WriteSet pl k → o ≠ me → ∃ l, tx_fwd tx !! o = Some l ∧ k ∈ l.*1.

(** What the loop of a put keeps of the state it starts in. *)
Record loop_inv (pl : Placement) (client : bool) (w0 : W) (s : W * putTx) : Prop := {
  li_tx : tx_inv s;
  li_runs : runs w0 s.1;
  li_fwd : fwd_inv pl client (dn_id (nw_self w0)) s.2;
}.

Lemma loop_inv_same pl client w0 s s' : loop_inv pl client w0 s → tx_inv s' → tx_same s s' → loop_inv pl client w0 s'.
Proof.
  intros [I1 I2 I3] Hi [T1 T2 T3]. split; [done|by etrans|]. intros Hc k o. rewrite T2, T3. by apply I3.
Qed.

Lemma add_forwards (os : list NodeID) (k : key) (rec : bytes) (m : gmap NodeID (list (key * bytes))) o k' : (o ∈ os ∧ k' = k) ∨ (∃ l, m !! o = Some l ∧ k' ∈ l.*1) →
  ∃ l : list (key * bytes), fold_left (λ m o, <[o := default [] (m !! o) ++ [(k, rec)]]> m) os m !! o = Some l ∧ k' ∈ l.*1.
Proof.
  revert m. induction os as [|x os IH]; intros m; simpl; [by intros [[?%not_elem_of_nil _]|?]|]. intros Hk. apply IH.
  destruct (decide (x = o)) as [->|Hne].
  - right. eexists. rewrite lookup_insert_eq. split; [done|]. rewrite fmap_app. apply elem_of_app.
    destruct Hk as [[_ ->]|(l & -> & Hl)]; [right; by left|by left].
  - rewrite lookup_insert_ne by done. destruct Hk as [[[->|?]%elem_of_cons ->]|?]; [done|by left|by right].
Qed.

Lemma tx_add_ok PCB pl client w0 s k rec w tx : loop_inv pl client w0 s → tx_add blake3 PCB pl client s k rec = (w, tx, None) →
  loop_inv pl client w0 (w, tx).
Proof.
  destruct s as [w1 tx1]. intros [I1 I2 I3]. unfold tx_add. destruct (tx_err tx1); [done|]. cbv zeta.
  set (tx2 := tx1 <| tx_keys := _ |> <| tx_chunk := _ |> <| tx_chunkBytes := _ |>). assert (tx_inv (w1, tx2)) as Hi2.
  { intros k' Hk'. simpl in *. apply elem_of_app in Hk' as [Hk'| ->%list_elem_of_singleton].
    - destruct (I1 k' Hk') as [?|[Hc|?]]; simpl in *; [by left|right; left; apply elem_of_app; by left|auto].
    - right. left. apply elem_of_app. right. by left. }
  set (s3 := if _ : bool then flushChunk blake3 (w1, tx2) else (w1, tx2)). assert (tx_inv s3 ∧ tx_same (w1, tx2) s3) as [Hi3 Hs3].
  { unfold s3. destruct (_ <=? _)%Z; [|split; [done|reflexivity]]. by destruct (flushChunk_ok _ Hi2) as (? & ? & _). }
  destruct s3 as [w3 tx3]. destruct Hs3 as [S1 S2 S3]. simpl in *. assert (runs w0 w3) as Hr by by etrans. intros [= <- <-].
  assert (∀ tx', tx_keys tx' = tx_keys tx3 → tx_chunk tx' = tx_chunk tx3 → tx_queue tx' = tx_queue tx3 → tx_err tx' = tx_err tx3 → tx_inv (w3, tx')) as Hsame.
  { intros tx' E1 E2 E3 E4 k'. simpl. rewrite E1, E2, E3, E4. apply Hi3. }
  destruct client; (split; [by apply Hsame|done|]); [|done]. intros _ k' o. simpl. rewrite S2, S3. intros Hk' Ho Hne. apply add_forwards.
  apply elem_of_app in Hk' as [Hk'| ->%list_elem_of_singleton]; [right; by apply I3|]. left. split; [|done].
  apply list_elem_of_filter. by rewrite (runs_id _ _ Hr).
Qed.

Lemma put_loop_ok PCB pl client w0 rs s total rej seen w tx rej' : loop_inv pl client w0 s →
  put_loop blake3 PCB pl client s total rej seen rs = (w, inr (tx, rej')) → loop_inv pl client w0 (w, tx).
Proof.
  revert s total rej seen. induction rs as [|[turns r] rs IH]; intros s total rej seen Hi; simpl.
  { intros [= <- <- <-]. by destruct s. }
  destruct (store_turns_ok turns s (li_tx _ _ _ _ Hi)) as (J1 & J2 & _). set (s1 := Nat.iter turns _ s) in *.
  assert (loop_inv pl client w0 s1) as Hi1 by by eapply loop_inv_same. destruct r as [e|raw]; [done|]. destruct (_ <? _)%Z; [done|].
  destruct (verifyRecord raw) as [e|[k rec]]; [by apply IH|]. destruct (negb _); [by apply IH|]. destruct (decide _); [by apply IH|].
  destruct (tx_add blake3 PCB pl client s1 k rec) as [[w2 tx2] [e|]] eqn:Ea; [by destruct (putError _ _)|]. apply IH. by eapply tx_add_ok.
Qed.

Lemma putError_type w e : m_Type (putError w e).2 = TErr.
Proof. unfold putError. by destruct (isNoSpace e). Qed.

Lemma put_loop_err PCB pl client rs s total rej seen w m : put_loop blake3 PCB pl client s total rej seen rs = (w, inl m) → m_Type m = TErr.
Proof.
  revert total rej seen s. induction rs as [|[turns r] rs IH]; intros total rej seen s; simpl; [done|].
  destruct r as [e|raw]; [by intros [= <- <-]|]. destruct (_ <? _)%Z; [by intros [= <- <-]|]. destruct (verifyRecord raw) as [e|[k rec]]; [apply IH|].
  destruct (negb _); [apply IH|]. destruct (decide _); [apply IH|]. destruct (tx_add _ _ _ _ _ _ _) as [[w3 tx3] [e|]]; [|apply IH].
  pose proof (putError_type (tx_abort blake3 (w3, tx3)) e) as Hp. destruct (putError _ _) as [w4 m4]. by intros [= <- <-].
Qed.

Lemma checkEpoch_runs w m : runs w (checkEpoch w m).1.
Proof.
  unfold checkEpoch. destruct (dn_view (nw_self w)); [|reflexivity]. destruct (_ && _); [reflexivity|].
  destruct (View_Compare _ _ _); [reflexivity| |reflexivity]. apply rtc_once, ns_refresh.
Qed.

Lemma own_holder (b : bytes) keys (h : gmap key (list bytes)) k : k ∈ keys ∨ h !! k = Some [b] → fold_left (λ h k, <[k := [b]]> h) keys h !! k = Some [b].
Proof.
  revert h. induction keys as [|x keys IH]; intros h; simpl; [by intros [?%not_elem_of_nil|?]|]. intros Hk. apply IH.
  destruct (decide (x = k)) as [->|Hne]; [right; apply lookup_insert_eq|]. rewrite lookup_insert_ne by done.
  destruct Hk as [[->|?]%elem_of_cons|?]; [done|by left|by right].
Qed.

Lemma own_holders (b : bytes) keys (h : gmap key (list bytes)) k x : x ∈ default [] (fold_left (λ h k, <[k := [b]]> h) keys h !! k) →
  x = b ∨ x ∈ default [] (h !! k).
Proof.
  revert h. induction keys as [|y keys IH]; intros h; simpl; [by right|]. intros [?|Hx]%IH; [by left|].
  destruct (decide (y = k)) as [->|Hne]; [rewrite lookup_insert_eq in Hx|rewrite lookup_insert_ne in Hx by done; by right].
  left. by apply list_elem_of_singleton in Hx.
Qed.

(** What the answer to a put says of one key. *)
Record accounted (pl : Placement) (client : bool) (me : NodeID) (w : W) (failed : list KeyFailure) (h : KeyHolders) (k : key) : Prop := {
  ac_key : kh_Key h = arr_bytes k;
  ac_me : arr_bytes me ∈ kh_Holders h;
  ac_held b : b ∈ kh_Holders h → ∃ o, b = arr_bytes o ∧ had w o k;
  ac_all o : client = true → o ∈ WriteSet pl k →
    arr_bytes o ∈ kh_Holders h ∨ ∃ f, f ∈ failed ∧ kf_Key f = arr_bytes k ∧ kf_Node f = arr_bytes o;
}.

Lemma handlePut_accounts PCB jitter w m client rs w' reply h : handlePut blake3 PCB jitter w m client rs = (w', reply) →
  m_Type reply = TPutResult → h ∈ m_Holders reply →
  ∃ k, accounted (placement_of blake3 (nw_self (checkEpoch w m).1)) client (dn_id (nw_self w)) w' (m_Failed reply) h k.
Proof.
  unfold handlePut. pose proof (checkEpoch_runs w m) as Hr0. destruct (checkEpoch w m) as [w1 [[|e]|]]; simpl in Hr0 |- *.
  1: by intros [= <- <-]; unfold staleMsg, stampReply; destruct (dn_view _).
  1: by intros [= <- <-]. destruct (negb _); [by intros [= <- <-]|]. set (pl := placement_of blake3 (nw_self w1)).
  destruct (put_loop blake3 PCB pl client (w1, newPutTx) 0 [] ∅ rs) as [w2 [mm|[tx rej]]] eqn:El.
  { intros [= <- <-] Ht. by rewrite (put_loop_err _ _ _ _ _ _ _ _ _ _ El) in Ht. }
  assert (loop_inv pl client w1 (w1, newPutTx)) as Hi0.
  { split; [intros k Hk; by apply not_elem_of_nil in Hk|reflexivity|]. intros _ k o Hk. by apply not_elem_of_nil in Hk. }
  destruct (put_loop_ok _ _ _ _ _ _ _ _ _ _ _ _ Hi0 El) as [L1 L2 L3]. simpl in L2, L3.
  unfold tx_finish. destruct (drain_ok _ L1) as [[D1 D2 D3] Dk]. destruct (drain blake3 (w2, tx)) as [w3 tx3]. simpl in D1, D2, D3, Dk.
  assert (runs w w3) as Hr3 by (etrans; [done|]; by etrans). rewrite (runs_id _ _ Hr3) in *. set (me := dn_id (nw_self w)) in *.
  assert (dn_id (nw_self w1) = me) as Eme by by rewrite (runs_id _ _ Hr0). rewrite Eme in L3.
  set (h0 := fold_left _ (tx_keys tx3) ∅). destruct (fold_left (finish_forward blake3 jitter) (map_to_list (tx_fwd tx3)) (w3, h0, [])) as [[w4 h4] f4] eqn:Ef.
  assert (fin_inv me w3 h0 [] []) as Hf0.
  { split; [|by intros o l k ?%not_elem_of_nil]. intros k b [?|Hb]%own_holders; [by left|]. by apply not_elem_of_nil in Hb. }
  destruct (finish_forwards_ok _ _ _ _ _ _ _ _ _ _ Hf0 Ef) as (Hr4 & [F1 F2] & Hm4). destruct (tx_err tx3) as [e|] eqn:Ee.
  { pose proof (putError_type w4 e) as Hp. destruct (putError w4 e) as [w5 m5]. simpl in Hp. intros [= <- <-]. by rewrite Hp. }
  intros [= <- <-] _. assert (∀ n x, m_Holders (stampReply (P := P) (DB := DB) n x) = m_Holders x ∧ m_Failed (stampReply n x) = m_Failed x) as Hst
    by (intros n x; unfold stampReply; by destruct (dn_view n)).
  match goal with |- _ ∈ m_Holders (stampReply ?n ?x) → _ => destruct (Hst n x) as [Eh Ef'] end. rewrite Eh, Ef'. simpl.
  intros (k & -> & Hk)%list_elem_of_fmap. exists k. split; simpl.
  - done.
  - apply Hm4. unfold h0. rewrite own_holder; [by left|]. left. by rewrite D2.
  - intros b [->|(o & -> & Hh)]%F1; [|eauto]. exists me. split; [done|]. eapply had_runs; [done|]. by apply Dk.
  - intros o Hc Ho. destruct (decide (o = me)) as [->|Hne].
    + left. apply Hm4. unfold h0. rewrite own_holder; [by left|]. left. by rewrite D2.
    + destruct (L3 Hc k o Hk Ho Hne) as (l & Hl & Hkl). rewrite <- D3 in Hl. apply (F2 o l k); [|done]. by apply elem_of_map_to_list.
Qed.

(** ** Serving *)

Lemma stampReply_fields (n : dnode P DB) m : m_Type (stampReply n m) = m_Type m ∧ m_Keys (stampReply n m) = m_Keys m.
Proof. unfold stampReply. by destruct (dn_view n). Qed.

(** A node that answers [missing] over the cluster ALPN holds what it does not
    report, pinned when that was asked. *)
Lemma serve_missing_ok w remote m w' r ks lacking k : serve_missing blake3 w remote m = (w', r) → m_Type r ≠ TErr → m_Keys m = RawKeys ks →
  Keys32 (m_Keys r) = Some lacking → k ∈ ks → k ∉ lacking →
  ∃ n, sees w' (dn_id (nw_self w)) n ∧ stores n k ∧ (m_Pin m = true → pins n k).
Proof.
  unfold serve_missing. destruct (cluster_gate _ remote m) as [[code text]|]; [by intros [= <- <-]|]. pose proof (checkEpoch_runs w m) as Hr.
  destruct (checkEpoch w m) as [w1 [e|]]; simpl in Hr; [by intros [= <- <-]; unfold staleMsg; destruct (stampReply_fields (nw_self w1) (ErrMsg CodeStaleView
    "request epoch is behind" <| m_View := match dn_view (nw_self w1) with Some v => marshal v | None => [] end |>)) as [-> _]|].
  unfold handleMissing. destruct (_ <? _)%Z; [by intros [= <- <-]|]. intros E Ht Ek Hl Hk Hn. revert E. rewrite Ek.
  rewrite (proj2 (Keys32_Some (RawKeys ks) ks) eq_refl). pose proof (localMissing_id blake3 (nw_self w1) ks (m_Pin m)) as Hid.
  destruct (localMissing blake3 (nw_self w1) ks (m_Pin m)) as [n [e|[la pr]]] eqn:El; [by intros [= <- <-]|]. simpl. intros [= <- <-].
  destruct (localMissing_present _ _ _ _ _ _ _ El) as (Hid' & _ & Hp). destruct (stampReply_fields n (msg0 <| m_Type := TMissingReply |> <| m_Keys := RawKeys la |>)) as [_ Ekeys].
  simpl in Ekeys. rewrite Ekeys in Hl. rewrite (proj2 (Keys32_Some (RawKeys la) la) eq_refl) in Hl. injection Hl as ->. destruct (Hp k Hk Hn) as [Hst Hpin].
  exists n. split; [|done]. rewrite <- (runs_id _ _ Hr), <- Hid'. by apply set_sees.
Qed.

Lemma confirmed_holder res k : confirmed_by res k = true ↔ ∃ h, h ∈ m_Holders res ∧ kh_Key h = arr_bytes k.
Proof.
  unfold confirmed_by. rewrite existsb_exists. split.
  - intros (h & Hh & Hk%bool_decide_eq_true). exists h. split; [by apply list_elem_of_In|done].
  - intros (h & Hh & Hk). exists h. split; [by apply list_elem_of_In|by apply bool_decide_eq_true].
Qed.
End peers.
