(* ===== verification/Forward.v ===== *)
(** The forwards of a put (src/node/put.go): the goroutine that streams a batch's records
    to one other owner beside the handler that hands them to it.

    Data.v runs a forward as one call of the network at the end of the batch.  Here the
    two goroutines take turns in any order: the handler sends, closes and gives up, the
    forwarder opens its stream, pulls records from the channel, writes them and awaits the
    reply.  [forward_exact] says that what [wait] finds is what the one call would give:
    an error, or the reply to a stream of exactly the records handed over. *)
From S2P Require Import Prelude Store Placement View Wire Ballot Proposer Catalog Meta Mark Pins GC Client Data.

Local Open Scope nat_scope.

(** * The state *)

(** Where [run] is. *)
Inductive run_pc :=
  | ROpen                       (* in pool.Open, under the forward timeout *)
  | RRegister                   (* opened, before the check of [dead] *)
  | RRequest                    (* writing the request *)
  | RPull                       (* SendPackRecords, before the next record *)
  | RWrite (rec : bytes)        (* SendPackRecords, writing a record *)
  | REnd                        (* SendPackRecords, writing the end *)
  | RAwait                      (* the select on reply, timer and context *)
  | RDone.                      (* [done] is closed *)

(** Where the handler is. *)
Inductive main_pc :=
  | MIdle
  | MSend (rec : bytes)         (* [send], waiting with its timer *)
  | MCut                        (* [abort], between [giveUp] and [close] *)
  | MWait.                      (* the channel is closed *)

(** [f_handed] and [f_out] are what was handed over and what was written to the stream;
    [f_reg] says that [giveUp] finds the stream, [f_cut] that it closed it. *)
Record forwarder := MkForwarder {
  f_ch : list bytes;
  f_keys : list key;
  f_dead : bool;
  f_err : option net_err;
  f_res : option Msg;
  f_cancelled : bool;
  f_reg : bool;
  f_cut : bool;
  f_run : run_pc;
  f_main : main_pc;
  f_handed : list (key * bytes);
  f_out : list bytes;
}.

#[global] Instance forwarder_eta : Eta forwarder := λ r,
  MkForwarder (f_ch r) (f_keys r) (f_dead r) (f_err r) (f_res r) (f_cancelled r) (f_reg r) (f_cut r) (f_run r) (f_main r) (f_handed r) (f_out r).

(** The channel of [make(chan []byte, 64)]. *)
Definition ch_cap : nat := 64.

(** A new forwarder, its goroutine started. *)
Definition forwarder0 : forwarder := MkForwarder [] [] false None None false false false ROpen MIdle [] [].

Definition f_done (f : forwarder) : bool := match f_run f with RDone => true | _ => false end.
Definition f_closed (f : forwarder) : bool := match f_main f with MWait => true | _ => false end.

(** * What the handler does *)

(** [giveUp]. *)
Definition giveUp (f : forwarder) (e : net_err) : forwarder :=
  if f_dead f then f
  else f <| f_dead := true |> <| f_err := Some e |> <| f_cancelled := true |> <| f_cut := f_cut f || f_reg f |>.

(** [fail]. *)
Definition ffail (f : forwarder) (e : net_err) : forwarder :=
  match f_err f with None => f <| f_err := Some e |> | Some _ => f end.

(** The deferred calls of [run]. *)
Definition leave (f : forwarder) : forwarder := f <| f_cancelled := true |> <| f_run := RDone |>.

(** [send] up to the first select: the key is noted. *)
Definition note (f : forwarder) (k : key) (rec : bytes) : forwarder :=
  f <| f_keys := f_keys f ++ [k] |> <| f_handed := f_handed f ++ [(k, rec)] |>.

Definition enqueue (f : forwarder) (rec : bytes) : forwarder := f <| f_ch := f_ch f ++ [rec] |> <| f_main := MIdle |>.

Definition has_room (f : forwarder) : bool := length (f_ch f) <? ch_cap.

(** The text of [errors.New("batch aborted")]. *)
Definition aborted : net_err := NErr "batch aborted".

(** * Steps

    [true]: the process takes the step by itself, at the latest when a timer of it ends.
    [false]: the step waits for the peer or the network. *)

Inductive main_step : bool → forwarder → forwarder → Prop :=
  | ms_dead f k rec : f_main f = MIdle → f_dead f = true → main_step true f (note f k rec)
  | ms_queue f k rec : f_main f = MIdle → f_dead f = false → has_room f = true → main_step true f (enqueue (note f k rec) rec)
  | ms_late f k rec : f_main f = MIdle → f_dead f = false → f_done f = true → main_step true f (note f k rec)
  | ms_block f k rec : f_main f = MIdle → f_dead f = false → has_room f = false → f_done f = false →
      main_step true f (note f k rec <| f_main := MSend rec |>)
  | ms_room f rec : f_main f = MSend rec → has_room f = true → main_step true f (enqueue f rec)
  | ms_over f rec : f_main f = MSend rec → f_done f = true → main_step true f (f <| f_main := MIdle |>)
  | ms_timer f rec : f_main f = MSend rec → main_step true f (giveUp f NDeadline <| f_main := MIdle |>)
  | ms_finish f : f_main f = MIdle → main_step true f (f <| f_main := MWait |>)
  | ms_abort f : f_main f = MIdle → main_step true f (giveUp f aborted <| f_main := MCut |>)
  | ms_close f : f_main f = MCut → main_step true f (f <| f_main := MWait |>).

(** [run].  Opening ends by its timeout, and the context of the batch may end while the
    reply is awaited.  SendPackRecords of transport-iroh streams the records it is given
    and then an end; it is at a record, writing it, or at the end.  A write may fail at any time; a write on a stream that was closed fails by
    itself, any other ends when the peer takes it or the connection breaks. *)
Inductive run_step : bool → forwarder → forwarder → Prop :=
  | rs_opened f : f_run f = ROpen → run_step false f (f <| f_run := RRegister |>)
  | rs_refused f e : f_run f = ROpen → run_step true f (leave (ffail f e))
  | rs_dead f : f_run f = RRegister → f_dead f = true → run_step true f (leave f)
  | rs_register f : f_run f = RRegister → f_dead f = false → run_step true f (f <| f_reg := true |> <| f_run := RRequest |>)
  | rs_request f : f_run f = RRequest → run_step false f (f <| f_run := RPull |>)
  | rs_pull f rec ch : f_run f = RPull → f_ch f = rec :: ch → run_step true f (f <| f_ch := ch |> <| f_run := RWrite rec |>)
  | rs_last f : f_run f = RPull → f_ch f = [] → f_closed f = true → run_step true f (f <| f_run := REnd |>)
  | rs_write f rec : f_run f = RWrite rec → run_step false f (f <| f_out := f_out f ++ [rec] |> <| f_run := RPull |>)
  | rs_end f : f_run f = REnd → run_step false f (f <| f_run := RAwait |>)
  | rs_broken f e : f_run f = RRequest ∨ (∃ rec, f_run f = RWrite rec) ∨ f_run f = REnd → run_step (f_cut f) f (leave (ffail f e))
  | rs_reply f m : f_run f = RAwait → run_step false f (leave (f <| f_res := Some m |>))
  | rs_error f e : f_run f = RAwait → run_step false f (leave (ffail f e))
  | rs_timer f : f_run f = RAwait → run_step true f (leave (ffail f NDeadline))
  | rs_ctx f e : f_run f = RAwait → run_step true f (leave (ffail f e)).

Inductive fwd_step (b : bool) (f f' : forwarder) : Prop :=
  | fw_main : main_step b f f' → fwd_step b f f'
  | fw_run : run_step b f f' → fwd_step b f f'.

Definition any_step (f f' : forwarder) : Prop := ∃ b, fwd_step b f f'.
Definition own_step (f f' : forwarder) : Prop := fwd_step true f f'.

(** What [wait] sees of the forward when [done] is closed. *)
Definition outcome (f : forwarder) : net_err + Msg :=
  match f_err f, f_res f with
  | Some e, _ => inl e
  | None, Some m => inr m
  | None, None => inl (NErr "no reply")
  end.

(** * Nothing is lost *)

(** The records on their way: written, in hand, queued, and the one [send] holds. *)
Definition in_hand (r : run_pc) : list bytes := match r with RWrite rec => [rec] | _ => [] end.
Definition held (m : main_pc) : list bytes := match m with MSend rec => [rec] | _ => [] end.
Definition on_the_way (f : forwarder) : list bytes := f_out f ++ in_hand (f_run f) ++ f_ch f ++ held (f_main f).

Record fwd_inv (f : forwarder) : Prop := {
  fi_keys : f_keys f = (f_handed f).*1;
  fi_dead : f_dead f = true → f_err f ≠ None;
  fi_whole : f_err f = None → on_the_way f = (f_handed f).*2;
  fi_done : f_run f = RDone → f_err f ≠ None ∨ (f_res f ≠ None ∧ f_closed f = true ∧ f_ch f = []);
  fi_end : f_run f = REnd ∨ f_run f = RAwait → f_closed f = true ∧ f_ch f = [];
  fi_res : f_res f ≠ None → f_run f = RDone;
  fi_cut : f_main f = MCut → f_dead f = true;
  fi_cancel : f_dead f = true → f_cancelled f = true;
  fi_reg : f_dead f = true → f_cut f = f_reg f;
  fi_uncut : f_dead f = false → f_cut f = false;
  fi_reg_run : f_reg f = true ∨ f_run f = ROpen ∨ f_run f = RRegister ∨ f_run f = RDone;
}.

Lemma fwd_inv0 : fwd_inv forwarder0.
Proof. split; try done. by intros [|]. all: auto. Qed.

(** A step opened up: the fields of the state before it, and the invariant as its parts. *)
Local Ltac open_step f := destruct f as [ch keys dead err res can reg cut run main handed out];
  unfold note, enqueue, giveUp, ffail, leave, f_done, f_closed, on_the_way, has_room in *; cbn in *; subst; try (destruct dead; cbn in * ); try (destruct err; cbn in * ).

Local Ltac close_part := cbn; rewrite ?fmap_app; try done;
  solve [ match goal with |- _ ∨ _ => intuition congruence end
        | by intros; simplify_eq; auto
        | let E := fresh in intros E; repeat match goal with H : ?P → _, H' : ?P |- _ => specialize (H H') end; rewrite ?app_nil_r in *; cbn in *; rewrite <- ?app_assoc in *; cbn in *; intuition congruence
        | let E := fresh in intros E; exfalso; intuition congruence ].

Lemma main_step_inv b f f' : main_step b f f' → fwd_inv f → fwd_inv f'.
Proof.
  intros Hs [H1 H2 H3 H4 H5 H6 H7 H8 H9 H10 H11].
  destruct Hs as [f k rec Hm Hd|f k rec Hm Hd Hr|f k rec Hm Hd Hdn|f k rec Hm Hd Hr Hdn|f rec Hm Hr|f rec Hm Hdn|f rec Hm|f Hm|f Hm|f Hm].
  all: open_step f; split; try close_part.
  1-4: unfold on_the_way; cbn; intros _; rewrite ?fmap_app, <- H3 by done; cbn; rewrite <- ?app_assoc, ?app_nil_r; try done.
  1-2: destruct run; try done; destruct H4 as [|(_ & ? & _)]; done.
  all: intros _; cbn; by rewrite H10.
Qed.

Lemma run_step_inv b f f' : run_step b f f' → fwd_inv f → fwd_inv f'.
Proof.
  intros Hs [H1 H2 H3 H4 H5 H6 H7 H8 H9 H10 H11].
  destruct Hs as [f Hr|f e Hr|f Hr Hd|f Hr Hd|f Hr|f rec ch0 Hr Hc|f Hr Hc Hcl|f rec Hr|f Hr|f e Hr|f m Hr|f e Hr|f Hr|f e Hr].
  all: open_step f; split; try close_part.
Qed.

Lemma fwd_reachable f : rtc any_step forwarder0 f → fwd_inv f.
Proof.
  assert (∀ f f', rtc any_step f f' → fwd_inv f → fwd_inv f') as Hr; [|intros Hs; by apply (Hr _ _ Hs), fwd_inv0].
  induction 1 as [|f1 f2 f3 [b [Hs|Hs]] _ IH]; [done| |]; intros Hi; apply IH; [by eapply main_step_inv|by eapply run_step_inv].
Qed.

(** * What the handler finds *)

(** The forward reported an error, or the reply to all that was handed over. *)
Definition settled (f : forwarder) : Prop :=
  match outcome f with
  | inl e => f_err f = Some e
  | inr m => f_res f = Some m ∧ f_out f = (f_handed f).*2
  end.

Lemma done_settled f : fwd_inv f → f_main f = MWait → f_done f = true → settled f.
Proof.
  intros [_ _ Hw Hdone _ _ _ _ _ _ _] Hm Hd. unfold settled, outcome.
  destruct (f_err f) as [e|]; [done|]. unfold f_done in Hd. destruct (f_run f) eqn:Er; try done.
  destruct (Hdone eq_refl) as [|(Hres & _ & Hch)]; [done|]. destruct (f_res f) as [m|]; [|done]. split; [done|].
  specialize (Hw eq_refl). unfold on_the_way in Hw. rewrite Er, Hm, Hch in Hw. cbn in Hw. by rewrite app_nil_r in Hw.
Qed.

(** C13 A forward is what one call would be: whatever the order in which the handler and
    the goroutine of the forward take their turns, when [wait] returns it finds either an
    error, for all the keys that were handed over, or the owner's reply to a stream that
    carried exactly the records handed over, in their order, and its end.  No record is
    dropped because the channel was full, the stream broke or the peer was given up, and
    yet counted as sent. *)
Theorem forward_exact f : rtc any_step forwarder0 f → f_main f = MWait → f_done f = true → f_keys f = (f_handed f).*1 ∧ settled f.
Proof. intros Hr Hm Hd. pose proof (fwd_reachable f Hr) as Hi. split; [apply (fi_keys _ Hi)|by apply done_settled]. Qed.

(** A record is handed over, written and confirmed. *)
Definition sent_one (k : key) (rec : bytes) (m : Msg) : forwarder :=
  MkForwarder [] [k] false None (Some m) true true false RDone MWait [(k, rec)] [rec].

Lemma sent_one_reached k rec m : rtc any_step forwarder0 (sent_one k rec m).
Proof.
  eapply rtc_l; [exists false; by apply fw_run, rs_opened|]. eapply rtc_l; [exists true; by apply fw_run, rs_register|].
  eapply rtc_l; [exists false; by apply fw_run, rs_request|]. eapply rtc_l; [exists true; by apply fw_main, (ms_queue _ k rec)|].
  eapply rtc_l; [exists true; by apply fw_run, (rs_pull _ rec [])|]. eapply rtc_l; [exists false; by apply fw_run, (rs_write _ rec)|].
  eapply rtc_l; [exists true; by apply fw_main, ms_finish|]. eapply rtc_l; [exists true; by apply fw_run, rs_last|].
  eapply rtc_l; [exists false; by apply fw_run, rs_end|]. eapply rtc_l; [exists false; by apply fw_run, (rs_reply _ m)|]. apply rtc_refl.
Qed.

Lemma forward_exact_witness : let f := sent_one (arr_of 32 [x01]) [x02] (msg0 <| m_Type := TPutResult |>) in
  f_keys f = [arr_of 32 [x01]] ∧ outcome f = inr (msg0 <| m_Type := TPutResult |>) ∧ settled f.
Proof.
  cbn zeta. split; [reflexivity|]. split; [reflexivity|].
  apply (forward_exact (sent_one (arr_of 32 [x01]) [x02] (msg0 <| m_Type := TPutResult |>)) (sent_one_reached _ _ _)); reflexivity.
Defined.

Section wait.
Context (blake3 : bytes → nat → bytes) {P DB W : Type} `{Core} `{PackStore P} `{KVStore DB} `{Net P DB W}.

(** [wait], once [done] is closed. *)
Definition fwait (w : W) (f : forwarder) : W * list key * gmap key string :=
  fwd_wait blake3 w (f_keys f) (match outcome f with inl e => inl (PFail e) | inr m => inr m end).

(** It settles the keys as the end of a batch in Data.v does for a put of the records
    handed over. *)
Theorem wait_as_one_call f w : rtc any_step forwarder0 f → f_main f = MWait → f_done f = true → ∃ r : put_err + Msg,
  fwait w f = fwd_wait blake3 w (f_handed f).*1 r ∧ match r with inl e => f_err f = Some (put_cause e) | inr m => f_res f = Some m ∧ f_out f = (f_handed f).*2 end.
Proof.
  intros Hr Hm Hd. pose proof (fwd_reachable f Hr) as Hi. pose proof (done_settled f Hi Hm Hd) as Hs. unfold settled in Hs. unfold fwait. rewrite (fi_keys _ Hi).
  destruct (outcome f) as [e|m]; [by exists (inl (PFail e))|by exists (inr m)].
Qed.
End wait.

(** * Ends *)

(** The steps left once the channel is closed. *)
Definition steps_left (f : forwarder) : nat :=
  let n := 2 * length (f_ch f) in
  match f_run f with
  | ROpen => n + 7 | RRegister => n + 6 | RRequest => n + 5 | RPull => n + 4 | RWrite _ => n + 5 | REnd => 2 | RAwait => 1 | RDone => 0
  end.

Lemma closed_step f f' : f_main f = MWait → any_step f f' → f_main f' = MWait ∧ f_dead f' = f_dead f ∧ steps_left f' < steps_left f.
Proof.
  intros Hm [b [Hs|Hs]].
  - destruct Hs; congruence.
  - destruct Hs as [f Hr|f e Hr|f Hr Hd|f Hr Hd|f Hr|f rec ch0 Hr Hc|f Hr Hc Hcl|f rec Hr|f Hr|f e Hr|f m Hr|f e Hr|f Hr|f e Hr].
    all: destruct f as [ch keys dead err res can reg cut run main handed out]; unfold ffail, leave, steps_left in *; cbn in *; subst; try destruct err; cbn; try (split_and!; [done|done|lia]).
    all: split_and!; [done|done|]. all: destruct Hr as [->|[[rec ->]| ->]]; lia.
Qed.

Lemma closed_bound n f f' : f_main f = MWait → nsteps any_step n f f' → n + steps_left f' ≤ steps_left f.
Proof.
  intros Hm Hn. induction Hn as [|n f1 f2 f3 H12 _ IH]; [lia|]. destruct (closed_step f1 f2 Hm H12) as (Hm2 & _ & Hl). specialize (IH Hm2). lia.
Qed.

(** With the stream given up and the channel closed the goroutine goes on by itself. *)
Lemma given_up_goes_on f : fwd_inv f → f_main f = MWait → f_dead f = true → f_done f = true ∨ ∃ f', own_step f f'.
Proof.
  intros [_ _ _ _ _ _ _ Hca Hreg _ Hrr] Hm Hd. unfold f_done.
  assert (f_reg f = true → (f_run f = RRequest ∨ (∃ rec, f_run f = RWrite rec) ∨ f_run f = REnd) → ∃ f', own_step f f') as Hcut.
  { intros Hr Hp. eexists. apply fw_run. pose proof (rs_broken f NDeadline Hp) as Hb. rewrite Hreg, Hr in Hb by done. exact Hb. }
  destruct (f_run f) as [| | | |rec| | |] eqn:Er; [right..|by left].
  - eexists. by apply fw_run, (rs_refused f NDeadline).
  - eexists. by apply fw_run, rs_dead.
  - apply Hcut; [|by left]. by destruct Hrr as [|[|[|]]].
  - destruct (f_ch f) as [|rec ch] eqn:Ec; eexists; apply fw_run; [apply rs_last; try done; unfold f_closed; by rewrite Hm|by eapply rs_pull].
  - apply Hcut; [|right; left; by exists rec]. by destruct Hrr as [|[|[|]]].
  - apply Hcut; [|by right; right]. by destruct Hrr as [|[|[|]]].
  - eexists. by apply fw_run, rs_timer.
Qed.

(** An aborted batch does not wait for its forwards' peers: after [giveUp] and [close]
    the goroutine ends whatever the peer does, within a number of steps that the records
    in the channel bound, and it can do so without a step of the peer. *)
Theorem abort_ends f : rtc any_step forwarder0 f → f_main f = MWait → f_dead f = true →
  (∃ f', rtc own_step f f' ∧ f_done f' = true) ∧ ∀ n f', nsteps any_step n f f' → n ≤ 2 * length (f_ch f) + 7.
Proof.
  intros Hr Hm Hd. split.
  - pose proof (fwd_reachable f Hr) as Hi. clear Hr. remember (steps_left f) as k eqn:Ek. revert f Ek Hm Hd Hi. induction (lt_wf k) as [k _ IH]. intros f -> Hm Hd Hi.
    destruct (given_up_goes_on f Hi Hm Hd) as [Hdone|[f1 H1]]; [by exists f|]. destruct (closed_step f f1 Hm (ex_intro _ true H1)) as (Hm1 & Hd1 & Hl).
    destruct (IH (steps_left f1) Hl f1 eq_refl Hm1) as (f' & Hs & Hdone); [congruence| |exists f'; split; [by eapply rtc_l|done]].
    destruct H1 as [H1|H1]; [by eapply main_step_inv|by eapply run_step_inv].
  - intros n f' Hn. pose proof (closed_bound n f f' Hm Hn). assert (steps_left f ≤ 2 * length (f_ch f) + 7); [|lia]. unfold steps_left. destruct (f_run f); lia.
Qed.

(** A send returns by itself: at the latest its timer ends it. *)
Theorem send_returns f rec : f_main f = MSend rec → ∃ f', own_step f f' ∧ f_main f' = MIdle.
Proof. intros Hm. eexists. split; [by apply fw_main, (ms_timer f rec)|]. by destruct f. Qed.

(** Neither goroutine goes on while a write waits for the peer. *)
Lemma stalled f f' rec : f_main f = MWait → f_run f = RWrite rec → f_cut f = false → ¬ own_step f f'.
Proof.
  intros Hm Hr Hc [Hs|Hs]; remember true as b eqn:Eb; destruct Hs; congruence.
Qed.

(** The end of a batch is not bounded: when an owner stops reading while a record is
    written to it, the handler waits in [finish] and neither goroutine has a step of its
    own left.  The timers are those of [send], of opening and of the reply; the writes of
    the request, of the records and of the end have none. *)
Theorem finish_waits_for_stalled_owner (k : key) (rec : bytes) : ∃ f, rtc any_step forwarder0 f ∧ f_main f = MWait ∧ f_dead f = false ∧ f_done f = false ∧ ∀ f', ¬ own_step f f'.
Proof.
  set (f1 := forwarder0 <| f_run := RRegister |>). set (f2 := f1 <| f_reg := true |> <| f_run := RRequest |>).
  set (f3 := enqueue (note f2 k rec) rec). set (f4 := f3 <| f_run := RPull |>). set (f5 := f4 <| f_ch := [] |> <| f_run := RWrite rec |>). set (f6 := f5 <| f_main := MWait |>).
  exists f6. split_and!; [|done|done|done|].
  - eapply rtc_l; [exists false; by apply fw_run, (rs_opened forwarder0)|]. eapply rtc_l; [exists true; by apply fw_run, (rs_register f1)|].
    eapply rtc_l; [exists true; by apply fw_main, (ms_queue f2 k rec)|]. eapply rtc_l; [exists false; by apply fw_run, (rs_request f3)|].
    eapply rtc_l; [exists true; by apply fw_run, (rs_pull f4 rec [])|]. apply rtc_once. exists true. by apply fw_main, (ms_finish f5).
  - intros f'. by apply (stalled f6 f' rec).
Qed.
