(* ===== verification/NodeNet.v ===== *)
(** A cluster of nodes that run the handlers of Data.v, as an instance of the
    network's class: between any two operations every node may do anything, and a
    request may be lost, or be served and its reply lost. *)
From S2P Require Import Prelude Store Placement View Wire Ballot Proposer Catalog Meta Mark Pins GC Data DataSafety.

Local Open Scope N_scope.

(** * One node on its own *)

(** Serving a request of the cluster ALPN a node calls nobody. *)
Record solo (P DB : Type) := MkSolo { so_node : dnode P DB; so_past : list (dnode P DB); so_now : Z; so_newest : option View }.
Arguments MkSolo {P DB}.
Arguments so_node {P DB}.
Arguments so_past {P DB}.
Arguments so_now {P DB}.
Arguments so_newest {P DB}.

Section solo.
Context `{Core} {P DB : Type} `{PackStore P} `{!PackStoreOK P} `{KVStore DB} `{Codec View}.

Definition solo_set (s : solo P DB) (n : dnode P DB) : solo P DB := MkSolo n (n :: so_past s) (so_now s) (so_newest s).

#[global] Instance solo_net : Net P DB (solo P DB) := {
  nw_self s := so_node s;
  nw_set s n := solo_set s n;
  nw_now s := so_now s;
  nw_call s _ _ := (s, inl (NErr "alone"));
  nw_put s _ _ _ := (s, inl (POpen (NErr "alone")));
  nw_cut s _ _ _ := s;
  nw_get s _ _ := (s, inl (POpen (NErr "alone")));
  nw_refresh s := match so_newest s with Some v => solo_set s (adopt (so_node s) v) | None => s end;
  nw_adopt s v := solo_set s (adopt (so_node s) v);
}.

Lemma adopt_id (n : dnode P DB) v : dn_id (adopt n v) = dn_id n.
Proof. unfold adopt. destruct (match dn_view n with Some _ => _ | None => _ end); [done|]. by destruct (Set_key _ _ _) as [[e|] d]. Qed.

#[global] Instance solo_peers : Peers P DB (solo P DB).
Proof.
  refine {| sees := λ s o n, o = dn_id (so_node s) ∧ n ∈ so_past s |}.
  - intros w w' o n Hs [-> Hn]. destruct Hs as [x Hx| | | | | |v]; simpl in *; try done.
    + split; [done|by right].
    + destruct (so_newest w); [|done]. simpl. split; [by rewrite adopt_id|by right].
    + split; [by rewrite adopt_id|by right].
  - intros w w' Hs. destruct Hs as [x Hx| | | | | |v]; simpl in *; try done.
    + destruct (so_newest w); [|done]. simpl. apply adopt_id.
    + apply adopt_id.
  - intros w n Hn. simpl in *. split; [done|by left].
  - done.
  - done.
  - done.
  - done.
Defined.
End solo.

(** * The cluster *)

(** What happens to a request. *)
Inductive fate := Lost | Served (replied : bool).

Record cluster (P DB : Type) := MkCluster {
  cl_nodes : NodeID → dnode P DB;
  cl_me : NodeID;
  cl_log : list (NodeID * dnode P DB);   (* the states the nodes were seen in *)
  cl_step : nat;
}.
Arguments MkCluster {P DB}.
Arguments cl_nodes {P DB}.
Arguments cl_me {P DB}.
Arguments cl_log {P DB}.
Arguments cl_step {P DB}.

(** What the operation of each number meets: the other activity of the nodes, the
    fate of the request, the clock, the newest view of the catalog, the pace of the
    store workers, where a stream is cut. *)
Class Chance (P DB : Type) := {
  ch_env : nat → NodeID → dnode P DB → dnode P DB;
  ch_fate : nat → fate;
  ch_clock : nat → Z;
  ch_newest : nat → option View;
  ch_turns : nat → bytes → nat;
  ch_cut : nat → nat;
}.

Section cluster.
Context (blake3 : bytes → nat → bytes) `{Core} {P DB : Type} `{PackStore P} `{!PackStoreOK P} `{KVStore DB} `{!Reliable DB} `{Codec View} `{!CoreOK}.
Context (PutChunkBytes : Z) (jitter : NodeID → key → Z) `{Chance P DB}.
Implicit Types c : cluster P DB.

Definition node_at c (o : NodeID) : dnode P DB := cl_nodes c o <| dn_id := o |>.

(** A node in a new state, with the states it went through. *)
Definition put_node c (o : NodeID) (n : dnode P DB) (past : list (dnode P DB)) : cluster P DB :=
  MkCluster (λ x, if decide (x = o) then n else cl_nodes c x) (cl_me c) (((λ n, (o, n)) <$> past) ++ cl_log c) (cl_step c).

Definition cl_set c (n : dnode P DB) : cluster P DB := put_node c (cl_me c) n [n].

Definition tick c : cluster P DB := MkCluster (λ o, ch_env (cl_step c) o (cl_nodes c o)) (cl_me c) (cl_log c) (S (cl_step c)).

Definition solo_at c (o : NodeID) : solo P DB := MkSolo (node_at c o) [node_at c o] (ch_clock (cl_step c)) (ch_newest (cl_step c)).

(** Serving a request at [o]: the cluster and what the caller gets. *)
Definition serve {A} c (o : NodeID) (f : solo P DB → solo P DB * A) (lost : A) : cluster P DB * A :=
  let c := tick c in
  match ch_fate (cl_step c) with
  | Lost => (c, lost)
  | Served replied =>
      let '(s, a) := f (solo_at c o) in
      (put_node c o (so_node s) (so_past s), if replied then a else lost)
  end.

Definition raw_of (rec : bytes) : string + RawRecord :=
  match ParseRecord rec with inl e => inl e | inr r => inr (MkRawRecord (raw_Key r) (raw_Flags r) (raw_Ulen r) rec) end.

(** [Expect]: an error frame is an error, and so is a frame of another type. *)
Definition expected (want : Z) (m : Msg) : net_err + Msg :=
  if (m_Type m =? TErr)%Z then inl (NWire (ErrRemote (ErrorFromMsg m)))
  else if (m_Type m =? want)%Z then inr m else inl (NWire (ErrProtocol (m_Type m) want)).

Definition serve_call (me : NodeID) (m : Msg) (s : solo P DB) : solo P DB * (net_err + Msg) :=
  if (m_Type m =? TMissing)%Z then let '(s, r) := serve_missing blake3 s me m in (s, expected TMissingReply r)
  else (s, expected TMissingReply (ErrMsg CodeBadRequest "unknown cluster operation")).

Definition serve_put (me : NodeID) (m : Msg) (i : nat) (recs : list (string + bytes)) (s : solo P DB) : solo P DB * (put_err + Msg) :=
  match cluster_gate (dn_view (so_node s)) me m with
  | Some (code, text) => (s, inl (PFail (NWire (ErrRemote (ErrorFromMsg (ErrMsg code text))))))
  | None =>
      let rs := (λ r, match r with inl e => (0%nat, inl e) | inr rec => (ch_turns i rec, raw_of rec) end) <$> recs in
      let '(s, r) := handlePut blake3 PutChunkBytes jitter s m false rs in
      (s, match expected TPutResult r with inl e => inl (PFail e) | inr r => inr r end)
  end.

Definition serve_get (me : NodeID) (m : Msg) (s : solo P DB) : solo P DB * (put_err + list RawRecord * option string) :=
  match cluster_gate (dn_view (so_node s)) me m with
  | Some (code, text) => (s, inl (PFail (NWire (ErrRemote (ErrorFromMsg (ErrMsg code text))))))
  | None =>
      match handleGet blake3 (so_node s) m with
      | (n, inl r) => (solo_set s n, inl (PFail (NWire (ErrRemote (ErrorFromMsg r)))))
      | (n, inr (_, recs, e)) => (solo_set s n, inr (omap (λ rec, match raw_of rec with inl _ => None | inr raw => Some raw end) recs, e))
      end
  end.

#[local] Instance cluster_net : Net P DB (cluster P DB) := {
  nw_self c := node_at c (cl_me c);
  nw_set c n := cl_set c n;
  nw_now c := ch_clock (cl_step c);
  nw_call c o m := serve c o (serve_call (cl_me c) m) (inl NDeadline);
  nw_put c o m recs := serve c o (serve_put (cl_me c) m (cl_step c) (inr <$> recs)) (inl (PFail NDeadline));
  nw_cut c o m recs := (serve c o (serve_put (cl_me c) m (cl_step c) ((inr <$> take (ch_cut (cl_step c)) recs) ++ [inl "cut"%string])) (inl (PFail NDeadline))).1;
  nw_get c o m := serve c o (serve_get (cl_me c) m) (inl (PFail NDeadline));
  nw_refresh c := let c := tick c in match ch_newest (cl_step c) with Some v => cl_set c (adopt (node_at c (cl_me c)) v) | None => c end;
  nw_adopt c v := let c := tick c in cl_set c (adopt (node_at c (cl_me c)) v);
}.

Lemma serve_grows {A} c o (f : solo P DB → solo P DB * A) lost : cl_me (serve c o f lost).1 = cl_me c ∧ ∀ x, x ∈ cl_log c → x ∈ cl_log (serve c o f lost).1.
Proof.
  unfold serve. cbv zeta. destruct (ch_fate _); [done|]. destruct (f _) as [s a]. simpl. split; [done|]. intros x Hx. apply elem_of_app. by right.
Qed.

(** A reply was served, and the states the node went through are in the log. *)
Lemma serve_replied {A} c o (f : solo P DB → solo P DB * A) lost c' a : serve c o f lost = (c', a) → a ≠ lost →
  ∃ s, f (solo_at (tick c) o) = (s, a) ∧ ∀ n, n ∈ so_past s → (o, n) ∈ cl_log c'.
Proof.
  unfold serve. cbv zeta. destruct (ch_fate _) as [|[]]; [by intros [= <- <-]| |by destruct (f _); intros [= <- <-]].
  destruct (f (solo_at (tick c) o)) as [s a1]. intros [= <- <-] _. exists s. split; [done|]. intros n Hn. simpl. apply elem_of_app. left. by apply list_elem_of_fmap_2.
Qed.

Lemma node_at_set c n : dn_id n = cl_me c → node_at (cl_set c n) (cl_me c) = n.
Proof. intros Hn. unfold node_at, cl_set. simpl. rewrite decide_True by done. rewrite <- Hn. by destruct n. Qed.

Lemma expected_ok want m r : expected want m = inr r → r = m ∧ m_Type m = want ∧ m_Type m ≠ TErr.
Proof.
  unfold expected. destruct (Z.eqb_spec (m_Type m) TErr); [done|]. destruct (Z.eqb_spec (m_Type m) want); [|done]. by intros [= <-].
Qed.

#[local] Instance cluster_peers : Peers P DB (cluster P DB).
Proof.
  refine {| sees := λ c o n, (o, n) ∈ cl_log c |}.
  - intros w w' o n Hs Hn. destruct Hs; simpl; try (by apply serve_grows); try (by right). destruct (ch_newest _); [by right|done].
  - intros w w' Hs. assert (cl_me w' = cl_me w) as Hm; [|done]. destruct Hs; simpl; try apply serve_grows; try done. by destruct (ch_newest _).
  - intros w n Hn. simpl in *. rewrite Hn. by left.
  - intros w n Hn. exact (node_at_set w n Hn).
  - intros w o m w' r ks lacking k E Ht Ek El Hk Hn. apply serve_replied in E as (s & Es & Hlog); [|done]. unfold serve_call in Es. rewrite Ht in Es. simpl in Es.
    destruct (serve_missing blake3 (solo_at (tick w) o) (cl_me w) m) as [s1 r1] eqn:Em. injection Es as -> Er. apply expected_ok in Er as (-> & _ & Hne).
    destruct (serve_missing_ok blake3 _ _ _ _ _ ks lacking k Em Hne Ek El Hk Hn) as (n & [_ Hs] & Hst). exists n. split; [by apply Hlog|done].
  - intros w o m recs w' r k E Ht Hc. apply serve_replied in E as (s & Es & Hlog); [|done]. unfold serve_put in Es.
    destruct (cluster_gate _ _ _) as [[code text]|]; [done|]. cbv zeta in Es. set (rs := fmap _ _) in Es.
    destruct (handlePut blake3 PutChunkBytes jitter (solo_at (tick w) o) m false rs) as [s1 r1] eqn:Ep. injection Es as -> Er.
    destruct (expected TPutResult r1) as [|r2] eqn:Ee; [done|]. injection Er as ->. apply expected_ok in Ee as (-> & Hty & _).
    apply confirmed_holder in Hc as (h & Hh & Hkh). destruct (handlePut_accounts blake3 _ _ _ _ _ _ _ _ _ Ep Hty Hh) as (k' & [A1 A2 A3 _]).
    rewrite A1 in Hkh. apply arr_eq in Hkh. subst k'. destruct (A3 _ A2) as (o' & _ & n & [_ Hs] & Hst). exists n. split; [by apply Hlog|done].
  - intros w o m w' raws broke raw r E Hraw Hp. apply serve_replied in E as (s & Es & _); [|done]. unfold serve_get in Es.
    destruct (cluster_gate _ _ _) as [[code text]|]; [done|]. destruct (handleGet _ _ _) as [n [|[[? recs] e]]]; [done|]. injection Es as <- <- <-.
    apply list_elem_of_omap in Hraw as (rec & _ & Hx). unfold raw_of in Hx. destruct (ParseRecord rec) as [|r'] eqn:Epr; [done|]. injection Hx as <-.
    simpl in *. rewrite Epr in Hp. by injection Hp as <-.
Defined.

(** A node of the cluster was seen with the record in place. *)
Definition seen_with c (o : NodeID) (k : key) : Prop := ∃ n, (o, n) ∈ cl_log c ∧ stores n k.

(** C12 The answer to a client's put accounts for every owner: for each key it lists,
    the node itself and every holder named were seen with the record in place, and
    every other owner under the placement and a pending one is either named as a
    holder or reported as failed.  This holds for every interleaving of the store
    worker, every loss on the network and whatever else the nodes do. *)
Theorem put_accounted c (m : Msg) (rs : list (nat * (string + RawRecord))) c' (reply : Msg) h :
  handlePut blake3 PutChunkBytes jitter c m true rs = (c', reply) → m_Type reply = TPutResult → h ∈ m_Holders reply →
  ∃ k, kh_Key h = arr_bytes k ∧ arr_bytes (cl_me c) ∈ kh_Holders h ∧
    (∀ b, b ∈ kh_Holders h → ∃ o, b = arr_bytes o ∧ seen_with c' o k) ∧
    ∀ o, o ∈ WriteSet (placement_of blake3 (nw_self (checkEpoch c m).1)) k →
      arr_bytes o ∈ kh_Holders h ∨ ∃ f, f ∈ m_Failed reply ∧ kf_Key f = arr_bytes k ∧ kf_Node f = arr_bytes o.
Proof.
  intros E Ht Hh. destruct (handlePut_accounts blake3 _ _ _ _ _ _ _ _ _ E Ht Hh) as (k & [A1 A2 A3 A4]). exists k. split; [done|]. split; [done|].
  split; [done|]. intros o. by apply A4.
Qed.
End cluster.

(** * A small cluster

    Keys spell out their payload after a byte for the type and one for the length;
    a tree's payload lists the fill bytes of its blobs.  A pack store is the list
    of its segments. *)

Definition small_key (ty : byte) (d : bytes) : key := arr_of 32 (ty :: x1e :: d).
Definition small_blob (b : byte) : key := small_key x00 (replicate 30 b).
Definition small_tree (kids : bytes) : key := small_key x03 (take 30 (kids ++ replicate 30 x00)).

#[export] Instance small_core : Core := {
  KType := byte;
  Blob := x00;
  XattrSet := x01;
  Commit := x02;
  key_Type k := nth 0 (arr_bytes k) x00;
  key_Length k := Byte.to_N (nth 1 (arr_bytes k) x00);
  key_String k := to_string (hex_encode k);
  key_Parse b := if bool_decide (length b = 32%nat) then None else Some "key length"%string;
  key_Validate k := None;
  key_New ty len d := if bool_decide (length d = 30%nat) then inr (arr_of 32 (ty :: byte_of_N len :: d)) else inl "size"%string;
  RecHeaderSize := 2;
  ParseRecord rec := inr (MkRawRecord (arr_of 32 rec) 0 0 rec);
  DecodePayload _ _ b := inr b;
  commit_Trees _ := inr [];
  Footprint n _ := inr n;
  ChildKeys_of _ d := inr (small_blob <$> filter (λ b, b ≠ x00) d);
}.

Lemma small_content k : is_content k (drop 2 (arr_bytes k)).
Proof.
  unfold is_content. cbn -[arr_of]. pose proof (arr_length k) as Hl. rewrite bool_decide_eq_true_2 by (rewrite length_drop; lia). f_equal.
  apply arr_eq. destruct (arr_bytes k) as [|a [|b l]] eqn:E; [done|done|]. simpl drop. simpl nth. rewrite byte_of_N_to_N.
  by apply arr_of_exact.
Qed.

#[export] Instance small_coreok : CoreOK.
Proof.
  split. intros k d d'. assert (∀ d, is_content k d → d = drop 2 (arr_bytes k)) as Hd; [|intros H1 H2; rewrite (Hd d), (Hd d'); done].
  clear d d'. intros d. unfold is_content. cbn -[arr_of]. case_bool_decide as Hl; [|done]. intros [= <-].
  rewrite arr_of_exact; [done|]. simpl. lia.
Qed.

Notation small_store := (list (N * list key)).

Definition small_keys (p : small_store) : gset key := list_to_set (concat p.*2).

#[export] Instance small_pack : PackStore small_store := {
  ps_Has p k := inr (bool_decide (k ∈ small_keys p));
  ps_Missing p ks := inr (filter (λ k, k ∉ small_keys p) ks);
  ps_Sync p := (p, None);
  ps_Get p k := if bool_decide (k ∈ small_keys p) then inr (drop 2 (arr_bytes k)) else inl ErrNotFound;
  ps_GetRecord p k := if bool_decide (k ∈ small_keys p) then inr (arr_bytes k) else inl ErrNotFound;
  ps_SortByLocation p ks := ks;
  ps_WriteParallel p l := (p ++ [(N.of_nat (length p), l.*1)], None);
  ps_Segments p := inr p.*1;
  ps_ScanIndex p id := match list_find (λ s, s.1 = id) p with Some (_, s) => inr ((λ k, (k, 0)) <$> s.2) | None => inl "no segment"%string end;
  ps_Record p id off := inl "no record"%string;
  ps_seal p := p;
}.

#[export] Instance small_packok : PackStoreOK small_store.
Proof.
  refine {| ps_keys := small_keys |}.
  - intros p k b. simpl. by intros [= <-].
  - intros p ks miss k. simpl. intros [= <-]. rewrite list_elem_of_filter. tauto.
  - done.
  - intros p l p'. simpl. intros [= <-]. unfold small_keys. rewrite fmap_app, concat_app. simpl. rewrite app_nil_r. by rewrite list_to_set_app_L.
  - intros p l. simpl. unfold small_keys. rewrite fmap_app, concat_app, list_to_set_app_L. set_solver.
  - intros p k d. simpl. case_bool_decide; [|done]. intros [= <-]. apply small_content.
  - intros p k rec r d. cbn -[arr_of is_content]. case_bool_decide; [|done]. intros [= <-] [= <-] [= <-]. apply small_content.
Defined.

Definition small_gc : gcState (gmap bytes bytes) := MkGcState ∅ (MkGCMeta 7 0 0) None None ∅ false ∅ 0.

(** Three nodes, two replicas of everything, both required. *)
Definition small_view : View := toy_view [x01] [toy_node x01 5 "a"; toy_node x02 5 "b"; toy_node x03 5 "c"] 2 None <| MinReplicas := 2 |>.

Definition small_node (p : small_store) (cache : gmap key Z) (b : byte) : dnode small_store (gmap bytes bytes) :=
  MkDnode (toy_id b) p small_gc (Some small_view) true ∅ cache ∅ ∅.

(** Nothing else happens, and nothing is lost before the step given. *)
Definition small_chance (lost : nat) : Chance small_store (gmap bytes bytes) := {|
  ch_env _ _ n := n;
  ch_fate i := if (lost <=? i)%nat then Lost else Served true;
  ch_clock i := (1000 + Z.of_nat i)%Z;
  ch_newest _ := None;
  ch_turns _ _ := 1%nat;
  ch_cut _ := 0%nat;
|}.

Definition small_cluster (p : small_store) (cache : gmap key Z) : cluster small_store (gmap bytes bytes) :=
  MkCluster (λ o, small_node p cache x00) (toy_id x01) [] 0.

#[export] Instance small_net : Net small_store (gmap bytes bytes) (cluster small_store (gmap bytes bytes)) :=
  cluster_net toy_blake3 10 (λ _ _, 0%Z) (H4 := small_chance 100).
#[export] Instance small_peers : Peers small_store (gmap bytes bytes) (cluster small_store (gmap bytes bytes)) :=
  cluster_peers toy_blake3 10 (λ _ _, 0%Z) (H4 := small_chance 100).

(** A client's put of two blobs and a damaged record, at an owner of the first. *)
Definition small_raw (k : key) : RawRecord := MkRawRecord k 0 0 (arr_bytes k).
Definition small_bad : RawRecord := MkRawRecord (small_blob x07) 0 0 [x00].

Definition small_puts : list (nat * (string + RawRecord)) :=
  [(0%nat, inr (small_raw (small_blob x05))); (1%nat, inr small_bad); (1%nat, inr (small_raw (small_blob x06)))].

Definition small_put_req : Msg := msg0 <| m_Type := TPut |> <| m_Incarnation := 1 |> <| m_Epoch := 1 |>.

Definition small_holders : KeyHolders := MkKeyHolders (arr_bytes (small_blob x06)) [arr_bytes (toy_id x01); arr_bytes (toy_id x03)].

Lemma put_accounted_witness : ∃ c' k, kh_Key small_holders = arr_bytes k ∧ seen_with c' (toy_id x03) k.
Proof.
  destruct (handlePut toy_blake3 10 (λ _ _, 0%Z) (small_cluster [] ∅) small_put_req true small_puts) as [c' reply] eqn:E.
  assert (m_Type reply = TPutResult ∧ head (m_Holders reply) = Some small_holders) as [Ht Hh].
  { change reply with (c', reply).2. rewrite <- E. split; computes. }
  destruct (put_accounted (H4 := small_chance 100) toy_blake3 10 (λ _ _, 0%Z) (small_cluster [] ∅) small_put_req small_puts c' reply small_holders E Ht)
    as (k & Hk & _ & Hb & _).
  - destruct (m_Holders reply) as [|x l]; [discriminate Hh|]. injection Hh as ->. by left.
  - exists c', k. split; [exact Hk|]. destruct (Hb (arr_bytes (toy_id x03))) as (o & Ho & Hs); [right; by left|]. apply arr_eq in Ho. by subst o.
Defined.
