(* ===== verification/Gate.v ===== *)
(** The reference handlers of a node (src/node/refs.go): the completeness gate of
    a reference write and the reads, listings and deletions around it.

    The gate walks the tree under the root, asks the owners of every key for a
    has-and-pin, and lets the write through when nothing is short.  The catalog's
    operations are those of Catalog.v; here they are fields of a class. *)
From S2P Require Import Prelude Store Placement View Wire Ballot Proposer Catalog Meta Mark Pins GC Client Data.

Local Open Scope N_scope.

(** * Data *)

(** A reference as amber-store/core decodes it. *)
Record Reference := MkReference { ref_Name : string; ref_Key : bytes; ref_CreatedAt : Z; ref_User : string }.

(** The state of a walk; [wk_unread] holds the interior keys it could not fetch. *)
Record walk := MkWalk {
  wk_seen : gset key;
  wk_check : list key;
  wk_unread : gset key;
  wk_missing : list key;
  wk_shortfall : Z;
}.

#[global] Instance walk_eta : Eta walk := λ r,
  MkWalk (wk_seen r) (wk_check r) (wk_unread r) (wk_missing r) (wk_shortfall r).

Inductive walk_err := ErrMalformed (text : string) | ErrUnread (k : key).

(** What became of an interior object. *)
Inductive expanded := ExpMalformed (text : string) | ExpUnread | ExpKids (kids : list key).

(** The catalog and the watchers, as the handlers use them. *)
Class RefWorld (W : Type) := {
  rw_RefGet : W → bytes → W * RefValue * option cerr;
  rw_RefList : W → bytes → bytes → Z → W * (cerr + list RefEntry * bytes);
  rw_RefPut : W → bytes → bytes → Cond → Z → (bytes → bytes) → W * bytes * option cerr;
  rw_RefDelete : W → bytes → Cond → (bytes → bytes) → W * Ballot * option cerr;
  rw_RefsSnapshot : W → W * (cerr + list RefEntry);
  rw_TryPurge : W → bytes → Ballot → W;
  rw_refChanged : W → string → option bytes → bytes → W;
}.

Section gate.
Context (blake3 : bytes → nat → bytes) `{Core} {P DB W : Type} `{PackStore P} `{KVStore DB} `{Codec View} `{Net P DB W}.
Implicit Types w : W.

(** * Negotiation *)

(** An owner's answer: the keys it lacks, or [None] for an error. *)
Definition ask_owner (s : W * gmap NodeID (option (list key))) (e : NodeID * list key) : W * gmap NodeID (option (list key)) :=
  let '(o, ks) := e in
  let '(w, results) := s in
  if decide (o = dn_id (nw_self w)) then
    let '(n, r) := localMissing blake3 (nw_self w) ks true in
    (nw_set w n, <[o := match r with inl _ => None | inr (lacking, _) => Some lacking end]> results)
  else
    let '(w, r) := remoteMissing w o ks true in
    (w, <[o := match r with inl _ => None | inr lacking => Some lacking end]> results).

Definition has_key_at (results : gmap NodeID (option (list key))) (k : key) (o : NodeID) : bool :=
  match results !! o with Some (Some lacking) => bool_decide (k ∉ lacking) | _ => false end.

Definition count_has (results : gmap NodeID (option (list key))) (k : key) (owners : list NodeID) : nat :=
  length (filter (λ o, has_key_at results k o = true) owners).

Definition is_short (pl : Placement) (minR : nat) (results : gmap NodeID (option (list key))) (k : key) : bool :=
  (count_has results k (Owners_of pl k) <? Nat.min minR (length (Owners_of pl k)))%nat ||
  match PendingOwners pl k with
  | Some po => (count_has results k po <? Nat.min minR (length po))%nat
  | None => false
  end.

(** [negotiateComplete]: the keys that are short. *)
Definition negotiateComplete w (pl : Placement) (keys : list key) (minR : nat) : W * list key :=
  let '(w, results) := fold_left ask_owner (map_to_list (group_keys (WriteSet pl) keys)) (w, ∅) in
  (w, filter (λ k, is_short pl minR results k = true) keys).

(** * The walk *)

(** [flush]. *)
Definition walk_flush (pl : Placement) (minR : nat) w (st : walk) : W * (walk_err + walk) :=
  match wk_check st with
  | [] => (w, inr st)
  | _ :: _ =>
      let '(w, short) := negotiateComplete w pl (wk_check st) minR in
      (w, match list_find (λ k, k ∈ wk_unread st ∧ k ∉ short) (wk_check st) with
          | Some (_, k) => inl (ErrUnread k)
          | None =>
              inr (st <| wk_missing := wk_missing st ++ take (1024 - length (wk_missing st)) short |>
                      <| wk_shortfall := (wk_shortfall st + Z.of_nat (length short))%Z |> <| wk_check := [] |>)
          end)
  end.

(** One key of the frontier: [cached] says that its subtree was verified. *)
Definition walk_visit (cached : key → bool) (s : walk * list key) (k : key) : walk * list key :=
  let '(st, interior) := s in
  if decide (k ∈ wk_seen st) then (st, interior)
  else
    let st := st <| wk_seen := {[k]} ∪ wk_seen st |> <| wk_check := wk_check st ++ [k] |> in
    (st, if is_leaf k || cached k then interior else interior ++ [k]).

Definition walk_fetch w (k : key) : W * expanded :=
  let '(w, r) := getData blake3 w k in
  (w, match r with
      | inl (FRefused e) => ExpMalformed e
      | inl _ => ExpUnread
      | inr d => match ChildKeys_of k d with inl e => ExpMalformed e | inr kids => ExpKids kids end
      end).

Fixpoint fetch_all w (ks : list key) : W * list (key * expanded) :=
  match ks with
  | [] => (w, [])
  | k :: ks => let '(w, r) := walk_fetch w k in let '(w, rs) := fetch_all w ks in (w, (k, r) :: rs)
  end.

(** The results in order: the next frontier and the keys that could not be read. *)
Fixpoint walk_expand (rs : list (key * expanded)) (next : list key) (unread : gset key) : walk_err + list key * gset key :=
  match rs with
  | [] => inr (next, unread)
  | (k, ExpMalformed e) :: _ => inl (ErrMalformed e)
  | (k, ExpUnread) :: rs => walk_expand rs next ({[k]} ∪ unread)
  | (k, ExpKids kids) :: rs => walk_expand rs (next ++ kids) unread
  end.

(** One level of the walk. *)
Definition walk_level (pl : Placement) (minR : nat) (cached : key → bool) w (st : walk) (frontier : list key) :
    W * (walk_err + walk * list key) :=
  let '(st, interior) := fold_left (walk_visit cached) frontier (st, []) in
  let '(w, rs) := fetch_all w interior in
  match walk_expand rs [] (wk_unread st) with
  | inl e => (w, inl e)
  | inr (next, unread) =>
      let st := st <| wk_unread := unread |> in
      if (MaxKeys <=? Z.of_nat (length (wk_check st)))%Z then
        match walk_flush pl minR w st with
        | (w, inl e) => (w, inl e)
        | (w, inr st) => (w, inr (st, next))
        end
      else (w, inr (st, next))
  end.

Fixpoint walk_loop (fuel : nat) (pl : Placement) (minR : nat) (cached : key → bool) w (st : walk) (frontier : list key) :
    option (W * (walk_err + walk)) :=
  match frontier with
  | [] => Some (walk_flush pl minR w st)
  | _ :: _ =>
      match fuel with
      | O => None
      | S fuel =>
          match walk_level pl minR cached w st frontier with
          | (w, inl e) => Some (w, inl e)
          | (w, inr (st, next)) => walk_loop fuel pl minR cached w st next
          end
      end
  end.

(** [completeSince(k).After(cutoff)]; an absent entry is the zero time. *)
Definition fresh_entry (cache : gmap key Z) (cutoff : Z) (k : key) : bool :=
  match cache !! k with Some t => (cutoff <? t)%Z | None => false end.

(** What a walk without shortfall leaves in the cache. *)
Definition remember (n : dnode P DB) (now : Z) (seen : gset key) : dnode P DB :=
  let cache := fold_left (λ c k, if is_leaf k then c else <[k := now]> c) (elements seen) (dn_cache n) in
  n <| dn_cache := if (N.shiftl 1 20 <? N.of_nat (size cache)) then ∅ else cache |>.

Definition walk0 : walk := MkWalk ∅ [] ∅ [] 0.

(** [walkComplete]: the sample of missing keys and their number.  [None] when the
    fuel did not last. *)
Definition walkComplete (fuel : nat) (PutTTL : Z) w (root : key) : option (W * (walk_err + list key * Z)) :=
  let pl := placement_of blake3 (nw_self w) in
  let minR := N.to_nat (MinReplicas (pl_view pl)) in
  let cutoff := (nw_now w + Z.quot (- PutTTL) 2)%Z in
  let cached := fresh_entry (dn_cache (nw_self w)) cutoff in
  '(w, r) ← walk_loop fuel pl minR cached w walk0 [root];
  Some match r with
       | inl e => (w, inl e)
       | inr st =>
           (if (wk_shortfall st =? 0)%Z then upd_self w (λ n, remember n (nw_now w) (wk_seen st)) else w,
            inr (wk_missing st, wk_shortfall st))
       end.

(** * The handlers *)

Context `{RefWorld W} (reference_Decode : bytes → string + Reference) (ValidateName : string → option string) (errText : cerr → string).

Definition keyOfRecord (rec : bytes) : bytes := match reference_Decode rec with inl _ => [] | inr r => ref_Key r end.

(** [writeCASMismatch]. *)
Definition mismatchMsg (n : dnode P DB) (cm : CASMismatch) : Msg :=
  let reply := stampReply n (msg0 <| m_Type := TCASMismatch |> <| m_Version := cm_Version cm |> <| m_HasCurrent := HasCurrent cm |>) in
  match Current cm with
  | Some rv => reply <| m_Record := Record_ rv |> <| m_Current := keyOfRecord (Record_ rv) |>
  | None => reply
  end.

(** The errors that wrap the context's deadline, and those that are a remote error
    of a code.  An acceptor's refusal past [not_after] is the proposer's
    [ErrExpired], which is neither. *)
Definition perr_deadline (e : perr xerr) : bool := match e with ECtx s => bool_decide (s = "context deadline exceeded"%string) | _ => false end.
Definition perr_code (e : perr xerr) (code : string) : bool := match e with ERemote e => bool_decide (err_Code e = code) | _ => false end.

Definition cerr_deadline (e : cerr) : bool := match e with CPaxos e => perr_deadline e | CLost _ e => perr_deadline e | _ => false end.
Definition cerr_code (e : cerr) (code : string) : bool :=
  match e with CErr (XWire c _) => bool_decide (c = code) | CPaxos e => perr_code e code | CLost _ e => perr_code e code | _ => false end.

Definition catalogErr (n : dnode P DB) (e : cerr) : Msg :=
  match e with
  | CErr (XMismatch cm) => mismatchMsg n cm
  | CErr XUnknownRef => ErrMsg CodeUnknownRef "no such reference"
  | _ =>
      if cerr_deadline e then ErrMsg CodeTimeout (errText e)
      else if cerr_code e CodeExpired then ErrMsg CodeTimeout "reference commit expired"
      else ErrMsg CodeUnavailable (errText e)
  end.

Definition handleRefGet w (m : Msg) : W * Msg :=
  match ValidateName (m_Name m) with
  | Some e => (w, ErrMsg CodeBadRequest e)
  | None =>
      match rw_RefGet w (of_string (m_Name m)) with
      | (w, _, Some e) => (w, catalogErr (nw_self w) e)
      | (w, rv, None) => (w, stampReply (nw_self w) (msg0 <| m_Type := TRef |> <| m_Record := Record_ rv |> <| m_Version := rv_Version rv |>))
      end
  end.

(** The entries until the page is full: [Some] name is where it stopped. *)
Fixpoint list_refs (entries : list RefEntry) (size : Z) : list RefInfo * option bytes :=
  match entries with
  | [] => ([], None)
  | e :: es =>
      match reference_Decode (Record_ (re_Value e)) with
      | inl _ => list_refs es size
      | inr r =>
          let size := (size + Z.of_nat (length (re_Name e)) + 32 + 40 + Z.of_nat (String.length (ref_User r)) + 16)%Z in
          let info := MkRefInfo (to_string (re_Name e)) (ref_Key r) (rv_Version (re_Value e)) (ref_CreatedAt r) (ref_User r) in
          if (MaxPageBytes <? size)%Z then ([info], Some (re_Name e))
          else let '(infos, stop) := list_refs es size in (info :: infos, stop)
      end
  end.

Definition handleRefList w (m : Msg) : W * Msg :=
  match rw_RefList w (m_Prefix m) (m_After m) 20000 with
  | (w, inl e) => (w, catalogErr (nw_self w) e)
  | (w, inr (entries, next)) =>
      let '(infos, stop) := list_refs entries 0 in
      (w, stampReply (nw_self w) (msg0 <| m_Type := TRefs |>) <| m_Refs := infos |> <| m_Next := default next stop |>)
  end.

Definition handleRefDelete w (m : Msg) : W * Msg :=
  match ValidateName (m_Name m) with
  | Some e => (w, ErrMsg CodeBadRequest e)
  | None =>
      match rw_RefDelete w (of_string (m_Name m)) (condOf m) keyOfRecord with
      | (w, _, Some e) => (w, catalogErr (nw_self w) e)
      | (w, b, None) =>
          let w := if bool_decide (b = ballot0) then w
                   else rw_TryPurge (rw_refChanged w (m_Name m) None (Bytes b)) (of_string (m_Name m)) b in
          (w, stampReply (nw_self w) (msg0 <| m_Type := TOK |>))
      end
  end.

(** The checks of [handleRefPut] before the walk. *)
Definition put_checks (m : Msg) : string + Reference :=
  match reference_Decode (m_Record m) with
  | inl e => inl ("record: " +:+ e)
  | inr rec =>
      if negb (bool_decide (length (ref_Key rec) = 32%nat)) then inl "record key"
      else match ValidateName (ref_Name rec) with
           | Some e => inl ("name: " +:+ e)
           | None =>
               if negb (bool_decide (m_Name m = "")) && negb (bool_decide (m_Name m = ref_Name rec))
               then inl "frame name differs from the record's"
               else match key_Parse (ref_Key rec) with
                    | Some e => inl ("root key: " +:+ e)
                    | None => inr rec
                    end
           end
  end%string.

Definition handleRefPut (fuel : nat) (PutTTL : Z) w (m : Msg) : option (W * Msg) :=
  let notAfter := (nw_now w + PutTTL)%Z in
  match put_checks m with
  | inl e => Some (w, ErrMsg CodeBadRequest e)
  | inr rec =>
      match checkEpoch w m with
      | (w, Some ErrStale) => Some (w, staleMsg (nw_self w))
      | (w, _) =>
          '(w, r) ← walkComplete fuel PutTTL w (arr_of 32 (ref_Key rec));
          Some match r with
          | inl (ErrMalformed e) => (w, ErrMsg CodeBadRequest ("malformed object under the reference: " +:+ e))
          | inl (ErrUnread k) =>
              (w, ErrMsg CodeUnavailable ("completeness walk: object held by its owners could not be read: " +:+ to_string (hex_encode (take 8 k))))
          | inr (missing, shortfall) =>
              if bool_decide (missing = []) then
                match rw_RefPut w (of_string (ref_Name rec)) (m_Record m) (condOf m) notAfter keyOfRecord with
                | (w, _, Some e) => (w, catalogErr (nw_self w) e)
                | (w, version, None) =>
                    let w := rw_refChanged w (ref_Name rec) (Some (m_Record m)) version in
                    (w, stampReply (nw_self w) (msg0 <| m_Type := TOK |> <| m_Key := ref_Key rec |> <| m_Version := version |>))
                end
              else (w, stampReply (nw_self w) (msg0 <| m_Type := TIncomplete |> <| m_Keys := RawKeys (take 64 missing) |>
                         <| m_Shortfall := shortfall |>))
          end
      end
  end.

(** [RefPutLocal]: the version, or the error.  The caller's record has a key of 32
    bytes; the conversion panics on another. *)
Inductive put_local_err := LDecode (e : string) | LWalk (e : walk_err) | LIncomplete (shortfall : Z) (sample : option key) | LCatalog (e : cerr).

Definition RefPutLocal (fuel : nat) (PutTTL : Z) w (name : string) (record : bytes) (cond : Cond) : option (W * (put_local_err + bytes)) :=
  match reference_Decode record with
  | inl e => Some (w, inl (LDecode e))
  | inr rec =>
      '(w, r) ← walkComplete fuel PutTTL w (arr_of 32 (ref_Key rec));
      Some match r with
      | inl e => (w, inl (LWalk e))
      | inr (missing, shortfall) =>
          if (0 <? shortfall)%Z then (w, inl (LIncomplete shortfall (head missing)))
          else match rw_RefPut w (of_string name) record cond (nw_now w + PutTTL) keyOfRecord with
               | (w, _, Some e) => (w, inl (LCatalog e))
               | (w, version, None) => (rw_refChanged w name (Some record) version, inr version)
               end
      end
  end.

(** [Why]: the references that reach a key.  [ReachableKeys] is amber-store/core's:
    the keys it asked for and, unless it failed, those it found. *)
Context (ReachableKeys : W → key → W * list key * option (list key)).

Fixpoint why_loop w (k : key) (refs : list RefEntry) : W * list bytes :=
  match refs with
  | [] => (w, [])
  | e :: refs =>
      match reference_Decode (Record_ (re_Value e)) with
      | inl _ => why_loop w k refs
      | inr r =>
          if negb (bool_decide (length (ref_Key r) = 32%nat)) then why_loop w k refs
          else
            let '(w, asked, found) := ReachableKeys w (arr_of 32 (ref_Key r)) in
            let '(w, out) := why_loop w k refs in
            match found with
            | Some keys => if bool_decide (k ∈ asked ++ keys) then (w, re_Name e :: out) else (w, out)
            | None => (w, out)
            end
      end
  end.

Definition Why w (k : key) : W * (cerr + list bytes) :=
  match rw_RefsSnapshot w with
  | (w, inl e) => (w, inl e)
  | (w, inr refs) => let '(w, out) := why_loop w k refs in (w, inr out)
  end.
End gate.
