(* ===== verification/GateSafety.v ===== *)
(** The completeness gate of src/node/refs.go.

    Shown: the walk ends; when it finds nothing short, every object under the root,
    verified subtrees apart, was held and pinned by enough owners of both
    placements; and the limits of the cache of verified subtrees. *)
From S2P Require Import Prelude Store Placement View Wire Ballot Proposer Catalog Meta Mark Pins GC Client Data DataSafety NodeNet Gate.

Local Open Scope N_scope.

Section gate.
Context (blake3 : bytes → nat → bytes) `{Core} `{!CoreOK} {P DB W : Type} `{PackStore P} `{!PackStoreOK P} `{KVStore DB} `{!Reliable DB}.
Context `{Codec View} `{Net P DB W} `{!Peers P DB W}.
Implicit Types w : W.

(** * Negotiation *)

(** An owner was seen with the record in place and pinned at its count. *)
Definition vouched w (o : NodeID) (k : key) : Prop := ∃ n, sees w o n ∧ stores n k ∧ pins n k.

(** So were [minR] of the owners, or all of them. *)
Definition enough_of w (minR : nat) (k : key) (owners : list NodeID) : Prop :=
  ∃ l, l `sublist_of` owners ∧ (Nat.min minR (length owners) ≤ length l)%nat ∧ ∀ o, o ∈ l → vouched w o k.

Definition enough (pl : Placement) (minR : nat) w (k : key) : Prop :=
  enough_of w minR k (Owners_of pl k) ∧ ∀ po, PendingOwners pl k = Some po → enough_of w minR k po.

Lemma enough_runs pl minR w w' k : runs w w' → enough pl minR w k → enough pl minR w' k.
Proof.
  intros Hr. assert (∀ os, enough_of w minR k os → enough_of w' minR k os) as He.
  { intros os (l & Hl & Hlen & Ho). exists l. split; [done|]. split; [done|]. intros o (n & Hs & Hn)%Ho. exists n.
    split; [by eapply runs_sees|done]. }
  intros [H1' H2']. split; [by apply He|]. intros po Hpo. by apply He, H2'.
Qed.

Lemma elem_of_group (f : key → list NodeID) keys o k : k ∈ keys → o ∈ f k → ∃ ks, group_keys f keys !! o = Some ks ∧ k ∈ ks.
Proof.
  unfold group_keys. set (add := λ (k : key) (m : gmap NodeID (list key)) o, <[o := default [] (m !! o) ++ [k]]> m).
  assert (∀ k' os m, (∃ ks, m !! o = Some ks ∧ k ∈ ks) → ∃ ks, fold_left (add k') os m !! o = Some ks ∧ k ∈ ks) as Hkeep.
  { intros k' os. induction os as [|o' os IH]; intros m Hm; simpl; [done|]. apply IH. destruct Hm as (ks & Hm & Hk). unfold add.
    destruct (decide (o' = o)) as [->|Hne]; [|exists ks; by rewrite lookup_insert_ne].
    eexists. rewrite lookup_insert_eq. split; [done|]. rewrite Hm. simpl. apply elem_of_app. by left. }
  assert (∀ os m, o ∈ os → ∃ ks, fold_left (add k) os m !! o = Some ks ∧ k ∈ ks) as Hadd.
  { intros os. induction os as [|o' os IH]; intros m Ho; simpl; [by apply not_elem_of_nil in Ho|].
    apply elem_of_cons in Ho as [->|Ho]; [|by apply IH]. apply Hkeep. eexists. unfold add. rewrite lookup_insert_eq. split; [done|].
    apply elem_of_app. right. by left. }
  change (λ (m : gmap NodeID (list key)) (k : key), fold_left _ (f k) m) with (λ m k, fold_left (add k) (f k) m).
  intros Hk Ho. generalize (∅ : gmap NodeID (list key)) as m. induction keys as [|k' keys IH]; [by apply not_elem_of_nil in Hk|].
  intros m. simpl. apply elem_of_cons in Hk as [->|Hk]; [|by apply IH].
  assert (∃ ks, fold_left (add k') (f k') m !! o = Some ks ∧ k' ∈ ks) as Hm by by apply Hadd. revert Hm.
  generalize (fold_left (add k') (f k') m). clear IH m Ho. induction keys as [|k2 keys IH]; intros m Hm; simpl; [done|]. by apply IH, Hkeep.
Qed.

(** The answers collected so far. *)
Definition answered w (asked : list (NodeID * list key)) (results : gmap NodeID (option (list key))) : Prop :=
  ∀ o lacking, results !! o = Some (Some lacking) → ∃ ks, (o, ks) ∈ asked ∧ ∀ k, k ∈ ks → k ∉ lacking → vouched w o k.

Lemma vouched_runs w w' o k : runs w w' → vouched w o k → vouched w' o k.
Proof. intros Hr (n & Hs & Hn). exists n. split; [by eapply runs_sees|done]. Qed.

Lemma ask_owner_ok w asked results e w' results' : answered w asked results → ask_owner blake3 (w, results) e = (w', results') →
  runs w w' ∧ answered w' (asked ++ [e]) results'.
Proof.
  intros Ha. destruct e as [o ks]. unfold ask_owner. assert (∀ w1 (r : option (list key)), runs w w1 →
    (∀ lacking k, r = Some lacking → k ∈ ks → k ∉ lacking → vouched w1 o k) → runs w w1 ∧ answered w1 (asked ++ [(o, ks)]) (<[o := r]> results)) as Hgo.
  { intros w1 r Hr Hv. split; [done|]. intros o' lacking. destruct (decide (o = o')) as [<-|Hne].
    - rewrite lookup_insert_eq. intros [= ->]. exists ks. split; [apply elem_of_app; right; by left|]. intros k. by apply Hv.
    - rewrite lookup_insert_ne by done. intros (ks' & Hin & Hk)%Ha. exists ks'. split; [apply elem_of_app; by left|].
      intros k Hk1 Hk2. eapply vouched_runs; [done|by apply Hk]. }
  destruct (decide (o = dn_id (nw_self w))) as [->|Hne].
  - destruct (localMissing blake3 (nw_self w) ks true) as [n r] eqn:El. intros [= <- <-].
    assert (dn_id n = dn_id (nw_self w)) as Hid by (pose proof (localMissing_id blake3 (nw_self w) ks true) as Hl; by rewrite El in Hl).
    apply Hgo; [by apply rtc_once, ns_set|]. intros lacking k Er Hk Hn. destruct r as [e|[la pr]]; [done|]. injection Er as ->.
    destruct (localMissing_present _ _ _ _ _ _ _ El) as (_ & _ & Hp). destruct (Hp k Hk Hn) as [Hst Hpin].
    exists n. split; [|split; [done|by apply Hpin]]. rewrite <- Hid. by apply set_sees.
  - pose proof (remoteMissing_runs w o ks true) as Hr. destruct (remoteMissing w o ks true) as [w1 r] eqn:Er. simpl in Hr. intros [= <- <-].
    apply Hgo; [done|]. intros lacking k Eq Hk Hn. destruct r as [e|la]; [done|]. injection Eq as ->.
    destruct (remoteMissing_ok _ _ _ _ _ _ k Er Hk Hn) as (n & Hs & Hst & Hp). exists n. eauto.
Qed.

Lemma ask_owners_ok l w asked results w' results' : answered w asked results → fold_left (ask_owner blake3) l (w, results) = (w', results') →
  runs w w' ∧ answered w' (asked ++ l) results'.
Proof.
  revert w asked results. induction l as [|e l IH]; intros w asked results Ha; cbn [fold_left].
  { intros [= <- <-]. rewrite app_nil_r. split; [reflexivity|done]. }
  destruct (ask_owner blake3 (w, results) e) as [w1 r1] eqn:E. destruct (ask_owner_ok _ _ _ _ _ _ Ha E) as [Hr1 Ha1].
  intros Hf. destruct (IH _ _ _ Ha1 Hf) as [Hr2 Ha2]. rewrite <- app_assoc in Ha2. split; [by etrans|done].
Qed.

Lemma Owners_WriteSet pl k o : o ∈ Owners_of pl k → o ∈ WriteSet pl k.
Proof. unfold WriteSet. destruct (PendingOwners pl k); [|done]. intros Ho. apply elem_of_append_unseen. by left. Qed.

Lemma Pending_WriteSet pl k po o : PendingOwners pl k = Some po → o ∈ po → o ∈ WriteSet pl k.
Proof. unfold WriteSet. intros -> Ho. apply elem_of_append_unseen. by right. Qed.

(** A key that the negotiation does not report has enough owners. *)
Lemma negotiate_ok w pl keys minR w' short : negotiateComplete blake3 w pl keys minR = (w', short) →
  runs w w' ∧ ∀ k, k ∈ keys → k ∉ short → enough pl minR w' k.
Proof.
  unfold negotiateComplete. set (g := group_keys (WriteSet pl) keys).
  destruct (fold_left (ask_owner blake3) (map_to_list g) (w, ∅)) as [w1 results] eqn:Ef. intros [= <- <-].
  destruct (ask_owners_ok _ w [] ∅ _ _ ltac:(by intros o l; rewrite lookup_empty) Ef) as [Hr Ha]. split; [done|]. intros k Hk Hn.
  assert (is_short pl minR results k = false) as Hs.
  { apply not_true_iff_false. intros Hs. apply Hn. by apply list_elem_of_filter. }
  assert (∀ os, (∀ o, o ∈ os → o ∈ WriteSet pl k) → (count_has results k os <? Nat.min minR (length os))%nat = false → enough_of w1 minR k os) as He.
  { intros os Hos Hc%Nat.ltb_ge. exists (filter (λ o, has_key_at results k o = true) os). split; [apply sublist_filter|]. split; [done|].
    intros o [Hh Ho]%list_elem_of_filter. unfold has_key_at in Hh. destruct (results !! o) as [[lacking|]|] eqn:Er; [|done|done].
    apply bool_decide_eq_true in Hh. destruct (Ha o lacking Er) as (ks & Hin & Hv). simpl in Hin. apply elem_of_map_to_list in Hin.
    destruct (elem_of_group (WriteSet pl) keys o k Hk (Hos o Ho)) as (ks' & Hg & Hkk). apply Hv; [|done]. unfold g in Hin. congruence. }
  unfold is_short in Hs. apply orb_false_iff in Hs as [Hs1 Hs2]. split.
  - apply He; [apply Owners_WriteSet|done].
  - intros po Hpo. rewrite Hpo in Hs2. apply He; [by intros o; apply Pending_WriteSet|done].
Qed.

(** * The walk *)

(** What lies under a root, not descending below verified subtrees. *)
Inductive under (cached : key → bool) (root : key) : key → Prop :=
  | under_root : under cached root root
  | under_child k d kids c : under cached root k → is_leaf k = false → cached k = false → is_content k d →
      ChildKeys_of k d = inr kids → c ∈ kids → under cached root c.

Section walk.
Context (pl : Placement) (minR : nat) (cached : key → bool).

(** The invariant between two levels. *)
Record walk_inv w (st : walk) (frontier : list key) : Prop := {
  wi_seen k : k ∈ wk_seen st → k ∈ wk_check st ∨ (wk_shortfall st = 0%Z → enough pl minR w k);
  wi_kids k : k ∈ wk_seen st → is_leaf k = false → cached k = false → k ∉ wk_unread st →
    ∃ d kids, is_content k d ∧ ChildKeys_of k d = inr kids ∧ ∀ c, c ∈ kids → c ∈ wk_seen st ∨ c ∈ frontier;
  wi_unread k : k ∈ wk_unread st → k ∈ wk_check st ∨ wk_shortfall st ≠ 0%Z;
  wi_short : (0 ≤ wk_shortfall st)%Z;
  wi_missing : wk_missing st = [] → wk_shortfall st = 0%Z;
}.

Lemma walk_inv0 w root : walk_inv w walk0 [root].
Proof. split; simpl; try done; intros k Hk; set_solver. Qed.

Lemma walk_flush_ok w st frontier w' st' : walk_inv w st frontier → walk_flush blake3 pl minR w st = (w', inr st') →
  runs w w' ∧ walk_inv w' st' frontier ∧ wk_check st' = [] ∧ wk_seen st' = wk_seen st.
Proof.
  intros [I1 I2 I3 I4 I5]. unfold walk_flush. destruct (wk_check st) as [|c0 cs] eqn:Ec.
  { intros [= <- <-]. split; [reflexivity|]. split; [by split; rewrite ?Ec|]. done. }
  destruct (negotiateComplete blake3 w pl (c0 :: cs) minR) as [w1 short] eqn:En. destruct (negotiate_ok _ _ _ _ _ _ En) as [Hr Hok].
  destruct (list_find _ (c0 :: cs)) as [[i k]|] eqn:Ef; [done|]. intros [= <- <-]. apply list_find_None in Ef. rewrite Forall_forall in Ef.
  split; [done|]. split; [|done]. split; simpl.
  - intros k Hk. right. intros Hz. assert (wk_shortfall st = 0%Z ∧ short = []) as [Hz0 ->] by (destruct short; simpl in Hz; lia || (split; [lia|done])).
    destruct (I1 k Hk) as [Hc|He]; [apply Hok; [done|apply not_elem_of_nil]|]. eapply enough_runs; [done|by apply He].
  - apply I2.
  - intros k Hk. right. destruct (I3 k Hk) as [Hc|Hs]; [|lia]. assert (k ∈ short) as Hsh.
    { destruct (decide (k ∈ short)); [done|]. by destruct (Ef k Hc). }
    destruct short; [by apply not_elem_of_nil in Hsh|simpl; lia].
  - lia.
  - intros [Hm1 Hm2]%app_nil. rewrite (I5 Hm1). rewrite Hm1 in Hm2. by destruct short.
Qed.

(** The keys of a frontier are seen; the new ones are to be checked, and read when
    something may lie below. *)
Lemma walk_visits fr st ints st' ints' : fold_left (walk_visit cached) fr (st, ints) = (st', ints') →
  (∀ k, k ∈ wk_seen st' ↔ k ∈ wk_seen st ∨ k ∈ fr) ∧ (∀ k, k ∈ wk_check st → k ∈ wk_check st') ∧ (∀ k, k ∈ ints → k ∈ ints') ∧
  (∀ k, k ∈ wk_seen st' → k ∈ wk_seen st ∨ (k ∈ wk_check st' ∧ (is_leaf k = false → cached k = false → k ∈ ints'))) ∧
  (∀ k, k ∈ ints' → k ∈ ints ∨ k ∈ wk_check st') ∧
  wk_unread st' = wk_unread st ∧ wk_missing st' = wk_missing st ∧ wk_shortfall st' = wk_shortfall st.
Proof.
  revert st ints. induction fr as [|x fr IH]; intros st ints; cbn [fold_left].
  { intros [= <- <-]. split; [intros k; rewrite elem_of_nil; tauto|]. split; [done|]. split; [done|]. split; [intros k Hk; by left|]. split; [intros k Hk; by left|done]. }
  unfold walk_visit at 2. destruct (decide (x ∈ wk_seen st)) as [Hx|Hx].
  { intros (F1 & F)%IH. split; [|done]. intros k. rewrite F1, elem_of_cons. split; [tauto|]. intros [?|[->|?]]; tauto. }
  set (st1 := st <| wk_seen := _ |> <| wk_check := _ |>). set (ints1 := if is_leaf x || cached x then ints else ints ++ [x]).
  intros (F1 & F2 & F3 & F4 & F5 & F6)%IH. assert (x ∈ wk_check st1) as Hxc by (simpl; apply elem_of_app; right; by left).
  assert (∀ k, k ∈ wk_check st → k ∈ wk_check st1) as Hc1 by (intros k Hk; simpl; apply elem_of_app; by left).
  assert (∀ k, k ∈ ints → k ∈ ints1) as Hi1 by (intros k Hk; unfold ints1; destruct (_ || _); [done|apply elem_of_app; by left]).
  split; [intros k; rewrite F1, elem_of_cons; simpl; rewrite elem_of_union, elem_of_singleton; tauto|].
  split; [auto|]. split; [auto|]. split.
  - intros k [Hk|Hk]%F4; [|by right]. simpl in Hk. apply elem_of_union in Hk as [->%elem_of_singleton|Hk]; [right|by left].
    split; [by apply F2|]. intros Hl Hca. apply F3. unfold ints1. rewrite Hl, Hca. simpl. apply elem_of_app. right. by left.
  - split; [|done]. intros k [Hk|Hk]%F5; [|by right]. unfold ints1 in Hk. destruct (_ || _); [by left|].
    apply elem_of_app in Hk as [Hk| ->%list_elem_of_singleton]; [by left|right; by apply F2].
Qed.

Lemma fetch_all_ok ks w w' rs : fetch_all blake3 w ks = (w', rs) →
  runs w w' ∧ rs.*1 = ks ∧ ∀ k kids, (k, ExpKids kids) ∈ rs → ∃ d, is_content k d ∧ ChildKeys_of k d = inr kids.
Proof.
  revert w rs. induction ks as [|k ks IH]; intros w rs; simpl.
  { intros [= <- <-]. split; [reflexivity|]. split; [done|]. by intros k kids Hk%not_elem_of_nil. }
  destruct (walk_fetch blake3 w k) as [w1 r] eqn:Ew. destruct (fetch_all blake3 w1 ks) as [w2 rs1] eqn:Ef. intros [= <- <-].
  destruct (IH _ _ Ef) as (Hr & Hk & Hd). unfold walk_fetch in Ew. pose proof (getData_runs blake3 w k) as Hr1.
  destruct (getData blake3 w k) as [w3 x] eqn:Eg. simpl in Hr1. injection Ew as <- Er. split; [by etrans|]. split; [cbn; by f_equal|].
  intros k' kids [Eq|Hin]%elem_of_cons; [|by apply Hd]. injection Eq as -> Ek. destruct x as [[]|d]; try congruence. exists d.
  split; [by eapply getData_ok|]. destruct (ChildKeys_of k d) as [e|kids']; congruence.
Qed.

Lemma walk_expand_ok rs next unread next' unread' : walk_expand rs next unread = inr (next', unread') →
  (∀ c, c ∈ next → c ∈ next') ∧ (∀ k, k ∈ unread → k ∈ unread') ∧ (∀ k, k ∈ unread' → k ∈ unread ∨ k ∈ rs.*1) ∧
  ∀ k, k ∈ rs.*1 → k ∈ unread' ∨ ∃ kids, (k, ExpKids kids) ∈ rs ∧ ∀ c, c ∈ kids → c ∈ next'.
Proof.
  revert next unread. induction rs as [|[k r] rs IH]; intros next unread; simpl.
  { intros [= <- <-]. repeat split; auto. by intros k Hk%not_elem_of_nil. }
  destruct r as [e| |kids]; [done| |].
  - intros (F1 & F2 & F3 & F4)%IH. split; [done|]. split; [intros x Hx; apply F2; set_solver|]. split.
    + intros x [Hx|Hx]%F3; [|right; by right]. apply elem_of_union in Hx as [->%elem_of_singleton|Hx]; [right; by left|by left].
    + intros x [->|Hx]%elem_of_cons; [left; apply F2; set_solver|]. destruct (F4 x Hx) as [?|(ks & Hin & Hks)]; [by left|]. right. exists ks. split; [by right|done].
  - intros (F1 & F2 & F3 & F4)%IH. split; [intros c Hc; apply F1, elem_of_app; by left|]. split; [done|]. split.
    + intros x [Hx|Hx]%F3; [by left|right; by right].
    + intros x [->|Hx]%elem_of_cons.
      * right. exists kids. split; [by left|]. intros c Hc. apply F1, elem_of_app. by right.
      * destruct (F4 x Hx) as [?|(ks & Hin & Hks)]; [by left|]. right. exists ks. split; [by right|done].
Qed.

Lemma walk_level_ok w st fr w' st' next : walk_inv w st fr → walk_level blake3 pl minR cached w st fr = (w', inr (st', next)) →
  runs w w' ∧ walk_inv w' st' next ∧ ∀ k, k ∈ wk_seen st ∨ k ∈ fr ↔ k ∈ wk_seen st'.
Proof.
  intros [I1 I2 I3 I4 I5]. unfold walk_level. destruct (fold_left (walk_visit cached) fr (st, [])) as [st1 ints] eqn:Ev.
  destruct (walk_visits _ _ _ _ _ Ev) as (V1 & V2 & _ & V4 & V5 & V6 & V7 & V8).
  destruct (fetch_all blake3 w ints) as [w1 rs] eqn:Ef. destruct (fetch_all_ok _ _ _ _ Ef) as (Hr & Hks & Hd).
  destruct (walk_expand rs [] (wk_unread st1)) as [e|[next1 unread]] eqn:Ex; [done|].
  destruct (walk_expand_ok _ _ _ _ _ Ex) as (_ & X2 & X3 & X4). set (st2 := st1 <| wk_unread := unread |>).
  assert (walk_inv w1 st2 next1) as Hi2.
  { split; simpl.
    - intros k [Hk|[Hk _]]%V4; [|by left]. destruct (I1 k Hk) as [Hc|He]; [left; by apply V2|]. right. rewrite V8. intros Hz.
      eapply enough_runs; [done|by apply He].
    - intros k Hk Hl Hca Hu. assert (k ∉ wk_unread st1) as Hu1 by (intros ?; by apply Hu, X2). rewrite V6 in Hu1.
      destruct (V4 k Hk) as [Hold|[_ Hnew]].
      + destruct (I2 k Hold Hl Hca Hu1) as (d & kids & Hd1 & Hd2 & Hd3). exists d, kids. split; [done|]. split; [done|]. intros c Hc. left. apply V1. by apply Hd3.
      + assert (k ∈ rs.*1) as Hin by (rewrite Hks; by apply Hnew). destruct (X4 k Hin) as [?|(kids & Hin' & Hkids)]; [done|].
        destruct (Hd k kids Hin') as (d & Hd1 & Hd2). exists d, kids. split; [done|]. split; [done|]. intros c Hc. right. by apply Hkids.
    - intros k [Hk|Hk]%X3; [|left; rewrite Hks in Hk; by destruct (V5 k Hk) as [?%not_elem_of_nil|?]]. rewrite V6 in Hk. rewrite V8.
      destruct (I3 k Hk) as [?|?]; [left; by apply V2|by right].
    - by rewrite V8.
    - by rewrite V7, V8. }
  assert (∀ k, k ∈ wk_seen st ∨ k ∈ fr ↔ k ∈ wk_seen st2) as Hseen by (intros k; symmetry; apply V1).
  change (wk_check st2) with (wk_check st1). destruct (_ <=? _)%Z.
  - destruct (walk_flush blake3 pl minR w1 st2) as [w2 [e|st3]] eqn:Efl; [done|]. intros [= <- <- <-].
    destruct (walk_flush_ok _ _ _ _ _ Hi2 Efl) as (Hr2 & Hi3 & _ & Es). split; [by etrans|]. split; [done|]. intros k. by rewrite Es.
  - intros [= <- <- <-]. done.
Qed.

Lemma walk_loop_ok fuel w st fr w' st' : walk_inv w st fr → walk_loop blake3 fuel pl minR cached w st fr = Some (w', inr st') →
  runs w w' ∧ walk_inv w' st' [] ∧ wk_check st' = [] ∧ ∀ k, k ∈ wk_seen st ∨ k ∈ fr → k ∈ wk_seen st'.
Proof.
  revert w st fr. induction fuel as [|fuel IH]; intros w st fr Hi; destruct fr as [|x fr]; cbn [walk_loop]; try done.
  1,2: intros [= E]; destruct (walk_flush_ok _ _ _ _ _ Hi E) as (Hr & Hi' & Hc & Hs); split; [done|]; split; [done|]; split; [done|];
    intros k [Hk|Hk%not_elem_of_nil]; [by rewrite Hs|done].
  destruct (walk_level blake3 pl minR cached w st (x :: fr)) as [w1 [e|[st1 next]]] eqn:El; [done|].
  destruct (walk_level_ok _ _ _ _ _ _ Hi El) as (Hr1 & Hi1 & Hs1). intros Hl. destruct (IH _ _ _ Hi1 Hl) as (Hr2 & Hi2 & Hc & Hs2).
  split; [by etrans|]. split; [done|]. split; [done|]. intros k Hk. apply Hs2. left. by apply Hs1.
Qed.

(** At the end of a walk without shortfall everything under the root has enough
    owners. *)
Lemma walked_enough fuel w root w' st' k : walk_loop blake3 fuel pl minR cached w walk0 [root] = Some (w', inr st') →
  wk_shortfall st' = 0%Z → under cached root k → k ∈ wk_seen st' ∧ enough pl minR w' k.
Proof.
  intros El Hz Hu. destruct (walk_loop_ok _ _ _ _ _ _ (walk_inv0 w root) El) as (_ & [I1 I2 I3 I4 I5] & Hc & Hs).
  assert (k ∈ wk_seen st') as Hk.
  { induction Hu as [|k d kids c Hu IH Hl Hca Hd Hch Hin]; [apply Hs; right; by left|]. assert (k ∉ wk_unread st') as Hun.
    { intros [Hx|Hx]%I3; [rewrite Hc in Hx; by apply not_elem_of_nil in Hx|done]. }
    destruct (I2 k IH Hl Hca Hun) as (d' & kids' & Hd' & Hch' & Hkids). rewrite (content_unique k d d' Hd Hd') in Hch.
    rewrite Hch in Hch'. injection Hch' as ->. by destruct (Hkids c Hin) as [?|?%not_elem_of_nil]. }
  split; [done|]. destruct (I1 k Hk) as [Hx|He]; [rewrite Hc in Hx; by apply not_elem_of_nil in Hx|by apply He].
Qed.

(** ** Termination *)

(** What is read on a level is new, and what it leads to lies under the root. *)
Lemma visited_interior fr st ints st' ints' : fold_left (walk_visit cached) fr (st, ints) = (st', ints') →
  ∀ k, k ∈ ints' → k ∈ ints ∨ (k ∈ fr ∧ k ∉ wk_seen st ∧ is_leaf k = false ∧ cached k = false).
Proof.
  revert st ints. induction fr as [|x fr IH]; intros st ints; cbn [fold_left]; [intros [= <- <-]; by left|].
  unfold walk_visit at 2. destruct (decide (x ∈ wk_seen st)) as [Hx|Hx].
  { intros E k Hk. destruct (IH _ _ E k Hk) as [?|(? & ?)]; [by left|]. right. split; [by right|done]. }
  intros E k Hk. destruct (IH _ _ E k Hk) as [Hi|(Hf & Hs & Hrest)].
  - destruct (is_leaf x || cached x) eqn:El; [by left|]. apply elem_of_app in Hi as [?| ->%list_elem_of_singleton]; [by left|].
    apply orb_false_iff in El. right. split; [by left|done].
  - right. split; [by right|]. split; [|done]. simpl in Hs. set_solver.
Qed.

Lemma walk_expand_next rs next unread next' unread' c : walk_expand rs next unread = inr (next', unread') → c ∈ next' →
  c ∈ next ∨ ∃ k kids, (k, ExpKids kids) ∈ rs ∧ c ∈ kids.
Proof.
  revert next unread. induction rs as [|[k r] rs IH]; intros next unread; simpl; [intros [= <- <-]; by left|]. destruct r as [e| |kids]; [done| |].
  - intros E Hc. destruct (IH _ _ E Hc) as [?|(k' & ks & ? & ?)]; [by left|]. right. exists k', ks. split; [by right|done].
  - intros E Hc. destruct (IH _ _ E Hc) as [[?|?]%elem_of_app|(k' & ks & ? & ?)]; [by left| |].
    + right. exists k, kids. split; [by left|done].
    + right. exists k', ks. split; [by right|done].
Qed.

Lemma walk_loop_ends (U : gset key) root fuel w st fr : (∀ k, under cached root k → k ∈ U) → (∀ k, k ∈ fr → under cached root k) →
  (size (U ∖ wk_seen st) < fuel)%nat → is_Some (walk_loop blake3 fuel pl minR cached w st fr).
Proof.
  intros HU. revert w st fr. induction fuel as [|fuel IH]; intros w st fr Hfr Hsize; [lia|]. destruct fr as [|x fr0]; [by eexists|]. set (fr := x :: fr0) in *.
  simpl. fold fr. destruct (walk_level blake3 pl minR cached w st fr) as [w1 [e|[st1 next]]] eqn:El; [by eexists|].
  unfold walk_level in El. destruct (fold_left (walk_visit cached) fr (st, [])) as [st2 ints] eqn:Ev.
  destruct (walk_visits _ _ _ _ _ Ev) as (V1 & _). pose proof (visited_interior _ _ _ _ _ Ev) as Hint.
  destruct (fetch_all blake3 w ints) as [w2 rs] eqn:Ef. destruct (fetch_all_ok _ _ _ _ Ef) as (_ & Hks & Hd).
  destruct (walk_expand rs [] (wk_unread st2)) as [e|[next1 unread]] eqn:Ex; [done|].
  assert (next1 = next ∧ wk_seen st1 = wk_seen st2) as [-> Hseen].
  { change (wk_check (st2 <| wk_unread := unread |>)) with (wk_check st2) in El. destruct (_ <=? _)%Z; [|by injection El as <- <- <-].
    destruct (walk_flush blake3 pl minR w2 _) as [w3 [e|st3]] eqn:Efl; [done|]. injection El as <- <- <-. split; [done|].
    unfold walk_flush in Efl. destruct (wk_check _); [by injection Efl as <- <-|]. destruct (negotiateComplete _ _ _ _ _) as [w4 sh].
    destruct (list_find _ _) as [[]|]; [done|]. by injection Efl as <- <-. }
  destruct (decide (Exists (λ y, y ∉ wk_seen st) fr)) as [(y & Hy & Hny)%Exists_exists|Hno].
  - apply IH.
    + intros c Hc. destruct (walk_expand_next _ _ _ _ _ _ Ex Hc) as [?%not_elem_of_nil|(k & kids & Hin & Hck)]; [done|].
      destruct (Hd k kids Hin) as (d & Hd1 & Hd2). assert (k ∈ ints) as Hk by (rewrite <- Hks; by eapply (list_elem_of_fmap_2 fst _ (k, ExpKids kids))).
      destruct (Hint k Hk) as [?%not_elem_of_nil|(Hkf & _ & Hl & Hca)]; [done|]. eapply under_child; eauto.
    + rewrite Hseen. assert (U ∖ wk_seen st2 ⊂ U ∖ wk_seen st) as Hsub%subset_size; [|lia]. split.
      * intros k [? Hk]%elem_of_difference. apply elem_of_difference. split; [done|]. intros ?. apply Hk, V1. by left.
      * intros Hc. assert (y ∈ U ∖ wk_seen st) as Hyu by (apply elem_of_difference; auto). apply Hc, elem_of_difference in Hyu as [_ Hyu]. apply Hyu, V1. by right.
  - assert (next = []) as ->; [|destruct fuel; by eexists]. destruct next as [|c next]; [done|]. exfalso.
    destruct (walk_expand_next _ _ _ _ _ c Ex ltac:(by left)) as [?%not_elem_of_nil|(k & kids & Hin & _)]; [done|].
    assert (k ∈ ints) as Hk by (rewrite <- Hks; by eapply (list_elem_of_fmap_2 fst _ (k, ExpKids kids))).
    destruct (Hint k Hk) as [?%not_elem_of_nil|(Hkf & Hns & _)]; [done|]. apply Hno, Exists_exists. eauto.
Qed.
End walk.

(** * The gate *)

Definition gate_pl w : Placement := placement_of blake3 (nw_self w).
Definition gate_min w : nat := N.to_nat (MinReplicas (pl_view (gate_pl w))).
Definition gate_cached (PutTTL : Z) w : key → bool := fresh_entry (dn_cache (nw_self w)) (nw_now w + Z.quot (- PutTTL) 2).

Lemma upd_self_sees w f o n : dn_id (f (nw_self w)) = dn_id (nw_self w) → sees w o n → sees (upd_self w f) o n.
Proof. intros Hf. apply runs_sees, upd_self_runs, Hf. Qed.

Lemma walkComplete_enough fuel PutTTL w root w' missing : walkComplete blake3 fuel PutTTL w root = Some (w', inr (missing, 0%Z)) →
  ∀ k, under (gate_cached PutTTL w) root k → enough (gate_pl w) (gate_min w) w' k.
Proof.
  unfold walkComplete. fold (gate_pl w). fold (gate_min w). fold (gate_cached PutTTL w). intros E k Hu.
  destruct (walk_loop blake3 fuel (gate_pl w) (gate_min w) (gate_cached PutTTL w) w walk0 [root]) as [[w1 [e|st]]|] eqn:El; [done| |done].
  injection E as <- _ Hz. rewrite Hz. eapply enough_runs; [|by eapply walked_enough]. by apply upd_self_runs.
Qed.

(** An empty sample means that nothing is short. *)
Lemma walkComplete_sample fuel PutTTL w root w' shortfall : walkComplete blake3 fuel PutTTL w root = Some (w', inr ([], shortfall)) → shortfall = 0%Z.
Proof.
  unfold walkComplete. destruct (walk_loop _ _ _ _ _ _ _ _) as [[w1 [e|st]]|] eqn:El; [done| |done]. intros [= _ Hm <-].
  by destruct (walk_loop_ok _ _ _ _ _ _ _ _ _ (walk_inv0 _ _ _ w root) El) as (_ & [_ _ _ _ I5] & _); apply I5.
Qed.

(** Whatever its outcome, the walk only asks and reads. *)
Lemma walk_flush_runs pl minR w st : runs w (walk_flush blake3 pl minR w st).1.
Proof.
  unfold walk_flush. destruct (wk_check st) as [|c cs]; [reflexivity|].
  destruct (negotiateComplete blake3 w pl (c :: cs) minR) as [w1 short] eqn:En. by destruct (negotiate_ok _ _ _ _ _ _ En) as [Hr _].
Qed.

Lemma walk_level_runs pl minR cached w st fr : runs w (walk_level blake3 pl minR cached w st fr).1.
Proof.
  unfold walk_level. destruct (fold_left (walk_visit cached) fr (st, [])) as [st1 ints].
  destruct (fetch_all blake3 w ints) as [w1 rs] eqn:Ef. destruct (fetch_all_ok _ _ _ _ Ef) as [Hr _].
  destruct (walk_expand rs [] (wk_unread st1)) as [e|[next unread]]; [done|]. cbv zeta. destruct (_ <=? _)%Z; [|done].
  etrans; [exact Hr|]. pose proof (walk_flush_runs pl minR w1 (st1 <| wk_unread := unread |>)) as Hf.
  by destruct (walk_flush blake3 pl minR w1 _) as [w2 [e|st3]].
Qed.

Lemma walk_loop_runs fuel pl minR cached w st fr w' r : walk_loop blake3 fuel pl minR cached w st fr = Some (w', r) → runs w w'.
Proof.
  revert w st fr. induction fuel as [|fuel IH]; intros w st fr; destruct fr as [|x fr]; cbn [walk_loop]; try done.
  1,2: intros [= E]; pose proof (walk_flush_runs pl minR w st) as Hf; by rewrite E in Hf.
  pose proof (walk_level_runs pl minR cached w st (x :: fr)) as Hl.
  destruct (walk_level blake3 pl minR cached w st (x :: fr)) as [w1 [e|[st1 next]]]; [by intros [= <- _]|].
  intros Hw. etrans; [exact Hl|by eapply IH].
Qed.

Lemma walkComplete_runs fuel PutTTL w root w' r : walkComplete blake3 fuel PutTTL w root = Some (w', r) → runs w w'.
Proof.
  unfold walkComplete. destruct (walk_loop _ _ _ _ _ _ _ _) as [[w1 [e|st]]|] eqn:El; [| |done]; intros [= <- _]; apply walk_loop_runs in El; [done|].
  etrans; [exact El|]. destruct (_ =? _)%Z; [by apply upd_self_runs|reflexivity].
Qed.

Lemma walkComplete_nonneg fuel PutTTL w root w' missing n : walkComplete blake3 fuel PutTTL w root = Some (w', inr (missing, n)) → (0 ≤ n)%Z.
Proof.
  unfold walkComplete. destruct (walk_loop _ _ _ _ _ _ _ _) as [[w1 [e|st]]|] eqn:El; [done| |done]. intros [= _ _ <-].
  by destruct (walk_loop_ok _ _ _ _ _ _ _ _ _ (walk_inv0 _ _ _ w root) El) as (_ & [_ _ _ I4 _] & _).
Qed.

(** The walk ends: when finitely many objects lie under the root, as many levels
    as there are objects are enough. *)
Theorem walk_terminates (U : gset key) (fuel : nat) (PutTTL : Z) w (root : key) :
  (∀ k, under (gate_cached PutTTL w) root k → k ∈ U) → (size U < fuel)%nat → is_Some (walkComplete blake3 fuel PutTTL w root).
Proof.
  intros HU Hf. destruct (walk_loop_ends (gate_pl w) (gate_min w) (gate_cached PutTTL w) U root fuel w walk0 [root] HU) as [[w1 r] Hw].
  - intros k ->%list_elem_of_singleton. constructor.
  - simpl. by rewrite difference_empty_L.
  - unfold walkComplete. fold (gate_pl w). fold (gate_min w). fold (gate_cached PutTTL w). rewrite Hw. by eexists.
Qed.

Context `{RefWorld W} (reference_Decode : bytes → string + Reference) (ValidateName : string → option string) (errText : cerr → string).

Lemma stampReply_type (n : dnode P DB) m : m_Type (stampReply n m) = m_Type m.
Proof. unfold stampReply. by destruct (dn_view n). Qed.

Lemma catalogErr_type (n : dnode P DB) e : m_Type (catalogErr reference_Decode errText n e) ≠ TOK.
Proof.
  unfold catalogErr, mismatchMsg. destruct e as [[]| | |]; try done; repeat case_match; simpl; rewrite ?stampReply_type; done.
Qed.

(** A write of the catalog behind a walk of the tree that found it complete: everything
    under the root, verified subtrees apart, had min_replicas of its owners, under the
    placement and under a pending one, with the record in place and pinned at their
    barrier count; then the record was put, and what the catalog answered. *)
Definition gated_write (fuel : nat) (PutTTL : Z) w (name : string) (record : bytes) (cond : Cond) w' (r : cerr + bytes) : Prop :=
  ∃ rec w0 w1 missing notAfter w2 version e, reference_Decode record = inr rec ∧ runs w w0 ∧
    walkComplete blake3 fuel PutTTL w0 (arr_of 32 (ref_Key rec)) = Some (w1, inr (missing, 0%Z)) ∧
    (∀ k, under (gate_cached PutTTL w0) (arr_of 32 (ref_Key rec)) k → enough (gate_pl w0) (gate_min w0) w1 k) ∧
    rw_RefPut w1 (of_string name) record cond notAfter (keyOfRecord reference_Decode) = (w2, version, e) ∧
    match e with
    | Some e => r = inl e ∧ w' = w2
    | None => r = inr version ∧ w' = rw_refChanged w2 name (Some record) version
    end.

(** C11 The two ways a node puts a reference for others, the request and the backup's
    local write, write it only when its tree is complete.  Either the catalog was not
    written at all (the node only asked, read and pinned) and the answer is not [ok], or
    the one write there was came behind a walk that found everything under the root,
    verified subtrees apart, with min_replicas of its owners, under the placement and
    under a pending one, with the record in place and pinned at their barrier count; and
    the answer is [ok] exactly when that write succeeded.  A restore of the catalog
    writes references without a walk ([RestoreCatalog]), and is not meant here. *)
Theorem ref_put_gated (fuel : nat) (PutTTL : Z) w w' :
  (∀ m reply, handleRefPut blake3 reference_Decode ValidateName errText fuel PutTTL w m = Some (w', reply) →
     runs w w' ∧ m_Type reply ≠ TOK ∨
     ∃ rec r, put_checks reference_Decode ValidateName m = inr rec ∧
       gated_write fuel PutTTL w (ref_Name rec) (m_Record m) (condOf m) w' r ∧ (m_Type reply = TOK ↔ ∃ version, r = inr version)) ∧
  (∀ name record cond out, RefPutLocal blake3 reference_Decode fuel PutTTL w name record cond = Some (w', out) →
     (runs w w' ∧ ∃ e, out = inl e) ∨
     ∃ r, gated_write fuel PutTTL w name record cond w' r ∧ out = match r with inl e => inl (LCatalog e) | inr version => inr version end).
Proof.
  split.
  - intros m reply. unfold handleRefPut. cbv zeta. destruct (put_checks reference_Decode ValidateName m) as [e|rec] eqn:Ep.
    { intros [= <- <-]. left. split; [reflexivity|done]. }
    assert (reference_Decode (m_Record m) = inr rec) as Er.
    { unfold put_checks in Ep. destruct (reference_Decode (m_Record m)) as [|r]; [done|]. repeat case_match; congruence. }
    pose proof (checkEpoch_runs w m) as Hr. destruct (checkEpoch w m) as [w0 eo]. simpl in Hr. intros E.
    assert (eo = Some ErrStale ∨ eo ≠ Some ErrStale) as [->|Hns] by (destruct eo as [[|]|]; auto; by right).
    { injection E as <- <-. left. split; [done|]. unfold staleMsg. by rewrite stampReply_type. }
    destruct (walkComplete blake3 fuel PutTTL w0 (arr_of 32 (ref_Key rec))) as [[w1 r]|] eqn:Ew; [|by destruct eo as [[]|]].
    pose proof (walkComplete_runs _ _ _ _ _ _ Ew) as Hr1. assert (runs w w1) as Hr2 by by etrans.
    destruct eo as [[|]|]; [done| |]; simpl in E;
      (destruct r as [[|]|[missing sh]]; [by injection E as <- <-; left|by injection E as <- <-; left|]);
      (case_bool_decide as Hm; [subst missing|injection E as <- <-; left; by rewrite stampReply_type]);
      rewrite (walkComplete_sample _ _ _ _ _ _ Ew) in Ew; right;
      destruct (rw_RefPut w1 _ _ _ _ _) as [[w2 version] e] eqn:Eput;
      (exists rec, match e with Some e => inl e | None => inr version end; split; [done|]);
      (split; [exists rec, w0, w1, [], (nw_now w + PutTTL)%Z, w2, version, e; split_and!; try done; [by eapply walkComplete_enough|by destruct e; injection E as <- _]|]);
      destruct e; injection E as <- <-; rewrite ?stampReply_type; (split; [intros Ht|intros [? Ht]]); try done; eauto; by apply catalogErr_type in Ht.
  - intros name record cond out. unfold RefPutLocal. destruct (reference_Decode record) as [e|rec] eqn:Er.
    { intros [= <- <-]. left. split; [reflexivity|by eexists]. }
    destruct (walkComplete blake3 fuel PutTTL w (arr_of 32 (ref_Key rec))) as [[w1 r]|] eqn:Ew; [|done].
    pose proof (walkComplete_runs _ _ _ _ _ _ Ew) as Hr1. simpl.
    destruct r as [e|[missing sh]]; [by intros [= <- <-]; left; eauto|]. destruct (Z.ltb_spec 0 sh); [by intros [= <- <-]; left; eauto|].
    pose proof (walkComplete_nonneg _ _ _ _ _ _ _ Ew). assert (sh = 0%Z) as -> by lia.
    destruct (rw_RefPut w1 _ _ _ _ _) as [[w2 version] e] eqn:Eput. intros E. right.
    exists match e with Some e => inl e | None => inr version end. split; [|by destruct e; injection E as _ <-].
    exists rec, w, w1, missing, (nw_now w1 + PutTTL)%Z, w2, version, e. split_and!; try done; [by eapply walkComplete_enough|].
    by destruct e; injection E as <- _.
Qed.

(** The expiry of a verified subtree is put off by every walk that skips it: with
    an unexpired entry for the root, the walk negotiates the root alone, whatever
    became of the objects below it, and renews the entry. *)
Theorem cache_entry_renewed (fuel : nat) (PutTTL : Z) w w1 (root : key) :
  is_leaf root = false → gate_cached PutTTL w root = true → negotiateComplete blake3 w (gate_pl w) [root] (gate_min w) = (w1, []) →
  N.of_nat (size (dn_cache (nw_self w1))) < N.shiftl 1 20 →
  ∃ w', walkComplete blake3 (S fuel) PutTTL w root = Some (w', inr ([], 0%Z)) ∧ dn_cache (nw_self w') !! root = Some (nw_now w1).
Proof.
  intros Hl Hc Hn Hsz. unfold walkComplete. fold (gate_pl w). fold (gate_min w). fold (gate_cached PutTTL w).
  assert (walk_loop blake3 (S fuel) (gate_pl w) (gate_min w) (gate_cached PutTTL w) w walk0 [root] = Some (w1, inr (MkWalk {[root]} [] ∅ [] 0))) as ->.
  { cbn [walk_loop]. unfold walk_level. cbn [fold_left]. unfold walk_visit. rewrite decide_False by set_solver. rewrite Hl, Hc. simpl.
    destruct fuel; simpl; unfold walk_flush; simpl; rewrite Hn; simpl; rewrite decide_False by set_solver; simpl; by rewrite (right_id_L ∅ (∪)). }
  simpl. eexists. split; [done|]. unfold upd_self. rewrite set_self by done. unfold remember. simpl. rewrite elements_singleton. simpl. rewrite Hl.
  assert (size (<[root := nw_now w1]> (dn_cache (nw_self w1))) ≤ S (size (dn_cache (nw_self w1))))%nat as Hs by (rewrite map_size_insert; destruct (dn_cache (nw_self w1) !! root); simpl; lia).
  destruct (N.ltb_spec (N.shiftl 1 20) (N.of_nat (size (<[root := nw_now w1]> (dn_cache (nw_self w1)))))); [lia|]. by rewrite lookup_insert_eq.
Qed.

(** An [unavailable] error, with some text. *)
Definition answers_unavailable (r : option (W * Msg)) w : Prop := ∃ text, r = Some (w, ErrMsg CodeUnavailable text).

(** A write whose accept was refused past its deadline is answered [unavailable],
    not [timeout]: the proposer's error for it is not a remote error, so the test
    for the code [expired] never succeeds. *)
Theorem expired_put_unavailable (fuel : nat) (PutTTL : Z) w w0 w1 w2 (m : Msg) (rec : Reference) version :
  put_checks reference_Decode ValidateName m = inr rec → checkEpoch w m = (w0, None) →
  walkComplete blake3 fuel PutTTL w0 (arr_of 32 (ref_Key rec)) = Some (w1, inr ([], 0%Z)) →
  rw_RefPut w1 (of_string (ref_Name rec)) (m_Record m) (condOf m) (nw_now w + PutTTL) (keyOfRecord reference_Decode) =
    (w2, version, Some (of_perr EExpired)) →
  answers_unavailable (handleRefPut blake3 reference_Decode ValidateName errText fuel PutTTL w m) w2.
Proof. intros Hp Hc Hw Hput. exists (errText (CPaxos EExpired)). unfold handleRefPut. rewrite Hp, Hc, Hw. simpl. by rewrite Hput. Qed.

(** A catalog error that is reported as a timeout. *)
Definition times_out (e : cerr) : Prop := cerr_deadline e = true ∨ cerr_code e CodeExpired = true.

(** The walk itself never makes a put answer [timeout], however late it is. *)
Theorem timeout_from_catalog (fuel : nat) (PutTTL : Z) w (m : Msg) w' (reply : Msg) :
  handleRefPut blake3 reference_Decode ValidateName errText fuel PutTTL w m = Some (w', reply) → m_Code reply = CodeTimeout →
  ∃ w1 name rec cond notAfter w2 version e, rw_RefPut w1 name rec cond notAfter (keyOfRecord reference_Decode) = (w2, version, Some e) ∧ times_out e.
Proof.
  unfold handleRefPut. cbv zeta. destruct (put_checks reference_Decode ValidateName m) as [e|rec]; [by intros [= <- <-]|].
  assert (∀ (n : dnode P DB) x, m_Code (stampReply n x) = m_Code x) as Hst by (intros n x; unfold stampReply; by destruct (dn_view n)).
  destruct (checkEpoch w m) as [w0 [[|]|]]; intros E Ht; [injection E as <- <-; unfold staleMsg in Ht; by rewrite Hst in Ht| |].
  all: destruct (walkComplete blake3 fuel PutTTL w0 (arr_of 32 (ref_Key rec))) as [[w1 r]|]; [|done].
  all: simpl in E; destruct r as [[|]|[missing sh]]; [by injection E as <- <-|by injection E as <- <-|].
  all: case_bool_decide; [|injection E as <- <-; by rewrite Hst in Ht].
  all: destruct (rw_RefPut w1 _ _ _ _ _) as [[w2 v] [e|]] eqn:Ep; injection E as <- <-; [|by rewrite Hst in Ht].
  all: assert (times_out e) as Hto; [|exists w1, (of_string (ref_Name rec)), (m_Record m), (condOf m), (nw_now w + PutTTL)%Z, w2, v, e; done]; unfold catalogErr, mismatchMsg, times_out in *.
  all: destruct e as [[]| | |]; try done; repeat case_match; simpl in *; rewrite ?Hst in *; simpl in *; try done; auto.
Qed.
End gate.

(** * Witnesses *)

Definition small_root : key := small_tree [x05; x06].
Definition small_full : cluster small_store (gmap bytes bytes) := small_cluster [(0, [small_root; small_blob x05; small_blob x06])] ∅.

(** One blob is nowhere; the root was verified a moment ago. *)
Definition small_stale : cluster small_store (gmap bytes bytes) := small_cluster [(0, [small_root; small_blob x05])] {[small_root := 990%Z]}.

Definition small_decode (b : bytes) : string + Reference := inr (MkReference "r" b 0 "").
Definition small_put : Msg := msg0 <| m_Type := TRefPut |> <| m_Record := arr_bytes small_root |> <| m_Incarnation := 1 |> <| m_Epoch := 1 |>.

(** A catalog that accepts every write, or lets every write expire. *)
Definition small_catalog (r : option cerr) : RefWorld (cluster small_store (gmap bytes bytes)) := {|
  rw_RefGet w _ := (w, RefValue0, Some (CErr XUnknownRef));
  rw_RefList w _ _ _ := (w, inr ([], []));
  rw_RefPut w _ _ _ _ _ := (w, [x01], r);
  rw_RefDelete w _ _ _ := (w, ballot0, None);
  rw_RefsSnapshot w := (w, inr []);
  rw_TryPurge w _ _ := w;
  rw_refChanged w _ _ _ := w;
|}.

Definition small_ref_put (w : cluster small_store (gmap bytes bytes)) (r : option cerr) : option (cluster small_store (gmap bytes bytes) * Msg) :=
  handleRefPut (H4 := small_catalog r) toy_blake3 small_decode (λ _, None) (λ _, ""%string) 5 100 w small_put.

Lemma some_reply {W} (r : option (W * Msg)) t : match r with Some (_, m) => m_Type m = t | None => False end →
  ∃ w m, r = Some (w, m) ∧ m_Type m = t.
Proof. destruct r as [[w m]|]; [eauto|done]. Qed.

Lemma small_decode_key b rec : small_decode b = inr rec → ref_Key rec = b.
Proof. by intros [= <-]. Qed.

Lemma ref_put_gated_witness : ∃ w' r,
  gated_write (H5 := small_catalog None) toy_blake3 small_decode 5 100 small_full "r" (arr_bytes small_root) (condOf small_put) w' r ∧
  ∃ version, r = inr version.
Proof.
  destruct (some_reply (small_ref_put small_full None) TOK) as (w' & reply & E & Ht); [computes|].
  destruct (ref_put_gated (H5 := small_catalog None) toy_blake3 small_decode (λ _, None) (λ _, ""%string) 5 100 small_full w') as [Hp _].
  destruct (Hp small_put reply E) as [[_ Hn]|(rec & r & Hc & Hg & [Hok _])]; [destruct (Hn Ht)|].
  assert (rec = MkReference "r" (arr_bytes small_root) 0 "") as ->; [|exists w', r; exact (conj Hg (Hok Ht))].
  apply (f_equal (λ x, match x with inr r => r | inl _ => MkReference "" [] 0 "" end)) in Hc. rewrite <- Hc. by vm_compute.
Defined.

Lemma small_under cached k : under cached small_root k → k ∈ ({[small_root; small_blob x05; small_blob x06]} : gset key).
Proof.
  induction 1 as [|k d kids c _ IH Hl _ Hd Hk Hc]; [set_solver|]. rewrite !elem_of_union, !elem_of_singleton in IH.
  destruct IH as [[->| ->]| ->]; [|by vm_compute in Hl|by vm_compute in Hl].
  rewrite (content_unique _ _ _ Hd (small_content small_root)) in Hk. assert (kids = [small_blob x05; small_blob x06]) as ->; [|set_solver].
  injection Hk as <-. apply (bool_decide_unpack _). vm_compute. exact I.
Qed.

Lemma walk_terminates_witness : is_Some (walkComplete toy_blake3 4 100 small_full small_root).
Proof.
  apply (walk_terminates toy_blake3 {[small_root; small_blob x05; small_blob x06]} 4 100 small_full small_root).
  - intros k. apply small_under.
  - decides.
Defined.

Lemma cache_entry_renewed_witness : ∃ w', walkComplete toy_blake3 5 100 small_stale small_root = Some (w', inr ([], 0%Z)) ∧
  dn_cache (nw_self w') !! small_root = Some 1002%Z.
Proof.
  destruct (negotiateComplete toy_blake3 small_stale (gate_pl toy_blake3 small_stale) [small_root] (gate_min toy_blake3 small_stale)) as [w1 short] eqn:En.
  assert (short = [] ∧ nw_now w1 = 1002%Z ∧ (N.of_nat (size (dn_cache (nw_self w1))) < N.shiftl 1 20)) as (-> & Hnow & Hsz).
  { change w1 with (w1, short).1. change short with (w1, short).2 at 1. rewrite <- En. split; [computes|]. split; computes. }
  rewrite <- Hnow. apply (cache_entry_renewed toy_blake3 4 100 small_stale w1 small_root); [computes|computes|done|done].
Defined.

Lemma walked_all {W A B} (r : option (W * (A + B))) b : snd <$> r = Some (inr b) → ∃ w, r = Some (w, inr b).
Proof. destruct r as [[w x]|]; [|done]. simpl. intros [= ->]. eauto. Qed.

Lemma expired_put_unavailable_witness : ∃ w, answers_unavailable (small_ref_put small_full (Some (of_perr EExpired))) w.
Proof.
  destruct (walked_all (walkComplete toy_blake3 5 100 small_full (arr_of 32 (arr_bytes small_root))) ([], 0%Z)) as (w1 & Hw); [computes|].
  exists w1. apply (expired_put_unavailable (H5 := small_catalog (Some (of_perr EExpired))) toy_blake3 small_decode (λ _, None) (λ _, ""%string) 5 100
    small_full small_full w1 w1 small_put (MkReference "r" (arr_bytes small_root) 0 "") [x01]).
  - reflexivity.
  - reflexivity.
  - exact Hw.
  - reflexivity.
Defined.
