(* ===== verification/Reconcile.v ===== *)
(** The reconciler of a node (src/node/reconcile.go): the queue of offers, the
    first audit, the passes over packs during and outside transitions, the stamps
    they leave and the scrub.

    An offer is [forwardTo] of Data.v; a change of the view is made by the functions
    of Transition.v through the catalog, which is a field of the class here.  The
    pause that keeps the copy rate is left out. *)
From stdpp Require Import pretty sorting.
From S2P Require Import Prelude Store Placement View Wire Ballot Proposer Catalog Meta Transition Mark Pins GC Data.

Local Open Scope N_scope.

(** * Data *)

Definition mkXfer : bytes := of_string "xfer/".

(** A participant's progress through a pass.  The maps of booleans hold only true,
    so they are sets. *)
Record xferState := MkXfer {
  xf_ID : N;
  xf_Round : N;
  xf_Seal : N;
  xf_Done : list N;
  xf_Deferred : list N;
  xf_Primary : bool;
  xf_Cover : bool;
  xf_Seal2 : N;
  xf_Finished : bool;
}.

#[global] Instance xferState_eta : Eta xferState := λ r,
  MkXfer (xf_ID r) (xf_Round r) (xf_Seal r) (xf_Done r) (xf_Deferred r) (xf_Primary r) (xf_Cover r) (xf_Seal2 r) (xf_Finished r).
#[global] Instance xferState_ser : Ser xferState.
Proof.
  refine (ser_via (λ r, (xf_ID r, xf_Round r, xf_Seal r, xf_Done r, xf_Deferred r, xf_Primary r, xf_Cover r, xf_Seal2 r, xf_Finished r))
    (λ '(a, b, c, d, e, f, g, h, i), MkXfer a b c d e f g h i) _). by intros [].
Defined.

(** The reconciler, apart from the queue, which is the node's. *)
Record reconciler := MkReconciler { rc_wiped : gmap NodeID Z; rc_xfer : option xferState; rc_lastPass : Z }.

#[global] Instance reconciler_eta : Eta reconciler := λ r, MkReconciler (rc_wiped r) (rc_xfer r) (rc_lastPass r).

Record recConfig := MkRecConfig { Delta : Z; FirstAudit : Z; AuditInterval : Z }.

(** [n.cat.CASView] followed by the adoption of its result. *)
Class ViewWorld (W : Type) := { vw_CASView : W → change → W }.

(** The members of a set of pack ids. *)
Definition add_pack (id : N) (l : list N) : list N := if decide (id ∈ l) then l else id :: l.
Definition drop_pack (id : N) (l : list N) : list N := filter (λ x, x ≠ id) l.

Section reconcile.
Context (blake3 : bytes → nat → bytes) `{Core} {P DB W : Type} `{PackStore P} `{KVStore DB} `{Codec View} `{Codec packStamp} `{Codec xferState}.
Context `{Net P DB W} `{ViewWorld W} (storeID : bytes) (cfg : recConfig).
Implicit Types w : W.
Implicit Types n : dnode P DB.

(** * Offers *)

(** The record to send; a corrupt one is marked. *)
Definition offer_record w (k : key) : W * option bytes :=
  let n := nw_self w in
  if isCorrupt (dn_db n) k then (w, None)
  else match ps_GetRecord (dn_store n) k with
       | inr rec => (w, Some rec)
       | inl ErrCorrupt | inl ErrVerify => (upd_self w (λ n, mark_corrupt n k), None)
       | inl _ => (w, None)
       end.

Fixpoint offer_batches w (target : NodeID) (batches : list (list key)) : W * list key :=
  match batches with
  | [] => (w, [])
  | b :: bs =>
      let '(w, _, errs) := forwardTo blake3 w target b offer_record in
      let '(w, failed) := offer_batches w target bs in
      (w, (map_to_list errs).*1 ++ failed)
  end.

(** [offer]: the keys that were not confirmed. *)
Definition offer w (target : NodeID) (keys : list key) : W * list key :=
  offer_batches w target (chunks (length keys) 4096 keys).

(** Offers to several targets: whether all was confirmed. *)
Fixpoint offers w (l : list (NodeID * list key)) : W * bool :=
  match l with
  | [] => (w, true)
  | (t, ks) :: l =>
      let '(w, failed) := offer w t ks in
      let '(w, ok) := offers w l in
      (w, bool_decide (failed = []) && ok)
  end.

(** [flushQueue]: what fails is not queued again, whichever way the test of the
    last pass goes. *)
Definition flushQueue w : W :=
  let q := dn_queue (nw_self w) in
  let w := upd_self w (λ n, n <| dn_queue := ∅ |>) in
  (offers w ((λ e : NodeID * gset key, (e.1, elements e.2)) <$> map_to_list q)).1.

(** [firstAudit]; which of the due keys come first is the order of a Go map. *)
Definition firstAudit w : W :=
  let n := nw_self w in
  let cutoff := (nw_now w - FirstAudit cfg)%Z in
  let due := take 8192 (filter (λ e : key * Z, (e.2 < cutoff)%Z) (map_to_list (dn_recent n))).*1 in
  let w := upd_self w (λ n, n <| dn_recent := fold_left (λ m k, delete k m) due (dn_recent n) |>) in
  match due with
  | [] => w
  | _ :: _ => (offers w (map_to_list (group_keys (λ k, others n (WriteSet (placement_of blake3 n) k)) due))).1
  end.

(** * Seals and wiped targets *)

(** [seal]: the highest sealed id. *)
Definition seal w : W * N :=
  let w := upd_self w (λ n, n <| dn_store := ps_seal (dn_store n) |>) in
  (w, match ps_Segments (dn_store (nw_self w)) with inl _ => 0 | inr ids => default 0 (last ids) end).

Definition targetWiped (r : reconciler) (id : NodeID) (at_ : Z) : reconciler := r <| rc_wiped := <[id := at_]> (rc_wiped r) |>.

Definition unreplicate n (id : N) : dnode P DB :=
  match stamp (dn_db n) storeID id with
  | Some s => if Replicated s then set_db n (setStamp (dn_db n) storeID id (MkPackStamp (Inc s) (For s) false (Checked s) (Verified s))) else n
  | None => n
  end.

Definition applyWiped w (r : reconciler) : W * reconciler :=
  let due := (filter (λ e : NodeID * Z, (e.2 < nw_now w)%Z) (map_to_list (rc_wiped r))).*1 in
  let r := r <| rc_wiped := fold_left (λ m id, delete id m) due (rc_wiped r) |> in
  match due with
  | [] => (w, r)
  | _ :: _ =>
      let '(w, _) := seal w in
      match ps_Segments (dn_store (nw_self w)) with
      | inl _ => (w, r)
      | inr ids => (upd_self w (λ n, fold_left unreplicate ids n), r)
      end
  end.

(** * Transitions *)

Definition xferKey (id round : N) : bytes := mkXfer ++ of_string (pretty id) ++ of_string "/" ++ of_string (pretty round).

Definition saveXfer w (x : xferState) : W := upd_self w (λ n, set_db n (snd (SetCBOR (dn_db n) (xferKey (xf_ID x) (xf_Round x)) x))).

Definition casPending w (id : N) (fn : Pending → Pending) : W := vw_CASView w (casPending_change id fn).

Definition adoptTransition w (r : reconciler) (v : View) (p : Pending) : W * reconciler :=
  let self := dn_id (nw_self w) in
  if negb (IsMember v self) then (w, r)
  else
    let '(w, x) :=
      match GetCBOR (dn_db (nw_self w)) (xferKey (Pending_ID p) (Pending_Round p)) with
      | inr x => (w, x)
      | inl _ =>
          let '(w, s) := seal w in
          let x := MkXfer (Pending_ID p) (Pending_Round p) s [] [] false false 0 false in
          (saveXfer w x, x)
      end in
    let r := r <| rc_xfer := Some x |> in
    if Contains (Pending_ParticipantsAck p) self then (w, r) else (vw_CASView w (ack_change self (Pending_ID p)), r).

Definition transitionCommitted w (r : reconciler) : W * reconciler :=
  (upd_self w (λ n, set_db n (snd (DeletePrefix (dn_db n) mkXfer))), r <| rc_xfer := None |>).

(** This node's position among the participating owners, and those above it. *)
Fixpoint rank_loop (self : NodeID) (participants : list bytes) (owners above : list NodeID) : nat * list NodeID :=
  match owners with
  | [] => (0%nat, above)
  | o :: os =>
      if negb (Contains participants o) then rank_loop self participants os above
      else if decide (o = self) then (S (length above), above)
      else rank_loop self participants os (above ++ [o])
  end.

Definition rankAmong (pl : Placement) (k : key) (self : NodeID) (participants : list bytes) : nat * list NodeID :=
  rank_loop self participants (Owners_of pl k) [].

Definition forward_ready (pl : Placement) (p : Pending) (self : NodeID) (now : Z) (k : key) : bool :=
  let '(j, above) := rankAmong pl k self (Pending_Participants p) in
  (j <=? 1)%nat || (i64 ((Z.of_nat j - 1) * Delta cfg) <=? since now (Pending_FrozenAt p))%Z ||
  forallb (Contains (Pending_PrimaryDone p)) above.

(** ** One pack *)

(** The transition a pass is part of. *)
Definition pass_of (v : View) (x : option xferState) : option Pending :=
  match View_Pending v, x with Some p, Some _ => if Pending_Frozen p then Some p else None | _, _ => None end.

Definition add_target (k : key) (m : gmap NodeID (list key)) (t : NodeID) : gmap NodeID (list key) := <[t := default [] (m !! t) ++ [k]]> m.

(** The targets of a key: [settledCur] says that the owners of the current
    placement were audited. *)
Definition group_key (pl : Placement) (self : NodeID) (pass : option Pending) (settledCur : bool) (m : gmap NodeID (list key)) (k : key) :
    gmap NodeID (list key) :=
  let targets := match pass with Some _ => default [] (PendingOwners pl k) | None => WriteSet pl k end in
  let m := fold_left (λ m t, if decide (t = self) then m else if settledCur && IsOwner_of pl k t then m else add_target k m t) targets m in
  match pass with
  | None => m
  | Some _ =>
      if settledCur then m
      else fold_left (λ m t, if decide (t = self) then m else if decide (k ∈ default [] (m !! t)) then m else add_target k m t) (Owners_of pl k) m
  end.

(** The loop over a pack's keys: what goes to whom, and whether a key was deferred. *)
Definition plan_key n (pl : Placement) (pass : option Pending) (settledCur : bool) (now : Z) (id : N) (s : gmap NodeID (list key) * bool) (k : key) :
    gmap NodeID (list key) * bool :=
  if isCorrupt (dn_db n) k || provedDead (dn_id n) (dn_gc n) k id then s
  else if match pass with Some p => negb (forward_ready pl p (dn_id n) now k) | None => false end then (s.1, true)
  else (group_key pl (dn_id n) pass settledCur s.1 k, s.2).

Definition plan_pack n (pl : Placement) (v : View) (x : option xferState) (now : Z) (id : N) (keys : list key) : gmap NodeID (list key) * bool :=
  let pass := pass_of v x in
  let settledCur := bool_decide (is_Some pass) && settledFor (dn_db n) storeID id v (PlacementEpoch v) in
  fold_left (plan_key n pl pass settledCur now id) keys (∅, false).

(** [scrubPack]: the bytes of every record. *)
Definition scrub_key (id : N) n (e : key * N) : dnode P DB :=
  let bad := corruptFound blake3 (mark_corrupt n e.1) e.1 in
  match ps_Record (dn_store n) id e.2 with
  | inl _ => bad
  | inr rec =>
      match ParseRecord rec with
      | inl _ => bad
      | inr raw =>
          match verifyRecord (MkRawRecord (raw_Key raw) (raw_Flags raw) (raw_Ulen raw) rec) with inl _ => bad | inr _ => n end
      end
  end.

Definition scrubPack n (id : N) : dnode P DB :=
  match ps_ScanIndex (dn_store n) id with inl _ => n | inr es => fold_left (scrub_key id) es n end.

(** Whether a pack's bytes are due, and since when they are verified. *)
Definition scrub_due n (now : Z) (id : N) : option Z :=
  match stamp (dn_db n) storeID id with
  | Some s => if (AuditInterval cfg <? since now (Verified s))%Z then None else Some (Verified s)
  | None => None
  end.

(** [reconcilePack]: true when keys were deferred. *)
Definition reconcilePack w (r : reconciler) (id : N) (v : View) (x : option xferState) : W * reconciler * bool :=
  let n := nw_self w in
  let pl := placement_of blake3 n in
  match ps_ScanIndex (dn_store n) id with
  | inl _ => (w, r, false)
  | inr es =>
      let '(byTarget, deferred) := plan_pack n pl v x (nw_now w) id es.*1 in
      let '(w, replicated) := offers w (map_to_list byTarget) in
      let '(w, verified) :=
        match scrub_due (nw_self w) (nw_now w) id with
        | Some t => (w, t)
        | None => (upd_self w (λ n, scrubPack n id), nw_now w)
        end in
      if deferred then (w, r, true)
      else
        let forID := match pass_of v x with Some p => Pending_ID p | None => PlacementEpoch v end in
        (upd_self w (λ n, set_db n (setStamp (dn_db n) storeID id (MkPackStamp (Incarnation v) forID replicated (nw_now w) verified))),
         r <| rc_lastPass := nw_now w |>, false)
  end.

(** ** A pass *)

(** The loop over the packs of a pass.  It stops after a pack that was done. *)
Inductive pass_end := PassStopped | PassOver (allDone : bool).

Fixpoint pass_loop w (r : reconciler) (v : View) (x : xferState) (limit : N) (ids : list N) (allDone : bool) : W * reconciler * xferState * pass_end :=
  match ids with
  | [] => (w, r, x, PassOver allDone)
  | id :: ids =>
      if limit <? id then (w, r, x, PassOver allDone)
      else if decide (id ∈ xf_Done x) then pass_loop w r v x limit ids allDone
      else if xf_Cover x && (id <=? xf_Seal x) then pass_loop w r v x limit ids allDone
      else
        let '(w, r, deferred) := reconcilePack w r id v (Some x) in
        let x := if deferred then x <| xf_Deferred := add_pack id (xf_Deferred x) |>
                 else x <| xf_Done := add_pack id (xf_Done x) |> <| xf_Deferred := drop_pack id (xf_Deferred x) |> in
        let w := saveXfer w x in
        if deferred then pass_loop w r v x limit ids false else (w, r, x, PassStopped)
  end.

(** The pass this node is in, adopting the transition when it is not; the pass
    state is shared with the reconciler, so what a step does to it stays. *)
Definition current_pass w (r : reconciler) (v : View) (p : Pending) : W * reconciler * option xferState :=
  let fresh := match rc_xfer r with
               | Some x => negb (xf_ID x =? Pending_ID p) || negb (xf_Round x =? Pending_Round p)
               | None => true
               end in
  let '(w, r) := if fresh then adoptTransition w r v p else (w, r) in
  (w, r, rc_xfer r).

(** [transitionStep]: whether it did transition work. *)
Definition transitionStep w (r : reconciler) (v : View) : W * reconciler * bool :=
  match View_Pending v with
  | None => (w, r, false)
  | Some p =>
      let self := dn_id (nw_self w) in
      if negb (Pending_Frozen p) || negb (Contains (Pending_Participants p) self) then (w, r, false)
      else match current_pass w r v p with
      | (w, r, None) => (w, r, false)
      | (w, r, Some x) =>
          if xf_Finished x || Contains (Pending_Done p) self then (w, r, false)
          else match ps_Segments (dn_store (nw_self w)) with
          | inl _ => (w, r, true)
          | inr ids =>
              match pass_loop w r v x (if xf_Cover x then xf_Seal2 x else xf_Seal x) ids true with
              | (w, r, x, PassStopped) => (w, r <| rc_xfer := Some x |>, true)
              | (w, r, x, PassOver allDone) =>
                  let '(w, x) :=
                    if xf_Primary x then (w, x)
                    else
                      let x := x <| xf_Primary := true |> in
                      (casPending (saveXfer w x) (Pending_ID p) (primaryDone_fn self), x) in
                  if negb allDone then (w, r <| rc_xfer := Some x |>, true)
                  else if negb (xf_Cover x) then
                    let '(w, s) := seal w in
                    let x := x <| xf_Cover := true |> <| xf_Seal2 := s |> in
                    (saveXfer w x, r <| rc_xfer := Some x |>, true)
                  else
                    let x := x <| xf_Finished := true |> in
                    (casPending (saveXfer w x) (Pending_ID p) (done_fn self), r <| rc_xfer := Some x |>, true)
              end
          end
      end
  end.

(** * The background *)

(** The priority of a pack that needs an audit. *)
Definition audit_prio n (v : View) (now : Z) (id : N) : option N :=
  match stamp (dn_db n) storeID id with
  | None => Some 0
  | Some s =>
      if negb (Inc s =? Incarnation v) || negb (For s =? PlacementEpoch v) then Some 1
      else if negb (Replicated s) then Some 2
      else if (AuditInterval cfg <? since now (Checked s))%Z then Some 3
      else None
  end.

(** The order of the candidates, by priority and then id. *)
Definition cand_le (a b : N * N) : Prop := a.1 < b.1 ∨ (a.1 = b.1 ∧ a.2 ≤ b.2).
#[global] Instance cand_le_dec : RelDecision cand_le.
Proof. intros a b. unfold cand_le. apply _. Defined.

Definition candidates n (v : View) (now : Z) (ids : list N) : list (N * N) :=
  merge_sort cand_le (omap (λ id, (λ prio, (prio, id)) <$> audit_prio n v now id) ids).

(** The pack [backgroundStep] audits. *)
Definition next_audit n (v : View) (now : Z) (ids : list N) : option N :=
  match candidates n v now ids with
  | [] => None
  | (_, id) :: _ =>
      match stamp (dn_db n) storeID id with
      | Some s => if negb (Replicated s) && (since now (Checked s) <? FirstAudit cfg)%Z then None else Some id
      | None => Some id
      end
  end.

Definition backgroundStep w (r : reconciler) (v : View) : W * reconciler :=
  match ps_Segments (dn_store (nw_self w)) with
  | inl _ => (w, r)
  | inr ids =>
      match next_audit (nw_self w) v (nw_now w) ids with
      | None => (w, r)
      | Some id => (reconcilePack w r id v None).1
      end
  end.

(** [step], with the view the node has when it starts. *)
Definition rec_step w (r : reconciler) : W * reconciler :=
  match dn_view (nw_self w) with
  | None => (w, r)
  | Some v =>
      let w := firstAudit (flushQueue w) in
      let '(w, r) := applyWiped w r in
      if RebalancePause v then (w, r)
      else
        let '(w, r, worked) := transitionStep w r v in
        if worked then (w, r) else backgroundStep w r v
  end.

(** [onEpoch]: what a node does once it has adopted a view of another epoch; [delay]
    is the random delay of each wiped target. *)
Definition onEpoch w (r : reconciler) (old : option View) (v : View) (delay : NodeID → Z) : W * reconciler :=
  let was := o ← old; View_Pending o in
  let '(w, r) :=
    match View_Pending v with
    | Some p =>
        if match was with Some q => negb (Pending_ID q =? Pending_ID p) || negb (Pending_Round q =? Pending_Round p) | None => true end
        then adoptTransition w r v p else (w, r)
    | None => match was with Some _ => transitionCommitted w r | None => (w, r) end
    end in
  let changed nn := match o ← old; View_Node o (NID nn) with Some on => negb (Node_Incarnation on =? Node_Incarnation nn) | None => false end in
  (w, fold_left (λ r nn, targetWiped r (NID nn) (nw_now w + delay (NID nn))) (filter (λ nn, changed nn = true) (Nodes v)) r).

(** [pendingPacks] and [scrubAge]. *)
Definition pendingPacks n (ids : list N) : nat :=
  match dn_view n with
  | None => length ids
  | Some v => length (filter (λ id, settled (dn_db n) storeID id v = false) ids)
  end.

Definition scrubAge n (now : Z) (segs : list (N * Z)) : Z :=
  fold_left (λ oldest seg,
    let t := match stamp (dn_db n) storeID seg.1 with Some s => if (0 <? Verified s)%Z then Verified s else seg.2 | None => seg.2 end in
    Z.max oldest (Z.quot (since now t) (10 ^ 9))) segs 0%Z.
End reconcile.
