(* ===== verification/ReconcileSafety.v ===== *)
(** The reconciler of src/node/reconcile.go.

    Shown: a pack is stamped as replicated only after every owner it owes a record
    was seen with it; what goes wrong when the view changes under a pass; and that
    one pack whose target is down holds up the audit of all others. *)
From stdpp Require Import sorting.
From S2P Require Import Prelude Store Placement View Wire Ballot Proposer Catalog Meta Transition Mark Pins GC Data DataSafety NodeNet Reconcile.

Local Open Scope N_scope.

Section reconcile.
Context (blake3 : bytes → nat → bytes) `{Core} `{!CoreOK} {P DB W : Type} `{PackStore P} `{!PackStoreOK P} `{KVStore DB} `{!Reliable DB}.
Context `{Codec View} `{Codec packStamp} `{Codec xferState} `{Net P DB W} `{!Peers P DB W} `{ViewWorld W} (storeID : bytes) (cfg : recConfig).
Implicit Types w : W.
Implicit Types n : dnode P DB.

(** * Offers *)

Lemma offer_record_runs w k : runs w (offer_record w k).1.
Proof.
  unfold offer_record. destruct (isCorrupt _ _); [reflexivity|]. destruct (ps_GetRecord _ _) as [[]|]; simpl; (reflexivity || by apply upd_self_runs).
Qed.

Lemma collect_runs w rec ks : (∀ w k, runs w (rec w k).1) → runs w (collect w rec ks).1.
Proof.
  intros Hrec. revert w. induction ks as [|k ks IH]; intros w; simpl; [reflexivity|]. pose proof (Hrec w k) as H1'.
  destruct (rec w k) as [w1 r]. pose proof (IH w1) as H2'. destruct (collect w1 rec ks) as [w2 recs]. simpl in *. by etrans.
Qed.

(** Every key offered is confirmed by its target, or fails. *)
Lemma forwardTo_ok w to keys rec w' ok errs : (∀ w k, runs w (rec w k).1) → forwardTo blake3 w to keys rec = (w', ok, errs) →
  runs w w' ∧ ∀ k, k ∈ keys → had w' to k ∨ is_Some (errs !! k).
Proof.
  intros Hrec. unfold forwardTo. pose proof (remoteMissing_runs w to keys false) as Hr. destruct (remoteMissing w to keys false) as [w1 [e|lacking]] eqn:Em; simpl in Hr.
  { intros [= <- <- <-]. split; [done|]. intros k Hk. right. apply fail_all_in. by left. }
  assert (∀ k, k ∈ keys → k ∉ lacking → had w1 to k) as Hhad.
  { intros k Hk Hn. destruct (remoteMissing_ok _ _ _ _ _ _ k Em Hk Hn) as (n & Hs & Hst & _). by exists n. }
  destruct lacking as [|l0 ls] eqn:El.
  { intros [= <- <- <-]. split; [done|]. intros k Hk. left. by apply Hhad, not_elem_of_nil. }
  rewrite <- El in *. clear El l0 ls. pose proof (collect_runs w1 rec lacking Hrec) as Hc. destruct (collect w1 rec lacking) as [w2 recs]. simpl in Hc.
  pose proof (putTo_runs w2 to recs) as Hp. destruct (putTo w2 to recs) as [w3 [e|res]] eqn:Ep; simpl in Hp.
  - intros [= <- <- <-]. split; [etrans; [exact Hr|]; etrans; [exact Hc|exact Hp]|]. intros k Hk. destruct (decide (k ∈ lacking)); [right; apply fail_all_in; by left|].
    left. eapply had_runs; [|by apply Hhad]. etrans; [exact Hc|exact Hp].
  - intros Hf. destruct (settle_ok _ _ _ _ _ _ _ _ _ Hf) as (I1 & I2 & I3 & _ & I5). assert (runs w1 w') as Hr1 by (etrans; [exact Hc|]; etrans; [exact Hp|exact I1]).
    split; [by etrans|]. intros k Hk. destruct (decide (k ∈ lacking)) as [Hin|Hn]; [|left; eapply had_runs; [exact Hr1|by apply Hhad]].
    destruct (I5 k Hin) as [Hok|?]; [|by right]. destruct (I3 k Hok) as [[Hn _]%list_elem_of_filter|Hcf]; [done|].
    left. eapply had_runs; [exact I1|]. by eapply putTo_ok.
Qed.

Lemma offer_batches_ok w t bs w' failed : offer_batches blake3 w t bs = (w', failed) → runs w w' ∧
  (failed = [] → ∀ b k, b ∈ bs → k ∈ b → had w' t k).
Proof.
  revert w failed. induction bs as [|b bs IH]; intros w failed; simpl; [intros [= <- <-]; split; [reflexivity|by intros _ b k ?%not_elem_of_nil]|].
  destruct (forwardTo blake3 w t b offer_record) as [[w1 ok] errs] eqn:Ef. destruct (forwardTo_ok _ _ _ _ _ _ _ offer_record_runs Ef) as [Hr1 Hk1].
  destruct (offer_batches blake3 w1 t bs) as [w2 failed2] eqn:Eo. intros [= <- <-]. destruct (IH _ _ Eo) as [Hr2 Hk2]. split; [by etrans|].
  intros [He ->]%app_nil b' k [->|Hb']%elem_of_cons Hk; [|by eapply Hk2]. destruct (Hk1 k Hk) as [?|(e & He')]; [eapply had_runs; [exact Hr2|done]|].
  apply elem_of_map_to_list in He'. apply (list_elem_of_fmap_2 fst) in He'. rewrite He in He'. by apply not_elem_of_nil in He'.
Qed.

Lemma offer_ok w t ks w' failed : offer blake3 w t ks = (w', failed) → runs w w' ∧ (failed = [] → ∀ k, k ∈ ks → had w' t k).
Proof.
  intros Eo. destruct (offer_batches_ok _ _ _ _ _ Eo) as [Hr Hk]. split; [done|]. intros Hf k Hin.
  destruct (elem_of_chunks (length ks) 4096 ks k) as (b & Hb & Hkb); [done|apply (bool_decide_unpack _); by vm_compute|done|]. by eapply Hk.
Qed.

(** When all offers succeed, every target was seen with everything it was offered. *)
Lemma offers_ok w l w' ok : offers blake3 w l = (w', ok) → runs w w' ∧ (ok = true → ∀ t ks k, (t, ks) ∈ l → k ∈ ks → had w' t k).
Proof.
  revert w ok. induction l as [|[t ks] l IH]; intros w ok; simpl; [intros [= <- <-]; split; [reflexivity|by intros _ t ks k ?%not_elem_of_nil]|].
  destruct (offer blake3 w t ks) as [w1 failed] eqn:Eo. destruct (offer_ok _ _ _ _ _ Eo) as [Hr1 Hk1].
  destruct (offers blake3 w1 l) as [w2 ok2] eqn:E2. intros [= <- <-]. destruct (IH _ _ E2) as [Hr2 Hk2]. split; [by etrans|].
  intros [Hf%bool_decide_eq_true ->]%andb_prop t' ks' k [[= -> ->]|Hin]%elem_of_cons Hk; [|by eapply Hk2].
  eapply had_runs; [exact Hr2|]. by apply Hk1.
Qed.

(** * What a pack owes *)

Lemma lookup_add_target k m t t' k' : (∃ ks, m !! t' = Some ks ∧ k' ∈ ks) ∨ (t = t' ∧ k' = k) → ∃ ks, add_target k m t !! t' = Some ks ∧ k' ∈ ks.
Proof.
  unfold add_target. destruct (decide (t = t')) as [->|Hne]; [rewrite lookup_insert_eq|rewrite lookup_insert_ne by done].
  - intros [(ks & -> & Hk)|[_ ->]]; eexists; (split; [done|]); apply elem_of_app; [by left|right; by left].
  - intros [?|[? _]]; [done|by subst].
Qed.

(** A loop that adds a key to every target it does not skip. *)
Lemma add_targets (skip : gmap NodeID (list key) → NodeID → bool) k ts m t' k' :
  (∃ ks, m !! t' = Some ks ∧ k' ∈ ks) ∨ (k' = k ∧ t' ∈ ts ∧ ∀ m, skip m t' = true → ∃ ks, m !! t' = Some ks ∧ k ∈ ks) →
  ∃ ks, fold_left (λ m t, if skip m t then m else add_target k m t) ts m !! t' = Some ks ∧ k' ∈ ks.
Proof.
  revert m. induction ts as [|t ts IH]; intros m; simpl; [by intros [?|(_ & ?%not_elem_of_nil & _)]|]. intros Hk. apply IH.
  destruct Hk as [Hk|(-> & [->|Hin]%elem_of_cons & Hs)].
  - left. destruct (skip m t); [done|]. apply lookup_add_target. by left.
  - left. destruct (skip m t) eqn:Es; [by apply Hs|]. apply lookup_add_target. by right.
  - by right.
Qed.

(** The nodes that a pass has to see with a record, by a placement: the owners of the
    target placement, and those of the current one unless the pack was settled for it. *)
Definition owed_by (pl : Placement) n (v : View) (x : option xferState) (id : N) (k : key) (t : NodeID) : Prop :=
  let settledCur := bool_decide (is_Some (pass_of v x)) && settledFor (dn_db n) storeID id v (PlacementEpoch v) in
  t ≠ dn_id n ∧
  match pass_of v x with
  | None => t ∈ WriteSet pl k
  | Some _ => (t ∈ default [] (PendingOwners pl k) ∧ settledCur && IsOwner_of pl k t = false) ∨ (settledCur = false ∧ t ∈ Owners_of pl k)
  end.

(** ... by the placement of the view that the stamp will name. *)
Definition owed n (v : View) : option xferState → N → key → NodeID → Prop := owed_by (NewPlacement blake3 v) n v.

Lemma group_key_ok n v x id m k t k' : let pl := placement_of blake3 n in
  let settledCur := bool_decide (is_Some (pass_of v x)) && settledFor (dn_db n) storeID id v (PlacementEpoch v) in
  (∃ ks, m !! t = Some ks ∧ k' ∈ ks) ∨ (k' = k ∧ owed_by pl n v x id k t) →
  ∃ ks, group_key pl (dn_id n) (pass_of v x) settledCur m k !! t = Some ks ∧ k' ∈ ks.
Proof.
  intros pl sc Hk. unfold group_key.
  set (sk1 := λ (m : gmap NodeID (list key)) t, bool_decide (t = dn_id n) || (sc && IsOwner_of pl k t)).
  set (sk2 := λ (m : gmap NodeID (list key)) t, bool_decide (t = dn_id n) || bool_decide (k ∈ default [] (m !! t))).
  assert (∀ ts m, fold_left (λ m t, if decide (t = dn_id n) then m else if sc && IsOwner_of pl k t then m else add_target k m t) ts m =
    fold_left (λ m t, if sk1 m t then m else add_target k m t) ts m) as ->.
  { intros ts. induction ts as [|t0 ts IH]; intros m0; simpl; [done|]. rewrite IH. f_equal. unfold sk1. case_decide; [by rewrite bool_decide_eq_true_2|].
    by rewrite bool_decide_eq_false_2. }
  assert (∀ ts m, fold_left (λ m t, if decide (t = dn_id n) then m else if decide (k ∈ default [] (m !! t)) then m else add_target k m t) ts m =
    fold_left (λ m t, if sk2 m t then m else add_target k m t) ts m) as ->.
  { intros ts. induction ts as [|t0 ts IH]; intros m0; simpl; [done|]. rewrite IH. f_equal. unfold sk2. case_decide; [by rewrite bool_decide_eq_true_2|].
    rewrite bool_decide_eq_false_2 by done. simpl. by case_decide; [rewrite bool_decide_eq_true_2|rewrite bool_decide_eq_false_2]. }
  unfold owed_by in Hk. fold sc in Hk. destruct (pass_of v x) as [p|] eqn:Ep.
  - destruct Hk as [Hk|(-> & Hne & [[Hin Hs]|[Hs Hin]])].
    + destruct sc; [apply add_targets; by left|]. apply add_targets. left. apply add_targets. by left.
    + assert (∃ ks, fold_left (λ m t, if sk1 m t then m else add_target k m t) (default [] (PendingOwners pl k)) m !! t = Some ks ∧ k ∈ ks) as Hf.
      { apply add_targets. right. split; [done|]. split; [done|]. intros m0. unfold sk1. rewrite bool_decide_eq_false_2, Hs by done. done. }
      destruct sc; [done|]. apply add_targets. by left.
    + rewrite Hs. apply add_targets. right. split; [done|]. split; [done|]. intros m0. unfold sk2. rewrite bool_decide_eq_false_2 by done. simpl.
      rewrite bool_decide_eq_true. destruct (m0 !! t); [eauto|]. by intros ?%not_elem_of_nil.
  - destruct Hk as [Hk|(-> & Hne & Hin)]; apply add_targets; [by left|]. right. split; [done|]. split; [done|]. intros m0. unfold sk1.
    rewrite bool_decide_eq_false_2 by done. unfold sc. by rewrite bool_decide_eq_false_2 by (by intros [? ?]).
Qed.

(** A record that no pass has to move. *)
Definition excused n (id : N) (k : key) : bool := isCorrupt (dn_db n) k || provedDead (dn_id n) (dn_gc n) k id.

Lemma plan_pack_ok n v x now id keys m : plan_pack storeID cfg n (placement_of blake3 n) v x now id keys = (m, false) →
  ∀ k t, k ∈ keys → excused n id k = false → owed_by (placement_of blake3 n) n v x id k t → ∃ ks, m !! t = Some ks ∧ k ∈ ks.
Proof.
  unfold plan_pack. set (f := plan_key _ _ _ _ _ _ _). assert (∀ ks s, (fold_left f ks s).2 = false → s.2 = false) as Hmono.
  { intros ks. induction ks as [|y ks IH]; intros s; simpl; [done|]. intros Hs%IH. revert Hs. unfold f, plan_key. destruct (_ || _); [done|]. by destruct (match _ with Some _ => _ | None => _ end). }
  intros E k t Hk Hex Ho. assert (∀ s m, fold_left f keys s = (m, false) → k ∈ keys ∨ (∃ ks, s.1 !! t = Some ks ∧ k ∈ ks) → ∃ ks, m !! t = Some ks ∧ k ∈ ks) as Hf;
    [|by eapply (Hf (∅, false)); [done|left]]. clear E Hk m. induction keys as [|y keys IH]; intros s m; simpl.
  { by intros -> [?%not_elem_of_nil|?]. }
  intros E Hk. apply (IH _ _ E). assert ((f s y).2 = false) as Hfy by (apply (Hmono keys); by rewrite E).
  destruct Hk as [[->|?]%elem_of_cons|Hk]; [right|by left|right].
  - revert Hfy. unfold f, plan_key. change (isCorrupt (dn_db n) y || provedDead (dn_id n) (dn_gc n) y id) with (excused n id y). rewrite Hex.
    destruct (match pass_of v x with Some p => _ | None => _ end); [done|]. intros _. cbn [fst]. apply group_key_ok. by right.
  - unfold f, plan_key. destruct (_ || _); [done|]. destruct (match pass_of v x with Some p => _ | None => _ end); [done|]. cbn [fst]. apply group_key_ok. by left.
Qed.

(** * Stamps *)

Lemma upd_self_node w f : dn_id (f (nw_self w)) = dn_id (nw_self w) → nw_self (upd_self w f) = f (nw_self w).
Proof. apply set_self. Qed.

Lemma stamp_set (d : DB) id s : stamp (setStamp d storeID id s) storeID id = Some s.
Proof.
  unfold stamp, setStamp, SetCBOR, Set_key, GetCBOR, Get. pose proof (kv_commit_total d [kv_Set (stampKey storeID id) (marshal s)]) as Ht.
  destruct (kv_commit d _) as [r d'] eqn:E. simpl in Ht. subst r. simpl. apply kv_commit_ok in E. rewrite kv_get_total, E. simpl.
  by rewrite lookup_insert_eq, unmarshal_marshal.
Qed.

Lemma scrub_key_id id n e : dn_id (scrub_key blake3 id n e) = dn_id n.
Proof.
  assert (dn_id (corruptFound blake3 (mark_corrupt n e.1) e.1) = dn_id n) as Hbad by by rewrite corruptFound_id, mark_corrupt_id.
  unfold scrub_key. destruct (ps_Record _ _ _) as [|rec]; [done|]. destruct (ParseRecord rec) as [|raw]; [done|]. by destruct (verifyRecord _).
Qed.

Lemma scrubPack_id n id : dn_id (scrubPack blake3 n id) = dn_id n.
Proof.
  unfold scrubPack. destruct (ps_ScanIndex _ _) as [|es]; [done|]. revert n. induction es as [|e es IH]; intros n; simpl; [done|].
  by rewrite IH, scrub_key_id.
Qed.

(** The end of a visit: the scrub and the stamp. *)
Lemma reconcilePack_end w r id v x w' r' es byTarget deferred w1 ok :
  ps_ScanIndex (dn_store (nw_self w)) id = inr es →
  plan_pack storeID cfg (nw_self w) (placement_of blake3 (nw_self w)) v x (nw_now w) id es.*1 = (byTarget, deferred) →
  offers blake3 w (map_to_list byTarget) = (w1, ok) → reconcilePack blake3 storeID cfg w r id v x = (w', r', false) →
  deferred = false ∧ runs w1 w' ∧ ∃ s, stamp (dn_db (nw_self w')) storeID id = Some s ∧ Replicated s = ok ∧ Inc s = Incarnation v ∧
    For s = match pass_of v x with Some p => Pending_ID p | None => PlacementEpoch v end.
Proof.
  intros Es Ep Eo. unfold reconcilePack. rewrite Es, Ep, Eo. cbv zeta.
  assert (∀ w2 verified, (runs w1 w2) → (if deferred then (w2, r, true)
      else let forID := match pass_of v x with Some p => Pending_ID p | None => PlacementEpoch v end in
        (upd_self w2 (λ n, set_db n (setStamp (dn_db n) storeID id (MkPackStamp (Incarnation v) forID ok (nw_now w2) verified))),
         r <| rc_lastPass := nw_now w2 |>, false)) = (w', r', false) → deferred = false ∧ runs w1 w' ∧ ∃ s, stamp (dn_db (nw_self w')) storeID id = Some s ∧
    Replicated s = ok ∧ Inc s = Incarnation v ∧ For s = match pass_of v x with Some p => Pending_ID p | None => PlacementEpoch v end) as Hend.
  { intros w2 verified Hr. destruct deferred; [done|]. cbv zeta. intros [= <- _]. split; [done|]. split; [etrans; [exact Hr|by apply upd_self_runs]|].
    rewrite upd_self_node by done. eexists. split; [apply stamp_set|done]. }
  destruct (scrub_due _ _ _ _ _) as [t|]; apply Hend; [reflexivity|]. apply upd_self_runs, scrubPack_id.
Qed.

(** C14 A pack is stamped as replicated only after every record in it was seen in
    place at every node it is owed to by the view that the stamp names: the owners
    under the pending placement of a pass, and under the current one unless the pack
    was settled for it; outside a pass the whole write set.  Only records marked
    corrupt or proved dead by the collector are left out.  The network may lose any
    request, and any node may change meanwhile.  The stamp is what lets a node drop
    records it no longer owns.  This holds when the view the step was given is still
    the node's when it comes to the pack: the code reads the two separately, and when
    the node has moved on in between a pack can be stamped with nothing offered
    ([stale_view_stamps]). *)
Theorem forward_before_drop w r id v x w' r' es s k t :
  dn_view (nw_self w) = Some v →
  ps_ScanIndex (dn_store (nw_self w)) id = inr es → reconcilePack blake3 storeID cfg w r id v x = (w', r', false) →
  stamp (dn_db (nw_self w')) storeID id = Some s →
  Inc s = Incarnation v ∧ For s = match pass_of v x with Some p => Pending_ID p | None => PlacementEpoch v end ∧
  (Replicated s = true → k ∈ es.*1 → excused (nw_self w) id k = false → owed (nw_self w) v x id k t → had w' t k).
Proof.
  intros Hv Es Er Hs. destruct (plan_pack storeID cfg (nw_self w) (placement_of blake3 (nw_self w)) v x (nw_now w) id es.*1) as [byTarget deferred] eqn:Ep.
  destruct (offers blake3 w (map_to_list byTarget)) as [w1 ok] eqn:Eo.
  destruct (reconcilePack_end _ _ _ _ _ _ _ _ _ _ _ _ Es Ep Eo Er) as (-> & Hr & s' & Hs' & Hok & Hi & Hf).
  rewrite Hs in Hs'. injection Hs' as <-. split; [done|]. split; [done|]. intros Hrep Hk Hex Ho. rewrite Hrep in Hok.
  assert (placement_of blake3 (nw_self w) = NewPlacement blake3 v) as Epl by (unfold placement_of; by rewrite Hv).
  unfold owed in Ho. rewrite <- Epl in Ho. destruct (plan_pack_ok _ _ _ _ _ _ _ Ep k t Hk Hex Ho) as (ks & Hks & Hin).
  eapply had_runs; [exact Hr|]. destruct (offers_ok _ _ _ _ Eo) as [_ Hall]. eapply Hall; [done| |done]. by apply elem_of_map_to_list.
Qed.

Lemma rank_loop_out self participants owners above : self ∉ owners → (rank_loop self participants owners above).1 = 0%nat.
Proof.
  revert above. induction owners as [|o os IH]; intros above; simpl; [done|]. intros [Hne Hn]%not_elem_of_cons.
  destruct (negb _); [by apply IH|]. rewrite decide_False by done. by apply IH.
Qed.

(** The view a step works with is read once, at its start.  When the transition of
    that view is committed without this node before the step comes to the pack, the
    placement it reads has no pending owners: nothing is offered to anyone, and
    the pack is stamped as handed over to the owners of the transition. *)
Theorem stale_view_stamps w r id v x p v2 es w' r' d :
  pass_of v (Some x) = Some p → dn_view (nw_self w) = Some v2 → View_Pending v2 = None →
  settledFor (dn_db (nw_self w)) storeID id v (PlacementEpoch v) = true →
  ps_ScanIndex (dn_store (nw_self w)) id = inr es →
  (∀ k, k ∈ es.*1 → dn_id (nw_self w) ∉ Owners_of (placement_of blake3 (nw_self w)) k) →
  reconcilePack blake3 storeID cfg w r id v (Some x) = (w', r', d) →
  d = false ∧ settledFor (dn_db (nw_self w')) storeID id v (Pending_ID p) = true ∧
  ∃ f g, w' = upd_self (upd_self w f) g ∨ w' = upd_self w g.
Proof.
  intros Hp Hv2 Hnp Hset Es Hout. assert (PendingOwners (placement_of blake3 (nw_self w)) = λ _, None) as Hpo.
  { unfold placement_of, PendingOwners, NewPlacement. rewrite Hv2. simpl. by rewrite Hnp. }
  assert (plan_pack storeID cfg (nw_self w) (placement_of blake3 (nw_self w)) v (Some x) (nw_now w) id es.*1 = (∅, false)) as Epl.
  { unfold plan_pack. rewrite Hp, Hset. rewrite bool_decide_eq_true_2 by by exists p. simpl. revert Hout. generalize es.*1. intros ks. induction ks as [|k ks IH]; intros Hout; [done|].
    simpl. etrans; [|apply IH; intros k' Hk'; apply Hout; by right]. f_equal. unfold plan_key. destruct (_ || _); [done|].
    unfold forward_ready, rankAmong. pose proof (rank_loop_out (dn_id (nw_self w)) (Pending_Participants p) _ [] (Hout k (list_elem_of_here _ _))) as Hrk.
    destruct (rank_loop _ _ _ _) as [j above]. simpl in Hrk. subst j. simpl. unfold group_key. by rewrite Hpo. }
  unfold reconcilePack. rewrite Es, Epl, Hp. rewrite map_to_list_empty. simpl offers. cbv iota beta zeta.
  assert (∀ (w1 : W) t f g, upd_self w1 (λ n, set_db n (setStamp (dn_db n) storeID id (MkPackStamp (Incarnation v) (Pending_ID p) true (nw_now w1) t))) = w' →
    g = (λ n, set_db n (setStamp (dn_db n) storeID id (MkPackStamp (Incarnation v) (Pending_ID p) true (nw_now w1) t))) →
    (w1 = upd_self w f ∨ w1 = w) → settledFor (dn_db (nw_self w')) storeID id v (Pending_ID p) = true ∧ ∃ f g, w' = upd_self (upd_self w f) g ∨ w' = upd_self w g) as Hend.
  { intros w1 t f g <- Hg Hw1. split.
    - unfold settledFor. rewrite upd_self_node by done. assert (∀ n d, dn_db (set_db n d) = d) as Hdb by done.
      rewrite Hdb, stamp_set. simpl. by rewrite !N.eqb_refl.
    - exists f, g. subst g. destruct Hw1 as [->| ->]; auto. }
  destruct (scrub_due _ _ _ _ _) as [t|]; intros [= Hw _ <-]; (split; [done|]).
  - eapply (Hend w t (λ n, n)); [exact Hw|done|by right].
  - eapply Hend; [exact Hw|done|by left].
Qed.

(** * The background audit *)

#[local] Instance cand_le_total : Total cand_le.
Proof. intros [a1 a2] [b1 b2]. unfold cand_le. simpl. lia. Qed.
#[local] Instance cand_le_trans : Transitive cand_le.
Proof. intros [a1 a2] [b1 b2] [c1 c2]. unfold cand_le. simpl. lia. Qed.

(** The candidate that is below all others comes first. *)
Lemma candidates_head n v now ids c : c ∈ candidates storeID cfg n v now ids → (∀ d, d ∈ candidates storeID cfg n v now ids → cand_le c d) →
  head (candidates storeID cfg n v now ids) = Some c.
Proof.
  intros Hc Hle. pose proof (StronglySorted_merge_sort cand_le (omap (λ id, (λ prio, (prio, id)) <$> audit_prio storeID cfg n v now id) ids)) as Hs.
  change (merge_sort _ _) with (candidates storeID cfg n v now ids) in Hs. destruct (candidates storeID cfg n v now ids) as [|[h1 h2] l]; [by apply not_elem_of_nil in Hc|].
  simpl. apply StronglySorted_inv in Hs as [_ Hall]. apply elem_of_cons in Hc as [->|Hin]; [done|]. rewrite Forall_forall in Hall. specialize (Hall _ Hin).
  assert (cand_le c (h1, h2)) as Hch by (apply Hle; by left). destruct c as [c1 c2]. unfold cand_le in *. simpl in *. f_equal. f_equal; lia.
Qed.

Lemma elem_of_candidates n v now ids prio id : (prio, id) ∈ candidates storeID cfg n v now ids ↔ id ∈ ids ∧ audit_prio storeID cfg n v now id = Some prio.
Proof.
  unfold candidates. rewrite merge_sort_Permutation, list_elem_of_omap. split.
  - intros (y & Hy & Hf). destruct (audit_prio storeID cfg n v now y) eqn:E; [|done]. by injection Hf as -> ->.
  - intros [Hin Hp]. exists id. by rewrite Hp.
Qed.

(** All packs have a stamp of the current placement, and those below [a] are
    replicated. *)
Definition stamps_current n (v : View) (ids : list N) (a : N) : Prop :=
  ∀ b, b ∈ ids → ∃ s, stamp (dn_db n) storeID b = Some s ∧ Inc s = Incarnation v ∧ For s = PlacementEpoch v ∧ (b < a → Replicated s = true).

(** The background audit is blocked by one pack: when all stamps are of the current
    placement, the lowest pack that is not replicated is the only one that is
    visited, and none is while its backoff runs.  Other packs that are not replicated
    or whose audit and scrub are overdue wait, for as long as that one has a target
    that is down. *)
Theorem audit_blocked n v now ids a s :
  stamps_current n v ids a → a ∈ ids → stamp (dn_db n) storeID a = Some s → Replicated s = false →
  next_audit storeID cfg n v now ids = if (since now (Checked s) <? FirstAudit cfg)%Z then None else Some a.
Proof.
  intros Hall Ha Hs Hrep.
  assert (∀ b, b ∈ ids → audit_prio storeID cfg n v now b = Some 2 ∧ a ≤ b ∨ (audit_prio storeID cfg n v now b = Some 3 ∨ audit_prio storeID cfg n v now b = None) ∧ b ≠ a) as Hp.
  { intros b Hb. destruct (Hall b Hb) as (sb & Hsb & HI & HF & Hlt). unfold audit_prio. rewrite Hsb, HI, HF, !N.eqb_refl. simpl.
    destruct (Replicated sb) eqn:E; simpl; [right|left].
    2:{ split; [done|]. destruct (N.le_gt_cases a b) as [?|Hb2]; [done|]. specialize (Hlt Hb2). congruence. }
    split; [destruct (_ <? _)%Z; auto|]. intros ->. congruence. }
  assert (head (candidates storeID cfg n v now ids) = Some (2, a)) as Hh.
  { apply candidates_head.
    - apply elem_of_candidates. split; [done|]. destruct (Hp a Ha) as [[? _]|[_ ?]]; done.
    - intros [prio b] [Hb Hpr]%elem_of_candidates. unfold cand_le. simpl. destruct (Hp b Hb) as [[E ?]|[[E|E] ?]]; rewrite E in Hpr; try done; injection Hpr as <-; lia. }
  unfold next_audit. destruct (candidates storeID cfg n v now ids) as [|[prio b] l]; [done|]. injection Hh as -> ->. by rewrite Hs, Hrep.
Qed.
(** * A pass ends *)

(** Once [(j - 1) Δ] has passed for the last owner of a key, no key is deferred. *)
Definition waited (pl : Placement) (p : Pending) (now : Z) : Prop :=
  ∀ k j, (j ≤ length (Owners_of pl k))%nat → (i64 ((Z.of_nat j - 1) * Delta cfg) <= since now (Pending_FrozenAt p))%Z.

Lemma length_Owners_of v k : (length (Owners_of (NewPlacement blake3 v) k) ≤ N.to_nat (Replicas v))%nat.
Proof.
  rewrite Owners_of_eq. unfold owner_ids, ids_of. rewrite length_fmap, <- (length_fmap (member (NewSet blake3 (members (Nodes v))))), Owners_members. apply length_pick.
Qed.

Lemma waited_replicas n v p now : dn_view n = Some v → (0 <= Delta cfg < 2 ^ 63)%Z → (Z.of_N (Replicas v) * Delta cfg < 2 ^ 63)%Z →
  ((Z.of_N (Replicas v) - 1) * Delta cfg <= since now (Pending_FrozenAt p))%Z → (0 <= since now (Pending_FrozenAt p))%Z → waited (placement_of blake3 n) p now.
Proof.
  intros Hv Hd Hb Hs Hz k j Hj. unfold placement_of in Hj. rewrite Hv in Hj. simpl in Hj. pose proof (length_Owners_of v k) as Hl.
  assert (i64 ((Z.of_nat j - 1) * Delta cfg) = (Z.of_nat j - 1) * Delta cfg)%Z as -> by (apply i64_small; nia). destruct j; nia.
Qed.

Lemma rank_loop_bound self participants owners above : ((rank_loop self participants owners above).1 ≤ length owners + length above)%nat.
Proof.
  revert above. induction owners as [|o os IH]; intros above; simpl; [lia|]. destruct (negb _); [specialize (IH above); lia|].
  case_decide; simpl; [lia|]. specialize (IH (above ++ [o])). rewrite length_app in IH. simpl in IH. lia.
Qed.

Lemma waited_ready pl p self now k : waited pl p now → forward_ready cfg pl p self now k = true.
Proof.
  intros Hw. unfold forward_ready, rankAmong. pose proof (rank_loop_bound self (Pending_Participants p) (Owners_of pl k) []) as Hb.
  destruct (rank_loop _ _ _ _) as [j above]. simpl in Hb. rewrite (proj2 (Z.leb_le _ _)); [by rewrite orb_true_r|]. apply (Hw k). lia.
Qed.

Lemma plan_pack_ready n v x p now id keys : pass_of v x = Some p → waited (placement_of blake3 n) p now →
  (plan_pack storeID cfg n (placement_of blake3 n) v x now id keys).2 = false.
Proof.
  intros Hp Hw. unfold plan_pack. rewrite Hp. generalize (∅ : gmap NodeID (list key)). induction keys as [|k keys IH]; intros m; [done|].
  simpl. unfold plan_key at 2. destruct (_ || _); [apply IH|]. rewrite (waited_ready _ _ _ _ _ Hw). apply IH.
Qed.

Lemma reconcilePack_ready w r id v x p : pass_of v x = Some p → waited (placement_of blake3 (nw_self w)) p (nw_now w) →
  ∃ w' t, reconcilePack blake3 storeID cfg w r id v x = (w', r <| rc_lastPass := t |>, false).
Proof.
  intros Hp Hw. unfold reconcilePack. cbv zeta. destruct (ps_ScanIndex _ _) as [|es]; [exists w, (rc_lastPass r); by destruct r|].
  pose proof (plan_pack_ready (nw_self w) v x p (nw_now w) id es.*1 Hp Hw) as Hd. destruct (plan_pack _ _ _ _ _ _ _ _ _) as [m d]. simpl in Hd. subst d.
  destruct (offers _ _ _) as [w1 ok]. destruct (match scrub_due _ _ _ _ _ with Some _ => _ | None => _ end) as [w2 t]. by eexists _, _.
Qed.

(** The packs of the part of the pass that runs that are not done. *)
Definition limit_of (x : xferState) : N := if xf_Cover x then xf_Seal2 x else xf_Seal x.
Definition packs_left (x : xferState) : nat := length (filter (λ id, id ∉ xf_Done x) (N.of_nat <$> seq 0 (S (N.to_nat (limit_of x))))).

Lemma filter_shrinks (l d : list N) a : a ∈ l → a ∉ d → (length (filter (λ id, id ∉ add_pack a d) l) < length (filter (λ id, id ∉ d) l))%nat.
Proof.
  intros Ha Hd. unfold add_pack. rewrite decide_False by done. assert (∀ l, length (filter (λ id, id ∉ a :: d) l) ≤ length (filter (λ id, id ∉ d) l))%nat as Hle.
  { clear. intros l. induction l as [|b l IH]; [done|]. rewrite !filter_cons. repeat case_decide; simpl; try lia. set_solver. }
  induction l as [|b l IH]; [by apply not_elem_of_nil in Ha|]. apply elem_of_cons in Ha as [<-|Ha]; rewrite !filter_cons.
  - rewrite decide_False by set_solver. rewrite decide_True by done. simpl. specialize (Hle l). lia.
  - specialize (IH Ha). repeat case_decide; simpl; try lia. set_solver.
Qed.

Lemma packs_left_step x d a : a ≤ limit_of x → a ∉ xf_Done x →
  (packs_left (x <| xf_Done := add_pack a (xf_Done x) |> <| xf_Deferred := d |>) < packs_left x)%nat.
Proof.
  intros Ha Hn. unfold packs_left. apply (filter_shrinks _ (xf_Done x)); [|done]. apply list_elem_of_fmap. exists (N.to_nat a). split; [lia|].
  rewrite elem_of_seq. unfold limit_of in *. simpl. destruct (xf_Cover x); lia.
Qed.

Lemma pass_loop_ready w r v x p ids all : pass_of v (Some x) = Some p → waited (placement_of blake3 (nw_self w)) p (nw_now w) →
  pass_loop blake3 storeID cfg w r v x (limit_of x) ids all = (w, r, x, PassOver all) ∨
  ∃ w' t a d, pass_loop blake3 storeID cfg w r v x (limit_of x) ids all =
      (w', r <| rc_lastPass := t |>, x <| xf_Done := add_pack a (xf_Done x) |> <| xf_Deferred := d |>, PassStopped) ∧ a ≤ limit_of x ∧ a ∉ xf_Done x.
Proof.
  intros Hp Hw. induction ids as [|id ids IH]; [by left|]. simpl. destruct (N.ltb_spec (limit_of x) id) as [?|Hle]; [by left|].
  case_decide as Hd; [done|]. destruct (xf_Cover x && _); [done|].
  destruct (reconcilePack_ready w r id v (Some x) p Hp Hw) as (w1 & t & ->). right. by eexists _, _, id, _.
Qed.

(** A step of a pass that has waited ends it with the report, starts its second
    part, or leaves fewer packs. *)
Lemma pass_step w r v p x ids : View_Pending v = Some p → Pending_Frozen p = true → Contains (Pending_Participants p) (dn_id (nw_self w)) = true →
  Contains (Pending_Done p) (dn_id (nw_self w)) = false → rc_xfer r = Some x → xf_ID x = Pending_ID p → xf_Round x = Pending_Round p →
  xf_Finished x = false → ps_Segments (dn_store (nw_self w)) = inr ids → waited (placement_of blake3 (nw_self w)) p (nw_now w) →
  ∃ w' r' x', transitionStep blake3 storeID cfg w r v = (w', r', true) ∧ rc_xfer r' = Some x' ∧ xf_ID x' = xf_ID x ∧ xf_Round x' = xf_Round x ∧
    ((xf_Finished x' = true ∧ ∃ w1, w' = casPending w1 (Pending_ID p) (done_fn (dn_id (nw_self w)))) ∨
     (xf_Finished x' = false ∧ (xf_Cover x = false ∧ xf_Cover x' = true ∨ xf_Cover x' = xf_Cover x ∧ (packs_left x' < packs_left x)%nat))).
Proof.
  intros Hv Hf Hpa Hnd Hx Hid Hrd Hfin Hs Hw. assert (pass_of v (Some x) = Some p) as Hp by (unfold pass_of; by rewrite Hv, Hf).
  unfold transitionStep, current_pass. rewrite Hv, Hf, Hpa, Hx, Hid, Hrd, !N.eqb_refl. cbn [negb orb]. rewrite Hx, Hfin, Hnd, Hs. cbn [orb].
  change (if xf_Cover x then xf_Seal2 x else xf_Seal x) with (limit_of x).
  destruct (pass_loop_ready w r v x p ids true Hp Hw) as [->|(w1 & t & a & d & -> & Ha & Hn)].
  - destruct (xf_Primary x), (xf_Cover x) eqn:Ec; simpl negb; cbv iota; rewrite ?Ec; cbn [xf_Cover set_field]; try destruct (seal _) as [w2 s2] eqn:Es;
      (eexists _, _, _; split; [reflexivity|]; split; [reflexivity|]; split; [done|]; split; [done|]).
    all: first [left; split; [done|by eexists] | right; split; [done|left; done]].
  - eexists _, _, _. split; [reflexivity|]. split; [reflexivity|]. split; [done|]. split; [done|]. right. split; [done|]. right. split; [done|].
    by apply packs_left_step.
Qed.

(** The steps of one node in a transition round: before each, the node and the
    rest of the cluster may have changed, as long as the round goes on, the store
    can be listed and the wait of the last owner is over. *)
Record pass_runs (self : NodeID) (id round : N) (ws : nat → W) (vs : nat → View) (rs : nat → reconciler) : Prop := MkPassRuns {
  pr_steps i : rs (S i) = (transitionStep blake3 storeID cfg (ws i) (rs i) (vs i)).1.2;
  pr_node i : dn_id (nw_self (ws i)) = self ∧ ∃ ids, ps_Segments (dn_store (nw_self (ws i))) = inr ids;
  pr_round i : ∃ p, View_Pending (vs i) = Some p ∧ Pending_ID p = id ∧ Pending_Round p = round ∧ Pending_Frozen p = true ∧
    Contains (Pending_Participants p) self = true ∧ Contains (Pending_Done p) self = false ∧
    waited (placement_of blake3 (nw_self (ws i))) p (nw_now (ws i));
}.

(** The step of number [i] finishes the pass and asks for the node to be listed. *)
Definition reports_done (self : NodeID) (id : N) (ws : nat → W) (vs : nat → View) (rs : nat → reconciler) (i : nat) : Prop :=
  xf_Finished <$> rc_xfer (rs (S i)) = Some true ∧
  ∃ w, (transitionStep blake3 storeID cfg (ws i) (rs i) (vs i)).1.1 = casPending w id (done_fn self).

Definition in_round (id round : N) (x : xferState) : Prop := xf_ID x = id ∧ xf_Round x = round ∧ xf_Finished x = false.

Lemma pass_runs_step self id round ws vs rs i x : pass_runs self id round ws vs rs → rc_xfer (rs i) = Some x → in_round id round x →
  reports_done self id ws vs rs i ∨
  ∃ x', rc_xfer (rs (S i)) = Some x' ∧ in_round id round x' ∧
    (xf_Cover x = false ∧ xf_Cover x' = true ∨ xf_Cover x' = xf_Cover x ∧ (packs_left x' < packs_left x)%nat).
Proof.
  intros [Hstep Hnode Hround] Hx (Hid & Hrd & Hf). destruct (Hnode i) as [Hself (ids & Hids)]. destruct (Hround i) as (p & Hv & Hpi & Hpr & Hfr & Hpa & Hpd & Hw).
  destruct (pass_step (ws i) (rs i) (vs i) p x ids) as (w' & r' & x' & Et & Hx' & I1 & I2 & Hcase); rewrite ?Hself; (congruence || done || idtac).
  rewrite Hself, Hpi in Hcase. unfold reports_done. rewrite Hstep, Et. simpl. rewrite Hx'. destruct Hcase as [[Hfin ?]|[Hfin ?]]; [left; simpl; by rewrite Hfin|].
  right. exists x'. split; [done|]. split; [|done]. unfold in_round. by rewrite I1, I2.
Qed.

(** C29 A participant's pass ends, and with its report: whatever the network does,
    also when no target can be reached, a node that keeps taking steps in a round
    comes to the one that finishes its pass and asks for the node to be listed as
    done, once the wait of the primary forwarder rule is over and its store can be
    listed.  The request itself may fail, and is not repeated then: the pass counts as
    finished before it is sent. *)
Theorem pass_ends self id round ws vs rs x : pass_runs self id round ws vs rs →
  rc_xfer (rs 0%nat) = Some x → in_round id round x → ∃ i, reports_done self id ws vs rs i.
Proof.
  intros Hruns. generalize 0%nat as i. intros i.
  assert (∀ b i x, (packs_left x < b)%nat → xf_Cover x = true → rc_xfer (rs i) = Some x → in_round id round x → ∃ i, reports_done self id ws vs rs i) as Hcov.
  { clear i x. intros b. induction b as [|b IH]; intros i x Hb Hc Hx Hin; [lia|].
    destruct (pass_runs_step _ _ _ _ _ _ i x Hruns Hx Hin) as [?|(x' & Hx' & Hin' & [[? _]|[Hc' Hl]])]; [by exists i|congruence|]. apply (IH (S i) x'); [lia|congruence|done..]. }
  remember (S (packs_left x)) as b eqn:Hb. assert (packs_left x < b)%nat as Hlt by lia. clear Hb. revert i x Hlt. induction b as [|b IH]; intros i x Hb Hx Hin; [lia|].
  destruct (pass_runs_step _ _ _ _ _ _ i x Hruns Hx Hin) as [?|(x' & Hx' & Hin' & [[_ Hc']|[Hc' Hl]])]; [by exists i|apply (Hcov (S (packs_left x')) (S i) x'); [lia|done..]|].
  apply (IH (S i) x'); [lia|done..].
Qed.
End reconcile.

(** * The small cluster *)

#[local] Instance small_views : ViewWorld (cluster small_store (gmap bytes bytes)) := { vw_CASView w _ := w }.

Definition small_cfg : recConfig := MkRecConfig 5 300 10000.

(** The first node holds a pack that its peers lack. *)
Definition small_ahead : cluster small_store (gmap bytes bytes) :=
  MkCluster (λ o, small_node (if decide (o = toy_id x01) then [(0, [small_blob x05; small_blob x06])] else []) ∅ x00) (toy_id x01) [] 0.

Definition small_rec : reconciler := MkReconciler ∅ None 0.

Lemma forward_before_drop_witness : ∃ w', had w' (toy_id x03) (small_blob x06).
Proof.
  destruct (reconcilePack toy_blake3 [] small_cfg small_ahead small_rec 0 small_view None) as [[w' r'] d] eqn:E.
  assert (d = false) as ->. { change d with (w', r', d).2. rewrite <- E. computes. }
  assert (Replicated <$> stamp (dn_db (nw_self w')) [] 0 = Some true) as Hs. { change w' with (w', r', false).1.1. rewrite <- E. computes. }
  destruct (stamp (dn_db (nw_self w')) [] 0) as [s|] eqn:Es; [|discriminate Hs]. injection Hs as Hs.
  exists w'. apply (forward_before_drop toy_blake3 [] small_cfg small_ahead small_rec 0 small_view None w' r' [(small_blob x05, 0); (small_blob x06, 0)] s);
    [reflexivity|reflexivity|exact E|exact Es|exact Hs|right; by left|computes|]. split; [by apply (bool_decide_unpack _); vm_compute|].
  apply (bool_decide_unpack _). by vm_compute.
Defined.

(** A transition that swaps the third node for a fourth, frozen long ago, and a pass
    at its start. *)
Definition small_moving : View := toy_view [x01] [toy_node x01 5 "a"; toy_node x02 5 "b"; toy_node x03 5 "c"] 2
  (Some (MkPending [toy_node x01 5 "a"; toy_node x02 5 "b"; toy_node x04 5 "d"] 2 2 [] (arr_bytes <$> [toy_id x01; toy_id x02]) true 0 [] [] 0 "replace" None 0)).

Definition small_mover : cluster small_store (gmap bytes bytes) :=
  MkCluster (λ o, small_node [(0, [small_blob x05; small_blob x06])] ∅ x00 <| dn_view := Some small_moving |>) (toy_id x01) [] 0.

Definition small_start : reconciler := MkReconciler ∅ (Some (MkXfer 2 0 0 [] [] false false 0 false)) 0.

Definition small_passes (i : nat) : reconciler := Nat.iter i (λ r, (transitionStep toy_blake3 [] small_cfg small_mover r small_moving).1.2) small_start.

Lemma pass_ends_witness : ∃ i, xf_Finished <$> rc_xfer (small_passes (S i)) = Some true.
Proof.
  destruct (pass_ends toy_blake3 [] small_cfg (toy_id x01) 2 0 (λ _, small_mover) (λ _, small_moving) small_passes (MkXfer 2 0 0 [] [] false false 0 false)) as (i & Hi & _).
  - split.
    + reflexivity.
    + intros _. split; [computes|]. exists [0]. reflexivity.
    + intros _. eexists. split; [reflexivity|]. do 3 (split; [reflexivity|]). split; [computes|]. split; [computes|].
      apply (waited_replicas toy_blake3 small_cfg _ small_moving); [reflexivity|split; [discriminate|computes]|computes|discriminate|discriminate].
  - reflexivity.
  - by repeat split.
  - exists i. exact Hi.
Defined.

(** Two packs that were not replicated, the first of them just checked, and one whose
    audit is long overdue. *)
Definition small_stamps : gmap bytes bytes :=
  let st id s d := setStamp d [] id (MkPackStamp 1 1 s.1 s.2 0) in
  st 1 (false, 20000%Z) (st 2 (false, 0%Z) (st 3 (true, 0%Z) ∅)).

Lemma audit_blocked_witness :
  next_audit [] small_cfg (set_db (small_node [] ∅ x01) small_stamps) small_view 20100 [1; 2; 3] = None.
Proof.
  rewrite (audit_blocked [] small_cfg (set_db (small_node [] ∅ x01) small_stamps) small_view 20100 [1; 2; 3] 1 (MkPackStamp 1 1 false 20000 0)).
  - reflexivity.
  - intros b Hb. assert (b = 1 ∨ b = 2 ∨ b = 3) as [->|[->| ->]] by (rewrite !elem_of_cons in Hb; by destruct Hb as [?|[?|[?|?%not_elem_of_nil]]]; auto).
    + eexists. split; [computes|]. by repeat split.
    + eexists. split; [computes|]. by repeat split.
    + eexists. split; [computes|]. by repeat split.
  - by left.
  - computes.
  - reflexivity.
Defined.
