(* ===== verification/Watch.v ===== *)
(** Reference watches: a node's side (src/node/watch.go), the subscriptions, hints,
    scans and frames of a watch stream, and the client's side (src/client/watch.go),
    the frames of one stream and the loop over nodes.

    A stream is the list of the frames written to it and the number it still
    takes; a write beyond that fails.  The catalog is the class of Gate.v. *)
From S2P Require Import Prelude Store Placement View Wire Ballot Proposer Catalog Meta Mark Pins GC Client Refglob Data Gate.

Local Open Scope N_scope.

(** * UTF-8, as Go reads and writes it *)

Definition cont (lo hi : N) (b : byte) : bool := (lo <=? Byte.to_N b) && (Byte.to_N b <=? hi).
Definition low6 (b : byte) : N := N.land (Byte.to_N b) 0x3f.

(** The number of further bytes a first byte announces, its bits, and the range of
    the second byte. *)
Definition utf8_head (b : byte) : option (nat * N * N * N) :=
  let x := Byte.to_N b in
  if (0xc2 <=? x) && (x <=? 0xdf) then Some (1%nat, N.land x 0x1f, 0x80, 0xbf)
  else if (x =? 0xe0) then Some (2%nat, 0, 0xa0, 0xbf)
  else if (x =? 0xed) then Some (2%nat, 0xd, 0x80, 0x9f)
  else if (0xe1 <=? x) && (x <=? 0xef) then Some (2%nat, N.land x 0xf, 0x80, 0xbf)
  else if (x =? 0xf0) then Some (3%nat, 0, 0x90, 0xbf)
  else if (0xf1 <=? x) && (x <=? 0xf3) then Some (3%nat, N.land x 0x7, 0x80, 0xbf)
  else if (x =? 0xf4) then Some (3%nat, 4, 0x80, 0x8f)
  else None.

Definition RuneError : N := 0xfffd.

(** The runes of a string: a byte that begins no character is [RuneError].  The flag
    says that there was none. *)
Fixpoint utf8_runes (fuel : nat) (s : bytes) : list N * bool :=
  match fuel, s with
  | S fuel, b :: rest =>
      let bad := let '(rs, _) := utf8_runes fuel rest in (RuneError :: rs, false) in
      if Byte.to_N b <? 0x80 then let '(rs, ok) := utf8_runes fuel rest in (Byte.to_N b :: rs, ok)
      else match utf8_head b, rest with
           | Some (k, bits, lo, hi), b1 :: tl =>
               let more := take (k - 1) tl in
               if cont lo hi b1 && bool_decide (length more = (k - 1)%nat) && forallb (cont 0x80 0xbf) more then
                 let r := fold_left (λ acc c, N.lor (N.shiftl acc 6) (low6 c)) (b1 :: more) bits in
                 let '(rs, ok) := utf8_runes fuel (drop (k - 1) tl) in (r :: rs, ok)
               else bad
           | _, _ => bad
           end
  | _, _ => ([], true)
  end.

Definition runes (s : string) : list N := fst (utf8_runes (String.length s) (of_string s)).
Definition valid_runes (s : string) : option (list N) :=
  let '(rs, ok) := utf8_runes (String.length s) (of_string s) in if ok : bool then Some rs else None.

(** [WriteRune]. *)
Definition utf8_encode (r : N) : bytes :=
  if r <? 0x80 then [byte_of_N r]
  else if r <? 0x800 then byte_of_N <$> [N.lor 0xc0 (N.shiftr r 6); N.lor 0x80 (N.land r 0x3f)]
  else if r <? 0x10000 then byte_of_N <$> [N.lor 0xe0 (N.shiftr r 12); N.lor 0x80 (N.land (N.shiftr r 6) 0x3f); N.lor 0x80 (N.land r 0x3f)]
  else byte_of_N <$> [N.lor 0xf0 (N.shiftr r 18); N.lor 0x80 (N.land (N.shiftr r 12) 0x3f); N.lor 0x80 (N.land (N.shiftr r 6) 0x3f); N.lor 0x80 (N.land r 0x3f)].

Definition compile_glob (p : string) : string + Pattern := Compile (String.length p) (valid_runes p).
Definition pat_match (p : Pattern) (name : string) : bool := Match p (runes name).
Definition pat_bytes (p : Pattern) : bytes := concat (utf8_encode <$> Prefix p).

(** * Subscriptions *)

(** A committed write; no record for a deletion. *)
Record refHint := MkRefHint { h_name : string; h_record : option bytes; h_version : bytes }.

(** A subscription: its channel holds at most 1024 hints. *)
Record watchSub := MkWatchSub { ws_pat : Pattern; ws_ch : list refHint; ws_rescan : bool }.

#[global] Instance watchSub_eta : Eta watchSub := λ r, MkWatchSub (ws_pat r) (ws_ch r) (ws_rescan r).

(** Subscriptions are told apart by their address, here a number. *)
Notation watchers := (gmap N watchSub).

Definition subscribe (w : watchers) (at_ : N) (pat : Pattern) : watchers := <[at_ := MkWatchSub pat [] false]> w.
Definition unsubscribe (w : watchers) (at_ : N) : watchers := delete at_ w.

Definition offer_hint (h : refHint) (sub : watchSub) : watchSub :=
  if negb (pat_match (ws_pat sub) (h_name h)) then sub
  else if (length (ws_ch sub) <? 1024)%nat then sub <| ws_ch := ws_ch sub ++ [h] |>
  else sub <| ws_rescan := true |>.

Definition hint (w : watchers) (h : refHint) : watchers := offer_hint h <$> w.

Definition count (w : watchers) : nat := size w.

(** A hint from another node. *)
Definition hint_of_msg (m : Msg) : refHint := MkRefHint (m_Name m) (if bool_decide (m_Record m = []) then None else Some (m_Record m)) (m_Version m).

(** * A watch stream *)

(** What the client is believed to hold: the key, [None] once it was told that the
    name is gone, and the version that rests on. *)
Record refState := MkRefState { rs_key : option bytes; rs_version : Ballot }.

Record refWatch := MkRefWatch {
  wt_known : gmap string refState;
  wt_refs : list RefInfo;      (* the frame being filled *)
  wt_deleted : list string;
  wt_size : Z;
  wt_out : list Msg;           (* the frames written *)
  wt_room : nat;               (* how many more the stream takes *)
}.

#[global] Instance refWatch_eta : Eta refWatch := λ r,
  MkRefWatch (wt_known r) (wt_refs r) (wt_deleted r) (wt_size r) (wt_out r) (wt_room r).

(** How the loop of a stream goes on. *)
Inductive watch_end := WEof | WWriteErr | WRefused (m : Msg).

Section watch.
Context {P DB W : Type} `{Net P DB W} `{RefWorld W} (reference_Decode : bytes → string + Reference) (errText : cerr → string) (pat : Pattern).
Implicit Types w : W.
Implicit Types n : dnode P DB.
Implicit Types t : refWatch.

Definition write_frame n t (m : Msg) : refWatch * bool :=
  match wt_room t with
  | O => (t, false)
  | S room => (t <| wt_out := wt_out t ++ [stampReply n m] |> <| wt_room := room |>, true)
  end.

Definition flush n t : refWatch * bool :=
  match wt_refs t, wt_deleted t with
  | [], [] => (t, true)
  | refs, deleted =>
      write_frame n (t <| wt_refs := [] |> <| wt_deleted := [] |> <| wt_size := 0%Z |>) (msg0 <| m_Type := TRefChanges |> <| m_Refs := refs |> <| m_Deleted := deleted |>)
  end.

Definition synced n t : refWatch * bool := write_frame n t (msg0 <| m_Type := TRefSynced |>).

(** The error of a full frame's write is dropped. *)
Definition flush_full n t : refWatch := if (MaxPageBytes <? wt_size t)%Z then fst (flush n t) else t.

Definition queue n t (r : RefInfo) : refWatch :=
  flush_full n (t <| wt_refs := wt_refs t ++ [r] |>
    <| wt_size := (wt_size t + Z.of_nat (String.length (ri_Name r)) + Z.of_nat (length (ri_Key r)) + Z.of_nat (length (ri_Version r)) + Z.of_nat (String.length (ri_User r)) + 16)%Z |>).

Definition queueDeleted n t (name : string) : refWatch :=
  flush_full n (t <| wt_deleted := wt_deleted t ++ [name] |> <| wt_size := (wt_size t + Z.of_nat (String.length name) + 8)%Z |>).

(** [bytes.Equal] of the key the client holds. *)
Definition holds (st : option refState) (key : bytes) : bool :=
  match st with Some st => bool_decide (default [] (rs_key st) = key) | None => false end.

Definition applyHint n t (h : refHint) : refWatch :=
  match ParseBallot (h_version h) with
  | inl _ => t
  | inr version =>
      if IsZero version then t
      else
        let st := wt_known t !! h_name h in
        if match st with Some st => negb (IsZero (rs_version st)) && bool_decide (Compare version (rs_version st) ≠ Gt) | None => false end then t
        else match h_record h with
        | None =>
            let t := t <| wt_known := <[h_name h := MkRefState None version]> (wt_known t) |> in
            match st ≫= rs_key with Some _ => queueDeleted n t (h_name h) | None => t end
        | Some record =>
            match reference_Decode record with
            | inl _ => t
            | inr r =>
                let t := t <| wt_known := <[h_name h := MkRefState (Some (ref_Key r)) version]> (wt_known t) |> in
                if holds st (ref_Key r) then t
                else queue n t (MkRefInfo (h_name h) (ref_Key r) (h_version h) (ref_CreatedAt r) (ref_User r))
            end
        end
  end.

(** ** The scan *)

Definition scan_entry n (s : refWatch * gset string) (e : RefEntry) : refWatch * gset string :=
  let '(t, seen) := s in
  let name := to_string (re_Name e) in
  if negb (pat_match pat name) then (t, seen)
  else match reference_Decode (Record_ (re_Value e)) with
  | inl _ => (t, seen)
  | inr r =>
      let seen := {[name]} ∪ seen in
      let version := parse_ballot (rv_Version (re_Value e)) in
      let st := wt_known t !! name in
      if match st with Some st => negb (IsZero (rs_version st)) && bool_decide (Compare version (rs_version st) = Lt) | None => false end then (t, seen)
      else
        let t := t <| wt_known := <[name := MkRefState (Some (ref_Key r)) version]> (wt_known t) |> in
        if holds st (ref_Key r) then (t, seen)
        else (queue n t (MkRefInfo name (ref_Key r) (rv_Version (re_Value e)) (ref_CreatedAt r) (ref_User r)), seen)
  end.

(** The pages of the scan; each takes one of fuel. *)
Fixpoint scan_pages (fuel : nat) w (s : refWatch * gset string) (after : bytes) : option (W * (cerr + refWatch * gset string) * refWatch) :=
  match fuel with
  | O => None
  | S fuel =>
      match rw_RefList w (pat_bytes pat) after 20000 with
      | (w, inl e) => Some (w, inl e, s.1)
      | (w, inr (entries, next)) =>
          let s := fold_left (scan_entry (nw_self w)) entries s in
          if bool_decide (next = []) || bool_decide (entries = []) then Some (w, inr s, s.1) else scan_pages fuel w s next
      end
  end.

(** A name the scan did not show. *)
Definition drop_unseen n (seen : gset string) t (e : string * refState) : refWatch :=
  if decide (e.1 ∈ seen) then t
  else
    let t := t <| wt_known := delete e.1 (wt_known t) |> in
    match rs_key e.2 with Some _ => queueDeleted n t e.1 | None => t end.

(** How a scan ends: an error of the catalog, or whether the last frame was written. *)
Definition reconcile (fuel : nat) w t : option (W * refWatch * (cerr + bool)) :=
  '(w, r, t) ← scan_pages fuel w (t, ∅) [];
  match r with
  | inl e => Some (w, t, inl e)
  | inr (t, seen) =>
      let t := fold_left (drop_unseen (nw_self w) seen) (map_to_list (wt_known t)) t in
      let '(t, ok) := flush (nw_self w) t in Some (w, t, inr ok)
  end.

(** [rescan]: whether the stream goes on.  After an error it does, whether or not the
    context has ended. *)
Definition rescan (fuel : nat) w t : option (W * refWatch * bool) :=
  '(w, t, r) ← reconcile fuel w t;
  Some match r with
  | inl _ => (w, t, true)
  | inr false => (w, t, true)
  | inr true => let '(t, ok) := synced (nw_self w) t in (w, t, ok)
  end.

(** ** The loop *)

(** One turn of [run]: the hints queued, or the tick. *)
Inductive watch_turn := THints (hs : list refHint) (lost : bool) | TTick.

Definition turn (fuel : nat) w t (ev : watch_turn) : option (W * refWatch * bool) :=
  match ev with
  | TTick => rescan fuel w t
  | THints hs lost =>
      let t := fold_left (applyHint (nw_self w)) hs t in
      let '(t, ok) := flush (nw_self w) t in
      if negb ok then Some (w, t, false)
      else if lost then rescan fuel w t
      else Some (w, t, true)
  end.

Fixpoint turns (fuel : nat) w t (evs : list watch_turn) : option (W * refWatch * watch_end) :=
  match evs with
  | [] => Some (w, t, WEof)
  | ev :: evs =>
      '(w, t, ok) ← turn fuel w t ev;
      if ok : bool then turns fuel w t evs else Some (w, t, WWriteErr)
  end.

(** The names and keys a client reported. *)
Definition reported_refs (refs : list RefInfo) : gmap string refState :=
  fold_left (λ m r, if pat_match pat (ri_Name r) && negb (bool_decide (ri_Key r = [])) then <[ri_Name r := MkRefState (Some (ri_Key r)) ballot0]> m else m) refs ∅.

Definition start_watch (refs : list RefInfo) (room : nat) : refWatch := MkRefWatch (reported_refs refs) [] [] 0 [] room.

(** [run], with the turns it takes until its context ends.  On a broken stream the
    error frame is not written either. *)
Definition run_watch (fuel : nat) w (refs : list RefInfo) (room : nat) (evs : list watch_turn) : option (W * refWatch * watch_end) :=
  '(w, t, r) ← reconcile fuel w (start_watch refs room);
  match r with
  | inl e => Some (w, t, WRefused (catalogErr reference_Decode errText (nw_self w) e))
  | inr false => Some (w, t, WWriteErr)
  | inr true =>
      let '(t, ok) := synced (nw_self w) t in
      if ok : bool then turns fuel w t evs else Some (w, t, WWriteErr)
  end.
End watch.

(** [handleRefWatch], before the stream runs. *)
Definition watch_refused (v : option View) (m : Msg) : Msg + Pattern :=
  match compile_glob (m_Pattern m) with
  | inl e => inl (ErrMsg CodeBadRequest e)
  | inr pat => match v with None => inl (ErrMsg CodeUnavailable "no view") | Some _ => inr pat end
  end.

(** * The client *)

Record RefChange := MkRefChange {
  rc_Name : string;
  rc_Key : bytes;
  rc_Version : bytes;
  rc_CreatedAt : Z;
  rc_User : string;
  rc_Deleted : bool;
  rc_Synced : bool;
  rc_Node : option NodeID;
}.

Inductive watchResult := watchFailed | watchRetry | watchServed | watchStop | watchFatal (e : Error).

(** What the loop of [watchOnce] meets: the context's end, silence, a broken stream
    or a frame. *)
Inductive watch_event := EvCtx | EvIdle | EvErr | EvFrame (m : Msg).

Section client.
(** The consumer: what it makes of a change, and whether it goes on. *)
Context {Y : Type} (yield : Y → RefChange → Y * bool).

Notation table := (gmap string bytes).

Definition change_of_ref (r : RefInfo) : RefChange := MkRefChange (ri_Name r) (ri_Key r) (ri_Version r) (ri_CreatedAt r) (ri_User r) false false None.
Definition deletion_of (name : string) : RefChange := MkRefChange name [] [] 0 "" true false None.
Definition synced_at (id : NodeID) : RefChange := MkRefChange "" [] [] 0 "" false true (Some id).

Fixpoint take_refs (y : Y) (state : table) (refs : list RefInfo) : Y * table * bool :=
  match refs with
  | [] => (y, state, true)
  | r :: rs =>
      let state := <[ri_Name r := ri_Key r]> state in
      let '(y, go) := yield y (change_of_ref r) in
      if go : bool then take_refs y state rs else (y, state, false)
  end.

Fixpoint take_deleted (y : Y) (state : table) (names : list string) : Y * table * bool :=
  match names with
  | [] => (y, state, true)
  | name :: ns =>
      let state := delete name state in
      let '(y, go) := yield y (deletion_of name) in
      if go : bool then take_deleted y state ns else (y, state, false)
  end.

Definition served (synced : bool) : watchResult := if synced then watchServed else watchFailed.

(** The loop over the events of a stream; a stream that has none left is broken. *)
Fixpoint watch_loop (id : NodeID) (y : Y) (state : table) (synced : bool) (evs : list watch_event) : Y * table * watchResult :=
  match evs with
  | [] => (y, state, served synced)
  | EvCtx :: _ => (y, state, watchStop)
  | EvIdle :: _ | EvErr :: _ => (y, state, served synced)
  | EvFrame m :: evs =>
      if (m_Type m =? TErr)%Z then
        let e := ErrorFromMsg m in
        (y, state,
         if bool_decide (err_Code e = CodeStaleView) then watchRetry
         else if bool_decide (err_Code e = CodeBadRequest) || bool_decide (err_Code e = CodeUnauthorized) then watchFatal e
         else watchFailed)
      else if (m_Type m =? TRefChanges)%Z then
        let '(y, state, go) := take_refs y state (m_Refs m) in
        if negb go then (y, state, watchStop)
        else
          let '(y, state, go) := take_deleted y state (m_Deleted m) in
          if negb go then (y, state, watchStop) else watch_loop id y state synced evs
      else if (m_Type m =? TRefSynced)%Z then
        if synced then watch_loop id y state true evs
        else
          let '(y, go) := yield y (synced_at id) in
          if go : bool then watch_loop id y state true evs else (y, state, watchStop)
      else (y, state, served synced)
  end.

(** The request of a stream: all the client holds. *)
Definition watch_request (pattern : string) (state : table) : Msg :=
  msg0 <| m_Type := TRefWatch |> <| m_Pattern := pattern |> <| m_Refs := (λ e : string * bytes, MkRefInfo e.1 e.2 [] 0 "") <$> map_to_list state |>.

(** ** The loop over nodes *)

(** A stream to a node: it cannot be opened, or its events come. *)
Context {C : Type} (open_watch : C → NodeID → Msg → C * option (list watch_event)).

Definition watchOnce (c : C) (id : NodeID) (pattern : string) (y : Y) (state : table) : C * Y * table * watchResult :=
  match open_watch c id (watch_request pattern state) with
  | (c, None) => (c, y, state, watchFailed)
  | (c, Some evs) => let '(y, state, r) := watch_loop id y state false evs in (c, y, state, r)
  end.

(** At most three more attempts after a stale view. *)
Fixpoint watch_attempts (more : nat) (c : C) (id : NodeID) (pattern : string) (y : Y) (state : table) : C * Y * table * watchResult :=
  let '(c, y, state, r) := watchOnce c id pattern y state in
  match r, more with
  | watchRetry, S more => watch_attempts more c id pattern y state
  | _, _ => (c, y, state, r)
  end.

(** One round over the nodes, until a stream ran or the watch is over. *)
Fixpoint watch_round (ids : list NodeID) (pattern : string) (c : C) (y : Y) (state : table) : C * Y * table * watchResult :=
  match ids with
  | [] => (c, y, state, watchFailed)
  | id :: ids =>
      let '(c, y, state, r) := watch_attempts 3 c id pattern y state in
      match r with
      | watchStop | watchFatal _ | watchServed => (c, y, state, r)
      | watchFailed | watchRetry => watch_round ids pattern c y state
      end
  end.
End client.
