(* ===== verification/WatchSafety.v ===== *)
(** Watches: what a client holds when it is told that it is in sync, and how a name
    that is deleted and written again between two frames is lost. *)
From S2P Require Import Prelude Store Placement View Wire Ballot Proposer Catalog Meta Mark Pins GC Client Refglob Data DataSafety NodeNet Gate Watch.

Local Open Scope N_scope.

(** * The client's table *)

Definition apply_frame (tbl : gmap string bytes) (m : Msg) : gmap string bytes :=
  if (m_Type m =? TRefChanges)%Z
  then fold_left (λ tbl name, delete name tbl) (m_Deleted m) (fold_left (λ tbl r, <[ri_Name r := ri_Key r]> tbl) (m_Refs m) tbl)
  else tbl.

Lemma take_refs_all {Y} (y : Y) f tbl refs : ∃ y', take_refs (λ y c, (f y c, true)) y tbl refs = (y', fold_left (λ tbl r, <[ri_Name r := ri_Key r]> tbl) refs tbl, true).
Proof. revert y tbl. induction refs as [|r refs IH]; intros y tbl; simpl; [by exists y|]. apply IH. Qed.

Lemma take_deleted_all {Y} (y : Y) f tbl names : ∃ y', take_deleted (λ y c, (f y c, true)) y tbl names = (y', fold_left (λ tbl name, delete name tbl) names tbl, true).
Proof. revert y tbl. induction names as [|r refs IH]; intros y tbl; simpl; [by exists y|]. apply IH. Qed.

(** A consumer that goes on makes the client's table follow the frames. *)
Lemma watch_loop_table {Y} f id (y : Y) tbl synced ms : Forall (λ m, m_Type m = TRefChanges ∨ m_Type m = TRefSynced) ms →
  (watch_loop (λ y c, (f y c, true)) id y tbl synced (EvFrame <$> ms)).1.2 = fold_left apply_frame ms tbl.
Proof.
  intros Hms. revert y tbl synced. induction Hms as [|m ms [Hm|Hm] _ IH]; intros y tbl synced; simpl; [done| |]; unfold apply_frame at 2; rewrite Hm; simpl.
  - destruct (take_refs_all y f tbl (m_Refs m)) as [y1 ->]. simpl. match goal with |- context [take_deleted _ ?y ?t ?l] => destruct (take_deleted_all y f t l) as [y2 ->] end. apply IH.
  - destruct synced; apply IH.
Qed.

Section watch.
Context {P DB W : Type} `{Net P DB W} `{RefWorld W} (reference_Decode : bytes → string + Reference) (pat : Pattern).
Implicit Types w : W.
Implicit Types n : dnode P DB.
Implicit Types t : refWatch.

(** The table of a client that began with [c0] and gets all frames, the one being
    filled included. *)
Definition pending_frame t : Msg := msg0 <| m_Type := TRefChanges |> <| m_Refs := wt_refs t |> <| m_Deleted := wt_deleted t |>.
Definition table_of (c0 : gmap string bytes) t : gmap string bytes := apply_frame (fold_left apply_frame (wt_out t) c0) (pending_frame t).

Lemma stamped_frame n m tbl : apply_frame tbl (stampReply n m) = apply_frame tbl m.
Proof. unfold stampReply. by destruct (dn_view n). Qed.

Lemma empty_frame t tbl : wt_refs t = [] → wt_deleted t = [] → apply_frame tbl (pending_frame t) = tbl.
Proof. intros Hr Hd. unfold pending_frame. by rewrite Hr, Hd. Qed.

(** A write that leaves room was made. *)
Lemma flush_spec n t : (wt_room (flush n t).1 ≤ wt_room t)%nat ∧ wt_known (flush n t).1 = wt_known t ∧
  wt_refs (flush n t).1 = [] ∧ wt_deleted (flush n t).1 = [] ∧
  (((flush n t).2 = true ∨ 0 < wt_room (flush n t).1)%nat → ∀ c0, table_of c0 (flush n t).1 = table_of c0 t).
Proof.
  assert (∀ refs deleted, refs = wt_refs t → deleted = wt_deleted t → let r := write_frame n (t <| wt_refs := [] |> <| wt_deleted := [] |> <| wt_size := 0%Z |>)
      (msg0 <| m_Type := TRefChanges |> <| m_Refs := refs |> <| m_Deleted := deleted |>) in
    (wt_room r.1 ≤ wt_room t)%nat ∧ wt_known r.1 = wt_known t ∧ wt_refs r.1 = [] ∧ wt_deleted r.1 = [] ∧
    ((r.2 = true ∨ 0 < wt_room r.1)%nat → ∀ c0, table_of c0 r.1 = table_of c0 t)) as Hw.
  { intros refs deleted -> ->. unfold write_frame. simpl. destruct (wt_room t) eqn:E; simpl.
    - repeat (split; [done || lia|]). intros [?|?]; [done|lia].
    - repeat (split; [done || lia|]). intros _ c0. unfold table_of. rewrite empty_frame by done. simpl. rewrite fold_left_app. simpl. by rewrite stamped_frame. }
  unfold flush. destruct (wt_refs t) as [|r refs] eqn:Er, (wt_deleted t) as [|d ds] eqn:Ed; try (by apply Hw). simpl. by rewrite Er, Ed.
Qed.

Lemma flush_full_spec n t : (wt_room (flush_full n t) ≤ wt_room t)%nat ∧ wt_known (flush_full n t) = wt_known t ∧
  (wt_deleted (flush_full n t) = wt_deleted t ∨ wt_deleted (flush_full n t) = []) ∧
  (0 < wt_room (flush_full n t) → ∀ c0, table_of c0 (flush_full n t) = table_of c0 t)%nat.
Proof.
  unfold flush_full. destruct (_ <? _)%Z; [|by auto]. destruct (flush_spec n t) as (I1 & I2 & _ & I4 & I5).
  split; [done|]. split; [done|]. split; [by right|]. intros Hr. by apply I5; right.
Qed.

Lemma fold_delete_lookup names (tbl : gmap string bytes) x : fold_left (λ tbl name, delete name tbl) names tbl !! x = if decide (x ∈ names) then None else tbl !! x.
Proof.
  revert tbl. induction names as [|a names IH]; intros tbl; [by rewrite decide_False by apply not_elem_of_nil|]. cbn [fold_left]. rewrite IH.
  destruct (decide (x = a)) as [->|Hne]; [rewrite lookup_delete_eq|rewrite lookup_delete_ne by done]; repeat case_decide; set_solver.
Qed.

(** Queueing a name the frame does not delete sets it; queueing a deletion removes it. *)
Lemma queue_spec n t r : let t' := queue n t r in (wt_room t' ≤ wt_room t)%nat ∧ wt_known t' = wt_known t ∧ (∀ x, x ∈ wt_deleted t' → x ∈ wt_deleted t) ∧
  (0 < wt_room t' → ri_Name r ∉ wt_deleted t → ∀ c0 x, table_of c0 t' !! x = if decide (x = ri_Name r) then Some (ri_Key r) else table_of c0 t !! x)%nat.
Proof.
  unfold queue. set (t1 := t <| wt_refs := _ |> <| wt_size := _ |>). destruct (flush_full_spec n t1) as (I1 & I2 & I3 & I4).
  split; [done|]. split; [done|]. split; [intros x; destruct I3 as [->| ->]; [done|by intros ?%not_elem_of_nil]|].
  intros Hr Hd c0 x. rewrite I4 by done. unfold table_of, apply_frame, pending_frame. simpl. rewrite !fold_delete_lookup, fold_left_app. simpl.
  repeat case_decide; try done; [by subst|subst; by rewrite lookup_insert_eq|]. by rewrite lookup_insert_ne.
Qed.

Lemma queueDeleted_spec n t name : let t' := queueDeleted n t name in (wt_room t' ≤ wt_room t)%nat ∧ wt_known t' = wt_known t ∧ (∀ x, x ∈ wt_deleted t' → x ∈ wt_deleted t ∨ x = name) ∧
  (0 < wt_room t' → ∀ c0 x, table_of c0 t' !! x = if decide (x = name) then None else table_of c0 t !! x)%nat.
Proof.
  unfold queueDeleted. set (t1 := t <| wt_deleted := _ |> <| wt_size := _ |>). destruct (flush_full_spec n t1) as (I1 & I2 & I3 & I4).
  split; [done|]. split; [done|]. split.
  { intros x. destruct I3 as [->| ->]; [|by intros ?%not_elem_of_nil]. simpl. rewrite elem_of_app, list_elem_of_singleton. done. }
  intros Hr c0 x. rewrite I4 by done. unfold table_of, apply_frame, pending_frame. simpl. rewrite !fold_delete_lookup.
  repeat case_decide; set_solver.
Qed.

(** * A scan, name by name *)

(** What the client holds of a name and what the stream believes of it. *)
Notation point := (option bytes * option refState)%type.
Definition point_of (c0 : gmap string bytes) t (x : string) : point := (table_of c0 t !! x, wt_known t !! x).

(** The name, key and version an entry shows, if the pattern matches it. *)
Definition listed (e : RefEntry) : option (string * bytes * Ballot) :=
  if pat_match pat (to_string (re_Name e)) then
    match reference_Decode (Record_ (re_Value e)) with
    | inl _ => None
    | inr r => Some (to_string (re_Name e), ref_Key r, parse_ballot (rv_Version (re_Value e)))
    end
  else None.

(** A row that is behind what a hint said. *)
Definition lags (version : Ballot) (st : option refState) : bool :=
  match st with Some st => negb (IsZero (rs_version st)) && bool_decide (Compare version (rs_version st) = Lt) | None => false end.

Definition point_entry (x : string) (p : point) (e : RefEntry) : point :=
  match listed e with
  | Some (name, key, version) =>
      if decide (name = x) then
        if lags version p.2 then p else (if holds p.2 key then p.1 else Some key, Some (MkRefState (Some key) version))
      else p
  | None => p
  end.

Definition names_of (es : list RefEntry) : gset string := list_to_set (omap (λ e, fst ∘ fst <$> listed e) es).

Lemma scan_entry_spec n c0 t seen e : wt_deleted t = [] → let s := scan_entry reference_Decode pat n (t, seen) e in
  (wt_room s.1 ≤ wt_room t)%nat ∧ wt_deleted s.1 = [] ∧ s.2 = names_of [e] ∪ seen ∧
  (0 < wt_room s.1 → ∀ x, point_of c0 s.1 x = point_entry x (point_of c0 t x) e)%nat.
Proof.
  intros Hd. unfold names_of, point_entry, listed, scan_entry. simpl. destruct (pat_match pat (to_string (re_Name e))); simpl; [|by rewrite (left_id_L ∅ (∪))].
  destruct (reference_Decode _) as [|r]; simpl; [by rewrite (left_id_L ∅ (∪))|]. rewrite (right_id_L ∅ (∪)).
  set (name := to_string (re_Name e)). set (version := parse_ballot _). change (match wt_known t !! name with Some st => _ | None => false end) with (lags version (wt_known t !! name)).
  destruct (lags version (wt_known t !! name)) eqn:El; simpl.
  { do 3 (split; [done|]). intros _ x. case_decide as Hx; [subst x; by rewrite El|done]. }
  set (t1 := t <| wt_known := _ |>). assert (∀ x, point_of c0 t1 x = (table_of c0 t !! x, if decide (name = x) then Some (MkRefState (Some (ref_Key r)) version) else wt_known t !! x)) as Ht1.
  { intros x. unfold point_of, t1. simpl. f_equal. case_decide; [subst; apply lookup_insert_eq|by apply lookup_insert_ne]. }
  destruct (holds (wt_known t !! name) (ref_Key r)) eqn:Eh; simpl.
  - do 3 (split; [done|]). intros _ x. rewrite Ht1. case_decide as Hx; [subst x; by rewrite El, Eh|done].
  - set (info := MkRefInfo _ _ _ _ _). destruct (queue_spec n t1 info) as (I1 & I2 & I3 & I4). split; [done|].
    split. { destruct (wt_deleted (queue n t1 info)) as [|d ds]; [done|]. specialize (I3 d ltac:(by left)). unfold t1 in I3. simpl in I3. rewrite Hd in I3. by apply not_elem_of_nil in I3. }
    split; [done|]. intros Hr x. unfold point_of at 1. rewrite I4 by (done || (unfold t1; simpl; rewrite Hd; apply not_elem_of_nil)). rewrite I2.
    pose proof (f_equal snd (Ht1 x)) as Hk. unfold point_of in Hk. cbn [snd] in Hk. rewrite Hk. change (table_of c0 t1) with (table_of c0 t). unfold info, point_of. cbn [fst snd ri_Name ri_Key]. case_decide as Hx; repeat case_decide; try congruence.
    subst x. by rewrite El, Eh.
Qed.

Lemma names_of_app es es' : names_of (es ++ es') = names_of es ∪ names_of es'.
Proof. unfold names_of. rewrite omap_app. apply list_to_set_app_L. Qed.

Lemma scan_entries_spec n c0 es t seen : wt_deleted t = [] → let s := fold_left (scan_entry reference_Decode pat n) es (t, seen) in
  (wt_room s.1 ≤ wt_room t)%nat ∧ wt_deleted s.1 = [] ∧ s.2 = names_of es ∪ seen ∧
  (0 < wt_room s.1 → ∀ x, point_of c0 s.1 x = fold_left (point_entry x) es (point_of c0 t x))%nat.
Proof.
  revert t seen. induction es as [|e es IH]; intros t seen Hd; cbn [fold_left]; [split; [done|]; split; [done|]; split; [unfold names_of; simpl; set_solver|done]|].
  destruct (scan_entry_spec n c0 t seen e Hd) as (I1 & I2 & I3 & I4). destruct (scan_entry reference_Decode pat n (t, seen) e) as [t1 seen1]. cbn [fst snd] in *.
  destruct (IH t1 seen1 I2) as (J1 & J2 & J3 & J4). split; [lia|]. split; [done|]. split.
  - rewrite J3, I3. change (e :: es) with ([e] ++ es). rewrite names_of_app. set_solver.
  - intros Hr x. rewrite J4 by done. rewrite I4 by lia. done.
Qed.

(** The entries of all pages. *)
Fixpoint listing (fuel : nat) w (after : bytes) : option (W * (cerr + list RefEntry)) :=
  match fuel with
  | O => None
  | S fuel =>
      match rw_RefList w (pat_bytes pat) after 20000 with
      | (w, inl e) => Some (w, inl e)
      | (w, inr (entries, next)) =>
          if bool_decide (next = []) || bool_decide (entries = []) then Some (w, inr entries)
          else '(w, r) ← listing fuel w next; Some (w, match r with inl e => inl e | inr es => inr (entries ++ es) end)
      end
  end.

Lemma scan_pages_spec c0 fuel w t seen after w' es : wt_deleted t = [] → listing fuel w after = Some (w', inr es) →
  ∃ t' seen', scan_pages reference_Decode pat fuel w (t, seen) after = Some (w', inr (t', seen'), t') ∧ (wt_room t' ≤ wt_room t)%nat ∧
    seen' = names_of es ∪ seen ∧ (0 < wt_room t' → ∀ x, point_of c0 t' x = fold_left (point_entry x) es (point_of c0 t x))%nat.
Proof.
  revert w t seen after es. induction fuel as [|fuel IH]; intros w t seen after es Hd; simpl; [done|]. destruct (rw_RefList _ _ _ _) as [w1 [e|[entries next]]]; [done|].
  destruct (scan_entries_spec (nw_self w1) c0 entries t seen Hd) as (I1 & I2 & I3 & I4). destruct (fold_left _ entries (t, seen)) as [t1 seen1]. simpl in *. subst seen1.
  destruct (bool_decide (next = []) || _); [intros [= -> ->]; by eexists _, _|]. destruct (listing fuel w1 next) as [[w2 [e|es2]]|] eqn:El; [done| |done]. intros [= -> <-].
  destruct (IH w1 t1 (names_of entries ∪ seen) next es2 I2 El) as (t' & seen' & -> & J1 & -> & J4). eexists _, _. split; [reflexivity|]. split; [lia|].
  split; [rewrite names_of_app; set_solver|]. intros Hr x. rewrite J4 by done. rewrite fold_left_app. f_equal. apply I4. lia.
Qed.

(** A believed name that the scan did not show: the client is told that it is gone. *)
Definition point_gone (p : point) : point := (match p.2 ≫= rs_key with Some _ => None | None => p.1 end, None).

Lemma drop_unseen_spec n c0 seen t e : wt_known t !! e.1 = Some e.2 → let t' := drop_unseen n seen t e in (wt_room t' ≤ wt_room t)%nat ∧
  (∀ x, x ≠ e.1 → wt_known t' !! x = wt_known t !! x) ∧
  (0 < wt_room t' → ∀ x, point_of c0 t' x = if decide (x = e.1 ∧ x ∉ seen) then point_gone (point_of c0 t x) else point_of c0 t x)%nat.
Proof.
  intros He. destruct e as [name st]. unfold drop_unseen. simpl in *. case_decide as Hs; [split; [done|]; split; [done|]; intros _ x; rewrite decide_False; [done|by intros [-> ?]]|].
  set (t1 := t <| wt_known := _ |>). assert (∀ x, wt_known t1 !! x = if decide (x = name) then None else wt_known t !! x) as Hk.
  { intros x. unfold t1. simpl. case_decide; [subst; apply lookup_delete_eq|by apply lookup_delete_ne]. }
  assert (∀ x, x ≠ name → wt_known t1 !! x = wt_known t !! x) as Hk' by (intros x ?; rewrite Hk; by rewrite decide_False).
  unfold point_gone, point_of. destruct (rs_key st) as [key|] eqn:Ek.
  - destruct (queueDeleted_spec n t1 name) as (I1 & I2 & _ & I4). split; [done|]. rewrite I2. split; [done|]. intros Hr x. rewrite I4, Hk by done.
    destruct (decide (x = name)) as [->|Hne]; [|by rewrite decide_False by tauto].
    rewrite decide_True by done. simpl. rewrite He. simpl. by rewrite Ek.
  - split; [done|]. split; [done|]. intros _ x. rewrite Hk. destruct (decide (x = name)) as [->|Hne]; [|by rewrite decide_False by tauto].
    rewrite decide_True by done. simpl. rewrite He. simpl. by rewrite Ek.
Qed.

Lemma drop_all_spec n c0 seen l t : NoDup l.*1 → (∀ e, e ∈ l → wt_known t !! e.1 = Some e.2) → let t' := fold_left (drop_unseen n seen) l t in (wt_room t' ≤ wt_room t)%nat ∧
  (0 < wt_room t' → ∀ x, point_of c0 t' x = if decide (x ∈ l.*1 ∧ x ∉ seen) then point_gone (point_of c0 t x) else point_of c0 t x)%nat.
Proof.
  revert t. induction l as [|e l IH]; intros t Hnd Hl; cbn [fold_left]; [split; [done|]; intros _ x; rewrite decide_False; [done|by intros [?%not_elem_of_nil _]]|].
  simpl in Hnd. apply NoDup_cons in Hnd as [Hn Hnd]. destruct (drop_unseen_spec n c0 seen t e) as (I1 & I2 & I3); [apply Hl; by left|].
  destruct (IH (drop_unseen n seen t e) Hnd) as [J1 J2].
  { intros e' He'. rewrite I2; [apply Hl; by right|]. intros E. apply Hn. rewrite <- E. by apply list_elem_of_fmap_2. }
  split; [lia|]. intros Hr x. rewrite J2 by done. rewrite I3 by lia. rewrite fmap_cons.
  destruct (decide (x ∈ seen)) as [Hs|Hs]; [by rewrite !decide_False by tauto|]. destruct (decide (x = e.1)) as [->|Hne].
  - rewrite (decide_False (P := e.1 ∈ l.*1 ∧ _)) by tauto. rewrite !decide_True; [done| |done]. split; [by left|done].
  - rewrite (decide_False (P := x = e.1 ∧ _)) by tauto. apply decide_ext. rewrite elem_of_cons. tauto.
Qed.

(** A whole scan. *)
Definition point_scan (es : list RefEntry) (p : point) (x : string) : point :=
  let p := fold_left (point_entry x) es p in if decide (x ∈ names_of es) then p else match p.2 with Some _ => point_gone p | None => p end.

Lemma reconcile_spec c0 fuel w t w' es : wt_deleted t = [] → listing fuel w [] = Some (w', inr es) →
  ∃ t' ok, reconcile reference_Decode pat fuel w t = Some (w', t', inr ok) ∧ (wt_room t' ≤ wt_room t)%nat ∧ wt_refs t' = [] ∧ wt_deleted t' = [] ∧
    (0 < wt_room t' → ∀ x, point_of c0 t' x = point_scan es (point_of c0 t x) x)%nat.
Proof.
  intros Hd El. destruct (scan_pages_spec c0 fuel w t ∅ [] w' es Hd El) as (t1 & seen & Es & I1 & Hseen & I4). unfold reconcile. rewrite Es. simpl.
  destruct (drop_all_spec (nw_self w') c0 seen (map_to_list (wt_known t1)) t1) as [J1 J2]; [apply NoDup_fst_map_to_list|by intros [x st] ?%elem_of_map_to_list|].
  set (t2 := fold_left _ (map_to_list _) t1) in *. destruct (flush_spec (nw_self w') t2) as (K1 & K2 & K3 & K4 & K5). destruct (flush (nw_self w') t2) as [t3 ok]. simpl in *.
  exists t3, ok. split; [done|]. split; [lia|]. split; [done|]. split; [done|]. intros Hr x. assert (point_of c0 t3 x = point_of c0 t2 x) as ->.
  { unfold point_of. rewrite K2, K5 by (by right). done. }
  rewrite J2 by lia. unfold point_scan. rewrite <- I4 by lia. rewrite Hseen, (right_id_L ∅ (∪)). destruct (decide (x ∈ names_of es)); [by rewrite decide_False by tauto|].
  unfold point_of at 3. cbn [snd]. destruct (wt_known t1 !! x) as [st|] eqn:Ex.
  - rewrite decide_True; [done|]. split; [|done]. apply list_elem_of_fmap. exists (x, st). split; [done|]. by apply elem_of_map_to_list.
  - rewrite decide_False; [done|]. intros [([y st] & -> & Hy)%list_elem_of_fmap _]. apply elem_of_map_to_list in Hy. simpl in *. congruence.
Qed.

(** * In sync *)

(** The key and version a listing shows for a name. *)
Definition shown (es : list RefEntry) (x : string) : option (bytes * Ballot) :=
  head (omap (λ e, '(name, key, version) ← listed e; if decide (name = x) then Some (key, version) else None) es).

(** The key a client should hold after a scan, from the listing and what the stream
    knew before: what the listing shows, or what a hint said that is newer. *)
Definition current_key (es : list RefEntry) (st : option refState) (x : string) : option bytes :=
  '(key, version) ← shown es x; if lags version st then st ≫= rs_key else Some key.

(** A listing names no reference twice, and every reference has a key. *)
Definition listing_ok (es : list RefEntry) : Prop :=
  NoDup (omap (λ e, fst ∘ fst <$> listed e) es) ∧ ∀ e name key version, e ∈ es → listed e = Some (name, key, version) → key ≠ [].

(** The client holds, of the names the pattern matches, what the stream believes. *)
Definition mirrors (c0 : gmap string bytes) t : Prop := ∀ x, pat_match pat x = true → table_of c0 t !! x = wt_known t !! x ≫= rs_key.

Lemma shown_names es x : x ∈ names_of es ↔ is_Some (shown es x).
Proof.
  unfold names_of, shown. rewrite elem_of_list_to_set. induction es as [|e es IH]; simpl; [split; [by intros ?%not_elem_of_nil|by intros [? ?]]|].
  destruct (listed e) as [[[name key] version]|]; simpl; [|done]. rewrite elem_of_cons, IH. case_decide; simpl; [split; [eauto|auto]|]. split; [by intros [?|?]|by right].
Qed.

Lemma point_entries es x p : NoDup (omap (λ e, fst ∘ fst <$> listed e) es) →
  fold_left (point_entry x) es p = match shown es x with
    | Some (key, version) => if lags version p.2 then p else (if holds p.2 key then p.1 else Some key, Some (MkRefState (Some key) version))
    | None => p
    end.
Proof.
  revert p. induction es as [|e es IH]; intros p Hnd; [done|]. cbn [fold_left]. unfold point_entry at 2. unfold shown. simpl in *.
  destruct (listed e) as [[[name key] version]|]; simpl in *; [|by apply IH]. apply NoDup_cons in Hnd as [Hn Hnd]. rewrite IH by done.
  case_decide as Hx; [|done]. subst name. simpl. destruct (shown es x) eqn:Es; [|done]. exfalso. apply Hn. apply (elem_of_list_to_set (C := gset string)), shown_names. by rewrite Es.
Qed.

Lemma point_scan_mirror es p x : listing_ok es → p.1 = p.2 ≫= rs_key → let q := point_scan es p x in q.1 = q.2 ≫= rs_key ∧ q.1 = current_key es p.2 x.
Proof.
  intros [Hnd Hkey] Hp. unfold point_scan, current_key. rewrite point_entries by done. pose proof (shown_names es x) as Hs. destruct (shown es x) as [[key version]|] eqn:Es; simpl.
  - rewrite decide_True by (apply Hs; eauto). destruct (lags version p.2); [done|]. destruct (holds p.2 key) eqn:Eh; [|done]. simpl. assert (key ≠ []) as Hk.
    { unfold shown in Es. apply head_Some_elem_of, list_elem_of_omap in Es as (e & He & Hl). destruct (listed e) as [[[name key'] version']|] eqn:E; [|done]. simpl in Hl.
      case_decide; [|done]. injection Hl as -> ->. by eapply Hkey. }
    unfold holds in Eh. destruct p.2 as [[k v]|]; [|done]. simpl in *. apply bool_decide_eq_true in Eh. destruct k as [k|]; simpl in *; [by subst|congruence].
  - rewrite decide_False by (by intros [? [=]]%Hs). destruct p as [v [st|]]; simpl in *; [|done]. destruct (rs_key st); done.
Qed.

(** * Hints *)

Lemma applyHint_spec n c0 t h : let t' := applyHint reference_Decode n t h in (wt_room t' ≤ wt_room t)%nat ∧
  (∀ x, x ∈ wt_deleted t' → x ∈ wt_deleted t ∨ (x = h_name h ∧ h_record h = None)) ∧
  ((h_record h ≠ None → h_name h ∉ wt_deleted t) → (∀ rec r, h_record h = Some rec → reference_Decode rec = inr r → ref_Key r ≠ []) →
   (0 < wt_room t')%nat → mirrors c0 t → mirrors c0 t').
Proof.
  unfold applyHint. destruct (ParseBallot _) as [|version]; [by eauto|]. destruct (IsZero version); [by eauto|]. set (st := wt_known t !! h_name h).
  destruct (match st with Some _ => _ | None => false end); [by eauto|]. destruct (h_record h) as [rec|].
  - destruct (reference_Decode rec) as [|r] eqn:Er; [by eauto|]. set (t1 := t <| wt_known := _ |>).
    assert (∀ x, wt_known t1 !! x = if decide (x = h_name h) then Some (MkRefState (Some (ref_Key r)) version) else wt_known t !! x) as Hk.
    { intros x. unfold t1. simpl. case_decide; [subst; apply lookup_insert_eq|by apply lookup_insert_ne]. }
    destruct (holds st (ref_Key r)) eqn:Eh.
    + split; [done|]. split; [by left|]. intros _ Hkey _ Hm x Hx. change (table_of c0 t1) with (table_of c0 t). rewrite (Hm x Hx), Hk. case_decide; [|done]. subst x. fold st.
      unfold holds in Eh. destruct st as [[k v]|]; [|done]. simpl in *. apply bool_decide_eq_true in Eh. destruct k as [k|]; simpl in *; [by subst|]. by destruct (Hkey rec r eq_refl Er).
    + set (info := MkRefInfo _ _ _ _ _). destruct (queue_spec n t1 info) as (I1 & I2 & I3 & I4). split; [done|]. split; [intros x Hx; left; by apply I3|].
      intros Hnd _ Hr Hm x Hx. rewrite I2, I4 by (try done; by apply Hnd). rewrite Hk. unfold info. simpl. case_decide; [done|]. by apply Hm.
  - set (t1 := t <| wt_known := _ |>). assert (∀ x, wt_known t1 !! x = if decide (x = h_name h) then Some (MkRefState None version) else wt_known t !! x) as Hk.
    { intros x. unfold t1. simpl. case_decide; [subst; apply lookup_insert_eq|by apply lookup_insert_ne]. }
    destruct (st ≫= rs_key) as [k|] eqn:Ek.
    + destruct (queueDeleted_spec n t1 (h_name h)) as (I1 & I2 & I3 & I4). split; [done|]. split; [intros x [?| ->]%I3; [by left|by right]|].
      intros _ _ Hr Hm x Hx. rewrite I2, I4, Hk by done. case_decide; [done|]. by apply Hm.
    + split; [done|]. split; [by left|]. intros _ _ _ Hm x Hx. change (table_of c0 t1) with (table_of c0 t). rewrite (Hm x Hx), Hk. case_decide; [|done]. by subst x.
Qed.

(** No name is written again after its deletion within the same frame. *)
Definition calm (hs : list refHint) : Prop := ∀ l h l', hs = l ++ h :: l' → h_record h ≠ None → ∀ d, d ∈ l → h_record d = None → h_name d ≠ h_name h.

(** Hints without such a name keep the client in step with the stream. *)
Theorem calm_hints_mirror n c0 t hs : calm hs → wt_deleted t = [] → mirrors c0 t →
  (∀ h rec r, h ∈ hs → h_record h = Some rec → reference_Decode rec = inr r → ref_Key r ≠ []) →
  let t' := fold_left (applyHint reference_Decode n) hs t in (0 < wt_room t')%nat → mirrors c0 t'.
Proof.
  intros Hc Hd Hm Hkey. cut (let t' := fold_left (applyHint reference_Decode n) hs t in (0 < wt_room t')%nat → mirrors c0 t' ∧ ∀ x, x ∈ wt_deleted t' → ∃ d, d ∈ hs ∧ h_record d = None ∧ h_name d = x);
    [intros Hcut Hr; by apply Hcut|]. induction hs as [|h hs IH] using rev_ind; [simpl; intros _; split; [done|]; rewrite Hd; by intros x ?%not_elem_of_nil|].
  rewrite fold_left_app. cbn [fold_left]. set (t1 := fold_left (applyHint reference_Decode n) hs t) in *. destruct (applyHint_spec n c0 t1 h) as (I1 & I2 & I3). intros Hr.
  destruct IH as [J1 J2]; [| |lia|].
  { intros l h' l' -> Hh'. apply (Hc l h' (l' ++ [h])); [by rewrite <- app_assoc|done]. }
  { intros h' rec r Hh'. apply Hkey, elem_of_app. by left. }
  split.
  - apply I3; [|intros rec r; apply Hkey, elem_of_app; right; by left|done|done]. intros Hput (d & Hd1 & Hd2 & Hd3)%J2. by apply (Hc hs h [] eq_refl Hput d Hd1 Hd2).
  - intros x [(d & ? & ?)%J2|[-> ?]]%I2; [exists d; split; [apply elem_of_app; by left|done]|]. exists h. split; [apply elem_of_app; right; by left|done].
Qed.

(** The deletion of a name and a later write of it, as hints. *)
Record recreated (name : string) (v0 : Ballot) (h1 h2 : refHint) (v2 : Ballot) (r : Reference) : Prop := MkRecreated {
  rn_names : h_name h1 = name ∧ h_name h2 = name;
  rn_gone : h_record h1 = None;
  rn_back : ∃ rec, h_record h2 = Some rec ∧ reference_Decode rec = inr r;
  rn_key : ref_Key r ≠ [];
  rn_versions : ∃ v1, ParseBallot (h_version h1) = inr v1 ∧ ParseBallot (h_version h2) = inr v2 ∧
    IsZero v1 = false ∧ IsZero v2 = false ∧ Compare v1 v0 = Gt ∧ Compare v2 v1 = Gt;
  rn_small : (Z.of_nat (2 * String.length name + length (ref_Key r) + length (h_version h2) + String.length (ref_User r) + 24) <= MaxPageBytes)%Z;
}.

(** A name that is deleted and written again between two frames of a watch is lost:
    the client takes the frame's deletions after its references, so it drops the name,
    while the stream believes that the client holds the new key.  Scans do not repair
    it: as long as the catalog shows that key, they send nothing for the name. *)
Theorem recreated_name_lost c0 fuel w t name key0 v0 h1 h2 v2 r : recreated name v0 h1 h2 v2 r →
  wt_refs t = [] → wt_deleted t = [] → wt_size t = 0%Z → (1 < wt_room t)%nat → wt_known t !! name = Some (MkRefState (Some key0) v0) →
  ∃ t1, turn reference_Decode pat fuel w t (THints [h1; h2] false) = Some (w, t1, true) ∧
    wt_known t1 !! name = Some (MkRefState (Some (ref_Key r)) v2) ∧ fold_left apply_frame (wt_out t1) c0 !! name = None ∧
    ∀ fuel w1 w2 es, listing fuel w1 [] = Some (w2, inr es) → listing_ok es → shown es name = Some (ref_Key r, v2) →
      ∃ t2 ok, reconcile reference_Decode pat fuel w1 t1 = Some (w2, t2, inr ok) ∧
        ∀ t3, synced (nw_self w2) t2 = (t3, true) → fold_left apply_frame (wt_out t3) c0 !! name = None.
Proof.
  intros [[N1 N2] Hgone (rec & Hrec & Hdec) Hkey (v1 & P1 & P2 & Z1 & Z2 & C1 & C2) Hsz] Hr Hd Hs0 Hroom Hk.
  assert (∀ z, (z <= MaxPageBytes)%Z → (MaxPageBytes <? z)%Z = false) as Hle by (intros z Hz; lia).
  set (known := <[name := MkRefState (Some (ref_Key r)) v2]> (<[name := MkRefState None v1]> (wt_known t))).
  set (info := MkRefInfo name (ref_Key r) (h_version h2) (ref_CreatedAt r) (ref_User r)).
  assert (∃ size, fold_left (applyHint reference_Decode (nw_self w)) [h1; h2] t = MkRefWatch known [info] [name] size (wt_out t) (wt_room t)) as [size Hf].
  { destruct t as [kn refs del sz out room]. simpl in *. subst refs del sz. unfold applyHint at 2. simpl. rewrite P1, Z1, N1, Hk, Hgone. simpl. rewrite bool_decide_eq_false_2 by (intros E; exact (E C1)).
    rewrite andb_false_r. simpl. unfold queueDeleted, flush_full. simpl. rewrite Hle by lia. unfold applyHint. simpl. rewrite P2, Z2, N2, lookup_insert_eq, Hrec, Hdec. simpl.
    rewrite bool_decide_eq_false_2 by (intros E; exact (E C2)). rewrite andb_false_r. simpl. rewrite bool_decide_eq_false_2 by (intros E; by apply Hkey). unfold queue, flush_full. simpl. rewrite Hle by lia. by eexists. }
  unfold turn. rewrite Hf. unfold flush. cbn [wt_refs wt_deleted]. unfold write_frame. simpl. destruct (wt_room t) as [|[|room]]; [lia|lia|]. simpl. eexists. split; [reflexivity|].
  assert (∀ out, fold_left apply_frame (out ++ [stampReply (nw_self w) (msg0 <|m_Type := TRefChanges|> <|m_Refs := [info]|> <|m_Deleted := [name]|>)]) c0 !! name = None) as Hlost.
  { intros out. rewrite fold_left_app. simpl. rewrite stamped_frame. unfold apply_frame at 1. simpl. apply lookup_delete_eq. }
  split; [apply lookup_insert_eq|]. split; [apply Hlost|]. intros fuel' w1 w2 es El Hok Hsh.
  match goal with |- context [reconcile _ _ fuel' w1 ?x] => set (t1 := x) end. destruct (reconcile_spec c0 fuel' w1 t1 w2 es eq_refl El) as (t2 & ok & Er & I1 & I2 & I3 & I4).
  exists t2, ok. split; [done|]. intros t3 Hsy. unfold synced, write_frame in Hsy. destruct (wt_room t2) as [|room2]; [done|]. injection Hsy as <-. simpl.
  rewrite fold_left_app. simpl. rewrite stamped_frame. unfold apply_frame at 1. simpl. specialize (I4 ltac:(lia) name). apply (f_equal fst) in I4. simpl in I4. unfold table_of at 1 in I4. rewrite empty_frame in I4 by done.
  rewrite I4. unfold point_scan. destruct Hok as [Hnd _]. rewrite point_entries by done. rewrite Hsh. rewrite decide_True by (apply shown_names; by rewrite Hsh). unfold point_of. cbn [fst snd].
  assert (table_of c0 t1 !! name = None) as -> by (unfold table_of; rewrite empty_frame by done; apply Hlost).
  assert (wt_known t1 !! name = Some (MkRefState (Some (ref_Key r)) v2)) as -> by apply lookup_insert_eq. destruct (lags _ _); [done|]. simpl. by rewrite bool_decide_eq_true_2.
Qed.

(** * The start *)

Lemma reported_lookup refs m x : let f := λ (m : gmap string refState) r, if pat_match pat (ri_Name r) && negb (bool_decide (ri_Key r = [])) then <[ri_Name r := MkRefState (Some (ri_Key r)) ballot0]> m else m in
  NoDup (ri_Name <$> refs) →
  (x ∉ ri_Name <$> refs → fold_left f refs m !! x = m !! x) ∧
  ∀ r, r ∈ refs → ri_Name r = x → fold_left f refs m !! x = if pat_match pat x && negb (bool_decide (ri_Key r = [])) then Some (MkRefState (Some (ri_Key r)) ballot0) else m !! x.
Proof.
  intros f. revert m. induction refs as [|a refs IH]; intros m Hnd; [split; [done|by intros r ?%not_elem_of_nil]|]. cbn [fold_left]. simpl in Hnd. apply NoDup_cons in Hnd as [Hn Hnd].
  assert (x ≠ ri_Name a → f m a !! x = m !! x) as Hne by (intros ?; unfold f; destruct (_ && _); [by apply lookup_insert_ne|done]).
  destruct (IH (f m a) Hnd) as [I1 I2]. split.
  - intros Hx. simpl in Hx. apply not_elem_of_cons in Hx as [Hx1 Hx2]. rewrite I1 by done. by apply Hne.
  - intros r [->|Hr]%elem_of_cons <-.
    + rewrite I1 by done. unfold f. destruct (_ && _); [apply lookup_insert_eq|done].
    + rewrite (I2 r) by done. rewrite Hne; [done|]. intros E. apply Hn. rewrite <- E. by apply list_elem_of_fmap_2.
Qed.

(** A stream begins with what the client reports. *)
Lemma start_mirrors pattern c0 room : (∀ x key, c0 !! x = Some key → key ≠ []) → mirrors c0 (start_watch pat (m_Refs (watch_request pattern c0)) room).
Proof.
  intros Hc x Hx. unfold table_of. rewrite empty_frame by done. simpl. unfold reported_refs, watch_request. simpl. set (refs := fmap _ (map_to_list c0)).
  assert (ri_Name <$> refs = (map_to_list c0).*1) as Hn by (unfold refs; rewrite <- list_fmap_compose; by apply list_fmap_ext).
  destruct (reported_lookup refs ∅ x) as [I1 I2]; [rewrite Hn; apply NoDup_fst_map_to_list|]. destruct (c0 !! x) as [key|] eqn:Ex.
  - rewrite (I2 (MkRefInfo x key [] 0 "")); [|apply list_elem_of_fmap; exists (x, key); split; [done|by apply elem_of_map_to_list]|done].
    simpl. rewrite Hx, bool_decide_eq_false_2 by (by eapply Hc). done.
  - rewrite I1; [done|]. rewrite Hn. intros ([y k] & -> & Hy)%list_elem_of_fmap. apply elem_of_map_to_list in Hy. simpl in *. congruence.
Qed.

(** * The life of a stream *)

(** A record has a key. *)
Context (decoded_keys : ∀ rec r, reference_Decode rec = inr r → ref_Key r ≠ []).

(** The states of a stream: it begins with what the client reports and goes on by turns,
    ticks and hints, with scans that succeed or fail, as long as its writes do not fail.
    The hints of one turn delete no name and write it again. *)
Definition calm_turn (ev : watch_turn) : Prop := match ev with THints hs _ => calm hs | TTick => True end.

Inductive stream (pattern : string) (c0 : gmap string bytes) : refWatch → Prop :=
  | stream_start room : stream pattern c0 (start_watch pat (m_Refs (watch_request pattern c0)) room)
  | stream_turn fuel w t ev w' t' : stream pattern c0 t → calm_turn ev →
      turn reference_Decode pat fuel w t ev = Some (w', t', true) → stream pattern c0 t'.

(** Between turns no deletion is queued, and a client whose stream still takes frames
    holds, with the frame being filled, what the stream believes. *)
Definition in_step (c0 : gmap string bytes) t : Prop := wt_deleted t = [] ∧ ((0 < wt_room t)%nat → mirrors c0 t).

Lemma listed_key e name key version : listed e = Some (name, key, version) → key ≠ [].
Proof. unfold listed. destruct (pat_match _ _); [|done]. destruct (reference_Decode _) eqn:E; [done|]. intros [= _ <- _]. by eapply decoded_keys. Qed.

Lemma point_entries_mirror es x (p : point) : p.1 = p.2 ≫= rs_key → let q := fold_left (point_entry x) es p in q.1 = q.2 ≫= rs_key.
Proof.
  revert p. induction es as [|e es IH]; intros p Hp; cbn [fold_left]; [done|]. apply IH. unfold point_entry.
  destruct (listed e) as [[[name key] version]|] eqn:El; [|done]. case_decide; [|done]. destruct (lags _ _); [done|]. simpl.
  destruct (holds p.2 key) eqn:Eh; [|done]. rewrite Hp. unfold holds in Eh. destruct p.2 as [[k v]|]; [|done]. simpl in *.
  apply bool_decide_eq_true in Eh. destruct k as [k|]; simpl in *; [by subst|]. by destruct (listed_key _ _ _ _ El).
Qed.

Lemma scan_pages_in_step c0 fuel w t seen after w' r t' : in_step c0 t →
  scan_pages reference_Decode pat fuel w (t, seen) after = Some (w', r, t') →
  in_step c0 t' ∧ match r with inr s => s.1 = t' | inl _ => True end.
Proof.
  revert w t seen after. induction fuel as [|fuel IH]; intros w t seen after [Hd Hm]; simpl; [done|].
  destruct (rw_RefList _ _ _ _) as [w1 [e|[entries next]]]; [by intros [= <- <- <-]|].
  destruct (scan_entries_spec (nw_self w1) c0 entries t seen Hd) as (I1 & I2 & I3 & I4). destruct (fold_left _ entries (t, seen)) as [t1 seen1]. cbn [fst snd] in *.
  assert (in_step c0 t1) as Ht1.
  { split; [done|]. intros Hr x Hx. pose proof (point_entries_mirror entries x (point_of c0 t x) (Hm ltac:(lia) x Hx)) as Hq. by rewrite <- I4 in Hq. }
  destruct (_ || _); [by intros [= <- <- <-]|by apply IH].
Qed.

Lemma flush_in_step n c0 t : ((0 < wt_room t)%nat → mirrors c0 t) → in_step c0 (flush n t).1.
Proof.
  intros Hm. destruct (flush_spec n t) as (I1 & I2 & I3 & I4 & I5). split; [done|]. intros Hr x Hx. rewrite I2, I5 by (by right). apply Hm; [lia|done].
Qed.

Lemma reconcile_in_step c0 fuel w t w' t' r : in_step c0 t → reconcile reference_Decode pat fuel w t = Some (w', t', r) → in_step c0 t'.
Proof.
  intros Ht. unfold reconcile. destruct (scan_pages reference_Decode pat fuel w (t, ∅) []) as [[[w1 r1] t1]|] eqn:Es; [|done]. simpl.
  destruct (scan_pages_in_step _ _ _ _ _ _ _ _ _ Ht Es) as [[Hd1 Hm1] Heq]. destruct r1 as [e|[t1' seen]]; [by intros [= <- <- <-]|]. simpl in Heq. subst t1'.
  destruct (drop_all_spec (nw_self w1) c0 seen (map_to_list (wt_known t1)) t1) as [J1 J2]; [apply NoDup_fst_map_to_list|by intros [x st] ?%elem_of_map_to_list|].
  set (t2 := fold_left _ (map_to_list _) t1) in *. pose proof (flush_in_step (nw_self w1) c0 t2) as Hf. destruct (flush (nw_self w1) t2) as [t3 ok].
  intros [= _ <- _]. apply Hf. intros Hr x Hx. specialize (J2 Hr x). specialize (Hm1 ltac:(lia) x Hx). unfold point_of in J2.
  apply (f_equal (λ p, p.1 = p.2 ≫= rs_key)) in J2. cbn [fst snd] in J2. rewrite J2. case_decide; [|done]. unfold point_gone. cbn [fst snd].
  rewrite Hm1. by destruct (wt_known t1 !! x ≫= rs_key).
Qed.

Lemma rescan_in_step c0 fuel w t w' t' : in_step c0 t → rescan reference_Decode pat fuel w t = Some (w', t', true) → in_step c0 t'.
Proof.
  intros Ht. unfold rescan. destruct (reconcile reference_Decode pat fuel w t) as [[[w1 t1] r]|] eqn:Er; [|done]. simpl.
  pose proof (reconcile_in_step _ _ _ _ _ _ _ Ht Er) as [Hd Hm]. destruct r as [e|[|]]; [by intros [= <- <-]| |by intros [= <- <-]].
  unfold synced, write_frame. destruct (wt_room t1) as [|room] eqn:Eroom; [done|]. intros [= _ <-]. split; [done|]. intros _ x Hx. simpl.
  specialize (Hm ltac:(lia) x Hx). unfold table_of, pending_frame in *. simpl. rewrite fold_left_app. simpl. rewrite stamped_frame. exact Hm.
Qed.

Lemma stream_in_step pattern c0 t : (∀ x key, c0 !! x = Some key → key ≠ []) → stream pattern c0 t → in_step c0 t.
Proof.
  intros Hc. induction 1 as [room|fuel w t ev w' t' _ IH Hcalm Ht]; [split; [done|]; intros _; by apply start_mirrors|].
  destruct ev as [hs lost|]; simpl in Ht; [|by eapply rescan_in_step]. destruct IH as [Hd Hm].
  set (t1 := fold_left (applyHint reference_Decode (nw_self w)) hs t) in *.
  assert (wt_room t1 ≤ wt_room t)%nat as Hroom.
  { unfold t1. clear -pat c0. induction hs as [|h hs IH] using rev_ind; [done|]. rewrite fold_left_app. simpl.
    destruct (applyHint_spec (nw_self w) c0 (fold_left (applyHint reference_Decode (nw_self w)) hs t) h) as [? _]. lia. }
  pose proof (flush_in_step (nw_self w) c0 t1) as Hf. destruct (flush (nw_self w) t1) as [t2 ok]. destruct ok; [|done]. simpl in Ht.
  assert (in_step c0 t2) as H2. { apply Hf. intros Hr. apply (calm_hints_mirror (nw_self w)); try done; [apply Hm; lia|by eauto]. }
  destruct lost; [by eapply rescan_in_step|by injection Ht as _ <-].
Qed.

(** C15 When the client is told that it is in sync, it is.  Take a stream that began with
    what the client reported, went through any turns of hints, ticks and scans, failed
    ones included, and now completes a scan and writes the marker, to a client that
    applied every frame: for every name the pattern matches, it holds the key the listing
    shows, or the newer one a hint had brought, and no name the listing does not show.
    The hints that came in one turn must not delete a name and write it again: that name
    is lost to the client ([recreated_name_lost]).  Records have keys, and a listing names
    no reference twice. *)
Theorem synced_is_current pattern c0 t fuel w w' es : (∀ x key, c0 !! x = Some key → key ≠ []) → stream pattern c0 t →
  listing fuel w [] = Some (w', inr es) → NoDup (omap (λ e, fst ∘ fst <$> listed e) es) →
  ∃ t1 ok, reconcile reference_Decode pat fuel w t = Some (w', t1, inr ok) ∧
    ∀ t2, synced (nw_self w') t1 = (t2, true) →
      ∀ x, pat_match pat x = true → fold_left apply_frame (wt_out t2) c0 !! x = current_key es (wt_known t !! x) x.
Proof.
  intros Hc Hs El Hnd. destruct (stream_in_step _ _ _ Hc Hs) as [Hd Hm].
  destruct (reconcile_spec c0 fuel w t w' es Hd El) as (t1 & ok & Er & I1 & I2 & I3 & I4). exists t1, ok. split; [done|].
  intros t2 Hsy x Hx. unfold synced, write_frame in Hsy. destruct (wt_room t1) as [|room] eqn:Eroom; [done|]. injection Hsy as <-.
  simpl. rewrite fold_left_app. simpl. rewrite stamped_frame. unfold apply_frame at 1. simpl.
  assert (listing_ok es) as Hok by (split; [done|]; intros e name key version _; apply listed_key).
  destruct (point_scan_mirror es (table_of c0 t !! x, wt_known t !! x) x Hok (Hm ltac:(lia) x Hx)) as [_ J2].
  specialize (I4 ltac:(lia) x). unfold point_of in I4. rewrite <- I4 in J2. cbn [fst snd] in J2. rewrite <- J2.
  unfold table_of. by rewrite empty_frame.
Qed.
End watch.

(** * A small watch

    A reference record is its key; the catalog shows one page. *)

Definition toy_decode (rec : bytes) : string + Reference := if bool_decide (rec = []) then inl "empty"%string else inr (MkReference "" rec 0 "ann").

Definition toy_ballot (c : N) : Ballot := MkBallot c (toy_id x01).

Definition toy_entry (name : string) (key : bytes) (c : N) : RefEntry := MkRefEntry (of_string name) (MkRefValue key 0 (Bytes (toy_ballot c))) false.

Definition toy_catalog (es : list RefEntry) : RefWorld (solo small_store (gmap bytes bytes)) := {|
  rw_RefGet w _ := (w, MkRefValue [] 0 [], None);
  rw_RefList w _ _ _ := (w, inr (es, []));
  rw_RefPut w _ _ _ _ _ := (w, [], None);
  rw_RefDelete w _ _ _ := (w, ballot0, None);
  rw_RefsSnapshot w := (w, inr es);
  rw_TryPurge w _ _ := w;
  rw_refChanged w _ _ _ := w;
|}.

Definition toy_world : solo small_store (gmap bytes bytes) := MkSolo (small_node [] ∅ x01) [] 0 None.

Definition toy_pat : Pattern := match compile_glob "trees/*" with inr p => p | inl _ => MkPattern [] [] end.

(** The client knows of a reference that changed and of one that is gone. *)
Definition toy_held : gmap string bytes := {["trees/a" := [x01]; "trees/b" := [x02]]}.
Definition toy_page : list RefEntry := [toy_entry "trees/a" [x09] 4; toy_entry "trees/c" [x03] 5].

Lemma toy_keys rec r : toy_decode rec = inr r → ref_Key r ≠ [].
Proof. unfold toy_decode. case_bool_decide; [done|]. by intros [= <-]. Qed.

(** A turn: a hint of a new reference. *)
Definition toy_hint : refHint := MkRefHint "trees/d" (Some [x05]) (Bytes (toy_ballot 7)).

Definition toy_began : refWatch := start_watch toy_pat (m_Refs (watch_request "trees/*" toy_held)) 5.

Definition toy_hinted : refWatch :=
  match turn (H0 := toy_catalog toy_page) toy_decode toy_pat 3 toy_world toy_began (THints [toy_hint] false) with Some (_, t, _) => t | None => toy_began end.

Lemma toy_life : stream (H0 := toy_catalog toy_page) toy_decode toy_pat "trees/*" toy_held toy_hinted.
Proof.
  eapply (stream_turn _ _ _ _ 3 toy_world toy_began (THints [toy_hint] false) toy_world); [apply stream_start| |vm_compute; reflexivity].
  intros l h l' E Hh d Hd. destruct l as [|d0 l]; [by apply not_elem_of_nil in Hd|]. injection E as _ E. by destruct l.
Qed.

Lemma synced_is_current_witness : ∃ t2, fold_left apply_frame (wt_out t2) toy_held !! "trees/a"%string = Some [x09] ∧
  fold_left apply_frame (wt_out t2) toy_held !! "trees/b"%string = None ∧
  fold_left apply_frame (wt_out t2) toy_held !! "trees/d"%string = None.
Proof.
  destruct (synced_is_current (H0 := toy_catalog toy_page) toy_decode toy_pat toy_keys "trees/*" toy_held toy_hinted 3 toy_world toy_world toy_page) as (t1 & ok & Er & Hs).
  - intros x key Hx. apply elem_of_map_to_list in Hx.
    assert (Forall (λ e : string * bytes, e.2 ≠ []) (map_to_list toy_held)) as Hall by (apply (bool_decide_unpack _); vm_compute; exact I).
    exact (proj1 (Forall_forall _ _) Hall (x, key) Hx).
  - exact toy_life.
  - reflexivity.
  - apply (bool_decide_unpack _). vm_compute. exact I.
  - assert ((λ r : _ * refWatch * _, wt_room r.1.2) <$> reconcile (H0 := toy_catalog toy_page) toy_decode toy_pat 3 toy_world toy_hinted = Some 3%nat) as Hroom by (vm_compute; reflexivity).
    rewrite Er in Hroom. injection Hroom as Hroom. assert ((synced (nw_self toy_world) t1).2 = true) as Hok by (unfold synced, write_frame; by rewrite Hroom).
    destruct (synced (nw_self toy_world) t1) as [t2 b] eqn:E. simpl in Hok. subst b. exists t2. pose proof (Hs t2 eq_refl) as Hx.
    rewrite !Hx by (vm_compute; reflexivity). split_and!; vm_compute; reflexivity.
Defined.

Lemma recreated_name_lost_witness : ∃ t1, wt_known t1 !! "trees/a"%string = Some (MkRefState (Some [x07]) (toy_ballot 9)) ∧
  fold_left apply_frame (wt_out t1) toy_held !! "trees/a"%string = None.
Proof.
  destruct (recreated_name_lost (H0 := toy_catalog []) toy_decode toy_pat toy_held 3 toy_world (start_watch toy_pat (m_Refs (watch_request "trees/*" toy_held)) 5) "trees/a" [x01] ballot0
    (MkRefHint "trees/a" None (Bytes (toy_ballot 8))) (MkRefHint "trees/a" (Some [x07]) (Bytes (toy_ballot 9))) (toy_ballot 9) (MkReference "" [x07] 0 "ann")) as (t1 & _ & Hk & Hl & _).
  - split; [done|done|by exists [x07]|done|exists (toy_ballot 8); repeat split; vm_compute; reflexivity|vm_compute; discriminate].
  - reflexivity.
  - reflexivity.
  - reflexivity.
  - simpl. lia.
  - vm_compute. reflexivity.
  - by exists t1.
Defined.
