(* ===== verification/Fetch.v ===== *)
(** The client's access to a cluster (src/client/client.go), the negotiation and
    upload of objects (objects.go) and the fetcher (fetch.go).

    The network is a class.  A view refresh that a call starts in the background is
    among the things the network may do to the client's state.  The fetcher's
    goroutines are steps on its queues; which queue is served next is open. *)
From S2P Require Import Prelude Store Placement View Wire Ballot Proposer Catalog Meta Mark Pins GC Client Data Gate.

Local Open Scope N_scope.

(** * Access *)

Record access := MkAccess {
  ac_view : option View;
  ac_backoff : gmap NodeID Z;
  ac_failures : gmap NodeID nat;
  ac_unreach : gset NodeID;
  ac_boot : list NodeID;        (* the ticket's members *)
}.

#[global] Instance access_eta : Eta access := λ r,
  MkAccess (ac_view r) (ac_backoff r) (ac_failures r) (ac_unreach r) (ac_boot r).

(** A transfer that failed: the stream could not be opened or the reply is an
    error, which the client takes note of, or it broke while it was used. *)
Inductive xfer_err := XNoted (e : net_err) | XBroke (e : net_err).

Definition xfer_cause (e : xfer_err) : net_err := match e with XNoted e => e | XBroke e => e end.

Class CNet (W : Type) := {
  cn_self : W → access;
  cn_set : W → access → W;
  cn_now : W → Z;
  cn_path : W → NodeID → option PathInfo;
  cn_call : W → NodeID → Msg → W * (net_err + Msg);                              (* pool.Call *)
  cn_put : W → NodeID → Msg → list bytes → W * (xfer_err + Msg);                 (* a put stream *)
  cn_get : W → NodeID → Msg → W * (xfer_err + list RawRecord * option string);   (* a get stream, and how it broke off *)
}.

Definition second : Z := 1000000000.

Section access.
Context (blake3 : bytes → nat → bytes) `{Core} `{Codec View} {W : Type} `{CNet W}.
Implicit Types w : W.
Implicit Types c : access.

Definition cl_adopt c (v : View) : access :=
  match ac_view c with
  | Some cur =>
      match View_Compare cur (Incarnation v) (Epoch v) with
      | Gt => c
      | Eq => if Version v <=? Version cur then c else c <| ac_view := Some v |>
      | Lt => c <| ac_view := Some v |>
      end
  | None => c <| ac_view := Some v |>
  end.

Definition upd w (f : access → access) : W := cn_set w (f (cn_self w)).

Definition adoptReply w (m : Msg) : W * option string :=
  if negb (m_Type m =? TViewReply)%Z then (w, Some "unexpected reply"%string)
  else match Decode (m_View m) with
  | inl e => (w, Some e)
  | inr v => (upd w (λ c, cl_adopt c v <| ac_unreach := list_to_set (omap (λ u, if bool_decide (length u = 32%nat) then Some (arr_of 32 u) else None) (m_Unreachable m)) |>), None)
  end.

Definition cl_stamp w (m : Msg) : Msg :=
  match ac_view (cn_self w) with
  | Some v => m <| m_ClusterID := ClusterID v |> <| m_Incarnation := Incarnation v |> <| m_Epoch := Epoch v |>
  | None => m
  end.

(** [5s << min(n-1, 4)], at most a minute. *)
Definition backoff_of (n : nat) : Z := Z.min (60 * second) (Z.shiftl (5 * second) (Z.min (Z.of_nat n - 1) 4)).

Definition handleErr w (id : NodeID) (e : net_err) : W :=
  match net_AsError e with
  | Some we =>
      if bool_decide (err_View we = []) then w
      else match Decode (err_View we) with inl _ => w | inr v => upd w (λ c, cl_adopt c v) end
  | None =>
      upd w (λ c,
        let n := S (default 0%nat (ac_failures c !! id)) in
        c <| ac_failures := <[id := n]> (ac_failures c) |> <| ac_backoff := <[id := (cn_now w + backoff_of n)%Z]> (ac_backoff c) |>)
  end.

Definition cl_ok w (id : NodeID) : W :=
  upd w (λ c, c <| ac_backoff := delete id (ac_backoff c) |> <| ac_failures := delete id (ac_failures c) |> <| ac_unreach := ac_unreach c ∖ {[id]} |>).

Definition penalty w (id : NodeID) : Z :=
  let c := cn_self w in
  ((match ac_backoff c !! id with Some t => if (cn_now w <? t)%Z then 2 else 0 | None => 0 end) + (if decide (id ∈ ac_unreach c) then 1 else 0))%Z.

Definition preferred w (ids : list NodeID) : list NodeID := rankOwners (penalty w) (cn_path w) ids.

Definition cl_placement w : Placement := NewPlacement blake3 (default view0 (ac_view (cn_self w))).

(** [Nodes]. *)
Definition cl_nodes_of w : list NodeID := match ac_view (cn_self w) with Some v => NID <$> Nodes v | None => [] end.

Definition Primary w (k : key) : option NodeID := head (preferred w (Owners_of (cl_placement w) k)).

(** [ReadOrder]: the first R by preference, the others by rank. *)
Definition cl_ReadOrder w (k : key) : list NodeID :=
  let order := ReadOrder (cl_placement w) k in
  let r := N.to_nat (Replicas (default view0 (ac_view (cn_self w)))) in
  if (length order <=? r)%nat then preferred w order else preferred w (take r order) ++ drop r order.

Definition cl_call w (id : NodeID) (m : Msg) : W * (net_err + Msg) :=
  match cn_call w id (cl_stamp w m) with
  | (w, inl e) => (handleErr w id e, inl e)
  | (w, inr resp) => (cl_ok w id, inr resp)
  end.

(** [attempts] more after the first. *)
Fixpoint call_stale (attempts : nat) w (id : NodeID) (m : Msg) : W * (net_err + Msg) :=
  match cl_call w id m, attempts with
  | (w, inl e), S attempts => if net_IsCode e CodeStaleView then call_stale attempts w id m else (w, inl e)
  | r, _ => r
  end.

Definition callRetry w (id : NodeID) (m : Msg) : W * (net_err + Msg) := call_stale 3 w id m.

Fixpoint any_loop w (ids : list NodeID) (m : Msg) (last : net_err) : W * (net_err + Msg) :=
  match ids with
  | [] => (w, inl last)
  | id :: ids =>
      match call_stale 4 w id m with
      | (w, inr resp) => (w, inr resp)
      | (w, inl e) => match net_AsError e with Some _ => (w, inl e) | None => any_loop w ids m e end
      end
  end.

Definition anyNode w (m : Msg) : W * (net_err + Msg) :=
  let ids := cl_nodes_of w in
  let ids := match ids with [] => ac_boot (cn_self w) | _ :: _ => ids end in
  any_loop w (preferred w ids) m (NErr "client: no nodes").

Definition RefreshView w : W * option string :=
  match anyNode w (msg0 <| m_Type := TView |>) with
  | (w, inl _) => (w, Some "no node"%string)
  | (w, inr resp) => adoptReply w resp
  end.

(** * Negotiation *)

Definition batchKeys : nat := 8192.

Record MissingResult := MkMissingResult {
  mr_Lacking : gmap NodeID (list key);
  mr_Holders : gmap key (list NodeID);
  mr_Failed : gmap key string;
}.

#[local] Instance MissingResult_eta : Eta MissingResult := λ r, MkMissingResult (mr_Lacking r) (mr_Holders r) (mr_Failed r).

Notation tried := (gmap key (gset NodeID)).

Definition primaryExcept w (k : key) (exclude : gset NodeID) : option NodeID :=
  head (filter (λ o, o ∉ exclude) (preferred w (Owners_of (cl_placement w) k))).

Definition err_text (e : net_err) : string := match e with NErr s => s | _ => reasonOf e end.

(** The reply of a primary for one key. *)
Definition note_key w (p : NodeID) (lacking : list key) (short : list KeyHolders) (res : MissingResult) (k : key) : MissingResult :=
  let res := res <| mr_Failed := delete k (mr_Failed res) |> in
  if decide (k ∈ lacking) then res <| mr_Lacking := <[p := default [] (mr_Lacking res !! p) ++ [k]]> (mr_Lacking res) |>
  else
    let holders := match last (filter (λ h, kh_Key h = arr_bytes k) short) with
                   | Some h => IDsOf (kh_Holders h)
                   | None => WriteSet (cl_placement w) k
                   end in
    res <| mr_Holders := <[k := holders]> (mr_Holders res) |>.

(** One batch of a primary; [ended] says that the context has ended. *)
Definition ask_primary (pin : bool) (ended : bool) (p : NodeID) (s : W * MissingResult * tried * list key) (ks : list key) : W * MissingResult * tried * list key :=
  let '(w, res, tr, retry) := s in
  match callRetry w p (msg0 <| m_Type := TMissing |> <| m_Keys := RawKeys ks |> <| m_Pin := pin |>) with
  | (w, inl e) =>
      let failed := fold_left (λ m k, <[k := err_text e]> m) ks (mr_Failed res) in
      if bool_decide (is_Some (net_AsError e)) || ended then (w, res <| mr_Failed := failed |>, tr, retry)
      else (w, res <| mr_Failed := failed |>, fold_left (λ tr k, <[k := default ∅ (tr !! k) ∪ {[p]}]> tr) ks tr, retry ++ ks)
  | (w, inr resp) =>
      let lacking := default [] (Keys32 (m_Keys resp)) in
      (w, fold_left (note_key w p lacking (m_Short resp)) ks res, tr, retry)
  end.

Definition askPrimaries (pin ended : bool) w (byPrimary : gmap NodeID (list key)) (res : MissingResult) (tr : tried) : W * MissingResult * tried * list key :=
  fold_left (λ s e, fold_left (ask_primary pin ended e.1) (chunks (length e.2) batchKeys e.2) s) (map_to_list byPrimary) (w, res, tr, []).

(** The keys grouped by their next primary; a key without one has failed. *)
Definition group_primary w (tr : tried) (s : gmap NodeID (list key) * MissingResult) (k : key) : gmap NodeID (list key) * MissingResult :=
  match primaryExcept w k (default ∅ (tr !! k)) with
  | Some p => (<[p := default [] (s.1 !! p) ++ [k]]> s.1, s.2)
  | None => (s.1, match mr_Failed s.2 !! k with Some _ => s.2 | None => s.2 <| mr_Failed := <[k := "no owners"%string]> (mr_Failed s.2) |> end)
  end.

Fixpoint missing_loop (fuel : nat) (pin ended : bool) w (pending : list key) (res : MissingResult) (tr : tried) : option (W * MissingResult) :=
  match pending, fuel with
  | [], _ => Some (w, res)
  | _, O => None
  | _, S fuel =>
      let '(byPrimary, res) := fold_left (group_primary w tr) pending (∅, res) in
      let '(w, res, tr, retry) := askPrimaries pin ended w byPrimary res tr in
      missing_loop fuel pin ended w retry res tr
  end.

Definition Missing (fuel : nat) (pin ended : bool) w (keys : list key) : option (W * MissingResult) :=
  missing_loop fuel pin ended w keys (MkMissingResult ∅ ∅ ∅) ∅.

(** * Upload *)

Record PutResult := MkPutResult {
  pr_Holders : gmap key (list NodeID);
  pr_Failed : gmap key (list KeyFailure);
  pr_Rejected : gmap key string;
  pr_Errors : gmap NodeID net_err;
}.

#[local] Instance PutResult_eta : Eta PutResult := λ r, MkPutResult (pr_Holders r) (pr_Failed r) (pr_Rejected r) (pr_Errors r).

(** [[32]byte(b)] under its length check. *)
Definition key_of (b : bytes) : option key := if bool_decide (length b = 32%nat) then Some (arr_of 32 b) else None.

Definition merge (r : PutResult) (resp : Msg) : PutResult :=
  let r := r <| pr_Holders := fold_left (λ m h, match key_of (kh_Key h) with Some k => <[k := IDsOf (kh_Holders h)]> m | None => m end) (m_Holders resp) (pr_Holders r) |> in
  let r := r <| pr_Failed := fold_left (λ m f, match key_of (kf_Key f) with Some k => <[k := default [] (m !! k) ++ [f]]> m | None => m end) (m_Failed resp) (pr_Failed r) |> in
  r <| pr_Rejected := fold_left (λ m rj, match key_of (kr_Key rj) with Some k => <[k := kr_Reason rj]> m | None => m end) (m_Rejected resp) (pr_Rejected r) |>.

(** [putOnce]: a key whose record cannot be read is left out. *)
Definition putOnce w (p : NodeID) (keys : list key) (src : key → option bytes) : W * (net_err + Msg) :=
  match cn_put w p (cl_stamp w (msg0 <| m_Type := TPut |>)) (omap src keys) with
  | (w, inl (XNoted e)) => (handleErr w p e, inl e)
  | (w, inl (XBroke e)) => (w, inl e)
  | (w, inr resp) => (cl_ok w p, inr resp)
  end.

(** [putBatch]: again after a stale view or a busy node, four times at most. *)
Fixpoint put_attempts (more : nat) w (p : NodeID) (keys : list key) (src : key → option bytes) : W * (net_err + Msg) :=
  match putOnce w p keys src with
  | (w, inr resp) => (w, inr resp)
  | (w, inl e) =>
      let w := if net_IsCode e CodeStaleView then handleErr w p e else w in
      match more with
      | S more => if net_IsCode e CodeStaleView || net_IsCode e CodeBusy then put_attempts more w p keys src else (w, inl e)
      | O => (w, inl e)
      end
  end.

Definition cl_putBatch w (p : NodeID) (keys : list key) (src : key → option bytes) : W * (net_err + Msg) := put_attempts 3 w p keys src.

(** The batches of a primary, up to the first that is due after an error was seen:
    those already in flight are not called back. *)
Fixpoint put_batches (seen : nat → bool) w (p : NodeID) (src : key → option bytes) (bs : list (list key)) (r : PutResult) : W * PutResult :=
  match bs with
  | [] => (w, r)
  | b :: bs =>
      if bool_decide (is_Some (pr_Errors r !! p)) && seen (length bs) then (w, r)
      else match cl_putBatch w p b src with
      | (w, inl e) => put_batches seen w p src bs (match pr_Errors r !! p with Some _ => r | None => r <| pr_Errors := <[p := e]> (pr_Errors r) |> end)
      | (w, inr resp) => put_batches seen w p src bs (merge r resp)
      end
  end.

Definition cl_Put (seen : nat → bool) (size : key → Z) (BatchBytes : Z) w (byPrimary : gmap NodeID (list key)) (src : key → option bytes) : W * PutResult :=
  fold_left (λ s e, put_batches seen s.1 e.1 src (batches size BatchBytes 8192 e.2) s.2) (map_to_list byPrimary) (w, MkPutResult ∅ ∅ ∅ ∅).

(** [Placed]: the policy of an acknowledgement. *)
Definition count_held (holders owners : list NodeID) : nat := length (filter (λ o, o ∈ holders) owners).

Definition Placed w (k : key) (holders : list NodeID) : bool :=
  let pl := cl_placement w in
  let minR := N.to_nat (MinReplicas (default view0 (ac_view (cn_self w)))) in
  if (count_held holders (Owners_of pl k) <? Nat.min minR (length (Owners_of pl k)))%nat then false
  else match PendingOwners pl k with
  | Some po => negb (count_held holders po <? Nat.min minR (length po))%nat
  | None => true
  end.

(** * The fetcher *)

Definition getBatchKeys : nat := 2048.
Definition getBatchBytes : Z := Z.shiftl 8 20.
Definition getEstMax : Z := Z.shiftl 64 10.

Definition estSize (k : key) : Z := (Z.of_nat RecHeaderSize + Z.min (i64 (Z.of_N (key_Length k))) getEstMax)%Z.

Record fetchKey := MkFetchKey { fk_key : key; fk_attempt : nat }.
Record fetchJob := MkFetchJob { fj_node : NodeID; fj_keys : list fetchKey }.
Record fetchAcc := MkFetchAcc { fa_keys : list fetchKey; fa_bytes : Z }.

(** The channels of the goroutines are lists without a bound; in the code [ft_in] and
    [ft_retry] hold 1024 keys, [ft_out] 256 results, and jobs are handed over directly.
    That a sender waits for room is not expressed. *)
Record fetcher := MkFetcher {
  ft_in : list key;
  ft_acc : gmap NodeID fetchAcc;
  ft_jobs : list fetchJob;
  ft_retry : list fetchKey;
  ft_out : list (key * option bytes);   (* [None]: no owner has the key *)
  ft_refreshed : bool;
}.

#[global] Instance fetcher_eta : Eta fetcher := λ r,
  MkFetcher (ft_in r) (ft_acc r) (ft_jobs r) (ft_retry r) (ft_out r) (ft_refreshed r).

(** [route], with the order it reads. *)
Definition queue_at (f : fetcher) (order : list NodeID) (fk : fetchKey) : fetcher :=
  match order !! fk_attempt fk with
  | None => f <| ft_out := ft_out f ++ [(fk_key fk, None)] |>
  | Some node =>
      let a := default (MkFetchAcc [] 0) (ft_acc f !! node) in
      f <| ft_acc := <[node := MkFetchAcc (fa_keys a ++ [fk]) (fa_bytes a + estSize (fk_key fk))]> (ft_acc f) |>
  end.

Definition route w (f : fetcher) (fk : fetchKey) : W * fetcher :=
  let order := cl_ReadOrder w (fk_key fk) in
  if (length order <=? fk_attempt fk)%nat && negb (ft_refreshed f) then
    let '(w, _) := RefreshView w in
    (w, queue_at (f <| ft_refreshed := true |>) (cl_ReadOrder w (fk_key fk)) (MkFetchKey (fk_key fk) 0))
  else (w, queue_at f order fk).

(** [pickBatch]; [l] is the order in which the map is read. *)
Fixpoint best_acc (l : list (NodeID * fetchAcc)) (best : option (NodeID * fetchAcc)) : option (NodeID * fetchAcc) :=
  match l with
  | [] => best
  | (id, a) :: l =>
      if (getBatchKeys <=? length (fa_keys a))%nat || (getBatchBytes <=? fa_bytes a)%Z then Some (id, a)
      else best_acc l (match best with
                       | None => Some (id, a)
                       | Some (_, b) => if (length (fa_keys b) <? length (fa_keys a))%nat then Some (id, a) else best
                       end)
  end.

Fixpoint batch_len (keys : list fetchKey) (n : nat) (bytes : Z) : nat * Z :=
  match keys with
  | [] => (n, bytes)
  | fk :: keys =>
      if (n <? getBatchKeys)%nat && (bool_decide (n = 0%nat) || (bytes + estSize (fk_key fk) <=? getBatchBytes)%Z)
      then batch_len keys (S n) (bytes + estSize (fk_key fk))%Z else (n, bytes)
  end.

Definition pickBatch (l : list (NodeID * fetchAcc)) (acc : gmap NodeID fetchAcc) : option (fetchJob * gmap NodeID fetchAcc) :=
  '(id, a) ← best_acc l None;
  let '(n, bytes) := batch_len (fa_keys a) 0 0 in
  let rest := drop n (fa_keys a) in
  Some (MkFetchJob id (take n (fa_keys a)), match rest with [] => delete id acc | _ :: _ => <[id := MkFetchAcc rest (fa_bytes a - bytes)]> acc end).

(** [VerifyRecord] of the client: the hash alone. *)
Definition VerifyRecord (raw : RawRecord) : string + key * bytes :=
  let k := raw_Key raw in
  match key_Validate k with
  | Some e => inl e
  | None =>
      match DecodePayload (raw_Flags raw) (raw_Ulen raw) (drop RecHeaderSize (raw_Bytes raw)) with
      | inl e => inl e
      | inr payload =>
          match key_New (key_Type k) (key_Length k) payload with
          | inl e => inl e
          | inr want => if decide (want = k) then inr (k, raw_Bytes raw) else inl ("payload hashes to " +:+ key_String want +:+ ", not " +:+ key_String k)
          end
      end
  end.

(** [getStream]: the records that verify. *)
Definition getStream w (id : NodeID) (keys : list key) : W * list (key * bytes) :=
  match cn_get w id (cl_stamp w (msg0 <| m_Type := TGet |> <| m_Keys := RawKeys keys |>)) with
  | (w, inl (XNoted e)) => (handleErr w id e, [])
  | (w, inl (XBroke _)) => (w, [])
  | (w, inr (raws, broke)) =>
      let recs := omap (λ raw, match VerifyRecord raw with inl _ => None | inr kr => Some kr end) raws in
      (match broke with Some _ => w | None => cl_ok w id end, recs)
  end.

(** A worker's batch. *)
Definition fetch w (f : fetcher) (job : fetchJob) : W * fetcher :=
  let '(w, recs) := getStream w (fj_node job) (fk_key <$> fj_keys job) in
  let left := filter (λ fk, fk_key fk ∉ recs.*1) (fj_keys job) in
  (w, f <| ft_out := ft_out f ++ ((λ r, (r.1, Some r.2)) <$> recs) |>
        <| ft_retry := ft_retry f ++ ((λ fk, MkFetchKey (fk_key fk) (S (fk_attempt fk))) <$> left) |>).

(** ** The steps of a fetch: a new key, a key for the next owner, a batch handed to a
    worker, a worker's batch. *)
Inductive fetch_step (Jobs : nat) : W * fetcher → W * fetcher → Prop :=
  | fs_in w f k ks : ft_in f = k :: ks → fetch_step Jobs (w, f) (route w (f <| ft_in := ks |>) (MkFetchKey k 0))
  | fs_retry w f fk fks : ft_retry f = fk :: fks → fetch_step Jobs (w, f) (route w (f <| ft_retry := fks |>) fk)
  | fs_pick w f l job acc : l ≡ₚ map_to_list (ft_acc f) → (length (ft_jobs f) < Jobs)%nat → pickBatch l (ft_acc f) = Some (job, acc) →
      fetch_step Jobs (w, f) (w, f <| ft_acc := acc |> <| ft_jobs := ft_jobs f ++ [job] |>)
  | fs_work w f l job l' : ft_jobs f = l ++ job :: l' → fetch_step Jobs (w, f) (fetch w (f <| ft_jobs := l ++ l' |>) job).

(** [Get]: every key once, at its first place. *)
Definition once (keys : list key) : list key := fold_left (λ l k, if decide (k ∈ l) then l else l ++ [k]) keys [].
Definition start_fetch (keys : list key) : fetcher := MkFetcher (once keys) ∅ [] [] [] false.

(** The fetch is over: [run] returns. *)
Definition fetch_over (f : fetcher) : Prop := ft_in f = [] ∧ ft_acc f = ∅ ∧ ft_jobs f = [] ∧ ft_retry f = [].

(** One way to run a fetch: new keys first, then retries, workers and batches. *)
Definition fetch_next (s : W * fetcher) : option (W * fetcher) :=
  let '(w, f) := s in
  match ft_in f, ft_retry f, ft_jobs f with
  | k :: ks, _, _ => Some (route w (f <| ft_in := ks |>) (MkFetchKey k 0))
  | [], fk :: fks, _ => Some (route w (f <| ft_retry := fks |>) fk)
  | [], [], job :: jobs => Some (fetch w (f <| ft_jobs := jobs |>) job)
  | [], [], [] => '(job, acc) ← pickBatch (map_to_list (ft_acc f)) (ft_acc f); Some (w, f <| ft_acc := acc |> <| ft_jobs := [job] |>)
  end.

Fixpoint fetch_run (fuel : nat) (s : W * fetcher) : W * fetcher :=
  match fuel with
  | O => s
  | S fuel => match fetch_next s with Some s => fetch_run fuel s | None => s end
  end.
End access.
