(* ===== verification/FetchSafety.v ===== *)
(** The client's transfers: a fetch gives every key one outcome, but may report a key
    as missing without having asked an owner that has it; the client's and the nodes'
    reading of the replication policy agree. *)
From S2P Require Import Prelude Store Placement View Wire Ballot Proposer Catalog Meta Mark Pins GC Client Data DataSafety NodeNet Gate Fetch.

Local Open Scope N_scope.

Section fetch.
Context (blake3 : bytes → nat → bytes) `{Core} `{Codec View} {W : Type} `{CNet W}.
Implicit Types w : W.
Implicit Types f : fetcher.

(** * The policy *)

(** The holders a client knows are the owners that confirm the key. *)
Definition same_holders w (k : key) (holders : list NodeID) (results : gmap NodeID (option (list key))) : Prop :=
  ∀ o, o ∈ WriteSet (cl_placement blake3 w) k → (o ∈ holders ↔ has_key_at results k o = true).

(** The client's test for an acknowledged object and the nodes' test in the gate of
    a reference write are the same: when the holders the client knows are the owners
    that confirm the key, an object is placed exactly when it is not short. *)
Theorem Placed_iff_not_short w v (k : key) (holders : list NodeID) (results : gmap NodeID (option (list key))) :
  ac_view (cn_self w) = Some v →
  same_holders w k holders results →
  Placed blake3 w k holders = negb (is_short (cl_placement blake3 w) (N.to_nat (MinReplicas v)) results k).
Proof.
  intros Hv Hh. unfold Placed, is_short. rewrite Hv. simpl.
  assert (∀ owners, (∀ o, o ∈ owners → o ∈ WriteSet (cl_placement blake3 w) k) → count_held holders owners = count_has results k owners) as Hc.
  { intros owners. unfold count_held, count_has. induction owners as [|o owners IH]; intros Ho; [done|]. rewrite !filter_cons.
    assert (o ∈ holders ↔ has_key_at results k o = true) as Hio by (apply Hh, Ho; by left). specialize (IH (λ o' Ho', Ho o' (list_elem_of_further _ _ _ Ho'))).
    repeat case_decide; simpl; (congruence || tauto). }
  rewrite Hc. 2: { intros o Ho. unfold WriteSet. destruct (PendingOwners _ _); [|done]. apply elem_of_append_unseen. by left. }
  destruct (_ <? _)%nat; [done|]. destruct (PendingOwners (cl_placement blake3 w) k) as [po|] eqn:Ep; [|done].
  rewrite Hc; [done|]. intros o Ho. unfold WriteSet. rewrite Ep. apply elem_of_append_unseen. by right.
Qed.

(** * Accounting *)

(** The keys waiting for a batch. *)
Definition acc_keys (acc : gmap NodeID fetchAcc) : list fetchKey := concat ((λ e, fa_keys e.2) <$> map_to_list acc).
Definition job_keys (jobs : list fetchJob) : list fetchKey := concat (fj_keys <$> jobs).
Definition open_keys f : list key := ft_in f ++ (fk_key <$> acc_keys (ft_acc f) ++ job_keys (ft_jobs f) ++ ft_retry f).

(** A key is under way or has its outcome. *)
Definition all_keys f : list key := open_keys f ++ (ft_out f).*1.

Lemma acc_keys_perm l acc : l ≡ₚ map_to_list acc → acc_keys acc ≡ₚ concat ((λ e : NodeID * fetchAcc, fa_keys e.2) <$> l).
Proof.
  intros Hl. unfold acc_keys. symmetry. revert Hl. generalize (map_to_list acc). clear acc. intros l' Hl.
  induction Hl as [|x l l' _ IH|x y l|l1 l2 l3 _ IH1 _ IH2]; simpl; [done|by rewrite IH|rewrite !app_assoc; f_equiv; apply Permutation_app_comm|by etrans].
Qed.

Lemma acc_keys_insert acc node a : acc_keys (<[node := a]> acc) ≡ₚ fa_keys a ++ acc_keys (delete node acc).
Proof.
  rewrite <- insert_delete_eq. rewrite (acc_keys_perm ((node, a) :: map_to_list (delete node acc))); [done|].
  symmetry. apply map_to_list_insert, lookup_delete_eq.
Qed.

Lemma acc_keys_lookup acc node a : acc !! node = Some a → acc_keys acc ≡ₚ fa_keys a ++ acc_keys (delete node acc).
Proof. intros Ha. rewrite <- (insert_id acc node a) at 1 by done. apply acc_keys_insert. Qed.

Lemma acc_keys_add acc node fk b : acc_keys (<[node := MkFetchAcc (fa_keys (default (MkFetchAcc [] 0) (acc !! node)) ++ [fk]) b]> acc) ≡ₚ fk :: acc_keys acc.
Proof.
  rewrite acc_keys_insert. simpl. destruct (acc !! node) as [a|] eqn:Ea; simpl.
  - rewrite (acc_keys_lookup acc node a) by done. rewrite <- app_assoc. simpl. by rewrite <- Permutation_middle.
  - by rewrite delete_id.
Qed.

Lemma job_keys_app a b : job_keys (a ++ b) = job_keys a ++ job_keys b.
Proof. unfold job_keys. by rewrite fmap_app, concat_app. Qed.
Lemma job_keys_cons j l : job_keys (j :: l) = fj_keys j ++ job_keys l.
Proof. done. Qed.

Lemma queue_at_keys f order fk : all_keys (queue_at f order fk) ≡ₚ fk_key fk :: all_keys f.
Proof.
  unfold queue_at, all_keys, open_keys. destruct (order !! fk_attempt fk); simpl.
  - rewrite acc_keys_add. simpl. by rewrite <- Permutation_middle.
  - rewrite (fmap_app fst). simpl. solve_Permutation.
Qed.

Lemma route_keys w f fk : all_keys (route blake3 w f fk).2 ≡ₚ fk_key fk :: all_keys f.
Proof.
  unfold route. destruct (_ && _); [|apply queue_at_keys]. destruct (RefreshView w) as [w1 e]. simpl. by rewrite queue_at_keys.
Qed.

Lemma best_acc_in l best id a : best_acc l best = Some (id, a) → (id, a) ∈ l ∨ best = Some (id, a).
Proof.
  revert best. induction l as [|[i x] l IH]; intros best; simpl; [by right|]. destruct (_ || _); [intros [= -> ->]; left; by left|].
  intros [Hin|Hb]%IH; [left; by right|]. destruct best as [[j b]|]; [|injection Hb as -> ->; left; by left].
  destruct (_ <? _)%nat; [injection Hb as -> ->; left; by left|by right].
Qed.

Lemma pickBatch_keys l acc job acc' : l ≡ₚ map_to_list acc → pickBatch l acc = Some (job, acc') → acc_keys acc ≡ₚ fj_keys job ++ acc_keys acc'.
Proof.
  intros Hl. unfold pickBatch. destruct (best_acc l None) as [[id a]|] eqn:Eb; [|done]. simpl. destruct (batch_len _ _ _) as [n b]. intros [= <- <-]. simpl.
  destruct (best_acc_in _ _ _ _ Eb) as [Hin|]; [|done]. rewrite Hl in Hin. apply elem_of_map_to_list in Hin. rewrite (acc_keys_lookup acc id a) by done.
  rewrite <- (take_drop n (fa_keys a)) at 1. rewrite <- app_assoc. f_equiv. destruct (drop n (fa_keys a)) as [|x rest]; [done|]. by rewrite acc_keys_insert.
Qed.

(** Nodes send what they are asked for, once. *)
Class Honest := honest w id keys w' recs : getStream w id keys = (w', recs) → NoDup recs.*1 ∧ recs.*1 ⊆ keys.

Lemma answered_keys (job : list fetchKey) (got : list key) : NoDup (fk_key <$> job) → NoDup got → got ⊆ fk_key <$> job →
  fk_key <$> job ≡ₚ (fk_key <$> filter (λ fk, fk_key fk ∉ got) job) ++ got.
Proof.
  intros Hj Hg Hsub. apply NoDup_Permutation; [done| |].
  - apply NoDup_app. split; [|split; [|done]].
    + eapply sublist_NoDup; [exact Hj|]. by apply fmap_sublist, sublist_filter.
    + intros k (fk & -> & [Hn _]%list_elem_of_filter)%list_elem_of_fmap. done.
  - intros k. rewrite elem_of_app. split.
    + intros (fk & -> & Hfk)%list_elem_of_fmap. destruct (decide (fk_key fk ∈ got)); [by right|]. left. apply list_elem_of_fmap_2. by apply list_elem_of_filter.
    + intros [(fk & -> & [_ Hfk]%list_elem_of_filter)%list_elem_of_fmap|Hk]; [by apply list_elem_of_fmap_2|by apply Hsub].
Qed.

Context `{!Honest} (Jobs : nat).

Lemma fetch_step_keys s s' : NoDup (all_keys s.2) → fetch_step blake3 Jobs s s' → all_keys s'.2 ≡ₚ all_keys s.2.
Proof.
  intros Hnd Hs. destruct Hs as [w f k ks Hin|w f fk fks Hr|w f l job acc Hl _ Hp|w f l job l' Hj]; simpl in Hnd |- *.
  - rewrite route_keys. unfold all_keys, open_keys. simpl. by rewrite Hin.
  - rewrite route_keys. unfold all_keys, open_keys. simpl. rewrite Hr, !fmap_app. simpl. solve_Permutation.
  - unfold all_keys, open_keys. simpl. rewrite (pickBatch_keys _ _ _ _ Hl Hp), job_keys_app, job_keys_cons, !fmap_app. simpl. solve_Permutation.
  - unfold fetch. destruct (getStream w (fj_node job) (fk_key <$> fj_keys job)) as [w1 recs] eqn:Eg. destruct (honest _ _ _ _ _ Eg) as [H1' H2']. simpl.
    unfold all_keys, open_keys in *. rewrite Hj in Hnd |- *. simpl. rewrite !job_keys_app, job_keys_cons in *. rewrite !fmap_app in *.
    assert (NoDup (fk_key <$> fj_keys job)) as Hjob.
    { apply NoDup_app in Hnd as (Hnd & _ & _). do 2 apply NoDup_app in Hnd as (_ & _ & Hnd). apply NoDup_app in Hnd as (Hnd & _ & _). apply NoDup_app in Hnd as (_ & _ & Hnd). by apply NoDup_app in Hnd as (? & _ & _). }
    rewrite (answered_keys _ _ Hjob H1' H2'). rewrite <- !list_fmap_compose. rewrite (list_fmap_ext (fk_key ∘ _) fk_key) by done. rewrite (list_fmap_ext (fst ∘ _) fst) by done. solve_Permutation.
Qed.

Lemma once_spec keys : NoDup (once keys) ∧ ∀ k, k ∈ once keys ↔ k ∈ keys.
Proof.
  unfold once. cut (∀ l, NoDup l → NoDup (fold_left (λ l k, if decide (k ∈ l) then l else l ++ [k]) keys l) ∧
    ∀ k, k ∈ fold_left (λ l k, if decide (k ∈ l) then l else l ++ [k]) keys l ↔ k ∈ l ∨ k ∈ keys); [intros Hl; destruct (Hl []) as [? Hk]; [constructor|]; split; [done|]; intros k; rewrite Hk; set_solver|].
  induction keys as [|a keys IH]; intros l Hl; cbn [fold_left]; [split; [done|]; set_solver|]. case_decide as Ha.
  - destruct (IH l Hl) as [? Hk]. split; [done|]. intros k. rewrite Hk, elem_of_cons. set_solver.
  - destruct (IH (l ++ [a])) as [? Hk]; [apply NoDup_app; split; [done|]; split; [|apply NoDup_singleton]; set_solver|]. split; [done|].
    intros k. rewrite Hk, elem_of_app, list_elem_of_singleton, elem_of_cons. tauto.
Qed.

Lemma fetch_next_step s s' : (0 < Jobs)%nat → fetch_next blake3 s = Some s' → fetch_step blake3 Jobs s s'.
Proof.
  intros HJ E. destruct s as [w f]. unfold fetch_next in E. destruct (ft_in f) as [|k ks] eqn:Ei; [|injection E as <-; by apply fs_in].
  destruct (ft_retry f) as [|fk fks] eqn:Er; [|injection E as <-; by apply fs_retry]. destruct (ft_jobs f) as [|job jobs] eqn:Ej.
  - destruct (pickBatch _ _) as [[job acc]|] eqn:Ep; [|done]. injection E as <-. pose proof (fs_pick blake3 Jobs w f _ job acc (reflexivity _)) as Hs. rewrite Ej in Hs. by apply Hs.
  - injection E as <-. by apply (fs_work blake3 Jobs w f [] job jobs).
Qed.

Lemma fetch_run_steps fuel s : (0 < Jobs)%nat → rtc (fetch_step blake3 Jobs) s (fetch_run blake3 fuel s).
Proof.
  intros HJ. revert s. induction fuel as [|fuel IH]; intros s; simpl; [done|]. destruct (fetch_next blake3 s) as [s'|] eqn:E; [|done]. eapply rtc_l; [|apply IH]. by apply fetch_next_step.
Qed.

(** The records handed out were verified. *)
Definition verified_out f : Prop := ∀ k rec, (k, Some rec) ∈ ft_out f → ∃ raw, VerifyRecord raw = inr (k, rec).

Lemma queue_at_out f order fk : verified_out f → verified_out (queue_at f order fk).
Proof. intros Hv. unfold queue_at. destruct (order !! _); [done|]. intros k rec [?|?%list_elem_of_singleton]%elem_of_app; [by apply Hv|done]. Qed.

Lemma getStream_verified w id keys w' recs : getStream w id keys = (w', recs) → ∀ k rec, (k, rec) ∈ recs → ∃ raw, VerifyRecord raw = inr (k, rec).
Proof.
  unfold getStream. destruct (cn_get _ _ _) as [w1 [[e|e]|[raws broke]]]; intros [= _ <-] k rec; [by intros ?%not_elem_of_nil..|].
  intros (raw & _ & Hr)%list_elem_of_omap. exists raw. by destruct (VerifyRecord raw); [|injection Hr as ->].
Qed.

Lemma fetch_step_out s s' : fetch_step blake3 Jobs s s' → verified_out s.2 → verified_out s'.2.
Proof.
  intros Hs Hv. destruct Hs as [w f k ks Hin|w f fk fks Hr|w f l job acc Hl _ Hp|w f l job l' Hj]; simpl in Hv |- *; [| |done|].
  - unfold route. destruct (_ && _); [destruct (RefreshView w)|]; by apply queue_at_out.
  - unfold route. destruct (_ && _); [destruct (RefreshView w)|]; by apply queue_at_out.
  - unfold fetch. destruct (getStream _ _ _) as [w1 recs] eqn:Eg. simpl. intros k rec [?|([k' rec'] & E & Hin)%list_elem_of_fmap]%elem_of_app; [by apply Hv|].
    injection E as -> ->. by eapply getStream_verified.
Qed.

(** C22 A fetch gives every key one outcome: in whatever order keys are routed, batches
    are picked and workers finish, when the fetch is over every key asked for has
    exactly one outcome, and every record handed out hashes to its key.  Nodes are
    assumed to send what they are asked for, once.  The queues between the goroutines
    are unbounded here; the code bounds them with its channels. *)
Theorem fetch_accounts keys w s : rtc (fetch_step blake3 Jobs) (w, start_fetch keys) s → fetch_over s.2 →
  (ft_out s.2).*1 ≡ₚ once keys ∧ verified_out s.2.
Proof.
  intros Hs (H1' & H2' & H3' & H4'). assert (NoDup (all_keys s.2) ∧ all_keys s.2 ≡ₚ once keys ∧ verified_out s.2) as (_ & Hk & Hv).
  { remember (w, start_fetch keys) as s0 eqn:E0. assert (NoDup (all_keys s0.2) ∧ all_keys s0.2 ≡ₚ once keys ∧ verified_out s0.2) as Hi.
    { subst s0. simpl. assert (all_keys (start_fetch keys) = once keys) as -> by (unfold all_keys, open_keys, acc_keys; simpl; by rewrite map_to_list_empty, !app_nil_r).
      split; [apply once_spec|]. split; [done|]. by intros k rec ?%not_elem_of_nil. }
    clear E0. induction Hs as [|s1 s2 s3 H12 _ IH]; [done|]. apply IH; [done..|]. destruct Hi as (Hnd & Hp & Hv). pose proof (fetch_step_keys _ _ Hnd H12) as Hk.
    split; [by rewrite Hk|]. split; [by rewrite Hk|by eapply fetch_step_out]. }
  split; [|done]. rewrite <- Hk. unfold all_keys, open_keys, acc_keys. rewrite H1', H2', H3', H4', map_to_list_empty. done.
Qed.

(** * A fetch ends *)

(** How much is left to do: the turns of each key, in thirds, and the one refresh. *)
Definition turns_left (M : nat) (extra : nat) (fk : fetchKey) : nat := (3 * (M - fk_attempt fk) + extra)%nat.
Definition fetch_left (M : nat) f : nat :=
  ((3 * M + 4) * length (ft_in f) + sum_list_with (turns_left M 2) (acc_keys (ft_acc f)) + sum_list_with (turns_left M 1) (job_keys (ft_jobs f)) +
   sum_list_with (turns_left M 3) (ft_retry f) + (if ft_refreshed f then 0 else 3 * M + 4))%nat.

Record tidy (M : nat) f : Prop := MkTidy {
  td_acc fk : fk ∈ acc_keys (ft_acc f) → (fk_attempt fk < M)%nat;
  td_jobs fk : fk ∈ job_keys (ft_jobs f) → (fk_attempt fk < M)%nat;
  td_batches : map_Forall (λ _ a, fa_keys a ≠ []) (ft_acc f);
  td_work : Forall (λ j, fj_keys j ≠ []) (ft_jobs f);
}.

Lemma tidy_start M keys : tidy M (start_fetch keys).
Proof.
  split; unfold acc_keys, job_keys; simpl; [rewrite map_to_list_empty; by intros fk ?%not_elem_of_nil|by intros fk ?%not_elem_of_nil|apply map_Forall_empty|constructor].
Qed.

Lemma queue_at_tidy M f order fk : (length order ≤ M)%nat → tidy M f → tidy M (queue_at f order fk).
Proof.
  intros HM [T1 T2 T3 T4]. unfold queue_at. destruct (order !! fk_attempt fk) as [node|] eqn:Eo; [|done]. apply lookup_lt_Some in Eo. split; simpl; [|done| |done].
  - intros fk'. rewrite acc_keys_add, elem_of_cons. intros [->|?]; [lia|by apply T1].
  - apply map_Forall_insert_2; [|done]. simpl. by intros [_ ?]%app_nil.
Qed.

Lemma queue_at_left M f order fk : (fetch_left M (queue_at f order fk) ≤ fetch_left M f + turns_left M 2 fk)%nat.
Proof.
  unfold queue_at, fetch_left. destruct (order !! fk_attempt fk); simpl; [|lia]. rewrite acc_keys_add. simpl. lia.
Qed.

Lemma route_left M w f fk : (length (cl_ReadOrder blake3 w (fk_key fk)) ≤ M)%nat → (length (cl_ReadOrder blake3 (route blake3 w f fk).1 (fk_key fk)) ≤ M)%nat → tidy M f →
  tidy M (route blake3 w f fk).2 ∧ (fetch_left M (route blake3 w f fk).2 < fetch_left M f + turns_left M 3 fk)%nat.
Proof.
  intros H1' H2' Ht. unfold route in *. destruct (_ && _) eqn:E.
  - destruct (RefreshView w) as [w1 e]. simpl in *. apply andb_true_iff in E as [_ Hr%negb_true_iff]. split; [apply queue_at_tidy; [done|by destruct Ht]|].
    pose proof (queue_at_left M (f <| ft_refreshed := true |>) (cl_ReadOrder blake3 w1 (fk_key fk)) (MkFetchKey (fk_key fk) 0)) as Hq.
    unfold fetch_left in Hq |- *. simpl in Hq. unfold turns_left in *. simpl in *. rewrite Hr. lia.
  - simpl in *. split; [by apply queue_at_tidy|]. pose proof (queue_at_left M f (cl_ReadOrder blake3 w (fk_key fk)) fk). unfold turns_left in *. lia.
Qed.

Lemma turns_sum M extra l : sum_list_with (turns_left M (S extra)) l = (sum_list_with (turns_left M extra) l + length l)%nat.
Proof. induction l as [|a l IH]; simpl; [done|]. rewrite IH. unfold turns_left. lia. Qed.

Lemma retry_sum M (l : list fetchKey) (P' : fetchKey → Prop) `{!∀ x, Decision (P' x)} : (∀ fk, fk ∈ l → (fk_attempt fk < M)%nat) → l ≠ [] →
  (sum_list_with (turns_left M 3) ((λ fk, MkFetchKey (fk_key fk) (S (fk_attempt fk))) <$> filter P' l) < sum_list_with (turns_left M 1) l)%nat.
Proof.
  intros Hl Hne. assert (sum_list_with (turns_left M 3) ((λ fk, MkFetchKey (fk_key fk) (S (fk_attempt fk))) <$> filter P' l) + length l ≤ sum_list_with (turns_left M 1) l)%nat as Hs.
  { clear Hne. induction l as [|a l IH]; [done|]. rewrite filter_cons. specialize (IH (λ fk Hfk, Hl fk (list_elem_of_further _ _ _ Hfk))). specialize (Hl a (list_elem_of_here _ _)).
    assert (turns_left M 3 (MkFetchKey (fk_key a) (S (fk_attempt a))) + 1 ≤ turns_left M 1 a)%nat by (unfold turns_left; cbn [fk_attempt]; lia).
    assert (1 ≤ turns_left M 1 a)%nat by (unfold turns_left; lia). case_decide; cbn [fmap list_fmap sum_list_with length]; lia. }
  destruct l; [done|]. simpl in *. lia.
Qed.

Lemma batch_len_pos fk keys : (0 < (batch_len (fk :: keys) 0 0).1)%nat.
Proof.
  assert (∀ l n b, (n ≤ (batch_len l n b).1)%nat) as Hm by (intros l; induction l as [|x l IH]; intros n b; simpl; [done|]; destruct (_ && _); [|done]; specialize (IH (S n) (b + estSize (fk_key x))%Z); lia).
  simpl. apply (Hm keys 1%nat).
Qed.

Lemma pickBatch_tidy M l f job acc : l ≡ₚ map_to_list (ft_acc f) → pickBatch l (ft_acc f) = Some (job, acc) → tidy M f →
  fj_keys job ≠ [] ∧ tidy M (f <| ft_acc := acc |> <| ft_jobs := ft_jobs f ++ [job] |>).
Proof.
  intros Hl Hp [T1 T2 T3 T4]. pose proof (pickBatch_keys _ _ _ _ Hl Hp) as Hk. unfold pickBatch in Hp. destruct (best_acc l None) as [[id a]|] eqn:Eb; [|done]. simpl in Hp.
  destruct (best_acc_in _ _ _ _ Eb) as [Hin|]; [|done]. rewrite Hl in Hin. apply elem_of_map_to_list in Hin. pose proof (map_Forall_lookup_1 _ _ _ _ T3 Hin) as Hne. simpl in Hne.
  destruct (batch_len (fa_keys a) 0 0) as [n b] eqn:El. injection Hp as <- <-. simpl in *. assert (0 < n)%nat as Hn.
  { destruct (fa_keys a) as [|x xs]; [done|]. pose proof (batch_len_pos x xs) as Hpos. by rewrite El in Hpos. }
  assert (take n (fa_keys a) ≠ []) as Hj by (destruct (fa_keys a), n; (done || lia)). split; [done|]. split; simpl.
  - intros fk Hfk. apply T1. rewrite Hk. apply elem_of_app. by right.
  - intros fk. rewrite job_keys_app, elem_of_app, job_keys_cons, elem_of_app. intros [?|[?|?%not_elem_of_nil]]; [by apply T2| |done]. apply T1. rewrite Hk. apply elem_of_app. by left.
  - destruct (drop n (fa_keys a)); [by apply map_Forall_delete|by apply map_Forall_insert_2].
  - apply Forall_app. split; [done|]. by constructor.
Qed.

Lemma fetch_step_left M s s' : (∀ k, length (cl_ReadOrder blake3 s.1 k) ≤ M)%nat → (∀ k, length (cl_ReadOrder blake3 s'.1 k) ≤ M)%nat → tidy M s.2 →
  fetch_step blake3 Jobs s s' → tidy M s'.2 ∧ (fetch_left M s'.2 < fetch_left M s.2)%nat.
Proof.
  intros Ho Ho' Ht Hs. destruct Hs as [w f k ks Hin|w f fk fks Hr|w f l job acc Hl _ Hp|w f l job l' Hj]; simpl in Ho, Ht |- *.
  - destruct (route_left M w (f <| ft_in := ks |>) (MkFetchKey k 0) (Ho _) (Ho' _)) as [T L]; [by destruct Ht|]. split; [done|].
    assert (fetch_left M f = fetch_left M (f <| ft_in := ks |>) + (3 * M + 4))%nat as -> by (unfold fetch_left; rewrite Hin; simpl; lia).
    assert (turns_left M 3 (MkFetchKey k 0) = 3 * M + 3)%nat by (unfold turns_left; cbn [fk_attempt]; lia). lia.
  - destruct (route_left M w (f <| ft_retry := fks |>) fk (Ho _) (Ho' _)) as [T L]; [by destruct Ht|]. split; [done|].
    assert (fetch_left M f = fetch_left M (f <| ft_retry := fks |>) + turns_left M 3 fk)%nat as -> by (unfold fetch_left; rewrite Hr; simpl; lia). lia.
  - destruct (pickBatch_tidy M l f job acc Hl Hp Ht) as [Hne T]. split; [done|]. unfold fetch_left. simpl. rewrite (pickBatch_keys _ _ _ _ Hl Hp), job_keys_app, job_keys_cons, !sum_list_with_app.
    rewrite (turns_sum M 1 (fj_keys job)). simpl. destruct (fj_keys job); [done|]. simpl. lia.
  - unfold fetch. destruct (getStream _ _ _) as [w1 recs]. simpl. destruct Ht as [T1 T2 T3 T4]. rewrite Hj in T2, T4. apply Forall_app in T4 as [T4 [T5 T6]%Forall_cons]. split.
    + split; simpl; [done| |done|by apply Forall_app]. intros fk. rewrite job_keys_app, elem_of_app. intros Hfk. apply T2. rewrite job_keys_app, job_keys_cons, !elem_of_app. tauto.
    + unfold fetch_left. simpl. rewrite Hj, !job_keys_app, job_keys_cons, !sum_list_with_app.
      pose proof (retry_sum M (fj_keys job) (λ fk, fk_key fk ∉ recs.*1)) as Hq. assert (∀ fk, fk ∈ fj_keys job → (fk_attempt fk < M)%nat) as HM.
      { intros fk Hfk. apply T2. rewrite job_keys_app, job_keys_cons, !elem_of_app. tauto. }
      specialize (Hq HM T5). lia.
Qed.

Lemma best_acc_some l best : l ≠ [] ∨ is_Some best → is_Some (best_acc l best).
Proof.
  revert best. induction l as [|[i x] l IH]; intros best Hb; simpl; [by destruct Hb|]. destruct (_ || _); [by eexists|]. apply IH. right.
  destruct best as [[j b]|]; [destruct (_ <? _)%nat|]; by eexists.
Qed.

Lemma fetch_progress s : (0 < Jobs)%nat → fetch_over s.2 ∨ ∃ s', fetch_step blake3 Jobs s s'.
Proof.
  intros HJ. destruct s as [w f]. destruct (ft_in f) as [|k ks] eqn:Ei; [|right; eexists; by apply fs_in]. destruct (ft_retry f) as [|fk fks] eqn:Er; [|right; eexists; by apply fs_retry].
  destruct (ft_jobs f) as [|j js] eqn:Ej; [|right; eexists; by apply (fs_work _ _ _ _ [])]. destruct (decide (ft_acc f = ∅)) as [Ea|Ea]; [by left|]. right.
  destruct (best_acc_some (map_to_list (ft_acc f)) None) as [[id a] Eb]; [left; by intros ?%map_to_list_empty_iff|].
  destruct (pickBatch (map_to_list (ft_acc f)) (ft_acc f)) as [[job acc]|] eqn:Ep; [|unfold pickBatch in Ep; rewrite Eb in Ep; simpl in Ep; by destruct (batch_len _ _ _)].
  eexists. eapply fs_pick; [done| |done]. by rewrite Ej.
Qed.

Lemma fetch_nsteps M n s s' : (∀ s1, rtc (fetch_step blake3 Jobs) s s1 → ∀ k, length (cl_ReadOrder blake3 s1.1 k) ≤ M)%nat → tidy M s.2 →
  nsteps (fetch_step blake3 Jobs) n s s' → (n + fetch_left M s'.2 ≤ fetch_left M s.2)%nat.
Proof.
  intros Ho Ht Hn. induction Hn as [|n s s1 s2 H12 _ IH]; [done|]. destruct (fetch_step_left M s s1) as [T L]; [by apply Ho|by apply Ho, rtc_once|done..|].
  enough (n + fetch_left M s2.2 ≤ fetch_left M s1.2)%nat by lia. apply IH; [|done]. intros s3 H3 k. apply Ho. by eapply rtc_l.
Qed.

(** How many nodes a view lists, and the target of its transition. *)
Definition view_size (v : View) : nat := (length (Nodes v) + match View_Pending v with Some p => length (Pending_Nodes p) | None => 0 end)%nat.

Lemma length_preferred w ids : length (preferred w ids) = length ids.
Proof. unfold preferred, rankOwners. by rewrite length_fmap, length_sort_by, length_imap. Qed.

Lemma length_cl_ReadOrder w k : (length (cl_ReadOrder blake3 w k) ≤ view_size (default view0 (ac_view (cn_self w))))%nat.
Proof.
  assert (length (cl_ReadOrder blake3 w k) = length (ReadOrder (cl_placement blake3 w) k)) as ->.
  { unfold cl_ReadOrder. destruct (_ <=? _)%nat; [apply length_preferred|]. by rewrite length_app, length_preferred, <- length_app, take_drop. }
  unfold cl_placement, view_size. rewrite ReadOrder_eq. assert (∀ l, length (rank_ids blake3 l k) = length l) as Hl by (intros l; by rewrite (rank_ids_perm blake3 l k), length_fmap).
  destruct (View_Pending _) as [p|]; [|rewrite Hl; lia]. unfold append_unseen. rewrite length_app, Hl. etrans; [apply Nat.add_le_mono_l, length_filter|]. by rewrite Hl.
Qed.

(** A fetch ends: while the client's views list at most [M] nodes, no run takes more
    than [3M + 4] steps for each key and once more for the refresh, whatever the nodes
    answer and whichever step comes next, and a fetch that is not over has a next step. *)
Theorem fetch_ends M keys w n s : (0 < Jobs)%nat →
  (∀ s1, rtc (fetch_step blake3 Jobs) (w, start_fetch keys) s1 → view_size (default view0 (ac_view (cn_self s1.1))) ≤ M)%nat →
  nsteps (fetch_step blake3 Jobs) n (w, start_fetch keys) s →
  (n ≤ (3 * M + 4) * (length (once keys) + 1))%nat ∧ (fetch_over s.2 ∨ ∃ s', fetch_step blake3 Jobs s s').
Proof.
  intros HJ Ho Hn. split; [|by apply fetch_progress]. pose proof (tidy_start M keys) as Ht.
  assert (fetch_left M (start_fetch keys) = (3 * M + 4) * (length (once keys) + 1))%nat as Hl by (unfold fetch_left, acc_keys; simpl; rewrite map_to_list_empty; simpl; lia).
  enough (n + fetch_left M s.2 ≤ fetch_left M (start_fetch keys))%nat by lia. apply (fetch_nsteps M n (w, start_fetch keys) s); [|done..].
  intros s1 H1' k. etrans; [apply length_cl_ReadOrder|by apply Ho].
Qed.
End fetch.

(** * An owner that is not asked *)

(** A network on which one node cannot be reached and nothing else changes the
    client's state. *)
Class OneDown (blake3 : bytes → nat → bytes) `{Core} `{Codec View} (W : Type) `{CNet W} (down : NodeID) := {
  od_set w c : cn_self (cn_set w c) = c;
  od_now w c : cn_now (cn_set w c) = cn_now w;
  od_path w id : cn_path w id = None;
  od_down w m : cn_get w down m = (w, inl (XNoted NDeadline));
}.

Section skipped.
Context (blake3 : bytes → nat → bytes) `{Core} `{Codec View} {W : Type} `{CNet W} (a b : NodeID) `{!OneDown blake3 W a}.
Implicit Types w : W.
Implicit Types f : fetcher.

Lemma preferred_pair w : preferred w [a; b] = if (penalty w b <? penalty w a)%Z then [b; a] else [a; b].
Proof.
  unfold preferred, rankOwners, score. simpl. rewrite !od_path. simpl. unfold scored_before. simpl.
  destruct (Z.ltb_spec (penalty w b) (penalty w a)) as [Hlt|Hge]; case_bool_decide as Hb; simpl; (done || lia).
Qed.

(** What a failure leaves behind. *)
Lemma failed_node w : let w' := handleErr w a NDeadline in ac_view (cn_self w') = ac_view (cn_self w) ∧ cn_now w' = cn_now w ∧
  ac_unreach (cn_self w') = ac_unreach (cn_self w) ∧ (∀ o, o ≠ a → ac_backoff (cn_self w') !! o = ac_backoff (cn_self w) !! o) ∧ (2 <= penalty w' a)%Z.
Proof.
  unfold handleErr. simpl. unfold penalty, upd. rewrite od_set, od_now. simpl. split; [done|]. split; [done|]. split; [done|].
  split; [intros o Ho; by apply lookup_insert_ne|]. rewrite lookup_insert_eq. set (n := S _). assert (0 < backoff_of n)%Z as Hb.
  { unfold backoff_of. apply Z.min_glb_lt; [done|]. rewrite Z.shiftl_mul_pow2 by lia. apply Z.mul_pos_pos; [done|]. apply Z.pow_pos_nonneg; lia. }
  rewrite (proj2 (Z.ltb_lt _ _)) by lia. case_decide; lia.
Qed.

(** One batch of a single key at the node that is down. *)
Lemma failing_batch Jobs w f k n : (0 < Jobs)%nat → ft_acc f = ∅ → ft_jobs f = [] → ft_retry f = [] → ft_in f = [] →
  rtc (fetch_step blake3 Jobs) (w, f <| ft_acc := {[a := MkFetchAcc [MkFetchKey k n] (estSize k)]} |>)
    (handleErr w a NDeadline, f <| ft_retry := [MkFetchKey k (S n)] |>).
Proof.
  intros HJ Ha Hj Hr Hi.
  eapply rtc_l; [eapply (fs_pick _ _ _ _ [(a, MkFetchAcc [MkFetchKey k n] (estSize k))] (MkFetchJob a [MkFetchKey k n]) ∅)|].
  - simpl. by rewrite map_to_list_singleton.
  - simpl. by rewrite Hj.
  - unfold pickBatch. assert (best_acc [(a, MkFetchAcc [MkFetchKey k n] (estSize k))] None = Some (a, MkFetchAcc [MkFetchKey k n] (estSize k))) as -> by (unfold best_acc; by destruct (_ || _)).
    simpl. by rewrite delete_singleton_eq.
  - apply rtc_once. simpl. rewrite Hj. simpl.
    pose proof (fs_work blake3 Jobs w (f <| ft_acc := ∅ |> <| ft_jobs := [MkFetchJob a [MkFetchKey k n]] |>) [] (MkFetchJob a [MkFetchKey k n]) [] eq_refl) as Hw.
    unfold fetch, getStream in Hw. simpl in Hw. rewrite od_down in Hw. simpl in Hw. destruct f as [fi fa fj fr fo ff]. simpl in *. subst. rewrite app_nil_r in Hw. exact Hw.
Qed.

Lemma order_pair w v k : ac_view (cn_self w) = Some v → Replicas v = 2 → ReadOrder (cl_placement blake3 w) k = [a; b] →
  cl_ReadOrder blake3 w k = if (penalty w b <? penalty w a)%Z then [b; a] else [a; b].
Proof. intros Hv HR Ho. unfold cl_ReadOrder. rewrite Ho, Hv. simpl. rewrite HR. simpl. apply preferred_pair. Qed.

(** One key is left, and the view was refreshed already. *)
Definition last_key f (k : key) : Prop := ft_in f = [k] ∧ ft_acc f = ∅ ∧ ft_jobs f = [] ∧ ft_retry f = [] ∧ ft_refreshed f = true.

(** A fetch may report a key as missing without asking an owner that has it.  A key's
    turn is an index into a read order that is made anew each time, with the failures
    met so far: when its first owner cannot be reached it falls behind the second, so
    the second turn asks the first owner again, and the third turn is past the end.
    Starting over happens once for the whole fetch, for the first key it happens to. *)
Theorem owner_skipped Jobs w f k v rec : (0 < Jobs)%nat → a ≠ b → ac_view (cn_self w) = Some v → Replicas v = 2 → ReadOrder (cl_placement blake3 w) k = [a; b] →
  ac_backoff (cn_self w) = ∅ → ac_unreach (cn_self w) = ∅ →
  last_key f k →
  (∀ w', (getStream w' b [k]).2 = [(k, rec)]) →
  ∃ s, rtc (fetch_step blake3 Jobs) (w, f) s ∧ fetch_over s.2 ∧ ft_out s.2 = ft_out f ++ [(k, None)] ∧ (getStream s.1 b [k]).2 = [(k, rec)].
Proof.
  intros HJ Hab Hv HR Ho Hbo Hun (Hi & Ha & Hj & Hr & Hre) Hb. set (w1 := handleErr w a NDeadline). set (w2 := handleErr w1 a NDeadline).
  destruct (failed_node w) as (V1 & N1 & U1 & B1 & P1). destruct (failed_node w1) as (V2 & N2 & U2 & B2 & P2). fold w1 in V1, N1, U1, B1, P1. fold w2 in V2, N2, U2, B2, P2.
  assert (cl_ReadOrder blake3 w k = [a; b]) as O0 by (rewrite (order_pair w v k Hv HR Ho); unfold penalty; by rewrite Hbo, Hun, !lookup_empty, !decide_False by set_solver).
  assert (∀ w' : W, ac_view (cn_self w') = ac_view (cn_self w) → ReadOrder (cl_placement blake3 w') k = [a; b]) as Hord by (intros w' Hw'; unfold cl_placement; by rewrite Hw').
  assert (penalty w1 b = 0%Z) as Pb1 by (unfold penalty; rewrite B1, U1, Hbo, Hun, lookup_empty, decide_False by (done || set_solver); done).
  assert (cl_ReadOrder blake3 w1 k = [b; a]) as O1.
  { rewrite (order_pair w1 v k) by (rewrite ?V1; done || by apply Hord). rewrite Pb1, (proj2 (Z.ltb_lt _ _)) by lia. done. }
  assert (length (cl_ReadOrder blake3 w2 k) = 2%nat) as O2.
  { rewrite (order_pair w2 v k) by (rewrite ?V2, ?V1; done || (apply Hord; by rewrite V2)). by destruct (_ <? _)%Z. }
  destruct f as [fi fa fj fr fo ff]. simpl in Hi, Ha, Hj, Hr, Hre. subst. set (f0 := MkFetcher [] ∅ [] [] fo true).
  assert (∀ n, MkFetchAcc (fa_keys (default (MkFetchAcc [] 0) ((∅ : gmap NodeID fetchAcc) !! a)) ++ [MkFetchKey k n]) (fa_bytes (default (MkFetchAcc [] 0) ((∅ : gmap NodeID fetchAcc) !! a)) + estSize k) =
    MkFetchAcc [MkFetchKey k n] (estSize k)) as Hacc by (intros n; by rewrite lookup_empty).
  assert (∀ w' n order, cl_ReadOrder blake3 w' k = order → order !! n = Some a → route blake3 w' f0 (MkFetchKey k n) = (w', f0 <| ft_acc := {[a := MkFetchAcc [MkFetchKey k n] (estSize k)]} |>)) as Hroute.
  { intros w' n order Eo En. unfold route. cbn [fk_key fk_attempt]. rewrite Eo. apply lookup_lt_Some in En as Hlt. rewrite andb_false_r. unfold queue_at. cbn [fk_key fk_attempt]. rewrite En.
    cbn [ft_acc f0]. rewrite Hacc. by rewrite insert_empty. }
  exists (w2, f0 <| ft_out := fo ++ [(k, None)] |>). split; [|by repeat split].
  assert (∀ w', fetch_step blake3 Jobs (w', MkFetcher [k] ∅ [] [] fo true) (route blake3 w' f0 (MkFetchKey k 0))) as S1 by (intros w'; exact (fs_in blake3 Jobs w' (MkFetcher [k] ∅ [] [] fo true) k [] eq_refl)).
  assert (∀ w' n, fetch_step blake3 Jobs (w', f0 <| ft_retry := [MkFetchKey k n] |>) (route blake3 w' f0 (MkFetchKey k n))) as S2
    by (intros w' n; exact (fs_retry blake3 Jobs w' (f0 <| ft_retry := [MkFetchKey k n] |>) (MkFetchKey k n) [] eq_refl)).
  eapply rtc_l; [apply S1|]. rewrite (Hroute w 0%nat [a; b]) by done. etrans; [by apply (failing_batch Jobs w f0 k 0)|]. fold w1.
  eapply rtc_l; [apply S2|]. rewrite (Hroute w1 1%nat [b; a]) by done. etrans; [by apply (failing_batch Jobs w1 f0 k 1)|]. fold w2.
  eapply rtc_l; [apply S2|]. unfold route. cbn [fk_key fk_attempt]. rewrite andb_false_r. unfold queue_at. cbn [fk_key fk_attempt].
  rewrite lookup_ge_None_2 by (rewrite O2; done). apply rtc_refl.
Qed.
End skipped.

(** * A small client *)

(** Nodes that have every object; one of them cannot be reached. *)
#[local] Instance toy_net (down : NodeID) : CNet access := {
  cn_self w := w;
  cn_set _ c := c;
  cn_now _ := 0%Z;
  cn_path _ _ := None;
  cn_call w _ _ := (w, inl NDeadline);
  cn_put w _ _ _ := (w, inl (XNoted NDeadline));
  cn_get w id m :=
    if decide (id = down) then (w, inl (XNoted NDeadline))
    else (w, inr ((λ k, MkRawRecord k 0 0 (arr_bytes k)) <$> remove_dups (arr_of 32 <$> m_Keys m), None));
}.

Definition toy_access : access := MkAccess (Some small_view) ∅ ∅ ∅ [].

Lemma toy_verify k : VerifyRecord (MkRawRecord k 0 0 (arr_bytes k)) = inr (k, arr_bytes k).
Proof.
  unfold VerifyRecord. pose proof (small_content k) as Hc. unfold is_content in Hc. cbn -[arr_of key_New] in *. cbn in Hc. cbn. rewrite Hc. by rewrite decide_True.
Qed.

Lemma toy_stream down (w : access) id keys : (getStream (H1 := toy_net down) w id keys).2 = if decide (id = down) then [] else (λ k, (k, arr_bytes k)) <$> remove_dups keys.
Proof.
  unfold getStream. simpl. case_decide; [done|]. assert (m_Keys (cl_stamp w (msg0 <| m_Type := TGet |> <| m_Keys := RawKeys keys |>)) = RawKeys keys) as -> by (unfold cl_stamp; by destruct (ac_view _)).
  simpl. assert (arr_of 32 <$> RawKeys keys = keys) as ->.
  { unfold RawKeys. rewrite <- list_fmap_compose. rewrite <- (list_fmap_id keys) at 2. apply list_fmap_ext. intros i k _. apply arr_of_bytes. }
  induction (remove_dups keys) as [|k ks IH]; [done|]. simpl. rewrite toy_verify. simpl. by f_equal.
Qed.

#[local] Instance toy_honest down : Honest (H1 := toy_net down).
Proof.
  intros w id keys w' recs E. apply (f_equal snd) in E. rewrite toy_stream in E. simpl in E. subst recs. case_decide; [split; [constructor|by intros x ?%not_elem_of_nil]|].
  rewrite <- list_fmap_compose. assert ((fst ∘ (λ k : key, (k, arr_bytes k))) <$> remove_dups keys = remove_dups keys) as -> by apply list_fmap_id. split; [apply NoDup_remove_dups|]. intros k. by rewrite elem_of_remove_dups.
Qed.

(** Two nodes, both owners of everything. *)
Definition toy_pair : View := toy_view [x01] [toy_node x01 5 "a"; toy_node x02 5 "b"] 2 None.
Definition toy_pair_access : access := MkAccess (Some toy_pair) ∅ ∅ ∅ [].
Definition toy_first : NodeID := toy_id x02.
Definition toy_second : NodeID := toy_id x01.

#[local] Instance toy_down : OneDown (H1 := toy_net toy_first) toy_blake3 access toy_first.
Proof. split; try done. Defined.

Definition toy_late : fetcher := MkFetcher [small_blob x05] ∅ [] [] [] true.

Lemma owner_skipped_witness : ∃ s : access * fetcher, ft_out s.2 = [(small_blob x05, None)] ∧
  (getStream (H1 := toy_net toy_first) s.1 toy_second [small_blob x05]).2 = [(small_blob x05, arr_bytes (small_blob x05))].
Proof.
  destruct (owner_skipped (H1 := toy_net toy_first) toy_blake3 toy_first toy_second 8 toy_pair_access toy_late (small_blob x05) toy_pair (arr_bytes (small_blob x05))) as (s & _ & _ & Ho & Hs).
  - lia.
  - by apply (bool_decide_unpack _); vm_compute.
  - reflexivity.
  - reflexivity.
  - vm_compute. reflexivity.
  - reflexivity.
  - reflexivity.
  - repeat split.
  - intros w'. rewrite toy_stream. rewrite decide_False by (by apply (bool_decide_unpack _); vm_compute). reflexivity.
  - exists s. split; [exact Ho|exact Hs].
Defined.

Lemma fetch_accounts_witness : ∃ s : access * fetcher, (ft_out s.2).*1 ≡ₚ [small_blob x05; small_blob x06].
Proof.
  set (keys := [small_blob x05; small_blob x06; small_blob x05]).
  set (s := fetch_run (H1 := toy_net toy_first) toy_blake3 20 (toy_pair_access, start_fetch keys)).
  exists s. assert (once keys = [small_blob x05; small_blob x06]) as <- by (vm_compute; reflexivity).
  apply (fetch_accounts (H1 := toy_net toy_first) toy_blake3 8 keys toy_pair_access s).
  - apply fetch_run_steps. lia.
  - assert ((ft_in s.2, ft_acc s.2, ft_jobs s.2, ft_retry s.2) = ([], ∅, [], [])) as E by (vm_compute; reflexivity).
    clearbody s. injection E as E1 E2 E3 E4. by repeat split.
Defined.

(** Both owners of a key hold it, in a view that asks for two. *)
Lemma Placed_iff_not_short_witness :
  let results := {[toy_id x01 := Some []; toy_id x02 := Some []; toy_id x03 := Some ([] : list key)]} in
  Placed (H1 := toy_net toy_first) toy_blake3 toy_access (small_blob x05) [toy_id x01; toy_id x02; toy_id x03] =
  negb (is_short (cl_placement (H1 := toy_net toy_first) toy_blake3 toy_access) 2 results (small_blob x05)).
Proof.
  intros results. apply (Placed_iff_not_short (H1 := toy_net toy_first) toy_blake3 toy_access small_view (small_blob x05) [toy_id x01; toy_id x02; toy_id x03] results); [reflexivity|].
  assert (Forall (λ o, o ∈ [toy_id x01; toy_id x02; toy_id x03] ∧ has_key_at results (small_blob x05) o = true)
    (WriteSet (cl_placement (H1 := toy_net toy_first) toy_blake3 toy_access) (small_blob x05))) as Hall by (apply (bool_decide_unpack _); vm_compute; exact I).
  intros o Ho. destruct (proj1 (Forall_forall _ _) Hall o Ho) as [Hin Hhas]. split; [intros _; exact Hhas|intros _; exact Hin].
Defined.

(** On the small network a client keeps its view. *)
Lemma toy_keeps_view down Jobs s s' : fetch_step (H1 := toy_net down) toy_blake3 Jobs s s' → ac_view s'.1 = ac_view s.1.
Proof.
  assert (∀ w f fk, ac_view (route (H1 := toy_net down) toy_blake3 w f fk).1 = ac_view w) as Hr.
  { intros w f fk. unfold route. destruct (_ && _); [|done]. unfold RefreshView, anyNode. simpl.
    match goal with |- context [any_loop w ?l ?x] => generalize l; generalize x end. intros m ids.
    assert (∀ ids w e, ac_view (any_loop (H1 := toy_net down) w ids m e).1 = ac_view w ∧ ∃ e', (any_loop (H1 := toy_net down) w ids m e).2 = inl e') as Hl.
    { clear. intros ids. induction ids as [|id ids IH]; intros w e; [split; [done|by exists e]|]. simpl. destruct (IH (handleErr (H1 := toy_net down) w id NDeadline) NDeadline) as [-> ?]. done. }
    destruct (Hl ids w (NErr "client: no nodes")) as [Hv [e' He]]. destruct (any_loop _ _ _ _) as [w1 r]. simpl in *. by subst. }
  intros Hs. destruct Hs as [w f k ks Hin|w f fk fks He|w f l job acc Hl _ Hp|w f l job l' Hj]; simpl; [apply Hr|apply Hr|done|].
  unfold fetch, getStream. simpl. by case_decide.
Qed.

Lemma fetch_ends_witness : ∃ n (s : access * fetcher), (0 < n)%nat ∧ nsteps (fetch_step (H1 := toy_net toy_first) toy_blake3 8) n (toy_pair_access, start_fetch [small_blob x05]) s ∧ (n ≤ 20)%nat.
Proof.
  set (s0 := (toy_pair_access, start_fetch [small_blob x05])). destruct (fetch_progress (H1 := toy_net toy_first) toy_blake3 8 s0) as [[E _]|[s Hs]]; [lia| |].
  - assert (ft_in s0.2 = [small_blob x05]) as E' by (vm_compute; reflexivity). rewrite E' in E. discriminate E.
  - exists 1%nat, s. assert (nsteps (fetch_step (H1 := toy_net toy_first) toy_blake3 8) 1 s0 s) as Hn by (by apply nsteps_once).
    split; [lia|]. split; [exact Hn|]. refine (proj1 (fetch_ends (H1 := toy_net toy_first) toy_blake3 8 2 [small_blob x05] toy_pair_access 1 s _ _ Hn)); [lia|].
    assert (view_size toy_pair ≤ 2)%nat as Hz by (vm_compute; lia). clear -Hz.
    intros s1 Hs1. change (view_size (default view0 (ac_view s1.1)) ≤ 2)%nat. assert (ac_view s1.1 = Some toy_pair) as ->; [|exact Hz]. remember (toy_pair_access, start_fetch [small_blob x05]) as s0 eqn:E0.
    assert (ac_view s0.1 = Some toy_pair) as H0' by (by rewrite E0). clear E0. induction Hs1 as [|a b c Hab _ IH]; [done|]. apply IH. by rewrite (toy_keeps_view _ _ _ _ Hab).
Defined.
