(* ===== verification/Tree.v ===== *)
(** The upload and download of whole trees (src/client/tree.go).

    [Push] runs over the negotiation and upload of Fetch.v.  [PullTree] shares the
    fetcher of Fetch.v with its goroutines and a writer of its own: its state is a
    step relation over the three.  The local pack store and the traversals of
    amber-store/core are parameters.  Progress output is left out. *)
From S2P Require Import Prelude Store Placement View Wire Ballot Proposer Catalog Meta Mark Pins GC Client Data Gate Fetch.

Local Open Scope N_scope.

(** * Upload *)

Record PushStats := MkPushStats { st_Keys : nat; st_Uploaded : nat; st_Version : bytes }.

Inductive push_err := PuText (s : string) | PuRef (e : client_error).

Record pushConfig := MkPushConfig {
  pc_BatchBytes : Z;
  pc_GCInterval : Z;
  pc_ended : bool;          (* the context has ended *)
  pc_seen : nat → bool;     (* whether a batch that is due sees an earlier error *)
}.

Notation holder_map := (gmap key (list NodeID)).

Section push.
Context (blake3 : bytes → nat → bytes) `{Core} `{Codec View} {W : Type} `{CNet W} {P : Type} `{PackStore P}.
Context (ReachableKeys : P → key → string + list key) (StoredSize : P → key → string + option Z) (ref_encode : Reference → string + bytes).
Context (cfg : pushConfig) (fuel : nat).
Implicit Types w : W.

Definition storedSizer (local : P) (k : key) : Z :=
  match StoredSize local k with
  | inr (Some n) => Z.of_nat RecHeaderSize + n
  | _ => i64 (Z.of_N (key_Length k))
  end.

Definition record_source (local : P) (k : key) : option bytes :=
  match ps_GetRecord local k with inl _ => None | inr rec => Some rec end.

(** [mergeIDs]: each id once, at its first place. *)
Definition mergeIDs (a b : list NodeID) : list NodeID := fold_left (λ out id, if decide (id ∈ out) then out else out ++ [id]) (a ++ b) [].

Definition probeHinted w : W :=
  fold_left (λ w id, fst (cl_call w id (msg0 <| m_Type := TView |>))) (elements (ac_unreach (cn_self w))) w.

(** The owners of a key that are not among its holders. *)
Definition lacking_owners w (holders : holder_map) (k : key) : list NodeID :=
  filter (λ o, o ∉ default [] (holders !! k)) (WriteSet (cl_placement blake3 w) k).

Definition fill_groups w (short : list key) (holders : holder_map) : gmap NodeID (list key) :=
  fold_left (λ m k, fold_left (λ m o, <[o := default [] (m !! o) ++ [k]]> m) (lacking_owners w holders k) m) short ∅.

Definition upload (local : P) w (byPrimary : gmap NodeID (list key)) : W * PutResult :=
  cl_Put (pc_seen cfg) (storedSizer local) (pc_BatchBytes cfg) w byPrimary (record_source local).

Definition directFill (local : P) w (short : list key) (holders : holder_map) : W * holder_map :=
  let byOwner := fill_groups w short holders in
  if decide (byOwner = ∅) then (w, holders)
  else
    let '(w, pr) := upload local w byOwner in
    (w, map_fold (λ k h m, <[k := mergeIDs (default [] (holders !! k)) h]> m) holders (pr_Holders pr)).

(** [shortError]: how many keys each owner does not confirm. *)
Definition shortError w (short : list key) (holders : holder_map) : gmap NodeID nat :=
  fold_left (λ m k, fold_left (λ m o, <[o := S (default 0%nat (m !! o))]> m) (lacking_owners w holders k) m) short ∅.

Definition not_placed w (holders : holder_map) (all : list key) : list key :=
  filter (λ k, Placed blake3 w k (default [] (holders !! k)) = false) all.

(** A round: negotiate, upload, and what is short then.  Holders reported later
    replace those known before. *)
Definition push_round (local : P) w (all : list key) (holders : holder_map) (uploaded : nat) : option (W * holder_map * nat * (push_err + list key)) :=
  '(w, mr) ← Missing blake3 fuel true (pc_ended cfg) w all;
  let holders := mr_Holders mr ∪ holders in
  Some (if decide (mr_Failed mr = ∅) then
    if decide (mr_Lacking mr = ∅) then (w, holders, uploaded, inr (not_placed w holders all))
    else
      let '(w, pr) := upload local w (mr_Lacking mr) in
      let uploaded := (uploaded + length (filter (λ k, holders !! k = None) (elements (dom (pr_Holders pr)))))%nat in
      let holders := pr_Holders pr ∪ holders in
      if decide (pr_Rejected pr = ∅) then (w, holders, uploaded, inr (not_placed w holders all))
      else (w, holders, uploaded, inl (PuText "record rejected"))
  else (w, holders, uploaded, inl (PuText "negotiate at its primary"))).

(** The rounds that are left, three at first; [lastPin] is when the keys were pinned
    last.  The second round ends by filling the owners that lack a key. *)
Fixpoint push_rounds (rounds : nat) (local : P) w (all : list key) (holders : holder_map) (uploaded : nat) (lastPin : Z) : option (W * holder_map * nat * option push_err) :=
  match rounds with
  | O => Some (w, holders, uploaded, None)
  | S rounds' =>
      '(w, holders, uploaded, r) ← push_round local w all holders uploaded;
      match r with
      | inl e => Some (w, holders, uploaded, Some e)
      | inr [] => Some (w, holders, uploaded, None)
      | inr short =>
          if bool_decide (rounds = 1%nat) then Some (w, holders, uploaded, Some (PuText "push: keys could not be placed"))
          else
            let '(w, holders) := if bool_decide (rounds = 2%nat) then directFill local w short holders else (w, holders) in
            if (pc_GCInterval cfg / 2 <? cn_now w - lastPin)%Z then
              '(w, _) ← Missing blake3 fuel true (pc_ended cfg) w all;
              push_rounds rounds' local w all holders uploaded (cn_now w)
            else push_rounds rounds' local w all holders uploaded lastPin
      end
  end.

(** ** The reference *)

(** An error of [anyNode] as the reference operations read it: only a reply of the
    node has a code. *)
Definition as_wire (e : net_err) : wire_error := match e with NWire e => e | _ => ErrDecode (err_text e) end.
Definition any_wire w (m : Msg) : W * (wire_error + Msg) := match anyNode w m with (w, inl e) => (w, inl (as_wire e)) | (w, inr r) => (w, inr r) end.

(** After an incomplete write: negotiate again and send what is missing anywhere. *)
Definition renegotiate (local : P) w (all : list key) : option W :=
  '(w, mr) ← Missing blake3 fuel true (pc_ended cfg) w all;
  let w := if decide (mr_Lacking mr = ∅) then w else fst (upload local w (mr_Lacking mr)) in
  let short := filter (λ k, match mr_Holders mr !! k with Some h => Placed blake3 w k h | None => false end = false) all in
  Some match short with [] => w | _ :: _ => fst (directFill local w short (mr_Holders mr)) end.

(** [more] attempts after this one. *)
Fixpoint ref_attempts (more : nat) (local : P) w (all : list key) (enc : bytes) (cond : Cond) : option (W * (client_error + bytes)) :=
  match RefPut any_wire w enc cond, more with
  | (w, inr version), _ => Some (w, inr version)
  | (w, inl (ErrIncomplete _ _ as e)), S more => w ← renegotiate local w all; ref_attempts more local w all enc cond
  | (w, inl e), _ => Some (w, inl e)
  end.

Definition Push (local : P) w (root : key) (name user : string) (cond : Cond) : option (W * PushStats * option push_err) :=
  match ReachableKeys local root with
  | inl e => Some (w, MkPushStats 0 0 [], Some (PuText ("walk local tree: " +:+ e)))
  | inr all =>
      let start := cn_now w in
      '(w, _, uploaded, r) ← push_rounds 3 local (probeHinted w) all ∅ 0 start;
      match r with
      | Some e => Some (w, MkPushStats (length all) 0 [], Some e)
      | None =>
          match ref_encode (MkReference name (arr_bytes root) (cn_now w) user) with
          | inl e => Some (w, MkPushStats (length all) uploaded [], Some (PuText e))
          | inr enc =>
              '(w, r) ← ref_attempts 2 local w all enc cond;
              Some match r with
              | inl e => (w, MkPushStats (length all) uploaded [], Some (PuRef e))
              | inr version => (w, MkPushStats (length all) uploaded version, None)
              end
          end
      end
  end.
End push.

(** * Download *)

(** ** The local writer *)

Definition pullWriteBytes : Z := Z.shiftl 16 20.

(** [lw_ch] is the channel to the writing goroutine, without its bound of one batch. *)
Record localWriter (P : Type) := MkLocalWriter {
  lw_local : P;
  lw_batch : list (key * bytes);
  lw_bytes : Z;
  lw_ch : list (list (key * bytes));   (* batches the goroutine has not written *)
  lw_err : option string;              (* set when [failed] is closed *)
  lw_closed : bool;
}.
Arguments MkLocalWriter {P}.
Arguments lw_local {P}.
Arguments lw_batch {P}.
Arguments lw_bytes {P}.
Arguments lw_ch {P}.
Arguments lw_err {P}.
Arguments lw_closed {P}.

#[global] Instance localWriter_eta {P} : Eta (localWriter P) := λ r,
  MkLocalWriter (lw_local r) (lw_batch r) (lw_bytes r) (lw_ch r) (lw_err r) (lw_closed r).

Section writer.
Context {P : Type} `{PackStore P}.
Implicit Types lw : localWriter P.

Definition newLocalWriter (local : P) : localWriter P := MkLocalWriter local [] 0 [] None false.

(** A turn of the goroutine. *)
Definition lw_run lw (objs : list (key * bytes)) : localWriter P :=
  match lw_err lw with
  | Some _ => lw
  | None => let '(local, e) := ps_WriteParallel (lw_local lw) objs in lw <| lw_local := local |> <| lw_err := e |>
  end.

(** [flush]; when the writer has failed and the channel has room as well, either case
    of the select may be taken: [late] takes the error. *)
Definition lw_flush (late : bool) lw : localWriter P * option string :=
  match lw_batch lw with
  | [] => (lw, None)
  | objs =>
      let lw := lw <| lw_batch := [] |> <| lw_bytes := 0%Z |> in
      match lw_err lw, late with
      | Some e, true => (lw, Some e)
      | _, _ => (lw <| lw_ch := lw_ch lw ++ [objs] |>, None)
      end
  end.

Definition lw_write (late : bool) lw (o : key * bytes) : localWriter P * option string :=
  let lw := lw <| lw_batch := lw_batch lw ++ [o] |> <| lw_bytes := (lw_bytes lw + Z.of_nat (length o.2))%Z |> in
  if (lw_bytes lw <? pullWriteBytes)%Z then (lw, None) else lw_flush late lw.

(** The channel is closed and the goroutine writes what is in it. *)
Definition lw_drain lw : localWriter P := fold_left lw_run (lw_ch lw) (lw <| lw_ch := [] |>).

Definition lw_close (late : bool) lw : localWriter P * option string :=
  if lw_closed lw then (lw, lw_err lw)
  else
    let '(lw, e) := lw_flush late (lw <| lw_closed := true |>) in
    let lw := lw_drain lw in
    (lw, match e with Some e => Some e | None => lw_err lw end).

Definition lw_stop lw : localWriter P := if lw_closed lw then lw else lw_drain (lw <| lw_closed := true |>).
End writer.

(** ** The walk *)

Record puller (P : Type) := MkPuller {
  pu_writer : localWriter P;
  pu_seen : gset key;
  pu_queue : list key;
  pu_pending : nat;
  pu_keys : nat;
  pu_fetched : nat;
  pu_bytes : Z;
}.
Arguments MkPuller {P}.
Arguments pu_writer {P}.
Arguments pu_seen {P}.
Arguments pu_queue {P}.
Arguments pu_pending {P}.
Arguments pu_keys {P}.
Arguments pu_fetched {P}.
Arguments pu_bytes {P}.

#[global] Instance puller_eta {P} : Eta (puller P) := λ r,
  MkPuller (pu_writer r) (pu_seen r) (pu_queue r) (pu_pending r) (pu_keys r) (pu_fetched r) (pu_bytes r).

Section pull.
Context (blake3 : bytes → nat → bytes) `{Core} `{Codec View} {W : Type} `{CNet W} {P : Type} `{PackStore P}.
Context (CheckComplete : P → key → option string).   (* fstree.CheckComplete over the store: its error *)
Implicit Types p : puller P.

Definition enqueue p (k : key) : puller P :=
  p <| pu_queue := pu_queue p ++ [k] |> <| pu_pending := S (pu_pending p) |> <| pu_keys := S (pu_keys p) |>.

Definition local_kids (local : P) (k : key) : option (list key) :=
  match ps_Get local k with
  | inl _ => None
  | inr data => match ChildKeys_of k data with inl _ => None | inr kids => Some kids end
  end.

(** The calls of [want] for the children, up to the first error. *)
Fixpoint each_kid (f : puller P → key → option (string + puller P)) p (kids : list key) : option (string + puller P) :=
  match kids with
  | [] => Some (inr p)
  | kid :: kids =>
      r ← f p kid;
      match r with inl e => Some (inl e) | inr p => each_kid f p kids end
  end.

(** [want]; one of fuel for each level it expands locally. *)
Fixpoint want (fuel : nat) p (k : key) : option (string + puller P) :=
  match fuel with
  | O => None
  | S fuel =>
      if decide (k ∈ pu_seen p) then Some (inr p)
      else
        let p := p <| pu_seen := {[k]} ∪ pu_seen p |> in
        let local := lw_local (pu_writer p) in
        match ps_Has local k with
        | inl e => Some (inl e)
        | inr false => Some (inr (enqueue p k))
        | inr true =>
            if is_leaf k then Some (inr p)
            else match CheckComplete local k with
            | None => Some (inr p)
            | Some _ =>
                match local_kids local k with
                | Some kids => each_kid (want fuel) p kids
                | None => Some (inr (enqueue p k))
                end
            end
        end
  end.

(** The children a fetched record names. *)
Definition record_kids (k : key) (rec : bytes) : string + list key :=
  if is_leaf k then inr []
  else match ParseRecord rec with
  | inl e => inl e
  | inr r =>
      match DecodePayload (raw_Flags r) (raw_Ulen r) (drop RecHeaderSize rec) with
      | inl e => inl e
      | inr data => ChildKeys_of k data
      end
  end.

(** An outcome of the fetcher. *)
Definition receive (fuel : nat) (late : bool) p (k : key) (r : option bytes) : option (string + puller P) :=
  match r with
  | None => Some (inl "pull: object not found in the cluster"%string)
  | Some rec =>
      let '(lw, e) := lw_write late (pu_writer p) (k, rec) in
      match e with
      | Some e => Some (inl e)
      | None =>
          let p := p <| pu_writer := lw |> <| pu_fetched := S (pu_fetched p) |> <| pu_bytes := (pu_bytes p + Z.of_nat (length rec))%Z |> in
          match record_kids k rec with
          | inl e => Some (inl e)
          | inr kids =>
              r ← each_kid (want fuel) p kids;
              match r with
              | inl e => Some (inl e)
              | inr p => Some (inr (p <| pu_pending := pred (pu_pending p) |>))
              end
          end
      end
  end.

(** How a pull ends: the store and the error. *)
Inductive pull_out := Pulling (s : W * fetcher * puller P) | Pulled (local : P) (e : option string).

(** [PullTree] after its loop. *)
Definition finish_pull (late : bool) p (root : key) : pull_out :=
  let '(lw, e) := lw_close late (pu_writer p) in
  Pulled (lw_local lw) match e with
  | Some e => Some e
  | None => match CheckComplete (lw_local lw) root with None => None | Some e => Some ("pull: tree incomplete after fetch: " +:+ e)%string end
  end.

(** The steps of a pull: a key goes to the fetcher, the fetcher moves, an outcome
    comes back, the writer's goroutine writes a batch, the writer has failed, the
    context ends, the loop is over. *)
Inductive pull_step (Jobs fuel : nat) (root : key) : W * fetcher * puller P → pull_out → Prop :=
  | pl_send w f p k q : (0 < pu_pending p)%nat → pu_queue p = k :: q →
      pull_step Jobs fuel root (w, f, p) (Pulling (w, f <| ft_in := ft_in f ++ [k] |>, p <| pu_queue := q |>))
  | pl_fetch w f p w' f' : fetch_step blake3 Jobs (w, f) (w', f') →
      pull_step Jobs fuel root (w, f, p) (Pulling (w', f', p))
  | pl_recv w f p k r out late res : (0 < pu_pending p)%nat → ft_out f = (k, r) :: out → receive fuel late p k r = Some res →
      pull_step Jobs fuel root (w, f, p)
        (match res with
         | inl e => Pulled (lw_local (lw_stop (pu_writer p))) (Some e)
         | inr p' => Pulling (w, f <| ft_out := out |>, p')
         end)
  | pl_write w f p objs ch : lw_ch (pu_writer p) = objs :: ch →
      pull_step Jobs fuel root (w, f, p) (Pulling (w, f, p <| pu_writer := lw_run (pu_writer p <| lw_ch := ch |>) objs |>))
  | pl_failed w f p e : (0 < pu_pending p)%nat → lw_err (pu_writer p) = Some e →
      pull_step Jobs fuel root (w, f, p) (Pulled (lw_local (pu_writer p)) (Some e))
  | pl_cancel w f p : (0 < pu_pending p)%nat →
      pull_step Jobs fuel root (w, f, p) (Pulled (lw_local (lw_stop (pu_writer p))) (Some "context canceled"%string))
  | pl_done w f p late : pu_pending p = 0%nat → pull_step Jobs fuel root (w, f, p) (finish_pull late p root).

(** [PullTree] before its loop. *)
Definition start_pull (local : P) : puller P := MkPuller (newLocalWriter local) ∅ [] 0 0 0 0.
Definition begin_pull (fuel : nat) (local : P) (root : key) : option (string + puller P) := want fuel (start_pull local) root.

(** [Pull], up to the tree. *)
Definition pull_root (ref_decode : bytes → string + Reference) (w : W) (name : string) : W * (client_error + (key * bytes * bytes)) :=
  match RefGet any_wire ref_decode w name with
  | (w, inl e) => (w, inl e)
  | (w, inr r) =>
      match key_Parse (Gate.ref_Key (ref_Ref r)) with
      | Some e => (w, inl (ErrText e))
      | None => (w, inr (arr_of 32 (Gate.ref_Key (ref_Ref r)), ref_Record r, ref_Version r))
      end
  end.

(** One way to run the loop: outcomes first, then keys to send, the fetcher, the
    writer. *)
Definition pull_next (fuel : nat) (root : key) (s : W * fetcher * puller P) : option pull_out :=
  let '(w, f, p) := s in
  match pu_pending p, ft_out f, pu_queue p with
  | O, _, _ => Some (finish_pull true p root)
  | S _, (k, r) :: out, _ =>
      res ← receive fuel true p k r;
      Some match res with
      | inl e => Pulled (lw_local (lw_stop (pu_writer p))) (Some e)
      | inr p' => Pulling (w, f <| ft_out := out |>, p')
      end
  | S _, [], k :: q => Some (Pulling (w, f <| ft_in := ft_in f ++ [k] |>, p <| pu_queue := q |>))
  | S _, [], [] => '(w', f') ← fetch_next blake3 (w, f); Some (Pulling (w', f', p))
  end.

Fixpoint pull_run (n fuel : nat) (root : key) (s : W * fetcher * puller P) : option pull_out :=
  match n with
  | O => Some (Pulling s)
  | S n => o ← pull_next fuel root s; match o with Pulling s => pull_run n fuel root s | o => Some o end
  end.
End pull.
