(* ===== verification/TreeSafety.v ===== *)
(** Whole trees: a pull brings everything under its root into the local store and
    ends; a push writes the reference only after every object was acknowledged. *)
From S2P Require Import Prelude Store Placement View Wire Ballot Proposer Catalog Meta Mark Pins GC Client Data DataSafety NodeNet Gate GateSafety Fetch FetchSafety Tree.

Local Open Scope N_scope.

(** Everything below a key. *)
Notation reaches := (under (λ _ : key, false)).

Lemma reaches_trans `{Core} a b c : reaches a b → reaches b c → reaches a c.
Proof. intros Hab Hbc. induction Hbc as [|k d kids c Hk IH Hl Hca Hd Hkids Hc]; [done|]. by eapply under_child. Qed.

(** What a pull relies on: the check of a tree finds what is missing below a key, and
    the records of a stream read as they were framed. *)
Class CheckOK {P : Type} `{Core} `{PackStore P} `{!PackStoreOK P} (CheckComplete : P → key → option string) : Prop :=
  check_complete s k : CheckComplete s k = None → ∀ c, reaches k c → c ∈ ps_keys s.

Class Framed {W : Type} `{Core} `{CNet W} : Prop :=
  get_framed (w : W) id m w' raws broke raw r : cn_get w id m = (w', inr (raws, broke)) → raw ∈ raws → ParseRecord (raw_Bytes raw) = inr r →
    raw_Flags r = raw_Flags raw ∧ raw_Ulen r = raw_Ulen raw.

Section pull.
Context (blake3 : bytes → nat → bytes) `{Core} `{!CoreOK} `{Codec View} {W : Type} `{CNet W} `{!Honest} `{!Framed}.
Context {P : Type} `{PackStore P} `{!PackStoreOK P} (CheckComplete : P → key → option string) `{!CheckOK CheckComplete}.
Implicit Types p : puller P.
Implicit Types lw : localWriter P.

(** ** The writer *)

(** What is in the store or on its way into it. *)
Definition avail lw : gset key := ps_keys (lw_local lw) ∪ list_to_set (lw_batch lw).*1 ∪ list_to_set (concat (lw_ch lw)).*1.

Lemma lw_run_avail lw objs ch : lw_ch lw = objs :: ch → lw_err (lw_run (lw <| lw_ch := ch |>) objs) = None →
  lw_err lw = None ∧ avail lw ⊆ avail (lw_run (lw <| lw_ch := ch |>) objs).
Proof.
  intros Hch. unfold lw_run. simpl. destruct (lw_err lw) eqn:Ee; [simpl; congruence|]. destruct (ps_WriteParallel (lw_local lw) objs) as [local e] eqn:Ew. simpl. intros ->.
  split; [done|]. unfold avail. simpl. rewrite Hch, (ps_Write_ok _ _ _ Ew). simpl. rewrite fmap_app, list_to_set_app_L. set_solver.
Qed.

Lemma lw_write_avail late lw o lw' : lw_write late lw o = (lw', None) → lw_err lw' = lw_err lw ∧ lw_local lw' = lw_local lw ∧ avail lw' = {[o.1]} ∪ avail lw.
Proof.
  unfold lw_write, lw_flush. simpl. destruct (_ <? _)%Z; [intros [= <-]; simpl; split; [done|]; split; [done|]; unfold avail; simpl; rewrite fmap_app, list_to_set_app_L; simpl; set_solver|].
  destruct (lw_batch lw ++ [o]) as [|x l] eqn:Eb; [by destruct (lw_batch lw)|]. assert (∀ lw', lw' = lw <| lw_ch := lw_ch lw ++ [x :: l] |> <| lw_batch := [] |> <| lw_bytes := 0%Z |> →
    lw_err lw' = lw_err lw ∧ lw_local lw' = lw_local lw ∧ avail lw' = {[o.1]} ∪ avail lw) as Hq.
  { intros ? ->. split; [done|]. split; [done|]. unfold avail. simpl. rewrite <- Eb, concat_app. simpl. rewrite app_nil_r, !fmap_app, !list_to_set_app_L. simpl. set_solver. }
  destruct (lw_err lw) eqn:Ee; [destruct late; [done|]|]; intros [= <-]; apply Hq; simpl; by rewrite Ee.
Qed.

Lemma lw_drain_avail lw : lw_err (lw_drain lw) = None → avail lw ⊆ avail (lw_drain lw) ∧ lw_ch (lw_drain lw) = [] ∧ lw_batch (lw_drain lw) = lw_batch lw.
Proof.
  unfold lw_drain. assert (∀ l lw, lw_ch lw = [] → lw_err (fold_left lw_run l lw) = None → lw_err lw = None ∧ avail (lw <| lw_ch := l |>) ⊆ avail (fold_left lw_run l lw) ∧
    lw_ch (fold_left lw_run l lw) = [] ∧ lw_batch (fold_left lw_run l lw) = lw_batch lw) as Hl.
  { intros l. induction l as [|objs l IH]; intros lw1 Hc He; simpl in *; [split; [done|]; by destruct lw1; simpl in *; subst|].
    assert (lw_ch (lw_run lw1 objs) = [] ∧ lw_batch (lw_run lw1 objs) = lw_batch lw1) as [Hc' Hb'].
    { unfold lw_run. destruct (lw_err lw1); [done|]. by destruct (ps_WriteParallel _ _). }
    destruct (IH _ Hc' He) as (He' & Ha & Hch & Hb).
    assert (lw_run (lw1 <| lw_ch := objs :: l |> <| lw_ch := l |>) objs = lw_run lw1 objs <| lw_ch := l |>) as E by (clear; destruct lw1 as [s1 b1 z1 c1 [e1|] d1]; unfold lw_run; simpl; [done|]; by destruct (ps_WriteParallel _ _)).
    assert (lw_err (lw_run lw1 objs <| lw_ch := l |>) = None → lw_err lw1 = None ∧ avail (lw1 <| lw_ch := objs :: l |>) ⊆ avail (lw_run lw1 objs <| lw_ch := l |>)) as Hr
      by (rewrite <- E; exact (lw_run_avail (lw1 <| lw_ch := objs :: l |>) objs l eq_refl)).
    destruct (Hr He') as [? Hs]. split; [done|]. split; [by etrans|]. split; [done|by rewrite Hb]. }
  intros He. destruct (Hl (lw_ch lw) (lw <| lw_ch := [] |>) ltac:(done) He) as (_ & Ha & Hc & Hb). split; [|done]. by destruct lw.
Qed.

Lemma lw_close_avail late lw lw' : lw_closed lw = false → lw_close late lw = (lw', None) → lw_err lw = None ∧ avail lw ⊆ ps_keys (lw_local lw').
Proof.
  intros Hcl. unfold lw_close. rewrite Hcl. destruct (lw_flush late (lw <| lw_closed := true |>)) as [lw1 e] eqn:Ef. intros [= <- He]. destruct e; [done|].
  assert (lw_batch lw1 = [] ∧ avail lw1 = avail lw ∧ lw_err lw1 = lw_err lw) as (Hb & Ha & Hr).
  { unfold lw_flush in Ef. simpl in Ef. destruct (lw_batch lw) as [|x l] eqn:Eb; [injection Ef as <-; split; [done|]; unfold avail; simpl; by rewrite Eb|].
    destruct (lw_err lw) eqn:Ee; [destruct late; [done|]|]; injection Ef as <-; simpl; (split; [done|]); (split; [|done]); unfold avail; simpl;
      rewrite Eb, concat_app, fmap_app, list_to_set_app_L; simpl; rewrite app_nil_r; set_solver. }
  destruct (lw_drain_avail lw1 He) as (Hs & Hc & Hb'). split.
  - rewrite <- Hr. clear -He. unfold lw_drain in He. destruct (lw_err lw1) as [e|] eqn:Ee; [|done]. exfalso.
    assert (∀ l lw2, lw_err lw2 = Some e → lw_err (fold_left lw_run l lw2) = Some e) as Hl by (intros l; induction l as [|o l IH]; intros lw2 E2; simpl; [done|]; apply IH; unfold lw_run; by rewrite E2).
    rewrite (Hl _ (lw1 <| lw_ch := [] |>)) in He by done. done.
  - rewrite <- Ha. etrans; [exact Hs|]. unfold avail. rewrite Hc, Hb', Hb. simpl. set_solver.
Qed.

(** ** The walk *)

(** A key that was looked at is complete in the store, under way, or will be in the
    store with its children looked at. *)
Definition accounted lw (seen : gset key) (flight : list key) (k : key) : Prop :=
  (∀ c, reaches k c → c ∈ avail lw) ∨ k ∈ flight ∨
  (k ∈ avail lw ∧ (is_leaf k = true ∨ ∃ d kids, is_content k d ∧ ChildKeys_of k d = inr kids ∧ ∀ c, c ∈ kids → c ∈ seen)).

Lemma accounted_mono lw lw' seen seen' flight flight' k : avail lw ⊆ avail lw' → seen ⊆ seen' → (∀ x, x ∈ flight → x ∈ flight' ∨ accounted lw' seen' flight' x) →
  accounted lw seen flight k → accounted lw' seen' flight' k.
Proof.
  intros Ha Hs Hf [Hc|[Hk|[Hk Hl]]]; [left; intros c Hr; by apply Ha, Hc| |].
  - destruct (Hf k Hk); [right; by left|done].
  - right. right. split; [by apply Ha|]. destruct Hl as [?|(d & kids & ? & ? & Hkids)]; [by left|]. right. exists d, kids. split; [done|]. split; [done|]. intros c Hck. by apply Hs, Hkids.
Qed.

(** What [want] does to the state. *)
Record grown p p' : Prop := {
  gr_writer : pu_writer p' = pu_writer p;
  gr_seen : pu_seen p ⊆ pu_seen p';
  gr_new : ∃ new, pu_queue p' = pu_queue p ++ new ∧ pu_pending p' = (pu_pending p + length new)%nat ∧ NoDup new ∧ ∀ k, k ∈ new → k ∈ pu_seen p' ∧ k ∉ pu_seen p;
  gr_acc x : x ∈ pu_seen p' → x ∉ pu_seen p → accounted (pu_writer p') (pu_seen p') (pu_queue p') x;
}.

Lemma grown_refl p : grown p p.
Proof. split; [done|done| |done]. exists []. rewrite app_nil_r, Nat.add_0_r. split; [done|]. split; [done|]. split; [constructor|]. by intros k ?%not_elem_of_nil. Qed.

Lemma grown_trans p1 p2 p3 : grown p1 p2 → grown p2 p3 → grown p1 p3.
Proof.
  intros [W1 S1 (n1 & Q1 & P1 & D1 & F1) A1] [W2 S2 (n2 & Q2 & P2 & D2 & F2) A2]. split; [congruence|set_solver| |].
  - exists (n1 ++ n2). rewrite Q2, Q1, app_assoc, P2, P1, length_app. split; [done|]. split; [lia|]. split.
    + apply NoDup_app. split; [done|]. split; [|done]. intros k Hk1 Hk2. destruct (F1 k Hk1), (F2 k Hk2). done.
    + intros k [Hk|Hk]%elem_of_app; [destruct (F1 k Hk); set_solver|destruct (F2 k Hk); set_solver].
  - intros x Hx Hn. destruct (decide (x ∈ pu_seen p2)) as [H2'|H2']; [|by apply A2]. eapply accounted_mono; [| | |by apply A1]; [by rewrite W2|done|].
    intros y Hy. left. rewrite Q2. apply elem_of_app. by left.
Qed.

Lemma each_kid_grown g kids : (∀ p k p', g p k = Some (inr p') → grown p p' ∧ k ∈ pu_seen p') →
  ∀ p p', each_kid g p kids = Some (inr p') → grown p p' ∧ ∀ k, k ∈ kids → k ∈ pu_seen p'.
Proof.
  intros Hg. induction kids as [|kid kids IH]; intros p p'; simpl; [intros [= <-]; split; [apply grown_refl|by intros k ?%not_elem_of_nil]|].
  destruct (g p kid) as [[e|p1]|] eqn:Eg; simpl; [done| |done]. intros Hk. destruct (Hg _ _ _ Eg) as [G1 S1]. destruct (IH _ _ Hk) as [G2 S2].
  split; [by eapply grown_trans|]. intros k [->|?]%elem_of_cons; [by apply (gr_seen _ _ G2)|by apply S2].
Qed.

(** A key that is newly looked at, with the state after its own handling. *)
Lemma grown_look p p' k : k ∉ pu_seen p → grown (p <| pu_seen := {[k]} ∪ pu_seen p |>) p' → accounted (pu_writer p') (pu_seen p') (pu_queue p') k → grown p p' ∧ k ∈ pu_seen p'.
Proof.
  intros Hk [W1 S1 (n1 & Q1 & P1 & D1 & F1) A1] Ha. simpl in *. split; [|set_solver]. split; [done|set_solver| |].
  - exists n1. split; [done|]. split; [done|]. split; [done|]. intros x Hx. destruct (F1 x Hx). set_solver.
  - intros x Hx Hn. destruct (decide (x = k)) as [->|]; [done|]. apply A1; set_solver.
Qed.

Lemma enqueue_grown p k : k ∉ pu_seen p → grown p (enqueue (p <| pu_seen := {[k]} ∪ pu_seen p |>) k) ∧ k ∈ pu_seen (enqueue (p <| pu_seen := {[k]} ∪ pu_seen p |>) k).
Proof.
  intros Hk. unfold enqueue. simpl. split; [|set_solver]. split; simpl; [done|set_solver| |].
  - exists [k]. split; [done|]. split; [simpl; lia|]. split; [apply NoDup_singleton|]. intros x ->%list_elem_of_singleton. set_solver.
  - intros x Hx Hn. assert (x = k) as -> by set_solver. right. left. apply elem_of_app. right. by left.
Qed.

Lemma want_grown fuel p k p' : want CheckComplete fuel p k = Some (inr p') → grown p p' ∧ k ∈ pu_seen p'.
Proof.
  revert p k p'. induction fuel as [|fuel IH]; intros p k p'; [done|]. cbn [want]. case_decide as Hk; [intros [= <-]; split; [apply grown_refl|done]|].
  set (p1 := p <| pu_seen := {[k]} ∪ pu_seen p |>). assert (lw_local (pu_writer p1) = lw_local (pu_writer p)) as -> by done.
  destruct (ps_Has _ k) as [e|[|]] eqn:Eh; [done| |intros [= <-]; by apply enqueue_grown].
  pose proof (ps_Has_ok _ _ _ Eh) as Hh. symmetry in Hh. apply bool_decide_eq_true in Hh.
  assert (k ∈ avail (pu_writer p)) as Hav by (unfold avail; set_solver).
  destruct (is_leaf k) eqn:El; [intros [= <-]; apply grown_look; [done|apply grown_refl|]; right; right; split; [done|by left]|].
  destruct (CheckComplete _ k) as [e|] eqn:Ec.
  2: { intros [= <-]. apply grown_look; [done|apply grown_refl|]. left. intros c Hc. unfold avail. simpl. rewrite !elem_of_union. left. left. by eapply check_complete. }
  unfold local_kids. destruct (ps_Get _ k) as [e1|d] eqn:Eg; [intros [= <-]; by apply enqueue_grown|].
  destruct (ChildKeys_of k d) as [e1|kids] eqn:Ek; [intros [= <-]; by apply enqueue_grown|].
  intros Hw. destruct (each_kid_grown (want CheckComplete fuel) kids IH p1 p' Hw) as [G S]. apply grown_look; [done|done|].
  right. right. rewrite (gr_writer _ _ G). split; [done|]. right. exists d, kids. split; [by eapply ps_Get_ok|done].
Qed.

(** ** The invariant of a pull *)

Definition sound_rec (k : key) (rec : bytes) : Prop :=
  ∀ r d, ParseRecord rec = inr r → DecodePayload (raw_Flags r) (raw_Ulen r) (drop RecHeaderSize rec) = inr d → is_content k d.

(** The keys under way: queued, with the fetcher, or with their outcome waiting. *)
Definition flight (f : fetcher) p : list key := pu_queue p ++ all_keys f.

Record pull_inv (root : key) (f : fetcher) p : Prop := {
  pv_root : root ∈ pu_seen p;
  pv_nodup : NoDup (flight f p);
  pv_seen k : k ∈ flight f p → k ∈ pu_seen p;
  pv_pending : pu_pending p = length (flight f p);
  pv_open : lw_closed (pu_writer p) = false;
  pv_acc : lw_err (pu_writer p) = None → ∀ k, k ∈ pu_seen p → accounted (pu_writer p) (pu_seen p) (flight f p) k;
  pv_out k rec : (k, Some rec) ∈ ft_out f → sound_rec k rec;
}.

(** The keys under way may be listed in another order. *)
Lemma pull_inv_perm root f f' p p' : pull_inv root f p → flight f' p' ≡ₚ flight f p → pu_seen p' = pu_seen p → pu_pending p' = pu_pending p → pu_writer p' = pu_writer p →
  (∀ k rec, (k, Some rec) ∈ ft_out f' → sound_rec k rec) → pull_inv root f' p'.
Proof.
  intros [I1 I2 I3 I4 I5 I6 I7] Hp Es Ep Ew Ho. split; [by rewrite Es|by rewrite Hp|intros k; rewrite Hp, Es; apply I3|by rewrite Ep, Hp|by rewrite Ew| |done].
  rewrite Ew, Es. intros He k Hk. eapply accounted_mono; [done|done| |by apply I6]. intros x Hx. left. by rewrite Hp.
Qed.

Lemma getStream_sound (w : W) id keys w' recs k rec : getStream w id keys = (w', recs) → (k, rec) ∈ recs → sound_rec k rec.
Proof.
  unfold getStream. destruct (cn_get _ _ _) as [w1 [[e|e]|[raws broke]]] eqn:Eg; intros [= _ <-]; [by intros ?%not_elem_of_nil..|].
  intros (raw & Hraw & Hr)%list_elem_of_omap r d Hp Hd. unfold VerifyRecord in Hr. destruct (key_Validate _); [done|]. destruct (DecodePayload (raw_Flags raw) _ _) as [|d'] eqn:Ed; [done|].
  destruct (key_New _ _ d') as [|k'] eqn:En; [done|]. case_decide as Hk; [|done]. injection Hr as <- <-. destruct (get_framed _ _ _ _ _ _ _ _ Eg Hraw Hp) as [Ef Eu].
  rewrite Ef, Eu, Ed in Hd. injection Hd as ->. unfold is_content. by subst k'.
Qed.

Lemma fetch_step_sound Jobs (s s' : W * fetcher) : fetch_step blake3 Jobs s s' → (∀ k rec, (k, Some rec) ∈ ft_out s.2 → sound_rec k rec) → ∀ k rec, (k, Some rec) ∈ ft_out s'.2 → sound_rec k rec.
Proof.
  assert (∀ w f fk, (∀ k rec, (k, Some rec) ∈ ft_out f → sound_rec k rec) → ∀ k rec, (k, Some rec) ∈ ft_out (route blake3 w f fk).2 → sound_rec k rec) as Hr.
  { intros w f fk Hv. assert (∀ f' order fk', ft_out f' = ft_out f → ∀ k rec, (k, Some rec) ∈ ft_out (queue_at f' order fk') → sound_rec k rec) as Hq.
    { intros f' order fk' E k rec. unfold queue_at. destruct (order !! _); simpl; rewrite E; [apply Hv|]. intros [?|?%list_elem_of_singleton]%elem_of_app; [by apply Hv|done]. }
    unfold route. destruct (_ && _); [destruct (RefreshView w)|]; by apply Hq. }
  intros Hs Hv. destruct Hs as [w f k ks Hin|w f fk fks He|w f l job acc Hl _ Hp|w f l job l' Hj]; simpl in Hv |- *; [by apply Hr|by apply Hr|done|].
  unfold fetch. destruct (getStream _ _ _) as [w1 recs] eqn:Eg. simpl. intros k rec [?|([k' rec'] & E & Hin)%list_elem_of_fmap]%elem_of_app; [by apply Hv|].
  injection E as -> ->. by eapply getStream_sound.
Qed.

Lemma record_kids_sound k rec kids : sound_rec k rec → record_kids k rec = inr kids → is_leaf k = true ∨ ∃ d, is_content k d ∧ ChildKeys_of k d = inr kids.
Proof.
  intros Hs. unfold record_kids. destruct (is_leaf k); [by left|]. destruct (ParseRecord rec) as [|r] eqn:Ep; [done|]. destruct (DecodePayload _ _ _) as [|d] eqn:Ed; [done|].
  intros Hk. right. exists d. split; [by eapply Hs|done].
Qed.

(** An outcome that is taken. *)
Lemma receive_inv root f p fuel late k r out p' : pull_inv root f p → ft_out f = (k, r) :: out → receive CheckComplete fuel late p k r = Some (inr p') → pull_inv root (f <| ft_out := out |>) p'.
Proof.
  intros [I1 I2 I3 I4 I5 I6 I7] Eo. unfold receive. destruct r as [rec|]; [|done]. destruct (lw_write late (pu_writer p) (k, rec)) as [lw e] eqn:Ew. destruct e; [done|].
  destruct (lw_write_avail _ _ _ _ Ew) as (We & Wl & Wa). assert (lw_closed lw = false) as Wc.
  { rewrite <- I5. clear -Ew. unfold lw_write, lw_flush in Ew. simpl in Ew. destruct (_ <? _)%Z; [by injection Ew as <-|]. destruct (lw_batch _ ++ _); [by injection Ew as <-|].
    destruct (lw_err _), late; try done; by injection Ew as <-. }
  destruct (record_kids k rec) as [|kids] eqn:Ek; [done|]. set (p1 := p <| pu_writer := lw |> <| pu_fetched := _ |> <| pu_bytes := _ |>).
  destruct (each_kid _ p1 kids) as [[|p2]|] eqn:Ek2; simpl; [done| |done]. intros [= <-].
  destruct (each_kid_grown _ kids (want_grown fuel) p1 p2 Ek2) as [[G1 G2 (new & G3 & G4 & G5 & G6) G7] Hkids].
  assert (flight f p ≡ₚ k :: pu_queue p ++ open_keys f ++ out.*1) as Hfl by (unfold flight, all_keys; rewrite Eo; simpl; solve_Permutation).
  assert (flight (f <| ft_out := out |>) (p2 <| pu_pending := pred (pu_pending p2) |>) ≡ₚ new ++ pu_queue p ++ open_keys f ++ out.*1) as Hfl'.
  { unfold flight, all_keys. simpl. rewrite G3. simpl. solve_Permutation. }
  rewrite Hfl in I2. apply NoDup_cons in I2 as [I2a I2b]. assert (∀ x, x ∈ pu_queue p ++ open_keys f ++ out.*1 → x ∈ pu_seen p) as I3' by (intros x Hx; apply I3; rewrite Hfl; by right).
  assert (k ∈ pu_seen p) as Hk by (apply I3; rewrite Hfl; by left). split.
  - simpl. by apply G2.
  - rewrite Hfl'. apply NoDup_app. split; [done|]. split; [|done]. intros x Hx Hx'. destruct (G6 x Hx) as [_ Hn]. by apply Hn, I3'.
  - intros x. rewrite Hfl'. simpl. intros [Hx|Hx]%elem_of_app; [by apply G6|by apply G2, I3'].
  - rewrite Hfl'. simpl. rewrite G4. simpl. rewrite I4, Hfl, length_app. simpl. lia.
  - simpl. by rewrite G1.
  - simpl. rewrite G1. simpl. rewrite We. intros He x Hx. assert (accounted lw (pu_seen p2) (flight (f <| ft_out := out |>) (p2 <| pu_pending := pred (pu_pending p2) |>)) k) as Hak.
    { right. right. split; [rewrite Wa; apply elem_of_union_l; by apply elem_of_singleton|]. destruct (record_kids_sound k rec kids) as [Hl|(d & Hd & Hck)]; [apply I7; rewrite Eo; by left|done|by left|]. right. exists d, kids. done. }
    destruct (decide (x ∈ pu_seen p)) as [Hxp|Hxp].
    + apply (accounted_mono (pu_writer p) lw (pu_seen p) (pu_seen p2) (flight f p)); [rewrite Wa; apply union_subseteq_r|exact G2| |by apply I6]. intros y. rewrite Hfl. intros [->|Hy]%elem_of_cons; [by right|]. left. rewrite Hfl'. apply elem_of_app. by right.
    + rewrite G1 in G7. apply (accounted_mono lw lw (pu_seen p2) (pu_seen p2) (pu_queue p2)); [done|done| |exact (G7 x Hx Hxp)]. intros y Hy. left. unfold flight. apply elem_of_app. by left.
  - simpl. intros k' rec' Hin. apply I7. rewrite Eo. by right.
Qed.

Definition pulling (Jobs fuel : nat) (root : key) (s s' : W * fetcher * puller P) : Prop := pull_step blake3 CheckComplete Jobs fuel root s (Pulling s').

Lemma pulling_inv Jobs fuel root s s' : pulling Jobs fuel root s s' → pull_inv root s.1.2 s.2 → pull_inv root s'.1.2 s'.2.
Proof.
  unfold pulling. intros Hs. remember (Pulling s') as o eqn:Eo. destruct Hs as [w f p k q Hp Hq|w f p w1 f1 Hf|w f p k r out late res Hp Ho Hr|w f p objs ch Hch| | |w f p late Hp]; simpl; intros I; [| | | |done|done|].
  - injection Eo as <-. simpl. eapply pull_inv_perm; [done| |done|done|done|by apply I]. unfold flight, all_keys, open_keys. simpl. rewrite Hq. solve_Permutation.
  - injection Eo as <-. simpl. assert (NoDup (all_keys f)) as Hnd by (pose proof (pv_nodup _ _ _ I) as Hn; unfold flight in Hn; apply NoDup_app in Hn; tauto).
    eapply pull_inv_perm; [done| |done|done|done|exact (fetch_step_sound Jobs (w, f) (w1, f1) Hf (pv_out _ _ _ I))]. unfold flight. by rewrite (fetch_step_keys blake3 Jobs (w, f) (w1, f1) Hnd Hf : all_keys f1 ≡ₚ all_keys f).
  - destruct res as [e|p1]; [done|]. injection Eo as <-. simpl. by eapply receive_inv.
  - injection Eo as <-. simpl. destruct I as [I1 I2 I3 I4 I5 I6 I7]. split; [done|done|done|done| | |done]; simpl.
    + unfold lw_run. simpl. destruct (lw_err (pu_writer p)); [done|]. by destruct (ps_WriteParallel _ _).
    + intros He k Hk. destruct (lw_run_avail _ _ _ Hch He) as [He' Ha]. eapply accounted_mono; [exact Ha|done| |by apply I6]. intros x Hx. by left.
  - unfold finish_pull in Eo. by destruct (lw_close _ _).
Qed.

Lemma pulls_inv Jobs fuel root s s' : rtc (pulling Jobs fuel root) s s' → pull_inv root s.1.2 s.2 → pull_inv root s'.1.2 s'.2.
Proof. intros Hs. induction Hs as [|s1 s2 s3 H12 _ IH]; [done|]. intros I. by eapply IH, pulling_inv. Qed.

Lemma begin_inv fuel local root p : begin_pull CheckComplete fuel local root = Some (inr p) → pull_inv root (start_fetch []) p.
Proof.
  intros Hb. destruct (want_grown _ _ _ _ Hb) as [[G1 G2 (new & G3 & G4 & G5 & G6) G7] Hr]. simpl in *.
  assert (flight (start_fetch []) p = new) as Hf by (unfold flight, all_keys, open_keys, acc_keys; simpl; by rewrite map_to_list_empty, G3, !app_nil_r).
  split; [done|by rewrite Hf|intros k; rewrite Hf; apply G6|by rewrite Hf, G4|by rewrite G1| |by intros k rec ?%not_elem_of_nil].
  intros _ k Hk. rewrite Hf, <- G3. apply G7; [done|set_solver].
Qed.

Lemma pull_closed root f p c : pull_inv root f p → pu_pending p = 0%nat → lw_err (pu_writer p) = None → reaches root c → c ∈ avail (pu_writer p).
Proof.
  intros [I1 I2 I3 I4 I5 I6 I7] Hp He. rewrite I4 in Hp. apply length_zero_iff_nil in Hp. rewrite Hp in I6. clear I2 I3 I4 Hp.
  assert (∀ c, reaches root c → (∃ a, (∀ x, reaches a x → x ∈ avail (pu_writer p)) ∧ reaches a c) ∨ c ∈ pu_seen p) as Hreach.
  { intros x Hx. induction Hx as [|k d kids x Hk IH Hl _ Hd Hkids Hx]; [by right|]. destruct IH as [(a & Ha & Hak)|Hk'].
    - left. exists a. split; [done|]. by eapply under_child.
    - destruct (I6 He k Hk') as [Hc|[?%not_elem_of_nil|[_ [Hl'|(d' & kids' & Hd' & Hk2 & Hs)]]]]; [|done|congruence|].
      + left. exists k. split; [done|]. eapply under_child; [apply under_root|done..].
      + right. apply Hs. rewrite (content_unique k d' d Hd' Hd) in Hk2. congruence. }
  intros Hc. destruct (Hreach c Hc) as [(a & Ha & Hac)|Hs]; [by apply Ha|]. destruct (I6 He c Hs) as [Hall|[?%not_elem_of_nil|[? _]]]; [apply Hall, under_root|done|done].
Qed.

(** C16 A pull is complete: when the loop of a pull is over and its writer closes
    without an error, everything that can be reached from the root is in the local
    store, whatever was there before, in whatever order keys were asked for, answered
    and written.  This does not rest on the check that follows. *)
Theorem pull_complete Jobs fuel local root p0 w w' f' p' late lw : begin_pull CheckComplete fuel local root = Some (inr p0) →
  rtc (pulling Jobs fuel root) (w, start_fetch [], p0) (w', f', p') → pu_pending p' = 0%nat → lw_close late (pu_writer p') = (lw, None) →
  ∀ k, reaches root k → k ∈ ps_keys (lw_local lw).
Proof.
  intros Hb Hs Hp Hc k Hk. pose proof (pulls_inv _ _ _ _ _ Hs (begin_inv _ _ _ _ Hb)) as I.
  simpl in I. destruct (lw_close_avail late _ _ (pv_open _ _ _ I) Hc) as [He Ha]. by eapply Ha, pull_closed.
Qed.

(** ** A pull ends *)

(** Only what lies under the root is looked at. *)
Lemma each_kid_reaches g kids : (∀ p k p', g p k = Some (inr p') → ∀ x, x ∈ pu_seen p' → x ∈ pu_seen p ∨ reaches k x) →
  ∀ p p', each_kid g p kids = Some (inr p') → ∀ x, x ∈ pu_seen p' → x ∈ pu_seen p ∨ ∃ kid, kid ∈ kids ∧ reaches kid x.
Proof.
  intros Hg. induction kids as [|kid kids IH]; intros p p'; simpl; [intros [= <-]; by left|]. destruct (g p kid) as [[e|p1]|] eqn:Eg; simpl; [done| |done]. intros Hk x Hx.
  destruct (IH _ _ Hk x Hx) as [H1'|(kid' & ? & ?)]; [|right; exists kid'; split; [by right|done]]. destruct (Hg _ _ _ Eg x H1'); [by left|]. right. exists kid. split; [by left|done].
Qed.

Lemma want_reaches fuel p k p' : want CheckComplete fuel p k = Some (inr p') → ∀ x, x ∈ pu_seen p' → x ∈ pu_seen p ∨ reaches k x.
Proof.
  revert p k p'. induction fuel as [|fuel IH]; intros p k p'; [done|]. cbn [want]. case_decide as Hk; [intros [= <-]; by left|].
  set (p1 := p <| pu_seen := {[k]} ∪ pu_seen p |>). assert (∀ x, x ∈ pu_seen p1 → x ∈ pu_seen p ∨ reaches k x) as H1'.
  { intros x. unfold p1. simpl. intros [->%elem_of_singleton|?]%elem_of_union; [right; apply under_root|by left]. }
  destruct (ps_Has _ k) as [e|[|]]; [done| |intros [= <-]; exact H1']. destruct (is_leaf k) eqn:El; [intros [= <-]; exact H1'|].
  destruct (CheckComplete _ k); [|intros [= <-]; exact H1']. unfold local_kids. destruct (ps_Get _ k) as [e1|d] eqn:Eg; [intros [= <-]; exact H1'|].
  destruct (ChildKeys_of k d) as [e1|kids] eqn:Ek; [intros [= <-]; exact H1'|]. intros Hw x Hx.
  destruct (each_kid_reaches _ _ IH p1 p' Hw x Hx) as [?|(kid & Hkid & Hr)]; [by apply H1'|]. right. eapply reaches_trans; [|exact Hr].
  eapply under_child; [apply under_root|done|done|by eapply ps_Get_ok|done|done].
Qed.

Context (G : gset key).

Lemma each_kid_total g kids p0 : (∀ p k, k ∈ kids → pu_seen p0 ⊆ pu_seen p → is_Some (g p k) ∧ ∀ p', g p k = Some (inr p') → grown p p' ∧ k ∈ pu_seen p') →
  ∀ p, pu_seen p0 ⊆ pu_seen p → is_Some (each_kid g p kids).
Proof.
  intros Hg. induction kids as [|kid kids IH]; intros p Hs; simpl; [by eexists|]. destruct (Hg p kid) as [[r Er] Hr]; [by left|done|]. rewrite Er. simpl. destruct r as [e|p1]; [by eexists|].
  apply IH; [intros p2 k Hk; apply Hg; by right|]. etrans; [exact Hs|]. by apply Hr.
Qed.

(** Enough fuel for every key below. *)
Lemma want_total fuel p k : (∀ x, reaches k x → x ∈ G) → (size (G ∖ pu_seen p) < fuel)%nat → is_Some (want CheckComplete fuel p k).
Proof.
  revert p k. induction fuel as [|fuel IH]; intros p k HG Hf; [lia|]. cbn [want]. case_decide as Hk; [by eexists|]. set (p1 := p <| pu_seen := {[k]} ∪ pu_seen p |>).
  destruct (ps_Has _ k) as [e|[|]]; [by eexists| |by eexists]. destruct (is_leaf k) eqn:El; [by eexists|]. destruct (CheckComplete _ k); [|by eexists].
  unfold local_kids. destruct (ps_Get _ k) as [e1|d] eqn:Eg; [by eexists|]. destruct (ChildKeys_of k d) as [e1|kids] eqn:Ek; [by eexists|].
  assert (∀ p2, pu_seen p1 ⊆ pu_seen p2 → size (G ∖ pu_seen p2) < fuel)%nat as Hlt.
  { intros p2 Hs. enough (size (G ∖ pu_seen p2) < size (G ∖ pu_seen p))%nat by lia. apply subset_size. assert (k ∈ G) by (apply HG, under_root). unfold p1 in Hs. simpl in Hs. set_solver. }
  assert (∀ kid, kid ∈ kids → ∀ x, reaches kid x → x ∈ G) as Hkids.
  { intros kid Hkid x Hx. apply HG. eapply reaches_trans; [|exact Hx]. eapply under_child; [apply under_root|done|done|by eapply ps_Get_ok|done|done]. }
  apply (each_kid_total _ _ p1); [|done]. intros p2 kid Hkid Hs. split; [|apply want_grown]. apply IH; [by apply Hkids|by apply Hlt].
Qed.

Lemma new_room (seen seen' : gset key) (new : list key) : NoDup new → (∀ x, x ∈ new → x ∈ seen' ∧ x ∉ seen ∧ x ∈ G) → seen ⊆ seen' →
  (size (G ∖ seen') + length new ≤ size (G ∖ seen))%nat.
Proof.
  intros Hn Hx Hs. rewrite <- (size_list_to_set (C := gset key) new Hn), <- size_union by (intros x; rewrite elem_of_difference, elem_of_list_to_set; intros [_ ?] ?; destruct (Hx x); done).
  apply subseteq_size. intros x. rewrite elem_of_union, !elem_of_difference, elem_of_list_to_set. intros [[? ?]|?]; [split; [done|]; intros ?; set_solver|]. destruct (Hx x) as (? & ? & ?); done.
Qed.

Lemma receive_effect fuel late p k r p' : receive CheckComplete fuel late p k r = Some (inr p') → ∃ rec kids p1 p2, r = Some rec ∧ record_kids k rec = inr kids ∧
  grown p1 p2 ∧ p' = p2 <| pu_pending := pred (pu_pending p2) |> ∧ (∀ x, x ∈ pu_seen p2 → x ∈ pu_seen p1 ∨ ∃ kid, kid ∈ kids ∧ reaches kid x) ∧
  pu_seen p1 = pu_seen p ∧ pu_queue p1 = pu_queue p ∧ (length (lw_ch (pu_writer p1)) ≤ S (length (lw_ch (pu_writer p))))%nat.
Proof.
  unfold receive. destruct r as [rec|]; [|done]. destruct (lw_write late (pu_writer p) (k, rec)) as [lw e] eqn:Ew. destruct e; [done|].
  destruct (record_kids k rec) as [|kids] eqn:Ek; [done|]. set (p1 := p <| pu_writer := lw |> <| pu_fetched := _ |> <| pu_bytes := _ |>).
  destruct (each_kid _ p1 kids) as [[|p2]|] eqn:Ek2; simpl; [done| |done]. intros [= <-]. exists rec, kids, p1, p2.
  destruct (each_kid_grown _ kids (want_grown fuel) p1 p2 Ek2) as [G1 _]. split; [done|]. split; [done|]. split; [done|]. split; [done|].
  split; [by apply (each_kid_reaches _ _ (want_reaches fuel))|]. split; [done|]. split; [done|]. simpl. clear -Ew. unfold lw_write, lw_flush in Ew. simpl in Ew.
  destruct (_ <? _)%Z; [injection Ew as <-; simpl; lia|]. destruct (lw_batch _ ++ _); [injection Ew as <-; simpl; lia|].
  destruct (lw_err _), late; try done; injection Ew as <-; simpl; rewrite length_app; simpl; lia.
Qed.

(** Every key a record names is below the root with it. *)
Lemma kids_below root k rec kids kid : sound_rec k rec → record_kids k rec = inr kids → reaches root k → kid ∈ kids → reaches root kid.
Proof.
  intros Hs Hr Hk Hkid. destruct (is_leaf k) eqn:El; [unfold record_kids in Hr; rewrite El in Hr; injection Hr as <-; by apply not_elem_of_nil in Hkid|].
  destruct (record_kids_sound k rec kids Hs Hr) as [?|(d & Hd & Hck)]; [congruence|]. by eapply under_child.
Qed.

(** What is left to do. *)
Definition pull_left (M : nat) (f : fetcher) p : nat :=
  ((3 * M + 7) * (size (G ∖ pu_seen p) + length (pu_queue p)) + fetch_left M f + 2 * length (all_keys f) + length (lw_ch (pu_writer p)))%nat.

Lemma receive_left M root f p fuel late k r out p' : (∀ x, reaches root x → x ∈ G) → pull_inv root f p → (∀ x, x ∈ pu_seen p → reaches root x) → ft_out f = (k, r) :: out →
  receive CheckComplete fuel late p k r = Some (inr p') → (pull_left M (f <| ft_out := out |>) p' < pull_left M f p)%nat ∧ ∀ x, x ∈ pu_seen p' → reaches root x.
Proof.
  intros HG I Hin Eo Hr. destruct (receive_effect _ _ _ _ _ _ Hr) as (rec & kids & p1 & p2 & -> & Ek & [W1 S1 (new & Q1 & P1 & D1 & F1) _] & -> & Hre & Es & Eq & Hch).
  assert (∀ x, x ∈ pu_seen p2 → reaches root x) as Hin'.
  { intros x Hx. destruct (Hre x Hx) as [H1'|(kid & Hkid & Hkx)]; [apply Hin; by rewrite <- Es|]. eapply reaches_trans; [|exact Hkx]. eapply (kids_below root k rec); [|done| |done].
    - apply (pv_out _ _ _ I). rewrite Eo. by left.
    - apply Hin, (pv_seen _ _ _ I). unfold flight, all_keys. rewrite Eo, !elem_of_app. right. right. by left. }
  split; [|exact Hin']. assert (size (G ∖ pu_seen p2) + length new ≤ size (G ∖ pu_seen p))%nat as Hroom.
  { apply new_room; [done| |by rewrite <- Es]. intros x Hx. destruct (F1 x Hx) as [? ?]. rewrite <- Es. split; [done|]. split; [done|]. by apply HG, Hin'. }
  assert (length (all_keys f) = S (length (all_keys (f <| ft_out := out |>)))) as Ha by (unfold all_keys; rewrite Eo; change (open_keys (f <| ft_out := out |>)) with (open_keys f); generalize (open_keys f); intros l; rewrite !length_app, !length_fmap; simpl; lia).
  unfold pull_left. rewrite Ha. simpl. assert (length (pu_queue p2) = length (pu_queue p) + length new)%nat as Hq by (by rewrite Q1, Eq, length_app).
  assert (length (lw_ch (pu_writer p2)) ≤ S (length (lw_ch (pu_writer p))))%nat as Hc by (by rewrite W1). rewrite Hq.
  assert (fetch_left M (f <| ft_out := out |>) = fetch_left M f) as -> by done. nia.
Qed.

(** The state of a run, as far as its end is concerned. *)
Definition pull_good (M : nat) (root : key) (s : W * fetcher * puller P) : Prop :=
  pull_inv root s.1.2 s.2 ∧ (∀ x, x ∈ pu_seen s.2 → reaches root x) ∧ tidy M s.1.2.

(** The views the client has along a run list at most so many nodes. *)
Definition views_within (M : nat) (w : W) : Prop := (view_size (default view0 (ac_view (cn_self w))) ≤ M)%nat.

Lemma pulling_left M Jobs fuel root s s' : (∀ x, reaches root x → x ∈ G) → views_within M s.1.1 → views_within M s'.1.1 → pull_good M root s → pulling Jobs fuel root s s' →
  pull_good M root s' ∧ (pull_left M s'.1.2 s'.2 < pull_left M s.1.2 s.2)%nat.
Proof.
  intros HG Hv Hv' (I & Hin & Ht) Hs. pose proof (pulling_inv _ _ _ _ _ Hs I) as I'. unfold pull_good. unfold pulling in Hs. remember (Pulling s') as o eqn:Eo.
  destruct Hs as [w f p k q Hp Hq|w f p w1 f1 Hf|w f p k r out late res Hp Ho Hr|w f p objs ch Hch| | |w f p late Hp]; simpl in *; [| | | |done|done|].
  - injection Eo as <-. simpl in *. split; [split; [done|]; split; [done|]; by destruct Ht|]. unfold pull_left. simpl. rewrite Hq.
    assert (fetch_left M (f <| ft_in := ft_in f ++ [k] |>) = fetch_left M f + (3 * M + 4))%nat as -> by (unfold fetch_left; simpl; rewrite length_app; simpl; lia).
    assert (length (all_keys (f <| ft_in := ft_in f ++ [k] |>)) = S (length (all_keys f))) as -> by (unfold all_keys, open_keys; simpl; rewrite !length_app; simpl; lia). simpl. lia.
  - injection Eo as <-. simpl in *. assert (NoDup (all_keys f)) as Hnd by (pose proof (pv_nodup _ _ _ I) as Hn; unfold flight in Hn; apply NoDup_app in Hn; tauto).
    destruct (fetch_step_left blake3 Jobs M (w, f) (w1, f1)) as [T L]; [intros k; etrans; [apply length_cl_ReadOrder|exact Hv]|intros k; etrans; [apply length_cl_ReadOrder|exact Hv']|done|done|].
    simpl in T, L. split; [done|]. unfold pull_left. rewrite (Permutation_length (fetch_step_keys blake3 Jobs (w, f) (w1, f1) Hnd Hf : all_keys f1 ≡ₚ all_keys f)). lia.
  - destruct res as [e|p1]; [done|]. injection Eo as <-. simpl in *. destruct (receive_left M root f p fuel late k r out p1 HG I Hin Ho Hr) as [L Hin']. split; [|done]. split; [done|]. split; [done|]. by destruct Ht.
  - injection Eo as <-. simpl in *. split; [done|]. unfold pull_left. simpl. assert (lw_ch (lw_run (pu_writer p <| lw_ch := ch |>) objs) = ch) as ->.
    { unfold lw_run. simpl. destruct (lw_err (pu_writer p)); [done|]. by destruct (ps_WriteParallel _ _). }
    rewrite Hch. simpl. lia.
  - unfold finish_pull in Eo. by destruct (lw_close _ _).
Qed.

Lemma receive_total root f p fuel late k r out : (∀ x, reaches root x → x ∈ G) → (size G < fuel)%nat → pull_inv root f p → (∀ x, x ∈ pu_seen p → reaches root x) → ft_out f = (k, r) :: out →
  is_Some (receive CheckComplete fuel late p k r).
Proof.
  intros HG Hf I Hin Eo. unfold receive. destruct r as [rec|]; [|by eexists]. destruct (lw_write _ _ _) as [lw [e|]]; [by eexists|]. destruct (record_kids k rec) as [|kids] eqn:Ek; [by eexists|].
  set (p1 := p <| pu_writer := lw |> <| pu_fetched := _ |> <| pu_bytes := _ |>). destruct (each_kid_total (want CheckComplete fuel) kids p1) with (p := p1) as [r Er]; [|done|].
  - intros p2 kid Hkid Hs. split; [|apply want_grown]. apply want_total; [|assert (size (G ∖ pu_seen p2) ≤ size G)%nat by (apply subseteq_size; set_solver); lia].
    intros x Hx. apply HG. eapply reaches_trans; [|exact Hx]. eapply (kids_below root k rec); [|done| |done].
    + apply (pv_out _ _ _ I). rewrite Eo. by left.
    + apply Hin, (pv_seen _ _ _ I). unfold flight, all_keys. rewrite Eo, !elem_of_app. right. right. by left.
  - rewrite Er. simpl. destruct r; by eexists.
Qed.

(** A pull always has a next step. *)
Lemma pull_progress M Jobs fuel root s : (0 < Jobs)%nat → (∀ x, reaches root x → x ∈ G) → (size G < fuel)%nat → pull_good M root s → ∃ o, pull_step blake3 CheckComplete Jobs fuel root s o.
Proof.
  intros HJ HG Hf (I & Hin & _). destruct s as [[w f] p]. simpl in *. destruct (pu_pending p) as [|n] eqn:Ep; [eexists; by apply (pl_done _ _ _ _ _ _ _ _ true)|].
  destruct (pu_queue p) as [|k q] eqn:Eq; [|eexists; apply pl_send; [lia|done]]. destruct (ft_out f) as [|[k r] out] eqn:Eo.
  - destruct (fetch_progress blake3 Jobs (w, f) HJ) as [(E1 & E2 & E3 & E4)|[[w1 f1] Hs]]; [|eexists; by apply pl_fetch]. exfalso. simpl in *.
    pose proof (pv_pending _ _ _ I) as Hp. unfold flight, all_keys, open_keys, acc_keys in Hp. rewrite Eq, Eo, E1, E2, E3, E4, map_to_list_empty in Hp. simpl in Hp. lia.
  - destruct (receive_total root f p fuel true k r out HG Hf I Hin Eo) as [res Er]. eexists. eapply pl_recv; [lia|done|done].
Qed.

Lemma begin_good M fuel local root p : begin_pull CheckComplete fuel local root = Some (inr p) → ∀ w : W, pull_good M root (w, start_fetch [], p).
Proof.
  intros Hb w. split; [by eapply begin_inv|]. split; [|apply tidy_start]. simpl. intros x Hx. by destruct (want_reaches _ _ _ _ Hb x Hx) as [?%not_elem_of_empty|?].
Qed.

(** C31 A pull ends: over a tree of finitely many objects, while the client's views list
    at most [M] nodes, the calls of [want] return, no run of the loop takes more than
    [3M + 7] steps for each object and once more, and it always has a next step, so that
    every run comes to its end, with the tree or with an error.  Waiting for room in a
    full channel is not expressed: the queues between the goroutines are unbounded. *)
Theorem pull_ends M Jobs fuel local root p0 w n s : (0 < Jobs)%nat → (∀ x, reaches root x → x ∈ G) → (size G < fuel)%nat →
  begin_pull CheckComplete fuel local root = Some (inr p0) →
  (∀ s1, rtc (pulling Jobs fuel root) (w, start_fetch [], p0) s1 → views_within M s1.1.1) →
  nsteps (pulling Jobs fuel root) n (w, start_fetch [], p0) s →
  (n ≤ (3 * M + 7) * (size G + 1))%nat ∧ ∃ o, pull_step blake3 CheckComplete Jobs fuel root s o.
Proof.
  intros HJ HG Hf Hb Hv Hn. pose proof (begin_good M _ _ _ _ Hb w) as Hg.
  assert (∀ n s0, (∀ s1, rtc (pulling Jobs fuel root) s0 s1 → views_within M s1.1.1) → pull_good M root s0 → nsteps (pulling Jobs fuel root) n s0 s →
    pull_good M root s ∧ (n + pull_left M s.1.2 s.2 ≤ pull_left M s0.1.2 s0.2)%nat) as Hrun.
  { clear Hv Hn Hg Hb. clear n. intros n s0 Hv Hg Hn. induction Hn as [|n s0 s1 s2 H01 _ IH]; [done|]. destruct (pulling_left M Jobs fuel root s0 s1) as [Hg1 L]; [done|by apply Hv|by apply Hv, rtc_once|done..|].
    destruct IH as [Hg2 L2]; [|done|]; [intros s3 H3s; apply Hv; by eapply rtc_l|]. split; [done|lia]. }
  destruct (Hrun n _ Hv Hg Hn) as [Hgs L]. split; [|by eapply pull_progress]. enough (pull_left M (start_fetch []) p0 ≤ (3 * M + 7) * (size G + 1))%nat by (simpl in L; lia).
  destruct (want_grown _ _ _ _ Hb) as [[G1 G2 (new & G3 & G4 & G5 & G6) G7] Hr]. simpl in *. unfold pull_left, all_keys, open_keys, acc_keys. simpl. rewrite map_to_list_empty, G1, G3. simpl.
  assert (fetch_left M (start_fetch []) = 3 * M + 4)%nat as -> by (unfold fetch_left, acc_keys; simpl; rewrite map_to_list_empty; simpl; lia).
  assert (size (G ∖ pu_seen p0) + length new ≤ size (G ∖ ∅))%nat as Hroom.
  { apply new_room; [done| |set_solver]. intros x Hx. destruct (G6 x Hx) as [Hs ?]. split; [done|]. split; [done|]. apply HG. by destruct (want_reaches _ _ _ _ Hb x Hs) as [?%not_elem_of_empty|?]. }
  rewrite difference_empty_L in Hroom. nia.
Qed.

Lemma pull_next_step Jobs fuel root s o : (0 < Jobs)%nat → pull_next blake3 CheckComplete fuel root s = Some o → pull_step blake3 CheckComplete Jobs fuel root s o.
Proof.
  intros HJ. destruct s as [[w f] p]. unfold pull_next. destruct (pu_pending p) as [|n] eqn:Ep; [intros [= <-]; by apply pl_done|]. destruct (ft_out f) as [|[k r] out] eqn:Eo.
  - destruct (pu_queue p) as [|k q] eqn:Eq; [|intros [= <-]; apply pl_send; [lia|done]]. destruct (fetch_next blake3 (w, f)) as [[w1 f1]|] eqn:En; [|done]. intros [= <-]. apply pl_fetch. by apply fetch_next_step.
  - destruct (receive _ _ _ _ _ _) as [res|] eqn:Er; [|done]. intros [= <-]. eapply pl_recv; [lia|done|done].
Qed.

Lemma pull_run_steps Jobs n fuel root s s' : (0 < Jobs)%nat → pull_run blake3 CheckComplete n fuel root s = Some (Pulling s') → nsteps (pulling Jobs fuel root) n s s'.
Proof.
  intros HJ. revert s. induction n as [|n IH]; intros s; simpl; [intros [= <-]; constructor|]. destruct (pull_next _ _ _ _ _) as [[s1|]|] eqn:En; simpl; [|done|done]. intros Hr.
  econstructor; [|by apply IH]. by apply (pull_next_step Jobs).
Qed.
End pull.

(** * A small pull *)

Definition small_kids (k : key) : list key := small_blob <$> filter (λ b, b ≠ x00) (drop 2 (arr_bytes k)).

(** Trees of the small cluster have one level below them. *)
Definition small_check (s : small_store) (k : key) : option string :=
  if decide (k ∈ small_keys s) then
    if is_leaf k then None
    else if decide (Forall (λ c, c ∈ small_keys s) (small_kids k)) then None else Some "missing below"%string
  else Some "missing"%string.

Lemma small_reaches k c : reaches k c → c = k ∨ (is_leaf k = false ∧ c ∈ small_kids k).
Proof.
  intros Hr. induction Hr as [|k' d kids c Hk IH Hl _ Hd Hkids Hc]; [by left|]. rewrite (content_unique _ _ _ Hd (small_content k')) in Hkids. injection Hkids as <-. destruct IH as [->|[_ Hin]]; [by right|].
  apply list_elem_of_fmap in Hin as (b & -> & _). by vm_compute in Hl.
Qed.

#[local] Instance small_checkok : CheckOK small_check.
Proof.
  intros s k. unfold small_check. case_decide as Hk; [|done]. destruct (is_leaf k) eqn:El.
  - intros _ c [->|[? _]]%small_reaches; [done|congruence].
  - case_decide as Hf; [|done]. intros _ c [->|[_ Hc]]%small_reaches; [done|]. by apply (proj1 (Forall_forall _ _) Hf).
Qed.

#[local] Existing Instance toy_honest.

#[local] Instance toy_framed down : Framed (H0 := toy_net down).
Proof.
  intros w id m w' raws broke raw r. simpl. case_decide; [done|]. intros [= _ <- _] Hin [= <-]. apply list_elem_of_fmap in Hin as (k & -> & _). done.
Qed.

(** One blob of the tree is there already. *)
Definition small_local : small_store := [(0, [small_blob x05])].
Definition small_begin : option (string + puller small_store) := begin_pull small_check 5 small_local small_root.
Definition small_puller : puller small_store := match small_begin with Some (inr p) => p | _ => start_pull small_local end.
Definition small_pulled (n : nat) : option pull_out := pull_run (H1 := toy_net toy_first) toy_blake3 small_check n 5 small_root (toy_pair_access, start_fetch [], small_puller).

Lemma small_begun : small_begin = Some (inr small_puller).
Proof.
  unfold small_puller. assert (match small_begin with Some (inr _) => true | _ => false end = true) as Hb by (vm_compute; reflexivity). by destruct small_begin as [[e|p]|].
Qed.

(** After nineteen steps the other blob and the root have come, past a node that
    cannot be reached. *)
Lemma pull_complete_witness : ∃ lw : localWriter small_store, small_root ∈ ps_keys (lw_local lw) ∧ small_blob x06 ∈ ps_keys (lw_local lw).
Proof.
  assert (match small_pulled 19 with
          | Some (Pulling (_, _, p)) => match lw_close true (pu_writer p) with (_, None) => pu_pending p | _ => 1%nat end
          | _ => 1%nat end = 0%nat) as Hp by (vm_compute; reflexivity).
  destruct (small_pulled 19) as [[[[w' f'] p']|]|] eqn:E; try discriminate Hp. destruct (lw_close true (pu_writer p')) as [lw [e|]] eqn:Ec; try discriminate Hp.
  pose proof (pull_complete (H2 := toy_net toy_first) toy_blake3 small_check 8 5 small_local small_root small_puller toy_pair_access w' f' p' true lw small_begun) as Hc.
  assert (rtc (pulling (H2 := toy_net toy_first) toy_blake3 small_check 8 5 small_root) (toy_pair_access, start_fetch [], small_puller) (w', f', p')) as Hs.
  { eapply rtc_nsteps_2. apply (pull_run_steps (H2 := toy_net toy_first) toy_blake3 small_check 8 19); [lia|exact E]. }
  exists lw. split; apply (Hc Hs Hp Ec).
  - apply under_root.
  - eapply under_child; [apply under_root|reflexivity|reflexivity|apply small_content|reflexivity|]. by apply (bool_decide_unpack _); vm_compute.
Defined.

Lemma small_pull_view Jobs fuel s s' : rtc (pulling (H2 := toy_net toy_first) toy_blake3 small_check Jobs fuel small_root) s s' → ac_view s'.1.1 = ac_view s.1.1.
Proof.
  intros Hs. induction Hs as [|s1 s2 s3 H12 _ IH]; [done|]. rewrite IH. clear IH. unfold pulling in H12. remember (Pulling s2) as o eqn:Eo.
  destruct H12 as [| w f p w1 f1 Hf|w f p k r out late [e|p1] Hp Ho Hr| | | |]; try (unfold finish_pull in Eo; destruct (lw_close _ _)); try discriminate Eo; injection Eo as <-; simpl; try done.
  exact (toy_keeps_view _ _ _ _ Hf).
Qed.

Lemma pull_ends_witness : ∃ s, nsteps (pulling (H2 := toy_net toy_first) toy_blake3 small_check 8 5 small_root) 19 (toy_pair_access, start_fetch [], small_puller) s ∧
  ∃ o, pull_step (H1 := toy_net toy_first) toy_blake3 small_check 8 5 small_root s o.
Proof.
  assert (match small_pulled 19 with Some (Pulling _) => true | _ => false end = true) as Hp by (vm_compute; reflexivity).
  destruct (small_pulled 19) as [[s|]|] eqn:E; try discriminate Hp. exists s.
  assert (nsteps (pulling (H2 := toy_net toy_first) toy_blake3 small_check 8 5 small_root) 19 (toy_pair_access, start_fetch [], small_puller) s) as Hn by (apply pull_run_steps; [lia|exact E]).
  split; [exact Hn|]. refine (proj2 (pull_ends (H2 := toy_net toy_first) toy_blake3 small_check {[small_root; small_blob x05; small_blob x06]} 2 8 5 small_local small_root small_puller toy_pair_access 19 s
    _ _ _ small_begun _ Hn)).
  - lia.
  - intros x Hx. by eapply small_under.
  - by apply (bool_decide_unpack _); vm_compute.
  - intros s1 Hs1. unfold views_within. change (view_size (default view0 (ac_view s1.1.1)) ≤ 2)%nat. rewrite (small_pull_view _ _ _ _ Hs1). vm_compute. lia.
Defined.
