(* ===== verification/UploadSafety.v ===== *)
(** Uploads: a negotiation ends and gives every key one outcome; a push writes its
    reference only after every key was acknowledged. *)
From S2P Require Import Prelude Store Placement View Wire Ballot Proposer Catalog Meta Mark Pins GC Client Data DataSafety NodeNet Gate Fetch FetchSafety Tree.

Local Open Scope N_scope.

Section negotiate.
Context (blake3 : bytes → nat → bytes) `{Core} `{Codec View} {W : Type} `{CNet W}.
Implicit Types w : W.
Implicit Types res : MissingResult.
Implicit Types tr : gmap key (gset NodeID).

(** * Outcomes *)

Definition in_lacking (m : gmap NodeID (list key)) (k : key) : Prop := ∃ p ks, m !! p = Some ks ∧ k ∈ ks.

(** Nothing is known of a key but perhaps that it failed. *)
Definition unsettled res (k : key) : Prop := ¬ in_lacking (mr_Lacking res) k ∧ mr_Holders res !! k = None.

Definition one_outcome res (k : key) : Prop :=
  (in_lacking (mr_Lacking res) k ∧ mr_Holders res !! k = None ∧ mr_Failed res !! k = None) ∨
  (¬ in_lacking (mr_Lacking res) k ∧ is_Some (mr_Holders res !! k) ∧ mr_Failed res !! k = None) ∨
  (unsettled res k ∧ is_Some (mr_Failed res !! k)).

Definition same_outcome res res' (k : key) : Prop :=
  (in_lacking (mr_Lacking res') k ↔ in_lacking (mr_Lacking res) k) ∧ mr_Holders res' !! k = mr_Holders res !! k ∧ mr_Failed res' !! k = mr_Failed res !! k.

Lemma same_outcome_trans res1 res2 res3 k : same_outcome res1 res2 k → same_outcome res2 res3 k → same_outcome res1 res3 k.
Proof. intros (A1 & B1 & C1) (A2 & B2 & C2). split; [tauto|]. split; congruence. Qed.

Lemma same_one res res' k : same_outcome res res' k → one_outcome res k → one_outcome res' k.
Proof. unfold one_outcome, unsettled. intros (A & -> & ->). tauto. Qed.

Lemma same_unsettled res res' k : same_outcome res res' k → unsettled res k → unsettled res' k.
Proof. unfold unsettled. intros (A & -> & _). tauto. Qed.

Lemma in_lacking_add m p k x : in_lacking (<[p := default [] (m !! p) ++ [k]]> m) x ↔ in_lacking m x ∨ x = k.
Proof.
  unfold in_lacking. split.
  - intros (q & ks & Hq & Hx). destruct (decide (q = p)) as [->|]; [rewrite lookup_insert_eq in Hq|rewrite lookup_insert_ne in Hq by done; left; by exists q, ks].
    injection Hq as <-. apply elem_of_app in Hx as [Hx|Hx]; [|right; by apply list_elem_of_singleton in Hx]. destruct (m !! p) as [ks|] eqn:E; [left; by exists p, ks|by apply not_elem_of_nil in Hx].
  - intros [(q & ks & Hq & Hx)| ->]; [|exists p; eexists; rewrite lookup_insert_eq; split; [done|]; apply elem_of_app; right; by left].
    destruct (decide (q = p)) as [->|]; [|exists q, ks; by rewrite lookup_insert_ne]. exists p. eexists. rewrite lookup_insert_eq. split; [done|]. rewrite Hq. apply elem_of_app. by left.
Qed.

Lemma note_key_spec w p lacking short res k :
  (unsettled res k → one_outcome (note_key blake3 w p lacking short res k) k) ∧ ∀ x, x ≠ k → same_outcome res (note_key blake3 w p lacking short res k) x.
Proof.
  unfold note_key. case_decide; simpl.
  - split; [intros [_ Hh]; left; simpl; rewrite in_lacking_add; split; [by right|]; split; [done|apply lookup_delete_eq]|]. intros x Hx. split; [simpl; rewrite in_lacking_add; tauto|].
    split; [done|]. simpl. by rewrite lookup_delete_ne.
  - split.
    + intros [Hl Hh]. right. left. split; [exact Hl|]. simpl. rewrite lookup_insert_eq, lookup_delete_eq. done.
    + intros x Hx. split; [done|]. simpl. by rewrite lookup_insert_ne, lookup_delete_ne.
Qed.

Lemma note_keys_spec w p lacking short ks res : NoDup ks → (∀ k, k ∈ ks → unsettled res k) →
  let res' := fold_left (note_key blake3 w p lacking short) ks res in (∀ k, k ∈ ks → one_outcome res' k) ∧ ∀ x, x ∉ ks → same_outcome res res' x.
Proof.
  revert res. induction ks as [|k ks IH]; intros res Hnd Hf; simpl; [split; [by intros k ?%not_elem_of_nil|done]|]. apply NoDup_cons in Hnd as [Hk Hnd].
  destruct (note_key_spec w p lacking short res k) as [N1 N2]. destruct (IH (note_key blake3 w p lacking short res k) Hnd) as [I1 I2].
  { intros x Hx. eapply same_unsettled; [apply N2; by intros ->|]. apply Hf. by right. }
  split.
  - intros x [->|Hx]%elem_of_cons; [|by apply I1]. eapply same_one; [by apply I2|]. apply N1, Hf. by left.
  - intros x [Hx1 Hx2]%not_elem_of_cons. eapply same_outcome_trans; [by apply N2|by apply I2].
Qed.

Lemma fail_keys_spec ks (e : string) (m : gmap key string) x : fold_left (λ m k, <[k := e]> m) ks m !! x = if decide (x ∈ ks) then Some e else m !! x.
Proof.
  revert m. induction ks as [|k ks IH]; intros m; cbn [fold_left]; [by rewrite decide_False by apply not_elem_of_nil|]. rewrite IH. destruct (decide (x ∈ ks)); [by rewrite decide_True by (by right)|].
  destruct (decide (x = k)) as [->|]; [rewrite lookup_insert_eq, decide_True by (by left); done|]. by rewrite lookup_insert_ne, decide_False by (by rewrite ?elem_of_cons; naive_solver).
Qed.

(** * A round *)

(** While a negotiation runs, the owners the client's views name are among these
    nodes. *)
Class Within (I : W → Prop) (U : gset NodeID) : Prop := {
  wi_call w id m : I w → I (cl_call w id m).1;
  wi_owners w k o : I w → o ∈ Owners_of (cl_placement blake3 w) k → o ∈ U;
}.

Context (I : W → Prop) (U : gset NodeID) `{!Within I U} (pin ended : bool).

Definition tried_at tr (k : key) : gset NodeID := default ∅ (tr !! k).

Lemma call_stale_keeps n w id m : I w → I (call_stale n w id m).1.
Proof.
  revert w. induction n as [|n IH]; intros w Hw; simpl; pose proof (wi_call w id m Hw) as Hc; destruct (cl_call w id m) as [w1 [e|resp]]; try done. destruct (net_IsCode _ _); [by apply IH|done].
Qed.

Lemma note_tried ks p tr x : tried_at (fold_left (λ tr k, <[k := default ∅ (tr !! k) ∪ {[p]}]> tr) ks tr) x = if decide (x ∈ ks) then tried_at tr x ∪ {[p]} else tried_at tr x.
Proof.
  revert tr. induction ks as [|k ks IH]; intros tr; cbn [fold_left]; [by rewrite decide_False by apply not_elem_of_nil|]. rewrite IH. unfold tried_at. destruct (decide (x = k)) as [->|Hne].
  - rewrite lookup_insert_eq. simpl. rewrite (decide_True (P := k ∈ k :: ks)) by (by left). case_decide; [|done]. set_solver.
  - rewrite lookup_insert_ne by done. destruct (decide (x ∈ ks)); [rewrite decide_True by (by right)|rewrite decide_False by (rewrite elem_of_cons; naive_solver)]; done.
Qed.

(** What a batch does: its keys have their outcome or are asked for again, and this
    owner is not asked again. *)
Lemma ask_primary_spec p w res tr retry ks w' res' tr' retry' : NoDup ks → (∀ k, k ∈ ks → unsettled res k) → I w →
  ask_primary blake3 pin ended p (w, res, tr, retry) ks = (w', res', tr', retry') →
  I w' ∧ (∀ x, x ∉ ks → same_outcome res res' x ∧ tried_at tr' x = tried_at tr x) ∧
  ((retry' = retry ∧ ∀ k, k ∈ ks → one_outcome res' k) ∨
   (retry' = retry ++ ks ∧ ∀ k, k ∈ ks → unsettled res' k ∧ tried_at tr' k = tried_at tr k ∪ {[p]})).
Proof.
  intros Hnd Hu Hw. unfold ask_primary, callRetry. set (req := _ <| m_Pin := pin |>). pose proof (call_stale_keeps 3 w p req Hw) as Hk. destruct (call_stale 3 w p req) as [w1 [e|resp]]; simpl in Hk.
  - set (failed := fold_left _ ks (mr_Failed res)). assert (∀ x, x ∉ ks → same_outcome res (MkMissingResult (mr_Lacking res) (mr_Holders res) failed) x) as Hs.
    { intros x Hx. split; [done|]. split; [done|]. simpl. unfold failed. by rewrite fail_keys_spec, decide_False. }
    destruct (_ || ended); intros [= <- <- <- <-]; (split; [done|]).
    + split; [intros x Hx; split; [by apply Hs|done]|]. left. split; [done|]. intros k Hk'. right. right. split; [by apply Hu|]. simpl. unfold failed. rewrite fail_keys_spec, decide_True by done. by eexists.
    + split; [intros x Hx; split; [by apply Hs|]; by rewrite note_tried, decide_False|]. right. split; [done|]. intros k Hk'. split; [by apply Hu|]. by rewrite note_tried, decide_True.
  - intros [= <- <- <- <-]. split; [done|]. destruct (note_keys_spec w1 p (default [] (Keys32 (m_Keys resp))) (m_Short resp) ks res Hnd Hu) as [N1 N2].
    split; [intros x Hx; split; [by apply N2|done]|]. by left.
Qed.

(** All batches of a round. *)
Lemma asks_spec (bs : list (NodeID * list key)) w res tr retry w' res' tr' retry' : NoDup (concat bs.*2) → (∀ k, k ∈ concat bs.*2 → unsettled res k) → I w →
  fold_left (λ s b, ask_primary blake3 pin ended b.1 s b.2) bs (w, res, tr, retry) = (w', res', tr', retry') →
  I w' ∧ (∀ x, x ∉ concat bs.*2 → same_outcome res res' x ∧ tried_at tr' x = tried_at tr x) ∧
  ∃ more, retry' = retry ++ more ∧ NoDup more ∧ (∀ k, k ∈ more → k ∈ concat bs.*2) ∧
  ∀ k, k ∈ concat bs.*2 → (k ∉ more ∧ one_outcome res' k) ∨
    (k ∈ more ∧ unsettled res' k ∧ ∃ b, b ∈ bs ∧ k ∈ b.2 ∧ tried_at tr' k = tried_at tr k ∪ {[b.1]}).
Proof.
  revert w res tr retry. induction bs as [|[p ks] bs IH]; intros w res tr retry Hnd Hu Hw; cbn [fold_left fmap list_fmap concat fst snd].
  { intros [= <- <- <- <-]. split; [done|]. split; [done|]. exists []. rewrite app_nil_r. split; [done|]. split; [constructor|]. split; by intros k ?%not_elem_of_nil. }
  destruct (ask_primary blake3 pin ended p (w, res, tr, retry) ks) as [[[w1 res1] tr1] retry1] eqn:Ea. intros Hf. cbn [fmap list_fmap concat snd] in Hnd, Hu. apply NoDup_app in Hnd as (Hn1 & Hn12 & Hn2).
  destruct (ask_primary_spec p w res tr retry ks w1 res1 tr1 retry1 Hn1) as (Hw1 & Hs1 & Hc1); [intros k Hk; apply Hu, elem_of_app; by left|done|done|].
  destruct (IH w1 res1 tr1 retry1 Hn2) as (Hw' & Hs' & more & -> & Hm1 & Hm2 & Hm3); [|done|done|].
  { intros k Hk. eapply same_unsettled; [apply Hs1; intros Hk'; by apply (Hn12 k)|]. apply Hu, elem_of_app. by right. }
  split; [done|]. split.
  { intros x [Hx1 Hx2]%not_elem_of_app. destruct (Hs1 x Hx1) as [S1 T1]. destruct (Hs' x Hx2) as [S2 T2]. split; [by eapply same_outcome_trans|congruence]. }
  assert (∀ k, k ∈ concat bs.*2 → (k ∉ more ∧ one_outcome res' k) ∨ (k ∈ more ∧ unsettled res' k ∧ ∃ b, b ∈ (p, ks) :: bs ∧ k ∈ b.2 ∧ tried_at tr' k = tried_at tr k ∪ {[b.1]})) as Hrest.
  { intros k Hk. destruct (Hm3 k Hk) as [?|(? & ? & b & Hb & Hkb & Ht)]; [by left|]. right. split; [done|]. split; [done|]. exists b. split; [by right|]. split; [done|].
    rewrite Ht. by rewrite (proj2 (Hs1 k (λ Hk', Hn12 k Hk' Hk))). }
  destruct Hc1 as [[-> Hdone]|[-> Hagain]].
  - exists more. split; [done|]. split; [done|]. split; [intros k Hk; apply elem_of_app; right; by apply Hm2|]. intros k [Hk|Hk]%elem_of_app; [|by apply Hrest].
    left. assert (k ∉ concat bs.*2) as Hk' by (by apply Hn12). split; [by intros ?%Hm2|]. eapply same_one; [apply (Hs' k Hk')|by apply Hdone].
  - exists (ks ++ more). rewrite app_assoc. split; [done|]. split; [apply NoDup_app; split; [done|]; split; [|done]; intros k Hk Hk'%Hm2; by apply (Hn12 k)|].
    split; [intros k; rewrite !elem_of_app; intros [?|?%Hm2]; [by left|by right]|]. intros k [Hk|Hk]%elem_of_app.
    + right. assert (k ∉ concat bs.*2) as Hk' by (by apply Hn12). destruct (Hagain k Hk) as [Ha Ht]. destruct (Hs' k Hk') as [Hsk Htk]. split; [apply elem_of_app; by left|].
      split; [by eapply same_unsettled|]. exists (p, ks). split; [by left|]. split; [done|]. by rewrite Htk.
    + destruct (Hrest k Hk) as [[Hn ?]|(Hm & ? & ?)]; [left|right]; (split; [|done]); rewrite elem_of_app; [|by right]. intros [Hk'|?]; [by apply (Hn12 k)|done].
Qed.

(** ** Grouping *)

(** The keys of a map of groups. *)
Definition all_of (m : gmap NodeID (list key)) : list key := concat (map_to_list m).*2.

Lemma all_of_perm l (m : gmap NodeID (list key)) : l ≡ₚ map_to_list m → all_of m ≡ₚ concat l.*2.
Proof.
  intros Hl. unfold all_of. symmetry. revert Hl. generalize (map_to_list m). intros l' Hl. induction Hl as [|x l l' _ IH|x y l|l1 l2 l3 _ IH1 _ IH2]; simpl; [done|by rewrite IH|rewrite !app_assoc; f_equiv; apply Permutation_app_comm|by etrans].
Qed.

Lemma all_of_add m p k : all_of (<[p := default [] (m !! p) ++ [k]]> m) ≡ₚ k :: all_of m.
Proof.
  rewrite <- insert_delete_eq. rewrite (all_of_perm ((p, default [] (m !! p) ++ [k]) :: map_to_list (delete p m))) by (symmetry; apply map_to_list_insert, lookup_delete_eq). simpl.
  destruct (m !! p) as [ks|] eqn:E; simpl; [|by rewrite delete_id]. rewrite <- app_assoc. simpl. rewrite <- Permutation_middle. f_equiv. symmetry.
  apply (all_of_perm ((p, ks) :: map_to_list (delete p m))). rewrite <- map_to_list_insert by apply lookup_delete_eq. by rewrite insert_delete_eq, insert_id.
Qed.

Definition next_primary w tr (k : key) : option NodeID := primaryExcept blake3 w k (tried_at tr k).

Lemma group_spec w tr pending (m : gmap NodeID (list key)) res m' res' : fold_left (group_primary blake3 w tr) pending (m, res) = (m', res') →
  all_of m' ≡ₚ filter (λ k, is_Some (next_primary w tr k)) pending ++ all_of m ∧
  (∀ p ks k, m' !! p = Some ks → k ∈ ks → next_primary w tr k = Some p ∨ ∃ ks0, m !! p = Some ks0 ∧ k ∈ ks0) ∧
  mr_Lacking res' = mr_Lacking res ∧ mr_Holders res' = mr_Holders res ∧
  (∀ k, k ∈ pending → next_primary w tr k = None → is_Some (mr_Failed res' !! k)) ∧
  (∀ k, is_Some (mr_Failed res !! k) → is_Some (mr_Failed res' !! k)) ∧
  (∀ k, (k ∉ pending ∨ is_Some (next_primary w tr k)) → mr_Failed res' !! k = mr_Failed res !! k).
Proof.
  revert m res. induction pending as [|k pending IH]; intros m res; cbn [fold_left].
  { intros [= <- <-]. split; [done|]. split; [intros p ks k ? ?; right; by exists ks|]. split; [done|]. split; [done|]. split; [by intros k ?%not_elem_of_nil|done]. }
  unfold group_primary at 2. fold (tried_at tr k). fold (next_primary w tr k). rewrite filter_cons. destruct (next_primary w tr k) as [p|] eqn:Ep; cbn [fst snd].
  - intros Hf. destruct (IH _ _ Hf) as (I1 & I2 & I3 & I4 & I5 & I6 & I7). rewrite decide_True by (by eexists). split; [rewrite I1, all_of_add; simpl; by rewrite <- Permutation_middle|].
    split; [|split; [done|]; split; [done|]; split; [|split; [done|]]].
    + intros q ks x Hq Hx. destruct (I2 q ks x Hq Hx) as [?|(ks0 & Hks & Hx0)]; [by left|]. destruct (decide (q = p)) as [->|]; [rewrite lookup_insert_eq in Hks|rewrite lookup_insert_ne in Hks by done; right; by exists ks0].
      injection Hks as <-. apply elem_of_app in Hx0 as [Hx0| ->%list_elem_of_singleton]; [|by left]. destruct (m !! p) as [ks1|] eqn:E; [right; by exists ks1|by apply not_elem_of_nil in Hx0].
    + intros x [->|Hx]%elem_of_cons Hn; [congruence|by apply I5].
    + intros x Hx. apply I7. destruct Hx as [[? ?]%not_elem_of_cons|?]; [by left|by right].
  - set (res1 := match mr_Failed res !! k with Some _ => res | None => _ end). intros Hf. assert (mr_Lacking res1 = mr_Lacking res ∧ mr_Holders res1 = mr_Holders res ∧
      is_Some (mr_Failed res1 !! k) ∧ (∀ x, is_Some (mr_Failed res !! x) → is_Some (mr_Failed res1 !! x)) ∧ ∀ x, x ≠ k → mr_Failed res1 !! x = mr_Failed res !! x) as (L1 & L2 & L3 & L4 & L5).
    { unfold res1. destruct (mr_Failed res !! k) eqn:E; [by rewrite E|]. simpl. split; [done|]. split; [done|]. rewrite lookup_insert_eq. split; [by eexists|].
      split; intros x Hx; (destruct (decide (x = k)) as [->|]; [rewrite ?lookup_insert_eq; done || by eexists|by rewrite lookup_insert_ne]). }
    destruct (IH _ _ Hf) as (I1 & I2 & I3 & I4 & I5 & I6 & I7). rewrite decide_False by (intros [? ?]; done). split; [done|]. split; [done|]. split; [congruence|]. split; [congruence|]. split; [|split].
    + intros x [->|Hx]%elem_of_cons Hn; [by apply I6|by apply I5].
    + intros x Hx. by apply I6, L4.
    + intros x Hx. destruct (decide (x = k)) as [->|Hne]; [exfalso; destruct Hx as [[? ?]%not_elem_of_cons|[? ?]]; congruence|]. rewrite I7, L5; [done|done|].
      destruct Hx as [[? ?]%not_elem_of_cons|?]; [by left|by right].
Qed.

Lemma concat_chunks {A} fuel n (l : list A) : (0 < n)%nat → (length l ≤ fuel)%nat → concat (chunks fuel n l) = l.
Proof.
  intros Hn. revert l. induction fuel as [|fuel IH]; intros l Hl; [by destruct l; simpl in *; [|lia]|]. destruct l as [|a l]; [done|]. cbn [chunks concat]. rewrite IH; [apply take_drop|].
  rewrite length_drop. simpl in *. lia.
Qed.

Lemma elem_of_concat {A} (x : A) (ls : list (list A)) : x ∈ concat ls ↔ ∃ l, x ∈ l ∧ l ∈ ls.
Proof.
  induction ls as [|l ls IH]; simpl; [split; [by intros ?%not_elem_of_nil|by intros (? & _ & ?%not_elem_of_nil)]|]. rewrite elem_of_app, IH. setoid_rewrite elem_of_cons. naive_solver.
Qed.

Lemma batchKeys_pos : (0 < batchKeys)%nat.
Proof. apply Nat.ltb_lt. by vm_compute. Qed.

(** The batches of a round, in the order they are sent. *)
Definition batches_of (m : gmap NodeID (list key)) : list (NodeID * list key) := concat ((λ e : NodeID * list key, pair e.1 <$> chunks (length e.2) batchKeys e.2) <$> map_to_list m).

Lemma batches_of_keys m : concat (batches_of m).*2 = all_of m.
Proof.
  unfold batches_of, all_of. induction (map_to_list m) as [|[p ks] l IH]; simpl; [done|]. rewrite fmap_app, concat_app, <- list_fmap_compose. f_equal; [|exact IH].
  rewrite (list_fmap_ext (snd ∘ pair p) id) by done. rewrite list_fmap_id. apply concat_chunks; [apply batchKeys_pos|done].
Qed.

Lemma elem_of_batches m b : b ∈ batches_of m → ∃ ks, m !! b.1 = Some ks ∧ ∀ k, k ∈ b.2 → k ∈ ks.
Proof.
  unfold batches_of. intros (l & Hb & Hl)%elem_of_concat. apply list_elem_of_fmap in Hl as ([p ks] & -> & He). apply elem_of_map_to_list in He. apply list_elem_of_fmap in Hb as (c & -> & Hc).
  exists ks. split; [done|]. simpl. intros k Hk. assert (k ∈ concat (chunks (length ks) batchKeys ks)) as Hk' by (apply elem_of_concat; by exists c).
  rewrite concat_chunks in Hk'; [done|apply batchKeys_pos|done].
Qed.

Lemma askPrimaries_eq w m res tr : askPrimaries blake3 pin ended w m res tr = fold_left (λ s b, ask_primary blake3 pin ended b.1 s b.2) (batches_of m) (w, res, tr, []).
Proof.
  unfold askPrimaries, batches_of. generalize (w, res, tr, [] : list key). induction (map_to_list m) as [|[p ks] l IH]; intros s; [done|]. cbn [fold_left fmap list_fmap concat fst snd]. rewrite fold_left_app, IH. f_equal.
  generalize (chunks (length ks) batchKeys ks). intros cs. revert s. induction cs as [|c cs IHc]; intros s; [done|]. cbn [fold_left fmap list_fmap fst snd]. apply IHc.
Qed.

(** * The negotiation *)

Lemma next_primary_new w tr k p : I w → next_primary w tr k = Some p → p ∈ U ∧ p ∉ tried_at tr k.
Proof.
  intros Hw. unfold next_primary, primaryExcept. intros Hp%head_Some_elem_of. apply list_elem_of_filter in Hp as [Hn Hp]. split; [|done]. eapply wi_owners; [done|].
  unfold preferred, rankOwners in Hp. apply list_elem_of_fmap in Hp as (sc & -> & Hsc). rewrite elem_of_sort_by in Hsc. apply elem_of_lookup_imap in Hsc as (i & y & -> & Hy).
  unfold score. destruct (cn_path w y); simpl; by eapply list_elem_of_lookup_2.
Qed.

Lemma missing_loop_spec fuel i w pending res tr : NoDup pending → I w → (∀ k, k ∈ pending → unsettled res k ∧ tried_at tr k ⊆ U ∧ (i ≤ size (tried_at tr k))%nat) → (size U < fuel + i)%nat →
  ∃ w' res', missing_loop blake3 fuel pin ended w pending res tr = Some (w', res') ∧ (∀ k, k ∈ pending → one_outcome res' k) ∧ ∀ x, x ∉ pending → same_outcome res res' x.
Proof.
  revert i w pending res tr. induction fuel as [|fuel IH]; intros i w pending res tr Hnd Hw Hp Hf.
  { destruct pending as [|k pending]; [exists w, res; split; [done|]; split; [by intros k ?%not_elem_of_nil|done]|]. destruct (Hp k) as (_ & Ht & Hi); [by left|]. apply subseteq_size in Ht. lia. }
  destruct pending as [|k0 pending0]; [exists w, res; split; [done|]; split; [by intros k ?%not_elem_of_nil|done]|]. set (pending := k0 :: pending0) in *. cbn [missing_loop pending].
  fold pending. destruct (fold_left (group_primary blake3 w tr) pending (∅, res)) as [m res1] eqn:Eg. destruct (group_spec _ _ _ _ _ _ _ Eg) as (G1 & G2 & G3 & G4 & G5 & G6 & G7).
  unfold all_of in G1 at 2. rewrite map_to_list_empty, app_nil_r in G1. rewrite askPrimaries_eq. destruct (fold_left _ (batches_of m) _) as [[[w1 res2] tr1] retry] eqn:Ea.
  assert (∀ k, unsettled res k → unsettled res1 k) as Hu by (unfold unsettled; by rewrite G3, G4). assert (∀ k, k ∈ all_of m ↔ is_Some (next_primary w tr k) ∧ k ∈ pending) as Hm by (intros k; by rewrite G1, list_elem_of_filter).
  destruct (asks_spec (batches_of m) w res1 tr [] w1 res2 tr1 retry) as (Hw1 & Hs & more & -> & Hmn & Hmi & Hmk); [|intros k; rewrite batches_of_keys, Hm; intros [_ Hk]; by apply Hu, Hp|done|done|].
  { rewrite batches_of_keys, G1. by apply NoDup_filter. }
  rewrite batches_of_keys in Hs, Hmi, Hmk. simpl. destruct (IH (S i) w1 more res2 tr1 Hmn Hw1) as (w' & res' & Hl & Hd & Hx); [|lia|].
  { intros k Hk. destruct (Hmk k (Hmi k Hk)) as [[? _]|(_ & Hun & b & Hb & Hkb & Ht)]; [done|]. split; [done|]. destruct (elem_of_batches _ _ Hb) as (ks & Hks & Hin).
    destruct (G2 _ _ _ Hks (Hin k Hkb)) as [Hnp|(? & Hbad & _)]; [|by rewrite lookup_empty in Hbad]. destruct (next_primary_new w tr k _ Hw Hnp) as [HU Hnew].
    apply Hmi, Hm in Hk as [_ Hk]. destruct (Hp k Hk) as (_ & HtU & Hi). rewrite Ht. clear -HtU HU Hnew Hi. split; [set_solver|]. rewrite size_union by set_solver. rewrite size_singleton. lia. }
  exists w', res'. split; [done|]. split.
  - intros k Hk. destruct (decide (k ∈ more)) as [|Hnm]; [by apply Hd|]. eapply same_one; [by apply Hx|]. destruct (next_primary w tr k) as [p|] eqn:Ep.
    + destruct (Hmk k) as [[_ ?]|[? _]]; [apply Hm; split; [by eexists|done]|done|done].
    + assert (k ∉ all_of m) as Hna by (rewrite Hm, Ep; by intros [[? ?] _]). destruct (Hs k Hna) as [Hsk _]. eapply same_one; [exact Hsk|]. right. right. split; [by apply Hu, Hp|by apply G5].
  - intros x Hx'. assert (x ∉ all_of m) as Hna by (rewrite Hm; tauto). eapply same_outcome_trans; [|eapply same_outcome_trans; [by apply Hs|apply Hx; by intros ?%Hmi]].
    split; [by rewrite G3|]. split; [by rewrite G4|]. apply G7. by left.
Qed.

(** A negotiation gives every key one outcome, and ends: whatever the nodes answer,
    as long as the owners the client's views name are among finitely many nodes, each
    key asked for is either lacking at its primary, or held with its holders known, or
    failed, never two of these, within one round per node and one more. *)
Theorem Missing_accounts fuel w keys : NoDup keys → I w → (size U < fuel)%nat →
  ∃ w' res, Missing blake3 fuel pin ended w keys = Some (w', res) ∧ ∀ k, (k ∈ keys → one_outcome res k) ∧ (k ∉ keys → unsettled res k ∧ mr_Failed res !! k = None).
Proof.
  intros Hnd Hw Hf. assert (∀ k, unsettled (MkMissingResult ∅ ∅ ∅) k) as Hu by (intros k; split; [intros (p & ks & Hp & _); simpl in Hp; by rewrite lookup_empty in Hp|apply lookup_empty]).
  destruct (missing_loop_spec fuel 0 w keys (MkMissingResult ∅ ∅ ∅) ∅ Hnd Hw) as (w' & res & Hm & Hd & Hx); [|lia|].
  { intros k _. split; [done|]. unfold tried_at. rewrite lookup_empty. simpl. split; [set_solver|lia]. }
  exists w', res. split; [exact Hm|]. intros k. split; [apply Hd|]. intros Hk. destruct (Hx k Hk) as (A & B & C). split; [eapply same_unsettled; [by apply Hx|done]|]. by rewrite C.
Qed.
End negotiate.

(** * A push *)

Section push.
Context (blake3 : bytes → nat → bytes) `{Core} `{Codec View} {W : Type} `{CNet W} {P : Type} `{PackStore P}.
Context (ReachableKeys : P → key → string + list key) (StoredSize : P → key → string + option Z) (ref_encode : Reference → string + bytes).
Context (cfg : pushConfig) (fuel : nat).
Implicit Types w : W.

(** Every key is acknowledged: its holders satisfy the policy of the client's view. *)
Definition acknowledged w (holders : holder_map) (all : list key) : Prop := ∀ k, k ∈ all → Placed blake3 w k (default [] (holders !! k)) = true.

Lemma not_placed_nil w holders all : not_placed blake3 w holders all = [] → acknowledged w holders all.
Proof.
  unfold not_placed. intros Hf k Hk. apply not_false_is_true. intros Hp. assert (k ∈ filter (λ k, Placed blake3 w k (default [] (holders !! k)) = false) all) as Hin by (by apply list_elem_of_filter).
  rewrite Hf in Hin. by apply not_elem_of_nil in Hin.
Qed.

(** ** What nodes reported *)

(** The requests a push makes before its reference. *)
Inductive client_step : W → W → Prop :=
  | cs_call w id m : client_step w (cl_call w id m).1
  | cs_put w p keys src : client_step w (putOnce w p keys src).1
  | cs_noted w p e : client_step w (handleErr w p e).

Definition reach : W → W → Prop := rtc client_step.

#[local] Instance reach_pre : PreOrder reach.
Proof. unfold reach. split; [intros x; apply rtc_refl|intros x y z; apply rtc_trans]. Qed.

(** The holders of a key that are in replies the client got on its way from [w] to [w']:
    a primary asked with a pin did not list the key as lacking, and named its holders or
    stood for all its owners; the reply to an upload named them; or both together. *)
Definition missing_req (ks : list key) : Msg := msg0 <| m_Type := TMissing |> <| m_Keys := RawKeys ks |> <| m_Pin := true |>.

Inductive reported w w' (k : key) : list NodeID → Prop :=
  | rep_none : reported w w' k []
  | rep_missing x p ks y resp h : reach w x → callRetry x p (missing_req ks) = (y, inr resp) → reach y w' →
      k ∈ ks → k ∉ default [] (Keys32 (m_Keys resp)) →
      h = match last (filter (λ h, kh_Key h = arr_bytes k) (m_Short resp)) with
          | Some h => IDsOf (kh_Holders h)
          | None => WriteSet (cl_placement blake3 y) k
          end → reported w w' k h
  | rep_put x p ks src y resp kh : reach w x → cl_putBatch x p ks src = (y, inr resp) → reach y w' →
      kh ∈ m_Holders resp → key_of (kh_Key kh) = Some k → reported w w' k (IDsOf (kh_Holders kh))
  | rep_both h1 h2 : reported w w' k h1 → reported w w' k h2 → reported w w' k (mergeIDs h1 h2).

Lemma reported_later w w' w'' k h : reported w w' k h → reach w' w'' → reported w w'' k h.
Proof.
  intros Hr Hw. induction Hr; [constructor|eapply rep_missing; eauto; by etrans|eapply rep_put; eauto; by etrans|by apply rep_both].
Qed.

Definition all_reported w w' (m : holder_map) : Prop := ∀ k h, m !! k = Some h → reported w w' k h.

Lemma all_reported_later w w' w'' m : all_reported w w' m → reach w' w'' → all_reported w w'' m.
Proof. intros Hm Hw k h Hk. by eapply reported_later; [apply Hm|]. Qed.

Lemma all_reported_union w w' m1 m2 : all_reported w w' m1 → all_reported w w' m2 → all_reported w w' (m1 ∪ m2).
Proof. intros H1' H2' k h [?|[_ ?]]%lookup_union_Some_raw; auto. Qed.

Lemma call_stale_reach n w id m : reach w (call_stale n w id m).1.
Proof.
  revert w. induction n as [|n IH]; intros w; simpl; pose proof (cs_call w id m) as Hc; destruct (cl_call w id m) as [w1 [e|resp]]; simpl in *; try (by apply rtc_once).
  destruct (net_IsCode _ _); simpl; [|by apply rtc_once]. etrans; [by apply rtc_once|apply IH].
Qed.

Lemma put_attempts_reach n w p keys src : reach w (put_attempts n w p keys src).1.
Proof.
  revert w. induction n as [|n IH]; intros w; simpl; pose proof (cs_put w p keys src) as Hc; destruct (putOnce w p keys src) as [w1 [e|resp]]; simpl in *; try (by apply rtc_once);
    (assert (reach w (if net_IsCode e CodeStaleView then handleErr w1 p e else w1)) as Hw; [etrans; [by apply rtc_once|]; destruct (net_IsCode e CodeStaleView); [apply rtc_once, cs_noted|reflexivity]|]); [done|].
  destruct (_ || _); simpl; [|done]. etrans; [exact Hw|apply IH].
Qed.

(** A negotiation. *)
Lemma note_keys_reported w0 w p ks0 resp ks res x : reach w0 x → callRetry x p (missing_req ks0) = (w, inr resp) → ks ⊆ ks0 →
  all_reported w0 w (mr_Holders res) →
  all_reported w0 w (mr_Holders (fold_left (note_key blake3 w p (default [] (Keys32 (m_Keys resp))) (m_Short resp)) ks res)).
Proof.
  intros Hx Hc. revert res. induction ks as [|k ks IH]; intros res Hsub Hr; cbn [fold_left]; [done|]. apply IH; [set_solver|].
  unfold note_key. case_decide as Hl; [done|]. cbn [mr_Holders set_field]. intros k' h. simpl. destruct (decide (k' = k)) as [->|Hne].
  - rewrite lookup_insert_eq. intros [= <-]. eapply (rep_missing w0 w k x p ks0 w resp); try done. apply Hsub. by left.
  - rewrite lookup_insert_ne by done. apply Hr.
Qed.

Lemma asks_reported w0 ended (bs : list (NodeID * list key)) w res tr retry w' res' tr' retry' : reach w0 w → all_reported w0 w (mr_Holders res) →
  fold_left (λ s b, ask_primary blake3 true ended b.1 s b.2) bs (w, res, tr, retry) = (w', res', tr', retry') →
  reach w w' ∧ all_reported w0 w' (mr_Holders res').
Proof.
  revert w res tr retry. induction bs as [|[p ks] bs IH]; intros w res tr retry H0w Hr; cbn [fold_left fst snd]; [by intros [= <- <- _ _]|].
  unfold ask_primary at 2. fold (missing_req ks). pose proof (call_stale_reach 3 w p (missing_req ks)) as Hc. fold (callRetry w p (missing_req ks)) in Hc.
  destruct (callRetry w p (missing_req ks)) as [w1 [e|resp]] eqn:Ec; cbn [fst] in Hc.
  - assert (all_reported w0 w1 (mr_Holders res)) as Hr1 by by eapply all_reported_later. assert (reach w0 w1) as H01 by by etrans.
    destruct (_ || ended); intros Hf; apply IH in Hf as [? ?]; try done; (split; [by etrans|done]).
  - assert (reach w0 w1) as H01 by by etrans.
    intros Hf. apply IH in Hf as [? ?]; [split; [by etrans|done]|done|]. apply (note_keys_reported w0 w1 p ks resp ks res w); try done. by eapply all_reported_later.
Qed.

Lemma group_primary_holders w tr pending s : mr_Holders (fold_left (group_primary blake3 w tr) pending s).2 = mr_Holders s.2.
Proof.
  revert s. induction pending as [|k pending IH]; intros s; cbn [fold_left]; [done|]. rewrite IH. unfold group_primary.
  destruct (primaryExcept _ _ _ _); [done|]. cbn [snd]. by destruct (mr_Failed s.2 !! k).
Qed.

Lemma missing_loop_reported w0 n ended w pending res tr w' res' : reach w0 w → all_reported w0 w (mr_Holders res) →
  missing_loop blake3 n true ended w pending res tr = Some (w', res') → reach w w' ∧ all_reported w0 w' (mr_Holders res').
Proof.
  revert w pending res tr. induction n as [|n IH]; intros w pending res tr H0w Hr; (destruct pending as [|k pending]; [by intros [= <- <-]|]); [done|]. cbn [missing_loop].
  pose proof (group_primary_holders w tr (k :: pending) (∅, res)) as Hg. destruct (fold_left (group_primary blake3 w tr) (k :: pending) (∅, res)) as [m res1]. cbn [snd] in Hg.
  rewrite askPrimaries_eq. destruct (fold_left _ (batches_of m) _) as [[[w1 res2] tr1] retry] eqn:Ea.
  destruct (asks_reported w0 _ _ _ _ _ _ _ _ _ _ H0w ltac:(by rewrite Hg) Ea) as [Hw1 Hr2]. intros Hl. destruct (IH _ _ _ _ ltac:(by etrans) Hr2 Hl) as [Hw2 Hr3]. split; [by etrans|done].
Qed.

Lemma Missing_reported w0 n ended w keys w' res : reach w0 w → Missing blake3 n true ended w keys = Some (w', res) → reach w w' ∧ all_reported w0 w' (mr_Holders res).
Proof. intros Hw. apply missing_loop_reported; [done|]. intros k h. simpl. by rewrite lookup_empty. Qed.

(** An upload. *)
Lemma merge_reported w0 w x p ks src resp r : reach w0 x → cl_putBatch x p ks src = (w, inr resp) → all_reported w0 w (pr_Holders r) → all_reported w0 w (pr_Holders (merge r resp)).
Proof.
  intros Hx Hc. unfold merge. cbn [pr_Holders set_field]. simpl. generalize (pr_Holders r). assert (m_Holders resp ⊆ m_Holders resp) as Hsub by done. revert Hsub.
  generalize (m_Holders resp) at 1 3. intros l. induction l as [|kh l IH]; intros Hsub m Hm; cbn [fold_left]; [done|]. apply IH; [set_solver|].
  destruct (key_of (kh_Key kh)) as [k|] eqn:Ek; [|done]. intros k' h. destruct (decide (k' = k)) as [->|Hne]; [rewrite lookup_insert_eq|rewrite lookup_insert_ne by done; apply Hm].
  intros [= <-]. eapply (rep_put w0 w k x p ks src w resp); try done. apply Hsub. by left.
Qed.

Lemma put_batches_reported w0 seen w p src bs r : reach w0 w → all_reported w0 w (pr_Holders r) →
  let s := put_batches seen w p src bs r in reach w s.1 ∧ all_reported w0 s.1 (pr_Holders s.2).
Proof.
  revert w r. induction bs as [|b bs IH]; intros w r H0w Hr; cbn [put_batches]; [done|]. destruct (_ && _); [done|].
  pose proof (put_attempts_reach 3 w p b src) as Hp. fold (cl_putBatch w p b src) in Hp. destruct (cl_putBatch w p b src) as [w1 [e|resp]] eqn:Ec; cbn [fst] in Hp; assert (reach w0 w1) as H01 by by etrans.
  - match goal with |- context [put_batches _ w1 _ _ _ ?r1] => destruct (IH w1 r1 H01) as [? ?] end; [|split; [by etrans|done]].
    destruct (pr_Errors r !! p); by eapply all_reported_later.
  - destruct (IH w1 (merge r resp) H01) as [? ?]; [|split; [by etrans|done]]. apply (merge_reported w0 w1 w p b src resp r); try done. by eapply all_reported_later.
Qed.

Lemma upload_reported w0 local w m : reach w0 w → let s := upload StoredSize cfg local w m in reach w s.1 ∧ all_reported w0 s.1 (pr_Holders s.2).
Proof.
  intros H0w. unfold upload, cl_Put. assert (all_reported w0 w (pr_Holders (MkPutResult ∅ ∅ ∅ ∅))) as Hr by (intros k h; simpl; by rewrite lookup_empty).
  revert Hr. generalize (MkPutResult ∅ ∅ ∅ ∅). revert w H0w. induction (map_to_list m) as [|[p ks] l IH]; intros w H0w r Hr; cbn [fold_left fst snd]; [done|].
  set (bs := batches _ _ _ _). destruct (put_batches_reported w0 (pc_seen cfg) w p (record_source local) bs r H0w Hr) as [Hw1 Hr1].
  destruct (put_batches _ w p _ bs r) as [w1 r1]. cbn [fst snd] in *. destruct (IH w1 ltac:(by etrans) r1 Hr1) as [? ?]. split; [by etrans|done].
Qed.

Lemma directFill_reported w0 local w short holders : reach w0 w → all_reported w0 w holders →
  let s := directFill blake3 StoredSize cfg local w short holders in reach w s.1 ∧ all_reported w0 s.1 s.2.
Proof.
  intros H0w Hr. unfold directFill. case_decide; [done|]. destruct (upload_reported w0 local w (fill_groups blake3 w short holders) H0w) as [Hw1 Hr1].
  destruct (upload _ _ _ w _) as [w1 pr]. cbn [fst snd] in *. split; [done|]. assert (all_reported w0 w1 holders) as Hh by by eapply all_reported_later.
  revert Hr1. apply (map_fold_weak_ind (λ (out m : holder_map), all_reported w0 w1 m → all_reported w0 w1 out)); [done|].
  intros k h m out Hk IH Hm k' h'. assert (all_reported w0 w1 m) as Hm'.
  { intros x hx Hx. apply Hm. rewrite lookup_insert_ne; [done|]. intros ->. congruence. }
  destruct (decide (k' = k)) as [->|Hne]; [|rewrite lookup_insert_ne by done; by apply IH]. rewrite lookup_insert_eq. intros [= <-].
  apply rep_both; [destruct (holders !! k) eqn:Eh; [by apply Hh|constructor]|]. apply Hm, lookup_insert_eq.
Qed.

(** The rounds: what they end with was reported, and is enough. *)
Lemma push_round_reported w0 local w all holders uploaded w' holders' uploaded' r : reach w0 w → all_reported w0 w holders →
  push_round blake3 StoredSize cfg fuel local w all holders uploaded = Some (w', holders', uploaded', r) →
  reach w w' ∧ all_reported w0 w' holders' ∧ match r with inr short => short = not_placed blake3 w' holders' all | inl _ => True end.
Proof.
  intros H0w Hr. unfold push_round. destruct (Missing _ _ _ _ _ _) as [[w1 mr]|] eqn:Em; [|done]. destruct (Missing_reported w0 _ _ _ _ _ _ H0w Em) as [Hw1 Hr1].
  assert (all_reported w0 w1 (mr_Holders mr ∪ holders)) as Hr2 by (apply all_reported_union; [done|by eapply all_reported_later]).
  simpl. intros [= E]. revert E. case_decide; [|by intros [= <- <- _ <-]]. case_decide; [by intros [= <- <- _ <-]|].
  destruct (upload_reported w0 local w1 (mr_Lacking mr)) as [Hw2 Hr3]; [by etrans|]. destruct (upload _ _ _ _ _) as [w2 pr]. cbn [fst snd] in *.
  assert (all_reported w0 w2 (pr_Holders pr ∪ (mr_Holders mr ∪ holders))) as Hr4 by (apply all_reported_union; [done|by eapply all_reported_later]).
  case_decide; intros [= <- <- _ <-]; (split; [by etrans|done]).
Qed.

Lemma push_rounds_placed w0 rounds local w all holders uploaded lastPin w' holders' uploaded' : (0 < rounds)%nat → reach w0 w → all_reported w0 w holders →
  push_rounds blake3 StoredSize cfg fuel rounds local w all holders uploaded lastPin = Some (w', holders', uploaded', None) →
  reach w w' ∧ all_reported w0 w' holders' ∧ acknowledged w' holders' all.
Proof.
  revert w holders uploaded lastPin. induction rounds as [|rounds IH]; intros w holders uploaded lastPin Hr H0w Hh; [lia|]. cbn [push_rounds].
  destruct (push_round _ _ _ _ _ _ _ _ _) as [[[[w1 h1] u1] [e|short]]|] eqn:Er; cbn [mbind option_bind]; [done| |done].
  destruct (push_round_reported w0 _ _ _ _ _ _ _ _ _ H0w Hh Er) as (Hw1 & Hh1 & Es). assert (reach w0 w1) as H01 by by etrans. destruct short as [|k short].
  - intros [= <- <- _]. split; [done|]. split; [done|]. by apply not_placed_nil.
  - case_bool_decide as H1'; [done|]. destruct (if bool_decide (S rounds = 2%nat) then _ else _) as [w2 h2] eqn:Ed.
    assert (reach w1 w2 ∧ all_reported w0 w2 h2) as [Hw2 Hh2].
    { destruct (bool_decide (S rounds = 2%nat)); [|injection Ed as <- <-; by split]. pose proof (directFill_reported w0 local w1 (k :: short) h1 H01 Hh1) as Hd. by rewrite Ed in Hd. }
    assert (reach w0 w2) as H02 by by etrans. assert (reach w w2) as H12 by by etrans.
    destruct (_ <? _)%Z.
    + destruct (Missing _ _ _ _ _ _) as [[w3 mr]|] eqn:Em; cbn [mbind option_bind]; [|done]. destruct (Missing_reported w0 _ _ _ _ _ _ H02 Em) as [Hw3 _].
      intros Hl. destruct (IH w3 h2 u1 (cn_now w3) ltac:(lia) ltac:(by etrans) ltac:(by eapply all_reported_later) Hl) as (? & ? & ?). split; [|done]. etrans; [exact H12|]. by etrans.
    + intros Hl. destruct (IH w2 h2 u1 lastPin ltac:(lia) H02 Hh2 Hl) as (? & ? & ?). split; [by etrans|done].
Qed.

Lemma probeHinted_reach w : reach w (probeHinted w).
Proof.
  unfold probeHinted. generalize (elements (ac_unreach (cn_self w))). intros l. revert w. induction l as [|id l IH]; intros w; cbn [fold_left]; [reflexivity|].
  etrans; [apply rtc_once, cs_call|apply IH].
Qed.

Lemma ref_attempts_accepted more local w all enc cond w' version : ref_attempts blake3 StoredSize cfg fuel more local w all enc cond = Some (w', inr version) →
  ∃ w1 resp, any_wire w1 (cond_apply cond (msg0 <| m_Type := TRefPut |> <| m_Record := enc |>)) = (w', inr resp) ∧ m_Type resp = TOK ∧ m_Version resp = version.
Proof.
  revert w. induction more as [|more IH]; intros w; cbn [ref_attempts]; unfold RefPut;
    destruct (any_wire w _) as [w1 [e|resp]] eqn:Ea; try (unfold refErr; destruct (IsCode e _); done);
    (destruct (Z.eqb_spec (m_Type resp) TOK) as [Et|]; [intros [= <- <-]; by exists w, resp|]); (destruct (_ =? _)%Z; [done|]); (destruct (_ =? _)%Z; [|done]); [done|].
  destruct (renegotiate _ _ _ _ _ _ _) as [w2|]; simpl; [apply IH|done].
Qed.

(** C17 A push writes its reference only after every object was acknowledged.  When it
    succeeds, the client had come by its requests to a point at which every key that is
    reachable from the root satisfied the policy (min_replicas of its owners, and of a
    pending placement's) by holders that nodes reported on the way: in a reply to a
    negotiation with a pin that did not list the key as lacking, which names its holders
    or stands for all its owners, or in the reply to an upload.  From there on it wrote a
    reference that names the root, and a node accepted it with the version the push
    reports.  A negotiation's reply is taken at its word: one whose list of lacking keys
    does not decode counts as lacking nothing ([undecoded_lacking_held]). *)
Theorem push_acknowledged local w root name user cond w' st : Push blake3 ReachableKeys StoredSize ref_encode cfg fuel local w root name user cond = Some (w', st, None) →
  ∃ all w1 holders enc w2 resp, ReachableKeys local root = inr all ∧ st_Keys st = length all ∧
  reach w w1 ∧ acknowledged w1 holders all ∧ all_reported w w1 holders ∧
  ref_encode (MkReference name (arr_bytes root) (cn_now w1) user) = inr enc ∧
  ref_attempts blake3 StoredSize cfg fuel 2 local w1 all enc cond = Some (w', inr (st_Version st)) ∧
  any_wire w2 (cond_apply cond (msg0 <| m_Type := TRefPut |> <| m_Record := enc |>)) = (w', inr resp) ∧ m_Type resp = TOK ∧ m_Version resp = st_Version st.
Proof.
  unfold Push. destruct (ReachableKeys local root) as [e|all]; [done|]. destruct (push_rounds _ _ _ _ _ _ _ _ _ _ _) as [[[[w1 h1] u1] [e|]]|] eqn:Er; cbn [mbind option_bind]; [done| |done].
  destruct (ref_encode _) as [e|enc] eqn:Ee; [done|]. destruct (ref_attempts _ _ _ _ _ _ _ _ _ _) as [[w2 [e|version]]|] eqn:Ea; cbn [mbind option_bind]; [done| |done]. intros [= <- <-].
  destruct (ref_attempts_accepted _ _ _ _ _ _ _ _ Ea) as (w3 & resp & ? & ? & ?). pose proof (probeHinted_reach w) as Hp.
  destruct (push_rounds_placed w 3 local _ all ∅ 0 _ _ _ _ ltac:(lia) Hp ltac:(intros k h; by rewrite lookup_empty) Er) as (Hw & Hh & Hack).
  exists all, w1, h1, enc, w3, resp. split; [done|]. split; [done|]. split; [by etrans|]. rewrite <- Ee. done.
Qed.

(** A reply whose list of lacking keys holds one of another length is read as lacking
    nothing: every key of the batch counts as held by all its owners. *)
Theorem undecoded_lacking_held ended w p ks w1 resp k res tr retry :
  callRetry w p (missing_req ks) = (w1, inr resp) → Keys32 (m_Keys resp) = None → m_Short resp = [] → k ∈ ks →
  mr_Holders (ask_primary blake3 true ended p (w, res, tr, retry) ks).1.1.2 !! k = Some (WriteSet (cl_placement blake3 w1) k).
Proof.
  intros Hc Hk Hs Hin. unfold ask_primary. fold (missing_req ks). rewrite Hc, Hk, Hs. cbn [fst snd default].
  assert (∀ res, k ∈ ks ∨ mr_Holders res !! k = Some (WriteSet (cl_placement blake3 w1) k) →
    mr_Holders (fold_left (note_key blake3 w1 p [] []) ks res) !! k = Some (WriteSet (cl_placement blake3 w1) k)) as Hg; [|apply Hg; by left].
  clear Hin Hc. induction ks as [|x ks IH]; intros r; cbn [fold_left]; [by intros [?%not_elem_of_nil|?]|]. intros Hr. apply IH.
  destruct (decide (k ∈ ks)); [by left|]. right. unfold note_key. rewrite decide_False by apply not_elem_of_nil. simpl.
  destruct (decide (k = x)) as [->|Hne]; [apply lookup_insert_eq|]. rewrite lookup_insert_ne by done. destruct Hr as [[?|?]%elem_of_cons|?]; done.
Qed.
End push.

(** * A small cluster *)

(** The first node cannot be reached; the others lack one blob, store what they are
    sent, and take every reference. *)
#[local] Instance up_net : CNet access := {
  cn_self w := w;
  cn_set _ c := c;
  cn_now _ := 0%Z;
  cn_path _ _ := None;
  cn_call w id m :=
    if decide (id = toy_id x01) then (w, inl NDeadline)
    else if (m_Type m =? TMissing)%Z then (w, inr (msg0 <| m_Type := TMissing |> <| m_Keys := filter (λ k, k = arr_bytes (small_blob x05)) (m_Keys m) |>))
    else if (m_Type m =? TRefPut)%Z then (w, inr (msg0 <| m_Type := TOK |> <| m_Version := [x09] |>))
    else (w, inl NDeadline);
  cn_put w id m recs := (w, inr (msg0 <| m_Type := TPutResult |> <| m_Holders := (λ r, MkKeyHolders r (arr_bytes <$> [toy_id x01; toy_id x02; toy_id x03])) <$> recs |>));
  cn_get w _ _ := (w, inl (XNoted NDeadline));
}.

Definition up_access : access := MkAccess (Some small_view) ∅ ∅ ∅ [].
Definition up_keys : list key := [small_blob x05; small_blob x06].

#[local] Instance up_within : Within toy_blake3 (λ w : access, ac_view w = Some small_view) (list_to_set (NID <$> Nodes small_view)).
Proof.
  split.
  - intros w id m Hw. unfold cl_call. simpl. repeat (case_decide || case_match; simplify_eq; try done).
  - intros w k o Hw Ho. rewrite elem_of_list_to_set. unfold cl_placement in Ho. simpl in Ho. rewrite Hw in Ho. simpl in Ho. rewrite Owners_of_eq in Ho.
    rewrite <- (rank_ids_perm toy_blake3 (Nodes small_view) k). eapply sublist_elem_of; [apply owner_ids_sublist|exact Ho].
Defined.

Lemma Missing_accounts_witness : ∃ w' res, Missing toy_blake3 4 true false up_access up_keys = Some (w', res) ∧ one_outcome res (small_blob x05) ∧ one_outcome res (small_blob x06).
Proof.
  destruct (Missing_accounts toy_blake3 (λ w : access, ac_view w = Some small_view) (list_to_set (NID <$> Nodes small_view)) true false 4 up_access up_keys) as (w' & res & Hm & Hk).
  - by apply (bool_decide_unpack _); vm_compute.
  - reflexivity.
  - by apply (bool_decide_unpack _); vm_compute.
  - exists w', res. split; [exact Hm|]. split; apply Hk; by apply (bool_decide_unpack _); vm_compute.
Defined.

Definition up_local : small_store := [(0, up_keys)].
Definition up_cfg : pushConfig := MkPushConfig 1000 1000000 false (λ _, false).
Definition up_push := Push toy_blake3 (λ (_ : small_store) _, inr up_keys) (λ _ _, inr (Some 32%Z)) (λ r, inr (Gate.ref_Key r)) up_cfg 4 up_local up_access (small_blob x05) "r" "u" (MkCond None false None false true).

Lemma push_acknowledged_witness : ∃ w1 holders, reach up_access w1 ∧ acknowledged toy_blake3 w1 holders up_keys ∧ all_reported toy_blake3 up_access w1 holders.
Proof.
  assert (match up_push with Some (_, _, None) => true | _ => false end = true) as Hp by (vm_compute; reflexivity).
  destruct up_push as [[[w' st] [e|]]|] eqn:E; try discriminate Hp.
  destruct (push_acknowledged toy_blake3 (λ (_ : small_store) _, inr up_keys) (λ _ _, inr (Some 32%Z)) (λ r, inr (Gate.ref_Key r)) up_cfg 4 up_local up_access (small_blob x05) "r" "u"
    (MkCond None false None false true) w' st E) as (all & w1 & holders & enc & w2 & resp & Hall & _ & Hr & Hack & Hrep & _).
  injection Hall as <-. exists w1, holders. exact (conj Hr (conj Hack Hrep)).
Defined.
