(* ===== verification/Ticket.v ===== *)
(** Tickets (src/ticket/ticket.go): the text a client bootstraps from, either a cluster
    ticket in base32 or a list of node ids.

    Texts are ASCII here: on other bytes the case mappings and the trimming of spaces of
    the standard library work on runes.  The CBOR codec is [Codec]; the parser of a node
    id belongs to go-iroh and is a parameter. *)
From S2P Require Import Prelude Store.

Local Open Scope N_scope.

(** * Base32, the standard alphabet without padding *)

(** [w] digits of [n] in base 32, the first the most significant. *)
Fixpoint digits32 (w : nat) (n : N) : list N :=
  match w with O => [] | S w => digits32 w (n / 32) ++ [n mod 32] end.

Definition undigits32 (ds : list N) : N := fold_left (λ acc q, acc * 32 + q) ds 0.

(** The characters that [k] bytes of a group of five take. *)
Definition chars_of (k : nat) : nat := match k with 0 => 0 | 1 => 2 | 2 => 4 | 3 => 5 | 4 => 7 | _ => 8 end%nat.

(** The bytes that [c] characters of a group of eight give: a group of one, three or six
    gives none. *)
Definition bytes_of (c : nat) : nat := match c with 2 => 1 | 4 => 2 | 5 => 3 | 7 => 4 | 8 => 5 | _ => 0 end%nat.

Definition pad {A} (n : nat) (x : A) (l : list A) : list A := l ++ replicate (n - length l) x.

Definition encode_group (g : bytes) : list N := take (chars_of (length g)) (digits32 8 (be_decode (pad 5 x00 g))).

Definition decode_group (ds : list N) : bytes := take (bytes_of (length ds)) (be_encode 5 (undigits32 (pad 8 0 ds))).

(** Groups of [n], the last one shorter. *)
Fixpoint groups {A} (fuel n : nat) (l : list A) : list (list A) :=
  match fuel, l with
  | S fuel, _ :: _ => take n l :: groups fuel n (drop n l)
  | _, _ => []
  end.

(** The alphabet: A to Z, 2 to 7. *)
Definition alphabet (q : N) : byte := byte_of_N (if q <? 26 then 65 + q else 24 + q).

Definition letter_value (b : byte) : option N :=
  let n := Byte.to_N b in
  if (65 <=? n) && (n <=? 90) then Some (n - 65) else if (50 <=? n) && (n <=? 55) then Some (n - 24) else None.

(** [enc.EncodeToString] and [enc.DecodeString]; line breaks are dropped, a character
    outside the alphabet is an error. *)
Definition EncodeToString (b : bytes) : bytes := alphabet <$> concat (encode_group <$> groups (length b) 5 b).

Fixpoint letters (s : bytes) : option (list N) :=
  match s with [] => Some [] | b :: s => q ← letter_value b; qs ← letters s; Some (q :: qs) end.

Definition line_break (b : byte) : bool := bool_decide (b = x0a) || bool_decide (b = x0d).

Definition DecodeString (s : bytes) : option bytes :=
  qs ← letters (filter (λ b, line_break b = false) s);
  Some (concat (decode_group <$> groups (length qs) 8 qs)).

(** * Case, spaces, fields *)

Definition lower (b : byte) : byte := let n := Byte.to_N b in if (65 <=? n) && (n <=? 90) then byte_of_N (n + 32) else b.
Definition upper (b : byte) : byte := let n := Byte.to_N b in if (97 <=? n) && (n <=? 122) then byte_of_N (n - 32) else b.

Definition space (b : byte) : bool := existsb (λ c, bool_decide (b = c)) [x09; x0a; x0b; x0c; x0d; x20].

Fixpoint trim_left (s : bytes) : bytes := match s with b :: s' => if space b then trim_left s' else s | [] => [] end.

(** [strings.TrimSpace]. *)
Definition TrimSpace (s : bytes) : bytes := reverse (trim_left (reverse (trim_left s))).

(** [strings.FieldsFunc]: the fields between separators, without the empty ones. *)
Fixpoint fields (sep : byte → bool) (s cur : bytes) : list bytes :=
  match s with
  | [] => if bool_decide (cur = []) then [] else [cur]
  | b :: s => if sep b then (if bool_decide (cur = []) then fields sep s [] else cur :: fields sep s []) else fields sep s (cur ++ [b])
  end.

(** [strings.HasPrefix]. *)
Definition has_prefix (p s : bytes) : bool := bool_decide (take (length p) s = p).

(** [strings.Join] with a comma. *)
Fixpoint join_comma (l : list bytes) : bytes := match l with [] => [] | [x] => x | x :: l => x ++ x2c :: join_comma l end.

(** * Tickets *)

Record Member := MkMember { mb_ID : bytes; mb_Addrs : list string }.

Record Ticket := MkTicket { tk_ClusterID : bytes; tk_Incarnation : N; tk_Members : list Member }.

#[global] Instance Member_eq_dec : EqDecision Member.
Proof. solve_decision. Defined.

#[global] Instance Ticket_eq_dec : EqDecision Ticket.
Proof. solve_decision. Defined.

Definition Prefix : bytes := of_string "dstore1".

Section ticket.
Context `{Codec Ticket} (ParseEndpointID : bytes → string + bytes).

Definition Encode (t : Ticket) : bytes := Prefix ++ (lower <$> EncodeToString (marshal t)).

(** [IDs]: the ids of 32 bytes in hex, each once. *)
Fixpoint ids_loop (ms : list Member) (seen : list bytes) : list bytes :=
  match ms with
  | [] => []
  | m :: ms =>
      let id := hex_encode (mb_ID m) in
      if bool_decide (length (mb_ID m) = 32%nat) && bool_decide (id ∉ seen) then id :: ids_loop ms (id :: seen) else ids_loop ms seen
  end.

Definition IDs (t : Ticket) : bytes := join_comma (ids_loop (tk_Members t) []).

Definition separator (b : byte) : bool := existsb (λ c, bool_decide (b = c)) [x2c; x20; x09; x0a; x0d].

Fixpoint members_of (fs : list bytes) : string + list Member :=
  match fs with
  | [] => inr []
  | f :: fs =>
      match ParseEndpointID (lower <$> f) with
      | inl e => inl ("ticket: neither a dstore1 ticket nor a node id: " +:+ e)%string
      | inr id => match members_of fs with inl e => inl e | inr ms => inr (MkMember id [] :: ms) end
      end
  end.

Definition parseIDs (s : bytes) : string + Ticket :=
  match members_of (fields separator s []) with
  | inl e => inl e
  | inr [] => inl "ticket: no members"%string
  | inr ms => inr (MkTicket [] 0 ms)
  end.

Definition Parse (s : bytes) : string + Ticket :=
  let s := TrimSpace s in
  if bool_decide (s = []) then inl "ticket: empty"%string
  else if negb (has_prefix Prefix (lower <$> s)) then parseIDs s
  else match DecodeString (upper <$> drop (length Prefix) s) with
  | None => inl "ticket: illegal base32 data"%string
  | Some b =>
      match unmarshal b with
      | inl e => inl ("ticket: " +:+ e)%string
      | inr t => if bool_decide (tk_Members t = []) then inl "ticket: no members"%string else inr t
      end
  end.
End ticket.

(** * Round trips *)

Lemma undigits32_snoc ds q : undigits32 (ds ++ [q]) = undigits32 ds * 32 + q.
Proof. unfold undigits32. by rewrite fold_left_app. Qed.

Lemma length_digits32 w n : length (digits32 w n) = w.
Proof. revert n. induction w as [|w IH]; intros n; simpl; [done|]. rewrite length_app, IH. simpl. lia. Qed.

Lemma undigits32_digits32 w n : n < 32 ^ N.of_nat w → undigits32 (digits32 w n) = n.
Proof.
  revert n. induction w as [|w IH]; intros n Hn; simpl; [change (n < 1) in Hn; change (0 = n); lia|]. rewrite undigits32_snoc, IH; [rewrite N.mul_comm; symmetry; apply N.div_mod'|].
  apply N.Div0.div_lt_upper_bound. rewrite Nat2N.inj_succ, N.pow_succ_r' in Hn. done.
Qed.

(** The digits of a multiple of a power of 32 end in zeros. *)
Lemma digits32_mult w j n : digits32 (w + j) (n * 32 ^ N.of_nat j) = digits32 w n ++ replicate j 0.
Proof.
  revert n. induction j as [|j IH]; intros n; [rewrite Nat.add_0_r, N.mul_1_r; by rewrite app_nil_r|].
  rewrite Nat.add_succ_r, Nat2N.inj_succ, N.pow_succ_r'. cbn [digits32]. rewrite (N.mul_comm 32), N.mul_assoc, N.div_mul, N.Div0.mod_mul, IH by done.
  rewrite <- app_assoc. f_equal. change (replicate (S j) 0) with (0 :: replicate j 0). by rewrite <- replicate_cons_app.
Qed.

Lemma be_decode_zeros g j : be_decode (g ++ replicate j x00) = be_decode g * 256 ^ N.of_nat j.
Proof.
  induction j as [|j IH]; [by rewrite app_nil_r, N.mul_1_r|]. rewrite replicate_S_end, app_assoc, be_decode_snoc, IH, Nat2N.inj_succ, N.pow_succ_r'. change (Byte.to_N x00) with 0. lia.
Qed.

Lemma length_encode_group g : (length g ≤ 5)%nat → length (encode_group g) = chars_of (length g).
Proof. intros Hg. unfold encode_group. rewrite length_take, length_digits32. do 6 (destruct g as [|? g]; [done|]). simpl in Hg. lia. Qed.

(** The low digits of a short group are zero. *)
Lemma pad_encode_group g : (length g ≤ 5)%nat → pad 8 0 (encode_group g) = digits32 8 (be_decode (pad 5 x00 g)).
Proof.
  intros Hg. unfold pad at 1. rewrite length_encode_group by done. unfold encode_group, pad. rewrite be_decode_zeros. set (n := be_decode g).
  assert (∃ c j r, (chars_of (length g) = c ∧ 8 = c + j)%nat ∧ 256 ^ N.of_nat (5 - length g) = r * 32 ^ N.of_nat j) as (c & j & r & [Hc Hj] & Hr).
  { destruct (length g) as [|[|[|[|[|[|l]]]]]]; [exists 0%nat, 8%nat, 1|exists 2%nat, 6%nat, 4|exists 4%nat, 4%nat, 16|exists 5%nat, 3%nat, 2|exists 7%nat, 1%nat, 8|exists 8%nat, 0%nat, 1|lia]; done. }
  rewrite Hc, Hr, N.mul_assoc. rewrite Hj. replace (c + j - c)%nat with j by lia. rewrite digits32_mult. by rewrite take_app_length' by (by rewrite length_digits32).
Qed.

Lemma decode_encode_group g : (length g ≤ 5)%nat → decode_group (encode_group g) = g.
Proof.
  intros Hg. unfold decode_group. rewrite pad_encode_group, length_encode_group by done. assert (length (pad 5 x00 g) = 5%nat) as Hl by (unfold pad; rewrite length_app, length_replicate; lia).
  rewrite undigits32_digits32 by (pose proof (be_decode_lt (pad 5 x00 g)) as Hb; rewrite Hl in Hb; exact Hb). rewrite <- Hl at 1. rewrite be_encode_decode. unfold pad.
  assert (bytes_of (chars_of (length g)) = length g) as -> by (do 6 (destruct g as [|? g]; [done|]); simpl in Hg; lia). apply take_app_length.
Qed.

Lemma groups_step {A} fuel n (a b : list A) : (0 < n)%nat → length a = n → groups (S fuel) n (a ++ b) = a :: groups fuel n b.
Proof. intros Hn Ha. destruct (a ++ b) as [|x l] eqn:E; [apply app_eq_nil in E as [-> _]; simpl in Ha; lia|]. cbn [groups]. rewrite <- E, take_app_length', drop_app_length' by done. done. Qed.

Lemma groups_short {A} fuel n (a : list A) : (0 < length a ≤ n)%nat → groups (S fuel) n a = [a].
Proof. intros Ha. destruct a as [|x l]; [simpl in Ha; lia|]. cbn [groups]. rewrite take_ge, drop_ge by lia. by destruct fuel. Qed.

Lemma groups_fuel {A} f1 f2 n (l : list A) : (0 < n)%nat → (length l ≤ f1)%nat → (length l ≤ f2)%nat → groups f1 n l = groups f2 n l.
Proof.
  intros Hn. revert f2 l. induction f1 as [|f1 IH]; intros f2 l H1 H2; [destruct l; [by destruct f2|simpl in H1; lia]|]. destruct l as [|x l]; [by destruct f2|]. destruct f2 as [|f2]; [simpl in H2; lia|].
  cbn [groups]. f_equal. apply IH; rewrite length_drop; simpl in *; lia.
Qed.

(** The groups of the encoded text are the encoded groups. *)
Lemma groups_encoded fuel b qs : (length b ≤ fuel)%nat → qs = concat (encode_group <$> groups fuel 5 b) → concat (decode_group <$> groups (length qs) 8 qs) = b.
Proof.
  revert b qs. induction fuel as [|fuel IH]; intros b qs Hb ->; [destruct b; [done|simpl in Hb; lia]|]. destruct (decide (length b ≤ 5)%nat) as [Hs|Hl].
  - destruct b as [|x b]; [done|]. rewrite (groups_short fuel 5) by (simpl in *; lia). cbn [fmap list_fmap concat]. rewrite app_nil_r. set (qs := encode_group (x :: b)).
    assert (0 < length qs ≤ 8)%nat as Hq by (unfold qs; rewrite length_encode_group by done; do 6 (destruct b as [|? b]; [simpl; lia|]); simpl in Hs; lia).
    destruct (length qs) as [|l] eqn:El; [lia|]. rewrite groups_short by lia. cbn [fmap list_fmap concat]. rewrite app_nil_r. by apply decode_encode_group.
  - rewrite <- (take_drop 5 b) in Hb |- *. set (g := take 5 b) in *. set (b' := drop 5 b) in *. assert (length g = 5%nat) as Hg by (unfold g; rewrite length_take; lia).
    rewrite (groups_step fuel 5 g b') by (lia || done). rewrite fmap_cons. cbn [concat]. set (qs := concat (encode_group <$> groups fuel 5 b')). assert (length (encode_group g) = 8%nat) as Hq by (rewrite length_encode_group by lia; by rewrite Hg).
    rewrite length_app, Hq. change (8 + length qs)%nat with (S (7 + length qs)). rewrite groups_step by (lia || done). rewrite fmap_cons. cbn [concat]. rewrite decode_encode_group by lia. f_equal.
    rewrite (groups_fuel _ (length qs)) by lia. apply IH; [|done]. rewrite length_app, Hg in Hb. lia.
Qed.

Lemma digits32_lt w n : Forall (λ q, q < 32) (digits32 w n).
Proof. revert n. induction w as [|w IH]; intros n; simpl; [constructor|]. apply Forall_app. split; [apply IH|]. constructor; [by apply N.mod_lt|constructor]. Qed.

(** The letters of an encoded text, in either case, are read back and have no line
    breaks or spaces among them. *)
Lemma alphabet_read q : q < 32 → letter_value (alphabet q) = Some q ∧ line_break (alphabet q) = false ∧ upper (lower (alphabet q)) = alphabet q ∧ upper (alphabet q) = alphabet q ∧
  space (lower (alphabet q)) = false ∧ space (alphabet q) = false.
Proof.
  intros Hq. assert (∀ m, (m < 32)%nat → let q := N.of_nat m in letter_value (alphabet q) = Some q ∧ line_break (alphabet q) = false ∧ upper (lower (alphabet q)) = alphabet q ∧ upper (alphabet q) = alphabet q ∧
    space (lower (alphabet q)) = false ∧ space (alphabet q) = false) as Hm; [|rewrite <- (N2Nat.id q); apply Hm; lia].
  intros m Hlt. do 32 (destruct m as [|m]; [vm_compute; repeat split|]). lia.
Qed.

Lemma encoded_letters b : ∃ qs, EncodeToString b = alphabet <$> qs ∧ Forall (λ q, q < 32) qs ∧ qs = concat (encode_group <$> groups (length b) 5 b).
Proof.
  eexists. split; [done|]. split; [|done]. apply Forall_concat, Forall_fmap, Forall_forall. intros g _. unfold compose, encode_group. apply Forall_take, digits32_lt.
Qed.

Lemma letters_alphabet qs : Forall (λ q, q < 32) qs → letters (alphabet <$> qs) = Some qs ∧ filter (λ b, line_break b = false) (alphabet <$> qs) = alphabet <$> qs.
Proof.
  induction 1 as [|q qs Hq _ [IH1 IH2]]; [done|]. destruct (alphabet_read q Hq) as (E1 & E2 & _). rewrite fmap_cons, filter_cons, decide_True by done. cbn [letters]. by rewrite E1, IH1, IH2.
Qed.

(** Decoding undoes encoding. *)
Lemma DecodeString_EncodeToString b : DecodeString (EncodeToString b) = Some b.
Proof.
  destruct (encoded_letters b) as (qs & -> & Hq & Hqs). unfold DecodeString. destruct (letters_alphabet qs Hq) as [E1 E2]. rewrite E2, E1. cbn [mbind option_bind]. f_equal. by eapply groups_encoded.
Qed.

Lemma trim_left_spaces pre s : Forall (λ b, space b = true) pre → Forall (λ b, space b = false) s → trim_left (pre ++ s) = s.
Proof.
  intros Hp Hs. induction Hp as [|b pre Hb _ IH]; simpl; [|by rewrite Hb]. destruct Hs as [|b s Hb _]; [done|]. simpl. by rewrite Hb.
Qed.

Lemma trim_left_app s post : Forall (λ b, space b = false) s → s ≠ [] → trim_left (s ++ post) = s ++ post.
Proof. intros [|b s' Hb _]; [done|]. intros _. simpl. by rewrite Hb. Qed.

Lemma TrimSpace_spaces pre s post : Forall (λ b, space b = true) pre → Forall (λ b, space b = true) post → Forall (λ b, space b = false) s → s ≠ [] → TrimSpace (pre ++ s ++ post) = s.
Proof.
  intros Hpre Hpost Hs Hne. unfold TrimSpace. assert (trim_left (pre ++ s ++ post) = s ++ post) as ->.
  { induction Hpre as [|b pre Hb _ IH]; simpl; [by apply trim_left_app|by rewrite Hb]. }
  rewrite reverse_app, trim_left_spaces by (by apply Forall_reverse). apply reverse_involutive.
Qed.

Lemma TrimSpace_none s : Forall (λ b, space b = false) s → s ≠ [] → TrimSpace s = s.
Proof. intros Hs Hne. pose proof (TrimSpace_spaces [] s [] ltac:(constructor) ltac:(constructor) Hs Hne) as E. by rewrite app_nil_r in E. Qed.

Section round_trip.
Context `{Codec Ticket} (ParseEndpointID : bytes → string + bytes).
Notation Parse := (Parse ParseEndpointID).

(** A text that is the prefix in some case and the base32 of a ticket in some case. *)
Lemma Parse_encoded t p body : tk_Members t ≠ [] → length p = length Prefix → lower <$> p = Prefix → Forall (λ b, space b = false) (p ++ body) → upper <$> body = EncodeToString (marshal t) →
  ∀ pre post, Forall (λ b, space b = true) pre → Forall (λ b, space b = true) post → Parse (pre ++ (p ++ body) ++ post) = inr t.
Proof.
  intros Hm Hl Hp Hs Hb pre post Hpre Hpost. unfold Ticket.Parse. assert (p ++ body ≠ []) as Hne by (destruct p; [done|done]). rewrite TrimSpace_spaces by done. rewrite bool_decide_false by done.
  assert (has_prefix Prefix (lower <$> p ++ body) = true) as ->. { unfold has_prefix. rewrite fmap_app, Hp, take_app_length. by apply bool_decide_true. }
  simpl negb. rewrite <- Hl, drop_app_length, Hb, DecodeString_EncodeToString, unmarshal_marshal. by rewrite bool_decide_false.
Qed.

Lemma encoded_cases b : let s := EncodeToString b in
  upper <$> (lower <$> s) = s ∧ upper <$> s = s ∧ Forall (λ b, space b = false) (lower <$> s) ∧ Forall (λ b, space b = false) s.
Proof.
  destruct (encoded_letters b) as (qs & E & Hq & _). cbv zeta. rewrite E. clear E. induction Hq as [|q qs Hq _ (I1 & I2 & I3 & I4)]; [done|].
  destruct (alphabet_read q Hq) as (_ & _ & E3 & E4 & E5 & E6). rewrite !fmap_cons, I1, I2, E3, E4. split; [done|]. split; [done|]. split; by constructor.
Qed.

(** A ticket survives its text: whatever spaces surround it and also in upper case,
    the text of a ticket with a member parses to that ticket. *)
Theorem ticket_round_trip t pre post : tk_Members t ≠ [] → Forall (λ b, space b = true) pre → Forall (λ b, space b = true) post →
  Parse (pre ++ Encode t ++ post) = inr t ∧ Parse (pre ++ (upper <$> Encode t) ++ post) = inr t.
Proof.
  intros Hm Hpre Hpost. destruct (encoded_cases (marshal t)) as (E1 & E2 & S1 & S2). split.
  - apply Parse_encoded; try done. apply Forall_app. split; [|done]. by repeat constructor.
  - unfold Encode. rewrite fmap_app, E1. apply Parse_encoded; try done. apply Forall_app. split; [|done]. by repeat constructor.
Qed.

(** ** The short form *)

(** A character of an id. *)
Definition plain (c : byte) : Prop := separator c = false ∧ space c = false ∧ lower c = c ∧ c ≠ x73.

Lemma hex_digit_plain n : n < 16 → plain (hex_digit n).
Proof.
  intros Hn. assert (∀ m, (m < 16)%nat → plain (hex_digit (N.of_nat m))) as Hm; [|rewrite <- (N2Nat.id n); apply Hm; lia].
  intros m Hlt. do 16 (destruct m as [|m]; [vm_compute; repeat split; congruence|]). lia.
Qed.

Lemma hex_plain b : Forall plain (hex_encode b).
Proof.
  induction b as [|x b IH]; cbn [hex_encode]; [constructor|]. pose proof (to_N_lt x). constructor; [apply hex_digit_plain, N.Div0.div_lt_upper_bound; lia|]. constructor; [by apply hex_digit_plain, N.mod_lt|done].
Qed.

Lemma hex_encode_inj a b : hex_encode a = hex_encode b → a = b.
Proof. intros E. apply (f_equal hex_decode) in E. rewrite !hex_decode_encode in E. congruence. Qed.

Lemma fields_run sep x rest cur : Forall (λ b, sep b = false) x → fields sep (x ++ rest) cur = fields sep rest (cur ++ x).
Proof. intros Hx. revert cur. induction Hx as [|b x Hb _ IH]; intros cur; [by rewrite app_nil_r|]. simpl. rewrite Hb, IH. by rewrite <- app_assoc. Qed.

Lemma fields_join l : Forall (λ x, x ≠ [] ∧ Forall (λ b, separator b = false) x) l → fields separator (join_comma l) [] = l.
Proof.
  induction 1 as [|x l [Hne Hx] Hl IH]; [done|]. destruct l as [|y l].
  - change (join_comma [x]) with x. rewrite <- (app_nil_r x), fields_run by done. cbn [fields app]. by rewrite app_nil_r, bool_decide_false.
  - change (join_comma (x :: y :: l)) with (x ++ x2c :: join_comma (y :: l)). rewrite fields_run by done. rewrite <- IH at 2. change (fields separator (x2c :: ?r) ([] ++ x)) with (if bool_decide (x = []) then fields separator r [] else x :: fields separator r []). by rewrite bool_decide_false.
Qed.

Lemma ids_loop_spec ms seen : ∃ ids, ids_loop ms seen = hex_encode <$> ids ∧ NoDup ids ∧ ∀ id, id ∈ ids ↔ length id = 32%nat ∧ hex_encode id ∉ seen ∧ ∃ m, m ∈ ms ∧ mb_ID m = id.
Proof.
  revert seen. induction ms as [|m ms IH]; intros seen; cbn [ids_loop].
  { exists []. split; [done|]. split; [constructor|]. intros id. split; [by intros ?%not_elem_of_nil|]. by intros (_ & _ & m & ?%not_elem_of_nil & _). }
  destruct (bool_decide _ && bool_decide _) eqn:E.
  - apply andb_true_iff in E as [El%bool_decide_eq_true Es%bool_decide_eq_true]. destruct (IH (hex_encode (mb_ID m) :: seen)) as (ids & -> & Hnd & Hin). exists (mb_ID m :: ids). split; [done|]. split.
    + constructor; [|done]. rewrite Hin. intros (_ & Hn & _). apply Hn. by left.
    + intros id. rewrite elem_of_cons, Hin, not_elem_of_cons. split.
      * intros [->|(Hl & [_ Hn] & m' & Hm & <-)]; [split; [done|]; split; [done|]; exists m; split; [by left|done]|]. split; [done|]. split; [done|]. exists m'. split; [by right|done].
      * intros (Hl & Hn & m' & [->|Hm]%elem_of_cons & <-); [by left|]. destruct (decide (mb_ID m' = mb_ID m)) as [->|Hne]; [by left|]. right. split; [done|]. split; [|by exists m']. split; [|done]. intros E%hex_encode_inj. done.
  - destruct (IH seen) as (ids & -> & Hnd & Hin). exists ids. split; [done|]. split; [done|]. intros id. rewrite Hin. split.
    + intros (Hl & Hn & m' & Hm & <-). split; [done|]. split; [done|]. exists m'. split; [by right|done].
    + intros (Hl & Hn & m' & [->|Hm]%elem_of_cons & <-); [|eauto]. rewrite !bool_decide_true in E by done. done.
Qed.

Context (ParseEndpointID_hex : ∀ id, length id = 32%nat → ParseEndpointID (hex_encode id) = inr id).

Lemma lower_plain s : Forall plain s → lower <$> s = s.
Proof. induction 1 as [|c s (_ & _ & E & _) _ IH]; [done|]. by rewrite fmap_cons, E, IH. Qed.

Lemma members_of_hex ids : Forall (λ id, length id = 32%nat) ids → members_of ParseEndpointID (hex_encode <$> ids) = inr ((λ id, MkMember id []) <$> ids).
Proof. induction 1 as [|id ids Hl _ IH]; [done|]. cbn [fmap list_fmap members_of]. rewrite lower_plain by apply hex_plain. rewrite ParseEndpointID_hex by done. by rewrite IH. Qed.

Lemma join_plain ids : Forall (λ c, space c = false) (join_comma (hex_encode <$> ids)).
Proof.
  assert (∀ b, Forall (λ c, space c = false) (hex_encode b)) as Hh by (intros b; eapply Forall_impl; [apply hex_plain|]; by intros c (_ & ? & _)).
  induction ids as [|id ids IH]; [constructor|]. destruct ids as [|id' ids]; [apply Hh|]. cbn [fmap list_fmap join_comma]. apply Forall_app. split; [apply Hh|]. by constructor.
Qed.

(** A text that starts with an id is no cluster ticket: ids have no letter s. *)
Lemma id_no_prefix id rest : length id = 32%nat → has_prefix Prefix (lower <$> hex_encode id ++ rest) = false.
Proof.
  intros Hl. unfold has_prefix. apply bool_decide_false. intros E. assert (x73 ∈ hex_encode id) as Hin.
  { rewrite fmap_app, lower_plain in E by apply hex_plain. rewrite take_app_le in E by (rewrite length_hex_encode, Hl; apply leb_complete; done).
    apply (subseteq_take (length Prefix) (hex_encode id)). rewrite E. apply list_elem_of_lookup. by exists 1%nat. }
  pose proof (hex_plain id) as Hp. rewrite Forall_forall in Hp. by destruct (Hp _ Hin) as (_ & _ & _ & ?).
Qed.

(** The short form of a ticket parses to one with the same members, each once and
    without addresses. *)
Theorem ids_round_trip t : (∃ m, m ∈ tk_Members t ∧ length (mb_ID m) = 32%nat) →
  ∃ ids, Parse (IDs t) = inr (MkTicket [] 0 ((λ id, MkMember id []) <$> ids)) ∧ NoDup ids ∧ ∀ id, id ∈ ids ↔ length id = 32%nat ∧ ∃ m, m ∈ tk_Members t ∧ mb_ID m = id.
Proof.
  intros (m0 & Hm0 & Hl0). destruct (ids_loop_spec (tk_Members t) []) as (ids & Ei & Hnd & Hin). exists ids. split; [|split; [done|]].
  2:{ intros id. rewrite Hin. split; [by intros (? & _ & ?)|]. intros [? ?]. split; [done|]. split; [by apply not_elem_of_nil|done]. }
  assert (Forall (λ id, length id = 32%nat) ids) as Hl by (apply Forall_forall; intros id Hid; by apply Hin in Hid as []).
  unfold Ticket.Parse, IDs. rewrite Ei. destruct ids as [|id ids].
  { exfalso. apply (not_elem_of_nil (mb_ID m0)). apply Hin. split; [done|]. split; [by apply not_elem_of_nil|eauto]. }
  assert (∃ rest, join_comma (hex_encode <$> id :: ids) = hex_encode id ++ rest) as [rest Er] by (destruct ids; [exists []; by rewrite app_nil_r|by eexists]).
  apply Forall_cons in Hl as [Hid Hl]. assert (∀ i, length i = 32%nat → hex_encode i ≠ []) as Hne by (intros i Hi E; apply (f_equal length) in E; rewrite length_hex_encode, Hi in E; done).
  rewrite TrimSpace_none; [|apply join_plain|rewrite Er; intros [E _]%app_eq_nil; by apply (Hne id)]. rewrite bool_decide_false by (rewrite Er; intros [E _]%app_eq_nil; by apply (Hne id)).
  rewrite Er at 1. rewrite id_no_prefix by done. cbn [negb]. unfold parseIDs. rewrite fields_join.
  - rewrite members_of_hex by (by constructor). done.
  - apply Forall_fmap. assert (Forall (λ id, length id = 32%nat) (id :: ids)) as Hall by (by constructor). eapply Forall_impl; [exact Hall|]. intros i Hi. split; [by apply Hne|]. eapply Forall_impl; [apply hex_plain|]. by intros c (? & _).
Qed.
End round_trip.

(** * An instance *)

#[global] Instance Member_ser : Ser Member.
Proof. refine (ser_via (λ m, (mb_ID m, mb_Addrs m)) (λ '(i, a), MkMember i a) _). by intros []. Defined.

#[global] Instance Ticket_ser : Ser Ticket.
Proof. refine (ser_via (λ t, (tk_ClusterID t, tk_Incarnation t, tk_Members t)) (λ '(c, i, m), MkTicket c i m) _). by intros []. Defined.

Definition toy_ticket : Ticket := MkTicket (of_string "c1") 7 [MkMember (replicate 32 xab) ["10.0.0.1:7000"%string]; MkMember (replicate 32 xab) []].

Definition toy_ParseID (s : bytes) : string + bytes := match hex_decode s with Some b => if bool_decide (length b = 32%nat) then inr b else inl "length"%string | None => inl "hex"%string end.

Lemma ticket_round_trip_witness : Parse toy_ParseID ([x20] ++ Encode toy_ticket ++ [x0a]) = inr toy_ticket ∧ Parse toy_ParseID ([x20] ++ (upper <$> Encode toy_ticket) ++ [x0a]) = inr toy_ticket.
Proof. apply (ticket_round_trip toy_ParseID toy_ticket [x20] [x0a]); [done|by repeat constructor..]. Defined.

Example short_form_parses : Parse toy_ParseID (IDs toy_ticket) = inr (MkTicket [] 0 [MkMember (replicate 32 xab) []]).
Proof. vm_compute. reflexivity. Qed.

(** The text of a byte. *)
Example base32_evaluates : to_string (EncodeToString (of_string "foobar")) = "MZXW6YTBOI"%string.
Proof. vm_compute. reflexivity. Qed.
