(* ===== verification/Scan.v ===== *)
(** Finding local changes (src/worktree/scan.go, xattr.go): a walk of the working
    directory beside the tree it was last synced to.

    The directory is the map of Apply.v.  A file's content is its content key, whose
    length is the file's size.  The ignore rules, the tree objects and the encodings of
    attributes belong to amber-store/core and are parameters. *)
From S2P Require Import Prelude Worktree Apply.

Local Open Scope N_scope.

(** [Dir]. *)
Definition Dir : bytes := of_string ".dstore".

(** [RacyWindow], two seconds. *)
Definition RacyWindow : Z := 2 * 10 ^ 9.

Definition errno_text (e : errno) : string :=
  match e with
  | ENOENT => "no such file or directory"
  | ENOTDIR => "not a directory"
  | ENOTEMPTY => "directory not empty"
  | EEXIST => "file exists"
  | EOTHER s => s
  end.

(** * Extended attributes *)

Section xattr.

(** [ENOTSUP], or [EOPNOTSUPP]. *)
Definition unsupported (e : errno) : bool := bool_decide (e = EOTHER "ENOTSUP") || bool_decide (e = EOTHER "EOPNOTSUPP").

(** [ignoreUnsupported], for a listing without a result. *)
Definition ignoreUnsupported (e : errno) : string + gmap bytes bytes := if unsupported e then inr ∅ else inl (errno_text e).

(** [bytes.Split] at the zero bytes. *)
Fixpoint split_nul (b cur : bytes) : list bytes :=
  match b with
  | [] => [cur]
  | c :: b => if bool_decide (c = x00) then cur :: split_nul b [] else split_nul b (cur ++ [c])
  end.

(** The values of the names, one by one. *)
Fixpoint read_each (get : bytes → errno + bytes) (names : list bytes) (m : gmap bytes bytes) : string + gmap bytes bytes :=
  match names with
  | [] => inr m
  | n :: names => match get n with inl e => inl (errno_text e) | inr v => read_each get names (<[n := v]> m) end
  end.

(** [readXattrsWith]; the calls that ask for a size and those that fill a buffer of it
    see the same file. *)
Definition readXattrsWith (list_ : errno + bytes) (get : bytes → errno + bytes) : string + gmap bytes bytes :=
  match list_ with
  | inl e => ignoreUnsupported e
  | inr buf => if bool_decide (buf = []) then inr ∅ else read_each get (filter (λ n, n ≠ []) (split_nul buf [])) ∅
  end.
End xattr.

(** * The scan *)

Section scan.
Context `{System} {Key : Type} (Parse : bytes → string + Key) (Length : Key → N) (CollectEntries : Key → string + list Entry).
Context {Matcher : Type} (ig_Root : disk → string + Matcher) (ig_Ignored : Matcher → bytes → bool → bool) (ig_Descend : disk → Matcher → fpath → bytes → string + Matcher).
Context (EncodeXattrs : gmap bytes bytes → bytes) (EncodeXattrSet : gmap bytes bytes → string + bytes) (XattrInlineMax : nat).
Context (d : disk) (syncedAt : Z).

Notation expandChildren := (expandChildren Parse CollectEntries).
Notation expand := (expand Parse CollectEntries).

Definition of_errno {A} (r : errno + A) : string + A := match r with inl e => inl (errno_text e) | inr a => inr a end.

(** The attributes as the system lists them: each name with a zero byte behind it. *)
Definition readXattrs (p : fpath) : string + gmap bytes bytes :=
  match lstat d p with
  | inl e => inl (errno_text e)
  | inr n =>
      readXattrsWith
        (match sy_fault "listxattr" p with Some e => inl e | None => inr (concat ((λ nv, nv.1 ++ [x00]) <$> map_to_list (fn_Xattrs n))) end)
        (λ name, match sy_fault "getxattr" p with Some e => inl e | None => match fn_Xattrs n !! name with Some v => inr v | None => inl (EOTHER "ENODATA") end end)
  end.

(** [hashFile]. *)
Definition hashFile (p : fpath) : string + bytes :=
  match sy_fault "open" p with
  | Some e => inl (errno_text e)
  | None => match lstat d p with inl e => inl (errno_text e) | inr n => inr (fn_Content n) end
  end.

(** The size of a regular file. *)
Definition file_size (n : fnode) : N := match Parse (fn_Content n) with inr k => Length k | inl _ => 0 end.

(** [diskType]; 0 when absent. *)
Definition diskType (p : fpath) : N := match lstat d p with inl _ => 0 | inr n => ftype (fn_Mode n) end.

Definition with_content (e : Entry) (ck : bytes) : Entry :=
  MkEntry (e_Name e) (e_Mode e) ck (e_LinkTarget e) (e_Rdev e) (e_UID e) (e_GID e) (e_Mtime e) (e_XattrsIn e) (e_XattrsKey e).

Definition with_xattrs (e : Entry) (inline key : bytes) : Entry :=
  MkEntry (e_Name e) (e_Mode e) (e_ContentKey e) (e_LinkTarget e) (e_Rdev e) (e_UID e) (e_GID e) (e_Mtime e) inline key.

(** [entry]: what the stat data gives, *)
Definition stat_entry (name : bytes) (n : fnode) : Entry :=
  let t := ftype (fn_Mode n) in
  MkEntry name (fn_Mode n) [] (if t =? S_IFLNK then fn_Link n else [])
    (if (t =? S_IFCHR) || (t =? S_IFBLK) then [(fn_Rdev n).1; (fn_Rdev n).2] else []) (fn_UID n) (fn_GID n) (fn_Mtime n) [] [].

(** the attributes, *)
Definition entry_xattrs (full : fpath) (e : Entry) : res Entry :=
  if ftype (e_Mode e) =? S_IFLNK then ok e
  else
    let! xattrs := Some (readXattrs full) in
    if bool_decide (xattrs = ∅) then ok e
    else
      let enc := EncodeXattrs xattrs in
      if bool_decide (length enc ≤ XattrInlineMax)%nat then ok (with_xattrs e enc [])
      else let! k := Some (EncodeXattrSet xattrs) in ok (with_xattrs e [] k).

(** and the whole, with its size. *)
Definition entry (full : fpath) (name : bytes) (hash : bool) : res (Entry * N) :=
  let! n := Some (of_errno (lstat d full)) in
  let e := stat_entry name n in
  let! e := if (ftype (e_Mode e) =? S_IFREG) && hash then let! ck := Some (hashFile full) in ok (with_content e ck) else ok e in
  let! e := entry_xattrs full e in
  ok (e, file_size n).

(** [os.ReadDir]: the names in a directory, sorted, with whether each is a directory. *)
Definition child_of (abs : fpath) (q : fpath) : option bytes :=
  match last q with Some name => if bool_decide (q = abs ++ [name]) then Some name else None | None => None end.

Definition name_lt (a b : bytes * bool) : bool := bool_decide (bytes_lt a.1 b.1).

Definition children (abs : fpath) : list (bytes * bool) :=
  sort_by name_lt (omap (λ qn, name ← child_of abs qn.1; Some (name, is_dir qn.2)) (map_to_list (dk_nodes d))).

Definition os_readDir (abs : fpath) : errno + list (bytes * bool) :=
  match sy_fault "readdir" abs with
  | Some e => inl e
  | None => match lstat d abs with inl e => inl e | inr n => if is_dir n then inr (children abs) else inl ENOTDIR end
  end.

(** [listDir]. *)
Definition kept_name (abs : fpath) (ign : Matcher) (de : bytes * bool) : bool :=
  negb (bool_decide (abs = []) && bool_decide (de.1 = Dir)) && negb (ig_Ignored ign de.1 de.2).

Definition listDir (abs : fpath) (ign : Matcher) : string + list bytes :=
  match os_readDir abs with
  | inl e => inl (errno_text e)
  | inr ents => inr (filter (kept_name abs ign) ents).*1
  end.

(** [added] and [addedChildren]; [fuel] bounds the depth of the directory. *)
Fixpoint added (fuel : nat) (abs : fpath) (prefix name : bytes) (ign : Matcher) : res (list Change) :=
  let full := abs ++ [name] in
  let! (e, _) := entry full name true in
  let p := joinPath prefix name in
  let! below :=
    if IsDir_ e then
      match fuel with
      | O => None
      | S fuel =>
          let! sub := Some (ig_Descend d ign full name) in
          let! ents := Some (listDir full sub) in
          concatR (λ name, added fuel full p name sub) ents
      end
    else ok [] in
  ok (MkChange p Added None (Some e) :: below).

Definition addedChildren (fuel : nat) (full : fpath) (p name : bytes) (ign : Matcher) : res (list Change) :=
  match fuel with
  | O => None
  | S fuel =>
      let! sub := Some (ig_Descend d ign full name) in
      let! ents := Some (listDir full sub) in
      concatR (λ name, added fuel full p name sub) ents
  end.

(** Whether the stat data of a file says nothing about its content. *)
Definition must_hash (b e : Entry) (size : N) (bk : Key) : bool :=
  negb (size =? Length bk) || negb (e_Mtime e =? e_Mtime b)%Z || (i64 (syncedAt - RacyWindow) <? e_Mtime b)%Z.

(** The content of a disk entry of the same type as the base entry [b]. *)
Definition settle_content (b e : Entry) (size : N) (full : fpath) : res Entry :=
  let t := ftype (e_Mode e) in
  if t =? S_IFREG then
    let! bk := Some (Parse (e_ContentKey b)) in
    if must_hash b e size bk then let! ck := Some (hashFile full) in ok (with_content e ck)
    else ok (with_content e (e_ContentKey b))
  else if t =? S_IFDIR then ok (with_content e (e_ContentKey b))
  else ok e.

(** [both]; [sub] is [dir]. *)
Definition both (fuel : nat) (sub : fpath → bytes → Key → Matcher → res (list Change)) (abs : fpath) (prefix : bytes) (b : Entry) (ign : Matcher) : res (list Change) :=
  let name := e_Name b in
  let full := abs ++ [name] in
  let p := joinPath prefix name in
  if negb (ftype (e_Mode b) =? diskType full) then
    let! (e, _) := entry full name true in
    let! del := expandChildren fuel p b Deleted in
    let! add := if IsDir_ e then addedChildren fuel full p name ign else ok [] in
    ok (MkChange p TypeChanged (Some b) (Some e) :: del ++ add)
  else
    let! (e, size) := entry full name false in
    let! e := settle_content b e size full in
    let cs := match Compare b e with Some k => [MkChange p k (Some b) (Some e)] | None => [] end in
    if IsDir_ b then
      let! m := Some (ig_Descend d ign full name) in
      let! bk := Some (Parse (e_ContentKey b)) in
      let! rest := sub full p bk m in
      ok (cs ++ rest)
    else ok cs.

(** The loop of [dir] over the two sorted lists. *)
Fixpoint dir_loop (fuel : nat) (sub : fpath → bytes → Key → Matcher → res (list Change)) (abs : fpath) (prefix : bytes) (ign : Matcher) (base : list Entry) : list bytes → res (list Change) :=
  fix inner (ents : list bytes) : res (list Change) :=
    match base, ents with
    | [], [] => ok []
    | b :: base', [] =>
        let! cs := expand fuel prefix b Deleted in
        let! rest := dir_loop fuel sub abs prefix ign base' [] in ok (cs ++ rest)
    | [], name :: ents' =>
        let! cs := added fuel abs prefix name ign in
        let! rest := inner ents' in ok (cs ++ rest)
    | b :: base', name :: ents' =>
        match bytes_compare (e_Name b) name with
        | Lt =>
            let! cs := expand fuel prefix b Deleted in
            let! rest := dir_loop fuel sub abs prefix ign base' ents in ok (cs ++ rest)
        | Gt =>
            let! cs := added fuel abs prefix name ign in
            let! rest := inner ents' in ok (cs ++ rest)
        | Eq =>
            let! cs := both fuel sub abs prefix b ign in
            let! rest := dir_loop fuel sub abs prefix ign base' ents' in ok (cs ++ rest)
        end
    end.

Fixpoint dir (fuel : nat) (abs : fpath) (prefix : bytes) (dirKey : Key) (ign : Matcher) : res (list Change) :=
  match fuel with
  | O => None
  | S fuel =>
      let! ents := Some (listDir abs ign) in
      let! base := Some (CollectEntries dirKey) in
      dir_loop fuel (dir fuel) abs prefix ign base ents
  end.

Definition Scan (fuel : nat) (base : Key) : res (list Change) :=
  let! ign := Some (ig_Root d) in
  dir fuel [] [] base ign.
End scan.
