(* ===== verification/ScanSafety.v ===== *)
(** A scan lists exactly the local changes, in order, and ends. *)
From S2P Require Import Prelude Worktree Apply ApplySafety Scan.

Local Open Scope N_scope.

Section scan.
Context `{System} {Key : Type} (Parse : bytes → string + Key) (Length : Key → N) (CollectEntries : Key → string + list Entry).
Context {Matcher : Type} (ig_Root : disk → string + Matcher) (ig_Ignored : Matcher → bytes → bool → bool) (ig_Descend : disk → Matcher → fpath → bytes → string + Matcher).
Context (EncodeXattrs : gmap bytes bytes → bytes) (EncodeXattrSet : gmap bytes bytes → string + bytes) (XattrInlineMax : nat).
Context (d : disk) (syncedAt : Z).
Context (collect_sorted : ∀ k es, CollectEntries k = inr es → sorted_names es).

Notation expandChildren := (expandChildren Parse CollectEntries).
Notation expand := (expand Parse CollectEntries).
Notation entry := (entry Parse Length EncodeXattrs EncodeXattrSet XattrInlineMax d).
Notation listDir := (listDir ig_Ignored d).
Notation added := (added Parse Length ig_Ignored ig_Descend EncodeXattrs EncodeXattrSet XattrInlineMax d).
Notation addedChildren := (addedChildren Parse Length ig_Ignored ig_Descend EncodeXattrs EncodeXattrSet XattrInlineMax d).
Notation both := (both Parse Length CollectEntries ig_Ignored ig_Descend EncodeXattrs EncodeXattrSet XattrInlineMax d syncedAt).
Notation dir_loop := (dir_loop Parse Length CollectEntries ig_Ignored ig_Descend EncodeXattrs EncodeXattrSet XattrInlineMax d syncedAt).
Notation dir := (dir Parse Length CollectEntries ig_Ignored ig_Descend EncodeXattrs EncodeXattrSet XattrInlineMax d syncedAt).
Notation Scan := (Scan Parse Length CollectEntries ig_Root ig_Ignored ig_Descend EncodeXattrs EncodeXattrSet XattrInlineMax d syncedAt).
Notation must_hash := (must_hash Length syncedAt).
Notation settle_content := (settle_content Parse Length d syncedAt).
Notation resolve := (resolve Parse CollectEntries).
Notation kids := (kids Parse CollectEntries).

(** ** What is on the disk *)

(** The entry at a path with its content, as it would be recorded. *)
Definition recorded (full : fpath) (name : bytes) : option Entry :=
  match entry full name false, lstat d full with
  | Some (inr (e, _)), inr n => Some (if ftype (e_Mode e) =? S_IFREG then with_content e (fn_Content n) else e)
  | _, _ => None
  end.

(** The entry at a path below [abs]; [names] are the names in [abs] that are not
    ignored. *)
Fixpoint disk_side (ign : Matcher) (abs : fpath) (names : list bytes) (ns : list bytes) : option Entry :=
  match ns with
  | [] => None
  | n :: ns' =>
      if decide (n ∈ names) then
        match recorded (abs ++ [n]) n with
        | Some e =>
            match ns' with
            | [] => Some e
            | _ :: _ =>
                if IsDir_ e then
                  match ig_Descend d ign (abs ++ [n]) n with
                  | inr sub => match listDir (abs ++ [n]) sub with inr names' => disk_side sub (abs ++ [n]) names' ns' | inl _ => None end
                  | inl _ => None
                  end
                else None
            end
        | None => None
        end
      else None
  end.

(** The content key of the base stands for that of a file whose stat data did not
    change, and for that of a directory. *)
Definition seen (b : option Entry) (y : Entry) : Entry :=
  match b with
  | None => y
  | Some b =>
      if negb (ftype (e_Mode b) =? ftype (e_Mode y)) then y
      else if ftype (e_Mode y) =? S_IFREG then
        match Parse (e_ContentKey b) with
        | inl _ => y
        | inr bk => if must_hash b y (match Parse (e_ContentKey y) with inr k => Length k | inl _ => 0 end) bk then y else with_content y (e_ContentKey b)
        end
      else if ftype (e_Mode y) =? S_IFDIR then with_content y (e_ContentKey b)
      else y
  end.

Definition seen_side (a y : side) : side := λ ns, seen (a ns) <$> y ns.

(** ** Listings are sorted *)

Lemma child_of_spec abs q name : child_of abs q = Some name ↔ q = abs ++ [name].
Proof.
  unfold child_of. split.
  - destruct (last q); [|done]. case_bool_decide; [|done]. intros [= <-]. done.
  - intros ->. rewrite last_snoc. by rewrite bool_decide_true.
Qed.

Lemma children_spec abs name b : (name, b) ∈ children d abs ↔ ∃ n, dk_nodes d !! (abs ++ [name]) = Some n ∧ b = is_dir n.
Proof.
  unfold children. rewrite elem_of_sort_by, list_elem_of_omap. split.
  - intros ([q n] & Hq & Hc). simpl in Hc. destruct (child_of abs q) as [nm|] eqn:E; [|done]. simpl in Hc. injection Hc as <- <-. apply child_of_spec in E as ->. apply elem_of_map_to_list in Hq. eauto.
  - intros (n & Hn & ->). exists (abs ++ [name], n). split; [by apply elem_of_map_to_list|]. simpl. by rewrite (proj2 (child_of_spec _ _ _) eq_refl).
Qed.

Lemma children_nodup abs : NoDup (children d abs).*1.
Proof.
  unfold children. rewrite sort_by_perm. pose proof (NoDup_fst_map_to_list (dk_nodes d)) as Hnd. induction (map_to_list (dk_nodes d)) as [|[q n] l IH]; [constructor|].
  apply NoDup_cons in Hnd as [Hq Hnd]. simpl. destruct (child_of abs q) as [name|] eqn:E; simpl; [|by apply IH]. apply NoDup_cons. split; [|by apply IH].
  intros ([nm b] & -> & Hin)%list_elem_of_fmap. apply list_elem_of_omap in Hin as ([q' n'] & Hin & Hc). simpl in *. destruct (child_of abs q') as [nm'|] eqn:E'; [|done]. simpl in Hc. injection Hc as -> _.
  apply child_of_spec in E as ->, E' as ->. apply Hq. apply list_elem_of_fmap. by exists (abs ++ [nm], n').
Qed.

Lemma children_sorted abs : StronglySorted bytes_lt (children d abs).*1.
Proof.
  assert (StronglySorted (nlt name_lt) (children d abs)) as Hs.
  { apply (sort_by_sorted name_lt (λ _, True)); [|by apply Forall_true]. unfold strict_on, nlt, name_lt. split.
    - intros [x ?] [y ?] _ _. simpl. rewrite bool_decide_eq_true, bool_decide_eq_false. intros Hl Hl'. by eapply (cmp_lt_irrefl bytes_compare), (cmp_lt_trans bytes_compare).
    - intros [x ?] [y ?] [z ?] _ _ _. simpl. rewrite !bool_decide_eq_false. intros A%(cmp_nlt_le bytes_compare) B%(cmp_nlt_le bytes_compare). apply (cmp_nlt_le bytes_compare). by etrans. }
  pose proof (children_nodup abs) as Hnd. induction Hs as [|[x b] l Hs IH Hx]; simpl in *; [constructor|]. apply NoDup_cons in Hnd as [Hn Hnd]. constructor; [by apply IH|].
  apply Forall_forall. intros y Hy. apply list_elem_of_fmap in Hy as ([y' b'] & -> & Hy). rewrite Forall_forall in Hx. specialize (Hx _ Hy). unfold nlt, name_lt in Hx. simpl in Hx. apply bool_decide_eq_false, (cmp_nlt_le bytes_compare), (cmp_le_lt_eq bytes_compare) in Hx as [?|Heq]; [done|].
  exfalso. apply Hn. rewrite Heq. simpl. apply list_elem_of_fmap. by exists (y', b').
Qed.

Lemma listDir_sorted abs ign names : listDir abs ign = inr names → StronglySorted bytes_lt names.
Proof.
  unfold Scan.listDir, os_readDir. destruct (sy_fault _ _); [done|]. destruct (lstat d abs) as [|n]; [done|]. destruct (is_dir n); [|done]. intros [= <-].
  pose proof (children_sorted abs) as Hs. induction (children d abs) as [|de l IH]; simpl in *; [constructor|]. apply StronglySorted_inv in Hs as [Hs Hf].
  rewrite filter_cons. case_decide; [|by apply IH]. simpl. constructor; [by apply IH|]. rewrite Forall_forall in Hf |- *. intros x (y & -> & Hy)%list_elem_of_fmap. apply Hf. apply list_elem_of_filter in Hy as [_ Hy]. apply list_elem_of_fmap. eauto.
Qed.

(** What a listing has: the names in the directory, without the metadata at the root and
    without those that are ignored. *)
Lemma listDir_spec abs ign names name : listDir abs ign = inr names →
  name ∈ names ↔ ∃ n, dk_nodes d !! (abs ++ [name]) = Some n ∧ ¬ (abs = [] ∧ name = Dir) ∧ ig_Ignored ign name (is_dir n) = false.
Proof.
  unfold Scan.listDir, os_readDir. destruct (sy_fault _ _); [done|]. destruct (lstat d abs) as [|n]; [done|]. destruct (is_dir n); [|done]. intros [= <-]. rewrite list_elem_of_fmap.
  assert (∀ b, Is_true (kept_name ig_Ignored abs ign (name, b)) ↔ ¬ (abs = [] ∧ name = Dir) ∧ ig_Ignored ign name b = false) as Hk.
  { intros b. unfold kept_name. cbn [fst snd]. rewrite Is_true_true, andb_true_iff, !negb_true_iff, andb_false_iff, !bool_decide_eq_false. destruct (decide (abs = [])), (decide (name = Dir)); tauto. }
  split.
  - intros ([nm b] & -> & [Hb Hin]%list_elem_of_filter). apply children_spec in Hin as (n' & Hn & ->). exists n'. split; [done|]. by apply Hk.
  - intros (n' & Hn & Hnot). exists (name, is_dir n'). split; [done|]. apply list_elem_of_filter. split; [by apply Hk|]. apply children_spec. eauto.
Qed.

(** ** Entries *)

Lemma entry_xattrs_spec full e r : entry_xattrs EncodeXattrs EncodeXattrSet XattrInlineMax d full e = ok r → e_Mode r = e_Mode e ∧ e_Name r = e_Name e ∧ e_Mtime r = e_Mtime e.
Proof.
  unfold entry_xattrs. destruct (_ =? _); [by intros [= <-]|]. destruct (readXattrs d full) as [|xs]; [done|]. cbn [bindR]. case_bool_decide; [by intros [= <-]|].
  case_bool_decide; [by intros [= <-]|]. destruct (EncodeXattrSet xs); [done|]. cbn [bindR]. by intros [= <-].
Qed.

(** The attributes do not depend on the content. *)
Lemma entry_xattrs_content full e ck : entry_xattrs EncodeXattrs EncodeXattrSet XattrInlineMax d full (with_content e ck) =
  bindR (λ r, ok (with_content r ck)) (entry_xattrs EncodeXattrs EncodeXattrSet XattrInlineMax d full e).
Proof.
  unfold entry_xattrs. change (e_Mode (with_content e ck)) with (e_Mode e). destruct (_ =? _); [done|]. destruct (readXattrs d full) as [|xs]; [done|]. cbn [bindR]. case_bool_decide; [done|].
  case_bool_decide; [done|]. by destruct (EncodeXattrSet xs).
Qed.

Lemma entry_split full name hash e sz : entry full name hash = ok (e, sz) →
  ∃ e0 n, entry full name false = ok (e0, sz) ∧ lstat d full = inr n ∧ e_Mode e0 = fn_Mode n ∧ e_Name e0 = name ∧ sz = file_size Parse Length n ∧
    e = (if (ftype (fn_Mode n) =? S_IFREG) && hash then with_content e0 (fn_Content n) else e0).
Proof.
  unfold Scan.entry. destruct (lstat d full) as [|n] eqn:El; [done|]. cbn [of_errno]. change (bindR ?f (Some (inr n))) with (f n). cbv beta. change (e_Mode (stat_entry name n)) with (fn_Mode n). rewrite andb_false_r. change (bindR ?f (ok ?x)) with (f x). cbv beta.
  destruct ((ftype (fn_Mode n) =? S_IFREG) && hash) eqn:Eh.
  - intros (e1 & (ck & Hh & [= <-])%bindR_ok & Hx)%bindR_ok. unfold hashFile in Hh. destruct (sy_fault _ _); [done|]. rewrite El in Hh. injection Hh as <-. rewrite entry_xattrs_content in Hx.
    apply bindR_ok in Hx as (e2 & Hx & [= <- <-]). apply bindR_ok in Hx as (e0 & Hx & [= <-]). rewrite Hx. cbn [bindR]. destruct (entry_xattrs_spec _ _ _ Hx) as (? & ? & ?). exists e0, n. by rewrite Eh.
  - intros (e1 & [= <-] & Hx)%bindR_ok. apply bindR_ok in Hx as (e0 & Hx & [= <- <-]). rewrite Hx. cbn [bindR ok]. destruct (entry_xattrs_spec _ _ _ Hx) as (? & ? & ?). exists e0, n. by rewrite Eh.
Qed.

Lemma entry_true full name e sz : entry full name true = ok (e, sz) → recorded full name = Some e ∧ e_Name e = name ∧ ftype (e_Mode e) = diskType d full.
Proof.
  intros (e0 & n & E & El & Em & En & -> & ->)%entry_split. unfold recorded, diskType. rewrite E, El, andb_true_r. cbn [ok]. rewrite Em. split; [done|]. destruct (_ =? _); simpl; by rewrite Em.
Qed.

Lemma settle_seen b full name e0 sz e1 : entry full name false = ok (e0, sz) → ftype (e_Mode b) = diskType d full → settle_content b e0 sz full = ok e1 →
  ∃ y, recorded full name = Some y ∧ e_Name y = name ∧ ftype (e_Mode y) = ftype (e_Mode b) ∧ e1 = seen (Some b) y.
Proof.
  intros He Ht. destruct (entry_split _ _ _ _ _ He) as (e0' & n & He' & El & Em & En & -> & _). rewrite He in He'. injection He' as <-. unfold recorded, diskType in *. rewrite He, El in *. cbn [ok]. rewrite Em.
  unfold Scan.settle_content, seen. rewrite Em, <- Ht. destruct (ftype (e_Mode b) =? S_IFREG) eqn:Er.
  - intros Hs. eexists. split; [done|]. split; [done|]. split; [cbn; by rewrite Em|]. cbn [e_Mode e_ContentKey with_content]. rewrite Em, <- Ht, N.eqb_refl, Er. cbn [negb]. destruct (Parse (e_ContentKey b)) as [|bk]; [done|]. cbn [bindR] in Hs.
    change (must_hash b (with_content e0 (fn_Content n))) with (must_hash b e0). fold (file_size Parse Length n). destruct (must_hash b e0 _ bk).
    + unfold hashFile in Hs. destruct (sy_fault _ _); [done|]. rewrite El in Hs. cbn [bindR] in Hs. by injection Hs as <-.
    + by injection Hs as <-.
  - intros Hs. eexists. split; [done|]. split; [done|]. split; [by rewrite Em|]. rewrite Em, <- Ht, N.eqb_refl, Er. cbn [negb]. destruct (_ =? S_IFDIR); by injection Hs as <-.
Qed.

(** ** The sides of a level *)

Definition no_side : side := λ _, None.

Definition disk_kids (ign : Matcher) (full : fpath) (name : bytes) (e : Entry) : side :=
  if IsDir_ e then
    match ig_Descend d ign full name with
    | inr sub => match listDir full sub with inr names => disk_side sub full names | inl _ => no_side end
    | inl _ => no_side
    end
  else no_side.

Lemma disk_rest n ign abs names names' : names = names' ∨ names = n :: names' → Forall (bytes_lt n) names' →
  rest_after n (disk_side ign abs names) (disk_side ign abs names').
Proof.
  intros Hn Hl. split; [done|]. split; [done|]. intros m ns. split.
  - intros Hm. destruct Hn as [->| ->]; [done|]. cbn [disk_side]. destruct (decide (m ∈ names')); [by rewrite (decide_True (P := m ∈ n :: names')) by (by right)|]. by rewrite (decide_False (P := m ∈ n :: names')) by (by intros [?|?]%elem_of_cons).
  - cbn [disk_side]. case_decide as Hin; [|by intros []]. intros _. by eapply Forall_forall in Hl.
Qed.

Lemma below_disk n ign abs names e : n ∈ names → recorded (abs ++ [n]) n = Some e →
  pointwise_relation _ eq (below_name n (disk_side ign abs names)) (disk_kids ign (abs ++ [n]) n e).
Proof.
  intros Hn He ns. unfold disk_kids, below_name. destruct ns as [|m ns]; [|cbn [disk_side]; rewrite decide_True, He by done];
    (destruct (IsDir_ e); [|done]; destruct (ig_Descend _ _ _ _) as [|sub]; [done|]; by destruct (listDir _ sub)).
Qed.

Lemma disk_head n ign abs names : n ∈ names → disk_side ign abs names [n] = recorded (abs ++ [n]) n.
Proof. intros Hn. cbn [disk_side]. rewrite decide_True by done. by destruct (recorded _ _). Qed.

Lemma disk_absent n ign abs names ns : Forall (bytes_lt n) names → disk_side ign abs names (n :: ns) = None.
Proof. intros Hl. cbn [disk_side]. rewrite decide_False; [done|]. intros Hin. eapply Forall_forall in Hl; [|done]. by eapply (cmp_lt_irrefl bytes_compare). Qed.

Lemma rest_after_seen n a a' y y' : rest_after n a a' → rest_after n y y' → rest_after n (seen_side a y) (seen_side a' y').
Proof.
  intros (A1 & A2 & A3) (Y1 & Y2 & Y3). unfold seen_side. split; [by rewrite Y1|]. split; [by rewrite Y2|]. intros m ns. split.
  - intros Hm. by rewrite (proj1 (A3 m ns) Hm), (proj1 (Y3 m ns) Hm).
  - rewrite fmap_is_Some. apply Y3.
Qed.

Lemma below_seen n a y : pointwise_relation _ eq (below_name n (seen_side a y)) (seen_side (below_name n a) (below_name n y)).
Proof. by intros [|m ns]. Qed.

#[local] Instance seen_side_proper : Proper (pointwise_relation _ eq ==> pointwise_relation _ eq ==> pointwise_relation _ eq) seen_side.
Proof. intros a a' Ha y y' Hy ns. unfold seen_side. by rewrite Ha, Hy. Qed.

Lemma seen_no_side y : pointwise_relation _ eq (seen_side no_side y) y.
Proof. intros ns. unfold seen_side. simpl. by destruct (y ns). Qed.

Lemma seen_no_disk a : pointwise_relation _ eq (seen_side a no_side) no_side.
Proof. by intros ns. Qed.

Lemma resolve_no_side : pointwise_relation _ eq (resolve []) no_side.
Proof. intros ns. apply resolve_nil_l. Qed.

Lemma no_sides pre : lists_sides pre no_side no_side [].
Proof. by apply lists_sides_none. Qed.

(** A name of a level, and the names behind it. *)
Lemma scan_step pre n (a a' : side) ign abs names names' sub rest : rest_after n a a' → names = names' ∨ names = n :: names' → Forall (bytes_lt n) names' →
  lists_sides (pre ++ [n]) (below_name n a) (seen_side (below_name n a) (below_name n (disk_side ign abs names))) sub →
  lists_sides pre a' (seen_side a' (disk_side ign abs names')) rest →
  lists_sides pre a (seen_side a (disk_side ign abs names))
    (option_list (change_of (joined (pre ++ [n])) (a [n]) (seen (a [n]) <$> disk_side ign abs names [n])) ++ sub ++ rest).
Proof.
  intros Ha Hn Hl Hsub Hrest. apply (lists_sides_step pre n a (seen_side a (disk_side ign abs names)) a' (seen_side a' (disk_side ign abs names'))); [done| | |done].
  - by apply rest_after_seen, disk_rest.
  - by rewrite below_seen.
Qed.

(** ** Added entries *)

Lemma no_side_rest n : rest_after n no_side no_side.
Proof. split; [done|]. split; [done|]. intros m ns. split; [done|]. by intros []. Qed.

Lemma sorted_names_cons n names : StronglySorted bytes_lt (n :: names) → StronglySorted bytes_lt names ∧ Forall (bytes_lt n) names.
Proof. by intros [? ?]%StronglySorted_inv. Qed.

(** What is reported for a new name. *)
Definition reports_added (fuel : nat) : Prop := ∀ abs pre name ign cs, added fuel abs (joined pre) name ign = ok cs →
  ∃ e sub, recorded (abs ++ [name]) name = Some e ∧ cs = MkChange (joined (pre ++ [name])) Added None (Some e) :: sub ∧ lists_sides (pre ++ [name]) no_side (disk_kids ign (abs ++ [name]) name e) sub.

Lemma added_list fuel abs pre ign names cs : reports_added fuel → StronglySorted bytes_lt names → concatR (λ name, added fuel abs (joined pre) name ign) names = ok cs →
  lists_sides pre no_side (disk_side ign abs names) cs.
Proof.
  intros IH. revert cs. induction names as [|n names IHn]; intros cs Hs; cbn [concatR].
  { intros [= <-]. apply lists_sides_none. by intros [|m ns]. }
  apply sorted_names_cons in Hs as [Hs Hl]. intros (c1 & H1 & (c2 & H2 & [= <-])%bindR_ok)%bindR_ok. destruct (IH _ _ _ _ _ H1) as (e & sub & He & -> & Hsub). specialize (IHn _ Hs H2).
  assert (n ∈ n :: names) as Hn by (by left).
  pose proof (scan_step pre n no_side no_side ign abs (n :: names) names sub c2 (no_side_rest n) (or_intror eq_refl) Hl) as Hst. rewrite (disk_head n _ _ _ Hn), He in Hst. rewrite !seen_no_side in Hst. apply Hst; [|done].
  assert (pointwise_relation _ eq (below_name n no_side) no_side) as -> by (by intros [|]). rewrite seen_no_side. by rewrite (below_disk n _ _ _ e Hn He).
Qed.

Lemma added_spec fuel : reports_added fuel.
Proof.
  induction fuel as [|fuel IH]; intros abs pre name ign cs; cbn [Scan.added]; intros ([e sz] & He & (below & Hb & [= <-])%bindR_ok)%bindR_ok; destruct (entry_true _ _ _ _ He) as (Hr & _ & _); rewrite <- joined_snoc in *;
    exists e, below; (split; [done|]; split; [done|]); unfold disk_kids.
  - destruct (IsDir_ e); [done|]. injection Hb as <-. apply no_sides.
  - destruct (IsDir_ e); [|injection Hb as <-; apply no_sides]. apply bindR_ok in Hb as (m & Hm & (names & Hn & Hc)%bindR_ok). injection Hm as ->. injection Hn as Hn. rewrite Hn.
    eapply added_list; [done|by eapply listDir_sorted|done].
Qed.

Lemma addedChildren_spec fuel full pre name ign e cs : IsDir_ e = true → addedChildren fuel full (joined pre) name ign = ok cs → lists_sides pre no_side (disk_kids ign full name e) cs.
Proof.
  intros Hd. destruct fuel as [|fuel]; [done|]. unfold Scan.addedChildren, disk_kids. rewrite Hd. intros (m & Hm & (names & Hn & Hc)%bindR_ok)%bindR_ok. injection Hm as ->. injection Hn as Hn. rewrite Hn.
  eapply added_list; [apply added_spec|by eapply listDir_sorted|done].
Qed.

(** ** Names on both sides *)

Section level.
Context (sub : fpath → bytes → Key → Matcher → res (list Change)).
Context (sub_spec : ∀ full pre k m cs, sub full (joined pre) k m = ok cs →
  ∃ es names, CollectEntries k = inr es ∧ listDir full m = inr names ∧ lists_sides pre (resolve es) (seen_side (resolve es) (disk_side m full names)) cs).

(** What is reported for a name both sides have. *)
Definition reports_both (abs : fpath) (pre : list bytes) (b : Entry) (ign : Matcher) (cs : list Change) : Prop :=
  ∃ y s, recorded (abs ++ [e_Name b]) (e_Name b) = Some y ∧ cs = option_list (change_of (joined (pre ++ [e_Name b])) (Some b) (Some (seen (Some b) y))) ++ s ∧
    lists_sides (pre ++ [e_Name b]) (resolve (kids (Some b))) (seen_side (resolve (kids (Some b))) (disk_kids ign (abs ++ [e_Name b]) (e_Name b) y)) s.

Lemma seen_retyped b y : ftype (e_Mode b) ≠ ftype (e_Mode y) → seen (Some b) y = y.
Proof. intros Ht. unfold seen. by rewrite (proj2 (N.eqb_neq _ _) Ht). Qed.

Lemma both_retyped fuel pre abs b ign e sz del add : entry (abs ++ [e_Name b]) (e_Name b) true = ok (e, sz) → ftype (e_Mode b) ≠ ftype (e_Mode e) →
  expandChildren fuel (joined (pre ++ [e_Name b])) b Deleted = ok del →
  (if IsDir_ e then addedChildren fuel (abs ++ [e_Name b]) (joined (pre ++ [e_Name b])) (e_Name b) ign else ok []) = ok add →
  reports_both abs pre b ign (MkChange (joined (pre ++ [e_Name b])) TypeChanged (Some b) (Some e) :: del ++ add).
Proof.
  intros He Ht Hdel Hadd. destruct (entry_true _ _ _ _ He) as (Hr & _ & _). exists e, (del ++ add). split; [done|]. rewrite seen_retyped by done. cbn [change_of]. rewrite (proj2 (Compare_TypeChanged b e) Ht). split; [done|].
  apply (expandChildren_spec _ _ collect_sorted) in Hdel; [|by right]. unfold old_side, new_side, lists_changes in Hdel. cbn in Hdel. rewrite resolve_no_side in Hdel.
  destruct (IsDir_ e) eqn:De.
  - assert (IsDir_ b = false) as Db by (unfold IsDir_ in *; apply N.eqb_eq in De; apply N.eqb_neq; congruence). unfold Worktree.kids in *. rewrite Db in *. rewrite resolve_no_side in *.
    apply lists_sides_none_inv in Hdel as ->; [|done]. rewrite seen_no_side. by eapply addedChildren_spec.
  - injection Hadd as <-. rewrite app_nil_r. unfold disk_kids. by rewrite De, seen_no_disk.
Qed.

Lemma both_spec fuel pre abs b ign cs : both fuel sub abs (joined pre) b ign = ok cs → reports_both abs pre b ign cs.
Proof.
  unfold Scan.both. rewrite <- joined_snoc. destruct (N.eqb_spec (ftype (e_Mode b)) (diskType d (abs ++ [e_Name b]))) as [Ht|Ht]; cbn [negb].
  - intros ([e0 sz] & He & (e1 & Hs & Hcs)%bindR_ok)%bindR_ok. destruct (settle_seen _ _ _ _ _ _ He Ht Hs) as (y & Hr & Hn & Hty & ->). exists y.
    assert (IsDir_ y = IsDir_ b) as Hd by (by apply IsDir_type). unfold disk_kids. cbn [change_of Worktree.kids]. rewrite Hd. set (cs0 := option_list _).
    assert (match Compare b (seen (Some b) y) with Some k => [MkChange (joined (pre ++ [e_Name b])) k (Some b) (Some (seen (Some b) y))] | None => [] end = cs0) as Hcs0 by (unfold cs0; by destruct (Compare b _)).
    rewrite Hcs0 in Hcs. destruct (IsDir_ b).
    + apply bindR_ok in Hcs as (m & Hm & (bk & Hk & (rest & Hr' & [= <-])%bindR_ok)%bindR_ok). injection Hm as Hm. injection Hk as Hk. destruct (sub_spec _ _ _ _ _ Hr') as (es & names & Ec & El & Hl).
      exists rest. split; [done|]. split; [done|]. unfold entries_at. by rewrite Hk, Ec, Hm, El.
    + injection Hcs as <-. exists []. split; [done|]. split; [by rewrite app_nil_r|]. rewrite resolve_no_side, seen_no_side. apply no_sides.
  - intros ([e sz] & He & (del & Hdel & (add & Hadd & [= <-])%bindR_ok)%bindR_ok)%bindR_ok. destruct (entry_true _ _ _ _ He) as (_ & _ & Hte). eapply both_retyped; [done| |done|done]. by rewrite Hte.
Qed.

(** ** The loop *)

Lemma dir_loop_eq fuel abs prefix ign base ents :
  dir_loop fuel sub abs prefix ign base ents =
    match base, ents with
    | [], [] => ok []
    | b :: base', [] => let! cs := expand fuel prefix b Deleted in let! rest := dir_loop fuel sub abs prefix ign base' [] in ok (cs ++ rest)
    | [], name :: ents' => let! cs := added fuel abs prefix name ign in let! rest := dir_loop fuel sub abs prefix ign [] ents' in ok (cs ++ rest)
    | b :: base', name :: ents' =>
        match bytes_compare (e_Name b) name with
        | Lt => let! cs := expand fuel prefix b Deleted in let! rest := dir_loop fuel sub abs prefix ign base' ents in ok (cs ++ rest)
        | Gt => let! cs := added fuel abs prefix name ign in let! rest := dir_loop fuel sub abs prefix ign base ents' in ok (cs ++ rest)
        | Eq => let! cs := both fuel sub abs prefix b ign in let! rest := dir_loop fuel sub abs prefix ign base' ents' in ok (cs ++ rest)
        end
    end.
Proof. by destruct base, ents. Qed.

Definition scanned (abs : fpath) (pre : list bytes) (ign : Matcher) (base : list Entry) (names : list bytes) (cs : list Change) : Prop :=
  lists_sides pre (resolve base) (seen_side (resolve base) (disk_side ign abs names)) cs.

Notation after n base := (Forall (λ e, bytes_lt n (e_Name e)) base).

Lemma scanned_deleted fuel abs pre ign b base names cs rest : expand fuel (joined pre) b Deleted = ok cs → after (e_Name b) base → Forall (bytes_lt (e_Name b)) names →
  scanned abs pre ign base names rest → scanned abs pre ign (b :: base) names (cs ++ rest).
Proof.
  intros (s & Hsub & ->)%(expand_spec _ _ collect_sorted) Ha Hl Hr; [|by right]. unfold old_side, new_side, lists_changes in Hsub. cbn in Hsub.
  assert (named (e_Name b) (Some b)) as Hnb by (by intros ? [= <-]).
  pose proof (scan_step pre (e_Name b) (resolve (b :: base)) (resolve base) ign abs names names s rest (rest_after_head _ _ _ (Some b) _ Hnb Ha) (or_introl eq_refl) Hl) as Hst.
  rewrite disk_absent in Hst by done. change (resolve (b :: base) [e_Name b]) with (find_name (e_Name b) (b :: base)) in Hst. rewrite find_name_head in Hst. apply Hst; [|done].
  rewrite (below_name_head _ _ _ (Some b) _ Hnb Ha). assert (pointwise_relation _ eq (below_name (e_Name b) (disk_side ign abs names)) no_side) as -> by (intros [|m ns]; [done|]; by apply disk_absent).
  rewrite seen_no_disk. by rewrite resolve_no_side in Hsub.
Qed.

Lemma scanned_added fuel abs pre ign base name names cs rest : added fuel abs (joined pre) name ign = ok cs → after name base → Forall (bytes_lt name) names →
  scanned abs pre ign base names rest → scanned abs pre ign base (name :: names) (cs ++ rest).
Proof.
  intros (e & s & He & -> & Hsub)%added_spec Ha Hl Hr. assert (named name None) as Hnn by done. assert (name ∈ name :: names) as Hin by (by left).
  pose proof (scan_step pre name (resolve base) (resolve base) ign abs (name :: names) names s rest (rest_after_head _ _ _ None _ Hnn Ha) (or_intror eq_refl) Hl) as Hst.
  rewrite (disk_head _ _ _ _ Hin), He in Hst. change (resolve base [name]) with (find_name name base) in Hst. rewrite (find_name_above _ _ Ha) in Hst. apply Hst; [|done].
  rewrite (below_name_head _ _ _ None _ Hnn Ha). cbn [Worktree.kids]. rewrite resolve_no_side, seen_no_side. by rewrite (below_disk _ _ _ _ _ Hin He).
Qed.

Lemma scanned_both fuel abs pre ign b base names cs rest : both fuel sub abs (joined pre) b ign = ok cs → after (e_Name b) base → Forall (bytes_lt (e_Name b)) names →
  scanned abs pre ign base names rest → scanned abs pre ign (b :: base) (e_Name b :: names) (cs ++ rest).
Proof.
  intros (y & s & He & -> & Hsub)%both_spec Ha Hl Hr. assert (named (e_Name b) (Some b)) as Hnb by (by intros ? [= <-]). assert (e_Name b ∈ e_Name b :: names) as Hin by (by left).
  pose proof (scan_step pre (e_Name b) (resolve (b :: base)) (resolve base) ign abs (e_Name b :: names) names s rest (rest_after_head _ _ _ (Some b) _ Hnb Ha) (or_intror eq_refl) Hl) as Hst.
  rewrite (disk_head _ _ _ _ Hin), He in Hst. change (resolve (b :: base) [e_Name b]) with (find_name (e_Name b) (b :: base)) in Hst. rewrite find_name_head in Hst. rewrite <- app_assoc. apply Hst; [|done].
  rewrite (below_name_head _ _ _ (Some b) _ Hnb Ha). by rewrite (below_disk _ _ _ _ _ Hin He).
Qed.

Lemma names_above n m names : StronglySorted bytes_lt (m :: names) → bytes_lt n m → Forall (bytes_lt n) (m :: names).
Proof. intros [_ Hl]%sorted_names_cons Hn. constructor; [done|]. eapply Forall_impl; [exact Hl|]. intros x Hx. by eapply (cmp_lt_trans bytes_compare). Qed.

Lemma dir_loop_spec fuel abs pre ign base names cs : sorted_names base → StronglySorted bytes_lt names → dir_loop fuel sub abs (joined pre) ign base names = ok cs → scanned abs pre ign base names cs.
Proof.
  remember (length base + length names)%nat as n eqn:En. revert base names cs En. induction (lt_wf n) as [n _ IH]. intros base names cs En Sb Sn. rewrite dir_loop_eq.
  destruct base as [|b base], names as [|m names]; cbn [length] in En.
  - intros [= <-]. apply lists_sides_none. intros [|m ns]; [done|]. unfold side_change, seen_side. by rewrite resolve_nil_l.
  - intros (h & Hh & (r & Hr & [= <-])%bindR_ok)%bindR_ok. apply sorted_names_cons in Sn as [Sn Hl]. eapply scanned_added; [done|constructor|done|]. by eapply IH; [|reflexivity|..|exact Hr]; [simpl; lia|..].
  - intros (h & Hh & (r & Hr & [= <-])%bindR_ok)%bindR_ok. apply sorted_cons in Sb as [Sb Hb]. eapply scanned_deleted; [done|done|constructor|]. by eapply IH; [|reflexivity|..|exact Hr]; [simpl; lia|..].
  - pose proof (sorted_cons _ _ Sb) as [Sb' Hb]. pose proof (sorted_names_cons _ _ Sn) as [Sn' Hl]. destruct (bytes_compare (e_Name b) m) eqn:Ec; intros (h & Hh & (r & Hr & [= <-])%bindR_ok)%bindR_ok.
    + apply (cmp_eq_iff bytes_compare) in Ec as <-. eapply scanned_both; [done..|]. by eapply IH; [|reflexivity|..|exact Hr]; [lia|..].
    + eapply scanned_deleted; [done|done|by apply names_above|]. by eapply IH; [|reflexivity|..|exact Hr]; [simpl; lia|..].
    + apply (cmp_gt_lt bytes_compare) in Ec. eapply scanned_added; [done|by apply sorted_above|done|]. by eapply IH; [|reflexivity|..|exact Hr]; [simpl; lia|..].
Qed.
End level.

Lemma dir_spec fuel full pre k m cs : dir fuel full (joined pre) k m = ok cs →
  ∃ es names, CollectEntries k = inr es ∧ listDir full m = inr names ∧ lists_sides pre (resolve es) (seen_side (resolve es) (disk_side m full names)) cs.
Proof.
  revert full pre k m cs. induction fuel as [|fuel IH]; intros full pre k m cs; cbn [Scan.dir]; [done|].
  intros (names & Hn & (es & He & Hl)%bindR_ok)%bindR_ok. injection Hn as Hn. injection He as He. exists es, names. split; [done|]. split; [done|].
  eapply (dir_loop_spec (dir fuel)); [exact IH|by eapply collect_sorted|by eapply listDir_sorted|exact Hl].
Qed.

(** ** What a scan finds *)

(** The stat data can be trusted: where the scan does not hash, the content is that of
    the base. *)
Definition stat_honest (a y : side) : Prop := ∀ ns b e bk, a ns = Some b → y ns = Some e → ftype (e_Mode b) = S_IFREG → ftype (e_Mode e) = S_IFREG → Parse (e_ContentKey b) = inr bk →
  must_hash b e (match Parse (e_ContentKey e) with inr k => Length k | inl _ => 0 end) bk = false → e_ContentKey e = e_ContentKey b.

Lemma Compare_content b e ck : ftype (e_Mode b) ≠ S_IFREG → Compare b (with_content e ck) = Compare b e.
Proof. intros Hr. unfold Compare, SameContent. simpl. by rewrite (proj2 (N.eqb_neq _ _) Hr). Qed.

Lemma Compare_seen a y ns b e : stat_honest a y → a ns = Some b → y ns = Some e → Compare b (seen (Some b) e) = Compare b e.
Proof.
  intros Hh Hb He. unfold seen. destruct (N.eqb_spec (ftype (e_Mode b)) (ftype (e_Mode e))) as [Et|]; cbn [negb]; [|done]. destruct (N.eqb_spec (ftype (e_Mode e)) S_IFREG) as [Er|Er].
  - destruct (Parse (e_ContentKey b)) as [|bk] eqn:Ep; [done|]. destruct (must_hash b e _ bk) eqn:Em; [done|]. rewrite <- (Hh ns b e bk Hb He) by (congruence || done). by destruct e.
  - destruct (_ =? S_IFDIR); [|done]. apply Compare_content. by rewrite Et.
Qed.

(** The change of a list at a path: its path, the base entry, and the kind a comparison
    with the disk gives. *)
Definition local_change (a y : side) (ns : list bytes) (c : Change) : Prop :=
  ∃ c', side_change [] a y ns = Some c' ∧ Path c = joined ns ∧ c_Kind c = c_Kind c' ∧ Old c = a ns ∧ (New c = None ↔ y ns = None).

Lemma change_of_seen a y ns c : stat_honest a y → side_change [] a (seen_side a y) ns = Some c → local_change a y ns c.
Proof.
  intros Hh. unfold local_change, side_change, seen_side. destruct (a ns) as [b|] eqn:Ea, (y ns) as [e|] eqn:Ey; cbn [change_of fmap option_fmap option_map].
  - rewrite (Compare_seen a y ns b e) by done. destruct (Compare b e) as [k|]; cbn; [|done]. intros [= <-]. eexists. split; [done|]. done.
  - intros [= <-]. eexists. split; [done|]. done.
  - intros [= <-]. eexists. split; [done|]. done.
  - done.
Qed.

(** C35 A scan lists exactly the local changes, once each and in path order: for every
    path below the working directory, of any depth, that is not ignored there and whose
    entry differs from the one of the base tree in presence, type, content, mode or
    metadata there is one change, with the kind of the difference, and there are no
    others; a base path that is ignored now counts as absent.  Files are read only where
    their size or time differs or the time is too close to the last sync; the rest are
    assumed to be as their stat data says.  How one directory is listed, how the entry of
    one file is read and which files are hashed is the code's own ([listDir], [entry],
    [must_hash]) on both sides: the theorem is about the walk and what it reports. *)
Theorem Scan_lists fuel base cs ign names es : Scan fuel base = ok cs → ig_Root d = inr ign → listDir [] ign = inr names → CollectEntries base = inr es →
  stat_honest (resolve es) (disk_side ign [] names) →
  ∃ nss, Forall2 (local_change (resolve es) (disk_side ign [] names)) nss cs ∧ StronglySorted path_lt nss ∧
    ∀ ns, is_Some (side_change [] (resolve es) (disk_side ign [] names) ns) → ns ∈ nss.
Proof.
  intros Hs Hi Hn He Hh. unfold Scan.Scan in Hs. rewrite Hi in Hs. cbn [bindR] in Hs. destruct (dir_spec _ _ [] _ _ _ Hs) as (es' & names' & He' & Hn' & nss & F & S & C). rewrite He in He'. rewrite Hn in Hn'. injection He' as <-. injection Hn' as <-.
  exists nss. split; [|split; [done|]].
  - eapply Forall2_impl; [exact F|]. intros ns c. by apply change_of_seen.
  - intros ns Hns. apply C. revert Hns. unfold side_change, seen_side. destruct (resolve es ns) as [b|] eqn:Ea, (disk_side ign [] names ns) as [e|] eqn:Ey; cbn [change_of fmap option_fmap option_map]; try done.
    rewrite (Compare_seen (resolve es) (disk_side ign [] names) ns b e) by done. by destruct (Compare b e).
Qed.

(** ** A scan ends *)

Lemma entry_total full name hash : entry full name hash ≠ None.
Proof.
  unfold Scan.entry. apply bindR_total; [done|]. intros n _. apply bindR_total; [destruct (_ && _); [by apply bindR_total|done]|]. intros e _. apply bindR_total; [|done].
  unfold entry_xattrs. destruct (_ =? _); [done|]. apply bindR_total; [done|]. intros xs _. case_bool_decide; [done|]. case_bool_decide; [done|]. by apply bindR_total.
Qed.

Lemma settle_total b e sz full : settle_content b e sz full ≠ None.
Proof. unfold Scan.settle_content. destruct (_ =? _); [|by destruct (_ =? _)]. apply bindR_total; [done|]. intros bk _. destruct (must_hash _ _ _ _); [by apply bindR_total|done]. Qed.

Section total.
Context (n : nat) (shallow_disk : ∀ q nd, dk_nodes d !! q = Some nd → (length q ≤ n)%nat).

(** An entry that was read is not deeper than the directory is. *)
Lemma entry_depth abs name hash e sz : entry (abs ++ [name]) name hash = ok (e, sz) → (length abs < n)%nat.
Proof.
  intros (_ & nd & _ & El & _)%entry_split. unfold lstat in El. destruct (sy_fault _ _); [done|]. destruct (walk_to _ _ _); [done|]. destruct (dk_nodes d !! _) eqn:E; [|done].
  apply shallow_disk in E. rewrite length_app in E. simpl in E. lia.
Qed.

Lemma added_total fuel abs prefix name ign : (n ≤ fuel + length abs)%nat → added fuel abs prefix name ign ≠ None.
Proof.
  revert abs prefix name ign. induction fuel as [|fuel IH]; intros abs prefix name ign Hf; cbn [Scan.added]; (apply bindR_total; [apply entry_total|]); intros [e sz] He; apply entry_depth in He; (apply bindR_total; [|done]); [lia|].
  destruct (IsDir_ e); [|done]. apply bindR_total; [done|]. intros m _. apply bindR_total; [done|]. intros names _. apply concatR_total. intros x _. apply IH. rewrite length_app. simpl. lia.
Qed.

Lemma addedChildren_total fuel abs p name ign : (length abs < n)%nat → (n ≤ fuel + length abs)%nat → addedChildren fuel (abs ++ [name]) p name ign ≠ None.
Proof.
  intros Ha Hf. destruct fuel as [|fuel]; [simpl in Hf; lia|]. unfold Scan.addedChildren. apply bindR_total; [done|]. intros m _. apply bindR_total; [done|]. intros names _. apply concatR_total. intros x _. apply added_total. rewrite length_app. simpl. lia.
Qed.

Lemma both_total fuel sub abs prefix b ign : (n ≤ fuel + length abs)%nat → shallow Parse CollectEntries fuel b →
  (∀ p bk m, (length abs < n)%nat → IsDir_ b = true → Parse (e_ContentKey b) = inr bk → sub (abs ++ [e_Name b]) p bk m ≠ None) → both fuel sub abs prefix b ign ≠ None.
Proof.
  intros Hf Hs Hsub. unfold Scan.both. destruct (negb _); (apply bindR_total; [apply entry_total|]); intros [e sz] He; apply entry_depth in He.
  - apply bindR_total; [by apply expandChildren_total|]. intros del _. apply bindR_total; [|done]. destruct (IsDir_ e); [|done]. by apply addedChildren_total.
  - apply bindR_total; [apply settle_total|]. intros e1 _. destruct (IsDir_ b) eqn:Hd; [|done]. apply bindR_total; [done|]. intros m _. apply bindR_total; [done|]. intros bk Hk. apply bindR_total; [|done]. injection Hk as Hk. by apply Hsub.
Qed.

Lemma dir_loop_total fuel sub abs prefix ign base names : (n ≤ fuel + length abs)%nat → Forall (shallow Parse CollectEntries fuel) base →
  (∀ b p bk m, b ∈ base → (length abs < n)%nat → IsDir_ b = true → Parse (e_ContentKey b) = inr bk → sub (abs ++ [e_Name b]) p bk m ≠ None) →
  dir_loop fuel sub abs prefix ign base names ≠ None.
Proof.
  intros Hf. remember (length base + length names)%nat as l eqn:El. revert base names El. induction (lt_wf l) as [l _ IH]. intros base names El Hs Hsub. rewrite dir_loop_eq.
  assert (∀ base' names' h, (length base' + length names' < l)%nat → base' ⊆ base → h ≠ None → (let! cs := h in let! rest := dir_loop fuel sub abs prefix ign base' names' in ok (cs ++ rest)) ≠ None) as Hgo.
  { intros base' names' h Hl Hb Hh. apply bindR_total; [done|]. intros cs _. apply bindR_total; [|done]. eapply IH; [exact Hl|reflexivity|rewrite Forall_forall in *; auto|]. intros b p bk m Hin. by apply Hsub, Hb. }
  assert (∀ b, b ∈ base → expand fuel prefix b Deleted ≠ None) as Hexp.
  { intros b Hb. unfold Worktree.expand. apply bindR_total; [|done]. apply expandChildren_total. by eapply Forall_forall in Hs. }
  destruct base as [|b base], names as [|m names]; cbn [length] in El; [done| | |].
  - apply Hgo; [simpl; lia|done|by apply added_total].
  - apply Hgo; [simpl; lia|by apply list_subseteq_cons|apply Hexp; by left].
  - destruct (bytes_compare (e_Name b) m).
    + apply Hgo; [lia|by apply list_subseteq_cons|]. apply both_total; [done|by apply Forall_cons in Hs as []|]. intros p bk m'. apply Hsub. by left.
    + apply Hgo; [simpl; lia|by apply list_subseteq_cons|]. apply Hexp. by left.
    + apply Hgo; [simpl; lia|done|by apply added_total].
Qed.

Lemma dir_total fuel abs prefix k ign : (n ≤ fuel + length abs)%nat → shallow_tree Parse CollectEntries fuel k → dir (S fuel) abs prefix k ign ≠ None.
Proof.
  revert abs prefix k ign. induction fuel as [|fuel IH]; intros abs prefix k ign Hf Hs; cbn [Scan.dir]; (apply bindR_total; [done|]); intros names _; (apply bindR_total; [done|]); intros es He; injection He as He; specialize (Hs es He); (apply dir_loop_total; [done|done|]);
    intros b p bk m Hb Hl Hd Hk; [lia|]. apply IH; [rewrite length_app; simpl; lia|]. intros es' Hes. eapply Forall_forall in Hs; [|done]. apply (Hs Hd). unfold entries_at. by rewrite Hk.
Qed.
End total.

(** A scan ends: one level of recursion more than the directory and the base tree are
    deep is enough. *)
Theorem Scan_total n base : (∀ q nd, dk_nodes d !! q = Some nd → (length q ≤ n)%nat) → shallow_tree Parse CollectEntries n base → Scan (S n) base ≠ None.
Proof. intros Hd Hb. unfold Scan.Scan. apply bindR_total; [done|]. intros ign _. eapply dir_total; [exact Hd|simpl; lia|done]. Qed.
End scan.

(** * A small directory *)

(** An entry found in a tree is one of a directory object. *)
Lemma resolve_collected {Key} (Parse : bytes → string + Key) (CollectEntries : Key → string + list Entry) es ns b :
  resolve Parse CollectEntries es ns = Some b → ∃ es', (es' = es ∨ ∃ k, CollectEntries k = inr es') ∧ b ∈ es'.
Proof.
  revert es. induction ns as [|n [|m ns] IH]; intros es; [done| |].
  - intros [Hin _]%find_some. exists es. split; [by left|by apply list_elem_of_In].
  - rewrite resolve_cons. intros Hr. destruct (IH _ Hr) as (es' & Hes & Hb). exists es'. split; [|done]. right. destruct Hes as [->|?]; [|done].
    destruct (find_name n es) as [e|]; simpl in *; [|by apply not_elem_of_nil in Hb]. destruct (IsDir_ e); [|by apply not_elem_of_nil in Hb]. unfold entries_at in *.
    destruct (Parse (e_ContentKey e)) as [|k]; [by apply not_elem_of_nil in Hb|]. exists k. by destruct (CollectEntries k); [apply not_elem_of_nil in Hb|].
Qed.

(** The base has two files and a directory; on disk one file is changed, one is gone,
    there is a new directory, and two names that a scan does not see. *)
Definition toy_entries (k : bytes) : string + list Entry :=
  if decide (k = nm "base") then inr [ent (nm "a") (N.lor S_IFREG 0x1A4) (nm "c1") []; ent (nm "b") (N.lor S_IFREG 0x1A4) (nm "c1") []; ent (nm "dir") (N.lor S_IFDIR 0x1ED) (nm "d") []]
  else if decide (k = nm "d") then inr [ent (nm "x") (N.lor S_IFREG 0x1A4) (nm "cx") []]
  else inr [].

Definition toy_disk : disk := MkDisk
  {[ [] := on_disk (N.lor S_IFDIR 0x1ED) []; [nm "a"] := on_disk (N.lor S_IFREG 0x1A4) (nm "c2"); [nm "dir"] := on_disk (N.lor S_IFDIR 0x1ED) [];
     [nm "dir"; nm "x"] := on_disk (N.lor S_IFREG 0x1ED) (nm "cx"); [nm "new"] := on_disk (N.lor S_IFDIR 0x1ED) []; [nm "new"; nm "f"] := on_disk (N.lor S_IFREG 0x1A4) (nm "cf");
     [nm "skip"] := on_disk (N.lor S_IFREG 0x1A4) (nm "cs"); [Dir] := on_disk (N.lor S_IFDIR 0x1ED) []; [Dir; nm "state"] := on_disk (N.lor S_IFREG 0x1A4) (nm "cs") ]} [].

Definition toy_scan : res (list Change) :=
  Scan (H := calm_system) inr (λ k, N.of_nat (length k)) toy_entries (λ _, inr tt) (λ _ n _, bool_decide (n = nm "skip")) (λ _ _ _ _, inr tt) (λ _, []) (λ _, inr []) 0%nat toy_disk 0 4%nat (nm "base").

Definition toy_changes : list Change := match toy_scan with Some (inr cs) => cs | _ => [] end.

Lemma toy_scan_sorted k es : toy_entries k = inr es → sorted_names es.
Proof. unfold toy_entries. repeat case_decide; intros [= <-]; repeat constructor. Qed.

Lemma Scan_lists_witness :
  toy_scan = ok toy_changes ∧ ((λ c, (to_string (Path c), c_Kind c)) <$> toy_changes) =
    [("a"%string, Modified); ("b"%string, Deleted); ("dir/x"%string, ModeChanged); ("new"%string, Added); ("new/f"%string, Added)] ∧
  ∃ a y nss, Forall2 (local_change a y) nss toy_changes.
Proof.
  split; [vm_compute; reflexivity|]. split; [vm_compute; reflexivity|]. destruct (toy_entries (nm "base")) as [|es] eqn:Ee; [vm_compute in Ee; congruence|].
  eexists _, _. destruct (Scan_lists (H := calm_system) inr (λ k, N.of_nat (length k)) toy_entries (λ _, inr tt) (λ _ n _, bool_decide (n = nm "skip")) (λ _ _ _ _, inr tt) (λ _, []) (λ _, inr []) 0%nat toy_disk 0 toy_scan_sorted
    4%nat (nm "base") toy_changes tt [nm "a"; nm "dir"; nm "new"] es) as (nss & F & _); [vm_compute; reflexivity|done|vm_compute; reflexivity|done| |exists nss; exact F].
  intros ns b e bk Hb _ _ _ _ Hm. exfalso. destruct (resolve_collected _ _ _ _ _ Hb) as (es' & Hes & Hin).
  assert (∃ k, toy_entries k = inr es') as [k Hk] by (destruct Hes as [->|[k Hk]]; eauto). assert (e_Mtime b = 0%Z) as Hz.
  { unfold toy_entries in Hk. repeat case_decide; injection Hk as <-; repeat (apply elem_of_cons in Hin as [->|Hin]; [done|]); by apply not_elem_of_nil in Hin. }
  unfold must_hash in Hm. rewrite Hz, orb_true_r in Hm. done.
Defined.
