(* ===== verification/Copy.v ===== *)
(** Working copies on disk (src/worktree/tree.go): the position of a working copy and
    its file, finding, creating, opening and closing a copy, and the lock that keeps it
    to one command.

    A machine has the working copies by their roots.  An open copy is a [Tree], which
    owns the files, the pack store and the two metadata files until it is closed; what
    the machine keeps meanwhile is the lock.  JSON and times are parameters. *)
From S2P Require Import Prelude Store Placement View Wire Ballot Proposer Catalog Meta Mark Pins GC Data Worktree Apply Scan.

Local Open Scope N_scope.

(** * The position *)

Record Config := MkConfig {
  cg_Ticket : string;
  cg_Name : string;
  cg_Relay : string;
  cg_NoRelay : bool;
  cg_NoDiscovery : bool;
  cg_User : string;
}.

#[global] Instance Config_eta : Eta Config := λ r,
  MkConfig (cg_Ticket r) (cg_Name r) (cg_Relay r) (cg_NoRelay r) (cg_NoDiscovery r) (cg_User r).

(** [SyncedAt] in nanoseconds; a nil version is [None]. *)
Record State := MkState {
  ws_Base : key;
  ws_Remote : key;
  ws_RemoteCommit : key;
  ws_HasRemote : bool;
  ws_RemoteVersion : option bytes;
  ws_SyncedAt : Z;
}.

#[global] Instance State_eta : Eta State := λ r,
  MkState (ws_Base r) (ws_Remote r) (ws_RemoteCommit r) (ws_HasRemote r) (ws_RemoteVersion r) (ws_SyncedAt r).

Record stateJSON := MkStateJSON { js_Base : string; js_Remote : string; js_RemoteCommit : string; js_RemoteVersion : string; js_SyncedAt : string }.

Definition zero_key : key := arr_zero 32.

Inductive wc_err :=
  | WNotWorkingCopy
  | WIncomplete
  | WInUse
  | WNested (root : fpath)
  | WErrno (e : errno)
  | WText (s : string).

(** [time.Time] as text, and the JSON of the two files. *)
Class Texts := {
  tx_Format : Z → string;                (* UTC, RFC3339Nano *)
  tx_Parse : string → string + Z;
  tx_state :: Codec stateJSON;
  tx_config :: Codec Config;
}.

(** What a working copy uses of the store beside its reads: putting one object, and
    opening a store, new or old. *)
Class OpenStore (P : Type) := {
  os_Open : option P → string + P;
  os_Put : P → key → bytes → P * option string;
}.

Section state.
Context `{Core} `{Texts}.

Definition IsBranch (s : State) : bool := ws_HasRemote s && bool_decide (key_Type (ws_RemoteCommit s) = Commit).

Definition RemoteKey (s : State) : key := if IsBranch s then ws_RemoteCommit s else ws_Remote s.

(** [key.Parse]. *)
Definition parse_key (b : bytes) : string + key := match key_Parse b with Some e => inl e | None => inr (arr_of 32 b) end.

Definition parseKey (s : string) : string + key :=
  match hex_decode (of_string s) with None => inl "encoding/hex: invalid"%string | Some b => parse_key b end.

(** What [SaveState] writes. *)
Definition state_json (s : State) : stateJSON :=
  if ws_HasRemote s then
    MkStateJSON (key_String (ws_Base s)) (key_String (ws_Remote s)) (if IsBranch s then key_String (ws_RemoteCommit s) else "")
      (to_string (hex_encode (default [] (ws_RemoteVersion s)))) (tx_Format (ws_SyncedAt s))
  else MkStateJSON (key_String (ws_Base s)) "" "" "" (tx_Format (ws_SyncedAt s)).

(** What [loadState] makes of it; an error names the field. *)
Definition json_remote (j : stateJSON) : string + State :=
  match parseKey (js_Remote j) with
  | inl e => inl ("bad state file: remote: " +:+ e)
  | inr remote =>
      let rc :=
        if bool_decide (js_RemoteCommit j = "") then inr zero_key
        else match parseKey (js_RemoteCommit j) with
        | inl e => inl ("bad state file: remote_commit: " +:+ e)
        | inr k => if bool_decide (key_Type k = Commit) then inr k else inl ("bad state file: remote_commit " +:+ key_String k)
        end in
      match rc with
      | inl e => inl e
      | inr rc =>
          match hex_decode (of_string (js_RemoteVersion j)) with
          | None => inl "bad state file: remote_version"
          | Some v => inr (MkState zero_key remote rc true (Some v) 0)
          end
      end
  end%string.

Definition json_state (j : stateJSON) : string + State :=
  match parseKey (js_Base j) with
  | inl e => inl ("bad state file: base: " +:+ e)
  | inr base =>
      match (if bool_decide (js_Remote j = "") then inr (MkState zero_key zero_key zero_key false None 0) else json_remote j) with
      | inl e => inl e
      | inr s =>
          match tx_Parse (js_SyncedAt j) with
          | inl e => inl ("bad state file: synced_at: " +:+ e)
          | inr t => inr (s <| ws_Base := base |> <| ws_SyncedAt := t |>)
          end
      end
  end%string.
End state.

(** * Copies and trees *)

Record copy (P : Type) := MkCopy {
  cp_files : disk;
  cp_config : option bytes;
  cp_state : option bytes;
  cp_store : option P;
  cp_locked : bool;
}.
Arguments MkCopy {P}.
Arguments cp_files {P}.
Arguments cp_config {P}.
Arguments cp_state {P}.
Arguments cp_store {P}.
Arguments cp_locked {P}.

#[global] Instance copy_eta {P} : Eta (copy P) := λ r, MkCopy (cp_files r) (cp_config r) (cp_state r) (cp_store r) (cp_locked r).

Record Tree (P : Type) := MkTree {
  t_Root : fpath;
  t_Config : Config;
  t_State : State;
  t_Store : P;
  t_files : disk;
  t_configFile : option bytes;
  t_stateFile : option bytes;
}.
Arguments MkTree {P}.
Arguments t_Root {P}.
Arguments t_Config {P}.
Arguments t_State {P}.
Arguments t_Store {P}.
Arguments t_files {P}.
Arguments t_configFile {P}.
Arguments t_stateFile {P}.

#[global] Instance Tree_eta {P} : Eta (Tree P) := λ r,
  MkTree (t_Root r) (t_Config r) (t_State r) (t_Store r) (t_files r) (t_configFile r) (t_stateFile r).

(** The working copies by root. *)
Notation machine P := (gmap fpath (copy P)).

Section copies.
Context `{Core} `{Texts} `{System} {P : Type} `{OpenStore P} (EmptyTree : key * bytes).
Implicit Types m : machine P.
Implicit Types t : Tree P.

Definition configFile : bytes := of_string "config".
Definition stateFile : bytes := of_string "state".
Definition lockFile : bytes := of_string "lock".

(** [writeJSON]: a temporary file, then a rename; the old content stays until then. *)
Definition writeJSON (root : fpath) (name : bytes) (old : option bytes) (b : bytes) : option bytes * option wc_err :=
  match sy_fault "write" (root ++ [Dir; name]) with
  | Some e => (old, Some (WErrno e))
  | None =>
      match sy_fault "rename" (root ++ [Dir; name]) with
      | Some e => (old, Some (WErrno e))
      | None => (Some b, None)
      end
  end.

(** [Find], from the directory up. *)
Fixpoint find_up m (n : nat) (abs : fpath) : option fpath :=
  if bool_decide (is_Some (m !! take n abs)) then Some (take n abs)
  else match n with O => None | S n => find_up m n abs end.

Definition Find m (abs : fpath) : option fpath := find_up m (length abs) abs.

(** [lockWorkingCopy], for the copy at [root]. *)
Definition lockWorkingCopy m (root : fpath) : machine P * option wc_err :=
  match sy_fault "open" (root ++ [Dir; lockFile]) with
  | Some e => (m, Some (WErrno e))
  | None =>
      match m !! root with
      | None => (m, Some (WErrno ENOENT))
      | Some c => if cp_locked c then (m, Some WInUse) else (<[root := c <| cp_locked := true |>]> m, None)
      end
  end.

Definition unlock m (root : fpath) : machine P :=
  match m !! root with Some c => <[root := c <| cp_locked := false |>]> m | None => m end.

(** [openRaw]. *)
Definition openRaw m (dir : fpath) : machine P * (wc_err + Tree P) :=
  match Find m dir with
  | None => (m, inl WNotWorkingCopy)
  | Some root =>
      match lockWorkingCopy m root with
      | (m, Some e) => (m, inl e)
      | (m, None) =>
          match m !! root with
          | None => (m, inl (WErrno ENOENT))
          | Some c =>
              match cp_config c with
              | None => (unlock m root, inl (WErrno ENOENT))
              | Some b =>
                  match unmarshal b with
                  | inl e => (unlock m root, inl (WText e))
                  | inr cfg =>
                      match os_Open (cp_store c) with
                      | inl e => (unlock m root, inl (WText e))
                      | inr store => (m, inr (MkTree root cfg (MkState EmptyTree.1 zero_key zero_key false None 0) store (cp_files c) (cp_config c) (cp_state c)))
                      end
                  end
              end
          end
      end
  end.

(** [loadState] of what is in the state file. *)
Definition loadState (f : option bytes) : wc_err + State :=
  match f with
  | None => inl WIncomplete
  | Some b => match unmarshal b with inl e => inl (WText ("bad state file: " +:+ e)) | inr j => match json_state j with inl e => inl (WText e) | inr s => inr s end end
  end.

(** [Close]: what the tree owned goes back, and the lock is let go. *)
Definition Close m t : machine P :=
  <[t_Root t := MkCopy (t_files t) (t_configFile t) (t_stateFile t) (Some (t_Store t)) false]> m.

Definition Open m (dir : fpath) : machine P * (wc_err + Tree P) :=
  match openRaw m dir with
  | (m, inl e) => (m, inl e)
  | (m, inr t) =>
      match loadState (t_stateFile t) with
      | inl e => (Close m t, inl e)
      | inr s => (m, inr (t <| t_State := s |>))
      end
  end.

(** [Create] in a directory with the files [files]; what it made before an error stays. *)
Definition Create m (abs : fpath) (files : disk) (cfg : Config) (now : Z) : machine P * (wc_err + Tree P) :=
  match Find m abs with
  | Some root => (m, inl (WNested root))
  | None =>
      match sy_fault "mkdir" (abs ++ [Dir]) with
      | Some e => (m, inl (WErrno e))
      | None =>
          let m := <[abs := MkCopy files None None None false]> m in
          match lockWorkingCopy m abs with
          | (m, Some e) => (m, inl e)
          | (m, None) =>
              match writeJSON abs configFile None (marshal cfg) with
              | (_, Some e) => (unlock m abs, inl e)
              | (f, None) =>
                  match os_Open None with
                  | inl e => (<[abs := MkCopy files f None None false]> m, inl (WText e))
                  | inr store =>
                      match os_Put store EmptyTree.1 EmptyTree.2 with
                      | (store, Some e) => (<[abs := MkCopy files f None (Some store) false]> m, inl (WText e))
                      | (store, None) => (m, inr (MkTree abs cfg (MkState EmptyTree.1 zero_key zero_key false None now) store files f None))
                      end
                  end
              end
          end
      end
  end.

(** [Remove]. *)
Definition Remove m (dir : fpath) : machine P := delete dir m.

Definition SaveConfig t : Tree P * option wc_err :=
  let '(f, e) := writeJSON (t_Root t) configFile (t_configFile t) (marshal (t_Config t)) in (t <| t_configFile := f |>, e).

Definition SaveState t : Tree P * option wc_err :=
  let '(f, e) := writeJSON (t_Root t) stateFile (t_stateFile t) (marshal (state_json (t_State t))) in (t <| t_stateFile := f |>, e).
End copies.
