(* ===== verification/CopySafety.v ===== *)
(** Working copies on disk: what is saved is what is read back, a copy is found from
    anywhere below its root, and one command at a time has it open. *)
From S2P Require Import Prelude Store Placement View Wire Ballot Proposer Catalog Meta Mark Pins GC Data DataSafety NodeNet Worktree Apply ApplySafety Scan Copy.

Local Open Scope N_scope.

(** What the texts rely on: a key prints as its bytes in hex, a time that fits the
    clock's range reads back, the zero key is no commit, and a key has 32 bytes. *)
Class TextsOK `{Core} `{Texts} : Prop := {
  key_String_hex k : key_String k = to_string (hex_encode (arr_bytes k));
  tx_Parse_Format t : (- 2 ^ 63 ≤ t < 2 ^ 63)%Z → tx_Parse (tx_Format t) = inr t;
  zero_not_commit : key_Type zero_key ≠ Commit;
  key_Parse_length b : key_Parse b = None → length b = 32%nat;
}.

Section state.
Context `{Core} `{Texts} `{!TextsOK}.

(** The states the operations build. *)
Record state_ok (s : State) : Prop := {
  so_base : key_Parse (ws_Base s) = None;
  so_time : (- 2 ^ 63 ≤ ws_SyncedAt s < 2 ^ 63)%Z;
  so_remote : if ws_HasRemote s then key_Parse (ws_Remote s) = None
              else ws_Remote s = zero_key ∧ ws_RemoteCommit s = zero_key ∧ ws_RemoteVersion s = None;
  so_commit : ws_RemoteCommit s = zero_key ∨ key_Type (ws_RemoteCommit s) = Commit ∧ key_Parse (ws_RemoteCommit s) = None;
}.

(** What is read back: an absent version of a reference that exists comes back empty,
    which is the same on the wire. *)
Definition reread (s : State) : State := if ws_HasRemote s then s <| ws_RemoteVersion := Some (default [] (ws_RemoteVersion s)) |> else s.

Lemma parseKey_String k : key_Parse (arr_bytes k) = None → parseKey (key_String k) = inr k.
Proof. intros Hk. unfold parseKey, parse_key. rewrite key_String_hex, of_to_string, hex_decode_encode, Hk. by rewrite arr_of_bytes. Qed.

Lemma parse_key_valid b k : parse_key b = inr k → key_Parse (arr_bytes k) = None ∧ arr_bytes k = b.
Proof. unfold parse_key. destruct (key_Parse b) eqn:E; [done|]. intros [= <-]. by rewrite arr_of_exact by (by apply key_Parse_length). Qed.

Lemma key_String_nonempty k : key_String k ≠ ""%string.
Proof. rewrite key_String_hex. intros E. apply (f_equal of_string) in E. rewrite of_to_string in E. apply (f_equal length) in E. rewrite length_hex_encode, arr_length in E. done. Qed.

Lemma IsBranch_spec s : state_ok s → ws_HasRemote s = true → IsBranch s = true ∧ key_Type (ws_RemoteCommit s) = Commit ∧ key_Parse (ws_RemoteCommit s) = None ∨ IsBranch s = false ∧ ws_RemoteCommit s = zero_key.
Proof.
  intros Hs Hr. unfold IsBranch. rewrite Hr. simpl. destruct (so_commit s Hs) as [E|[E1 E2]]; [right|left].
  - split; [|done]. apply bool_decide_eq_false. rewrite E. apply zero_not_commit.
  - split; [by apply bool_decide_eq_true|done].
Qed.

Lemma json_remote_state s : state_ok s → ws_HasRemote s = true →
  json_remote (state_json s) = inr (MkState zero_key (ws_Remote s) (ws_RemoteCommit s) true (Some (default [] (ws_RemoteVersion s))) 0).
Proof.
  intros Hs Hr. pose proof (so_remote s Hs) as Hk. rewrite Hr in Hk. unfold json_remote, state_json. rewrite Hr. cbn [js_Remote js_RemoteCommit js_RemoteVersion]. rewrite parseKey_String by done.
  rewrite of_to_string, hex_decode_encode. destruct (IsBranch_spec s Hs Hr) as [(-> & Ht & Hc)|(-> & ->)].
  - rewrite bool_decide_false by apply key_String_nonempty. rewrite parseKey_String by done. by rewrite bool_decide_true.
  - by rewrite bool_decide_true.
Qed.

Lemma json_state_json s : state_ok s → json_state (state_json s) = inr (reread s).
Proof.
  intros Hs. unfold json_state, reread. assert (js_Base (state_json s) = key_String (ws_Base s) ∧ js_SyncedAt (state_json s) = tx_Format (ws_SyncedAt s)) as [-> ->] by (unfold state_json; by destruct (ws_HasRemote s)).
  rewrite parseKey_String by apply so_base, Hs. rewrite tx_Parse_Format by apply so_time, Hs. destruct (ws_HasRemote s) eqn:Hr.
  - rewrite bool_decide_false by (unfold state_json; rewrite Hr; apply key_String_nonempty). rewrite json_remote_state by done. destruct s. simpl in *. by subst.
  - rewrite bool_decide_true by (unfold state_json; by rewrite Hr). pose proof (so_remote s Hs) as Hrem. rewrite Hr in Hrem. destruct Hrem as (E1 & E2 & E3). destruct s. simpl in *. by subst.
Qed.
End state.

Section copies.
Context `{Core} `{Texts} `{!TextsOK} `{System} {P : Type} `{OpenStore P} (EmptyTree : key * bytes).
Implicit Types m : machine P.
Implicit Types t : Tree P.

Lemma SaveState_spec t t' e : state_ok (t_State t) → SaveState t = (t', e) →
  (∃ f, t' = t <| t_stateFile := f |>) ∧ loadState (t_stateFile t') = match e with None => inr (reread (t_State t)) | Some _ => loadState (t_stateFile t) end.
Proof.
  intros Hs. unfold SaveState, writeJSON. destruct (sy_fault "write" _); [intros [= <- <-]; split; [by eexists|done]|]. destruct (sy_fault "rename" _); [intros [= <- <-]; split; [by eexists|done]|]. intros [= <- <-]. split; [by eexists|].
  unfold loadState. simpl. rewrite unmarshal_marshal. by rewrite json_state_json.
Qed.

(** The position survives its file: after a save that reports success the file reads
    back as the position that was saved (a version that the cluster left out comes back
    empty), and after one that fails it reads as before. *)
Theorem state_round_trip t t' e : state_ok (t_State t) → SaveState t = (t', e) →
  t_State t' = t_State t ∧ loadState (t_stateFile t') = match e with None => inr (reread (t_State t)) | Some _ => loadState (t_stateFile t) end.
Proof. intros Hs He. destruct (SaveState_spec _ _ _ Hs He) as [[f ->] Hl]. done. Qed.

(** ** Finding a copy *)

Lemma find_up_spec m n abs root : find_up m n abs = Some root ↔ ∃ i, (i ≤ n)%nat ∧ root = take i abs ∧ is_Some (m !! root) ∧ ∀ j, (i < j ≤ n)%nat → m !! take j abs = None.
Proof.
  induction n as [|n IH]; cbn [find_up]; case_bool_decide as Hb.
  - split; [intros [= <-]; exists 0%nat; split; [lia|]; split; [done|]; split; [done|]; lia|]. intros (i & Hi & -> & _). assert (i = 0%nat) as -> by lia. done.
  - split; [done|]. intros (i & Hi & -> & Hs & _). assert (i = 0%nat) as -> by lia. done.
  - split.
    + intros [= <-]. exists (S n). split; [lia|]. split; [done|]. split; [done|]. lia.
    + intros (i & Hi & -> & Hs & Hj). destruct (decide (i = S n)) as [->|]; [done|]. rewrite Hj in Hb by lia. by destruct Hb.
  - rewrite IH. split.
    + intros (i & Hi & -> & Hs & Hj). exists i. split; [lia|]. split; [done|]. split; [done|]. intros j Hj'. destruct (decide (j = S n)) as [->|]; [by apply eq_None_not_Some|]. apply Hj. lia.
    + intros (i & Hi & -> & Hs & Hj). assert (i ≠ S n) by (intros ->; done). exists i. split; [lia|]. split; [done|]. split; [done|]. intros j ?. apply Hj. lia.
Qed.

(** The copy that is found is the nearest one above the directory. *)
Theorem Find_nearest m abs root : Find m abs = Some root ↔ below root abs ∧ is_Some (m !! root) ∧ ∀ r, below r abs → is_Some (m !! r) → below r root.
Proof.
  unfold Find, below. rewrite find_up_spec. split.
  - intros (i & Hi & -> & Hs & Hj). split; [apply prefix_take|]. split; [done|]. intros r [l ->] Hr. destruct (decide (length r ≤ i)%nat) as [Hle|Hgt].
    + exists (take (i - length r) l). by rewrite take_app_ge by done.
    + specialize (Hj (length r)). rewrite length_app, take_app_length in Hj. rewrite Hj in Hr by lia. by destruct Hr.
  - intros ([l ->] & Hs & Hn). exists (length root). rewrite length_app. split; [lia|]. split; [by rewrite take_app_length|]. split; [done|]. intros j Hj. apply eq_None_not_Some. intros Hsome.
    specialize (Hn _ (prefix_take _ _) Hsome). apply prefix_length in Hn. rewrite length_take, length_app in Hn. lia.
Qed.

(** ** One command at a time *)

Definition locked m (root : fpath) : Prop := ∃ c, m !! root = Some c ∧ cp_locked c = true.

Lemma lock_locks m root m' : lockWorkingCopy m root = (m', None) → locked m' root ∧ ¬ locked m root ∧ dom m' = dom m ∧ ∀ r, r ≠ root → m' !! r = m !! r.
Proof.
  unfold lockWorkingCopy. destruct (sy_fault _ _); [done|]. destruct (m !! root) as [c|] eqn:Ec; [|done]. destruct (cp_locked c) eqn:El; [done|]. intros [= <-].
  split; [exists (c <| cp_locked := true |>); by rewrite lookup_insert_eq|]. split; [intros (c0 & Hc0 & Hl0); congruence|]. split; [apply dom_insert_lookup_L; eauto|]. intros r Hr. by apply lookup_insert_ne.
Qed.

Lemma lock_refused m root : locked m root → ∃ e, lockWorkingCopy m root = (m, Some e) ∧ (e = WInUse ∨ ∃ x, e = WErrno x).
Proof. intros (c & Hc & Hl). unfold lockWorkingCopy. destruct (sy_fault _ _); [eauto|]. rewrite Hc, Hl. eauto. Qed.

Lemma Find_dom m m' abs : dom m' = dom m → Find m' abs = Find m abs.
Proof.
  intros Hd. unfold Find. generalize (length abs). induction n as [|n IH]; cbn [find_up].
  all: assert (bool_decide (is_Some (m' !! take _ abs)) = bool_decide (is_Some (m !! take _ abs))) as -> by (apply bool_decide_ext; by rewrite <- !elem_of_dom, Hd).
  - done.
  - by rewrite IH.
Qed.

(** A command that opened a copy has it alone: while it is open every other command that
    tries to open it, from any directory below its root, is refused and changes nothing. *)
Theorem open_exclusive m dir m' t : Open EmptyTree m dir = (m', inr t) →
  Find m dir = Some (t_Root t) ∧ ∀ dir', Find m' dir' = Some (t_Root t) → ∃ e, Open EmptyTree m' dir' = (m', inl e) ∧ (e = WInUse ∨ ∃ x, e = WErrno x).
Proof.
  unfold Open at 1, openRaw at 1. destruct (Find m dir) as [root|] eqn:Ef; [|done]. destruct (lockWorkingCopy m root) as [m1 [e|]] eqn:El; [done|]. destruct (lock_locks _ _ _ El) as (Hl & _ & _ & _).
  destruct (m1 !! root) as [c|]; [|done]. destruct (cp_config c) as [b|]; [|done]. destruct (unmarshal b) as [|cfg]; [done|]. destruct (os_Open (cp_store c)) as [|store]; [done|]. cbn [t_stateFile].
  destruct (loadState _) as [|s]; [done|]. intros [= <- <-]. simpl t_Root. split; [done|]. intros dir' Hf. unfold Open, openRaw. rewrite Hf. destruct (lock_refused _ _ Hl) as (e & -> & He). eauto.
Qed.
End copies.

(** * A small position *)

#[global] Instance stateJSON_ser : Ser stateJSON.
Proof. refine (ser_via (λ j, (js_Base j, js_Remote j, js_RemoteCommit j, js_RemoteVersion j, js_SyncedAt j)) (λ '(a, b, c, d, e), MkStateJSON a b c d e) _). by intros []. Defined.

#[global] Instance Config_ser : Ser Config.
Proof. refine (ser_via (λ c, (cg_Ticket c, cg_Name c, cg_Relay c, cg_NoRelay c, cg_NoDiscovery c, cg_User c)) (λ '(a, b, c, d, e, f), MkConfig a b c d e f) _). by intros []. Defined.

#[local] Instance toy_texts : Texts := {|
  tx_Format z := to_string (ser z);
  tx_Parse s := match deser (of_string s) with Some (z, []) => inr z | _ => inl "time"%string end;
|}.

#[local] Instance toy_textsok : TextsOK.
Proof.
  split; [done| | |].
  - intros t _. change (match deser (of_string (to_string (ser t))) with Some (z, []) => inr z | _ => inl "time"%string end = inr t). rewrite of_to_string, <- (app_nil_r (ser t)). by rewrite deser_ser.
  - by vm_compute.
  - intros b. simpl. by case_bool_decide.
Qed.

#[local] Instance toy_openstore : OpenStore unit := {| os_Open _ := inr tt; os_Put s _ _ := (s, None) |}.

Definition branch_state : State := MkState (small_blob x05) (small_blob x06) (small_key x02 (replicate 30 x07)) true (Some [x01; x02]) 5.

Definition branch_tree : Tree unit := MkTree [] (MkConfig "" "r" "" false false "") branch_state tt (MkDisk ∅ []) None None.

Lemma state_round_trip_witness : ∃ t', SaveState (H1 := calm_system) branch_tree = (t', None) ∧ loadState (t_stateFile t') = inr branch_state.
Proof.
  assert (state_ok (t_State branch_tree)) as Hs by (split; [by vm_compute|by vm_compute|by vm_compute|right; by vm_compute]). destruct (SaveState (H1 := calm_system) branch_tree) as [t' e] eqn:Es.
  assert (e = None) as -> by (by injection Es). exists t'. split; [done|]. exact (proj2 (state_round_trip branch_tree t' None Hs Es)).
Defined.
