(* ===== verification/Flow.v ===== *)
(** The operations of a working copy (src/worktree/flow.go): fetch, clone, init, pull,
    push and status, over the scan, the diff, the merge and the writes of a directory.

    What they need of the cluster is the class [Remote]; the client of Tree.v is an
    instance of it.  What they need of amber-store/core beside keys and stores is the
    class [WorkCore].  Progress output is left out. *)
From S2P Require Import Prelude Store Placement View Wire Ballot Proposer Catalog Meta Mark Pins GC Client Data Gate Fetch Tree Worktree Apply Scan Ticket Copy.

Local Open Scope N_scope.

(** * Interfaces *)

(** The cluster, as a working copy uses it.  [None] is a call that does not return. *)
Class Remote (W P : Type) := {
  rm_RefGet : W → string → W * (client_error + Ref (Reference := Reference));
  rm_PullTree : W → P → key → option (W * P * option string);
  rm_Push : W → P → key → string → string → Cond → option (W * (push_err + PushStats));
  rm_View : W → option View;
  rm_now : W → Z;
  rm_zone : W → Z;                                              (* the zone's offset, in seconds *)
}.

Record CommitRec := MkCommitRec { cm_Tree : key; cm_Parents : list key; cm_User : string; cm_When : Z; cm_TZOffset : Z; cm_Message : string }.

Class WorkCore (P : Type) := {
  wc_CollectEntries : P → key → string + list Entry;
  wc_WriteContent : P → bytes → option string;
  wc_DecodeXattrs : bytes → string + gmap bytes bytes;
  wc_EncodeXattrs : gmap bytes bytes → bytes;
  wc_EncodeXattrSet : gmap bytes bytes → string + bytes;
  wc_XattrInlineMax : nat;
  wc_setxattr : fpath → bytes → option (bool * errno);
  wc_Matcher : Type;
  wc_IgnoreRoot : disk → string + wc_Matcher;
  wc_Ignored : wc_Matcher → bytes → bool → bool;
  wc_Descend : disk → wc_Matcher → fpath → bytes → string + wc_Matcher;
  wc_Ingest : P → disk → P * (string + key);                   (* ingest.Dir, without .dstore *)
  wc_EmptyTree : key * bytes;
  wc_commitObject : CommitRec → string + key * bytes;
  wc_commitDecode : bytes → string + CommitRec;
  wc_commitTrees : CommitRec → list key;
}.

Inductive flow_err :=
  | FNoRemote
  | FRemoteMoved
  | FRemoteDeleted
  | FConflict
  | FRefChanged (e : push_err)
  | FUnknownRef
  | FClient (e : client_error)
  | FPush (e : push_err)
  | FApply (e : apply_err)
  | FCopy (e : wc_err)
  | FText (s : string).

Record FetchResult := MkFetchResult { fr_Exists : bool; fr_UpToDate : bool; fr_Key : key; fr_Tree : key }.

Definition fetch0 : FetchResult := MkFetchResult false false zero_key zero_key.

Record PullResult := MkPullResult { pl_Fetch : FetchResult; pl_UpToDate : bool; pl_Applied : list Change; pl_Conflicts : list Conflict }.

Record PushResult := MkPushResult { pr_Root : key; pr_Commit : key; pr_Nothing : bool; pr_Recovered : bool }.

Inductive RemoteState := RemoteUpToDate | RemoteMoved | RemoteAbsent.

Record Status := MkStatus { su_Changes : list Change; su_MetaOnly : nat; su_Remote : RemoteState; su_Incoming : list Change }.

(** * Operations

    Each takes the open copy and the cluster and gives both back; [None] is a call that
    does not return, or fuel that ran out in a diff or a scan. *)

Section flow.
Context `{Core} `{Texts} `{System} {W P : Type} `{PackStore P} `{OpenStore P} `{WorkCore P} `{Remote W P} (fuel : nat).
Implicit Types t : Tree P.
Implicit Types w : W.

Definition pack_text (e : pack_err) : string := match e with ErrNotFound => "not found" | ErrCorrupt => "corrupt" | ErrVerify => "verify" | PackErr s => s end.

(** [Tree.Get]. *)
Definition wt_Get t (k : key) : string + bytes := match ps_Get (t_Store t) k with inl e => inl (pack_text e) | inr b => inr b end.

(** [client.TreeOf] over the local store. *)
Definition tree_of t (k : key) : string + key :=
  TreeOf (λ k, bool_decide (key_Type k = Commit)) key_Length key_String wc_commitDecode (λ n c, Footprint n (wc_commitTrees c)) cm_Tree k (wt_Get t).

Definition wt_diff t (a b : key) : res (list Change) := DiffTrees parse_key (wc_CollectEntries (t_Store t)) fuel a b.

Definition wt_scan t : res (list Change) :=
  Scan parse_key key_Length (wc_CollectEntries (t_Store t)) wc_IgnoreRoot wc_Ignored wc_Descend wc_EncodeXattrs wc_EncodeXattrSet wc_XattrInlineMax (t_files t) (ws_SyncedAt (t_State t)) fuel (ws_Base (t_State t)).

Definition wt_apply t (cs : list Change) : Tree P * option apply_err :=
  let '(d, e) := Apply (λ b, match parse_key b with inl e => inl e | inr k => inr (arr_bytes k) end) (wc_WriteContent (t_Store t)) wc_DecodeXattrs
                   (λ b, wt_Get t (arr_of 32 b)) wc_setxattr (t_files t) cs in
  (t <| t_files := d |>, e).

Definition set_remote (s : State) (has : bool) (remote rc : key) (version : option bytes) : State :=
  s <| ws_HasRemote := has |> <| ws_Remote := remote |> <| ws_RemoteCommit := rc |> <| ws_RemoteVersion := version |>.

Definition commit_or_zero (k : key) : key := if bool_decide (key_Type k = Commit) then k else zero_key.

(** The rest of [fetch] once the reference is read: what it names is brought in. *)
Definition bring_in t w (k : key) : option (W * Tree P * bool * option string) :=
  if ws_HasRemote (t_State t) && bool_decide (RemoteKey (t_State t) = k) then Some (w, t, true, None)
  else
    '(w, store, e) ← rm_PullTree w (t_Store t) k;
    Some (w, t <| t_Store := store |>, false, e).

Definition fetch t w : option (W * Tree P * FetchResult * option flow_err) :=
  match rm_RefGet w (cg_Name (t_Config t)) with
  | (w, inl ErrUnknownRef) => Some (w, t <| t_State := set_remote (t_State t) false zero_key zero_key None |>, fetch0, None)
  | (w, inl e) => Some (w, t, fetch0, Some (FClient e))
  | (w, inr ref) =>
      match parse_key (Gate.ref_Key (ref_Ref ref)) with
      | inl e => Some (w, t, fetch0, Some (FText e))
      | inr k =>
          '(w, t, up, e) ← bring_in t w k;
          Some match e with
          | Some e => (w, t, MkFetchResult true up k zero_key, Some (FText e))
          | None =>
              match tree_of t k with
              | inl e => (w, t, MkFetchResult true up k zero_key, Some (FText e))
              | inr tree => (w, t <| t_State := set_remote (t_State t) true tree (commit_or_zero k) (from_wire (ref_Version ref)) |>, MkFetchResult true up k tree, None)
              end
          end
      end
  end.

Definition save t : Tree P * option flow_err := let '(t, e) := SaveState t in (t, FCopy <$> e).

Definition Fetch t w : option (W * Tree P * FetchResult * option flow_err) :=
  '(w, t, r, e) ← fetch t w;
  Some match e with
  | Some e => (w, t, r, Some e)
  | None => let '(t, e) := save t in (w, t, r, e)
  end.

(** ** Pull *)

(** The position after a pull or a clone. *)
Definition synced_to_remote t (now : Z) : Tree P := t <| t_State := t_State t <| ws_Base := ws_Remote (t_State t) |> <| ws_SyncedAt := now |> |>.

(** What is written for the changes of the two sides; [None]: conflicts stop it. *)
Definition pull_changes (force : bool) (local incoming : list Change) : option (list Change) * list Conflict :=
  let '(apply, conflicts) := Merge local incoming in
  match conflicts with
  | [] => (Some apply, [])
  | _ => if force then (Some (apply ++ (cf_Incoming <$> conflicts)), conflicts) else (None, conflicts)
  end.

Definition pull_apply t w (fr : FetchResult) (force : bool) (local incoming : list Change) : W * Tree P * PullResult * option flow_err :=
  match pull_changes force local incoming with
  | (None, conflicts) => (w, t, MkPullResult fr false [] conflicts, Some FConflict)
  | (Some apply, conflicts) =>
      match wt_apply t apply with
      | (t, Some e) => (w, t, MkPullResult fr false [] conflicts, Some (FApply e))
      | (t, None) => let '(t, e) := save (synced_to_remote t (rm_now w)) in (w, t, MkPullResult fr false apply conflicts, e)
      end
  end.

Definition Pull t w (force : bool) : option (W * Tree P * PullResult * option flow_err) :=
  '(w, t, fr, e) ← Fetch t w;
  match e with
  | Some e => Some (w, t, MkPullResult fr false [] [], Some e)
  | None =>
      if negb (ws_HasRemote (t_State t)) then Some (w, t, MkPullResult fr false [] [], Some FNoRemote)
      else if bool_decide (ws_Remote (t_State t) = ws_Base (t_State t)) then Some (w, t, MkPullResult fr true [] [], None)
      else
        local ← wt_scan t;
        match local with
        | inl e => Some (w, t, MkPullResult fr false [] [], Some (FText e))
        | inr local =>
            incoming ← wt_diff t (ws_Base (t_State t)) (ws_Remote (t_State t));
            Some match incoming with
            | inl e => (w, t, MkPullResult fr false [] [], Some (FText e))
            | inr incoming => pull_apply t w fr force local incoming
            end
        end
  end.

(** ** Push *)

Definition commit t (tree : key) (parents : list key) (user message : string) (now off : Z) : Tree P * (flow_err + key) :=
  match wc_commitObject (MkCommitRec tree parents user now (Z.quot off 60) message) with
  | inl e => (t, inl (FText ("commit: " +:+ e)))
  | inr (k, raw) =>
      match os_Put (t_Store t) k raw with
      | (store, Some e) => (t <| t_Store := store |>, inl (FText e))
      | (store, None) => (t <| t_Store := store |>, inr k)
      end
  end.

Definition samePush t (cur target tree : key) (parents : list key) : bool :=
  if bool_decide (cur = target) then true
  else if negb (bool_decide (key_Type cur = Commit)) || negb (bool_decide (key_Type target = Commit)) then false
  else match wt_Get t cur with
  | inl _ => false
  | inr data => match wc_commitDecode data with inl _ => false | inr c => bool_decide (cm_Tree c = tree) && bool_decide (cm_Parents c = parents) end
  end.

Definition in_sync (s : State) : bool :=
  (ws_HasRemote s && bool_decide (ws_Remote s = ws_Base s)) || (negb (ws_HasRemote s) && bool_decide (ws_Base s = wc_EmptyTree.1)).

(** The condition of the write. *)
Definition push_cond (s : State) (force : bool) : Cond := if force then MkCond None false None false true else MkCond (ws_RemoteVersion s) true None false false.

(** The position after a push of [root] as [target]. *)
Definition pushed t (root target : key) (version : bytes) (now : Z) : Tree P :=
  t <| t_State := MkState root root (commit_or_zero target) true (from_wire version) now |>.

(** The upload and what follows it. *)
Definition push_target t w (root target : key) (r : PushResult) (parents : list key) (user : string) (force : bool) : option (W * Tree P * PushResult * option flow_err) :=
  '(w, ps) ← rm_Push w (t_Store t) target (cg_Name (t_Config t)) user (push_cond (t_State t) force);
  Some match ps with
  | inr ps => let '(t, e) := save (pushed t root target (st_Version ps) (rm_now w)) in (w, t, r, e)
  | inl (PuRef (ErrMismatch current record version hasCurrent) as e) =>
      match parse_key current with
      | inl _ => (w, t, r, Some (FRefChanged e))
      | inr cur =>
          if negb hasCurrent || negb (samePush t cur target root parents) then (w, t, r, Some (FRefChanged e))
          else
            let target' := if bool_decide (key_Type target = Commit) then cur else target in
            let r := MkPushResult (pr_Root r) (if bool_decide (key_Type target = Commit) then cur else pr_Commit r) (pr_Nothing r) true in
            let '(t, e) := save (pushed t root target' version (rm_now w)) in (w, t, r, e)
      end
  | inl e => (w, t, r, Some (FPush e))
  end.

Definition wt_Push t w (user message : string) (force : bool) : option (W * Tree P * PushResult * option flow_err) :=
  let s := t_State t in
  let r0 := MkPushResult zero_key zero_key false false in
  if negb (in_sync s) && negb force then Some (w, t, r0, Some (if ws_HasRemote s then FRemoteMoved else FRemoteDeleted))
  else
    let '(store, root) := wc_Ingest (t_Store t) (t_files t) in
    let t := t <| t_Store := store |> in
    match root with
    | inl e => Some (w, t, r0, Some (FText e))
    | inr root =>
        let r := MkPushResult root zero_key false false in
        if bool_decide (root = ws_Base s) && in_sync s then Some (w, t, MkPushResult root zero_key true false, None)
        else if IsBranch s || negb (bool_decide (message = ""))%string then
          let parents := if IsBranch s then [ws_RemoteCommit s] else [] in
          match commit t root parents user message (rm_now w) (rm_zone w) with
          | (t, inl e) => Some (w, t, r, Some e)
          | (t, inr target) => push_target t w root target (MkPushResult root target false false) parents user force
          end
        else push_target t w root root r [] user force
    end.

(** ** Status *)

Definition status t : res Status :=
  let! changes := wt_scan t in
  let metaOnly := length (filter (λ c, c_Kind c = MetaChanged) changes) in
  let shown := filter (λ c, c_Kind c ≠ MetaChanged) changes in
  let s := t_State t in
  if negb (ws_HasRemote s) then ok (MkStatus shown metaOnly RemoteAbsent [])
  else if bool_decide (ws_Remote s = ws_Base s) then ok (MkStatus shown metaOnly RemoteUpToDate [])
  else let! incoming := wt_diff t (ws_Base s) (ws_Remote s) in ok (MkStatus shown metaOnly RemoteMoved incoming).

(** ** Clone and init *)

(** What is at the path that is to become a working copy. *)
Inductive place := PAbsent | PFile | PDir (files : disk).

Definition fresh_dir : disk := MkDisk {[ [] := new_node (N.lor S_IFDIR (N.ldiff 0x1ED sy_umask)) ]} [].

Definition is_empty_dir (d : disk) : bool := bool_decide (map_Forall (λ q _, q = []) (dk_nodes d)).

(** The directory a clone works in, and whether it was made for it. *)
Definition clone_dir (abs : fpath) (pl : place) : flow_err + disk * bool :=
  match pl with
  | PAbsent => match sy_fault "mkdir" abs with Some e => inl (FCopy (WErrno e)) | None => inr (fresh_dir, true) end
  | PFile => inl (FText "is not a directory")
  | PDir d =>
      match sy_fault "readdir" abs with
      | Some e => inl (FCopy (WErrno e))
      | None => if is_empty_dir d then inr (d, false) else inl (FText "is not empty")
      end
  end.

(** What a clone that fails leaves: nothing of a directory it made, else the files. *)
Definition clone_fail (m : machine P) (abs : fpath) (created : bool) t (r : FetchResult) w (e : flow_err) : option (machine P * place * W * FetchResult * (flow_err + Tree P)) :=
  let m := Close m t in
  Some (Remove m abs, if created then PAbsent else PDir (t_files t), w, r, inl e).

Definition clone_apply (m : machine P) (abs : fpath) (created : bool) t (r : FetchResult) w (changes : list Change) : option (machine P * place * W * FetchResult * (flow_err + Tree P)) :=
  match wt_apply t changes with
  | (t, Some e) => clone_fail m abs created t r w (FApply e)
  | (t, None) =>
      match save (synced_to_remote t (rm_now w)) with
      | (t, Some e) => clone_fail m abs created t r w e
      | (t, None) => Some (m, PDir (t_files t), w, r, inr t)
      end
  end.

Definition Clone (m : machine P) (abs : fpath) (pl : place) (cfg : Config) w : option (machine P * place * W * FetchResult * (flow_err + Tree P)) :=
  match clone_dir abs pl with
  | inl e => Some (m, pl, w, fetch0, inl e)
  | inr (files, created) =>
      match Create wc_EmptyTree m abs files cfg (rm_now w) with
      | (m, inl e) => Some (if created then Remove m abs else m, if created then PAbsent else PDir files, w, fetch0, inl (FCopy e))
      | (m, inr t) =>
          '(w, t, r, e) ← fetch t w;
          match e with
          | Some e => clone_fail m abs created t r w e
          | None =>
              if negb (fr_Exists r) then clone_fail m abs created t r w FUnknownRef
              else
                changes ← wt_diff t (ws_Base (t_State t)) (ws_Remote (t_State t));
                match changes with
                | inl e => clone_fail m abs created t r w (FText e)
                | inr changes => clone_apply m abs created t r w changes
                end
          end
      end
  end.

Definition Init (m : machine P) (abs : fpath) (files : disk) (cfg : Config) w : option (machine P * W * FetchResult * (flow_err + Tree P)) :=
  match Create wc_EmptyTree m abs files cfg (rm_now w) with
  | (m, inl e) => Some (m, w, fetch0, inl (FCopy e))
  | (m, inr t) =>
      '(w, t, r, e) ← fetch t w;
      let '(t, e) := match e with Some e => (t, Some e) | None => save (t <| t_State := t_State t <| ws_SyncedAt := rm_now w |> |>) end in
      Some match e with
      | Some e => (Remove (Close m t) abs, w, r, inl e)
      | None => (m, w, r, inr t)
      end
  end.

(** ** Tickets *)

(** Up to four members. *)
Definition TicketFromView (v : View) : Ticket :=
  MkTicket (ClusterID v) (Incarnation v) ((λ nd, MkMember (Node_ID nd) (Node_Addrs nd)) <$> take 4 (Nodes v)).

Definition RefreshTicket `{Codec Ticket} t w : Tree P * option wc_err :=
  match rm_View w with
  | None => (t, None)
  | Some v =>
      let s := to_string (Encode (TicketFromView v)) in
      if bool_decide (s = cg_Ticket (t_Config t)) then (t, None)
      else SaveConfig (t <| t_Config := t_Config t <| cg_Ticket := s |> |>)
  end.
End flow.
