(* ===== verification/FlowSafety.v ===== *)
(** The operations of a working copy keep it whole: everything its position names is in
    its own store, local changes are kept, a push replaces what was fetched and nothing
    else. *)
From S2P Require Import Prelude Store Placement View Wire Ballot Proposer Catalog Meta Mark Pins GC Client Data DataSafety NodeNet Gate GateSafety Fetch FetchSafety Tree TreeSafety Worktree Apply ApplySafety Scan Ticket Copy CopySafety Flow.

Local Open Scope N_scope.

(** * Laws *)

(** Everything below a key is in the store. *)
Definition complete {P : Type} `{Core} `{PackStore P} `{!PackStoreOK P} (s : P) (k : key) : Prop := ∀ c, reaches k c → c ∈ ps_keys s.

(** What a working copy may rely on in the cluster: a pull loses nothing and brings in
    what it reports, and the clock keeps to its range. *)
Class RemoteOK (W P : Type) `{Core} `{PackStore P} `{!PackStoreOK P} `{Remote W P} : Prop := {
  rm_pull_grows w s k w' s' e : rm_PullTree w s k = Some (w', s', e) → ps_keys s ⊆ ps_keys s';
  rm_pull_complete w s k w' s' : rm_PullTree w s k = Some (w', s', None) → complete s' k;
  rm_now_range w : (- 2 ^ 63 ≤ rm_now w < 2 ^ 63)%Z;
}.

(** And in amber-store/core: a put stores, an ingest stores all of the tree it names, a
    commit names its tree and its parents. *)
Class WorkCoreOK (P : Type) `{Core} `{PackStore P} `{!PackStoreOK P} `{OpenStore P} `{WorkCore P} : Prop := {
  os_Put_grows s k b : ps_keys s ⊆ ps_keys (os_Put s k b).1;
  os_Put_ok s k b s' : os_Put s k b = (s', None) → k ∈ ps_keys s';
  wc_Ingest_grows s d : ps_keys s ⊆ ps_keys (wc_Ingest s d).1;
  wc_Ingest_ok s d s' k : wc_Ingest s d = (s', inr k) → complete s' k ∧ key_Parse (arr_bytes k) = None ∧ key_Type k ≠ Commit;
  wc_Empty_ok : key_Parse (arr_bytes wc_EmptyTree.1) = None ∧ ∀ x, reaches wc_EmptyTree.1 x → x = wc_EmptyTree.1;
  wc_commitObject_ok c k raw : wc_commitObject c = inr (k, raw) → key_Type k = Commit ∧ key_Parse (arr_bytes k) = None ∧
    ∀ x, reaches k x → x = k ∨ reaches (cm_Tree c) x ∨ ∃ p, p ∈ cm_Parents c ∧ reaches p x;
  wc_commitDecode_ok k data c : key_Type k = Commit → is_content k data → wc_commitDecode data = inr c → reaches k (cm_Tree c) ∧ key_Parse (arr_bytes (cm_Tree c)) = None ∧
    ∀ x, reaches k x → x = k ∨ reaches (cm_Tree c) x ∨ ∃ p, p ∈ cm_Parents c ∧ reaches p x;
  ps_Get_held s k d : ps_Get s k = inr d → k ∈ ps_keys s;
}.

Section flow.
Context `{Core} `{Texts} `{!TextsOK} `{System} {W P : Type} `{PackStore P} `{!PackStoreOK P} `{OpenStore P} `{WorkCore P} `{!WorkCoreOK P} `{Remote W P} `{!RemoteOK W P} (fuel : nat).
Implicit Types t : Tree P.
Implicit Types w : W.

Lemma complete_grows (s s' : P) k : ps_keys s ⊆ ps_keys s' → complete s k → complete s' k.
Proof. intros Hs Hc c Hr. by apply Hs, Hc. Qed.

Lemma complete_below (s : P) k c : complete s k → reaches k c → complete s c.
Proof. intros Hc Hr x Hx. apply Hc. by eapply reaches_trans. Qed.

(** * The invariant *)

(** What a position names is in the store. *)
Definition names_held (store : P) (s : State) : Prop :=
  complete store (ws_Base s) ∧ (ws_HasRemote s = true → complete store (ws_Remote s) ∧ complete store (RemoteKey s)).

(** An open copy: its position and the one in its file name what is in the store. *)
Record whole t : Prop := {
  wh_state : state_ok (t_State t);
  wh_held : names_held (t_Store t) (t_State t);
  wh_file s : loadState (t_stateFile t) = inr s → names_held (t_Store t) s;
}.

Lemma names_held_grows (store store' : P) s : ps_keys store ⊆ ps_keys store' → names_held store s → names_held store' s.
Proof. intros Hs [Hb Hr]. split; [by eapply complete_grows|]. intros Hh. destruct (Hr Hh). split; by eapply complete_grows. Qed.

Lemma whole_store t store : ps_keys (t_Store t) ⊆ ps_keys store → whole t → whole (t <| t_Store := store |>).
Proof. intros Hs [W1 W2 W3]. split; [done|by eapply names_held_grows|]. intros s Hl. eapply names_held_grows; [exact Hs|]. by apply W3. Qed.

Lemma whole_files t d : whole t → whole (t <| t_files := d |>).
Proof. by intros [W1 W2 W3]. Qed.

Lemma whole_config t c f : whole t → whole (t <| t_Config := c |> <| t_configFile := f |>).
Proof. by intros [W1 W2 W3]. Qed.

(** A new position that names what is held. *)
Lemma whole_state t s : whole t → state_ok s → names_held (t_Store t) s → whole (t <| t_State := s |>).
Proof. intros [W1 W2 W3] Hs Hh. by split. Qed.

Lemma reread_held store s : names_held store s → names_held store (reread s).
Proof. unfold reread, names_held, RemoteKey, IsBranch. destruct (ws_HasRemote s) eqn:E; simpl; by rewrite ?E. Qed.

Lemma save_whole t t' e : whole t → save t = (t', e) → whole t' ∧ ∃ f, t' = t <| t_stateFile := f |>.
Proof.
  intros Hw. unfold save. destruct (SaveState t) as [t1 e1] eqn:Es. intros [= <- <-]. destruct (SaveState_spec _ _ _ (wh_state t Hw) Es) as [[f ->] Hl]. split; [|by exists f].
  destruct Hw as [W1 W2 W3]. split; [done|done|]. intros s Hs. simpl in Hs. simpl in Hl. rewrite Hl in Hs. destruct e1; [by apply W3|]. injection Hs as <-. by apply reread_held.
Qed.

(** ** Fetch *)

Lemma tree_of_ok t k tree : complete (t_Store t) k → tree_of t k = inr tree → complete (t_Store t) tree ∧ (key_Type k ≠ Commit → tree = k) ∧ (key_Type k = Commit → key_Parse (arr_bytes tree) = None).
Proof.
  intros Hc. unfold tree_of, TreeOf. case_bool_decide as Ht; simpl; [|by intros [= <-]]. unfold wt_Get. destruct (ps_Get (t_Store t) k) as [|data] eqn:Eg; [done|]. apply ps_Get_ok in Eg.
  destruct (wc_commitDecode data) as [|c] eqn:Ed; [done|]. destruct (Footprint _ _); [done|]. destruct (negb _); [done|]. intros [= <-]. destruct (wc_commitDecode_ok _ _ _ Ht Eg Ed) as (Hr & Hp & _).
  split; [by eapply complete_below|]. by split.
Qed.

Lemma bring_in_ok t w k w' t' up e : whole t → bring_in t w k = Some (w', t', up, e) →
  whole t' ∧ t_State t' = t_State t ∧ t_files t' = t_files t ∧ t_stateFile t' = t_stateFile t ∧ (e = None → complete (t_Store t') k).
Proof.
  intros Hw. unfold bring_in. destruct (ws_HasRemote (t_State t)) eqn:Eh; [case_bool_decide as Ek; simpl|simpl].
  { intros [= <- <- <- <-]. split; [done|]. split; [done|]. split; [done|]. split; [done|]. intros _. destruct (wh_held t Hw) as [_ Hr]. rewrite <- Ek. by apply Hr. }
  all: destruct (rm_PullTree w (t_Store t) k) as [[[w1 s1] e1]|] eqn:Ep; [|done]; simpl; intros [= <- <- <- <-]; (split; [apply whole_store; [by eapply rm_pull_grows|done]|]); split; [done|]; split; [done|]; split; [done|]; intros ->; by eapply rm_pull_complete.
Qed.

(** The position a fetch makes of a key it brought in. *)
Lemma fetched_state t k tree v : whole t → key_Parse (arr_bytes k) = None → complete (t_Store t) k → tree_of t k = inr tree →
  whole (t <| t_State := set_remote (t_State t) true tree (commit_or_zero k) v |>).
Proof.
  intros Hw Hk Hc Ht. destruct (tree_of_ok _ _ _ Hc Ht) as (Htree & Hn & Hy). apply whole_state; [done| |].
  - destruct (wh_state t Hw) as [S1 S2 S3 S4]. split; [done|done| |]; simpl.
    + destruct (decide (key_Type k = Commit)); [by apply Hy|]. by rewrite Hn.
    + unfold commit_or_zero. case_bool_decide; [by right|by left].
  - split; [apply (wh_held t Hw)|]. simpl. intros _. split; [done|]. unfold RemoteKey, IsBranch, commit_or_zero. simpl. destruct (decide (key_Type k = Commit)) as [Hb|Hb]; [by rewrite (bool_decide_true (key_Type k = Commit)), bool_decide_true by done|]. rewrite (bool_decide_false (key_Type k = Commit)) by done. rewrite bool_decide_false by apply zero_not_commit. by rewrite Hn.
Qed.

Lemma no_remote_state t : whole t → whole (t <| t_State := set_remote (t_State t) false zero_key zero_key None |>).
Proof. intros Hw. apply whole_state; [done| |]; [destruct (wh_state t Hw) as [S1 S2 S3 S4]; split; [done|done|done|by left]|]. split; [apply (wh_held t Hw)|done]. Qed.

(** A fetch moves the position of the remote and nothing else. *)
Definition same_but_remote t t' : Prop := t_files t' = t_files t ∧ ws_Base (t_State t') = ws_Base (t_State t) ∧ ws_SyncedAt (t_State t') = ws_SyncedAt (t_State t).

Lemma fetch_whole t w w' t' r e : whole t → fetch t w = Some (w', t', r, e) → whole t' ∧ same_but_remote t t' ∧ (e = None → ws_HasRemote (t_State t') = fr_Exists r).
Proof.
  intros Hw. unfold fetch. destruct (rm_RefGet w _) as [w1 [ce|ref]].
  { destruct ce; intros [= <- <- <- <-]; (split; [first [by apply no_remote_state|done]|]); split; done. }
  destruct (parse_key _) as [|k] eqn:Ek; [intros [= <- <- <- <-]; split; [done|]; by split|]. destruct (bring_in t w1 k) as [[[[w2 t2] up] e2]|] eqn:Eb; [|done]. cbn [mbind option_bind].
  destruct (bring_in_ok _ _ _ _ _ _ _ Hw Eb) as (Hw2 & Es & Ef & _ & Hc). destruct e2 as [e2|]; [intros [= <- <- <- <-]; split; [done|]; split; [split; [done|by rewrite Es]|done]|].
  destruct (tree_of t2 k) as [e3|tree] eqn:Et; intros [= <- <- <- <-]; [split; [done|]; split; [split; [done|by rewrite Es]|done]|].
  split; [apply fetched_state; [done|by eapply parse_key_valid|by apply Hc|done]|]. split; [split; [done|by rewrite <- Es]|done].
Qed.

Lemma Fetch_whole t w w' t' r e : whole t → Fetch t w = Some (w', t', r, e) → whole t' ∧ same_but_remote t t'.
Proof.
  intros Hw. unfold Fetch. destruct (fetch t w) as [[[[w1 t1] r1] e1]|] eqn:Ef; [|done]. cbn [mbind option_bind]. destruct (fetch_whole _ _ _ _ _ _ Hw Ef) as (Hw1 & Hs & _).
  destruct e1 as [e1|]; [by intros [= <- <- <- <-]|]. destruct (save t1) as [t2 e2] eqn:Es. intros [= <- <- <- <-]. destruct (save_whole _ _ _ Hw1 Es) as [Hw2 [f ->]]. done.
Qed.

(** ** Pull *)

Lemma synced_whole t now : whole t → ws_HasRemote (t_State t) = true → (- 2 ^ 63 ≤ now < 2 ^ 63)%Z → whole (synced_to_remote t now).
Proof.
  intros Hw Hr Hn. unfold synced_to_remote. apply whole_state; [done| |]; destruct (wh_state t Hw) as [S1 S2 S3 S4]; destruct (wh_held t Hw) as [Hb Hh].
  - split; simpl; [|done|done|done]. by rewrite Hr in S3.
  - split; simpl; [by apply Hh|]. apply Hh.
Qed.

Lemma wt_apply_spec t cs t' e : wt_apply t cs = (t', e) → t' = t <| t_files := t_files t' |> ∧ written_by cs (t_files t) (t_files t').
Proof. unfold wt_apply. destruct (Apply _ _ _ _ _ _ cs) as [d1 e1] eqn:Ea. intros [= <- <-]. split; [done|]. simpl. replace d1 with (d1, e1).1 by done. rewrite <- Ea. apply Apply_spares. Qed.

Lemma pull_apply_spec t w fr force local incoming w' t' r e : pull_apply t w fr force local incoming = (w', t', r, e) → whole t → ws_HasRemote (t_State t) = true →
  whole t' ∧ (t_files t' = t_files t ∨ ∃ cs, (pull_changes force local incoming).1 = Some cs ∧ written_by cs (t_files t) (t_files t')) ∧
  (e = None → ws_Base (t_State t') = ws_Remote (t_State t) ∧ ws_Remote (t_State t') = ws_Remote (t_State t) ∧ (pull_changes force local incoming).1 = Some (pl_Applied r)).
Proof.
  unfold pull_apply. intros Hp Hw Hr. destruct (pull_changes force local incoming) as [[cs|] conflicts]; [|injection Hp as <- <- <- <-; split; [done|]; split; [by left|done]].
  destruct (wt_apply t cs) as [t1 e1] eqn:Ea. destruct (wt_apply_spec _ _ _ _ Ea) as [E1 Hs]. assert (whole t1) as Hw1 by (rewrite E1; by apply whole_files). assert (t_State t1 = t_State t) as Es by (by rewrite E1).
  destruct e1 as [e1|]; [injection Hp as <- <- <- <-; split; [done|]; split; [right; by exists cs|done]|]. destruct (save (synced_to_remote t1 (rm_now w))) as [t2 e2] eqn:Esv. injection Hp as <- <- <- <-.
  destruct (save_whole _ _ _ (synced_whole t1 (rm_now w) Hw1 ltac:(by rewrite Es) (rm_now_range w)) Esv) as [Hw2 [f ->]]. split; [done|]. split; [right; by exists cs|]. intros _. simpl. by rewrite Es.
Qed.

(** How a pull went: nothing was written, or the changes of the merge were. *)
Lemma Pull_spec t w force w' t' r e : Pull fuel t w force = Some (w', t', r, e) → whole t →
  whole t' ∧ (t_files t' = t_files t ∨ ∃ t1 local incoming cs, same_but_remote t t1 ∧ wt_scan fuel t1 = ok local ∧ wt_diff fuel t1 (ws_Base (t_State t)) (ws_Remote (t_State t1)) = ok incoming ∧
    (pull_changes force local incoming).1 = Some cs ∧ written_by cs (t_files t) (t_files t')) ∧
  (e = None → ws_HasRemote (t_State t') = true ∧ ws_Base (t_State t') = ws_Remote (t_State t')).
Proof.
  unfold Pull. destruct (Fetch t w) as [[[[w1 t1] fr] e1]|] eqn:Ef; [|done]. cbn [mbind option_bind]. intros Hp Hw. destruct (Fetch_whole _ _ _ _ _ _ Hw Ef) as [Hw1 Hs].
  assert (t_files t1 = t_files t) as Hf by apply Hs. destruct e1 as [e1|]; [injection Hp as <- <- <- <-; split; [done|]; split; [by left|done]|].
  destruct (ws_HasRemote (t_State t1)) eqn:Eh; simpl in Hp; [|injection Hp as <- <- <- <-; split; [done|]; split; [by left|done]].
  case_bool_decide as Eb; [injection Hp as <- <- <- <-; split; [done|]; split; [by left|done]|]. destruct (wt_scan fuel t1) as [[e2|local]|] eqn:Esc; cbn [mbind option_bind] in Hp; [|  |done].
  { injection Hp as <- <- <- <-. split; [done|]. by split; [left|]. }
  destruct (wt_diff fuel t1 _ _) as [[e3|incoming]|] eqn:Ed; cbn [mbind option_bind] in Hp; [| |done]; [injection Hp as <- <- <- <-; split; [done|]; by split; [left|]|]. injection Hp as Hp.
  destruct (pull_apply_spec _ _ _ _ _ _ _ _ _ _ Hp Hw1 Eh) as (Hw2 & Hfs & He). split; [done|]. split.
  - destruct Hfs as [Hfs|(cs & Hc & Hsp)]; [left; congruence|right]. exists t1, local, incoming, cs. rewrite <- Hf. destruct Hs as (Hs1 & Hs2 & Hs3). by rewrite <- Hs2.
  - intros E. destruct (He E) as (A & B & _). split; [|congruence]. clear -Hp Eh E. unfold pull_apply in Hp. destruct (pull_changes _ _ _) as [[cs|] ?]; [|congruence]. destruct (wt_apply t1 cs) as [t2 [?|]] eqn:Ea; [congruence|].
    destruct (wt_apply_spec _ _ _ _ Ea) as [E1 _]. unfold save, SaveState in Hp. destruct (writeJSON _ _ _ _). injection Hp as _ <- _ _. simpl. by rewrite E1.
Qed.

(** C19 A pull writes only what the rules of its merge let through: without force, whatever
    fails on the way, either the directory is as it was, or, when the scan lists no path
    twice, what the scan found and what the cluster changed since the base have no conflict
    by these rules, and of the files only those at, above or below the paths of the changes
    they let through were written, those above in their times and permission bits only.  A
    mode that is set through a symbolic link goes to whatever file the link names: that
    happens only at links at or above these paths, that were there or that a change made
    ([mode_set_through_link] is such a case).  The rules are the code's: a local change of
    metadata alone gives way at its path, also when the incoming change turns a directory
    with local changes below it into something else ([Merge_retype_over_metadata]).  A
    pull that reports success ends with the base at the cluster's tree. *)
Theorem pull_keeps_local t w w' t' r e : whole t → Pull fuel t w false = Some (w', t', r, e) →
  (t_files t' = t_files t ∨ ∃ t1 local incoming, same_but_remote t t1 ∧ wt_scan fuel t1 = ok local ∧ wt_diff fuel t1 (ws_Base (t_State t)) (ws_Remote (t_State t1)) = ok incoming ∧
    (NoDup (Path <$> local) → ∃ vs, Forall2 (rules local) incoming vs ∧ conflicting incoming vs = [] ∧ written_by (applied incoming vs) (t_files t) (t_files t'))) ∧
  (e = None → ws_HasRemote (t_State t') = true ∧ ws_Base (t_State t') = ws_Remote (t_State t')).
Proof.
  intros Hw Hp. destruct (Pull_spec _ _ _ _ _ _ _ Hp Hw) as (_ & Hf & He). split; [|done]. destruct Hf as [Hf|(t1 & local & incoming & cs & Hs & Hsc & Hd & Hc & Hsp)]; [by left|right].
  exists t1, local, incoming. split; [done|]. split; [done|]. split; [done|]. intros Hnd. destruct (merge_fold local Hnd incoming [] []) as (vs & Hvs & Hm). exists vs. split; [done|].
  assert (Merge local incoming = (applied incoming vs, conflicting incoming vs)) as Em by exact Hm. unfold pull_changes in Hc. rewrite Em in Hc. destruct (conflicting incoming vs); [|done]. injection Hc as <-. done.
Qed.

(** ** Push *)

Lemma commit_complete (s : P) (k tree : key) (parents : list key) : k ∈ ps_keys s → complete s tree → (∀ p, p ∈ parents → complete s p) →
  (∀ x, reaches k x → x = k ∨ reaches tree x ∨ ∃ p, p ∈ parents ∧ reaches p x) → complete s k.
Proof. intros Hk Ht Hp Hx x Hr. destruct (Hx x Hr) as [->|[?|(p & Hin & ?)]]; [done|by apply Ht|by apply (Hp p)]. Qed.

Lemma commit_spec t tree parents user message now off t' r : commit t tree parents user message now off = (t', r) → whole t → complete (t_Store t) tree → (∀ p, p ∈ parents → complete (t_Store t) p) →
  whole t' ∧ t_State t' = t_State t ∧ t_files t' = t_files t ∧ t_Config t' = t_Config t ∧ ps_keys (t_Store t) ⊆ ps_keys (t_Store t') ∧
  ∀ k, r = inr k → complete (t_Store t') k ∧ key_Type k = Commit ∧ key_Parse (arr_bytes k) = None.
Proof.
  unfold commit. intros Hcm Hw Ht Hp. destruct (wc_commitObject _) as [|[k raw]] eqn:Ec; [injection Hcm as <- <-; by repeat (split; [done|])|]. pose proof (os_Put_grows (t_Store t) k raw) as Hg.
  destruct (os_Put (t_Store t) k raw) as [s' [err|]] eqn:Ep; injection Hcm as <- <-; (split; [by apply whole_store|]); (repeat (split; [done|])); [done|]. intros k' [= <-].
  destruct (wc_commitObject_ok _ _ _ Ec) as (Hty & Hpk & Hx). split; [|done]. simpl in *. eapply commit_complete; [by eapply os_Put_ok|by eapply complete_grows| |exact Hx]. intros p Hin. eapply complete_grows; [exact Hg|]. by apply Hp.
Qed.

(** The position after a push names what is held. *)
Lemma pushed_whole t root target version now : whole t → complete (t_Store t) root → key_Parse (arr_bytes root) = None → complete (t_Store t) target →
  key_Type target = Commit ∧ key_Parse (arr_bytes target) = None ∨ target = root ∧ key_Type target ≠ Commit → (- 2 ^ 63 ≤ now < 2 ^ 63)%Z → whole (pushed t root target version now).
Proof.
  intros Hw Hr Hpr Ht Hty Hn. unfold pushed, commit_or_zero. apply whole_state; [done| |].
  - split; simpl; [done|done|done|]. destruct Hty as [[Ety Epk]|[-> Ety]]; [rewrite bool_decide_true by done; by right|rewrite bool_decide_false by done; by left].
  - split; simpl; [done|]. intros _. split; [done|]. unfold RemoteKey, IsBranch. simpl. destruct Hty as [[Ety Epk]|[-> Ety]]; [by rewrite (bool_decide_true (key_Type target = Commit)), bool_decide_true|].
    rewrite (bool_decide_false (key_Type root = Commit)) by done. by rewrite bool_decide_false by apply zero_not_commit.
Qed.

(** What the cluster has is a push of the same tree onto the same parents. *)
Lemma samePush_spec t cur target tree parents : samePush t cur target tree parents = true → complete (t_Store t) tree → (∀ p, p ∈ parents → complete (t_Store t) p) → complete (t_Store t) target →
  complete (t_Store t) cur ∧ (cur = target ∨ key_Type cur = Commit ∧ key_Type target = Commit).
Proof.
  unfold samePush. intros Hs Ht Hp Hc. case_bool_decide as E; [subst; split; [done|by left]|]. case_bool_decide as E1; simpl in Hs; [|done]. case_bool_decide as E2; simpl in Hs; [|done]. unfold wt_Get in Hs.
  destruct (ps_Get (t_Store t) cur) as [|data] eqn:Eg; [done|]. destruct (wc_commitDecode data) as [|c] eqn:Ed; [done|]. apply andb_true_iff in Hs as [H1'%bool_decide_eq_true H2'%bool_decide_eq_true].
  destruct (wc_commitDecode_ok _ _ _ E1 (ps_Get_ok _ _ _ Eg) Ed) as (_ & _ & Hx). split; [|by right]. subst tree parents. eapply commit_complete; [by eapply ps_Get_held|exact Ht|exact Hp|exact Hx].
Qed.

(** Where a push that went through leaves the copy. *)
Definition pushed_to t t' (root : key) : Prop :=
  t_files t' = t_files t ∧ ws_Base (t_State t') = root ∧ ws_Remote (t_State t') = root ∧ ws_HasRemote (t_State t') = true.

Lemma push_target_spec t w root target r parents user force w' t' r' e : push_target t w root target r parents user force = Some (w', t', r', e) → whole t → complete (t_Store t) root → key_Parse (arr_bytes root) = None →
  complete (t_Store t) target → (∀ p, p ∈ parents → complete (t_Store t) p) → key_Type target = Commit ∧ key_Parse (arr_bytes target) = None ∨ target = root ∧ key_Type target ≠ Commit →
  whole t' ∧ t_files t' = t_files t ∧ (e = None → pushed_to t t' root).
Proof.
  unfold push_target. intros Hp Hw Hr Hpr Ht Hps Hty. destruct (rm_Push _ _ _ _ _ _) as [[w1 ps]|]; [|done]. cbn [mbind option_bind] in Hp. injection Hp as Hp.
  assert (∀ target' version r1, complete (t_Store t) target' → key_Type target' = Commit ∧ key_Parse (arr_bytes target') = None ∨ target' = root ∧ key_Type target' ≠ Commit →
    (let '(t, e) := save (pushed t root target' version (rm_now w1)) in (w1, t, r1, e)) = (w', t', r', e) → whole t' ∧ t_files t' = t_files t ∧ (e = None → pushed_to t t' root)) as Hdone.
  { intros target' version r1 Ht' Hty' E. destruct (save _) as [t2 e2] eqn:Es. injection E as <- <- <- <-. destruct (save_whole _ _ _ (pushed_whole t root target' version (rm_now w1) Hw Hr Hpr Ht' Hty' (rm_now_range w1)) Es) as [Hw2 [f ->]]. done. }
  destruct ps as [pe|ps]; [|by eapply Hdone in Hp]. assert (∀ x, (w1, t, r, Some x) = (w', t', r', e) → whole t' ∧ t_files t' = t_files t ∧ (e = None → pushed_to t t' root)) as Hstop by (by intros x [= <- <- <- <-]).
  destruct pe as [s|[|current record version hasCurrent| | | ]]; try by eapply Hstop. destruct (parse_key current) as [|cur] eqn:Ek; [by eapply Hstop|]. destruct hasCurrent; simpl in Hp; [|by eapply Hstop].
  destruct (samePush t cur target root parents) eqn:Es; simpl in Hp; [|by eapply Hstop]. destruct (samePush_spec _ _ _ _ _ Es Hr Hps Ht) as [Hcc Hct]. eapply Hdone; [| |exact Hp]; case_bool_decide as Eb; try done.
  left. split; [destruct Hct as [->|[? _]]; done|]. by apply parse_key_valid in Ek as [].
Qed.

Lemma wt_Push_spec t w user message force w' t' r e : wt_Push t w user message force = Some (w', t', r, e) → whole t →
  whole t' ∧ t_files t' = t_files t ∧
  (e = None → ∃ root, (wc_Ingest (t_Store t) (t_files t)).2 = inr root ∧ (pr_Nothing r = true ∧ t_State t' = t_State t ∧ ws_Base (t_State t) = root ∨ pushed_to t t' root)).
Proof.
  unfold wt_Push. intros Hp Hw. destruct (negb (in_sync (t_State t)) && negb force); [injection Hp as <- <- <- <-; by split|]. pose proof (wc_Ingest_grows (t_Store t) (t_files t)) as Hg.
  destruct (wc_Ingest (t_Store t) (t_files t)) as [s1 [err|root]] eqn:Ei; simpl in Hg; [injection Hp as <- <- <- <-; split; [by apply whole_store|done]|]. destruct (wc_Ingest_ok _ _ _ _ Ei) as (Hc & Hk & Hnc).
  pose proof (whole_store _ _ Hg Hw) as Hw1. set (t1 := t <| t_Store := s1 |>) in *. assert (complete (t_Store t1) root) as Hc1 by exact Hc. simpl snd.
  destruct (bool_decide (root = ws_Base (t_State t)) && in_sync (t_State t)) eqn:En.
  { injection Hp as <- <- <- <-. split; [done|]. split; [done|]. intros _. exists root. split; [done|]. left. apply andb_true_iff in En as [->%bool_decide_eq_true _]. done. }
  assert (∀ t2 target r1 parents, t_files t2 = t_files t → push_target t2 w root target r1 parents user force = Some (w', t', r, e) → whole t2 → complete (t_Store t2) root → complete (t_Store t2) target →
    (∀ p, p ∈ parents → complete (t_Store t2) p) → key_Type target = Commit ∧ key_Parse (arr_bytes target) = None ∨ target = root ∧ key_Type target ≠ Commit →
    whole t' ∧ t_files t' = t_files t ∧ (e = None → ∃ root', @inr string _ root = inr root' ∧ (pr_Nothing r = true ∧ t_State t' = t_State t ∧ ws_Base (t_State t) = root' ∨ pushed_to t t' root'))) as Hpush.
  { intros t2 target r1 parents Ef Hpt Hw2 Hr2 Ht2 Hps Hty. destruct (push_target_spec _ _ _ _ _ _ _ _ _ _ _ _ Hpt Hw2 Hr2 Hk Ht2 Hps Hty) as (A & B & C). split; [done|]. split; [congruence|]. intros E. exists root. split; [done|]. right. unfold pushed_to in *. rewrite <- Ef. by apply C. }
  destruct (IsBranch (t_State t) || _) eqn:Eb.
  - set (parents := if IsBranch (t_State t) then [ws_RemoteCommit (t_State t)] else []) in *. assert (∀ p, p ∈ parents → complete (t_Store t1) p) as Hps.
    { unfold parents. intros p. destruct (IsBranch (t_State t)) eqn:Ebr; [|by intros ?%not_elem_of_nil]. intros ->%list_elem_of_singleton. destruct (wh_held _ Hw1) as [_ Hh]. assert (RemoteKey (t_State t1) = ws_RemoteCommit (t_State t)) as <- by (unfold RemoteKey; simpl; by rewrite Ebr).
      apply Hh. simpl. unfold IsBranch in Ebr. by destruct (ws_HasRemote (t_State t)). }
    destruct (commit t1 root parents user message _ _) as [t2 [err|target]] eqn:Ec; destruct (commit_spec _ _ _ _ _ _ _ _ _ Ec Hw1 Hc1 Hps) as (Hw2 & Es & Ef & _ & Hg2 & Ht); [injection Hp as <- <- <- <-; split; [done|]; by split|].
    destruct (Ht target eq_refl) as (Htc & Hty & Htp). eapply Hpush; [exact Ef|exact Hp|done|by eapply complete_grows|done| |by left]. intros p Hin. eapply complete_grows; [exact Hg2|by apply Hps].
  - eapply Hpush; [|exact Hp|done|done|done|by intros p ?%not_elem_of_nil|by right]. done.
Qed.

(** ** Any sequence of commands *)

(** A command on an open copy, with whatever outcome. *)
Inductive command `{Codec Ticket} : Tree P * W → Tree P * W → Prop :=
  | cmd_fetch t w w' t' r e : Fetch t w = Some (w', t', r, e) → command (t, w) (t', w')
  | cmd_pull t w force w' t' r e : Pull fuel t w force = Some (w', t', r, e) → command (t, w) (t', w')
  | cmd_push t w user message force w' t' r e : wt_Push t w user message force = Some (w', t', r, e) → command (t, w) (t', w')
  | cmd_ticket t w t' e : RefreshTicket t w = (t', e) → command (t, w) (t', w)
  | cmd_edit t w d : command (t, w) (t <| t_files := d |>, w)
  | cmd_world t w w' : command (t, w) (t, w')
  | cmd_reopen t w s : loadState (t_stateFile t) = inr s → state_ok s → command (t, w) (t <| t_State := s |>, w).

(** C18 Whatever commands run on a working copy, in any order and with whatever failures,
    while its files are edited and the cluster moves, also when it is closed and opened
    again: the base, the cluster's tree and the commit that its position names, and those
    that its state file names, are complete in its own store.  Which operations on files
    fail is fixed over a run. *)
Theorem working_copy_whole `{Codec Ticket} t w t' w' : whole t → rtc command (t, w) (t', w') → whole t'.
Proof.
  intros Hw Hr. remember (t, w) as x eqn:Ex. remember (t', w') as y eqn:Ey. revert t w Ex Hw. induction Hr as [x|x y z Hs _ IH]; intros t w -> Hw; [by injection Ey as <- <-|].
  destruct y as [t1 w1]. apply (IH Ey t1 w1 eq_refl). clear IH Ey z t' w'. inversion Hs; subst.
  - by eapply Fetch_whole.
  - by eapply Pull_spec.
  - by eapply wt_Push_spec.
  - match goal with Hr : RefreshTicket _ _ = _ |- _ => unfold RefreshTicket, SaveConfig in Hr; destruct (rm_View w1) as [v|]; [|by injection Hr as <- <-]; case_bool_decide; [by injection Hr as <- <-|]; destruct (writeJSON _ _ _ _) as [f e1]; injection Hr as <- <- end.
    by apply whole_config.
  - by apply whole_files.
  - done.
  - apply whole_state; [done|done|]. by apply (wh_file t Hw).
Qed.

(** ** What a push writes *)

(** The cluster's value is an earlier attempt at the same push: the object itself, or a
    commit in the copy's own store of the same tree onto the same parents. *)
Definition earlier_attempt (store : P) (cur target tree : key) (parents : list key) : Prop :=
  cur = target ∨
  key_Type cur = Commit ∧ key_Type target = Commit ∧
    ∃ data c, ps_Get store cur = inr data ∧ wc_commitDecode data = inr c ∧ cm_Tree c = tree ∧ cm_Parents c = parents.

Lemma samePush_earlier t cur target tree parents : samePush t cur target tree parents = true → earlier_attempt (t_Store t) cur target tree parents.
Proof.
  unfold samePush. case_bool_decide; [by left|]. case_bool_decide; [|done]. case_bool_decide; [|done]. cbn [negb orb]. unfold wt_Get.
  destruct (ps_Get (t_Store t) cur) as [|data] eqn:Eg; [done|]. destruct (wc_commitDecode data) as [|c] eqn:Ed; [done|].
  intros [?%bool_decide_eq_true ?%bool_decide_eq_true]%andb_true_iff. right. split; [done|]. split; [done|]. by exists data, c.
Qed.

(** What the cluster answered and where that leaves the position. *)
Definition push_answer (store : P) t' (target root : key) (parents : list key) (r : PushResult) (ps : push_err + PushStats) : Prop :=
  match ps with
  | inr st => pr_Recovered r = false ∧ RemoteKey (t_State t') = target ∧ ws_RemoteVersion (t_State t') = from_wire (st_Version st)
  | inl (PuRef (ErrMismatch current _ version true)) => pr_Recovered r = true ∧ ws_RemoteVersion (t_State t') = from_wire version ∧
      arr_bytes (RemoteKey (t_State t')) = current ∧ earlier_attempt store (RemoteKey (t_State t')) target root parents
  | inl _ => False
  end.

(** The parents of the commit that a push makes. *)
Definition push_parents (s : State) : list key := if IsBranch s then [ws_RemoteCommit s] else [].

Lemma pushed_RemoteKey t root target version now : key_Type target = Commit ∨ target = root ∧ key_Type target ≠ Commit → RemoteKey (t_State (pushed t root target version now)) = target.
Proof.
  intros Hty. unfold RemoteKey, IsBranch, pushed, commit_or_zero. simpl. destruct Hty as [Ety|[-> Ety]]; [by rewrite (bool_decide_true (key_Type target = Commit)), bool_decide_true|].
  rewrite (bool_decide_false (key_Type root = Commit)) by done. by rewrite bool_decide_false by apply zero_not_commit.
Qed.

Lemma save_state t t' e : save t = (t', e) → t_State t' = t_State t.
Proof. unfold save, SaveState. destruct (writeJSON _ _ _ _). by intros [= <- _]. Qed.

Lemma push_target_call t w root target r parents user force w' t' r' : push_target t w root target r parents user force = Some (w', t', r', None) → pr_Recovered r = false →
  key_Type target = Commit ∨ target = root ∧ key_Type target ≠ Commit →
  ∃ ps, rm_Push w (t_Store t) target (cg_Name (t_Config t)) user (push_cond (t_State t) force) = Some (w', ps) ∧ push_answer (t_Store t) t' target root parents r' ps.
Proof.
  unfold push_target. destruct (rm_Push _ _ _ _ _ _) as [[w1 ps]|]; [|done]. cbn [mbind option_bind]. intros Hp Hrec Hty. injection Hp as Hp. exists ps. destruct ps as [pe|ps].
  - destruct pe as [s|[|current record version hasCurrent| | | ]]; try congruence. destruct (parse_key current) as [|cur] eqn:Ek; [congruence|]. destruct hasCurrent; simpl in Hp; [|congruence].
    destruct (samePush t cur target root parents) eqn:Es; simpl in Hp; [|congruence]. destruct (save _) as [t2 e2] eqn:Esv. injection Hp as <- <- <- ->. split; [done|]. apply save_state in Esv.
    apply samePush_earlier in Es. apply parse_key_valid in Ek as [_ <-]. unfold push_answer. rewrite Esv. split; [done|]. split; [done|].
    assert (RemoteKey (t_State (pushed t root (if bool_decide (key_Type target = Commit) then cur else target) version (rm_now w1))) = cur) as ->; [|done].
    destruct Es as [->|(Ec & Et & _)].
    + rewrite pushed_RemoteKey; by case_bool_decide.
    + rewrite bool_decide_true by done. apply pushed_RemoteKey. by left.
  - destruct (save _) as [t2 e2] eqn:Esv. injection Hp as <- <- <- ->. split; [done|]. apply save_state in Esv. unfold push_answer. rewrite Esv, pushed_RemoteKey by done. done.
Qed.

(** C20 A push replaces what was fetched and nothing else: without force a push that
    writes was made on a copy in step with its last fetch, with one conditional write
    that names the version seen there, of an object that is complete in the copy's
    store; the new position is what that write made of the reference.  When the cluster
    turns out to have another value, the push counts as done only if that value is an
    earlier attempt at it: the same object, or a commit that the copy's own store holds,
    of the same tree onto the same parents; the position is then that value. *)
Theorem push_guarded t w user message w' t' r : whole t → wt_Push t w user message false = Some (w', t', r, None) → pr_Nothing r = false →
  in_sync (t_State t) = true ∧ ∃ root store target ps, (wc_Ingest (t_Store t) (t_files t)).2 = inr root ∧ complete store target ∧
    rm_Push w store target (cg_Name (t_Config t)) user (MkCond (ws_RemoteVersion (t_State t)) true None false false) = Some (w', ps) ∧
    push_answer store t' target root (push_parents (t_State t)) r ps ∧ pushed_to t t' root.
Proof.
  intros Hw Hp Hn. destruct (wt_Push_spec _ _ _ _ _ _ _ _ _ Hp Hw) as (_ & _ & Hd). destruct (Hd eq_refl) as (root & Hroot & [(Hc & _)|Hpt]); [congruence|]. clear Hd. unfold wt_Push in Hp.
  destruct (in_sync (t_State t)) eqn:Esy; simpl in Hp; [|congruence]. split; [done|]. pose proof (wc_Ingest_grows (t_Store t) (t_files t)) as Hg. destruct (wc_Ingest (t_Store t) (t_files t)) as [s1 root'] eqn:Ei; simpl in Hroot, Hg. subst root'.
  destruct (wc_Ingest_ok _ _ _ _ Ei) as (Hc & Hk & Hnc). rewrite andb_true_r in Hp. case_bool_decide as Eb; [injection Hp as <- <- <-; done|]. pose proof (whole_store _ _ Hg Hw) as Hw1. set (t1 := t <| t_Store := s1 |>) in *.
  fold (push_parents (t_State t)) in Hp. destruct (IsBranch (t_State t) || _) eqn:Ebr.
  - set (parents := push_parents (t_State t)) in *. assert (∀ p, p ∈ parents → complete (t_Store t1) p) as Hps.
    { unfold parents, push_parents. intros p. destruct (IsBranch (t_State t)) eqn:Eb'; [|by intros ?%not_elem_of_nil]. intros ->%list_elem_of_singleton. destruct (wh_held _ Hw1) as [_ Hh]. assert (RemoteKey (t_State t1) = ws_RemoteCommit (t_State t)) as <- by (unfold RemoteKey; simpl; by rewrite Eb').
      apply Hh. simpl. unfold IsBranch in Eb'. by destruct (ws_HasRemote (t_State t)). }
    destruct (commit t1 root parents user message _ _) as [t2 [err|target]] eqn:Ec; destruct (commit_spec _ _ _ _ _ _ _ _ _ Ec Hw1 Hc Hps) as (Hw2 & Es & Ef & Ecf & Hg2 & Ht); [congruence|]. destruct (Ht target eq_refl) as (Htc & Hty & Htp).
    destruct (push_target_call _ _ _ _ _ _ _ _ _ _ _ Hp eq_refl (or_introl Hty)) as (ps & Hcall & Hans). exists root, (t_Store t2), target, ps. unfold push_cond in Hcall. rewrite Es, Ecf in Hcall. done.
  - assert (push_parents (t_State t) = []) as -> by (unfold push_parents; by destruct (IsBranch (t_State t))).
    destruct (push_target_call _ _ _ _ _ _ _ _ _ _ _ Hp eq_refl (or_intror (conj eq_refl Hnc))) as (ps & Hcall & Hans). by exists root, s1, root, ps.
Qed.

(** An unchanged tree is not pushed: with or without force, with or without a message,
    the cluster is not even asked, whatever it holds by now. *)
Theorem unchanged_push_skipped t w user message force store : in_sync (t_State t) = true → wc_Ingest (t_Store t) (t_files t) = (store, inr (ws_Base (t_State t))) →
  wt_Push t w user message force = Some (w, t <| t_Store := store |>, MkPushResult (ws_Base (t_State t)) zero_key true false, None).
Proof. intros Hs Hi. unfold wt_Push. rewrite Hs, Hi. simpl. by rewrite bool_decide_true. Qed.

(** ** Clone and init *)

Lemma created_whole m abs files cfg now m' t : Create wc_EmptyTree m abs files cfg now = (m', inr t) → (- 2 ^ 63 ≤ now < 2 ^ 63)%Z → whole t ∧ t_files t = files ∧ t_Root t = abs ∧ t_stateFile t = None ∧ locked m' abs.
Proof.
  unfold Create. destruct (Find m abs); [done|]. destruct (sy_fault "mkdir" _); [done|]. destruct (lockWorkingCopy _ abs) as [m1 [e|]] eqn:El; [done|]. destruct (writeJSON _ _ _ _) as [f [e|]]; [done|].
  destruct (os_Open None) as [|s0] eqn:Eo; [done|]. destruct (os_Put s0 _ _) as [s1 [e|]] eqn:Ep; [done|]. intros [= <- <-] Hn. destruct (lock_locks _ _ _ El) as (Hl & _). split; [|done]. destruct wc_Empty_ok as [Hk Hx]. split; simpl.
  - split; simpl; [done|done|done|by left].
  - split; simpl; [|done]. intros x Hr. rewrite (Hx x Hr). by eapply os_Put_ok.
  - done.
Qed.

Lemma clone_apply_whole m abs created t r w changes m' pl' w' r' t' : clone_apply m abs created t r w changes = Some (m', pl', w', r', inr t') → whole t → ws_HasRemote (t_State t) = true →
  whole t' ∧ pl' = PDir (t_files t') ∧ ws_Base (t_State t') = ws_Remote (t_State t') ∧ loadState (t_stateFile t') = inr (reread (t_State t')).
Proof.
  unfold clone_apply. intros Hc Hw Hr. destruct (wt_apply t changes) as [t1 [e|]] eqn:Ea; [done|]. destruct (wt_apply_spec _ _ _ _ Ea) as [E1 _]. assert (whole t1) as Hw1 by (rewrite E1; by apply whole_files).
  assert (ws_HasRemote (t_State t1) = true) as Hr1 by (by rewrite E1). pose proof (synced_whole t1 (rm_now w) Hw1 Hr1 (rm_now_range w)) as Hw2. destruct (save _) as [t2 [e|]] eqn:Es; [done|]. injection Hc as <- <- <- <- <-.
  destruct (save_whole _ _ _ Hw2 Es) as [Hw3 [f Ef]]. split; [done|]. split; [done|]. split; [by rewrite Ef|]. unfold save in Es. destruct (SaveState _) as [t3 [e|]] eqn:Esv; [done|]. injection Es as ->. destruct (SaveState_spec _ _ _ (wh_state _ Hw2) Esv) as [_ ->]. by rewrite Ef.
Qed.

(** A clone that succeeds gives a whole copy at the cluster's tree, with its position
    saved; one that fails in a directory it made leaves nothing. *)
Theorem clone_outcome m abs pl cfg w m' pl' w' r res : Clone fuel m abs pl cfg w = Some (m', pl', w', r, res) → Find m abs = None →
  match res with
  | inr t => whole t ∧ pl' = PDir (t_files t) ∧ ws_Base (t_State t) = ws_Remote (t_State t) ∧ loadState (t_stateFile t) = inr (reread (t_State t))
  | inl _ => pl = PAbsent → pl' = PAbsent ∧ m' !! abs = None
  end.
Proof.
  unfold Clone. intros Hc Hf. assert (m !! abs = None) as Hm.
  { apply eq_None_not_Some. intros Hs. assert (Find m abs = Some abs) as E; [|congruence]. apply Find_nearest. split; [done|]. split; [done|]. done. }
  destruct (clone_dir abs pl) as [e|[files created]] eqn:Ed; [injection Hc as <- <- <- <- <-; by intros ->|]. assert (pl = PAbsent → created = true) as Hcr.
  { intros ->. simpl in Ed. destruct (sy_fault _ _); [done|]. by injection Ed as <- <-. }
  destruct (Create _ m abs files cfg _) as [m1 [e|t]] eqn:Ec.
  { injection Hc as <- <- <- <- <-. intros Hp. rewrite (Hcr Hp). split; [done|]. apply lookup_delete_eq. }
  destruct (created_whole _ _ _ _ _ _ _ Ec (rm_now_range w)) as (Hw & _ & Hroot & _). destruct (fetch t w) as [[[[w1 t1] r1] e1]|] eqn:Ef; [|done]. cbn [mbind option_bind] in Hc. destruct (fetch_whole _ _ _ _ _ _ Hw Ef) as (Hw1 & Hs1 & Hex).
  assert (∀ t2 e2, clone_fail m1 abs created t2 r1 w1 e2 = Some (m', pl', w', r, res) → match res with inr t => whole t ∧ pl' = PDir (t_files t) ∧ ws_Base (t_State t) = ws_Remote (t_State t) ∧ loadState (t_stateFile t) = inr (reread (t_State t)) | inl _ => pl = PAbsent → pl' = PAbsent ∧ m' !! abs = None end) as Hfail.
  { intros t2 e2 [= <- <- <- <- <-]. intros Hp. rewrite (Hcr Hp). split; [done|]. apply lookup_delete_eq. }
  destruct e1 as [e1|]; [by eapply Hfail|]. destruct (fr_Exists r1) eqn:Ex; simpl in Hc; [|by eapply Hfail]. destruct (wt_diff fuel t1 _ _) as [[e2|changes]|]; cbn [mbind option_bind] in Hc; [by eapply Hfail| |done].
  destruct res as [e|t']; [|eapply clone_apply_whole; [exact Hc|done|exact (Hex eq_refl)]]. unfold clone_apply in Hc. destruct (wt_apply t1 changes) as [t2 [e2|]]; [by eapply Hfail|]. destruct (save _) as [t3 [e3|]]; [by eapply Hfail|done].
Qed.

(** An init that fails because the store cannot be opened leaves its metadata, and the
    directory counts as a working copy from then on. *)
Theorem failed_init_leftovers m abs files cfg w e : (∀ op p, sy_fault op p = None) → Find m abs = None → os_Open None = inl e →
  ∃ m', Init m abs files cfg w = Some (m', w, fetch0, inl (FCopy (WText e))) ∧ Find m' abs = Some abs.
Proof.
  intros Hq Hf Ho. unfold Init, Create, lockWorkingCopy, writeJSON. rewrite Hf, !Hq, lookup_insert_eq, Ho. simpl. eexists. split; [done|].
  apply Find_nearest. split; [done|]. split; [rewrite lookup_insert_eq; eauto|done].
Qed.
End flow.

(** * A small working copy *)

#[local] Existing Instance toy_texts.
#[local] Existing Instance toy_textsok.

Definition small_add (s : small_store) (k : key) : small_store := s ++ [(N.of_nat (length s), [k])].

Lemma small_add_keys s k : small_keys (small_add s k) = small_keys s ∪ {[k]}.
Proof. unfold small_add, small_keys. rewrite fmap_app, concat_app. simpl. rewrite list_to_set_app_L. set_solver. Qed.

#[local] Instance toy_open : OpenStore small_store := {| os_Open o := inr (default [] o); os_Put s k b := (small_add s k, None) |}.

(** The content key of a file. *)
Definition ck (b : byte) : bytes := arr_bytes (small_blob b).

(** Trees are blobs here: one has a file, the next a changed file and a new one. *)
Definition toy_collect (k : key) : string + list Entry :=
  if decide (k = small_blob x05) then inr [ent (nm "a") (N.lor S_IFREG 0x1A4) (ck x11) []]
  else if decide (k = small_blob x06) then inr [ent (nm "a") (N.lor S_IFREG 0x1A4) (ck x12) []; ent (nm "b") (N.lor S_IFREG 0x1A4) (ck x11) []]
  else inr [].

(** The content of a file names its key. *)
Definition toy_root (d : disk) : key := if decide (map_Exists (λ p _, p = [nm "mine"]) (dk_nodes d)) then small_blob x07 else small_blob x05.

(** A commit of a blob without parents: its content repeats the blob's byte, as often as
    the time says. *)
Definition toy_commit (b : byte) (when : Z) : key := small_key x02 (take 30 (replicate (S (Z.to_nat (when mod 8))) b ++ replicate 30 x00)).

Definition blob_byte (k : key) : byte := nth 2 (arr_bytes k) x00.

Definition toy_object (c : CommitRec) : string + key * bytes :=
  let b := blob_byte (cm_Tree c) in
  if bool_decide (cm_Tree c = small_blob b ∧ b ≠ x00 ∧ cm_Parents c = []) then inr (toy_commit b (cm_When c), []) else inl "no commit"%string.

Definition toy_decoded (data : bytes) : string + CommitRec :=
  let b := nth 0 data x00 in
  if bool_decide (b ≠ x00 ∧ Forall (λ x, x = x00 ∨ x = b) data) then inr (MkCommitRec (small_blob b) [] "" 0 0 "") else inl "no commit"%string.

#[local] Instance toy_core : WorkCore small_store := {|
  wc_CollectEntries _ := toy_collect;
  wc_WriteContent _ _ := None;
  wc_DecodeXattrs _ := inr ∅;
  wc_EncodeXattrs _ := [];
  wc_EncodeXattrSet _ := inr [];
  wc_XattrInlineMax := 0%nat;
  wc_setxattr _ _ := None;
  wc_Matcher := unit;
  wc_IgnoreRoot _ := inr tt;
  wc_Ignored _ _ _ := false;
  wc_Descend _ _ _ _ := inr tt;
  wc_Ingest s d := (small_add s (toy_root d), inr (toy_root d));
  wc_EmptyTree := (small_blob x01, drop 2 (arr_bytes (small_blob x01)));
  wc_commitObject := toy_object;
  wc_commitDecode := toy_decoded;
  wc_commitTrees _ := [];
|}.

Lemma small_leaf_reaches b x : reaches (small_blob b) x → x = small_blob b.
Proof. intros [->|[Hl _]]%small_reaches; [done|]. by vm_compute in Hl. Qed.

Lemma toy_root_blob d : ∃ b, toy_root d = small_blob b.
Proof. unfold toy_root. case_decide; eauto. Qed.

Lemma toy_commit_bytes b when : drop 2 (arr_bytes (toy_commit b when)) = take 30 (replicate (S (Z.to_nat (when mod 8))) b ++ replicate 30 x00) ∧
  key_Type (toy_commit b when) = x02.
Proof.
  assert (length (take 30 (replicate (S (Z.to_nat (when mod 8))) b ++ replicate 30 x00)) = 30%nat) as Hl by (rewrite length_take, length_app, !length_replicate; lia).
  unfold toy_commit, small_key. cbn [key_Type small_core]. rewrite arr_of_exact by (cbn [length]; lia). done.
Qed.

Lemma toy_parse (k : key) : key_Parse (arr_bytes k) = None.
Proof. simpl. by rewrite bool_decide_true by apply arr_length. Qed.

(** What lies below an object whose bytes are one byte or zero. *)
Lemma one_byte_kids k b x : Forall (λ y, y = x00 ∨ y = b) (drop 2 (arr_bytes k)) → reaches k x → x = k ∨ x = small_blob b.
Proof.
  intros Hf [->|[_ Hk]]%small_reaches; [by left|right]. apply list_elem_of_fmap in Hk as (y & -> & [Hy Hin]%list_elem_of_filter).
  rewrite Forall_forall in Hf. by destruct (Hf y Hin) as [->| ->].
Qed.

#[local] Instance toy_coreok : WorkCoreOK small_store.
Proof.
  split.
  - intros s k b. simpl. rewrite small_add_keys. set_solver.
  - intros s k b s' [= <-]. change (ps_keys (small_add s k)) with (small_keys (small_add s k)). rewrite small_add_keys. set_solver.
  - intros s d. change (small_keys s ⊆ small_keys (small_add s (toy_root d))). rewrite small_add_keys. set_solver.
  - intros s d s' k. cbn [wc_Ingest toy_core]. intros [= <- <-]. destruct (toy_root_blob d) as [b ->]. split; [|by vm_compute]. intros x ->%small_leaf_reaches. change (small_blob b ∈ small_keys (small_add s (small_blob b))). rewrite small_add_keys. set_solver.
  - split; [by vm_compute|]. apply small_leaf_reaches.
  - intros c k raw. simpl. unfold toy_object. case_bool_decide as Hc; [|done]. intros [= <- _]. destruct Hc as (Ht & Hb & Hp). destruct (toy_commit_bytes (blob_byte (cm_Tree c)) (cm_When c)) as [Hd Hty].
    split; [exact Hty|]. split; [apply toy_parse|]. intros x Hx.
    destruct (one_byte_kids _ (blob_byte (cm_Tree c)) x ltac:(rewrite Hd; apply Forall_take, Forall_app; split; apply Forall_replicate; auto) Hx) as [->| ->]; [by left|].
    right. left. rewrite Ht at 1. apply under_root.
  - intros k data c Hty Hd. simpl. unfold toy_decoded. case_bool_decide as Hc; [|done]. intros [= <-]. simpl. destruct Hc as [Hb Hf]. rewrite (content_unique _ _ _ Hd (small_content k)) in *.
    assert (is_leaf k = false) as Hl by (unfold is_leaf; rewrite Hty; by vm_compute). split; [|split; [first [reflexivity|apply toy_parse]|]].
    + eapply (under_child _ _ k _ _ _ (under_root _ _) Hl eq_refl (small_content k) eq_refl). apply list_elem_of_fmap. eexists. split; [reflexivity|]. apply list_elem_of_filter. split; [done|].
      destruct (drop 2 (arr_bytes k)) as [|y l]; [done|]. left.
    + intros x Hx. destruct (one_byte_kids k _ x Hf Hx) as [->| ->]; [by left|]. right. left. apply under_root.
  - intros s k d. simpl. by case_bool_decide.
Qed.

(** The cluster is the one reference. *)
#[local] Instance toy_remote : Remote (option (key * bytes)) small_store := {|
  rm_RefGet w name := (w, match w with None => inl ErrUnknownRef | Some (k, v) => inr (MkRef name [] v (MkReference name (arr_bytes k) 0 "")) end);
  rm_PullTree w s k := Some (w, small_add s k, if is_leaf k then None else Some "no tree"%string);
  rm_Push w s k name user cond :=
    let have := match w with Some (_, v) => v | None => [] end in
    Some (if Force cond || bool_decide (default [] (ExpectedVersion cond) = have) then (Some (k, xff :: have), inr (MkPushStats 1 1 (xff :: have)))
          else (w, inl (PuRef (ErrMismatch (match w with Some (k, _) => arr_bytes k | None => [] end) [] have (match w with Some _ => true | None => false end)))));
  rm_View _ := None;
  rm_now _ := 5%Z;
  rm_zone _ := 0%Z;
|}.

#[local] Instance toy_remoteok : RemoteOK (option (key * bytes)) small_store.
Proof.
  split.
  - intros w s k w' s' e [= <- <- <-]. change (small_keys s ⊆ small_keys (small_add s k)). rewrite small_add_keys. set_solver.
  - intros w s k w' s' [= <- <- Hl]. intros x Hx. destruct (is_leaf k) eqn:El; [|done]. assert (x = k) as -> by (destruct (small_reaches _ _ Hx) as [->|[? _]]; [done|congruence]).
    change (k ∈ small_keys (small_add s k)). rewrite small_add_keys. set_solver.
  - done.
Qed.

(** A copy of the first tree with a file of its own beside it. *)
Definition toy_files (own : string) : disk := MkDisk
  {[ [] := on_disk (N.lor S_IFDIR 0x1ED) []; [nm "a"] := on_disk (N.lor S_IFREG 0x1A4) (ck x11); [nm own] := on_disk (N.lor S_IFREG 0x1A4) (ck x13) ]} [].

Definition toy_copy (own : string) (s : State) : Tree small_store := MkTree [] (MkConfig "" "r" "" false false "") s [(0, [small_blob x05])] (toy_files own) None None.

Definition toy_state : State := MkState (small_blob x05) (small_blob x05) zero_key true (Some [x01]) 5.

Lemma toy_whole own : whole (toy_copy own toy_state).
Proof.
  assert (complete (P := small_store) [(0, [small_blob x05])] (small_blob x05)) as Hc by (intros x ->%small_leaf_reaches; by apply (bool_decide_unpack _); vm_compute).
  split; [split; [by vm_compute|done|by vm_compute|by left]| |done]. split; [exact Hc|]. intros _. split; [exact Hc|]. assert (RemoteKey (t_State (toy_copy own toy_state)) = small_blob x05) as -> by (by vm_compute). exact Hc.
Qed.

(** The cluster has moved to the second tree: the pull writes it and keeps the file. *)
#[local] Existing Instance calm_system.

Definition toy_pull := Pull 5 (toy_copy "own" toy_state) (Some (small_blob x06, [x02])) false.

Lemma pull_keeps_local_witness : ∃ w' t' r, toy_pull = Some (w', t', r, None) ∧ fn_Content <$> (dk_nodes (t_files t') !! [nm "own"]) = Some (ck x13) ∧ fn_Content <$> (dk_nodes (t_files t') !! [nm "a"]) = Some (ck x12) ∧
  ws_Base (t_State t') = ws_Remote (t_State t').
Proof.
  assert (match toy_pull with Some (_, t', _, None) => (fn_Content <$> (dk_nodes (t_files t') !! [nm "own"]), fn_Content <$> (dk_nodes (t_files t') !! [nm "a"])) | _ => (None, None) end = (Some (ck x13), Some (ck x12))) as Hv by (vm_compute; reflexivity).
  destruct toy_pull as [[[[w' t'] r] [e|]]|] eqn:Ep; try discriminate Hv. exists w', t', r. injection Hv as H1' H2'. split; [done|]. split; [done|]. split; [done|].
  exact (proj2 (proj2 (pull_keeps_local 5 _ _ _ _ _ _ (toy_whole "own") Ep) eq_refl)).
Defined.

(** With a local file that the tree does not have, a push makes the next version; the
    cluster is at the version that was fetched. *)
Definition toy_push (force : bool) := wt_Push (toy_copy "mine" toy_state) (Some (small_blob x05, [x01])) "u" "" force.

(** A push with a message whose first attempt went through without an answer: the copy
    holds the commit it made then, and the cluster has it. *)
Definition toy_earlier : key := toy_commit x07 2.
Definition toy_retry : Tree small_store := toy_copy "mine" toy_state <| t_Store := [(0, [small_blob x05]); (1, [small_blob x07; toy_earlier])] |>.
Definition toy_again := wt_Push toy_retry (Some (toy_earlier, [x09])) "u" "msg" false.

Lemma push_guarded_witness :
  (∃ t' r, toy_push false = Some (Some (small_blob x07, [xff; x01]), t', r, None) ∧ in_sync (t_State (toy_copy "mine" toy_state)) = true) ∧
  ∃ t' r store target, toy_again = Some (Some (toy_earlier, [x09]), t', r, None) ∧ toy_commit x07 5 ≠ toy_earlier ∧
    push_answer store t' target (small_blob x07) [] r (inl (PuRef (ErrMismatch (arr_bytes toy_earlier) [] [x09] true))).
Proof.
  split.
  - assert (match toy_push false with Some (w', _, r, None) => (w', pr_Nothing r) | _ => (None, true) end = (Some (small_blob x07, [xff; x01]), false)) as Hv by (vm_compute; reflexivity).
    destruct (toy_push false) as [[[[w' t'] r] [e|]]|] eqn:Ep; try discriminate Hv. injection Hv as -> Hn. exists t', r. split; [done|].
    exact (proj1 (push_guarded _ _ _ _ _ _ _ (toy_whole "mine") Ep Hn)).
  - assert (match toy_again with Some (w', _, r, None) => (w', pr_Nothing r, pr_Recovered r) | _ => (None, true, false) end = (Some (toy_earlier, [x09]), false, true)) as Hv by (vm_compute; reflexivity).
    destruct toy_again as [[[[w' t'] r] [e|]]|] eqn:Ep; try discriminate Hv. injection Hv as -> Hn Hrec.
    assert (whole toy_retry) as Hw by (apply (whole_store (toy_copy "mine" toy_state)); [apply (bool_decide_unpack _); vm_compute; exact I|apply toy_whole]).
    destruct (push_guarded _ _ _ _ _ _ _ Hw Ep Hn) as (_ & root & store & target & ps & Hroot & _ & Hcall & Hans & _).
    assert (root = small_blob x07) as -> by (apply (f_equal (λ x, match x with inr k => k | inl _ => zero_key end)) in Hroot; rewrite <- Hroot; vm_compute; reflexivity).
    assert (ps = inl (PuRef (ErrMismatch (arr_bytes toy_earlier) [] [x09] true))) as ->.
    { apply (f_equal (λ o, match o with Some (_, x) => x | None => inr (MkPushStats 0 0 []) end)) in Hcall. rewrite <- Hcall. vm_compute. reflexivity. }
    exists t', r, store, target. split; [done|]. split; [by apply (bool_decide_unpack _); vm_compute|exact Hans].
Defined.

(** Whatever happens to the copy after that, it is whole. *)
Lemma working_copy_whole_witness : ∃ t' w', rtc (command 5) (toy_copy "mine" toy_state, Some (small_blob x05, [x01])) (t', w') ∧ w' = Some (small_blob x07, [xff; x01]) ∧ whole t'.
Proof.
  assert (match toy_push false with Some (w', _, r, None) => (w', pr_Nothing r) | _ => (None, true) end = (Some (small_blob x07, [xff; x01]), false)) as Hv by (vm_compute; reflexivity).
  destruct (toy_push false) as [[[[w' t'] r] [e|]]|] eqn:Ep; try discriminate Hv. injection Hv as -> Hn. eexists t', _.
  assert (rtc (command 5) (toy_copy "mine" toy_state, Some (small_blob x05, [x01])) (t', Some (small_blob x07, [xff; x01]))) as Hr by (eapply rtc_once, cmd_push; exact Ep).
  split; [exact Hr|]. split; [done|]. exact (working_copy_whole 5 _ _ _ _ (toy_whole "mine") Hr).
Defined.

(** A clone into a directory that was there and empty leaves the files it wrote when it
    fails, and cannot be tried again: only the metadata goes. *)
Definition full_disk : System := {| sy_now := 7%Z; sy_uid := 1000; sy_gid := 1000; sy_umask := 0x12; sy_fault op p := if decide (op = "rename"%string ∧ p = [nm "b"]) then Some (EOTHER "ENOSPC") else None; sy_gone _ _ := false |}.

Definition toy_clone (pl : place) := Clone (H1 := full_disk) 5 ∅ [nm "wc"] pl (MkConfig "" "r" "" false false "") (Some (small_blob x06, [x02])).

Theorem failed_clone_leftovers : ∃ d w r, toy_clone (PDir (MkDisk {[ [] := on_disk (N.lor S_IFDIR 0x1ED) [] ]} [])) = Some (∅, PDir d, w, r, inl (FApply (AErrno (EOTHER "ENOSPC")))) ∧
  is_Some (dk_nodes d !! [nm "a"]) ∧ ∃ w' r', toy_clone (PDir d) = Some (∅, PDir d, w', r', inl (FText "is not empty")).
Proof.
  set (pl := PDir _). assert ((λ o, match o with Some (m, PDir d, _, _, inl (FApply (AErrno (EOTHER e)))) => (bool_decide (m = ∅), bool_decide (is_Some (dk_nodes d !! [nm "a"])), is_empty_dir d, e) | _ => (false, false, true, ""%string) end) (toy_clone pl) = (true, true, false, "ENOSPC"%string)) as Hv by (vm_compute; reflexivity).
  destruct (toy_clone pl) as [[[[[m [| |d]] w] r] [[]|]]|]; try discriminate Hv. destruct e as [[]| |]; try discriminate Hv. injection Hv as Hm%bool_decide_eq_true Ha%bool_decide_eq_true He ->. exists d, w, r. subst m. split; [done|]. split; [done|].
  unfold toy_clone, Clone, clone_dir. assert (@sy_fault full_disk "readdir" [nm "wc"] = None) as -> by (by vm_compute). rewrite He. by eexists _, _.
Qed.
