(* ===== verification/FlowClient.v ===== *)
(** The client of Tree.v is what a working copy needs of the cluster: it implements the
    interface [Remote] of Flow.v and satisfies its laws.

    A pull is driven by one schedule of its goroutines, [pull_next] until it is over;
    [pull_step] of Tree.v has them all, with the same promises. *)
From S2P Require Import Prelude Store Placement View Wire Ballot Proposer Catalog Meta Mark Pins GC Client Data DataSafety NodeNet Gate GateSafety Fetch FetchSafety Tree TreeSafety Worktree Apply ApplySafety Scan Ticket Copy CopySafety Flow FlowSafety.

Local Open Scope N_scope.

Section client.
Context (blake3 : bytes → nat → bytes) `{Core} `{!CoreOK} `{Codec View} {W : Type} `{CNet W} {P : Type} `{PackStore P} `{!PackStoreOK P}.
Context (CheckComplete : P → key → option string) `{!CheckOK CheckComplete}.
Context (ReachableKeys : P → key → string + list key) (StoredSize : P → key → string + option Z) (ref_encode : Reference → string + bytes) (ref_decode : bytes → string + Reference).
Context (cfg : pushConfig) (rounds steps fuel : nat) (zone : W → Z).
Implicit Types w : W.

(** The loop of a pull to its end, with the world it ends in; [None] after [n] turns. *)
Fixpoint pull_drive (n : nat) (root : key) (s : W * fetcher * puller P) : option (W * P * option string) :=
  match n with
  | O => None
  | S n =>
      o ← pull_next blake3 CheckComplete fuel root s;
      match o with
      | Pulling s => pull_drive n root s
      | Pulled local e => Some (s.1.1, local, e)
      end
  end.

Definition PullTree w (local : P) (root : key) : option (W * P * option string) :=
  r ← begin_pull CheckComplete fuel local root;
  match r with
  | inl e => Some (w, local, Some e)
  | inr p => pull_drive steps root (w, start_fetch [], p)
  end.

#[export] Instance client_remote : Remote W P := {|
  rm_RefGet := RefGet any_wire ref_decode;
  rm_PullTree := PullTree;
  rm_Push w local root name user cond :=
    '(w, st, e) ← Push blake3 ReachableKeys StoredSize ref_encode cfg rounds local w root name user cond;
    Some (w, match e with Some e => inl e | None => inr st end);
  rm_View w := ac_view (cn_self w);
  rm_now := cn_now;
  rm_zone := zone;
|}.

(** ** The local store only grows *)

Lemma each_kid_writer g kids : (∀ p k p', g p k = Some (inr p') → pu_writer p' = pu_writer p) → ∀ p p' : puller P, each_kid g p kids = Some (inr p') → pu_writer p' = pu_writer p.
Proof.
  intros Hg. induction kids as [|kid kids IH]; intros p p'; simpl; [by intros [= <-]|]. destruct (g p kid) as [[e|p1]|] eqn:Eg; simpl; [done| |done]. intros Hk. rewrite (IH _ _ Hk). by eapply Hg.
Qed.

Lemma want_writer n (p : puller P) k p' : want CheckComplete n p k = Some (inr p') → pu_writer p' = pu_writer p.
Proof.
  revert p k p'. induction n as [|n IH]; intros p k p'; simpl; [done|]. case_decide; [by intros [= <-]|]. destruct (ps_Has _ k) as [|[]]; [done| |by intros [= <-]]. destruct (is_leaf k); [by intros [= <-]|].
  destruct (CheckComplete _ k); [|by intros [= <-]]. destruct (local_kids _ k) as [kids|]; [|by intros [= <-]]. intros Hk. by apply (each_kid_writer _ _ IH) in Hk.
Qed.

Lemma lw_flush_local late (lw : localWriter P) : lw_local (lw_flush late lw).1 = lw_local lw.
Proof. unfold lw_flush. destruct (lw_batch lw); [done|]. simpl. destruct (lw_err lw); [by destruct late|done]. Qed.

Lemma lw_write_local late (lw : localWriter P) o : lw_local (lw_write late lw o).1 = lw_local lw.
Proof. unfold lw_write. destruct (_ <? _)%Z; [done|]. by rewrite lw_flush_local. Qed.

Lemma lw_drain_grows (lw : localWriter P) : ps_keys (lw_local lw) ⊆ ps_keys (lw_local (lw_drain lw)).
Proof.
  unfold lw_drain. assert (∀ l lw, ps_keys (lw_local lw) ⊆ ps_keys (lw_local (fold_left lw_run l lw))) as Hl; [|destruct lw; exact (Hl _ (MkLocalWriter _ _ _ [] _ _))]. clear lw. intros l. induction l as [|objs l IH]; intros lw; [done|]. simpl. etrans; [|apply IH].
  unfold lw_run. destruct (lw_err lw); [done|]. pose proof (ps_Write_grows (lw_local lw) objs) as Hg. by destruct (ps_WriteParallel _ _).
Qed.

Lemma lw_stop_grows (lw : localWriter P) : ps_keys (lw_local lw) ⊆ ps_keys (lw_local (lw_stop lw)).
Proof. unfold lw_stop. destruct (lw_closed lw); [done|]. destruct lw; exact (lw_drain_grows (MkLocalWriter _ _ _ _ _ true)). Qed.

Lemma lw_close_grows late (lw : localWriter P) : ps_keys (lw_local lw) ⊆ ps_keys (lw_local (lw_close late lw).1).
Proof.
  unfold lw_close. destruct (lw_closed lw); [done|]. pose proof (lw_flush_local late (lw <| lw_closed := true |>)) as Hf. destruct (lw_flush late _) as [lw1 e]. simpl in *. rewrite <- Hf. apply lw_drain_grows.
Qed.

Lemma receive_local late (p : puller P) k r p' : receive CheckComplete fuel late p k r = Some (inr p') → lw_local (pu_writer p') = lw_local (pu_writer p).
Proof.
  unfold receive. destruct r as [rec|]; [|done]. pose proof (lw_write_local late (pu_writer p) (k, rec)) as Hl. destruct (lw_write late _ _) as [lw [e|]]; [done|]. destruct (record_kids k rec) as [|kids]; [done|].
  set (p1 := p <| pu_writer := lw |> <| pu_fetched := _ |> <| pu_bytes := _ |>). destruct (each_kid _ p1 kids) as [[e|p2]|] eqn:Ek; simpl; [done| |done]. intros [= <-]. simpl.
  apply (each_kid_writer _ _ (want_writer fuel)) in Ek. rewrite Ek. exact Hl.
Qed.

Lemma pull_next_local root s o : pull_next blake3 CheckComplete fuel root s = Some o →
  match o with
  | Pulling s' => lw_local (pu_writer s'.2) = lw_local (pu_writer s.2)
  | Pulled local e => ps_keys (lw_local (pu_writer s.2)) ⊆ ps_keys local ∧ (e = None → CheckComplete local root = None)
  end.
Proof.
  destruct s as [[w f] p]. unfold pull_next. destruct (pu_pending p) as [|n].
  - intros [= <-]. unfold finish_pull. pose proof (lw_close_grows true (pu_writer p)) as Hg. destruct (lw_close true _) as [lw [e|]]; simpl in *; [by split|]. split; [done|]. by destruct (CheckComplete (lw_local lw) root).
  - destruct (ft_out f) as [|[k r] out].
    + destruct (pu_queue p) as [|k q]; [|by intros [= <-]]. destruct (fetch_next blake3 (w, f)) as [[w1 f1]|]; [|done]. by intros [= <-].
    + destruct (receive CheckComplete fuel true p k r) as [[e|p1]|] eqn:Er; simpl; [|by intros [= <-]; eapply receive_local|done]. intros [= <-]. split; [apply lw_stop_grows|done].
Qed.

Lemma pull_drive_spec n root s w' local e : pull_drive n root s = Some (w', local, e) → ps_keys (lw_local (pu_writer s.2)) ⊆ ps_keys local ∧ (e = None → complete local root).
Proof.
  revert s. induction n as [|n IH]; intros s; cbn [pull_drive]; [done|]. destruct (pull_next _ _ _ _ _) as [o|] eqn:En; [|done]. cbn [mbind option_bind]. apply pull_next_local in En. destruct o as [s1|local1 e1].
  - intros Hd. rewrite <- En. by apply IH.
  - intros [= _ <- <-]. destruct En as [Hg Hc]. split; [done|]. intros E. intros c Hr. by eapply check_complete; [apply Hc|].
Qed.

(** The client keeps the promises a working copy relies on. *)
Theorem client_remote_ok : (∀ w, (- 2 ^ 63 ≤ cn_now w < 2 ^ 63)%Z) → RemoteOK W P.
Proof.
  intros Hnow. split; [| |exact Hnow].
  - intros w s k w' s' e. simpl. unfold PullTree. destruct (begin_pull CheckComplete fuel s k) as [[e1|p]|] eqn:Eb; simpl; [by intros [= <- <- <-]| |done]. intros Hd. destruct (pull_drive_spec _ _ _ _ _ _ Hd) as [Hg _]. simpl in Hg. by rewrite (want_writer _ _ _ _ Eb) in Hg.
  - intros w s k w' s'. simpl. unfold PullTree. destruct (begin_pull CheckComplete fuel s k) as [[e1|p]|] eqn:Eb; simpl; [done| |done]. intros Hd. by destruct (pull_drive_spec _ _ _ _ _ _ Hd) as [_ Hc]; apply Hc.
Qed.
End client.
