(* ===== verification/Maintain.v ===== *)
(** The lease-driven coordinator of a node (src/node/maintenance.go): the tick, the
    holder's duties, forwarding to the holder, transitions, voter changes with their
    sync, backups and the daily pass.

    The changes of the view and the decisions that lead to them are Transition.v's;
    here they are carried out, over [MaintWorld]: the catalog, the proposer, this
    node's acceptor and the sleeps of its loops.  Requests to other nodes are those of
    the class [Net]; log lines are left out. *)
From stdpp Require Import pretty.
From S2P Require Import Prelude Store Placement View Wire Ballot Proposer Catalog Meta Mark Pins GC Transition Data Gate.

Local Open Scope N_scope.

(** * State *)

(** A zero [time.Time] is [None]. *)
Record maintenance := MkMaintenance {
  mt_holder : bool;
  mt_busy : Z;
  mt_working : bool;
  mt_gcRunning : bool;
  mt_lastBackup : option Z;
  mt_lastDaily : option Z;
  mt_lastGCPoll : option Z;
}.

#[global] Instance maintenance_eta : Eta maintenance := λ r,
  MkMaintenance (mt_holder r) (mt_busy r) (mt_working r) (mt_gcRunning r) (mt_lastBackup r) (mt_lastDaily r) (mt_lastGCPoll r).

Definition newMaintenance : maintenance := MkMaintenance false 0 false false None None None.

(** [time.Since(t) > d]. *)
Definition elapsed (now : Z) (t : option Z) (d : Z) : bool := match t with None => true | Some t => (d <? now - t)%Z end.

Definition second : Z := 1000000000.
Definition minute : Z := 60 * second.
Definition hour : Z := 60 * minute.

Record mconfig := MkMconfig { mc_Lease : Z; mc_MaintenanceTick : Z; mc_drive : drive_cfg; mc_PutTTL : Z }.

(** The operator's command and its result. *)
Record AdminRequest := MkAdminRequest {
  ar_Op : string; ar_Node : bytes; ar_Weight : N; ar_Zone : string; ar_Replicas : N; ar_Dead : bool;
  ar_AllowUnsafe : bool; ar_Force : bool; ar_Key : bytes; ar_Garbage : N; ar_Tolerate : bool;
  ar_Forwarded : bool; ar_Pause : bool; ar_Rate : N; ar_Names : list string;
}.

#[global] Instance AdminRequest_eta : Eta AdminRequest := λ r,
  MkAdminRequest (ar_Op r) (ar_Node r) (ar_Weight r) (ar_Zone r) (ar_Replicas r) (ar_Dead r) (ar_AllowUnsafe r) (ar_Force r)
    (ar_Key r) (ar_Garbage r) (ar_Tolerate r) (ar_Forwarded r) (ar_Pause r) (ar_Rate r) (ar_Names r).

#[global] Instance AdminRequest_ser : Ser AdminRequest.
Proof.
  refine (ser_via (λ r, (ar_Op r, ar_Node r, ar_Weight r, ar_Zone r, ar_Replicas r, ar_Dead r, ar_AllowUnsafe r, ar_Force r,
                         ar_Key r, ar_Garbage r, ar_Tolerate r, ar_Forwarded r, ar_Pause r, ar_Rate r, ar_Names r))
    (λ '(f0, f1, f2, f3, f4, f5, f6, f7, f8, f9, f10, f11, f12, f13, f14),
       MkAdminRequest f0 f1 f2 f3 f4 f5 f6 f7 f8 f9 f10 f11 f12 f13 f14) _). by intros [].
Defined.

Record AdminReply := MkAdminReply {
  ay_Text : string; ay_Token : bytes; ay_View : bytes; ay_Names : list string; ay_Key : bytes; ay_Ticket : string; ay_GC : bytes;
}.

#[global] Instance AdminReply_eta : Eta AdminReply := λ r,
  MkAdminReply (ay_Text r) (ay_Token r) (ay_View r) (ay_Names r) (ay_Key r) (ay_Ticket r) (ay_GC r).

#[global] Instance AdminReply_ser : Ser AdminReply.
Proof.
  refine (ser_via (λ r, (ay_Text r, ay_Token r, ay_View r, ay_Names r, ay_Key r, ay_Ticket r, ay_GC r))
    (λ '(f0, f1, f2, f3, f4, f5, f6), MkAdminReply f0 f1 f2 f3 f4 f5 f6) _). by intros [].
Defined.

Definition AdminReply0 : AdminReply := MkAdminReply "" [] [] [] [] "" [].

(** One reference in a backup object. *)
Record backupEntry := MkBackupEntry { be_Name : bytes; be_Record : bytes }.

#[global] Instance backupEntry_ser : Ser backupEntry.
Proof. refine (ser_via (λ e, (be_Name e, be_Record e)) (λ '(n, r), MkBackupEntry n r) _). by intros []. Defined.

(** Errors; [MWrap] is [fmt.Errorf] with %w, and [MFuel] is fuel that ran out. *)
Inductive merr :=
  | MText (s : string)
  | MWire (code text : string)
  | MCat (e : cerr)
  | MNet (e : net_err)
  | MLocal (e : put_local_err)
  | MCycle (e : cycle_err)
  | MCtx                                  (* [ctx.Err()] *)
  | MWrap (s : string) (e : merr)
  | MPanic
  | MFuel.

(** * What the coordinator uses of the rest of the node *)

Class MaintWorld (W : Type) := {
  mw_get : W → maintenance;
  mw_set : W → maintenance → W;
  mw_sleep : W → Z → W * bool;                       (* [false]: the context ended first *)
  mw_CASView : W → change → W * option View * option cerr;
  mw_AcquireLease : W → NodeID → Z → W * bool * Lease * option cerr;
  mw_ReleaseLease : W → NodeID → W;
  mw_Install : W → View → list NodeID → W * list NodeID;
  mw_Scan : W → bytes → bytes → Z → W * (cerr + list MergedRow * option bytes);
  mw_Settle : W → bytes → W * option cerr;
  mw_AllRows : W → string + list ScanRow;            (* the acceptor's *)
  mw_Handle : W → Msg → W * Msg;                     (* the acceptor's *)
  mw_ReadToken : W → bytes → W * (cerr + Token);
  mw_CreateToken : W → N → W * (cerr + bytes);
  mw_ListTokens : W → W * (cerr + gmap bytes Token);
  mw_DeleteToken : W → bytes → W;
  mw_ReadGC : W → W * GCState * option cerr;
  mw_CASGC : W → gc_change → W * GCState * option cerr;
  mw_SetKeep : W → string → W * option cerr;
  mw_storePut : W → key → bytes → W * option string; (* the pack store's Put *)
  mw_gcPoll : W → W;
  mw_gcRun : W → bool → N → W * option cycle_err;    (* [gc_run] of GC.v *)
}.

Section maintain.
Context (blake3 : bytes → nat → bytes) `{Core} {P DB W : Type} `{PackStore P} `{KVStore DB} `{Codec View} `{Net P DB W}.
Context `{RefWorld W} `{MaintWorld W} `{Codec AdminRequest} `{Codec AdminReply} `{Codec RefValue} `{Codec (list backupEntry)}.
Context (self : NodeID) (cfg : mconfig).
(** The order in which Go ranges over a map of nodes. *)
Context (order : list NodeID → list NodeID).
(** What a failed Unmarshal leaves in the request. *)
Context (admin_rest : bytes → AdminRequest).
(** The reference records of amber-store/core. *)
Context (reference_Decode : bytes → string + Reference) (reference_Encode : string → key → Z → string + bytes).
Implicit Types w : W.

Definition view_of w : option View := dn_view (nw_self w).

Definition upd_maint w (f : maintenance → maintenance) : W := mw_set w (f (mw_get w)).

Definition isHolder w : bool := mt_holder (mw_get w).
Definition setHolder w (h : bool) : W := upd_maint w (λ m, m <| mt_holder := h |>).

(** * Requests *)

(** [Node.Call]: the own acceptor is called directly; an error frame is a reply. *)
Definition Node_Call w (to : NodeID) (req : Msg) : W * (net_err + Msg) :=
  if decide (to = self) then let '(w, m) := mw_Handle w req in (w, inr m)
  else match nw_call w to req with
       | (w, inr resp) => (markReachable w to, inr resp)
       | (w, inl e) =>
           match net_AsError e with
           | Some we => (w, inr (ErrMsg (err_Code we) (err_Text we)))
           | None => (markUnreachable w to, inl e)
           end
       end.

(** [broadcastCluster]: the answers are not read. *)
Definition broadcastCluster w (m : Msg) : W :=
  match view_of w with
  | None => w
  | Some v => fold_left (λ w id, if decide (id = self) then w else fst (nw_call w id (stampReq (nw_self w) m))) (AllMembers v) w
  end.

Definition viewChanged (nv : View) : Msg := msg0 <| m_Type := TViewChanged |> <| m_Epoch := Epoch nv |>.

(** A CAS of the view whose result is adopted. *)
Definition cas_adopt w (ch : change) : W * (merr + View) :=
  match mw_CASView w ch with
  | (w, _, Some e) => (w, inl (MCat e))
  | (w, None, None) => (w, inl MPanic)
  | (w, Some nv, None) => (nw_adopt w nv, inr nv)
  end.

(** ... and announced. *)
Definition cas_announce w (ch : change) : W * (merr + View) :=
  match cas_adopt w ch with
  | (w, inl e) => (w, inl e)
  | (w, inr nv) => (broadcastCluster w (viewChanged nv), inr nv)
  end.

(** * Transitions *)

Definition proposeTransition w (reason : string) (fn : View → Pending → xerr + View * Pending) : W * (merr + View) :=
  cas_announce w (proposeTransition_change reason fn).

Definition refreeze w (force : bool) : W * (merr + View) := cas_announce w (refreeze_change force).

Definition commit w (id round : N) : W := fst (cas_announce w (commit_change order id round)).

(** Whether a step of a ramp was taken up, and the coordinator is done. *)
Definition nextRamp w (v : View) : W * bool :=
  match Ramps v with
  | [] => (w, false)
  | r :: _ =>
      let id := arr_of 32 (Ramp_Node r) in
      let step nd :=
        let next := nextRampWeight (Node_Weight nd) (Ramp_Target r) in
        (fst (proposeTransition w ("ramp " +:+ ShortID id +:+ " to " +:+ pretty next) (ramp_fn id next)), true) in
      match View_Node v id with
      | Some nd => if Ramp_Target r <=? Node_Weight nd then (fst (cas_adopt w (rampDone_change id)), true) else step nd
      | None => (fst (cas_adopt w (rampDone_change id)), true)
      end
  end.

Definition driveTransition w (v : View) : W :=
  match View_Pending v with
  | None => w     (* the caller checked *)
  | Some p =>
      let now := nw_now w in
      if negb (Pending_Frozen p) then
        if negb (allAcked v p) && (now - Pending_Since p <? AdoptTimeout (mc_drive cfg))%Z then w
        else fst (cas_announce w (freeze_change (Pending_ID p)))
      else if allDone p then commit w (Pending_ID p) (Pending_Round p)
      else if (ParticipantTimeout (mc_drive cfg) <? now - Pending_FrozenAt p)%Z then fst (refreeze w false)
      else w
  end.

(** * Voter changes *)

(** The calls run in parallel; each counts for itself. *)
Fixpoint ping_count w (ids : list NodeID) : W * nat :=
  match ids with
  | [] => (w, 0%nat)
  | id :: ids =>
      let '(w, ok) :=
        if decide (id = self) then (w, true)
        else match nw_call w id (stampReq (nw_self w) (msg0 <| m_Type := TPing |>)) with
             | (w, inl _) => (w, false)
             | (w, inr _) => (w, true)
             end in
      let '(w, k) := ping_count w ids in
      (w, if ok : bool then S k else k)
  end.

Definition pingMajority w (ids : list NodeID) : W * bool :=
  let '(w, ok) := ping_count w ids in (w, (length ids / 2 + 1 <=? ok)%nat).

(** ** The sync of a pending change *)

(** How many of the old voters are among those that installed the view. *)
Definition installed_old (ok old : list NodeID) : nat :=
  sum_list ((λ id, length (filter (λ o, o = id) old)) <$> ok).

Fixpoint install_loop (fuel : nat) w (v : View) (ids old : list NodeID) (deadline : Z) : W * option merr :=
  match fuel with
  | O => (w, Some MFuel)
  | S fuel =>
      let '(w, ok) := mw_Install w v ids in
      if (length old / 2 + 1 <=? installed_old ok old)%nat then (w, None)
      else if (deadline <? nw_now w)%Z then (w, Some (MText "a majority of the old voters did not install the new view"))
      else match mw_sleep w second with
           | (w, false) => (w, Some MCtx)
           | (w, true) => install_loop fuel w v ids old deadline
           end
  end.

(** A register is settled with up to 22 attempts: [more] may follow the first. *)
Fixpoint settle_loop (more : nat) w (reg : bytes) : W * option merr :=
  match mw_Settle w reg with
  | (w, None) => (w, None)
  | (w, Some e) =>
      match more with
      | O => (w, Some (MWrap ("settle " +:+ to_string reg) (MCat e)))
      | S more =>
          match mw_sleep w (200 * 1000000) with
          | (w, false) => (w, Some MCtx)
          | (w, true) => settle_loop more w reg
          end
      end
  end.

(** The rows of a page; the view carries the sync itself. *)
Fixpoint settle_rows w (rows : list MergedRow) : W * option merr :=
  match rows with
  | [] => (w, None)
  | r :: rows =>
      if decide (mr_Reg r = RegView) then settle_rows w rows
      else match settle_loop 21 w (mr_Reg r) with
           | (w, Some e) => (w, Some e)
           | (w, None) => settle_rows w rows
           end
  end.

Fixpoint sync_loop (fuel : nat) w (after : bytes) : W * option merr :=
  match fuel with
  | O => (w, Some MFuel)
  | S fuel =>
      match mw_Scan w [] after 500 with
      | (w, inl e) => (w, Some (MWrap "scan" (MCat e)))
      | (w, inr (rows, next)) =>
          match settle_rows w rows with
          | (w, Some e) => (w, Some e)
          | (w, None) =>
              match next with
              | None => (w, None)
              | Some after => sync_loop fuel (fst (cas_adopt w (syncCursor_change after))) after
              end
          end
      end
  end.

Definition syncRegisters (fuel : nat) w : W * option merr :=
  match view_of w with
  | None => (w, Some MPanic)
  | Some v => sync_loop fuel w (VoterSyncCursor v)
  end.

(** The epoch at which the last entry of the target voted first. *)
Definition since_of (v : View) (target : NodeID) : N :=
  fold_left (λ s vo, if arr_is (Voter_ID vo) target then Voter_Since vo else s) (Voters v) 0.

Definition marker_req w (since : N) : Msg := stampReq (nw_self w) (msg0 <| m_Type := TMarker |> <| m_Since := since |>).

Fixpoint marker_loop (fuel : nat) w (target : NodeID) (since : N) (deadline : Z) : W * option merr :=
  match fuel with
  | O => (w, Some MFuel)
  | S fuel =>
      let '(w, resp) := Node_Call w target (marker_req w since) in
      if match resp with inr m => (m_Type m =? TOK)%Z | inl _ => false end then (w, None)
      else if (deadline <? nw_now w)%Z then (w, Some (MText ("new voter " +:+ ShortID target +:+ " did not acknowledge its marker")))
      else match mw_sleep w second with
           | (w, false) => (w, Some MCtx)
           | (w, true) => marker_loop fuel w target since deadline
           end
  end.

Definition finishVoterSync (fuel : nat) w (oldVoters : list NodeID) : W * option merr :=
  match view_of w with
  | None => (w, Some MPanic)
  | Some v =>
      if negb (VoterSync v =? VoterSyncPending)%Z then (w, None)
      else
        let target := arr_of 32 (VoterSyncTarget v) in
        let ids := order (remove_dups (oldVoters ++ VoterIDs v)) in
        match install_loop fuel w v ids oldVoters (nw_now w + 2 * minute) with
        | (w, Some e) => (w, Some e)
        | (w, None) =>
        match syncRegisters fuel w with
        | (w, Some e) => (w, Some e)
        | (w, None) =>
        match (if VoterSyncAdd v then marker_loop fuel w target (since_of v target) (nw_now w + minute) else (w, None)) with
        | (w, Some e) => (w, Some e)
        | (w, None) =>
        match cas_adopt w syncDone_change with
        | (w, inl e) => (w, Some e)
        | (w, inr nv) => (broadcastCluster (fst (mw_Install w nv ids)) (viewChanged nv), None)
        end end end end
  end.

Definition resumeVoterSync (fuel : nat) w : W * option merr :=
  match view_of w with
  | None => (w, Some MPanic)
  | Some v => finishVoterSync fuel w (resume_old v)
  end.

(** ** From one voter to three *)

(** The rows in slices of [n]: [rows[i:i+n]]. *)
Fixpoint row_slices (fuel n : nat) (rows : list ScanRow) : list (list ScanRow) :=
  match fuel, rows with
  | S fuel, _ :: _ => take n rows :: row_slices fuel n (drop n rows)
  | _, _ => []
  end.

Fixpoint seed_slices w (nid : NodeID) (slices : list (list ScanRow)) : W * option merr :=
  match slices with
  | [] => (w, None)
  | rows :: slices =>
      match Node_Call w nid (stampReq (nw_self w) (msg0 <| m_Type := TSeed |> <| m_Rows := rows |>)) with
      | (w, inl e) => (w, Some (MWrap ("seed " +:+ ShortID nid) (MNet e)))
      | (w, inr _) => seed_slices w nid slices
      end
  end.

Fixpoint seed_voters w (newEpoch : N) (rows : list ScanRow) (ids : list NodeID) : W * option merr :=
  match ids with
  | [] => (w, None)
  | nid :: ids =>
      match seed_slices w nid (row_slices (length rows) 2000 rows) with
      | (w, Some e) => (w, Some e)
      | (w, None) =>
          match Node_Call w nid (marker_req w newEpoch) with
          | (w, inl e) => (w, Some (MWrap ("marker " +:+ ShortID nid) (MNet e)))
          | (w, inr resp) =>
              if negb (m_Type resp =? TOK)%Z then (w, Some (MText ("marker " +:+ ShortID nid +:+ ": <nil>")))
              else seed_voters w newEpoch rows ids
          end
      end
  end.

Definition addVoterFromSingle w (id : NodeID) : W * option merr :=
  match view_of w with
  | None => (w, Some MPanic)
  | Some v =>
      if bool_decide (length (DeferredVoters v) = 0%nat) then
        match cas_adopt w (deferVoter_change id) with
        | (w, inl e) => (w, Some e)
        | (w, inr _) => (w, None)
        end
      else
        let newIDs := IDsOf (DeferredVoters v) ++ [id] in
        match VoterIDs v with
        | [] => (w, Some MPanic)
        | single :: _ =>
            let all := single :: newIDs in
            let '(w, ok) := pingMajority w all in
            if negb ok then (w, Some (MText "the new voters did not answer a ping"))
            else match cas_adopt w (voters3_change newIDs) with
            | (w, inl e) => (w, Some e)
            | (w, inr nv) =>
                match mw_AllRows w with
                | inl e => (w, Some (MText e))
                | inr rows =>
                    match seed_voters w (Epoch nv) rows newIDs with
                    | (w, Some e) => (w, Some e)
                    | (w, None) => (broadcastCluster (fst (mw_Install w nv all)) (viewChanged nv), None)
                    end
                end
            end
        end
  end.

Definition addVoter (fuel : nat) w (id : NodeID) : W * option merr :=
  match view_of w with
  | None => (w, Some MPanic)
  | Some v =>
      if IsVoter v id then (w, Some (MText "already a voter"))
      else if (VoterSync v =? VoterSyncPending)%Z then (w, Some (MText "a voter change is in progress"))
      else if bool_decide (length (Voters v) = 1%nat) then addVoterFromSingle w id
      else
        let '(w, ok) := pingMajority w (VoterIDs v ++ [id]) in
        if negb ok then (w, Some (MText "a majority of the new voter set did not answer a ping"))
        else match cas_adopt w (addVoter_change id) with
             | (w, inl e) => (w, Some e)
             | (w, inr _) => finishVoterSync fuel w (VoterIDs v)
             end
  end.

Definition removeVoter (fuel : nat) w (id : NodeID) (allowUnsafe : bool) : W * option merr :=
  match view_of w with
  | None => (w, Some MPanic)
  | Some v =>
      if negb (IsVoter v id) then
        (if Contains (RemoveVoters v) id then fst (cas_adopt w (voterGone_change id)) else w, None)
      else if (VoterSync v =? VoterSyncPending)%Z then (w, Some (MText "a voter change is in progress"))
      else if bool_decide (length (Voters v) = 1%nat) then (w, Some (MText "cannot remove the only voter"))
      else if bool_decide (length (Voters v) ≤ 3)%nat && bool_decide (3 ≤ length (Nodes v))%nat && negb allowUnsafe
      then (w, Some (MText "removal would leave fewer than 3 voters (use --allow-unsafe)"))
      else match cas_adopt w (removeVoter_change id) with
           | (w, inl e) => (w, Some e)
           | (w, inr _) => finishVoterSync fuel w (VoterIDs v)
           end
  end.

Definition nodeChange (fuel : nat) w (op : node_op) (id : NodeID) (dead allowUnsafe : bool) : W * (merr + View) :=
  match view_of w with
  | None => (w, inl MPanic)
  | Some v =>
      match View_Node v id with
      | None => (w, inl (MText (ShortID id +:+ " is not a member")))
      | Some _ =>
          let '(w, e) :=
            if match op with OpRemove => true | _ => false end && dead && IsVoter v id
            then removeVoter fuel w id allowUnsafe else (w, None) in
          match e with
          | Some e => (w, inl (MWrap "voter remove" e))
          | None => proposeTransition w (node_op_name op +:+ " " +:+ ShortID id) (nodeChange_fn op id)
          end
      end
  end.

(** * The lease holder *)

(** [forward]: an operator's request goes to the holder, marked as forwarded. *)
Definition forwarded (fwd : Msg) : Msg :=
  if (m_Type fwd =? TAdmin)%Z then
    let req := match unmarshal (m_Params fwd) with inr r => r | inl _ => admin_rest (m_Params fwd) end in
    fwd <| m_Params := marshal (req <| ar_Forwarded := true |>) |> <| m_Force := true |>
  else fwd.

Definition adopt_reply w (enc : bytes) : W * (merr + View) :=
  match Decode enc with
  | inl e => (w, inl (MText e))
  | inr v => (nw_adopt w v, inr v)
  end.

Definition forward w (holder : NodeID) (fwd : Msg) : W * (merr + View) :=
  match nw_call w holder (stampReq (nw_self w) (forwarded fwd)) with
  | (w, inl e) => (w, inl (MWrap ("forward to lease holder " +:+ ShortID holder) (MNet e)))
  | (w, inr resp) =>
      if (m_Type resp =? TViewReply)%Z then adopt_reply w (m_View resp)
      else if (m_Type resp =? TAdminReply)%Z then
        match unmarshal (A := AdminReply) (m_Status resp) with
        | inl e => (w, inl (MText e))
        | inr ar =>
            if bool_decide (ay_View ar = []) then
              (w, match view_of w with Some v => inr v | None => inl MPanic end)
            else adopt_reply w (ay_View ar)
        end
      else (w, inl (MText ("unexpected reply " +:+ pretty (m_Type resp) +:+ " from lease holder")))
  end.

(** The turn of the holder: [busy] counts the activities that run. *)
Definition as_holder w (fn : W → W * (merr + View)) : W * (merr + View) :=
  let w := upd_maint w (λ m, m <| mt_busy := (mt_busy m + 1)%Z |>) in
  let '(w, r) := fn w in
  (upd_maint w (λ m, m <| mt_busy := (mt_busy m - 1)%Z |>), r).

Definition runAsHolder w (fwd : option Msg) (fn : W → W * (merr + View)) : W * (merr + View) :=
  if isHolder w then as_holder w fn
  else match mw_AcquireLease w self (mc_Lease cfg) with
       | (w, _, _, Some e) => (w, inl (MCat e))
       | (w, true, _, None) => as_holder (setHolder w true) fn
       | (w, false, lease, None) =>
           if negb (length (Holder lease) =? 32)%nat then (w, inl (MText "lease held by an unknown node"))
           else
             let holder := arr_of 32 (Holder lease) in
             match fwd with
             | Some fwd =>
                 if (m_Type fwd =? TAdmin)%Z && m_Force fwd then (w, inl (MText ("lease held by " +:+ ShortID holder +:+ "; retry there")))
                 else forward w holder fwd
             | None => (w, inl (MText ("lease held by " +:+ ShortID holder +:+ "; retry there")))
             end
       end.

(** * Backups *)

Definition BackupName : bytes := of_string "dstore/catalog-backup".

Definition backup_entries (refs : list RefEntry) : list backupEntry :=
  (λ e, MkBackupEntry (re_Name e) (Record_ (re_Value e))) <$> filter (λ e, re_Name e ≠ BackupName) refs.

Definition mkBackup : bytes := of_string "backup/".

(** [%020d] of a time. *)
Definition pad20 (t : Z) : string :=
  let digits := pretty (Z.abs t) in
  let sign := if (t <? 0)%Z then "-"%string else ""%string in
  (sign +:+ String.concat "" (replicate (20 - String.length sign - String.length digits) "0"%string) +:+ digits)%string.

Definition backup_rows (d : DB) : list (bytes * bytes) :=
  snd (Scan d mkBackup (λ l k v, (l ++ [(k, v)], true)) []).

(** The last 24 are kept. *)
Definition noteBackup (n : dnode P DB) (now : Z) (k : bytes) : dnode P DB :=
  if negb (length k =? 32)%nat then n
  else
    let d := snd (Set_key (dn_db n) (mkBackup ++ of_string (pad20 now)) k) in
    let keys := (backup_rows d).*1 in
    set_db n (fold_left (λ d k, snd (Delete d k)) (take (length keys - 24) keys) d).

Definition backupKeys (n : dnode P DB) : list string := (λ row, to_string (hex_encode row.2)) <$> backup_rows (dn_db n).

Definition put_backup w (k : key) (rec : bytes) : W :=
  fold_left (λ w o, if decide (o = self) then w else fst (fst (forwardTo blake3 w o [k] (λ w _, (w, Some rec)))))
    (WriteSet (placement_of blake3 (nw_self w)) k) w.

(** [RefPutLocal] of Gate.v walks what the reference reaches: fuel for that walk. *)
Definition backupCatalog (fuel : nat) w : W * (merr + key) :=
  match rw_RefsSnapshot w with
  | (w, inl e) => (w, inl (MCat e))
  | (w, inr refs) =>
      let data := marshal (backup_entries refs) in
      match key_New Blob (N.of_nat (length data)) data with
      | inl e => (w, inl (MText e))
      | inr k =>
          match mw_storePut w k data with
          | (w, Some e) => (w, inl (MText e))
          | (w, None) =>
              match ps_GetRecord (dn_store (nw_self w)) k with
              | inl _ => (w, inl (MText "backup record"))
              | inr rec =>
                  let w := put_backup w k rec in
                  match reference_Encode (to_string BackupName) k (nw_now w) with
                  | inl e => (w, inl (MText e))
                  | inr enc =>
                      match RefPutLocal blake3 reference_Decode fuel (mc_PutTTL cfg) w (to_string BackupName) enc (MkCond None false None false true) with
                      | None => (w, inl MFuel)
                      | Some (w, inl e) => (w, inl (MLocal e))
                      | Some (w, inr _) =>
                          let w := upd_self w (λ n, noteBackup n (nw_now w) (arr_bytes k)) in
                          (broadcastCluster w (msg0 <| m_Type := TBackupNote |> <| m_Key := arr_bytes k |>), inr k)
                      end
                  end
              end
          end
      end
  end.

(** [RestoreCatalog]: how many references were written, and the error. *)
Fixpoint restore_entries w (entries : list backupEntry) (written : Z) : W * Z * option merr :=
  match entries with
  | [] => (w, written, None)
  | e :: entries =>
      match rw_RefPut w (be_Name e) (be_Record e) (MkCond None false None false true) 0 (keyOfRecord reference_Decode) with
      | (w, _, Some err) => (w, written, Some (MWrap (to_string (be_Name e)) (MCat err)))
      | (w, _, None) => restore_entries w entries (written + 1)
      end
  end.

Definition RestoreCatalog w (data : bytes) : W * Z * option merr :=
  match unmarshal (A := list backupEntry) data with
  | inl e => (w, 0%Z, Some (MText e))
  | inr entries =>
      match restore_entries w entries 0 with
      | (w, written, Some e) => (w, written, Some e)
      | (w, written, None) => (fst (fst (mw_CASGC w restore_gc)), written, None)
      end
  end.

(** * The daily pass *)

(** Whether a scanned reference is a tombstone of before [dayAgo]. *)
Definition old_tombstone (dayAgo : Z) (r : MergedRow) : bool :=
  row_HasValue (mr_Row r) &&
  match DecodeRef (row_Value (mr_Row r)) with
  | inl _ => false
  | inr rv => IsTombstone rv && negb (dayAgo <? DeletedAt rv)%Z
  end.

Definition purge_rows w (dayAgo : Z) (rows : list MergedRow) : W :=
  fold_left (λ w r, if old_tombstone dayAgo r
                    then rw_TryPurge w (drop (length PrefixRef) (mr_Reg r)) (row_Accepted (mr_Row r)) else w) rows w.

(** The loop ends with the scan's error or its last page; [false] is fuel that ran out. *)
Fixpoint purge_loop (fuel : nat) w (dayAgo : Z) (after : bytes) : W * bool :=
  match fuel with
  | O => (w, false)
  | S fuel =>
      match mw_Scan w PrefixRef after 5000 with
      | (w, inl _) => (w, true)
      | (w, inr (rows, next)) =>
          let w := purge_rows w dayAgo rows in
          match next with
          | None => (w, true)
          | Some after => purge_loop fuel w dayAgo after
          end
      end
  end.

Definition token_due (v : View) (weekAgo : Z) (id : bytes) (t : Token) : bool :=
  (CreatedAt t <? weekAgo)%Z || tokenUsed v id.

Definition delete_tokens w (v : View) (weekAgo : Z) (tokens : list (bytes * Token)) : W :=
  fold_left (λ w '(id, t), if token_due v weekAgo id t then mw_DeleteToken w id else w) tokens w.

Definition dailyPass (fuel : nat) w : W * bool :=
  match view_of w with
  | None => (w, true)    (* the coordinator has a view *)
  | Some v =>
      match purge_loop fuel w (nw_now w - 24 * hour) [] with
      | (w, false) => (w, false)
      | (w, true) =>
          match mw_ListTokens w with
          | (w, inl _) => (w, true)
          | (w, inr tokens) => (delete_tokens w v (nw_now w - 7 * 24 * hour) (map_to_list tokens), true)
          end
      end
  end.

Definition housekeeping (fuel : nat) w : W :=
  let now := nw_now w in
  let m := mw_get w in
  let backupDue := elapsed now (mt_lastBackup m) hour in
  let dailyDue := elapsed now (mt_lastDaily m) (24 * hour) in
  let w := if backupDue then fst (backupCatalog fuel (upd_maint w (λ m, m <| mt_lastBackup := Some now |>))) else w in
  if dailyDue then fst (dailyPass fuel (upd_maint w (λ m, m <| mt_lastDaily := Some (nw_now w) |>))) else w.

(** * Ticks *)

(** Whether a run of the collector is to be started beside it. *)
Definition coordinate (fuel : nat) w : W * bool :=
  match view_of w with
  | None => (w, false)
  | Some v =>
      let rest w :=
        let start := negb (mt_gcRunning (mw_get w)) in
        let w := if start then upd_maint w (λ m, m <| mt_gcRunning := true |>) else w in
        (housekeeping fuel w, start) in
      if (VoterSync v =? VoterSyncPending)%Z then (fst (resumeVoterSync fuel w), false)
      else match View_Pending v with
      | Some _ => rest (driveTransition w v)
      | None =>
          match RemoveVoters v with
          | raw :: _ => (fst (removeVoter fuel w (arr_of 32 raw) true), false)
          | [] => match nextRamp w v with
                  | (w, true) => (w, false)
                  | (w, false) => rest w
                  end
          end
      end
  end.

(** The end of a run of [coordinate], and of the collector's. *)
Definition coordinated w : W := upd_maint w (λ m, m <| mt_working := false |>).
Definition collected w : W := upd_maint w (λ m, m <| mt_gcRunning := false |>).

Definition nodeTick w : W :=
  let due := elapsed (nw_now w) (mt_lastGCPoll (mw_get w)) (Z.min (10 * second) (5 * mc_MaintenanceTick cfg)) in
  if due then mw_gcPoll (upd_maint w (λ m, m <| mt_lastGCPoll := Some (nw_now w) |>)) else w.

(** Whether a run of [coordinate] is to be started beside it. *)
Definition tick w : W * bool :=
  match mw_AcquireLease w self (mc_Lease cfg) with
  | (w, _, _, Some _) => (setHolder w false, false)
  | (w, false, _, None) => (nodeTick (setHolder w false), false)
  | (w, true, _, None) =>
      let w := nodeTick (setHolder w true) in
      let m := mw_get w in
      if (mt_busy m =? 0)%Z && negb (mt_working m) then (upd_maint w (λ m, m <| mt_working := true |>), true) else (w, false)
  end.

(** [waitForView]: [None] when the fuel ran out. *)
Fixpoint waitForView (fuel : nat) w : option (W * bool) :=
  match fuel with
  | O => None
  | S fuel =>
      match view_of w with
      | Some _ => Some (w, true)
      | None =>
          match mw_sleep w (200 * 1000000) with
          | (w, false) => Some (w, false)
          | (w, true) => waitForView fuel w
          end
      end
  end.

(** [run]: the loop waits for a view; nodes that are not voters wait longer.  Then
    comes a [tick] for each of the ticker's, and in the end the lease is given back. *)
Definition run_start (fuel : nat) w : option (W * bool) :=
  '(w, ok) ← waitForView fuel w;
  Some (if negb ok then (w, false)
        else match view_of w with
             | Some v => if IsVoter v self then (w, true) else mw_sleep w (3 * mc_Lease cfg)
             | None => (w, true)
             end).

Definition run_stop w : W := if isHolder w then mw_ReleaseLease w self else w.
End maintain.
