(* ===== verification/Admin.v ===== *)
(** Operators and joining nodes (src/node/admin.go, join.go): every command of a TAdmin
    frame, the admission of a node and the joiner's side.

    A handler's result is the frame it writes.  What becomes of a stream that breaks,
    and log lines, are left out. *)
From stdpp Require Import pretty.
From S2P Require Import Prelude Store Placement View Wire Ballot Proposer Catalog Meta Mark Pins GC Transition Data Gate Maintain Ticket.

Local Open Scope N_scope.

(** What admission uses besides. *)
Class AdminWorld (W : Type) := {
  aw_rememberAddrs : W → NodeID → list string → W;     (* the addresses of a joiner *)
  aw_addrs : W → list string;                          (* the endpoint's own *)
  aw_targetWiped : W → NodeID → W;                     (* the reconciler's, Reconcile.v *)
  aw_Why : W → key → W * (cerr + list bytes);          (* [Why] of Gate.v *)
  aw_joinCall : W → NodeID → list string → Msg → W * (net_err + Msg);  (* dial, send, read one reply *)
}.

(** [wire.AsError]: code and text of a wire error in the chain. *)
Fixpoint merr_wire (e : merr) : option (string * string) :=
  match e with
  | MWire code text => Some (code, text)
  | MCat (CErr (XWire code text)) => Some (code, text)
  | MLocal (LCatalog (CErr (XWire code text))) => Some (code, text)
  | MNet e => (λ we, (err_Code we, err_Text we)) <$> net_AsError e
  | MWrap _ e => merr_wire e
  | _ => None
  end.

Section admin.
Context (blake3 : bytes → nat → bytes) (tokenHash : bytes → bytes) `{Core} {P DB W : Type} `{PackStore P} `{KVStore DB} `{Codec View} `{Net P DB W}.
Context `{RefWorld W} `{MaintWorld W} `{AdminWorld W} `{Codec AdminRequest} `{Codec AdminReply} `{Codec RefValue} `{Codec (list backupEntry)}.
Context `{Codec Ticket} `{Codec GCState}.
Context (self : NodeID) (cfg : mconfig) (order : list NodeID → list NodeID) (admin_rest : bytes → AdminRequest).
Context (reference_Decode : bytes → string + Reference) (reference_Encode : string → key → Z → string + bytes).
(** Texts of errors, of the collector's state and of [Config.Delta]. *)
Context (errText : merr → string) (gcText : GCState → string) (deltaText : string).
Implicit Types w : W.

(** * Joining *)

(** [admitNode], on the lease holder. *)
Definition admitNode (fuel : nat) w (r : joinRequest) : W * (merr + View) :=
  match view_of w with
  | None => (w, inl MPanic)
  | Some v =>
      match View_Node v (jr_id r) with
      | Some _ => (w, inr v)
      | None =>
          if tokenUsed v (jr_tokenID r) then (w, inl (MWire CodeUnauthorized "join token already used"))
          else if bool_decide (is_Some (View_Pending v)) || (VoterSync v =? VoterSyncPending)%Z
          then (w, inl (MText "a transition is in progress; retry later"))
          else
            let '(w, e) := if negb (jr_noVote r) then addVoter self order fuel w (jr_id r) else (w, None) in
            match e with
            | Some e => (w, inl (MWrap "voter add" e))
            | None =>
                match proposeTransition self w ("join " +:+ ShortID (jr_id r)) (admitNode_fn r) with
                | (w, inl e) => (w, inl e)
                | (w, inr nv) => (mw_DeleteToken w (jr_tokenID r), inr nv)
                end
            end
      end
  end.

(** The wait for a running transition: [false] is the end of the context, [None] fuel that ran out. *)
Fixpoint join_wait (fuel : nat) w : option (W * bool) :=
  match fuel with
  | O => None
  | S fuel =>
      match view_of w with
      | None => Some (w, false)     (* not reached: the handler saw a view *)
      | Some v =>
          if negb (bool_decide (is_Some (View_Pending v))) && negb (VoterSync v =? VoterSyncPending)%Z then Some (w, true)
          else match mw_sleep w second with
               | (w, false) => Some (w, false)
               | (w, true) => join_wait fuel w
               end
      end
  end.

Definition join_request (remote : NodeID) (m : Msg) (tok : Token) : joinRequest :=
  let joiner := if (length (m_Node m) =? 32)%nat then arr_of 32 (m_Node m) else remote in
  MkJoinRequest joiner (TokenID tokenHash (m_Token m)) (if 0 <? Token_Weight tok then Token_Weight tok else m_Weight m)
    (m_Zone m) (m_Addrs m) (m_NoVote m) (m_Force m).

Definition join_forward (m : Msg) (joiner : NodeID) : Msg :=
  msg0 <| m_Type := TJoin |> <| m_Token := m_Token m |> <| m_Weight := m_Weight m |> <| m_Zone := m_Zone m |>
       <| m_Addrs := m_Addrs m |> <| m_NoVote := m_NoVote m |> <| m_Force := m_Force m |> <| m_Node := arr_bytes joiner |>.

Definition handleJoin (fuel : nat) w (remote : NodeID) (m : Msg) : option (W * Msg) :=
  match view_of w with
  | None => Some (w, ErrMsg CodeUnavailable "no view")
  | Some _ =>
      if negb (length (m_Token m) =? 32)%nat then Some (w, ErrMsg CodeUnauthorized "join needs a 32-byte token")
      else match mw_ReadToken w (TokenID tokenHash (m_Token m)) with
      | (w, inl _) => Some (w, ErrMsg CodeUnauthorized "unknown or used join token")
      | (w, inr tok) =>
          let r := join_request remote m tok in
          '(w, ready) ← join_wait fuel (aw_rememberAddrs w (jr_id r) (m_Addrs m));
          Some (if negb ready then (w, ErrMsg CodeUnavailable "a transition is in progress; retry later")
                else match runAsHolder self cfg admin_rest w (Some (join_forward m (jr_id r))) (λ w, admitNode fuel w r) with
                | (w, inl e) =>
                    (w, match merr_wire e with
                        | Some (code, text) =>
                            if bool_decide (code = CodeUnauthorized) || bool_decide (code = CodeBadRequest) then ErrMsg code text
                            else ErrMsg CodeUnavailable (errText e)
                        | None => ErrMsg CodeUnavailable (errText e)
                        end)
                | (w, inr v) => (w, stampReply (nw_self w) (msg0 <| m_Type := TViewReply |> <| m_View := View.Encode v |>))
                end)
      end
  end.

Definition mkNoVote : bytes := of_string "novote".
Definition mkRegistered (storeID : bytes) : bytes := of_string "registered/" ++ storeID.

(** [Join]: the joiner's side. *)
Definition Join w (storeID : bytes) (seed : NodeID) (seedAddrs : list string) (token : bytes) (weight : N) (zone : string)
    (noVote noRamp : bool) : W * (merr + View) :=
  match view_of w with
  | Some _ => (w, inl (MText "node: already a member"))
  | None =>
      let w := if noVote then upd_self w (λ n, set_db n (snd (Set_key (dn_db n) mkNoVote [x01]))) else w in
      let req := msg0 <| m_Type := TJoin |> <| m_Token := token |> <| m_Weight := weight |> <| m_Zone := zone |>
                   <| m_Addrs := aw_addrs w |> <| m_NoVote := noVote |> <| m_Force := noRamp |> in
      match aw_joinCall w seed seedAddrs req with
      | (w, inl e) => (w, inl (MNet e))
      | (w, inr m) =>
          if negb (m_Type m =? TViewReply)%Z then (w, inl (MNet (NWire (ErrProtocol (m_Type m) TViewReply))))
          else match Decode (m_View m) with
          | inl e => (w, inl (MText e))
          | inr v =>
              let w := nw_adopt w v in
              (upd_self w (λ n, set_db n (snd (Set_key (dn_db n) (mkRegistered storeID) [x01]))), inr v)
          end
      end
  end.

(** * Commands *)

Definition nodeIDOf (b : bytes) : merr + NodeID :=
  if negb (length b =? 32)%nat then inl (MText "node id must be 32 bytes") else inr (arr_of 32 b).

Definition repairTarget w (id : NodeID) : W :=
  if decide (id = self) then w
  else match view_of w with
       | Some v => match View_Node v id with Some _ => aw_targetWiped w id | None => w end
       | None => w
       end.

Definition fwd_of (req : AdminRequest) : Msg := msg0 <| m_Type := TAdmin |> <| m_Params := marshal req |>.

Definition as_node_op (req : AdminRequest) : option node_op :=
  let op := ar_Op req in
  if bool_decide (op = "node-remove") then Some OpRemove
  else if bool_decide (op = "node-drain") then Some OpDrain
  else if bool_decide (op = "node-weight") then Some (OpWeight (ar_Weight req))
  else if bool_decide (op = "node-zone") then Some (OpZone (ar_Zone req))
  else None.

(** The reply of a command that ran as the holder. *)
Definition view_reply (r : W * (merr + View)) (text : View → string) : W * (merr + AdminReply) :=
  match r with
  | (w, inl e) => (w, inl e)
  | (w, inr nv) => (w, inr (AdminReply0 <| ay_View := View.Encode nv |> <| ay_Text := text nv |>))
  end.

Definition ok_reply (text : string) : AdminReply := AdminReply0 <| ay_Text := text |>.

Definition run_holder w (req : AdminRequest) (fn : W → W * (merr + View)) : W * (merr + View) :=
  runAsHolder self cfg admin_rest w (Some (fwd_of req)) fn.

(** The first three members, and this node before them. *)
Definition cluster_ticket w (v : View) : Ticket :=
  let me := match View_Node v self with Some nd => Node_ID nd | None => [] end in
  MkTicket (ClusterID v) (Incarnation v)
    (MkMember me (aw_addrs w) :: ((λ nd, MkMember (Node_ID nd) (Node_Addrs nd)) <$> take 3 (Nodes v))).

Fixpoint set_keeps w (names : list string) : W * option cerr :=
  match names with
  | [] => (w, None)
  | n :: names => match mw_SetKeep w n with (w, Some e) => (w, Some e) | (w, None) => set_keeps w names end
  end.

Definition gc_reply (g : GCState) : AdminReply := AdminReply0 <| ay_GC := marshal g |> <| ay_Text := gcText g |>.

Definition admin_node (fuel : nat) w (req : AdminRequest) : W * (merr + AdminReply) :=
  match nodeIDOf (ar_Node req) with
  | inl e => (w, inl e)
  | inr id =>
      match as_node_op req with
      | None =>     (* node-repair *)
          match match view_of w with Some v => View_Node v id | None => None end with
          | None => (w, inl (MWire CodeBadRequest (ShortID id +:+ " is not a member")))
          | Some _ =>
              let w := repairTarget w id in
              (broadcastCluster self w (msg0 <| m_Type := TViewChanged |> <| m_Node := arr_bytes id |>),
               inr (ok_reply ("repair scheduled: holders will refill " +:+ ShortID id +:+ " within " +:+ deltaText)))
          end
      | Some op =>
          view_reply (run_holder w req (λ w, nodeChange self order fuel w op id (ar_Dead req) (ar_AllowUnsafe req)))
            (λ nv, "transition proposed at epoch " +:+ pretty (Epoch nv))%string
      end
  end.

Definition admin_voter (fuel : nat) w (req : AdminRequest) (add : bool) : W * (merr + AdminReply) :=
  match nodeIDOf (ar_Node req) with
  | inl e => (w, inl e)
  | inr id =>
      view_reply
        (run_holder w req (λ w,
           match (if add then addVoter self order fuel w id else removeVoter self order fuel w id (ar_AllowUnsafe req)) with
           | (w, Some e) => (w, inl e)
           | (w, None) => (w, match view_of w with Some v => inr v | None => inl MPanic end)
           end))
        (λ nv, "voters now " +:+ pretty (length (Voters nv)))%string
  end.

Definition admin_abort w : W * (merr + AdminReply) :=
  match mw_CASView w abort_change with
  | (w, nv, e) =>
      match e with
      | Some (CErr XAbort) | None => (match nv with Some nv => nw_adopt w nv | None => w end, inr (ok_reply "transition aborted"))
      | Some e => (w, inl (MCat e))
      end
  end.

Definition admin_knob w (k : knob) : W * (merr + AdminReply) :=
  match cas_adopt w (knob_change k) with
  | (w, inl e) => (w, inl e)
  | (w, inr _) => (w, inr (ok_reply "ok"))
  end.

Definition admin_gcRun w (req : AdminRequest) : W * (merr + AdminReply) :=
  match run_holder w req (λ w,
    let v := view_of w in
    match mw_gcRun w (ar_Tolerate req) (ar_Garbage req) with
    | (w, Some e) => (w, inl (MCycle e))
    | (w, None) => (w, match v with Some v => inr v | None => inl MPanic end)
    end) with
  | (w, inl e) => (w, inl e)
  | (w, inr _) => let '(w, g, _) := mw_ReadGC w in (w, inr (gc_reply g))
  end.

Definition Admin (fuel : nat) w (req : AdminRequest) : W * (merr + AdminReply) :=
  match view_of w with
  | None => (w, inl (MText "no view"))
  | Some v =>
      let at_op s := bool_decide (ar_Op req = s) in
      if at_op "token-create"%string then
        match mw_CreateToken w (ar_Weight req) with
        | (w, inl e) => (w, inl (MCat e))
        | (w, inr tok) => (w, inr (AdminReply0 <| ay_Token := tok |> <| ay_Text := to_string (hex_encode tok) |>))
        end
      else if at_op "cluster-ticket"%string then (w, inr (AdminReply0 <| ay_Ticket := to_string (Ticket.Encode (cluster_ticket w v)) |>))
      else if at_op "node-remove" || at_op "node-drain" || at_op "node-weight" || at_op "node-zone" || at_op "node-repair" then admin_node fuel w req
      else if at_op "voter-add"%string then admin_voter fuel w req true
      else if at_op "voter-remove"%string then admin_voter fuel w req false
      else if at_op "replicas"%string then
        view_reply (run_holder w req (λ w, proposeTransition self w ("replicas " +:+ pretty (ar_Replicas req)) (replicas_fn (ar_Replicas req))))
          (λ _, "transition proposed"%string)
      else if at_op "transition-status"%string then
        (w, inr (AdminReply0 <| ay_View := View.Encode v |> <| ay_Text := transitionText v |>))
      else if at_op "transition-abort"%string then admin_abort w
      else if at_op "transition-refreeze"%string then view_reply (refreeze self w true) (λ _, "participants re-frozen"%string)
      else if at_op "transition-pause"%string then admin_knob w KPause
      else if at_op "transition-resume"%string then admin_knob w KResume
      else if at_op "rate-cap"%string then admin_knob w (KRateCap (ar_Rate req))
      else if at_op "gc-run"%string then admin_gcRun w req
      else if at_op "gc-status"%string then
        match mw_ReadGC w with
        | (w, _, Some e) => (w, inl (MCat e))
        | (w, g, None) => (w, inr (gc_reply g))
        end
      else if at_op "gc-hold"%string then
        match mw_CASGC w (hold_gc (ar_Pause req)) with
        | (w, _, Some e) => (w, inl (MCat e))
        | (w, _, None) => (w, inr (ok_reply "ok"))
        end
      else if at_op "gc-why"%string then
        if negb (length (ar_Key req) =? 32)%nat then (w, inl (MText "key must be 32 bytes"))
        else match aw_Why w (arr_of 32 (ar_Key req)) with
             | (w, inl e) => (w, inl (MCat e))
             | (w, inr names) => (w, inr (AdminReply0 <| ay_Names := to_string <$> names |>))
             end
      else if at_op "catalog-backup"%string then
        match backupCatalog blake3 self cfg reference_Decode reference_Encode fuel w with
        | (w, inl e) => (w, inl e)
        | (w, inr k) => (w, inr (AdminReply0 <| ay_Key := arr_bytes k |> <| ay_Text := "backup written"%string |>))
        end
      else if at_op "catalog-backups"%string then (w, inr (AdminReply0 <| ay_Names := backupKeys (nw_self w) |>))
      else if at_op "keep"%string then
        match set_keeps w (ar_Names req) with
        | (w, Some e) => (w, inl (MCat e))
        | (w, None) => (w, inr (ok_reply "ok"))
        end
      else (w, inl (MWire CodeBadRequest ("unknown admin op " +:+ ar_Op req)))
  end.

Definition handleAdmin (fuel : nat) w (m : Msg) : W * Msg :=
  match unmarshal (A := AdminRequest) (m_Params m) with
  | inl e => (w, ErrMsg CodeBadRequest e)
  | inr req =>
      match Admin fuel w req with
      | (w, inl e) =>
          (w, match merr_wire e with
              | Some (code, text) => ErrMsg code text
              | None => ErrMsg CodeUnavailable (errText e)
              end)
      | (w, inr reply) => (w, stampReply (nw_self w) (msg0 <| m_Type := TAdminReply |> <| m_Status := marshal reply |>))
      end
  end.
End admin.
