(* ===== verification/MaintainSafety.v ===== *)
(** The theorems of Maintain.v and Admin.v: what has happened when a voter change is
    declared done, that its loops end, backups, the daily pass, joins. *)
From S2P Require Import Prelude Store Placement View Wire Ballot Proposer Catalog Meta Mark Pins GC Transition Data DataSafety Gate NodeNet Maintain Ticket Admin.

Local Open Scope N_scope.

(** * Traces of calls

    What the maintenance code asks of its surroundings and what it is told: other nodes
    act inside the calls, and nothing is assumed of their results. *)

Inductive event :=
  | EvSleep (d : Z) (ok : bool)
  | EvCAS (ch : change) (nv : option View) (e : option cerr)
  | EvInstall (v : View) (ids ok : list NodeID)
  | EvScan (prefix after : bytes) (limit : Z) (r : cerr + list MergedRow * option bytes)
  | EvSettle (reg : bytes) (e : option cerr)
  | EvHandle (m r : Msg)
  | EvCall (to : NodeID) (m : Msg) (r : net_err + Msg)
  | EvAdopt (v : View)
  | EvReach (to : NodeID).

Inductive does {P DB W} `{Net P DB W} `{MaintWorld W} : W → event → W → Prop :=
  | do_sleep w d w' b : mw_sleep w d = (w', b) → does w (EvSleep d b) w'
  | do_cas w ch w' nv e : mw_CASView w ch = (w', nv, e) → does w (EvCAS ch nv e) w'
  | do_install w v ids w' ok : mw_Install w v ids = (w', ok) → does w (EvInstall v ids ok) w'
  | do_scan w p a n w' r : mw_Scan w p a n = (w', r) → does w (EvScan p a n r) w'
  | do_settle w reg w' e : mw_Settle w reg = (w', e) → does w (EvSettle reg e) w'
  | do_handle w m w' r : mw_Handle w m = (w', r) → does w (EvHandle m r) w'
  | do_call w id m w' r : nw_call w id m = (w', r) → does w (EvCall id m r) w'
  | do_adopt w v : does w (EvAdopt v) (nw_adopt w v)
  | do_reach w id w' : w' = markReachable w id ∨ w' = markUnreachable w id → does w (EvReach id) w'.

Inductive trace {P DB W} `{Net P DB W} `{MaintWorld W} : W → list event → W → Prop :=
  | trace_nil w : trace w [] w
  | trace_cons w ev w1 t w2 : does w ev w1 → trace w1 t w2 → trace w (ev :: t) w2.

Lemma trace_app {P DB W} `{Net P DB W} `{MaintWorld W} (w w1 w2 : W) t1 t2 :
  trace w t1 w1 → trace w1 t2 w2 → trace w (t1 ++ t2) w2.
Proof. induction 1; cbn; [done|]. intros. econstructor; eauto. Qed.

Lemma trace_one {P DB W} `{Net P DB W} `{MaintWorld W} (w w1 : W) ev : does w ev w1 → trace w [ev] w1.
Proof. intros. econstructor; [done|constructor]. Qed.

Lemma trace_inv {P DB W} `{Net P DB W} `{MaintWorld W} (w w2 : W) t1 t2 :
  trace w (t1 ++ t2) w2 → ∃ w1, trace w t1 w1 ∧ trace w1 t2 w2.
Proof.
  revert w. induction t1 as [|ev t1 IH]; intros w Ht; [exists w; split; [constructor|done]|]. cbn in Ht.
  inversion_clear Ht as [|? ? w1 ? ? Hd Ht']. destruct (IH _ Ht') as (w3 & ? & ?). exists w3. split; [by econstructor|done].
Qed.

Create HintDb maint.
#[export] Hint Resolve do_sleep do_cas do_install do_scan do_settle do_handle do_call do_adopt do_reach : maint.
#[export] Hint Resolve trace_one trace_nil trace_cons : maint.

Section voter_sync.
Context (self : NodeID) {P DB W : Type} `{PackStore P} `{KVStore DB} `{Codec View} `{Net P DB W} `{MaintWorld W}.
Context (order : list NodeID → list NodeID).
Implicit Types w : W.

(** ** What a trace shows *)

(** Every register behind [after], the view's own apart, lies in the range of a page
    that the scan answered, and was settled afterwards when that page listed it. *)
Definition synced (after : bytes) (t : list event) : Prop :=
  ∀ reg, bytes_lt after reg → reg ≠ RegView →
    ∃ ta a rows next tb, t = ta ++ EvScan [] a 500 (inr (rows, next)) :: tb ∧
      bytes_lt a reg ∧ match next with None => True | Some c => bytes_le reg c end ∧
      (reg ∈ mr_Reg <$> rows → EvSettle reg None ∈ tb).

(** The node was sent its marker and took it. *)
Definition marker_taken (t : list event) (target : NodeID) (since : N) : Prop :=
  ∃ m r, m_Type m = TMarker ∧ m_Since m = since ∧ m_Type r = TOK ∧
    (EvCall target m (inr r) ∈ t ∨ target = self ∧ EvHandle m r ∈ t).

(** ** The parts *)

Lemma cas_adopt_trace w ch : ∃ t, trace w t (fst (cas_adopt w ch)).
Proof.
  unfold cas_adopt. destruct (mw_CASView w ch) as [[w1 [nv|]] [e|]] eqn:E; cbn [fst]; eauto with maint.
Qed.

Lemma stampReq_marker (n : dnode P DB) since : m_Type (stampReq n (msg0 <| m_Type := TMarker |> <| m_Since := since |>)) = TMarker ∧
  m_Since (stampReq n (msg0 <| m_Type := TMarker |> <| m_Since := since |>)) = since.
Proof. unfold stampReq. by destruct (dn_view n). Qed.

Lemma Node_Call_trace w to m w' r : Node_Call self w to m = (w', r) →
  ∃ t, trace w t w' ∧ ∀ resp, r = inr resp → m_Type resp = TOK →
    EvCall to m (inr resp) ∈ t ∨ to = self ∧ EvHandle m resp ∈ t.
Proof.
  unfold Node_Call. destruct (decide _) as [->|_].
  - destruct (mw_Handle w m) as [w1 r1] eqn:E. intros [= <- <-]. exists [EvHandle m r1]. split; [by eauto with maint|].
    intros ? [= <-] _. right. split; [done|left].
  - destruct (nw_call w to m) as [w1 [e|r1]] eqn:E.
    + destruct (net_AsError e); intros [= <- <-].
      * exists [EvCall to m (inl e)]. split; [by eauto with maint|]. intros ? [= <-]. done.
      * exists [EvCall to m (inl e); EvReach to]. split; [|done]. econstructor; [by eauto with maint|]. apply trace_one. by apply do_reach; right.
    + intros [= <- <-]. exists [EvCall to m (inr r1); EvReach to]. split; [econstructor; [by eauto with maint|]; apply trace_one; by apply do_reach; left|].
      intros ? [= <-] _. left. left.
Qed.

(** Counting the old voters that installed counts each once, when they are distinct. *)
Lemma count_id (id : NodeID) (l : list NodeID) : NoDup l → length (filter (λ o, o = id) l) = if decide (id ∈ l) then 1%nat else 0%nat.
Proof.
  induction 1 as [|o l Hl _ IH]; [done|]. rewrite filter_cons. destruct (decide (o = id)) as [->|Ho].
  - cbn [length]. rewrite IH, decide_False by done. by rewrite decide_True by set_solver.
  - rewrite IH. apply decide_ext. set_solver.
Qed.

Lemma installed_old_spec (ok old : list NodeID) : NoDup old → installed_old ok old = length (filter (λ id, id ∈ old) ok).
Proof.
  intros Hn. unfold installed_old. induction ok as [|id ok IH]; [done|].
  trans (length (filter (λ o, o = id) old) + sum_list ((λ id, length (filter (λ o, o = id) old)) <$> ok))%nat; [reflexivity|].
  rewrite IH, count_id, filter_cons by done. by destruct (decide (id ∈ old)).
Qed.

Lemma installed_majority (ok old : list NodeID) : NoDup old → NoDup ok → (length old / 2 + 1 ≤ installed_old ok old)%nat →
  ∃ q, NoDup q ∧ q ⊆ old ∧ q ⊆ ok ∧ (length old / 2 + 1 ≤ length q)%nat.
Proof.
  intros Ho Hk Hm. exists (filter (λ id, id ∈ old) ok). rewrite installed_old_spec in Hm by done.
  split_and!; [by apply NoDup_filter|intros x [? _]%list_elem_of_filter; done|intros x [_ ?]%list_elem_of_filter; done|done].
Qed.

Lemma install_loop_spec fuel w v ids old deadline w' : install_loop fuel w v ids old deadline = (w', None) →
  ∃ t ok, trace w (t ++ [EvInstall v ids ok]) w' ∧ (length old / 2 + 1 ≤ installed_old ok old)%nat.
Proof.
  revert w. induction fuel as [|fuel IH]; intros w; [done|]. cbn [install_loop].
  destruct (mw_Install w v ids) as [w1 ok] eqn:E.
  destruct (Nat.leb_spec (length old / 2 + 1) (installed_old ok old)) as [Hq|_].
  - intros [= <-]. exists [], ok. split; [by eauto with maint|done].
  - destruct (deadline <? _)%Z; [done|]. destruct (mw_sleep w1 second) as [w2 [|]] eqn:Es; [|done].
    intros Hl. destruct (IH _ Hl) as (t & ok' & Ht & Hq). exists (EvInstall v ids ok :: EvSleep second true :: t), ok'.
    split; [|done]. cbn. eauto with maint.
Qed.

Lemma settle_loop_spec more w reg w' : settle_loop more w reg = (w', None) → ∃ t, trace w t w' ∧ EvSettle reg None ∈ t.
Proof.
  revert w. induction more as [|more IH]; intros w; cbn [settle_loop]; destruct (mw_Settle w reg) as [w1 [e|]] eqn:E; try done;
    try (intros [= <-]; exists [EvSettle reg None]; split; [by eauto with maint|left]).
  destruct (mw_sleep w1 _) as [w2 [|]] eqn:Es; [|done]. intros Hl. destruct (IH w2 Hl) as (t & Ht & Hs).
  eexists (EvSettle reg (Some e) :: EvSleep _ true :: t). split; [by eauto with maint|]. by do 2 right.
Qed.

Lemma settle_rows_spec rows w w' : settle_rows w rows = (w', None) →
  ∃ t, trace w t w' ∧ ∀ reg, reg ∈ mr_Reg <$> rows → reg ≠ RegView → EvSettle reg None ∈ t.
Proof.
  revert w. induction rows as [|r rows IH]; intros w; cbn [settle_rows]; [intros [= <-]; exists []; split; [by eauto with maint|set_solver]|].
  destruct (decide _) as [Er|Er].
  - intros Hl. destruct (IH w Hl) as (t & Ht & Hs). exists t. split; [done|]. intros reg. cbn. intros [->|Hr]%elem_of_cons; [done|]. by apply Hs.
  - destruct (settle_loop 21 w (mr_Reg r)) as [w1 [e|]] eqn:E; [done|]. destruct (settle_loop_spec _ _ _ _ E) as (t1 & T1 & S1).
    intros Hl. destruct (IH w1 Hl) as (t2 & T2 & S2). exists (t1 ++ t2). split; [by eapply trace_app|].
    intros reg. cbn. rewrite elem_of_app. intros [->|Hr]%elem_of_cons Hn; [by left|right; by apply S2].
Qed.

(** The pages of the scan follow on one another, from the cursor to the end. *)
Lemma sync_loop_spec fuel w after w' : sync_loop fuel w after = (w', None) → ∃ t, trace w t w' ∧ synced after t.
Proof.
  revert w after. induction fuel as [|fuel IH]; intros w after; [done|]. cbn [sync_loop].
  destruct (mw_Scan w [] after 500) as [w1 [e|[rows next]]] eqn:E; [done|].
  destruct (settle_rows w1 rows) as [w2 [e|]] eqn:Er; [done|]. destruct (settle_rows_spec rows w1 w2 Er) as (t2 & T2 & S2).
  destruct next as [c|].
  - destruct (cas_adopt_trace w2 (syncCursor_change c)) as [t3 T3]. intros Hl. destruct (IH _ _ Hl) as (t4 & T4 & S4).
    exists (EvScan [] after 500 (inr (rows, Some c)) :: t2 ++ t3 ++ t4). split.
    + econstructor; [by eauto with maint|]. eapply trace_app; [done|]. by eapply trace_app.
    + intros reg Ha Hn. destruct (decide (bytes_le reg c)) as [Hc|Hc%(cmp_nle_lt bytes_compare)].
      * exists [], after, rows, (Some c), (t2 ++ t3 ++ t4). split_and!; [done|done|done|]. intros Hr. apply elem_of_app. left. by apply S2.
      * destruct (S4 reg Hc Hn) as (ta & a & rows' & nx & tb & -> & Ha' & Hx & Hs).
        exists (EvScan [] after 500 (inr (rows, Some c)) :: t2 ++ t3 ++ ta), a, rows', nx, tb. split_and!; try done.
        cbn. f_equal. by rewrite <- !app_assoc.
  - intros [= <-]. exists (EvScan [] after 500 (inr (rows, None)) :: t2). split; [by eauto with maint|].
    intros reg Ha Hn. exists [], after, rows, None, t2. split_and!; try done. intros Hr. by apply S2.
Qed.

Lemma marker_loop_spec fuel w target since deadline w' : marker_loop self fuel w target since deadline = (w', None) →
  ∃ t, trace w t w' ∧ marker_taken t target since.
Proof.
  revert w. induction fuel as [|fuel IH]; intros w; [done|]. cbn [marker_loop].
  destruct (Node_Call self w target (marker_req w since)) as [w1 resp] eqn:E. destruct (Node_Call_trace _ _ _ _ _ E) as (t & Ht & Hm).
  destruct (match resp with inl _ => _ | inr _ => _ end) eqn:Et.
  - intros [= <-]. exists t. split; [done|]. destruct resp as [e|m]; [done|]. destruct (stampReq_marker (nw_self w) since) as [? ?].
    exists (marker_req w since), m. split_and!; [done|done|lia|]. apply Hm; [done|lia].
  - destruct (deadline <? _)%Z; [done|]. destruct (mw_sleep w1 second) as [w2 [|]] eqn:Es; [|done].
    intros Hl. destruct (IH _ Hl) as (t2 & T2 & m & r & M1 & M2 & M3 & M4). exists (t ++ EvSleep second true :: t2).
    split; [eapply trace_app; [done|]; by eauto with maint|]. exists m, r. split_and!; try done.
    destruct M4 as [M4|[-> M4]]; [left|right; split; [done|]]; apply elem_of_app; right; by right.
Qed.

Lemma broadcast_trace w m : ∃ t, trace w t (broadcastCluster self w m).
Proof.
  unfold broadcastCluster. destruct (view_of w) as [v|]; [|by eauto with maint]. generalize (AllMembers v). intros l. revert w.
  induction l as [|id l IH]; intros w; cbn [fold_left]; [by eauto with maint|]. destruct (decide _); [apply IH|].
  destruct (nw_call w id _) as [w1 r] eqn:E. destruct (IH w1) as [t Ht]. eauto with maint.
Qed.

(** C27 A voter change is declared done only after its sync.  When [finishVoterSync]
    returns without error from a view with a pending change, its calls were, in this
    order: an install of that view that a majority of the old voters confirmed, by the
    code's count, which is one of distinct nodes when the old voters and the answers are
    distinct ([deferred_voter_added_twice] shows a view where the voters are not); a scan
    whose pages cover every register behind the cursor without a gap, with every register
    a page listed, the view's own apart, settled successfully after it; for an added
    voter, a marker that it acknowledged; and only then the change of the view to done.
    Nothing is assumed of the calls: that an install, a scan or a settle keeps what it
    answers is the business of the acceptors and the proposer. *)
Theorem voter_sync_complete fuel w oldVoters w' v :
  finishVoterSync self order fuel w oldVoters = (w', None) → view_of w = Some v → VoterSync v = VoterSyncPending →
  ∃ t1 ok w1 v1 t2 w2 t3 w3 w4 nv t4,
    trace w (t1 ++ [EvInstall v (order (remove_dups (oldVoters ++ VoterIDs v))) ok]) w1 ∧
    (length oldVoters / 2 + 1 ≤ installed_old ok oldVoters)%nat ∧
    (NoDup oldVoters → NoDup ok →
       ∃ q, NoDup q ∧ q ⊆ oldVoters ∧ q ⊆ ok ∧ (length oldVoters / 2 + 1 ≤ length q)%nat) ∧
    view_of w1 = Some v1 ∧ trace w1 t2 w2 ∧ synced (VoterSyncCursor v1) t2 ∧
    trace w2 t3 w3 ∧
    (VoterSyncAdd v = true → marker_taken t3 (arr_of 32 (VoterSyncTarget v)) (since_of v (arr_of 32 (VoterSyncTarget v)))) ∧
    mw_CASView w3 syncDone_change = (w4, Some nv, None) ∧ trace w4 t4 w'.
Proof.
  intros Hf Hv Hs. unfold finishVoterSync in Hf. rewrite Hv, Hs in Hf. cbn [negb Z.eqb] in Hf.
  set (target := arr_of 32 _) in *. set (ids := order _) in *.
  destruct (install_loop fuel w v ids oldVoters _) as [w1 [e|]] eqn:E1; [done|].
  destruct (install_loop_spec _ _ _ _ _ _ _ E1) as (t1 & ok & T1 & Hq).
  destruct (syncRegisters fuel w1) as [w2 [e|]] eqn:E2; [done|]. unfold syncRegisters in E2.
  destruct (view_of w1) as [v1|] eqn:Hv1; [|done]. destruct (sync_loop_spec _ _ _ _ E2) as (t2 & T2 & S2).
  destruct (if VoterSyncAdd v then _ else _) as [w3 [e|]] eqn:E3; [done|].
  assert (∃ t, trace w2 t w3 ∧ (VoterSyncAdd v = true → marker_taken t target (since_of v target))) as (t3 & T3 & M3).
  { destruct (VoterSyncAdd v); [|injection E3 as <-; exists []; by split; [constructor|]].
    apply marker_loop_spec in E3 as (t & ? & ?). by exists t. }
  unfold cas_adopt in Hf. destruct (mw_CASView w3 syncDone_change) as [[w4 [nv|]] [e|]] eqn:E4; try done.
  injection Hf as <-. destruct (mw_Install (nw_adopt w4 nv) nv ids) as [w5 ok5] eqn:E5. cbn [fst].
  destruct (broadcast_trace w5 (viewChanged nv)) as [t4 T4].
  exists t1, ok, w1, v1, t2, w2, t3, w3, w4, nv, (EvAdopt nv :: EvInstall nv ids ok5 :: t4).
  split_and!; try done; [intros; by apply installed_majority|by eauto with maint].
Qed.

(** ** The loops end

    A loop with a deadline sleeps a second before each further turn; the clock does not
    go back, and the cursor of a page lies behind the page's start. *)

Context (clock : ∀ w ev w', does w ev w' → (nw_now w ≤ nw_now w')%Z)
  (sleeps : ∀ w d w', mw_sleep w d = (w', true) → (nw_now w + d ≤ nw_now w')%Z)
  (pages : ∀ w p after n w' rows c, mw_Scan w p after n = (w', inr (rows, Some c)) → bytes_lt after c).

Lemma trace_now w t w' : trace w t w' → (nw_now w ≤ nw_now w')%Z.
Proof. induction 1 as [|x ev y t z Hs _ IH]; [done|]. pose proof (clock x ev y Hs). lia. Qed.

Lemma install_loop_ends fuel w v ids old deadline : (deadline < nw_now w + Z.of_nat fuel * second)%Z →
  (install_loop (S fuel) w v ids old deadline).2 ≠ Some MFuel.
Proof.
  revert w. induction fuel as [|fuel IH]; intros w Hd; cbn [install_loop];
    destruct (mw_Install w v ids) as [w1 ok] eqn:E; pose proof (clock _ _ _ (do_install _ _ _ _ _ E)) as Q1;
    (destruct (_ <=? _)%nat; [done|]); (destruct (Z.ltb_spec deadline (nw_now w1)); [done|]); [unfold second in Hd; lia|].
  destruct (mw_sleep w1 second) as [w2 [|]] eqn:Es; [|done]. pose proof (sleeps w1 second w2 Es). apply IH. lia.
Qed.

Lemma marker_loop_ends fuel w target since deadline : (deadline < nw_now w + Z.of_nat fuel * second)%Z →
  (marker_loop self (S fuel) w target since deadline).2 ≠ Some MFuel.
Proof.
  revert w. induction fuel as [|fuel IH]; intros w Hd; cbn [marker_loop];
    destruct (Node_Call self w target _) as [w1 resp] eqn:E; destruct (Node_Call_trace _ _ _ _ _ E) as (? & Q1%trace_now & _);
    (destruct (match resp with inl _ => _ | inr _ => _ end); [done|]); (destruct (Z.ltb_spec deadline (nw_now w1)); [done|]);
    [unfold second in Hd; lia|].
  destruct (mw_sleep w1 second) as [w2 [|]] eqn:Es; [|done]. pose proof (sleeps w1 second w2 Es). apply IH. lia.
Qed.

Lemma settle_loop_ends more w reg : (settle_loop more w reg).2 ≠ Some MFuel.
Proof.
  revert w. induction more as [|more IH]; intros w; cbn [settle_loop]; destruct (mw_Settle w reg) as [w1 [e|]]; try done.
  destruct (mw_sleep w1 _) as [w2 [|]]; [apply IH|done].
Qed.

Lemma settle_rows_ends rows w : (settle_rows w rows).2 ≠ Some MFuel.
Proof.
  revert w. induction rows as [|r rows IH]; intros w; cbn [settle_rows]; [done|]. destruct (decide _); [apply IH|].
  pose proof (settle_loop_ends 21 w (mr_Reg r)) as Hl. destruct (settle_loop 21 w (mr_Reg r)) as [w1 [e|]]; [done|]. apply IH.
Qed.

(** The names at which pages end are of the set [U]. *)
Context (U : gset bytes) (HU : ∀ w after n w' rows c, mw_Scan w [] after n = (w', inr (rows, Some c)) → c ∈ U).

Lemma sync_loop_ends fuel w after : (size (filter (bytes_lt after) U) < fuel)%nat → (sync_loop fuel w after).2 ≠ Some MFuel.
Proof.
  revert w after. induction fuel as [|fuel IH]; intros w after Hs; [lia|]. cbn [sync_loop].
  destruct (mw_Scan w [] after 500) as [w1 [e|[rows next]]] eqn:E; [done|].
  pose proof (settle_rows_ends rows w1) as Hr. destruct (settle_rows w1 rows) as [w2 [e|]]; [done|].
  destruct next as [c|]; [|done]. apply IH. pose proof (HU _ _ _ _ _ _ E) as Hc. pose proof (pages _ _ _ _ _ _ _ E) as Hlt.
  apply Nat.lt_le_trans with (size (filter (bytes_lt after) U)); [|lia]. apply subset_size.
  split; [intros x; rewrite !elem_of_filter; intros [? ?]; split; [by trans c|done]|].
  intros Hsub. assert (c ∈ filter (bytes_lt c) U) as [Hcc _]%elem_of_filter by (apply Hsub, elem_of_filter; done).
  by apply (cmp_lt_irrefl bytes_compare) in Hcc.
Qed.

(** However the network behaves, the sync of a voter change comes to an end: its two
    waits by their deadlines, the pass over the registers by the number of pages. *)
Theorem voter_sync_ends fuel w oldVoters : (121 < fuel)%nat → (size U < fuel)%nat →
  (finishVoterSync self order fuel w oldVoters).2 ≠ Some MFuel.
Proof.
  intros Hf Hu. unfold finishVoterSync. destruct (view_of w) as [v|] eqn:Hv; [|done]. destruct (negb _); [done|].
  destruct fuel as [|fuel]; [lia|].
  pose proof (install_loop_ends fuel w v (order (remove_dups (oldVoters ++ VoterIDs v))) oldVoters (nw_now w + 2 * minute)) as Q1.
  destruct (install_loop _ _ _ _ _ _) as [w1 [e|]]; [apply Q1; unfold minute, second; lia|]. unfold syncRegisters.
  destruct (view_of w1) as [v1|]; [|done].
  pose proof (sync_loop_ends (S fuel) w1 (VoterSyncCursor v1)) as Q2.
  assert (size (filter (bytes_lt (VoterSyncCursor v1)) U) ≤ size U)%nat by (apply subseteq_size; set_solver).
  destruct (sync_loop _ _ _) as [w2 [e|]]; [apply Q2; lia|].
  pose proof (marker_loop_ends fuel w2 (arr_of 32 (VoterSyncTarget v)) (since_of v (arr_of 32 (VoterSyncTarget v))) (nw_now w2 + minute)) as Q3.
  destruct (VoterSyncAdd v); cbn [fst snd]; [destruct (marker_loop _ _ _ _ _ _) as [w3 [e|]]; [apply Q3; unfold minute, second; lia|]|];
    destruct (cas_adopt _ _) as [w4 [e|nv]] eqn:Ec; try done;
    (unfold cas_adopt in Ec; destruct (mw_CASView _ _) as [[w5 [nv|]] [e'|]]; by simplify_eq).
Qed.
End voter_sync.

(** * Seeding *)

Section seeding.
Context (self : NodeID) {P DB W : Type} `{PackStore P} `{KVStore DB} `{Codec View} `{Net P DB W} `{MaintWorld W}.
Implicit Types w : W.

Lemma stampReq_type (n : dnode P DB) m : m_Type (stampReq n m) = m_Type m.
Proof. unfold stampReq. by destruct (dn_view n). Qed.

(** The nodes refuse every row they are sent and take their markers. *)
Definition refuses_seeds (ids : list NodeID) : Prop :=
  ∀ w id m, id ∈ ids →
    (m_Type m = TSeed → ∃ w' e we, nw_call w id m = (w', inl e) ∧ net_AsError e = Some we) ∧
    (m_Type m = TMarker → ∃ w' r, nw_call w id m = (w', inr r) ∧ m_Type r = TOK).

Lemma seed_slices_refused ids w id slices : refuses_seeds ids → id ∈ ids → id ≠ self →
  ∃ w', seed_slices self w id slices = (w', None).
Proof.
  intros Hr Hi Hs. revert w. induction slices as [|rows slices IH]; intros w; [by exists w|]. cbn [seed_slices].
  set (req := stampReq _ _). destruct (proj1 (Hr w id req Hi)) as (w1 & e & we & Ec & Ee); [apply stampReq_type|].
  unfold Node_Call. rewrite decide_False, Ec, Ee by done. apply IH.
Qed.

(** A voter that refuses its seed is taken for a seeded one: an error frame is a
    reply, and the loop that copies the rows of the single acceptor looks only at errors
    of the call.  With new voters that refuse every row but take their markers it ends
    without an error, and they are voters from then on, without the registers. *)
Theorem refused_seed_ignored w newEpoch rows ids :
  refuses_seeds ids → self ∉ ids → ∃ w', seed_voters self w newEpoch rows ids = (w', None).
Proof.
  intros Hr Hs. assert (ids ⊆ ids) as Hsub by done. revert Hsub. generalize ids at 1 3. intros l. revert w.
  induction l as [|id l IH]; intros w Hsub; [by exists w|]. cbn [seed_voters].
  assert (id ∈ ids) as Hi by set_solver. assert (id ≠ self) as Hne by set_solver.
  destruct (seed_slices_refused ids w id (row_slices (length rows) 2000 rows) Hr Hi Hne) as (w1 & ->).
  destruct (proj2 (Hr w1 id (marker_req w1 newEpoch) Hi)) as (w2 & r & Ec & Et); [apply stampReq_type|].
  destruct (Node_Call self w1 id (marker_req w1 newEpoch)) as [w3 r3] eqn:En.
  assert (r3 = inr r) as ->. { unfold Node_Call in En. rewrite decide_False, Ec in En by done. by injection En as _ <-. }
  rewrite Et. cbn [negb Z.eqb]. apply IH. set_solver.
Qed.
End seeding.

(** * Joins and forwarding *)

Section joins.
Context (tokenHash : bytes → bytes) {P DB W : Type} `{PackStore P} `{KVStore DB} `{Codec View} `{Net P DB W} `{MaintWorld W}.
Context `{Codec AdminRequest} `{Codec AdminReply}.
Context (self : NodeID) (cfg : mconfig) (order : list NodeID → list NodeID) (admin_rest : bytes → AdminRequest).
Implicit Types w : W.

(** What a join cut off behind its voter change leaves: a voter that is no member, with
    its token unused and nothing under way. *)
Definition half_joined (v : View) (r : joinRequest) : Prop :=
  IsVoter v (jr_id r) = true ∧ View_Node v (jr_id r) = None ∧ tokenUsed v (jr_tokenID r) = false ∧
  View_Pending v = None ∧ VoterSync v ≠ VoterSyncPending.

(** C40 A join that was cut off after its voter change cannot be completed as it was asked
    for: while the node is a voter and not a member, its token is unused and nothing is
    under way, a request that asks for a vote stops at the voter change, which refuses a
    node that is a voter already, and changes nothing; only a request without a vote goes
    on to the proposal of the transition, and on its success the token is deleted. *)
Theorem interrupted_join_stuck fuel w r v : view_of w = Some v → half_joined v r →
  admitNode self order fuel w r =
    if jr_noVote r then
      match proposeTransition self w ("join " +:+ ShortID (jr_id r)) (admitNode_fn r) with
      | (w, inl e) => (w, inl e)
      | (w, inr nv) => (mw_DeleteToken w (jr_tokenID r), inr nv)
      end
    else (w, inl (MWrap "voter add" (MText "already a voter"))).
Proof.
  intros Hv (Hvo & Hn & Ht & Hp & Hs). unfold admitNode. rewrite Hv, Hn, Ht, Hp, bool_decide_eq_false_2 by (by intros [? ?]).
  destruct (Z.eqb_spec (VoterSync v) VoterSyncPending); [done|]. destruct (jr_noVote r); cbn [orb negb]; [done|].
  unfold addVoter. by rewrite Hv, Hvo.
Qed.

(** A request that was forwarded is forwarded again by a node that is not the holder:
    the mark of the first hop is in the request, and nothing reads it. *)
Theorem forwarded_again w req fn w1 lease :
  isHolder w = false → mw_AcquireLease w self (mc_Lease cfg) = (w1, false, lease, None) → length (Holder lease) = 32%nat →
  run_holder self cfg admin_rest w (req <| ar_Forwarded := true |>) fn =
    forward admin_rest w1 (arr_of 32 (Holder lease)) (fwd_of (req <| ar_Forwarded := true |>)).
Proof. intros Hh Ha Hl. unfold run_holder, runAsHolder. by rewrite Hh, Ha, Hl. Qed.

(** The holder's turn leaves the count of running activities as it found it. *)
Theorem busy_restored w (fn : W → W * (merr + View)) :
  (∀ w m, mw_get (mw_set w m) = m) → (∀ w, mt_busy (mw_get (fn w).1) = mt_busy (mw_get w)) →
  mt_busy (mw_get (as_holder w fn).1) = mt_busy (mw_get w).
Proof.
  intros Hg Hf. unfold as_holder, upd_maint. pose proof (Hf (mw_set w (mw_get w <| mt_busy := (mt_busy (mw_get w) + 1)%Z |>))) as Hb.
  destruct (fn _) as [w1 r]. cbn [fst] in *. rewrite Hg in Hb |- *. destruct (mw_get w), (mw_get w1). cbn in *. lia.
Qed.

(** A step from one voter to three that is cut off is not resumed: its view says that
    the voters are in sync, so the coordinator has no sync to resume. *)
Theorem voters3_not_resumed newIDs now v nv bump :
  voters3_change newIDs now v = inr (nv, bump) → coordinate_plan (next_view v nv bump) ≠ DutyVoterSync.
Proof.
  unfold voters3_change. case_bool_decide; [|done]. cbn [negb]. intros [= <- <-]. unfold coordinate_plan, next_view. cbn.
  by repeat case_match.
Qed.
End joins.

(** * Backups *)

Section backups.
Context (blake3 : bytes → nat → bytes) `{Core} {P DB W : Type} `{PackStore P} `{KVStore DB} `{Codec View} `{Net P DB W}.
Context `{RefWorld W} `{MaintWorld W} `{Codec (list backupEntry)} (self : NodeID) (cfg : mconfig).
Context (reference_Decode : bytes → string + Reference) (reference_Encode : string → key → Z → string + bytes).
Implicit Types w : W.

(** The references written one by one, each by a forced write that succeeded. *)
Inductive written : W → list (bytes * bytes) → W → Prop :=
  | written_nil w : written w [] w
  | written_cons w name rec w1 version l w2 :
      rw_RefPut w name rec (MkCond None false None false true) 0 (keyOfRecord reference_Decode) = (w1, version, None) →
      written w1 l w2 → written w ((name, rec) :: l) w2.

(** What a backup of a listing holds: every reference but the backup's own, with its record. *)
Definition backed_up (refs : list RefEntry) : list (bytes * bytes) :=
  filter (λ nr, nr.1 ≠ BackupName) ((λ e, (re_Name e, Record_ (re_Value e))) <$> refs).

Lemma backup_pairs refs : (λ e, (be_Name e, be_Record e)) <$> backup_entries refs = backed_up refs.
Proof.
  unfold backup_entries, backed_up. rewrite <- list_fmap_compose. induction refs as [|e refs IH]; [done|].
  rewrite !fmap_cons, !filter_cons. cbn [fst]. destruct (decide _); [rewrite fmap_cons; by f_equal|done].
Qed.

Lemma restore_entries_spec entries w n w' n' err :
  restore_entries reference_Decode w entries n = (w', n', err) →
  ∃ done_ rest wr, (λ e, (be_Name e, be_Record e)) <$> entries = done_ ++ rest ∧ n' = (n + Z.of_nat (length done_))%Z ∧
    written w done_ wr ∧
    match err with
    | None => rest = [] ∧ w' = wr
    | Some _ => ∃ name rec rest' version ce, rest = (name, rec) :: rest' ∧
        rw_RefPut wr name rec (MkCond None false None false true) 0 (keyOfRecord reference_Decode) = (w', version, Some ce)
    end.
Proof.
  revert w n. induction entries as [|e entries IH]; intros w n; cbn [restore_entries].
  - intros [= <- <- <-]. exists [], [], w. split_and!; [done|cbn; lia|constructor|done|done].
  - destruct (rw_RefPut w (be_Name e) (be_Record e) _ 0 _) as [[w1 ver] [er|]] eqn:Ep.
    + intros [= <- <- <-]. eexists [], _, w. split_and!; [done|cbn; lia|constructor|]. by eauto 10.
    + intros Hr. destruct (IH _ _ Hr) as (dn & rest & wr & Hl & -> & Hw & He).
      exists ((be_Name e, be_Record e) :: dn), rest, wr. split_and!; [by rewrite fmap_cons, Hl|cbn; lia|by econstructor|done].
Qed.

(** C39 A backup restores what it was taken of.  When [backupCatalog] succeeds, the object
    it put into the store under its key is made of the references it listed, every one but
    the backup's own; and restoring that object writes exactly those references with
    their records, in that order, each by a forced write.  It reports how many writes
    succeeded, all of them when it succeeds, followed by the collector's change; when it
    fails, the write after those was answered with an error.  What a listing shows and
    whether a write that was answered with an error took effect are the catalog's
    business: nothing is assumed of either, nor of writers at the same time. *)
Theorem backup_restores fuel w w1 k :
  backupCatalog blake3 self cfg reference_Decode reference_Encode fuel w = (w1, inr k) →
  ∃ wa refs wb data, rw_RefsSnapshot w = (wa, inr refs) ∧
    key_New Blob (N.of_nat (length data)) data = inr k ∧ mw_storePut wa k data = (wb, None) ∧
    ∀ w2 w3 n err, RestoreCatalog reference_Decode w2 data = (w3, n, err) →
      ∃ done_ rest wr, backed_up refs = done_ ++ rest ∧ n = Z.of_nat (length done_) ∧ written w2 done_ wr ∧
        match err with
        | None => rest = [] ∧ w3 = (mw_CASGC wr restore_gc).1.1
        | Some _ => ∃ name rec rest' version ce, rest = (name, rec) :: rest' ∧
            rw_RefPut wr name rec (MkCond None false None false true) 0 (keyOfRecord reference_Decode) = (w3, version, Some ce)
        end.
Proof.
  unfold backupCatalog. destruct (rw_RefsSnapshot w) as [wa [e|refs]] eqn:Es; [done|]. set (data := marshal _).
  destruct (key_New Blob _ data) as [e|k'] eqn:Ek; [done|]. destruct (mw_storePut wa k' data) as [wb [e|]] eqn:Ep; [done|].
  destruct (ps_GetRecord _ k') as [e|rec]; [done|]. cbv zeta. destruct (reference_Encode _ k' _) as [e|enc]; [done|].
  destruct (RefPutLocal _ _ _ _ _ _ _ _) as [[wc [e|ver]]|]; [done| |done]. intros [= _ <-].
  exists wa, refs, wb, data. split_and!; [done|done|done|].
  intros w2 w3 n err Hr. unfold RestoreCatalog, data in Hr. rewrite unmarshal_marshal in Hr.
  destruct (restore_entries reference_Decode w2 (backup_entries refs) 0) as [[w4 n4] err4] eqn:Ere.
  destruct (restore_entries_spec _ _ _ _ _ _ Ere) as (dn & rest & wr & Hl & -> & Hw & He). rewrite backup_pairs in Hl.
  exists dn, rest, wr. destruct err4 as [e4|]; injection Hr as <- <- <-; split_and!; try done; destruct He as [-> ->]; done.
Qed.
End backups.

(** * The daily pass *)

Section daily.
Context {P DB W : Type} `{PackStore P} `{KVStore DB} `{Codec View} `{Net P DB W} `{RefWorld W} `{MaintWorld W} `{Codec RefValue}.
Implicit Types w : W.

(** What the pass may do: scan, purge a tombstone it scanned that was deleted a day
    before, list the tokens, delete one that is a week old or was used. *)
Inductive daily_step (v : View) (start : Z) : W → W → Prop :=
  | ds_scan w after w' r : mw_Scan w PrefixRef after 5000 = (w', r) → daily_step v start w w'
  | ds_purge w0 after w1 rows next r rv w :
      mw_Scan w0 PrefixRef after 5000 = (w1, inr (rows, next)) → r ∈ rows →
      row_HasValue (mr_Row r) = true → DecodeRef (row_Value (mr_Row r)) = inr rv →
      Record_ rv = [] → (DeletedAt rv ≤ start - 24 * hour)%Z →
      daily_step v start w (rw_TryPurge w (drop (length PrefixRef) (mr_Reg r)) (row_Accepted (mr_Row r)))
  | ds_list w w' r : mw_ListTokens w = (w', r) → daily_step v start w w'
  | ds_delete w0 w1 tokens id t w :
      mw_ListTokens w0 = (w1, inr tokens) → tokens !! id = Some t →
      (CreatedAt t < nw_now w1 - 7 * 24 * hour)%Z ∨ tokenUsed v id = true →
      daily_step v start w (mw_DeleteToken w id).

Lemma old_tombstone_spec day r : old_tombstone day r = true →
  row_HasValue (mr_Row r) = true ∧ ∃ rv, DecodeRef (row_Value (mr_Row r)) = inr rv ∧ Record_ rv = [] ∧ (DeletedAt rv ≤ day)%Z.
Proof.
  unfold old_tombstone, IsTombstone. intros [Hv Ht]%andb_prop. split; [done|]. destruct (DecodeRef _) as [e|rv]; [done|]. exists rv.
  apply andb_prop in Ht as [Hr Hd]. split_and!; [done| |].
  - apply nil_length_inv. by apply Nat.eqb_eq.
  - destruct (Z.ltb_spec day (DeletedAt rv)); [done|lia].
Qed.

Lemma purge_rows_steps v start w0 after w1 rows next todo w :
  mw_Scan w0 PrefixRef after 5000 = (w1, inr (rows, next)) → todo ⊆ rows →
  rtc (daily_step v start) w (purge_rows w (start - 24 * hour) todo).
Proof.
  intros Hs. unfold purge_rows. revert w. induction todo as [|r todo IH]; intros w Hsub; [reflexivity|]. cbn [fold_left].
  destruct (old_tombstone _ r) eqn:Eo; [|apply IH; set_solver]. apply old_tombstone_spec in Eo as (Hv & rv & Hd & Hr & Ht).
  eapply rtc_l; [|apply IH; set_solver]. eapply ds_purge; eauto. set_solver.
Qed.

Lemma purge_loop_steps v start fuel w after : rtc (daily_step v start) w (purge_loop fuel w (start - 24 * hour) after).1.
Proof.
  revert w after. induction fuel as [|fuel IH]; intros w after; [reflexivity|]. cbn [purge_loop].
  destruct (mw_Scan w PrefixRef after 5000) as [w1 [e|[rows next]]] eqn:E; cbn [fst]; [apply rtc_once; by econstructor|].
  eapply rtc_l; [by eapply ds_scan|]. etrans; [by eapply (purge_rows_steps v start w after w1 rows next rows)|].
  destruct next as [c|]; [apply IH|reflexivity].
Qed.

Lemma delete_tokens_steps v start w0 w1 tokens l w : mw_ListTokens w0 = (w1, inr tokens) → l ⊆ map_to_list tokens →
  rtc (daily_step v start) w (delete_tokens w v (nw_now w1 - 7 * 24 * hour) l).
Proof.
  intros Hl. unfold delete_tokens. revert w. induction l as [|[id t] l IH]; intros w Hsub; [reflexivity|]. cbn [fold_left].
  destruct (token_due _ _ id t) eqn:Ed; [|apply IH; set_solver]. eapply rtc_l; [|apply IH; set_solver].
  apply (ds_delete v start w0 w1 tokens id t); [done|apply elem_of_map_to_list, Hsub; set_solver|]. unfold token_due in Ed. apply orb_prop in Ed as [?|?]; [left; lia|by right].
Qed.

(** The daily pass purges and deletes nothing but what is due: each of its steps is one
    of [daily_step], measured from the time it began. *)
Theorem dailyPass_refines fuel w v : view_of w = Some v → rtc (daily_step v (nw_now w)) w (dailyPass fuel w).1.
Proof.
  intros Hv. unfold dailyPass. rewrite Hv. pose proof (purge_loop_steps v (nw_now w) fuel w []) as Hp.
  destruct (purge_loop fuel w _ []) as [w1 [|]]; [|done]. cbn [fst] in Hp. etrans; [done|].
  destruct (mw_ListTokens w1) as [w2 [e|tokens]] eqn:El; cbn [fst]; [apply rtc_once; by econstructor|].
  eapply rtc_l; [by eapply ds_list|]. by eapply delete_tokens_steps.
Qed.
End daily.

(** * A small cluster

    One node's surroundings: the view register, the registers' names, the references.
    Other nodes refuse rows they are sent. *)

Record office := MkOffice {
  of_node : dnode small_store (gmap bytes bytes);
  of_m : maintenance;
  of_now : Z;
  of_reg : View;
  of_regs : list bytes;
  of_refs : gmap bytes bytes;
}.

#[global] Instance office_eta : Eta office := λ r,
  MkOffice (of_node r) (of_m r) (of_now r) (of_reg r) (of_regs r) (of_refs r).

Definition toy_refused : net_err := NWire (ErrRemote (MkError CodeInternal "disk full" [] 0)).

Definition office_call (w : office) (id : NodeID) (m : Msg) : office * (net_err + Msg) :=
  (w, if (m_Type m =? TSeed)%Z then inl toy_refused else inr (msg0 <| m_Type := TOK |>)).

#[local] Instance office_net : Net small_store (gmap bytes bytes) office := {
  nw_self := of_node;
  nw_set w n := w <| of_node := n |>;
  nw_now := of_now;
  nw_call := office_call;
  nw_put w _ _ _ := (w, inl (POpen (NErr "no put")));
  nw_cut w _ _ _ := w;
  nw_get w _ _ := (w, inl (POpen (NErr "no get")));
  nw_refresh w := w;
  nw_adopt w v := w <| of_node := adopt (of_node w) v |>;
}.

Definition toy_entry (kv : bytes * bytes) : RefEntry := MkRefEntry kv.1 (MkRefValue kv.2 0 []) false.

#[local] Instance office_refs : RefWorld office := {
  rw_RefGet w _ := (w, RefValue0, Some (CErr XUnknownRef));
  rw_RefList w _ _ _ := (w, inr ([], []));
  rw_RefPut w name rec _ _ _ := (w <| of_refs := <[name := rec]> (of_refs w) |>, [], None);
  rw_RefDelete w _ _ _ := (w, ballot0, None);
  rw_RefsSnapshot w := (w, inr (toy_entry <$> map_to_list (of_refs w)));
  rw_TryPurge w _ _ := w;
  rw_refChanged w _ _ _ := w;
}.

Definition office_cas (w : office) (ch : change) : office * option View * option cerr :=
  match ch (of_now w) (of_reg w) with
  | inl e => (w, Some (of_reg w), Some (CErr e))
  | inr (nv, bump) => let nv := next_view (of_reg w) nv bump in (w <| of_reg := nv |>, Some nv, None)
  end.

Definition office_rows (w : office) (p after : bytes) : list MergedRow :=
  (λ reg, MkMergedRow reg Row0 false) <$> filter (λ reg, p `prefix_of` reg ∧ bytes_lt after reg) (of_regs w).

#[local] Instance office_maint : MaintWorld office := {
  mw_get := of_m;
  mw_set w m := w <| of_m := m |>;
  mw_sleep w d := (w <| of_now := (of_now w + Z.max 0 d)%Z |>, true);
  mw_CASView := office_cas;
  mw_AcquireLease w self ttl := (w, true, MkLease (arr_bytes self) (of_now w + ttl), None);
  mw_ReleaseLease w _ := w;
  mw_Install w v ids := (w, ids);
  mw_Scan w p after _ := (w, inr (office_rows w p after, None));
  mw_Settle w reg := (w, None);
  mw_AllRows w := inr ((λ reg, MkScanRow reg [] [] [] false) <$> of_regs w);
  mw_Handle w m := let '(w, r) := office_call w (toy_id x01) m in (w, match r with inr r => r | inl _ => msg0 end);
  mw_ReadToken w _ := (w, inl (CErr XUnknownRef));
  mw_CreateToken w _ := (w, inr []);
  mw_ListTokens w := (w, inr ∅);
  mw_DeleteToken w _ := w;
  mw_ReadGC w := (w, GCState0, None);
  mw_CASGC w _ := (w, GCState0, None);
  mw_SetKeep w _ := (w, None);
  mw_storePut w k _ := (w <| of_node := of_node w <| dn_store := [(0, [k])] |> |>, None);
  mw_gcPoll w := w;
  mw_gcRun w _ _ := (w, None);
}.

(** Three voters, of which the third is being added; then a node that is a voter only. *)
Definition toy_adding : View :=
  toy_view [x01; x02; x03] [toy_node x01 5 "a"; toy_node x02 5 "b"; toy_node x03 5 "c"] 2 None
    <| VoterSync := VoterSyncPending |> <| VoterSyncTarget := arr_bytes (toy_id x03) |> <| VoterSyncAdd := true |>.
Definition toy_strayed : View := toy_view [x01; x02; x04] [toy_node x01 5 "a"; toy_node x02 5 "b"; toy_node x03 5 "c"] 2 None.

Definition toy_office (v : View) (refs : gmap bytes bytes) : office :=
  MkOffice (small_node [] ∅ x01 <| dn_view := Some v |>) newMaintenance 0 v [RegGC; of_string "ref/a"; RegView] refs.

Lemma voter_sync_complete_witness : ∃ ok v1 t2 t3 q,
  NoDup q ∧ q ⊆ [toy_id x01; toy_id x02] ∧ (2 ≤ length q)%nat ∧ q ⊆ ok ∧
  synced (VoterSyncCursor v1) t2 ∧ marker_taken (toy_id x01) t3 (toy_id x03) 1.
Proof.
  destruct (finishVoterSync (toy_id x01) id 5 (toy_office toy_adding ∅) [toy_id x01; toy_id x02]) as [w' e] eqn:E.
  assert (e = None) as ->. { change e with (w', e).2. rewrite <- E. vm_compute. reflexivity. }
  destruct (voter_sync_complete (toy_id x01) id 5 (toy_office toy_adding ∅) [toy_id x01; toy_id x02] w' toy_adding E)
    as (t1 & ok & w1 & v1 & t2 & w2 & t3 & w3 & w4 & nv & t4 & Ht & _ & Hq & Hv & _ & Hs & _ & Hm & _); [reflexivity|reflexivity|].
  destruct (Hq ltac:(decides)) as (q & Q1 & Q2 & Q3 & Q4).
  { apply trace_inv in Ht as (x & _ & Ht). inversion_clear Ht as [|? ? y ? ? Hd _]. inversion_clear Hd as [| |? ? ? ? ? Hi| | | | | |].
    injection Hi as _ <-. decides. }
  exists ok, v1, t2, t3, q. split_and!; [exact Q1|exact Q2|exact Q4|exact Q3|exact Hs|exact (Hm eq_refl)].
Defined.

Lemma refused_seed_ignored_witness : ∃ w',
  seed_voters (toy_id x01) (toy_office toy_adding ∅) 2 [MkScanRow RegGC [] [] [] true] [toy_id x02; toy_id x03] = (w', None).
Proof.
  apply refused_seed_ignored; [|decides].
  intros w id m _. split; intros Ht; cbn; unfold office_call; rewrite Ht; cbn; eauto 10.
Defined.

(** With a vote the retry is refused, without one it is taken. *)
Lemma interrupted_join_stuck_witness :
  admitNode (toy_id x01) id 5 (toy_office toy_strayed ∅) (MkJoinRequest (toy_id x04) (of_string "t") 5 "" [] false false) =
    (toy_office toy_strayed ∅, inl (MWrap "voter add" (MText "already a voter"))) ∧
  ∃ nv, (admitNode (toy_id x01) id 5 (toy_office toy_strayed ∅) (MkJoinRequest (toy_id x04) (of_string "t") 5 "" [] true false)).2 = inr nv.
Proof.
  split.
  - rewrite (interrupted_join_stuck (toy_id x01) id 5 (toy_office toy_strayed ∅) _ toy_strayed); [reflexivity|reflexivity|].
    repeat split; by vm_compute.
  - vm_compute. eexists. reflexivity.
Defined.

(** Keys that take any payload. *)
Definition office_core : Core := {|
  KType := byte; KType_eq_dec := _; Blob := x00; XattrSet := x01; Commit := x02;
  key_Type := @key_Type small_core; key_Length := @key_Length small_core; key_String := @key_String small_core;
  key_Parse := @key_Parse small_core; key_Validate := @key_Validate small_core;
  key_New ty len d := inr (arr_of 32 (ty :: byte_of_N len :: d));
  RecHeaderSize := 2; ParseRecord := @ParseRecord small_core; DecodePayload := @DecodePayload small_core;
  commit_Trees := @commit_Trees small_core; Footprint := @Footprint small_core; ChildKeys_of _ _ := inr [];
|}.

Definition toy_refs : gmap bytes bytes := {[of_string "a" := of_string "one"; of_string "b" := of_string "two"]}.
Definition toy_decode (b : bytes) : string + Reference := inr (MkReference "" b 0 "").
Definition toy_encode (name : string) (k : key) (at_ : Z) : string + bytes := inr (arr_bytes k).

Lemma backup_restores_witness : ∃ data, ∀ w3 n,
  RestoreCatalog toy_decode (toy_office small_view ∅) data = (w3, n, None) → n = 2%Z.
Proof.
  destruct (backupCatalog (H := office_core) toy_blake3 (toy_id x01) (MkMconfig 0 0 (MkDriveCfg 0 0) 10) toy_decode toy_encode 3
    (toy_office small_view toy_refs)) as [w1 r] eqn:E.
  assert (∃ k, r = inr k) as [k ->]. { change r with (w1, r).2. rewrite <- E. vm_compute. eexists. reflexivity. }
  destruct (backup_restores (H := office_core) toy_blake3 (toy_id x01) (MkMconfig 0 0 (MkDriveCfg 0 0) 10) toy_decode toy_encode
    3%nat (toy_office small_view toy_refs) w1 k E) as (wa & refs & wb & data & Hs & _ & _ & Hr).
  exists data. intros w3 n Hd. destruct (Hr _ _ _ _ Hd) as (dn & rest & wr & Hl & -> & _ & -> & _).
  rewrite app_nil_r in Hl. apply (f_equal (λ x, match x.2 with inr l => length (backed_up l) | inl _ => 0%nat end)) in Hs.
  cbn [snd] in Hs. rewrite <- Hl, <- Hs. by vm_compute.
Defined.
