(* ===== verification/MaintainPlan.v ===== *)
(** That the coordinator carries out the decisions of Transition.v and nothing else:
    every change of the view it proposes is one that TransitionSafety.v's histories allow,
    decided on a view the node had. *)
From stdpp Require Import pretty.
From S2P Require Import Prelude Store Placement View Wire Ballot Proposer Catalog Meta Mark Pins GC Transition TransitionSafety Data DataSafety Gate Maintain Ticket Admin.

Local Open Scope N_scope.

(** The steps of a node's maintenance: requests and changes of its own state, sleeps,
    the proposer, and the changes of the view that [may] allows. *)
Inductive node_step {P DB W} `{Net P DB W} `{MaintWorld W} (may : W → change → Prop) (w : W) : W → Prop :=
  | nd_net w' : net_step w w' → node_step may w w'
  | nd_sleep d : node_step may w (mw_sleep w d).1
  | nd_install v ids : node_step may w (mw_Install w v ids).1
  | nd_scan p a n : node_step may w (mw_Scan w p a n).1
  | nd_settle reg : node_step may w (mw_Settle w reg).1
  | nd_handle m : node_step may w (mw_Handle w m).1
  | nd_maint m : node_step may w (mw_set w m)
  | nd_token id : node_step may w (mw_DeleteToken w id)
  | nd_cas ch : may w ch → node_step may w (mw_CASView w ch).1.1.

Section plan.
Context {P DB W : Type} `{PackStore P} `{KVStore DB} `{Codec View} `{Net P DB W} `{MaintWorld W}.
Context (self : NodeID) (cfg : mconfig) (order : list NodeID → list NodeID).
Implicit Types w : W.

Definition any_change w (ch : change) : Prop := True.
Definition goes (may : W → change → Prop) : W → W → Prop := rtc (node_step may).

(** A change that was decided on a view the node had at some earlier time [x]. *)
Definition planned w (ch : change) : Prop :=
  ∃ x v op, goes any_change x w ∧ view_of x = Some v ∧ issued v op ∧ ch = vop_change order op.

#[local] Instance goes_pre may : PreOrder (goes may).
Proof. unfold goes. split; [intros x; apply rtc_refl|intros x y z; apply rtc_trans]. Qed.

Lemma goes_once may w w' : node_step may w w' → goes may w w'.
Proof. apply rtc_once. Qed.

Lemma goes_any may w w' : goes may w w' → goes any_change w w'.
Proof. unfold goes. induction 1 as [|x y z Hs _ IH]; [reflexivity|]. eapply rtc_l; [|done]. destruct Hs; by constructor. Qed.

Lemma planned_later w w' ch : planned w ch → goes any_change w w' → planned w' ch.
Proof. intros (x & v & op & Hx & Hv & Hi & Hc) Hw. exists x, v, op. split_and!; try done. by trans w. Qed.

Lemma planned_now w v op : view_of w = Some v → issued v op → planned w (vop_change order op).
Proof. intros Hv Hi. exists w, v, op. by split_and!. Qed.

(** ** Parts that change no view *)

Section quiet.
Context (may : W → change → Prop).

Lemma net_goes w w' : net_step w w' → goes may w w'.
Proof. intros Hs. by apply goes_once, nd_net. Qed.

Lemma runs_goes w w' : runs w w' → goes may w w'.
Proof. induction 1; [reflexivity|]. by etrans; [apply net_goes|]. Qed.

Lemma Node_Call_goes w to m : goes may w (Node_Call self w to m).1.
Proof.
  unfold Node_Call. destruct (decide _).
  - pose proof (nd_handle may w m) as Hs. destruct (mw_Handle w m) as [w1 r]. by apply goes_once.
  - pose proof (ns_call w to m) as Hs. destruct (nw_call w to m) as [w1 [e|r]]; cbn [fst] in *.
    + destruct (net_AsError e); cbn [fst]; [by apply net_goes|]. trans w1; [by apply net_goes|]. by apply net_goes, ns_set.
    + trans w1; [by apply net_goes|]. by apply net_goes, ns_set.
Qed.

Lemma broadcast_goes w m : goes may w (broadcastCluster self w m).
Proof.
  unfold broadcastCluster. destruct (view_of w) as [v|]; [|reflexivity]. generalize (AllMembers v). intros l. revert w.
  induction l as [|id l IH]; intros w; cbn [fold_left]; [reflexivity|]. etrans; [|apply IH].
  destruct (decide _); [reflexivity|]. apply net_goes, ns_call.
Qed.

Lemma cas_adopt_goes w ch : may w ch → goes may w (cas_adopt w ch).1.
Proof.
  intros Hm. pose proof (nd_cas may w ch Hm) as Hs. unfold cas_adopt.
  destruct (mw_CASView w ch) as [[w1 [nv|]] [e|]]; cbn [fst] in *; try by apply goes_once.
  trans w1; [by apply goes_once|]. apply net_goes, ns_adopt.
Qed.

Lemma cas_announce_goes w ch : may w ch → goes may w (cas_announce self w ch).1.
Proof.
  intros Hm. pose proof (cas_adopt_goes w ch Hm) as Ha. unfold cas_announce. destruct (cas_adopt w ch) as [w1 [e|nv]]; [done|].
  cbn [fst] in *. trans w1; [done|]. apply broadcast_goes.
Qed.

Lemma ping_goes w ids : goes may w (ping_count self w ids).1.
Proof.
  revert w. induction ids as [|id ids IH]; intros w; [reflexivity|]. cbn [ping_count]. destruct (decide _).
  - specialize (IH w). by destruct (ping_count self w ids).
  - pose proof (ns_call w id (stampReq (nw_self w) (msg0 <| m_Type := TPing |>))) as Hs.
    destruct (nw_call w id _) as [w1 [e|r]]; cbn [fst] in Hs; specialize (IH w1); destruct (ping_count self w1 ids);
      (etrans; [by apply net_goes|done]).
Qed.

Lemma pingMajority_goes w ids : goes may w (pingMajority self w ids).1.
Proof. unfold pingMajority. pose proof (ping_goes w ids). by destruct (ping_count self w ids). Qed.

Lemma install_loop_goes fuel w v ids old deadline : goes may w (install_loop fuel w v ids old deadline).1.
Proof.
  revert w. induction fuel as [|fuel IH]; intros w; [reflexivity|]. cbn [install_loop].
  pose proof (nd_install may w v ids) as Hs. destruct (mw_Install w v ids) as [w1 ok]. cbn [fst] in Hs. apply goes_once in Hs.
  destruct (_ <=? _)%nat; [done|]. destruct (_ <? _)%Z; [done|].
  pose proof (goes_once _ _ _ (nd_sleep may w1 second)) as Hl. destruct (mw_sleep w1 second) as [w2 [|]]; cbn [fst] in *; [|by trans w1].
  trans w1; [done|]. by trans w2.
Qed.

Lemma settle_loop_goes more w reg : goes may w (settle_loop more w reg).1.
Proof.
  revert w. induction more as [|more IH]; intros w; cbn [settle_loop]; pose proof (goes_once _ _ _ (nd_settle may w reg)) as Hs;
    destruct (mw_Settle w reg) as [w1 [e|]]; cbn [fst] in *; try done.
  pose proof (goes_once _ _ _ (nd_sleep may w1 (200 * 1000000))) as Hl. destruct (mw_sleep w1 _) as [w2 [|]]; cbn [fst] in *; [|by trans w1].
  trans w1; [done|]. by trans w2.
Qed.

Lemma settle_rows_goes rows w : goes may w (settle_rows w rows).1.
Proof.
  revert w. induction rows as [|r rows IH]; intros w; cbn [settle_rows]; [reflexivity|]. destruct (decide _); [apply IH|].
  pose proof (settle_loop_goes 21 w (mr_Reg r)) as Hl. destruct (settle_loop 21 w (mr_Reg r)) as [w1 [e|]]; cbn [fst] in *; [done|]. by trans w1.
Qed.

Lemma marker_loop_goes fuel w target since deadline : goes may w (marker_loop self fuel w target since deadline).1.
Proof.
  revert w. induction fuel as [|fuel IH]; intros w; [reflexivity|]. cbn [marker_loop].
  pose proof (Node_Call_goes w target (marker_req w since)) as Hs. destruct (Node_Call self w target _) as [w1 resp]. cbn [fst] in Hs.
  destruct (match resp with inl _ => _ | inr _ => _ end); [done|]. destruct (_ <? _)%Z; [done|].
  pose proof (goes_once _ _ _ (nd_sleep may w1 second)) as Hl. destruct (mw_sleep w1 second) as [w2 [|]]; cbn [fst] in *; [|by trans w1].
  trans w1; [done|]. by trans w2.
Qed.

Lemma seed_slices_goes w nid slices : goes may w (seed_slices self w nid slices).1.
Proof.
  revert w. induction slices as [|rows slices IH]; intros w; [reflexivity|]. cbn [seed_slices].
  pose proof (Node_Call_goes w nid (stampReq (nw_self w) (msg0 <| m_Type := TSeed |> <| m_Rows := rows |>))) as Hs.
  destruct (Node_Call self w nid _) as [w1 [e|r]]; cbn [fst] in *; [done|]. by trans w1.
Qed.

Lemma seed_voters_goes w e rows ids : goes may w (seed_voters self w e rows ids).1.
Proof.
  revert w. induction ids as [|nid ids IH]; intros w; [reflexivity|]. cbn [seed_voters].
  pose proof (seed_slices_goes w nid (row_slices (length rows) 2000 rows)) as Hs.
  destruct (seed_slices self w nid _) as [w1 [er|]]; cbn [fst] in *; [done|].
  pose proof (Node_Call_goes w1 nid (marker_req w1 e)) as Hm. destruct (Node_Call self w1 nid _) as [w2 [er|r]]; cbn [fst] in *; [by trans w1|].
  destruct (negb _); cbn [fst]; [by trans w1|]. trans w1; [done|]. by trans w2.
Qed.
End quiet.

(** ** Parts that change the view *)

Notation plans := (goes planned).

Lemma adopt_plans w x v op : goes any_change x w → view_of x = Some v → issued v op → plans w (cas_adopt w (vop_change order op)).1.
Proof. intros Hx Hv Hi. apply cas_adopt_goes. apply (planned_later x); [|done]. by apply (planned_now x v). Qed.

Lemma announce_plans w x v op : goes any_change x w → view_of x = Some v → issued v op → plans w (cas_announce self w (vop_change order op)).1.
Proof. intros Hx Hv Hi. apply cas_announce_goes. apply (planned_later x); [|done]. by apply (planned_now x v). Qed.

Lemma sync_loop_plans fuel w x v after : goes any_change x w → view_of x = Some v → VoterSync v = VoterSyncPending →
  plans w (sync_loop fuel w after).1.
Proof.
  intros Hx Hv Hs. revert w after Hx. induction fuel as [|fuel IH]; intros w after Hx; [reflexivity|]. cbn [sync_loop].
  pose proof (goes_once _ _ _ (nd_scan planned w [] after 500)) as G1. destruct (mw_Scan w [] after 500) as [w1 [e|[rows next]]]; cbn [fst] in *; [done|].
  pose proof (settle_rows_goes planned rows w1) as G2. destruct (settle_rows w1 rows) as [w2 [e|]]; cbn [fst] in *; [by trans w1|].
  destruct next as [c|]; cbn [fst]; [|by trans w1].
  assert (plans w w2) as G02 by (by trans w1). assert (goes any_change x w2) as Hx2 by (trans w; [done|]; by apply (goes_any planned)).
  pose proof (adopt_plans w2 x v (OCursor c) Hx2 Hv (is_cursor v c Hs)) as G3. cbn [vop_change] in G3.
  trans w2; [done|]. etrans; [exact G3|]. apply IH. trans w2; [done|]. by apply (goes_any planned).
Qed.

Lemma finish_plans fuel w old : plans w (finishVoterSync self order fuel w old).1.
Proof.
  unfold finishVoterSync. destruct (view_of w) as [v|] eqn:Hv; [|reflexivity].
  destruct (Z.eqb_spec (VoterSync v) VoterSyncPending) as [Hs|]; cbn [negb]; [|reflexivity].
  set (ids := order _). pose proof (install_loop_goes planned fuel w v ids old (nw_now w + 2 * minute)) as G1.
  destruct (install_loop fuel w v ids old _) as [w1 [e|]]; cbn [fst] in *; [done|].
  assert (plans w1 (syncRegisters fuel w1).1) as G2.
  { unfold syncRegisters. destruct (view_of w1); [|reflexivity]. apply (sync_loop_plans fuel w1 w v); [by apply (goes_any planned)|done|done]. }
  destruct (syncRegisters fuel w1) as [w2 [e|]]; cbn [fst] in *; [by trans w1|]. assert (plans w w2) as G02 by (by trans w1).
  set (mk := if VoterSyncAdd v then _ else _). assert (plans w2 mk.1) as G3 by (unfold mk; destruct (VoterSyncAdd v); [apply marker_loop_goes|reflexivity]).
  destruct mk as [w3 [e|]]; cbn [fst] in *; [by trans w2|]. assert (plans w w3) as G03 by (by trans w2).
  pose proof (adopt_plans w3 w v OSyncDone (goes_any planned _ _ G03) Hv (is_syncDone v Hs)) as G4. cbn [vop_change] in G4.
  destruct (cas_adopt w3 syncDone_change) as [w4 [e|nv]]; cbn [fst] in *; [by trans w3|].
  trans w3; [done|]. trans w4; [done|]. etrans; [apply goes_once, (nd_install planned w4 nv ids)|apply broadcast_goes].
Qed.

Lemma single_plans w id : plans w (addVoterFromSingle self w id).1.
Proof.
  unfold addVoterFromSingle. destruct (view_of w) as [v|] eqn:Hv; [|reflexivity]. case_bool_decide as Hd.
  - pose proof (adopt_plans w w v (ODefer id) (reflexivity w) Hv) as Ha. cbn [vop_change] in Ha.
    destruct (cas_adopt w (deferVoter_change id)) as [w1 [e|nv]]; apply Ha; apply (is_single v id (λ _, true)); unfold addVoterFromSingle_plan;
      by rewrite bool_decide_eq_true_2.
  - destruct (VoterIDs v) as [|single vs] eqn:Evs; [reflexivity|]. set (newIDs := IDsOf _ ++ _).
    pose proof (pingMajority_goes planned w (single :: newIDs)) as G1. destruct (pingMajority self w (single :: newIDs)) as [w1 [|]]; cbn [negb fst] in *; [|done].
    assert (issued v (OVoters3 newIDs)) as Hi.
    { apply (is_single v id (λ _, true)). unfold addVoterFromSingle_plan. by rewrite bool_decide_eq_false_2, Evs. }
    pose proof (adopt_plans w1 w v (OVoters3 newIDs) (goes_any planned _ _ G1) Hv Hi) as G2. cbn [vop_change] in G2.
    destruct (cas_adopt w1 (voters3_change newIDs)) as [w2 [e|nv]]; cbn [fst] in *; [by trans w1|]. assert (plans w w2) as G02 by (by trans w1).
    destruct (mw_AllRows w2) as [e|rows]; cbn [fst]; [done|]. pose proof (seed_voters_goes planned w2 (Epoch nv) rows newIDs) as G3.
    destruct (seed_voters self w2 _ rows newIDs) as [w3 [e|]]; cbn [fst] in *; [by trans w2|].
    trans w2; [done|]. trans w3; [done|]. etrans; [apply goes_once, (nd_install planned w3 nv (single :: newIDs))|apply broadcast_goes].
Qed.

Lemma addVoter_plans fuel w id : plans w (addVoter self order fuel w id).1.
Proof.
  unfold addVoter. destruct (view_of w) as [v|] eqn:Hv; [|reflexivity]. destruct (IsVoter v id) eqn:Evo; [reflexivity|].
  destruct (VoterSync v =? VoterSyncPending)%Z eqn:Es; [reflexivity|]. case_bool_decide as Hl; [apply single_plans|].
  pose proof (pingMajority_goes planned w (VoterIDs v ++ [id])) as G1. destruct (pingMajority self w _) as [w1 [|]]; cbn [negb fst] in *; [|done].
  assert (issued v (OAddVoter id)) as Hi.
  { apply (is_addVoter v id (λ _, true)). unfold addVoter_plan. by rewrite Evo, Es, bool_decide_eq_false_2. }
  pose proof (adopt_plans w1 w v (OAddVoter id) (goes_any planned _ _ G1) Hv Hi) as G2. cbn [vop_change] in G2.
  destruct (cas_adopt w1 (addVoter_change id)) as [w2 [e|nv]]; cbn [fst] in *; [by trans w1|].
  trans w1; [done|]. trans w2; [done|]. apply finish_plans.
Qed.

Lemma removeVoter_plans fuel w id unsafe : plans w (removeVoter self order fuel w id unsafe).1.
Proof.
  unfold removeVoter. destruct (view_of w) as [v|] eqn:Hv; [|reflexivity]. pose proof (is_removeVoter v id unsafe) as Hp. unfold removeVoter_plan in Hp.
  destruct (IsVoter v id) eqn:Evo; cbn [negb] in *.
  - destruct (VoterSync v =? VoterSyncPending)%Z; [reflexivity|]. case_bool_decide; [reflexivity|].
    destruct (bool_decide _ && _ && _); [reflexivity|].
    pose proof (adopt_plans w w v (ORemoveVoter id) (reflexivity w) Hv (Hp _ eq_refl)) as G2. cbn [vop_change] in G2.
    destruct (cas_adopt w (removeVoter_change id)) as [w2 [e|nv]]; cbn [fst] in *; [done|]. trans w2; [done|]. apply finish_plans.
  - cbn [fst]. destruct (Contains _ id); [|reflexivity].
    apply (adopt_plans w w v (OVoterGone id) (reflexivity w) Hv (Hp _ eq_refl)).
Qed.

Lemma nodeChange_plans fuel w op id dead unsafe : plans w (nodeChange self order fuel w op id dead unsafe).1.
Proof.
  unfold nodeChange. destruct (view_of w) as [v|] eqn:Hv; [|reflexivity]. destruct (View_Node v id) as [nd|] eqn:En; [|reflexivity].
  set (rm := if _ && _ && _ then _ else _).
  assert (plans w rm.1) as G1 by (unfold rm; destruct (_ && _ && _); [apply removeVoter_plans|reflexivity]).
  destruct rm as [w1 [e|]]; cbn [fst] in *; [done|]. trans w1; [done|].
  apply (announce_plans w1 w v (ONode op id)); [by apply (goes_any planned)|done|]. apply (is_node v op id). unfold nodeChange_plan. by rewrite En.
Qed.

Lemma admitNode_plans fuel w r : plans w (admitNode self order fuel w r).1.
Proof.
  unfold admitNode. destruct (view_of w) as [v|] eqn:Hv; [|reflexivity]. pose proof (is_join v r (OJoin r)) as Hj. unfold admitNode_plan in Hj.
  destruct (View_Node v (jr_id r)); [reflexivity|]. destruct (tokenUsed v _); [reflexivity|].
  destruct (_ || (VoterSync v =? _)%Z); [reflexivity|].
  set (ad := if negb _ then _ else _). assert (plans w ad.1) as G1 by (unfold ad; destruct (negb _); [apply addVoter_plans|reflexivity]).
  destruct ad as [w1 [e|]]; cbn [fst] in *; [done|]. assert (plans w1 (proposeTransition self w1 ("join " +:+ ShortID (jr_id r)) (admitNode_fn r)).1) as G2.
  { apply (announce_plans w1 w v (OJoin r)); [by apply (goes_any planned)|done|by apply Hj]. }
  destruct (proposeTransition self w1 _ _) as [w2 [e|nv]]; cbn [fst] in *; [by trans w1|].
  trans w1; [done|]. trans w2; [done|]. apply goes_once, nd_token.
Qed.

Lemma nextRamp_plans w v : view_of w = Some v → plans w (nextRamp self w v).1.
Proof.
  intros Hv. unfold nextRamp. pose proof (λ op, is_ramp v op) as Hr. unfold nextRamp_plan in Hr. destruct (Ramps v) as [|r rs]; [reflexivity|].
  cbv zeta. set (id := arr_of 32 (Ramp_Node r)) in *. destruct (View_Node v id) as [nd|]; [destruct (_ <=? _)|]; cbn [fst].
  - apply (adopt_plans w w v (ORampDone id)); [reflexivity|done|by apply Hr].
  - apply (announce_plans w w v (ORamp id _)); [reflexivity|done|by apply Hr].
  - apply (adopt_plans w w v (ORampDone id)); [reflexivity|done|by apply Hr].
Qed.

Lemma driveTransition_plans w v : view_of w = Some v → plans w (driveTransition self cfg order w v).
Proof.
  intros Hv. unfold driveTransition. pose proof (λ op, is_drive v (mc_drive cfg) (nw_now w) op) as Hr. unfold driveTransition_plan in Hr.
  destruct (View_Pending v) as [p|]; [|reflexivity]. destruct (negb (Pending_Frozen p)).
  - destruct (negb _ && _); [reflexivity|]. apply (announce_plans w w v (OFreeze (Pending_ID p))); [reflexivity|done|by apply Hr].
  - destruct (allDone p); [apply (announce_plans w w v (OCommit (Pending_ID p) (Pending_Round p))); [reflexivity|done|by apply Hr]|].
    destruct (_ <? _)%Z; [|reflexivity]. apply (announce_plans w w v (ORefreeze false)); [reflexivity|done|by apply Hr].
Qed.
End plan.

Section coordinator.
Context (blake3 : bytes → nat → bytes) `{Core} {P DB W : Type} `{PackStore P} `{KVStore DB} `{Codec View} `{Net P DB W}.
Context `{RefWorld W} `{MaintWorld W} `{Codec RefValue} `{Codec (list backupEntry)}.
Context (self : NodeID) (cfg : mconfig) (order : list NodeID → list NodeID).
Context (reference_Decode : bytes → string + Reference) (reference_Encode : string → key → Z → string + bytes).
Implicit Types w : W.

Notation coordinate := (coordinate blake3 self cfg order reference_Decode reference_Encode).
Notation housekeeping := (housekeeping blake3 self cfg reference_Decode reference_Encode).

(** Backups and the daily pass come last. *)
Definition before_housekeeping (fuel : nat) w w1 : Prop :=
  (coordinate fuel w).1 = w1 ∨ (coordinate fuel w).1 = housekeeping fuel w1.

Lemma coordinate_plans fuel w : ∃ w1, goes (planned order) w w1 ∧ before_housekeeping fuel w w1.
Proof.
  unfold before_housekeeping, Maintain.coordinate. destruct (view_of w) as [v|] eqn:Hv; [|exists w; split; [reflexivity|by left]].
  assert (∀ w2, goes (planned order) w w2 → ∃ w1, goes (planned order) w w1 ∧
    let w' := housekeeping fuel (if negb (mt_gcRunning (mw_get w2)) then upd_maint w2 (λ m, m <| mt_gcRunning := true |>) else w2) in
    (w' = w1 ∨ w' = housekeeping fuel w1)) as Hrest.
  { intros w2 G2. destruct (negb _); eexists; (split; [|by right]); [|done]. etrans; [done|]. apply goes_once, nd_maint. }
  destruct (VoterSync v =? VoterSyncPending)%Z.
  - exists (resumeVoterSync self order fuel w).1. split; [|by left]. unfold resumeVoterSync. rewrite Hv. apply finish_plans.
  - destruct (View_Pending v) as [p|].
    + apply Hrest. by apply driveTransition_plans.
    + destruct (RemoveVoters v) as [|raw l].
      * pose proof (nextRamp_plans self order w v Hv) as G1. destruct (nextRamp self w v) as [w1 [|]]; cbn [fst] in *; [exists w1; split; [done|by left]|].
        by apply Hrest.
      * eexists. split; [|by left]. apply removeVoter_plans.
Qed.

(** C28 The coordinator carries out the decisions of Transition.v and no others: in the
    holder's run, up to its housekeeping, in the admission of a node and in an operator's
    changes of nodes and voters, every change of the view that is proposed is one a
    history allows, decided on a view the node had before. *)
Theorem coordinator_planned fuel w r op id dead unsafe :
  (∃ w1, goes (planned order) w w1 ∧ before_housekeeping fuel w w1) ∧
  goes (planned order) w (admitNode self order fuel w r).1 ∧
  goes (planned order) w (nodeChange self order fuel w op id dead unsafe).1 ∧
  goes (planned order) w (addVoter self order fuel w id).1 ∧
  goes (planned order) w (removeVoter self order fuel w id unsafe).1.
Proof.
  split_and!; [apply coordinate_plans|apply admitNode_plans|apply nodeChange_plans|apply addVoter_plans|apply removeVoter_plans].
Qed.

(** Such a change extends the history of the register, when the views a node has are
    of that history: what TransitionSafety.v shows of histories holds of the code. *)
Theorem planned_extends_history w ch now v h nv bump :
  planned order w ch → hist order (v :: h) →
  (∀ x vx, goes any_change x w → view_of x = Some vx → vx ∈ v :: h) →
  ch now v = inr (nv, bump) → hist order (next_view v nv bump :: v :: h).
Proof.
  intros (x & vx & op & Hx & Hv & Hi & ->) Hh Hin Hc. eapply (hist_step order h v vx op now); [done|by eapply Hin|done|]. by exists nv, bump.
Qed.
End coordinator.
