(* ===== verification/Lifecycle.v ===== *)
(** A node's configuration, opening and standing (src/node/node.go): defaults, the store
    id and the view a restart finds, the first view of a cluster, addresses and
    reachability, the node's own entry, and the endpoint of offline commands.

    Opening and closing the databases and starting goroutines are I/O and left out. *)
From stdpp Require Import pretty.
From S2P Require Import Prelude Store Placement View Wire Ballot Proposer Catalog Meta Mark Pins GC Transition Data DataSafety NodeNet Maintain.

Local Open Scope N_scope.

(** * Configuration *)

(** The knobs of [Config]; durations in nanoseconds. *)
Record Config := MkConfig {
  c_StoreDir : string; c_PaxosDir : string; c_Jobs : Z; c_Rate : Z; c_MinFree : Z; c_Gateway : bool;
  c_PutTTL : Z; c_GCInterval : Z; c_BarrierTimeout : Z; c_MarkTimeout : Z; c_SweepTimeout : Z; c_Lease : Z;
  c_AdoptTimeout : Z; c_ParticipantTimeout : Z; c_Delta : Z; c_FirstAudit : Z; c_AuditInterval : Z; c_SealAfter : Z;
  c_Grace : Z; c_ViewRefresh : Z; c_ForwardTimeout : Z; c_MaintenanceTick : Z; c_WatchReconcile : Z;
  c_PutChunkBytes : Z; c_NoSync : bool; c_SegmentSize : Z;
}.

(** [packstore.DefaultSegmentSize], 2 GiB. *)
Definition DefaultSegmentSize : Z := 2147483648.

(** The closure [def]. *)
Definition def_ (d v : Z) : Z := if (d =? 0)%Z then v else d.

Definition defaults (c : Config) : Config :=
  MkConfig (c_StoreDir c) (if bool_decide (c_PaxosDir c = "") then c_StoreDir c +:+ "/paxos" else c_PaxosDir c)
    (c_Jobs c) (c_Rate c) (c_MinFree c) (c_Gateway c)
    (def_ (c_PutTTL c) hour) (def_ (c_GCInterval c) (4 * hour)) (def_ (c_BarrierTimeout c) minute) (def_ (c_MarkTimeout c) hour)
    (def_ (c_SweepTimeout c) (6 * hour)) (def_ (c_Lease c) (60 * second)) (def_ (c_AdoptTimeout c) (5 * minute))
    (def_ (c_ParticipantTimeout c) hour) (def_ (c_Delta c) (10 * minute)) (def_ (c_FirstAudit c) (5 * minute))
    (def_ (c_AuditInterval c) (7 * 24 * hour)) (def_ (c_SealAfter c) hour) (def_ (c_Grace c) hour) (def_ (c_ViewRefresh c) (30 * second))
    (def_ (c_ForwardTimeout c) (30 * second)) (def_ (c_MaintenanceTick c) (5 * second)) (def_ (c_WatchReconcile c) (30 * second))
    (if (c_PutChunkBytes c <=? 0)%Z then 8388608%Z else c_PutChunkBytes c) (c_NoSync c)
    (if (c_SegmentSize c <=? 0)%Z then DefaultSegmentSize else c_SegmentSize c).

(** The slots of writes, [2*jobs]. *)
Definition slots (c : Config) : Z := 2 * (if (c_Jobs c <=? 0)%Z then 8 else c_Jobs c).

Section life.
Context {P DB : Type} `{PackStore P} `{KVStore DB} `{Codec View} `{Codec gcMeta}.

(** * Opening *)

Definition mkStoreID : bytes := of_string "store_id".

(** The id of the store: the one kept, or a random one that is kept first. *)
Definition open_storeID (d : DB) (random : bytes) : DB * (string + bytes) :=
  match Get d mkStoreID with
  | inr sid => (d, inr sid)
  | inl _ => match Set_key d mkStoreID random with
             | (Some e, d) => (d, inl e)
             | (None, d) => (d, inr random)
             end
  end.

Definition stored_view (d : DB) : option View :=
  match Get d mkView_row with
  | inr b => match Decode b with inr v => Some v | inl _ => None end
  | inl _ => None
  end.

(** [Open], once the databases are open: the store id and the node. *)
Definition Open (id : NodeID) (store : P) (d : DB) (random : bytes) : DB * (string + bytes * dnode P DB) :=
  match open_storeID d random with
  | (d, inl e) => (d, inl e)
  | (d, inr sid) => (d, inr (sid, MkDnode id store (newGCState d) (stored_view d) true ∅ ∅ ∅ ∅))
  end.

(** * The first view *)

Class LifeWorld (W : Type) := {
  lw_SetMarker : W → N → W * option string;     (* the acceptor's *)
  lw_Install : W → View → W * option string;
  lw_InitView : W → View → W * option cerr;     (* the catalog's *)
}.

Context {W : Type} `{Net P DB W} `{LifeWorld W} (self : NodeID).
Implicit Types w : W.

Definition set_row w (k v : bytes) : W * option string :=
  let n := nw_self w in
  let '(e, d) := Set_key (dn_db n) k v in (nw_set w (set_db n d), e).

(** [cid] is random. *)
Definition InitCluster w (storeID cid : bytes) (addrs : list string) (replicas minReplicas weight : N) (zone : string) (allowUnsafe : bool) :
    W * (merr + View) :=
  match dn_view (nw_self w) with
  | Some _ => (w, inl (MText "node: already a member of a cluster"))
  | None =>
      match InitCluster_view cid self addrs replicas minReplicas weight zone allowUnsafe with
      | inl e => (w, inl (MText e))
      | inr v =>
          match lw_SetMarker w 1 with
          | (w, Some e) => (w, inl (MText e))
          | (w, None) =>
          match lw_Install w v with
          | (w, Some e) => (w, inl (MText e))
          | (w, None) =>
              let w := nw_set w (nw_self w <| dn_view := Some v |>) in
              match set_row w mkView_row (View.Encode v) with
              | (w, Some e) => (w, inl (MText e))
              | (w, None) =>
              match set_row w (of_string "registered/" ++ storeID) [x01] with
              | (w, Some e) => (w, inl (MText e))
              | (w, None) =>
              match lw_InitView w v with
              | (w, Some e) => (w, inl (MCat e))
              | (w, None) => (w, inr v)
              end end end
          end end
      end
  end.

(** * Standing *)

(** [Unreachable]: the members whose last call failed within two minutes; older entries
    are forgotten. *)
Definition recent_failure (now t : Z) : bool := negb (2 * minute <? now - t)%Z.

Definition Unreachable w : W * list bytes :=
  let n := nw_self w in
  let kept := filter (λ e, recent_failure (nw_now w) e.2 = true) (dn_unreachable n) in
  (nw_set w (n <| dn_unreachable := kept |>), (λ e, arr_bytes e.1) <$> map_to_list kept).

Definition addrsOf w (joinAddrs : gmap NodeID (list string)) (id : NodeID) : list string :=
  match match dn_view (nw_self w) with Some v => View_Node v id | None => None end with
  | Some nd => if bool_decide (Node_Addrs nd = []) then default [] (joinAddrs !! id) else Node_Addrs nd
  | None => default [] (joinAddrs !! id)
  end.

(** [rememberAddrs]; the connection is dropped besides. *)
Definition rememberAddrs w (joinAddrs : gmap NodeID (list string)) (id : NodeID) (addrs : list string) : W * gmap NodeID (list string) :=
  (markReachable w id, <[id := addrs]> joinAddrs).

(** [refreshView]: [r] is what [ReadView] answered. *)
Definition refreshView w (r : cerr + View) : W := match r with inl _ => w | inr v => nw_adopt w v end.

(** [checkFreeSpace]: [disk] is what [diskFree] says, free and total. *)
Definition checkFreeSpace w (minFree : Z) (disk : option (Z * Z)) : W :=
  match disk with
  | None => w
  | Some (free, total) =>
      let reserve := if (minFree =? 0)%Z then Z.min (Z.quot total 20) (Z.shiftl 100 30) else minFree in
      nw_set w (nw_self w <| dn_writable := (reserve <? free)%Z |>)
  end.

Definition updateSelfEntry `{MaintWorld W} w (minFree : Z) (disk : option (Z * Z)) (addrs : list string) : W :=
  match dn_view (nw_self w) with
  | None => w
  | Some v =>
      match View_Node v self with
      | None => w
      | Some me =>
          let w := checkFreeSpace w minFree disk in
          let writable := dn_writable (nw_self w) in
          if sameStrings (Node_Addrs me) addrs && Bool.eqb (Node_Writable me) writable then w
          else match mw_CASView w (selfEntry_change self addrs writable) with
               | (w, Some nv, None) => nw_adopt w nv
               | (w, _, _) => w
               end
      end
  end.
End life.

(** * Offline commands *)

(** The endpoint of [OpenOffline]: its id is zero and no dial succeeds. *)
Definition offlineID : NodeID := arr_of 32 [].
Definition offline_dial : net_err := NErr "node: offline".

(** * Theorems *)

(** Taking the defaults twice is taking them once, and no duration is left at zero. *)
Theorem defaults_idempotent c : defaults (defaults c) = defaults c ∧ (c_Lease (defaults c) ≠ 0)%Z ∧ (0 < c_PutChunkBytes (defaults c))%Z.
Proof.
  assert (∀ d v, (v ≠ 0)%Z → def_ (def_ d v) v = def_ d v) as Hd.
  { intros d v Hv. unfold def_. destruct (Z.eqb_spec d 0) as [->|Hn]; [by rewrite (proj2 (Z.eqb_neq v 0) Hv)|]. by rewrite (proj2 (Z.eqb_neq d 0) Hn). }
  split_and!.
  - unfold defaults. cbn -[def_]. rewrite !Hd by (unfold hour, minute, second; lia). f_equal.
    + destruct c as [dir pd]. cbn. destruct (bool_decide (pd = "")) eqn:Eb; [|by rewrite Eb]. rewrite bool_decide_eq_false_2; [done|]. by destruct dir.
    + destruct (Z.leb_spec (c_PutChunkBytes c) 0); [done|]. by rewrite (proj2 (Z.leb_gt _ _)).
    + destruct (Z.leb_spec (c_SegmentSize c) 0); [done|]. by rewrite (proj2 (Z.leb_gt _ _)).
  - cbn. unfold def_, second. destruct (Z.eqb_spec (c_Lease c) 0); lia.
  - cbn. destruct (Z.leb_spec (c_PutChunkBytes c) 0); lia.
Qed.

Section restart.
Context {P DB : Type} `{PackStore P} `{KVStore DB} `{!Reliable DB} `{Codec View} `{Codec gcMeta}.

Lemma Get_abs (d : DB) k : Get d k = match kv_abs d !! k with Some v => inr v | None => inl MetaNotFound end.
Proof. unfold Get. rewrite kv_get_total. by destruct (kv_abs d !! k). Qed.

Lemma Set_abs (d : DB) k v : ∃ d', Set_key d k v = (None, d') ∧ kv_abs d' = <[k := v]> (kv_abs d).
Proof.
  unfold Set_key. pose proof (kv_commit_total d [kv_Set k v]) as Ht. destruct (kv_commit d [kv_Set k v]) as [e d'] eqn:E. cbn in Ht. subst e.
  exists d'. split; [done|]. by rewrite (kv_commit_ok _ _ _ E).
Qed.

(** The view a node goes by is the one its database holds. *)
Definition on_record (n : dnode P DB) : Prop := stored_view (dn_db n) = dn_view n.

Lemma adopt_on_record n v : on_record n → on_record (adopt n v) ∧ Get (dn_db (adopt n v)) mkStoreID = Get (dn_db n) mkStoreID ∧ dn_id (adopt n v) = dn_id n.
Proof.
  intros Hr. unfold adopt. destruct (match dn_view n with Some _ => _ | None => _ end); [done|].
  destruct (Set_abs (dn_db n) mkView_row (marshal v)) as (d & -> & Hd). destruct n as [i st g vw wr un ca re qu], g. cbn in *. split_and!; [|..].
  - unfold on_record, stored_view. cbn. rewrite Get_abs, Hd, lookup_insert_eq. change (marshal v) with (Encode v). by rewrite Decode_Encode.
  - cbn. rewrite !Get_abs, Hd, lookup_insert_ne; [done|]. by vm_compute.
  - done.
Qed.

(** A restart finds the node as it was: after any sequence of adoptions, taken or refused,
    opening the node's database again gives the store id it had and the view it went by. *)
Theorem restart_keeps_view id (store : P) (d : DB) random d1 sid (n : dnode P DB) vs (store' : P) random' :
  Open id store d random = (d1, inr (sid, n)) →
  let n1 := fold_left adopt vs n in
  ∃ n2 : dnode P DB, Open id store' (dn_db n1) random' = (dn_db n1, inr (sid, n2)) ∧ dn_view n2 = dn_view n1.
Proof.
  intros Ho. assert (on_record n ∧ Get (dn_db n) mkStoreID = inr sid) as [Hr Hs].
  { unfold Open, open_storeID in Ho. destruct (Get d mkStoreID) as [e|s] eqn:Eg.
    - destruct (Set_abs d mkStoreID random) as (d' & Es & Hd). rewrite Es in Ho. injection Ho as <- <- <-.
      split; [done|]. cbn. by rewrite Get_abs, Hd, lookup_insert_eq.
    - injection Ho as <- <- <-. split; [done|]. exact Eg. }
  cbv zeta. clear Ho. revert n Hr Hs. induction vs as [|v vs IH]; intros n Hr Hs; cbn [fold_left].
  - unfold Open, open_storeID. rewrite Hs. eexists. split; [done|]. exact Hr.
  - destruct (adopt_on_record n v Hr) as (Hr' & Hs' & _). apply IH; [done|]. by rewrite Hs'.
Qed.
End restart.

(** ** Offline commands *)

Section offline.
Context {E : Type} `{World E} `{Codec View} (self : NodeID) (pcfg : Proposer.Config).
(** No call of another node succeeds, and replies come from those that were asked. *)
Context (no_call : ∀ e id m, id ≠ offlineID → ∃ e' d t, Call e id m = (e', d, inl t)).
Context (asked : ∀ e l id, id ∈ arrival e l → id ∈ l).
Context (real_voters : ∀ e v, CurView e = Some v → offlineID ∉ VoterIDs v).

Lemma offline_call s v id req : id ≠ offlineID → ∃ s' t, call pcfg s v id req = (s', inl t).
Proof.
  intros Hid. unfold call. destruct (_ <=? _)%Z; [eauto|]. unfold call_body, tr_call.
  destruct (no_call (env (s <| inflight := <[id := (inflight_of s id + 1)%Z]> (inflight s) |>)) id req Hid) as (e & d & t & ->). eauto.
Qed.

Lemma offline_broadcast s v req ids : offlineID ∉ ids →
  ∃ s' rs, broadcast_to pcfg s v req ids = (s', rs) ∧ Forall (λ r, ∃ t, rp_res r = inl t) rs.
Proof.
  revert s. induction ids as [|id ids IH]; intros s Hn; [by exists s, []|]. cbn [broadcast_to].
  destruct (offline_call s v id req) as (s1 & t & ->); [set_solver|]. destruct (IH s1) as (s2 & rs & -> & Hrs); [set_solver|].
  eexists _, _. split; [done|]. constructor; [by exists t|done].
Qed.

Lemma offline_prepare {X} v rs : Forall (λ r, ∃ t, rp_res r = inl t) rs → ∀ best n first,
  ∃ cause, prepare_loop (X := X) v rs best n first = inl (EUnavailable cause).
Proof.
  induction 1 as [|r rs [t Ht] _ IH]; intros best n first; cbn [prepare_loop]; [eauto|]. unfold Proposer.classify. rewrite Ht. apply IH.
Qed.

(** No proposal gets through, and its change function is not asked. *)
Lemma offline_propose {X C} fuel s (c : C) reg (fn : ChangeFunc (X := X) (C := C)) na s' c' res err :
  Propose self pcfg fuel s c reg fn na = Some (s', c', res, err) → c' = c ∧ ∃ e, err = Some e ∧ is_unknown e = false ∧ ∀ x, e ≠ EFn x.
Proof.
  unfold Propose. destruct fuel as [|fuel]; [done|]. cbn [propose_loop]. destruct (ctxErr (env s)) as [ce|]; [intros [= <- <- <- <-]; eauto 6|].
  destruct (CurView (env s)) as [v|] eqn:Ev; [|intros [= <- <- <- <-]; eauto 6].
  destruct (ballotAbove self ballot_fuel s ballot0) as [[s1 [be|b]]|] eqn:Eb; [| |done].
  - intros [= <- <- <- <-]. split; [done|]. exists be. split; [done|]. revert Eb. clear. unfold ballot_fuel. cbn [ballotAbove].
    unfold nextBallot. repeat (case_match; simplify_eq/=); intros; simplify_eq/=; try done; repeat case_match; simplify_eq/=; done.
  - unfold prepare, broadcast. destruct (offline_broadcast s1 v (prepare_req v reg b) (arrival (env s1) (VoterIDs v))) as (s2 & rs & -> & Hrs).
    { intros Hin%asked. by apply (real_voters (env s) v). }
    destruct (offline_prepare (X := X) v rs Hrs Row0 0 None) as [cause ->]. cbn. intros [= <- <- <- <-]. eauto 6.
Qed.

(** A reference cannot be restored offline: with the zero id no voter is this node, so
    every write of [RestoreCatalog] fails. *)
Theorem offline_restore_fails `{Codec RefValue} fuel s name record cond na keyOf s' version err :
  RefPut (H5 := proposer_registers self pcfg) fuel s name record cond na keyOf = Some (s', version, err) → err ≠ None.
Proof.
  unfold RefPut. cbn [rg_Propose proposer_registers]. destruct (Propose _ _ _ _ _ _ _ _) as [[[[s1 c1] res] e1]|] eqn:Ep; [|done].
  destruct (offline_propose _ _ _ _ _ _ _ _ _ _ Ep) as (_ & e & -> & Hu & Hx). cbn.
  destruct e as [| | | | | | | |x]; try (by rewrite Hu; intros [= <- <- <-]); try (by intros [= <- <- <-]). by destruct (Hx x).
Qed.
End offline.
