(* ===== verification/Transport.v ===== *)
(** Connections (src/transport/transport.go and iroh.go): the pool that every call of a
    node or a client goes through, and the race of a dial over candidate addresses.

    A connection is a number.  The sections of the pool's methods that hold its mutex are
    functions on the pool; [Get] runs from one to the next, with the dial between them, so
    several callers interleave as a step relation.  The iroh library is a parameter or a
    choice of the step relation. *)
From S2P Require Import Prelude Placement View Wire.

Local Open Scope nat_scope.

(** * The pool *)

Notation conn := nat.

(** [poolKey]. *)
Definition poolKey : Type := NodeID * string.

#[global] Instance poolKey_eq_dec : EqDecision poolKey.
Proof. solve_decision. Defined.
#[global] Instance poolKey_countable : Countable poolKey.
Proof. unfold poolKey. apply _. Defined.

(** [Pool]; [dialing] is in the state of the callers. *)
Record Pool := MkPool {
  po_conns : gmap poolKey (list conn);
  po_next : gmap poolKey nat;
  po_failed : gmap poolKey Z;
}.

#[global] Instance Pool_eta : Eta Pool := λ r, MkPool (po_conns r) (po_next r) (po_failed r).

Definition pool0 : Pool := MkPool ∅ ∅ ∅.

(** [perPeer] of [NewPool]. *)
Definition NewPool_perPeer (perPeer : Z) : nat := if (perPeer <=? 0)%Z then 1 else Z.to_nat perPeer.

Definition conns_of (p : Pool) (k : poolKey) : list conn := default [] (po_conns p !! k).

(** After a failed dial, in nanoseconds. *)
Definition backoff : Z := 2 * 10 ^ 9.

(** The end of the first section of [Get]. *)
Inductive first := FConn (c : conn) | FBackoff | FDial.

Section pool.
Context (perPeer : nat).
Implicit Types (p : Pool) (k : poolKey) (closed : gset conn).

(** [Get] up to the lock of the dial: [closed] are the connections whose [Done] is
    closed. *)
Definition get_first p k closed (now : Z) : Pool * first :=
  let live := filter (λ c, c ∉ closed) (conns_of p k) in
  let p := p <| po_conns := <[k := live]> (po_conns p) |> in
  if perPeer <=? length live then
    let n := default 0 (po_next p !! k) in
    (p <| po_next := <[k := S n]> (po_next p) |>, FConn (default 0 (live !! (n mod length live))))
  else
    match po_failed p !! k with
    | Some t => if (now - t <? backoff)%Z && bool_decide (length live = 0) then (p, FBackoff) else (p, FDial)
    | None => (p, FDial)
    end.

(** [Get] once it holds the lock of the dial. *)
Definition get_locked p k : option conn :=
  if perPeer <=? length (conns_of p k) then Some (default 0 (conns_of p k !! 0)) else None.

(** [Get] after the dial. *)
Definition dial_failed p k (now : Z) : Pool := p <| po_failed := <[k := now]> (po_failed p) |>.
Definition dial_done p k (c : conn) : Pool := p <| po_failed := delete k (po_failed p) |> <| po_conns := <[k := conns_of p k ++ [c]]> (po_conns p) |>.

(** [Drop] and [Close], with the connections they close once they left the pool. *)
Definition Drop p k : Pool * list conn := (p <| po_conns := delete k (po_conns p) |> <| po_failed := delete k (po_failed p) |>, conns_of p k).
Definition Pool_Close p : Pool * list conn := (p <| po_conns := ∅ |>, concat (map_to_list (po_conns p)).*2).

(** [Path]: the connection it reports on. *)
Definition Path_conn p k closed : option conn := head (filter (λ c, c ∉ closed) (conns_of p k)).

(** ** Callers *)

(** Where a call of [Get] is. *)
Inductive get_pc := GStart | GLock | GLocked | GDial | GGot (c : conn) | GErr.

(** The pool, the connections made so far and those closed, the callers with the key
    each is for, and the holders of the locks of [dialing]. *)
Record net := MkNet {
  nt_pool : Pool;
  nt_made : nat;
  nt_closed : gset conn;
  nt_callers : gmap nat (poolKey * get_pc);
  nt_locks : gmap poolKey nat;
}.

Definition goto (s : net) (i : nat) (k : poolKey) (pc : get_pc) (p : Pool) : net :=
  MkNet p (nt_made s) (nt_closed s) (<[i := (k, pc)]> (nt_callers s)) (nt_locks s).

Definition after_first (f : first) : get_pc := match f with FConn c => GGot c | FBackoff => GErr | FDial => GLock end.

Inductive pool_step (s : net) : net → Prop :=
  | ps_call i k : nt_callers s !! i = None → pool_step s (goto s i k GStart (nt_pool s))
  | ps_first i k now : nt_callers s !! i = Some (k, GStart) →
      pool_step s (goto s i k (after_first (get_first (nt_pool s) k (nt_closed s) now).2) (get_first (nt_pool s) k (nt_closed s) now).1)
  | ps_lock i k : nt_callers s !! i = Some (k, GLock) → nt_locks s !! k = None →
      pool_step s (MkNet (nt_pool s) (nt_made s) (nt_closed s) (<[i := (k, GLocked)]> (nt_callers s)) (<[k := i]> (nt_locks s)))
  | ps_there i k c : nt_callers s !! i = Some (k, GLocked) → get_locked (nt_pool s) k = Some c →
      pool_step s (MkNet (nt_pool s) (nt_made s) (nt_closed s) (<[i := (k, GGot c)]> (nt_callers s)) (delete k (nt_locks s)))
  | ps_dial i k : nt_callers s !! i = Some (k, GLocked) → get_locked (nt_pool s) k = None → pool_step s (goto s i k GDial (nt_pool s))
  | ps_failed i k now : nt_callers s !! i = Some (k, GDial) →
      pool_step s (MkNet (dial_failed (nt_pool s) k now) (nt_made s) (nt_closed s) (<[i := (k, GErr)]> (nt_callers s)) (delete k (nt_locks s)))
  | ps_dialed i k : nt_callers s !! i = Some (k, GDial) →
      pool_step s (MkNet (dial_done (nt_pool s) k (nt_made s)) (S (nt_made s)) (nt_closed s) (<[i := (k, GGot (nt_made s))]> (nt_callers s)) (delete k (nt_locks s)))
  | ps_dies c : pool_step s (MkNet (nt_pool s) (nt_made s) ({[c]} ∪ nt_closed s) (nt_callers s) (nt_locks s))
  | ps_drop k : pool_step s (MkNet (Drop (nt_pool s) k).1 (nt_made s) (list_to_set (Drop (nt_pool s) k).2 ∪ nt_closed s) (nt_callers s) (nt_locks s))
  | ps_close : pool_step s (MkNet (Pool_Close (nt_pool s)).1 (nt_made s) (list_to_set (Pool_Close (nt_pool s)).2 ∪ nt_closed s) (nt_callers s) (nt_locks s)).

Definition net0 : net := MkNet pool0 0 ∅ ∅ ∅.

(** ** The pool keeps to its size *)

Context (some : 0 < perPeer).

Definition dials (pc : get_pc) : Prop := pc = GLocked ∨ pc = GDial.

Record pool_inv (s : net) : Prop := {
  pi_size : ∀ k, length (conns_of (nt_pool s) k) ≤ perPeer;
  pi_made : ∀ k c, c ∈ conns_of (nt_pool s) k → c < nt_made s;
  pi_once : ∀ k, NoDup (conns_of (nt_pool s) k);
  pi_lock : ∀ i k pc, nt_callers s !! i = Some (k, pc) → dials pc → nt_locks s !! k = Some i;
  pi_dial : ∀ i k, nt_callers s !! i = Some (k, GDial) → length (conns_of (nt_pool s) k) < perPeer;
}.

(** Fewer connections, the same callers. *)
Lemma shrink_inv s p closed : pool_inv s → (∀ k, conns_of p k `sublist_of` conns_of (nt_pool s) k) →
  pool_inv (MkNet p (nt_made s) closed (nt_callers s) (nt_locks s)).
Proof.
  intros [I1 I2 I3 I4 I5] Hp. split; cbn.
  - intros k. etrans; [apply sublist_length, Hp|done].
  - intros k c Hc. apply (I2 k). by eapply elem_of_sublist.
  - intros k. eapply sublist_NoDup; [apply I3|apply Hp].
  - done.
  - intros i k Hi. eapply Nat.le_lt_trans; [apply sublist_length, Hp|by eapply I5].
Qed.

(** A caller goes on to a place where it holds no lock. *)
Lemma release_inv s i k pc : pool_inv s → ¬ dials pc → pool_inv (goto s i k pc (nt_pool s)).
Proof.
  intros [I1 I2 I3 I4 I5] Hpc. split; cbn; try done.
  - intros j k' pc' [[<- [= <- <-]]|[_ Hj]]%lookup_insert_Some Hd; [done|by eapply I4].
  - intros j k' [[<- [= <- ->]]|[_ Hj]]%lookup_insert_Some; [destruct Hpc; by right|by eapply I5].
Qed.

(** And unlocks. *)
Lemma unlock_inv s i k pc pc' p made : pool_inv s → nt_callers s !! i = Some (k, pc) → dials pc → ¬ dials pc' → nt_made s ≤ made →
  (∀ k', k' ≠ k → conns_of p k' = conns_of (nt_pool s) k') → length (conns_of p k) ≤ perPeer → (∀ c, c ∈ conns_of p k → c < made) → NoDup (conns_of p k) →
  pool_inv (MkNet p made (nt_closed s) (<[i := (k, pc')]> (nt_callers s)) (delete k (nt_locks s))).
Proof.
  intros [I1 I2 I3 I4 I5] Hi Hd Hd' Hm Hother Hl Hc Hn. pose proof (I4 i k pc Hi Hd) as Hlk.
  assert (∀ j k' pc'', <[i := (k, pc')]> (nt_callers s) !! j = Some (k', pc'') → dials pc'' → nt_callers s !! j = Some (k', pc'') ∧ k' ≠ k) as Hj.
  { intros j k' pc'' [[<- [= <- <-]]|[Hne Hj]]%lookup_insert_Some Hdj; [done|]. split; [done|]. intros ->. pose proof (I4 j k pc'' Hj Hdj). congruence. }
  split; cbn.
  - intros k'. destruct (decide (k' = k)) as [->|Hk]; [done|]. by rewrite Hother.
  - intros k' c. destruct (decide (k' = k)) as [->|Hk]; [by apply Hc|]. rewrite Hother by done. intros ?%I2. lia.
  - intros k'. destruct (decide (k' = k)) as [->|Hk]; [done|]. by rewrite Hother.
  - intros j k' pc'' Hl' Hdj. destruct (Hj j k' pc'' Hl' Hdj) as [Hj' Hk]. rewrite lookup_delete_ne by done. by eapply I4.
  - intros j k' Hl'. destruct (Hj j k' GDial Hl') as [Hj' Hk]; [by right|]. rewrite Hother by done. by eapply I5.
Qed.

Lemma conns_insert p k l k' : conns_of (p <| po_conns := <[k := l]> (po_conns p) |>) k' = if decide (k' = k) then l else conns_of p k'.
Proof.
  destruct p as [cs nx fl]. unfold conns_of. cbn. case_decide as E; [subst; by rewrite lookup_insert_eq|by rewrite lookup_insert_ne].
Qed.

Lemma get_first_shrinks p k closed now k' : conns_of (get_first p k closed now).1 k' `sublist_of` conns_of p k'.
Proof.
  assert (∀ q, po_conns q = <[k := filter (λ c, c ∉ closed) (conns_of p k)]> (po_conns p) → conns_of q k' `sublist_of` conns_of p k') as Hq.
  { intros q Hq. unfold conns_of at 1. rewrite Hq. destruct (decide (k' = k)) as [->|Hk]; [rewrite lookup_insert_eq; apply sublist_filter|by rewrite lookup_insert_ne]. }
  unfold get_first. destruct p as [cs nx fl]. cbn in *. repeat case_match; by apply Hq.
Qed.

Lemma pool_step_inv s s' : pool_step s s' → pool_inv s → pool_inv s'.
Proof.
  intros Hs I. destruct Hs as [i k Hi|i k now Hi|i k Hi Hl|i k c Hi Hg|i k Hi Hg|i k now Hi|i k Hi|c|k|].
  - apply release_inv; [done|by intros [|]].
  - apply (release_inv (MkNet _ _ (nt_closed s) _ _) i k). 2: destruct (_.2); by intros [|]. apply shrink_inv; [done|]. intros k'. apply get_first_shrinks.
  - destruct I as [I1 I2 I3 I4 I5]. split; cbn; try done.
    + intros j k' pc [[<- [= <- <-]]|[Hne Hj]]%lookup_insert_Some Hd; [by rewrite lookup_insert_eq|]. rewrite lookup_insert_ne; [by eapply I4|].
      intros <-. pose proof (I4 j k pc Hj Hd). congruence.
    + intros j k' [[_ [=]]|[_ Hj]]%lookup_insert_Some. by eapply I5.
  - eapply unlock_inv; [done|done|by left|by intros [|]|done|done|apply I|apply (pi_made _ I)|apply I].
  - destruct I as [I1 I2 I3 I4 I5]. unfold get_locked in Hg. destruct (Nat.leb_spec perPeer (length (conns_of (nt_pool s) k))) as [|Hlt]; [done|]. split; cbn; try done.
    + intros j k' pc [[<- [= <- <-]]|[_ Hj]]%lookup_insert_Some Hd; [by apply (I4 i k GLocked); [|left]|by eapply I4].
    + intros j k' [[<- [= <-]]|[_ Hj]]%lookup_insert_Some; [done|by eapply I5].
  - eapply unlock_inv; [done|done|by right|by intros [|]|done|done|apply (pi_size _ I)|apply (pi_made _ I k)|apply (pi_once _ I k)].
  - assert (∀ k', conns_of (dial_done (nt_pool s) k (nt_made s)) k' = if decide (k' = k) then conns_of (nt_pool s) k ++ [nt_made s] else conns_of (nt_pool s) k') as Hc.
    { intros k'. unfold dial_done. destruct (nt_pool s) as [cs nx fl]. unfold conns_of. cbn. case_decide as E; [subst; by rewrite lookup_insert_eq|by rewrite lookup_insert_ne]. }
    eapply unlock_inv; [done|done|by right|by intros [|]|lia|..]; [intros k' Hk; rewrite Hc; by case_decide|..]; rewrite Hc, decide_True by done.
    + rewrite length_app. cbn. pose proof (pi_dial _ I i k Hi). lia.
    + intros c [Hin|Hin]%elem_of_app; [pose proof (pi_made _ I k c Hin); lia|]. apply list_elem_of_singleton in Hin as ->. lia.
    + apply NoDup_app. split_and!; [apply I| |apply NoDup_singleton]. intros c Hin ->%list_elem_of_singleton. pose proof (pi_made _ I k _ Hin). lia.
  - by apply shrink_inv.
  - apply shrink_inv; [done|]. intros k'. cbn. destruct (nt_pool s) as [cs nx fl]. unfold conns_of. cbn. destruct (decide (k = k')) as [->|Hk]; [rewrite lookup_delete_eq; apply sublist_nil_l|by rewrite lookup_delete_ne].
  - apply shrink_inv; [done|]. intros k'. cbn. destruct (nt_pool s) as [cs nx fl]. unfold conns_of. cbn. rewrite lookup_empty. apply sublist_nil_l.
Qed.

Lemma pool_reachable s : rtc pool_step net0 s → pool_inv s.
Proof.
  assert (pool_inv net0) as I0. { split; cbn; unfold conns_of; cbn; intros; rewrite ?lookup_empty in *; cbn in *; try done; [lia|by apply elem_of_nil in H|constructor]. }
  intros Hs. remember net0 as s0 eqn:E0. clear E0. induction Hs as [|s1 s2 s3 H12 _ IH]; [done|]. by apply IH, (pool_step_inv s1).
Qed.

(** A pool keeps to its size however its callers interleave, connections die, and
    others drop or close: there are never more than [perPeer] connections to a peer under
    a protocol, none twice, and at most one caller dials a peer at a time. *)
Theorem pool_bounded s : rtc pool_step net0 s →
  (∀ k, length (conns_of (nt_pool s) k) ≤ perPeer ∧ NoDup (conns_of (nt_pool s) k)) ∧
  ∀ i j k, nt_callers s !! i = Some (k, GDial) → nt_callers s !! j = Some (k, GDial) → i = j.
Proof.
  intros I%pool_reachable. split; [intros k; split; [apply I|apply (pi_once _ I)]|]. intros i j k Hi Hj.
  pose proof (pi_lock _ I i k GDial Hi (or_intror eq_refl)). pose proof (pi_lock _ I j k GDial Hj (or_intror eq_refl)). congruence.
Qed.

(** ** What a call of Get is given *)

Lemma get_first_conn p k closed now : perPeer ≤ length (filter (λ c, c ∉ closed) (conns_of p k)) →
  get_first p k closed now =
    (MkPool (<[k := filter (λ c, c ∉ closed) (conns_of p k)]> (po_conns p)) (<[k := S (default 0 (po_next p !! k))]> (po_next p)) (po_failed p),
     FConn (default 0 (filter (λ c, c ∉ closed) (conns_of p k) !! (default 0 (po_next p !! k) mod length (filter (λ c, c ∉ closed) (conns_of p k)))))).
Proof. intros Hl. unfold get_first. destruct p as [cs nx fl]. cbn in *. by rewrite (proj2 (Nat.leb_le _ _) Hl). Qed.

(** The calls of [Get] that need no dial, one after the other. *)
Fixpoint gets (n : nat) p k closed (now : Z) : list first :=
  match n with
  | O => []
  | S n => (get_first p k closed now).2 :: gets n (get_first p k closed now).1 k closed now
  end.

Lemma gets_next n p k closed now live : filter (λ c, c ∉ closed) (conns_of p k) = live → perPeer ≤ length live →
  gets n p k closed now = (λ j, FConn (default 0 (live !! ((default 0 (po_next p !! k) + j) mod length live)))) <$> seq 0 n.
Proof.
  revert p. induction n as [|n IH]; intros p El Hl; [done|]. cbn [gets seq fmap list_fmap]. rewrite get_first_conn by (by rewrite El). cbn [fst snd]. rewrite El, Nat.add_0_r. f_equal.
  rewrite IH; [|unfold conns_of; cbn; rewrite lookup_insert_eq; cbn; rewrite <- El; rewrite list_filter_filter; apply list_filter_iff; tauto|done].
  cbn. rewrite lookup_insert_eq. cbn. rewrite <- fmap_S_seq, <- list_fmap_compose. apply list_fmap_ext. intros _ j _. cbn. do 5 f_equal. lia.
Qed.

(** The connections to a peer are used in turn: with all of them there, as many calls as
    there are connections are given each of them once, starting behind the last one
    given. *)
Theorem Get_rotates p k closed now live : filter (λ c, c ∉ closed) (conns_of p k) = live → perPeer ≤ length live →
  gets (length live) p k closed now = FConn <$> rotate (default 0 (po_next p !! k)) live ∧ gets (length live) p k closed now ≡ₚ FConn <$> live.
Proof.
  intros El Hl. assert (gets (length live) p k closed now = FConn <$> rotate (default 0 (po_next p !! k)) live) as E.
  - rewrite (gets_next _ p k closed now live El Hl). apply list_eq. intros j. rewrite !list_lookup_fmap. destruct (decide (j < length live)) as [Hj|Hj].
    + rewrite lookup_seq_lt by done. rewrite lookup_rotate_r by done. cbn. unfold rotate_nat_add.
      assert (Z.to_nat ((Z.of_nat (default 0%nat (po_next p !! k)) + Z.of_nat j) `mod` Z.of_nat (length live))%Z = (default 0 (po_next p !! k) + j) mod length live) as ->.
      { rewrite <- Nat2Z.inj_add, <- Nat2Z.inj_mod. apply Nat2Z.id. }
      assert ((default 0 (po_next p !! k) + j) mod length live < length live) as Hm by (apply Nat.mod_upper_bound; lia). apply lookup_lt_is_Some_2 in Hm as [c ->]. done.
    + rewrite (proj2 (lookup_ge_None (seq 0 _) j)) by (rewrite length_seq; lia). rewrite (proj2 (lookup_ge_None (rotate _ _) j)) by (rewrite length_rotate; lia). done.
  - split; [done|]. rewrite E. apply fmap_Permutation. unfold rotate. rewrite Permutation_app_comm. by rewrite take_drop.
Qed.

(** A call that meets enough connections is given one that is open and in the pool. *)
Theorem Get_open p k closed now c : (get_first p k closed now).2 = FConn c → c ∉ closed ∧ c ∈ conns_of p k.
Proof.
  destruct (decide (perPeer ≤ length (filter (λ c, c ∉ closed) (conns_of p k)))) as [Hl|Hl].
  - rewrite get_first_conn by done. cbn. intros [= <-]. set (live := filter _ _) in *. set (j := _ mod _).
    assert (j < length live) as [c Hc]%lookup_lt_is_Some_2 by (apply Nat.mod_upper_bound; lia). rewrite Hc. cbn. apply list_elem_of_lookup_2 in Hc. by apply list_elem_of_filter in Hc.
  - unfold get_first. destruct p as [cs nx fl]. cbn in *. rewrite (proj2 (Nat.leb_gt _ _)) by lia. repeat case_match; done.
Qed.
End pool.

(** ** Three races *)

(** A step by the one who takes it. *)
Inductive turn := TCall (i : nat) (k : poolKey) | TGo (i : nat) (now : Z) | TRefused (i : nat) (now : Z) | TDies (c : conn) | TDrop (k : poolKey) | TClose.

Section turns.
Context (perPeer : nat).

Definition take_turn (s : net) (t : turn) : option net :=
  match t with
  | TCall i k => match nt_callers s !! i with None => Some (goto s i k GStart (nt_pool s)) | Some _ => None end
  | TGo i now =>
      match nt_callers s !! i with
      | Some (k, GStart) => let '(p, f) := get_first perPeer (nt_pool s) k (nt_closed s) now in Some (goto s i k (after_first f) p)
      | Some (k, GLock) =>
          match nt_locks s !! k with
          | None => Some (MkNet (nt_pool s) (nt_made s) (nt_closed s) (<[i := (k, GLocked)]> (nt_callers s)) (<[k := i]> (nt_locks s)))
          | Some _ => None
          end
      | Some (k, GLocked) =>
          match get_locked perPeer (nt_pool s) k with
          | Some c => Some (MkNet (nt_pool s) (nt_made s) (nt_closed s) (<[i := (k, GGot c)]> (nt_callers s)) (delete k (nt_locks s)))
          | None => Some (goto s i k GDial (nt_pool s))
          end
      | Some (k, GDial) =>
          Some (MkNet (dial_done (nt_pool s) k (nt_made s)) (S (nt_made s)) (nt_closed s) (<[i := (k, GGot (nt_made s))]> (nt_callers s)) (delete k (nt_locks s)))
      | _ => None
      end
  | TRefused i now =>
      match nt_callers s !! i with
      | Some (k, GDial) => Some (MkNet (dial_failed (nt_pool s) k now) (nt_made s) (nt_closed s) (<[i := (k, GErr)]> (nt_callers s)) (delete k (nt_locks s)))
      | _ => None
      end
  | TDies c => Some (MkNet (nt_pool s) (nt_made s) ({[c]} ∪ nt_closed s) (nt_callers s) (nt_locks s))
  | TDrop k => Some (MkNet (Drop (nt_pool s) k).1 (nt_made s) (list_to_set (Drop (nt_pool s) k).2 ∪ nt_closed s) (nt_callers s) (nt_locks s))
  | TClose => Some (MkNet (Pool_Close (nt_pool s)).1 (nt_made s) (list_to_set (Pool_Close (nt_pool s)).2 ∪ nt_closed s) (nt_callers s) (nt_locks s))
  end.

Fixpoint take_turns (s : net) (ts : list turn) : option net := match ts with [] => Some s | t :: ts => take_turn s t ≫= λ s, take_turns s ts end.

Lemma take_turn_step s t s' : take_turn s t = Some s' → pool_step perPeer s s'.
Proof.
  destruct t as [i k|i now|i now|c|k|]; cbn; [| | |intros [= <-]; constructor..].
  - destruct (nt_callers s !! i) eqn:E; [done|]. intros [= <-]. by constructor.
  - destruct (nt_callers s !! i) as [[k pc]|] eqn:E; [|done]. destruct pc; try done.
    + destruct (get_first _ _ _ _ _) as [p f] eqn:Ef. intros [= <-]. pose proof (ps_first perPeer s i k now E) as Hs. by rewrite Ef in Hs.
    + destruct (nt_locks s !! k) eqn:El; [done|]. intros [= <-]. by apply ps_lock.
    + destruct (get_locked _ _ _) eqn:Eg; intros [= <-]; [by apply ps_there|by apply ps_dial].
    + intros [= <-]. by apply ps_dialed.
  - destruct (nt_callers s !! i) as [[k pc]|] eqn:E; [|done]. destruct pc; try done. intros [= <-]. by apply ps_failed.
Qed.

Lemma take_turns_steps ts : ∀ s s', take_turns s ts = Some s' → rtc (pool_step perPeer) s s'.
Proof.
  induction ts as [|t ts IH]; cbn; [by intros s s' [= <-]|]. intros s s'. destruct (take_turn s t) as [s1|] eqn:E; [|done]. cbn. intros Hs.
  eapply rtc_l; [by eapply take_turn_step|by apply IH].
Qed.
End turns.

Definition a_peer : poolKey := (arr_of 32 [x01], "amber/cluster"%string).

(** Two callers find no connection; the first one dials. *)
Definition two_dial : list turn := [TCall 0 a_peer; TCall 1 a_peer; TGo 0 0; TGo 1 0; TGo 0 0; TGo 0 0].

(** A state that turns lead to and that looks as a test says. *)
Lemma turns_reach perPeer ts (test : net → bool) s0 : test <$> take_turns perPeer s0 ts = Some true → ∃ s, rtc (pool_step perPeer) s0 s ∧ take_turns perPeer s0 ts = Some s ∧ test s = true.
Proof. destruct (take_turns perPeer s0 ts) as [s|] eqn:E; cbn; [|done]. intros [= Ht]. exists s. split; [by eapply take_turns_steps|done]. Qed.

#[global] Instance get_pc_eq_dec : EqDecision get_pc.
Proof. solve_decision. Defined.
#[global] Instance first_eq_dec : EqDecision first.
Proof. solve_decision. Defined.

Definition is_at (i : nat) (pc : get_pc) (s : net) : bool := bool_decide (nt_callers s !! i = Some (a_peer, pc)).

(** [Get] gives out a closed connection: a caller that waited for another one's dial is
    given the first connection of the pool without a look at it. *)
Theorem closed_connection_given : ∃ s, rtc (pool_step 1) net0 s ∧ nt_callers s !! 1 = Some (a_peer, GGot 0) ∧ 0 ∈ nt_closed s.
Proof.
  destruct (turns_reach 1 (two_dial ++ [TGo 0 0; TDies 0; TGo 1 0; TGo 1 0]) (λ s, is_at 1 (GGot 0) s && bool_decide (0 ∈ nt_closed s)) net0) as (s & Hs & _ & Ht); [vm_compute; reflexivity|].
  apply andb_true_iff in Ht as [H1%bool_decide_eq_true H2%bool_decide_eq_true]. by exists s.
Qed.

(** The back-off after a failed dial does not reach those who wait for it: each dials in
    turn, at the same moment at which a new call is refused. *)
Theorem waiter_dials_again : ∃ s, rtc (pool_step 1) net0 s ∧ nt_callers s !! 1 = Some (a_peer, GDial) ∧ (get_first 1 (nt_pool s) a_peer (nt_closed s) 5).2 = FBackoff.
Proof.
  destruct (turns_reach 1 (two_dial ++ [TRefused 0 5; TGo 1 5; TGo 1 5])
    (λ s, is_at 1 GDial s && bool_decide ((get_first 1 (nt_pool s) a_peer (nt_closed s) 5).2 = FBackoff)) net0) as (s & Hs & _ & Ht); [vm_compute; reflexivity|].
  apply andb_true_iff in Ht as [H1%bool_decide_eq_true H2%bool_decide_eq_true]. by exists s.
Qed.

(** A dial that is under way when the pool is closed leaves its connection open, in a pool
    that is not closed again. *)
Theorem dial_outlives_close : ∃ s0 s, rtc (pool_step 1) net0 s0 ∧ take_turns 1 s0 [TClose; TGo 0 0] = Some s ∧ nt_closed s = ∅ ∧ conns_of (nt_pool s) a_peer = [0].
Proof.
  set (test := λ s, bool_decide (nt_closed s = ∅) && bool_decide (conns_of (nt_pool s) a_peer = [0])).
  destruct (turns_reach 1 two_dial (λ s0, bool_decide (test <$> take_turns 1 s0 [TClose; TGo 0 0] = Some true)) net0) as (s0 & Hs & _ & Ht); [vm_compute; reflexivity|].
  apply bool_decide_eq_true in Ht. destruct (turns_reach 1 [TClose; TGo 0 0] test s0 Ht) as (s & _ & E & Htest).
  apply andb_true_iff in Htest as [H1%bool_decide_eq_true H2%bool_decide_eq_true]. by exists s0, s.
Qed.

(** * Calls *)

(** What a call returns besides a reply. *)
Inductive call_err := CGet (s : string) | COpen (s : string) | CWrite (s : string) | CRead (e : wire_error) | CContext | CRemote (reply : Msg) (e : Error).

(** The stream of a call: whether it opens, takes the request, and what is read from it;
    [None] for the reply when the context ends first. *)
Record exchange := MkExchange { ex_open : option string; ex_write : option string; ex_reply : option (wire_error + Msg) }.

(** [Call] from the result of [Get] on, with the connections it closes. *)
Definition Pool_Call (p : Pool) (k : poolKey) (got : string + conn) (x : exchange) : Pool * list conn * (call_err + Msg) :=
  match got with
  | inl e => (p, [], inl (CGet e))
  | inr _ =>
      match ex_open x with
      | Some e => (Drop p k, inl (COpen e))
      | None =>
          (p, [],
           match ex_write x with
           | Some e => inl (CWrite e)
           | None =>
               match ex_reply x with
               | None => inl CContext
               | Some (inl e) => inl (CRead e)
               | Some (inr m) => if (m_Type m =? TErr)%Z then inl (CRemote m (ErrorFromMsg m)) else inr m
               end
           end)
      end
  end.

(** [Open]. *)
Definition Pool_Open (p : Pool) (k : poolKey) (got : string + conn) (opens : option string) : Pool * list conn * (call_err + conn) :=
  match got with
  | inl e => (p, [], inl (CGet e))
  | inr c => match opens with Some e => (Drop p k, inl (COpen e)) | None => (p, [], inr c) end
  end.

(** A call that breaks while its request is written or its reply is read leaves the
    connection in the pool: the next call is given a connection of the same ones, none is
    redialled. *)
Theorem broken_call_keeps_connection p k c x e : ex_open x = None → (Pool_Call p k (inr c) x).2 = inl e →
  (Pool_Call p k (inr c) x).1 = (p, []) ∧ ∀ perPeer closed now, perPeer ≤ length (filter (λ c, c ∉ closed) (conns_of p k)) → 0 < perPeer →
    ∃ c', (get_first perPeer (Pool_Call p k (inr c) x).1.1 k closed now).2 = FConn c' ∧ c' ∈ conns_of p k.
Proof.
  intros Ho He. unfold Pool_Call in *. rewrite Ho in *. split; [done|]. intros perPeer closed now Hl Hp. cbn [fst]. destruct (get_first perPeer p k closed now).2 as [c'| |] eqn:E.
  - exists c'. split; [done|]. by eapply Get_open.
  - by rewrite get_first_conn in E.
  - by rewrite get_first_conn in E.
Qed.

(** * The race of a dial *)

(** The goroutine of a candidate address: in [Connect], in [awaitHandshake], or its
    result is sent. *)
Inductive cand := CConnect | CHandshake | CSent.

#[global] Instance cand_eq_dec : EqDecision cand.
Proof. solve_decision. Defined.

(** The caller: receiving, with the failures so far; or returned, with the results the
    goroutine it left behind still has to take. *)
Inductive race_pc := RcWait (errs : nat) | RcWon (i : nat) (remaining : nat) | RcFailed.

(** A candidate's connection has its number. *)
Record race := MkRace {
  rc_cands : list cand;
  rc_results : list (nat * bool);      (* the channel: whose, and whether with a connection *)
  rc_open : gset nat;
  rc_main : race_pc;
}.

Definition race0 (n : nat) : race := MkRace (replicate n CConnect) [] ∅ (RcWait 0).

(** The result of candidate [i] is sent. *)
Definition report (r : race) (i : nat) (ok : bool) (open : gset nat) : race := MkRace (<[i := CSent]> (rc_cands r)) (rc_results r ++ [(i, ok)]) open (rc_main r).

(** [raceConnect] and [awaitHandshake]; contexts may end at any time. *)
Inductive race_step (r : race) : race → Prop :=
  | rc_refused i : rc_cands r !! i = Some CConnect → race_step r (report r i false (rc_open r))
  | rc_connected i : rc_cands r !! i = Some CConnect → race_step r (MkRace (<[i := CHandshake]> (rc_cands r)) (rc_results r) ({[i]} ∪ rc_open r) (rc_main r))
  | rc_answered i : rc_cands r !! i = Some CHandshake → race_step r (report r i true (rc_open r))
  | rc_broken i : rc_cands r !! i = Some CHandshake → race_step r (report r i false (rc_open r ∖ {[i]}))
  | rc_fail errs i rest : rc_main r = RcWait errs → rc_results r = (i, false) :: rest →
      race_step r (MkRace (rc_cands r) rest (rc_open r) (if S errs =? length (rc_cands r) then RcFailed else RcWait (S errs)))
  | rc_win errs i rest : rc_main r = RcWait errs → rc_results r = (i, true) :: rest →
      race_step r (MkRace (rc_cands r) rest (rc_open r) (RcWon i (length (rc_cands r) - errs - 1)))
  | rc_late j n i ok rest : rc_main r = RcWon j (S n) → rc_results r = (i, ok) :: rest →
      race_step r (MkRace (rc_cands r) rest (if ok then rc_open r ∖ {[i]} else rc_open r) (RcWon j n)).

(** The candidates whose result is not sent yet. *)
Definition running (r : race) : nat := length (filter (λ c, c ≠ CSent) (rc_cands r)).

(** The results still to be received. *)
Definition awaited (n : nat) (m : race_pc) : nat := match m with RcWait errs => n - errs | RcWon _ k => k | RcFailed => 0 end.

(** Who answers for the open connection [i]. *)
Definition owned (r : race) (i : nat) : Prop := rc_cands r !! i = Some CHandshake ∨ (i, true) ∈ rc_results r ∨ ∃ n, rc_main r = RcWon i n.

Record race_inv (n : nat) (r : race) : Prop := {
  ri_len : length (rc_cands r) = n;
  ri_count : running r + length (rc_results r) = awaited n (rc_main r);
  ri_errs : ∀ errs, rc_main r = RcWait errs → errs < n;
  ri_open : ∀ i, i ∈ rc_open r ↔ owned r i;
  ri_sent : ∀ i ok, (i, ok) ∈ rc_results r → rc_cands r !! i = Some CSent;
  ri_won : ∀ i k, rc_main r = RcWon i k → rc_cands r !! i = Some CSent ∧ ∀ ok, (i, ok) ∉ rc_results r;
  ri_once : NoDup (rc_results r).*1;
}.

Lemma sent_count l i c : l !! i = Some c → c ≠ CSent → S (length (filter (λ c, c ≠ CSent) (<[i := CSent]> l))) = length (filter (λ c, c ≠ CSent) l).
Proof.
  intros Hl Hc. rewrite <- (take_drop_middle l i c Hl) at 2. rewrite insert_take_drop by (by eapply lookup_lt_Some). rewrite !filter_app, !filter_cons, !length_app.
  rewrite decide_False by (intros E; by apply E). rewrite decide_True by done. cbn. lia.
Qed.

Lemma moved_count l i c c' : l !! i = Some c → c ≠ CSent → c' ≠ CSent → length (filter (λ c, c ≠ CSent) (<[i := c']> l)) = length (filter (λ c, c ≠ CSent) l).
Proof.
  intros Hl Hc Hc'. rewrite <- (take_drop_middle l i c Hl) at 2. rewrite insert_take_drop by (by eapply lookup_lt_Some). by rewrite !filter_app, !filter_cons, !length_app, !decide_True by done.
Qed.

(** A candidate that is still at work has sent nothing and has not won. *)
Lemma at_work n r i c : race_inv n r → rc_cands r !! i = Some c → c ≠ CSent → (∀ ok, (i, ok) ∉ rc_results r) ∧ ∀ k, rc_main r ≠ RcWon i k.
Proof. intros I Hi Hc. split; [intros ok ?%(ri_sent _ _ I); congruence|]. intros k [? _]%(ri_won _ _ I). congruence. Qed.

Lemma report_inv n r i c ok open : race_inv n r → rc_cands r !! i = Some c → c ≠ CSent → (i ∈ open ↔ ok = true) → (∀ j, j ≠ i → j ∈ open ↔ j ∈ rc_open r) →
  race_inv n (report r i ok open).
Proof.
  intros I Hi Hc Hoi Hoj. destruct (at_work n r i c I Hi Hc) as [Hres Hwon]. assert (i < length (rc_cands r)) as Hlt by (by eapply lookup_lt_Some). destruct I as [I1 I2 I3 I4 I5 I6 I7]. split; cbn.
  - by rewrite length_insert.
  - unfold running in *. cbn. rewrite length_app. cbn. pose proof (sent_count _ i c Hi Hc). lia.
  - done.
  - intros j. unfold owned. cbn. destruct (decide (j = i)) as [->|Hj].
    + rewrite Hoi, list_lookup_insert_eq by done. rewrite elem_of_app, list_elem_of_singleton. split; [intros ->; auto|]. intros [|[[Hin|[= <-]]|[k Hk]]]; [done|by apply Hres in Hin|done|by apply Hwon in Hk].
    + rewrite Hoj by done. rewrite I4. unfold owned. rewrite list_lookup_insert_ne by done. rewrite elem_of_app, list_elem_of_singleton. split; [naive_solver|]. intros [Hx|[[Hin|[= Hx _]]|Hx]]; [by left|by right; left|done|by right; right].
  - intros j ok' [Hin|[= -> ->]%list_elem_of_singleton]%elem_of_app; [|by apply list_lookup_insert_eq]. destruct (decide (j = i)) as [->|]; [by apply list_lookup_insert_eq|]. rewrite list_lookup_insert_ne by done. by eapply I5.
  - intros j k Hk. destruct (I6 j k Hk) as [Hj Hno]. assert (j ≠ i) as Hne by (intros ->; by apply Hwon in Hk). rewrite list_lookup_insert_ne by done. split; [done|].
    intros ok' [Hin|[= -> ->]%list_elem_of_singleton]%elem_of_app; [by apply Hno in Hin|done].
  - rewrite fmap_app. apply NoDup_app. split_and!; [done| |apply NoDup_singleton]. intros j ((j' & ok') & Ej & Hin)%list_elem_of_fmap Ei%list_elem_of_singleton. cbn in *. subst. by apply Hres in Hin.
Qed.

(** A result is received. *)
Lemma received_inv n r i ok rest open m : race_inv n r → rc_results r = (i, ok) :: rest → awaited n (rc_main r) = S (awaited n m) →
  (∀ errs, m = RcWait errs → errs < n) → (∀ j, j ∈ open ↔ if decide (j = i) then (∃ k, m = RcWon i k) else j ∈ rc_open r) →
  (∀ j k, m = RcWon j k → j = i ∧ ok = true ∨ ∃ k', rc_main r = RcWon j k') → (∀ j, j ≠ i → (∃ k, rc_main r = RcWon j k) → ∃ k, m = RcWon j k) →
  race_inv n (MkRace (rc_cands r) rest open m).
Proof.
  intros [I1 I2 I3 I4 I5 I6 I7] Er Ha He Ho Hm Hm'. rewrite Er in *. apply NoDup_cons in I7 as [Hi I7].
  assert (∀ ok', (i, ok') ∉ rest) as Hrest. { intros ok' Hin. apply Hi. apply list_elem_of_fmap. by exists (i, ok'). }
  assert (rc_cands r !! i = Some CSent) as Hci by (apply (I5 i ok); by left).
  split; cbn; try done.
  - unfold running in *. cbn in *. lia.
  - intros j. rewrite Ho. unfold owned. cbn. case_decide as Hj.
    + subst j. rewrite Hci. split; [by intros [k ->]; eauto|]. intros [|[Hin|]]; [done|by apply Hrest in Hin|done].
    + rewrite I4. unfold owned. rewrite Er, elem_of_cons. split; [naive_solver|]. intros [|[|[k Hk]]]; [by left|by right; left; right|]. right. right. destruct (Hm j k Hk) as [[-> _]|]; done.
  - intros j ok' Hin. apply (I5 j ok'). by right.
  - intros j k Hk. destruct (Hm j k Hk) as [[-> _]|[k' Hk']]; [done|]. destruct (I6 j k' Hk') as [Hc Hno]. split; [done|]. intros ok' Hin. apply (Hno ok'). by right.
Qed.

Lemma race_step_inv n r r' : race_step r r' → race_inv n r → race_inv n r'.
Proof.
  intros Hs I. destruct Hs as [i Hi|i Hi|i Hi|i Hi|errs i rest Hm Er|errs i rest Hm Er|j k i ok rest Hm Er].
  - eapply report_inv; [done|done|done| |done]. destruct (at_work n r i CConnect I Hi) as [H1 H2]; [done|]. rewrite (ri_open _ _ I). split; [|done].
    intros [|[Hin|[k Hk]]]; [congruence|by apply H1 in Hin|by apply H2 in Hk].
  - destruct (at_work n r i CConnect I Hi) as [H1 H2]; [done|]. assert (i < length (rc_cands r)) as Hlt by (by eapply lookup_lt_Some). destruct I as [I1 I2 I3 I4 I5 I6 I7]. split; cbn; try done.
    + by rewrite length_insert.
    + unfold running in *. cbn. by rewrite (moved_count _ i CConnect).
    + intros j. rewrite elem_of_union, elem_of_singleton, I4. unfold owned. cbn. destruct (decide (j = i)) as [->|Hj]; [rewrite list_lookup_insert_eq by done; naive_solver|rewrite list_lookup_insert_ne by done; naive_solver].
    + intros j ok Hin. rewrite list_lookup_insert_ne; [by eapply I5|]. intros ->. by apply H1 in Hin.
    + intros j k Hk. rewrite list_lookup_insert_ne; [by eapply I6|]. intros ->. by apply H2 in Hk.
  - eapply report_inv; [done|done|done| |done]. rewrite (ri_open _ _ I). split; [done|]. intros _. by left.
  - eapply report_inv; [done|done|done|set_solver|set_solver].
  - pose proof (ri_errs _ _ I errs Hm) as Hlt. pose proof (ri_len _ _ I) as Hn.
    assert (i ∉ rc_open r) as Hno. { rewrite (ri_open _ _ I). unfold owned. rewrite Hm, Er. pose proof (ri_once _ _ I) as Hnd. rewrite Er in Hnd. apply NoDup_cons in Hnd as [Hni _].
      intros [Hc|[[[=]|Hin]%elem_of_cons|[k [=]]]]; [|apply Hni, list_elem_of_fmap; by exists (i, true)]. pose proof (ri_sent _ _ I i false) as Hs. rewrite Er in Hs. rewrite Hs in Hc by (by left). done. }
    eapply received_inv; [done|done|..]; rewrite ?Hm, ?Hn; destruct (Nat.eqb_spec (S errs) n) as [En|En]; try (cbn; lia); try (intros; naive_solver lia).
    all: intros j; case_decide as Hj; [subst j; split; [done|by intros [? [=]]]|done].
  - pose proof (ri_errs _ _ I errs Hm) as Hlt. pose proof (ri_len _ _ I) as Hn. eapply received_inv; [done|done|..]; rewrite ?Hm, ?Hn; try (cbn; lia); try (intros; naive_solver).
    intros j. case_decide as Hj; [subst j|done]. split; [by eauto|]. intros _. apply (ri_open _ _ I). right. left. rewrite Er. by left.
  - assert (j ≠ i) as Hne. { intros ->. destruct (ri_won _ _ I i (S k) Hm) as [_ Hno]. apply (Hno ok). rewrite Er. by left. }
    eapply received_inv; [done|done|by rewrite Hm|done| | |]; rewrite ?Hm.
    + intros j'. case_decide as Hj; [subst j'|destruct ok; set_solver]. assert (i ∉ rc_open r ∨ ok = true) as Hio.
      { destruct ok; [by right|left]. rewrite (ri_open _ _ I). unfold owned. rewrite Hm, Er. pose proof (ri_once _ _ I) as Hnd. rewrite Er in Hnd. apply NoDup_cons in Hnd as [Hni _].
        intros [Hc|[[[=]|Hin]%elem_of_cons|[k' [= ? ?]]]]; [|apply Hni, list_elem_of_fmap; by exists (i, true)|done]. pose proof (ri_sent _ _ I i false) as Hs. rewrite Er in Hs. rewrite Hs in Hc by (by left). done. }
      split; [|by intros [k' [= ? _]]]. destruct ok; [set_solver|]. by destruct Hio.
    + intros j' k' [= <- <-]. right. by eexists.
    + intros j' _ [k' [= <- _]]. by eexists.
Qed.

Lemma running0 n : length (filter (λ c, c ≠ CSent) (replicate n CConnect)) = n.
Proof. induction n as [|n IH]; [done|]. cbn [replicate]. rewrite filter_cons, decide_True by done. cbn. by rewrite IH. Qed.

Lemma race_reachable n r : 0 < n → rtc race_step (race0 n) r → race_inv n r.
Proof.
  intros Hn. assert (race_inv n (race0 n)) as I0.
  { split; cbn; try done.
    - by rewrite length_replicate. - unfold running. cbn. rewrite Nat.add_0_r, Nat.sub_0_r. apply running0.
    - naive_solver. - intros i. unfold owned. cbn. rewrite lookup_replicate. set_solver. - set_solver. - constructor. }
  intros Hs. remember (race0 n) as r0 eqn:E0. clear E0. induction Hs as [|r1 r2 r3 H12 _ IH]; [done|]. by apply IH, (race_step_inv n r1).
Qed.

(** Everyone is through: the results are sent and received. *)
Definition race_over (r : race) : Prop := running r = 0 ∧ rc_results r = [].

(** A dial over several addresses leaves one connection: whatever the order in which
    the candidates connect, answer, fail or are cut off, while there is a result to come
    someone can take a step, and when all are through, either one candidate won and its
    connection is the only one that is open, or all failed and none is. *)
Theorem race_keeps_one n r : 0 < n → rtc race_step (race0 n) r →
  (race_over r ∨ ∃ r', race_step r r') ∧
  (race_over r → match rc_main r with RcWait _ => False | RcWon i k => k = 0 ∧ i < n ∧ rc_open r = {[i]} | RcFailed => rc_open r = ∅ end).
Proof.
  intros Hn Hs. pose proof (race_reachable n r Hn Hs) as I. split.
  - destruct (decide (running r = 0)) as [Hr|Hr].
    + destruct (rc_results r) as [|[i ok] rest] eqn:Er; [by left|right]. pose proof (ri_count _ _ I) as Hc. rewrite Er in Hc. cbn in Hc.
      destruct (rc_main r) as [errs|j [|k]|] eqn:Em; [destruct ok|..]; cbn in Hc; try lia; eexists; [by eapply rc_win|by eapply rc_fail|by eapply rc_late].
    + right. unfold running in Hr. destruct (filter (λ c, c ≠ CSent) (rc_cands r)) as [|c l] eqn:Ef; [done|]. assert (c ∈ filter (λ c, c ≠ CSent) (rc_cands r)) as Hc by (rewrite Ef; by left).
      apply list_elem_of_filter in Hc as [Hne [i Hi]%list_elem_of_lookup]. destruct c; [by eexists; eapply rc_refused|by eexists; eapply rc_answered|done].
  - intros [Hr Hres]. pose proof (ri_count _ _ I) as Hc. rewrite Hr, Hres in Hc. cbn in Hc.
    assert (∀ i, rc_cands r !! i ≠ Some CHandshake) as Hno.
    { intros i Hi. unfold running in Hr. apply nil_length_inv in Hr. assert (CHandshake ∈ filter (λ c, c ≠ CSent) (rc_cands r)) as Hin by (apply list_elem_of_filter; split; [done|by eapply list_elem_of_lookup_2]).
      rewrite Hr in Hin. by apply elem_of_nil in Hin. }
    assert (∀ i, i ∈ rc_open r ↔ ∃ k, rc_main r = RcWon i k) as Hopen.
    { intros i. rewrite (ri_open _ _ I). unfold owned. rewrite Hres. split; [|by eauto]. intros [Hi|[Hi|Hi]]; [by apply Hno in Hi|by apply elem_of_nil in Hi|done]. }
    destruct (rc_main r) as [errs|i k|] eqn:Em; cbn in Hc.
    + pose proof (ri_errs _ _ I errs Em). lia.
    + split_and!; [done| |].
      * destruct (ri_won _ _ I i k Em) as [Hi%lookup_lt_Some _]. by rewrite (ri_len _ _ I) in Hi.
      * apply set_eq. intros j. rewrite Hopen, elem_of_singleton. split; [by intros [k' [= -> _]]|]. intros ->. by eexists.
    + apply set_eq. intros j. rewrite Hopen. split; [by intros [k [=]]|set_solver].
Qed.

(** Two candidates, the second one answers. *)
Definition race_two : race := MkRace [CSent; CSent] [] {[1]} (RcWon 1 0).

Lemma race_two_reached : rtc race_step (race0 2) race_two.
Proof.
  eapply rtc_l; [by apply (rc_connected _ 1)|]. eapply rtc_l; [by apply (rc_answered _ 1)|]. eapply rtc_l; [by eapply (rc_win _ 0 1 [])|].
  eapply rtc_l; [by apply (rc_refused _ 0)|]. eapply rtc_l; [by eapply (rc_late _ 1 0 0 false [])|]. unfold race_two. cbn.
  replace ({[1]} ∪ ∅ : gset nat) with ({[1]} : gset nat) by set_solver. apply rtc_refl.
Qed.

Lemma race_keeps_one_witness : rc_main race_two = RcWon 1 0 ∧ (race_over race_two → 0 = 0 ∧ 1 < 2 ∧ rc_open race_two = {[1]}).
Proof. split; [reflexivity|]. exact (proj2 (race_keeps_one 2 race_two ltac:(lia) race_two_reached)). Defined.

Lemma pool_bounded_witness : ∃ s, rtc (pool_step 1) net0 s ∧ nt_callers s !! 0 = Some (a_peer, GDial) ∧
  ((∀ k, length (conns_of (nt_pool s) k) ≤ 1 ∧ NoDup (conns_of (nt_pool s) k)) ∧ ∀ i j k, nt_callers s !! i = Some (k, GDial) → nt_callers s !! j = Some (k, GDial) → i = j).
Proof.
  destruct (turns_reach 1 two_dial (is_at 0 GDial) net0) as (s & Hs & _ & Ht); [vm_compute; reflexivity|].
  exists s. split; [exact Hs|]. split; [by apply bool_decide_eq_true in Ht|]. exact (pool_bounded 1 ltac:(lia) s Hs).
Defined.
